(* ===== verification/_CoqProject ===== *)
-Q . S2P
Prelude.v
Order.v
Lease.v
LeaseSystem.v
LeaseSafety.v
LeaseExclusion.v
LeaseSpec.v
BinTree.v
RBTree.v
RBTreeSpec.v
AVLTree.v
SplayTree.v
OrderedMap.v
BinaryHeap.v
PriorityQueue.v
HeapSpec.v
CircularBuffer.v
GoStrings.v
CronSchedule.v
Lifecycle.v
LifecycleSpec.v
LeaseClients.v
CronJob.v
CronSpec.v
Strconv.v
Codec.v
Registry.v
Caches.v
CachesSpec.v
Dcache.v
DcacheSpec.v
PathMatch.v
RbacPolicies.v
RbacRoles.v
RbacDecision.v
RbacSpec.v
RbacQueries.v
RbacWrites.v
RbacWritesSpec.v
RbacProcess.v
RbacBatches.v
PbSchema.v
PbContract.v
PbSchemaSpec.v
PbNumbering.v
PbNumberingSpec.v
UrlQuery.v
Paging.v
UrlQuerySpec.v
Listing.v
ListingSpec.v
Predicate.v
PredicateSpec.v
PredicateText.v
Writes.v
WritesBase.v
WritesSpec.v
WritesLocking.v
WritesDelete.v
Tenants.v
TenantsSpec.v
Upserts.v
UpsertsSpec.v
UpsertsSync.v
Query.v
QuerySpec.v
Redis.v
RedisSafe.v
Sessions.v
SessionsSafe.v
SessionsOps.v
SessionsServices.v
SessionsLogin.v
SessionsSystem.v
SessionsSpec.v
SecondFactor.v
SecondFactorSystem.v
SecondFactorRequests.v
SecondFactorSpec.v
Trie.v
