(* ===== verification/Prelude.v ===== *)
(** * Verification of the gst framework: overview

    gst is a framework for Go services on a relational database.  What its
    own logic decides, rather than what it hands to gin, gorm or the clients
    it wraps, is modelled here: who is signed in, until when, by which proofs,
    and who is authorized; who holds a name across the replicas of a
    deployment and runs a scheduled instant; what a write leaves in a table
    and whose rows it can reach, and which rows a filter, a query, a page or a
    feed selects; how a replicated cache comes to agree; what a generated
    protobuf file may change; in which order the parts of a process live; and
    the containers the framework ships.  Paths are under [src/].

    ** Parts and files

    Shared.  [Prelude]: fallible code ([result], after Go's value-and-error
    pairs), sequences of steps, tactics.  [GoStrings], [Strconv]:
    what the source uses of Go's standard library on byte strings, UTF-8 and
    numbers as text.

    Leases ([internal/lease], [cronjob], [leader], [lock]).  A row of a table
    makes a name exclusive across replicas.  [Lease] has the statements of
    [lease.go] and [slot.go] as the database executes them at its clock, and
    each operation as a tree of statements and clock readings; [LeaseSystem]
    runs the operations of any number of processes statement by statement,
    with failing statements, lost answers and drifting clocks, and has the
    renewal loop of [hold.go] as the phases of an actor.  [LeaseSafety] and
    [LeaseExclusion] are the invariants, [LeaseSpec] the theorems.
    [LeaseClients] is [Run], the leader and the lock; [CronSchedule] and
    [CronJob] are a job of the scheduler, [CronSpec] its theorems.  A job's
    settlement is one of the statements an actor of [LeaseSystem] ends with.

    Lifecycle ([internal/lifecycle]).  [Lifecycle] is the registry of
    components, the calls it makes, the failures that end a process and
    [Interrupted]; [LifecycleSpec] its theorems.

    Authorization ([authz/rbac]).  [PathMatch] is the template language of
    [pathmatch.go], down to Go's decoding of UTF-8, and what a template
    matches.  [RbacPolicies] is the policy set of [policies.go],
    [RbacRoles] the role graph and its two walks, [RbacDecision] the index and
    the decision with the matcher that specifies it, [RbacSpec] their
    agreement, [RbacQueries] enforcement and the reads.  [RbacWrites] is a
    write as a batch applied to storage and, after the commit, to memory
    ([adapter.go], [mutation.go], [reload.go], [permission.go],
    [assignment.go]) and the process in which batches overlap;
    [RbacWritesSpec], [RbacProcess] and [RbacBatches] are what it preserves.

    Sessions ([internal/service/iam/session], [account/login.go]).  [Redis] is
    the commands of [src/redis], what the server is documented to do with
    them, and a system that runs any number of programs over it command by
    command, refusing commands and losing answers; [RedisSafe] a
    rely-guarantee logic for such programs, and runs told by a schedule.
    [Sessions] is the store of sessions, the authentication of a request, the
    services that list and end sessions, logins and the counter of failed
    ones.  [SessionsSafe] fixes one session and says what a step may do to it;
    [SessionsOps], [SessionsServices] and [SessionsLogin] show each program to
    do no more and what it leaves behind, [SessionsSystem] gathers them by
    request, and [SessionsSpec] has the theorems about all runs and concrete
    ones, with those that the theorems leave out.

    Second factor ([internal/service/mfa]).  [SecondFactor] has the services
    of the module as programs over Redis and the table of devices: the
    verification of a login, the removal and the enrolment of a device, the
    administrator's reset and the status, with the budget of attempts, the
    marks of used codes and the recovery codes.  [SecondFactorSystem] is the
    table with its transactions and the rows they hold, and a labelled system
    that serves any number of requests and records what each did;
    [SecondFactorRequests] follows one request along its record,
    [SecondFactorSpec] has the invariant of the system, the theorems and runs.

    Requests and the database layer ([internal/urlquery], [database]).  A list
    request is read by [UrlQuery] (its keys, filters and refusals) and
    [Paging] (its order, cursor and page), with [UrlQuerySpec]; [Listing] is
    the paging of a chain and the reading half of [List], over an engine that
    may order equal rows as it likes, with [ListingSpec].  [Predicate] turns a
    tree of filters into the condition of a statement on each dialect
    ([filter.go], [dialect.go]); [PredicateSpec] gives a condition its rows,
    in three values and with the names resolved, and compares them with what
    the filters mean, and [PredicateText] is about the text of a statement.
    [Query] is [WithQuery], which puts the conditions on a chain.  [Writes] is
    Create, Update, UpdateByID, Delete, Transaction and AfterCommit
    ([write.go], [transaction_boundary.go] and the files beside them) as
    programs over a heap of objects, a table and a transaction; [WritesBase]
    states what is relied on of gorm, [WritesSpec] that a write that fails
    leaves nothing, [WritesLocking] what an update saves and overwrites,
    [WritesDelete] what a delete removes and that a write takes effect as a
    whole, and [QuerySpec] a delete by a query, of its model's values and its
    filters.
    [Tenants] is the tenant a context acts in ([internal/tenant]) and the
    engine that the clauses of the tenant column make of another one, so that
    the writes of [Writes] run over it unchanged; [TenantsSpec] compares runs
    over two tables that differ in the rows of other tenants.  [Upserts] is
    Upsert of [upsert.go] with its look at the keys of other tenants, its
    conflict update and the reading back of its objects; [UpsertsSpec] states
    what is relied on of a merge and what it leaves alone, [UpsertsSync] what
    an object is left with, with an engine that merges as documented and the
    concrete runs.

    Caches ([internal/cache], [dcache]).  [Codec] and [Registry] are how a
    value is encoded and how a backend is made once per type, [Caches] the ten
    backends of [types.Cache] over their libraries, [CachesSpec] the contract
    they share.  [Dcache] is the cache replicated through a topic, [DcacheSpec]
    a system of its instances under any order of delivery.

    Protobuf definitions ([internal/pbschema]).  [PbSchema] holds a generated
    file to the committed one; [PbContract] is the reserved ranges and the
    contract of a message, [PbSchemaSpec] is about whole files
    and generations.  [PbNumbering] numbers the fields of a Go struct, with
    [PbNumberingSpec].

    Containers ([ds]).  [Order] is the sorted list of entries an ordered
    container stands for, [BinTree] what the three trees share; [RBTree] with
    [RBTreeSpec], [AVLTree], [SplayTree]; [OrderedMap] is the interface all
    three implement.
    [BinaryHeap] and [PriorityQueue] with [HeapSpec]; [CircularBuffer];
    [Trie], with the map from sequences it stands for and the runs in which
    it is not one.

    ** What the theorems show

    Authorization: a decision answered from the index is the one the matcher
    defines over the stored rules; a request proceeds exactly when its subject
    is granted the action, with the reach of the grant; memory decides from
    the stored rules once the batches of a process are through, under every
    interleaving, when the database makes overlapping batches wait for each
    other, and can keep a removed rule when it does not.

    Sessions: one that was answered as ended is admitted no more, whatever is
    served beside it and whatever commands fail; a revocation of all sessions
    of a user reaches every earlier one, when no login of the user runs beside
    it, and does not when one does; and a session is admitted only to the
    device it was opened on, and for four requests only while its user has to
    change the password.

    Second factor: of a user no more proofs are judged than five in a window
    for logins and five for removals, and five more each time a proof or an
    administrator makes them forgotten,
    a one-time code passes one request while it is valid, and a recovery code
    as many as were handed out, under every interleaving of requests and every
    failure; and the recovery codes that are shown are those that are
    accepted.

    Writes: whichever statement, hook or commit fails, a write outside a
    transaction leaves the table as it was and runs nothing registered for
    after the commit, or all of it is in the table; an update of a versioned model overwrites nothing but the row its
    caller read, over any history of writes; what an update saves and a delete
    removes, row by row; a delete by a query removes the rows that were asked
    for, and every row only where that was asked for.  A write of one tenant
    changes no row of another, and an update or a delete cannot tell what
    those rows are but by the database failing it; an upsert of every column
    merges into none of them by any of its keys, when nothing else writes
    between its two statements.
    What it does merge into keeps its id, its creator and its tenant and moves
    no version back, and the object of an upsert holds the id of a row.

    Reads: filters select the rows they mean through every place, group and
    correlated subquery, or fail the chain or narrow it to no row; no value
    a filter compares with reaches the text of a statement; pages of a list
    partition it and a feed reads every row that stays exactly once, whatever
    happens between its pages; no key of a list request is ignored.

    Replicated cache: instances that have handled the same events agree, an
    older write never replaces a newer one, and a system whose events are
    delivered comes to agree, while no two writes of a key carry one stamp, no
    publication is lost and no table of stamps evicts.  Caches: six backends
    keep the contract of [types.Cache], for lifetimes within stated limits.  Protobuf: a generated file is accepted exactly
    when it keeps the committed contract, any number of generations keep it,
    and the numbers given to fields respect it, and settle when every field
    got one.

    Leases: at most one tenure of a name; where rounds record their end in
    time, every instant granted at most twice and the record of a name never
    going back; the renewals ending before the database lets the name go.
    Jobs: no instant the schedule owes is handed out twice or piled on a
    round, be it a caught-up one or a second run; the catch-up finds the most
    recent one, the tries of a claim
    end.  Lifecycle: one start and one stop of each component, in order and in
    reverse.  Containers: every operation keeps its shape invariant, never
    dereferences nil or leaves a slice's bounds, and acts as the sorted list,
    the multiset, the bounded sequence or the map from sequences it stands
    for; the trie while the empty sequence is not among its keys.

    ** Conventions, bounds and fuel

    Times are nanoseconds or milliseconds as integers; where the source
    computes on 64 bits and could wrap, the wrap is written
    ([wrap64], [Lease.uint64_add]).  Go's [nil] results and
    panics are [None] or a panic value.  Loops that are not structural take
    fuel that is proved enough: a trimmed string's length, the height of a
    tree, forty halvings of a day for the bisection of
    [CronSchedule.bisect], two to the sixty-fourth rounds by doubling for
    [CronSchedule.instantsBetween], the length of a list for its batches
    ([Writes.slices]).  Code outside the repository is an
    argument with its documented behaviour: a cron library's schedule answers
    the first instant after a moment ([CronSchedule.Schedule]); a comparison
    of keys is a total order ([Order.Comparison]); when a write waits for an
    uncommitted one ([RbacWrites.step]); the libraries under the caches
    ([Caches.LibraryLaws]), up to the longest lifetime they take; the reading of a page ([Listing.Engine]), the
    evaluation of a condition ([PredicateSpec.Evaluates]) and the statements
    of a write ([WritesBase.Documented]) by gorm and the database, the
    conditions on a tenant ([TenantsSpec.Tenanted]) and the merge of an upsert
    ([UpsertsSpec.Merging]), where the database compares tenant ids exactly
    and keys by an equality that is an argument, and nothing else writes
    between the look at the keys and the insert, the window [upsert.go]
    documents; the
    commands of Redis ([Redis.Documented]), the JSON of a snapshot
    ([SessionsSafe.Snapshots]) and a second factor that writes no key of a
    session ([SessionsLogin.aside]).  Of the statements of the second factor
    it is taken as documented that rows listed for update or written stay
    with their transaction until it ends, and that its changes appear as a
    whole ([SecondFactorSystem.runs]); the algorithm of one-time codes and HMAC
    are arguments that nothing is assumed of.  An id drawn from 32 random bytes is
    taken to be drawn once ([SessionsSpec.drawn_once]).  Each has a
    concrete instance at which the theorems are applied.

    ** What is not modelled, and what comes next

    The HTTP and gRPC glue, configuration, logging, tracing and the wrapped
    clients are left out: their behaviour is that of third-party code.  Of the
    database layer, the branches of ClickHouse, dry runs, and the joined and
    grouped selects are left out; of the protobuf definitions, the mapping of
    types.  Still to model: these; the validation of a job's registration; the
    remaining containers (skip list, lists, sets); the rate limiter;
    bootstrap over the lifecycle; the code generator and the checker. *)

From stdpp Require Import base list gmap strings sorting.
From Stdlib Require Import ZArith Lia.

(** ** Fallible code

    A Go function returning [(T, error)] is a value of [result E T]: the
    error of the failing path, or the value of the successful one. *)

Inductive result (E A : Type) : Type :=
| Ok (a : A)
| Err (e : E).
Arguments Ok {E A} _.
Arguments Err {E A} _.

Definition rbind {E A B} (m : result E A) (k : A -> result E B) : result E B :=
  match m with
  | Ok a => k a
  | Err e => Err e
  end.

Declare Scope result_scope.
Delimit Scope result_scope with result.
Notation "'let?' x ':=' m 'in' k" := (rbind m (fun x => k))
  (at level 10, x pattern, m at level 100, k at level 200) : result_scope.

Definition is_ok {E A} (m : result E A) : bool :=
  match m with Ok _ => true | Err _ => false end.

#[export] Instance result_eq_dec {E A} `{EqDecision E, EqDecision A} :
  EqDecision (result E A).
Proof. solve_decision. Defined.

Lemma rbind_Ok {E A B} (m : result E A) (k : A -> result E B) b :
  rbind m k = Ok b <-> exists a, m = Ok a /\ k a = Ok b.
Proof.
  split.
  - destruct m as [a|e]; simpl; [eauto | discriminate].
  - intros (a & -> & H). exact H.
Qed.

Lemma rbind_Err {E A B} (m : result E A) (k : A -> result E B) e :
  rbind m k = Err e <-> m = Err e \/ exists a, m = Ok a /\ k a = Err e.
Proof.
  split.
  - destruct m as [a|e']; simpl; intros H; [right; eauto | left; congruence].
  - intros [->|(a & -> & H)]; [done | exact H].
Qed.

(** ** Transition sequences *)

Section Star.
Context {A : Type} (R : A -> A -> Prop).

Inductive steps : A -> A -> Prop :=
| steps_refl x : steps x x
| steps_snoc x y z : steps x y -> R y z -> steps x z.

Lemma steps_trans x y z : steps x y -> steps y z -> steps x z.
Proof. intros Hxy Hyz. induction Hyz; eauto using steps. Qed.

Lemma steps_cons x y z : R x y -> steps y z -> steps x z.
Proof. intros H Hs. apply (steps_trans x y z); [|done]. eauto using steps. Qed.

Lemma steps_invariant (I : A -> Prop) :
  (forall x y, I x -> R x y -> I y) -> forall x y, steps x y -> I x -> I y.
Proof. intros Hstep x y Hxy. induction Hxy; eauto. Qed.
End Star.
Arguments steps {A} R _ _.

(** ** Integers of 32 and 64 bits *)

(** A signed integer of 32 bits, as Go wraps it. *)
Definition wrap32 (x : Z) : Z := ((x + 2 ^ 31) mod 2 ^ 32 - 2 ^ 31)%Z.

Lemma wrap32_id x : (- 2 ^ 31 <= x < 2 ^ 31)%Z -> wrap32 x = x.
Proof. intros H. unfold wrap32. rewrite Z.mod_small; lia. Qed.

(** A signed integer of 64 bits, as Go wraps it. *)
Definition wrap64 (x : Z) : Z := ((x + 2 ^ 63) mod 2 ^ 64 - 2 ^ 63)%Z.

Lemma wrap64_id x : (- 2 ^ 63 <= x < 2 ^ 63)%Z -> wrap64 x = x.
Proof. intros H. unfold wrap64. rewrite Z.mod_small; lia. Qed.

(** ** Lists *)

Lemma app_mid {A} (l1 l2 : list A) x : l1 ++ x :: l2 = (l1 ++ [x]) ++ l2.
Proof. by rewrite <- app_assoc. Qed.

(** A key that no two elements share picks its element. *)
Lemma NoDup_key {A K} (key : A -> K) l a b : NoDup (key <$> l) -> a ∈ l -> b ∈ l -> key a = key b -> a = b.
Proof.
  induction l as [|x l IH]; [intros _ []%elem_of_nil|]. rewrite fmap_cons, NoDup_cons. intros [Hx Hn] Ha Hb E.
  assert (forall y, y ∈ l -> key x <> key y) as Hne by (intros y Hy Ey; apply Hx; rewrite Ey; by apply list_elem_of_fmap_2).
  apply elem_of_cons in Ha as [->|Ha], Hb as [->|Hb]; try done; [by destruct (Hne b)|by destruct (Hne a)|by apply IH].
Qed.

Lemma filter_all {A} (P : A -> Prop) `{!forall x, Decision (P x)} (l : list A) : (forall x, x ∈ l -> P x) -> filter P l = l.
Proof.
  induction l as [|x l IH]; intros Hl; [done|]. rewrite filter_cons_True by (apply Hl; constructor).
  f_equal. apply IH. intros y Hy. apply Hl. by constructor.
Qed.

Lemma omap_nil_iff {A B} (f : A -> option B) l : omap f l = [] <-> forall x, x ∈ l -> f x = None.
Proof.
  induction l as [|x l IH]; cbn; [split; [intros _ y []%elem_of_nil|done]|].
  destruct (f x) eqn:E.
  - split; [done|]. intros H. rewrite (H x) in E by constructor. done.
  - rewrite IH. split; [intros H y [->|Hy]%elem_of_cons; auto|intros H y Hy; apply H; by constructor].
Qed.

Lemma concat_nil_iff {A} (l : list (list A)) : concat l = [] <-> forall x, x ∈ l -> x = [].
Proof.
  induction l as [|x l IH]; cbn; [split; [intros _ y []%elem_of_nil|done]|].
  rewrite app_nil, IH. split; [intros [-> H] y [->|Hy]%elem_of_cons; auto|].
  intros H. split; [apply H; constructor|intros y Hy; apply H; by constructor].
Qed.

(** The elements a callback is called with that stops an iteration by
    answering false. *)
Fixpoint called {A} (fn : A -> bool) (l : list A) : list A :=
  match l with
  | [] => []
  | x :: l => x :: (if fn x then called fn l else [])
  end.

(** What a map holds that collects a list by key, the last of a key. *)
Definition collect {A K V} `{Countable K} (key : A -> K) (val : A -> V) (l : list A) : gmap K V :=
  foldl (fun m a => <[key a := val a]> m) ∅ l.

Section Collect.
Context {A K V : Type} `{Countable K} (key : A -> K) (val : A -> V).

Lemma collect_snoc l a : collect key val (l ++ [a]) = <[key a := val a]> (collect key val l).
Proof. unfold collect. by rewrite foldl_app. Qed.

Lemma collect_Some l k v : collect key val l !! k = Some v -> exists a, a ∈ l /\ key a = k /\ val a = v.
Proof.
  induction l as [|a l IH] using rev_ind; [done|]. rewrite collect_snoc, lookup_insert_Some.
  intros [[<- <-]|[_ (b & Hb & Hk)%IH]]; [exists a|exists b]; set_solver.
Qed.

Lemma collect_None l k : collect key val l !! k = None <-> k ∉ key <$> l.
Proof.
  induction l as [|a l IH] using rev_ind; [set_solver|].
  rewrite collect_snoc, lookup_insert_None, IH, fmap_app. set_solver.
Qed.

Lemma collect_NoDup l a : NoDup (key <$> l) -> a ∈ l -> collect key val l !! key a = Some (val a).
Proof.
  induction l as [|b l IH] using rev_ind; [set_solver|].
  rewrite fmap_app, NoDup_app, collect_snoc. intros (Hd & Hn & _) [Ha| ->%list_elem_of_singleton]%elem_of_app.
  - rewrite lookup_insert_ne; [auto|]. intros E. apply (Hn (key a)); [by apply list_elem_of_fmap_2|]. rewrite <- E. simpl. constructor.
  - by rewrite lookup_insert_eq.
Qed.
End Collect.

(** ** Tactics *)

(** Case analysis on every boolean integer comparison of the goal. *)
Ltac case_cmp :=
  repeat match goal with
  | |- context [Z.eqb ?a ?b] => destruct (Z.eqb_spec a b); try lia
  | |- context [Z.ltb ?a ?b] => destruct (Z.ltb_spec a b); try lia
  | |- context [Z.leb ?a ?b] => destruct (Z.leb_spec a b); try lia
  | |- context [Nat.eqb ?a ?b] => destruct (Nat.eqb_spec a b); try lia
  | |- context [Nat.ltb ?a ?b] => destruct (Nat.ltb_spec a b); try lia
  | |- context [Nat.leb ?a ?b] => destruct (Nat.leb_spec a b); try lia
  end.

(** The same in hypothesis [H]. *)
Ltac case_cmp_in H :=
  repeat match type of H with
  | context [Z.eqb ?a ?b] => destruct (Z.eqb_spec a b); try lia
  | context [Z.ltb ?a ?b] => destruct (Z.ltb_spec a b); try lia
  | context [Z.leb ?a ?b] => destruct (Z.leb_spec a b); try lia
  | context [Nat.eqb ?a ?b] => destruct (Nat.eqb_spec a b); try lia
  | context [Nat.ltb ?a ?b] => destruct (Nat.ltb_spec a b); try lia
  | context [Nat.leb ?a ?b] => destruct (Nat.leb_spec a b); try lia
  end.

(** Case analysis on one scrutinee of hypothesis [H], keeping the equation. *)
Ltac case_in H :=
  match type of H with
  | context [match ?x with _ => _ end] =>
      lazymatch x with
      | context [match _ with _ => _ end] => fail
      | _ => let E := fresh "E" in destruct x eqn:E
      end
  end.

(** Booleans of the code as propositions. *)
Ltac boolify :=
  repeat match goal with
  | H : Z.eqb _ _ = true |- _ => apply Z.eqb_eq in H
  | H : Z.eqb _ _ = false |- _ => apply Z.eqb_neq in H
  | H : Z.ltb _ _ = true |- _ => apply Z.ltb_lt in H
  | H : Z.ltb _ _ = false |- _ => apply Z.ltb_ge in H
  | H : Z.leb _ _ = true |- _ => apply Z.leb_le in H
  | H : Z.leb _ _ = false |- _ => apply Z.leb_gt in H
  | H : Nat.eqb _ _ = true |- _ => apply Nat.eqb_eq in H
  | H : Nat.eqb _ _ = false |- _ => apply Nat.eqb_neq in H
  | H : andb _ _ = true |- _ => apply andb_prop in H as [? ?]
  | H : andb _ _ = false |- _ => apply andb_false_iff in H
  | H : orb _ _ = false |- _ => apply orb_false_iff in H as [? ?]
  | H : orb _ _ = true |- _ => apply orb_true_iff in H
  | H : negb _ = true |- _ => apply negb_true_iff in H
  | H : negb _ = false |- _ => apply negb_false_iff in H
  | H : bool_decide _ = true |- _ => apply bool_decide_eq_true in H
  | H : bool_decide _ = false |- _ => apply bool_decide_eq_false in H
  | H : String.eqb _ _ = true |- _ => apply String.eqb_eq in H
  | H : String.eqb _ _ = false |- _ => apply String.eqb_neq in H
  end.

(** Equality of concatenations up to associativity. *)
Ltac list_assoc :=
  simpl; repeat (progress (rewrite <- ?app_assoc; simpl)); reflexivity.

(** ** Loops that search

    [p] turns of a loop that may end early with an answer: the number of
    turns is binary, so a bound in the hundreds of millions costs nothing
    where the answer comes early. *)
Fixpoint turns {S R : Type} (p : positive) (step : S -> S + R) (s : S) : S + R :=
  match p with
  | xH => step s
  | xO p => match turns p step s with inl s => turns p step s | r => r end
  | xI p =>
      match step s with
      | inl s => match turns p step s with inl s => turns p step s | r => r end
      | r => r
      end
  end.

(** The loop [for c < max { c++; if !taken(c) { return c } }]: the first
    number after [c] that is not taken, and where the loop left [c]. *)
Definition next_free (taken : Z -> bool) (max c : Z) : Z + Z :=
  if (c <? max)%Z
  then turns (Z.to_pos (max - c)) (fun c => let c := (c + 1)%Z in if taken c then inl c else inr c) c
  else inl c.

Section Search.
Local Open Scope Z_scope.
Variable taken : Z -> bool.
Local Abbreviation step := (fun c => let c := c + 1 in if taken c then inl c else inr c).

(** What [k] turns from [c] come to. *)
Definition searched (c k : Z) (r : Z + Z) : Prop :=
  match r with
  | inl c' => c' = c + k /\ forall m, c < m <= c + k -> taken m = true
  | inr n => c < n <= c + k /\ taken n = false /\ forall m, c < m < n -> taken m = true
  end.

Lemma searched_step c : searched c 1 (step c).
Proof.
  unfold searched. cbn. destruct (taken (c + 1)) eqn:Ht; repeat split; try lia; [|done].
  intros m Hm. by replace m with (c + 1) by lia.
Qed.

Lemma searched_app c j k c' r : 0 <= j -> 0 <= k -> searched c j (inl c') -> searched c' k r -> searched c (j + k) r.
Proof.
  unfold searched. intros ?? [-> H1]. destruct r as [c2|n].
  - intros [-> H2]. split; [lia|]. intros m Hm. destruct (decide (m <= c + j)); [apply H1|apply H2]; lia.
  - intros (? & ? & H2). split; [lia|]. split; [done|]. intros m Hm.
    destruct (decide (m <= c + j)); [apply H1|apply H2]; lia.
Qed.

Lemma searched_more c j k n : 0 <= k -> searched c j (inr n) -> searched c (j + k) (inr n).
Proof. unfold searched. intros ? (? & ? & ?). split; [lia|]. by split. Qed.

Lemma turns_search p c : searched c (Zpos p) (turns p step c).
Proof.
  revert c. induction p as [p IH|p IH|]; intros c; cbn [turns]; [| |apply searched_step].
  - replace (Z.pos p~1) with (1 + (Z.pos p + Z.pos p)) by lia. pose proof (searched_step c) as H1.
    destruct (step c) as [c1|n1]; [|by apply searched_more]. apply (searched_app c 1 _ c1); [lia..|done|].
    pose proof (IH c1) as H2. destruct (turns p step c1) as [c2|n2]; [|by apply searched_more].
    by apply (searched_app c1 (Z.pos p) _ c2).
  - replace (Z.pos p~0) with (Z.pos p + Z.pos p) by lia.
    pose proof (IH c) as H1. destruct (turns p step c) as [c1|n1]; [|by apply searched_more].
    by apply (searched_app c (Z.pos p) _ c1).
Qed.

Lemma next_free_ok max c :
  match next_free taken max c with
  | inl c' => c' = Z.max c max /\ forall m, c < m <= max -> taken m = true
  | inr n => c < n <= max /\ taken n = false /\ forall m, c < m < n -> taken m = true
  end.
Proof.
  unfold next_free. case_cmp; [|split; [lia|lia]].
  pose proof (turns_search (Z.to_pos (max - c)) c) as Hs. rewrite Z2Pos.id in Hs by lia.
  unfold searched in Hs. destruct (turns _ _ _) as [c'|n].
  - destruct Hs as [-> Hs]. split; [lia|]. intros m Hm. apply Hs. lia.
  - destruct Hs as (? & ? & ?). split; [lia|]. by split.
Qed.
End Search.
