(* ===== verification/Order.v ===== *)
(** * Comparison functions and key-sorted lists

    The ordered containers of [ds/] take a comparison function returning an
    [int].  What they promise is stated against lists of entries sorted by
    key: [lfind], [linsert] and [ldelete] are the operations of the abstract
    sorted map, and the lemmas say how they act on the in-order list of a
    search tree. *)

From stdpp Require Import base list sorting.
From Stdlib Require Import ZArith Lia Sorted.
From S2P Require Import Prelude.
Local Open Scope Z_scope.

(** The contract of a comparison function: a strict weak order. *)
Class Comparison {K : Type} (cmp : K -> K -> Z) : Prop := {
  cmp_sym a b : Z.sgn (cmp a b) = - Z.sgn (cmp b a);
  cmp_trans a b c : cmp a b < 0 -> cmp b c < 0 -> cmp a c < 0;
  cmp_eq_lt a b c : cmp a b = 0 -> cmp b c < 0 -> cmp a c < 0
}.

(** [cmp.Compare] on integers. *)
Definition compareZ (a b : Z) : Z :=
  if a <? b then -1 else if b <? a then 1 else 0.

#[export] Instance compareZ_comparison : Comparison compareZ.
Proof.
  split; unfold compareZ; intros; case_cmp;
    repeat match goal with H : context [if ?b then _ else _] |- _ =>
      destruct b eqn:?; boolify end; simpl; try lia.
Qed.

Section Order.
Context {K : Type} (cmp : K -> K -> Z) `{!Comparison cmp}.

Lemma cmp_refl a : cmp a a = 0.
Proof. pose proof (cmp_sym a a). lia. Qed.

Lemma cmp_gt_lt a b : 0 < cmp a b <-> cmp b a < 0.
Proof. pose proof (cmp_sym a b). lia. Qed.

Lemma cmp_eq_sym a b : cmp a b = 0 <-> cmp b a = 0.
Proof. pose proof (cmp_sym a b). lia. Qed.

Lemma cmp_lt_eq a b c : cmp a b < 0 -> cmp b c = 0 -> cmp a c < 0.
Proof.
  intros H1 H2. apply cmp_gt_lt.
  destruct (Z.lt_trichotomy (cmp c a) 0) as [H|[H|H]]; [| |done].
  - apply cmp_eq_sym in H2.
    pose proof (cmp_trans _ _ _ H H1). lia.
  - pose proof (cmp_eq_lt _ _ _ H H1). apply cmp_eq_sym in H2. lia.
Qed.

Lemma cmp_eq_trans a b c : cmp a b = 0 -> cmp b c = 0 -> cmp a c = 0.
Proof.
  intros H1 H2. apply cmp_eq_sym in H1 as H1'. apply cmp_eq_sym in H2 as H2'.
  destruct (Z.lt_trichotomy (cmp a c) 0) as [H|[H|H]]; [|done|].
  - pose proof (cmp_eq_lt b a c H1' H). lia.
  - apply cmp_gt_lt in H. pose proof (cmp_eq_lt b c a H2 H). lia.
Qed.

Lemma cmp_le_trans a b c : cmp a b <= 0 -> cmp b c <= 0 -> cmp a c <= 0.
Proof.
  intros H1 H2. destruct (Z.eq_dec (cmp a b) 0) as [E1|E1], (Z.eq_dec (cmp b c) 0) as [E2|E2].
  - rewrite (cmp_eq_trans a b c); lia.
  - pose proof (cmp_eq_lt a b c E1). lia.
  - pose proof (cmp_lt_eq a b c). lia.
  - pose proof (cmp_trans a b c). lia.
Qed.
End Order.

(** ** The abstract sorted map *)

Section SortedMap.
Context {K V : Type} (cmp : K -> K -> Z) `{!Comparison cmp}.

Definition entry_lt (p q : K * V) : Prop := cmp p.1 q.1 < 0.
Definition ksorted (l : list (K * V)) : Prop := StronglySorted entry_lt l.

Definition keys_below (k : K) (l : list (K * V)) : Prop :=
  Forall (fun e => cmp e.1 k < 0) l.
Definition keys_above (k : K) (l : list (K * V)) : Prop :=
  Forall (fun e => cmp k e.1 < 0) l.

(** The value under [k]; the entry of [k] replaced by [upd], or [e] inserted
    in order; the entries other than [k]'s. *)
Fixpoint lfind (k : K) (l : list (K * V)) : option V :=
  match l with
  | [] => None
  | e :: l => if cmp e.1 k =? 0 then Some e.2 else lfind k l
  end.

Fixpoint linsert (upd : K * V -> K * V) (k : K) (v : V) (l : list (K * V)) :
    list (K * V) :=
  match l with
  | [] => [(k, v)]
  | e :: l' =>
      if cmp e.1 k =? 0 then upd e :: l'
      else if cmp e.1 k <? 0 then e :: linsert upd k v l'
      else (k, v) :: e :: l'
  end.

Fixpoint ldelete (k : K) (l : list (K * V)) : list (K * V) :=
  match l with
  | [] => []
  | e :: l => if cmp e.1 k =? 0 then l else e :: ldelete k l
  end.

(** The last entry at or before [k], and the first at or after it. *)
Fixpoint lfloor (k : K) (l : list (K * V)) (acc : option (K * V)) :
    option (K * V) :=
  match l with
  | [] => acc
  | e :: l => if cmp e.1 k <=? 0 then lfloor k l (Some e) else acc
  end.

Fixpoint lceiling (k : K) (l : list (K * V)) : option (K * V) :=
  match l with
  | [] => None
  | e :: l => if 0 <=? cmp e.1 k then Some e else lceiling k l
  end.

(** ** Sortedness of a concatenation *)

Lemma ksorted_app l1 l2 :
  ksorted (l1 ++ l2) <->
  ksorted l1 /\ ksorted l2 /\ (forall e1 e2, e1 ∈ l1 -> e2 ∈ l2 -> entry_lt e1 e2).
Proof.
  unfold ksorted. induction l1 as [|e l1 IH]; simpl.
  - split; [|tauto]. intros H. split; [constructor|]. split; [done|].
    intros e1 e2 Hin. by apply elem_of_nil in Hin.
  - split.
    + intros H. apply StronglySorted_inv in H as [H Hf].
      apply Forall_app in Hf as [Hf1 Hf2].
      apply IH in H as (H1 & H2 & H12). split; [by constructor|]. split; [done|].
      intros e1 e2 [->|Hin]%elem_of_cons He2; [|by apply H12].
      rewrite Forall_forall in Hf2. by apply Hf2.
    + intros (H1 & H2 & H12). apply StronglySorted_inv in H1 as [H1 Hf].
      constructor.
      * apply IH. repeat split; try done. intros e1 e2 ? ?. apply H12; [|done].
        by apply elem_of_cons; right.
      * apply Forall_app. split; [done|]. apply Forall_forall. intros e2 He2.
        apply H12; [apply elem_of_cons; by left|done].
Qed.

Lemma ksorted_mid l1 e l2 :
  ksorted (l1 ++ e :: l2) <->
  ksorted l1 /\ ksorted l2 /\ keys_below e.1 l1 /\ keys_above e.1 l2.
Proof.
  rewrite ksorted_app. unfold keys_below, keys_above. split.
  - intros (H1 & H2 & H12). apply StronglySorted_inv in H2 as [H2 Hf].
    split; [done|]. split; [done|]. split; [|done].
    apply Forall_forall. intros e1 He1. apply H12; [done|apply elem_of_cons; by left].
  - intros (H1 & H2 & Hb & Ha). split; [done|]. split; [by constructor|].
    intros e1 e2 He1 [->|He2]%elem_of_cons.
    + rewrite Forall_forall in Hb. by apply Hb.
    + rewrite Forall_forall in Hb. rewrite Forall_forall in Ha.
      specialize (Hb _ He1). specialize (Ha _ He2). unfold entry_lt.
      eapply cmp_trans; [exact Hb|exact Ha].
Qed.

(** Sortedness of a concrete list, by computation. *)
Fixpoint ksortedb (l : list (K * V)) : bool :=
  match l with
  | e :: (e' :: _) as l' => (cmp e.1 e'.1 <? 0) && ksortedb l'
  | _ => true
  end.

Lemma ksortedb_ok l : ksortedb l = true -> ksorted l.
Proof.
  intros H. apply Sorted_StronglySorted; [intros ? ? ?; apply cmp_trans|].
  induction l as [|e [|e' l] IH]; [constructor|repeat constructor|].
  apply andb_true_iff in H as [Hlt H]. constructor; [by apply IH|].
  constructor. unfold entry_lt. lia.
Qed.

Lemma keys_below_trans a b l : cmp a b < 0 -> keys_below a l -> keys_below b l.
Proof.
  intros H Hl. eapply Forall_impl; [exact Hl|]. intros e He. simpl in *.
  by eapply cmp_trans.
Qed.

Lemma keys_above_trans a b l : cmp a b < 0 -> keys_above b l -> keys_above a l.
Proof.
  intros H Hl. eapply Forall_impl; [exact Hl|]. intros e He. simpl in *.
  by eapply cmp_trans.
Qed.

Lemma keys_below_eq a b l : cmp a b = 0 -> keys_below a l -> keys_below b l.
Proof.
  intros H Hl. eapply Forall_impl; [exact Hl|]. intros e He. simpl in *. by eapply cmp_lt_eq.
Qed.

Lemma keys_above_eq a b l : cmp b a = 0 -> keys_above a l -> keys_above b l.
Proof.
  intros H Hl. eapply Forall_impl; [exact Hl|]. intros e He. simpl in *. by eapply cmp_eq_lt.
Qed.

(** ** The operations around an entry of a sorted list *)

Lemma lfind_below k l1 l2 : keys_below k l1 -> lfind k (l1 ++ l2) = lfind k l2.
Proof.
  induction 1 as [|e l He _ IH]; simpl; [done|].
  destruct (Z.eqb_spec (cmp e.1 k) 0); [lia|done].
Qed.

Lemma lfind_above k l : keys_above k l -> lfind k l = None.
Proof.
  induction 1 as [|e l He _ IH]; simpl; [done|].
  destruct (Z.eqb_spec (cmp e.1 k) 0) as [E|]; [|done].
  apply cmp_eq_sym in E; [lia|done].
Qed.

Lemma lfind_app_above k l1 l2 :
  keys_above k l2 -> lfind k (l1 ++ l2) = lfind k l1.
Proof.
  intros H. induction l1 as [|e l1 IH]; simpl; [by apply lfind_above|].
  by destruct (_ =? _).
Qed.

Lemma linsert_below upd k v l1 l2 :
  keys_below k l1 -> linsert upd k v (l1 ++ l2) = l1 ++ linsert upd k v l2.
Proof.
  induction 1 as [|e l He _ IH]; simpl; [done|].
  destruct (Z.eqb_spec (cmp e.1 k) 0); [lia|].
  destruct (Z.ltb_spec (cmp e.1 k) 0); [by rewrite IH|lia].
Qed.

Lemma linsert_app_above upd k v l1 e l2 :
  0 < cmp e.1 k -> linsert upd k v (l1 ++ e :: l2) = linsert upd k v l1 ++ e :: l2.
Proof.
  intros H. induction l1 as [|e1 l1 IH]; simpl.
  - destruct (Z.eqb_spec (cmp e.1 k) 0); [lia|].
    destruct (Z.ltb_spec (cmp e.1 k) 0); [lia|done].
  - destruct (_ =? _); [done|]. destruct (_ <? _); [by rewrite IH|done].
Qed.

Lemma linsert_above upd k v l :
  keys_above k l -> linsert upd k v l = (k, v) :: l.
Proof.
  destruct 1 as [|e l He]; simpl; [done|].
  apply cmp_gt_lt in He; [|done]. by case_cmp.
Qed.

(** The operations at the entry of the key. *)
Lemma entry_mid k l1 e l2 :
  ksorted (l1 ++ e :: l2) -> cmp e.1 k = 0 -> keys_below k l1 /\ keys_above k l2.
Proof.
  intros (_ & _ & Hb & Ha)%ksorted_mid E. split.
  - by eapply keys_below_eq.
  - eapply keys_above_eq; [|exact Ha]. by apply cmp_eq_sym.
Qed.

Lemma lfind_mid k l1 e l2 :
  ksorted (l1 ++ e :: l2) -> cmp e.1 k = 0 -> lfind k (l1 ++ e :: l2) = Some e.2.
Proof.
  intros Hs E. destruct (entry_mid k l1 e l2 Hs E) as [Hb _].
  rewrite lfind_below by done. simpl. by case_cmp.
Qed.

Lemma linsert_mid upd k v l1 e l2 :
  ksorted (l1 ++ e :: l2) -> cmp e.1 k = 0 ->
  linsert upd k v (l1 ++ e :: l2) = l1 ++ upd e :: l2.
Proof.
  intros Hs E. destruct (entry_mid k l1 e l2 Hs E) as [Hb _].
  rewrite linsert_below by done. simpl. by case_cmp.
Qed.

Lemma ldelete_mid k l1 e l2 :
  ksorted (l1 ++ e :: l2) -> cmp e.1 k = 0 -> ldelete k (l1 ++ e :: l2) = l1 ++ l2.
Proof.
  intros Hs E. destruct (entry_mid k l1 e l2 Hs E) as [Hb _].
  induction Hb as [|e' l1 He' _ IH]; simpl; [by case_cmp|].
  apply StronglySorted_inv in Hs as [Hs _]. case_cmp. f_equal. by apply IH.
Qed.

Lemma ldelete_below k l1 l2 :
  keys_below k l1 -> ldelete k (l1 ++ l2) = l1 ++ ldelete k l2.
Proof.
  induction 1 as [|e l He _ IH]; simpl; [done|].
  destruct (Z.eqb_spec (cmp e.1 k) 0); [lia|by rewrite IH].
Qed.

Lemma ldelete_above k l : keys_above k l -> ldelete k l = l.
Proof.
  induction 1 as [|e l He _ IH]; simpl; [done|].
  destruct (Z.eqb_spec (cmp e.1 k) 0) as [E|]; [|by rewrite IH].
  apply cmp_eq_sym in E; [lia|done].
Qed.

Lemma ldelete_app_above k l1 l2 :
  keys_above k l2 -> ldelete k (l1 ++ l2) = ldelete k l1 ++ l2.
Proof.
  intros H. induction l1 as [|e l1 IH]; simpl; [by apply ldelete_above|].
  destruct (_ =? _); [done|by rewrite IH].
Qed.

(** What a search tree needs: at an entry [e] of the sorted list, the side
    the comparison sends the search to. *)
Lemma side_left k l1 e l2 :
  ksorted (l1 ++ e :: l2) -> 0 < cmp e.1 k -> keys_above k (e :: l2).
Proof.
  intros (_ & _ & _ & Ha)%ksorted_mid Hk. apply cmp_gt_lt in Hk; [|done].
  constructor; [done|]. by eapply keys_above_trans.
Qed.

Lemma side_right k l1 e l2 :
  ksorted (l1 ++ e :: l2) -> cmp e.1 k < 0 -> keys_below k (l1 ++ [e]).
Proof.
  intros (_ & _ & Hb & _)%ksorted_mid Hk. apply Forall_app. split.
  - by eapply keys_below_trans.
  - by constructor.
Qed.

(** ** The abstract operations keep lists sorted and obey the map laws *)

Section Insert.
Context (upd : K * V -> K * V) (k : K).
Context (Hupd : forall e, cmp e.1 k = 0 -> cmp (upd e).1 e.1 = 0).

Lemma keys_below_linsert a v l :
  cmp k a < 0 -> keys_below a l -> keys_below a (linsert upd k v l).
Proof.
  intros Hk. induction 1 as [|e l He Hl IH]; simpl.
  - by constructor.
  - destruct (Z.eqb_spec (cmp e.1 k) 0); [constructor; [|done]|destruct (_ <? _)].
    + simpl. apply (cmp_eq_lt _ e.1); [by apply Hupd|done].
    + by constructor.
    + constructor; [done|]. by constructor.
Qed.

Lemma keys_above_linsert a v l :
  cmp a k < 0 -> keys_above a l -> keys_above a (linsert upd k v l).
Proof.
  intros Hk. induction 1 as [|e l He Hl IH]; simpl.
  - by constructor.
  - destruct (Z.eqb_spec (cmp e.1 k) 0); [constructor; [|done]|destruct (_ <? _)].
    + simpl. eapply (cmp_lt_eq cmp); [exact He|]. apply cmp_eq_sym; [done|]. by apply Hupd.
    + by constructor.
    + constructor; [done|]. by constructor.
Qed.

Lemma ksorted_linsert v l : ksorted l -> ksorted (linsert upd k v l).
Proof.
  induction 1 as [|e l Hl IH Hf]; simpl.
  - repeat constructor.
  - destruct (Z.eqb_spec (cmp e.1 k) 0).
    + constructor; [done|]. apply (keys_above_eq e.1); [|done]. by apply Hupd.
    + destruct (Z.ltb_spec (cmp e.1 k) 0).
      * constructor; [done|]. by apply keys_above_linsert.
      * assert (cmp k e.1 < 0) as Hlt by (apply cmp_gt_lt; [done|lia]).
        constructor; [by constructor|]. constructor; [done|].
        apply (keys_above_trans k e.1 l Hlt Hf).
Qed.
End Insert.

Lemma ldelete_subset k l e : e ∈ ldelete k l -> e ∈ l.
Proof.
  induction l as [|e' l IH]; simpl; [done|]. destruct (_ =? _).
  - intros. by apply elem_of_cons; right.
  - intros [->|Hin]%elem_of_cons; apply elem_of_cons; auto.
Qed.

Lemma ksorted_ldelete k l : ksorted l -> ksorted (ldelete k l).
Proof.
  induction 1 as [|e l Hl IH Hf]; simpl; [constructor|].
  destruct (_ =? _); [done|]. constructor; [done|].
  apply Forall_forall. intros e' He'. rewrite Forall_forall in Hf.
  apply Hf. by eapply ldelete_subset.
Qed.

Lemma length_linsert upd k v l :
  ksorted l ->
  length (linsert upd k v l) = (length l + (if lfind k l is Some _ then 0 else 1))%nat.
Proof.
  induction 1 as [|e l Hl IH Hf]; simpl; [done|].
  destruct (Z.eqb_spec (cmp e.1 k) 0); simpl; [lia|].
  destruct (Z.ltb_spec (cmp e.1 k) 0); simpl; [by rewrite IH|].
  assert (lfind k l = None) as ->; [|simpl; lia].
  apply lfind_above. eapply keys_above_trans; [|exact Hf].
  apply cmp_gt_lt; [done|lia].
Qed.

Lemma length_ldelete k l :
  length (ldelete k l) = (length l - (if lfind k l is Some _ then 1 else 0))%nat.
Proof.
  induction l as [|e l IH]; simpl; [done|].
  destruct (Z.eqb_spec (cmp e.1 k) 0); simpl; [lia|]. rewrite IH.
  destruct (lfind k l) eqn:E; [|lia].
  destruct l; [done|simpl; lia].
Qed.

Lemma ldelete_none k l : lfind k l = None -> ldelete k l = l.
Proof.
  induction l as [|e l IH]; simpl; [done|].
  destruct (cmp e.1 k =? 0); [done|]. intros H. by rewrite IH.
Qed.

(** The map laws. *)
Lemma lfind_linsert upd k v k' l :
  (forall e, cmp e.1 k = 0 -> cmp (upd e).1 e.1 = 0 /\ (upd e).2 = v) ->
  ksorted l ->
  lfind k' (linsert upd k v l) = if cmp k k' =? 0 then Some v else lfind k' l.
Proof.
  intros Hu. induction 1 as [|e l Hl IH Hf]; simpl; [done|].
  destruct (Z.eqb_spec (cmp e.1 k) 0) as [E|Hne]; simpl.
  - destruct (Hu e E) as [Hu1 Hu2].
    destruct (Z.eqb_spec (cmp k k') 0) as [E1|N1].
    + assert (cmp (upd e).1 k' = 0) as ->; [|by rewrite Hu2].
      eapply cmp_eq_trans; [done|exact Hu1|]. by eapply cmp_eq_trans.
    + destruct (Z.eqb_spec (cmp (upd e).1 k') 0) as [E2|N2].
      * exfalso. apply N1. apply cmp_eq_sym in E, Hu1; [|done..].
        eapply cmp_eq_trans; [done|exact E|]. by eapply cmp_eq_trans.
      * destruct (Z.eqb_spec (cmp e.1 k') 0) as [E3|N3]; [|done].
        exfalso. apply N2. by eapply cmp_eq_trans.
  - destruct (Z.ltb_spec (cmp e.1 k) 0) as [Hlt|Hge]; simpl.
    + rewrite IH. destruct (Z.eqb_spec (cmp e.1 k') 0) as [E1|N1]; [|done].
      destruct (Z.eqb_spec (cmp k k') 0) as [E2|N2]; [|done].
      exfalso. apply Hne. apply cmp_eq_sym in E2; [|done]. by eapply cmp_eq_trans.
    + done.
Qed.

Lemma lfind_ldelete k k' l :
  ksorted l ->
  lfind k' (ldelete k l) = if cmp k k' =? 0 then None else lfind k' l.
Proof.
  induction 1 as [|e l Hl IH Hf]; simpl; [by destruct (_ =? _)|].
  destruct (Z.eqb_spec (cmp e.1 k) 0) as [E|Hne]; simpl.
  - destruct (Z.eqb_spec (cmp k k') 0) as [E1|N1].
    + apply lfind_above. eapply keys_above_eq; [|exact Hf].
      apply cmp_eq_sym; [done|]. by eapply cmp_eq_trans.
    + destruct (Z.eqb_spec (cmp e.1 k') 0) as [E2|N2]; [|done].
      exfalso. apply N1. apply cmp_eq_sym in E; [|done]. by eapply cmp_eq_trans.
  - rewrite IH. destruct (Z.eqb_spec (cmp e.1 k') 0) as [E1|N1]; [|done].
    destruct (Z.eqb_spec (cmp k k') 0) as [E2|N2]; [|done].
    exfalso. apply Hne. apply cmp_eq_sym in E2; [|done]. by eapply cmp_eq_trans.
Qed.

(** ** Floor and ceiling *)

Lemma lfloor_below k l1 l2 acc :
  keys_below k l1 -> lfloor k (l1 ++ l2) acc = lfloor k l2 (from_option Some acc (last l1)).
Proof.
  intros H. revert acc. induction H as [|e l He _ IH]; intros acc; simpl; [done|].
  destruct (Z.leb_spec (cmp e.1 k) 0); [|lia]. rewrite IH. f_equal.
  destruct l as [|e' l]; [done|]. simpl. destruct (last (e' :: l)) eqn:E; [done|].
  by apply last_None in E.
Qed.

Lemma lfloor_app_above k l1 l2 acc :
  keys_above k l2 -> lfloor k (l1 ++ l2) acc = lfloor k l1 acc.
Proof.
  intros H. revert acc. induction l1 as [|e l1 IH]; intros acc; simpl.
  - destruct H as [|e l He]; [done|]. simpl. apply cmp_gt_lt in He; [|done].
    destruct (Z.leb_spec (cmp e.1 k) 0); [lia|done].
  - by destruct (_ <=? _).
Qed.

Lemma lceiling_below k l1 l2 : keys_below k l1 -> lceiling k (l1 ++ l2) = lceiling k l2.
Proof.
  induction 1 as [|e l He _ IH]; simpl; [done|].
  destruct (Z.leb_spec 0 (cmp e.1 k)); [lia|done].
Qed.

Lemma lceiling_app_above k l1 l2 :
  keys_above k l2 -> lceiling k (l1 ++ l2) = match lceiling k l1 with
                                             | Some e => Some e | None => head l2 end.
Proof.
  intros H. induction l1 as [|e l1 IH]; simpl.
  - destruct H as [|e l He]; [done|]. simpl. apply cmp_gt_lt in He; [|done].
    destruct (Z.leb_spec 0 (cmp e.1 k)); [done|lia].
  - by destruct (_ <=? _).
Qed.
End SortedMap.
