(* ===== verification/Lease.v ===== *)
(** * The lease protocol: table, statements and operations

    Models [internal/lease/lease.go] and [internal/lease/slot.go].  The
    table gst_leases is a finite map from names to rows; a statement of the
    protocol is a value of [stmt] and [exec] is what the database does with
    it at its own clock.  An operation of the package is a [prog]: a tree of
    clock readings and statements whose continuations are the Go code
    between them, so that several processes' operations can be interleaved
    statement by statement ([LeaseSystem]). *)

From stdpp Require Import base gmap strings list.
From Stdlib Require Import ZArith Lia.
From S2P Require Import Prelude.
Local Open Scope Z_scope.

Module Lease.

(** ** Durations and instants

    A [time.Duration] is its nanoseconds; a [time.Time] is its nanoseconds
    from the Unix epoch. *)

Definition Millisecond : Z := 1000000.
Definition Second : Z := 1000000000.

Definition leaseDuration : Z := 15 * Second.
Definition renewInterval : Z := 2 * Second.
Definition localDeadline : Z := 10 * Second.
Definition stepDownGrace : Z := 5 * Second.
Definition statementFloor : Z := Second.

(** [time.Duration.Milliseconds] truncates, [time.Time.UnixMilli] floors. *)
Definition Milliseconds (d : Z) : Z := Z.quot d Millisecond.
Definition UnixMilli (t : Z) : Z := t / Millisecond.
Definition ofUnixMilli (ms : Z) : Z := ms * Millisecond.

(** The bound a statement gets when its caller has none of its own. *)
Definition bounded : Z := Z.max (Z.quot localDeadline 2) statementFloor.
Definition RetryInterval : Z := renewInterval.

Definition nameMaxLength : Z := 191.

(** Unsigned 64-bit addition, for the term Go computes from the one read. *)
Definition uint64_add (a b : Z) : Z := (a + b) mod 2 ^ 64.

(** ** Errors *)

Inductive error : Set :=
| ErrLost
| ErrUnsupportedDatabase (dialect : string)
| ErrNotInitialized
| ErrEmptyName
| ErrNameTooLong (len : Z)
| ErrToken
| ErrDatabase
| ErrNoInstant.

#[export] Instance error_eq_dec : EqDecision error.
Proof. solve_decision. Defined.

(** ** The table *)

Record row : Set := mkRow {
  Holder : string;
  Instance_ : string;
  Term : Z;
  ExpiresAtMs : Z;
  SlotMs : Z;
  UnfinishedSlotMs : Z;
  RerunSlotMs : Z
}.

#[export] Instance row_eq_dec : EqDecision row.
Proof. solve_decision. Defined.

Abbreviation table := (gmap string row).

(** What the claim of an instant reads before it writes. *)
Record slotState : Set := mkSlotState {
  st_Term : Z;
  st_SlotMs : Z;
  st_UnfinishedSlotMs : Z;
  st_RerunSlotMs : Z;
  st_Expired : Z
}.

(** An instant claimed whose round has not run to its end. *)
Record Unfinished : Set := mkUnfinished {
  u_Name : string;
  u_Slot : Z;
  u_Rerun : bool;
  u_term : Z
}.

Record unfinishedRow : Set := mkUnfinishedRow {
  ur_Name : string;
  ur_Term : Z;
  ur_SlotMs : Z
}.

(** A claimed lease.  The channel [lost] of the Go struct is the one mutable
    field: it belongs to the holder's state, see [ReadLost]. *)
Record Handle : Set := mkHandle {
  h_name : string;
  h_holder : string;
  h_term : Z;
  h_slotMs : Z;
  h_superseded : option Unfinished;
  h_claimedAt : Z
}.

Definition newHandle (name holder : string) (term claimedAt : Z) : Handle :=
  mkHandle name holder term 0 None claimedAt.

(** ** The statements, typed by what they report *)

Inductive stmt : Set -> Type :=
| UpdateClaim (name holder inst : string) : stmt nat
| InsertClaim (name holder inst : string) (slotMs : Z) : stmt nat
| SelectTerm (name holder : string) : stmt (option Z)
| UpdateRenew (name holder : string) : stmt nat
| UpdateRelease (name holder : string) : stmt nat
| SelectVerify (onTx : bool) (name holder : string) : stmt (option Z)
| SelectSlot (name : string) : stmt (option slotState)
| UpdateClaimSlot (name holder inst : string) (slotMs term : Z) : stmt nat
| UpdateFinish (name holder : string) (passedMs : Z) : stmt nat
| UpdateFinished (name : string) (slotMs : Z) : stmt nat
| SelectUnfinished (names : list string) : stmt (list unfinishedRow)
| UpdateClaimRerun (name holder inst : string) (term : Z) : stmt nat
| SelectLast (name : string) : stmt (option Z).

(** [UPDATE ... WHERE name = :name AND p]: the rows affected, and the table. *)
Definition update_where (name : string) (p : row -> bool) (f : row -> row)
    (db : table) : nat * table :=
  match db !! name with
  | Some r => if p r then (1%nat, <[name := f r]> db) else (0%nat, db)
  | None => (0%nat, db)
  end.

Definition select_where {A : Set} (name : string) (p : row -> bool)
    (f : row -> A) (db : table) : option A :=
  match db !! name with
  | Some r => if p r then Some (f r) else None
  | None => None
  end.

Definition expired (now : Z) (r : row) : bool := ExpiresAtMs r <=? now.
Definition live (now : Z) (r : row) : bool := now <? ExpiresAtMs r.
Definition held_by (holder : string) (r : row) : bool :=
  String.eqb (Holder r) holder.

(** The rows [UnfinishedSlots] selects, and [ClaimRerun] updates. *)
Definition rerunnable (now : Z) (r : row) : bool :=
  (UnfinishedSlotMs r =? SlotMs r) && (RerunSlotMs r <? SlotMs r)
  && expired now r.

Definition leaseMs : Z := Milliseconds leaseDuration.

Definition claim_row (now : Z) (holder inst : string) (r : row) : row :=
  mkRow holder inst (Term r + 1) (now + leaseMs)
    (SlotMs r) (UnfinishedSlotMs r) (RerunSlotMs r).

Definition claimSlot_row (now : Z) (holder inst : string) (slotMs : Z)
    (r : row) : row :=
  mkRow holder inst (Term r + 1) (now + leaseMs) slotMs slotMs (RerunSlotMs r).

Definition claimRerun_row (now : Z) (holder inst : string) (r : row) : row :=
  mkRow holder inst (Term r + 1) (now + leaseMs)
    (SlotMs r) (UnfinishedSlotMs r) (SlotMs r).

Definition set_expires (e : Z) (r : row) : row :=
  mkRow (Holder r) (Instance_ r) (Term r) e
    (SlotMs r) (UnfinishedSlotMs r) (RerunSlotMs r).

Definition set_unfinished (u : Z) (r : row) : row :=
  mkRow (Holder r) (Instance_ r) (Term r) (ExpiresAtMs r)
    (SlotMs r) u (RerunSlotMs r).

Definition finish_row (now passedMs : Z) (r : row) : row :=
  mkRow (Holder r) (Instance_ r) (Term r) 0
    (if (SlotMs r <? passedMs) && (passedMs <=? now) then passedMs else SlotMs r)
    0 (RerunSlotMs r).

(** The row a name's first claim inserts. *)
Definition insert_row (now : Z) (holder inst : string) (slotMs : Z) : row :=
  mkRow holder inst 1 (now + leaseMs) slotMs slotMs 0.

(** What the database does with a statement when its clock reads [now]. *)
Definition exec {R : Set} (s : stmt R) (now : Z) (db : table) : R * table :=
  match s in stmt R return R * table with
  | UpdateClaim n h i =>
      update_where n (expired now) (claim_row now h i) db
  | InsertClaim n h i slot =>
      match db !! n with
      | Some _ => (0%nat, db)
      | None => (1%nat, <[n := insert_row now h i slot]> db)
      end
  | SelectTerm n h => (select_where n (held_by h) Term db, db)
  | UpdateRenew n h =>
      update_where n (fun r => held_by h r && live now r)
        (set_expires (now + leaseMs)) db
  | UpdateRelease n h => update_where n (held_by h) (set_expires 0) db
  | SelectVerify _ n h =>
      (select_where n (fun r => held_by h r && live now r) Term db, db)
  | SelectSlot n =>
      (select_where n (fun _ => true)
         (fun r => mkSlotState (Term r) (SlotMs r) (UnfinishedSlotMs r)
                     (RerunSlotMs r) (if expired now r then 1 else 0)) db, db)
  | UpdateClaimSlot n h i slot t =>
      update_where n (fun r => (Term r =? t) && expired now r)
        (claimSlot_row now h i slot) db
  | UpdateFinish n h passed =>
      update_where n (held_by h) (finish_row now passed) db
  | UpdateFinished n slot =>
      update_where n (fun r => UnfinishedSlotMs r =? slot)
        (set_unfinished 0) db
  | SelectUnfinished ns =>
      ((fun '(n, r) => mkUnfinishedRow n (Term r) (SlotMs r)) <$>
         filter (fun '(n, r) => n ∈ ns /\ rerunnable now r = true)
           (map_to_list db), db)
  | UpdateClaimRerun n h i t =>
      update_where n (fun r => (Term r =? t) && rerunnable now r)
        (claimRerun_row now h i) db
  | SelectLast n => (select_where n (fun _ => true) SlotMs db, db)
  end.

(** ** Programs over the database *)

Inductive prog (A : Type) : Type :=
| Ret (a : A)
| Now (k : Z -> prog A)                        (* time.Now() *)
| ReadLost (k : bool -> prog A)                (* h.Lost() *)
| Exec {R : Set} (s : stmt R) (k : option R -> prog A). (* None: res.Error *)
Arguments Ret {A} _.
Arguments Now {A} _.
Arguments ReadLost {A} _.
Arguments Exec {A R} _ _.

Abbreviation outcome A := (result error A).

(** [if err != nil { return err }] on a value already computed. *)
Definition tryP {A B} (m : outcome A) (k : A -> prog (outcome B)) :
    prog (outcome B) :=
  match m with
  | Ok a => k a
  | Err e => Ret (Err e)
  end.
Notation "'try' x ':=' m 'in' k" := (tryP m (fun x => k))
  (at level 10, x pattern, m at level 100, k at level 200).

(** ** Names and the primary database *)

Definition ValidateName (name : string) : outcome unit :=
  if String.eqb name "" then Err ErrEmptyName
  else if nameMaxLength <? Z.of_nat (String.length name)
  then Err (ErrNameTooLong (Z.of_nat (String.length name)))
  else Ok tt.

Definition nowExpression (dialect : string) : outcome string :=
  if String.eqb dialect "mysql" then
    Ok "UNIX_TIMESTAMP() * 1000 + MICROSECOND(NOW(3)) DIV 1000"%string
  else if String.eqb dialect "postgres" then
    Ok "FLOOR(EXTRACT(EPOCH FROM clock_timestamp()) * 1000)::BIGINT"%string
  else if String.eqb dialect "sqlite" then
    Ok "CAST(unixepoch('subsec') * 1000 AS INTEGER)"%string
  else Err (ErrUnsupportedDatabase dialect).

(** [dbruntime.DB]: [None] before the database is initialised, else the
    dialect name of its driver in lower case. *)
Definition primary (DB : option string) : outcome string :=
  match DB with
  | None => Err ErrNotInitialized
  | Some dialect => nowExpression dialect
  end.

Definition Available (DB : option string) : outcome unit :=
  match primary DB with Ok _ => Ok tt | Err e => Err e end.

Section Operations.
(** The process's view: its primary database and its instance id. *)
Context (DB : option string) (instanceID : string).

(** [newHolder] draws 16 random bytes; [None] is the generator failing. *)
Definition newHolder (token : option string) : outcome string :=
  match token with Some h => Ok h | None => Err ErrToken end.

Definition insertClaim (name holder : string) (slotMs claimedAt : Z) :
    prog (outcome (option Handle)) :=
  Exec (InsertClaim name holder instanceID slotMs) (fun res =>
    match res with
    | None => Ret (Err ErrDatabase)
    | Some 0%nat => Ret (Ok None)
    | Some _ =>
        let h := newHandle name holder 1 claimedAt in
        Ret (Ok (Some (mkHandle (h_name h) (h_holder h) (h_term h) slotMs
                         (h_superseded h) (h_claimedAt h))))
    end).

Definition handleOf (name holder : string) (claimedAt : Z) :
    prog (outcome (option Handle)) :=
  Exec (SelectTerm name holder) (fun res =>
    match res with
    | None => Ret (Err ErrDatabase)
    | Some None => Ret (Err ErrLost)
    | Some (Some term) => Ret (Ok (Some (newHandle name holder term claimedAt)))
    end).

Definition Claim (token : option string) (name : string) :
    prog (outcome (option Handle)) :=
  try _ := ValidateName name in
  try _ := primary DB in
  try holder := newHolder token in
  Now (fun claimedAt =>
  Exec (UpdateClaim name holder instanceID) (fun res =>
    match res with
    | None => Ret (Err ErrDatabase)
    | Some 1%nat => handleOf name holder claimedAt
    | Some _ => insertClaim name holder 0 claimedAt
    end)).

Definition Renew (h : Handle) : prog (outcome unit) :=
  try _ := primary DB in
  Exec (UpdateRenew (h_name h) (h_holder h)) (fun res =>
    match res with
    | None => Ret (Err ErrDatabase)
    | Some 0%nat => Ret (Err ErrLost)
    | Some _ => Ret (Ok tt)
    end).

Definition Release (h : Handle) : prog (outcome unit) :=
  try _ := primary DB in
  Exec (UpdateRelease (h_name h) (h_holder h)) (fun res =>
    match res with
    | None => Ret (Err ErrDatabase)
    | Some 0%nat => Ret (Err ErrLost)
    | Some _ => Ret (Ok tt)
    end).

(** The guard of a transaction: [ctxHandle] is the lease its context
    carries, [samePool] whether it was opened on the primary database. *)
Definition Verify (ctxHandle : option Handle) (samePool : bool) :
    prog (outcome unit) :=
  match ctxHandle with
  | None => Ret (Ok tt)
  | Some h =>
      try _ := primary DB in
      Exec (SelectVerify samePool (h_name h) (h_holder h)) (fun res =>
        match res with
        | None => Ret (Err ErrDatabase)
        | Some None => Ret (Err ErrLost)
        | Some (Some _) => Ret (Ok tt)
        end)
  end.

Definition ClaimSlot (token : option string) (name : string) (slot : Z) :
    prog (outcome (option Handle)) :=
  try _ := ValidateName name in
  try _ := primary DB in
  try holder := newHolder token in
  let slotMs := UnixMilli slot in
  Exec (SelectSlot name) (fun res =>
    match res with
    | None => Ret (Err ErrDatabase)
    | Some None =>
        Now (fun claimedAt => insertClaim name holder slotMs claimedAt)
    | Some (Some current) =>
        if (st_Expired current =? 0) || (slotMs <=? st_SlotMs current)
        then Ret (Ok None)
        else
          Now (fun claimedAt =>
          Exec (UpdateClaimSlot name holder instanceID slotMs (st_Term current))
            (fun res =>
            match res with
            | None => Ret (Err ErrDatabase)
            | Some 0%nat => Ret (Ok None)
            | Some _ =>
                let superseded :=
                  if negb (st_UnfinishedSlotMs current =? 0)
                     && (st_UnfinishedSlotMs current =? st_SlotMs current)
                  then Some (mkUnfinished name
                               (ofUnixMilli (st_UnfinishedSlotMs current))
                               (st_RerunSlotMs current =? st_UnfinishedSlotMs current)
                               0)
                  else None in
                Ret (Ok (Some (mkHandle name holder
                                 (uint64_add (st_Term current) 1)
                                 slotMs superseded claimedAt)))
            end))
    end).

(** [h.Superseded()]. *)
Definition Superseded (h : Handle) : option Unfinished := h_superseded h.

Definition finishWithoutLease (h : Handle) : prog (outcome unit) :=
  Exec (UpdateFinished (h_name h) (h_slotMs h)) (fun res =>
    match res with
    | None => Ret (Err ErrDatabase)
    | Some _ => ReadLost (fun lost =>
        if lost then Ret (Ok tt) else Ret (Err ErrLost))
    end).

Definition Finish (h : Handle) (passed : Z) : prog (outcome unit) :=
  if h_slotMs h =? 0 then Ret (Err ErrNoInstant)
  else
    try _ := primary DB in
    ReadLost (fun lost =>
      if lost then finishWithoutLease h
      else
        let passedMs := UnixMilli passed in
        Exec (UpdateFinish (h_name h) (h_holder h) passedMs) (fun res =>
          match res with
          | None => Ret (Err ErrDatabase)
          | Some 1%nat => Ret (Ok tt)
          | Some _ => finishWithoutLease h
          end)).

Definition UnfinishedSlots (names : list string) :
    prog (outcome (list Unfinished)) :=
  match names with
  | [] => Ret (Ok [])
  | _ =>
      try _ := primary DB in
      Exec (SelectUnfinished names) (fun res =>
        match res with
        | None => Ret (Err ErrDatabase)
        | Some rows =>
            Ret (Ok ((fun r => mkUnfinished (ur_Name r)
                                 (ofUnixMilli (ur_SlotMs r)) false (ur_Term r))
                     <$> rows))
        end)
  end.

Definition ClaimRerun (token : option string) (u : Unfinished) :
    prog (outcome (option Handle)) :=
  try _ := ValidateName (u_Name u) in
  try _ := primary DB in
  try holder := newHolder token in
  Now (fun claimedAt =>
  Exec (UpdateClaimRerun (u_Name u) holder instanceID (u_term u)) (fun res =>
    match res with
    | None => Ret (Err ErrDatabase)
    | Some 0%nat => Ret (Ok None)
    | Some _ =>
        Ret (Ok (Some (mkHandle (u_Name u) holder (uint64_add (u_term u) 1)
                         (UnixMilli (u_Slot u)) None claimedAt)))
    end)).

Definition LastSlot (name : string) : prog (outcome (option Z)) :=
  try _ := primary DB in
  Exec (SelectLast name) (fun res =>
    match res with
    | None => Ret (Err ErrDatabase)
    | Some None => Ret (Ok None)
    | Some (Some slotMs) => Ret (Ok (Some (ofUnixMilli slotMs)))
    end).
End Operations.

End Lease.
