(* ===== verification/LeaseSystem.v ===== *)
(** * The lease protocol: processes, clocks and interleavings

    Every tenure of a name is an actor identified by the holder token minted
    for it.  Actors share the table and run their programs one statement at
    a time, in any order; the database clock and the actors' own clocks
    advance between statements; a statement may fail to run, or run and lose
    its answer.  The renewal loop of [internal/lease/hold.go] is the actor's
    state machine. *)

From stdpp Require Import base gmap strings list.
From Stdlib Require Import ZArith Lia.
From S2P Require Import Prelude Lease.
Import Lease.
Local Open Scope Z_scope.

(** ** The renewal loop of [Hold] *)

Module Hold.

(** [untilNextRenewal], with the clock read once. *)
Definition untilNextRenewal (now attempted last interval deadline : Z) : Z :=
  Z.max (Z.min (attempted + interval - now) (last + deadline - now)) 0.

(** What the loop does when its timer fires at [now]. *)
Inductive wake : Set :=
| WakeLost
| WakeAttempt (attempted timeout : Z).

Definition onTimer (now last : Z) : wake :=
  let remaining := last + localDeadline - now in
  if remaining <=? 0 then WakeLost
  else WakeAttempt now (Z.min (Z.quot localDeadline 2) remaining).

(** What the loop does with the outcome of an attempt, at [now]; [ended] is
    whether the renewals have been stopped. *)
Inductive next : Set :=
| NextLost
| NextReturn
| NextWait (last wakeAt : Z).

Definition afterAttempt (now attempted last : Z) (err : outcome unit)
    (ended : bool) : next :=
  let continue last' :=
    if localDeadline <=? now - last' then NextLost
    else NextWait last'
           (now + untilNextRenewal now attempted last' renewInterval localDeadline) in
  match err with
  | Ok _ => continue attempted
  | Err ErrLost => NextLost
  | Err _ => if ended then NextReturn else continue last
  end.

End Hold.

(** ** Actors *)

Module System.
Import Hold.

Inductive phase : Type :=
| Claiming (p : prog (outcome (option Handle)))
| Waiting (h : Handle) (attempted last wakeAt : Z)
| Renewing (h : Handle) (attempted last : Z) (p : prog (outcome unit))
| LostLease (h : Handle) (last : Z)
| Settling (h : Handle) (last : Z) (p : prog (outcome unit))
| Gone.

Record actor := mkActor {
  a_clock : Z;      (* the process's monotonic clock *)
  a_lost : bool;    (* h.Lost() *)
  a_phase : phase
}.

(** What an actor may be started for. *)
Inductive claim_op : Set :=
| OpClaim (name : string)
| OpClaimSlot (name : string) (slot : Z)
| OpClaimRerun (u : Unfinished).

Definition claim_prog (DB : option string) (inst : string) (op : claim_op)
    (token : string) : prog (outcome (option Handle)) :=
  match op with
  | OpClaim n => Claim DB inst (Some token) n
  | OpClaimSlot n slot => ClaimSlot DB inst (Some token) n slot
  | OpClaimRerun u => ClaimRerun DB inst (Some token) u
  end.

(** How the tenure ends once its work has returned. *)
Inductive settle_op : Set :=
| SettleRelease
| SettleFinish (passed : Z).

Definition settle_prog (DB : option string) (op : settle_op) (h : Handle) :
    prog (outcome unit) :=
  match op with
  | SettleRelease => Release DB h
  | SettleFinish passed => Finish DB h passed
  end.

(** ** One statement of a program *)

Inductive fault : Set := Answered | NotRun | AnswerLost.

Definition step_prog {A} (f : fault) (lost : bool) (clock nowMs : Z)
    (p : prog A) (db : table) : prog A * table :=
  match p with
  | Ret a => (Ret a, db)
  | Now k => (k clock, db)
  | ReadLost k => (k lost, db)
  | Exec s k =>
      match f with
      | NotRun => (k None, db)
      | Answered => let '(r, db') := exec s nowMs db in (k (Some r), db')
      | AnswerLost => let '(_, db') := exec s nowMs db in (k None, db')
      end
  end.

(** A program run on its own at one moment, the database always answering. *)
Fixpoint run {A} (lost : bool) (clock nowMs : Z) (p : prog A) (db : table) :
    A * table :=
  match p with
  | Ret a => (a, db)
  | Now k => run lost clock nowMs (k clock) db
  | ReadLost k => run lost clock nowMs (k lost) db
  | Exec s k => let '(r, db') := exec s nowMs db in
                run lost clock nowMs (k (Some r)) db'
  end.

(** The claims of an instant the table has granted: first claims, and
    second ones.  The slot 0, the epoch, is what a row of a plain lease is made
    with, and counts as no instant. *)
Inductive win : Set :=
| WinSlot (name : string) (slotMs : Z)
| WinRerun (name : string) (slotMs : Z).

Definition win_of {R : Set} (s : stmt R) : R -> table -> list win :=
  match s in stmt R return R -> table -> list win with
  | InsertClaim n _ _ slot => fun r _ =>
      if (r =? 1)%nat && negb (slot =? 0) then [WinSlot n slot] else []
  | UpdateClaimSlot n _ _ slot _ => fun r _ =>
      if (r =? 1)%nat then [WinSlot n slot] else []
  | UpdateClaimRerun n _ _ _ => fun r db =>
      match r, db !! n with
      | 1%nat, Some row => [WinRerun n (SlotMs row)]
      | _, _ => []
      end
  | _ => fun _ _ => []
  end.


Definition wins_of {A} (f : fault) (nowMs : Z) (p : prog A) (db : table) :
    list win :=
  match p, f with
  | Exec _ _, NotRun => []
  | Exec s _, _ => win_of s (fst (exec s nowMs db)) db
  | _, _ => []
  end.

(** ** The deployment *)

Record sys := mkSys {
  s_db : table;
  s_clock : Z;                    (* the database server's clock *)
  s_actors : gmap string actor;   (* by holder token *)
  s_found : list Unfinished;      (* what the sweeps have found so far *)
  s_wins : list win               (* ghost: the instants granted so far *)
}.

Definition set_phase (ph : phase) (a : actor) : actor :=
  mkActor (a_clock a) (a_lost a) ph.
Definition mark_lost (ph : phase) (a : actor) : actor :=
  mkActor (a_clock a) true ph.
Definition advance (e : Z) (a : actor) : actor :=
  mkActor (a_clock a + e) (a_lost a) (a_phase a).

Definition with_actor (s : sys) (t : string) (a : actor) : sys :=
  mkSys (s_db s) (s_clock s) (<[t := a]> (s_actors s)) (s_found s) (s_wins s).

Definition is_exec {A} (p : prog A) : bool :=
  match p with Exec _ _ => true | _ => false end.

Section Deployment.
(** The processes' primary database and instance id; a bound [num/den] on
    how much faster the database clock may run than a process's clock; and
    whether the statement that records a round's end is known to reach the
    database before the lease the round still believes in runs out. *)
Context (DB : option string) (inst : string) (num den : Z) (timely : bool).

(** By the process's clock, the lease last renewed at [last] cannot have
    expired on the database's. *)
Definition within (clock last : Z) : Prop :=
  num * (clock - last) <= den * (leaseDuration - Millisecond).

Inductive step : sys -> sys -> Prop :=
| step_tick s d adv :
    0 <= d ->
    (forall t, 0 <= adv t /\ den * d <= num * adv t) ->
    step s (mkSys (s_db s) (s_clock s + d)
              (map_imap (fun t a => Some (advance (adv t) a)) (s_actors s))
              (s_found s) (s_wins s))
| step_start s t op c :
    s_actors s !! t = None ->
    match op with OpClaimRerun u => u ∈ s_found s | _ => True end ->
    step s (with_actor s t (mkActor c false (Claiming (claim_prog DB inst op t))))
| step_claim s t a p f p' db' :
    s_actors s !! t = Some a -> a_phase a = Claiming p ->
    step_prog f (a_lost a) (a_clock a) (UnixMilli (s_clock s)) p (s_db s) = (p', db') ->
    step s (mkSys db' (s_clock s) (<[t := set_phase (Claiming p') a]> (s_actors s))
              (s_found s)
              (wins_of f (UnixMilli (s_clock s)) p (s_db s) ++ s_wins s))
| step_won s t a h :
    s_actors s !! t = Some a -> a_phase a = Claiming (Ret (Ok (Some h))) ->
    step s (with_actor s t (set_phase (Waiting h (h_claimedAt h) (h_claimedAt h)
      (a_clock a + untilNextRenewal (a_clock a) (h_claimedAt h) (h_claimedAt h)
                     renewInterval localDeadline)) a))
| step_refused s t a r :
    s_actors s !! t = Some a -> a_phase a = Claiming (Ret r) ->
    (forall h, r <> Ok (Some h)) ->
    step s (with_actor s t (set_phase Gone a))
| step_timer_lost s t a h att last w :
    s_actors s !! t = Some a -> a_phase a = Waiting h att last w ->
    w <= a_clock a -> onTimer (a_clock a) last = WakeLost ->
    step s (with_actor s t (mark_lost (LostLease h last) a))
| step_timer s t a h att last w att' timeout :
    s_actors s !! t = Some a -> a_phase a = Waiting h att last w ->
    w <= a_clock a -> onTimer (a_clock a) last = WakeAttempt att' timeout ->
    step s (with_actor s t (set_phase (Renewing h att' last (Renew DB h)) a))
| step_renew s t a h att last p f p' db' :
    s_actors s !! t = Some a -> a_phase a = Renewing h att last p ->
    step_prog f (a_lost a) (a_clock a) (UnixMilli (s_clock s)) p (s_db s) = (p', db') ->
    step s (mkSys db' (s_clock s)
              (<[t := set_phase (Renewing h att last p') a]> (s_actors s))
              (s_found s)
              (wins_of f (UnixMilli (s_clock s)) p (s_db s) ++ s_wins s))
| step_renewed s t a h att last r last' w :
    s_actors s !! t = Some a -> a_phase a = Renewing h att last (Ret r) ->
    afterAttempt (a_clock a) att last r false = NextWait last' w ->
    step s (with_actor s t (set_phase (Waiting h att last' w) a))
| step_renew_lost s t a h att last r :
    s_actors s !! t = Some a -> a_phase a = Renewing h att last (Ret r) ->
    afterAttempt (a_clock a) att last r false = NextLost ->
    step s (with_actor s t (mark_lost (LostLease h last) a))
| step_return s t a h att last w op :
    s_actors s !! t = Some a -> a_phase a = Waiting h att last w ->
    step s (with_actor s t (set_phase (Settling h last (settle_prog DB op h)) a))
| step_return_renewing s t a h att last p op :
    s_actors s !! t = Some a -> a_phase a = Renewing h att last p ->
    step s (with_actor s t (set_phase (Settling h last (settle_prog DB op h)) a))
| step_lost_finish s t a h last passed :
    s_actors s !! t = Some a -> a_phase a = LostLease h last ->
    step s (with_actor s t
              (set_phase (Settling h last (settle_prog DB (SettleFinish passed) h)) a))
| step_settle s t a h last p f p' db' :
    s_actors s !! t = Some a -> a_phase a = Settling h last p ->
    (timely = true -> is_exec p = true -> a_lost a = false ->
     within (a_clock a) last) ->
    step_prog f (a_lost a) (a_clock a) (UnixMilli (s_clock s)) p (s_db s) = (p', db') ->
    step s (mkSys db' (s_clock s)
              (<[t := set_phase (Settling h last p') a]> (s_actors s))
              (s_found s)
              (wins_of f (UnixMilli (s_clock s)) p (s_db s) ++ s_wins s))
| step_gone s t a :
    s_actors s !! t = Some a ->
    step s (with_actor s t (set_phase Gone a))
| step_find s names us :
    fst (run false 0 (UnixMilli (s_clock s)) (UnfinishedSlots DB names) (s_db s))
      = Ok us ->
    step s (mkSys (s_db s) (s_clock s) (s_actors s) (us ++ s_found s) (s_wins s)).

Definition initial (clock : Z) : sys := mkSys ∅ clock ∅ [] [].

(** A tenure whose work runs: the lease is held as far as it knows. *)
Definition tenure (ph : phase) : option (Handle * Z) :=
  match ph with
  | Waiting h _ last _ => Some (h, last)
  | Renewing h _ last _ => Some (h, last)
  | _ => None
  end.
End Deployment.

End System.
