(* ===== verification/LeaseSafety.v ===== *)
(** * Safety of the lease protocol

    A rely-guarantee argument: [safe] says that a program of token [t], run
    from a view of the table and the clocks, only issues statements its
    token owns and ends in a result the tenure may rely on, whatever the
    other tenures and the clocks do between its statements. *)

From stdpp Require Import base gmap strings list.
From Stdlib Require Import ZArith Lia.
From S2P Require Import Prelude Lease LeaseSystem.
Import Lease Hold System.
Local Open Scope Z_scope.

Create HintDb lease.

(** ** Reading one row of the table after a statement *)

Lemma update_where_lookup n p f (db : table) m :
  snd (update_where n p f db) !! m =
    match db !! m with
    | Some r => if String.eqb n m && p r then Some (f r) else Some r
    | None => None
    end.
Proof.
  unfold update_where.
  destruct (String.eqb_spec n m) as [->|Hne]; simpl.
  - destruct (db !! m) as [r|] eqn:E; [|done].
    destruct (p r); simpl; [by rewrite lookup_insert_eq|done].
  - destruct (db !! n) as [r|] eqn:E; simpl; [|by destruct (db !! m)].
    destruct (p r); simpl; [rewrite lookup_insert_ne by done|]; by destruct (db !! m).
Qed.

Lemma update_where_affected n p f (db : table) k :
  fst (update_where n p f db) = S k ->
  exists r, db !! n = Some r /\ p r = true /\ k = 0%nat /\
            snd (update_where n p f db) = <[n := f r]> db.
Proof.
  unfold update_where. destruct (db !! n) as [r|] eqn:E; [|done].
  destruct (p r) eqn:Ep; [|done]. simpl. intros [= <-]. eauto.
Qed.

(** The token a statement acts for, and the promise a claim of an instant
    and the record of a round's end make about what they overwrite. *)
Definition owned {R : Set} (t : string) (s : stmt R) : Prop :=
  match s with
  | UpdateClaim _ h _ | InsertClaim _ h _ _ | UpdateRenew _ h
  | UpdateRelease _ h | UpdateClaimSlot _ h _ _ _ | UpdateFinish _ h _
  | UpdateClaimRerun _ h _ _ => h = t
  | _ => True
  end.

Definition slot_ok {R : Set} (s : stmt R) (nowMs : Z) (db : table) : Prop :=
  match s with
  | UpdateClaimSlot n _ _ slot term =>
      forall r, db !! n = Some r -> Term r = term -> expired nowMs r = true ->
                SlotMs r < slot
  | UpdateFinish n h _ =>
      forall r, db !! n = Some r -> Holder r = h -> live nowMs r = true
  | _ => True
  end.

(** ** What one statement does to a row *)

(** The row another tenure's statement leaves of a row still unexpired in
    [t]'s hands. *)
Lemma exec_keeps {R : Set} (s : stmt R) t t' nowMs db n r :
  owned t' s -> t' <> t ->
  db !! n = Some r -> Holder r = t -> nowMs < ExpiresAtMs r ->
  exists r', snd (exec s nowMs db) !! n = Some r' /\ Holder r' = t /\
             ExpiresAtMs r' = ExpiresAtMs r.
Proof.
  intros Hown Hne Hr Ht Hexp.
  destruct s; simpl in *; subst; rewrite ?update_where_lookup, ?Hr;
    try match goal with |- context [match db !! ?m with _ => _ end] =>
          destruct (db !! m) as [r0|] eqn:E0; simpl end; eauto.
  all: unfold expired, live, held_by, rerunnable, expired in *.
  all: repeat match goal with
       | |- context [if ?b then _ else _] => destruct b eqn:?
       end; boolify; simpl; eauto; try lia; try congruence.
  all: rewrite lookup_insert_ne by congruence; eauto.
Qed.

(** Terms never decrease, and a row keeps its term only while nobody claims
    it: once expired it stays so, and only a record of a round's end that
    comes while the lease is live moves its instant. *)
Lemma exec_term {R : Set} (s : stmt R) nowMs db n r :
  0 <= nowMs -> slot_ok s nowMs db -> db !! n = Some r ->
  exists r', snd (exec s nowMs db) !! n = Some r' /\ Term r <= Term r' /\
    (Term r' = Term r -> ExpiresAtMs r <= nowMs ->
     ExpiresAtMs r' <= nowMs /\ SlotMs r' = SlotMs r).
Proof.
  intros Hnow Hok Hr.
  destruct s; simpl in *; rewrite ?update_where_lookup, ?Hr;
    try match goal with |- context [match db !! ?m with _ => _ end] =>
          destruct (db !! m) as [r0|] eqn:E0; simpl end;
    try (eexists; split; [eassumption|]; split; [lia|tauto]).
  all: unfold expired, live, held_by, rerunnable, expired in *.
  all: try (rewrite lookup_insert_ne by congruence; exists r; split; [done|]; split; [lia|tauto]).
  all: repeat match goal with
       | |- context [if ?b then _ else _] => destruct b eqn:?
       end; boolify; subst; eexists; (split; [reflexivity|]); simpl;
       try (split; [lia|]; intros; try lia; split; lia).
  (* UpdateFinish *)
  split; [lia|]. intros _ Hexp. exfalso.
  specialize (Hok r Hr eq_refl). boolify. lia.
Qed.

(** ** Views, interference and safe programs *)

Record view := mkView { v_db : table; v_now : Z; v_clock : Z }.

Section Safety.
Context (num den : Z) (timely : bool).
Hypothesis Hden : 0 < den.
Hypothesis Hnum : 0 <= num.

(** The interference a program of token [t] may meet. *)
Inductive rely (t : string) : view -> view -> Prop :=
| rely_tick v d e :
    0 <= d -> 0 <= e -> den * d <= num * e ->
    rely t v (mkView (v_db v) (v_now v + d) (v_clock v + e))
| rely_other v t' (R : Set) (s : stmt R) :
    t' <> t -> owned t' s ->
    (timely = true -> slot_ok s (UnixMilli (v_now v)) (v_db v)) ->
    rely t v (mkView (snd (exec s (UnixMilli (v_now v)) (v_db v)))
                (v_now v) (v_clock v)).

Definition allowed {R : Set} (t : string) (s : stmt R) (v : view) : Prop :=
  owned t s /\ (timely = true -> slot_ok s (UnixMilli (v_now v)) (v_db v)).

(** [safe t lost p Phi v]: from [v] on, every statement of [p] is allowed
    and every result satisfies [Phi] where it is returned.  [fin] restricts
    the moments statements run at. *)
Fixpoint safe {A} (t : string) (lost : bool) (fin : view -> Prop)
    (p : prog A) (Phi : A -> view -> Prop) (v : view) : Prop :=
  forall v', steps (rely t) v v' ->
  match p with
  | Ret a => Phi a v'
  | Now k => safe t lost fin (k (v_clock v')) Phi v'
  | ReadLost k => safe t lost fin (k lost) Phi v'
  | Exec s k =>
      safe t lost fin (k None) Phi v' /\
      (fin v' ->
       allowed t s v' /\
       let '(r, db') := exec s (UnixMilli (v_now v')) (v_db v') in
       let v'' := mkView db' (v_now v') (v_clock v') in
       safe t lost fin (k (Some r)) Phi v'' /\ safe t lost fin (k None) Phi v'')
  end.

Lemma safe_rely {A} t lost fin (p : prog A) Phi v v' :
  steps (rely t) v v' -> safe t lost fin p Phi v -> safe t lost fin p Phi v'.
Proof.
  intros Hs Hp. destruct p; simpl in *; intros w Hw;
    apply Hp; by eapply steps_trans.
Qed.

(** A result that holds under all interference may be returned. *)
Definition stable (t : string) (P : view -> Prop) : Prop :=
  forall v v', P v -> rely t v v' -> P v'.

Lemma stable_steps t P v v' : stable t P -> P v -> steps (rely t) v v' -> P v'.
Proof.
  intros HP HPv Hs. revert HPv. by apply (steps_invariant (rely t) P HP).
Qed.

Lemma safe_ret {A} t lost fin (a : A) (Phi : A -> view -> Prop) v :
  stable t (Phi a) -> Phi a v -> safe t lost fin (Ret a) Phi v.
Proof. intros HP Ha. simpl. intros v' Hs. by eapply stable_steps. Qed.

Definition after {R : Set} (s : stmt R) (v : view) : view :=
  mkView (snd (exec s (UnixMilli (v_now v)) (v_db v))) (v_now v) (v_clock v).

Lemma safe_exec {A} t lost fin {R : Set} (s : stmt R)
    (k : option R -> prog A) Phi v :
  (forall v', steps (rely t) v v' ->
     safe t lost fin (k None) Phi v' /\
     (fin v' ->
      allowed t s v' /\
      safe t lost fin (k (Some (fst (exec s (UnixMilli (v_now v')) (v_db v')))))
        Phi (after s v') /\
      safe t lost fin (k None) Phi (after s v'))) ->
  safe t lost fin (Exec s k) Phi v.
Proof.
  intros H v' Hs. destruct (H v' Hs) as [H1 H2]. split; [done|].
  intros Hf. destruct (H2 Hf) as (Ha & Hk & Hn). split; [done|].
  unfold after in *. by destruct (exec s _ _).
Qed.

Lemma safe_now {A} t lost fin (k : Z -> prog A) Phi v :
  (forall v', steps (rely t) v v' ->
     safe t lost fin (k (v_clock v')) Phi v') ->
  safe t lost fin (Now k) Phi v.
Proof. intros H. exact H. Qed.

Lemma safe_readLost {A} t lost fin (k : bool -> prog A) Phi v :
  safe t lost fin (k lost) Phi v ->
  safe t lost fin (ReadLost k) Phi v.
Proof. intros H v' Hs. by apply (safe_rely t lost fin _ Phi v). Qed.

(** ** What a tenure may rely on *)

(** The row of [n] is [t]'s until 15 seconds, by the database's clock,
    after a moment no later than the one this process's clock read
    [last] at. *)
Definition own (t n : string) (last : Z) (v : view) : Prop :=
  exists b, b <= v_now v /\ den * (v_now v - b) <= num * (v_clock v - last) /\
    ((exists r, v_db v !! n = Some r /\ Holder r = t /\
                UnixMilli b + leaseMs <= ExpiresAtMs r)
     \/ UnixMilli b + leaseMs <= UnixMilli (v_now v)).

(** The moment this process's clock read [last] at, on the database's. *)
Definition since (last : Z) (v : view) : Prop :=
  exists b, b <= v_now v /\ den * (v_now v - b) <= num * (v_clock v - last).

Lemma UnixMilli_le a b : a <= b -> UnixMilli a <= UnixMilli b.
Proof. intros. unfold UnixMilli, Millisecond. apply Z.div_le_mono; lia. Qed.

Lemma UnixMilli_nonneg a : 0 <= a -> 0 <= UnixMilli a.
Proof. intros. unfold UnixMilli, Millisecond. apply Z.div_pos; lia. Qed.

Lemma stable_since t last : stable t (since last).
Proof.
  intros v v' Hv Hr. revert Hv.
  destruct Hr as [w d e Hd0 He Hr|w t' R s Hne Ho Hs];
    intros (b & Hb & Hd); exists b; simpl in *; [split; lia|eauto].
Qed.

Lemma stable_own t n last : stable t (own t n last).
Proof.
  intros v v' Hv Hr. revert Hv.
  destruct Hr as [w d e Hd0 He Hr|w t' R s Hne Ho Hs];
    intros (b & Hb & Hd & Hrow); exists b; simpl in *.
  - split; [lia|]. split; [lia|].
    destruct Hrow as [?|Hx]; [by left|right].
    pose proof (UnixMilli_le (v_now w) (v_now w + d)). lia.
  - split; [done|]. split; [done|].
    destruct Hrow as [(r & Hr & Ht & He)|Hx]; [|by right].
    destruct (Z.le_gt_cases (ExpiresAtMs r) (UnixMilli (v_now w))) as [Hle|Hgt].
    + right. lia.
    + left. destruct (exec_keeps s t t' _ _ _ _ Ho Hne Hr Ht Hgt)
        as (r' & Hr' & Ht' & He'). exists r'. rewrite He'. auto.
Qed.

(** The row of [n] still in the term [T] it was read expired in has the
    instant [S] it was read with. *)
Definition read_at (n : string) (T S : Z) (v : view) : Prop :=
  0 <= v_now v /\
  (timely = true ->
   exists r, v_db v !! n = Some r /\ T <= Term r /\
     (Term r = T -> ExpiresAtMs r <= UnixMilli (v_now v) /\ SlotMs r = S)).

Lemma read_at_exec {R : Set} (s : stmt R) n T S v :
  (timely = true -> slot_ok s (UnixMilli (v_now v)) (v_db v)) ->
  read_at n T S v ->
  read_at n T S (mkView (snd (exec s (UnixMilli (v_now v)) (v_db v)))
                   (v_now v) (v_clock v)).
Proof.
  intros Hok [Hnow Hr]. split; [done|]. intros Ht. simpl.
  destruct (Hr Ht) as (r & Hr' & HT & Heq).
  destruct (exec_term s _ _ _ _ (UnixMilli_nonneg _ Hnow) (Hok Ht) Hr')
    as (r' & -> & HT' & Heq').
  exists r'. split; [done|]. split; [lia|]. intros HeqT.
  assert (Term r = T) as HT2 by lia. destruct (Heq HT2) as [He HS].
  destruct Heq' as [He' HS']; [lia|done|]. split; congruence.
Qed.

Lemma stable_read_at t n T S : stable t (read_at n T S).
Proof.
  intros v v' Hv Hr. revert Hv.
  destruct Hr as [w d e Hd0 He Hr|w t' R s Hne Ho Hs];
    intros Hv; [|by apply read_at_exec].
  destruct Hv as [Hnow Hv]. split; simpl in *; [lia|]. intros Ht.
  destruct (Hv Ht) as (r & Hr' & HT & Heq). exists r.
  split; [done|]. split; [done|]. intros HeqT.
  destruct (Heq HeqT). split; [|done].
  pose proof (UnixMilli_le (v_now w) (v_now w + d)). lia.
Qed.

(** ** The claims *)

Definition claim_post (t : string) (r : outcome (option Handle)) (v : view) :
    Prop :=
  match r with
  | Ok (Some h) => h_holder h = t /\ own t (h_name h) (h_claimedAt h) v
  | _ => True
  end.

Lemma stable_claim_post t r : stable t (claim_post t r).
Proof.
  intros v v' Hv Hr. destruct r as [[h|]|e]; simpl in *; [|done..].
  destruct Hv as [? Hv]. split; [done|]. by apply (stable_own _ _ _ v).
Qed.

Lemma since_now v : since (v_clock v) v.
Proof. exists (v_now v). split; [lia|]. nia. Qed.

(** A statement that sets the row of [n] to [t]'s for 15 seconds. *)
Lemma own_claimed t n last v r :
  since last v -> v_db v !! n = Some r -> Holder r = t ->
  ExpiresAtMs r = UnixMilli (v_now v) + leaseMs -> own t n last v.
Proof.
  intros (b & Hb & Hd) Hr Ht He. exists b. split; [done|]. split; [done|].
  left. exists r. pose proof (UnixMilli_le _ _ Hb). repeat split; try done. lia.
Qed.

Definition always (v : view) : Prop := True.

Lemma safe_fail t fin e v :
  safe t false fin (Ret (Err e)) (claim_post t) v.
Proof. by apply safe_ret; [apply stable_claim_post|]. Qed.

Lemma safe_none t fin v : safe t false fin (Ret (Ok None)) (claim_post t) v.
Proof. by apply safe_ret; [apply stable_claim_post|]. Qed.

Hint Resolve safe_fail safe_none stable_claim_post since_now : lease.

Hint Extern 1 (owned _ _) => done : lease.
Hint Extern 1 (allowed _ _ _) => (split; done) : lease.

(** The result of a claim's update, and the view after it. *)
Lemma claimed_row t n last p f (s : stmt nat) v k :
  since last v ->
  exec s (UnixMilli (v_now v)) (v_db v) = update_where n p f (v_db v) ->
  (forall r, Holder (f r) = t /\
             ExpiresAtMs (f r) = UnixMilli (v_now v) + leaseMs) ->
  fst (exec s (UnixMilli (v_now v)) (v_db v)) = S k ->
  own t n last (after s v).
Proof.
  intros Hs He Hf Hk. unfold after. rewrite He in *.
  destruct (update_where_affected _ _ _ _ _ Hk) as (r & Hr & Hp & _ & ->).
  destruct (Hf r) as [Hh Hx].
  apply (own_claimed _ _ _ _ (f r)); try done. apply lookup_insert_eq.
Qed.

Lemma safe_insertClaim t inst n slotMs last v :
  since last v ->
  safe t false always (insertClaim inst n t slotMs last) (claim_post t) v.
Proof.
  intros Hsince. apply safe_exec. intros v1 H1.
  pose proof (stable_steps t _ _ _ (stable_since t last) Hsince H1) as Hs1.
  split; [auto with lease|]. intros _.
  split; [auto with lease|]. split; [|auto with lease].
  unfold after. simpl exec.
  destruct (v_db v1 !! n) as [r|] eqn:E; cbn [fst snd]; [auto with lease|].
  apply safe_ret; [auto with lease|]. split; [done|]. cbn.
  apply (own_claimed _ _ _ _ (insert_row (UnixMilli (v_now v1)) t inst slotMs));
    try done. apply lookup_insert_eq.
Qed.

Lemma safe_handleOf t n last v :
  own t n last v -> safe t false always (handleOf n t last) (claim_post t) v.
Proof.
  intros Hown. apply safe_exec. intros v1 H1.
  pose proof (stable_steps t _ _ _ (stable_own t n last) Hown H1) as Hs1.
  split; [auto with lease|]. intros _.
  split; [auto with lease|]. split; [|auto with lease].
  cbn [exec fst]. destruct (select_where _ _ _ _) as [term|]; [|auto with lease].
  apply safe_ret; [auto with lease|]. by split.
Qed.

Lemma safe_Claim t DB inst n v :
  safe t false always (Claim DB inst (Some t) n) (claim_post t) v.
Proof.
  unfold Claim.
  destruct (ValidateName n); cbn [tryP]; [|auto with lease].
  destruct (primary DB); cbn [tryP newHolder]; [|auto with lease].
  apply safe_now. intros v1 _. apply safe_exec. intros v2 H2.
  pose proof (stable_steps t _ _ _ (stable_since t _) (since_now v1) H2) as Hs2.
  split; [auto with lease|]. intros _.
  split; [auto with lease|]. split; [|auto with lease].
  destruct (fst _) as [|[|k]] eqn:E;
    [by apply safe_insertClaim| |by apply safe_insertClaim].
  apply safe_handleOf. by eapply claimed_row.
Qed.

Lemma safe_ClaimRerun t DB inst u v :
  safe t false always (ClaimRerun DB inst (Some t) u) (claim_post t) v.
Proof.
  unfold ClaimRerun.
  destruct (ValidateName (u_Name u)); cbn [tryP]; [|auto with lease].
  destruct (primary DB); cbn [tryP newHolder]; [|auto with lease].
  apply safe_now. intros v1 _. apply safe_exec. intros v2 H2.
  pose proof (stable_steps t _ _ _ (stable_since t _) (since_now v1) H2) as Hs2.
  split; [auto with lease|]. intros _.
  split; [auto with lease|]. split; [|auto with lease].
  destruct (fst _) as [|k] eqn:E; [auto with lease|].
  apply safe_ret; [auto with lease|]. split; [done|]. by eapply claimed_row.
Qed.

Lemma now_nonneg t v v' : 0 <= v_now v -> steps (rely t) v v' -> 0 <= v_now v'.
Proof.
  intros Hv Hs. revert Hv.
  apply (steps_invariant (rely t) (fun v => 0 <= v_now v)); [|done].
  intros x y Hx Hr. revert Hx. destruct Hr; simpl; lia.
Qed.

Lemma safe_ClaimSlot t DB inst n slot v :
  0 <= v_now v ->
  safe t false always (ClaimSlot DB inst (Some t) n slot) (claim_post t) v.
Proof.
  intros Hnow. unfold ClaimSlot.
  destruct (ValidateName n); cbn [tryP]; [|auto with lease].
  destruct (primary DB); cbn [tryP newHolder]; [|auto with lease].
  apply safe_exec. intros v1 H1. pose proof (now_nonneg _ _ _ Hnow H1) as Hnow1.
  split; [auto with lease|]. intros _.
  split; [auto with lease|]. split; [|auto with lease].
  cbn [exec fst]. unfold select_where.
  destruct (v_db v1 !! n) as [r|] eqn:E; cbn [fst].
  2: { apply safe_now. intros. apply safe_insertClaim. auto with lease. }
  cbn [st_Expired st_SlotMs].
  destruct (expired _ r) eqn:Eexp; cbn [Z.eqb orb]; [|auto with lease].
  destruct (_ <=? _) eqn:Eslot; [auto with lease|]. boolify.
  apply safe_now. intros v2 H2. apply safe_exec. intros v3 H3.
  pose proof (stable_steps t _ _ _ (stable_since t _) (since_now v2) H3) as Hs3.
  assert (read_at n (Term r) (SlotMs r) v3) as [Hnow3 Hread].
  { apply (stable_steps t _ (after (SelectSlot n) v1)); [apply stable_read_at| |exact (steps_trans _ _ _ _ H2 H3)].
    split; [done|]. intros _. exists r. unfold expired in Eexp. boolify.
    repeat split; try done; lia. }
  split; [auto with lease|]. intros _. split; [|split; [|auto with lease]].
  - split; [done|]. intros Ht r' Hr' HT _. cbn [st_Term] in HT.
    destruct (Hread Ht) as (r3 & Hr3 & _ & Heq). rewrite Hr' in Hr3.
    injection Hr3 as <-. destruct (Heq HT) as [_ ->]. done.
  - destruct (fst _) as [|k] eqn:Ek; [auto with lease|].
    apply safe_ret; [auto with lease|]. split; [done|]. by eapply claimed_row.
Qed.

(** ** Renewing and settling *)

Definition renew_post (t n : string) (att : Z) (r : outcome unit) (v : view) :
    Prop :=
  match r with Ok _ => own t n att v | Err _ => True end.

Lemma stable_renew_post t n att r : stable t (renew_post t n att r).
Proof. destruct r; simpl; [apply stable_own|by intros v v']. Qed.

Lemma safe_Renew t DB h att v :
  h_holder h = t -> since att v ->
  safe t false always (Renew DB h) (renew_post t (h_name h) att) v.
Proof.
  intros <- Hs. unfold Renew.
  assert (forall e v, safe (h_holder h) false always (Ret (Err e))
            (renew_post (h_holder h) (h_name h) att) v) as Herr.
  { intros. by apply safe_ret; [apply stable_renew_post|]. }
  destruct (primary DB); cbn [tryP]; [|done].
  apply safe_exec. intros v1 H1.
  pose proof (stable_steps _ _ _ _ (stable_since _ _) Hs H1) as Hs1.
  split; [done|]. intros _. split; [auto with lease|]. split; [|done].
  destruct (fst _) as [|k] eqn:E; [done|].
  apply safe_ret; [apply stable_renew_post|]. simpl.
  destruct (update_where_affected _ _ _ _ _ E) as (r & Hr & Hp & _ & Hdb).
  unfold held_by in Hp. boolify.
  eapply own_claimed with (r := set_expires _ r); try done.
  unfold after. cbn [exec v_db]. rewrite Hdb. apply lookup_insert_eq.
Qed.

Definition any {A} (_ : A) (_ : view) : Prop := True.

Lemma safe_any {A} t lost fin (a : A) v : safe t lost fin (Ret a) any v.
Proof. by apply safe_ret. Qed.

Hint Resolve safe_any : lease.

Lemma safe_Release t DB h lost fin v :
  h_holder h = t -> safe t lost fin (Release DB h) any v.
Proof.
  intros <-. unfold Release. destruct (primary DB); cbn [tryP]; [|auto with lease].
  apply safe_exec. intros v1 H1. split; [auto with lease|]. intros _.
  split; [auto with lease|]. split; [|auto with lease].
  destruct (fst _); auto with lease.
Qed.

(** A statement that must find the lease live is sent in time. *)
Definition in_time (lost : bool) (last : Z) (v : view) : Prop :=
  timely = true -> lost = false ->
  within num den (v_clock v) last.

(** The database clock in milliseconds has moved less than the lease. *)
Lemma own_live t n last v :
  own t n last v -> within num den (v_clock v) last ->
  exists r, v_db v !! n = Some r /\ Holder r = t /\
            UnixMilli (v_now v) < ExpiresAtMs r.
Proof.
  intros (b & Hb & Hd & Hrow) Hw. unfold within in Hw.
  assert (v_now v - b <= leaseDuration - Millisecond) as Hlt by nia.
  assert (UnixMilli (v_now v) < UnixMilli b + leaseMs) as Hms.
  { unfold leaseMs, Milliseconds, leaseDuration, UnixMilli in *.
    change (Z.quot (15 * Second) Millisecond) with 15000.
    unfold Millisecond, Second in *.
    pose proof (Z.div_mod b 1000000). pose proof (Z.mod_pos_bound b 1000000).
    pose proof (Z.div_mod (v_now v) 1000000).
    pose proof (Z.mod_pos_bound (v_now v) 1000000). lia. }
  destruct Hrow as [(r & Hr & Ht & He)|Hx]; [|lia].
  exists r. repeat split; try done. lia.
Qed.

Lemma safe_finishWithoutLease t h lost fin v :
  safe t lost fin (finishWithoutLease h) any v.
Proof.
  apply safe_exec. intros v1 H1. split; [auto with lease|]. intros _.
  split; [auto with lease|]. split; [|auto with lease].
  apply safe_readLost. destruct lost; auto with lease.
Qed.

Lemma safe_Finish t DB h passed lost last v :
  h_holder h = t -> (lost = false -> own t (h_name h) last v) ->
  safe t lost (in_time lost last) (Finish DB h passed) any v.
Proof.
  intros <- Hown. unfold Finish.
  destruct (h_slotMs h =? 0); [auto with lease|].
  destruct (primary DB); cbn [tryP]; [|auto with lease].
  apply safe_readLost. destruct lost; [apply safe_finishWithoutLease|].
  apply safe_exec. intros v1 H1.
  pose proof (stable_steps _ _ _ _ (stable_own _ _ _) (Hown eq_refl) H1) as Ho1.
  split; [auto with lease|]. intros Hin.
  split; [|split; [|auto with lease]].
  - split; [done|]. intros Ht r Hr _.
    destruct (own_live _ _ _ _ Ho1 (Hin Ht eq_refl)) as (r' & Hr' & _ & Hl).
    rewrite Hr in Hr'. injection Hr' as <-. unfold live. by apply Z.ltb_lt.
  - destruct (fst _) as [|[|k]]; auto using safe_finishWithoutLease with lease.
Qed.

Lemma safe_settle t DB op h lost last v :
  h_holder h = t -> (lost = false -> own t (h_name h) last v) ->
  safe t lost (in_time lost last) (settle_prog DB op h) any v.
Proof.
  intros Hh Ho. destruct op; simpl; [by apply safe_Release|by apply safe_Finish].
Qed.
End Safety.
