(* ===== verification/LeaseExclusion.v ===== *)
(** * Mutual exclusion and the instants granted

    The invariant of a deployment of the lease protocol, and what follows
    from it: two tenures of one name never both hold it, and no instant of
    a scheduled job is granted twice over. *)

From stdpp Require Import base gmap strings list.
From Stdlib Require Import ZArith Lia.
From S2P Require Import Prelude Lease LeaseSystem LeaseSafety.
Import Lease Hold System.
Local Open Scope Z_scope.

(** ** The instants granted *)

(** The grants on record agree with the rows: instants are granted in
    increasing order, second grants too, and only of an instant granted
    before and on record as unfinished. *)
Record wins_ok (db : table) (ws : list win) : Prop := mkWinsOk {
  wo_nodup : NoDup ws;
  wo_slot : forall n slot, WinSlot n slot ∈ ws ->
    exists r, db !! n = Some r /\ slot <= SlotMs r;
  wo_rerun : forall n slot, WinRerun n slot ∈ ws ->
    WinSlot n slot ∈ ws /\ exists r, db !! n = Some r /\ slot <= RerunSlotMs r;
  wo_row : forall n r, db !! n = Some r ->
    0 <= RerunSlotMs r /\
    (UnfinishedSlotMs r <> 0 -> WinSlot n (UnfinishedSlotMs r) ∈ ws)
}.

(** A statement that leaves the grants alone may rewrite rows as long as the
    instants on record do not go back and no unfinished instant appears. *)
Lemma wins_ok_mono db db' ws :
  wins_ok db ws ->
  (forall n r, db !! n = Some r -> exists r', db' !! n = Some r' /\
     SlotMs r <= SlotMs r' /\ RerunSlotMs r <= RerunSlotMs r') ->
  (forall n r', db' !! n = Some r' ->
     (RerunSlotMs r' = 0 \/ exists r, db !! n = Some r /\ RerunSlotMs r' = RerunSlotMs r) /\
     (UnfinishedSlotMs r' = 0 \/
      exists r, db !! n = Some r /\ UnfinishedSlotMs r' = UnfinishedSlotMs r)) ->
  wins_ok db' ws.
Proof.
  intros [H1 H2 H3 H4] Hup Hdown. constructor; [done| | |].
  - intros n slot Hin. destruct (H2 _ _ Hin) as (r & Hr & Hle).
    destruct (Hup _ _ Hr) as (r' & ? & ? & ?). exists r'. split; [done|lia].
  - intros n slot Hin. destruct (H3 _ _ Hin) as (Hs & r & Hr & Hle).
    split; [done|]. destruct (Hup _ _ Hr) as (r' & ? & ? & ?).
    exists r'. split; [done|lia].
  - intros n r' Hr'. destruct (Hdown _ _ Hr') as [Hrr Hu]. split.
    + destruct Hrr as [->|(r & Hr & ->)]; [done|]. apply (H4 _ _ Hr).
    + intros Hne. destruct Hu as [?|(r & Hr & Heq)]; [done|].
      rewrite Heq in *. by apply (H4 _ _ Hr).
Qed.

Lemma wins_ok_update n p f db ws :
  wins_ok db ws ->
  (forall r, db !! n = Some r -> p r = true ->
     SlotMs r <= SlotMs (f r) /\ RerunSlotMs (f r) = RerunSlotMs r /\
     (UnfinishedSlotMs (f r) = 0 \/ UnfinishedSlotMs (f r) = UnfinishedSlotMs r)) ->
  wins_ok (snd (update_where n p f db)) ws.
Proof.
  intros Hok Hf. apply (wins_ok_mono _ _ _ Hok).
  - intros m r Hr. rewrite update_where_lookup, Hr.
    destruct (String.eqb_spec n m) as [->|]; simpl;
      [|exists r; split; [done|lia]].
    destruct (p r) eqn:Ep; [|exists r; split; [done|lia]].
    destruct (Hf r Hr Ep) as (? & ? & ?). eexists. split; [done|]. lia.
  - intros m r'. rewrite update_where_lookup.
    destruct (db !! m) as [r|] eqn:Hr; [|done].
    destruct (String.eqb_spec n m) as [->|]; simpl; [|intros [= ->]; split; right; eauto].
    destruct (p r) eqn:Ep; intros [= <-]; [|split; right; eauto].
    destruct (Hf r Hr Ep) as (? & ? & Hu). split; [eauto|].
    destruct Hu; [by left|right; eauto].
Qed.

(** The grant of an instant by an update that moves it on. *)
Lemma wins_ok_claimSlot db ws n r now h i slot :
  wins_ok db ws -> db !! n = Some r -> SlotMs r < slot ->
  wins_ok (<[n := claimSlot_row now h i slot r]> db) (WinSlot n slot :: ws).
Proof.
  intros [H1 H2 H3 H4] Hr Hlt. constructor.
  - constructor; [|done]. intros Hin. destruct (H2 _ _ Hin) as (r' & Hr' & ?).
    rewrite Hr in Hr'. injection Hr' as <-. lia.
  - intros m s Hin. destruct (decide (m = n)) as [->|Hne].
    + rewrite lookup_insert_eq. eexists. split; [done|]. simpl.
      apply elem_of_cons in Hin as [[= ->]|Hin]; [lia|].
      destruct (H2 _ _ Hin) as (r' & Hr' & ?).
      rewrite Hr in Hr'. injection Hr' as <-. lia.
    + rewrite lookup_insert_ne by done.
      apply elem_of_cons in Hin as [[= ?]|Hin]; [done|]. eauto.
  - intros m s Hin. apply elem_of_cons in Hin as [[=]|Hin].
    destruct (H3 _ _ Hin) as (Hs & r' & Hr' & Hle).
    split; [by apply elem_of_cons; right|].
    destruct (decide (m = n)) as [->|Hne].
    + rewrite lookup_insert_eq. eexists. split; [done|].
      rewrite Hr in Hr'. injection Hr' as <-. done.
    + rewrite lookup_insert_ne by done. eauto.
  - intros m r'. destruct (decide (m = n)) as [->|Hne].
    + rewrite lookup_insert_eq. intros [= <-]. simpl.
      split; [apply (H4 _ _ Hr)|]. intros _. apply elem_of_cons. by left.
    + rewrite lookup_insert_ne by done. intros Hr'.
      destruct (H4 _ _ Hr') as [? Hu]. split; [done|].
      intros Hn. apply elem_of_cons. right. auto.
Qed.

(** The second grant of an instant. *)
Lemma wins_ok_claimRerun db ws n r now h i :
  wins_ok db ws -> db !! n = Some r -> rerunnable now r = true ->
  wins_ok (<[n := claimRerun_row now h i r]> db) (WinRerun n (SlotMs r) :: ws).
Proof.
  intros [H1 H2 H3 H4] Hr Hre. unfold rerunnable in Hre. boolify.
  destruct (H4 _ _ Hr) as [Hge Hu]. constructor.
  - constructor; [|done]. intros Hin. destruct (H3 _ _ Hin) as (_ & r' & Hr' & ?).
    rewrite Hr in Hr'. injection Hr' as <-. lia.
  - intros m s Hin. apply elem_of_cons in Hin as [[=]|Hin].
    destruct (H2 _ _ Hin) as (r' & Hr' & ?).
    destruct (decide (m = n)) as [->|Hne].
    + rewrite lookup_insert_eq. eexists. split; [done|].
      rewrite Hr in Hr'. injection Hr' as <-. done.
    + rewrite lookup_insert_ne by done. eauto.
  - intros m s Hin. apply elem_of_cons in Hin as [[= -> ->]|Hin].
    + split.
      * apply elem_of_cons. right. replace (SlotMs r) with (UnfinishedSlotMs r) by done.
        apply Hu. lia.
      * rewrite lookup_insert_eq. eexists. split; [done|]. simpl. lia.
    + destruct (H3 _ _ Hin) as (Hs & r' & Hr' & Hle).
      split; [by apply elem_of_cons; right|].
      destruct (decide (m = n)) as [->|Hne].
      * rewrite lookup_insert_eq. eexists. split; [done|]. simpl.
        rewrite Hr in Hr'. injection Hr' as <-. lia.
      * rewrite lookup_insert_ne by done. eauto.
  - intros m r'. destruct (decide (m = n)) as [->|Hne].
    + rewrite lookup_insert_eq. intros [= <-]. simpl. split; [lia|].
      intros Hn. apply elem_of_cons. right. auto.
    + rewrite lookup_insert_ne by done. intros Hr'.
      destruct (H4 _ _ Hr') as [? Hu']. split; [done|].
      intros Hn. apply elem_of_cons. right. auto.
Qed.

Lemma wins_ok_insert db ws n now h i slot :
  wins_ok db ws -> db !! n = None ->
  wins_ok (<[n := insert_row now h i slot]> db)
    ((if negb (slot =? 0) then [WinSlot n slot] else []) ++ ws).
Proof.
  intros [H1 H2 H3 H4] Hn.
  assert (forall s, WinSlot n s ∉ ws) as Hno.
  { intros s Hin. destruct (H2 _ _ Hin) as (r & Hr & _). congruence. }
  assert (forall m r, db !! m = Some r ->
    <[n := insert_row now h i slot]> db !! m = Some r) as Hold.
  { intros m r Hr. rewrite lookup_insert_ne; [done|congruence]. }
  constructor.
  - destruct (slot =? 0); simpl; [done|]. by constructor.
  - intros m s Hin. apply elem_of_app in Hin as [Hin|Hin].
    + destruct (slot =? 0); simpl in Hin; [by apply elem_of_nil in Hin|].
      apply list_elem_of_singleton in Hin as [= -> ->].
      rewrite lookup_insert_eq. eexists. split; [done|]. simpl. lia.
    + destruct (H2 _ _ Hin) as (r & Hr & ?). eauto.
  - intros m s Hin. apply elem_of_app in Hin as [Hin|Hin].
    + destruct (slot =? 0); simpl in Hin; [by apply elem_of_nil in Hin|].
      by apply list_elem_of_singleton in Hin.
    + destruct (H3 _ _ Hin) as (Hs & r & Hr & ?).
      split; [apply elem_of_app; by right|eauto].
  - intros m r'. destruct (decide (m = n)) as [->|Hne].
    + rewrite lookup_insert_eq. intros [= <-]. simpl. split; [lia|]. intros Hs.
      destruct (Z.eqb_spec slot 0); [done|]. simpl. apply elem_of_cons. by left.
    + rewrite lookup_insert_ne by done. intros Hr'.
      destruct (H4 _ _ Hr') as [? Hu]. split; [done|].
      intros Hx. apply elem_of_app. right. auto.
Qed.

(** Every statement whose promise holds keeps the grants in order. *)
Lemma wins_ok_exec {R : Set} (s : stmt R) nowMs db ws :
  slot_ok s nowMs db -> wins_ok db ws ->
  wins_ok (snd (exec s nowMs db)) (win_of s (fst (exec s nowMs db)) db ++ ws).
Proof.
  intros Hok Hw.
  destruct s; try exact Hw;
    try (apply wins_ok_update; [done|]; intros r Hr Hp; simpl in *;
         repeat split; try lia; auto;
         repeat match goal with |- context [if ?b then _ else _] =>
           destruct b eqn:? end; boolify; lia).
  - (* InsertClaim *)
    simpl. destruct (db !! name) as [r|] eqn:E; simpl; [done|].
    by apply wins_ok_insert.
  - (* UpdateClaimSlot *)
    simpl in *. unfold update_where.
    destruct (db !! name) as [r|] eqn:E; [|done].
    destruct ((Term r =? term) && expired nowMs r) eqn:Ep; [|done].
    simpl. boolify. apply wins_ok_claimSlot; auto.
  - (* UpdateClaimRerun *)
    simpl. unfold update_where. destruct (db !! name) as [r|] eqn:E; [|done].
    destruct ((Term r =? term) && rerunnable nowMs r) eqn:Ep; [|done].
    simpl. boolify. by apply wins_ok_claimRerun.
Qed.

(** ** The invariant of a deployment *)

Section Invariant.
Context (DB : option string) (inst : string) (num den : Z) (timely : bool).
Hypothesis Hden : 0 < den.
Hypothesis Hnum : 0 <= num.

Local Abbreviation rely := (rely num den timely).
Local Abbreviation safe := (safe num den timely).
Local Abbreviation own := (own num den).
Local Abbreviation since := (since num den).
Local Abbreviation step := (step DB inst num den timely).

(** A renewal in flight is the renewal's one statement, or its outcome. *)
Definition renewal (h : Handle) (p : prog (outcome unit)) : Prop :=
  (exists r, p = Ret r) \/ p = Renew DB h.

Definition phase_ok (t : string) (lost : bool) (ph : phase) (v : view) : Prop :=
  match ph with
  | Claiming p => lost = false /\ safe t false always p (claim_post num den t) v
  | Waiting h _ last _ =>
      lost = false /\ h_holder h = t /\ own t (h_name h) last v
  | Renewing h att last p =>
      lost = false /\ h_holder h = t /\ own t (h_name h) last v /\
      renewal h p /\
      safe t false always p (renew_post num den t (h_name h) att) v
  | LostLease h last => lost = true /\ h_holder h = t
  | Settling h last p =>
      h_holder h = t /\ safe t lost (in_time num den timely lost last) p any v
  | Gone => True
  end.

Lemma stable_phase_ok t lost ph : stable num den timely t (phase_ok t lost ph).
Proof.
  intros v v' Hv Hr.
  assert (steps (rely t) v v') as Hs by (eapply steps_snoc; [constructor|done]).
  destruct ph; simpl in *; destruct_and?; repeat split; auto;
    try (by eapply stable_own); by eapply safe_rely.
Qed.

Definition actor_view (s : sys) (a : actor) : view :=
  mkView (s_db s) (s_clock s) (a_clock a).

Record invariant (s : sys) : Prop := mkInvariant {
  inv_clock : 0 <= s_clock s;
  inv_actors : forall t a, s_actors s !! t = Some a ->
    phase_ok t (a_lost a) (a_phase a) (actor_view s a);
  inv_wins : timely = true -> wins_ok (s_db s) (s_wins s)
}.

Lemma invariant_initial clock : 0 <= clock -> invariant (initial clock).
Proof.
  intros Hc. constructor; simpl; [done| |].
  - intros t a. by rewrite lookup_empty.
  - intros _. constructor; simpl; [constructor| | |].
    + intros n slot Hin. by apply elem_of_nil in Hin.
    + intros n slot Hin. by apply elem_of_nil in Hin.
    + intros n r. by rewrite lookup_empty.
Qed.

(** The effect of an actor's own step on the table and the grants. *)
Inductive effect (t : string) (v : view) : table -> list win -> Prop :=
| effect_none : effect t v (v_db v) []
| effect_stmt (R : Set) (s : stmt R) :
    allowed timely t s v ->
    effect t v (snd (exec s (UnixMilli (v_now v)) (v_db v)))
      (win_of s (fst (exec s (UnixMilli (v_now v)) (v_db v))) (v_db v)).

Lemma safe_step {A} t lost fin (p : prog A) Phi v f p' db' :
  safe t lost fin p Phi v -> (is_exec p = true -> fin v) ->
  step_prog f lost (v_clock v) (UnixMilli (v_now v)) p (v_db v) = (p', db') ->
  safe t lost fin p' Phi (mkView db' (v_now v) (v_clock v)) /\
  effect t v db' (wins_of f (UnixMilli (v_now v)) p (v_db v)).
Proof.
  intros Hp Hfin Hstep.
  destruct p as [a|k|k|R s k]; simpl in Hstep.
  1-3: injection Hstep as <- <-; destruct v; split;
       [first [exact Hp|apply (Hp _ (steps_refl _ _))]|constructor].
  destruct (Hp _ (steps_refl _ _)) as [Hn Hrun].
  specialize (Hrun (Hfin eq_refl)). destruct Hrun as [Ha Hrun].
  pose proof (effect_stmt t v R s Ha) as Heff.
  destruct f; simpl in *; destruct (exec s _ _) as [r db1] eqn:E;
    injection Hstep as <- <-; simpl in *; destruct Hrun;
    split; try done; destruct v; try done; constructor.
Qed.

(** A step of actor [t] to a good phase, whose effect is an allowed
    statement's, keeps the invariant. *)
Lemma invariant_act s t a a' db' ws :
  invariant s -> s_actors s !! t = Some a ->
  effect t (actor_view s a) db' ws ->
  phase_ok t (a_lost a') (a_phase a') (mkView db' (s_clock s) (a_clock a')) ->
  invariant (mkSys db' (s_clock s) (<[t := a']> (s_actors s)) (s_found s)
               (ws ++ s_wins s)).
Proof.
  intros [Hc Ha Hw] Ht Heff Hph. constructor; simpl; [done| |].
  - intros t' b. destruct (decide (t' = t)) as [->|Hne].
    + rewrite lookup_insert_eq. by intros [= <-].
    + rewrite lookup_insert_ne by done. intros Hb.
      inversion Heff as [|R st Hal]; subst; [by apply Ha|].
      apply (stable_phase_ok _ _ _ (actor_view s b)); [by apply Ha|].
      destruct Hal as [Ho Hs].
      apply (rely_other num den timely t' (actor_view s b) t R st); [congruence|done|].
      exact Hs.
  - intros Htm. inversion Heff as [|R st Hal]; subst; [by apply Hw|].
    apply wins_ok_exec; [|by apply Hw]. by apply Hal.
Qed.

(** A change of phase alone. *)
Lemma invariant_phase s t a a' :
  invariant s -> s_actors s !! t = Some a ->
  phase_ok t (a_lost a') (a_phase a') (actor_view s a') ->
  invariant (with_actor s t a').
Proof.
  intros Hi Ht Hph.
  apply (invariant_act s t a a' (s_db s) []); try done.
  exact (effect_none t (actor_view s a)).
Qed.

Lemma invariant_start s t a :
  invariant s -> s_actors s !! t = None ->
  phase_ok t (a_lost a) (a_phase a) (actor_view s a) ->
  invariant (with_actor s t a).
Proof.
  intros [Hc Ha Hw] Ht Hph. constructor; simpl; [done| |done].
  intros t' b. destruct (decide (t' = t)) as [->|Hne].
  - rewrite lookup_insert_eq. by intros [= <-].
  - rewrite lookup_insert_ne by done. apply Ha.
Qed.

Lemma invariant_tick s d adv :
  invariant s -> 0 <= d -> (forall t, 0 <= adv t /\ den * d <= num * adv t) ->
  invariant (mkSys (s_db s) (s_clock s + d)
              (map_imap (fun t a => Some (advance (adv t) a)) (s_actors s))
              (s_found s) (s_wins s)).
Proof.
  intros [Hc Ha Hw] Hd Hadv. constructor; simpl; [lia| |done].
  intros t a. rewrite map_lookup_imap. intros (b & Hb & [= <-])%bind_Some.
  simpl. destruct (Hadv t) as [He Hr].
  apply (stable_phase_ok _ _ _ (actor_view s b)); [by apply Ha|].
  by apply (rely_tick num den timely t (actor_view s b) d (adv t)).
Qed.

Lemma safe_claim_prog t op v :
  0 <= v_now v ->
  safe t false always (claim_prog DB inst op t) (claim_post num den t) v.
Proof.
  intros Hnow. destruct op; simpl.
  - by apply safe_Claim.
  - by apply safe_ClaimSlot.
  - by apply safe_ClaimRerun.
Qed.

Lemma phase_of {t s a ph} :
  invariant s -> s_actors s !! t = Some a -> a_phase a = ph ->
  phase_ok t (a_lost a) ph (actor_view s a).
Proof. intros Hi Ha <-. by apply (inv_actors s Hi). Qed.

Lemma since_clock s a : since (a_clock a) (actor_view s a).
Proof. change (a_clock a) with (v_clock (actor_view s a)). apply since_now. Qed.

(** The attempt a timer starts began at that moment, and a renewal that
    keeps the tenure going either succeeded or left [last] alone. *)
Lemma onTimer_attempt now last att timeout :
  onTimer now last = WakeAttempt att timeout -> att = now /\ now < last + localDeadline.
Proof. unfold onTimer. case_cmp; intros [= <- <-]; split; lia. Qed.

Lemma afterAttempt_wait now att last r ended last' w :
  afterAttempt now att last r ended = NextWait last' w ->
  (last' = att /\ exists u, r = Ok u) \/ last' = last.
Proof.
  unfold afterAttempt. destruct r as [u|e].
  - destruct (_ <=? _); intros [= <- _]. eauto.
  - destruct e; try destruct ended; try done;
      destruct (_ <=? _); intros [= <- _]; by right.
Qed.

Lemma renewal_step h f lost clock nowMs p p' db db' :
  renewal h p -> step_prog f lost clock nowMs p db = (p', db') -> renewal h p'.
Proof.
  intros [[r ->]| ->]; [intros [= <- <-]; left; eauto|].
  unfold Renew. destruct (primary DB); cbn [tryP]; [|intros [= <- <-]; left; eauto].
  cbn [step_prog]. destruct f; try destruct (exec _ _ _) as [[|k] db1];
    intros [= <- <-]; left; eauto.
Qed.

(** The tenure's own renewal leaves it the row. *)
Lemma own_renew_step t h last v f p p' db' :
  h_holder h = t -> own t (h_name h) last v -> renewal h p ->
  step_prog f false (v_clock v) (UnixMilli (v_now v)) p (v_db v) = (p', db') ->
  own t (h_name h) last (mkView db' (v_now v) (v_clock v)).
Proof.
  intros <- (b & Hb & Hd & Hrow) Hren Hst.
  assert (db' = v_db v \/
          db' = snd (exec (UpdateRenew (h_name h) (h_holder h)) (UnixMilli (v_now v)) (v_db v)))
    as [->| ->].
  { destruct Hren as [[r ->]| ->]; [injection Hst; auto|].
    unfold Renew in Hst. destruct (primary DB); cbn [tryP] in Hst; [|injection Hst; auto].
    cbn [step_prog] in Hst.
    destruct f; try destruct (exec _ _ _) as [k db1]; injection Hst; auto. }
  - exists b. auto.
  - exists b. split; [done|]. split; [done|]. cbn [v_db v_now].
    destruct Hrow as [(r & Hr & Ht & He)|Hx]; [left|by right].
    cbn [exec]. rewrite update_where_lookup, Hr.
    destruct (_ && _); eexists; split; try done; simpl; split; try done.
    pose proof (UnixMilli_le _ _ Hb). lia.
Qed.

Lemma invariant_renewing s t a h att last p f p' db' :
  invariant s -> s_actors s !! t = Some a -> a_phase a = Renewing h att last p ->
  step_prog f (a_lost a) (a_clock a) (UnixMilli (s_clock s)) p (s_db s) = (p', db') ->
  invariant (mkSys db' (s_clock s)
              (<[t := set_phase (Renewing h att last p') a]> (s_actors s))
              (s_found s)
              (wins_of f (UnixMilli (s_clock s)) p (s_db s) ++ s_wins s)).
Proof.
  intros Hi Ha Hp Hst. pose proof (phase_of Hi Ha Hp) as (Hl & Hh & Ho & Hr & Hs).
  rewrite Hl in Hst.
  destruct (safe_step t false always p _ (actor_view s a) f p' db' Hs) as [Hs' Heff];
    [done|done|].
  apply (invariant_act _ t a); try done. simpl. repeat split; try done.
  - by apply (own_renew_step t h last (actor_view s a) f p p' db').
  - by apply (renewal_step h f false (a_clock a) (UnixMilli (s_clock s)) p p' (s_db s) db').
Qed.

Lemma invariant_step s s' : invariant s -> step s s' -> invariant s'.
Proof.
  intros Hi Hstep. destruct Hstep.
  - (* tick *) by apply invariant_tick.
  - (* start *) apply invariant_start; [done..|]. simpl. split; [done|].
    apply safe_claim_prog. apply (inv_clock s Hi).
  - (* claim *)
    pose proof (phase_of Hi H H0) as [Hl Hs]. rewrite Hl in H1.
    destruct (safe_step t false always p _ (actor_view s a) f p' db' Hs)
      as [Hs' Heff]; [done|done|].
    by apply (invariant_act _ t a).
  - (* won *)
    pose proof (phase_of Hi H H0) as [Hl Hs].
    destruct (Hs _ (steps_refl _ _)) as [Hh Ho].
    by apply (invariant_phase _ t a).
  - by apply (invariant_phase _ t a).
  - (* timer: lost *)
    pose proof (phase_of Hi H H0) as (Hl & Hh & Ho).
    by apply (invariant_phase _ t a).
  - (* timer: attempt *)
    pose proof (phase_of Hi H H0) as (Hl & Hh & Ho).
    destruct (onTimer_attempt _ _ _ _ H2) as [-> _].
    apply (invariant_phase _ t a); try done. simpl.
    repeat split; try done; [by right|].
    apply safe_Renew; try done. exact (since_clock s a).
  - by eapply invariant_renewing.
  - (* renewed *)
    pose proof (phase_of Hi H H0) as (Hl & Hh & Ho & _ & Hs).
    apply (invariant_phase _ t a); try done. simpl. repeat split; try done.
    destruct (afterAttempt_wait _ _ _ _ _ _ _ H1) as [[-> [u ->]]| ->]; [|done].
    exact (Hs _ (steps_refl _ _)).
  - (* renewal lost *)
    pose proof (phase_of Hi H H0) as (Hl & Hh & _).
    by apply (invariant_phase _ t a).
  - (* return while waiting *)
    pose proof (phase_of Hi H H0) as (Hl & Hh & Ho).
    apply (invariant_phase _ t a); try done. simpl. split; [done|].
    by apply safe_settle.
  - (* return while renewing *)
    pose proof (phase_of Hi H H0) as (Hl & Hh & Ho & _).
    apply (invariant_phase _ t a); try done. simpl. split; [done|].
    by apply safe_settle.
  - (* return after the loss *)
    pose proof (phase_of Hi H H0) as (Hl & Hh).
    apply (invariant_phase _ t a); try done. split; [done|].
    apply (safe_settle num den timely Hden t DB (SettleFinish passed));
      [done|]. cbn. congruence.
  - (* settle *)
    pose proof (phase_of Hi H H0) as (Hh & Hs).
    destruct (safe_step t (a_lost a) _ p _ (actor_view s a) f p' db' Hs)
      as [Hs' Heff]; [|done|].
    { intros He Htm Hlost. by apply H1. }
    by apply (invariant_act _ t a).
  - by apply (invariant_phase _ t a).
  - destruct Hi. by constructor.
Qed.

Lemma invariant_reachable clock s :
  0 <= clock -> steps step (initial clock) s -> invariant s.
Proof.
  intros Hc Hs. apply (steps_invariant step invariant invariant_step _ _ Hs).
  by apply invariant_initial.
Qed.

(** The row a tenure relies on is its own and unexpired for as long as the
    database clock cannot have left the lease behind. *)
Lemma tenure_live clock s t a h last :
  0 <= clock -> steps step (initial clock) s ->
  s_actors s !! t = Some a -> tenure (a_phase a) = Some (h, last) ->
  within num den (a_clock a) last ->
  exists r, s_db s !! h_name h = Some r /\ Holder r = t /\
            UnixMilli (s_clock s) < ExpiresAtMs r.
Proof.
  intros Hc Hs Ha Ht Hw. pose proof (invariant_reachable _ _ Hc Hs) as Hi.
  pose proof (inv_actors s Hi _ _ Ha) as Hph.
  apply (own_live num den Hden t (h_name h) last (actor_view s a)); [|done].
  destruct (a_phase a); simplify_eq/=; by destruct_and?.
Qed.
End Invariant.

(** ** Terms and instants never go back *)

Lemma exec_slot_mono {R : Set} (s : stmt R) nowMs db n r :
  slot_ok s nowMs db -> db !! n = Some r ->
  exists r', snd (exec s nowMs db) !! n = Some r' /\ SlotMs r <= SlotMs r' /\
             Term r <= Term r'.
Proof.
  intros Hok Hr.
  destruct s; simpl in *; rewrite ?update_where_lookup, ?Hr;
    try (exists r; split; [done|lia]).
  all: try match goal with |- context [match ?d !! ?m with _ => _ end] =>
         destruct (d !! m) eqn:? end; simpl;
       try (rewrite lookup_insert_ne by congruence);
       try (exists r; split; [done|lia]).
  all: repeat match goal with |- context [if ?b then _ else _] =>
         destruct b eqn:? end; boolify; subst;
       eexists; (split; [reflexivity|]); simpl; try lia.
  - specialize (Hok r Hr eq_refl). split; [|lia]. by apply Z.lt_le_incl, Hok.
  - destruct (_ && _) eqn:E; boolify; lia.
Qed.

Lemma step_prog_mono {A} num den timely t lost fin (p : prog A) Phi v f p' db' n r :
  safe num den timely t lost fin p Phi v -> (is_exec p = true -> fin v) ->
  timely = true ->
  step_prog f lost (v_clock v) (UnixMilli (v_now v)) p (v_db v) = (p', db') ->
  v_db v !! n = Some r ->
  exists r', db' !! n = Some r' /\ SlotMs r <= SlotMs r' /\ Term r <= Term r'.
Proof.
  intros Hp Hfin Htm Hst Hr.
  destruct (safe_step num den timely t lost fin p Phi v f p' db' Hp Hfin Hst)
    as [_ Heff].
  inversion Heff as [|R s [_ Hok]]; subst; [exists r; split; [done|lia]|].
  apply exec_slot_mono; auto.
Qed.

Section Monotone.
Context (DB : option string) (inst : string) (num den : Z).
Hypothesis Hden : 0 < den.
Hypothesis Hnum : 0 <= num.

Lemma step_mono s s' n r :
  invariant DB num den true s -> step DB inst num den true s s' ->
  s_db s !! n = Some r ->
  exists r', s_db s' !! n = Some r' /\ SlotMs r <= SlotMs r' /\ Term r <= Term r'.
Proof.
  intros Hi Hstep Hr.
  destruct Hstep; try (exists r; split; [done|lia]).
  - pose proof (phase_of _ _ _ _ Hi H H0) as [Hl Hs]. rewrite Hl in H1.
    by eapply (step_prog_mono _ _ _ _ _ _ _ _ (actor_view s a) _ _ _ _ _ Hs).
  - pose proof (phase_of _ _ _ _ Hi H H0) as (Hl & _ & _ & _ & Hs). rewrite Hl in H1.
    by eapply (step_prog_mono _ _ _ _ _ _ _ _ (actor_view s a) _ _ _ _ _ Hs).
  - pose proof (phase_of _ _ _ _ Hi H H0) as (_ & Hs).
    eapply (step_prog_mono _ _ _ _ _ _ _ _ (actor_view s a) _ _ _ _ _ Hs); try done.
    intros He Htm Hlost. by apply H1.
Qed.
End Monotone.
