(* ===== verification/LeaseSpec.v ===== *)
(** * What each lease operation does, and what the protocol guarantees

    The operations of [internal/lease] run on their own have the effects
    their documentation gives; a deployment of them keeps the protocol's
    promises.  The executable scheduler [act] builds the runs that show the
    promises are not empty. *)

From stdpp Require Import base gmap strings list.
From Stdlib Require Import ZArith Lia.
From S2P Require Import Prelude Lease LeaseSystem LeaseSafety LeaseExclusion.
Import Lease Hold System.
Local Open Scope Z_scope.

(** ** An executable scheduler *)

Inductive action : Set :=
| ATick (d e : Z)
| AStart (t : string) (op : claim_op) (c : Z)
| ARun (t : string) (f : fault)
| AWon (t : string)
| ATimer (t : string)
| ARenewed (t : string)
| AReturn (t : string) (op : settle_op).

Section Scheduler.
Context (DB : option string) (inst : string) (num den : Z) (timely : bool).

Definition act_run (s : sys) (t : string) (f : fault) (a : actor) : option sys :=
  let go {A} (p : prog A) (ph : prog A -> phase) :=
    let '(p', db') := step_prog f (a_lost a) (a_clock a)
                        (UnixMilli (s_clock s)) p (s_db s) in
    Some (mkSys db' (s_clock s) (<[t := set_phase (ph p') a]> (s_actors s))
            (s_found s)
            (wins_of f (UnixMilli (s_clock s)) p (s_db s) ++ s_wins s)) in
  match a_phase a with
  | Claiming p => go p Claiming
  | Renewing h att last p => go p (Renewing h att last)
  | Settling h last p =>
      if negb timely
         || (num * (a_clock a - last) <=? den * (leaseDuration - Millisecond))
      then go p (Settling h last) else None
  | _ => None
  end.

Definition act (x : action) (s : sys) : option sys :=
  match x with
  | ATick d e =>
      if (0 <=? d) && (0 <=? e) && (den * d <=? num * e)
      then Some (mkSys (s_db s) (s_clock s + d)
                   (map_imap (fun _ a => Some (advance e a)) (s_actors s))
                   (s_found s) (s_wins s))
      else None
  | AStart t op c =>
      match s_actors s !! t, op with
      | Some _, _ | _, OpClaimRerun _ => None
      | None, _ => Some (with_actor s t
                           (mkActor c false (Claiming (claim_prog DB inst op t))))
      end
  | ARun t f =>
      match s_actors s !! t with Some a => act_run s t f a | None => None end
  | AWon t =>
      match s_actors s !! t with
      | Some a =>
          match a_phase a with
          | Claiming (Ret (Ok (Some h))) =>
              Some (with_actor s t (set_phase (Waiting h (h_claimedAt h) (h_claimedAt h)
                (a_clock a + untilNextRenewal (a_clock a) (h_claimedAt h) (h_claimedAt h)
                               renewInterval localDeadline)) a))
          | _ => None
          end
      | None => None
      end
  | ATimer t =>
      match s_actors s !! t with
      | Some a =>
          match a_phase a with
          | Waiting h att last w =>
              if w <=? a_clock a then
                match onTimer (a_clock a) last with
                | WakeLost => Some (with_actor s t (mark_lost (LostLease h last) a))
                | WakeAttempt att' _ =>
                    Some (with_actor s t
                            (set_phase (Renewing h att' last (Renew DB h)) a))
                end
              else None
          | _ => None
          end
      | None => None
      end
  | ARenewed t =>
      match s_actors s !! t with
      | Some a =>
          match a_phase a with
          | Renewing h att last (Ret r) =>
              match afterAttempt (a_clock a) att last r false with
              | NextWait last' w => Some (with_actor s t (set_phase (Waiting h att last' w) a))
              | NextLost => Some (with_actor s t (mark_lost (LostLease h last) a))
              | NextReturn => None
              end
          | _ => None
          end
      | None => None
      end
  | AReturn t op =>
      match s_actors s !! t with
      | Some a =>
          match a_phase a with
          | Waiting h att last w =>
              Some (with_actor s t (set_phase (Settling h last (settle_prog DB op h)) a))
          | _ => None
          end
      | None => None
      end
  end.

Lemma act_sound x s s' :
  act x s = Some s' -> step DB inst num den timely s s'.
Proof.
  destruct x as [d e|t op c|t f|t|t|t|t op]; cbn [act]; intros H.
  - case_in H; [|done]. boolify. injection H as <-. by apply step_tick.
  - destruct (s_actors s !! t) eqn:E; [done|].
    destruct op as [n|n slot|u]; try done; injection H as <-.
    + exact (step_start _ _ _ _ _ s t (OpClaim n) c E I).
    + exact (step_start _ _ _ _ _ s t (OpClaimSlot n slot) c E I).
  - destruct (s_actors s !! t) as [a|] eqn:E; [|done]. unfold act_run in H.
    destruct (a_phase a) as [p|?|h att last p|?|h last p|] eqn:Ep; try done.
    + destruct (step_prog _ _ _ _ p _) eqn:Es. injection H as <-.
      by eapply step_claim.
    + destruct (step_prog _ _ _ _ p _) eqn:Es. injection H as <-.
      by eapply step_renew.
    + destruct (negb timely || _) eqn:Et; [|done].
      destruct (step_prog _ _ _ _ p _) eqn:Es. injection H as <-.
      eapply step_settle; try done. intros Htm _ _. rewrite Htm in Et.
      simpl in Et. by boolify.
  - destruct (s_actors s !! t) as [a|] eqn:E; [|done].
    destruct (a_phase a) as [p| | | | |] eqn:Ep; try done.
    destruct p as [[[h|]|]|?|?|]; try done. injection H as <-. by apply step_won.
  - destruct (s_actors s !! t) as [a|] eqn:E; [|done].
    destruct (a_phase a) as [|h att last w| | | |] eqn:Ep; try done.
    destruct (w <=? a_clock a) eqn:Ew; [|done]. boolify.
    destruct (onTimer _ _) eqn:Eo; injection H as <-.
    + by eapply step_timer_lost.
    + by eapply step_timer.
  - destruct (s_actors s !! t) as [a|] eqn:E; [|done].
    destruct (a_phase a) as [| |h att last p| | |] eqn:Ep; try done.
    destruct p as [r|?|?|]; try done.
    destruct (afterAttempt _ _ _ _ _) eqn:Ea; try done; injection H as <-.
    + by eapply step_renew_lost.
    + by eapply step_renewed.
  - destruct (s_actors s !! t) as [a|] eqn:E; [|done].
    destruct (a_phase a) as [|h att last w| | | |] eqn:Ep; try done.
    injection H as <-. by eapply step_return.
Qed.

Fixpoint acts (xs : list action) (s : sys) : option sys :=
  match xs with
  | [] => Some s
  | x :: xs => match act x s with Some s' => acts xs s' | None => None end
  end.

Lemma acts_sound xs s s' :
  acts xs s = Some s' -> steps (step DB inst num den timely) s s'.
Proof.
  revert s. induction xs as [|x xs IH]; intros s; simpl.
  - intros [= ->]. constructor.
  - destruct (act x s) as [s1|] eqn:E; [|done]. intros H.
    apply (steps_cons _ _ s1); [by apply (act_sound x)|by apply IH].
Qed.
End Scheduler.

(** ** The protocol's promises *)

(** C31: In every reachable state of a deployment — any number of processes,
    their statements interleaved in any order, failing, or losing their
    answers, their clocks and the database's advancing at rates that differ
    by less than the margin — two tenures of one name that have each renewed
    within the local deadline are the same tenure. *)
Theorem mutual_exclusion DB inst num den timely clock s t1 t2 a1 a2 h1 h2
    last1 last2 :
  0 < den -> 0 <= num ->
  num * localDeadline <= den * (leaseDuration - Millisecond) ->
  0 <= clock -> steps (step DB inst num den timely) (initial clock) s ->
  s_actors s !! t1 = Some a1 -> tenure (a_phase a1) = Some (h1, last1) ->
  s_actors s !! t2 = Some a2 -> tenure (a_phase a2) = Some (h2, last2) ->
  h_name h1 = h_name h2 ->
  a_clock a1 < last1 + localDeadline -> a_clock a2 < last2 + localDeadline ->
  t1 = t2.
Proof.
  intros Hden Hnum Hdrift Hc Hs Ha1 Ht1 Ha2 Ht2 Hn Hw1 Hw2.
  assert (forall c last, c < last + localDeadline -> within num den c last) as Hin.
  { intros c last Hlt. unfold within. nia. }
  destruct (tenure_live DB inst num den timely Hden clock s t1 a1 h1 last1)
    as (r1 & Hr1 & <- & _); auto.
  destruct (tenure_live DB inst num den timely Hden clock s t2 a2 h2 last2)
    as (r2 & Hr2 & <- & _); auto.
  congruence.
Qed.

(** C32: Along any run of a deployment whose rounds record their end in time,
    every instant of a scheduled job other than the epoch is granted at most
    once, and at most once more as a rerun of a round cut short, which is only
    granted for an instant granted before; the instants on record cover every
    instant granted.  (A row made with the slot 0 stands for no instant.) *)
Theorem slots_granted_once DB inst num den clock s :
  0 < den -> 0 <= clock ->
  steps (step DB inst num den true) (initial clock) s ->
  NoDup (s_wins s) /\
  (forall n slot, WinRerun n slot ∈ s_wins s -> WinSlot n slot ∈ s_wins s) /\
  (forall n slot, WinSlot n slot ∈ s_wins s ->
     exists r, s_db s !! n = Some r /\ slot <= SlotMs r).
Proof.
  intros Hden Hc Hs.
  destruct (inv_wins _ _ _ _ _
    (invariant_reachable DB inst num den true Hden clock s Hc Hs) eq_refl)
    as [H1 H2 H3 _].
  split; [done|]. split; [|done]. intros n slot Hin. by apply H3.
Qed.

(** C33: The last instant and the term on record under a name never
    decrease along any run of a deployment whose rounds record their end in
    time. *)
Theorem record_never_goes_back DB inst num den clock s s' n r :
  0 < den -> 0 <= clock ->
  steps (step DB inst num den true) (initial clock) s ->
  steps (step DB inst num den true) s s' ->
  s_db s !! n = Some r ->
  exists r', s_db s' !! n = Some r' /\ SlotMs r <= SlotMs r' /\ Term r <= Term r'.
Proof.
  intros Hden Hc Hs Hs' Hr.
  induction Hs' as [s|s s1 s2 Hs1 IH Hst]; [exists r; split; [done|lia]|].
  destruct (IH Hs Hr) as (r1 & Hr1 & ? & ?).
  assert (invariant DB num den true s1) as Hi.
  { apply (invariant_reachable DB inst num den true Hden clock); [done|].
    by eapply steps_trans. }
  destruct (step_mono DB inst num den s1 s2 n r1 Hi Hst Hr1) as (r2 & ? & ? & ?).
  exists r2. split; [done|lia].
Qed.

(** A transaction whose guard passes runs under the lease: when
    [Verify] of a tenure's handle succeeds, the row is that tenure's and
    unexpired, and any other tenure of the name has outlived its local
    deadline. *)
Lemma verify_guards DB inst num den timely clock s h samePool t a h' last lost c :
  0 < den -> 0 <= num ->
  num * localDeadline <= den * (leaseDuration - Millisecond) ->
  0 <= clock -> steps (step DB inst num den timely) (initial clock) s ->
  fst (run lost c (UnixMilli (s_clock s)) (Verify DB (Some h) samePool) (s_db s)) = Ok tt ->
  s_actors s !! t = Some a -> tenure (a_phase a) = Some (h', last) ->
  h_name h' = h_name h -> a_clock a < last + localDeadline ->
  (exists r, s_db s !! h_name h = Some r /\ Holder r = h_holder h /\
             UnixMilli (s_clock s) < ExpiresAtMs r) /\
  t = h_holder h.
Proof.
  intros Hden Hnum Hdrift Hc Hs Hv Ha Ht Hn Hw.
  unfold Verify in Hv. destruct (primary DB); [|done]. cbn in Hv.
  unfold select_where in Hv. destruct (s_db s !! h_name h) as [r|] eqn:Hr; [|done].
  destruct (held_by _ r && live _ r) eqn:Hp; [|done].
  unfold held_by, live in Hp. boolify.
  assert (within num den (a_clock a) last) as Hin by (unfold within; nia).
  destruct (tenure_live DB inst num den timely Hden clock s t a h' last)
    as (r' & Hr' & Hh' & _); auto.
  split; [eauto|]. congruence.
Qed.

(** C34: The renewal loop never sleeps or attempts past the local deadline:
    after an attempt that keeps the tenure the next timer is due no later
    than the deadline, and an attempt's timeout ends by the deadline. *)
Theorem renewals_respect_deadline now att last r ended last' w att' timeout :
  att <= now ->
  afterAttempt now att last r ended = NextWait last' w ->
  onTimer now last' = WakeAttempt att' timeout ->
  now <= w <= last' + localDeadline /\ w <= Z.max now (att + renewInterval) /\
  att' + timeout <= last' + localDeadline /\
  0 < timeout <= Z.quot localDeadline 2.
Proof.
  intros Ha Haft Hon.
  assert (now < last' + localDeadline /\
          w = now + untilNextRenewal now att last' renewInterval localDeadline) as [Hlt ->].
  { unfold afterAttempt in Haft. destruct r as [u|e].
    - destruct (_ <=? _) eqn:E; [done|]. injection Haft as <- <-. boolify.
      split; [lia|done].
    - destruct e; try destruct ended; try done;
        destruct (_ <=? _) eqn:E; try done; injection Haft as <- <-; boolify;
        (split; [lia|done]). }
  destruct (onTimer_attempt _ _ _ _ Hon) as [-> _].
  unfold onTimer in Hon. destruct (_ <=? _) eqn:E; [done|]. injection Hon as <-. boolify.
  unfold untilNextRenewal. change (Z.quot localDeadline 2) with 5000000000. lia.
Qed.

(** ** The operations on their own *)

Section Functional.
Context (DB : option string) (inst t : string) (clock now : Z).

Local Abbreviation run := (run false clock now).

(** [Claim] with a valid name on a database that can carry leases
    takes a free name — never claimed, expired or released — starting the
    next term for 15 seconds, and leaves a held name and the table alone;
    any earlier failure leaves the table alone. *)
Lemma Claim_spec n db :
  run (Claim DB inst (Some t) n) db =
  match ValidateName n, primary DB with
  | Err e, _ => (Err e, db)
  | Ok _, Err e => (Err e, db)
  | Ok _, Ok _ =>
      match db !! n with
      | None => (Ok (Some (newHandle n t 1 clock)), <[n := insert_row now t inst 0]> db)
      | Some r =>
          if expired now r
          then (Ok (Some (newHandle n t (Term r + 1) clock)),
                <[n := claim_row now t inst r]> db)
          else (Ok None, db)
      end
  end.
Proof.
  unfold Claim.
  destruct (ValidateName n); cbn [tryP]; [|done].
  destruct (primary DB); cbn [tryP newHolder]; [|done].
  cbn. unfold update_where. destruct (db !! n) as [r|] eqn:E; cbn.
  - destruct (expired now r); cbn.
    + unfold select_where. rewrite lookup_insert_eq. unfold held_by. cbn.
      by rewrite String.eqb_refl.
    + by rewrite E.
  - by rewrite E.
Qed.

(** [ClaimSlot] claims an instant exactly when the name is free and
    the instant is past the last one on record, names the unfinished
    instant it gives up, and otherwise leaves the table alone. *)
Lemma ClaimSlot_spec n slot db :
  run (ClaimSlot DB inst (Some t) n slot) db =
  match ValidateName n, primary DB with
  | Err e, _ => (Err e, db)
  | Ok _, Err e => (Err e, db)
  | Ok _, Ok _ =>
      match db !! n with
      | None =>
          (Ok (Some (mkHandle n t 1 (UnixMilli slot) None clock)),
           <[n := insert_row now t inst (UnixMilli slot)]> db)
      | Some r =>
          if expired now r && (SlotMs r <? UnixMilli slot)
          then (Ok (Some (mkHandle n t (uint64_add (Term r) 1) (UnixMilli slot)
                   (if negb (UnfinishedSlotMs r =? 0)
                       && (UnfinishedSlotMs r =? SlotMs r)
                    then Some (mkUnfinished n (ofUnixMilli (UnfinishedSlotMs r))
                                 (RerunSlotMs r =? UnfinishedSlotMs r) 0)
                    else None) clock)),
                <[n := claimSlot_row now t inst (UnixMilli slot) r]> db)
          else (Ok None, db)
      end
  end.
Proof.
  unfold ClaimSlot.
  destruct (ValidateName n); cbn [tryP]; [|done].
  destruct (primary DB); cbn [tryP newHolder]; [|done].
  cbn. unfold select_where. destruct (db !! n) as [r|] eqn:E; cbn; [|by rewrite E].
  destruct (expired now r) eqn:Ee; cbn; [|done].
  rewrite Z.leb_antisym. destruct (SlotMs r <? UnixMilli slot) eqn:Es; cbn; [|done].
  unfold update_where. rewrite E, Z.eqb_refl, Ee. done.
Qed.

(** [Finish] of a round that still holds its name records the round
    as run to its end, takes along the instants it overran when the
    database clock has reached them, and frees the name at once; without
    the lease it only clears the mark of its own instant. *)
Lemma Finish_spec lost h passed db e :
  primary DB = Ok e -> h_slotMs h <> 0 ->
  LeaseSystem.System.run lost clock now (Finish DB h passed) db =
  match db !! h_name h with
  | Some r =>
      if negb lost && held_by (h_holder h) r
      then (Ok tt, <[h_name h := finish_row now (UnixMilli passed) r]> db)
      else ((if lost then Ok tt else Err ErrLost),
            if UnfinishedSlotMs r =? h_slotMs h
            then <[h_name h := set_unfinished 0 r]> db else db)
  | None => ((if lost then Ok tt else Err ErrLost), db)
  end.
Proof.
  intros HDB Hs. unfold Finish. rewrite HDB. cbn [tryP].
  destruct (h_slotMs h =? 0) eqn:E0; boolify; [done|].
  cbn. destruct lost; cbn; unfold update_where;
    (destruct (db !! h_name h) as [r|] eqn:E; cbn; [|unfold update_where; rewrite ?E; done]).
  - by destruct (UnfinishedSlotMs r =? h_slotMs h).
  - destruct (held_by (h_holder h) r); cbn; [done|].
    unfold update_where. rewrite E.
    by destruct (UnfinishedSlotMs r =? h_slotMs h).
Qed.

(** The sweep finds exactly the rows free to claim a second time. *)
Lemma UnfinishedSlots_run names db e :
  primary DB = Ok e -> names <> [] ->
  exists us, run (UnfinishedSlots DB names) db = (Ok us, db) /\
    forall u, u ∈ us <-> exists r, u_Name u ∈ names /\ db !! u_Name u = Some r /\
      rerunnable now r = true /\
      u = mkUnfinished (u_Name u) (ofUnixMilli (SlotMs r)) false (Term r).
Proof.
  intros HDB Hn. unfold UnfinishedSlots. rewrite HDB. destruct names as [|n0 ns]; [done|].
  cbn -[list_filter]. eexists. split; [done|]. intros u.
  rewrite list_elem_of_fmap. split.
  - intros (y & -> & Hy). apply list_elem_of_fmap in Hy as ([n r] & -> & Hin).
    apply list_elem_of_filter in Hin as [[Hin Hre] Hm].
    apply elem_of_map_to_list in Hm. exists r. done.
  - intros (r & Hin & Hr & Hre & Hu).
    exists (mkUnfinishedRow (u_Name u) (Term r) (SlotMs r)). split; [done|].
    apply list_elem_of_fmap. exists (u_Name u, r). split; [done|].
    apply list_elem_of_filter. split; [done|]. by apply elem_of_map_to_list.
Qed.

Lemma UnixMilli_ofUnixMilli ms : UnixMilli (ofUnixMilli ms) = ms.
Proof. apply Z.div_mul. done. Qed.

(** A round cut short runs again once: the sweep finds exactly the
    rows with an unfinished, not yet rerun instant and a free name; the
    first replica to claim a found instant again wins it with a fresh
    term, after which the same find is refused and no later sweep finds
    the instant, whenever it looks. *)
Lemma rerun_once names db e u r now' clock' :
  primary DB = Ok e -> ValidateName (u_Name u) = Ok tt -> u_Name u ∈ names ->
  db !! u_Name u = Some r -> rerunnable now r = true ->
  u = mkUnfinished (u_Name u) (ofUnixMilli (SlotMs r)) false (Term r) ->
  let db' := <[u_Name u := claimRerun_row now t inst r]> db in
  (exists us, run (UnfinishedSlots DB names) db = (Ok us, db) /\ u ∈ us) /\
  run (ClaimRerun DB inst (Some t) u) db =
    (Ok (Some (mkHandle (u_Name u) t (uint64_add (Term r) 1) (SlotMs r) None clock)), db') /\
  LeaseSystem.System.run false clock' now' (ClaimRerun DB inst (Some t) u) db' = (Ok None, db') /\
  (forall us, fst (LeaseSystem.System.run false clock' now' (UnfinishedSlots DB names) db') = Ok us ->
     forall u', u' ∈ us -> u_Name u' <> u_Name u).
Proof.
  intros HDB Hv Hin Hr Hre Hu db'.
  assert (names <> []) as Hne by (intros ->; by apply elem_of_nil in Hin).
  split; [|split; [|split]].
  - destruct (UnfinishedSlots_run names db e HDB Hne) as (us & Hrun & Hus).
    exists us. split; [done|]. apply Hus. eauto.
  - unfold ClaimRerun. rewrite Hv, HDB. cbn. unfold update_where. rewrite Hr, Hre, Hu.
    cbn. by rewrite Z.eqb_refl, UnixMilli_ofUnixMilli.
  - unfold ClaimRerun. rewrite Hv, HDB. cbn. unfold update_where, db'.
    rewrite lookup_insert_eq, Hu. cbn.
    destruct (Z.eqb_spec (Term r + 1) (Term r)); [lia|done].
  - intros us Hus u' Hu' Heq. unfold UnfinishedSlots in Hus. rewrite HDB in Hus.
    destruct names as [|n0 ns]; [done|]. cbn -[list_filter] in Hus.
    injection Hus as <-. apply list_elem_of_fmap in Hu' as (y & -> & Hy).
    apply list_elem_of_fmap in Hy as ([n r'] & -> & Hf).
    apply list_elem_of_filter in Hf as [[_ Hre'] Hm].
    apply elem_of_map_to_list in Hm. cbn in Heq. subst n. unfold db' in Hm.
    rewrite lookup_insert_eq in Hm. injection Hm as <-.
    unfold rerunnable, claimRerun_row in Hre'. cbn in Hre'. boolify. lia.
Qed.
End Functional.

(** ** Concrete runs *)

(** A scheduler's replica claims the instant 1000 ms of a job; two seconds
    later it has renewed once. *)
Definition demo_actions : list action :=
  [AStart "t1" (OpClaimSlot "cron:a" (ofUnixMilli 1000)) 0;
   ARun "t1" Answered; ARun "t1" Answered; ARun "t1" Answered; AWon "t1";
   ATick (2 * Second) (2 * Second); ATimer "t1"; ARun "t1" Answered; ARenewed "t1"].

Definition demo (timely : bool) : sys :=
  default (initial 0)
    (acts (Some "sqlite") "i1" 1 1 timely demo_actions (initial 0)).

Lemma demo_reachable timely :
  steps (step (Some "sqlite") "i1" 1 1 timely) (initial 0) (demo timely).
Proof.
  apply (acts_sound _ _ _ _ _ demo_actions). unfold demo.
  by destruct timely; vm_compute.
Qed.

Definition demo_handle : Handle := mkHandle "cron:a" "t1" 1 1000 None 0.
Definition demo_actor : actor :=
  mkActor (2 * Second) false (Waiting demo_handle (2 * Second) (2 * Second) (4 * Second)).

Lemma demo_state timely : s_actors (demo timely) !! "t1" = Some demo_actor.
Proof. by destruct timely; vm_compute. Qed.

Lemma mutual_exclusion_witness : exists s a, s_actors s !! "t1" = Some a /\ "t1" = "t1".
Proof.
  exists (demo false), demo_actor. split; [apply demo_state|].
  apply (mutual_exclusion (Some "sqlite") "i1" 1 1 false 0 (demo false)
    "t1" "t1" demo_actor demo_actor demo_handle demo_handle (2 * Second) (2 * Second)
    eq_refl ltac:(done) ltac:(done) ltac:(done) (demo_reachable false)
    (demo_state false) eq_refl (demo_state false) eq_refl eq_refl eq_refl eq_refl).
Defined.

Lemma slots_granted_once_witness : NoDup (s_wins (demo true)).
Proof.
  apply (slots_granted_once (Some "sqlite") "i1" 1 1 0 (demo true));
    [done|done|apply demo_reachable].
Defined.

Lemma record_never_goes_back_witness :
  exists r r', s_db (demo true) !! "cron:a" = Some r /\ s_db (demo true) !! "cron:a" = Some r' /\
    SlotMs r <= SlotMs r'.
Proof.
  set (r := mkRow "t1" "i1" 1 17000 1000 1000 0).
  assert (s_db (demo true) !! "cron:a" = Some r) as Hr by (by vm_compute).
  destruct (record_never_goes_back (Some "sqlite") "i1" 1 1 0 (demo true) (demo true)
    "cron:a" r eq_refl ltac:(done) (demo_reachable true) (steps_refl _ _) Hr)
    as (r' & Hr' & Hs & _).
  exists r, r'. exact (conj Hr (conj Hr' Hs)).
Defined.

Lemma verify_guards_witness : "t1" = h_holder demo_handle.
Proof.
  apply (verify_guards (Some "sqlite") "i1" 1 1 false 0 (demo false) demo_handle true
    "t1" demo_actor demo_handle (2 * Second) false 0
    eq_refl ltac:(done) ltac:(done) ltac:(done) (demo_reachable false)
    ltac:(by vm_compute) (demo_state false) eq_refl eq_refl eq_refl).
Defined.

Lemma renewals_respect_deadline_witness : 0 < 5 * Second <= Z.quot localDeadline 2.
Proof.
  apply (renewals_respect_deadline (2 * Second) (2 * Second) 0 (Ok tt) false
    (2 * Second) (4 * Second) (2 * Second) (5 * Second)); done.
Defined.

Lemma Finish_spec_witness :
  System.run false 0 20 (Finish (Some "sqlite") demo_handle (ofUnixMilli 10))
    {["cron:a" := mkRow "t1" "i1" 1 15000 1000 1000 0]} =
  (Ok tt, {["cron:a" := mkRow "t1" "i1" 1 0 1000 0 0]}).
Proof.
  rewrite (Finish_spec (Some "sqlite") 0 20 false demo_handle (ofUnixMilli 10)
    {["cron:a" := mkRow "t1" "i1" 1 15000 1000 1000 0]}
    "CAST(unixepoch('subsec') * 1000 AS INTEGER)"); [|done|done].
  by vm_compute.
Defined.

Lemma rerun_once_witness :
  System.run false 0 20000 (ClaimRerun (Some "sqlite") "i1" (Some "t2")
      (mkUnfinished "cron:a" (ofUnixMilli 1000) false 1))
    {["cron:a" := mkRow "t1" "i1" 1 15000 1000 1000 0]} =
  (Ok (Some (mkHandle "cron:a" "t2" 2 1000 None 0)),
   <["cron:a" := mkRow "t2" "i1" 2 35000 1000 1000 1000]>
     {["cron:a" := mkRow "t1" "i1" 1 15000 1000 1000 0]}).
Proof.
  apply (rerun_once (Some "sqlite") "i1" "t2" 0 20000 ["cron:a"]
    {["cron:a" := mkRow "t1" "i1" 1 15000 1000 1000 0]}
    "CAST(unixepoch('subsec') * 1000 AS INTEGER)"
    (mkUnfinished "cron:a" (ofUnixMilli 1000) false 1)
    (mkRow "t1" "i1" 1 15000 1000 1000 0) 0 0); try done.
  apply list_elem_of_singleton. done.
Defined.

(** ** What the timing is for

    Without a bound on when the statement recording a round's end reaches
    the database, the last instant on record can go back: the record of a
    round whose lease has run out, arriving between another replica's read
    of the row and its claim, is overwritten by the claim. *)

Definition late_finish : list action :=
  [AStart "t1" (OpClaimSlot "cron:a" (ofUnixMilli 1000)) 0;
   ARun "t1" Answered; ARun "t1" Answered; ARun "t1" Answered; AWon "t1";
   AReturn "t1" (SettleFinish (ofUnixMilli 3000)); ARun "t1" Answered;
   ATick (16 * Second) (16 * Second);
   AStart "t2" (OpClaimSlot "cron:a" (ofUnixMilli 2000)) 0; ARun "t2" Answered;
   ARun "t1" Answered; ARun "t2" Answered].

Definition late_state (k : nat) : sys :=
  default (initial 0)
    (acts (Some "sqlite") "i1" 1 1 false (take k late_finish) (initial 0)).

(** With no bound on when a round's end is recorded, a reachable step of the
    deployment takes the last instant on record from 3000 back to 2000 ms. *)
Lemma record_goes_back_when_late :
  exists s s' r r',
    steps (step (Some "sqlite") "i1" 1 1 false) (initial 0) s /\
    steps (step (Some "sqlite") "i1" 1 1 false) s s' /\
    s_db s !! "cron:a" = Some r /\ s_db s' !! "cron:a" = Some r' /\
    SlotMs r = 3000 /\ SlotMs r' = 2000.
Proof.
  set (s' := default (initial 0) (acts (Some "sqlite") "i1" 1 1 false
               [ARun "t2" Answered] (late_state 12))).
  exists (late_state 12), s', (mkRow "t1" "i1" 1 0 3000 0 0),
    (mkRow "t2" "i1" 2 31000 2000 2000 0).
  split; [apply (acts_sound _ _ _ _ _ (take 12 late_finish)); by vm_compute|].
  split; [apply (acts_sound _ _ _ _ _ [ARun "t2" Answered]); by vm_compute|].
  by vm_compute.
Qed.
