(* ===== verification/BinTree.v ===== *)
(** * Binary search trees

    The part the three search trees of [ds/tree] have in common: the node
    type, with an annotation [c] per node (a colour, a balance factor,
    nothing), the read-only walks, and what they compute on a tree whose
    in-order list is sorted.  The packages [rbtree], [avltree] and
    [splaytree] repeat this code; each file of the development instantiates
    it.  A node's [Parent] pointer is not stored: where the code follows it,
    the node is given with its path to the root. *)

From stdpp Require Import base list sorting.
From Stdlib Require Import ZArith Lia.
From S2P Require Import Prelude Order.
Local Open Scope Z_scope.

Inductive node (C K V : Type) : Type :=
| Nil
| Node (c : C) (Left : node C K V) (Key : K) (Value : V) (Right : node C K V).
Arguments Nil {C K V}.
Arguments Node {C K V} _ _ _ _ _.

Record Tree (C K V : Type) : Type := mkTree { root : node C K V; size : Z }.
Arguments mkTree {C K V} _ _.
Arguments root {C K V} _.
Arguments size {C K V} _.

Section BinTree.
Context {C K V : Type}.

Definition is_nil (n : node C K V) : bool :=
  match n with Nil => true | _ => false end.

(** The in-order list of entries: the abstract value of a tree. *)
Fixpoint to_list (n : node C K V) : list (K * V) :=
  match n with
  | Nil => []
  | Node _ l k v r => to_list l ++ (k, v) :: to_list r
  end.

Definition entries (t : Tree C K V) : list (K * V) := to_list (root t).

(** ** Traversals

    The callback [fn] is a function of the state [S] it closes over, and
    answers whether to go on. *)

Section Visit.
Context {S : Type} (fn : S -> K -> V -> S * bool).

Fixpoint visit (l : list (K * V)) (s : S) : S * bool :=
  match l with
  | [] => (s, true)
  | (k, v) :: l => let '(s, ok) := fn s k v in if ok then visit l s else (s, false)
  end.

Fixpoint preorder (n : node C K V) (s : S) : S * bool :=
  match n with
  | Nil => (s, true)
  | Node _ l k v r =>
      let '(s, ok) := fn s k v in
      if negb ok then (s, false)
      else let '(s, ok) := preorder l s in
           if negb ok then (s, false) else preorder r s
  end.

Fixpoint inorder (n : node C K V) (s : S) : S * bool :=
  match n with
  | Nil => (s, true)
  | Node _ l k v r =>
      let '(s, ok) := inorder l s in
      if negb ok then (s, false)
      else let '(s, ok) := fn s k v in
           if negb ok then (s, false) else inorder r s
  end.

Fixpoint postorder (n : node C K V) (s : S) : S * bool :=
  match n with
  | Nil => (s, true)
  | Node _ l k v r =>
      let '(s, ok) := postorder l s in
      if negb ok then (s, false)
      else let '(s, ok) := postorder r s in
           if negb ok then (s, false) else fn s k v
  end.

Definition push (queue : list (node C K V)) (n : node C K V) : list (node C K V) :=
  match n with Nil => queue | _ => queue ++ [n] end.

(** [for len(queue) > 0]; a queue holds no nil.  [None] is no fuel left. *)
Fixpoint level_loop (fuel : nat) (queue : list (node C K V)) (s : S) : option S :=
  match queue with
  | [] => Some s
  | n :: queue =>
      match fuel, n with
      | O, _ => None
      | _, Nil => None
      | Datatypes.S fuel, Node _ l k v r =>
          let '(s, ok) := fn s k v in
          if negb ok then Some s
          else level_loop fuel (push (push queue l) r) s
      end
  end.

(** The order the traversals are specified by. *)
Fixpoint pre_list (n : node C K V) : list (K * V) :=
  match n with Nil => [] | Node _ l k v r => (k, v) :: pre_list l ++ pre_list r end.

Fixpoint post_list (n : node C K V) : list (K * V) :=
  match n with Nil => [] | Node _ l k v r => post_list l ++ post_list r ++ [(k, v)] end.

(** Pointwise concatenation of two lists of levels. *)
Fixpoint merge_levels (a b : list (list (K * V))) : list (list (K * V)) :=
  match a, b with
  | [], _ => b
  | _, [] => a
  | x :: a, y :: b => (x ++ y) :: merge_levels a b
  end.

(** The entries of each depth, left to right. *)
Fixpoint levels (n : node C K V) : list (list (K * V)) :=
  match n with
  | Nil => []
  | Node _ l k v r => [(k, v)] :: merge_levels (levels l) (levels r)
  end.

Lemma visit_app l1 l2 s :
  visit (l1 ++ l2) s =
    let '(s, ok) := visit l1 s in if ok then visit l2 s else (s, false).
Proof.
  revert s. induction l1 as [|[k v] l1 IH]; intros s; simpl; [by destruct (visit l2 s)|].
  destruct (fn s k v) as [s' []]; [apply IH|done].
Qed.

Lemma preorder_visit n s : preorder n s = visit (pre_list n) s.
Proof.
  revert s. induction n as [|c l IHl k v r IHr]; intros s; simpl; [done|].
  destruct (fn s k v) as [s' []]; simpl; [|done]. rewrite IHl, visit_app.
  destruct (visit (pre_list l) s') as [s2 []]; simpl; [apply IHr|done].
Qed.

Lemma inorder_visit n s : inorder n s = visit (to_list n) s.
Proof.
  revert s. induction n as [|c l IHl k v r IHr]; intros s; simpl; [done|].
  rewrite IHl, visit_app.
  destruct (visit (to_list l) s) as [s2 []]; simpl; [|done].
  destruct (fn s2 k v) as [s3 []]; simpl; [apply IHr|done].
Qed.

Lemma postorder_visit n s : postorder n s = visit (post_list n) s.
Proof.
  revert s. induction n as [|c l IHl k v r IHr]; intros s; simpl; [done|].
  rewrite IHl, !visit_app.
  destruct (visit (post_list l) s) as [s2 []]; simpl; [|done].
  rewrite IHr, !visit_app.
  destruct (visit (post_list r) s2) as [s3 []]; simpl; [|done].
  by destruct (fn s3 k v) as [s4 []].
Qed.

(** *** Level order *)

Lemma merge_levels_nil_r a : merge_levels a [] = a.
Proof. by destruct a. Qed.

Lemma merge_levels_assoc a b c :
  merge_levels a (merge_levels b c) = merge_levels (merge_levels a b) c.
Proof.
  revert b c. induction a as [|x a IH]; intros [|y b] [|z c]; simpl; try done.
  by rewrite IH, app_assoc.
Qed.

Definition flevels (q : list (node C K V)) : list (list (K * V)) :=
  foldr (fun n acc => merge_levels (levels n) acc) [] q.

Definition children (n : node C K V) : list (node C K V) :=
  match n with Nil => [] | Node _ l _ _ r => [l; r] end.

Definition root_entry (n : node C K V) : list (K * V) :=
  match n with Nil => [] | Node _ _ k v _ => [(k, v)] end.

Lemma flevels_app q1 q2 : flevels (q1 ++ q2) = merge_levels (flevels q1) (flevels q2).
Proof.
  induction q1 as [|n q1 IH]; simpl; [done|]. by rewrite IH, merge_levels_assoc.
Qed.

Lemma flevels_push q n : flevels (push q n) = flevels (q ++ [n]).
Proof.
  destruct n; [|done]. simpl. rewrite flevels_app. simpl. by rewrite merge_levels_nil_r.
Qed.

(** What is left to visit when [cur] is the rest of a level and [next] the
    part of the following one already queued. *)
Definition pending (cur next : list (node C K V)) : list (K * V) :=
  concat (map root_entry cur)
  ++ concat (merge_levels (flevels next) (flevels (concat (map children cur)))).

Lemma levels_unfold n : n <> Nil -> levels n = root_entry n :: flevels (children n).
Proof. destruct n; [done|]. intros _. simpl. by rewrite merge_levels_nil_r. Qed.

Lemma flevels_unfold n q :
  Forall (fun n => n <> Nil) (n :: q) ->
  flevels (n :: q) = concat (map root_entry (n :: q)) :: flevels (concat (map children (n :: q))).
Proof.
  revert n. induction q as [|n' q IH]; intros n Hq.
  - apply Forall_cons in Hq as [Hn _]. simpl. rewrite merge_levels_nil_r, !app_nil_r.
    by apply levels_unfold.
  - apply Forall_cons in Hq as [Hn Hq]. cbn [map concat]. rewrite flevels_app.
    change (flevels (n :: n' :: q)) with (merge_levels (levels n) (flevels (n' :: q))).
    rewrite IH by done. by rewrite levels_unfold by done.
Qed.

Lemma pending_start q : Forall (fun n => n <> Nil) q -> pending [] q = pending q [].
Proof.
  intros Hq. unfold pending. simpl. rewrite merge_levels_nil_r.
  destruct q as [|n q]; [done|]. by rewrite flevels_unfold by done.
Qed.

Lemma pending_step c l k v r cur next :
  pending (Node c l k v r :: cur) next = (k, v) :: pending cur (push (push next l) r).
Proof.
  unfold pending. simpl. do 2 f_equal. f_equal.
  rewrite flevels_push, flevels_app, flevels_push, flevels_app. simpl.
  rewrite !merge_levels_nil_r. by rewrite <- !merge_levels_assoc.
Qed.

Fixpoint nodes (n : node C K V) : nat :=
  match n with Nil => 0 | Node _ l _ _ r => Datatypes.S (nodes l + nodes r) end.

Definition fnodes (q : list (node C K V)) : nat := list_sum (map nodes q).

Lemma fnodes_push q n : fnodes (push q n) = (fnodes q + nodes n)%nat.
Proof.
  unfold fnodes. destruct n; [simpl; lia|].
  unfold push. rewrite map_app, list_sum_app. simpl. lia.
Qed.

Lemma push_not_nil q n : Forall (fun n => n <> Nil) q -> Forall (fun n => n <> Nil) (push q n).
Proof. intros H. destruct n; [done|]. apply Forall_app. by repeat constructor. Qed.

Lemma push_app q1 q2 n : push (q1 ++ q2) n = q1 ++ push q2 n.
Proof. destruct n; simpl; [done|]. by rewrite app_assoc. Qed.

Lemma level_loop_ok fuel cur next s :
  (fnodes cur + fnodes next <= fuel)%nat ->
  Forall (fun n => n <> Nil) cur -> Forall (fun n => n <> Nil) next ->
  level_loop fuel (cur ++ next) s = Some (visit (pending cur next) s).1.
Proof.
  revert cur next s. induction fuel as [|fuel IH]; intros cur next s Hf Hc Hn.
  - assert (cur ++ next = []) as E.
    { destruct cur as [|[|] cur]; [|by inversion Hc|unfold fnodes in Hf; simpl in Hf; lia].
      destruct next as [|[|] next]; [done|by inversion Hn|unfold fnodes in Hf; simpl in Hf; lia]. }
    apply app_eq_nil in E as [-> ->]. done.
  - assert (forall c l k v r cur next,
        (fnodes (Node c l k v r :: cur) + fnodes next <= Datatypes.S fuel)%nat ->
        Forall (fun n => n <> Nil) cur -> Forall (fun n => n <> Nil) next ->
        level_loop (Datatypes.S fuel) ((Node c l k v r :: cur) ++ next) s =
          Some (visit (pending (Node c l k v r :: cur) next) s).1) as Hcons.
    { clear -IH. intros c l k v r cur next Hf Hc Hn. rewrite pending_step. simpl.
      destruct (fn s k v) as [s' []]; simpl; [|done].
      rewrite !push_app. apply IH; [|done|by do 2 apply push_not_nil].
      rewrite !fnodes_push. unfold fnodes in *. simpl in Hf. lia. }
    destruct cur as [|[|c l k v r] cur].
    + rewrite app_nil_l, pending_start by done.
      destruct next as [|[|c l k v r] next]; [done|by inversion Hn|].
      apply Forall_cons in Hn as [_ Hn].
      specialize (Hcons c l k v r next []). rewrite app_nil_r in Hcons.
      apply Hcons; [|done|constructor]. unfold fnodes in *. simpl in *. lia.
    + by inversion Hc.
    + apply Forall_cons in Hc as [_ Hc]. by apply Hcons.
Qed.

Lemma level_loop_levels c l k v r s :
  let n := Node c l k v r in
  level_loop (nodes n) [n] s = Some (visit (concat (levels n)) s).1.
Proof.
  intros n. assert (Forall (fun n => n <> Nil) [n]) as Hn by by repeat constructor.
  change [n] with ([] ++ [n]). rewrite level_loop_ok; [|cbn; lia|constructor|done].
  rewrite pending_start by done. unfold pending. cbn. by rewrite !merge_levels_nil_r.
Qed.
End Visit.

(** ** Collecting the entries *)

Fixpoint collect {A} (f : K -> V -> A) (n : node C K V) (acc : list A) : list A :=
  match n with
  | Nil => acc
  | Node _ l k v r => collect f r (collect f l acc ++ [f k v])
  end.

Lemma collect_to_list {A} (f : K -> V -> A) n acc :
  collect f n acc = acc ++ map (fun e => f e.1 e.2) (to_list n).
Proof.
  revert acc. induction n as [|c l IHl k v r IHr]; intros acc; simpl.
  - by rewrite app_nil_r.
  - rewrite IHr, IHl, map_app. list_assoc.
Qed.

(** ** The ends of the tree *)

Fixpoint leftmost (n : node C K V) : option (K * V) :=
  match n with
  | Nil => None
  | Node _ Nil k v _ => Some (k, v)
  | Node _ l _ _ _ => leftmost l
  end.

Fixpoint rightmost (n : node C K V) : option (K * V) :=
  match n with
  | Nil => None
  | Node _ _ k v Nil => Some (k, v)
  | Node _ _ _ _ r => rightmost r
  end.

Lemma leftmost_head n : leftmost n = head (to_list n).
Proof.
  induction n as [|c l IHl k v r IHr]; [done|].
  destruct l as [|c' l' k' v' r']; [done|].
  change (leftmost (Node c (Node c' l' k' v' r') k v r)) with (leftmost (Node c' l' k' v' r')).
  rewrite IHl. simpl. by destruct (to_list l').
Qed.

Lemma rightmost_last n : rightmost n = last (to_list n).
Proof.
  induction n as [|c l IHl k v r IHr]; [done|].
  destruct r as [|c' l' k' v' r']; [simpl; by rewrite last_snoc|].
  change (rightmost (Node c l k v (Node c' l' k' v' r'))) with (rightmost (Node c' l' k' v' r')).
  rewrite IHr. cbn [to_list]. rewrite !last_app_cons.
  by rewrite app_comm_cons, last_app_cons.
Qed.
End BinTree.

(** ** Nodes with their paths *)

(** Whether the focus is its parent's left or right child. *)
Inductive dir : Set := L | R.

(** One step up: the parent's annotation and entry, and the other child. *)
Record frame (C K V : Type) : Type := Frame {
  f_dir : dir; f_ann : C; f_key : K; f_val : V; f_sibling : node C K V
}.
Arguments Frame {C K V} _ _ _ _ _.
Arguments f_dir {C K V} _.
Arguments f_ann {C K V} _.
Arguments f_key {C K V} _.
Arguments f_val {C K V} _.
Arguments f_sibling {C K V} _.

Section Paths.
Context {C K V : Type}.

(** The parent as a subtree, given the focused child. *)
Definition up (n : node C K V) (f : frame C K V) : node C K V :=
  match f_dir f with
  | L => Node (f_ann f) n (f_key f) (f_val f) (f_sibling f)
  | R => Node (f_ann f) (f_sibling f) (f_key f) (f_val f) n
  end.

(** The whole tree, from a focus. *)
Fixpoint zip (n : node C K V) (p : list (frame C K V)) : node C K V :=
  match p with
  | [] => n
  | f :: p => zip (up n f) p
  end.

(** What a path adds before and after the focus's own entries. *)
Fixpoint before (p : list (frame C K V)) : list (K * V) :=
  match p with
  | [] => []
  | Frame L _ _ _ _ :: p => before p
  | Frame R _ k v s :: p => before p ++ to_list s ++ [(k, v)]
  end.

Fixpoint after (p : list (frame C K V)) : list (K * V) :=
  match p with
  | [] => []
  | Frame L _ k v s :: p => (k, v) :: to_list s ++ after p
  | Frame R _ _ _ _ :: p => after p
  end.

Definition whole (n : node C K V) (p : list (frame C K V)) : list (K * V) :=
  before p ++ to_list n ++ after p.

Lemma to_list_zip n p : to_list (zip n p) = whole n p.
Proof.
  unfold whole. revert n. induction p as [|[[] c k v s] p IH]; intros n; simpl.
  - by rewrite app_nil_r.
  - rewrite IH. simpl. by rewrite <- !app_assoc.
  - rewrite IH. simpl. by rewrite <- !app_assoc.
Qed.

Lemma before_app p q : before (p ++ q) = before q ++ before p.
Proof.
  induction p as [|[[] c k v s] p IH]; simpl; [by rewrite app_nil_r|done|].
  rewrite IH. by rewrite <- !app_assoc.
Qed.

Lemma after_app p q : after (p ++ q) = after p ++ after q.
Proof.
  induction p as [|[[] c k v s] p IH]; simpl; [done| |done].
  rewrite IH. by rewrite <- !app_assoc.
Qed.

Lemma whole_left c l k v r p :
  whole l (Frame L c k v r :: p) = whole (Node c l k v r) p.
Proof. unfold whole. list_assoc. Qed.

Lemma whole_right c l k v r p :
  whole r (Frame R c k v l :: p) = whole (Node c l k v r) p.
Proof. unfold whole. list_assoc. Qed.

Lemma whole_mid c l k v r p :
  whole (Node c l k v r) p = (before p ++ to_list l) ++ (k, v) :: (to_list r ++ after p).
Proof. unfold whole. list_assoc. Qed.

Lemma whole_root n : whole n [] = to_list n.
Proof. unfold whole. simpl. by rewrite app_nil_r. Qed.

(** Where the key of a search is, relative to the focus. *)
Context (cmp : K -> K -> Z) `{!Comparison cmp}.

Definition around (key : K) (n : node C K V) (p : list (frame C K V)) : Prop :=
  ksorted cmp (whole n p) /\ keys_below cmp key (before p) /\ keys_above cmp key (after p).

Lemma around_root key n : ksorted cmp (to_list n) -> around key n [].
Proof. intros H. split; [by rewrite whole_root|]. by split; constructor. Qed.

Lemma around_left key c l k v r p :
  around key (Node c l k v r) p -> 0 < cmp k key ->
  around key l (Frame L c k v r :: p).
Proof.
  intros (Hs & Hb & Ha) Hk. split; [by rewrite whole_left|]. split; [done|]. simpl.
  unfold whole in Hs. apply ksorted_app in Hs as (_ & Hs & _).
  simpl in Hs. rewrite <- app_assoc in Hs. by eapply (side_left cmp) in Hs.
Qed.

Lemma around_right key c l k v r p :
  around key (Node c l k v r) p -> cmp k key < 0 ->
  around key r (Frame R c k v l :: p).
Proof.
  intros (Hs & Hb & Ha) Hk. split; [by rewrite whole_right|]. split; [|done]. simpl.
  rewrite whole_mid in Hs. eapply (side_right cmp) in Hs; [|done..].
  by rewrite <- app_assoc in Hs.
Qed.
End Paths.

(** ** Searching *)

Section Search.
Context {C K V : Type} (cmp : K -> K -> Z).

Fixpoint find (key : K) (n : node C K V) : option (K * V) :=
  match n with
  | Nil => None
  | Node _ l k v r =>
      let res := cmp k key in
      if res =? 0 then Some (k, v) else if 0 <? res then find key l else find key r
  end.

(** The loop of [Floor], with the best entry so far. *)
Fixpoint floor_walk (key : K) (n : node C K V) (floor : option (K * V)) :
    option (K * V) :=
  match n with
  | Nil => floor
  | Node _ l k v r =>
      let res := cmp k key in
      if res =? 0 then Some (k, v)
      else if 0 <? res then floor_walk key l floor
      else floor_walk key r (Some (k, v))
  end.

Fixpoint ceiling_walk (key : K) (n : node C K V) (ceiling : option (K * V)) :
    option (K * V) :=
  match n with
  | Nil => ceiling
  | Node _ l k v r =>
      let res := cmp k key in
      if res =? 0 then Some (k, v)
      else if 0 <? res then ceiling_walk key l (Some (k, v))
      else ceiling_walk key r ceiling
  end.

(** The same loops with the arguments of the comparison swapped. *)
Fixpoint floor_walk' (key : K) (n : node C K V) (floor : option (K * V)) :
    option (K * V) :=
  match n with
  | Nil => floor
  | Node _ l k v r =>
      let res := cmp key k in
      if res =? 0 then Some (k, v)
      else if res <? 0 then floor_walk' key l floor
      else floor_walk' key r (Some (k, v))
  end.

Fixpoint ceiling_walk' (key : K) (n : node C K V) (ceiling : option (K * V)) :
    option (K * V) :=
  match n with
  | Nil => ceiling
  | Node _ l k v r =>
      let res := cmp key k in
      if res =? 0 then Some (k, v)
      else if res <? 0 then ceiling_walk' key l (Some (k, v))
      else ceiling_walk' key r ceiling
  end.

Context `{!Comparison cmp}.

Lemma cmp_swap k key :
  (cmp k key =? 0) = (cmp key k =? 0) /\ (0 <? cmp k key) = (cmp key k <? 0).
Proof. pose proof (cmp_sym k key). split; case_cmp. Qed.

Lemma floor_walk_swap key n acc : floor_walk' key n acc = floor_walk key n acc.
Proof.
  revert acc. induction n as [|c l IHl k v r IHr]; intros acc; simpl; [done|].
  destruct (cmp_swap k key) as [-> ->]. by rewrite IHl, IHr.
Qed.

Lemma ceiling_walk_swap key n acc : ceiling_walk' key n acc = ceiling_walk key n acc.
Proof.
  revert acc. induction n as [|c l IHl k v r IHr]; intros acc; simpl; [done|].
  destruct (cmp_swap k key) as [-> ->]. by rewrite IHl, IHr.
Qed.

(** The three-way test at a node of a sorted tree. *)
Lemma node_cases c l k v r key (n := Node c l k v r : node C K V) :
  ksorted cmp (to_list n) ->
  ksorted cmp (to_list l) /\ ksorted cmp (to_list r) /\
  (cmp k key = 0 /\ keys_below cmp key (to_list l) /\ keys_above cmp key (to_list r) \/
   cmp k key < 0 /\ keys_below cmp key (to_list l ++ [(k, v)]) \/
   0 < cmp k key /\ keys_above cmp key ((k, v) :: to_list r)).
Proof.
  intros Hs. simpl in Hs. pose proof Hs as (Hl & Hr & Hb & Ha)%ksorted_mid; [|done].
  split; [done|]. split; [done|].
  destruct (Z.lt_trichotomy (cmp k key) 0) as [H|[H|H]].
  - right. left. split; [done|]. by eapply side_right in Hs.
  - left. split; [done|]. split.
    + eapply keys_below_eq; [done|exact H|done].
    + eapply keys_above_eq; [done| |exact Ha]. by apply cmp_eq_sym.
  - right. right. split; [done|]. by eapply side_left in Hs.
Qed.

Lemma find_ok key (n : node C K V) :
  ksorted cmp (to_list n) -> snd <$> find key n = lfind cmp key (to_list n).
Proof.
  induction n as [|c l IHl k v r IHr]; [done|]. intros Hs.
  destruct (node_cases c l k v r key Hs) as (Hl & Hr & [(E & Hb & Ha)|[[E Hb]|[E Ha]]]); simpl.
  - rewrite lfind_below by done. simpl. by case_cmp.
  - rewrite app_mid, lfind_below by done. case_cmp. by apply IHr.
  - rewrite lfind_app_above by done. case_cmp. by apply IHl.
Qed.

Lemma floor_walk_ok key (n : node C K V) acc :
  ksorted cmp (to_list n) -> floor_walk key n acc = lfloor cmp key (to_list n) acc.
Proof.
  revert acc. induction n as [|c l IHl k v r IHr]; intros acc; [done|]. intros Hs.
  destruct (node_cases c l k v r key Hs) as (Hl & Hr & [(E & Hb & Ha)|[[E Hb]|[E Ha]]]); simpl.
  - rewrite lfloor_below by done. simpl. case_cmp.
    by rewrite <- (app_nil_l (to_list r)), lfloor_app_above.
  - rewrite app_mid, lfloor_below by done. rewrite last_snoc. case_cmp. by apply IHr.
  - rewrite lfloor_app_above by done. case_cmp. by apply IHl.
Qed.

Lemma ceiling_walk_ok key (n : node C K V) acc :
  ksorted cmp (to_list n) ->
  ceiling_walk key n acc =
    match lceiling cmp key (to_list n) with Some e => Some e | None => acc end.
Proof.
  revert acc. induction n as [|c l IHl k v r IHr]; intros acc; [done|]. intros Hs.
  destruct (node_cases c l k v r key Hs) as (Hl & Hr & [(E & Hb & Ha)|[[E Hb]|[E Ha]]]); simpl.
  - rewrite lceiling_below by done. simpl. by case_cmp.
  - rewrite app_mid, lceiling_below by done. case_cmp. by apply IHr.
  - rewrite lceiling_app_above by done. case_cmp. rewrite IHl by done.
    by destruct (lceiling cmp key (to_list l)).
Qed.

Lemma ceiling_walk_None key (n : node C K V) :
  ksorted cmp (to_list n) ->
  ceiling_walk key n None = lceiling cmp key (to_list n).
Proof. intros H. rewrite ceiling_walk_ok by done. by destruct (lceiling _ _ _). Qed.
End Search.
