(* ===== verification/RBTree.v ===== *)
(** * The red-black tree

    Models [ds/tree/rbtree/rbtree.go] and [node.go].  A node the code holds
    a pointer to is a focus: the subtree at the node and the path of frames
    up to the root, innermost first, which is what its [Parent] pointers
    reach.  [None] is a nil pointer dereference.  The mutex of a tree made
    with [WithSafe] and the printing of a tree are left out. *)

From stdpp Require Import base list sorting.
From Stdlib Require Import ZArith Lia.
From S2P Require Import Prelude Order BinTree.
Local Open Scope Z_scope.

Inductive color : Set := Black | Red.

#[export] Instance color_eq_dec : EqDecision color.
Proof. solve_decision. Defined.

Abbreviation node K V := (BinTree.node color K V).

Abbreviation frame K V := (BinTree.frame color K V).
Abbreviation f_color := f_ann.
Abbreviation path K V := (list (frame K V)).

Abbreviation Tree K V := (BinTree.Tree color K V).

Section RBTree.
Context {K V : Type} (cmp : K -> K -> Z).

(** ** Nodes *)

Definition colorOf (n : node K V) : color :=
  match n with Nil => Black | Node c _ _ _ _ => c end.

Definition set_color (c : color) (n : node K V) : node K V :=
  match n with Nil => Nil | Node _ l k v r => Node c l k v r end.

Definition frame_color (c : color) (f : frame K V) : frame K V :=
  Frame (f_dir f) c (f_key f) (f_val f) (f_sibling f).
Definition frame_sibling (s : node K V) (f : frame K V) : frame K V :=
  Frame (f_dir f) (f_color f) (f_key f) (f_val f) s.

(** [rotateLeft] and [rotateRight] of a node that has the child that rises. *)
Definition rotateLeft (n : node K V) : option (node K V) :=
  match n with
  | Node c l k v (Node rc rl rk rv rr) => Some (Node rc (Node c l k v rl) rk rv rr)
  | _ => None
  end.

Definition rotateRight (n : node K V) : option (node K V) :=
  match n with
  | Node c (Node lc ll lk lv lr) k v r => Some (Node lc ll lk lv (Node c lr k v r))
  | _ => None
  end.

(** ** Insertion repair *)

(** [insertCase5]: [n] is the focus, [p] its parent, [g] its grandparent;
    [p] turns black, [g] red, and [g] is rotated away from [n]. *)
Definition insertCase5 (n : node K V) (p g : frame K V) (rest : path K V) :
    option (node K V) :=
  let p' := frame_color Black p in
  let g' := frame_color Red g in
  let gn := up (up n p') g' in
  match f_dir p, f_dir g with
  | L, L => (fun gn' => zip gn' rest) <$> rotateRight gn
  | R, R => (fun gn' => zip gn' rest) <$> rotateLeft gn
  | _, _ => Some (zip gn rest)
  end.

(** [insertCase4]: an inner grandchild is first rotated over its parent; the
    parent, now below, is the new focus. *)
Definition insertCase4 (n : node K V) (p : frame K V) (rest : path K V) :
    option (node K V) :=
  match rest with
  | [] => None
  | g :: rest =>
      match f_dir p, f_dir g, n with
      | R, L, Node c l k v r =>
          (* rotateLeft(p); n = n.Left *)
          insertCase5 (Node (f_color p) (f_sibling p) (f_key p) (f_val p) l)
            (Frame L c k v r) g rest
      | L, R, Node c l k v r =>
          (* rotateRight(p); n = n.Right *)
          insertCase5 (Node (f_color p) r (f_key p) (f_val p) (f_sibling p))
            (Frame R c k v l) g rest
      | _, _, _ => insertCase5 n p g rest
      end
  end.

(** [insertCase3]: a red uncle turns black with the parent, and the repair
    goes on at the grandparent, turned red. *)
Definition insertCase3 (insertCase1 : node K V -> path K V -> option (node K V))
    (n : node K V) (p : frame K V) (rest : path K V) : option (node K V) :=
  match rest with
  | [] => insertCase4 n p rest
  | g :: rest' =>
      match colorOf (f_sibling g) with
      | Red =>
          insertCase1
            (up (up n (frame_color Black p))
                (frame_sibling (set_color Black (f_sibling g)) (frame_color Red g)))
            rest'
      | Black => insertCase4 n p rest
      end
  end.

Definition insertCase2 (insertCase1 : node K V -> path K V -> option (node K V))
    (n : node K V) (p : frame K V) (rest : path K V) : option (node K V) :=
  match f_color p with
  | Black => Some (zip n (p :: rest))
  | Red => insertCase3 insertCase1 n p rest
  end.

Fixpoint insertCase1 (n : node K V) (p : path K V) {struct p} :
    option (node K V) :=
  match p with
  | [] => Some (set_color Black n)
  | f :: rest => insertCase2 insertCase1 n f rest
  end.

(** The descent of [put] from [curr]: [Some] with the new root and whether a
    node was added. *)
Fixpoint put_loop (key : K) (val : V) (curr : node K V) (p : path K V) :
    option (node K V * bool) :=
  match curr with
  | Nil =>
      (* the nil child of the last node: a red node goes there *)
      match insertCase1 (Node Red Nil key val Nil) p with
      | Some n => Some (n, true)
      | None => None
      end
  | Node c l k v r =>
      let res := cmp k key in
      if res =? 0 then Some (zip (Node c l k val r) p, false)
      else if 0 <? res then put_loop key val l (Frame L c k v r :: p)
      else put_loop key val r (Frame R c k v l :: p)
  end.

Definition put (t : Tree K V) (key : K) (val : V) : option (Tree K V) :=
  match root t with
  | Nil => Some (mkTree (Node Black Nil key val Nil) (size t + 1))
  | n =>
      match put_loop key val n [] with
      | Some (n', added) => Some (mkTree n' (if added then size t + 1 else size t))
      | None => None
      end
  end.

Definition Put := put.

(** ** Lookup *)

Fixpoint lookup (key : K) (n : node K V) : option (node K V) :=
  match n with
  | Nil => None
  | Node c l k v r =>
      let res := cmp k key in
      if res =? 0 then Some n
      else if 0 <? res then lookup key l
      else lookup key r
  end.

(** The same walk, keeping the path the [Parent] pointers give. *)
Fixpoint lookup_path (key : K) (n : node K V) (p : path K V) :
    option (node K V * path K V) :=
  match n with
  | Nil => None
  | Node c l k v r =>
      let res := cmp k key in
      if res =? 0 then Some (n, p)
      else if 0 <? res then lookup_path key l (Frame L c k v r :: p)
      else lookup_path key r (Frame R c k v l :: p)
  end.

Definition Get (t : Tree K V) (key : K) : option V :=
  match lookup key (root t) with
  | Some (Node _ _ _ v _) => Some v
  | _ => None
  end.

(** ** Deletion repair

    The repair moves and recolours the ancestors of the node [n] it is called
    on, never [n] itself: it is a function of [n]'s path.  [None] is a nil
    sibling dereferenced, or the rotation of [n] over its own parent that the
    last test of [deleteCase6] asks for when [n] is a left child whose sibling
    has a red left and a black right child; [deleteCase5] leaves none. *)

Definition deleteCase6 (p : frame K V) (rest : path K V) : option (path K V) :=
  match f_sibling p with
  | Nil => None
  | Node _ sl sk sv sr =>
      let pc := f_color p in
      match f_dir p, colorOf sl, colorOf sr with
      | L, _, Red =>
          (* s.Right.color = black; rotateLeft(p) *)
          Some (Frame L Black (f_key p) (f_val p) sl
                  :: Frame L pc sk sv (set_color Black sr) :: rest)
      | R, Red, _ =>
          (* s.Left.color = black; rotateRight(p) *)
          Some (Frame R Black (f_key p) (f_val p) sr
                  :: Frame R pc sk sv (set_color Black sl) :: rest)
      | L, Red, Black => None
      | _, Black, _ =>
          Some (frame_color Black (frame_sibling (Node pc sl sk sv sr) p) :: rest)
      end
  end.

Definition deleteCase5 (p : frame K V) (rest : path K V) : option (path K V) :=
  match f_sibling p with
  | Nil => None
  | Node sc sl sk sv sr =>
      let s' :=
        match f_dir p, sc, sl, sr with
        | L, Black, Node Red ll lk lv lr, _ =>
            match colorOf sr with
            | Black => (* rotateRight(s) *)
                Node Black ll lk lv (Node Red lr sk sv sr)
            | Red => f_sibling p
            end
        | R, Black, _, Node Red rl rk rv rr =>
            match colorOf sl with
            | Black => (* rotateLeft(s) *)
                Node Black (Node Red sl sk sv rl) rk rv rr
            | Red => f_sibling p
            end
        | _, _, _, _ => f_sibling p
        end in
      deleteCase6 (frame_sibling s' p) rest
  end.

(** Whether the sibling and both its children are black; a nil sibling is
    dereferenced for its children. *)
Definition black_family (s : node K V) : option bool :=
  match s with
  | Nil => None
  | Node c l _ _ r =>
      Some (bool_decide (c = Black) && bool_decide (colorOf l = Black)
            && bool_decide (colorOf r = Black))
  end.

Definition deleteCase4 (p : frame K V) (rest : path K V) : option (path K V) :=
  match f_color p with
  | Black => deleteCase5 p rest
  | Red =>
      match black_family (f_sibling p) with
      | None => None
      | Some true =>
          Some (frame_color Black
                  (frame_sibling (set_color Red (f_sibling p)) p) :: rest)
      | Some false => deleteCase5 p rest
      end
  end.

(** [deleteCase1(p)] is a call on the parent: it moves the parent's path. *)
Definition deleteCase3 (deleteCase1 : path K V -> option (path K V))
    (p : frame K V) (rest : path K V) : option (path K V) :=
  match f_color p with
  | Red => deleteCase4 p rest
  | Black =>
      match black_family (f_sibling p) with
      | None => None
      | Some true =>
          match deleteCase1 rest with
          | Some rest' =>
              Some (frame_sibling (set_color Red (f_sibling p)) p :: rest')
          | None => None
          end
      | Some false => deleteCase4 p rest
      end
  end.

(** A red sibling: the parent turns red, the sibling black, and the parent is
    rotated towards [n].  The parent being red, [deleteCase3] makes no
    recursive call then. *)
Definition deleteCase2 (deleteCase1 : path K V -> option (path K V))
    (p : frame K V) (rest : path K V) : option (path K V) :=
  match f_sibling p with
  | Node Red sl sk sv sr =>
      match f_dir p with
      | L => deleteCase3 (fun _ => None) (Frame L Red (f_key p) (f_val p) sl)
               (Frame L Black sk sv sr :: rest)
      | R => deleteCase3 (fun _ => None) (Frame R Red (f_key p) (f_val p) sr)
               (Frame R Black sk sv sl :: rest)
      end
  | _ => deleteCase3 deleteCase1 p rest
  end.

Fixpoint deleteCase1 (p : path K V) {struct p} : option (path K V) :=
  match p with
  | [] => Some []
  | f :: rest => deleteCase2 (fun _ => deleteCase1 rest) f rest
  end.

(** ** Deletion *)

Fixpoint maximum (n : node K V) (p : path K V) : node K V * path K V :=
  match n with
  | Node c l k v ((Node _ _ _ _ _) as r) => maximum r (Frame R c k v l :: p)
  | _ => (n, p)
  end.

(** The part of [Delete] on a node with at most one child: recolour and
    repair when it is black, put its child in its place, and blacken a child
    that becomes the root. *)
Definition delete_node (n : node K V) (p : path K V) : option (node K V) :=
  match n with
  | Nil => None
  | Node c l k v r =>
      let child := if is_nil r then l else r in
      let p' := match c with Black => deleteCase1 p | Red => Some p end in
      match p' with
      | None => None
      | Some [] => Some (set_color Black child)
      | Some p' => Some (zip child p')
      end
  end.

Definition Delete (t : Tree K V) (key : K) : option (Tree K V * option V) :=
  match lookup_path key (root t) [] with
  | Some (Node c l k v r, p) =>
      let n' :=
        match l, r with
        | Node _ _ _ _ _, Node _ _ _ _ _ =>
            (* the predecessor's entry moves up, and its node goes *)
            match maximum l [] with
            | (Node pc pl pk pv pr, q) =>
                delete_node (Node pc pl pk pv pr) (q ++ Frame L c pk pv r :: p)
            | (Nil, _) => None
            end
        | _, _ => delete_node (Node c l k v r) p
        end in
      match n' with
      | Some n' => Some (mkTree n' (size t - 1), Some v)
      | None => None
      end
  | _ => Some (t, None)
  end.

(** ** Construction and queries *)

Definition empty : Tree K V := mkTree Nil 0.

Definition IsEmpty (t : Tree K V) : bool := size t =? 0.
Definition Size (t : Tree K V) : Z := size t.
Definition Clear (t : Tree K V) : Tree K V := mkTree Nil 0.

(** [NewFromMap]: [Put] of each entry, in the order the map is ranged over. *)
Fixpoint put_all (t : Tree K V) (m : list (K * V)) : option (Tree K V) :=
  match m with
  | [] => Some t
  | (k, v) :: m =>
      match Put t k v with Some t => put_all t m | None => None end
  end.
Definition NewFromMap (m : list (K * V)) : option (Tree K V) := put_all empty m.

Definition Keys (t : Tree K V) : list K := collect (fun k _ => k) (root t) [].
Definition Values (t : Tree K V) : list V := collect (fun _ v => v) (root t) [].

Definition Min (t : Tree K V) : option (K * V) :=
  if is_nil (root t) then None else leftmost (root t).
Definition Max (t : Tree K V) : option (K * V) :=
  if is_nil (root t) then None else rightmost (root t).

Definition Floor (t : Tree K V) (key : K) : option (K * V) :=
  if is_nil (root t) then None else floor_walk cmp key (root t) None.
Definition Ceiling (t : Tree K V) (key : K) : option (K * V) :=
  if is_nil (root t) then None else ceiling_walk cmp key (root t) None.

(** The traversals; a nil callback returns at once. *)
Section Traversals.
Context {S : Type} (fn : option (S -> K -> V -> S * bool)).

Definition traverse (walk : (S -> K -> V -> S * bool) -> node K V -> S -> S * bool)
    (t : Tree K V) (s : S) : S :=
  match fn with
  | None => s
  | Some fn => if is_nil (root t) then s else (walk fn (root t) s).1
  end.

Definition PreOrder : Tree K V -> S -> S := traverse preorder.
Definition InOrder : Tree K V -> S -> S := traverse inorder.
Definition PostOrder : Tree K V -> S -> S := traverse postorder.

Definition LevelOrder (fuel : nat) (t : Tree K V) (s : S) : option S :=
  match fn with
  | None => Some s
  | Some fn => if is_nil (root t) then Some s else level_loop fn fuel [root t] s
  end.
End Traversals.

(** ** Counts and depths *)

Fixpoint blackCount (n : node K V) : Z :=
  match n with
  | Nil => 0
  | Node c l _ _ r =>
      let count := blackCount l + blackCount r in
      if bool_decide (colorOf n = Black) then count + 1 else count
  end.
Definition BlackCount (t : Tree K V) : Z := blackCount (root t).

Fixpoint redCount (n : node K V) : Z :=
  match n with
  | Nil => 0
  | Node c l _ _ r =>
      let count := redCount l + redCount r in
      if bool_decide (colorOf n = Red) then count + 1 else count
  end.
Definition RedCount (t : Tree K V) : Z := redCount (root t).

Fixpoint leafCount (n : node K V) : Z :=
  match n with
  | Nil => 0
  | Node _ l _ _ r =>
      if is_nil l && is_nil r then 1 else leafCount l + leafCount r
  end.
Definition LeafCount (t : Tree K V) : Z := leafCount (root t).

Fixpoint maxDepth (n : node K V) : Z :=
  match n with
  | Nil => 0
  | Node _ l _ _ r => Z.max (maxDepth l) (maxDepth r) + 1
  end.
Definition MaxDepth (t : Tree K V) : Z :=
  if is_nil (root t) then 0 else maxDepth (root t).

Fixpoint minDepth (n : node K V) : Z :=
  match n with
  | Nil => 0
  | Node _ l _ _ r =>
      if is_nil l && is_nil r then 1
      else if is_nil l then minDepth r + 1
      else if is_nil r then minDepth l + 1
      else Z.min (minDepth l) (minDepth r) + 1
  end.
Definition MinDepth (t : Tree K V) : Z :=
  if is_nil (root t) then 0 else minDepth (root t).
End RBTree.

(** [NewOrderedKeys] and [NewFromSlice]: the indices are the keys. *)
Definition NewFromSlice {V} (slice : list V) : option (Tree Z V) :=
  put_all compareZ empty (zip_with pair (seqZ 0 (Z.of_nat (length slice))) slice).
