(* ===== verification/RBTreeSpec.v ===== *)
(** * The red-black tree implements a sorted map

    The shape invariant, no red node with a red child and the same number of
    black nodes on every path, stated of a subtree and of the path above it;
    the repairs of [insertCase1] and [deleteCase1] restore it, dereference
    no nil pointer, and keep the in-order list.  Every operation then keeps
    it and acts on the list as its counterpart of [Order]. *)

From stdpp Require Import base list sorting.
From Stdlib Require Import ZArith Lia.
From S2P Require Import Prelude Order BinTree RBTree.
Local Open Scope Z_scope.

Create HintDb rbtree.

Section Spec.
Context {K V : Type} (cmp : K -> K -> Z).

Lemma to_list_set_color c (n : node K V) : to_list (set_color c n) = to_list n.
Proof. by destruct n. Qed.

(** ** Red-black shape *)

(** [rb n c h]: root colour [c], [h] black nodes on every path, and no red
    node with a red child. *)
Inductive rb : node K V -> color -> nat -> Prop :=
| rb_nil : rb Nil Black 0
| rb_red l k v r h :
    rb l Black h -> rb r Black h -> rb (Node Red l k v r) Red h
| rb_black l k v r cl cr h :
    rb l cl h -> rb r cr h -> rb (Node Black l k v r) Black (S h).

(** [rbp p c h]: the tree around the focus is valid once the focus is a
    subtree of black height [h] with root colour [c] or black. *)
Inductive rbp : path K V -> color -> nat -> Prop :=
| rbp_nil h : rbp [] Black h
| rbp_red d k v s p h :
    rb s Black h -> rbp p Red h -> rbp (Frame d Red k v s :: p) Black h
| rbp_black d k v s cs c p h :
    rb s cs h -> rbp p Black (S h) -> rbp (Frame d Black k v s :: p) c h.

Hint Constructors rb rbp : rbtree.

Lemma rbp_weaken p c h : rbp p c h -> rbp p Black h.
Proof. inversion 1; subst; eauto with rbtree. Qed.

Lemma rb_color n c h : rb n c h -> colorOf n = c.
Proof. by destruct 1. Qed.

Lemma rb_zip n p c h :
  rb n c h -> rbp p c h -> exists h', rb (zip n p) Black h'.
Proof.
  intros Hn Hp. revert n Hn. induction Hp as [h|d k v s p h Hs Hp IH|d k v s cs c p h Hs Hp IH];
    intros n Hn; simpl.
  - eauto.
  - apply IH. destruct d; simpl; by constructor.
  - apply IH. destruct d; simpl; econstructor; eauto.
Qed.

(** A black subtree of positive black height is a black node. *)
Lemma rb_black_inv n h :
  rb n Black (S h) -> exists l k v r cl cr,
    n = Node Black l k v r /\ rb l cl h /\ rb r cr h.
Proof. inversion 1; subst; eauto 10. Qed.

Lemma rb_red_inv n h :
  rb n Red h -> exists l k v r, n = Node Red l k v r /\ rb l Black h /\ rb r Black h.
Proof. inversion 1; subst; eauto 10. Qed.

(** ** Insertion repair *)

(** The rotations: black uncle, red parent. *)
Lemma insertCase4_ok n d k v s d2 k2 v2 u rest h :
  rb n Red h -> rb s Black h -> rb u Black h -> rbp rest Black (S h) ->
  exists t h', insertCase4 n (Frame d Red k v s) (Frame d2 Black k2 v2 u :: rest) = Some t /\
    rb t Black h' /\
    to_list t = before (Frame d Red k v s :: Frame d2 Black k2 v2 u :: rest)
      ++ to_list n ++ after (Frame d Red k v s :: Frame d2 Black k2 v2 u :: rest).
Proof.
  intros Hn Hs Hu Hrest.
  destruct (rb_red_inv _ _ Hn) as (nl & nk & nv & nr & -> & Hnl & Hnr).
  assert (forall t', rb t' Black (S h) ->
            to_list t' = to_list (up (up (Node Red nl nk nv nr) (Frame d Red k v s))
                                     (Frame d2 Black k2 v2 u)) ->
            exists t h', Some (zip t' rest) = Some t /\ rb t Black h' /\
              to_list t = before (Frame d Red k v s :: Frame d2 Black k2 v2 u :: rest)
                ++ to_list (Node Red nl nk nv nr)
                ++ after (Frame d Red k v s :: Frame d2 Black k2 v2 u :: rest)) as Hfin.
  { intros t' Ht' Hl. destruct (rb_zip t' rest Black (S h) Ht' Hrest) as [h' Hz].
    exists (zip t' rest), h'. split; [done|]. split; [done|].
    rewrite to_list_zip; unfold whole; rewrite Hl. destruct d, d2; list_assoc. }
  destruct d, d2; simpl; (apply Hfin;
    [econstructor; constructor; done|list_assoc]).
Qed.

Lemma insertCase1_ok n p h :
  rb n Red h -> rbp p Black h ->
  exists t h', insertCase1 n p = Some t /\ rb t Black h' /\
    to_list t = before p ++ to_list n ++ after p.
Proof.
  (* two frames are consumed at a time *)
  remember (length p) as m eqn:Hm. revert n p h Hm.
  induction m as [m IH] using lt_wf_ind. intros n p h Hm Hn Hp.
  destruct p as [|[d c k v s] rest].
  { destruct (rb_red_inv _ _ Hn) as (nl & nk & nv & nr & -> & Hnl & Hnr).
    do 2 eexists. split; [done|]. split; [econstructor; eauto|].
    simpl. by rewrite app_nil_r. }
  inversion Hp as [|? ? ? ? ? ? Hs Hrest|? ? ? ? ? ? ? ? Hs Hrest]; subst.
  - (* red parent: there is a black grandparent *)
    inversion Hrest as [| |d2 k2 v2 u cu ? rest' ? Hu Hrest']; subst.
    destruct cu.
    + (* black uncle *)
      destruct (insertCase4_ok n d k v s d2 k2 v2 u rest' h Hn Hs Hu Hrest')
        as (t & h' & Heq & Ht & Hl).
      exists t, h'. split; [|done]. simpl. unfold insertCase2, insertCase3.
      cbn [f_color f_sibling]. by rewrite (rb_color _ _ _ Hu).
    + (* red uncle: recolour and go on at the grandparent *)
      destruct (rb_red_inv _ _ Hu) as (ul & uk & uv & ur & -> & Hul & Hur).
      destruct (IH (length rest')) with
        (n := up (up n (Frame d Black k v s)) (Frame d2 Red k2 v2 (Node Black ul uk uv ur)))
        (p := rest') (h := S h) as (t & h' & Heq & Ht & Hl); try done.
      { simpl. lia. }
      { destruct d, d2; simpl; constructor; econstructor; eauto with rbtree. }
      exists t, h'. split; [exact Heq|]. split; [done|]. rewrite Hl.
      destruct d, d2; list_assoc.
  - (* black parent: nothing to repair *)
    destruct (rb_zip n (Frame d Black k v s :: rest) Red h Hn)
      as [h' Hz]; [econstructor; eauto|].
    exists (zip n (Frame d Black k v s :: rest)), h'.
    split; [done|]. split; [done|]. by rewrite to_list_zip.
Qed.

(** ** Deletion repair *)

(** What a parent of colour [c] whose children have black height [h] asks of
    the path above it. *)
Definition outer (c : color) (h : nat) (p : path K V) : Prop :=
  match c with Red => rbp p Red h | Black => rbp p Black (S h) end.

Lemma rbp_frame d c k v s p h :
  rb s Black h -> outer c h p -> rbp (Frame d c k v s :: p) Black h.
Proof. destruct c; simpl; eauto with rbtree. Qed.

Lemma rbp_frame_inv d c k v s p h :
  rbp (Frame d c k v s :: p) Black h ->
  exists cs, rb s cs h /\ (c = Red -> cs = Black) /\ outer c h p.
Proof.
  intros H. inversion H as [|? ? ? ? ? ? Hs Hp|? ? ? ? cs ? ? ? Hs Hp]; subst.
  - by exists Black.
  - by exists cs.
Qed.

(** The result of a repair at a path that had black height [S h]. *)
Definition repaired (p : path K V) (h : nat) (r : option (path K V)) : Prop :=
  exists p', r = Some p' /\ (p' = [] \/ rbp p' Red h) /\
    before p' = before p /\ after p' = after p.

Definition far (d : dir) (sl sr : node K V) : node K V :=
  match d with L => sr | R => sl end.

Lemma deleteCase6_ok d c k v sl sk sv sr cl cr rest h :
  rb sl cl h -> rb sr cr h -> outer c (S h) rest ->
  colorOf (far d sl sr) = Red ->
  repaired (Frame d c k v (Node Black sl sk sv sr) :: rest) h
    (deleteCase6 (Frame d c k v (Node Black sl sk sv sr)) rest).
Proof.
  intros Hl Hr Ho Hfar. unfold deleteCase6, repaired. cbn [f_sibling f_dir f_color f_key f_val].
  destruct d; simpl in Hfar.
  - rewrite (rb_color _ _ _ Hr) in Hfar. subst cr.
    destruct (rb_red_inv _ _ Hr) as (a & ka & va & b & -> & Ha & Hb).
    eexists. split; [destruct (colorOf sl); done|].
    split; [right|split; list_assoc].
    eapply rbp_black; [done|]. apply rbp_frame; [|done]. by econstructor.
  - rewrite (rb_color _ _ _ Hl) in Hfar. subst cl.
    destruct (rb_red_inv _ _ Hl) as (a & ka & va & b & -> & Ha & Hb).
    eexists. split; [done|].
    split; [right|split; list_assoc].
    eapply rbp_black; [done|]. apply rbp_frame; [|done]. by econstructor.
Qed.

Lemma deleteCase5_ok d c k v sl sk sv sr cl cr rest h :
  rb sl cl h -> rb sr cr h -> outer c (S h) rest ->
  cl = Red \/ cr = Red ->
  repaired (Frame d c k v (Node Black sl sk sv sr) :: rest) h
    (deleteCase5 (Frame d c k v (Node Black sl sk sv sr)) rest).
Proof.
  intros Hl Hr Ho Hred. unfold deleteCase5. cbn [f_sibling f_dir].
  destruct d.
  - destruct cr.
    + destruct Hred as [->|?]; [|done].
      destruct (rb_red_inv _ _ Hl) as (a & ka & va & b & -> & Ha & Hb).
      rewrite (rb_color _ _ _ Hr).
      destruct (deleteCase6_ok L c k v a ka va (Node Red b sk sv sr) Black Red rest h)
        as (p' & Heq & Hp & Hbe & Haf); try done; [by constructor|].
      exists p'. split; [exact Heq|]. split; [done|].
      split; [rewrite Hbe; list_assoc|rewrite Haf; list_assoc].
    + destruct (rb_red_inv _ _ Hr) as (a & ka & va & b & -> & Ha & Hb).
      destruct sl as [|[] ? ? ? ?]; by eapply deleteCase6_ok.
  - destruct cl.
    + destruct Hred as [?| ->]; [done|].
      destruct (rb_red_inv _ _ Hr) as (a & ka & va & b & -> & Ha & Hb).
      rewrite (rb_color _ _ _ Hl).
      destruct (deleteCase6_ok R c k v (Node Red sl sk sv a) ka va b Red Black rest h)
        as (p' & Heq & Hp & Hbe & Haf); try done; [by constructor|].
      exists p'. split; [exact Heq|]. split; [done|].
      split; [rewrite Hbe; list_assoc|rewrite Haf; list_assoc].
    + destruct (rb_red_inv _ _ Hl) as (a & ka & va & b & -> & Ha & Hb).
      destruct sr as [|[] ? ? ? ?]; by eapply deleteCase6_ok.
Qed.

(** A black sibling with a red child goes to the last two cases whatever the
    parent; with black children it turns red. *)
Lemma black_family_spec sl sk sv sr cl cr h :
  rb sl cl h -> rb sr cr h ->
  black_family (Node Black sl sk sv sr) =
    Some (match cl, cr with Black, Black => true | _, _ => false end).
Proof.
  intros Hl Hr. simpl. rewrite (rb_color _ _ _ Hl), (rb_color _ _ _ Hr).
  by destruct cl, cr.
Qed.

Lemma deleteCase4_ok d c k v sl sk sv sr cl cr rest h :
  rb sl cl h -> rb sr cr h -> outer c (S h) rest ->
  c = Red \/ cl = Red \/ cr = Red ->
  repaired (Frame d c k v (Node Black sl sk sv sr) :: rest) h
    (deleteCase4 (Frame d c k v (Node Black sl sk sv sr)) rest).
Proof.
  intros Hl Hr Ho Hred. unfold deleteCase4. cbn [f_color f_sibling].
  destruct c.
  - destruct Hred as [?|Hred]; [done|]. by eapply deleteCase5_ok.
  - rewrite (black_family_spec _ sk sv _ _ _ _ Hl Hr).
    destruct cl, cr; try (eapply deleteCase5_ok; eauto; fail).
    eexists. split; [done|]. split; [right|by destruct d].
    eapply rbp_black; [by constructor|]. by eapply rbp_weaken.
Qed.

Lemma deleteCase3_ok rec d c k v sl sk sv sr cl cr rest h :
  rb sl cl h -> rb sr cr h -> outer c (S h) rest ->
  (c = Black -> repaired rest (S h) (rec rest)) ->
  repaired (Frame d c k v (Node Black sl sk sv sr) :: rest) h
    (deleteCase3 rec (Frame d c k v (Node Black sl sk sv sr)) rest).
Proof.
  intros Hl Hr Ho Hrec. unfold deleteCase3. cbn [f_color f_sibling].
  destruct c; [|eapply deleteCase4_ok; eauto].
  rewrite (black_family_spec _ sk sv _ _ _ _ Hl Hr).
  destruct cl, cr; try (eapply deleteCase4_ok; eauto; fail).
  destruct (Hrec eq_refl) as (p' & -> & Hp & Hb & Ha).
  eexists. split; [done|]. split.
  - right. eapply rbp_black; [by constructor|].
    destruct Hp as [->|Hp]; [constructor|by eapply rbp_weaken].
  - destruct d; simpl; by rewrite Hb, Ha.
Qed.

Lemma deleteCase1_ok p h :
  rbp p Black (S h) -> repaired p h (deleteCase1 p).
Proof.
  revert h. induction p as [|[d c k v s] rest IH]; intros h Hp.
  { exists []. auto. }
  apply rbp_frame_inv in Hp as (cs & Hs & Hc & Ho).
  assert (c = Black -> repaired rest (S h) (deleteCase1 rest)) as Hrec.
  { intros ->. by apply IH. }
  simpl. unfold deleteCase2. cbn [f_sibling f_dir f_key f_val].
  destruct cs.
  - destruct (rb_black_inv _ _ Hs) as (sl & sk & sv & sr & cl & cr & -> & Hl & Hr).
    eapply deleteCase3_ok; eauto.
  - destruct c; [|by specialize (Hc eq_refl)].
    destruct (rb_red_inv _ _ Hs) as (sl & sk & sv & sr & -> & Hl & Hr).
    destruct d.
    + destruct (rb_black_inv _ _ Hl) as (tl & tk & tv & tr & cl & cr & -> & Htl & Htr).
      destruct (deleteCase3_ok (fun _ => None) L Red k v tl tk tv tr cl cr
                  (Frame L Black sk sv sr :: rest) h Htl Htr) as (p' & Heq & Hp & Hb & Ha).
      { simpl. by eapply rbp_black. } { done. }
      exists p'. split; [exact Heq|]. split; [done|].
      split; [rewrite Hb; list_assoc|rewrite Ha; list_assoc].
    + destruct (rb_black_inv _ _ Hr) as (tl & tk & tv & tr & cl & cr & -> & Htl & Htr).
      destruct (deleteCase3_ok (fun _ => None) R Red k v tl tk tv tr cl cr
                  (Frame R Black sk sv sl :: rest) h Htl Htr) as (p' & Heq & Hp & Hb & Ha).
      { simpl. by eapply rbp_black. } { done. }
      exists p'. split; [exact Heq|]. split; [done|].
      split; [rewrite Hb; list_assoc|rewrite Ha; list_assoc].
Qed.

Lemma delete_node_ok l k v r c p h :
  l = Nil \/ r = Nil ->
  rb (Node c l k v r) c h -> rbp p c h ->
  exists t h', delete_node (Node c l k v r) p = Some t /\ rb t Black h' /\
    to_list t = before p ++ (to_list l ++ to_list r) ++ after p.
Proof.
  intros Hnil Hn Hp. unfold delete_node.
  set (child := if is_nil r then l else r).
  assert (to_list child = to_list l ++ to_list r) as Hlist.
  { unfold child. destruct Hnil as [->| ->]; [|by rewrite app_nil_r].
    by destruct r. }
  assert (exists cc hc, rb child cc hc /\ match c with Red => cc = Black /\ hc = h
            | Black => h = S hc end) as (cc & hc & Hchild & Hh).
  { unfold child. inversion Hn; subst; destruct (is_nil r); eauto 10. }
  destruct c.
  - subst h. destruct (deleteCase1_ok p hc Hp) as (p' & -> & Hp' & Hb & Ha).
    destruct p' as [|f p'].
    + exists (set_color Black child). rewrite to_list_set_color, Hlist, <- Hb, <- Ha.
      simpl. rewrite app_nil_r.
      destruct Hchild; simpl; eauto using rb_nil, rb_black.
    + destruct Hp' as [?|Hp']; [done|].
      assert (exists h', rb (zip child (f :: p')) Black h') as [h' Hz].
      { destruct cc; [|by eapply rb_zip]. eapply rb_zip; [done|by eapply rbp_weaken]. }
      exists (zip child (f :: p')), h'. split; [done|]. split; [done|].
      rewrite to_list_zip. unfold whole. by rewrite Hlist, Hb, Ha.
  - destruct Hh as [-> ->].
    destruct (rb_zip child p Black h Hchild (rbp_weaken _ _ _ Hp)) as [h' Hz].
    destruct p as [|f p]; [by inversion Hp|].
    exists (zip child (f :: p)), h'. split; [done|]. split; [done|].
    rewrite to_list_zip. unfold whole. by rewrite Hlist.
Qed.
End Spec.

(** * The operations *)

Section Spec.
Context {K V : Type} (cmp : K -> K -> Z) `{!Comparison cmp}.

Abbreviation entries := (@entries color K V).
Abbreviation ksorted := (ksorted (V:=V) cmp).
Abbreviation lfind := (lfind (V:=V) cmp).

Record valid (t : Tree K V) : Prop := Valid {
  valid_sorted : ksorted (entries t);
  valid_shape : exists h, rb (root t) Black h;
  valid_size : size t = Z.of_nat (length (entries t))
}.

(** ** The focus of a walk down a valid tree *)

Definition focus (n : node K V) (p : path K V) : Prop :=
  exists c h, rb n c h /\ rbp p c h.

Lemma focus_left c l k v r p :
  focus (Node c l k v r) p -> focus l (Frame L c k v r :: p).
Proof.
  intros (c' & h & Hn & Hp). inversion Hn; subst.
  - exists Black, h. split; [done|]. by constructor.
  - eexists _, _. split; [done|]. by econstructor.
Qed.

Lemma focus_right c l k v r p :
  focus (Node c l k v r) p -> focus r (Frame R c k v l :: p).
Proof.
  intros (c' & h & Hn & Hp). inversion Hn; subst.
  - exists Black, h. split; [done|]. by constructor.
  - eexists _, _. split; [done|]. by econstructor.
Qed.

(** ** Insertion *)

Lemma rb_put_loop_ok key val n p :
  focus n p -> around cmp key n p ->
  exists t h,
    put_loop cmp key val n p =
      Some (t, if lfind key (whole n p) is Some _ then false else true) /\
    rb t Black h /\
    to_list t = linsert cmp (fun e => (e.1, val)) key val (whole n p).
Proof.
  revert p. induction n as [|c l IHl k v r IHr]; intros p Hf Har.
  - destruct Hf as (c & h & Hn & Hp). inversion Hn; subst.
    destruct Har as (Hs & Hb & Ha).
    destruct (insertCase1_ok (Node Red Nil key val Nil) p 0) as (t & h' & Heq & Ht & Hl);
      [by repeat constructor|done|].
    exists t, h'. simpl. rewrite Heq. unfold whole. simpl.
    rewrite lfind_below, lfind_above by done.
    rewrite linsert_below, linsert_above by done. by rewrite Hl.
  - simpl. case_cmp.
    + destruct Hf as (cc & h & Hn & Hp).
      assert (rb (Node c l k val r) cc h) as Hn' by (inversion Hn; subst; by econstructor).
      destruct (rb_zip _ _ _ _ Hn' Hp) as [h' Hz].
      exists (zip (Node c l k val r) p), h'. destruct Har as (Hs & _ & _).
      rewrite whole_mid in *. erewrite lfind_mid by done. split; [done|]. split; [done|].
      rewrite linsert_mid by done. by rewrite to_list_zip, whole_mid.
    + rewrite <- (whole_left c). apply IHl; [by apply focus_left|by apply (around_left cmp)].
    + rewrite <- (whole_right c). apply IHr; [by apply focus_right|apply (around_right cmp); [done|lia]].
Qed.

Lemma valid_focus t : valid t -> focus (root t) [].
Proof. intros [_ [h Hh] _]. exists Black, h. split; [done|]. constructor. Qed.

Lemma valid_around key t : valid t -> around cmp key (root t) [].
Proof. intros [Hs _ _]. split; [by rewrite whole_root|]. by split; constructor. Qed.

(** [put] on an empty tree is the walk on an empty tree. *)
Lemma rb_put_walk key val (t : Tree K V) :
  put cmp t key val =
    match put_loop cmp key val (root t) [] with
    | Some (n', added) => Some (mkTree n' (if added then size t + 1 else size t))
    | None => None
    end.
Proof. unfold put. by destruct (root t). Qed.

Lemma rb_Put_ok t key val :
  valid t ->
  exists t', Put cmp t key val = Some t' /\ valid t' /\
    entries t' = linsert cmp (fun e => (e.1, val)) key val (entries t).
Proof.
  intros Hv. unfold Put. rewrite rb_put_walk.
  destruct (rb_put_loop_ok key val (root t) []) as (n & h & -> & Hn & Hl);
    [by apply valid_focus|by apply valid_around|].
  rewrite whole_root in *. fold (entries t) in *. destruct Hv as [Hs _ Hsz].
  eexists. split; [done|]. split; [|done].
  assert (entries (mkTree n (if if lfind key (entries t) is Some _ then false else true
            then size t + 1 else size t)) =
          linsert cmp (fun e => (e.1, val)) key val (entries t)) as E by done.
  split.
  - rewrite E. apply ksorted_linsert; [done| |done]. intros e _. by apply cmp_refl.
  - by exists h.
  - rewrite E, length_linsert by done. simpl. destruct (lfind key (entries t)); lia.
Qed.

(** ** Deletion *)

Lemma lookup_path_ok key n p :
  focus n p -> around cmp key n p ->
  match lookup_path cmp key n p with
  | Some (m, q) => exists c l k v r,
      m = Node c l k v r /\ cmp k key = 0 /\ focus m q /\ whole m q = whole n p
  | None => lfind key (whole n p) = None
  end.
Proof.
  revert p. induction n as [|c l IHl k v r IHr]; intros p Hf Har; simpl.
  - destruct Har as (Hs & Hb & Ha). unfold whole. simpl.
    by rewrite lfind_below, lfind_above.
  - case_cmp.
    + by exists c, l, k, v, r.
    + rewrite <- (whole_left c). apply IHl; [by apply focus_left|by apply (around_left cmp)].
    + rewrite <- (whole_right c). apply IHr; [by apply focus_right|apply (around_right cmp); [done|lia]].
Qed.

Lemma maximum_app n p rest :
  maximum n (p ++ rest) = ((maximum (V:=V) (K:=K) n p).1, (maximum n p).2 ++ rest).
Proof.
  revert p. induction n as [|c l IHl k v r IHr]; intros p; [done|].
  destruct r as [|c' l' k' v' r']; [done|].
  change (maximum (Node c l k v (Node c' l' k' v' r')) (p ++ rest))
    with (maximum (Node c' l' k' v' r') ((Frame R c k v l :: p) ++ rest)).
  by rewrite IHr.
Qed.

Lemma maximum_ok c l k v r p :
  let n := Node c l k v r in
  focus n p ->
  exists c' l' k' v' q, maximum n p = (Node c' l' k' v' Nil, q) /\
    focus (Node c' l' k' v' Nil) q /\ after q = after p /\
    before q ++ to_list l' ++ [(k', v')] = before p ++ to_list n.
Proof.
  revert c l k v p. induction r as [|c1 l1 IHl k1 v1 r1 IHr]; intros c l k v p n Hf.
  - exists c, l, k, v, p. done.
  - destruct (IHr c1 l1 k1 v1 (Frame R c k v l :: p)) as (c' & l' & k' & v' & q & Heq & Hq & Ha & Hb).
    { by apply focus_right. }
    exists c', l', k', v', q. split; [exact Heq|]. split; [done|]. split; [done|].
    rewrite Hb. unfold n. list_assoc.
Qed.

Lemma focus_key c l k v r k' v' p :
  focus (Node c l k v r) p -> focus (Node c l k' v' r) p.
Proof.
  intros (c' & h & Hn & Hp). exists c', h. split; [|done].
  inversion Hn; subst; by econstructor.
Qed.

Lemma delete_node_list l k v r c p :
  l = Nil \/ r = Nil -> focus (Node c l k v r) p ->
  exists t h, delete_node (Node c l k v r) p = Some t /\ rb t Black h /\
    to_list t = before p ++ (to_list l ++ to_list r) ++ after p.
Proof.
  intros Hnil (c' & h & Hn & Hp).
  assert (c' = c) as -> by (inversion Hn; by subst).
  by eapply delete_node_ok.
Qed.

(** The node a deletion removes: the one found, or its predecessor. *)
Lemma delete_at_ok c l k v r p :
  focus (Node c l k v r) p ->
  exists t h,
    match l, r with
    | Node _ _ _ _ _, Node _ _ _ _ _ =>
        match maximum l [] with
        | (Node pc pl pk pv pr, q) =>
            delete_node (Node pc pl pk pv pr) (q ++ Frame L c pk pv r :: p)
        | (Nil, _) => None
        end
    | _, _ => delete_node (Node c l k v r) p
    end = Some t /\ rb t Black h /\
    to_list t = before p ++ (to_list l ++ to_list r) ++ after p.
Proof.
  intros Hf.
  destruct l as [|lc ll lk lv lr];
    [by apply delete_node_list; [left|]|].
  destruct r as [|rc rl rk rv rr]; [by apply delete_node_list; [right|]|].
  set (l := Node lc ll lk lv lr) in *. set (r := Node rc rl rk rv rr) in *.
  pose proof (maximum_app l []) as Happ.
  destruct (maximum l []) as [m q]. cbn [fst snd app] in Happ.
  destruct (maximum_ok lc ll lk lv lr (Frame L c k v r :: p)) as
    (c1 & l1 & k1 & v1 & q1 & Heq1 & _).
  { by apply focus_left. }
  fold l in Heq1. rewrite Happ in Heq1. simplify_eq.
  destruct (maximum_ok lc ll lk lv lr (Frame L c k1 v1 r :: p)) as
    (c2 & l2 & k2 & v2 & q2 & Heq2 & Hq2 & Ha2 & Hb2).
  { eapply focus_left, focus_key, Hf. }
  fold l in Heq2, Hb2. rewrite Happ in Heq2. simplify_eq.
  destruct (delete_node_list l2 k2 v2 Nil c2 (q ++ Frame L c k2 v2 r :: p))
    as (t & h & Hd & Ht & Hl); [by right|done|].
  exists t, h. split; [done|]. split; [done|].
  rewrite Hl, Ha2. simpl in *. rewrite app_nil_r, (app_assoc (before _)).
  rewrite (app_assoc (before _)) in Hb2.
  rewrite (app_mid (before (q ++ _) ++ to_list l2)), Hb2. list_assoc.
Qed.

Lemma rb_Delete_ok t key :
  valid t ->
  exists t', Delete cmp t key = Some (t', lfind key (entries t)) /\ valid t' /\
    entries t' = ldelete cmp key (entries t).
Proof.
  intros Hv. pose proof (lookup_path_ok key (root t) []) as Hlk.
  specialize (Hlk (valid_focus t Hv) (valid_around key t Hv)).
  rewrite whole_root in Hlk. fold (entries t) in Hlk. pose proof Hv as [Hs _ Hsz]. unfold Delete.
  destruct (lookup_path cmp key (root t) []) as [[m q]|] eqn:Hfound.
  - destruct Hlk as (c & l & k & v & r & -> & E & Hf & Hw).
    destruct (delete_at_ok c l k v r q Hf) as (n & h & -> & Hn & Hl).
    rewrite whole_mid in Hw. rewrite <- Hw in *.
    erewrite lfind_mid by done. eexists. split; [done|].
    assert (entries (mkTree n (size t - 1)) =
            ldelete cmp key ((before q ++ to_list l) ++ (k, v) :: to_list r ++ after q)) as E'.
    { erewrite ldelete_mid by done. unfold entries. simpl. rewrite Hl. list_assoc. }
    split; [|done]. split; [rewrite E'; by apply ksorted_ldelete|by exists h|].
    rewrite E', length_ldelete. erewrite lfind_mid by done. simpl.
    rewrite length_app in *. simpl in *. lia.
  - exists t. rewrite Hlk. split; [done|]. split; [done|].
    by rewrite ldelete_none.
Qed.

(** ** Depth *)

Lemma rb_minDepth n c h : rb n c h -> Z.of_nat h <= minDepth (K:=K) (V:=V) n.
Proof.
  induction 1 as [|l k v r h Hl IHl Hr IHr|l k v r cl cr h Hl IHl Hr IHr]; simpl; [done| |];
    destruct l, r; simpl in *; lia.
Qed.

Lemma rb_maxDepth n c h :
  rb n c h ->
  maxDepth (K:=K) (V:=V) n <= 2 * Z.of_nat h + match c with Red => 1 | Black => 0 end.
Proof.
  induction 1 as [|l k v r h Hl IHl Hr IHr|l k v r cl cr h Hl IHl Hr IHr]; simpl; [lia|lia|].
  destruct cl, cr; lia.
Qed.

Lemma rb_length n c h :
  rb n c h -> 2 ^ Z.of_nat h <= Z.of_nat (length (@to_list color K V n)) + 1.
Proof.
  induction 1 as [|l k v r h Hl IHl Hr IHr|l k v r cl cr h Hl IHl Hr IHr]; [done| |].
  - simpl. rewrite length_app. simpl. lia.
  - rewrite Nat2Z.inj_succ, Z.pow_succ_r by lia. simpl. rewrite length_app. simpl. lia.
Qed.

Lemma counts n :
  blackCount n + redCount n = Z.of_nat (length (@to_list color K V n)).
Proof.
  induction n as [|c l IHl k v r IHr]; [done|]. simpl. rewrite length_app. simpl.
  destruct c; simpl; lia.
Qed.

Lemma depth_ok t :
  valid t ->
  MaxDepth t <= 2 * Z.log2 (Size t + 1) /\ MaxDepth t <= 2 * MinDepth t.
Proof.
  intros [_ [h Hh] Hsz]. unfold MaxDepth, MinDepth, Size. rewrite Hsz.
  pose proof (rb_maxDepth _ _ _ Hh). pose proof (rb_minDepth _ _ _ Hh).
  pose proof (rb_length _ _ _ Hh) as Hlen.
  assert (Z.of_nat h <= Z.log2 (Z.of_nat (length (entries t)) + 1)) as Hlog.
  { apply Z.log2_le_pow2; [lia|exact Hlen]. }
  destruct (is_nil (root t)); simpl; lia.
Qed.

Lemma rb_lookup_find key (n : node K V) :
  match lookup cmp key n with Some (Node _ _ _ v _) => Some v | _ => None end
    = snd <$> find cmp key n.
Proof.
  induction n as [|c l IHl k v r IHr]; [done|]. simpl. by case_cmp.
Qed.

Lemma leftmost_nil (n : node K V) : (if is_nil n then None else leftmost n) = head (to_list n).
Proof. rewrite <- leftmost_head. by destruct n. Qed.

Lemma rightmost_nil (n : node K V) : (if is_nil n then None else rightmost n) = last (to_list n).
Proof. rewrite <- rightmost_last. by destruct n. Qed.
End Spec.

(** ** Properties *)

Section Properties.
Context {K V : Type} (cmp : K -> K -> Z) `{!Comparison cmp}.

Lemma rb_ends_ok (t : Tree K V) :
  valid cmp t ->
  Min t = head (entries t) /\ Max t = last (entries t) /\
  Keys t = (entries t).*1 /\ Size t = Z.of_nat (length (entries t)).
Proof.
  intros [Hs _ Hsz]. unfold Min, Max, Keys, entries in *.
  rewrite leftmost_nil, rightmost_nil, !collect_to_list. split_and!; done.
Qed.

Lemma rb_queries_ok (t : Tree K V) key (Hv : valid cmp t) :
  Get cmp t key = lfind cmp key (entries t) /\
  Floor cmp t key = lfloor cmp key (entries t) None /\
  Ceiling cmp t key = lceiling cmp key (entries t) /\
  Min t = head (entries t) /\ Max t = last (entries t) /\
  Keys t = (entries t).*1 /\ Values t = (entries t).*2 /\
  Size t = Z.of_nat (length (entries t)).
Proof.
  destruct Hv as [Hs _ Hsz]. unfold Get, Floor, Ceiling, Min, Max, Keys, Values, entries in *.
  rewrite rb_lookup_find, find_ok, leftmost_nil, rightmost_nil, !collect_to_list by done.
  split; [done|]. split; [rewrite <- floor_walk_ok by done; by destruct (root t)|].
  split; [rewrite <- ceiling_walk_None by done; by destruct (root t)|].
  done.
Qed.

(** [Put] and [Delete] on a valid red-black tree finish without
    dereferencing a nil pointer and keep the tree valid (keys in order,
    red-black shape, size); the entries become those of the sorted list with
    the key's value replaced or the new entry inserted in order, or with the
    entry of the key removed, whose value [Delete] answers; and the tree is
    no deeper than twice the logarithm of its size plus one. *)
Lemma rbtree_refines_sorted_map (t : Tree K V) key val (Hv : valid cmp t) :
  (exists t', Put cmp t key val = Some t' /\ valid cmp t' /\
    entries t' = linsert cmp (fun e => (e.1, val)) key val (entries t)) /\
  (exists t', Delete cmp t key = Some (t', lfind cmp key (entries t)) /\
    valid cmp t' /\ entries t' = ldelete cmp key (entries t)) /\
  MaxDepth t <= 2 * Z.log2 (Size t + 1).
Proof. split; [by apply rb_Put_ok|]. split; [by apply rb_Delete_ok|]. by eapply depth_ok. Qed.

(** On a valid tree [Get], [Floor], [Ceiling], [Min], [Max], [Keys] and
    [Values] answer what the sorted list of entries holds. *)
Lemma rbtree_queries (t : Tree K V) key (Hv : valid cmp t) :
  Get cmp t key = lfind cmp key (entries t) /\
  Floor cmp t key = lfloor cmp key (entries t) None /\
  Ceiling cmp t key = lceiling cmp key (entries t) /\
  Min t = head (entries t) /\ Max t = last (entries t) /\
  Keys t = (entries t).*1 /\ Values t = (entries t).*2 /\
  Size t = Z.of_nat (length (entries t)).
Proof. by apply rb_queries_ok. Qed.

(** The traversals call the callback on the entries in their order, until
    it answers false: [PreOrder], [InOrder] and [PostOrder] in the order
    their names say, and [LevelOrder], which needs no more rounds than there
    are nodes, depth by depth from left to right. *)
Lemma rbtree_traversals {S} (fn : S -> K -> V -> S * bool) (t : Tree K V) (s : S) :
  PreOrder (Some fn) t s = (visit fn (pre_list (root t)) s).1 /\
  InOrder (Some fn) t s = (visit fn (entries t) s).1 /\
  PostOrder (Some fn) t s = (visit fn (post_list (root t)) s).1 /\
  LevelOrder (Some fn) (nodes (root t)) t s = Some (visit fn (concat (levels (root t))) s).1.
Proof.
  unfold PreOrder, InOrder, PostOrder, LevelOrder, traverse, entries.
  rewrite preorder_visit, inorder_visit, postorder_visit.
  destruct (root t) as [|c l k v r]; [done|]. by rewrite level_loop_levels.
Qed.
End Properties.

(** Witnesses: the tree of the keys 5, 2, 8, 1, 9, 3. *)
Definition sample_entries : list (Z * Z) := [(5, 50); (2, 20); (8, 80); (1, 10); (9, 90); (3, 30)].

Definition sample : Tree Z Z :=
  Eval vm_compute in default empty (put_all compareZ empty sample_entries).

Lemma rb_sample_valid : valid compareZ sample.
Proof.
  split.
  - apply (ksortedb_ok compareZ). reflexivity.
  - exists 2%nat. repeat econstructor.
  - reflexivity.
Qed.

Lemma rbtree_refines_sorted_map_witness :
  valid compareZ sample /\
  (exists t', Put compareZ sample 4 40 = Some t' /\ valid compareZ t' /\
    entries t' = linsert compareZ (fun e => (e.1, 40)) 4 40 (entries sample)) /\
  exists t', Delete compareZ sample 4 = Some (t', None) /\ valid compareZ t' /\ entries t' = entries sample.
Proof.
  destruct (rbtree_refines_sorted_map compareZ sample 4 40 rb_sample_valid) as (Hp & Hd & _).
  split; [apply rb_sample_valid|]. split; [exact Hp|exact Hd].
Defined.

Lemma rbtree_queries_witness :
  valid compareZ sample /\ Floor compareZ sample 7 = Some (5, 50) /\
  Ceiling compareZ sample 7 = Some (8, 80).
Proof.
  split; [apply rb_sample_valid|].
  destruct (rbtree_queries compareZ sample 7 rb_sample_valid) as (_ & Hf & Hc & _).
  split; [exact Hf|exact Hc].
Defined.
