(* ===== verification/AVLTree.v ===== *)
(** * The AVL tree

    Models [ds/tree/avltree/avltree.go].  A node's annotation is its balance
    factor [b], the height of its right subtree less that of its left one;
    [Children[0]] and [Children[1]] are its subtrees.  A function that takes
    the address of a child pointer ([**node]) takes and returns the subtree;
    [None] is a nil pointer dereference.

    The shape invariant is that every node's [b] is the difference of its
    subtrees' heights and is -1, 0 or 1.  Insertion and deletion keep it,
    never dereference nil under it, and act on the in-order list as the
    operations of [Order]. *)

From stdpp Require Import base list.
From Stdlib Require Import ZArith Lia.
From S2P Require Import Prelude Order BinTree.
Local Open Scope Z_scope.

Abbreviation node K V := (BinTree.node Z K V).
Abbreviation Tree K V := (BinTree.Tree Z K V).

Section AVLTree.
Context {K V : Type} (cmp : K -> K -> Z).

(** [n.Children[a]], its assignment, and the assignment of [n.b]; [None] on a
    nil node. *)
Definition child (a : Z) (n : node K V) : option (node K V) :=
  match n with
  | Nil => None
  | Node _ l _ _ r => Some (if a =? 0 then l else r)
  end.

Definition set_child (a : Z) (m n : node K V) : option (node K V) :=
  match n with
  | Nil => None
  | Node b l k v r => Some (if a =? 0 then Node b m k v r else Node b l k v m)
  end.

Definition balance (n : node K V) : option Z :=
  match n with Nil => None | Node b _ _ _ _ => Some b end.

Definition set_b (b : Z) (n : node K V) : option (node K V) :=
  match n with Nil => None | Node _ l k v r => Some (Node b l k v r) end.

(** ** Rotations *)

Definition rotate (c : Z) (s : node K V) : option (node K V) :=
  let a := (c + 1) / 2 in
  r ← child a s;
  inner ← child (1 - a) r;
  s ← set_child a inner s;
  set_child (1 - a) s r.

Definition singleRotate (c : Z) (s : node K V) : option (node K V) :=
  s ← set_b 0 s;
  s ← rotate c s;
  set_b 0 s.

(** After both rotations [s] and [r] are the children of the node [p] that
    rises, and the balance factors are written there. *)
Definition doubleRotate (c : Z) (s : node K V) : option (node K V) :=
  let a := (c + 1) / 2 in
  r ← child a s;
  m ← rotate (- c) r;
  s ← set_child a m s;
  p ← rotate c s;
  pb ← balance p;
  let '(sb, rb) := if pb =? c then (- c, 0) else if pb =? - c then (0, c) else (0, 0) in
  s ← child (1 - a) p;
  s ← set_b sb s;
  r ← child a p;
  r ← set_b rb r;
  p ← set_child (1 - a) s p;
  p ← set_child a r p;
  set_b 0 p.

(** ** Insertion *)

Definition rebalancePut (c : Z) (s : node K V) : option (node K V * bool) :=
  b ← balance s;
  if b =? 0 then s ← set_b c s; Some (s, true)
  else if b =? - c then s ← set_b 0 s; Some (s, false)
  else
    r ← child ((c + 1) / 2) s;
    rb ← balance r;
    s ← (if rb =? c then singleRotate c s else doubleRotate c s);
    Some (s, false).

(** [put] on the subtree [q]: the new subtree, whether it grew, and whether
    [t.size] was incremented. *)
Fixpoint put_node (key : K) (value : V) (q : node K V) : option (node K V * bool * bool) :=
  match q with
  | Nil => Some (Node 0 Nil key value Nil, true, true)
  | Node b l k v r =>
      let res := cmp key k in
      if res =? 0 then Some (Node b l key value r, false, false)
      else
        let c := if res <? 0 then -1 else 1 in
        let a := (c + 1) / 2 in
        '(q', fix_, added) ← (if a =? 0 then put_node key value l else put_node key value r);
        q ← set_child a q' (Node b l k v r);
        if (fix_ : bool) then '(q, grew) ← rebalancePut c q; Some (q, grew, added)
        else Some (q, false, added)
  end.

Definition Put (t : Tree K V) (key : K) (value : V) : option (Tree K V) :=
  '(n, _, added) ← put_node key value (root t);
  Some (mkTree n (if added : bool then size t + 1 else size t)).

(** ** Deletion *)

Definition rebalanceDelete (c : Z) (s : node K V) : option (node K V * bool) :=
  b ← balance s;
  if b =? 0 then s ← set_b c s; Some (s, false)
  else if b =? - c then s ← set_b 0 s; Some (s, true)
  else
    r ← child ((c + 1) / 2) s;
    rb ← balance r;
    if rb =? 0 then s ← rotate c s; s ← set_b (- c) s; Some (s, false)
    else
      s ← (if rb =? c then singleRotate c s else doubleRotate c s);
      Some (s, true).

(** The subtree without its least entry, whether it shrank, and the entry. *)
Fixpoint removeMin (q : node K V) : option (node K V * bool * (K * V)) :=
  match q with
  | Nil => None
  | Node b Nil k v r => Some (r, true, (k, v))
  | Node b l k v r =>
      '(l', fix_, e) ← removeMin l;
      let q := Node b l' k v r in
      if (fix_ : bool) then '(q, shrank) ← rebalanceDelete 1 q; Some (q, shrank, e)
      else Some (q, false, e)
  end.

(** [delete] on the subtree [q]: the new subtree, whether it shrank, and the
    value removed, if the key was found. *)
Fixpoint delete_node (key : K) (q : node K V) : option (node K V * bool * option V) :=
  match q with
  | Nil => Some (Nil, false, None)
  | Node b l k v r =>
      let res := cmp key k in
      if res =? 0 then
        if is_nil r then Some (l, true, Some v)
        else
          '(r', fix_, (k', v')) ← removeMin r;
          let q := Node b l k' v' r' in
          if (fix_ : bool) then
            '(q, shrank) ← rebalanceDelete (-1) q; Some (q, shrank, Some v)
          else Some (q, false, Some v)
      else
        let c := if res <? 0 then -1 else 1 in
        let a := (c + 1) / 2 in
        '(q', fix_, removed) ← (if a =? 0 then delete_node key l else delete_node key r);
        q ← set_child a q' (Node b l k v r);
        if (fix_ : bool) then
          '(q, shrank) ← rebalanceDelete (- c) q; Some (q, shrank, removed)
        else Some (q, false, removed)
  end.

Definition Delete (t : Tree K V) (key : K) : option (Tree K V * option V) :=
  '(n, _, removed) ← delete_node key (root t);
  Some (mkTree n (if removed is Some _ then size t - 1 else size t), removed).

(** ** Lookup and queries *)

Fixpoint lookup (key : K) (n : node K V) : option (node K V) :=
  match n with
  | Nil => None
  | Node b l k v r =>
      let res := cmp k key in
      if res =? 0 then Some n else if 0 <? res then lookup key l else lookup key r
  end.

Definition Get (t : Tree K V) (key : K) : option V :=
  match lookup key (root t) with
  | Some (Node _ _ _ v _) => Some v
  | _ => None
  end.

Definition empty : Tree K V := mkTree Nil 0.
Definition Size (t : Tree K V) : Z := size t.
Definition IsEmpty (t : Tree K V) : bool := size t =? 0.
Definition Clear (t : Tree K V) : Tree K V := mkTree Nil 0.

Fixpoint height (n : node K V) : Z :=
  match n with
  | Nil => 0
  | Node _ l _ _ r =>
      let lh := height l in
      let rh := height r in
      if rh <? lh then lh + 1 else rh + 1
  end.
Definition Height (t : Tree K V) : Z := height (root t).

Definition Keys (t : Tree K V) : list K := collect (fun k _ => k) (root t) [].
Definition Values (t : Tree K V) : list V := collect (fun _ v => v) (root t) [].

(** [bottom 0] and [bottom 1]. *)
Definition bottom (pos : Z) (t : Tree K V) : option (K * V) :=
  if is_nil (root t) then None
  else if pos =? 0 then leftmost (root t) else rightmost (root t).
Definition Min (t : Tree K V) : option (K * V) := bottom 0 t.
Definition Max (t : Tree K V) : option (K * V) := bottom 1 t.

Definition Floor (t : Tree K V) (key : K) : option (K * V) :=
  if is_nil (root t) then None else floor_walk' cmp key (root t) None.
Definition Ceiling (t : Tree K V) (key : K) : option (K * V) :=
  if is_nil (root t) then None else ceiling_walk' cmp key (root t) None.

(** The traversals; a nil callback returns at once. *)
Section Traversals.
Context {S : Type} (fn : option (S -> K -> V -> S * bool)).

Definition traverse (walk : (S -> K -> V -> S * bool) -> node K V -> S -> S * bool)
    (t : Tree K V) (s : S) : S :=
  match fn with
  | None => s
  | Some fn => if is_nil (root t) then s else (walk fn (root t) s).1
  end.

Definition PreOrder : Tree K V -> S -> S := traverse preorder.
Definition InOrder : Tree K V -> S -> S := traverse inorder.
Definition PostOrder : Tree K V -> S -> S := traverse postorder.

Definition LevelOrder (fuel : nat) (t : Tree K V) (s : S) : option S :=
  match fn with
  | None => Some s
  | Some fn => if is_nil (root t) then Some s else level_loop fn fuel [root t] s
  end.
End Traversals.

(** [NewFromMap]: [Put] of each entry, in the order the map is ranged over. *)
Fixpoint put_all (t : Tree K V) (m : list (K * V)) : option (Tree K V) :=
  match m with
  | [] => Some t
  | (k, v) :: m => t ← Put t k v; put_all t m
  end.
Definition NewFromMap (m : list (K * V)) : option (Tree K V) := put_all empty m.
End AVLTree.

(** * The AVL tree implements a sorted map *)

Section Shape.
Context {K V : Type}.

Inductive avl : node K V -> Z -> Prop :=
| avl_nil : avl Nil 0
| avl_node b l k v r hl hr :
    avl l hl -> avl r hr -> b = hr - hl -> -1 <= b <= 1 ->
    avl (Node b l k v r) (1 + Z.max hl hr).

Definition root_balanced (n : node K V) : Prop :=
  match n with Nil => False | Node b _ _ _ _ => b = 0 end.

Lemma avl_height_nonneg n h : avl n h -> 0 <= h.
Proof. induction 1; lia. Qed.

Lemma avl_height_pos b l k v r h : avl (Node b l k v r) h -> 0 < h.
Proof.
  inversion 1 as [|? ? ? ? ? hl hr Hl Hr]; subst.
  apply avl_height_nonneg in Hl, Hr. lia.
Qed.

Lemma avl_height n h : avl n h -> height n = h.
Proof.
  induction 1 as [|b l k v r hl hr _ IHl _ IHr Hb Hr]; simpl; [done|].
  rewrite IHl, IHr. case_cmp.
Qed.

Lemma avl_node_h b l k v r hl hr h :
  avl l hl -> avl r hr -> b = hr - hl -> -1 <= b <= 1 -> h = 1 + Z.max hl hr ->
  avl (Node b l k v r) h.
Proof. intros ? ? ? ? ->. by constructor. Qed.

Lemma avl_eq n h h' : avl n h -> h = h' -> avl n h'.
Proof. by intros ? <-. Qed.

Lemma avl_pos n h :
  avl n h -> 0 < h -> exists b l k v r hl hr, n = Node b l k v r /\ avl l hl /\ avl r hr /\
    b = hr - hl /\ -1 <= b <= 1 /\ h = 1 + Z.max hl hr.
Proof. inversion 1; subst; [lia|]. intros _. by do 7 eexists. Qed.

(** A rebalancing step: it succeeds, restores the shape, keeps the list, and
    reports by [flag] whether the height is [h1] rather than [h0]. *)
Definition rebalanced (s : node K V) (h0 h1 : Z) (res : option (node K V * bool)) : Prop :=
  exists s' (flag : bool), res = Some (s', flag) /\ avl s' (if flag then h1 else h0) /\
    to_list s' = to_list s.

(** Splits the subtree of positive height of hypothesis [H]. *)
Ltac split_avl H :=
  let b := fresh "b" in let l := fresh "l" in let k := fresh "k" in
  let v := fresh "v" in let r := fresh "r" in let hl := fresh "hl" in
  let hr := fresh "hr" in let Hl := fresh "Hl" in let Hr := fresh "Hr" in
  apply avl_pos in H as (b & l & k & v & r & hl & hr & -> & Hl & Hr & ? & ? & ?); [|lia];
  pose proof (avl_height_nonneg _ _ Hl); pose proof (avl_height_nonneg _ _ Hr).

(** The three values of a balance factor. *)
Ltac case_balance b :=
  let H := fresh in
  assert (b = -1 \/ b = 0 \/ b = 1) as H by lia;
  destruct H as [-> | [-> | ->]]; try lia.

Ltac avl_shape :=
  first
    [ eassumption
    | eapply avl_node_h; [avl_shape|avl_shape| | |first [reflexivity|lia]]; lia ].

Ltac rebalance :=
  do 2 eexists; split; [reflexivity|split; [cbn iota; eapply avl_eq; [avl_shape|lia]|list_assoc]].

(** The subtree named on each line has grown, or shrunk, by one. *)
Lemma rebalancePut_left b l k v r hl hr :
  avl l (1 + hl) -> avl r hr -> b = hr - hl -> -1 <= b <= 1 -> 0 <= hl ->
  (0 < hl -> ~ root_balanced l) ->
  rebalanced (Node b l k v r) (1 + Z.max hl hr) (2 + Z.max hl hr)
    (rebalancePut (-1) (Node b l k v r)).
Proof.
  intros Hl Hr Hb Hb1 Hl0 Hroot.
  pose proof (avl_height_nonneg _ _ Hr). case_balance b; [|rebalance..].
  split_avl Hl. simpl in Hroot. case_balance b; [rebalance|].
  split_avl Hr0. case_balance b; rebalance.
Qed.

Lemma rebalancePut_right b l k v r hl hr :
  avl l hl -> avl r (1 + hr) -> b = hr - hl -> -1 <= b <= 1 -> 0 <= hr ->
  (0 < hr -> ~ root_balanced r) ->
  rebalanced (Node b l k v r) (1 + Z.max hl hr) (2 + Z.max hl hr)
    (rebalancePut 1 (Node b l k v r)).
Proof.
  intros Hl Hr Hb Hb1 Hr0 Hroot.
  pose proof (avl_height_nonneg _ _ Hl). case_balance b; [rebalance..|].
  split_avl Hr. simpl in Hroot. case_balance b; [|rebalance].
  split_avl Hl0. case_balance b; rebalance.
Qed.

Lemma rebalanceDelete_left b l k v r hl hr :
  avl l (hl - 1) -> avl r hr -> b = hr - hl -> -1 <= b <= 1 ->
  rebalanced (Node b l k v r) (1 + Z.max hl hr) (Z.max hl hr)
    (rebalanceDelete 1 (Node b l k v r)).
Proof.
  intros Hl Hr Hb Hb1. pose proof (avl_height_nonneg _ _ Hl).
  case_balance b; [rebalance..|].
  split_avl Hr. case_balance b; [|rebalance..].
  split_avl Hl0. case_balance b; rebalance.
Qed.

Lemma rebalanceDelete_right b l k v r hl hr :
  avl l hl -> avl r (hr - 1) -> b = hr - hl -> -1 <= b <= 1 ->
  rebalanced (Node b l k v r) (1 + Z.max hl hr) (Z.max hl hr)
    (rebalanceDelete (-1) (Node b l k v r)).
Proof.
  intros Hl Hr Hb Hb1. pose proof (avl_height_nonneg _ _ Hr).
  case_balance b; [|rebalance..].
  split_avl Hl. case_balance b; [rebalance..|].
  split_avl Hr0. case_balance b; rebalance.
Qed.

(** A subtree that a rebalancing of [Put] reports grown leans to a side. *)
Lemma rebalancePut_grew c s s' :
  c = -1 \/ c = 1 -> rebalancePut c s = Some (s', true) -> ~ root_balanced s'.
Proof.
  intros Hc. unfold rebalancePut. destruct s as [|b l k v r]; [done|]. simpl.
  destruct (b =? 0); [intros [= <-]; simpl; lia|].
  destruct (b =? - c); [done|].
  destruct (if _ =? 0 then l else r) as [|rb rl rk rv rr]; [done|]. simpl.
  destruct (if rb =? c then _ else _); simpl; congruence.
Qed.

(** ** Insertion *)

Context (cmp : K -> K -> Z) `{!Comparison cmp}.

(** [put] and [delete] at a node, per outcome of the comparison. *)
Lemma put_node_left key (value : V) b l k v r :
  cmp key k < 0 ->
  put_node cmp key value (Node b l k v r) =
    '(q', fix_, added) ← put_node cmp key value l;
    if (fix_ : bool) then '(q, grew) ← rebalancePut (-1) (Node b q' k v r); Some (q, grew, added)
    else Some (Node b q' k v r, false, added).
Proof.
  intros E. simpl. destruct (Z.eqb_spec (cmp key k) 0); [lia|].
  destruct (Z.ltb_spec (cmp key k) 0); [|lia]. done.
Qed.

Lemma put_node_right key (value : V) b l k v r :
  0 < cmp key k ->
  put_node cmp key value (Node b l k v r) =
    '(q', fix_, added) ← put_node cmp key value r;
    if (fix_ : bool) then '(q, grew) ← rebalancePut 1 (Node b l k v q'); Some (q, grew, added)
    else Some (Node b l k v q', false, added).
Proof.
  intros E. simpl. destruct (Z.eqb_spec (cmp key k) 0); [lia|].
  destruct (Z.ltb_spec (cmp key k) 0); [lia|]. done.
Qed.

(** The result of [put] on a subtree of height [h]. *)
Definition put_result (key : K) (value : V) (q : node K V) (h : Z)
    (res : option (node K V * bool * bool)) : Prop :=
  exists q' (fix_ : bool), 
    res = Some (q', fix_, negb (bool_decide (is_Some (lfind cmp key (to_list q))))) /\
    avl q' (if fix_ then 1 + h else h) /\
    (fix_ = true -> 0 < h -> ~ root_balanced q') /\
    to_list q' = linsert cmp (fun _ => (key, value)) key value (to_list q).

Lemma put_node_ok key value q h :
  avl q h -> ksorted cmp (to_list q) -> put_result key value q h (put_node cmp key value q).
Proof.
  induction 1 as [|b l k v r hl hr Hl IHl Hr IHr Hb Hb1]; intros Hs.
  - exists (Node 0 Nil key value Nil), true. split; [done|].
    split; [apply (avl_node_h _ _ _ _ _ 0 0); by constructor || lia|]. split; [lia|done].
  - pose proof (avl_height_nonneg _ _ Hl). pose proof (avl_height_nonneg _ _ Hr).
    destruct (node_cases cmp b l k v r key Hs) as (Hsl & Hsr & Hcase).
    pose proof (cmp_sym k key). unfold put_result. cbn [to_list].
    destruct Hcase as [(E & Hbl & Ha)|[[E Hbl]|[E Ha]]].
    + simpl. case_cmp. exists (Node b l key value r), false.
      rewrite (lfind_mid cmp), (linsert_mid cmp) by done. simpl.
      split; [done|]. split; [by constructor|]. done.
    + destruct (IHr Hsr) as (q' & fix_ & Heq & Hq & Hroot & Hlist).
      rewrite app_mid, (lfind_below cmp), (linsert_below cmp), <- app_mid by done.
      rewrite put_node_right, Heq by lia. simpl. rewrite <- Hlist.
      destruct fix_.
      * destruct (rebalancePut_right b l k v q' hl hr) as (s & grew & Hs' & Havl & Hl'); try done.
        { by apply Hroot. }
        rewrite Hs'. exists s, grew. split; [done|]. split; [destruct grew; eapply avl_eq; (exact Havl || lia)|].
        split; [|done]. intros -> _. eapply rebalancePut_grew; [|exact Hs']. by right.
      * exists (Node b l k v q'), false. split; [done|]. split; [by constructor|done].
    + destruct (IHl Hsl) as (q' & fix_ & Heq & Hq & Hroot & Hlist).
      rewrite (lfind_app_above cmp), (linsert_app_above cmp) by done.
      rewrite put_node_left, Heq by lia. simpl. rewrite <- Hlist.
      destruct fix_.
      * destruct (rebalancePut_left b q' k v r hl hr) as (s & grew & Hs' & Havl & Hl'); try done.
        { by apply Hroot. }
        rewrite Hs'. exists s, grew. split; [done|]. split; [destruct grew; eapply avl_eq; (exact Havl || lia)|].
        split; [|done]. intros -> _. eapply rebalancePut_grew; [|exact Hs']. by left.
      * exists (Node b q' k v r), false. split; [done|]. split; [by constructor|done].
Qed.

(** ** Deletion *)

Lemma removeMin_ok q h :
  avl q h -> 0 < h ->
  exists q' (fix_ : bool) e, removeMin q = Some (q', fix_, e) /\
    avl q' (if fix_ then h - 1 else h) /\ to_list q = e :: to_list q'.
Proof.
  induction 1 as [|b l k v r hl hr Hl IHl Hr _ Hb Hb1]; intros Hpos; [lia|].
  pose proof (avl_height_nonneg _ _ Hl). pose proof (avl_height_nonneg _ _ Hr).
  destruct l as [|lb ll lk lv lr] eqn:El.
  - inversion Hl; subst. exists r, true, (k, v). split; [done|].
    split; [eapply avl_eq; [exact Hr|lia]|done].
  - assert (0 < hl) as Hhl by by eapply avl_height_pos.
    destruct (IHl Hhl) as (l' & fix_ & e & Heq & Hl' & Hlist). rewrite <- El in *.
    assert (removeMin (Node b l k v r) =
            if fix_ then '(q, shrank) ← rebalanceDelete 1 (Node b l' k v r); Some (q, shrank, e)
            else Some (Node b l' k v r, false, e)) as ->.
    { rewrite El in *. simpl. simpl in Heq. rewrite Heq. by destruct fix_. }
    simpl. rewrite Hlist. destruct fix_.
    + destruct (rebalanceDelete_left b l' k v r hl hr) as (s & shrank & -> & Hs & Hls); try done.
      exists s, shrank, e. split; [done|].
      split; [destruct shrank; eapply avl_eq; (exact Hs || lia)|by rewrite Hls].
    + exists (Node b l' k v r), false, e. split; [done|]. split; [by constructor|done].
Qed.

Lemma delete_node_left key b l k v r :
  cmp key k < 0 ->
  delete_node cmp key (Node b l k v r) =
    '(q', fix_, removed) ← delete_node cmp key l;
    if (fix_ : bool) then
      '(q, shrank) ← rebalanceDelete 1 (Node b q' k v r); Some (q, shrank, removed : option V)
    else Some (Node b q' k v r, false, removed).
Proof.
  intros E. simpl. destruct (Z.eqb_spec (cmp key k) 0); [lia|].
  destruct (Z.ltb_spec (cmp key k) 0); [|lia]. done.
Qed.

Lemma delete_node_right key b l k v r :
  0 < cmp key k ->
  delete_node cmp key (Node b l k v r) =
    '(q', fix_, removed) ← delete_node cmp key r;
    if (fix_ : bool) then
      '(q, shrank) ← rebalanceDelete (-1) (Node b l k v q'); Some (q, shrank, removed : option V)
    else Some (Node b l k v q', false, removed).
Proof.
  intros E. simpl. destruct (Z.eqb_spec (cmp key k) 0); [lia|].
  destruct (Z.ltb_spec (cmp key k) 0); [lia|]. done.
Qed.

Lemma avl_delete_node_ok key q h :
  avl q h -> ksorted cmp (to_list q) ->
  exists q' (fix_ : bool),
    delete_node cmp key q = Some (q', fix_, lfind cmp key (to_list q)) /\
    avl q' (if fix_ then h - 1 else h) /\ to_list q' = ldelete cmp key (to_list q).
Proof.
  induction 1 as [|b l k v r hl hr Hl IHl Hr IHr Hb Hb1]; intros Hs.
  { exists Nil, false. split; [done|]. split; [constructor|done]. }
  pose proof (avl_height_nonneg _ _ Hl). pose proof (avl_height_nonneg _ _ Hr).
  destruct (node_cases cmp b l k v r key Hs) as (Hsl & Hsr & Hcase).
  pose proof (cmp_sym k key). cbn [to_list] in *.
  destruct Hcase as [(E & Hbl & Ha)|[[E Hbl]|[E Ha]]].
  - rewrite (lfind_mid cmp), (ldelete_mid cmp) by done. simpl.
    destruct (Z.eqb_spec (cmp key k) 0); [|lia].
    destruct r as [|rb rl rk rv rr] eqn:Er; simpl is_nil; cbv iota.
    + inversion Hr; subst. exists l, true. split; [done|].
      split; [eapply avl_eq; [exact Hl|lia]|by rewrite app_nil_r].
    + assert (0 < hr) as Hhr by by eapply avl_height_pos. rewrite <- Er in *.
      destruct (removeMin_ok r hr Hr Hhr) as (r' & fix_ & [k' v'] & -> & Hr' & Hlist).
      simpl. rewrite Hlist. destruct fix_.
      * destruct (rebalanceDelete_right b l k' v' r' hl hr) as (s & shrank & -> & Hs' & Hls); try done.
        exists s, shrank. split; [done|].
        split; [destruct shrank; eapply avl_eq; (exact Hs' || lia)|done].
      * exists (Node b l k' v' r'), false. split; [done|]. split; [by constructor|done].
  - destruct (IHr Hsr) as (q' & fix_ & Heq & Hq & Hlist).
    rewrite app_mid, (lfind_below cmp), (ldelete_below cmp), <- app_mid by done.
    rewrite delete_node_right, Heq by lia. simpl. rewrite <- Hlist. destruct fix_.
    + destruct (rebalanceDelete_right b l k v q' hl hr) as (s & shrank & -> & Hs' & Hls); try done.
      exists s, shrank. split; [done|].
      split; [destruct shrank; eapply avl_eq; (exact Hs' || lia)|done].
    + exists (Node b l k v q'), false. split; [done|]. split; [by constructor|done].
  - destruct (IHl Hsl) as (q' & fix_ & Heq & Hq & Hlist).
    rewrite (lfind_app_above cmp), (ldelete_app_above cmp) by done.
    rewrite delete_node_left, Heq by lia. simpl. rewrite <- Hlist. destruct fix_.
    + destruct (rebalanceDelete_left b q' k v r hl hr) as (s & shrank & -> & Hs' & Hls); try done.
      exists s, shrank. split; [done|].
      split; [destruct shrank; eapply avl_eq; (exact Hs' || lia)|done].
    + exists (Node b q' k v r), false. split; [done|]. split; [by constructor|done].
Qed.

(** ** Valid trees *)

Record valid (t : Tree K V) : Prop := Valid {
  valid_sorted : ksorted cmp (entries t);
  valid_shape : exists h, avl (root t) h;
  valid_size : size t = Z.of_nat (length (entries t))
}.

Lemma avl_Put_ok t key val :
  valid t ->
  exists t', Put cmp t key val = Some t' /\ valid t' /\
    entries t' = linsert cmp (fun _ => (key, val)) key val (entries t).
Proof.
  intros [Hs [h Hh] Hsz].
  destruct (put_node_ok key val (root t) h Hh Hs) as (q & fix_ & Heq & Hq & _ & Hl).
  unfold Put. rewrite Heq. simpl.
  eexists. split; [done|]. unfold entries in *. simpl. split; [|done].
  split; unfold entries; simpl.
  - rewrite Hl. apply ksorted_linsert; [done| |done]. intros e E. by apply cmp_eq_sym.
  - by eexists.
  - rewrite Hl, length_linsert by done.
    destruct (lfind cmp key (to_list (root t))); simpl; lia.
Qed.

Lemma avl_Delete_ok t key :
  valid t ->
  exists t', Delete cmp t key = Some (t', lfind cmp key (entries t)) /\ valid t' /\
    entries t' = ldelete cmp key (entries t).
Proof.
  intros [Hs [h Hh] Hsz].
  destruct (avl_delete_node_ok key (root t) h Hh Hs) as (q & fix_ & Heq & Hq & Hl).
  unfold Delete. rewrite Heq. simpl.
  eexists. split; [done|]. unfold entries in *. simpl. split; [|done].
  split; unfold entries; simpl.
  - rewrite Hl. by apply ksorted_ldelete.
  - by eexists.
  - rewrite Hl, length_ldelete. destruct (lfind cmp key (to_list (root t))) eqn:E; simpl; [|lia].
    destruct (to_list (root t)); [done|simpl in *; lia].
Qed.

(** ** Height and queries *)

Lemma avl_length n h :
  avl n h -> 2 ^ h <= (Z.of_nat (length (to_list n)) + 1) ^ 2.
Proof.
  induction 1 as [|b l k v r hl hr Hl IHl Hr IHr Hb Hb1]; [done|].
  cbn [to_list]. rewrite length_app. simpl length.
  replace (Z.of_nat (length (to_list l) + S (length (to_list r))) + 1)
    with ((Z.of_nat (length (to_list l)) + 1) + (Z.of_nat (length (to_list r)) + 1)) by lia.
  set (x := Z.of_nat (length (to_list l)) + 1) in *.
  set (y := Z.of_nat (length (to_list r)) + 1) in *.
  assert (1 <= x) by (subst x; lia). assert (1 <= y) by (subst y; lia). clearbody x y.
  pose proof (avl_height_nonneg _ _ Hl). pose proof (avl_height_nonneg _ _ Hr).
  rewrite Z.add_comm, Z.pow_add_r by lia. change (2 ^ 1) with 2.
  assert (forall a c p, 1 <= a -> 1 <= c -> 1 <= p -> 2 * p <= a ^ 2 -> p <= c ^ 2 ->
            4 * p <= (a + c) ^ 2) as Hkey.
  { clear. intros a c p Ha Hc Hp Hpa Hpc. assert (p <= a * c) by nia. nia. }
  assert (1 <= 2 ^ hl /\ 1 <= 2 ^ hr) as [? ?].
  { split; apply Z.lt_pred_le, Z.pow_pos_nonneg; lia. }
  destruct (Z.eq_dec hl hr) as [->|]; [rewrite Z.max_id; nia|].
  destruct (Z.lt_ge_cases hl hr).
  - assert (hr = Z.succ hl) as -> by lia. rewrite Z.max_r, Z.pow_succ_r in * by lia.
    rewrite (Z.add_comm x). pose proof (Hkey y x (2 ^ hl)). lia.
  - assert (hl = Z.succ hr) as -> by lia. rewrite Z.max_l, Z.pow_succ_r in * by lia.
    pose proof (Hkey x y (2 ^ hr)). lia.
Qed.

Lemma Height_ok t :
  valid t -> 2 ^ Height t <= (Size t + 1) ^ 2.
Proof.
  intros [_ [h Hh] Hsz]. unfold Height, Size. rewrite Hsz, (avl_height _ _ Hh).
  exact (avl_length _ _ Hh).
Qed.

Lemma avl_lookup_find key (n : node K V) :
  match lookup cmp key n with Some (Node _ _ _ v _) => Some v | _ => None end
    = snd <$> find cmp key n.
Proof.
  induction n as [|b l IHl k v r IHr]; [done|]. simpl. by case_cmp.
Qed.
End Shape.

(** ** Properties *)

Section Properties.
Context {K V : Type} (cmp : K -> K -> Z) `{!Comparison cmp}.

Lemma avl_ends_ok (t : Tree K V) :
  valid cmp t ->
  Min t = head (entries t) /\ Max t = last (entries t) /\
  Keys t = (entries t).*1 /\ Size t = Z.of_nat (length (entries t)).
Proof.
  intros [Hs _ Hsz]. unfold Min, Max, bottom, Keys, entries in *.
  rewrite leftmost_head, rightmost_last, !collect_to_list. split_and!; done || by destruct (root t).
Qed.

Lemma avl_queries_ok (t : Tree K V) key (Hv : valid cmp t) :
  Get cmp t key = lfind cmp key (entries t) /\
  Floor cmp t key = lfloor cmp key (entries t) None /\
  Ceiling cmp t key = lceiling cmp key (entries t) /\
  Min t = head (entries t) /\ Max t = last (entries t) /\
  Keys t = (entries t).*1 /\ Values t = (entries t).*2 /\
  2 ^ Height t <= (Size t + 1) ^ 2.
Proof.
  pose proof (Height_ok cmp t Hv) as Hh.
  destruct Hv as [Hs _ Hsz]. unfold Get, Floor, Ceiling, Min, Max, bottom, Keys, Values, entries in *.
  rewrite avl_lookup_find, find_ok, floor_walk_swap, ceiling_walk_swap, !collect_to_list by done.
  rewrite leftmost_head, rightmost_last.
  split; [done|]. split; [rewrite <- floor_walk_ok by done; by destruct (root t)|].
  split; [rewrite <- ceiling_walk_None by done; by destruct (root t)|].
  destruct (root t); done.
Qed.

(** [Put] and [Delete] on a valid AVL tree finish without dereferencing
    a nil pointer, keep the keys ordered, every balance factor exact and the
    count of entries, and act on the sorted list of the entries as insertion
    and removal; [Delete] answers the value the key had or that there was
    none; and the height [h] satisfies [2 ^ h <= (size + 1) ^ 2]: it is at
    most twice the logarithm of the size plus one. *)
Lemma avl_refines_sorted_map (t : Tree K V) key val (Hv : valid cmp t) :
  (exists t', Put cmp t key val = Some t' /\ valid cmp t' /\
    entries t' = linsert cmp (fun _ => (key, val)) key val (entries t)) /\
  (exists t', Delete cmp t key = Some (t', lfind cmp key (entries t)) /\
    valid cmp t' /\ entries t' = ldelete cmp key (entries t)) /\
  2 ^ Height t <= (Size t + 1) ^ 2.
Proof. split; [by apply avl_Put_ok|]. split; [by apply avl_Delete_ok|]. by apply (avl_queries_ok t key). Qed.

(** On a valid AVL tree the queries answer what the sorted list of
    entries holds, and the height [h] satisfies [2 ^ h <= (size + 1) ^ 2]:
    it is at most twice the logarithm of the size plus one. *)
Lemma avl_queries (t : Tree K V) key (Hv : valid cmp t) :
  Get cmp t key = lfind cmp key (entries t) /\
  Floor cmp t key = lfloor cmp key (entries t) None /\
  Ceiling cmp t key = lceiling cmp key (entries t) /\
  Min t = head (entries t) /\ Max t = last (entries t) /\
  Keys t = (entries t).*1 /\ Values t = (entries t).*2 /\
  2 ^ Height t <= (Size t + 1) ^ 2.
Proof. by apply avl_queries_ok. Qed.
End Properties.

(** Witnesses: the tree of the keys 5, 2, 8, 1, 9, 3. *)
Definition sample : Tree Z Z :=
  Eval vm_compute in default empty
    (put_all compareZ empty [(5, 50); (2, 20); (8, 80); (1, 10); (9, 90); (3, 30)]).

Lemma avl_sample_valid : valid compareZ sample.
Proof.
  split.
  - apply (ksortedb_ok compareZ). reflexivity.
  - eexists. repeat econstructor; simpl; (reflexivity || discriminate).
  - reflexivity.
Qed.

Lemma avl_refines_sorted_map_witness :
  valid compareZ sample /\
  (exists t', Put compareZ sample 4 40 = Some t' /\ valid compareZ t' /\
    entries t' = linsert compareZ (fun _ => (4, 40)) 4 40 (entries sample)) /\
  2 ^ Height sample <= (Size sample + 1) ^ 2.
Proof.
  split; [apply avl_sample_valid|].
  destruct (avl_refines_sorted_map compareZ sample 4 40 avl_sample_valid) as (H1 & _ & H2). by split.
Defined.

Lemma avl_queries_witness :
  valid compareZ sample /\ Floor compareZ sample 7 = Some (5, 50) /\
  Ceiling compareZ sample 7 = Some (8, 80).
Proof.
  split; [apply avl_sample_valid|].
  destruct (avl_queries compareZ sample 7 avl_sample_valid) as (_ & Hf & Hc & _).
  split; [exact Hf|exact Hc].
Defined.
