(* ===== verification/SplayTree.v ===== *)
(** * The splay tree

    Models [ds/tree/splaytree/splaytree.go] and [rotate.go].  A node has no
    annotation; [Children[0]] and [Children[1]] are its subtrees.  The node
    [splay] is called on is given with the path its [Parent] pointers follow.
    The queries splay too, so each returns the new tree.  The mutex and the
    printing of a tree are left out.

    Splaying keeps the in-order list and leaves the node it was called on at
    the root; every operation acts on the list as its counterpart of [Order]. *)

From stdpp Require Import base list.
From Stdlib Require Import ZArith Lia.
From S2P Require Import Prelude Order BinTree.
Local Open Scope Z_scope.

Abbreviation node K V := (BinTree.node unit K V).
Abbreviation Tree K V := (BinTree.Tree unit K V).
Abbreviation path K V := (list (BinTree.frame unit K V)).

Section SplayTree.
Context {K V : Type} (cmp : K -> K -> Z).

(** ** Rotations; a rotation with a missing node returns its argument *)

Definition rotateZigRight (g : node K V) : node K V :=
  match g with
  | Node u (Node pu a pk pv b) gk gv c => Node pu a pk pv (Node u b gk gv c)
  | _ => g
  end.

Definition rotateZigLeft (g : node K V) : node K V :=
  match g with
  | Node u a gk gv (Node pu b pk pv c) => Node pu (Node u a gk gv b) pk pv c
  | _ => g
  end.

(** Right rotation of [g], then of [p], which then is above it. *)
Definition rotateZigZigRight (g : node K V) : node K V :=
  match g with
  | Node _ (Node _ (Node _ _ _ _ _) _ _ _) _ _ _ =>
      let p := rotateZigRight g in
      rotateZigRight p
  | _ => g
  end.

Definition rotateZigZigLeft (g : node K V) : node K V :=
  match g with
  | Node _ _ _ _ (Node _ _ _ _ (Node _ _ _ _ _)) =>
      let p := rotateZigLeft g in
      rotateZigLeft p
  | _ => g
  end.

(** Rotation of the child [p] in its place, then of [g]. *)
Definition rotateZigZagRightLeft (g : node K V) : node K V :=
  match g with
  | Node u d gk gv (Node pu (Node _ _ _ _ _ as x) pk pv c) =>
      rotateZigLeft (Node u d gk gv (rotateZigRight (Node pu x pk pv c)))
  | _ => g
  end.

Definition rotateZigZagLeftRight (g : node K V) : node K V :=
  match g with
  | Node u (Node pu a pk pv (Node _ _ _ _ _ as x)) gk gv c =>
      rotateZigRight (Node u (rotateZigLeft (Node pu a pk pv x)) gk gv c)
  | _ => g
  end.

(** ** Splaying: the tree with [x], at path [p], lifted to the root *)

Fixpoint splay (x : node K V) (p : path K V) : node K V :=
  match p with
  | [] => x
  | [f] =>
      (* zig *)
      match f_dir f with
      | L => rotateZigRight (up x f)
      | R => rotateZigLeft (up x f)
      end
  | f :: f' :: rest =>
      let g := up (up x f) f' in
      let g :=
        match f_dir f', f_dir f with
        | L, L => rotateZigZigRight g
        | R, R => rotateZigZigLeft g
        | L, R => rotateZigZagLeftRight g
        | R, L => rotateZigZagRightLeft g
        end in
      splay g rest
  end.

(** ** Insertion *)

(** The loop of [put], with the final splay: the new root and whether a node
    was added. *)
Fixpoint put_loop (key : K) (val : V) (curr : node K V) (p : path K V) : node K V * bool :=
  match curr with
  | Nil => (splay (Node tt Nil key val Nil) p, true)
  | Node u l k v r =>
      let res := cmp key k in
      if res =? 0 then (splay (Node u l k val r) p, false)
      else if res <? 0 then put_loop key val l (Frame L u k v r :: p)
      else put_loop key val r (Frame R u k v l :: p)
  end.

Definition put (t : Tree K V) (key : K) (val : V) : Tree K V :=
  match root t with
  | Nil => mkTree (Node tt Nil key val Nil) (size t + 1)
  | n =>
      let '(n', added) := put_loop key val n [] in
      mkTree n' (if added then size t + 1 else size t)
  end.

Definition Put := put.

(** ** Lookup *)

(** The loop of [get]: the node of the key, or the last one on the way. *)
Fixpoint get_loop (key : K) (n : node K V) (p : path K V) : node K V * path K V :=
  match n with
  | Nil => (n, p)
  | Node u l k v r =>
      let res := cmp key k in
      if res =? 0 then (n, p)
      else if 0 <? res then
        match r with Nil => (n, p) | _ => get_loop key r (Frame R u k v l :: p) end
      else
        match l with Nil => (n, p) | _ => get_loop key l (Frame L u k v r :: p) end
  end.

Definition get (t : Tree K V) (key : K) : Tree K V * option V :=
  let '(n, p) := get_loop key (root t) [] in
  let root' := splay n p in
  (mkTree root' (size t),
   match root' with
   | Nil => None
   | Node _ _ k v _ => if cmp key k =? 0 then Some v else None
   end).

Definition Get (t : Tree K V) (key : K) : Tree K V * option V :=
  if is_nil (root t) then (t, None) else get t key.

(** ** Deletion *)

(** The walk to the last node on the right, or on the left. *)
Fixpoint bottom (right : bool) (n : node K V) (p : path K V) : node K V * path K V :=
  match n with
  | Nil => (n, p)
  | Node u l k v r =>
      if right
      then if is_nil r then (n, p) else bottom right r (Frame R u k v l :: p)
      else if is_nil l then (n, p) else bottom right l (Frame L u k v r :: p)
  end.

Definition Delete (t : Tree K V) (key : K) : Tree K V * option V :=
  if is_nil (root t) then (t, None)
  else
    match get t key with
    | (t, None) => (t, None)
    | (t, Some value) =>
        let root' :=
          match root t with
          | Nil => Nil
          | Node _ Nil _ _ Nil => Nil
          | Node _ Nil _ _ hi => hi
          | Node _ lo _ _ Nil => lo
          | Node u lo k v hi =>
              (* the left subtree's parent is still the old root: the splay of
                 its greatest node goes over the old root too, and the old
                 root, the new one's right child, is then overwritten *)
              let '(n, p) := bottom true lo [] in
              match splay n (p ++ [Frame L u k v hi]) with
              | Nil => Nil
              | Node u' l' k' v' _ => Node u' l' k' v' hi
              end
          end in
        (mkTree root' (size t - 1), Some value)
    end.

(** ** Queries *)

Definition empty : Tree K V := mkTree Nil 0.
Definition Size (t : Tree K V) : Z := size t.
Definition IsEmpty (t : Tree K V) : bool := size t =? 0.
Definition Clear (t : Tree K V) : Tree K V := mkTree Nil 0.
Definition Keys (t : Tree K V) : list K := collect (fun k _ => k) (root t) [].
Definition Values (t : Tree K V) : list V := collect (fun _ v => v) (root t) [].

Definition node_entry (n : node K V) : option (K * V) :=
  match n with Nil => None | Node _ _ k v _ => Some (k, v) end.

Definition Min (t : Tree K V) : Tree K V * option (K * V) :=
  if is_nil (root t) then (t, None)
  else let '(n, p) := bottom false (root t) [] in
       (mkTree (splay n p) (size t), node_entry n).

Definition Max (t : Tree K V) : Tree K V * option (K * V) :=
  if is_nil (root t) then (t, None)
  else let '(n, p) := bottom true (root t) [] in
       (mkTree (splay n p) (size t), node_entry n).

(** The loops of [Floor] and [Ceiling], with the best node so far. *)
Fixpoint floor_loop (key : K) (n : node K V) (p : path K V)
    (lastLE : option (node K V * path K V)) : option (node K V * path K V) :=
  match n with
  | Nil => lastLE
  | Node u l k v r =>
      let res := cmp key k in
      if res =? 0 then Some (n, p)
      else if res <? 0 then floor_loop key l (Frame L u k v r :: p) lastLE
      else floor_loop key r (Frame R u k v l :: p) (Some (n, p))
  end.

Fixpoint ceiling_loop (key : K) (n : node K V) (p : path K V)
    (firstGE : option (node K V * path K V)) : option (node K V * path K V) :=
  match n with
  | Nil => firstGE
  | Node u l k v r =>
      let res := cmp key k in
      if res =? 0 then Some (n, p)
      else if res <? 0 then ceiling_loop key l (Frame L u k v r :: p) (Some (n, p))
      else ceiling_loop key r (Frame R u k v l :: p) firstGE
  end.

Definition splay_found (t : Tree K V) (found : option (node K V * path K V)) :
    Tree K V * option (K * V) :=
  match found with
  | Some (n, p) => (mkTree (splay n p) (size t), node_entry n)
  | None => (t, None)
  end.

Definition Floor (t : Tree K V) (key : K) : Tree K V * option (K * V) :=
  if is_nil (root t) then (t, None)
  else splay_found t (floor_loop key (root t) [] None).

Definition Ceiling (t : Tree K V) (key : K) : Tree K V * option (K * V) :=
  if is_nil (root t) then (t, None)
  else splay_found t (ceiling_loop key (root t) [] None).

(** The traversals, which do not splay; a nil callback returns at once. *)
Section Traversals.
Context {S : Type} (fn : option (S -> K -> V -> S * bool)).

Definition traverse (walk : (S -> K -> V -> S * bool) -> node K V -> S -> S * bool)
    (t : Tree K V) (s : S) : S :=
  match fn with
  | None => s
  | Some fn => if is_nil (root t) then s else (walk fn (root t) s).1
  end.

Definition PreOrder : Tree K V -> S -> S := traverse preorder.
Definition InOrder : Tree K V -> S -> S := traverse inorder.
Definition PostOrder : Tree K V -> S -> S := traverse postorder.

Definition LevelOrder (fuel : nat) (t : Tree K V) (s : S) : option S :=
  match fn with
  | None => Some s
  | Some fn => if is_nil (root t) then Some s else level_loop fn fuel [root t] s
  end.
End Traversals.

(** [NewFromMap]: [Put] of each entry, in the order the map is ranged over. *)
Definition NewFromMap (m : list (K * V)) : Tree K V :=
  foldl (fun t e => Put t e.1 e.2) empty m.
End SplayTree.

(** * The splay tree implements a sorted map *)

Section Spec.
Context {K V : Type} (cmp : K -> K -> Z) `{!Comparison cmp}.

Lemma splay_spec u l k v r (p : path K V) :
  exists u' l' r', splay (Node u l k v r) p = Node u' l' k v r' /\
    to_list l' = before p ++ to_list l /\ to_list r' = to_list r ++ after p.
Proof.
  remember (length p) as m eqn:Hm. revert u l r p Hm.
  induction m as [m IH] using lt_wf_ind. intros u l r p Hm.
  destruct p as [|[d fu fk fv s] [|[d' fu' fk' fv' s'] rest]].
  - exists u, l, r. simpl. by rewrite app_nil_r.
  - destruct d; simpl; do 3 eexists; (split; [reflexivity|split; [list_assoc|]]);
      simpl; by rewrite ?app_nil_r.
  - destruct d, d'; simpl;
      match goal with |- context [splay (Node ?u1 ?l1 k v ?r1) rest] =>
        destruct (IH (length rest)) with (u := u1) (l := l1) (r := r1) (p := rest)
          as (u' & l' & r' & Heq & Hl & Hr); [simpl in Hm; lia|done|]
      end;
      exists u', l', r'; (split; [exact Heq|]); rewrite Hl, Hr; split; list_assoc.
Qed.

Lemma splay_list (n : node K V) p : n <> Nil -> to_list (splay n p) = whole n p.
Proof.
  destruct n as [|u l k v r]; [done|]. intros _.
  destruct (splay_spec u l k v r p) as (u' & l' & r' & -> & Hl & Hr).
  simpl. rewrite Hl, Hr. unfold whole. list_assoc.
Qed.

Lemma splay_root (n : node K V) p : n <> Nil -> node_entry (splay n p) = node_entry n.
Proof.
  destruct n as [|u l k v r]; [done|]. intros _.
  by destruct (splay_spec u l k v r p) as (u' & l' & r' & -> & _).
Qed.

Record valid (t : Tree K V) : Prop := Valid {
  valid_sorted : ksorted cmp (entries t);
  valid_size : size t = Z.of_nat (length (entries t))
}.

(** The tree with a new shape only. *)
Lemma valid_splay t n p :
  valid t -> n <> Nil -> whole n p = entries t ->
  valid (mkTree (splay n p) (size t)) /\ entries (mkTree (splay n p) (size t)) = entries t.
Proof.
  intros [Hs Hsz] Hn Hw.
  assert (entries (mkTree (splay n p) (size t)) = entries t) as E
    by (unfold entries at 1; simpl; by rewrite splay_list).
  split; [|done]. split; by rewrite E.
Qed.

(** ** Insertion *)

Lemma splay_put_loop_ok key (val : V) n p :
  around cmp key n p ->
  let '(t, added) := put_loop cmp key val n p in
  added = (if lfind cmp key (whole n p) is Some _ then false else true) /\
  to_list t = linsert cmp (fun e => (e.1, val)) key val (whole n p) /\
  exists k, node_entry t = Some (k, val) /\ cmp key k = 0.
Proof.
  revert p. induction n as [|u l IHl k v r IHr]; intros p Har.
  - destruct Har as (Hs & Hb & Ha). simpl. rewrite splay_list, splay_root by done.
    unfold whole. simpl. rewrite lfind_below, lfind_above by done.
    rewrite linsert_below, linsert_above by done. split; [done|]. split; [done|].
    exists key. split; [done|]. by apply cmp_refl.
  - pose proof (cmp_sym k key). simpl.
    destruct (Z.eqb_spec (cmp key k) 0); [|destruct (Z.ltb_spec (cmp key k) 0)].
    + destruct Har as (Hs & _ & _). rewrite splay_list, splay_root by done.
      assert (cmp k key = 0) by lia.
      rewrite !whole_mid in *. erewrite lfind_mid, linsert_mid by done.
      split; [done|]. split; [done|]. by exists k.
    + rewrite <- (whole_left u). apply IHl. apply (around_left cmp); [done|lia].
    + rewrite <- (whole_right u). apply IHr. apply (around_right cmp); [done|lia].
Qed.

Lemma splay_put_walk key val (t : Tree K V) :
  put cmp t key val =
    let '(n', added) := put_loop cmp key val (root t) [] in
    mkTree n' (if added then size t + 1 else size t).
Proof. unfold put. by destruct (root t). Qed.

Lemma splay_Put_ok t key val :
  valid t ->
  let t' := Put cmp t key val in
  valid t' /\ entries t' = linsert cmp (fun e => (e.1, val)) key val (entries t) /\
  exists k, node_entry (root t') = Some (k, val) /\ cmp key k = 0.
Proof.
  intros [Hs Hsz]. unfold Put. rewrite splay_put_walk.
  pose proof (splay_put_loop_ok key val (root t) [] (around_root cmp key _ Hs)) as Hput.
  destruct (put_loop cmp key val (root t) []) as [n added].
  rewrite whole_root in Hput. fold (entries t) in Hput.
  destruct Hput as (-> & Hl & Hroot). cbv zeta.
  set (t' := mkTree n _). assert (entries t' = linsert cmp (fun e => (e.1, val)) key val (entries t))
    as E by done.
  split; [|done]. split.
  - rewrite E. apply ksorted_linsert; [done| |done]. intros e _. by apply cmp_refl.
  - rewrite E, length_linsert by done. simpl. destruct (lfind cmp key (entries t)); lia.
Qed.

(** ** Lookup *)

Lemma get_loop_ok key (n : node K V) p :
  around cmp key n p -> n <> Nil ->
  exists u l k v r q, get_loop cmp key n p = (Node u l k v r, q) /\
    whole (Node u l k v r) q = whole n p /\
    lfind cmp key (whole n p) = if cmp key k =? 0 then Some v else None.
Proof.
  revert p. induction n as [|u l IHl k v r IHr]; intros p Har Hn; [done|].
  pose proof (cmp_sym k key). simpl.
  destruct (Z.eqb_spec (cmp key k) 0); [|destruct (Z.ltb_spec 0 (cmp key k))].
  - exists u, l, k, v, r, p. split; [done|]. split; [done|].
    destruct (Z.eqb_spec (cmp key k) 0); [|done].
    destruct Har as (Hs & _ & _). rewrite whole_mid in *.
    assert (cmp k key = 0) by lia. by erewrite lfind_mid.
  - assert (around cmp key r (Frame R u k v l :: p)) as Har'
      by (apply (around_right cmp); [done|lia]).
    destruct r as [|ru rl rk rv rr] eqn:Er.
    + exists u, l, k, v, Nil, p. split; [done|]. split; [done|]. case_cmp.
      destruct Har' as (_ & Hb & Ha). rewrite <- (whole_right u). unfold whole. simpl.
      by rewrite lfind_below, lfind_above.
    + rewrite <- Er in *. rewrite <- (whole_right u). apply IHr; [done|by subst].
  - assert (around cmp key l (Frame L u k v r :: p)) as Har'
      by (apply (around_left cmp); [done|lia]).
    destruct l as [|lu ll lk lv lr] eqn:El.
    + exists u, Nil, k, v, r, p. split; [done|]. split; [done|]. case_cmp.
      destruct Har' as (_ & Hb & Ha). rewrite <- (whole_left u). unfold whole. simpl.
      by rewrite lfind_below, lfind_above.
    + rewrite <- El in *. rewrite <- (whole_left u). apply IHl; [done|by subst].
Qed.

Lemma get_ok t key :
  valid t -> root t <> Nil ->
  let '(t', found) := get cmp t key in
  found = lfind cmp key (entries t) /\ valid t' /\ entries t' = entries t /\
  forall v, found = Some v -> exists k, node_entry (root t') = Some (k, v) /\ cmp key k = 0.
Proof.
  intros Hv Hn. unfold get.
  destruct (get_loop_ok key (root t) [] (around_root cmp key _ (valid_sorted t Hv)) Hn)
    as (u & l & k & v & r & q & -> & Hw & Hf).
  rewrite whole_root in Hw, Hf. fold (entries t) in Hw, Hf.
  destruct (valid_splay t (Node u l k v r) q Hv ltac:(done) Hw) as [Hv' He].
  destruct (splay_spec u l k v r q) as (u' & l' & r' & Hsp & _).
  rewrite Hsp in *. split; [done|]. split; [done|]. split; [done|].
  intros w. destruct (Z.eqb_spec (cmp key k) 0); [|done].
  intros [= ->]. by exists k.
Qed.

Lemma Get_ok t key :
  valid t ->
  let '(t', found) := Get cmp t key in
  found = lfind cmp key (entries t) /\ valid t' /\ entries t' = entries t /\
  forall v, found = Some v -> exists k, node_entry (root t') = Some (k, v) /\ cmp key k = 0.
Proof.
  intros Hv. unfold Get. destruct (root t) as [|u l k v r] eqn:E; simpl.
  - unfold entries. rewrite E. done.
  - apply get_ok; [done|by rewrite E].
Qed.

(** ** The ends of the tree, and deletion *)

Lemma bottom_right u l k v r (p : path K V) :
  exists u' l' k' v' q, bottom true (Node u l k v r) p = (Node u' l' k' v' Nil, q) /\
    whole (Node u' l' k' v' Nil) q = whole (Node u l k v r) p /\ after q = after p.
Proof.
  revert u l k v p. induction r as [|u1 l1 _ k1 v1 r1 IH]; intros u l k v p.
  - by exists u, l, k, v, p.
  - destruct (IH u1 l1 k1 v1 (Frame R u k v l :: p)) as (u' & l' & k' & v' & q & Heq & Hw & Ha).
    exists u', l', k', v', q. split; [exact Heq|]. by rewrite Hw, whole_right.
Qed.

Lemma bottom_left u l k v r (p : path K V) :
  exists u' r' k' v' q, bottom false (Node u l k v r) p = (Node u' Nil k' v' r', q) /\
    whole (Node u' Nil k' v' r') q = whole (Node u l k v r) p /\ before q = before p.
Proof.
  revert u k v r p. induction l as [|u1 l1 IH k1 v1 r1 _]; intros u k v r p.
  - by exists u, r, k, v, p.
  - destruct (IH u1 k1 v1 r1 (Frame L u k v r :: p)) as (u' & r' & k' & v' & q & Heq & Hw & Ha).
    exists u', r', k', v', q. split; [exact Heq|]. by rewrite Hw, whole_left.
Qed.

(** Splaying the greatest node of [lo] over the old root leaves the old root
    and nothing else of [lo] on its right. *)
Lemma delete_root_ok u lo k v hi :
  lo <> Nil ->
  let '(n, p) := bottom true lo [] in
  exists u' l' k' v' r', splay n (p ++ [Frame L u k v hi]) = Node u' l' k' v' r' /\
    to_list (Node u' l' k' v' hi) = to_list lo ++ @to_list unit K V hi.
Proof.
  destruct lo as [|lu ll lk lv lr]; [done|]. intros _.
  destruct (bottom_right lu ll lk lv lr []) as (u' & l' & k' & v' & q & -> & Hw & Ha).
  destruct (splay_spec u' l' k' v' Nil (q ++ [Frame L u k v hi])) as (u2 & l2 & r2 & Hsp & Hl & _).
  exists u2, l2, k', v', r2. split; [done|].
  rewrite whole_root in Hw. rewrite <- Hw, whole_mid, Ha.
  rewrite before_app in Hl. simpl in *. rewrite Hl. list_assoc.
Qed.

Lemma splay_Delete_ok t key :
  valid t ->
  let '(t', found) := Delete cmp t key in
  found = lfind cmp key (entries t) /\ valid t' /\ entries t' = ldelete cmp key (entries t).
Proof.
  intros Hv. unfold Delete. destruct (is_nil (root t)) eqn:Hnil.
  { destruct t as [[|] s]; [|done]. done. }
  pose proof (get_ok t key Hv) as Hget.
  destruct (get cmp t key) as [t1 found].
  destruct Hget as (-> & Hv1 & He & Hroot); [by intros E; rewrite E in Hnil|].
  destruct (lfind cmp key (entries t)) as [value|] eqn:Hfind;
    [|split; [done|]; split; [done|]; by rewrite He, ldelete_none].
  destruct (Hroot value eq_refl) as (k & Hentry & Hk).
  set (root' := match root t1 with Nil => _ | _ => _ end).
  assert (to_list root' = ldelete cmp key (entries t)) as E.
  { rewrite <- He. unfold entries, root'. pose proof (valid_sorted t1 Hv1) as Hs.
    unfold entries in Hs.
    destruct (root t1) as [|u lo k1 v1 hi]; [done|]. simpl in Hentry. simplify_eq.
    apply cmp_eq_sym in Hk; [|done]. cbn [to_list] in *. rewrite (ldelete_mid cmp) by done.
    destruct lo as [|lu ll lk lv lr] eqn:El; [by destruct hi|].
    destruct hi as [|hu hl hk hv hr] eqn:Eh; [simpl; by rewrite app_nil_r|].
    rewrite <- El, <- Eh in *.
    pose proof (delete_root_ok u lo k value hi ltac:(by subst)) as Hd.
    destruct (bottom true lo []) as [n p].
    destruct Hd as (u' & l' & k' & v' & r' & -> & Hd). exact Hd. }
  split; [done|]. split; [|exact E].
  destruct Hv1 as [Hs1 Hsz1]. rewrite He in Hs1, Hsz1.
  split; unfold entries at 1; simpl; rewrite E; [by apply ksorted_ldelete|].
  rewrite length_ldelete, Hfind, Hsz1.
  destruct (entries t); [done|simpl; lia].
Qed.

Lemma Max_ok t :
  valid t -> (Max t).2 = last (entries t) /\ valid (Max t).1 /\ entries (Max t).1 = entries t.
Proof.
  intros Hv. unfold Max, entries at 1. destruct (root t) as [|u l k v r] eqn:Er; [done|].
  destruct (bottom_right u l k v r []) as (u' & l' & k' & v' & q & Heq & Hw & Ha).
  simpl is_nil. cbv iota. rewrite Heq. rewrite whole_root, <- Er in Hw. rewrite <- Er.
  split; [|by apply valid_splay]. rewrite <- Hw, whole_mid, Ha. simpl. by rewrite last_snoc.
Qed.

Lemma Min_ok t :
  valid t -> (Min t).2 = head (entries t) /\ valid (Min t).1 /\ entries (Min t).1 = entries t.
Proof.
  intros Hv. unfold Min, entries at 1. destruct (root t) as [|u l k v r] eqn:Er; [done|].
  destruct (bottom_left u l k v r []) as (u' & r' & k' & v' & q & Heq & Hw & Hb).
  simpl is_nil. cbv iota. rewrite Heq. rewrite whole_root, <- Er in Hw. rewrite <- Er.
  split; [|by apply valid_splay]. by rewrite <- Hw, whole_mid, Hb.
Qed.

(** ** Floor and ceiling *)

Definition found_entry (found : option (node K V * path K V)) : option (K * V) :=
  found ≫= fun x => node_entry x.1.

Definition found_in (w : list (K * V)) (found : option (node K V * path K V)) : Prop :=
  forall n p, found = Some (n, p) -> n <> Nil /\ whole n p = w.

Lemma floor_loop_ok key n p best :
  found_in (whole n p) best ->
  found_entry (floor_loop cmp key n p best) = floor_walk' cmp key n (found_entry best) /\
  found_in (whole n p) (floor_loop cmp key n p best).
Proof.
  revert p best. induction n as [|u l IHl k v r IHr]; intros p best Hb; simpl; [done|].
  destruct (_ =? _); [|destruct (_ <? _)].
  - split; [done|]. by intros n q [= <- <-].
  - rewrite <- (whole_left u) in *. by apply IHl.
  - rewrite <- (whole_right u) in *. apply (IHr _ (Some (Node u l k v r, p))).
    intros n q [= <- <-]. split; [done|]. by rewrite whole_right.
Qed.

Lemma ceiling_loop_ok key n p best :
  found_in (whole n p) best ->
  found_entry (ceiling_loop cmp key n p best) = ceiling_walk' cmp key n (found_entry best) /\
  found_in (whole n p) (ceiling_loop cmp key n p best).
Proof.
  revert p best. induction n as [|u l IHl k v r IHr]; intros p best Hb; simpl; [done|].
  destruct (_ =? _); [|destruct (_ <? _)].
  - split; [done|]. by intros n q [= <- <-].
  - rewrite <- (whole_left u) in *. apply (IHl _ (Some (Node u l k v r, p))).
    intros n q [= <- <-]. split; [done|]. by rewrite whole_left.
  - rewrite <- (whole_right u) in *. by apply IHr.
Qed.

Lemma splay_found_ok t found :
  valid t -> found_in (entries t) found ->
  (splay_found t found).2 = found_entry found /\
  valid (splay_found t found).1 /\ entries (splay_found t found).1 = entries t.
Proof.
  intros Hv Hf. destruct found as [[n p]|]; [|done]. simpl.
  destruct (Hf n p eq_refl) as [Hn Hw]. split; [done|]. by apply valid_splay.
Qed.
End Spec.

(** ** Properties *)

Section Properties.
Context {K V : Type} (cmp : K -> K -> Z) `{!Comparison cmp}.

Lemma splay_ends_ok (t : Tree K V) :
  valid cmp t ->
  (Min t).2 = head (entries t) /\ (Max t).2 = last (entries t) /\
  Keys t = (entries t).*1 /\ Size t = Z.of_nat (length (entries t)) /\
  Forall (fun t' => valid cmp t' /\ entries t' = entries t) [(Min t).1; (Max t).1].
Proof.
  intros Hv. destruct (Min_ok cmp t Hv) as (? & ? & ?). destruct (Max_ok cmp t Hv) as (? & ? & ?).
  do 2 (split; [done|]). split; [unfold Keys; by rewrite collect_to_list|].
  split; [by destruct Hv|]. by repeat (apply Forall_cons_2; [done|]).
Qed.

Lemma splay_queries_ok (t : Tree K V) key (Hv : valid cmp t) :
  (Get cmp t key).2 = lfind cmp key (entries t) /\
  (Min t).2 = head (entries t) /\ (Max t).2 = last (entries t) /\
  (Floor cmp t key).2 = lfloor cmp key (entries t) None /\
  (Ceiling cmp t key).2 = lceiling cmp key (entries t) /\
  Forall (fun t' => valid cmp t' /\ entries t' = entries t)
    [(Get cmp t key).1; (Min t).1; (Max t).1; (Floor cmp t key).1; (Ceiling cmp t key).1].
Proof.
  pose proof (Get_ok cmp t key Hv) as Hget.
  destruct (Get cmp t key) as [t1 found]. destruct Hget as (-> & Hv1 & He1 & _).
  destruct (is_nil (root t)) eqn:Hnil.
  { unfold Min, Max, Floor, Ceiling. rewrite Hnil.
    assert (entries t = []) as E by (unfold entries; by destruct (root t)).
    split_and!; [by rewrite ?E..|].
    by repeat (apply Forall_cons_2; [done|]). }
  assert (root t <> Nil) as Hn by (intros E; by rewrite E in Hnil).
  pose proof (valid_sorted cmp t Hv) as Hs. unfold entries in Hs.
  assert (found_in (whole (root t) []) None) as Hnone by done.
  destruct (floor_loop_ok cmp key (root t) [] None Hnone) as [Hfe Hfi].
  destruct (ceiling_loop_ok cmp key (root t) [] None Hnone) as [Hce Hci].
  rewrite whole_root in Hfi, Hci. simpl in Hfe, Hce.
  rewrite floor_walk_swap, floor_walk_ok in Hfe by done.
  rewrite ceiling_walk_swap, ceiling_walk_None in Hce by done.
  destruct (splay_found_ok cmp t _ Hv Hfi) as (Hf2 & Hfv & Hfl).
  destruct (splay_found_ok cmp t _ Hv Hci) as (Hc2 & Hcv & Hcl).
  unfold Floor, Ceiling. rewrite Hnil.
  destruct (Min_ok cmp t Hv) as (Hm2 & Hmv & Hml).
  destruct (Max_ok cmp t Hv) as (Hx2 & Hxv & Hxl).
  split; [done|]. split; [done|]. split; [done|].
  split; [by rewrite Hf2|]. split; [by rewrite Hc2|].
  by repeat (apply Forall_cons_2; [done|]).
Qed.

(** [Put] on a splay tree acts on its entries as the insertion of a
    sorted map, keeps the size, and leaves the node of the key at the root;
    [Delete] answers the value the key had or that there was none, and
    removes exactly its entry, although the splay that promotes the greatest
    node of the left subtree goes over the removed root, which it still has
    as its parent. *)
Lemma splay_refines_sorted_map (t : Tree K V) key val (Hv : valid cmp t) :
  (let t' := Put cmp t key val in
   valid cmp t' /\ entries t' = linsert cmp (fun e => (e.1, val)) key val (entries t) /\
   exists k, node_entry (root t') = Some (k, val) /\ cmp key k = 0) /\
  (Delete cmp t key).2 = lfind cmp key (entries t) /\
  valid cmp (Delete cmp t key).1 /\
  entries (Delete cmp t key).1 = ldelete cmp key (entries t).
Proof.
  split; [by apply splay_Put_ok|]. pose proof (splay_Delete_ok cmp t key Hv) as H. by destruct (Delete cmp t key).
Qed.

(** [Get], [Min], [Max], [Floor] and [Ceiling] answer what the sorted
    list of entries holds, and the splay each ends with changes the shape of
    the tree only. *)
Lemma splay_queries (t : Tree K V) key (Hv : valid cmp t) :
  (Get cmp t key).2 = lfind cmp key (entries t) /\
  (Min t).2 = head (entries t) /\ (Max t).2 = last (entries t) /\
  (Floor cmp t key).2 = lfloor cmp key (entries t) None /\
  (Ceiling cmp t key).2 = lceiling cmp key (entries t) /\
  Forall (fun t' => valid cmp t' /\ entries t' = entries t)
    [(Get cmp t key).1; (Min t).1; (Max t).1; (Floor cmp t key).1; (Ceiling cmp t key).1].
Proof. by apply splay_queries_ok. Qed.
End Properties.

(** Witnesses: the tree of the keys 5, 2, 8, 1, 9, 3. *)
Definition sample : Tree Z Z :=
  Eval vm_compute in
    NewFromMap compareZ [(5, 50); (2, 20); (8, 80); (1, 10); (9, 90); (3, 30)].

Lemma splay_sample_valid : valid compareZ sample.
Proof. split; [apply (ksortedb_ok compareZ)|]; reflexivity. Qed.

Lemma splay_refines_sorted_map_witness :
  valid compareZ sample /\
  entries (Put compareZ sample 5 40) =
    linsert compareZ (fun e => (e.1, 40)) 5 40 (entries sample) /\
  entries (Delete compareZ sample 5).1 = ldelete compareZ 5 (entries sample).
Proof.
  split; [apply splay_sample_valid|].
  split; apply (splay_refines_sorted_map compareZ sample 5 40 splay_sample_valid).
Defined.

Lemma splay_queries_witness :
  valid compareZ sample /\ (Floor compareZ sample 7).2 = Some (5, 50).
Proof. split; [apply splay_sample_valid|apply (splay_queries compareZ sample 7 splay_sample_valid)]. Defined.
