(* ===== verification/OrderedMap.v ===== *)
(** * One contract for the search trees

    What a client may use a search tree of [ds/tree] for, as a class: an
    abstraction to a sorted list of entries, and the operations acting on it
    as those of [Order].  A client's session of operations then answers the
    same on every implementation, and as on the sorted list. *)

From stdpp Require Import base list.
From Stdlib Require Import ZArith Lia.
From S2P Require Import Prelude Order BinTree.
From S2P Require RBTree RBTreeSpec AVLTree SplayTree.
Local Open Scope Z_scope.

(** A comparison that tells keys apart. *)
Class TotalComparison {K} (cmp : K -> K -> Z) : Prop := {
  total_comparison :: Comparison cmp;
  cmp_eq a b : cmp a b = 0 -> a = b
}.

#[export] Instance compareZ_total : TotalComparison compareZ.
Proof.
  split; [exact _|]. intros a b. unfold compareZ.
  destruct (Z.ltb_spec a b), (Z.ltb_spec b a); lia.
Qed.

(** The operations; [None] is a run-time panic. *)
Class OrderedMap (T K V : Type) := {
  om_empty : T;
  om_put : T -> K -> V -> option T;
  om_delete : T -> K -> option (T * option V);
  om_get : T -> K -> T * option V;
  om_floor : T -> K -> T * option (K * V);
  om_ceiling : T -> K -> T * option (K * V);
  om_min : T -> T * option (K * V);
  om_max : T -> T * option (K * V);
  om_keys : T -> list K;
  om_size : T -> Z
}.

(** The laws, for an abstraction to sorted lists. *)
Class OrderedMapLaws {T K V} (cmp : K -> K -> Z) `{OrderedMap T K V} := {
  om_valid : T -> Prop;
  om_entries : T -> list (K * V);
  om_sorted t : om_valid t -> ksorted cmp (om_entries t);
  om_empty_ok : om_valid om_empty /\ om_entries om_empty = [];
  om_put_ok t k v : om_valid t ->
    exists t', om_put t k v = Some t' /\ om_valid t' /\
      om_entries t' = linsert cmp (fun _ => (k, v)) k v (om_entries t);
  om_delete_ok t k : om_valid t ->
    exists t', om_delete t k = Some (t', lfind cmp k (om_entries t)) /\
      om_valid t' /\ om_entries t' = ldelete cmp k (om_entries t);
  om_query_ok t k : om_valid t ->
    (om_get t k).2 = lfind cmp k (om_entries t) /\
    (om_floor t k).2 = lfloor cmp k (om_entries t) None /\
    (om_ceiling t k).2 = lceiling cmp k (om_entries t) /\
    Forall (fun t' => om_valid t' /\ om_entries t' = om_entries t)
      [(om_get t k).1; (om_floor t k).1; (om_ceiling t k).1];
  om_ends_ok t : om_valid t ->
    (om_min t).2 = head (om_entries t) /\ (om_max t).2 = last (om_entries t) /\
    om_keys t = (om_entries t).*1 /\ om_size t = Z.of_nat (length (om_entries t)) /\
    Forall (fun t' => om_valid t' /\ om_entries t' = om_entries t)
      [(om_min t).1; (om_max t).1]
}.

(** ** A client: a session of operations and its answers *)

Inductive cmd (K V : Type) : Type :=
| CPut (k : K) (v : V) | CDelete (k : K) | CGet (k : K)
| CFloor (k : K) | CCeiling (k : K) | CMin | CMax | CKeys | CSize.
Arguments CPut {K V} _ _. Arguments CDelete {K V} _. Arguments CGet {K V} _.
Arguments CFloor {K V} _. Arguments CCeiling {K V} _. Arguments CMin {K V}.
Arguments CMax {K V}. Arguments CKeys {K V}. Arguments CSize {K V}.

Inductive answer (K V : Type) : Type :=
| ANone | AValue (v : option V) | AEntry (e : option (K * V)) | AKeys (l : list K) | ASize (n : Z).
Arguments ANone {K V}. Arguments AValue {K V} _. Arguments AEntry {K V} _.
Arguments AKeys {K V} _. Arguments ASize {K V} _.

Section Client.
Context {T K V : Type} `{OrderedMap T K V}.

Definition exec_cmd (c : cmd K V) (t : T) : option (T * answer K V) :=
  match c with
  | CPut k v => t ← om_put t k v; Some (t, ANone)
  | CDelete k => '(t, v) ← om_delete t k; Some (t, AValue v)
  | CGet k => let '(t, v) := om_get t k in Some (t, AValue v)
  | CFloor k => let '(t, e) := om_floor t k in Some (t, AEntry e)
  | CCeiling k => let '(t, e) := om_ceiling t k in Some (t, AEntry e)
  | CMin => let '(t, e) := om_min t in Some (t, AEntry e)
  | CMax => let '(t, e) := om_max t in Some (t, AEntry e)
  | CKeys => Some (t, AKeys (om_keys t))
  | CSize => Some (t, ASize (om_size t))
  end.

Fixpoint session (cs : list (cmd K V)) (t : T) : option (list (answer K V)) :=
  match cs with
  | [] => Some []
  | c :: cs =>
      '(t, a) ← exec_cmd c t;
      l ← session cs t;
      Some (a :: l)
  end.
End Client.
Arguments session T {K V _} cs t.

(** The same session on the sorted list. *)
Section Reference.
Context {K V : Type} (cmp : K -> K -> Z).

Definition ref_cmd (c : cmd K V) (l : list (K * V)) : list (K * V) * answer K V :=
  match c with
  | CPut k v => (linsert cmp (fun _ => (k, v)) k v l, ANone)
  | CDelete k => (ldelete cmp k l, AValue (lfind cmp k l))
  | CGet k => (l, AValue (lfind cmp k l))
  | CFloor k => (l, AEntry (lfloor cmp k l None))
  | CCeiling k => (l, AEntry (lceiling cmp k l))
  | CMin => (l, AEntry (head l))
  | CMax => (l, AEntry (last l))
  | CKeys => (l, AKeys l.*1)
  | CSize => (l, ASize (Z.of_nat (length l)))
  end.

Fixpoint ref_session (cs : list (cmd K V)) (l : list (K * V)) : list (answer K V) :=
  match cs with
  | [] => []
  | c :: cs => let '(l, a) := ref_cmd c l in a :: ref_session cs l
  end.

Context {T : Type} `{OrderedMapLaws T K V cmp}.

Lemma exec_cmd_ok c t :
  om_valid t ->
  exists t', exec_cmd c t = Some (t', (ref_cmd c (om_entries t)).2) /\
    om_valid t' /\ om_entries t' = (ref_cmd c (om_entries t)).1.
Proof.
  intros Hv.
  destruct (om_ends_ok t Hv) as (Hmin & Hmax & Hkeys & Hsize & Hends).
  repeat (apply Forall_cons in Hends as [[? ?] Hends]).
  destruct c as [k v|k|k|k|k| | | |]; simpl;
    try (destruct (om_query_ok t k Hv) as (Hg & Hf & Hc & Hsame);
         repeat (apply Forall_cons in Hsame as [[? ?] Hsame])).
  - destruct (om_put_ok t k v Hv) as (t' & -> & ? & ?). by exists t'.
  - destruct (om_delete_ok t k Hv) as (t' & -> & ? & ?). by exists t'.
  - destruct (om_get t k) as [t' a]. simpl in *. subst. by exists t'.
  - destruct (om_floor t k) as [t' a]. simpl in *. subst. by exists t'.
  - destruct (om_ceiling t k) as [t' a]. simpl in *. subst. by exists t'.
  - destruct (om_min t) as [t' a]. simpl in *. subst. by exists t'.
  - destruct (om_max t) as [t' a]. simpl in *. subst. by exists t'.
  - exists t. by rewrite Hkeys.
  - exists t. by rewrite Hsize.
Qed.

Lemma session_ok cs t :
  om_valid t -> session T cs t = Some (ref_session cs (om_entries t)).
Proof.
  revert t. induction cs as [|c cs IH]; intros t Hv; [done|]. simpl.
  destruct (exec_cmd_ok c t Hv) as (t' & -> & Hv' & He). simpl.
  rewrite IH by done. simpl. rewrite He. by destruct (ref_cmd c (om_entries t)).
Qed.

Lemma session_empty cs : session T cs om_empty = Some (ref_session cs []).
Proof. destruct om_empty_ok as [Hv He]. rewrite <- He. by apply session_ok. Qed.
End Reference.

(** ** The implementations *)

Section Instances.
Context {K V : Type} (cmp : K -> K -> Z) `{!TotalComparison cmp}.

#[export] Instance rbtree_map : OrderedMap (RBTree.Tree K V) K V := {
  om_empty := RBTree.empty;
  om_put := RBTree.Put cmp;
  om_delete := RBTree.Delete cmp;
  om_get t k := (t, RBTree.Get cmp t k);
  om_floor t k := (t, RBTree.Floor cmp t k);
  om_ceiling t k := (t, RBTree.Ceiling cmp t k);
  om_min t := (t, RBTree.Min t);
  om_max t := (t, RBTree.Max t);
  om_keys := RBTree.Keys;
  om_size := RBTree.Size
}.

#[export] Instance avl_map : OrderedMap (AVLTree.Tree K V) K V := {
  om_empty := AVLTree.empty;
  om_put := AVLTree.Put cmp;
  om_delete := AVLTree.Delete cmp;
  om_get t k := (t, AVLTree.Get cmp t k);
  om_floor t k := (t, AVLTree.Floor cmp t k);
  om_ceiling t k := (t, AVLTree.Ceiling cmp t k);
  om_min t := (t, AVLTree.Min t);
  om_max t := (t, AVLTree.Max t);
  om_keys := AVLTree.Keys;
  om_size := AVLTree.Size
}.

#[export] Instance splay_map : OrderedMap (SplayTree.Tree K V) K V := {
  om_empty := SplayTree.empty;
  om_put t k v := Some (SplayTree.Put cmp t k v);
  om_delete t k := Some (SplayTree.Delete cmp t k);
  om_get := SplayTree.Get cmp;
  om_floor := SplayTree.Floor cmp;
  om_ceiling := SplayTree.Ceiling cmp;
  om_min := SplayTree.Min;
  om_max := SplayTree.Max;
  om_keys := SplayTree.Keys;
  om_size := SplayTree.Size
}.

(** Keeping the old key of an entry is replacing it by the new one. *)
Lemma linsert_key k (v : V) l :
  linsert cmp (fun e => (e.1, v)) k v l = linsert cmp (fun _ => (k, v)) k v l.
Proof.
  induction l as [|e l IH]; simpl; [done|]. rewrite IH.
  destruct (Z.eqb_spec (cmp e.1 k) 0) as [E|]; [|done].
  by rewrite (cmp_eq _ _ E).
Qed.

Ltac all_same := repeat (apply Forall_cons_2; [done|]); apply Forall_nil_2.

#[export] Instance rbtree_laws : OrderedMapLaws (T:=RBTree.Tree K V) cmp.
Proof.
  refine {| om_valid := RBTreeSpec.valid cmp; om_entries := entries |}.
  - by intros t [].
  - split; [|done]. split; [constructor|by exists 0%nat; constructor|done].
  - intros t k v Hv. rewrite <- linsert_key. exact (RBTreeSpec.rb_Put_ok cmp t k v Hv).
  - intros t k Hv. exact (RBTreeSpec.rb_Delete_ok cmp t k Hv).
  - intros t k Hv. destruct (RBTreeSpec.rb_queries_ok cmp t k Hv) as (? & ? & ? & _).
    do 3 (split; [done|]). all_same.
  - intros t Hv. destruct (RBTreeSpec.rb_ends_ok cmp t Hv) as (? & ? & ? & ?).
    do 4 (split; [done|]). all_same.
Defined.

#[export] Instance avl_laws : OrderedMapLaws (T:=AVLTree.Tree K V) cmp.
Proof.
  refine {| om_valid := AVLTree.valid cmp; om_entries := entries |}.
  - by intros t [].
  - split; [|done]. split; [constructor|by exists 0; constructor|done].
  - intros t k v Hv. exact (AVLTree.avl_Put_ok cmp t k v Hv).
  - intros t k Hv. exact (AVLTree.avl_Delete_ok cmp t k Hv).
  - intros t k Hv. destruct (AVLTree.avl_queries_ok cmp t k Hv) as (? & ? & ? & _).
    do 3 (split; [done|]). all_same.
  - intros t Hv. destruct (AVLTree.avl_ends_ok cmp t Hv) as (? & ? & ? & ?).
    do 4 (split; [done|]). all_same.
Defined.

#[export] Instance splay_laws : OrderedMapLaws (T:=SplayTree.Tree K V) cmp.
Proof.
  refine {| om_valid := SplayTree.valid cmp; om_entries := entries |}.
  - by intros t [].
  - split; [|done]. split; [constructor|done].
  - intros t k v Hv. eexists. split; [done|].
    rewrite <- linsert_key. split; apply (SplayTree.splay_Put_ok cmp t k v Hv).
  - intros t k Hv. pose proof (SplayTree.splay_Delete_ok cmp t k Hv) as Hd.
    simpl. destruct (SplayTree.Delete cmp t k) as [t' found]. destruct Hd as (-> & ? & ?).
    by exists t'.
  - intros t k Hv. destruct (SplayTree.splay_queries_ok cmp t k Hv) as (? & _ & _ & ? & ? & Hs).
    do 3 (split; [done|]). repeat (apply Forall_cons in Hs as [? Hs]). all_same.
  - intros t Hv. destruct (SplayTree.splay_ends_ok cmp t Hv) as (? & ? & ? & ? & Hs).
    do 4 (split; [done|]). repeat (apply Forall_cons in Hs as [? Hs]). all_same.
Defined.

(** C40: the three search trees are interchangeable: any sequence of
    operations on an empty red-black tree, AVL tree or splay tree runs without
    a nil dereference and gives the answers the sorted list of entries gives,
    for a comparison that tells keys apart. *)
Theorem search_trees_agree (cs : list (cmd K V)) :
  session (RBTree.Tree K V) cs RBTree.empty = Some (ref_session cmp cs []) /\
  session (AVLTree.Tree K V) cs AVLTree.empty = Some (ref_session cmp cs []) /\
  session (SplayTree.Tree K V) cs SplayTree.empty = Some (ref_session cmp cs []).
Proof.
  split_and!.
  - exact (session_empty (T:=RBTree.Tree K V) cmp cs).
  - exact (session_empty (T:=AVLTree.Tree K V) cmp cs).
  - exact (session_empty (T:=SplayTree.Tree K V) cmp cs).
Qed.
End Instances.

Lemma search_trees_agree_witness :
  session (AVLTree.Tree Z Z) (H:=avl_map compareZ) [CPut 2 20; CPut 1 10; CDelete 2; CGet 1; CKeys] AVLTree.empty
    = Some [ANone; ANone; AValue (Some 20); AValue (Some 10); AKeys [1]].
Proof.
  exact (proj1 (proj2 (search_trees_agree compareZ [CPut 2 20; CPut 1 10; CDelete 2; CGet 1; CKeys]))).
Defined.
