(* ===== verification/BinaryHeap.v ===== *)
(** * The binary heap

    Models [ds/heap/binaryheap].  A heap is a
    slice and a comparison; [None] is an index out of range.  A max-heap
    runs the loops of a min-heap with every comparison's sign reversed, the
    way [upMaxHeap] and [downMaxHeap] reverse those of [upMinHeap] and
    [downMinHeap].  The mutex of a safe heap is left out. *)

From stdpp Require Import base list sorting.
From Stdlib Require Import ZArith Lia.
From S2P Require Import Prelude Order.
Local Open Scope nat_scope.

Section Heap.
Context {E : Type}.

Record Heap : Type := mkHeap { data : list E; cmp : E -> E -> Z; maxHeap : bool }.

(** The comparison that puts the root first. *)
Definition order (c : E -> E -> Z) (max : bool) (a b : E) : Z := if max then (- c a b)%Z else c a b.

Definition swap (l : list E) (i j : nat) (a b : E) : list E := <[i := b]> (<[j := a]> l).

(** The loop of [upMinHeap] and [upMaxHeap]; the index decreases. *)
Fixpoint up (ord : E -> E -> Z) (fuel i : nat) (l : list E) : option (list E) :=
  match fuel with
  | 0 => None
  | S fuel =>
      let p := (i - 1) / 2 in
      if i =? 0 then Some l
      else
        a ← l !! i; b ← l !! p;
        if (0 <=? ord a b)%Z then Some l else up ord fuel p (swap l i p a b)
  end.

(** The loop of [downMinHeap] and [downMaxHeap]; the index increases. *)
Fixpoint down (ord : E -> E -> Z) (fuel i : nat) (l : list E) : option (list E) :=
  match fuel with
  | 0 => None
  | S fuel =>
      let lc := 2 * i + 1 in
      let rc := 2 * i + 2 in
      if length l <=? lc then Some l
      else
        cl ← l !! lc;
        m ← (if rc <? length l then cr ← l !! rc; Some (if (ord cr cl <? 0)%Z then rc else lc) else Some lc);
        a ← l !! i; b ← l !! m;
        if (ord a b <=? 0)%Z then Some l else down ord fuel m (swap l i m a b)
  end.

Definition upMinHeap (h : Heap) (i : nat) : option (list E) := up (order (cmp h) false) (S i) i (data h).
Definition upMaxHeap (h : Heap) (i : nat) : option (list E) := up (order (cmp h) true) (S i) i (data h).
Definition downMinHeap (h : Heap) (i : nat) : option (list E) :=
  down (order (cmp h) false) (S (length (data h))) i (data h).
Definition downMaxHeap (h : Heap) (i : nat) : option (list E) :=
  down (order (cmp h) true) (S (length (data h))) i (data h).

Definition with_data (l : list E) (h : Heap) : Heap := mkHeap l (cmp h) (maxHeap h).

Definition New (c : E -> E -> Z) (max : bool) : Heap := mkHeap [] c max.

Definition Push (e : E) (h : Heap) : option Heap :=
  let h := with_data (data h ++ [e]) h in
  let i := length (data h) - 1 in
  l ← (if maxHeap h then upMaxHeap h i else upMinHeap h i);
  Some (with_data l h).

(** [Pop]: the root, with the last element sunk from its place. *)
Definition Pop (h : Heap) : option (option E * Heap) :=
  match data h with
  | [] => Some (None, h)
  | d :: _ =>
      if 1 <? length (data h) then
        x ← last (data h);
        let h := with_data (take (length (data h) - 1) (<[0 := x]> (data h))) h in
        l ← (if maxHeap h then downMaxHeap h 0 else downMinHeap h 0);
        Some (Some d, with_data l h)
      else Some (Some d, with_data [] h)
  end.

Definition Peek (h : Heap) : option E := head (data h).
Definition IsEmpty (h : Heap) : bool := length (data h) =? 0.
Definition Size (h : Heap) : Z := Z.of_nat (length (data h)).
Definition Clear (h : Heap) : Heap := with_data [] h.

Fixpoint push_all (l : list E) (h : Heap) : option Heap :=
  match l with
  | [] => Some h
  | e :: l => h ← Push e h; push_all l h
  end.

Definition NewFromSlice (slice : list E) (c : E -> E -> Z) (max : bool) : option Heap := push_all slice (New c max).

(** [clone]: the options carry the kind of heap. *)
Definition Clone (h : Heap) : option Heap := push_all (data h) (New (cmp h) (maxHeap h)).

Fixpoint pop_all (fuel : nat) (h : Heap) : option (list E) :=
  match fuel with
  | 0 => if IsEmpty h then Some [] else None
  | S fuel =>
      if IsEmpty h then Some []
      else
        '(e, h) ← Pop h; e ← e;
        rest ← pop_all fuel h; Some (e :: rest)
  end.

(** [Values]: a copy, popped until it is empty. *)
Definition Values (h : Heap) : option (list E) := copied ← Clone h; pop_all (length (data h)) copied.

Definition Range (fn : E -> bool) (h : Heap) : list E := called fn (data h).

End Heap.
Arguments Heap : clear implicits.

Example heap_values :
  (h ← NewFromSlice [5; 2; 8; 1; 9; 3]%Z compareZ false; Values h) = Some [1; 2; 3; 5; 8; 9]%Z.
Proof. reflexivity. Qed.
Example max_heap_values :
  (h ← NewFromSlice [5; 2; 8; 1; 9; 3]%Z compareZ true; Values h) = Some [9; 8; 5; 3; 2; 1]%Z.
Proof. reflexivity. Qed.
