(* ===== verification/PriorityQueue.v ===== *)
(** * The priority queue

    Models [ds/queue/priorityqueue], a binary heap with the options it was
    built with.  The mutex of a safe queue is left out. *)

From stdpp Require Import base list.
From Stdlib Require Import ZArith.
From S2P Require Import Prelude BinaryHeap.
Local Open Scope nat_scope.

Section Queue.
Context {E : Type}.

Record Queue : Type := mkQueue { heap : Heap E; qcmp : E -> E -> Z; maxPriority : bool }.

Definition New (c : E -> E -> Z) (max : bool) : Queue := mkQueue (BinaryHeap.New c max) c max.

Definition with_heap (h : Heap E) (q : Queue) : Queue := mkQueue h (qcmp q) (maxPriority q).

Definition Enqueue (e : E) (q : Queue) : option Queue := h ← Push e (heap q); Some (with_heap h q).
Definition Dequeue (q : Queue) : option (option E * Queue) :=
  '(e, h) ← Pop (heap q); Some (e, with_heap h q).
Definition Peek (q : Queue) : option E := BinaryHeap.Peek (heap q).
Definition IsEmpty (q : Queue) : bool := BinaryHeap.IsEmpty (heap q).
Definition Len (q : Queue) : Z := BinaryHeap.Size (heap q).
Definition Values (q : Queue) : option (list E) := BinaryHeap.Values (heap q).
Definition Clear (q : Queue) : Queue := with_heap (BinaryHeap.Clear (heap q)) q.

(** The options a copy is made with: the mutex, and no other. *)
Definition clone_options (q : Queue) : bool := false.

Definition Clone (q : Queue) : option Queue :=
  let clone := New (qcmp q) (clone_options q) in
  vs ← Values q;
  h ← push_all vs (heap clone); Some (with_heap h clone).

(** Taking everything out, in the order it comes. *)
Fixpoint drain (fuel : nat) (q : Queue) : option (list E) :=
  match fuel with
  | 0 => Some []
  | S fuel =>
      '(e, q) ← Dequeue q;
      match e with
      | None => Some []
      | Some e => rest ← drain fuel q; Some (e :: rest)
      end
  end.

End Queue.
Arguments Queue : clear implicits.
