(* ===== verification/HeapSpec.v ===== *)
(** * What the heap and the priority queue promise

    Heap order is kept, no index is out of range, and what comes out is what
    went in, in order. *)

From stdpp Require Import base list sorting.
From Stdlib Require Import ZArith Lia Sorted.
From S2P Require Import Prelude Order BinaryHeap.
From S2P Require PriorityQueue.
Local Open Scope nat_scope.

#[export] Instance order_comparison {E} (c : E -> E -> Z) `{!Comparison c} max : Comparison (order c max).
Proof.
  destruct max; [|exact _]. unfold order. split; intros.
  - pose proof (cmp_sym a b). rewrite !Z.sgn_opp. lia.
  - pose proof (cmp_sym a b). pose proof (cmp_sym b c0). pose proof (cmp_sym a c0).
    pose proof (cmp_trans c0 b a). lia.
  - pose proof (cmp_sym a b). pose proof (cmp_sym b c0). pose proof (cmp_sym a c0).
    assert (c c0 b < 0)%Z as H4 by lia. assert (c b a = 0)%Z as H5 by lia.
    pose proof (cmp_lt_eq c c0 b a H4 H5). lia.
Qed.

Definition parent (i : nat) : nat := (i - 1) / 2.

Lemma parent_lt i : 0 < i -> parent i < i.
Proof. intros H. unfold parent. apply Nat.Div0.div_lt_upper_bound. lia. Qed.

Lemma parent_child c i : 0 < c -> parent c = i <-> c = 2 * i + 1 \/ c = 2 * i + 2.
Proof.
  intros H. unfold parent. pose proof (Nat.div_mod_eq (c - 1) 2). pose proof (Nat.mod_upper_bound (c - 1) 2).
  lia.
Qed.

Section Swap.
Context {E : Type}.

Lemma swap_lookup (l : list E) i j a b k :
  i < length l -> j < length l ->
  swap l i j a b !! k = if decide (k = i) then Some b else if decide (k = j) then Some a else l !! k.
Proof.
  intros Hi Hj. unfold swap. destruct (decide (k = i)) as [->|Hk].
  - apply list_lookup_insert_eq. by rewrite length_insert.
  - rewrite list_lookup_insert_ne by done. destruct (decide (k = j)) as [->|Hk'].
    + by apply list_lookup_insert_eq.
    + by apply list_lookup_insert_ne.
Qed.

Lemma length_swap (l : list E) i j a b : length (swap l i j a b) = length l.
Proof. unfold swap. by rewrite !length_insert. Qed.

Lemma swap_Permutation (l : list E) i j a b : l !! i = Some a -> l !! j = Some b -> swap l i j a b ≡ₚ l.
Proof.
  intros Hi Hj. apply Permutation_inj. split; [apply length_swap|].
  set (f k := if decide (k = i) then j else if decide (k = j) then i else k).
  exists f. split.
  - intros x y. unfold f. repeat case_decide; congruence.
  - intros k. pose proof (lookup_lt_Some _ _ _ Hi). pose proof (lookup_lt_Some _ _ _ Hj).
    rewrite swap_lookup by done. unfold f. repeat case_decide; congruence.
Qed.
End Swap.

Section Spec.
Context {E : Type} (ord : E -> E -> Z) `{!Comparison ord}.

Definition le (a b : E) : Prop := (ord a b <= 0)%Z.

Lemma le_refl a : le a a.
Proof. unfold le. rewrite cmp_refl by done. lia. Qed.

Lemma le_total a b : le a b \/ le b a.
Proof. unfold le. pose proof (cmp_sym a b). lia. Qed.

Lemma le_trans a b c : le a b -> le b c -> le a c.
Proof. apply (cmp_le_trans ord). Qed.

Lemma not_le a b : ~ le a b -> le b a.
Proof. intros H. by destruct (le_total a b). Qed.

(** Heap order, everywhere but between [hole] and its parent. *)
Definition heap_but (hole : nat -> Prop) (l : list E) : Prop :=
  forall i x y, 0 < i -> ~ hole i -> l !! i = Some x -> l !! parent i = Some y -> le y x.

Definition heap_ok (l : list E) : Prop := heap_but (fun _ => False) l.

(** The parent of [i] precedes the children of [i]. *)
Definition grand_ok (i : nat) (l : list E) : Prop :=
  forall c x y, 0 < i -> 0 < c -> parent c = i -> l !! c = Some x -> l !! parent i = Some y -> le y x.

Lemma up_ok fuel i l :
  i < fuel -> i < length l -> heap_but (eq i) l -> grand_ok i l ->
  exists l', up ord fuel i l = Some l' /\ l' ≡ₚ l /\ heap_ok l'.
Proof.
  revert i l. induction fuel as [|fuel IH]; intros i l Hf Hi Hh Hg; [lia|].
  cbn [up]. fold (parent i). destruct (Nat.eqb_spec i 0) as [->|Hi0].
  { exists l. split; [done|]. split; [done|]. intros j x y Hj _. apply Hh; lia. }
  pose proof (parent_lt i ltac:(lia)) as Hp.
  destruct (lookup_lt_is_Some_2 l i Hi) as [a Ha]. destruct (lookup_lt_is_Some_2 l (parent i) ltac:(lia)) as [b Hb].
  rewrite Ha. cbn [mbind option_bind]. rewrite Hb. cbn [mbind option_bind].
  destruct (Z.leb_spec 0 (ord a b)) as [Hle|Hlt].
  { exists l. split; [done|]. split; [done|]. intros j x y Hj _ Hx Hy. destruct (decide (i = j)) as [->|Hne].
    - rewrite Ha in Hx. rewrite Hb in Hy. simplify_eq. unfold le. pose proof (cmp_sym x y). lia.
    - by apply (Hh j). }
  assert (le a b) as Hab by (unfold le; lia).
  assert (length (swap l i (parent i) a b) = length l) as Hlen by apply length_swap.
  destruct (IH (parent i) (swap l i (parent i) a b)) as (l' & Hl & Hperm & Hok); [lia|lia| | |].
  - intros j x y Hj Hne. rewrite !swap_lookup by lia. destruct (decide (j = i)) as [->|Hji].
    + rewrite (decide_False (P := parent i = i)), decide_True by (done || lia). intros [= <-] [= <-]. exact Hab.
    + rewrite (decide_False (P := j = parent i)) by done. intros Hx.
      destruct (decide (parent j = i)) as [Hpi|Hpi]; [intros [= <-]; apply (Hg j); auto; lia|].
      destruct (decide (parent j = parent i)) as [Hpp|Hpp]; [|by apply (Hh j); auto].
      intros [= <-]. eapply le_trans; [exact Hab|]. apply (Hh j); auto. congruence.
  - intros c x y H0 Hc Hpc. pose proof (parent_lt (parent i) H0). pose proof (parent_lt c Hc).
    rewrite !swap_lookup by lia.
    rewrite (decide_False (P := parent (parent i) = i)), (decide_False (P := parent (parent i) = parent i)) by lia.
    rewrite (decide_False (P := c = parent i)) by lia. intros Hx Hy.
    assert (le y b) as Hyb by (apply (Hh (parent i)); [done|lia|done|done]).
    destruct (decide (c = i)) as [->|Hci]; [by simplify_eq|].
    eapply le_trans; [exact Hyb|]. apply (Hh c); auto. congruence.
  - exists l'. split; [done|]. split; [|done]. rewrite Hperm. by apply swap_Permutation.
Qed.
Lemma heap_leaf i l : length l <= 2 * i + 1 -> heap_but (fun j => parent j = i) l -> heap_ok l.
Proof.
  intros Hl Hh j x y Hj _ Hx Hy. apply (Hh j); auto. intros Hp.
  apply parent_child in Hp; [|done]. apply lookup_lt_Some in Hx. lia.
Qed.

(** The child the loop of [down] picks. *)
Definition least_child (l : list E) (i m : nat) (b : E) : Prop :=
  0 < m /\ parent m = i /\ l !! m = Some b /\ forall c x, 0 < c -> parent c = i -> l !! c = Some x -> le b x.

Lemma pick_child l i cl :
  l !! (2 * i + 1) = Some cl ->
  exists m b, (if 2 * i + 2 <? length l
     then cr ← l !! (2 * i + 2); Some (if (ord cr cl <? 0)%Z then 2 * i + 2 else 2 * i + 1)
     else Some (2 * i + 1)) = Some m /\ least_child l i m b.
Proof.
  intros Hcl. assert (forall m, m = 2 * i + 1 \/ m = 2 * i + 2 -> 0 < m /\ parent m = i) as Hc.
  { intros m Hm. split; [lia|]. apply parent_child; lia. }
  assert (forall c x b, 0 < c -> parent c = i -> l !! c = Some x -> le b cl ->
    (forall cr, l !! (2 * i + 2) = Some cr -> le b cr) -> le b x) as Hall.
  { intros c x b Hc0 Hp Hx Hbl Hbr. apply parent_child in Hp as [->|Hp]; [congruence| |done]. rewrite Hp in Hx. auto. }
  destruct (Nat.ltb_spec (2 * i + 2) (length l)) as [Hr|Hr].
  - destruct (lookup_lt_is_Some_2 l (2 * i + 2) Hr) as [cr Hcr]. rewrite Hcr. cbn [mbind option_bind].
    destruct (Z.ltb_spec (ord cr cl) 0) as [Hlt|Hge].
    + exists (2 * i + 2), cr. split; [done|]. destruct (Hc (2 * i + 2)) as [H0 Hp]; [lia|]. split_and!; [done..|].
      intros c x H1 H2 H3. apply (Hall c x cr); auto; [unfold le; lia|]. intros cr' Ec. rewrite Hcr in Ec.
      simplify_eq. apply le_refl.
    + exists (2 * i + 1), cl. split; [done|]. destruct (Hc (2 * i + 1)) as [H0 Hp]; [lia|]. split_and!; [done..|].
      intros c x H1 H2 H3. apply (Hall c x cl); auto; [apply le_refl|]. intros cr' Ec. rewrite Hcr in Ec.
      simplify_eq. unfold le. pose proof (cmp_sym cr' cl). lia.
  - exists (2 * i + 1), cl. split; [done|]. destruct (Hc (2 * i + 1)) as [H0 Hp]; [lia|]. split_and!; [done..|].
    intros c x H1 H2 H3. apply (Hall c x cl); auto; [apply le_refl|]. intros cr' Ec.
    apply lookup_lt_Some in Ec. lia.
Qed.

(** One round of [down]: the child comes up, the hole goes to its place. *)
Lemma sink_step l i m a b :
  l !! i = Some a -> least_child l i m b -> (0 < ord a b)%Z ->
  heap_but (fun j => parent j = i) l -> grand_ok i l ->
  heap_but (fun j => parent j = m) (swap l i m a b) /\ grand_ok m (swap l i m a b).
Proof.
  intros Ha (Hm & Hpm & Hb & Hleast) Hab Hh Hg.
  assert (le b a) as Hba by (unfold le; pose proof (cmp_sym a b); lia).
  pose proof (parent_lt m Hm). pose proof (lookup_lt_Some _ _ _ Ha). pose proof (lookup_lt_Some _ _ _ Hb).
  split.
  - intros j x y Hj Hne. pose proof (parent_lt j Hj). rewrite !swap_lookup by lia.
    rewrite (decide_False (P := parent j = m)) by done.
    destruct (decide (j = i)) as [Eji|Hji].
    + rewrite (decide_False (P := parent j = i)) by lia. intros [= <-] Hy.
      apply (Hg m b y); auto; [lia|congruence].
    + destruct (decide (j = m)) as [Ejm|Hjm].
      * rewrite (decide_True (P := parent j = i)) by congruence. intros [= <-] [= <-]. exact Hba.
      * destruct (decide (parent j = i)) as [Hp|Hp]; intros Hx.
        -- intros [= <-]. by apply (Hleast j).
        -- apply (Hh j); auto.
  - intros c x y Hm0 Hc Hpc. pose proof (parent_lt c Hc). rewrite !swap_lookup by lia.
    rewrite (decide_False (P := c = i)), (decide_False (P := c = m)), decide_True by lia.
    intros Hx [= <-]. apply (Hh c); auto; [lia|congruence].
Qed.

Lemma down_ok fuel i l :
  length l - i < fuel -> i < length l -> heap_but (fun j => parent j = i) l -> grand_ok i l ->
  exists l', down ord fuel i l = Some l' /\ l' ≡ₚ l /\ heap_ok l'.
Proof.
  revert i l. induction fuel as [|fuel IH]; intros i l Hf Hi Hh Hg; [lia|]. cbn [down].
  destruct (Nat.leb_spec (length l) (2 * i + 1)) as [Hleaf|Hin].
  { exists l. split; [done|]. split; [done|]. by apply (heap_leaf i). }
  destruct (lookup_lt_is_Some_2 l (2 * i + 1) Hin) as [cl Hcl]. rewrite Hcl. cbn [mbind option_bind].
  destruct (pick_child l i cl Hcl) as (m & b & Hpick & Hleast). cbn [mbind option_bind] in Hpick.
  rewrite Hpick. destruct (lookup_lt_is_Some_2 l i Hi) as [a Ha]. rewrite Ha. cbn [mbind option_bind].
  pose proof Hleast as (Hm & Hpm & Hb & Hmin). rewrite Hb. cbn [mbind option_bind].
  destruct (Z.leb_spec (ord a b) 0) as [Hle|Hlt].
  - exists l. split; [done|]. split; [done|]. intros j x y Hj _ Hx Hy.
    destruct (decide (parent j = i)) as [Hp|Hp]; [|by apply (Hh j)].
    assert (y = a) as -> by congruence. eapply le_trans; [exact Hle|]. by apply (Hmin j).
  - destruct (sink_step l i m a b Ha Hleast Hlt Hh Hg) as [Hh' Hg'].
    pose proof (parent_lt m Hm). pose proof (lookup_lt_Some _ _ _ Hb). pose proof (length_swap l i m a b).
    destruct (IH m (swap l i m a b)) as (l' & -> & Hp & Hok); [lia|lia|done|done|].
    exists l'. split; [done|]. split; [|done]. rewrite Hp. by apply swap_Permutation.
Qed.

Lemma root_least l r i x : heap_ok l -> l !! 0 = Some r -> l !! i = Some x -> le r x.
Proof.
  intros Hh Hr. revert x. induction (lt_wf i) as [i _ IH]. intros x Hx.
  destruct (decide (i = 0)) as [->|Hi]; [assert (r = x) as -> by congruence; apply le_refl|].
  pose proof (parent_lt i ltac:(lia)) as Hp. pose proof (lookup_lt_Some _ _ _ Hx).
  destruct (lookup_lt_is_Some_2 l (parent i) ltac:(lia)) as [y Hy].
  eapply le_trans; [by apply (IH (parent i))|]. apply (Hh i); auto. lia.
Qed.

End Spec.

(** ** The operations of a heap *)

Section Operations.
Context {E : Type} (c : E -> E -> Z) `{!Comparison c} (max : bool).
Local Abbreviation ord := (order c max).

(** A heap of this comparison and kind, in order. *)
Definition valid (h : Heap E) : Prop := cmp h = c /\ maxHeap h = max /\ heap_ok ord (data h).

Lemma New_valid : valid (New c max).
Proof. split; [done|]. split; [done|]. intros i x y _ _ H. cbn in H. by rewrite lookup_nil in H. Qed.

Lemma Push_valid e h :
  valid h -> exists h', Push e h = Some h' /\ valid h' /\ data h' ≡ₚ e :: data h.
Proof.
  intros (Hc & Hm & Hok). unfold Push. cbn [with_data data cmp maxHeap].
  set (l := data h ++ [e]). assert (length l = S (length (data h))) as Hlen by (unfold l; rewrite length_app; cbn; lia).
  destruct (up_ok ord (S (length l - 1)) (length l - 1) l) as (l' & Hl' & Hp & Hh); [lia|lia| | |].
  - intros i x y Hi Hne Hx Hy. pose proof (parent_lt i Hi). pose proof (lookup_lt_Some _ _ _ Hx).
    unfold l in Hx, Hy. rewrite lookup_app_l in Hx by lia. rewrite lookup_app_l in Hy by lia.
    apply (Hok i); auto.
  - intros j x y H0 Hj Hp Hx. pose proof (parent_lt j Hj). apply lookup_lt_Some in Hx. lia.
  - exists (with_data l' h). split.
    + unfold upMaxHeap, upMinHeap. cbn [with_data data cmp]. rewrite Hc, Hm.
      destruct max; rewrite Hl'; reflexivity.
    + split; [by split_and!|]. cbn. rewrite Hp. unfold l. by rewrite Permutation_app_comm.
Qed.

(** [Pop] takes an element no other precedes. *)
Lemma Pop_valid h :
  valid h ->
  match data h with
  | [] => Pop h = Some (None, h)
  | d :: _ => exists h', Pop h = Some (Some d, h') /\ valid h' /\ data h ≡ₚ d :: data h' /\
                Forall (le ord d) (data h')
  end.
Proof.
  intros (Hc & Hm & Hok). unfold Pop. destruct (data h) as [|d l] eqn:Ed; [done|].
  assert (Forall (le ord d) l) as Hroot.
  { apply Forall_lookup. intros i x Hx. apply (root_least ord (d :: l) d (S i) x); auto. }
  destruct (Nat.ltb_spec 1 (length (d :: l))) as [Hn|Hn].
  2: { destruct l as [|]; [|cbn in Hn; lia]. eexists. split; [done|]. split; [split_and!; [done|done|]|done].
       intros i x y _ _ H. cbn in H. by rewrite lookup_nil in H. }
  destruct l as [|e l0] eqn:El using rev_ind; [cbn in Hn; lia|]. clear IHl0.
  set (k := d :: l0). assert (last (d :: l0 ++ [e]) = Some e) as -> by (rewrite app_comm_cons; apply last_snoc).
  cbn [mbind option_bind].
  assert (take (length (d :: l0 ++ [e]) - 1) (<[0:=e]> (d :: l0 ++ [e])) = e :: l0) as ->.
  { cbn. rewrite length_app. cbn. replace (length l0 + 1 - 0) with (S (length l0)) by lia. cbn. by rewrite take_app_length. }
  destruct (down_ok ord (S (length (e :: l0))) 0 (e :: l0)) as (l' & Hl' & Hp & Hh); [lia|cbn; lia| |intros ? ? ? ?; lia|].
  - intros i x y Hi Hne Hx Hy. destruct i as [|i]; [lia|]. destruct (parent (S i)) as [|p] eqn:Epar; [done|].
    change (l0 !! i = Some x) in Hx. change (l0 !! p = Some y) in Hy.
    apply (Hok (S i) x y); [lia|by intros []| |rewrite Epar].
    + change ((l0 ++ [e]) !! i = Some x). rewrite lookup_app_l; [done|by eapply lookup_lt_Some].
    + change ((l0 ++ [e]) !! p = Some y). rewrite lookup_app_l; [done|by eapply lookup_lt_Some].
  - exists (with_data l' h). split.
    + unfold downMaxHeap, downMinHeap. cbn [with_data data cmp maxHeap]. rewrite Hc, Hm.
      destruct max; rewrite Hl'; reflexivity.
    + split; [by split_and!|]. cbn. split.
      * rewrite Hp. by rewrite <- Permutation_cons_append.
      * rewrite Hp. by rewrite <- Permutation_cons_append in Hroot.
Qed.

Lemma push_all_valid l h :
  valid h -> exists h', push_all l h = Some h' /\ valid h' /\ data h' ≡ₚ l ++ data h.
Proof.
  revert h. induction l as [|e l IH]; intros h Hv; cbn [push_all]; [eauto|].
  destruct (Push_valid e h Hv) as (h1 & -> & Hv1 & Hp1). cbn [mbind option_bind].
  destruct (IH h1 Hv1) as (h2 & -> & Hv2 & Hp2). exists h2. split; [done|]. split; [done|].
  rewrite Hp2, Hp1. symmetry. apply Permutation_middle.
Qed.

Lemma Clone_valid h : valid h -> exists h', Clone h = Some h' /\ valid h' /\ data h' ≡ₚ data h.
Proof.
  intros (Hc & Hm & _). unfold Clone. rewrite Hc, Hm.
  destruct (push_all_valid (data h) (New c max) New_valid) as (h' & -> & Hv & Hp).
  exists h'. split; [done|]. split; [done|]. by rewrite Hp, app_nil_r.
Qed.

Lemma pop_all_sorted fuel h :
  valid h -> length (data h) <= fuel ->
  exists vs, pop_all fuel h = Some vs /\ vs ≡ₚ data h /\ StronglySorted (le ord) vs.
Proof.
  revert h. induction fuel as [|fuel IH]; intros h Hv Hl; pose proof (Pop_valid h Hv) as Hpop;
    cbn [pop_all]; unfold IsEmpty.
  - destruct (data h); [|cbn in Hl; lia]. cbn. eexists. split; [done|]. split; [done|constructor].
  - destruct (data h) as [|d l] eqn:Ed; cbn.
    { eexists. split; [done|]. split; [done|constructor]. }
    destruct Hpop as (h1 & -> & Hv1 & Hp1 & Hle). cbn.
    destruct (IH h1 Hv1) as (vs & -> & Hp & Hs).
    { apply Permutation_length in Hp1. cbn in *. lia. }
    cbn. eexists. split; [done|]. split; [by rewrite Hp, Hp1|]. constructor; [done|]. by rewrite Hp.
Qed.

Lemma Values_sorted h :
  valid h -> exists vs, Values h = Some vs /\ vs ≡ₚ data h /\ StronglySorted (le ord) vs.
Proof.
  intros Hv. unfold Values. destruct (Clone_valid h Hv) as (h' & -> & Hv' & Hp). cbn.
  destruct (pop_all_sorted (length (data h)) h' Hv') as (vs & -> & Hpv & Hs).
  { by rewrite Hp. }
  exists vs. split; [done|]. split; [by rewrite Hpv|done].
Qed.

End Operations.

(** ** What they promise *)

(** A heap is the multiset of what was pushed, and gives it back in order:
    on every heap the package builds no operation leaves the slice, [Push]
    and [Pop] keep heap order and add and take one element, [Peek] and [Pop]
    answer an element none precedes, [Values] is everything in order, [Clone]
    holds the same, and a heap built from a slice holds the slice. *)
Lemma heap_refines_multiset {E} (c : E -> E -> Z) `{!Comparison c} max h slice :
  valid c max h ->
  (forall e, exists h', Push e h = Some h' /\ valid c max h' /\ data h' ≡ₚ e :: data h) /\
  match Pop h with
  | Some (None, h') => data h = [] /\ h' = h /\ Peek h = None
  | Some (Some d, h') => valid c max h' /\ data h ≡ₚ d :: data h' /\ Peek h = Some d /\
                         Forall (fun x => (order c max d x <= 0)%Z) (data h)
  | None => False
  end /\
  (exists vs, Values h = Some vs /\ vs ≡ₚ data h /\ StronglySorted (fun x y => (order c max x y <= 0)%Z) vs) /\
  (exists h', Clone h = Some h' /\ valid c max h' /\ data h' ≡ₚ data h) /\
  (exists h', NewFromSlice slice c max = Some h' /\ valid c max h' /\ data h' ≡ₚ slice).
Proof.
  intros Hv. split; [intros e; by apply Push_valid|]. split.
  { pose proof (Pop_valid c max h Hv) as Hp. unfold Peek. destruct (data h) as [|d l] eqn:Ed.
    - rewrite Hp. done.
    - destruct Hp as (h' & -> & Hv' & Hp & Hf). split_and!; [done|done|done|].
      rewrite Hp. constructor; [apply (le_refl (order c max))|done]. }
  split; [by apply Values_sorted|]. split; [by apply Clone_valid|].
  destruct (push_all_valid c max slice (New c max) (New_valid c max)) as (h' & Hh & Hv' & Hp).
  exists h'. split; [done|]. split; [done|]. by rewrite Hp, app_nil_r.
Qed.

Lemma heap_refines_multiset_witness :
  exists vs, Values (mkHeap [1; 3; 2] compareZ false)%Z = Some vs /\ vs ≡ₚ [1; 3; 2]%Z /\
    StronglySorted (fun x y => (order compareZ false x y <= 0)%Z) vs.
Proof.
  apply (heap_refines_multiset compareZ false (mkHeap [1; 3; 2]%Z compareZ false) []).
  split; [done|]. split; [done|]. intros i x y Hi _ Hx Hy.
  destruct i as [|[|[|i]]]; [lia| | |]; vm_compute in Hx, Hy; simplify_eq; vm_compute; congruence.
Defined.

Section QueueSpec.
Import PriorityQueue.
Context {E : Type} (c : E -> E -> Z) `{!Comparison c}.

(** A queue of this comparison and priority. *)
Definition queue_valid (max : bool) (q : Queue E) : Prop :=
  qcmp q = c /\ maxPriority q = max /\ valid c max (heap q).

(** Who comes out of a queue first. *)
Definition first_out (max : bool) (q : Queue E) : Prop :=
  forall e q', Dequeue q = Some (Some e, q') -> Forall (fun x => (order c max e x <= 0)%Z) (data (heap q)).

Lemma queue_first_out max q : queue_valid max q -> first_out max q.
Proof.
  intros (_ & _ & Hv) e q'. unfold Dequeue. pose proof (Pop_valid c max (heap q) Hv) as Hp.
  destruct (data (heap q)) as [|d l]; [rewrite Hp; done|].
  destruct Hp as (h' & -> & _ & Hperm & Hf). cbn. intros [= -> _].
  rewrite Hperm. constructor; [apply (le_refl (order c max))|done].
Qed.

(** A copy of a priority queue holds what the queue holds, but is always a
    queue of the lowest: [Clone] passes on the mutex option and not
    [WithMaxPriority], so a copy of a queue that serves its highest element
    first serves its lowest first. *)
Lemma queue_Clone_forgets_max q :
  queue_valid true q ->
  first_out true q /\
  exists q', PriorityQueue.Clone q = Some q' /\ data (heap q') ≡ₚ data (heap q) /\ queue_valid false q' /\ first_out false q'.
Proof.
  intros Hq. split; [by apply queue_first_out|]. destruct Hq as (Hc & _ & Hv).
  unfold PriorityQueue.Clone, PriorityQueue.Values. destruct (Values_sorted c true (heap q) Hv) as (vs & -> & Hp & _).
  cbn [mbind option_bind]. change (heap (PriorityQueue.New (qcmp q) (clone_options q))) with (BinaryHeap.New (qcmp q) false).
  destruct (push_all_valid c false vs (BinaryHeap.New c false) (New_valid c false)) as (h & Hh & Hv' & Hp').
  rewrite Hc, Hh. cbn [mbind option_bind]. exists (with_heap h (PriorityQueue.New c false)).
  assert (queue_valid false (with_heap h (PriorityQueue.New c false))) as Hq' by done.
  split; [done|]. cbn. split; [by rewrite Hp', app_nil_r|]. split; [done|]. by apply queue_first_out.
Qed.
End QueueSpec.

Lemma queue_Clone_forgets_max_witness :
  let q := PriorityQueue.mkQueue (mkHeap [9; 3; 2]%Z compareZ true) compareZ true in
  (exists q', PriorityQueue.Clone q = Some q' /\ data (PriorityQueue.heap q') ≡ₚ [9; 3; 2]%Z /\ queue_valid compareZ false q' /\
     first_out compareZ false q') /\
  (PriorityQueue.drain 3 q = Some [9; 3; 2])%Z /\
  (q' ← PriorityQueue.Clone q; PriorityQueue.drain 3 q') = Some [2; 3; 9]%Z.
Proof.
  split; [|split; vm_compute; reflexivity].
  refine (proj2 (queue_Clone_forgets_max compareZ
    (PriorityQueue.mkQueue (mkHeap [9; 3; 2]%Z compareZ true) compareZ true) _)).
  split; [done|]. split; [done|]. split; [done|]. split; [done|]. intros i x y Hi _ Hx Hy.
  destruct i as [|[|[|i]]]; [lia| | |]; vm_compute in Hx, Hy; simplify_eq; vm_compute; congruence.
Defined.
