(* ===== verification/CircularBuffer.v ===== *)
(** * The circular buffer

    Models [ds/queue/circularbuffer]: a slice allocated on the first
    enqueue, two indices into it and a count.  [None] is an index out of
    range.  [contents] is the sequence it stands for, and the theorem that
    every operation acts on it as on a sequence of bounded length.  The
    mutex of a safe buffer is left out. *)

From stdpp Require Import base list.
From Stdlib Require Import ZArith Lia.
From S2P Require Import Prelude.
Local Open Scope nat_scope.

Section Buffer.
Context {E : Type} (zero : E).

Record CircularBuffer : Type := mkBuffer {
  buf : option (list E);  (* nil until something is enqueued *)
  head : nat; tail : nat; size : nat; maxSize : nat; drop_ : bool }.

Inductive new_error : Set := ErrSize.

Definition New (size : Z) (drop : bool) : result new_error CircularBuffer :=
  if (size <=? 0)%Z then Err ErrSize else Ok (mkBuffer None 0 0 0 (Z.to_nat size) drop).

Definition Enqueue (e : E) (cb : CircularBuffer) : option (bool * CircularBuffer) :=
  let b := match buf cb with None => replicate (maxSize cb) zero | Some b => b end in
  let full := size cb =? maxSize cb in
  if full && drop_ cb then Some (false, mkBuffer (Some b) (head cb) (tail cb) (size cb) (maxSize cb) (drop_ cb))
  else
    let head' := if full then (head cb + 1) mod maxSize cb else head cb in
    let size' := if full then size cb else size cb + 1 in
    if tail cb <? length b
    then Some (true, mkBuffer (Some (<[tail cb := e]> b)) head' ((tail cb + 1) mod maxSize cb) size' (maxSize cb) (drop_ cb))
    else None.

(** The slice, nil being empty. *)
Definition slice (cb : CircularBuffer) : list E := default [] (buf cb).

Definition Dequeue (cb : CircularBuffer) : option (option E * CircularBuffer) :=
  if size cb =? 0 then Some (None, cb)
  else
    d ← slice cb !! head cb;
    Some (Some d, mkBuffer (Some (<[head cb := zero]> (slice cb))) ((head cb + 1) mod maxSize cb) (tail cb)
                    (size cb - 1) (maxSize cb) (drop_ cb)).

Definition Peek (cb : CircularBuffer) : option (option E) :=
  if size cb =? 0 then Some None else d ← slice cb !! head cb; Some (Some d).

Definition IsEmpty (cb : CircularBuffer) : bool := size cb =? 0.
Definition IsFull (cb : CircularBuffer) : bool := size cb =? maxSize cb.
Definition Len (cb : CircularBuffer) : Z := Z.of_nat (size cb).

Definition Clear (cb : CircularBuffer) : CircularBuffer :=
  if size cb =? 0 then cb
  else mkBuffer ((fun b => replicate (length b) zero) <$> buf cb) 0 0 0 (maxSize cb) (drop_ cb).

(** [Slice]: one copy, or two where the sequence wraps. *)
Definition Slice (cb : CircularBuffer) : list E :=
  if size cb =? 0 then []
  else if head cb =? tail cb then take (size cb) (drop (head cb) (slice cb) ++ take (tail cb) (slice cb))
  else if head cb <? tail cb then take (size cb) (drop (head cb) (take (tail cb) (slice cb)))
  else take (size cb) (drop (head cb) (slice cb) ++ take (tail cb) (slice cb)).

(** The loop of [Clone] and [Range]: [n] elements from index [idx]. *)
Fixpoint walk (b : list E) (n idx : nat) : option (list E) :=
  match n with
  | 0 => Some []
  | S n => e ← b !! idx; rest ← walk b n ((idx + 1) mod length b); Some (e :: rest)
  end.

Fixpoint enqueue_all (l : list E) (cb : CircularBuffer) : option CircularBuffer :=
  match l with
  | [] => Some cb
  | e :: l => '(_, cb) ← Enqueue e cb; enqueue_all l cb
  end.

Definition Clone (cb : CircularBuffer) : option CircularBuffer :=
  l ← walk (slice cb) (size cb) (head cb);
  enqueue_all l (mkBuffer None 0 0 0 (maxSize cb) (drop_ cb)).

Definition NewFromSlice (s : list E) (drop : bool) : option (result new_error CircularBuffer) :=
  match New (Z.of_nat (length s)) drop with
  | Err e => Some (Err e)
  | Ok cb => cb ← enqueue_all s cb; Some (Ok cb)
  end.

(** The elements [Range] calls [fn] with. *)
Fixpoint range_walk (fn : E -> bool) (b : list E) (n idx : nat) : option (list E) :=
  match n with
  | 0 => Some []
  | S n => e ← b !! idx;
           if fn e then rest ← range_walk fn b n ((idx + 1) mod length b); Some (e :: rest) else Some [e]
  end.

Definition Range (fn : E -> bool) (cb : CircularBuffer) : option (list E) :=
  range_walk fn (slice cb) (size cb) (head cb).

(** ** The sequence *)

(** The cell [i] places after the first. *)
Definition cell (cb : CircularBuffer) (i : nat) : option E := slice cb !! ((head cb + i) mod maxSize cb).

Definition contents (cb : CircularBuffer) : list E := omap (cell cb) (seq 0 (size cb)).

Record valid (cb : CircularBuffer) : Prop := {
  v_max : 0 < maxSize cb;
  v_size : size cb <= maxSize cb;
  v_head : head cb < maxSize cb;
  v_tail : tail cb = (head cb + size cb) mod maxSize cb;
  v_buf : match buf cb with
          | None => head cb = 0 /\ size cb = 0
          | Some b => length b = maxSize cb
          end }.

Lemma mod_wrap a m : a < 2 * m -> a mod m = if a <? m then a else a - m.
Proof.
  intros H. destruct (Nat.ltb_spec a m); [by apply Nat.mod_small|].
  symmetry. apply (Nat.mod_unique a m 1); lia.
Qed.

Lemma cell_some cb i : valid cb -> i < size cb -> is_Some (cell cb i).
Proof.
  intros [Hm Hs Hh Ht Hb] Hi. unfold cell, slice. destruct (buf cb) as [b|]; [|lia].
  apply lookup_lt_is_Some_2. cbn. rewrite Hb. apply Nat.mod_upper_bound. lia.
Qed.

Lemma omap_seq_lookup (f : nat -> option E) n k i :
  (forall j, j < n -> is_Some (f (k + j))) -> omap f (seq k n) !! i = if i <? n then f (k + i) else None.
Proof.
  revert k i. induction n as [|n IH]; intros k i Hf; [done|]. cbn.
  destruct (Hf 0 ltac:(lia)) as [x Hx]. rewrite Nat.add_0_r in Hx. rewrite Hx.
  destruct i as [|i]; [cbn; by rewrite Nat.add_0_r|]. cbn [lookup list_lookup]. rewrite IH.
  - replace (S k + i) with (k + S i) by lia.
    change (S i <? S n) with (S i <=? n). destruct (Nat.ltb_spec i n), (Nat.leb_spec (S i) n); try lia; done.
  - intros j Hj. replace (S k + j) with (k + S j) by lia. apply Hf. lia.
Qed.

Lemma contents_lookup cb i : valid cb -> contents cb !! i = if i <? size cb then cell cb i else None.
Proof. intros Hv. apply omap_seq_lookup. intros j Hj. by apply cell_some. Qed.

Lemma contents_length cb : valid cb -> length (contents cb) = size cb.
Proof.
  intros Hv. assert (forall i, is_Some (contents cb !! i) <-> i < size cb) as Hl.
  { intros i. rewrite contents_lookup by done. destruct (Nat.ltb_spec i (size cb)) as [Hi|Hi].
    - split; [done|]. intros _. by apply cell_some.
    - split; [by intros [? ?]|lia]. }
  apply Nat.le_antisymm.
  - destruct (decide (length (contents cb) <= size cb)); [done|].
    pose proof (proj1 (Hl (size cb)) ltac:(apply lookup_lt_is_Some_2; lia)). lia.
  - destruct (decide (size cb <= length (contents cb))); [done|].
    pose proof (proj2 (Hl (length (contents cb))) ltac:(lia)) as [x Hx]. apply lookup_lt_Some in Hx. lia.
Qed.

(** Two sequences with one length and the same elements. *)
Lemma contents_eq cb l :
  valid cb -> length l = size cb -> (forall i, i < size cb -> cell cb i = l !! i) -> contents cb = l.
Proof.
  intros Hv Hl Hc. apply list_eq. intros i. rewrite contents_lookup by done.
  destruct (Nat.ltb_spec i (size cb)); [auto|]. symmetry. apply lookup_ge_None_2. lia.
Qed.

Lemma buffer_New_valid n drop cb : New n drop = Ok cb -> valid cb /\ contents cb = [] /\ Z.of_nat (maxSize cb) = n.
Proof.
  unfold New. destruct (Z.leb_spec n 0); intros E1; simplify_eq. split; [|split; [done|cbn; lia]].
  split; cbn; try lia; try done; rewrite Nat.mod_small; lia.
Qed.

(** The buffer, allocated. *)
Definition allocated (cb : CircularBuffer) : list E :=
  match buf cb with None => replicate (maxSize cb) zero | Some b => b end.

Lemma allocated_length cb : valid cb -> length (allocated cb) = maxSize cb.
Proof. intros [_ _ _ _ Hb]. unfold allocated. destruct (buf cb); [done|]. by rewrite length_replicate. Qed.

Lemma allocated_cell cb i : valid cb -> i < size cb -> allocated cb !! ((head cb + i) mod maxSize cb) = cell cb i.
Proof.
  intros [_ _ _ _ Hb] Hi. unfold allocated, cell, slice. destruct (buf cb); [done|]. lia.
Qed.

Lemma Enqueue_spec e cb :
  valid cb ->
  exists b cb', Enqueue e cb = Some (b, cb') /\ valid cb' /\ maxSize cb' = maxSize cb /\ drop_ cb' = drop_ cb /\
    (b, contents cb') =
      if size cb =? maxSize cb
      then if drop_ cb then (false, contents cb) else (true, drop 1 (contents cb) ++ [e])
      else (true, contents cb ++ [e]).
Proof.
  intros Hv. pose proof (allocated_length cb Hv) as Ha. pose proof (contents_length cb Hv) as Hlen.
  pose proof (allocated_cell cb) as Hcell. pose proof Hv as [Hm Hs Hh Ht Hb]. unfold Enqueue.
  fold (allocated cb). destruct (Nat.eqb_spec (size cb) (maxSize cb)) as [Hfull|Hfull]; cbn [andb].
  - assert (tail cb = head cb) as Hth by (rewrite Ht, mod_wrap by lia; case_cmp).
    destruct (drop_ cb) eqn:Ed.
    + eexists false, _. split; [done|]. split; [by split|]. split; [done|]. split; [done|]. f_equal.
      apply contents_eq; [by split|done|]. intros i Hi. cbn in Hi. rewrite contents_lookup by done.
      destruct (Nat.ltb_spec i (size cb)); [|lia]. unfold cell at 1, slice. cbn. by apply Hcell.
    + destruct (Nat.ltb_spec (tail cb) (length (allocated cb))) as [_|]; [|lia].
      pose proof (mod_wrap (head cb + 1) (maxSize cb) ltac:(lia)) as Hw.
      eexists true, _. split; [done|]. match goal with |- valid ?c /\ _ => assert (valid c) as Hv' end.
      { split; cbn; rewrite ?length_insert; try done; try lia.
        - apply Nat.mod_upper_bound. lia.
        - rewrite Hth, Hw. rewrite mod_wrap by (case_cmp). case_cmp. }
      split; [done|]. split; [done|]. split; [done|]. f_equal. apply contents_eq; [done| |].
      * rewrite length_app, length_drop. cbn. lia.
      * cbn. intros i Hi. unfold cell, slice. cbn. rewrite Nat.Div0.add_mod_idemp_l, <- Nat.add_assoc.
        rewrite (mod_wrap (head cb + (1 + i))) by lia. rewrite Hth.
        destruct (decide (i = size cb - 1)) as [->|Hi'].
        -- rewrite lookup_app_r by (rewrite length_drop; lia). rewrite length_drop, Hlen, Nat.sub_diag.
           destruct (Nat.ltb_spec (head cb + (1 + (size cb - 1))) (maxSize cb)); [lia|].
           replace (head cb + (1 + (size cb - 1)) - maxSize cb) with (head cb) by lia.
           apply list_lookup_insert_eq. lia.
        -- rewrite lookup_app_l by (rewrite length_drop; lia). rewrite lookup_drop, contents_lookup by done.
           destruct (Nat.ltb_spec (1 + i) (size cb)); [|lia]. rewrite <- Hcell by (done || lia).
           rewrite (mod_wrap (head cb + (1 + i))) by lia.
           apply list_lookup_insert_ne. case_cmp.
  - destruct (Nat.ltb_spec (tail cb) (length (allocated cb))) as [_|Hge].
    2: { rewrite Ha, Ht in Hge. pose proof (Nat.mod_upper_bound (head cb + size cb) (maxSize cb)). lia. }
    rewrite (mod_wrap (head cb + size cb)) in Ht by lia.
    eexists true, _. split; [done|]. match goal with |- valid ?c /\ _ => assert (valid c) as Hv' end.
    { split; cbn; rewrite ?length_insert; try done; try lia.
      rewrite Ht, mod_wrap by (case_cmp). rewrite mod_wrap by lia. case_cmp. }
    split; [done|]. split; [done|]. split; [done|]. f_equal. apply contents_eq; [done| |].
    + rewrite length_app. cbn. lia.
    + cbn. intros i Hi. unfold cell, slice. cbn. rewrite (mod_wrap (head cb + i)) by lia.
      destruct (decide (i = size cb)) as [->|Hi'].
      * rewrite lookup_app_r by lia. rewrite Hlen, Nat.sub_diag. rewrite <- Ht.
        apply list_lookup_insert_eq. rewrite Ht. case_cmp.
      * rewrite lookup_app_l by lia. rewrite contents_lookup by done.
        destruct (Nat.ltb_spec i (size cb)); [|lia]. rewrite <- Hcell by (done || lia).
        rewrite (mod_wrap (head cb + i)) by lia. apply list_lookup_insert_ne. rewrite Ht. case_cmp.
Qed.

Lemma Dequeue_spec cb :
  valid cb ->
  match contents cb with
  | [] => Dequeue cb = Some (None, cb)
  | d :: rest => exists cb', Dequeue cb = Some (Some d, cb') /\ valid cb' /\ contents cb' = rest /\
                   maxSize cb' = maxSize cb
  end.
Proof.
  intros Hv. pose proof (contents_length cb Hv) as Hlen. pose proof (contents_lookup cb 0 Hv) as H0.
  pose proof Hv as [Hm Hs Hh Ht Hb]. unfold Dequeue.
  destruct (contents cb) as [|d rest] eqn:Ec; cbn in Hlen.
  { destruct (Nat.eqb_spec (size cb) 0); [done|lia]. }
  destruct (Nat.eqb_spec (size cb) 0); [lia|]. destruct (Nat.ltb_spec 0 (size cb)); [|lia]. cbn in H0.
  unfold cell in H0. rewrite Nat.add_0_r, Nat.mod_small in H0 by done. rewrite <- H0. cbn [mbind option_bind].
  destruct (buf cb) as [b|] eqn:Eb; [|lia]. assert (slice cb = b) as Esl by (unfold slice; by rewrite Eb).
  eexists. split; [done|]. match goal with |- valid ?c /\ _ => assert (valid c) as Hv' end.
  { split; cbn; try done; try lia.
    - apply Nat.mod_upper_bound. lia.
    - rewrite Ht, Nat.Div0.add_mod_idemp_l. f_equal. lia.
    - rewrite length_insert. by rewrite Esl. }
  split; [done|]. split; [|done]. apply contents_eq; [done|cbn; lia|].
  cbn. intros i Hi. unfold cell, slice. cbn. rewrite Nat.Div0.add_mod_idemp_l, <- Nat.add_assoc.
  transitivity (cell cb (1 + i)).
  - unfold cell. rewrite (mod_wrap (head cb + (1 + i))) by lia. apply list_lookup_insert_ne. case_cmp.
  - pose proof (contents_lookup cb (1 + i) Hv) as E1. rewrite Ec in E1.
    destruct (Nat.ltb_spec (1 + i) (size cb)); [|lia]. by rewrite <- E1.
Qed.

Lemma Peek_spec cb : valid cb -> Peek cb = Some (hd_error (contents cb)).
Proof.
  intros Hv. pose proof (Dequeue_spec cb Hv) as Hd. unfold Peek, Dequeue in *.
  pose proof (contents_length cb Hv). destruct (contents cb) as [|d rest]; cbn in *.
  - by destruct (Nat.eqb_spec (size cb) 0); [|lia].
  - destruct (Nat.eqb_spec (size cb) 0); [lia|]. destruct Hd as (cb' & E1 & _).
    destruct (slice cb !! head cb); cbn in *; by simplify_eq.
Qed.

(** The elements from one index on, wrapping. *)
Lemma walk_spec b n idx :
  idx < length b ->
  exists l, walk b n idx = Some l /\ length l = n /\ forall i, i < n -> b !! ((idx + i) mod length b) = l !! i.
Proof.
  revert idx. induction n as [|n IH]; intros idx Hi; cbn.
  { eexists. split; [done|]. split; [done|]. lia. }
  destruct (lookup_lt_is_Some_2 b idx Hi) as [e He]. rewrite He. cbn.
  destruct (IH ((idx + 1) mod length b)) as (l & -> & Hl & Hw); [apply Nat.mod_upper_bound; lia|].
  cbn. eexists. split; [done|]. split; [cbn; lia|]. intros [|i] Hin; cbn.
  - rewrite Nat.add_0_r, Nat.mod_small; done.
  - rewrite <- Hw by lia. f_equal. rewrite Nat.Div0.add_mod_idemp_l. f_equal. lia.
Qed.

Lemma walk_contents cb : valid cb -> walk (slice cb) (size cb) (head cb) = Some (contents cb).
Proof.
  intros Hv. pose proof Hv as [Hm Hs Hh Ht Hb]. unfold slice. destruct (buf cb) as [b|] eqn:Eb.
  - destruct (walk_spec b (size cb) (head cb)) as (l & Hw & Hl & Hc); [cbn in *; lia|].
    cbn in Hb. cbn. rewrite Hw. f_equal. symmetry. apply contents_eq; [done|done|]. intros i Hi.
    rewrite <- Hc by done. unfold cell, slice. by rewrite Eb, Hb.
  - destruct Hb as [_ Hz]. unfold contents. by rewrite Hz.
Qed.

Lemma Slice_contents cb : valid cb -> Slice cb = contents cb.
Proof.
  intros Hv. pose proof Hv as [Hm Hs Hh Ht Hb]. symmetry. unfold Slice.
  destruct (Nat.eqb_spec (size cb) 0) as [E1|E1]; [unfold contents; by rewrite E1|].
  destruct (buf cb) as [b|] eqn:Eb; [|lia]. assert (slice cb = b) as Esl by (unfold slice; by rewrite Eb).
  rewrite Esl. rewrite mod_wrap in Ht by lia.
  destruct (Nat.ltb_spec (head cb + size cb) (maxSize cb)) as [Hin|Hwrap].
  - destruct (Nat.eqb_spec (head cb) (tail cb)); [lia|].
    destruct (Nat.ltb_spec (head cb) (tail cb)); [|lia].
    apply contents_eq; [done|rewrite length_take, length_drop, length_take; lia|]. intros i Hi.
    rewrite lookup_take_lt, lookup_drop, lookup_take_lt by lia. unfold cell. rewrite Esl, Nat.mod_small; [done|lia].
  - assert (contents cb = take (size cb) (drop (head cb) b ++ take (tail cb) b)) as Hc.
    { apply contents_eq; [done|rewrite length_take, length_app, length_drop, length_take; lia|].
      intros i Hi. rewrite lookup_take_lt by done. unfold cell. rewrite Esl, mod_wrap by lia.
      destruct (Nat.ltb_spec (head cb + i) (maxSize cb)).
      - rewrite lookup_app_l by (rewrite length_drop; lia). by rewrite lookup_drop.
      - rewrite lookup_app_r by (rewrite length_drop; lia). rewrite length_drop, lookup_take_lt by lia. f_equal. lia. }
    destruct (Nat.eqb_spec (head cb) (tail cb)); [done|]. destruct (Nat.ltb_spec (head cb) (tail cb)); [lia|done].
Qed.

Lemma enqueue_all_spec l cb :
  valid cb -> size cb + length l <= maxSize cb ->
  exists cb', enqueue_all l cb = Some cb' /\ valid cb' /\ contents cb' = contents cb ++ l /\
    maxSize cb' = maxSize cb /\ drop_ cb' = drop_ cb.
Proof.
  revert cb. induction l as [|e l IH]; intros cb Hv Hl; cbn [enqueue_all].
  { exists cb. by rewrite app_nil_r. }
  cbn in Hl. destruct (Enqueue_spec e cb Hv) as (b & cb1 & -> & Hv1 & Hm1 & Hd1 & Hc1).
  destruct (Nat.eqb_spec (size cb) (maxSize cb)); [lia|]. injection Hc1 as -> Hc1. cbn [mbind option_bind].
  destruct (IH cb1 Hv1) as (cb2 & -> & Hv2 & Hc2 & Hm2 & Hd2).
  { pose proof (contents_length cb1 Hv1) as H1. pose proof (contents_length cb Hv).
    rewrite Hc1, length_app in H1. cbn in H1. lia. }
  exists cb2. split; [done|]. split; [done|]. rewrite Hc2, Hc1. rewrite <- app_assoc.
  split; [done|]. split; congruence.
Qed.

Lemma fresh_valid m d : 0 < m -> valid (mkBuffer None 0 0 0 m d) /\ contents (mkBuffer None 0 0 0 m d) = [].
Proof. intros Hm. split; [|done]. split; cbn; try lia; try done; rewrite Nat.mod_small; lia. Qed.

Lemma Clone_spec cb :
  valid cb -> exists cb', Clone cb = Some cb' /\ valid cb' /\ contents cb' = contents cb /\
    maxSize cb' = maxSize cb /\ drop_ cb' = drop_ cb.
Proof.
  intros Hv. unfold Clone. rewrite walk_contents by done. cbn [mbind option_bind].
  destruct (fresh_valid (maxSize cb) (drop_ cb) (v_max _ Hv)) as [Hf Hc].
  destruct (enqueue_all_spec (contents cb) _ Hf) as (cb' & E2 & Hv' & Hc' & Hm' & Hd').
  { cbn. rewrite contents_length by done. apply Hv. }
  exists cb'. rewrite Hc, app_nil_l in Hc'. done.
Qed.

Lemma Clear_spec cb : valid cb -> valid (Clear cb) /\ contents (Clear cb) = [] /\ maxSize (Clear cb) = maxSize cb.
Proof.
  intros Hv. unfold Clear. destruct (Nat.eqb_spec (size cb) 0) as [E1|E1].
  - split; [done|]. unfold contents. by rewrite E1.
  - split; [|done]. destruct Hv as [Hm Hs Hh Ht Hb]. split; cbn; try lia; [rewrite Nat.mod_small; lia|].
    destruct (buf cb) as [b|]; cbn; [by rewrite length_replicate|lia].
Qed.

Lemma range_walk_called fn b n idx l : walk b n idx = Some l -> range_walk fn b n idx = Some (called fn l).
Proof.
  revert idx l. induction n as [|n IH]; intros idx l; cbn; [by intros [= <-]|].
  destruct (b !! idx) as [e|]; [|done]. cbn. destruct (walk b n _) as [r|] eqn:Ew; cbn; intros E1; simplify_eq.
  cbn. destruct (fn e); [|done]. by rewrite (IH _ r Ew).
Qed.

(** A buffer built for a positive size is a sequence of at most that many
    elements: no operation leaves the slice, [Enqueue] appends and on a full
    buffer takes the place of the oldest element, or is refused when the
    buffer drops; [Dequeue] and [Peek] answer the oldest; [Slice], [Range]
    and [Clone] give the sequence and [Clear] empties it. *)
Lemma buffer_is_a_bounded_queue cb e fn :
  valid cb ->
  length (contents cb) <= maxSize cb /\
  (exists b cb', Enqueue e cb = Some (b, cb') /\ valid cb' /\ maxSize cb' = maxSize cb /\
     (b, contents cb') =
       if length (contents cb) =? maxSize cb
       then if drop_ cb then (false, contents cb) else (true, drop 1 (contents cb) ++ [e])
       else (true, contents cb ++ [e])) /\
  match contents cb with
  | [] => Dequeue cb = Some (None, cb)
  | d :: rest => exists cb', Dequeue cb = Some (Some d, cb') /\ valid cb' /\ contents cb' = rest
  end /\
  Peek cb = Some (hd_error (contents cb)) /\ Slice cb = contents cb /\
  Range fn cb = Some (called fn (contents cb)) /\
  (exists cb', Clone cb = Some cb' /\ valid cb' /\ contents cb' = contents cb /\ maxSize cb' = maxSize cb) /\
  (valid (Clear cb) /\ contents (Clear cb) = []).
Proof.
  intros Hv. split; [rewrite contents_length by done; apply Hv|]. rewrite contents_length by done. split.
  { destruct (Enqueue_spec e cb Hv) as (b & cb' & ? & ? & ? & ? & ?). eauto 10. }
  split.
  { pose proof (Dequeue_spec cb Hv) as Hd. destruct (contents cb); [done|].
    destruct Hd as (cb' & ? & ? & ? & ?). eauto. }
  split; [by apply Peek_spec|]. split; [by apply Slice_contents|].
  split; [by apply range_walk_called, walk_contents|]. split.
  - destruct (Clone_spec cb Hv) as (cb' & ? & ? & ? & ? & ?). eauto.
  - destruct (Clear_spec cb Hv) as (? & ? & ?). done.
Qed.

End Buffer.

Arguments CircularBuffer : clear implicits.

(** A buffer of two that overwrites: three enqueues leave the last two. *)
Definition two : CircularBuffer Z := mkBuffer None 0 0 0 2 false.

Lemma buffer_is_a_bounded_queue_witness :
  exists cb, enqueue_all 0%Z [7; 8; 9]%Z two = Some cb /\ Slice cb = [8; 9]%Z /\
  exists b cb', Enqueue 0%Z 5%Z cb = Some (b, cb') /\ contents cb' = [9; 5]%Z.
Proof.
  destruct (enqueue_all 0%Z [7; 8; 9]%Z two) as [cb|] eqn:E; [|discriminate]. exists cb. split; [reflexivity|].
  vm_compute in E. injection E as <-.
  match goal with |- Slice ?c = _ /\ _ =>
    destruct (buffer_is_a_bounded_queue 0%Z c 5%Z (fun _ => true)) as (_ & (b & cb' & H & _ & _ & Hc) & _ & _ & Hs & _) end.
  { split; vm_compute; try reflexivity; repeat constructor. }
  split; [rewrite Hs; reflexivity|]. exists b, cb'. split; [exact H|]. vm_compute in Hc. by simplify_eq.
Defined.
