(* ===== verification/GoStrings.v ===== *)
(** * Strings of the standard library

    [strings.TrimSpace] on the bytes of a Go string: the Unicode white
    space, as its UTF-8 sequences, dropped from both ends; the order of
    [strings.Compare]; and the decoding of UTF-8 ([range] over a string,
    [unicode/utf8]): a rune, or a byte that begins no encoding. *)

From stdpp Require Import base list strings.
From Stdlib Require Import ZArith Ascii Lia.
From S2P Require Import Prelude.


(** The encodings of the white space characters of Unicode. *)
Definition spaces : list (list nat) :=
  [[9]; [10]; [11]; [12]; [13]; [32]; [194; 133]; [194; 160]; [225; 154; 128];
   [226; 128; 128]; [226; 128; 129]; [226; 128; 130]; [226; 128; 131]; [226; 128; 132];
   [226; 128; 133]; [226; 128; 134]; [226; 128; 135]; [226; 128; 136]; [226; 128; 137];
   [226; 128; 138]; [226; 128; 168]; [226; 128; 169]; [226; 128; 175]; [226; 129; 159];
   [227; 128; 128]].

(** [l] without the prefix [p]. *)
Fixpoint without_prefix (p l : list nat) : option (list nat) :=
  match p, l with
  | [], _ => Some l
  | a :: p, b :: l => if a =? b then without_prefix p l else None
  | _ :: _, [] => None
  end.

(** The first of the sequences [l] begins with, taken off. *)
Fixpoint without_space (ss : list (list nat)) (l : list nat) : option (list nat) :=
  match ss with
  | [] => None
  | s :: ss => match without_prefix s l with Some l => Some l | None => without_space ss l end
  end.

(** One sequence a round; the length is fuel enough. *)
Fixpoint trim_left (fuel : nat) (ss : list (list nat)) (l : list nat) : list nat :=
  match fuel with
  | 0 => l
  | S fuel => match without_space ss l with Some l => trim_left fuel ss l | None => l end
  end.

Definition trim_bytes (l : list nat) : list nat :=
  let l := trim_left (length l) spaces l in
  reverse (trim_left (length l) (map reverse spaces) (reverse l)).

Definition bytes_of (s : string) : list nat := map nat_of_ascii (String.list_ascii_of_string s).
Definition of_bytes (l : list nat) : string := String.string_of_list_ascii (map ascii_of_nat l).

Definition TrimSpace (s : string) : string := of_bytes (trim_bytes (bytes_of s)).

(** ** Trimming a trimmed string changes nothing *)

Lemma without_prefix_app p l l' : without_prefix p l = Some l' -> l = p ++ l'.
Proof.
  revert l. induction p as [|a p IH]; intros l; simpl; [congruence|].
  destruct l as [|b l]; [done|]. destruct (Nat.eqb_spec a b) as [->|]; [|done].
  intros H. by rewrite (IH l H).
Qed.

Lemma app_without_prefix p l : without_prefix p (p ++ l) = Some l.
Proof. induction p as [|a p IH]; simpl; [done|]. by rewrite Nat.eqb_refl. Qed.

Lemma without_space_some ss l l' :
  without_space ss l = Some l' -> exists s, s ∈ ss /\ l = s ++ l'.
Proof.
  induction ss as [|s ss IH]; simpl; [done|].
  destruct (without_prefix s l) as [k|] eqn:E.
  - intros [= ->]. exists s. split; [by left|]. by apply without_prefix_app.
  - intros H. destruct (IH H) as (s' & Hs & E'). exists s'. split; [by right|done].
Qed.

Lemma without_space_none ss l :
  without_space ss l = None <-> forall s k, s ∈ ss -> l <> s ++ k.
Proof.
  induction ss as [|s ss IH]; simpl; [split; [intros _ s k []%elem_of_nil|done]|].
  destruct (without_prefix s l) as [k|] eqn:E.
  - split; [done|]. intros H. apply without_prefix_app in E. exfalso. apply (H s k); [by left|done].
  - rewrite IH. split.
    + intros H s' k [->|Hs]%elem_of_cons Hl; [|by eapply H].
      subst l. by rewrite app_without_prefix in E.
    + intros H s' k Hs. apply H. by right.
Qed.

Definition nonempty (ss : list (list nat)) : Prop := Forall (fun s => s <> []) ss.

Lemma trim_left_ok fuel ss l :
  nonempty ss -> length l <= fuel ->
  without_space ss (trim_left fuel ss l) = None /\ exists p, l = p ++ trim_left fuel ss l.
Proof.
  intros Hss. revert l. induction fuel as [|fuel IH]; intros l Hl; simpl.
  - split; [|by exists []]. destruct l; [|simpl in Hl; lia]. apply without_space_none.
    intros s k Hs E. unfold nonempty in Hss. rewrite Forall_forall in Hss.
    apply (Hss s Hs). by destruct s.
  - destruct (without_space ss l) as [l'|] eqn:E; [|split; [done|by exists []]].
    apply without_space_some in E as (s & Hs & ->).
    assert (s <> []) as Hne by (unfold nonempty in Hss; rewrite Forall_forall in Hss; by apply Hss).
    rewrite length_app in Hl. destruct s as [|a s]; [done|]. simpl in Hl.
    destruct (IH l') as [Hn (p & Hp)]; [lia|]. split; [done|].
    exists ((a :: s) ++ p). by rewrite <- app_assoc, <- Hp.
Qed.

Lemma trim_left_none fuel ss l : without_space ss l = None -> trim_left fuel ss l = l.
Proof. intros H. destruct fuel; simpl; [done|]. by rewrite H. Qed.

Lemma spaces_nonempty : nonempty spaces /\ nonempty (map reverse spaces).
Proof. split; (repeat constructor; done). Qed.

Lemma trim_bytes_idem l : trim_bytes (trim_bytes l) = trim_bytes l.
Proof.
  destruct spaces_nonempty as [Hs Hr]. unfold trim_bytes at 2 3.
  destruct (trim_left_ok (length l) spaces l Hs (Nat.le_refl _)) as [Hl _].
  generalize dependent (trim_left (length l) spaces l). intros k Hk.
  destruct (trim_left_ok (length k) (map reverse spaces) (reverse k) Hr) as [Hn (p & Hp)];
    [by rewrite length_reverse|].
  set (r := trim_left (length k) (map reverse spaces) (reverse k)) in *.
  assert (k = reverse r ++ reverse p) as Ek.
  { by rewrite <- reverse_app, <- Hp, reverse_involutive. }
  assert (without_space spaces (reverse r) = None) as Hl.
  { apply without_space_none. intros s q Hs' E. rewrite without_space_none in Hk.
    apply (Hk s (q ++ reverse p) Hs'). by rewrite Ek, E, app_assoc. }
  unfold trim_bytes. rewrite !(trim_left_none _ spaces) by done.
  rewrite reverse_involutive. by rewrite trim_left_none.
Qed.

(** Visible characters of ASCII are no white space. *)
Lemma trim_bytes_visible l : Forall (fun b => 33 <= b < 128) l -> trim_bytes l = l.
Proof.
  intros Hl. assert (forall ss k, Forall (fun s => exists a s', s = a :: s' /\ ~ (33 <= a < 128)) ss -> Forall (fun b => 33 <= b < 128) k ->
    without_space ss k = None) as Hn.
  { intros ss k Hss Hk. apply without_space_none. intros s q Hs ->. rewrite Forall_forall in Hss. destruct (Hss s Hs) as (a & s' & -> & Ha).
    by apply Forall_cons in Hk as [? _]. }
  unfold trim_bytes. rewrite (trim_left_none _ spaces) by (apply Hn; [|done]; repeat constructor; eexists _, _; (split; [done|lia])).
  rewrite (trim_left_none _ (map reverse spaces)); [apply reverse_involutive|].
  apply Hn; [|by apply Forall_reverse]. repeat constructor; eexists _, _; (split; [done|lia]).
Qed.

Lemma bytes_of_of_bytes l : Forall (fun b => b < 256) l -> bytes_of (of_bytes l) = l.
Proof.
  intros H. unfold bytes_of, of_bytes. rewrite String.list_ascii_of_string_of_list_ascii.
  induction H as [|b l Hb _ IH]; [done|]. simpl. rewrite IH. f_equal. by apply nat_ascii_embedding.
Qed.

Lemma bytes_of_bound s : Forall (fun b => b < 256) (bytes_of s).
Proof.
  unfold bytes_of. apply Forall_forall. intros b (a & -> & _)%list_elem_of_fmap.
  apply nat_ascii_bounded.
Qed.

Lemma trim_bytes_bound l : Forall (fun b => b < 256) l -> Forall (fun b => b < 256) (trim_bytes l).
Proof.
  intros H. unfold trim_bytes. destruct spaces_nonempty as [Hs Hr].
  destruct (trim_left_ok (length l) spaces l Hs (Nat.le_refl _)) as [_ (p & Hp)].
  rewrite Hp in H. apply Forall_app in H as [_ H]. revert H.
  generalize (trim_left (length l) spaces l). intros k H.
  destruct (trim_left_ok (length k) (map reverse spaces) (reverse k) Hr) as [_ (q & Hq)];
    [by rewrite length_reverse|].
  apply Forall_reverse in H. rewrite Hq in H. apply Forall_app in H as [_ H].
  by apply Forall_reverse.
Qed.

Lemma TrimSpace_visible s : Forall (fun b => 33 <= b < 128) (bytes_of s) -> TrimSpace s = s.
Proof.
  intros Hs. unfold TrimSpace. rewrite trim_bytes_visible by done. unfold of_bytes, bytes_of. rewrite map_map.
  rewrite (map_ext _ id) by apply ascii_nat_embedding. rewrite map_id. apply String.string_of_list_ascii_of_string.
Qed.

Lemma TrimSpace_idem s : TrimSpace (TrimSpace s) = TrimSpace s.
Proof.
  unfold TrimSpace at 1 2. rewrite bytes_of_of_bytes by (apply trim_bytes_bound, bytes_of_bound).
  by rewrite trim_bytes_idem.
Qed.

(** ** The order of [strings.Compare] *)

Lemma string_lt_trans a b c :
  String.compare a b = Lt -> String.compare b c = Lt -> String.compare a c = Lt.
Proof.
  revert b c. induction a as [|x a IH]; intros [|y b] [|z c]; simpl; try done.
  unfold Ascii.compare. generalize (Ascii.N_of_ascii x) (Ascii.N_of_ascii y) (Ascii.N_of_ascii z).
  intros i j k. intros H1 H2.
  destruct (N.compare_spec i j), (N.compare_spec j k), (N.compare_spec i k); try done; try lia.
  by eapply IH.
Qed.

Lemma string_compare_eq a b : String.compare a b = Eq <-> a = b.
Proof.
  split; [apply String.compare_eq_iff|]. intros ->. induction b as [|y b IH]; [done|]. simpl.
  unfold Ascii.compare. by rewrite N.compare_refl.
Qed.

Lemma string_leb_trans a b c :
  String.leb a b = true -> String.leb b c = true -> String.leb a c = true.
Proof.
  unfold String.leb. intros H1 H2.
  destruct (String.compare a b) eqn:E1; [apply string_compare_eq in E1 as ->; done| |done].
  destruct (String.compare b c) eqn:E2; [apply string_compare_eq in E2 as ->; by rewrite E1| |done].
  by rewrite (string_lt_trans a b c).
Qed.

(** Sorting by name. *)
Definition string_le (a b : string) : Prop := String.leb a b = true.

#[export] Instance string_le_dec a b : Decision (string_le a b).
Proof. unfold string_le. apply _. Defined.

#[export] Instance string_le_trans : Transitive string_le.
Proof. intros a b c. apply string_leb_trans. Qed.

#[export] Instance string_le_total : Total string_le.
Proof. intros a b. apply String.leb_total. Qed.

#[export] Instance string_le_antisymm : AntiSymm (=) string_le.
Proof. intros a b. apply String.leb_antisym. Qed.

(** * Runes *)

Local Open Scope Z_scope.

Inductive char : Set := Rune (r : Z) | Bad.

#[export] Instance char_eq_dec : EqDecision char.
Proof. solve_decision. Defined.

Fixpoint bytes (s : string) : list Z :=
  match s with
  | EmptyString => []
  | String a s => Z.of_N (N_of_ascii a) :: bytes s
  end.

Definition in_range (lo hi b : Z) : bool := (lo <=? b) && (b <=? hi).

(** The second byte a first byte of [n] bytes admits, and the length. *)
Definition lead (b : Z) : option (nat * Z * Z) :=
  if in_range 194 223 b then Some (1%nat, 128, 191)
  else if b =? 224 then Some (2%nat, 160, 191)
  else if b =? 237 then Some (2%nat, 128, 159)
  else if in_range 225 239 b then Some (2%nat, 128, 191)
  else if b =? 240 then Some (3%nat, 144, 191)
  else if in_range 241 243 b then Some (3%nat, 128, 191)
  else if b =? 244 then Some (3%nat, 128, 143)
  else None.

(** The rune at the start of [b :: l], and how many bytes of [l] it takes. *)
Definition decode_rune (b : Z) (l : list Z) : char * nat :=
  if b <? 128 then (Rune b, 0%nat)
  else
    match lead b, l with
    | Some (1%nat, lo, hi), c :: _ =>
        if in_range lo hi c then (Rune (Z.land b 31 * 64 + Z.land c 63), 1%nat) else (Bad, 0%nat)
    | Some (2%nat, lo, hi), c :: d :: _ =>
        if in_range lo hi c && in_range 128 191 d
        then (Rune ((Z.land b 15 * 64 + Z.land c 63) * 64 + Z.land d 63), 2%nat) else (Bad, 0%nat)
    | Some (_, lo, hi), c :: d :: e :: _ =>
        if in_range lo hi c && in_range 128 191 d && in_range 128 191 e
        then (Rune (((Z.land b 7 * 64 + Z.land c 63) * 64 + Z.land d 63) * 64 + Z.land e 63), 3%nat)
        else (Bad, 0%nat)
    | _, _ => (Bad, 0%nat)
    end.

(** [skip] bytes belong to the rune before. *)
Fixpoint decode (skip : nat) (l : list Z) : list char :=
  match l with
  | [] => []
  | b :: l =>
      match skip with
      | S skip => decode skip l
      | O => let '(c, n) := decode_rune b l in c :: decode n l
      end
  end.

Definition runes (s : string) : list char := decode 0 (bytes s).

(** [utf8.ValidString]: every byte belongs to the encoding of a rune. *)
Definition ValidString (s : string) : bool :=
  forallb (fun c => match c with Rune _ => true | Bad => false end) (runes s).

Example valid_ascii : ValidString "user:7" = true.
Proof. reflexivity. Qed.
Example invalid_byte : ValidString (String (ascii_of_N 255) "x") = false.
Proof. reflexivity. Qed.
