(* ===== verification/CronSchedule.v ===== *)
(** * Schedules and their instants

    Models [cronjob/schedule.go] and the arithmetic of instants in
    [cronjob/job.go].  A moment is its Unix time in nanoseconds; [None] is
    the zero time a schedule answers with when it has no instant left.

    The cron library is outside the repository: a schedule it parsed is a
    function [Next], known to answer the first instant after a moment. *)

From stdpp Require Import base list strings sorting.
From Stdlib Require Import ZArith Lia.
From S2P Require Import Prelude Lease.
Import Lease.
Local Open Scope Z_scope.

(** ** Moments *)

Definition Hour : Z := 3600 * Second.

Abbreviation schedule := (Z -> option Z).

(** What the callers rely on, over a range of moments: the answer is the
    first instant after the moment asked about. *)
Class Schedule (Next : schedule) (instant : Z -> Prop) (from to : Z) : Prop := {
  next_after t n : from <= t <= to -> Next t = Some n -> t < n;
  next_instant t n : from <= t <= to -> Next t = Some n -> instant n;
  next_first t n m : from <= t <= to -> Next t = Some n -> instant m -> t < m -> n <= m;
  next_none t m : from <= t <= to -> Next t = None -> instant m -> m <= t;
  range_width : to - from < 2 ^ 64
}.

(** ** "@every" *)

(** [everySchedule.Next], on 64-bit nanoseconds. *)
Definition everySchedule (period : Z) : schedule := fun t =>
  if period <=? 0 then None
  else Some (wrap64 (wrap64 (Z.quot t period + 1) * period)).

(** ** The instant before a moment *)

Definition catchUpLookback : Z := 24 * Hour.

Section Instants.
Context (Next : schedule).

(** Whether the answer for [mid] stays at or before [now]. *)
Definition at_or_before (now mid : Z) : bool :=
  match Next mid with Some next => negb (now <? next) | None => false end.

Fixpoint bisect (fuel : nat) (now lo hi : Z) : Z :=
  match fuel with
  | O => lo
  | S fuel =>
      if Millisecond <? hi - lo then
        let mid := lo + Z.quot (hi - lo) 2 in
        if at_or_before now mid then bisect fuel now mid hi else bisect fuel now lo mid
      else lo
  end.

(** Each round halves the day the search starts with. *)
Definition bisect_rounds : nat := 40.

Definition previousInstant (now : Z) : option Z * bool :=
  let lo := now - catchUpLookback in
  let hi := now in
  match Next lo with
  | None => (None, false)
  | Some first =>
      if now <? first then (None, false) else (Next (bisect bisect_rounds now lo hi), true)
  end.

(** One round of the loop of [instantsBetween]: on, or out with the count.  A
    zero [to] lies before every instant. *)
Definition count_step (to : option Z) (s : option Z * nat) : (option Z * nat) + nat :=
  match s.1, to with
  | Some t, Some to => if t <? to then inl (Next t, S s.2) else inr s.2
  | _, _ => inr s.2
  end.

(** Up to [2 ^ n] rounds. *)
Fixpoint count_rounds (n : nat) (to : option Z) (s : option Z * nat) : (option Z * nat) + nat :=
  match n with
  | O => count_step to s
  | S n => match count_rounds n to s with
           | inl s => count_rounds n to s
           | inr skipped => inr skipped
           end
  end.

(** No range of 64-bit nanoseconds holds more instants. *)
Definition instantsBetween (from : Z) (to : option Z) : nat :=
  match count_rounds 64 to (Next from, 0%nat) with
  | inl s => s.2
  | inr skipped => skipped
  end.

(** [nextAfter], when the clock reads [now]: the instant to wait for and the
    number of instants skipped. *)
Definition nextAfter (now ran : Z) : option Z * nat :=
  let after := if now <? ran then ran else now in
  let following := Next after in
  (following, instantsBetween ran following).
End Instants.

(** ** What they compute *)

(** The multiples of the period, until 64 bits no longer hold them. *)
#[export] Instance everySchedule_ok (period : Z) :
  0 < period -> Schedule (everySchedule period) (fun n => n mod period = 0) 0 (2 ^ 63 - 1 - period).
Proof.
  intros Hp.
  assert (forall t, 0 <= t <= 2 ^ 63 - 1 - period -> everySchedule period t = Some ((t / period + 1) * period)) as E.
  { intros t Ht. unfold everySchedule. destruct (Z.leb_spec period 0); [lia|].
    rewrite Z.quot_div_nonneg by lia.
    pose proof (Z.div_mod t period ltac:(lia)). pose proof (Z.mod_pos_bound t period Hp).
    assert (0 <= t / period) by (apply Z.div_pos; lia).
    assert (t / period <= t) by (apply Z.div_le_upper_bound; nia).
    rewrite (wrap64_id (t / period + 1)) by lia. rewrite wrap64_id by nia. done. }
  split; [| | | |lia]; intros t n; intros; rewrite E in * by done; simplify_eq.
  - pose proof (Z.div_mod t period ltac:(lia)). pose proof (Z.mod_pos_bound t period Hp). nia.
  - by rewrite Z.mod_mul by lia.
  - match goal with H : _ mod period = 0 |- _ => apply Z.mod_divide in H as [k ->]; [|lia] end.
    assert (t / period < k) by (apply Z.div_lt_upper_bound; lia). nia.
Qed.

(** Instants are whole seconds; a millisecond apart is enough. *)
Definition spaced (instant : Z -> Prop) : Prop :=
  forall m p, instant m -> instant p -> m < p -> Millisecond <= p - m.

Section Spec.
Context (Next : schedule) (instant : Z -> Prop) (from to : Z).
Context `{!Schedule Next instant from to}.

Lemma at_or_before_true now t :
  from <= t <= to -> at_or_before Next now t = true ->
  exists p, Next t = Some p /\ instant p /\ t < p <= now /\ forall m, instant m -> t < m -> p <= m.
Proof.
  unfold at_or_before. intros Ht H. destruct (Next t) as [p|] eqn:E; [|done]. exists p.
  split; [done|]. split; [by eapply next_instant|]. boolify.
  pose proof (next_after t p Ht E). split; [lia|]. intros m. by eapply next_first.
Qed.

Lemma at_or_before_false now t m :
  from <= t <= to -> at_or_before Next now t = false -> instant m -> m <= now -> m <= t.
Proof.
  unfold at_or_before. intros Ht H Hm Hnow. destruct (Next t) as [p|] eqn:E; [|by eapply next_none].
  boolify. destruct (decide (t < m)); [|lia]. pose proof (next_first t p m Ht E Hm ltac:(lia)). lia.
Qed.

Lemma at_or_before_now now : from <= now <= to -> at_or_before Next now now = false.
Proof.
  intros H. unfold at_or_before. destruct (Next now) as [p|] eqn:E; [|done].
  apply negb_false_iff, Z.ltb_lt. by eapply next_after.
Qed.

Lemma bisect_ok fuel now lo hi :
  lo <= hi -> hi - lo <= 2 ^ Z.of_nat fuel * Millisecond ->
  at_or_before Next now lo = true -> at_or_before Next now hi = false ->
  exists hi', lo <= bisect Next fuel now lo hi <= hi' /\ hi' <= hi /\
    hi' - bisect Next fuel now lo hi <= Millisecond /\
    at_or_before Next now (bisect Next fuel now lo hi) = true /\ at_or_before Next now hi' = false.
Proof.
  revert lo hi. induction fuel as [|fuel IH]; intros lo hi Hle Hd Hlo Hhi.
  { exists hi. simpl in *. lia || auto with lia. }
  cbn [bisect]. destruct (Z.ltb_spec Millisecond (hi - lo)); [|exists hi; auto with lia].
  rewrite Nat2Z.inj_succ, Z.pow_succ_r in Hd by lia.
  rewrite Z.quot_div_nonneg by (unfold Millisecond in *; lia).
  pose proof (Z.div_mod (hi - lo) 2 ltac:(lia)). pose proof (Z.mod_pos_bound (hi - lo) 2 ltac:(lia)).
  set (mid := lo + (hi - lo) / 2) in *. unfold Millisecond in *.
  destruct (at_or_before Next now mid) eqn:Em.
  - destruct (IH mid hi) as (hi' & ? & ? & ? & ? & ?); [lia|lia|done|done|]. exists hi'. auto with lia.
  - destruct (IH lo mid) as (hi' & ? & ? & ? & ? & ?); [lia|lia|done|done|]. exists hi'. auto with lia.
Qed.

Lemma previousInstant_ok now :
  spaced instant -> from <= now - catchUpLookback -> now <= to ->
  match previousInstant Next now with
  | (Some p, true) =>
      instant p /\ now - catchUpLookback < p <= now /\ forall m, instant m -> m <= now -> m <= p
  | (None, false) => forall m, instant m -> m <= now -> m <= now - catchUpLookback
  | _ => False
  end.
Proof.
  intros Hsp Hlo Hhi. unfold previousInstant. cbn zeta.
  assert (0 <= catchUpLookback) as Hlook by done.
  assert (from <= now - catchUpLookback <= to) as Hrange by lia.
  destruct (Next (now - catchUpLookback)) as [first|] eqn:E.
  2: { intros m Hm _. by eapply next_none. }
  destruct (Z.ltb_spec now first) as [Hlt|Hge].
  { intros m Hm Hle. destruct (decide (now - catchUpLookback < m)); [|lia].
    pose proof (next_first _ first m Hrange E Hm ltac:(lia)). lia. }
  destruct (bisect_ok bisect_rounds now (now - catchUpLookback) now) as (hi' & Hb & Hh & Hd & Ht & Hf).
  - unfold catchUpLookback, Hour, Second in *. lia.
  - unfold catchUpLookback, Hour, Second, bisect_rounds, Millisecond. simpl Z.of_nat. lia.
  - unfold at_or_before. rewrite E. apply negb_true_iff, Z.ltb_ge. done.
  - apply at_or_before_now. lia.
  - set (lo' := bisect Next bisect_rounds now (now - catchUpLookback) now) in *.
    destruct (at_or_before_true now lo') as (p & -> & Hp & Hpr & Hfirst); [lia|done|].
    split; [done|]. split; [lia|]. intros m Hm Hle.
    pose proof (at_or_before_false now hi' m ltac:(lia) Hf Hm Hle).
    pose proof (at_or_before_false now hi' p ltac:(lia) Hf Hp ltac:(lia)).
    destruct (decide (m <= p)); [done|]. pose proof (Hsp p m Hp Hm ltac:(lia)). lia.
Qed.

(** The skipped instants, in order. *)
Definition instants_in (a b : Z) (l : list Z) : Prop :=
  StronglySorted Z.lt l /\ forall m, m ∈ l <-> instant m /\ a < m < b.

Fixpoint count_iter (k : nat) (b : option Z) (s : option Z * nat) : (option Z * nat) + nat :=
  match k with
  | O => inl s
  | S k => match count_step Next b s with inl s => count_iter k b s | inr n => inr n end
  end.

Lemma count_iter_add j k b s :
  count_iter (j + k) b s = match count_iter j b s with inl s => count_iter k b s | inr n => inr n end.
Proof. revert s. induction j as [|j IH]; intros s; simpl; [done|]. by destruct (count_step Next b s). Qed.

Lemma count_rounds_iter n b s : count_rounds Next n b s = count_iter (2 ^ n)%nat b s.
Proof.
  revert s. induction n as [|n IH]; intros s; cbn [count_rounds Nat.pow].
  - simpl. by destruct (count_step Next b s).
  - rewrite Nat.mul_succ_l, Nat.mul_1_l, count_iter_add, IH. destruct (count_iter (2 ^ n) b s); [apply IH|done].
Qed.

Lemma count_iter_ok fuel a b k :
  from <= a <= to -> b <= to -> Z.max 0 (b - a) < Z.of_nat fuel ->
  exists l, instants_in a b l /\ count_iter fuel (Some b) (Next a, k) = inr (k + length l)%nat.
Proof.
  revert a k. induction fuel as [|fuel IH]; intros a k Ha Hb Hf; [lia|].
  cbn [count_iter]. unfold count_step. cbn [fst snd].
  destruct (Next a) as [n|] eqn:E.
  2: { exists []. split; [|f_equal; simpl; lia]. split; [constructor|]. intros m.
       split; [by intros []%elem_of_nil|].
       intros [Hm Hr]. pose proof (next_none a m Ha E Hm). lia. }
  pose proof (next_after a n Ha E) as Hn. pose proof (next_instant a n Ha E) as Hi.
  pose proof (fun m => next_first a n m Ha E) as Hfirst.
  destruct (Z.ltb_spec n b) as [Hlt|Hge].
  - destruct (IH n (S k)) as (l & [Hs Hl] & ->); [lia|lia|lia|].
    exists (n :: l). split; [|f_equal; simpl; lia]. split.
    + constructor; [done|]. apply Forall_forall. intros m Hm%Hl. lia.
    + intros m. rewrite elem_of_cons, Hl. split; [intros [->|?]; [split; [done|lia]|split; [tauto|lia]]|].
      intros [Hm Hr]. specialize (Hfirst m Hm ltac:(lia)). destruct (decide (m = n)); [by left|right].
      split; [done|lia].
  - exists []. split; [|f_equal; simpl; lia]. split; [constructor|]. intros m.
    split; [by intros []%elem_of_nil|].
    intros [Hm Hr]. specialize (Hfirst m Hm ltac:(lia)). lia.
Qed.

Lemma instantsBetween_ok a b :
  from <= a <= to -> b <= to ->
  exists l, instants_in a b l /\ instantsBetween Next a (Some b) = length l.
Proof.
  intros Ha Hb. destruct (count_iter_ok (2 ^ 64)%nat a b 0 Ha Hb) as (l & Hl & E).
  - rewrite Nat2Z.inj_pow. change (Z.of_nat 2) with 2. change (Z.of_nat 64) with 64.
    pose proof range_width. lia.
  - exists l. split; [done|]. unfold instantsBetween. rewrite count_rounds_iter, E. done.
Qed.

Lemma nextAfter_ok now ran :
  from <= ran <= to -> now <= to ->
  match nextAfter Next now ran with
  | (Some n, skipped) =>
      instant n /\ ran < n /\ now < n /\ (forall m, instant m -> ran < m -> now < m -> n <= m) /\
      (n <= to -> exists l, instants_in ran n l /\ skipped = length l)
  | (None, skipped) => (forall m, instant m -> m <= Z.max now ran) /\ skipped = 0%nat
  end.
Proof.
  intros Hr Hnow. unfold nextAfter. cbn zeta.
  set (after := if now <? ran then ran else now).
  assert (ran <= after /\ now <= after /\ (after = ran \/ after = now)) as (H1 & H2 & H3)
    by (unfold after; destruct (Z.ltb_spec now ran); lia).
  assert (from <= after <= to) as Haf by lia. destruct (Next after) as [n|] eqn:E.
  - pose proof (next_after after n Haf E). pose proof (next_instant after n Haf E).
    split; [done|]. split; [lia|]. split; [lia|]. split.
    + intros m Hm ? ?. eapply (next_first after n m Haf E Hm). lia.
    + intros Hn. apply instantsBetween_ok; lia.
  - split; [|unfold instantsBetween; by destruct (Next ran)].
    intros m Hm. pose proof (next_none after m Haf E Hm). lia.
Qed.
End Spec.
