(* ===== verification/Lifecycle.v ===== *)
(** * Components with a lifetime of their own

    Models [internal/lifecycle]: the registry, the start of a stage, the stop
    of everything started, the ways out of a process that cannot go on, and
    [Interrupted], which tells an ending that was asked for from a failure. *)

From stdpp Require Import base list strings sorting.
From Stdlib Require Import ZArith Lia.
From S2P Require Import Prelude GoStrings.

(** ** The registry *)

Definition StageProvider : Z := 0.
Definition StageComponent : Z := 1.
Definition stageCount : Z := 2.

(** A component: whether it has the optional callbacks, and what [Enabled]
    answers once the configuration is loaded; [None] is a nil [Enabled]. *)
Record Component : Type := mkComponent {
  Name : string;
  Stage : Z;
  HasStart : bool;
  Enabled : option bool;
  HasSetLogger : bool;
  HasStop : bool
}.

Record registry : Type := mkRegistry {
  components : list Component;
  provider_started : bool;
  component_started : bool;
  running : list Component
}.

Definition empty_registry : registry := mkRegistry [] false false [].

Definition started (r : registry) (stage : Z) : bool :=
  if (stage =? StageProvider)%Z then provider_started r else component_started r.

Definition set_started (r : registry) (stage : Z) : registry :=
  if (stage =? StageProvider)%Z
  then mkRegistry (components r) true (component_started r) (running r)
  else mkRegistry (components r) (provider_started r) true (running r).

Inductive panic : Set :=
| EmptyName | NilStart (name : string) | UnknownStage (name : string)
| StageStarted (name : string) | DuplicateName (name : string).

Definition Register (r : registry) (c : Component) : result panic registry :=
  let name := TrimSpace (Name c) in
  let c := mkComponent name (Stage c) (HasStart c) (Enabled c) (HasSetLogger c) (HasStop c) in
  if String.eqb name "" then Err EmptyName
  else if negb (HasStart c) then Err (NilStart name)
  else if (Stage c <? 0)%Z || (stageCount <=? Stage c)%Z then Err (UnknownStage name)
  else if started r (Stage c) then Err (StageStarted name)
  else if existsb (fun x => String.eqb (Name x) name) (components r) then Err (DuplicateName name)
  else Ok (mkRegistry (components r ++ [c]) (provider_started r) (component_started r) (running r)).

Definition name_le (a b : Component) : Prop := String.leb (Name a) (Name b) = true.

#[export] Instance name_le_dec a b : base.Decision (name_le a b).
Proof. unfold name_le. apply _. Defined.

(** [Components]: those of a stage, by name. *)
Definition componentsOf (r : registry) (stage : Z) : list Component :=
  merge_sort name_le (filter (fun c => Stage c = stage) (components r)).

(** What the registry calls, in order.  A stop is handed a context that has
    ended, or what is left of the shutdown's. *)
Inductive event : Type :=
| EvSetLogger (name : string)
| EvStart (name : string) (started : bool)
| EvStop (name : string) (ended : bool).

Section Start.
(** Whether a component's [Start] succeeds. *)
Context (start_ok : Component -> bool).

Fixpoint start_loop (pending : list Component) (r : registry) :
    registry * bool * list event :=
  match pending with
  | [] => (r, true, [])
  | c :: pending =>
      match Enabled c with
      | Some false => start_loop pending r
      | _ =>
          if start_ok c then
            let r := mkRegistry (components r) (provider_started r) (component_started r)
                       (running r ++ [c]) in
            let '(r, ok, events) := start_loop pending r in
            (r, ok, EvStart (Name c) true :: events)
          else (r, false, [EvStart (Name c) false])
      end
  end.

Definition bind_loggers (pending : list Component) : list event :=
  omap (fun c => if HasSetLogger c then Some (EvSetLogger (Name c)) else None) pending.

(** The answer is false on an error: the stage already started, or the first
    component that fails. *)
Definition Start (r : registry) (stage : Z) : registry * bool * list event :=
  if started r stage then (r, false, [])
  else
    let r := set_started r stage in
    let pending := componentsOf r stage in
    let '(r, ok, events) := start_loop pending r in
    (r, ok, bind_loggers pending ++ events).
End Start.

(** [Stop], when the process has failed now or not: a failing [Stop] is
    logged and the others still run. *)
Definition stop_events (failed_now : bool) (stopping : list Component) : list event :=
  omap (fun c => if HasStop c
                 then Some (EvStop (Name c) (failed_now && negb (Stage c =? StageProvider)%Z))
                 else None) (reverse stopping).

Definition Stop (r : registry) (failed_now : bool) : registry * list event :=
  (mkRegistry (components r) (provider_started r) (component_started r) [],
   stop_events failed_now (running r)).

(** ** Ways out *)

(** The tree of an error: a leaf with its identity, whether its type compares,
    and the identities its [Is] method says it is; a wrapper; a join. *)
Inductive err : Type :=
| Leaf (id : nat) (comparable : bool) (says : list nat)
| Wrap (next : err)
| Joined (id : nat) (members : list err).

Definition unexplained : err := Leaf 0 true [].

Definition orUnexplained (e : option err) : err := default unexplained e.

(** The contexts [Fail] and [FailNow] end, with their causes. *)
Record failures : Type := mkFailures { failure : option err; failedNow : option err }.

Definition end_with (cause : option err) (e : err) : option err :=
  match cause with Some c => Some c | None => Some e end.

Definition Fail (f : failures) (e : option err) : failures :=
  mkFailures (end_with (failure f) (orUnexplained e)) (failedNow f).

Definition FailNow (f : failures) (e : option err) : failures :=
  let e := orUnexplained e in
  mkFailures (end_with (failure f) e) (end_with (failedNow f) e).

Definition AbandonWaits (f : failures) (reason : option err) : failures :=
  mkFailures (failure f) (end_with (failedNow f) (orUnexplained reason)).

(** [Await], given which of the two is ready when each [select] looks: work
    that has returned wins. *)
Definition Await (done_at_once : bool) (then_done : bool) : bool :=
  if done_at_once then true else then_done.

(** ** Interrupted *)

Fixpoint innermost (e : err) : err :=
  match e with
  | Wrap next => innermost next
  | e => e
  end.

Definition isLeaf (id : nat) (says : list nat) (target : err) : bool :=
  match target with
  | Leaf tid comparable _ => (comparable && (id =? tid)%nat) || existsb (Nat.eqb tid) says
  | Joined tid _ => existsb (Nat.eqb tid) says
  | Wrap _ => false
  end.

Fixpoint onlyEnding (e : err) (endings : list err) : bool :=
  match e with
  | Joined _ members =>
      match members with
      | [] => false
      | _ => forallb (fun m => onlyEnding m endings) members
      end
  | Wrap next => onlyEnding next endings
  | Leaf id _ says => existsb (isLeaf id says) endings
  end.

(** [ending] is what the context ended with, its error and its cause, if it
    has ended. *)
Definition Interrupted (ending : option (err * err)) (e : option err) : bool :=
  match ending, e with
  | Some (ctxErr, cause), Some e => onlyEnding e [innermost ctxErr; innermost cause]
  | _, _ => false
  end.
