(* ===== verification/LifecycleSpec.v ===== *)
(** * What the lifecycle promises

    In any sequence of registrations, starts and stops a component is started
    at most once and stopped at most once, after its start; a bootstrap starts
    the stages by name and a shutdown undoes it in reverse; the first failure
    is the reason a process ends. *)

From stdpp Require Import base list strings sorting.
From Stdlib Require Import ZArith Lia.
From S2P Require Import Prelude GoStrings Lifecycle.

(** ** Sequences of calls *)

Inductive op : Type :=
| ORegister (c : Component)
| OStart (stage : Z) (start_ok : Component -> bool)
| OStop (failed_now : bool).

(** [None] is a panic, which ends the process. *)
Definition exec_op (r : registry) (o : op) : option (registry * list event) :=
  match o with
  | ORegister c => match Register r c with Ok r => Some (r, []) | Err _ => None end
  | OStart stage start_ok =>
      if (0 <=? stage)%Z && (stage <? stageCount)%Z
      then let '(r, _, events) := Start start_ok r stage in Some (r, events)
      else None
  | OStop failed_now => Some (Stop r failed_now)
  end.

Fixpoint exec_ops (r : registry) (ops : list op) : option (registry * list event) :=
  match ops with
  | [] => Some (r, [])
  | o :: ops =>
      '(r, e1) ← exec_op r o;
      '(r, e2) ← exec_ops r ops;
      Some (r, e1 ++ e2)
  end.

Definition start_calls (trace : list event) : list string :=
  omap (fun e => match e with EvStart n _ => Some n | _ => None end) trace.
Definition stop_calls (trace : list event) : list string :=
  omap (fun e => match e with EvStop n _ => Some n | _ => None end) trace.

Lemma start_calls_app t1 t2 : start_calls (t1 ++ t2) = start_calls t1 ++ start_calls t2.
Proof. apply omap_app. Qed.
Lemma stop_calls_app t1 t2 : stop_calls (t1 ++ t2) = stop_calls t1 ++ stop_calls t2.
Proof. apply omap_app. Qed.

(** ** The start of a stage *)

Definition is_enabled (c : Component) : Prop := Enabled c <> Some false.

#[export] Instance is_enabled_dec c : base.Decision (is_enabled c).
Proof. unfold is_enabled. apply _. Defined.

Definition with_running (r : registry) (l : list Component) : registry :=
  mkRegistry (components r) (provider_started r) (component_started r) (running r ++ l).

Lemma start_loop_ok start_ok pending r :
  exists l rest,
    filter is_enabled pending = l ++ rest /\ Forall (fun c => start_ok c = true) l /\
    start_loop start_ok pending r =
      match rest with
      | [] => (with_running r l, true, map (fun c => EvStart (Name c) true) l)
      | c :: _ => (with_running r l, false, map (fun c => EvStart (Name c) true) l ++ [EvStart (Name c) false])
      end /\
    match rest with [] => True | c :: _ => start_ok c = false end.
Proof.
  revert r. induction pending as [|c pending IH]; intros r.
  { exists [], []. split; [done|]. split; [constructor|]. split; [|done]. simpl. unfold with_running.
    rewrite app_nil_r. by destruct r. }
  rewrite filter_cons. cbn [start_loop]. destruct (decide (is_enabled c)) as [He|He].
  - assert (forall A (a b : A), match Enabled c with Some false => a | _ => b end = b) as Hm.
    { intros A a b. unfold is_enabled in He. by destruct (Enabled c) as [[]|]. }
    rewrite Hm. destruct (start_ok c) eqn:Ec.
    + destruct (IH (with_running r [c])) as (l & rest & El & Hl & Es & Hr).
      exists (c :: l), rest. rewrite El. split; [done|]. split; [by constructor|]. split; [|done].
      unfold with_running in Es at 1. rewrite Es. destruct rest as [|c' rest]; unfold with_running; simpl;
        by rewrite <- app_assoc.
    + exists [], (c :: filter is_enabled pending). split; [done|]. split; [constructor|]. split; [|done].
      unfold with_running. simpl. rewrite app_nil_r. by destruct r.
  - assert (Enabled c = Some false) as -> by (apply dec_stable; exact He).
    apply IH.
Qed.

Lemma bind_loggers_calls pending :
  start_calls (bind_loggers pending) = [] /\ stop_calls (bind_loggers pending) = [].
Proof.
  induction pending as [|c pending [IH1 IH2]]; [done|]. unfold bind_loggers in *. simpl.
  destruct (HasSetLogger c); simpl; done.
Qed.

Lemma start_events_calls l :
  start_calls (map (fun c => EvStart (Name c) true) l) = map Name l /\
  stop_calls (map (fun c => EvStart (Name c) true) l) = [].
Proof. induction l as [|c l [IH1 IH2]]; [done|]. simpl. by rewrite IH1, IH2. Qed.

(** ** Members of a stage *)

Lemma elem_of_componentsOf r stage c :
  c ∈ componentsOf r stage <-> c ∈ components r /\ Stage c = stage.
Proof. unfold componentsOf. rewrite merge_sort_Permutation, list_elem_of_filter. tauto. Qed.

Definition names_unique (r : registry) : Prop := NoDup (map Name (components r)).

Lemma name_unique r c c' :
  names_unique r -> c ∈ components r -> c' ∈ components r -> Name c = Name c' -> c = c'.
Proof.
  unfold names_unique. intros Hn Hc Hc' E. apply list_elem_of_lookup in Hc as [i Hi], Hc' as [j Hj].
  assert (i = j) as ->; [|congruence].
  eapply (NoDup_lookup (map Name (components r))); [done| |].
  - change (map Name (components r)) with (Name <$> components r). rewrite list_lookup_fmap, Hi. done.
  - change (map Name (components r)) with (Name <$> components r). rewrite list_lookup_fmap, Hj. simpl. by rewrite E.
Qed.

Lemma NoDup_names_sub (l1 l2 : list Component) :
  sublist l1 l2 -> NoDup (map Name l2) -> NoDup (map Name l1).
Proof. intros Hs Hn. eapply sublist_NoDup; [exact Hn|]. by apply (fmap_sublist Name). Qed.

Lemma NoDup_componentsOf r stage : names_unique r -> NoDup (map Name (componentsOf r stage)).
Proof.
  intros H. unfold componentsOf. rewrite merge_sort_Permutation.
  eapply NoDup_names_sub; [|exact H]. apply sublist_filter.
Qed.

#[export] Instance name_le_total : Total name_le.
Proof. intros a b. apply String.leb_total. Qed.
#[export] Instance name_le_trans : Transitive name_le.
Proof. intros a b c. apply string_leb_trans. Qed.

(** The order of a stage does not depend on the order of registration. *)
Lemma componentsOf_canonical r r' stage :
  names_unique r -> components r ≡ₚ components r' -> componentsOf r stage = componentsOf r' stage.
Proof.
  intros Hn Hp. unfold componentsOf.
  apply (Sorted_unique_strong name_le); [|apply (Sorted_merge_sort _)..|].
  - intros a b Ha Hb Hab Hba. fold (componentsOf r stage) in Ha. fold (componentsOf r' stage) in Hb.
    apply elem_of_componentsOf in Ha as [Ha _], Hb as [Hb _]. rewrite <- Hp in Hb.
    apply (name_unique r); [done..|]. by apply String.leb_antisym.
  - rewrite !merge_sort_Permutation. by rewrite Hp.
Qed.

(** ** The invariant of a sequence of calls *)

(** Every stop comes after a start of the component that succeeded. *)
Definition stops_follow (trace : list event) : Prop :=
  forall before n b after, trace = before ++ EvStop n b :: after -> EvStart n true ∈ before.

Lemma stop_calls_in before n b after : n ∈ stop_calls (before ++ EvStop n b :: after).
Proof. rewrite stop_calls_app. apply elem_of_app. right. by left. Qed.

Lemma stops_follow_app t1 t2 :
  stops_follow t1 -> (forall n, n ∈ stop_calls t2 -> EvStart n true ∈ t1) -> stops_follow (t1 ++ t2).
Proof.
  intros H1 H2 before n b after E.
  apply app_eq_inv in E as [(k & -> & E)|(k & -> & ->)].
  - destruct k as [|x k].
    + rewrite app_nil_r in H2. apply H2. simpl in E. rewrite <- E. apply (stop_calls_in [] n b after).
    + injection E as <- _. by eapply H1.
  - apply elem_of_app. left. apply H2, stop_calls_in.
Qed.

Record inv (r : registry) (trace : list event) : Prop := {
  i_names : names_unique r;
  i_stages : Forall (fun c => Stage c = StageProvider \/ Stage c = StageComponent) (components r);
  i_called : forall n, n ∈ start_calls trace ->
    exists c, c ∈ components r /\ Name c = n /\ started r (Stage c) = true;
  i_once : NoDup (start_calls trace);
  i_running : forall c, c ∈ running r -> c ∈ components r /\ EvStart (Name c) true ∈ trace;
  i_running_once : NoDup (map Name (running r));
  i_stopped : forall n, n ∈ stop_calls trace ->
    (exists c, c ∈ components r /\ Name c = n) /\ n ∉ map Name (running r) /\
    EvStart n true ∈ trace;
  i_stopped_once : NoDup (stop_calls trace);
  i_order : stops_follow trace
}.

Lemma started_start trace n : EvStart n true ∈ trace -> n ∈ start_calls trace.
Proof. intros H. apply list_elem_of_omap. exists (EvStart n true). done. Qed.

Lemma inv_register r trace c r' :
  inv r trace -> Register r c = Ok r' -> inv r' trace.
Proof.
  intros Hi. unfold Register. set (name := TrimSpace (Name c)). simpl.
  destruct (String.eqb name ""); [done|]. destruct (negb (HasStart c)); [done|].
  destruct ((Stage c <? 0)%Z || (stageCount <=? Stage c)%Z) eqn:Es; [done|].
  destruct (started r (Stage c)) eqn:Est; [done|].
  destruct (existsb _ _) eqn:Ed; [done|]. intros [= <-].
  assert (name ∉ map Name (components r)) as Hnew.
  { intros (x & Ex & Hx)%list_elem_of_fmap. apply not_true_iff_false in Ed. apply Ed.
    apply existsb_exists. exists x. split; [by apply list_elem_of_In|]. rewrite Ex. apply String.eqb_refl. }
  assert (forall x, started (mkRegistry (components r ++ [x]) (provider_started r) (component_started r) (running r))
    = started r) as Hst by done.
  destruct Hi. split; simpl; try done.
  - unfold names_unique. simpl. rewrite map_app. apply NoDup_app. split; [done|].
    split; [|apply NoDup_singleton]. intros n Hn ->%list_elem_of_singleton. done.
  - apply Forall_app. split; [done|]. apply Forall_singleton. simpl.
    unfold StageProvider, StageComponent, stageCount in *. boolify. lia.
  - intros n Hn. destruct (i_called0 n Hn) as (x & Hx & Ex & Hs). exists x.
    split; [apply elem_of_app; by left|done].
  - intros x Hx. destruct (i_running0 x Hx). split; [apply elem_of_app; by left|done].
  - intros n Hn. destruct (i_stopped0 n Hn) as ((x & Hx & Ex) & ? & ?). split; [|done].
    exists x. split; [apply elem_of_app; by left|done].
Qed.

Lemma started_set r stage : started (set_started r stage) stage = true.
Proof. unfold set_started, started. by destruct (stage =? StageProvider)%Z eqn:E; simpl. Qed.

Lemma started_set_mono r stage s : started r s = true -> started (set_started r stage) s = true.
Proof. unfold set_started, started. by destruct (stage =? StageProvider)%Z, (s =? StageProvider)%Z. Qed.

Lemma components_set r stage : components (set_started r stage) = components r /\
  running (set_started r stage) = running r.
Proof. unfold set_started. by destruct (stage =? StageProvider)%Z. Qed.

(** What a start adds to the calls: the members it started, and the one that
    failed if one did. *)
Lemma Start_ok start_ok r stage r' ok events :
  Start start_ok r stage = (r', ok, events) ->
  (started r stage = true /\ r' = r /\ ok = false /\ events = []) \/
  (started r stage = false /\ exists l rest,
     filter is_enabled (componentsOf r stage) = l ++ rest /\
     Forall (fun c => start_ok c = true) l /\
     r' = with_running (set_started r stage) l /\
     (ok = true <-> rest = []) /\ match rest with [] => True | c :: _ => start_ok c = false end /\
     events = bind_loggers (componentsOf r stage) ++ map (fun c => EvStart (Name c) true) l ++
                match rest with [] => [] | c :: _ => [EvStart (Name c) false] end).
Proof.
  unfold Start. destruct (started r stage) eqn:Es; [intros [= <- <- <-]; by left|].
  replace (componentsOf (set_started r stage) stage) with (componentsOf r stage)
    by (unfold componentsOf; by rewrite (proj1 (components_set r stage))).
  destruct (start_loop_ok start_ok (componentsOf r stage) (set_started r stage))
    as (l & rest & El & Hl & -> & Hrest).
  intros E. right. split; [done|]. exists l, rest. split; [done|]. split; [done|].
  destruct rest as [|c rest]; injection E as <- <- <-.
  - split; [done|]. split; [done|]. split; [done|]. by rewrite app_nil_r.
  - split; [done|]. split; [done|]. split; [done|]. done.
Qed.

(** The calls of a start that ran through [l] and failed, if it did, at the
    head of [rest]. *)
Definition start_events (r : registry) (stage : Z) (l rest : list Component) : list event :=
  bind_loggers (componentsOf r stage) ++ map (fun c => EvStart (Name c) true) l ++
    match rest with [] => [] | c :: _ => [EvStart (Name c) false] end.

Lemma start_events_made trace r stage l rest :
  start_calls (trace ++ start_events r stage l rest) = start_calls trace ++ map Name l ++ take 1 (map Name rest) /\
  stop_calls (trace ++ start_events r stage l rest) = stop_calls trace.
Proof.
  unfold start_events.
  rewrite !start_calls_app, !stop_calls_app, (proj1 (bind_loggers_calls _)), (proj2 (bind_loggers_calls _)).
  rewrite (proj1 (start_events_calls l)), (proj2 (start_events_calls l)). destruct rest; split; cbn; by rewrite ?app_nil_r.
Qed.

Lemma start_members r trace stage l rest : inv r trace -> filter is_enabled (componentsOf r stage) = l ++ rest ->
  (forall c, c ∈ l ++ rest -> c ∈ components r /\ Stage c = stage) /\ NoDup (map Name (l ++ rest)).
Proof.
  intros Hi <-. split.
  - intros c [_ Hc]%list_elem_of_filter. by apply elem_of_componentsOf.
  - eapply NoDup_names_sub; [apply sublist_filter|]. by apply NoDup_componentsOf, Hi.
Qed.

Lemma start_called (l rest : list Component) n : n ∈ map Name l ++ take 1 (map Name rest) -> n ∈ map Name (l ++ rest).
Proof.
  intros Hn. rewrite map_app. apply elem_of_app. apply elem_of_app in Hn as [Hn|Hn]; [by left|right].
  rewrite <- (take_drop 1 (map Name rest)). apply elem_of_app. by left.
Qed.

(** A member of a stage not started yet was not called. *)
Lemma start_uncalled r trace stage l rest n : inv r trace -> started r stage = false ->
  filter is_enabled (componentsOf r stage) = l ++ rest -> n ∈ start_calls trace -> n ∈ map Name (l ++ rest) -> False.
Proof.
  intros Hi Hns El Hn Hn'. apply list_elem_of_fmap in Hn' as (c & -> & Hc).
  destruct (start_members r trace stage l rest Hi El) as [Hmem _]. destruct (Hmem c Hc) as [Hcc Hst].
  destruct (i_called r trace Hi _ Hn) as (x & Hx & Ex & Hs).
  rewrite (name_unique r x c (i_names r trace Hi) Hx Hcc Ex) in Hs. by rewrite Hst, Hns in Hs.
Qed.

Lemma inv_start r trace start_ok stage r' ok events :
  inv r trace -> Start start_ok r stage = (r', ok, events) -> inv r' (trace ++ events).
Proof.
  intros Hi E. apply Start_ok in E as [(_ & -> & -> & ->)|(Hns & l & rest & El & Hl & -> & _ & _ & ->)].
  { by rewrite app_nil_r. }
  destruct (components_set r stage) as [Hc Hr]. fold (start_events r stage l rest).
  destruct (start_events_made trace r stage l rest) as [Hcalls Hstops].
  destruct (start_members r trace stage l rest Hi El) as [Hmem Hnd].
  pose proof (fun n => start_uncalled r trace stage l rest n Hi Hns El) as Hold.
  destruct Hi. split; cbn [with_running components running]; rewrite ?Hc, ?Hr, ?Hcalls, ?Hstops; try done.
  - unfold names_unique. simpl. by rewrite Hc.
  - intros n [Hn|Hn]%elem_of_app.
    + destruct (i_called0 n Hn) as (c & Hcc & Ec & Hs). exists c. split; [done|]. split; [done|].
      by apply started_set_mono.
    + apply start_called, list_elem_of_fmap in Hn as (c & -> & Hcc). destruct (Hmem c Hcc) as [Hcc' Hst]. exists c.
      split; [done|]. split; [done|]. rewrite Hst. apply started_set.
  - apply NoDup_app. split; [done|]. split; [intros n Hn Hn'%start_called; by apply (Hold n)|].
    rewrite map_app in Hnd. rewrite <- (take_drop 1 (map Name rest)), app_assoc in Hnd. by apply NoDup_app in Hnd as [? _].
  - intros c [Hc'|Hc']%elem_of_app.
    + destruct (i_running0 c Hc'). split; [done|]. apply elem_of_app. by left.
    + split; [apply Hmem, elem_of_app; by left|]. unfold start_events. rewrite !elem_of_app. right; right; left.
      apply list_elem_of_fmap. by exists c.
  - rewrite map_app. apply NoDup_app. split; [done|]. rewrite map_app in Hnd. split; [|by apply NoDup_app in Hnd as [? _]].
    intros n (c & -> & Hc')%list_elem_of_fmap Hn. destruct (i_running0 c Hc') as [_ Hst].
    apply (Hold (Name c)); [by apply started_start|]. rewrite map_app. apply elem_of_app. by left.
  - intros n Hn. destruct (i_stopped0 n Hn) as (Hex & Hnr & Hst). split; [done|].
    split; [|apply elem_of_app; by left]. rewrite map_app, elem_of_app. intros [?|Hl']; [done|].
    apply (Hold n); [by apply started_start|]. rewrite map_app. apply elem_of_app. by left.
  - apply stops_follow_app; [done|]. intros n Hn. rewrite stop_calls_app in Hstops.
    apply (f_equal (drop (length (stop_calls trace)))) in Hstops.
    rewrite drop_app_length, drop_all in Hstops. rewrite Hstops in Hn. by apply elem_of_nil in Hn.
Qed.

Lemma stop_events_calls b l :
  start_calls (stop_events b l) = [] /\
  stop_calls (stop_events b l) = map Name (filter (fun c => HasStop c = true) (reverse l)).
Proof.
  unfold stop_events. induction (reverse l) as [|c l' [IH1 IH2]]; [done|].
  rewrite filter_cons. simpl. destruct (HasStop c); simpl.
  - split; [done|]. f_equal. exact IH2.
  - done.
Qed.

Lemma inv_stop r trace b :
  inv r trace -> inv (Stop r b).1 (trace ++ (Stop r b).2).
Proof.
  intros []. unfold Stop. cbn [fst snd]. destruct (stop_events_calls b (running r)) as [Es Et].
  assert (forall n, n ∈ stop_calls (stop_events b (running r)) -> n ∈ map Name (running r)) as Hsub.
  { intros n. rewrite Et. intros (c & -> & [_ Hc]%list_elem_of_filter)%list_elem_of_fmap.
    apply list_elem_of_fmap. exists c. split; [done|]. by apply elem_of_reverse. }
  split; simpl; rewrite ?start_calls_app, ?stop_calls_app, ?Es, ?app_nil_r; try done.
  - intros c []%elem_of_nil.
  - constructor.
  - intros n [Hn|Hn%Hsub]%elem_of_app.
    + destruct (i_stopped0 n Hn) as (Hex & _ & Hst). split; [done|]. split; [apply not_elem_of_nil|].
      apply elem_of_app. by left.
    + apply list_elem_of_fmap in Hn as (c & -> & Hc). destruct (i_running0 c Hc) as [Hcc Hst].
      split; [by exists c|]. split; [apply not_elem_of_nil|]. apply elem_of_app. by left.
  - apply NoDup_app. split; [done|]. split.
    + intros n Hn Hn'%Hsub. by destruct (i_stopped0 n Hn) as (_ & ? & _).
    + rewrite Et. eapply NoDup_names_sub; [apply sublist_filter|].
      change (map Name (reverse (running r))) with (Name <$> reverse (running r)).
      rewrite fmap_reverse. rewrite reverse_Permutation. done.
  - apply stops_follow_app; [done|]. intros n Hn%Hsub.
    apply list_elem_of_fmap in Hn as (c & -> & Hc). by apply i_running0.
Qed.

Lemma inv_op r trace o r' events : inv r trace -> exec_op r o = Some (r', events) -> inv r' (trace ++ events).
Proof.
  intros Hi. destruct o as [c|stage start_ok|b]; simpl.
  - destruct (Register r c) as [r1|] eqn:E; [|done]. intros [= <- <-]. rewrite app_nil_r.
    by eapply inv_register.
  - destruct (_ && _); [|done]. destruct (Start start_ok r stage) as [[r1 ok] ev] eqn:E.
    intros [= <- <-]. by eapply inv_start.
  - intros [= <- <-]. by apply inv_stop.
Qed.

Lemma inv_ops r trace ops r' events :
  inv r trace -> exec_ops r ops = Some (r', events) -> inv r' (trace ++ events).
Proof.
  revert r trace events. induction ops as [|o ops IH]; intros r trace events Hi; simpl.
  { intros [= <- <-]. by rewrite app_nil_r. }
  intros ([r1 e1] & E1 & ([r2 e2] & E2 & [= <- <-])%bind_Some)%bind_Some.
  rewrite app_assoc. eapply IH; [|done]. by eapply inv_op.
Qed.

Lemma inv_empty : inv empty_registry [].
Proof.
  split; simpl; try (intros ? []%elem_of_nil); [constructor..|].
  intros before n b after E. by destruct before.
Qed.

Lemma stop_events_app b l1 l2 : stop_events b (l1 ++ l2) = stop_events b l2 ++ stop_events b l1.
Proof. unfold stop_events. by rewrite reverse_app, omap_app. Qed.

(** A provider is stopped on what is left of the shutdown's context. *)
Lemma stop_events_providers b l :
  Forall (fun c => Stage c = StageProvider) l -> stop_events b l = stop_events false l.
Proof.
  intros H. apply Forall_reverse in H. unfold stop_events.
  induction H as [|c l' Hc _ IH]; [done|]. csimpl. rewrite Hc, IH. by rewrite Z.eqb_refl, andb_false_r.
Qed.

(** C35: whatever the registrations, starts and stops and whichever starts
    fail, no component is started twice, none is stopped twice, and one is
    stopped only after a start of it has succeeded. *)
Theorem started_and_stopped_once ops r trace
    (H : exec_ops empty_registry ops = Some (r, trace)) :
  NoDup (start_calls trace) /\ NoDup (stop_calls trace) /\
  forall n before b after, trace = before ++ EvStop n b :: after -> EvStart n true ∈ before.
Proof.
  pose proof (inv_ops _ _ _ _ _ inv_empty H) as Hi. simpl in Hi.
  split; [by eapply i_once|]. split; [by eapply i_stopped_once|].
  intros n before b after E. by eapply (i_order _ _ Hi).
Qed.

(** A bootstrap that starts both stages starts the enabled components of
    each in the order of their names, whatever the order of registration, the
    providers first, every logger of a stage bound before; a stop then calls
    the stops in the reverse order, the components before the providers, only
    the components on a context that has ended when the process failed now,
    and leaves nothing running; and a start that fails leaves running exactly
    the components started before it. *)
Lemma bootstrap_order ops r0 trace start_ok r1 e1 ok1 r2 e2 ok2 failed_now
    (Hreach : exec_ops empty_registry ops = Some (r0, trace))
    (Hrunning : running r0 = [])
    (Hp : started r0 StageProvider = false) (Hc : started r0 StageComponent = false)
    (H1 : Start start_ok r0 StageProvider = (r1, ok1, e1))
    (H2 : Start start_ok r1 StageComponent = (r2, ok2, e2)) :
  let enabled stage := filter is_enabled (componentsOf r0 stage) in
  let calls e := start_calls e in
  (forall r stage, components r ≡ₚ components r0 -> componentsOf r0 stage = componentsOf r stage) /\
  (forall stage, Sorted name_le (componentsOf r0 stage)) /\
  (ok1 = true -> calls e1 = map Name (enabled StageProvider)) /\
  (ok1 = false -> exists l c rest, enabled StageProvider = l ++ c :: rest /\ start_ok c = false /\
     running r1 = l /\ calls e1 = map Name l ++ [Name c]) /\
  (ok1 = true -> ok2 = true ->
     calls e2 = map Name (enabled StageComponent) /\
     (Stop r2 failed_now).2 =
       stop_events failed_now (enabled StageComponent) ++ stop_events false (enabled StageProvider) /\
     running (Stop r2 failed_now).1 = []).
Proof.
  intros enabled calls.
  pose proof (inv_ops _ _ _ _ _ inv_empty Hreach) as Hi.
  assert (forall stage c, c ∈ enabled stage -> Stage c = stage) as Hstage.
  { intros stage c Hc'. unfold enabled in Hc'. apply list_elem_of_filter in Hc' as [_ Hc'].
    by apply elem_of_componentsOf in Hc' as [_ ?]. }
  apply Start_ok in H1 as [(? & _)|(_ & l1 & rest1 & El1 & _ & -> & Hok1 & Hrest1 & ->)]; [congruence|].
  fold (enabled StageProvider) in El1.
  split; [|split; [|split; [|split]]].
  - intros r stage Hperm. symmetry in Hperm. by apply componentsOf_canonical; [eapply i_names|].
  - intros stage. apply (Sorted_merge_sort _).
  - intros ->. assert (rest1 = []) as -> by by apply Hok1. rewrite app_nil_r in El1. unfold calls.
    rewrite !start_calls_app, (proj1 (bind_loggers_calls _)), (proj1 (start_events_calls l1)), El1.
    by rewrite app_nil_r.
  - intros ->. destruct rest1 as [|c rest1]; [by destruct Hok1 as [_ Hok1]; specialize (Hok1 eq_refl)|].
    exists l1, c, rest1. split; [done|]. split; [done|]. split.
    + simpl. by rewrite Hrunning.
    + unfold calls. by rewrite !start_calls_app, (proj1 (bind_loggers_calls _)), (proj1 (start_events_calls l1)).
  - intros -> ->. assert (rest1 = []) as -> by by apply Hok1. rewrite app_nil_r in El1.
    apply Start_ok in H2 as [(_ & _ & ? & _)|(_ & l2 & rest2 & El2 & _ & -> & Hok2 & _ & ->)]; [done|].
    assert (rest2 = []) as -> by by apply Hok2. rewrite app_nil_r in El2.
    change (filter is_enabled _) with (enabled StageComponent) in El2.
    split; [|split; [|done]].
    + unfold calls. rewrite !start_calls_app, (proj1 (bind_loggers_calls _)), (proj1 (start_events_calls l2)).
      by rewrite <- El2, app_nil_r.
    + unfold Stop. simpl. rewrite Hrunning. simpl. rewrite stop_events_app, El1, El2. f_equal.
      apply stop_events_providers. apply Forall_forall. intros c Hc'. apply Hstage. by rewrite El1.
Qed.

(** ** Failures *)

(** The first failure is the reason the process ends, and later ones
    change nothing; failing now also ends the waits, and abandoning the waits
    is no failure. *)
Lemma first_failure_is_the_reason (f : failures) (e : option err) :
  let f1 := Fail f e in let f2 := FailNow f e in let f3 := AbandonWaits f e in
  failure f1 = Some (default (orUnexplained e) (failure f)) /\ failedNow f1 = failedNow f /\
  failure f2 = failure f1 /\ failedNow f2 = Some (default (orUnexplained e) (failedNow f)) /\
  failure f3 = failure f /\ failedNow f3 = failedNow f2.
Proof. destruct f as [[?|] [?|]]; simpl; done. Qed.

(** ** Interruptions *)

(** The leaves of an error's tree; a join of nothing is a leaf of its own. *)
Fixpoint leaves (e : err) : list (option (nat * list nat)) :=
  match e with
  | Leaf id _ says => [Some (id, says)]
  | Wrap next => leaves next
  | Joined _ members => match members with [] => [None] | _ => flat_map leaves members end
  end.

(** A leaf that is one of the endings, or says it is. *)
Definition is_ending (endings : list err) (leaf : option (nat * list nat)) : Prop :=
  match leaf with
  | Some (id, says) => exists t, t ∈ endings /\ isLeaf id says t = true
  | None => False
  end.

Lemma onlyEnding_ok e endings :
  onlyEnding e endings = true <-> Forall (is_ending endings) (leaves e).
Proof.
  revert e. fix IH 1. intros [id cmp says|next|id members]; cbn [onlyEnding leaves].
  - rewrite Forall_singleton, existsb_exists. simpl. setoid_rewrite list_elem_of_In. done.
  - apply IH.
  - destruct members as [|m0 ms0]; [rewrite Forall_singleton; by split|].
    generalize (m0 :: ms0). clear m0 ms0. intros members.
    induction members as [|m ms IHm]; cbn [forallb flat_map]; [by split; [constructor|]|].
    rewrite andb_true_iff, Forall_app, IH, IHm. done.
Qed.

(** An error counts as an interruption exactly when the context has ended
    and every leaf of the error's tree is what it ended with, its error or
    its cause: wrapping the ending keeps it one, and joining it with anything
    else makes it a failure. *)
Lemma Interrupted_spec (ending : option (err * err)) (e : option err) :
  (Interrupted ending e = true <->
     exists ctxErr cause e0, ending = Some (ctxErr, cause) /\ e = Some e0 /\
       Forall (is_ending [innermost ctxErr; innermost cause]) (leaves e0)) /\
  (forall e0, Interrupted ending (Some (Wrap e0)) = Interrupted ending (Some e0)) /\
  (forall id e1 e2, Interrupted ending (Some (Joined id [e1; e2])) =
     Interrupted ending (Some e1) && Interrupted ending (Some e2)).
Proof.
  split; [|split].
  - unfold Interrupted. destruct ending as [[ctxErr cause]|], e as [e0|]; try (split; [done|];
      by intros (? & ? & ? & ? & ? & _)).
    rewrite onlyEnding_ok. split; [eauto 6|]. by intros (? & ? & ? & [= <- <-] & [= <-] & ?).
  - intros e0. by destruct ending as [[]|].
  - intros id e1 e2. destruct ending as [[]|]; [|done]. simpl. by rewrite andb_true_r.
Qed.

(** ** Witnesses *)

Definition sample_ops : list op :=
  [ORegister (mkComponent "leader" StageComponent true None true true);
   ORegister (mkComponent " redis" StageProvider true (Some true) false true);
   ORegister (mkComponent "kafka" StageProvider true (Some false) false true);
   ORegister (mkComponent "cronjob" StageComponent true None true true)].

Definition sample_registry : registry :=
  Eval vm_compute in match exec_ops empty_registry sample_ops with Some (r, _) => r | None => empty_registry end.

Lemma started_and_stopped_once_witness :
  exists r trace,
    exec_ops empty_registry (sample_ops ++
      [OStart StageProvider (fun _ => true); OStart StageComponent (fun _ => true); OStop true; OStop true])
    = Some (r, trace) /\
    start_calls trace = ["redis"; "cronjob"; "leader"]%string /\
    stop_calls trace = ["leader"; "cronjob"; "redis"]%string /\ NoDup (stop_calls trace).
Proof.
  do 2 eexists. split; [vm_compute; reflexivity|]. split; [reflexivity|]. split; [reflexivity|].
  eapply (started_and_stopped_once (sample_ops ++
    [OStart StageProvider (fun _ => true); OStart StageComponent (fun _ => true); OStop true; OStop true])).
  vm_compute. reflexivity.
Defined.

Lemma bootstrap_order_witness :
  (Stop (Start (fun _ => true) (Start (fun _ => true) sample_registry StageProvider).1.1 StageComponent).1.1
     true).2 =
  stop_events true (filter is_enabled (componentsOf sample_registry StageComponent)) ++
  stop_events false (filter is_enabled (componentsOf sample_registry StageProvider)).
Proof.
  refine (proj1 (proj2 (proj2 (proj2 (proj2 (proj2 (bootstrap_order sample_ops sample_registry [] (fun _ => true)
    (Start (fun _ => true) sample_registry StageProvider).1.1
    (Start (fun _ => true) sample_registry StageProvider).2
    true
    (Start (fun _ => true) (Start (fun _ => true) sample_registry StageProvider).1.1 StageComponent).1.1
    (Start (fun _ => true) (Start (fun _ => true) sample_registry StageProvider).1.1 StageComponent).2
    true true _ _ _ _ _ _)))) eq_refl eq_refl))); vm_compute; reflexivity.
Defined.
