(* ===== verification/LeaseClients.v ===== *)
(** * The users of a lease

    Models [Run] of [internal/lease/hold.go], the leader ([leader/leader.go],
    [leader/work.go]) and the lock ([lock/lock.go]): how work under a lease
    is waited for, what registers under which name, and what each user does
    with the lease once its work has returned. *)

From stdpp Require Import base list strings.
From Stdlib Require Import ZArith Lia.
From S2P Require Import Prelude GoStrings Lease LeaseSystem Lifecycle.
Import Lease LeaseSystem.System.
Local Open Scope Z_scope.

(** ** [Run] *)

(** What [Run] waits on: the work returning, the handle lost, its context
    ending, with a lost lease as the cause or not, and the grace running out. *)
Inductive run_event : Type :=
| WorkReturned (e : option Lifecycle.err)
| HandleLost
| CtxDone (lost_cause : bool)
| GraceOver.

(** Where it waits: on everything, on the work and the handle once the process
    shuts down, for the grace, and for the work of a process that has failed. *)
Inductive run_state : Type := Watching | Winding | Grace | Failed.

(** [Err] is the return of [Run], with whether the process was failed. *)
Definition run_step (s : run_state) (ev : run_event) : result (option Lifecycle.err) run_state :=
  match ev with
  | WorkReturned e => Err e
  | HandleLost => match s with Watching | Winding => Ok Grace | s => Ok s end
  | CtxDone lost_cause =>
      match s with
      | Watching => Ok (if lost_cause then Grace else Winding)
      | s => Ok s
      end
  | GraceOver => match s with Grace => Ok Failed | s => Ok s end
  end.

(** The return of [Run], [None] while it waits, and whether it has called
    [fail]. *)
Fixpoint run_work (s : run_state) (evs : list run_event) : option (option Lifecycle.err) * bool :=
  match evs with
  | [] => (None, match s with Failed => true | _ => false end)
  | ev :: evs =>
      match run_step s ev with
      | Err e => (Some e, match s with Failed => true | _ => false end)
      | Ok s => run_work s evs
      end
  end.

(** ** Registration *)

Inductive kind : Set := CronKind | LeaderKind | LockKind.

Definition lease_prefix (k : kind) : string :=
  match k with CronKind => "cron:" | LeaderKind => "leader:" | LockKind => "lock:" end.

Definition leaseName (k : kind) (name : string) : string := String.append (lease_prefix k) name.

Inductive reg_error : Set :=
| NoName | NilFunction (name : string) | RegisteredTwice (name : string)
| InvalidLease (name : string) (e : Lease.error).

(** [newWork]. *)
Definition newWork (works : list string) (has_fn : bool) (name : string) : result reg_error string :=
  let name := TrimSpace name in
  if String.eqb name "" then Err NoName
  else if negb has_fn then Err (NilFunction name)
  else if existsb (String.eqb name) works then Err (RegisteredTwice name)
  else
    match ValidateName (leaseName LeaderKind name) with
    | Err e => Err (InvalidLease name e)
    | Ok _ => Ok name
    end.

(** The declarations of a lock, up to the panic of a late one. *)
Definition newLock (locks : list string) (name : string) : result reg_error string :=
  let name := TrimSpace name in
  if String.eqb name "" then Err NoName
  else if existsb (String.eqb name) locks then Err (RegisteredTwice name)
  else
    match ValidateName (leaseName LockKind name) with
    | Err e => Err (InvalidLease name e)
    | Ok _ => Ok name
    end.

(** What a package has registered: the names, the registrations it could not
    honor, and whether it has started. *)
Record declared : Type := mkDeclared { names : list string; refused : list reg_error; checked : bool }.

Definition nothing_declared : declared := mkDeclared [] [] false.

(** [None] is the panic of a registration after the start. *)
Definition declare (d : declared) (new : list string -> result reg_error string) : option declared :=
  if checked d then None
  else
    match new (names d) with
    | Err e => Some (mkDeclared (names d) (refused d ++ [e]) false)
    | Ok name => Some (mkDeclared (names d ++ [name]) (refused d) false)
    end.

Definition Leader_Register (d : declared) (has_fn : bool) (name : string) : option declared :=
  declare d (fun works => newWork works has_fn name).
Definition Lock_New (d : declared) (name : string) : option declared :=
  declare d (fun locks => newLock locks name).

Inductive start_error : Type := Refused (es : list reg_error) | NeedsLease (name : string) (e : Lease.error).

(** [start], with what [lease.Available] answers. *)
Definition start (d : declared) (available : outcome unit) : result start_error declared :=
  match refused d with
  | e :: es => Err (Refused (e :: es))
  | [] =>
      match names d, available with
      | name :: _, Err e => Err (NeedsLease name e)
      | _, _ => Ok (mkDeclared (names d) [] true)
      end
  end.

(** ** After the work *)

Inductive lock_result : Type :=
| ErrInTransaction
| ClaimFailed (e : Lease.error)
| ErrHeld
| LockLost (work : option Lifecycle.err)   (* ErrLost, joined with the work's error *)
| LockReturned (work : option Lifecycle.err).

(** [TryRun], given what the claim answers, what the work returned and
    whether the handle is lost by then; and the statement that settles the
    lease. *)
Definition TryRun (in_transaction : bool) (claim : outcome (option Handle))
    (work : option Lifecycle.err) (lost : bool) : lock_result * option settle_op :=
  if in_transaction then (ErrInTransaction, None)
  else
    match claim with
    | Err e => (ClaimFailed e, None)
    | Ok None => (ErrHeld, None)
    | Ok (Some h) =>
        if lost then (LockLost work, None) else (LockReturned work, Some SettleRelease)
    end.

Inductive tenure_reason : Set := LeaseLost | ShuttingDown | WorkReturnedItself.

(** [tenureEnd]. *)
Definition tenureEnd (ending : option (Lifecycle.err * Lifecycle.err)) (lost : bool) :
    tenure_reason * bool :=
  if lost then (LeaseLost, true)
  else match ending with Some _ => (ShuttingDown, false) | None => (WorkReturnedItself, false) end.

(** [lead]: the reason logged, the error logged, and the settlement. *)
Definition lead (ending : option (Lifecycle.err * Lifecycle.err)) (work : option Lifecycle.err)
    (lost : bool) : tenure_reason * option Lifecycle.err * option settle_op :=
  let '(reason, lost) := tenureEnd ending lost in
  let err := if Interrupted ending work then None else work in
  (reason, err, if lost : bool then None else Some SettleRelease).

(** ** The campaign *)

Definition campaignInterval : Z := 5 * Second.
Definition campaignJitter : Z := Second.

(** [campaignWait], with the random share of the jitter. *)
Definition campaignWait (share : Z) : Z :=
  if campaignJitter <=? 0 then campaignInterval else campaignInterval + share.

(** One attempt of a campaign: what the claim answered, whether the context
    has ended, how long the tenure lasted if it was won, the share of the
    jitter and whether the wait ran out. *)
Record campaign : Type := mkCampaign {
  c_claim : outcome (option Handle); c_ended : bool; c_tenure : Z; c_share : Z; c_waited : bool
}.

(** The moments of the attempts, from the first. *)
Fixpoint campaign_loop (now : Z) (cs : list campaign) : list Z :=
  match cs with
  | [] => []
  | c :: cs =>
      let next led :=
        if c_waited c then campaign_loop (now + led + campaignWait (c_share c)) cs else [] in
      now :: match c_claim c with
             | Err _ => if c_ended c then [] else next 0
             | Ok (Some _) => next (c_tenure c)
             | Ok None => next 0
             end
  end.

(** ** What they promise *)

(** The work's return, the first if several are listed, with what came before. *)
Fixpoint before_return (evs : list run_event) : list run_event * option (option Lifecycle.err) :=
  match evs with
  | [] => ([], None)
  | WorkReturned e :: _ => ([], Some e)
  | ev :: evs => let '(l, r) := before_return evs in (ev :: l, r)
  end.

Definition is_loss (ev : run_event) : bool :=
  match ev with HandleLost | CtxDone true => true | _ => false end.

(** A loss Run reacts to: a context that ends twice ended the first time. *)
Fixpoint first_loss (shutting_down : bool) (evs : list run_event) : option (list run_event) :=
  match evs with
  | [] => None
  | HandleLost :: evs => Some evs
  | CtxDone lost_cause :: evs =>
      if lost_cause && negb shutting_down then Some evs else first_loss true evs
  | _ :: evs => first_loss shutting_down evs
  end.

Lemma run_failed evs : run_work Failed evs = ((before_return evs).2, true).
Proof.
  induction evs as [|[e| |[]|] evs IH]; simpl; rewrite ?IH; try done;
    by destruct (before_return evs).
Qed.

Definition is_grace (ev : run_event) : bool := match ev with GraceOver => true | _ => false end.

Lemma run_grace evs :
  run_work Grace evs = ((before_return evs).2, existsb is_grace (before_return evs).1).
Proof.
  induction evs as [|[e| |[]|] evs IH]; simpl; rewrite ?IH, ?run_failed; try done;
    by destruct (before_return evs).
Qed.

Lemma run_waiting (winding : bool) evs :
  run_work (if winding then Winding else Watching) evs =
    ((before_return evs).2,
     match first_loss winding (before_return evs).1 with
     | Some after => existsb is_grace after
     | None => false
     end).
Proof.
  revert winding. induction evs as [|ev evs IH]; intros winding; [by destruct winding|].
  pose proof (IH winding) as IHw. pose proof (IH true) as IHt.
  destruct ev as [e| |lc|]; cbn [run_work run_step before_return].
  - by destruct winding.
  - destruct winding; cbn; rewrite run_grace; by destruct (before_return evs).
  - destruct winding, lc; cbn; rewrite ?run_grace, ?IHw, ?IHt; by destruct (before_return evs).
  - destruct winding; cbn; rewrite IHw; by destruct (before_return evs).
Qed.

(** [Run] always returns what the work returned, and never before it; it
    fails the process exactly when the grace runs out between a loss of the
    lease and the work's return: a context that ends for another reason is no
    loss, and a loss found while the work winds down is one. *)
Lemma run_waits_for_the_work (evs : list run_event) :
  run_work Watching evs =
    ((before_return evs).2,
     match first_loss false (before_return evs).1 with
     | Some after => existsb is_grace after
     | None => false
     end).
Proof. exact (run_waiting false evs). Qed.

Lemma leaseName_inj k k' n n' : leaseName k n = leaseName k' n' -> k = k' /\ n = n'.
Proof.
  unfold leaseName. destruct k, k'; simpl; try discriminate; intros H; by simplify_eq.
Qed.

(** The names a package has declared are new, distinct and names the lease
    table holds. *)
Definition declared_ok (k : kind) (d : declared) : Prop :=
  NoDup (names d) /\ Forall (fun n => ValidateName (leaseName k n) = Ok tt) (names d).

Lemma ValidateName_unit n u : ValidateName n = Ok u -> ValidateName n = Ok tt.
Proof. by destruct u. Qed.

Lemma declare_ok k d d' new :
  declared_ok k d -> declare d new = Some d' ->
  (forall n, new (names d) = Ok n -> n ∉ names d /\ ValidateName (leaseName k n) = Ok tt) ->
  declared_ok k d'.
Proof.
  intros [Hn Hv] E Hnew. unfold declare in E. destruct (checked d); [done|].
  destruct (new (names d)) as [n|e] eqn:En; injection E as <-; [|done].
  destruct (Hnew n eq_refl) as [Hni Hval]. split; simpl.
  - apply NoDup_app. split; [done|]. split; [|apply NoDup_singleton].
    intros x Hx ->%list_elem_of_singleton. done.
  - apply Forall_app. split; [done|]. by apply Forall_singleton.
Qed.

Lemma not_registered (names : list string) n :
  existsb (String.eqb n) names = false -> n ∉ names.
Proof.
  intros H Hn. apply not_true_iff_false in H. apply H. apply existsb_exists. exists n.
  split; [by apply list_elem_of_In|apply String.eqb_refl].
Qed.

Lemma newWork_ok works has_fn name n :
  newWork works has_fn name = Ok n -> n ∉ works /\ ValidateName (leaseName LeaderKind n) = Ok tt.
Proof.
  unfold newWork. destruct (String.eqb _ ""); [done|]. destruct (negb has_fn); [done|].
  destruct (existsb _ works) eqn:E; [done|].
  destruct (ValidateName _) as [u|] eqn:Ev; [|done]. intros [= <-].
  split; [by apply not_registered|by eapply ValidateName_unit].
Qed.

Lemma newLock_ok locks name n :
  newLock locks name = Ok n -> n ∉ locks /\ ValidateName (leaseName LockKind n) = Ok tt.
Proof.
  unfold newLock. destruct (String.eqb _ ""); [done|].
  destruct (existsb _ locks) eqn:E; [done|].
  destruct (ValidateName _) as [u|] eqn:Ev; [|done]. intros [= <-].
  split; [by apply not_registered|by eapply ValidateName_unit].
Qed.

(** The registrations of a process, in any order; [None] is a panic. *)
Inductive registration : Type := RegisterLeader (has_fn : bool) (name : string) | NewLock (name : string).

Fixpoint register_all (leaders locks : declared) (rs : list registration) : option (declared * declared) :=
  match rs with
  | [] => Some (leaders, locks)
  | RegisterLeader has_fn name :: rs =>
      leaders ← Leader_Register leaders has_fn name; register_all leaders locks rs
  | NewLock name :: rs => locks ← Lock_New locks name; register_all leaders locks rs
  end.

Lemma register_all_ok rs leaders locks leaders' locks' :
  declared_ok LeaderKind leaders -> declared_ok LockKind locks ->
  register_all leaders locks rs = Some (leaders', locks') ->
  declared_ok LeaderKind leaders' /\ declared_ok LockKind locks'.
Proof.
  revert leaders locks. induction rs as [|[has_fn name|name] rs IH]; intros leaders locks H1 H2; simpl.
  - by intros [= <- <-].
  - intros (d & E & Hr)%bind_Some. eapply IH; [|done|done]. eapply declare_ok; [exact H1|exact E|].
    intros n. apply newWork_ok.
  - intros (d & E & Hr)%bind_Some. eapply IH; [done| |done]. eapply declare_ok; [exact H2|exact E|].
    intros n. apply newLock_ok.
Qed.

Lemma NoDup_lease_names k l : NoDup l -> NoDup (map (leaseName k) l).
Proof. apply (NoDup_fmap_2_strong (leaseName k)). intros x y _ _ E. by apply leaseName_inj in E as [_ ?]. Qed.

(** Whatever a process registers, its leader work and its locks campaign
    for and claim distinct names, each one the lease table holds, apart from
    each other and from every job's; and a start refuses them together when
    one registration was refused, or when there is one and the database
    cannot carry a lease. *)
Lemma lease_names_apart rs leaders locks available
    (H : register_all nothing_declared nothing_declared rs = Some (leaders, locks)) :
  NoDup (map (leaseName LeaderKind) (names leaders) ++ map (leaseName LockKind) (names locks)) /\
  Forall (fun n => ValidateName n = Ok tt)
    (map (leaseName LeaderKind) (names leaders) ++ map (leaseName LockKind) (names locks)) /\
  (forall n, leaseName CronKind n ∉
     map (leaseName LeaderKind) (names leaders) ++ map (leaseName LockKind) (names locks)) /\
  (is_ok (start leaders available) = true <->
     refused leaders = [] /\ (names leaders = [] \/ is_ok available = true)).
Proof.
  assert (forall k, declared_ok k nothing_declared) as H0 by (intros k; split; constructor).
  destruct (register_all_ok rs _ _ _ _ (H0 _) (H0 _) H) as [[Hn1 Hv1] [Hn2 Hv2]].
  split; [|split; [|split]].
  - apply NoDup_app. split; [by apply NoDup_lease_names|]. split; [|by apply NoDup_lease_names].
    intros n (a & -> & _)%list_elem_of_fmap (b & E & _)%list_elem_of_fmap.
    by apply leaseName_inj in E as [? _].
  - rewrite Forall_app, !Forall_fmap. done.
  - intros n [(a & E & _)%list_elem_of_fmap|(a & E & _)%list_elem_of_fmap]%elem_of_app;
      by apply leaseName_inj in E as [? _].
  - unfold start. destruct (refused leaders) as [|e es]; [|split; [done|by intros []]].
    destruct (names leaders) as [|n ns], available as [u|e]; simpl; intuition congruence.
Qed.

(** A lock whose lease was lost reports it whatever its work returned and
    gives nothing back, one still held gives its name back and reports its
    work's own result, and nothing is claimed inside a transaction; a leader
    gives its name back exactly when it is still its own, and reports an
    error of its work only when the error is not the ending of its tenure. *)
Lemma clients_settle (in_transaction lost : bool) claim ending work :
  let '(r, settled) := TryRun in_transaction claim work lost in
  let '(reason, reported, given_back) := lead ending work lost in
  (settled = Some SettleRelease <->
     in_transaction = false /\ lost = false /\ exists h, claim = Ok (Some h)) /\
  (forall op, settled = Some op -> op = SettleRelease) /\
  (r = LockReturned work <-> settled = Some SettleRelease) /\
  (in_transaction = false -> lost = true -> (exists h, claim = Ok (Some h)) -> r = LockLost work) /\
  (given_back = Some SettleRelease <-> lost = false) /\ (given_back = None <-> lost = true) /\
  (reported = None <-> work = None \/ Interrupted ending work = true) /\
  (reason = LeaseLost <-> lost = true).
Proof.
  unfold TryRun, lead, tenureEnd. destruct in_transaction, lost, claim as [[h|]|e], ending as [en|];
    destruct (Interrupted _ work) eqn:Ei, work as [w|]; simpl; repeat split; intros;
    repeat match goal with H : _ /\ _ |- _ => destruct H | H : exists _, _ |- _ => destruct H | H : _ \/ _ |- _ => destruct H end;
    (congruence || (eexists; reflexivity) || (left; congruence) || (right; congruence)).
Qed.

(** The wait between two attempts is within the campaign interval and its
    jitter: a name given back is asked for again within six seconds by each
    candidate, and one whose holder died within twenty-one. *)
Lemma campaignWait_bounds share :
  0 <= share < campaignJitter ->
  campaignInterval <= campaignWait share < 6 * Second /\
  leaseDuration + campaignWait share < 21 * Second.
Proof. unfold campaignWait, campaignInterval, campaignJitter, leaseDuration, Second. simpl. lia. Qed.

(** A campaign never spins: an attempt is at least the interval after the one
    before it, work that returns at once included. *)
Lemma campaign_spaced now cs :
  Forall (fun c => 0 <= c_tenure c /\ 0 <= c_share c) cs ->
  match campaign_loop now cs with
  | first :: second :: _ => first + campaignInterval <= second
  | _ => True
  end.
Proof.
  intros H. destruct cs as [|c cs]; [done|]. apply Forall_cons in H as [[Ht Hs] _].
  assert (forall led, 0 <= led ->
    match (if c_waited c then campaign_loop (now + led + campaignWait (c_share c)) cs else []) with
    | second :: _ => now + campaignInterval <= second
    | [] => True
    end) as Hnext.
  { intros led Hled. destruct (c_waited c); [|done]. destruct cs as [|c' cs]; [done|].
    unfold campaignWait, campaignInterval, campaignJitter, Second. cbn. lia. }
  cbn [campaign_loop]. destruct (c_claim c) as [[h|]|e].
  - specialize (Hnext (c_tenure c) Ht). by destruct (if c_waited c then _ else _).
  - specialize (Hnext 0 ltac:(lia)). by destruct (if c_waited c then _ else _).
  - destruct (c_ended c); [done|]. specialize (Hnext 0 ltac:(lia)). by destruct (if c_waited c then _ else _).
Qed.

(** ** Witnesses *)

Lemma lease_names_apart_witness :
  exists leaders locks,
    register_all nothing_declared nothing_declared
      [RegisterLeader true "relay"; NewLock " relay "; NewLock "relay"; RegisterLeader true "poller"]
    = Some (leaders, locks) /\
    refused locks = [RegisteredTwice "relay"] /\
    NoDup (map (leaseName LeaderKind) (names leaders) ++ map (leaseName LockKind) (names locks)).
Proof.
  do 2 eexists. split; [vm_compute; reflexivity|]. split; [reflexivity|].
  eapply (lease_names_apart
    [RegisterLeader true "relay"; NewLock " relay "; NewLock "relay"; RegisterLeader true "poller"] _ _ (Ok tt)).
  vm_compute. reflexivity.
Defined.
