(* ===== verification/CronJob.v ===== *)
(** * One job of the scheduler

    Models [cronjob/job.go] and the sweep of [cronjob/cronjob.go]: the loop
    over the instants of a job, the catch-up of a starting replica, the tries
    of a claim, the settlement of a round, and the rounds cut short the sweep
    hands in. *)

From stdpp Require Import base list strings gmap sorting.
From Stdlib Require Import ZArith Lia.
From S2P Require Import Prelude Lease LeaseSystem CronSchedule Lifecycle.
Import Lease LeaseSystem.System.
Local Open Scope Z_scope.

(** ** The loop *)

(** What the loop's [select] took, and what the clock read when the round
    ended: the timer, a round cut short handed in, or the context's end. *)
Inductive happening : Type :=
| Due (ended : Z)
| HandedIn (u : Unfinished) (ran : bool) (ended : Z)
| ContextDone.

(** A round the loop ran, or tried to: the instant, whether it is one the
    schedule owes, the one caught up among them, or a second run, and when it
    ended. *)
Record attempt : Type := mkAttempt { at_ : Z; scheduled : bool; ended_at : Z }.

Section Loop.
Context (Next : schedule).

(** *** The catch-up *)

(** The instant a starting replica tries to run, from the last one on record. *)
Definition catchUp (now : Z) (last_slot : outcome (option Z)) : option Z :=
  match previousInstant Next now with
  | (Some prev, true) =>
      match last_slot with
      | Ok (Some last) => if last <? prev then Some prev else None
      | _ => None
      end
  | _ => None
  end.

(** A replica starting: what its clock reads, what it reads of the last instant
    on record, whether it wins the claim of the instant it catches up, and
    when that round ends. *)
Record startup : Type := mkStartup { started_at : Z; LastSlot : outcome (option Z); caught : bool; caught_up_at : Z }.

(** *** Its turns *)

(** Rounds in the order they ran.  The loop ends with its context, or when no
    instant is left. *)
Fixpoint turns (next : option Z) (hs : list happening) : list attempt :=
  match next, hs with
  | None, _ | _, [] | _, ContextDone :: _ => []
  | Some next, Due ended :: hs =>
      mkAttempt next true ended :: turns (nextAfter Next ended next).1 hs
  | Some next, HandedIn u ran ended :: hs =>
      if ran : bool
      then mkAttempt (u_Slot u) false ended :: turns (nextAfter Next ended (u_Slot u)).1 hs
      else turns (Some next) hs
  end.

(** [loop]: a job under a lease first catches up. *)
Definition loop (perInstance : bool) (up : startup) (next : option Z) (hs : list happening) : list attempt :=
  if perInstance then turns next hs
  else
    match catchUp (started_at up) (LastSlot up) with
    | Some ran =>
        if caught up then mkAttempt ran true (caught_up_at up) :: turns (nextAfter Next (caught_up_at up) ran).1 hs
        else turns next hs
    | None => turns next hs
    end.

(** ** The tries of a claim *)

(** One try: what [ClaimSlot] answered, whether the context has ended, what
    the clock reads when it failed, and whether the context ends while the
    next try is waited for. *)
Record claim_try : Type := mkTry {
  answer : outcome (option Handle); ctx_ended : bool; failed_at : Z; ended_waiting : bool
}.

(** The answer of [claimSlot], [None] while it is still trying, and the
    moments the tries after the first are due at. *)
Fixpoint claimSlot (following : option Z) (tries : list claim_try) :
    option (outcome (option Handle)) * list Z :=
  match tries with
  | [] => (None, [])
  | t :: tries =>
      match answer t with
      | Ok h => (Some (Ok h), [])
      | Err e =>
          if ctx_ended t then (Some (Err e), [])
          else
            let retryAt := failed_at t + RetryInterval in
            if match following with Some f => negb (retryAt <? f) | None => false end
            then (Some (Err e), [])
            else if ended_waiting t then (Some (Err e), [])
            else let '(r, due) := claimSlot following tries in (r, retryAt :: due)
      end
  end.

(** ** The settlement of a round *)

(** The zero time, which [Finish] is handed when no instant has come by. *)
Definition zero_time : Z := - 62135596800 * Second.

(** [runClaimed] once [Run] has returned: whether the round ran to its end,
    and the statement that settles it. *)
Definition runClaimed (ending : option (Lifecycle.err * Lifecycle.err))
    (runErr : option Lifecycle.err) (lost : bool) (now : Z) : option settle_op :=
  let finished := negb (Interrupted ending runErr) in
  if finished then Some (SettleFinish (default zero_time (previousInstant Next now).1))
  else if lost then None
  else Some SettleRelease.
End Loop.

(** ** The sweep *)

(** The channels hold one round each; a full one keeps the round it has. *)
Fixpoint hand_in (rounds : list Unfinished) (channels : gmap string (option Unfinished)) :
    gmap string (option Unfinished) :=
  match rounds with
  | [] => channels
  | u :: rounds =>
      hand_in rounds
        (match channels !! u_Name u with
         | Some None => <[u_Name u := Some u]> channels
         | _ => channels
         end)
  end.

(** ** What they do *)

(** Each attempt the schedule owes lies past the attempt before it: past its
    instant, and past its end. *)
Fixpoint never_piled (before : option attempt) (l : list attempt) : Prop :=
  match l with
  | [] => True
  | a :: l =>
      (scheduled a = true -> match before with
                             | Some b => at_ b < at_ a /\ ended_at b < at_ a
                             | None => True
                             end) /\ never_piled (Some a) l
  end.

Section LoopSpec.
Context (Next : schedule) (instant : Z -> Prop) (from to : Z).
Context `{!Schedule Next instant from to}.

(** The moments of a happening lie in the range of the schedule. *)
Definition in_range (h : happening) : Prop :=
  match h with
  | Due ended => ended <= to
  | HandedIn u _ ended => from <= u_Slot u <= to /\ ended <= to
  | ContextDone => True
  end.

Lemma turns_ok before next hs :
  Forall in_range hs ->
  match next with
  | Some n => instant n /\ from <= n /\
      match before with Some b => at_ b < n /\ ended_at b < n | None => True end
  | None => True
  end ->
  Forall (fun a => from <= at_ a <= to) (turns Next next hs) ->
  never_piled before (turns Next next hs) /\
  Forall (fun a => scheduled a = true -> instant (at_ a)) (turns Next next hs).
Proof.
  intros Hr. revert before next. induction Hr as [|h hs Hh Hr IH]; intros before next Hnext Ha.
  { destruct next; by split; [|constructor]. }
  destruct next as [n|]; [|by split; [|constructor]].
  destruct Hnext as (Hi & Hfrom & Hb).
  assert (forall a, from <= at_ a <= to -> ended_at a <= to ->
    Forall (fun a => from <= at_ a <= to) (turns Next (nextAfter Next (ended_at a) (at_ a)).1 hs) ->
    never_piled (Some a) (turns Next (nextAfter Next (ended_at a) (at_ a)).1 hs) /\
    Forall (fun a => scheduled a = true -> instant (at_ a))
      (turns Next (nextAfter Next (ended_at a) (at_ a)).1 hs)) as Hgo.
  { intros a Hat Hen. pose proof (nextAfter_ok Next instant from to (ended_at a) (at_ a) Hat Hen) as Hna.
    destruct (nextAfter Next (ended_at a) (at_ a)) as [[m|] skipped]; cbn [fst].
    - apply IH. destruct Hna as (? & ? & ? & _). split; [done|]. split; [lia|]. done.
    - by apply IH. }
  destruct h as [en|u [] en|]; cbn [turns] in *.
  - apply Forall_cons in Ha as [Ha1 Ha]. cbn [at_] in Ha1.
    destruct (Hgo (mkAttempt n true en) Ha1 Hh Ha) as [H1 H2]. split.
    + split; [done|]. exact H1.
    + constructor; [done|]. exact H2.
  - apply Forall_cons in Ha as [Ha1 Ha]. destruct Hh as [Hu Hen].
    destruct (Hgo (mkAttempt (u_Slot u) false en) Hu Hen Ha) as [H1 H2]. split.
    + split; [done|]. exact H1.
    + constructor; [done|]. exact H2.
  - by apply IH.
  - by split; [|constructor].
Qed.

Lemma catchUp_instant now last ran : spaced instant -> from <= now - catchUpLookback -> now <= to ->
  catchUp Next now last = Some ran -> instant ran /\ from <= ran <= to.
Proof.
  intros Hsp Hlo Hhi. pose proof (previousInstant_ok Next instant from to now Hsp Hlo Hhi) as Hp. unfold catchUp.
  destruct (previousInstant Next now) as [[p|] []]; try done. destruct Hp as (Hi & Hr & _). destruct last as [[l|]|]; [|done..].
  destruct (l <? p); [|done]. intros [= <-]. split; [done|lia].
Qed.

(** The rounds of a loop: an instant caught up, if any, before the turns. *)
Lemma loop_ok (perInstance : bool) up next hs : spaced instant -> from <= started_at up - catchUpLookback -> started_at up <= to -> caught_up_at up <= to ->
  Forall in_range hs -> match next with Some n => instant n /\ from <= n | None => True end ->
  Forall (fun a => from <= at_ a <= to) (loop Next perInstance up next hs) ->
  never_piled None (loop Next perInstance up next hs) /\
  Forall (fun a => scheduled a = true -> instant (at_ a)) (loop Next perInstance up next hs).
Proof.
  intros Hsp Hlo Hhi Hup Hr Hnext. unfold loop.
  assert (Forall (fun a => from <= at_ a <= to) (turns Next next hs) -> never_piled None (turns Next next hs) /\
    Forall (fun a => scheduled a = true -> instant (at_ a)) (turns Next next hs)) as Hplain.
  { intros Ha. apply turns_ok; [done| |done]. destruct next as [n|]; [|done]. by destruct Hnext. }
  destruct perInstance; [exact Hplain|]. destruct (catchUp _ _ _) as [ran|] eqn:E; [|exact Hplain]. destruct (caught up); [|exact Hplain].
  destruct (catchUp_instant _ _ _ Hsp Hlo Hhi E) as [Hi Hran]. intros [_ Ha]%Forall_cons.
  destruct (turns_ok (Some (mkAttempt ran true (caught_up_at up))) (nextAfter Next (caught_up_at up) ran).1 hs Hr) as [H1 H2]; [|exact Ha|].
  - pose proof (nextAfter_ok Next instant from to (caught_up_at up) ran Hran Hup) as Hna.
    destruct (nextAfter Next (caught_up_at up) ran) as [[m|] skipped]; cbn [fst]; [|done]. destruct Hna as (? & ? & ? & _). split; [done|]. split; [lia|done].
  - split; [split; [done|exact H1]|]. constructor; [done|exact H2].
Qed.
End LoopSpec.
