(* ===== verification/CronSpec.v ===== *)
(** * What the scheduler promises of a job

    The instants a job runs are those of its schedule, none is piled on a
    round still running, the catch-up finds the most recent one, a claim is
    tried until the next instant is near, and a round is settled by how it
    ended. *)

From stdpp Require Import base list strings gmap sorting.
From Stdlib Require Import ZArith Lia.
From S2P Require Import Prelude Lease LeaseSystem CronSchedule Lifecycle LifecycleSpec CronJob.
Import Lease LeaseSystem.System.
Local Open Scope Z_scope.

(** A starting replica catches up exactly the most recent instant of the
    job, when one has passed within the last day, the job has an instant on
    record, and the one on record is earlier; the bisection over a schedule
    that only answers forwards finds it within its rounds. *)
Lemma catchUp_most_recent (Next : schedule) (instant : Z -> Prop) (from to now : Z)
    (last : outcome (option Z)) (HS : Schedule Next instant from to) (Hsp : spaced instant)
    (Hlo : from <= now - catchUpLookback) (Hhi : now <= to) :
  match catchUp Next now last with
  | Some p =>
      instant p /\ now - catchUpLookback < p <= now /\ (forall m, instant m -> m <= now -> m <= p) /\
      exists l, last = Ok (Some l) /\ l < p
  | None =>
      forall l, last = Ok (Some l) ->
        forall m, instant m -> now - catchUpLookback < m <= now -> m <= l
  end.
Proof.
  pose proof (previousInstant_ok Next instant from to now Hsp Hlo Hhi) as Hp. unfold catchUp.
  destruct (previousInstant Next now) as [[p|] []]; try done.
  - destruct Hp as (Hi & Hr & Hmax). destruct last as [[l|]|e]; [|by intros l|by intros l].
    destruct (Z.ltb_spec l p); [eauto 6|]. intros l' [= <-] m Hm Hmr.
    specialize (Hmax m Hm ltac:(lia)). lia.
  - intros l _ m Hm Hmr. specialize (Hp m Hm ltac:(lia)). lia.
Qed.

(** Attempts none of which is a second run are in the order of their
    instants. *)
Lemma unpiled_sorted l b : never_piled b l -> Forall (fun a => scheduled a = true) l -> StronglySorted Z.lt (map at_ l).
Proof.
  revert b. induction l as [|a l IH]; intros b Hn Hsch; [constructor|].
  apply Forall_cons in Hsch as [Ha Hsch]. destruct Hn as [_ Hn]. simpl. constructor; [by eapply IH|].
  clear IH Ha b. revert a Hn. induction l as [|a' l IH]; intros a Hn; [constructor|].
  apply Forall_cons in Hsch as [Ha' Hsch]. destruct Hn as [Hlt Hn]. specialize (Hlt Ha').
  simpl in Hlt. constructor; [lia|]. eapply Forall_impl; [by apply (IH Hsch a')|]. simpl. lia.
Qed.

Lemma turns_scheduled Next o hs : Forall (fun h => match h with HandedIn _ _ _ => False | _ => True end) hs ->
  Forall (fun a => scheduled a = true) (turns Next o hs).
Proof.
  revert o. induction hs as [|h hs IH]; intros o Hs; [destruct o; constructor|].
  apply Forall_cons in Hs as [Hh Hs]. destruct o as [n|]; [|constructor].
  destruct h as [en|u ran en|]; [|done|constructor]. cbn [turns]. constructor; [done|by apply IH].
Qed.

(** C36: the instants a loop runs as their schedule owes them, the one a
    starting replica catches up among them, are instants of the schedule, each
    past the instant and past the end of the round before it, be that the one
    caught up, one on schedule or the second run of one cut short, and
    whatever the wall clock does: none is handed out twice and none is piled
    on a round; and the number of instants reported skipped after a round is
    the number of those between it and the next.  (A second run is of an
    instant that passed before.) *)
Theorem loop_never_piles_up (Next : schedule) (instant : Z -> Prop) (from to start : Z) perInstance up hs
    (HS : Schedule Next instant from to) (Hsp : spaced instant) (Hstart : from <= start <= to)
    (Hlo : from <= started_at up - catchUpLookback) (Hhi : started_at up <= to) (Hup : caught_up_at up <= to)
    (Hhs : Forall (in_range from to) hs)
    (Hruns : Forall (fun a => from <= at_ a <= to) (loop Next perInstance up (Next start) hs)) :
  never_piled None (loop Next perInstance up (Next start) hs) /\
  Forall (fun a => scheduled a = true -> instant (at_ a)) (loop Next perInstance up (Next start) hs) /\
  (Forall (fun h => match h with HandedIn _ _ _ => False | _ => True end) hs ->
     StronglySorted Z.lt (map at_ (loop Next perInstance up (Next start) hs))) /\
  forall now ran n, from <= ran <= to -> now <= to -> (nextAfter Next now ran).1 = Some n -> n <= to ->
    exists l, instants_in instant ran n l /\ (nextAfter Next now ran).2 = length l.
Proof.
  destruct (loop_ok Next instant from to perInstance up (Next start) hs Hsp Hlo Hhi Hup Hhs) as [Hn Hi].
  { destruct (Next start) as [n|] eqn:E; [|done]. split; [by eapply next_instant|].
    pose proof (next_after start n Hstart E). lia. }
  { exact Hruns. }
  split; [done|]. split; [done|]. split.
  - intros Hs. eapply unpiled_sorted; [exact Hn|]. unfold loop. destruct perInstance; [by apply turns_scheduled|].
    destruct (catchUp _ _ _); [|by apply turns_scheduled]. destruct (caught up); [|by apply turns_scheduled].
    constructor; [done|by apply turns_scheduled].
  - intros now ran n Hran Hnow E Hle.
    pose proof (nextAfter_ok Next instant from to now ran Hran Hnow) as Hok.
    destruct (nextAfter Next now ran) as [[n'|] sk]; [|done]. injection E as ->.
    destruct Hok as (_ & _ & _ & _ & Hl). by apply Hl.
Qed.

(** A try fails no earlier than it was due. *)
Fixpoint timed (due : Z) (tries : list claim_try) : Prop :=
  match tries with
  | [] => True
  | t :: tries => due <= failed_at t /\ timed (failed_at t + RetryInterval) tries
  end.

Lemma RetryInterval_pos : 0 < RetryInterval.
Proof. done. Qed.

Lemma claimSlot_due f at0 tries r due :
  claimSlot (Some f) tries = (r, due) -> timed at0 tries ->
  Forall (fun d => at0 + RetryInterval <= d < f) due /\
  (due <> [] -> at0 + Z.of_nat (length due) * RetryInterval < f) /\
  (r = None -> length due = length tries).
Proof.
  revert at0 r due. induction tries as [|t tries IH]; intros at0 r due; cbn [claimSlot timed].
  { intros [= <- <-] _. split; [constructor|]. by split. }
  destruct (answer t) as [h|e]; [intros [= <- <-] _; split; [constructor|]; by split|].
  destruct (ctx_ended t); [intros [= <- <-] _; split; [constructor|]; by split|]. cbn zeta.
  destruct (Z.ltb_spec (failed_at t + RetryInterval) f); cbn [negb];
    [|intros [= <- <-] _; split; [constructor|]; by split].
  destruct (ended_waiting t); [intros [= <- <-] _; split; [constructor|]; by split|].
  destruct (claimSlot (Some f) tries) as [r' due'] eqn:E. intros [= <- <-] [Hd Ht].
  destruct (IH _ _ _ eq_refl Ht) as (Hall & Hlen & Hr). pose proof RetryInterval_pos.
  split; [constructor; [lia|]|split].
  - eapply Forall_impl; [exact Hall|]. simpl. lia.
  - intros _. destruct due' as [|d due']; [simpl; lia|]. specialize (Hlen ltac:(done)).
    cbn [length] in *. rewrite Nat2Z.inj_succ in *. lia.
  - intros Hnone. simpl. f_equal. by apply Hr.
Qed.

(** The first answer among the tries, unless one is given up before. *)
Lemma claimSlot_answered following tries due e :
  claimSlot following tries = (Some (Err e), due) ->
  exists t, t ∈ tries /\ answer t = Err e /\
    (ctx_ended t = true \/ ended_waiting t = true \/
     exists f, following = Some f /\ f <= failed_at t + RetryInterval).
Proof.
  revert due. induction tries as [|t tries IH]; intros due; cbn [claimSlot]; [done|].
  destruct (answer t) as [h|e'] eqn:Ea; [done|].
  destruct (ctx_ended t) eqn:Ec; [intros [= -> _]; exists t; split; [by left|]; auto|]. cbn zeta.
  destruct following as [f|].
  - destruct (Z.ltb_spec (failed_at t + RetryInterval) f); cbn [negb].
    + destruct (ended_waiting t) eqn:Ew; [intros [= -> _]; exists t; split; [by left|]; auto|].
      destruct (claimSlot (Some f) tries) as [r' due'] eqn:E. intros [= -> _].
      destruct (IH _ eq_refl) as (t' & Ht' & ?). exists t'. split; [by right|done].
    + intros [= -> _]. exists t. split; [by left|]. eauto 7.
  - destruct (ended_waiting t) eqn:Ew; [intros [= -> _]; exists t; split; [by left|]; auto|].
    destruct (claimSlot None tries) as [r' due'] eqn:E. intros [= -> _].
    destruct (IH _ eq_refl) as (t' & Ht' & ?). exists t'. split; [by right|done].
Qed.

(** C37: a claim whose database does not answer is tried again every
    [RetryInterval] and never at or past the next instant, so the tries end:
    there are fewer than the intervals that fit before it; a claim is given
    up only when the process stops or the next instant is nearer than the
    next try, and an answer that comes first is the claim's. *)
Theorem claim_tries_end (following at0 : Z) tries r due
    (E : claimSlot (Some following) tries = (r, due)) (Ht : timed at0 tries) :
  Forall (fun d => at0 + RetryInterval <= d < following) due /\
  (due <> [] -> Z.of_nat (length due) * RetryInterval < following - at0) /\
  (r = None -> length tries = length due) /\
  (forall e, r = Some (Err e) -> exists t, t ∈ tries /\ answer t = Err e /\
     (ctx_ended t = true \/ ended_waiting t = true \/ following <= failed_at t + RetryInterval)) /\
  (forall h, r = Some (Ok h) -> exists t, t ∈ tries /\ answer t = Ok h).
Proof.
  destruct (claimSlot_due following at0 tries r due E Ht) as (Hall & Hlen & Hr).
  split; [done|]. split; [intros H; specialize (Hlen H); lia|].
  split; [intros H; by rewrite (Hr H)|]. split.
  - intros e ->. destruct (claimSlot_answered _ _ _ _ E) as (t & Hin & Ha & Hw).
    exists t. split; [done|]. split; [done|].
    destruct Hw as [?|[?|(f & [= <-] & ?)]]; auto.
  - intros h ->. clear Ht Hall Hlen Hr. revert due E. induction tries as [|t tries IH]; intros due; cbn [claimSlot]; [done|].
    destruct (answer t) as [h'|e'] eqn:Ea.
    + intros [= -> _]. exists t. split; [by left|done].
    + destruct (ctx_ended t); [done|]. cbn zeta. destruct (negb _); [done|].
      destruct (ended_waiting t); [done|].
      destruct (claimSlot (Some following) tries) as [r' due'] eqn:E. intros [= -> _].
      destruct (IH _ eq_refl) as (t' & Ht' & ?). exists t'. split; [by right|done].
Qed.

(** A round that ran to its end — it returned nothing, or an error with a
    leaf that is not the ending of its context — is recorded finished, lease
    lost or not, with the most recent instant to have come by; a round cut
    short gives its lease back exactly when it still has it, and its instant
    stays unfinished. *)
Lemma rounds_settled (Next : schedule) (instant : Z -> Prop) (from to now : Z)
    ending runErr (lost : bool)
    (HS : Schedule Next instant from to) (Hsp : spaced instant)
    (Hlo : from <= now - catchUpLookback) (Hhi : now <= to) :
  match runClaimed Next ending runErr lost now with
  | Some (SettleFinish passed) =>
      Interrupted ending runErr = false /\
      (passed = zero_time \/
       instant passed /\ passed <= now /\ forall m, instant m -> m <= now -> m <= passed)
  | Some SettleRelease => Interrupted ending runErr = true /\ lost = false
  | None => Interrupted ending runErr = true /\ lost = true
  end.
Proof.
  unfold runClaimed. cbn zeta. destruct (Interrupted ending runErr); cbn [negb].
  - by destruct lost.
  - split; [done|]. pose proof (previousInstant_ok Next instant from to now Hsp Hlo Hhi) as Hp.
    destruct (previousInstant Next now) as [[p|] []]; try done; simpl.
    + right. destruct Hp as (? & ? & ?). split; [done|]. split; [lia|done].
    + by left.
Qed.

(** ** Witnesses *)

Definition five_minutes : Z := 300 * Second.
Definition noon : Z := 20000 * 24 * Hour + 12 * Hour.

Lemma multiples_spaced period : Millisecond <= period -> spaced (fun n => n mod period = 0).
Proof.
  intros Hp m p Hm Hp' Hlt. unfold Millisecond in *.
  apply Z.mod_divide in Hm as [a ->]; [|lia]. apply Z.mod_divide in Hp' as [b ->]; [|lia].
  assert (a < b) by nia. assert (period * 1 <= period * (b - a)) by (apply Z.mul_le_mono_nonneg_l; lia). lia.
Qed.

Lemma catchUp_most_recent_witness :
  catchUp (everySchedule five_minutes) (noon + 70 * Second) (Ok (Some (noon - five_minutes))) = Some noon /\
  forall m, m mod five_minutes = 0 -> m <= noon + 70 * Second -> m <= noon.
Proof.
  split; [vm_compute; reflexivity|].
  pose proof (catchUp_most_recent (everySchedule five_minutes) (fun n => n mod five_minutes = 0) 0
    (2 ^ 63 - 1 - five_minutes) (noon + 70 * Second) (Ok (Some (noon - five_minutes)))
    (everySchedule_ok five_minutes eq_refl) (multiples_spaced five_minutes ltac:(vm_compute; discriminate))
    ltac:(vm_compute; discriminate) ltac:(vm_compute; discriminate)) as H.
  assert (E : catchUp (everySchedule five_minutes) (noon + 70 * Second) (Ok (Some (noon - five_minutes))) = Some noon)
    by (vm_compute; reflexivity).
  rewrite E in H. exact (proj1 (proj2 (proj2 H))).
Defined.

Definition sample_happenings : list happening :=
  [Due (noon + five_minutes + 1); Due (noon + 17 * 60 * Second); Due (noon - 3 * 60 * Second)].
(** A replica that starts late and catches noon up, in a round that overruns
    the instant it was to start with. *)
Definition sample_startup : startup :=
  mkStartup (noon + 70 * Second) (Ok (Some (noon - five_minutes))) true (noon + five_minutes + 30 * Second).

Definition sample_rounds : list attempt :=
  Eval vm_compute in
    loop (everySchedule five_minutes) false sample_startup (everySchedule five_minutes (noon + 70 * Second)) sample_happenings.

Lemma sample_rounds_eq :
  loop (everySchedule five_minutes) false sample_startup (everySchedule five_minutes (noon + 70 * Second)) sample_happenings = sample_rounds.
Proof. vm_compute. reflexivity. Qed.

Lemma loop_never_piles_up_witness :
  let rounds := loop (everySchedule five_minutes) false sample_startup (everySchedule five_minutes (noon + 70 * Second)) sample_happenings in
  map at_ rounds = [noon; noon + 2 * five_minutes; noon + 3 * five_minutes; noon + 4 * five_minutes] /\
  StronglySorted Z.lt (map at_ rounds).
Proof.
  split; [vm_compute; reflexivity|].
  apply (loop_never_piles_up (everySchedule five_minutes) (fun n => n mod five_minutes = 0) 0
    (2 ^ 63 - 1 - five_minutes) (noon + 70 * Second) false sample_startup sample_happenings (everySchedule_ok five_minutes eq_refl)
    (multiples_spaced five_minutes ltac:(vm_compute; discriminate))); [split; vm_compute; discriminate|vm_compute; discriminate..| | |].
  - repeat (apply Forall_cons; split; [vm_compute; discriminate|]). apply Forall_nil. exact I.
  - rewrite sample_rounds_eq.
    repeat (apply Forall_cons; split; [split; vm_compute; discriminate|]). apply Forall_nil. exact I.
  - repeat (apply Forall_cons; split; [exact I|]). apply Forall_nil. exact I.
Defined.

Definition sample_tries : list claim_try :=
  [mkTry (Err ErrDatabase) false noon false; mkTry (Err ErrDatabase) false (noon + 3 * Second) false;
   mkTry (Ok None) false 0 false].

Lemma claim_tries_end_witness :
  claimSlot (Some (noon + five_minutes)) (take 2 sample_tries) =
    (None, [noon + 2 * Second; noon + 5 * Second]) /\
  Forall (fun d => noon + RetryInterval <= d < noon + five_minutes) [noon + 2 * Second; noon + 5 * Second].
Proof.
  split; [vm_compute; reflexivity|].
  apply (claim_tries_end (noon + five_minutes) noon (take 2 sample_tries) None); [vm_compute; reflexivity|].
  repeat split; vm_compute; discriminate.
Defined.

Lemma rounds_settled_witness :
  runClaimed (everySchedule five_minutes) (Some (Lifecycle.Leaf 1 true [], Lifecycle.Leaf 1 true []))
    (Some (Lifecycle.Joined 9 [Lifecycle.Leaf 1 true []; Lifecycle.Leaf 2 true []])) true (noon + 7)
  = Some (SettleFinish noon) /\
  Interrupted (Some (Lifecycle.Leaf 1 true [], Lifecycle.Leaf 1 true []))
    (Some (Lifecycle.Joined 9 [Lifecycle.Leaf 1 true []; Lifecycle.Leaf 2 true []])) = false.
Proof.
  split; [vm_compute; reflexivity|].
  pose proof (rounds_settled (everySchedule five_minutes) (fun n => n mod five_minutes = 0) 0
    (2 ^ 63 - 1 - five_minutes) (noon + 7) (Some (Lifecycle.Leaf 1 true [], Lifecycle.Leaf 1 true []))
    (Some (Lifecycle.Joined 9 [Lifecycle.Leaf 1 true []; Lifecycle.Leaf 2 true []])) true
    (everySchedule_ok five_minutes eq_refl) (multiples_spaced five_minutes ltac:(vm_compute; discriminate))
    ltac:(vm_compute; discriminate) ltac:(vm_compute; discriminate)) as H.
  assert (E : runClaimed (everySchedule five_minutes) (Some (Lifecycle.Leaf 1 true [], Lifecycle.Leaf 1 true []))
    (Some (Lifecycle.Joined 9 [Lifecycle.Leaf 1 true []; Lifecycle.Leaf 2 true []])) true (noon + 7)
    = Some (SettleFinish noon)) by (vm_compute; reflexivity).
  rewrite E in H. exact (proj1 H).
Defined.
