(* ===== verification/Strconv.v ===== *)
(** * Numbers as text

    The part of Go's [strconv] the framework reads and writes numbers with:
    [FormatInt], [FormatUint] and [FormatBool] in base ten, [ParseInt],
    [ParseUint], [ParseBool] and [Atoi].  A parse answers its value beside
    its error, because Go assigns both. *)

From stdpp Require Import base list strings.
From Stdlib Require Import ZArith Lia Ascii.
From S2P Require Import Prelude.
Local Open Scope Z_scope.

Inductive num_error : Set := ErrSyntax | ErrRange.

#[export] Instance num_error_eq_dec : EqDecision num_error.
Proof. solve_decision. Defined.

(** ** Writing *)

Definition digit (d : Z) : ascii := ascii_of_N (Z.to_N (48 + d)).

(** The digits of [n], before [acc]; twenty are enough below [10^20]. *)
Fixpoint digits (fuel : nat) (n : Z) (acc : string) : string :=
  match fuel with
  | O => acc
  | S fuel =>
      let acc := String (digit (n mod 10)) acc in
      if n <? 10 then acc else digits fuel (n / 10) acc
  end.

Definition FormatUint (n : Z) : string := digits 20 n "".

Definition FormatInt (n : Z) : string :=
  if n <? 0 then String "-" (FormatUint (- n)) else FormatUint n.

Definition FormatBool (b : bool) : string := if b then "true" else "false".

(** ** Reading *)

Definition digit_value (a : ascii) : option Z :=
  let d := Z.of_N (N_of_ascii a) - 48 in
  if (0 <=? d) && (d <=? 9) then Some d else None.

(** The largest value of [bits] bits. *)
Definition max_uint (bits : Z) : Z := 2 ^ bits - 1.

(** The loop of [ParseUint]: the value past the limit is found where it is
    passed, before the characters that follow are looked at. *)
Fixpoint parse_digits (limit n : Z) (s : string) : Z * option num_error :=
  match s with
  | EmptyString => (n, None)
  | String a s =>
      match digit_value a with
      | None => (0, Some ErrSyntax)
      | Some d =>
          let n := n * 10 + d in
          if limit <? n then (limit, Some ErrRange) else parse_digits limit n s
      end
  end.

Definition ParseUint (s : string) (bits : Z) : Z * option num_error :=
  match s with
  | EmptyString => (0, Some ErrSyntax)
  | _ => parse_digits (max_uint bits) 0 s
  end.

Definition ParseInt (s : string) (bits : Z) : Z * option num_error :=
  match s with
  | EmptyString => (0, Some ErrSyntax)
  | String a rest =>
      let neg := (a =? "-")%char in
      let body := if ((a =? "+") || neg)%char then rest else s in
      let cutoff := 2 ^ (bits - 1) in
      match ParseUint body bits with
      | (_, Some ErrSyntax) => (0, Some ErrSyntax)
      | (un, _) =>
          if negb neg && (cutoff <=? un) then (cutoff - 1, Some ErrRange)
          else if neg && (cutoff <? un) then (- cutoff, Some ErrRange)
          else (if neg then - un else un, None)
      end
  end.

(** [int] has 64 bits on the platforms the framework runs on. *)
Definition Atoi (s : string) : Z * option num_error := ParseInt s 64.

Definition ParseBool (s : string) : bool * option num_error :=
  if bool_decide (s ∈ ["1"; "t"; "T"; "true"; "TRUE"; "True"]) then (true, None)
  else if bool_decide (s ∈ ["0"; "f"; "F"; "false"; "FALSE"; "False"]) then (false, None)
  else (false, Some ErrSyntax).

Example parse_min : ParseInt "-9223372036854775808" 64 = (- 2 ^ 63, None).
Proof. reflexivity. Qed.
Example parse_past_max : ParseInt "9223372036854775808" 64 = (2 ^ 63 - 1, Some ErrRange).
Proof. reflexivity. Qed.
Example parse_range_first : ParseUint "99999999999999999999x" 64 = (2 ^ 64 - 1, Some ErrRange).
Proof. reflexivity. Qed.
Example parse_int8 : ParseInt "-129" 8 = (-128, Some ErrRange).
Proof. reflexivity. Qed.
Example format_zero : FormatInt 0 = "0".
Proof. reflexivity. Qed.

(** ** Reading what was written *)

Lemma digit_value_digit d : 0 <= d < 10 -> digit_value (digit d) = Some d.
Proof.
  intros H. unfold digit_value, digit. rewrite N_ascii_embedding by lia.
  replace (Z.of_N (Z.to_N (48 + d))) with (48 + d) by lia.
  replace (48 + d - 48) with d by lia. case_cmp. done.
Qed.

Lemma digit_not_sign d : 0 <= d < 10 -> (digit d =? "-")%char = false /\ (digit d =? "+")%char = false.
Proof.
  intros H.
  assert (Z.of_N (N_of_ascii (digit d)) = 48 + d) as E by (unfold digit; rewrite N_ascii_embedding; lia).
  split; apply Ascii.eqb_neq; intros C; rewrite C in E; cbn in E; lia.
Qed.

Fixpoint all_digits (s : string) : bool :=
  match s with
  | EmptyString => true
  | String a s => match digit_value a with Some _ => all_digits s | None => false end
  end.

(** Reading the digits of [n] after having read [m] continues from
    [m * 10^k + n]. *)
Lemma parse_digits_digits limit fuel n acc :
  0 <= n < 10 ^ Z.of_nat fuel -> (0 < fuel)%nat ->
  exists k, 0 < k /\ n < 10 ^ k /\
  (forall m, 0 <= m -> m * 10 ^ k + n <= limit ->
   parse_digits limit m (digits fuel n acc) = parse_digits limit (m * 10 ^ k + n) acc).
Proof.
  revert n acc. induction fuel as [|fuel IH]; intros n acc Hn Hf; [lia|].
  cbn [digits]. pose proof (Z.mod_pos_bound n 10 ltac:(lia)) as Hmod.
  destruct (Z.ltb_spec n 10) as [Hlt|Hge].
  - exists 1. split; [lia|]. split; [lia|]. intros m Hm Hl. cbn [parse_digits].
    rewrite digit_value_digit by lia. rewrite Z.mod_small by lia.
    replace (m * 10 ^ 1 + n) with (m * 10 + n) in * by lia.
    destruct (Z.ltb_spec limit (m * 10 + n)); [lia|done].
  - assert (0 <= n / 10 < 10 ^ Z.of_nat fuel) as Hd.
    { split; [apply Z.div_pos; lia|]. apply Z.div_lt_upper_bound; [lia|].
      rewrite Nat2Z.inj_succ, Z.pow_succ_r in Hn by lia. lia. }
    assert (1 <= n / 10) by (apply Z.div_le_lower_bound; lia).
    destruct fuel as [|fuel']; [simpl in Hd; lia|].
    destruct (IH (n / 10) (String (digit (n mod 10)) acc) Hd) as (k & Hk & Hnk & IHk); [lia|].
    assert (10 ^ (k + 1) = 10 ^ k * 10) as Hp by (rewrite Z.pow_add_r by lia; lia).
    pose proof (Z.div_mod n 10 ltac:(lia)) as Hdm.
    exists (k + 1). split; [lia|]. split; [lia|]. intros m Hm Hl.
    rewrite IHk by (try done; nia). cbn [parse_digits].
    rewrite digit_value_digit by lia.
    replace ((m * 10 ^ k + n / 10) * 10 + n mod 10) with (m * 10 ^ (k + 1) + n) by lia.
    destruct (Z.ltb_spec limit (m * 10 ^ (k + 1) + n)); [lia|done].
Qed.

Lemma digits_head fuel n acc :
  0 <= n -> (0 < fuel)%nat ->
  exists d rest, 0 <= d < 10 /\ digits fuel n acc = String (digit d) rest.
Proof.
  revert n acc. induction fuel as [|fuel IH]; intros n acc Hn Hf; [lia|].
  cbn [digits]. pose proof (Z.mod_pos_bound n 10 ltac:(lia)) as Hmod.
  destruct (n <? 10); [eauto|]. destruct fuel as [|fuel']; [simpl; eauto|].
  apply IH; [apply Z.div_pos; lia|lia].
Qed.

Lemma ParseUint_FormatUint n bits :
  0 <= n <= max_uint bits -> 0 <= bits <= 64 -> ParseUint (FormatUint n) bits = (n, None).
Proof.
  intros Hn Hb. unfold FormatUint.
  assert (n < 10 ^ 20) as Hlt.
  { assert (2 ^ bits <= 2 ^ 64) by (apply Z.pow_le_mono_r; lia). unfold max_uint in Hn. lia. }
  destruct (digits_head 20 n "") as (d & rest & Hd & E); [lia|lia|].
  unfold ParseUint. rewrite E, <- E.
  destruct (parse_digits_digits (max_uint bits) 20 n "") as (k & Hk & _ & H); [cbn; lia|lia|].
  rewrite H by lia. cbn. f_equal; lia.
Qed.

Lemma ParseInt_FormatInt n bits :
  - 2 ^ (bits - 1) <= n < 2 ^ (bits - 1) -> 1 <= bits <= 64 ->
  ParseInt (FormatInt n) bits = (n, None).
Proof.
  intros Hn Hb.
  assert (2 ^ bits = 2 * 2 ^ (bits - 1)) as Hp.
  { replace bits with (Z.succ (bits - 1)) at 1 by lia. rewrite Z.pow_succ_r; lia. }
  unfold FormatInt. destruct (Z.ltb_spec n 0) as [Hneg|Hpos].
  - unfold ParseInt. cbn [Ascii.eqb Bool.eqb orb negb andb].
    rewrite ParseUint_FormatUint by (unfold max_uint; lia).
    destruct (Z.ltb_spec (2 ^ (bits - 1)) (- n)); [lia|]. cbn. f_equal; lia.
  - destruct (digits_head 20 n "") as (d & rest & Hd & E); [lia|lia|].
    assert (ParseUint (FormatUint n) bits = (n, None)) as HU
      by (apply ParseUint_FormatUint; unfold max_uint; lia).
    unfold FormatUint in *. rewrite E in *. unfold ParseInt.
    destruct (digit_not_sign d Hd) as [-> ->]. cbn [orb]. rewrite HU.
    destruct (Z.leb_spec (2 ^ (bits - 1)) n); [lia|]. done.
Qed.

Lemma ParseBool_FormatBool b : ParseBool (FormatBool b) = (b, None).
Proof. by destruct b. Qed.

(** What a parse answers fits the width, error or not. *)
Lemma parse_digits_bound limit n s :
  0 <= n <= limit -> 0 <= (parse_digits limit n s).1 <= limit.
Proof.
  revert n. induction s as [|a s IH]; intros n Hn; cbn [parse_digits]; [done|].
  destruct (digit_value a) as [d|] eqn:E; [|simpl; lia].
  assert (0 <= d).
  { unfold digit_value in E. destruct (_ && _) eqn:B; [|done]. boolify. by simplify_eq. }
  destruct (Z.ltb_spec limit (n * 10 + d)); [simpl; lia|]. apply IH. lia.
Qed.

Lemma ParseUint_bound s bits : 0 <= bits -> 0 <= (ParseUint s bits).1 <= max_uint bits.
Proof.
  intros Hb. assert (0 <= max_uint bits).
  { unfold max_uint. pose proof (Z.pow_pos_nonneg 2 bits). lia. }
  unfold ParseUint. destruct s; [simpl; lia|]. apply parse_digits_bound. lia.
Qed.

Lemma ParseInt_bound s bits :
  1 <= bits -> - 2 ^ (bits - 1) <= (ParseInt s bits).1 < 2 ^ (bits - 1).
Proof.
  intros Hb. pose proof (Z.pow_pos_nonneg 2 (bits - 1) ltac:(lia) ltac:(lia)) as Hp.
  unfold ParseInt. destruct s as [|a s]; [simpl; lia|].
  generalize (ParseUint_bound (if ((a =? "+") || (a =? "-"))%char then s else String a s) bits ltac:(lia)).
  destruct (ParseUint _ bits) as [un [[]|]]; simpl; intros H;
    try lia; destruct (a =? "-")%char; simpl; case_cmp; simpl; lia.
Qed.
