(* ===== verification/Codec.v ===== *)
(** * The encoding of cached values

    Models [internal/cache/codec]: [Marshal] dispatches on the value's
    dynamic type, [Unmarshal] on the static type it reads into, and an
    interface type sends both through JSON.  Values are tagged by their Go
    type; the JSON library and the text of floating point numbers are
    arguments. *)

From stdpp Require Import base list strings.
From Stdlib Require Import ZArith Lia.
From S2P Require Import Prelude Strconv.
Local Open Scope Z_scope.

(** ** Types and values *)

(** The widths of the integer types; [int] and [uint] have 64 bits. *)
Inductive width : Set := W | W8 | W16 | W32 | W64.

Definition bits (w : width) : Z :=
  match w with W => 64 | W8 => 8 | W16 => 16 | W32 => 32 | W64 => 64 end.

(** The static type of a cache: one of the types the compact form has a case
    for, any other concrete type, or an interface. *)
Inductive gotype : Set :=
| TString
| TBytes
| TInt (w : width)
| TUint (w : width)
| TBool
| TFloat32
| TFloat64
| TConcrete (name : string)
| TInterface (name : string).

#[export] Instance width_eq_dec : EqDecision width.
Proof. solve_decision. Defined.
#[export] Instance gotype_eq_dec : EqDecision gotype.
Proof. solve_decision. Defined.

Section Codec.
(** [F] holds the floating point numbers, [O] the values of other types. *)
Context {F O : Type}.

(** A nil and an empty byte slice are one value: a nil one is stored as no
    bytes, and Go reads it back as an empty one. *)
Inductive goval : Type :=
| VString (s : string)
| VBytes (b : string)
| VInt (w : width) (n : Z)
| VUint (w : width) (n : Z)
| VBool (b : bool)
| VFloat32 (f : F)
| VFloat64 (f : F)
| VOther (name : string) (o : O).

(** The dynamic type of a value. *)
Definition type_of (v : goval) : gotype :=
  match v with
  | VString _ => TString
  | VBytes _ => TBytes
  | VInt w _ => TInt w
  | VUint w _ => TUint w
  | VBool _ => TBool
  | VFloat32 _ => TFloat32
  | VFloat64 _ => TFloat64
  | VOther name _ => TConcrete name
  end.

(** An integer fits its type. *)
Definition in_width (v : goval) : bool :=
  match v with
  | VInt w n => (- 2 ^ (bits w - 1) <=? n) && (n <? 2 ^ (bits w - 1))
  | VUint w n => (0 <=? n) && (n <=? max_uint (bits w))
  | _ => true
  end.

Inductive codec_error : Set := ParseError (e : num_error) | JsonError.

Definition isInterface (t : gotype) : bool :=
  match t with TInterface _ => true | _ => false end.

(** A value a variable of type [t] can hold. *)
Definition has_type (t : gotype) (v : goval) : bool :=
  in_width v && (isInterface t || bool_decide (type_of v = t)).

(** ** Encoding *)

Context (json_Marshal : goval -> result codec_error string).
Context (json_Unmarshal : string -> gotype -> goval -> goval * option codec_error).
Context (FormatFloat : F -> Z -> string).
Context (ParseFloat : string -> Z -> F * option num_error).

Definition marshal (value : goval) : result codec_error string :=
  match value with
  | VString val => Ok val
  | VBytes val => Ok val
  | VInt _ val => Ok (FormatInt val)
  | VUint _ val => Ok (FormatUint val)
  | VBool val => Ok (FormatBool val)
  | VFloat32 val => Ok (FormatFloat val 32)
  | VFloat64 val => Ok (FormatFloat val 64)
  | VOther _ _ => json_Marshal value
  end.

Definition with_error {A} (mk : A -> goval) (p : A * option num_error) : goval * option codec_error :=
  (mk p.1, ParseError <$> p.2).

(** What the destination holds afterwards, [dst] before, and the error. *)
Definition unmarshal (data : string) (t : gotype) (dst : goval) : goval * option codec_error :=
  match t with
  | TString => (VString data, None)
  | TBytes => (VBytes data, None)
  | TInt w => with_error (VInt w) (ParseInt data (bits w))
  | TUint w => with_error (VUint w) (ParseUint data (bits w))
  | TBool => with_error VBool (ParseBool data)
  | TFloat32 => with_error VFloat32 (ParseFloat data 32)
  | TFloat64 => with_error VFloat64 (ParseFloat data 64)
  | _ => json_Unmarshal data t dst
  end.

(** [Marshal] and [Unmarshal] of the cached type [t]. *)
Definition Marshal (t : gotype) (value : goval) : result codec_error string :=
  if isInterface t then json_Marshal value else marshal value.

Definition Unmarshal (data : string) (t : gotype) (dst : goval) : goval * option codec_error :=
  if isInterface t then json_Unmarshal data t dst else unmarshal data t dst.

(** ** What comes back *)

(** The JSON library reads [v] back as itself. *)
Definition json_keeps (t : gotype) (v : goval) : Prop :=
  forall data dst, json_Marshal v = Ok data -> json_Unmarshal data t dst = (v, None).

(** The shortest decimal that reads back, which [FormatFloat] writes for
    the precision -1, reads back. *)
Definition float_keeps (f : F) (size : Z) : Prop := ParseFloat (FormatFloat f size) size = (f, None).

(** What the type leaves to the libraries. *)
Definition keeps (t : gotype) (v : goval) : Prop :=
  if isInterface t then json_keeps t v
  else match v with
       | VFloat32 f => float_keeps f 32
       | VFloat64 f => float_keeps f 64
       | VOther _ _ => json_keeps t v
       | _ => True
       end.

Lemma Unmarshal_Marshal t v data dst :
  has_type t v = true -> keeps t v -> Marshal t v = Ok data -> Unmarshal data t dst = (v, None).
Proof.
  unfold has_type, keeps, Marshal, Unmarshal, json_keeps, float_keeps. intros Ht Hk Hm.
  destruct (isInterface t); [auto|]. cbn [orb] in Ht. boolify. subst t.
  destruct v; cbn [marshal unmarshal type_of in_width] in *; simplify_eq; boolify; auto; unfold with_error.
  - rewrite ParseInt_FormatInt by (try lia; destruct w; cbn; lia). done.
  - rewrite ParseUint_FormatUint by (try lia; destruct w; cbn; lia). done.
  - by rewrite ParseBool_FormatBool.
  - by rewrite Hk.
  - by rewrite Hk.
Qed.

(** What an unmarshalled destination holds fits its type, error or not. *)
Lemma Unmarshal_has_type data t dst :
  (forall name, t <> TConcrete name) -> isInterface t = false ->
  has_type t (Unmarshal data t dst).1 = true.
Proof.
  intros Hc Hi. unfold Unmarshal. rewrite Hi. unfold has_type.
  destruct t; cbn [isInterface unmarshal with_error type_of in_width orb fst]; try done; try (exfalso; by eapply Hc).
  - pose proof (ParseInt_bound data (bits w) ltac:(destruct w; cbn; lia)).
    rewrite bool_decide_true by done. cbn [orb]. rewrite andb_true_r. apply andb_true_iff. split; lia.
  - pose proof (ParseUint_bound data (bits w) ltac:(destruct w; cbn; lia)).
    rewrite bool_decide_true by done. cbn [orb]. rewrite andb_true_r. apply andb_true_iff. split; lia.
Qed.

End Codec.
Arguments goval : clear implicits.
