(* ===== verification/Registry.v ===== *)
(** * One instance per type

    Models [internal/cache/registry]: a store looked up without a lock and
    filled under one, looked up again once the lock is held.  Any number of
    callers run at once; a step is one access of a caller to the map or the
    lock, and a construction may fail or take any time. *)

From stdpp Require Import base list gmap.
From S2P Require Import Prelude.

Section Registry.
(** Types, instances, and what a construction fails with. *)
Context {K I X : Type} `{Countable K}.

(** [Store]: the map, and who holds the mutex. *)
Record Store : Type := mkStore { m : gmap K I; mu : option nat }.

Definition New : Store := mkStore ∅ None.

(** Where a call of [LoadE] is. *)
Inductive pc : Type :=
| First        (* the lookup without the lock *)
| Acquire      (* waiting for the mutex *)
| Second       (* holding it, looking up again *)
| Create       (* holding it, constructing *)
| Done (r : result X I).

Record call : Type := mkCall { key : K; at_ : pc }.

Record system : Type := mkSystem { store : Store; calls : gmap nat call }.

(** One step of caller [t]; [created] is what a construction gives, if it is
    one that ends in this step. *)
Definition LoadE_step (t : nat) (c : call) (created : result X I) (s : Store) : option (Store * pc) :=
  match at_ c with
  | First =>
      match m s !! key c with
      | Some v => Some (s, Done (Ok v))
      | None => Some (s, Acquire)
      end
  | Acquire =>
      match mu s with
      | None => Some (mkStore (m s) (Some t), Second)
      | Some _ => None
      end
  | Second =>
      match m s !! key c with
      | Some v => Some (mkStore (m s) None, Done (Ok v))
      | None => Some (s, Create)
      end
  | Create =>
      match created with
      | Err e => Some (mkStore (m s) None, Done (Err e))
      | Ok v => Some (mkStore (<[key c := v]> (m s)) None, Done (Ok v))
      end
  | Done _ => None
  end.

(** [Load], whose construction cannot fail. *)
Definition Load_step (t : nat) (c : call) (created : I) (s : Store) : option (Store * pc) :=
  LoadE_step t c (Ok created) s.

Inductive step : system -> system -> Prop :=
| step_call t k s : calls s !! t = None ->
    step s (mkSystem (store s) (<[t := mkCall k First]> (calls s)))
| step_load t c created s st p :
    calls s !! t = Some c -> LoadE_step t c created (store s) = Some (st, p) ->
    step s (mkSystem st (<[t := mkCall (key c) p]> (calls s))).

Definition initial : system := mkSystem New ∅.

Definition holds_lock (p : pc) : bool := match p with Second | Create => true | _ => false end.

(** The mutex is held by the one caller inside; who constructs has seen the
    entry missing and it still is; who is answered an instance got the one of
    its type. *)
Record inv (s : system) : Prop := {
  inv_lock t c : calls s !! t = Some c -> holds_lock (at_ c) = true -> mu (store s) = Some t;
  inv_create t c : calls s !! t = Some c -> at_ c = Create -> m (store s) !! key c = None;
  inv_done t c v : calls s !! t = Some c -> at_ c = Done (Ok v) -> m (store s) !! key c = Some v }.

Lemma registry_inv_initial : inv initial.
Proof. split; intros t c; cbn; rewrite lookup_empty; done. Qed.

(** The three parts of the invariant, for the caller that moved and for
    another. *)
Ltac split_inv_with H' t' c' w :=
  split; [intros t' c' H'|intros t' c' H'|intros t' c' w H'];
  cbn in H'; apply lookup_insert_Some in H' as [[<- <-]|[? H']]; cbn; try done; eauto.

Tactic Notation "split_inv" :=
  let H' := fresh "H" in let t' := fresh "t" in let c' := fresh "c" in let w := fresh "w" in
  split_inv_with H' t' c' w.

Lemma registry_inv_step s s' : inv s -> step s s' -> inv s'.
Proof.
  intros [Hl Hc Hd] Hs. destruct Hs as [t k s Ht|t c created s st p Ht E].
  - split_inv.
  - unfold LoadE_step in E. destruct (at_ c) eqn:Ea.
    + destruct (m (store s) !! key c) eqn:Em; simplify_eq;
        (split_inv; try congruence).
    + destruct (mu (store s)) eqn:Em; simplify_eq.
      assert (forall t' c', calls s !! t' = Some c' -> holds_lock (at_ c') = true -> False) as Hfree.
      { intros t' c' H1 H2. pose proof (Hl _ _ H1 H2). congruence. }
      split_inv.
      intros. exfalso. eauto.
    + assert (mu (store s) = Some t) as Hmu by (eapply Hl; [eassumption|by rewrite Ea]).
      assert (forall t' c', t <> t' -> calls s !! t' = Some c' -> holds_lock (at_ c') = true -> False) as Hfree.
      { intros t' c' Hne H1 H2. pose proof (Hl _ _ H1 H2). congruence. }
      destruct (m (store s) !! key c) eqn:Em; simplify_eq;
        (split_inv; try congruence);
        intros; exfalso; eauto.
    + assert (mu (store s) = Some t) as Hmu by (eapply Hl; [eassumption|by rewrite Ea]).
      assert (forall t' c', t <> t' -> calls s !! t' = Some c' -> holds_lock (at_ c') = true -> False) as Hfree.
      { intros t' c' Hne H1 H2. pose proof (Hl _ _ H1 H2). congruence. }
      assert (m (store s) !! key c = None) as Hnone by eauto.
      destruct created as [v|e]; simplify_eq; cbn.
      * split_inv.
        -- intros. exfalso. eauto.
        -- intros Hp. exfalso. eapply Hfree; eauto. by rewrite Hp.
        -- intros [= ->]. by rewrite lookup_insert_eq.
        -- intros Hp. rewrite lookup_insert_ne; [by eapply Hd|]. intros Hk. rewrite Hk in Hnone. by erewrite Hd in Hnone.
      * split_inv.
        intros. exfalso. eauto.
    + done.
Qed.

Lemma registry_inv_reachable s : steps step initial s -> inv s.
Proof. intros Hs. eapply steps_invariant; eauto using registry_inv_initial, registry_inv_step. Qed.

(** An instance, once registered, stays the one of its type. *)
Lemma registered_step s s' k v :
  inv s -> step s s' -> m (store s) !! k = Some v -> m (store s') !! k = Some v.
Proof.
  intros [_ Hc _] Hs Hk. destruct Hs as [t k' s Ht|t c created s st p Ht E]; cbn; [done|].
  unfold LoadE_step in E. destruct (at_ c) eqn:Ea.
  - case_match; by simplify_eq.
  - case_match; by simplify_eq.
  - case_match; by simplify_eq.
  - destruct created; simplify_eq; cbn; [|done]. rewrite lookup_insert_ne; [done|].
    intros <-. by rewrite (Hc _ _ Ht Ea) in Hk.
  - done.
Qed.

Lemma registered_steps s s' k v :
  steps step initial s -> steps step s s' -> m (store s) !! k = Some v -> m (store s') !! k = Some v.
Proof.
  intros H0 Hs. induction Hs as [s|s s1 s2 H1 IH H2]; [done|].
  intros Hk. eapply registered_step; [|done|by apply IH].
  apply registry_inv_reachable. by eapply steps_trans.
Qed.

(** However the calls interleave, two calls for one type that are
    answered an instance, at whatever time, are answered the same one: the
    construction that counts runs once, and a failed one leaves nothing
    behind. *)
Lemma one_instance_per_type s s' t t' c c' v v' :
  steps step initial s -> steps step s s' ->
  calls s !! t = Some c -> at_ c = Done (Ok v) ->
  calls s' !! t' = Some c' -> at_ c' = Done (Ok v') ->
  key c = key c' -> v = v'.
Proof.
  intros H0 H1 Hc Hv Hc' Hv' Hk.
  pose proof (inv_done _ (registry_inv_reachable _ H0) _ _ _ Hc Hv) as E.
  pose proof (inv_done _ (registry_inv_reachable _ (steps_trans _ _ _ _ H0 H1)) _ _ _ Hc' Hv') as E'.
  rewrite Hk in E.
  pose proof (registered_steps s s' (key c') v H0 H1 E). congruence.
Qed.

End Registry.

(** Two callers race to the first lookup; the one that comes second to the
    mutex is answered what the first constructed. *)
Section Race.
Let s0 : @system bool nat unit _ _ := initial.

(** One caller's step, as a state. *)
Definition advance (t : nat) (created : result unit nat) (s : @system bool nat unit _ _) : system :=
  match calls s !! t with
  | Some c => match LoadE_step t c created (store s) with
              | Some (st, p) => mkSystem st (<[t := mkCall (key c) p]> (calls s))
              | None => s
              end
  | None => mkSystem (store s) (<[t := mkCall true First]> (calls s))
  end.

Lemma advance_step t created s : advance t created s = s \/ step s (advance t created s).
Proof.
  unfold advance. destruct (calls s !! t) as [c|] eqn:Hc; [|right; by constructor].
  destruct (LoadE_step t c created (store s)) as [[st p]|] eqn:Hs; [|by left].
  right. by econstructor.
Qed.

Definition race (l : list (nat * nat)) : system :=
  foldl (fun s '(t, v) => advance t (Ok v) s) s0 l.

Lemma race_reachable l : steps step s0 (race l).
Proof.
  unfold race. assert (steps step s0 s0) as Hs by constructor. revert Hs.
  generalize s0 at 2 4 as s. induction l as [|[t v] l IH]; intros s Hs; cbn; [exact Hs|]. apply IH.
  destruct (advance_step t (Ok v) s) as [->|H]; [exact Hs|]. eauto using steps.
Qed.

Definition schedule : list (nat * nat) :=
  [(1, 10); (2, 20); (1, 10); (2, 20); (2, 20); (1, 10); (2, 20); (2, 20); (1, 10); (1, 10)].

Lemma one_instance_per_type_witness :
  calls (race schedule) !! 1 = Some (mkCall true (Done (Ok 20))) /\
  (forall v v', at_ (mkCall true (Done (Ok 20))) = Done (Ok v : result unit nat) ->
   calls (race schedule) !! 2 = Some (mkCall true (Done (Ok v'))) -> v = v').
Proof.
  split; [vm_compute; reflexivity|]. intros v v' Hv Hc.
  apply (one_instance_per_type (race schedule) (race schedule) 1 2
    (mkCall true (Done (Ok 20))) (mkCall true (Done (Ok v'))) v v').
  - apply race_reachable.
  - apply steps_refl.
  - vm_compute. reflexivity.
  - exact Hv.
  - exact Hc.
  - reflexivity.
  - reflexivity.
Defined.
End Race.
