(* ===== verification/Caches.v ===== *)
(** * The in-memory cache backends

    Models the interface of [internal/types/cache.go] and the ten backends
    of [internal/cache] over it.  A backend adapts a library; the library
    is an argument, with what its documentation says as the laws of
    [LibraryLaws].  Moments and lifetimes are nanoseconds.

    The lifetime a backend hands its library is where the backends differ:
    some refuse one, some round it up to what the library counts in, some
    stand a hundred years in for "never". *)

From stdpp Require Import base list strings.
From Stdlib Require Import ZArith Lia.
From S2P Require Import Prelude Strconv Codec.
Local Open Scope Z_scope.

Definition Millisecond : Z := 1000000.
Definition Second : Z := 1000 * Millisecond.

Inductive cache_error : Set :=
| ErrEntryNotFound
| ErrTTLNotSupported
| ErrNegativeTTL
| ErrTooLarge
| ErrRejected
| ErrMarshal (e : codec_error).

(** ** The interface

    [types.Cache]: each operation at a moment, with what it leaves behind.
    [view] is what a store holds for a key, with the moment it stops being
    readable, if any. *)

Class Cache (S V : Type) : Type := {
  cache_Get : Z -> string -> S -> result cache_error V * S;
  cache_Set : Z -> string -> V -> Z -> S -> option cache_error * S;
  cache_Delete : string -> S -> option cache_error * S;
  cache_Exists : Z -> string -> S -> bool }.

Definition live {V} (now : Z) (e : option (V * option Z)) : option V :=
  match e with
  | Some (v, None) => Some v
  | Some (v, Some d) => if now <? d then Some v else None
  | None => None
  end.

(** "Never", for the libraries that have no such notion. *)
Definition foreverTTL : Z := 100 * 365 * 24 * 3600 * Second.

(** An entry stored at [now] with [ttl] that is readable until [d]. *)
Definition lasts (now ttl : Z) (d : option Z) : Prop :=
  match d with
  | None => True
  | Some d => now + (if ttl =? 0 then foreverTTL else ttl) <= d
  end.

(** What a key may hold after something happened to others: what it held, or
    nothing, because a bounded store evicts. *)
Definition kept {V} (before after : option (V * option Z)) : Prop :=
  after = before \/ after = None.

(** The contract of the interface's comment.  [ttl_limit] bounds the
    lifetimes the contract is stated for, [storable] the values. *)
Class CacheContract (S V : Type) `{Cache S V}
    (view : S -> string -> option (V * option Z)) (storable : V -> Prop) (ttl_limit : Z) : Prop := {
  set_stores now k v ttl s s' :
    storable v -> ttl <= ttl_limit -> cache_Set now k v ttl s = (None, s') ->
    exists d, view s' k = Some (v, d) /\ lasts now ttl d;
  set_negative now k v ttl s : ttl < 0 -> exists e, cache_Set now k v ttl s = (Some e, s);
  set_refused now k v ttl s e s' : cache_Set now k v ttl s = (Some e, s') -> s' = s;
  set_others now k v ttl s j : j <> k -> kept (view s j) (view (cache_Set now k v ttl s).2 j);
  get_live now k s :
    (cache_Get now k s).1 = match live now (view s k) with Some v => Ok v | None => Err ErrEntryNotFound end;
  get_keeps now k s j : view (cache_Get now k s).2 j = view s j;
  delete_ok k s : (cache_Delete k s).1 = None;
  delete_gone k s : view (cache_Delete k s).2 k = None;
  delete_others k s j : j <> k -> view (cache_Delete k s).2 j = view s j;
  exists_live now k s v : live now (view s k) = Some v -> cache_Exists now k s = true }.

(** ** The libraries *)

(** A library's store: [None] for the lifetime is its way of never expiring
    an entry.  [grain] is what it counts lifetimes in, [longest] the longest
    one its deadline arithmetic takes, [held] what it holds. *)
Class Library (S V : Type) : Type := {
  lib_add : Z -> string -> V -> option Z -> S -> S;
  lib_get : Z -> string -> S -> option V * S;
  lib_has : Z -> string -> S -> bool;
  lib_remove : string -> S -> S }.

Class LibraryLaws (S V : Type) `{Library S V} (grain longest : Z)
    (held : S -> string -> option (V * option Z)) : Prop := {
  add_forever now k v s : held (lib_add now k v None s) k = Some (v, None);
  add_lifetime now k v l s :
    0 < l <= longest -> l mod grain = 0 -> held (lib_add now k v (Some l) s) k = Some (v, Some (now + l));
  add_others now k v l s j : j <> k -> kept (held s j) (held (lib_add now k v l s) j);
  lib_get_live now k s : (lib_get now k s).1 = live now (held s k);
  lib_get_keeps now k s j : held (lib_get now k s).2 j = held s j;
  lib_has_live now k s : lib_has now k s = bool_decide (is_Some (live now (held s k)));
  remove_gone k s : held (lib_remove k s) k = None;
  remove_others k s j : j <> k -> held (lib_remove k s) j = held s j }.

(** ** Backends of live values *)

Section LiveValues.
Context {S V : Type} `{Library S V}.

(** The reads and the removal of the backends that store live values. *)
Definition live_Get (now : Z) (key : string) (s : S) : result cache_error V * S :=
  match lib_get now key s with
  | (Some value, s) => (Ok value, s)
  | (None, s) => (Err ErrEntryNotFound, s)
  end.

Definition live_Delete (key : string) (s : S) : option cache_error * S := (None, lib_remove key s).

Definition live_Exists (now : Z) (key : string) (s : S) : bool := lib_has now key s.

(** freelru: milliseconds, a fraction of one rounded up; the sum is an
    [int64]. *)
Definition freelru_Set (now : Z) (key : string) (value : V) (ttl : Z) (s : S) : option cache_error * S :=
  if ttl <? 0 then (Some ErrNegativeTTL, s)
  else if ttl =? 0 then (None, lib_add now key value None s)
  else if ttl <? Millisecond then (Some ErrTTLNotSupported, s)
  else
    let rem := Z.rem ttl Millisecond in
    let ttl := if rem =? 0 then ttl else wrap64 (ttl + (Millisecond - rem)) in
    (None, lib_add now key value (Some ttl) s).

(** lru, cmap and smap: no lifetimes. *)
Definition lru_Set (now : Z) (key : string) (value : V) (ttl : Z) (s : S) : option cache_error * S :=
  if ttl <? 0 then (Some ErrNegativeTTL, s)
  else if 0 <? ttl then (Some ErrTTLNotSupported, s)
  else (None, lib_add now key value None s).

(** otter and ccache: a hundred years for ever; a longer lifetime is handed
    on as it is, which overflows the library's deadline arithmetic. *)
Definition otter_Set (now : Z) (key : string) (value : V) (ttl : Z) (s : S) : option cache_error * S :=
  if ttl <? 0 then (Some ErrNegativeTTL, s)
  else
    let ttl := if ttl =? 0 then foreverTTL else ttl in
    (None, lib_add now key value (Some ttl) s).

(** ccache: the library hands out an entry past its lifetime and answers
    whether it is. *)
Definition ccache_Get (lookup : string -> S -> option (V * bool) * S) (key : string) (s : S) :
  result cache_error V * S :=
  match lookup key s with
  | (None, s) => (Err ErrEntryNotFound, s)
  | (Some (value, expired), s) => if (expired : bool) then (Err ErrEntryNotFound, s) else (Ok value, s)
  end.

Definition ccache_Exists (lookup : string -> S -> option (V * bool) * S) (key : string) (s : S) : bool :=
  match (lookup key s).1 with
  | None => false
  | Some (_, expired) => negb expired
  end.

(** ristretto may turn an entry down; no contract of storing it is stated. *)
Definition ristretto_Set (accepts : string -> S -> bool) (now : Z) (key : string) (value : V) (ttl : Z) (s : S) :
  option cache_error * S :=
  if ttl <? 0 then (Some ErrNegativeTTL, s)
  else if accepts key s
       then (None, lib_add now key value (if ttl =? 0 then None else Some ttl) s)
       else (Some ErrRejected, s).

End LiveValues.

(** ** Backends of bytes *)

Section Bytes.
Context {S F O : Type} `{Library S string}.
Context (json_Marshal : goval F O -> result codec_error string).
Context (json_Unmarshal : string -> gotype -> goval F O -> goval F O * option codec_error).
Context (FormatFloat : F -> Z -> string) (ParseFloat : string -> Z -> F * option num_error).
(** The cached type, and its zero value. *)
Context (T : gotype) (zero : goval F O).

Definition encode : goval F O -> result codec_error string := Marshal json_Marshal FormatFloat T.
Definition decode (data : string) : goval F O * option codec_error :=
  Unmarshal json_Unmarshal ParseFloat data T zero.

(** The answer to an entry that cannot be decoded: dropped, and a miss. *)
Definition DropUnreadable (drop : S -> option cache_error * S) (s : S) : cache_error * S :=
  (ErrEntryNotFound, (drop s).2).

Definition bytes_Delete (key : string) (s : S) : option cache_error * S := (None, lib_remove key s).

Definition bytes_Get (now : Z) (key : string) (s : S) : result cache_error (goval F O) * S :=
  match lib_get now key s with
  | (None, s) => (Err ErrEntryNotFound, s)
  | (Some data, s) =>
      match decode data with
      | (v, None) => (Ok v, s)
      | (_, Some _) => let '(e, s) := DropUnreadable (bytes_Delete key) s in (Err e, s)
      end
  end.

Definition bytes_Exists (now : Z) (key : string) (s : S) : bool := lib_has now key s.

(** bigcache and freecache refuse an entry on their own account. *)
Context (refuses : string -> string -> bool).

Definition bigcache_Set (now : Z) (key : string) (value : goval F O) (ttl : Z) (s : S) : option cache_error * S :=
  if ttl <? 0 then (Some ErrNegativeTTL, s)
  else if 0 <? ttl then (Some ErrTTLNotSupported, s)
  else
    match encode value with
    | Err e => (Some (ErrMarshal e), s)
    | Ok val => if refuses key val then (Some ErrTooLarge, s) else (None, lib_add now key val None s)
    end.

Definition maxEntrySize : Z := 64 * 1024 - 4.

Definition fastcache_Set (now : Z) (key : string) (value : goval F O) (ttl : Z) (s : S) : option cache_error * S :=
  if ttl <? 0 then (Some ErrNegativeTTL, s)
  else if 0 <? ttl then (Some ErrTTLNotSupported, s)
  else
    match encode value with
    | Err e => (Some (ErrMarshal e), s)
    | Ok val =>
        if maxEntrySize <=? Z.of_nat (String.length key) + Z.of_nat (String.length val)
        then (Some ErrTooLarge, s) else (None, lib_add now key val None s)
    end.

(** freecache: whole seconds, a fraction of one rounded up; none means
    never. *)
Definition freecache_Set (now : Z) (key : string) (value : goval F O) (ttl : Z) (s : S) : option cache_error * S :=
  if ttl <? 0 then (Some ErrNegativeTTL, s)
  else
    match encode value with
    | Err e => (Some (ErrMarshal e), s)
    | Ok val =>
        if (0 <? ttl) && (ttl <? Second) then (Some ErrTTLNotSupported, s)
        else
          let seconds :=
            if 0 <? ttl then Z.quot ttl Second + (if Z.rem ttl Second =? 0 then 0 else 1) else 0 in
          if refuses key val then (Some ErrTooLarge, s)
          else (None, lib_add now key val (if seconds =? 0 then None else Some (seconds * Second)) s)
    end.

End Bytes.

(** ** The entry bound *)

(** [capacity.Entries]: the setting, unless it is unset. *)
Definition Default : Z := 100000.
Definition Entries (MaxEntries : Z) : Z := if 0 <? MaxEntries then MaxEntries else Default.
Definition Entries32 (MaxEntries : Z) : Z := Entries MaxEntries mod 2 ^ 32.
