(* ===== verification/CachesSpec.v ===== *)
(** * What the cache backends promise

    The contract of [types.Cache] for the backends of [Caches], each over a
    library that does what its documentation says. *)

From stdpp Require Import base list strings gmap.
From Stdlib Require Import ZArith Lia.
From S2P Require Import Prelude Strconv Codec Caches.
Local Open Scope Z_scope.

Definition int64_max : Z := 2 ^ 63 - 1.

(** The lifetimes that, rounded up, still fit 64 bits and the library. *)
Definition freelru_limit (longest : Z) : Z := Z.min int64_max longest - Millisecond.
Definition freecache_limit (longest : Z) : Z := longest - Second.

Lemma kept_refl {V} (e : option (V * option Z)) : kept e e.
Proof. by left. Qed.
#[export] Hint Resolve kept_refl : core.

(** What a [Set] has to show; the rest is the same for every backend. *)
Record set_laws {S V} (Set_ : Z -> string -> V -> Z -> S -> option cache_error * S)
    (view : S -> string -> option (V * option Z)) (storable : V -> Prop) (limit : Z) : Prop := {
  sl_stores now k v ttl s s' :
    storable v -> ttl <= limit -> Set_ now k v ttl s = (None, s') ->
    exists d, view s' k = Some (v, d) /\ lasts now ttl d;
  sl_negative now k v ttl s : ttl < 0 -> exists e, Set_ now k v ttl s = (Some e, s);
  sl_refused now k v ttl s e s' : Set_ now k v ttl s = (Some e, s') -> s' = s;
  sl_others now k v ttl s j : j <> k -> kept (view s j) (view (Set_ now k v ttl s).2 j) }.

(** Whether a [Set] of one of these shapes stores or refuses. *)
Ltac split_set H :=
  repeat (match type of H with
  | context [if ?b then _ else _] => let E := fresh "E" in destruct b eqn:E
  | context [match ?x with _ => _ end] => let E := fresh "E" in destruct x eqn:E
  end); simplify_eq; boolify.

(** The library counts lifetimes in parts of [unit]. *)
Definition counts_in (grain unit : Z) : Prop := forall l, l mod unit = 0 -> l mod grain = 0.

Section Live.
Context {S V : Type} `{Library S V} {grain longest : Z} {held : S -> string -> option (V * option Z)}.
Context `{!LibraryLaws S V grain longest held}.

Definition live_cache (Set_ : Z -> string -> V -> Z -> S -> option cache_error * S) : Cache S V :=
  {| cache_Get := live_Get; cache_Set := Set_; cache_Delete := live_Delete; cache_Exists := live_Exists |}.

Lemma live_contract Set_ storable limit :
  set_laws Set_ held storable limit ->
  @CacheContract S V (live_cache Set_) held storable limit.
Proof.
  intros [H1 H2 H3 H4]. split; cbn.
  - exact H1.
  - exact H2.
  - exact H3.
  - exact H4.
  - intros now k s. unfold live_Get. pose proof (lib_get_live now k s) as E.
    destruct (lib_get now k s) as [[v|] s']; cbn in *; by rewrite <- E.
  - intros now k s j. unfold live_Get. pose proof (lib_get_keeps now k s j) as E.
    destruct (lib_get now k s) as [[v|] s']; by cbn in *.
  - done.
  - intros k s. apply remove_gone.
  - intros k s j. apply remove_others.
  - intros now k s v E. unfold live_Exists. rewrite lib_has_live. apply bool_decide_eq_true_2. by exists v.
Qed.

Lemma others now k v l s j : j <> k -> kept (held s j) (held (lib_add now k v l s) j).
Proof. apply (add_others (grain:=grain) (longest:=longest)). Qed.

Lemma add_lasts now k v l s d :
  0 < l <= longest -> l mod grain = 0 -> now + d <= now + l -> d <> 0 ->
  exists x, held (lib_add now k v (Some l) s) k = Some (v, x) /\ lasts now d x.
Proof.
  intros Hl Hg Hd Hz. exists (Some (now + l)). rewrite add_lifetime by done. split; [done|].
  cbn. destruct (Z.eqb_spec d 0); [done|lia].
Qed.

Lemma add_lasts_forever now k v ttl s :
  exists x, held (lib_add now k v None s) k = Some (v, x) /\ lasts now ttl x.
Proof. exists None. rewrite add_forever. done. Qed.

Local Abbreviation counts := (counts_in grain).

Lemma lru_laws : set_laws lru_Set held (fun _ => True) int64_max.
Proof.
  split; unfold lru_Set.
  - intros now k v ttl s s' _ _ Hs. split_set Hs. apply add_lasts_forever.
  - intros now k v ttl s Ht. destruct (Z.ltb_spec ttl 0); [eauto|lia].
  - intros now k v ttl s e s' Hs. by split_set Hs.
  - intros now k v ttl s j Hj. case_cmp; cbn; auto using others.
Qed.

Lemma otter_laws : counts 1 -> foreverTTL <= longest -> set_laws otter_Set held (fun _ => True) foreverTTL.
Proof.
  intros Hg Hl. split; unfold otter_Set.
  - intros now k v ttl s s' _ Ht Hs. split_set Hs; [|apply add_lasts; [lia|apply Hg, Z.mod_1_r|lia|lia]].
    exists (Some (now + foreverTTL)).
    rewrite add_lifetime by (try apply Hg; try apply Z.mod_1_r; done). split; [done|cbn; case_cmp].
  - intros now k v ttl s Ht. destruct (Z.ltb_spec ttl 0); [eauto|lia].
  - intros now k v ttl s e s' Hs. by split_set Hs.
  - intros now k v ttl s j Hj. case_cmp; cbn; auto using others.
Qed.

(** A lifetime rounded up to a multiple of [g]. *)
Lemma round_up ttl g : 0 < g -> 0 < ttl ->
  let r := Z.rem ttl g in
  let up := if r =? 0 then ttl else ttl + (g - r) in
  up mod g = 0 /\ ttl <= up < ttl + g.
Proof.
  intros Hg Ht r up. subst r up. rewrite Z.rem_mod_nonneg by lia.
  pose proof (Z.mod_pos_bound ttl g Hg). pose proof (Z.div_mod ttl g ltac:(lia)).
  destruct (Z.eqb_spec (ttl mod g) 0) as [E|E]; [by split; [|lia]|].
  split; [|lia]. replace (ttl + (g - ttl mod g)) with ((ttl / g + 1) * g) by lia.
  apply Z.mod_mul. lia.
Qed.

Lemma freelru_laws : counts Millisecond -> set_laws freelru_Set held (fun _ => True) (freelru_limit longest).
Proof.
  intros Hg. split; unfold freelru_Set.
  - intros now k v ttl s s' _ Hlim Hs. unfold freelru_limit, int64_max in Hlim.
    destruct (Z.ltb_spec ttl 0); [done|]. destruct (Z.eqb_spec ttl 0) as [->|Hz]; [simplify_eq; apply add_lasts_forever|].
    destruct (Z.ltb_spec ttl Millisecond); [done|]. simplify_eq.
    destruct (round_up ttl Millisecond ltac:(unfold Millisecond; lia) ltac:(lia)) as [Hm Hb]. cbv zeta in Hm, Hb.
    assert (0 <= Z.rem ttl Millisecond) by (apply Z.rem_nonneg; unfold Millisecond; lia).
    rewrite wrap64_id.
    2: { destruct (Z.eqb_spec (Z.rem ttl Millisecond) 0) as [->|]; unfold Millisecond in *; lia. }
    apply add_lasts; [lia|by apply Hg|lia|lia].
  - intros now k v ttl s Ht. destruct (Z.ltb_spec ttl 0); [eauto|lia].
  - intros now k v ttl s e s' Hs. by split_set Hs.
  - intros now k v ttl s j Hj. case_cmp; cbn; auto using others.
Qed.

End Live.

Section BytesContract.
Context {S F O : Type} `{Library S string} {grain longest : Z} {held : S -> string -> option (string * option Z)}.
Context `{!LibraryLaws S string grain longest held}.
Context (json_Marshal : goval F O -> result codec_error string).
Context (json_Unmarshal : string -> gotype -> goval F O -> goval F O * option codec_error).
Context (FormatFloat : F -> Z -> string) (ParseFloat : string -> Z -> F * option num_error).
Context (T : gotype) (zero : goval F O) (refuses : string -> string -> bool).

Local Abbreviation encode := (encode json_Marshal FormatFloat T).
Local Abbreviation decode := (decode json_Unmarshal ParseFloat T zero).

(** What a byte store holds: the value its bytes decode to, if they do. *)
Definition decoded (s : S) (k : string) : option (goval F O * option Z) :=
  match held s k with
  | Some (data, d) => match decode data with (v, None) => Some (v, d) | _ => None end
  | None => None
  end.

(** A value of the cached type that the encoding carries. *)
Definition carried (v : goval F O) : Prop :=
  has_type T v = true /\ keeps json_Marshal json_Unmarshal FormatFloat ParseFloat T v.

Definition bytes_cache (Set_ : Z -> string -> goval F O -> Z -> S -> option cache_error * S) : Cache S (goval F O) :=
  {| cache_Get := bytes_Get json_Unmarshal ParseFloat T zero; cache_Set := Set_;
     cache_Delete := bytes_Delete; cache_Exists := bytes_Exists |}.

Lemma kept_decoded s s' k : kept (held s k) (held s' k) -> kept (decoded s k) (decoded s' k).
Proof. unfold decoded. intros [->| ->]; [by left|by right]. Qed.

Lemma bytes_contract Set_ limit :
  set_laws Set_ decoded carried limit ->
  @CacheContract S (goval F O) (bytes_cache Set_) decoded carried limit.
Proof.
  intros [H1 H2 H3 H4]. split; cbn.
  - exact H1.
  - exact H2.
  - exact H3.
  - exact H4.
  - intros now k s. unfold bytes_Get, decoded. pose proof (lib_get_live now k s) as E.
    destruct (lib_get now k s) as [o s']. cbn in E. subst o.
    destruct (held s k) as [[data [d|]]|]; cbn; [destruct (now <? d) eqn:El| |done];
      destruct (decode data) as [v [e|]]; cbn; by rewrite ?El.
  - intros now k s j. unfold bytes_Get. pose proof (lib_get_keeps now k s) as E.
    pose proof (lib_get_live now k s) as L.
    destruct (lib_get now k s) as [[data|] s']; cbn in *; [|unfold decoded; by rewrite E].
    destruct (decode data) as [v [e|]] eqn:Ed; cbn; [|unfold decoded; by rewrite E].
    unfold decoded. destruct (decide (j = k)) as [->|Hj].
    + rewrite remove_gone. destruct (held s k) as [[data' [d|]]|]; cbn in L; [| |done];
        [destruct (now <? d); [|done]|]; simplify_eq; by rewrite Ed.
    + rewrite remove_others, E by done. done.
  - done.
  - intros k s. unfold decoded. by rewrite remove_gone.
  - intros k s j Hj. unfold decoded. by rewrite remove_others.
  - intros now k s v. unfold bytes_Exists, decoded. rewrite lib_has_live.
    destruct (held s k) as [[data d]|]; cbn; [|done]. destruct (decode data) as [w [e|]]; cbn; [done|].
    destruct d as [d|]; [destruct (now <? d); [|done]|]; intros _; by apply bool_decide_eq_true_2.
Qed.

Lemma bytes_others now k v l s j : j <> k -> kept (held s j) (held (lib_add now k v l s) j).
Proof. apply (add_others (grain:=grain) (longest:=longest)). Qed.

(** Storing the encoding of a carried value stores the value. *)
Lemma decoded_add now k v val l s d :
  carried v -> encode v = Ok val -> held (lib_add now k val l s) k = Some (val, d) ->
  decoded (lib_add now k val l s) k = Some (v, d).
Proof.
  intros [Ht Hk] He Hh. unfold decoded, Caches.decode. rewrite Hh.
  by rewrite (Unmarshal_Marshal json_Marshal json_Unmarshal FormatFloat ParseFloat T v val zero).
Qed.

Lemma bytes_laws (Set_ : Z -> string -> goval F O -> Z -> S -> option cache_error * S) limit :
  (forall now k v ttl s, (exists e, Set_ now k v ttl s = (Some e, s)) \/
     exists val l, 0 <= ttl /\ encode v = Ok val /\ Set_ now k v ttl s = (None, lib_add now k val l s) /\
     (ttl <= limit -> exists d, held (lib_add now k val l s) k = Some (val, d) /\ lasts now ttl d)) ->
  set_laws Set_ decoded carried limit.
Proof.
  intros Hshape. split.
  - intros now k v ttl s s' Hc Hl Hs.
    destruct (Hshape now k v ttl s) as [[e E]|(val & l & _ & He & E & Hd)]; rewrite E in Hs; simplify_eq.
    destruct (Hd Hl) as (d & Hh & Hlasts). exists d. split; [|done]. eapply decoded_add; eauto.
  - intros now k v ttl s Ht.
    destruct (Hshape now k v ttl s) as [[e E]|(val & l & Hp & _)]; [eauto|lia].
  - intros now k v ttl s e s' Hs.
    destruct (Hshape now k v ttl s) as [[e' E]|(val & l & _ & _ & E & _)]; rewrite E in Hs; by simplify_eq.
  - intros now k v ttl s j Hj. apply kept_decoded.
    destruct (Hshape now k v ttl s) as [[e' E]|(val & l & _ & _ & E & _)]; rewrite E; cbn; auto using bytes_others.
Qed.

Lemma bigcache_laws : set_laws (bigcache_Set json_Marshal FormatFloat T refuses) decoded carried int64_max.
Proof.
  apply bytes_laws. intros now k v ttl s. unfold bigcache_Set.
  destruct (Z.ltb_spec ttl 0); [eauto|]. destruct (Z.ltb_spec 0 ttl); [eauto|].
  destruct (encode v) as [val|e] eqn:E; [|eauto]. destruct (refuses k val); [eauto|].
  right. exists val, None. split; [lia|]. split_and!; try done. intros _. apply add_lasts_forever.
Qed.

Lemma fastcache_laws : set_laws (fastcache_Set json_Marshal FormatFloat T) decoded carried int64_max.
Proof.
  apply bytes_laws. intros now k v ttl s. unfold fastcache_Set.
  destruct (Z.ltb_spec ttl 0); [eauto|]. destruct (Z.ltb_spec 0 ttl); [eauto|].
  destruct (encode v) as [val|e] eqn:E; [|eauto]. destruct (maxEntrySize <=? _); [eauto|].
  right. exists val, None. split; [lia|]. split_and!; try done. intros _. apply add_lasts_forever.
Qed.

Lemma freecache_laws : counts_in grain Second ->
  set_laws (freecache_Set json_Marshal FormatFloat T refuses) decoded carried (freecache_limit longest).
Proof.
  intros Hg. apply bytes_laws. intros now k v ttl s. unfold freecache_Set.
  destruct (Z.ltb_spec ttl 0); [eauto|].
  destruct (encode v) as [val|e] eqn:E; [|eauto].
  destruct (Z.ltb_spec 0 ttl) as [Hp|Hp]; cbn [andb].
  2: { destruct (refuses k val); [eauto|]. right. exists val, None. split_and!; try done.
       intros _. apply add_lasts_forever. }
  destruct (Z.ltb_spec ttl Second) as [|Hs]; [eauto|]. destruct (refuses k val); [eauto|]. right.
  assert (0 < Second) as HS by (unfold Second, Millisecond; lia).
  rewrite (Z.quot_div_nonneg ttl), (Z.rem_mod_nonneg ttl) by lia.
  set (n := ttl / Second + (if ttl mod Second =? 0 then 0 else 1)).
  assert (1 <= ttl / Second) by (apply Z.div_le_lower_bound; lia).
  assert (ttl <= n * Second < ttl + Second) as Hn.
  { subst n. pose proof (Z.div_mod ttl Second ltac:(lia)). pose proof (Z.mod_pos_bound ttl Second HS).
    case_cmp; nia. }
  assert (1 <= n) by (subst n; case_cmp; lia).
  exists val, (Some (n * Second)). split; [lia|]. split; [done|].
  destruct (Z.eqb_spec n 0); [lia|]. split; [done|].
  unfold freecache_limit. intros Hlim. apply add_lasts; [nia|apply Hg, Z.mod_mul; lia|lia|lia].
Qed.

End BytesContract.

(** ** The contract *)

(** C38: six of the ten backends keep the contract of [types.Cache] over a
    library that does as documented: a value a [Set] accepts is in the store
    for at least the asked lifetime (a bounded store may evict it), a [Set]
    that answers an error leaves the store as it was and a negative lifetime
    gets one, a read answers what the store holds until it expires, an entry
    that cannot be decoded is a miss, what is deleted is gone, and keys do
    not disturb each other beyond evictions.  freelru rounds to milliseconds
    and freecache to seconds: their lifetimes are those that, rounded up, are
    within what 64 bits and the library take.  lru, bigcache and fastcache
    refuse every lifetime.  otter's lifetimes are those up to the hundred
    years that stand for ever.  The byte backends keep it for the values the
    encoding carries. *)
Theorem backends_keep_the_contract
    {S V} `{Library S V} g longest (held : S -> string -> option (V * option Z))
    `{!LibraryLaws S V g longest held}
    {B F O} `{Library B string} h longest' (holds : B -> string -> option (string * option Z))
    `{!LibraryLaws B string h longest' holds}
    (json_Marshal : goval F O -> result codec_error string) json_Unmarshal FormatFloat ParseFloat
    T (zero : goval F O) refuses :
  let view := decoded (held := holds) json_Unmarshal ParseFloat T zero in
  let ok := carried json_Marshal json_Unmarshal FormatFloat ParseFloat T in
  let bytes := bytes_cache json_Unmarshal ParseFloat T zero in
  (counts_in g Millisecond -> @CacheContract S V (live_cache freelru_Set) held (fun _ => True)
     (freelru_limit longest)) /\
  @CacheContract S V (live_cache lru_Set) held (fun _ => True) int64_max /\
  (counts_in g 1 -> foreverTTL <= longest ->
   @CacheContract S V (live_cache otter_Set) held (fun _ => True) foreverTTL) /\
  @CacheContract B _ (bytes (bigcache_Set json_Marshal FormatFloat T refuses)) view ok int64_max /\
  @CacheContract B _ (bytes (fastcache_Set json_Marshal FormatFloat T)) view ok int64_max /\
  (counts_in h Second ->
   @CacheContract B _ (bytes (freecache_Set json_Marshal FormatFloat T refuses)) view ok
     (freecache_limit longest')).
Proof.
  intros view ok bytes. split_and!; try intros Hc.
  - eapply live_contract, freelru_laws, Hc.
  - eapply live_contract, lru_laws.
  - intros Hl. eapply live_contract, otter_laws; [exact Hc|exact Hl].
  - eapply bytes_contract, bigcache_laws.
  - eapply bytes_contract, fastcache_laws.
  - eapply bytes_contract, freecache_laws, Hc.
Qed.

(** A library that never evicts: a finite map. *)
Abbreviation mapstore V := (gmap string (V * option Z)).

#[export] Instance map_library V : Library (mapstore V) V := {|
  lib_add now k v l s := <[k := (v, (fun l => now + l) <$> l)]> s;
  lib_get now k s := (live now (s !! k), s);
  lib_has now k s := bool_decide (is_Some (live now (s !! k)));
  lib_remove k s := delete k s |}.

Definition map_held {V} (s : mapstore V) (k : string) : option (V * option Z) := s !! k.

#[export] Instance map_laws V longest : LibraryLaws (mapstore V) V 1 longest map_held.
Proof.
  split; unfold map_held; cbn; intros.
  - by rewrite lookup_insert_eq.
  - by rewrite lookup_insert_eq.
  - left. by rewrite lookup_insert_ne.
  - done.
  - done.
  - done.
  - by rewrite lookup_delete_eq.
  - by rewrite lookup_delete_ne.
Qed.

(** JSON of nothing but the two other values [true] and [false]. *)
Definition toy_json : goval unit bool -> result codec_error string :=
  fun v => match v with VOther _ true => Ok "t" | VOther _ false => Ok "f" | _ => Err JsonError end.
Definition toy_unjson (data : string) (t : gotype) (dst : goval unit bool) : goval unit bool * option codec_error :=
  match t with
  | TConcrete name => if bool_decide (data = "t") then (VOther name true, None)
                      else if bool_decide (data = "f") then (VOther name false, None) else (dst, Some JsonError)
  | _ => (dst, Some JsonError)
  end.

Lemma backends_keep_the_contract_witness :
  @CacheContract (mapstore nat) nat (live_cache freelru_Set) map_held (fun _ => True)
    (2 ^ 63 - 1 - Millisecond) /\
  @CacheContract (mapstore nat) nat (live_cache otter_Set) map_held (fun _ => True) (100 * 365 * 24 * 3600 * Second) /\
  cache_Set (Cache := live_cache freelru_Set) 5 "k" 7%nat 1500000 ∅ = (None, {["k" := (7%nat, Some 2000005)]}) /\
  (cache_Get (Cache := live_cache freelru_Set) 2000004 "k" ({["k" := (7%nat, Some 2000005)]} : mapstore nat)).1 = Ok 7%nat.
Proof.
  destruct (backends_keep_the_contract (S := mapstore nat) (V := nat) 1 int64_max map_held 1 int64_max map_held
    toy_json toy_unjson (fun _ _ => "") (fun _ _ => (tt, None)) TBytes (VBytes "") (fun _ _ => false))
    as (Hfreelru & _ & Hotter & _).
  split; [apply Hfreelru; intros l _; apply Z.mod_1_r|].
  split; [apply Hotter; [intros l _; apply Z.mod_1_r|by vm_compute]|].
  split; vm_compute; reflexivity.
Defined.

(** The longest duration: rounded up, it wraps, and the library is handed a
    negative lifetime for an entry [Set] reports as stored. *)
Lemma freelru_longest_ttl {S V} `{Library S V} now k v s :
  exists l, l < 0 /\ freelru_Set now k v int64_max s = (None, lib_add now k v (Some l) s).
Proof. exists (wrap64 9223372036855000000). split; [vm_compute; reflexivity|reflexivity]. Qed.
