(* ===== verification/Dcache.v ===== *)
(** * The replicated cache

    Models [dcache]: every instance owns a store and a table of the newest
    stamp it has applied to each key, and mirrors its writes to the other
    instances through a topic.  The store is one of [types.Cache]; the JSON
    of values and events, the table (an LRU cache of golang-lru) and what
    happens to a publication are arguments.  A critical section of
    [watermarkMu] is one step. *)

From stdpp Require Import base list strings.
From Stdlib Require Import ZArith Lia.
From S2P Require Import Prelude Strconv GoStrings Codec Caches.
Local Open Scope Z_scope.

(** ** Events *)

Definition opSet : Z := 0.
Definition opDel : Z := 1.

Definition op_String (o : Z) : string :=
  if o =? opSet then "set" else if o =? opDel then "del" else "unknown".

Record event : Set := mkEvent {
  CacheID : string;
  Key : string;
  TS : Z;
  Op : Z;
  Val : string;
  Typ : string;
  TTL : Z;
  Instance_ : string }.

#[export] Instance event_eq_dec : EqDecision event.
Proof. solve_decision. Defined.

(** ** The table of stamps *)

(** An LRU cache: [lru_Get] makes its key the most recent one. *)
Class Lru (W : Type) : Type := {
  lru_Get : string -> W -> option Z * W;
  lru_Add : string -> Z -> W -> W }.

(** What it remembers; an addition may forget others. *)
Class LruLaws (W : Type) `{Lru W} (stamp_of : W -> string -> option Z) : Prop := {
  lru_get k w : (lru_Get k w).1 = stamp_of w k;
  lru_get_keeps k w j : stamp_of (lru_Get k w).2 j = stamp_of w j;
  lru_add k ts w : stamp_of (lru_Add k ts w) k = Some ts;
  lru_add_others k ts w j : j <> k ->
    stamp_of (lru_Add k ts w) j = stamp_of w j \/ stamp_of (lru_Add k ts w) j = None }.

(** The bound of the table, ten times the bound of a store. *)
Definition watermarkEntries (MaxEntries : Z) : Z := Z.min (10 * Entries MaxEntries) 10000000.

Inductive dcache_error : Set :=
| ErrTTL
| ErrKey
| ErrStore (e : cache_error)
| ErrMarshalValue
| ErrMarshalEvent
| ErrNotFound.

(** What becomes of a marshalled event: the pool may be full, the produce may
    fail. *)
Inductive publication : Set := Published | PublishFailed | PublishDropped.

Record counters : Set := mkCounters {
  hits : Z; misses : Z; sets : Z; deletes : Z;
  peerSets : Z; peerDeletes : Z; publishDropped : Z; publishFailed : Z }.

Definition hitRatio (hits misses : Z) : Z :=
  if hits + misses =? 0 then 0 else Z.quot (hits * 100) (hits + misses).

Section Replica.
Context {V S W : Type} `{Cache S V} `{Lru W}.
(** The JSON of a value ([null] for a delete), and of an event. *)
Context (json_Marshal : option V -> option string) (json_Unmarshal : string -> option V).
Context (marshal_event : event -> option string) (unmarshal_event : string -> option event).

Record replicatedCache : Type := mkCache {
  store : S;
  typ : string;
  cacheID : string;
  instance : string;
  appliedTS : W;
  stats : counters }.

Definition with_store (s : S) (dc : replicatedCache) : replicatedCache :=
  mkCache s (typ dc) (cacheID dc) (instance dc) (appliedTS dc) (stats dc).
Definition with_table (w : W) (dc : replicatedCache) : replicatedCache :=
  mkCache (store dc) (typ dc) (cacheID dc) (instance dc) w (stats dc).
Definition count (f : counters -> counters) (dc : replicatedCache) : replicatedCache :=
  mkCache (store dc) (typ dc) (cacheID dc) (instance dc) (appliedTS dc) (f (stats dc)).

Definition add_hit c := mkCounters (hits c + 1) (misses c) (sets c) (deletes c) (peerSets c) (peerDeletes c) (publishDropped c) (publishFailed c).
Definition add_miss c := mkCounters (hits c) (misses c + 1) (sets c) (deletes c) (peerSets c) (peerDeletes c) (publishDropped c) (publishFailed c).
Definition add_set c := mkCounters (hits c) (misses c) (sets c + 1) (deletes c) (peerSets c) (peerDeletes c) (publishDropped c) (publishFailed c).
Definition add_delete c := mkCounters (hits c) (misses c) (sets c) (deletes c + 1) (peerSets c) (peerDeletes c) (publishDropped c) (publishFailed c).
Definition add_peerSet c := mkCounters (hits c) (misses c) (sets c) (deletes c) (peerSets c + 1) (peerDeletes c) (publishDropped c) (publishFailed c).
Definition add_peerDelete c := mkCounters (hits c) (misses c) (sets c) (deletes c) (peerSets c) (peerDeletes c + 1) (publishDropped c) (publishFailed c).
Definition add_dropped c := mkCounters (hits c) (misses c) (sets c) (deletes c) (peerSets c) (peerDeletes c) (publishDropped c + 1) (publishFailed c).
Definition add_failed c := mkCounters (hits c) (misses c) (sets c) (deletes c) (peerSets c) (peerDeletes c) (publishDropped c) (publishFailed c + 1).

(** ** Stamps *)

(** The clock's reading, or one past the newest stamp applied to the key. *)
Definition stampLocked (clock : Z) (key : string) (w : W) : Z * W :=
  match lru_Get key w with
  | (Some last, w) => (if clock <=? last then wrap64 (last + 1) else clock, w)
  | (None, w) => (clock, w)
  end.

Definition advanceWatermarkLocked (key : string) (ts : Z) (w : W) : W :=
  match lru_Get key w with
  | (Some last, w) => if ts <=? last then w else lru_Add key ts w
  | (None, w) => lru_Add key ts w
  end.

(** ** Publishing *)

(** [sendEvent]: the error of the caller, the cache, and the record that
    reaches the topic. *)
Definition sendEvent (pub : publication) (key : string) (ts op ttl : Z) (raw : option V) (dc : replicatedCache) :
  option dcache_error * replicatedCache * option string :=
  match json_Marshal raw with
  | None => (Some ErrMarshalValue, dc, None)
  | Some val =>
      match marshal_event (mkEvent (cacheID dc) key ts op val (typ dc) ttl (instance dc)) with
      | None => (Some ErrMarshalEvent, dc, None)
      | Some data =>
          match pub with
          | Published => (None, dc, Some data)
          | PublishFailed => (None, count add_failed dc, None)
          | PublishDropped => (None, count add_dropped dc, None)
          end
      end
  end.

Definition validKey (key : string) : bool := ValidString key.

(** ** Operations *)

(** [Set] at [now], reading [clock]. *)
Definition Set_ (now clock : Z) (pub : publication) (key : string) (value : V) (ttl : Z) (dc : replicatedCache) :
  option dcache_error * replicatedCache * option string :=
  if ttl <? 0 then (Some ErrTTL, dc, None)
  else if negb (validKey key) then (Some ErrKey, dc, None)
  else
    let '(ts, w) := stampLocked clock key (appliedTS dc) in
    match cache_Set now key value ttl (store dc) with
    | (Some e, s) => (Some (ErrStore e), with_store s (with_table w dc), None)
    | (None, s) =>
        let dc := with_store s (with_table (advanceWatermarkLocked key ts w) dc) in
        sendEvent pub key ts opSet ttl (Some value) (count add_set dc)
    end.

Definition Get (now : Z) (key : string) (dc : replicatedCache) : result dcache_error V * replicatedCache :=
  match cache_Get now key (store dc) with
  | (Ok v, s) => (Ok v, count add_hit (with_store s dc))
  | (Err ErrEntryNotFound, s) => (Err ErrNotFound, count add_miss (with_store s dc))
  | (Err e, s) => (Err (ErrStore e), with_store s dc)
  end.

(** The error of a removal, a missing entry being none. *)
Definition removal_error (e : option cache_error) : option cache_error :=
  match e with Some ErrEntryNotFound => None | _ => e end.

Definition Delete (now clock : Z) (pub : publication) (key : string) (dc : replicatedCache) :
  option dcache_error * replicatedCache * option string :=
  if negb (validKey key) then (Some ErrKey, dc, None)
  else
    let '(ts, w) := stampLocked clock key (appliedTS dc) in
    let '(e, s) := cache_Delete key (store dc) in
    match removal_error e with
    | Some e => (Some (ErrStore e), with_store s (with_table w dc), None)
    | None =>
        let dc := with_store s (with_table (advanceWatermarkLocked key ts w) dc) in
        sendEvent pub key ts opDel 0 None (count add_delete dc)
    end.

Definition Exists (now : Z) (key : string) (dc : replicatedCache) : bool := cache_Exists now key (store dc).

(** ** Peers' events *)

(** Whether a newer write has claimed the key. *)
Definition superseded (evt : event) (w : W) : bool * W :=
  match lru_Get (Key evt) w with
  | (Some last, w) => (TS evt <=? last, w)
  | (None, w) => (false, w)
  end.

Definition applyPeerSet (now : Z) (evt : event) (val : V) (dc : replicatedCache) :
  bool * option cache_error * replicatedCache :=
  let '(stale, w) := superseded evt (appliedTS dc) in
  if stale then (true, None, with_table w dc)
  else
    match cache_Set now (Key evt) val (TTL evt) (store dc) with
    | (Some e, s) => (false, Some e, with_store s (with_table w dc))
    | (None, s) => (false, None, with_store s (with_table (lru_Add (Key evt) (TS evt) w) dc))
    end.

Definition applyPeerDelete (evt : event) (dc : replicatedCache) :
  bool * option cache_error * replicatedCache :=
  let '(stale, w) := superseded evt (appliedTS dc) in
  if stale then (true, None, with_table w dc)
  else
    let '(e, s) := cache_Delete (Key evt) (store dc) in
    match removal_error e with
    | Some e => (false, Some e, with_store s (with_table w dc))
    | None => (false, None, with_store s (with_table (lru_Add (Key evt) (TS evt) w) dc))
    end.

(** What the listener made of a record. *)
Inductive handled : Set :=
| Undecodable
| OwnEvent
| OtherType
| BadValue
| StoreFailed
| Stale
| Applied
| UnknownOp.

Definition settle (counted : counters -> counters) (r : bool * option cache_error * replicatedCache) :
  handled * replicatedCache :=
  match r with
  | (_, Some _, dc) => (StoreFailed, dc)
  | (true, None, dc) => (Stale, dc)
  | (false, None, dc) => (Applied, count counted dc)
  end.

(** The body of the listener's loop over the records of a poll. *)
Definition handle (now : Z) (record : string) (dc : replicatedCache) : handled * replicatedCache :=
  match unmarshal_event record with
  | None => (Undecodable, dc)
  | Some evt =>
      if bool_decide (CacheID evt = cacheID dc) then (OwnEvent, dc)
      else if bool_decide (Typ evt <> typ dc) then (OtherType, dc)
      else if Op evt =? opSet then
        match json_Unmarshal (Val evt) with
        | None => (BadValue, dc)
        | Some val => settle add_peerSet (applyPeerSet now evt val dc)
        end
      else if Op evt =? opDel then settle add_peerDelete (applyPeerDelete evt dc)
      else (UnknownOp, dc)
  end.

End Replica.
Arguments replicatedCache : clear implicits.

(** ** The polls of the listener *)

Definition fetchErrorInterval : Z := 30 * Second.
Definition fetchRetryPause : Z := Second.

(** The errors of a poll, as far as the listener tells them apart. *)
Inductive fetch_error : Set :=
| UnknownTopicID | InconsistentTopicID | UnknownTopicOrPartition | OtherFetchError.

Definition topicUnknown (errs : list fetch_error) : bool :=
  existsb (fun e => match e with OtherFetchError => false | _ => true end) errs.

(** The state of a run of failing polls; no moment is a zero [time.Time]. *)
Record poll_state : Set := mkPoll { failed : Z; reportedAt : option Z; resolvedAt : option Z }.

Definition fresh_poll : poll_state := mkPoll 0 None None.

Inductive poll_action : Set :=
| Report (failed : Z)    (* the error is logged, with the count *)
| Resolve                (* the topic is forgotten and consumed anew *)
| Recovered (failed : Z)
| Pause.                 (* nothing came and the failure stands *)

Definition due (last : option Z) (now : Z) : bool :=
  match last with None => true | Some t => fetchErrorInterval <=? now - t end.

(** One poll at [now] that brought [records] records and [errs]. *)
Definition poll (now : Z) (errs : list fetch_error) (records : nat) (p : poll_state) : poll_state * list poll_action :=
  let '(p, acts) :=
    match errs with
    | [] =>
        if 0 <? failed p then (fresh_poll, [Recovered (failed p)]) else (p, [])
    | _ =>
        let n := failed p + 1 in
        let report := due (reportedAt p) now in
        let resolve := topicUnknown errs && due (resolvedAt p) now in
        (mkPoll n (if report then Some now else reportedAt p) (if resolve then Some now else resolvedAt p),
         (if report then [Report n] else []) ++ (if resolve then [Resolve] else []))
    end in
  (p, acts ++ (if (records =? 0)%nat && (0 <? failed p) then [Pause] else [])).
