(* ===== verification/DcacheSpec.v ===== *)
(** * What the replicated cache promises

    A system of instances of one value type over one topic, with every
    order of delivery, late and repeated deliveries, lost publications,
    foreign records and drifting clocks.  [n_seen] is what an instance has
    written itself or handled of its peers, for the theorems to speak of. *)

From stdpp Require Import base list strings gmap.
From Stdlib Require Import ZArith Lia.
From S2P Require Import Prelude Strconv GoStrings Codec Caches CachesSpec Dcache.
Local Open Scope Z_scope.

(** A write of a key: its stamp, and the value, or none for a delete. *)
Record write (V : Type) : Type := mkWrite { w_key : string; w_ts : Z; w_val : option V }.
Arguments mkWrite {V} _ _ _.
Arguments w_key {V} _.
Arguments w_ts {V} _.
Arguments w_val {V} _.

#[export] Instance write_eq_dec {V} `{EqDecision V} : EqDecision (write V).
Proof. solve_decision. Defined.

(** The first of the writes with the highest stamp. *)
Fixpoint newest {V} (l : list (write V)) : option (write V) :=
  match l with
  | [] => None
  | w :: l => match newest l with
              | Some w' => if w_ts w <? w_ts w' then Some w' else Some w
              | None => Some w
              end
  end.

Lemma newest_some {V} (l : list (write V)) w :
  newest l = Some w -> w ∈ l /\ forall x, x ∈ l -> w_ts x <= w_ts w.
Proof.
  revert w. induction l as [|a l IH]; intros w; cbn; [done|].
  destruct (newest l) as [b|] eqn:E.
  - destruct (IH b eq_refl) as [Hb Hm]. destruct (Z.ltb_spec (w_ts a) (w_ts b)); intros [= <-].
    + split; [by right|]. intros x [->|Hx]%elem_of_cons; [lia|auto].
    + split; [by left|]. intros x [->|Hx]%elem_of_cons; [lia|]. specialize (Hm x Hx). lia.
  - intros [= <-]. split; [by left|]. intros x [->|Hx]%elem_of_cons; [lia|].
    destruct l as [|c l]; [by apply elem_of_nil in Hx|]. cbn in E. repeat case_match; done.
Qed.

Lemma newest_none {V} (l : list (write V)) : newest l = None -> l = [].
Proof. destruct l as [|a l]; [done|]. cbn. repeat case_match; done. Qed.

Section Spec.
Context {V S W : Type} `{Cache S V} `{Lru W}.
Context (view : S -> string -> option (V * option Z)) (limit : Z).
Context `{!CacheContract S V view (fun _ => True) limit}.
Context (stamp_of : W -> string -> option Z) `{!LruLaws W stamp_of}.
Context (json_Marshal : option V -> option string) (json_Unmarshal : string -> option V).
Context (marshal_event : event -> option string) (unmarshal_event : string -> option event).
(** The type name of the instances. *)
Context (t : string).

Local Abbreviation cache := (replicatedCache S W).
Local Abbreviation handle := (handle json_Unmarshal unmarshal_event).
Local Abbreviation Set_ := (Set_ json_Marshal marshal_event).
Local Abbreviation Delete := (Delete json_Marshal marshal_event).

Record node : Type := mkNode { n_cache : cache; n_seen : list (write V) }.

(** [log] is the topic, [lost] the writes whose publication failed. *)
Record system : Type := mkSystem {
  nodes : gmap string node; log : list string; lost : list (write V) }.

(** The write an event stands for. *)
Definition write_of (e : event) : option (write V) :=
  if Op e =? opSet then (fun v => mkWrite (Key e) (TS e) (Some v)) <$> json_Unmarshal (Val e)
  else if Op e =? opDel then Some (mkWrite (Key e) (TS e) None)
  else None.

Definition event_of (record : string) : option event :=
  match unmarshal_event record with
  | Some e => if bool_decide (Typ e = t) then Some e else None
  | None => None
  end.

Definition write_in (record : string) : option (write V) :=
  match event_of record with Some e => write_of e | None => None end.

(** The writes of [k] on the topic. *)
Definition published (k : string) (l : list string) : list (write V) :=
  filter (fun w => w_key w = k) (omap write_in l).

(** The local tier holds the write although the caller may be told its
    publication failed. *)
Definition wrote (err : option dcache_error) : bool :=
  match err with None | Some ErrMarshalValue | Some ErrMarshalEvent => true | _ => false end.

Definition log_of (record : option string) : list string :=
  match record with Some r => [r] | None => [] end.

(** The state after a local write [w] that answered [r]. *)
Definition after_write (id : string) (w : write V) (n : node)
    (r : option dcache_error * cache * option string) (s : system) : system :=
  let '(err, dc, record) := r in
  mkSystem (<[id := mkNode dc (if wrote err then w :: n_seen n else n_seen n)]> (nodes s))
           (log s ++ log_of record)
           (if wrote err then match record with Some _ => lost s | None => w :: lost s end else lost s).

Definition took (h : handled) : bool := match h with Stale | Applied => true | _ => false end.

Definition after_record (id : string) (record : string) (n : node) (r : handled * cache) (s : system) : system :=
  let '(h, dc) := r in
  mkSystem (<[id := mkNode dc (if took h then match write_in record with Some w => w :: n_seen n | None => n_seen n end
                               else n_seen n)]> (nodes s))
           (log s) (lost s).

(** The stamp a write made now would carry. *)
Definition stamp (clock : Z) (k : string) (dc : cache) : Z := (stampLocked clock k (appliedTS dc)).1.

(** Stamps below the largest [int64]: nanoseconds until the year 2262. *)
Definition in_time (clock : Z) (k : string) (dc : cache) : Prop :=
  clock < 2 ^ 63 - 1 /\ forall last, stamp_of (appliedTS dc) k = Some last -> - 2 ^ 63 <= last < 2 ^ 63 - 1.

Inductive step : system -> system -> Prop :=
| step_start id dc s :
    nodes s !! id = None -> cacheID dc = id -> typ dc = t ->
    (forall k, view (store dc) k = None) -> (forall k, stamp_of (appliedTS dc) k = None) ->
    step s (mkSystem (<[id := mkNode dc []]> (nodes s)) (log s) (lost s))
| step_set id n now clock pub k v ttl s :
    nodes s !! id = Some n -> in_time clock k (n_cache n) -> ttl <= limit ->
    step s (after_write id (mkWrite k (stamp clock k (n_cache n)) (Some v)) n
              (Set_ now clock pub k v ttl (n_cache n)) s)
| step_delete id n now clock pub k s :
    nodes s !! id = Some n -> in_time clock k (n_cache n) ->
    step s (after_write id (mkWrite k (stamp clock k (n_cache n)) None) n
              (Delete now clock pub k (n_cache n)) s)
| step_handle id n now record s :
    nodes s !! id = Some n -> record ∈ log s ->
    step s (after_record id record n (handle now record (n_cache n)) s)
| step_get id n now k s :
    nodes s !! id = Some n ->
    step s (mkSystem (<[id := mkNode (Get now k (n_cache n)).2 (n_seen n)]> (nodes s)) (log s) (lost s))
| step_foreign record s :
    event_of record = None ->
    step s (mkSystem (nodes s) (log s ++ [record]) (lost s)).

Definition initial : system := mkSystem ∅ [] [].

(** ** What the table and the store stand for *)

(** The table has the highest stamp among the writes of [k] seen, and the
    store nothing, or the value of one with that stamp. *)
Definition tracks (dc : cache) (seen : list (write V)) (k : string) : Prop :=
  match stamp_of (appliedTS dc) k with
  | None => (forall w, w ∈ seen -> w_key w <> k) /\ view (store dc) k = None
  | Some ts => exists w, w ∈ seen /\ w_key w = k /\ w_ts w = ts /\
      (forall x, x ∈ seen -> w_key x = k -> w_ts x <= ts) /\
      (view (store dc) k = None \/ exists d v, view (store dc) k = Some (v, d) /\ w_val w = Some v)
  end.

Definition same_state (dc dc' : cache) : Prop :=
  (forall k, view (store dc') k = view (store dc) k) /\
  (forall k, stamp_of (appliedTS dc') k = stamp_of (appliedTS dc) k) /\
  cacheID dc' = cacheID dc /\ typ dc' = typ dc.

Lemma tracks_same dc dc' seen k : same_state dc dc' -> tracks dc seen k -> tracks dc' seen k.
Proof. intros (Hv & Hs & _) Ht. unfold tracks in *. rewrite Hs, Hv. exact Ht. Qed.

(** The table forgets nothing: the keys in use are fewer than
    [watermarkEntries].  A table that evicts a stamp lets an older write
    back in; no theorem speaks of that. *)
Context (never_forgets : forall k ts w j, j <> k -> stamp_of (lru_Add k ts w) j = stamp_of w j).

(** The state after a write of [k] with stamp [ts] that beat the table. *)
Record applied (dc dc' : cache) (w : write V) : Prop := {
  ap_store : match w_val w with
             | Some v => exists d, view (store dc') (w_key w) = Some (v, d)
             | None => view (store dc') (w_key w) = None
             end;
  ap_others k : k <> w_key w -> kept (view (store dc) k) (view (store dc') k);
  ap_stamp : stamp_of (appliedTS dc') (w_key w) = Some (w_ts w);
  ap_stamps k : k <> w_key w -> stamp_of (appliedTS dc') k = stamp_of (appliedTS dc) k;
  ap_newer last : stamp_of (appliedTS dc) (w_key w) = Some last -> last < w_ts w;
  ap_id : cacheID dc' = cacheID dc;
  ap_typ : typ dc' = typ dc }.

Lemma tracks_applied dc dc' seen w k :
  applied dc dc' w -> tracks dc seen (w_key w) -> tracks dc seen k -> tracks dc' (w :: seen) k.
Proof.
  intros [Hs Ho Ht Hts Hn _ _] Hw Hk. unfold tracks. destruct (decide (k = w_key w)) as [->|Hne].
  - rewrite Ht. exists w. split; [by left|]. split_and!; [done|done| |].
    + intros x [->|Hx]%elem_of_cons Hxk; [lia|]. unfold tracks in Hw.
      destruct (stamp_of (appliedTS dc) (w_key w)) as [last|]; [|by destruct Hw as [Hw _]; apply Hw in Hx].
      destruct Hw as (_ & _ & _ & _ & Hmax & _). specialize (Hmax x Hx Hxk). specialize (Hn last eq_refl). lia.
    + destruct (w_val w) as [v|]; [|by left]. destruct Hs as [d Hs]. right. eauto.
  - rewrite Hts by done. unfold tracks in Hk. specialize (Ho k Hne).
    destruct (stamp_of (appliedTS dc) k) as [ts|].
    + destruct Hk as (x & Hx & Hxk & Hxt & Hmax & Hv). exists x. split; [by right|]. split_and!; [done|done| |].
      * intros y [->|Hy]%elem_of_cons Hyk; [congruence|auto].
      * destruct Ho as [->| ->]; [exact Hv|by left].
    + destruct Hk as [Hnone Hv]. split.
      * intros x [->|Hx]%elem_of_cons; [congruence|auto].
      * destruct Ho as [->| ->]; done.
Qed.

(** A write seen again, or beaten by the table, changes nothing. *)
Lemma tracks_stale dc seen w k last :
  stamp_of (appliedTS dc) (w_key w) = Some last -> w_ts w <= last ->
  tracks dc seen k -> tracks dc (w :: seen) k.
Proof.
  intros Hl Hle Hk. unfold tracks in *. destruct (decide (k = w_key w)) as [->|Hne].
  - rewrite Hl in *. destruct Hk as (x & Hx & Hxk & Hxt & Hmax & Hv). exists x.
    split; [by right|]. split_and!; [done|done| |exact Hv].
    intros y [->|Hy]%elem_of_cons Hyk; [lia|auto].
  - destruct (stamp_of (appliedTS dc) k) as [ts|].
    + destruct Hk as (x & Hx & Hxk & Hxt & Hmax & Hv). exists x. split; [by right|].
      split_and!; [done|done| |exact Hv]. intros y [->|Hy]%elem_of_cons Hyk; [congruence|auto].
    + destruct Hk as [Hnone Hv]. split; [|done]. intros x [->|Hx]%elem_of_cons; [congruence|auto].
Qed.

(** ** The operations *)

(** Values travel as JSON without loss, and events whose key is valid UTF-8
    do. *)
Context (value_travels : forall v data, json_Marshal (Some v) = Some data -> json_Unmarshal data = Some v).
Context (event_travels : forall e data,
  ValidString (Key e) = true -> marshal_event e = Some data -> unmarshal_event data = Some e).

Lemma stampLocked_spec clock k (dc : cache) ts w :
  in_time clock k dc -> stampLocked clock k (appliedTS dc) = (ts, w) ->
  ts = stamp clock k dc /\ (forall j, stamp_of w j = stamp_of (appliedTS dc) j) /\
  (forall last, stamp_of (appliedTS dc) k = Some last -> last < ts).
Proof.
  intros [Hc Hl] E. unfold stamp. rewrite E. split; [done|]. unfold stampLocked in E.
  pose proof (lru_get k (appliedTS dc)) as Eg. pose proof (lru_get_keeps k (appliedTS dc)) as Ek.
  destruct (lru_Get k (appliedTS dc)) as [[last|] w']; cbn in *; simplify_eq; (split; [done|]).
  - intros last' E'. rewrite E' in Eg. simplify_eq. specialize (Hl last' E').
    destruct (Z.leb_spec clock last'); [|lia]. rewrite wrap64_id; lia.
  - intros last' E'. congruence.
Qed.

Lemma advance_spec k ts w :
  (forall last, stamp_of w k = Some last -> last < ts) ->
  stamp_of (advanceWatermarkLocked k ts w) k = Some ts /\
  forall j, j <> k -> stamp_of (advanceWatermarkLocked k ts w) j = stamp_of w j.
Proof.
  intros Hn. unfold advanceWatermarkLocked.
  pose proof (lru_get k w) as Eg. pose proof (lru_get_keeps k w) as Ek.
  destruct (lru_Get k w) as [[last|] w']; cbn in *.
  - symmetry in Eg. specialize (Hn last Eg). destruct (Z.leb_spec ts last); [lia|].
    split; [apply lru_add|]. intros j Hj. by rewrite never_forgets, Ek.
  - split; [apply lru_add|]. intros j Hj. by rewrite never_forgets, Ek.
Qed.

(** What [sendEvent] leaves alone, and what it puts on the topic. *)
Lemma sendEvent_spec pub k ts op ttl raw (dc : cache) err dc' record :
  sendEvent json_Marshal marshal_event pub k ts op ttl raw dc = (err, dc', record) ->
  wrote err = true /\ same_state dc dc' /\
  (forall data, record = Some data -> exists val,
     json_Marshal raw = Some val /\
     marshal_event (mkEvent (cacheID dc) k ts op val (typ dc) ttl (instance dc)) = Some data).
Proof.
  unfold sendEvent. intros E. destruct (json_Marshal raw) as [val|] eqn:Ej; [|by simplify_eq].
  destruct (marshal_event _) as [data|] eqn:Em; [|by simplify_eq].
  destruct pub; simplify_eq; (split; [done|split; [done|]]); try done.
  intros data' [= <-]. eauto.
Qed.

(** A record that is the event of the write [w] by [id]. *)
Definition carries (record : string) (id : string) (w : write V) : Prop :=
  exists e, event_of record = Some e /\ write_of e = Some w /\ CacheID e = id /\ 0 <= TTL e <= limit.

(** The outcome of a local write of [w]: done, with its event if it was
    published; or refused, with nothing changed. *)
Definition outcome (dc : cache) (w : write V) (r : option dcache_error * cache * option string) : Prop :=
  let '(err, dc', record) := r in
  if wrote err then applied dc dc' w /\ forall data, record = Some data -> carries data (cacheID dc) w
  else same_state dc dc' /\ record = None.

Lemma applied_then dc dc1 dc2 w : applied dc dc1 w -> same_state dc1 dc2 -> applied dc dc2 w.
Proof.
  intros [H1 H2 H3 H4 H5 H6 H7] (Hv & Hs & Hi & Ht).
  split; intros; rewrite ?Hv, ?Hs, ?Hi, ?Ht; auto.
Qed.

Lemma Set_outcome now clock pub k v ttl (dc : cache) :
  in_time clock k dc -> ttl <= limit -> typ dc = t ->
  outcome dc (mkWrite k (stamp clock k dc) (Some v)) (Set_ now clock pub k v ttl dc).
Proof.
  intros Hc Hlim Ht. unfold Dcache.Set_. destruct (Z.ltb_spec ttl 0) as [|Hpos]; [by cbn|].
  destruct (validKey k) eqn:Ek; [|by cbn]. cbn [negb].
  destruct (stampLocked clock k (appliedTS dc)) as [ts w] eqn:Es.
  destruct (stampLocked_spec _ _ _ _ _ Hc Es) as (-> & Hw & Hnew).
  destruct (cache_Set now k v ttl (store dc)) as [[e|] s] eqn:Ec.
  - apply set_refused in Ec as ->. cbn. split; [|done]. by split_and!.
  - destruct (sendEvent _ _ _ _ _ _ _ _ _) as [[err dc'] record] eqn:Ee.
    apply sendEvent_spec in Ee as (Hwr & Hsame & Hrec). cbn [outcome]. rewrite Hwr. split.
    + eapply applied_then; [|exact Hsame].
      destruct (advance_spec k (stamp clock k dc) w) as [Ha Hao]; [intros last; rewrite Hw; apply Hnew|].
      destruct (set_stores now k v ttl (store dc) s I Hlim Ec) as (d & Hd & _).
      split; cbn; auto; [eauto| |].
      * intros j Hj. pose proof (set_others now k v ttl (store dc) j Hj) as Ho. by rewrite Ec in Ho.
      * intros j Hj. by rewrite Hao.
    + intros data Hdata. destruct (Hrec data Hdata) as (val & Hval & Hm).
      apply event_travels in Hm; [|done]. eexists. split.
      { unfold event_of. rewrite Hm. cbn. by rewrite bool_decide_true. }
      unfold write_of. cbn. rewrite (value_travels v val Hval). done.
Qed.

Lemma Delete_outcome now clock pub k (dc : cache) :
  0 <= limit -> in_time clock k dc -> typ dc = t ->
  outcome dc (mkWrite k (stamp clock k dc) None) (Delete now clock pub k dc).
Proof.
  intros Hlim Hc Ht. unfold Dcache.Delete. destruct (validKey k) eqn:Ek; [|by cbn]. cbn [negb].
  destruct (stampLocked clock k (appliedTS dc)) as [ts w] eqn:Es.
  destruct (stampLocked_spec _ _ _ _ _ Hc Es) as (-> & Hw & Hnew).
  pose proof (delete_ok k (store dc)) as Hok. pose proof (delete_gone k (store dc)) as Hgone.
  pose proof (fun j => delete_others k (store dc) j) as Hoth.
  destruct (cache_Delete k (store dc)) as [e s]. cbn in Hok, Hgone, Hoth. subst e. cbn [removal_error].
  destruct (sendEvent _ _ _ _ _ _ _ _ _) as [[err dc'] record] eqn:Ee.
  apply sendEvent_spec in Ee as (Hwr & Hsame & Hrec). cbn [outcome]. rewrite Hwr. split.
  - eapply applied_then; [|exact Hsame].
    destruct (advance_spec k (stamp clock k dc) w) as [Ha Hao]; [intros last; rewrite Hw; apply Hnew|].
    split; cbn; auto.
    + intros j Hj. left. by rewrite Hoth.
    + intros j Hj. by rewrite Hao.
  - intros data Hdata. destruct (Hrec data Hdata) as (val & Hval & Hm).
    apply event_travels in Hm; [|done]. eexists. split.
    { unfold event_of. rewrite Hm. cbn. by rewrite bool_decide_true. }
    done.
Qed.

(** The outcome of a record: the write it carries is applied, or was beaten,
    or the record leaves no trace. *)
Lemma superseded_spec e (w : W) b w' :
  superseded e w = (b, w') ->
  (forall k, stamp_of w' k = stamp_of w k) /\
  b = match stamp_of w (Key e) with Some last => TS e <=? last | None => false end.
Proof.
  unfold superseded. intros E. pose proof (lru_get (Key e) w) as Eg. pose proof (lru_get_keeps (Key e) w) as Ek.
  destruct (lru_Get (Key e) w) as [[last|] w1]; cbn in *; simplify_eq; by rewrite <- Eg.
Qed.

(** What [applyPeerSet] and [applyPeerDelete] leave. *)
Definition taken (dc : cache) (w : write V) (r : bool * option cache_error * cache) : Prop :=
  match r with
  | (true, None, dc') => same_state dc dc' /\
      exists last, stamp_of (appliedTS dc) (w_key w) = Some last /\ w_ts w <= last
  | (false, None, dc') => applied dc dc' w
  | (_, Some _, dc') => same_state dc dc'
  end.

Lemma applyPeerSet_taken now e v (dc : cache) :
  TTL e <= limit -> taken dc (mkWrite (Key e) (TS e) (Some v)) (applyPeerSet now e v dc).
Proof.
  intros Hlim. unfold applyPeerSet. destruct (superseded e (appliedTS dc)) as [b w] eqn:Es.
  apply superseded_spec in Es as [Hw Hb]. destruct b.
  - cbn. split; [by split_and!|]. destruct (stamp_of (appliedTS dc) (Key e)) as [last|]; [|done].
    exists last. split; [done|lia].
  - destruct (cache_Set now (Key e) v (TTL e) (store dc)) as [[er|] s] eqn:Ec.
    + apply set_refused in Ec as ->. by split_and!.
    + destruct (set_stores now (Key e) v (TTL e) (store dc) s I Hlim Ec) as (d & Hd & _).
      split; cbn; auto; [eauto| |apply lru_add| |].
      * intros j Hj. pose proof (set_others now (Key e) v (TTL e) (store dc) j Hj) as Ho. by rewrite Ec in Ho.
      * intros j Hj. by rewrite never_forgets, Hw.
      * intros last El. rewrite El in Hb. lia.
Qed.

Lemma applyPeerDelete_taken e (dc : cache) :
  taken dc (mkWrite (Key e) (TS e) None) (applyPeerDelete e dc).
Proof.
  unfold applyPeerDelete. destruct (superseded e (appliedTS dc)) as [b w] eqn:Es.
  apply superseded_spec in Es as [Hw Hb]. destruct b.
  - cbn. split; [by split_and!|]. destruct (stamp_of (appliedTS dc) (Key e)) as [last|]; [|done].
    exists last. split; [done|lia].
  - pose proof (delete_ok (Key e) (store dc)) as Hok. pose proof (delete_gone (Key e) (store dc)) as Hgone.
    pose proof (fun j => delete_others (Key e) (store dc) j) as Hoth.
    destruct (cache_Delete (Key e) (store dc)) as [er s]. cbn in Hok, Hgone, Hoth. subst er. cbn.
    split; cbn; auto; [|apply lru_add| |].
    + intros j Hj. left. by rewrite Hoth.
    + intros j Hj. by rewrite never_forgets, Hw.
    + intros last El. rewrite El in Hb. lia.
Qed.

(** The listener's body on a record of the topic. *)
Definition digested (dc : cache) (record : string) (r : handled * cache) : Prop :=
  match r.1 with
  | Applied => exists w, write_in record = Some w /\ applied dc r.2 w
  | Stale => same_state dc r.2 /\ exists w last, write_in record = Some w /\
               stamp_of (appliedTS dc) (w_key w) = Some last /\ w_ts w <= last
  | _ => same_state dc r.2
  end.

Lemma handle_digested now record (dc : cache) :
  typ dc = t -> (forall e, event_of record = Some e -> TTL e <= limit) ->
  digested dc record (handle now record dc).
Proof.
  intros Ht Hlim. unfold digested, Dcache.handle.
  destruct (unmarshal_event record) as [e|] eqn:Eu; [|by cbn].
  destruct (bool_decide (CacheID e = cacheID dc)); [by cbn|].
  destruct (decide (Typ e = typ dc)) as [Et|Et]; [rewrite bool_decide_false by auto|by rewrite bool_decide_true by done].
  assert (event_of record = Some e) as Ee.
  { unfold event_of. rewrite Eu, bool_decide_true; [done|congruence]. }
  assert (write_in record = write_of e) as Ew by (unfold write_in; by rewrite Ee).
  unfold write_of in Ew. destruct (Z.eqb_spec (Op e) opSet).
  - destruct (json_Unmarshal (Val e)) as [v|]; [|by cbn]. cbn in Ew.
    pose proof (applyPeerSet_taken now e v dc (Hlim e Ee)) as Hk.
    destruct (applyPeerSet now e v dc) as [[[] [er|]] dc']; cbn in *; eauto.
    + destruct Hk as [Hs (last & Hl & Hle)]. split; [done|]. eauto.
    + eexists. split; [done|]. eapply applied_then; [exact Hk|by split_and!].
  - destruct (Z.eqb_spec (Op e) opDel); [|by cbn].
    pose proof (applyPeerDelete_taken e dc) as Hk.
    destruct (applyPeerDelete e dc) as [[[] [er|]] dc']; cbn in *; eauto.
    + destruct Hk as [Hs (last & Hl & Hle)]. split; [done|]. eauto.
    + eexists. split; [done|]. eapply applied_then; [exact Hk|by split_and!].
Qed.

(** ** The system *)

Context (limit_nonneg : 0 <= limit).

Record inv (s : system) : Prop := {
  inv_node id n : nodes s !! id = Some n ->
    cacheID (n_cache n) = id /\ typ (n_cache n) = t /\ forall k, tracks (n_cache n) (n_seen n) k;
  inv_seen id n w : nodes s !! id = Some n -> w ∈ n_seen n ->
    w ∈ lost s \/ exists record, record ∈ log s /\ write_in record = Some w;
  inv_log record e : record ∈ log s -> event_of record = Some e ->
    0 <= TTL e <= limit /\ exists w n, write_of e = Some w /\ nodes s !! CacheID e = Some n /\ w ∈ n_seen n }.

Lemma replicas_inv_initial : inv initial.
Proof. split; cbn; try (intros *; by rewrite lookup_empty). by intros record e ?%elem_of_nil. Qed.

(** A node changes, the topic and the losses grow. *)
Lemma inv_update s id dc seen more lost' :
  inv s -> (nodes s !! id = None \/ exists n0, nodes s !! id = Some n0 /\ forall w, w ∈ n_seen n0 -> w ∈ seen) ->
  cacheID dc = id -> typ dc = t -> (forall k, tracks dc seen k) ->
  (forall w, w ∈ lost s -> w ∈ lost') ->
  (forall w, w ∈ seen -> (exists n0, nodes s !! id = Some n0 /\ w ∈ n_seen n0) \/ w ∈ lost' \/
     exists record, record ∈ log s ++ more /\ write_in record = Some w) ->
  (forall record e, record ∈ more -> event_of record = Some e ->
     0 <= TTL e <= limit /\ exists w, write_of e = Some w /\ CacheID e = id /\ w ∈ seen) ->
  inv (mkSystem (<[id := mkNode dc seen]> (nodes s)) (log s ++ more) lost').
Proof.
  intros Hinv Hold Hid Ht Htr Hlost Hseen Hmore. split; cbn.
  - intros id' n' [[<- <-]|[Hne Hn']]%lookup_insert_Some; [done|]. by eapply inv_node.
  - intros id' n' w [[<- <-]|[Hne Hn']]%lookup_insert_Some Hw; cbn in *.
    + destruct (Hseen w Hw) as [(n0 & Hn0 & Hw0)|Hc]; [|exact Hc].
      destruct (inv_seen _ Hinv _ _ _ Hn0 Hw0) as [Hl|(r & Hr & Hrw)]; [left; auto|].
      right. exists r. split; [|done]. apply elem_of_app. by left.
    + destruct (inv_seen _ Hinv _ _ _ Hn' Hw) as [Hl|(r & Hr & Hrw)]; [left; auto|].
      right. exists r. split; [|done]. apply elem_of_app. by left.
  - intros record e [Hr|Hr]%elem_of_app He.
    + destruct (inv_log _ Hinv _ _ Hr He) as (Hl & w & n & Hw & Hn & Hin). split; [done|]. exists w.
      destruct (decide (CacheID e = id)) as [E|Hne].
      * exists (mkNode dc seen). split; [done|]. rewrite E in *. split; [by rewrite lookup_insert_eq|].
        cbn. destruct Hold as [Hnone|(n0 & Hn0 & Hsub)]; [congruence|]. apply Hsub. congruence.
      * exists n. split; [done|]. split; [|done]. by rewrite lookup_insert_ne by congruence.
    + destruct (Hmore _ _ Hr He) as (Hl & w & Hw & Hc & Hin). split; [done|]. exists w, (mkNode dc seen).
      split; [done|]. rewrite Hc. split; [by rewrite lookup_insert_eq|done].
Qed.

Lemma applied_ids dc dc' w : applied dc dc' w -> cacheID dc' = cacheID dc /\ typ dc' = typ dc.
Proof. intros []. done. Qed.

(** A local write keeps the invariant. *)
Lemma replicas_inv_write s id n w r :
  inv s -> nodes s !! id = Some n -> outcome (n_cache n) w r -> inv (after_write id w n r s).
Proof.
  intros Hinv Hn Ho. destruct r as [[err dc] record]. cbn in Ho.
  destruct (inv_node _ Hinv _ _ Hn) as (Hid & Ht & Htr). unfold after_write.
  destruct (wrote err).
  - destruct Ho as [Ha Hc]. destruct (applied_ids _ _ _ Ha) as [Hi Hty].
    eapply inv_update; eauto; try congruence.
    + right. exists n. split; [done|]. intros w' Hw'. by right.
    + intros k. eapply tracks_applied; eauto.
    + destruct record; [done|]. intros w' Hw'. by right.
    + intros w' [->|Hw']%elem_of_cons; [|left; by eauto].
      right. destruct record as [data|]; [|left; by left]. right.
      destruct (Hc data eq_refl) as (e & He & Hwe & _ & _). exists data. split; [apply elem_of_app; right; by left|].
      unfold write_in. by rewrite He.
    + intros record' e Hr He. destruct record as [data|]; [|by apply elem_of_nil in Hr].
      apply list_elem_of_singleton in Hr as ->. destruct (Hc data eq_refl) as (e' & He' & Hwe & Hce & Hle).
      rewrite He in He'. simplify_eq. split; [done|]. exists w. split; [done|]. split; [congruence|by left].
  - destruct Ho as [Hs ->]. pose proof Hs as (_ & _ & Hi & Hty).
    eapply inv_update; eauto; try congruence.
    + intros k. by eapply tracks_same.
    + by intros record e ?%elem_of_nil.
Qed.

Lemma inv_record s id n record r :
  inv s -> nodes s !! id = Some n -> record ∈ log s -> digested (n_cache n) record r ->
  inv (after_record id record n r s).
Proof.
  intros Hinv Hn Hr Hd. destruct r as [h dc]. unfold digested in Hd. cbn in Hd.
  destruct (inv_node _ Hinv _ _ Hn) as (Hid & Ht & Htr). unfold after_record.
  assert (same_state (n_cache n) dc ->
    inv (mkSystem (<[id := mkNode dc (n_seen n)]> (nodes s)) (log s) (lost s))) as Hsame.
  { intros Hs. pose proof Hs as (_ & _ & Hi & Hty). rewrite <- (app_nil_r (log s)).
    eapply inv_update; eauto; try congruence; [intros k; by eapply tracks_same|by intros ?? ?%elem_of_nil]. }
  assert (forall w, write_in record = Some w -> (forall k, tracks dc (w :: n_seen n) k) ->
    cacheID dc = id -> typ dc = t ->
    inv (mkSystem (<[id := mkNode dc (w :: n_seen n)]> (nodes s)) (log s) (lost s))) as Htook.
  { intros w Hw Hk Hi Hty. rewrite <- (app_nil_r (log s)).
    eapply inv_update; eauto.
    - right. exists n. split; [done|]. intros w' Hw'. by right.
    - intros w' [->|Hw']%elem_of_cons; [|left; by eauto]. right. right. exists record.
      rewrite app_nil_r. done.
    - by intros ?? ?%elem_of_nil. }
  destruct h; cbn [took]; try (by apply Hsame).
  - destruct Hd as (Hs & w & last & Hw & Hl & Hle). rewrite Hw. pose proof Hs as (_ & _ & Hi & Hty).
    apply Htook; [done| |congruence|congruence]. intros k. eapply tracks_same; [exact Hs|]. by eapply tracks_stale.
  - destruct Hd as (w & Hw & Ha). rewrite Hw. destruct (applied_ids _ _ _ Ha) as [Hi Hty].
    apply Htook; [done| |congruence|congruence]. intros k. by eapply tracks_applied.
Qed.

Lemma Get_same now k dc : same_state dc (Get now k dc).2.
Proof.
  unfold Get. pose proof (fun j => get_keeps now k (store dc) j) as Hk.
  destruct (cache_Get now k (store dc)) as [[v|e] s]; cbn in *; [by split_and!|].
  destruct e; by split_and!.
Qed.

Lemma replicas_inv_step s s' : inv s -> step s s' -> inv s'.
Proof.
  intros Hinv Hs. destruct Hs.
  - rewrite <- (app_nil_r (log s)). eapply inv_update; eauto.
    + intros k. unfold tracks. rewrite H5. split; [|done]. by intros w ?%elem_of_nil.
    + by intros w ?%elem_of_nil.
    + by intros ?? ?%elem_of_nil.
  - eapply replicas_inv_write; eauto. apply Set_outcome; auto. by eapply inv_node.
  - eapply replicas_inv_write; eauto. apply Delete_outcome; auto. by eapply inv_node.
  - eapply inv_record; eauto. apply handle_digested; [by eapply inv_node|].
    intros e He. by eapply inv_log.
  - destruct (inv_node _ Hinv _ _ H1) as (Hid & Ht & Htr). pose proof (Get_same now k (n_cache n)) as Hg.
    pose proof Hg as (_ & _ & Hi & Hty). rewrite <- (app_nil_r (log s)).
    eapply inv_update; eauto; try congruence; [intros j; by eapply tracks_same|by intros ?? ?%elem_of_nil].
  - split; cbn.
    + apply (inv_node _ Hinv).
    + intros id n w Hn Hw. destruct (inv_seen _ Hinv _ _ _ Hn Hw) as [Hl|(r & Hr & Hrw)]; [by left|].
      right. exists r. split; [|done]. apply elem_of_app. by left.
    + intros r e [Hr|Hr]%elem_of_app He; [by eapply inv_log|].
      apply list_elem_of_singleton in Hr as ->. congruence.
Qed.

Lemma replicas_inv_reachable s : steps step initial s -> inv s.
Proof. intros Hs. eapply steps_invariant; eauto using replicas_inv_initial, replicas_inv_step. Qed.

(** ** Convergence *)

(** Every write of [k] on the topic is seen by every instance. *)
Definition delivered (k : string) (s : system) : Prop :=
  forall id n w, nodes s !! id = Some n -> w ∈ published k (log s) -> w ∈ n_seen n.

Definition all_published (k : string) (s : system) : Prop := forall w, w ∈ lost s -> w_key w <> k.

(** No two writes of [k] carry one stamp. *)
Definition distinct_stamps (k : string) (s : system) : Prop :=
  forall w x, w ∈ published k (log s) -> x ∈ published k (log s) -> w_ts w = w_ts x -> w = x.

(** What a read of [k] may answer when [w] is its newest write: the value
    it wrote, or a miss; a miss after a delete, or when there is none. *)
Definition answers (w : option (write V)) (r : result dcache_error V) : Prop :=
  match r with
  | Ok v => exists w', w = Some w' /\ w_val w' = Some v
  | Err e => e = ErrNotFound
  end.

Definition agreed (k : string) (s : system) : Prop :=
  forall id n now, nodes s !! id = Some n ->
    answers (newest (published k (log s))) (Get now k (n_cache n)).1 /\
    stamp_of (appliedTS (n_cache n)) k = w_ts <$> newest (published k (log s)).

Lemma elem_of_published w k l :
  w ∈ published k l <-> w_key w = k /\ exists record, record ∈ l /\ write_in record = Some w.
Proof. unfold published. rewrite list_elem_of_filter, list_elem_of_omap. done. Qed.

Lemma read_answers now k (dc : cache) w :
  (view (store dc) k = None \/ exists d v, view (store dc) k = Some (v, d) /\ (w_val <$> w) = Some (Some v)) ->
  answers w (Get now k dc).1.
Proof.
  intros Hv. unfold Get. pose proof (get_live now k (store dc)) as Hg.
  destruct (cache_Get now k (store dc)) as [r s]. cbn in Hg. subst r.
  destruct Hv as [->|(d & v & -> & Hw)]; [done|]. destruct w as [w|]; [|done]. cbn in Hw. simplify_eq.
  destruct d as [d|]; cbn; [destruct (now <? d); cbn; [|done]|]; eauto.
Qed.

Lemma converged k s : inv s -> all_published k s -> delivered k s -> distinct_stamps k s -> agreed k s.
Proof.
  intros Hinv Hall Hdel Hdis id n now Hn. destruct (inv_node _ Hinv _ _ Hn) as (_ & _ & Htr).
  specialize (Htr k). unfold tracks in Htr.
  assert (forall w, w ∈ n_seen n -> w_key w = k -> w ∈ published k (log s)) as Hpub.
  { intros w Hw Hk. destruct (inv_seen _ Hinv _ _ _ Hn Hw) as [Hl|Hr]; [by apply Hall in Hl|].
    apply elem_of_published. by split. }
  destruct (newest (published k (log s))) as [m|] eqn:E.
  - apply newest_some in E as [Hm Hmax]. pose proof (proj1 (elem_of_published _ _ _) Hm) as [Hmk _].
    pose proof (Hdel _ _ _ Hn Hm) as Hms.
    destruct (stamp_of (appliedTS (n_cache n)) k) as [ts|]; [|by destruct Htr as [Hno _]; apply Hno in Hms].
    destruct Htr as (w & Hw & Hwk & Hwt & Hwmax & Hv).
    assert (w = m) as ->.
    { apply Hdis; [auto|done|]. specialize (Hwmax m Hms Hmk). specialize (Hmax w (Hpub _ Hw Hwk)). lia. }
    split; [|cbn; congruence]. apply read_answers. destruct Hv as [Hv|(d & v & Hv & Hx)]; [by left|].
    right. exists d, v. split; [done|]. cbn. congruence.
  - apply newest_none in E. destruct (stamp_of (appliedTS (n_cache n)) k) as [ts|].
    + destruct Htr as (w & Hw & Hwk & _). specialize (Hpub w Hw Hwk). rewrite E in Hpub. by apply elem_of_nil in Hpub.
    + destruct Htr as [_ Hv]. split; [|done]. apply read_answers. by left.
Qed.

(** ** Delivery *)

(** The stores take every lifetime the instances publish. *)
Definition accepting : Prop :=
  forall now k v ttl s, 0 <= ttl <= limit -> (cache_Set now k v ttl s).1 = None.

(** [s'] is [s] with more seen. *)
Record extends (s s' : system) : Prop := {
  ex_log : log s' = log s;
  ex_lost : lost s' = lost s;
  ex_nodes id n' : nodes s' !! id = Some n' ->
    exists n, nodes s !! id = Some n /\ forall w, w ∈ n_seen n -> w ∈ n_seen n' }.

Lemma extends_refl s : extends s s.
Proof. split; eauto. Qed.

Lemma extends_trans s1 s2 s3 : extends s1 s2 -> extends s2 s3 -> extends s1 s3.
Proof.
  intros [A1 A2 A3] [B1 B2 B3]. split; [congruence|congruence|]. intros id n H3.
  destruct (B3 _ _ H3) as (n2 & H2 & S2). destruct (A3 _ _ H2) as (n1 & H1' & S1). exists n1. auto.
Qed.

Lemma handle_takes now record e w (dc : cache) :
  accepting -> typ dc = t -> event_of record = Some e -> 0 <= TTL e <= limit -> CacheID e <> cacheID dc ->
  write_of e = Some w -> took (handle now record dc).1 = true.
Proof.
  intros Hacc Ht He Httl Hid Hw. unfold Dcache.handle. unfold event_of in He.
  destruct (unmarshal_event record) as [e'|]; [|done]. case_bool_decide as Hty; [|done]. simplify_eq.
  rewrite bool_decide_false by done. rewrite bool_decide_false by (intros C; congruence).
  unfold write_of in Hw. destruct (Op e =? opSet).
  - destruct (json_Unmarshal (Val e)) as [v|]; [|done]. unfold applyPeerSet.
    destruct (superseded e (appliedTS dc)) as [[] wt]; [done|].
    pose proof (Hacc now (Key e) v (TTL e) (store dc) Httl) as Ho.
    destruct (cache_Set now (Key e) v (TTL e) (store dc)) as [o s]. cbn in Ho. by subst o.
  - destruct (Op e =? opDel); [|done]. unfold applyPeerDelete.
    destruct (superseded e (appliedTS dc)) as [[] wt]; [done|].
    pose proof (delete_ok (Key e) (store dc)) as Ho.
    destruct (cache_Delete (Key e) (store dc)) as [o s]. cbn in Ho. by subst o.
Qed.

(** An instance that handles a record of the topic has seen its write. *)
Lemma deliver_one s id n record w :
  accepting -> inv s -> nodes s !! id = Some n -> record ∈ log s -> write_in record = Some w ->
  exists s', steps step s s' /\ extends s s' /\ exists n', nodes s' !! id = Some n' /\ w ∈ n_seen n'.
Proof.
  intros Hacc Hinv Hn Hr Hw. unfold write_in in Hw. destruct (event_of record) as [e|] eqn:He; [|done].
  destruct (inv_log _ Hinv _ _ Hr He) as (Httl & w' & n0 & Hw' & Hn0 & Hin). rewrite Hw in Hw'. simplify_eq.
  destruct (inv_node _ Hinv _ _ Hn) as (Hid & Ht & _).
  destruct (decide (CacheID e = id)) as [E|E].
  { exists s. split; [constructor|]. split; [apply extends_refl|]. exists n0. by rewrite E in Hn0. }
  pose proof (handle_takes 0 record e w' (n_cache n) Hacc Ht He Httl ltac:(congruence) Hw) as Htook.
  exists (after_record id record n (handle 0 record (n_cache n)) s).
  split; [eapply steps_snoc; [constructor|]; by constructor|].
  destruct (handle 0 record (n_cache n)) as [h dc]. cbn in Htook. unfold after_record, write_in. rewrite Htook, He, Hw.
  split.
  - split; [done|done|]. cbn. intros id' n' [[<- <-]|[Hne Hn']]%lookup_insert_Some; [|eauto].
    exists n. split; [done|]. intros x Hx. by right.
  - eexists. cbn. rewrite lookup_insert_eq. split; [done|by left].
Qed.

(** Instances do not go away. *)
Lemma steps_dom s s' id : steps step s s' -> is_Some (nodes s !! id) -> is_Some (nodes s' !! id).
Proof.
  intros Hs. induction Hs as [s|s s1 s2 _ IH Hs]; [done|]. intros Hi. specialize (IH Hi).
  assert (forall i n, is_Some ((<[i := n]> (nodes s1) : gmap string node) !! id)) as Hins.
  { intros i n. apply lookup_insert_is_Some'. by right. }
  destruct Hs; cbn; auto; unfold after_write, after_record; repeat case_match; cbn; auto.
Qed.

(** Any list of deliveries can be made. *)
Lemma deliver_many l s :
  accepting -> inv s -> Forall (fun '(id, record) => is_Some (nodes s !! id) /\ record ∈ log s) l ->
  exists s', steps step s s' /\ extends s s' /\
    forall id record w n', (id, record) ∈ l -> write_in record = Some w -> nodes s' !! id = Some n' -> w ∈ n_seen n'.
Proof.
  intros Hacc. revert s. induction l as [|[id record] l IH]; intros s Hinv Hl.
  { exists s. split; [constructor|]. split; [apply extends_refl|]. by intros ???? ?%elem_of_nil. }
  apply Forall_cons in Hl as [[[n Hn] Hr] Hl].
  assert (exists s1, steps step s s1 /\ extends s s1 /\ (forall id', is_Some (nodes s !! id') -> is_Some (nodes s1 !! id')) /\
    forall w n1, write_in record = Some w -> nodes s1 !! id = Some n1 -> w ∈ n_seen n1) as (s1 & Hs1 & He1 & Hdom & Hw1).
  { destruct (write_in record) as [w|] eqn:Ew.
    - destruct (deliver_one s id n record w Hacc Hinv Hn Hr Ew) as (s1 & Hs & He & n1 & Hn1 & Hin).
      exists s1. split; [done|]. split; [done|]. split; [intros id1; by apply steps_dom|].
      intros w' n1' [= <-] Hn1'. congruence.
    - exists s. split; [constructor|]. split; [apply extends_refl|]. done. }
  assert (inv s1) as Hinv1 by (eapply (steps_invariant step inv replicas_inv_step); eauto).
  destruct (IH s1 Hinv1) as (s2 & Hs2 & He2 & Hw2).
  { eapply Forall_impl; [exact Hl|]. intros [id' r'] [Hi Hr']. rewrite (ex_log _ _ He1). auto. }
  exists s2. split; [by eapply steps_trans|]. split; [by eapply extends_trans|].
  intros id' r' w n' [[= -> ->]|Hin]%elem_of_cons Hw Hn'; [|by eapply Hw2].
  destruct (ex_nodes _ _ He2 _ _ Hn') as (n1 & Hn1 & Hsub). eauto.
Qed.

(** ** What it promises *)

(** C12: in every reachable state, once each write of a key on the topic has
    been handled by every instance, in whatever order and however often, none
    having been lost on its way to the topic and no two of them carrying one
    stamp, all instances agree on the key: a read anywhere, at any time,
    answers the value of the write with the highest stamp or a miss, only a
    miss when that write is a delete, and every table has that write's stamp.
    Reachable by instances whose tables of stamps never evict (the code
    bounds them by [watermarkEntries], ten times the entries of a store),
    whose clocks read nanoseconds that fit 64 bits, whose stores keep the
    contract of a cache, and whose values travel as JSON unchanged. *)
Theorem replicas_agree k s :
  steps step initial s -> all_published k s -> delivered k s -> distinct_stamps k s -> agreed k s.
Proof. intros Hs. by apply converged, replicas_inv_reachable. Qed.

(** C13: as long as no write of a key was lost on its way to the topic and no
    two of them carry one stamp, agreement is within reach of deliveries
    alone: from every state that instances as in C12 reach, if the stores
    take the lifetimes that are published, handling what is on the topic
    brings all instances to agree on the key, publishing nothing and losing
    nothing. *)
Theorem deliveries_reach_agreement k s :
  steps step initial s -> accepting -> all_published k s -> distinct_stamps k s ->
  exists s', steps step s s' /\ extends s s' /\ agreed k s'.
Proof.
  intros Hs Hacc Hall Hdis. pose proof (replicas_inv_reachable _ Hs) as Hinv.
  destruct (deliver_many
    (id ← (map_to_list (nodes s)).*1; record ← log s; [(id, record)]) s Hacc Hinv) as (s' & Hs' & He & Hw).
  { apply Forall_forall. intros [id record] (id' & (record' & Heq & Hr)%list_elem_of_bind & Hid)%list_elem_of_bind.
    apply list_elem_of_singleton in Heq. simplify_eq. split; [|done].
    apply list_elem_of_fmap in Hid as ([id n] & -> & Hn). apply elem_of_map_to_list in Hn. eauto. }
  exists s'. split; [done|]. split; [done|].
  apply converged.
  - by eapply (steps_invariant step inv replicas_inv_step).
  - unfold all_published. by rewrite (ex_lost _ _ He).
  - intros id n' w Hn' Hp. rewrite (ex_log _ _ He) in Hp.
    apply elem_of_published in Hp as (_ & record & Hr & Hrw). destruct (ex_nodes _ _ He _ _ Hn') as (n & Hn & _).
    eapply Hw; [|done|done]. apply list_elem_of_bind. exists id. split.
    + apply list_elem_of_bind. exists record. split; [by left|done].
    + apply list_elem_of_fmap. exists (id, n). split; [done|]. by apply elem_of_map_to_list.
  - unfold distinct_stamps. by rewrite (ex_log _ _ He).
Qed.

(** A write outranks everything its instance had seen of the key when it
    was made, whatever the clocks read: its stamp exceeds every one of them,
    so no peer that has both keeps an older one. *)
Lemma writes_outrank_what_they_saw k s id n clock w :
  steps step initial s -> nodes s !! id = Some n -> in_time clock k (n_cache n) ->
  w ∈ n_seen n -> w_key w = k -> w_ts w < stamp clock k (n_cache n).
Proof.
  intros Hs Hn Hc Hw Hk. destruct (inv_node _ (replicas_inv_reachable _ Hs) _ _ Hn) as (_ & _ & Htr).
  specialize (Htr k). unfold tracks in Htr.
  destruct (stampLocked clock k (appliedTS (n_cache n))) as [ts w'] eqn:E.
  destruct (stampLocked_spec _ _ _ _ _ Hc E) as (-> & _ & Hnew).
  destruct (stamp_of (appliedTS (n_cache n)) k) as [last|].
  - destruct Htr as (_ & _ & _ & _ & Hmax & _). specialize (Hmax w Hw Hk). specialize (Hnew last eq_refl). lia.
  - destruct Htr as [Hno _]. by apply Hno in Hw.
Qed.

End Spec.

(** ** Two instances *)

(** Stores and tables that are finite maps, booleans as values, and a JSON
    that knows the events of the scenario. *)
Module Scenario.

#[export] Instance map_lru : Lru (gmap string Z) := {|
  lru_Get k w := (w !! k, w); lru_Add k ts w := <[k := ts]> w |}.

Definition stamp_in (w : gmap string Z) (k : string) : option Z := w !! k.

#[export] Instance map_lru_laws : LruLaws (gmap string Z) stamp_in.
Proof.
  split; unfold stamp_in; cbn; intros; [done|done|by rewrite lookup_insert_eq|left; by rewrite lookup_insert_ne].
Qed.

Lemma map_never_forgets k ts (w : gmap string Z) j : j <> k -> stamp_in (lru_Add k ts w) j = stamp_in w j.
Proof. intros Hj. unfold stamp_in. cbn. by rewrite lookup_insert_ne. Qed.

#[export] Instance map_cache : Cache (mapstore bool) bool := live_cache otter_Set.

#[export] Instance map_cache_contract : CacheContract (mapstore bool) bool map_held (fun _ => True) foreverTTL.
Proof.
  apply (live_contract (grain := 1) (longest := foreverTTL)), (otter_laws (grain := 1) (longest := foreverTTL));
    [intros l _; apply Z.mod_1_r|reflexivity].
Qed.

Definition json (v : option bool) : option string :=
  Some match v with Some true => "true" | Some false => "false" | None => "null" end.
Definition unjson (s : string) : option bool :=
  if bool_decide (s = "true") then Some true else if bool_decide (s = "false") then Some false else None.

Definition by_a (ts : Z) : event := mkEvent "a" "k" ts opSet "true" "bool" 0 "host".
Definition by_b (ts : Z) : event := mkEvent "b" "k" ts opSet "false" "bool" 0 "host".
Definition known : list (event * string) := [(by_a 5, "A5"); (by_b 5, "B5"); (by_b 6, "B6")].

Definition marshal_known (e : event) : option string :=
  snd <$> List.find (fun p => bool_decide (fst p = e)) known.
Definition unmarshal_known (s : string) : option event :=
  fst <$> List.find (fun p => bool_decide (snd p = s)) known.

Lemma value_travels v data : json (Some v) = Some data -> unjson data = Some v.
Proof. destruct v; cbn; intros [= <-]; reflexivity. Qed.

Lemma event_travels e data : ValidString (Key e) = true -> marshal_known e = Some data -> unmarshal_known data = Some e.
Proof.
  intros _. unfold marshal_known, known. cbn.
  repeat (case_bool_decide; [subst e; cbn; intros [= <-]; reflexivity|]). done.
Qed.

Definition empty_cache (id : string) : replicatedCache (mapstore bool) (gmap string Z) :=
  mkCache ∅ "bool" id "host" ∅ (mkCounters 0 0 0 0 0 0 0 0).

Abbreviation sys := (@system bool (mapstore bool) (gmap string Z)).
Abbreviation go := (@step bool (mapstore bool) (gmap string Z) _ _ map_held foreverTTL stamp_in
  json unjson marshal_known unmarshal_known "bool").

Definition started : sys :=
  mkSystem (<["b" := mkNode (empty_cache "b") []]> (<["a" := mkNode (empty_cache "a") []]> ∅)) [] [].

Definition node_of (id : string) (s : sys) : node := default (mkNode (empty_cache id) []) (nodes s !! id).

(** Instance [id] sets the key when its clock reads [clock]. *)
Definition sets_key (id : string) (clock : Z) (v : bool) (s : sys) : sys :=
  let n := node_of id s in
  after_write id (mkWrite "k" (stamp clock "k" (n_cache n)) (Some v)) n
    (Set_ json marshal_known 0 clock Published "k" v 0 (n_cache n)) s.

Definition hears (id record : string) (s : sys) : sys :=
  let n := node_of id s in
  after_record unjson unmarshal_known "bool" id record n (handle unjson unmarshal_known 0 record (n_cache n)) s.

Lemma started_reachable : steps go initial started.
Proof.
  eapply steps_snoc; [eapply steps_snoc; [constructor|]|].
  - apply (step_start map_held foreverTTL stamp_in json unjson marshal_known unmarshal_known "bool" "a" (empty_cache "a"));
      try done; intros k; apply lookup_empty.
  - apply (step_start map_held foreverTTL stamp_in json unjson marshal_known unmarshal_known "bool" "b" (empty_cache "b"));
      try done; intros k; apply lookup_empty.
Qed.

Lemma sets_key_step id clock v s n :
  nodes s !! id = Some n -> in_time stamp_in clock "k" (n_cache n) -> go s (sets_key id clock v s).
Proof.
  intros Hn Hc. unfold sets_key, node_of. rewrite Hn. cbn [from_option Datatypes.id].
  apply (step_set map_held foreverTTL stamp_in); [done|done|by vm_compute].
Qed.

Lemma hears_step id record s n : nodes s !! id = Some n -> record ∈ log s -> go s (hears id record s).
Proof.
  intros Hn Hr. unfold hears, node_of. rewrite Hn. cbn [from_option Datatypes.id]. by apply (step_handle map_held foreverTTL stamp_in).
Qed.

(** [a] writes at 5, [b] hears of it and writes with its clock at 3: the
    stamp is 6, and [a] takes it. *)
Definition ordered : sys := hears "a" "B6" (sets_key "b" 3 false (hears "b" "A5" (sets_key "a" 5 true started))).

(** Both write at 5 before either hears of the other. *)
Definition tied : sys := hears "a" "B5" (hears "b" "A5" (sets_key "b" 5 false (sets_key "a" 5 true started))).

Definition may_set (id : string) (clock : Z) (s : sys) : bool :=
  match nodes s !! id with
  | Some n => (clock <? 2 ^ 63 - 1) &&
      match stamp_in (appliedTS (n_cache n)) "k" with
      | Some last => (- 2 ^ 63 <=? last) && (last <? 2 ^ 63 - 1)
      | None => true
      end
  | None => false
  end.

Definition may_hear (id record : string) (s : sys) : bool :=
  bool_decide (is_Some (nodes s !! id)) && bool_decide (record ∈ log s).

Lemma reach_set id clock v s :
  may_set id clock s = true -> steps go initial s -> steps go initial (sets_key id clock v s).
Proof.
  intros Hm Hs. eapply steps_snoc; [exact Hs|]. unfold may_set in Hm.
  destruct (nodes s !! id) as [n|] eqn:Hn; [|done]. boolify. eapply sets_key_step; [exact Hn|].
  split; [done|]. intros last E. rewrite E in *. boolify. lia.
Qed.

Lemma reach_hear id record s :
  may_hear id record s = true -> steps go initial s -> steps go initial (hears id record s).
Proof.
  intros Hm Hs. eapply steps_snoc; [exact Hs|]. unfold may_hear in Hm. boolify.
  destruct H as [n Hn]. by eapply hears_step.
Qed.

Lemma ordered_reachable : steps go initial ordered.
Proof.
  unfold ordered. apply reach_hear; [vm_compute; reflexivity|]. apply reach_set; [vm_compute; reflexivity|].
  apply reach_hear; [vm_compute; reflexivity|]. apply reach_set; [vm_compute; reflexivity|]. apply started_reachable.
Qed.

Lemma tied_reachable : steps go initial tied.
Proof.
  unfold tied. apply reach_hear; [vm_compute; reflexivity|]. apply reach_hear; [vm_compute; reflexivity|].
  apply reach_set; [vm_compute; reflexivity|]. apply reach_set; [vm_compute; reflexivity|]. apply started_reachable.
Qed.

Abbreviation published_ := (published (V := bool) unjson unmarshal_known "bool").
Abbreviation read id s := (Get 0 "k" (n_cache (node_of id s))).1.

Lemma nodes_two (s : sys) id n : map fst (map_to_list (nodes s)) = ["a"; "b"] -> nodes s !! id = Some n -> id = "a" \/ id = "b".
Proof.
  intros E H. assert (id ∈ map fst (map_to_list (nodes s))) as Hi
    by (apply list_elem_of_fmap; exists (id, n); split; [done|by apply elem_of_map_to_list]).
  rewrite E in Hi. clear -Hi. apply elem_of_cons in Hi as [->|Hi]; [by left|]. right. by apply list_elem_of_singleton in Hi.
Qed.

(** Delivery to two instances, evaluated. *)
Lemma delivered_two (s : sys) w x : map fst (map_to_list (nodes s)) = ["a"; "b"] -> published_ "k" (log s) = [w; x] ->
  (forall id, id ∈ ["a"; "b"] -> w ∈ n_seen (node_of id s) /\ x ∈ n_seen (node_of id s)) ->
  delivered unjson unmarshal_known "bool" "k" s.
Proof.
  intros En Ep H id n v Hn Hv. rewrite Ep in Hv. assert (n = node_of id s) as -> by (unfold node_of; by rewrite Hn).
  destruct (H id) as [Hw Hx]; [apply nodes_two in Hn as [-> | ->]; [constructor|constructor; constructor|done]|].
  clear -Hv Hw Hx. apply elem_of_cons in Hv as [->|Hv]; [done|]. by apply list_elem_of_singleton in Hv as ->.
Qed.

Lemma published_ordered : published_ "k" (log ordered) = [mkWrite "k" 5 (Some true); mkWrite "k" 6 (Some false)].
Proof. vm_compute. reflexivity. Qed.

Lemma ordered_delivered : delivered unjson unmarshal_known "bool" "k" ordered.
Proof.
  apply (delivered_two ordered (mkWrite "k" 5 (Some true)) (mkWrite "k" 6 (Some false))); [vm_compute; reflexivity|exact published_ordered|].
  apply Forall_forall. eapply bool_decide_unpack; vm_compute; exact I.
Qed.

Lemma ordered_distinct : distinct_stamps unjson unmarshal_known "bool" "k" ordered.
Proof.
  intros w x. rewrite published_ordered. intros Hw Hx.
  repeat (apply elem_of_cons in Hw as [->|Hw]; [repeat (apply elem_of_cons in Hx as [->|Hx]; [done|]); by apply elem_of_nil in Hx|]).
  by apply elem_of_nil in Hw.
Qed.

End Scenario.
Import Scenario.

Lemma replicas_agree_witness :
  agreed stamp_in unjson unmarshal_known "bool" "k" ordered /\ read "a" ordered = Ok false /\ read "b" ordered = Ok false.
Proof.
  split; [|split; vm_compute; reflexivity].
  apply (replicas_agree map_held foreverTTL stamp_in json unjson marshal_known unmarshal_known "bool"
           map_never_forgets value_travels event_travels ltac:(done)).
  - exact ordered_reachable.
  - intros w Hw. vm_compute in Hw. by apply elem_of_nil in Hw.
  - exact ordered_delivered.
  - exact ordered_distinct.
Defined.

Lemma deliveries_reach_agreement_witness :
  exists s', steps go ordered s' /\ extends ordered s' /\ agreed stamp_in unjson unmarshal_known "bool" "k" s'.
Proof.
  apply (deliveries_reach_agreement map_held foreverTTL stamp_in json unjson marshal_known unmarshal_known "bool"
           map_never_forgets value_travels event_travels ltac:(done)).
  - exact ordered_reachable.
  - intros now k v ttl s [Hl _]. cbn. unfold otter_Set. destruct (Z.ltb_spec ttl 0); [lia|done].
  - intros w Hw. vm_compute in Hw. by apply elem_of_nil in Hw.
  - exact ordered_distinct.
Defined.

(** [b], whose clock reads 3, outranks the write of [a] it has seen. *)
Definition heard : sys := hears "b" "A5" (sets_key "a" 5 true started).

Lemma writes_outrank_what_they_saw_witness : 5 < stamp 3 "k" (n_cache (node_of "b" heard)).
Proof.
  apply (writes_outrank_what_they_saw map_held foreverTTL stamp_in json unjson marshal_known unmarshal_known "bool"
           map_never_forgets value_travels event_travels ltac:(done) "k" heard "b" (node_of "b" heard) 3
           (mkWrite "k" 5 (Some true))).
  - unfold heard. apply reach_hear; [vm_compute; reflexivity|]. apply reach_set; [vm_compute; reflexivity|].
    exact started_reachable.
  - vm_compute. reflexivity.
  - split; [lia|]. intros last E. vm_compute in E. injection E as <-. lia.
  - vm_compute. left.
  - reflexivity.
Defined.

(** Two instances that write one key with one stamp never agree: each
    has the other's event delivered and drops it as stale, and their reads
    differ for as long as the entries live. *)
Lemma equal_stamps_disagree :
  steps go initial tied /\ lost tied = [] /\ delivered unjson unmarshal_known "bool" "k" tied /\
  read "a" tied = Ok true /\ read "b" tied = Ok false.
Proof.
  split; [exact tied_reachable|]. split; [vm_compute; reflexivity|].
  split; [|split; vm_compute; reflexivity].
  apply (delivered_two tied (mkWrite "k" 5 (Some true)) (mkWrite "k" 5 (Some false))); [vm_compute; reflexivity..|].
  apply Forall_forall. eapply bool_decide_unpack; vm_compute; exact I.
Qed.

(** ** The listener's polls *)

(** A run of polls at the given moments, each with its errors and records. *)
Fixpoint polls (l : list (Z * list fetch_error * nat)) (p : poll_state) : poll_state * list (Z * poll_action) :=
  match l with
  | [] => (p, [])
  | (now, errs, records) :: l =>
      let '(p, acts) := poll now errs records p in
      let '(p, rest) := polls l p in
      (p, map (pair now) acts ++ rest)
  end.

Definition reports (acts : list (Z * poll_action)) : list Z :=
  omap (fun a => match a.2 with Report _ => Some a.1 | _ => None end) acts.

Fixpoint spaced (gap : Z) (last : option Z) (l : list Z) : Prop :=
  match l with
  | [] => True
  | x :: l => match last with Some y => gap <= x - y | None => True end /\ spaced gap (Some x) l
  end.

Lemma spaced_none gap last l : spaced gap last l -> spaced gap None l.
Proof. destruct l; cbn; [done|]. tauto. Qed.

(** While polls keep failing, reports are thirty seconds apart. *)
Lemma reports_spaced l p :
  Forall (fun '(_, errs, _) => errs <> []) l ->
  spaced fetchErrorInterval (reportedAt p) (reports (polls l p).2).
Proof.
  revert p. induction l as [|[[now errs] records] l IH]; intros p Hl; cbn [polls]; [done|].
  apply Forall_cons in Hl as [He Hl]. unfold poll. destruct errs as [|e errs]; [done|].
  set (res := topicUnknown (e :: errs) && due (resolvedAt p) now).
  set (p' := mkPoll _ _ _). specialize (IH p' Hl). destruct (polls l p') as [p2 rest]. cbn [snd] in *.
  unfold reports in *. rewrite omap_app.
  assert (omap (fun a : Z * poll_action => match a.2 with Report _ => Some a.1 | _ => None end)
    (map (pair now) (((if due (reportedAt p) now then [Report (failed p + 1)] else []) ++ (if res then [Resolve] else [])) ++
      (if (records =? 0)%nat && (0 <? failed p') then [Pause] else []))) =
    if due (reportedAt p) now then [now] else []) as ->.
  { destruct (due (reportedAt p) now), res, ((records =? 0)%nat && (0 <? failed p')); reflexivity. }
  subst p'. cbn [reportedAt] in IH. destruct (due (reportedAt p) now) eqn:Ed; cbn; [|done].
  split; [|done]. unfold due in Ed. destruct (reportedAt p); [lia|done].
Qed.
