(* ===== verification/PathMatch.v ===== *)
(** * Path templates of the authorization rules

    Models [authz/rbac/pathmatch.go].  A Go string is a list of bytes; the
    regexp engine reads it as runes, an undecodable byte being one of its
    own.  The expressions the package builds have three parts only: a
    literal rune, [[^/]+] and [.*]; [expr] is their sequence and
    [MatchString] decides the anchored match.  The second half has the
    template language as a relation and that compiling a template and matching
    decides it. *)

From stdpp Require Import base list strings gmap.
From Stdlib Require Import ZArith Lia Ascii.
From S2P Require Import Prelude GoStrings.
Local Open Scope Z_scope.

Definition slash := Rune 47.
Definition star := Rune 42.
Definition newline := Rune 10.
Definition lbrace := Rune 123.
Definition rbrace := Rune 125.

(** ** Expressions *)

Inductive item : Set :=
| Lit (c : char)   (* one rune, quoted *)
| Seg              (* [^/]+ *)
| Any.             (* .* *)

Abbreviation expr := (list item).

(** The engine reads an undecodable byte of the text as U+FFFD. *)
Definition same_rune (c x : char) : bool :=
  match x with
  | Bad => bool_decide (c = Rune 65533)
  | x => bool_decide (c = x)
  end.

Definition not_slash (x : char) : bool := bool_decide (x <> slash).
Definition not_newline (x : char) : bool := bool_decide (x <> newline).

Fixpoint MatchString (e : expr) (s : list char) {struct e} : bool :=
  match e with
  | [] => match s with [] => true | _ => false end
  | Lit c :: e =>
      match s with
      | x :: s => same_rune c x && MatchString e s
      | [] => false
      end
  | Seg :: e =>
      (fix seg (s : list char) : bool :=
         match s with
         | x :: s => not_slash x && (MatchString e s || seg s)
         | [] => false
         end) s
  | Any :: e =>
      (fix any (s : list char) : bool :=
         MatchString e s ||
         match s with
         | x :: s => not_newline x && any s
         | [] => false
         end) s
  end.

(** ** Compiling a template *)

(** A character of the body of a placeholder. *)
Definition body_char (x : char) : bool :=
  bool_decide (x <> slash) && bool_decide (x <> lbrace) && bool_decide (x <> rbrace).

(** The characters of [[^/{}]+\}] at the start of [s], the brace included. *)
Fixpoint body_length (s : list char) (n : nat) : option nat :=
  match s with
  | [] => None
  | x :: s =>
      if body_char x then body_length s (S n)
      else if bool_decide (x = rbrace) then match n with O => None | _ => Some (S n) end
      else None
  end.

(** The length of a match of [pathTemplatePlaceholder] at the start of [s]. *)
Definition placeholder_at (s : list char) : option nat :=
  match s with
  | x :: s => if bool_decide (x = lbrace) then S <$> body_length s 0 else None
  | [] => None
  end.

(** [FindAllStringIndex]: the non-overlapping matches from the left; [skip]
    characters belong to the match before. *)
Fixpoint FindAllStringIndex (skip off : nat) (s : list char) : list (nat * nat) :=
  match s with
  | [] => []
  | _ :: s' =>
      match skip with
      | S skip => FindAllStringIndex skip (S off) s'
      | O =>
          match placeholder_at s with
          | Some n => (off, (off + n)%nat) :: FindAllStringIndex (pred n) (S off) s'
          | None => FindAllStringIndex 0 (S off) s'
          end
      end
  end.

(** [strings.Split(literal, "/*")], the first span first. *)
Fixpoint split_wildcard (s : list char) : list char * list (list char) :=
  match s with
  | [] => ([], [])
  | x :: s =>
      match s with
      | y :: s' =>
          if bool_decide (x = slash) && bool_decide (y = star)
          then let '(h, t) := split_wildcard s' in ([], h :: t)
          else let '(h, t) := split_wildcard s in (x :: h, t)
      | [] => ([x], [])
      end
  end.

Definition quotePathTemplate (literal : list char) : expr :=
  let '(h, t) := split_wildcard literal in
  map Lit h ++ concat (map (fun span => Lit slash :: Any :: map Lit span) t).

(** The loop over the placeholders, from offset [quoted]. *)
Fixpoint assemble (template : list char) (quoted : nat) (placeholders : list (nat * nat)) : expr :=
  match placeholders with
  | [] => quotePathTemplate (drop quoted template)
  | (from, to) :: placeholders =>
      quotePathTemplate (take (from - quoted) (drop quoted template))
      ++ Seg :: assemble template to placeholders
  end.

Definition is_bad (i : item) : bool :=
  match i with Lit Bad => true | _ => false end.

(** Why [regexp.Compile] fails: undecodable bytes in the quoted text. *)
Inductive match_error : Set := UnusableTemplate (template : string).

#[export] Instance match_error_eq_dec : EqDecision match_error.
Proof. solve_decision. Defined.

Definition compiledPathTemplate : Set := result match_error expr.

Definition compile (template : string) : compiledPathTemplate :=
  let t := runes template in
  let e := assemble t 0 (FindAllStringIndex 0 0 t) in
  if existsb is_bad e then Err (UnusableTemplate template) else Ok e.

(** The cache, a [sync.Map] from templates. *)
Abbreviation cache := (gmap string compiledPathTemplate).

Definition compilePathTemplate (m : cache) (template : string) : cache * compiledPathTemplate :=
  match m !! template with
  | Some compiled => (m, compiled)
  | None =>
      let compiled := compile template in
      (* LoadOrStore *)
      match m !! template with
      | Some actual => (m, actual)
      | None => (<[template := compiled]> m, compiled)
      end
  end.

Definition pathMatch_cached (m : cache) (path template : string) : cache * result match_error bool :=
  let '(m, compiled) := compilePathTemplate m template in
  (m, match compiled with
      | Err e => Err e
      | Ok expression => Ok (MatchString expression (runes path))
      end).

(** The answer, whatever the cache holds. *)
Definition pathMatch (path template : string) : result match_error bool :=
  match compile template with
  | Err e => Err e
  | Ok expression => Ok (MatchString expression (runes path))
  end.

Example pathMatch_examples :
  pathMatch "/api/things/42" "/api/things/{id}" = Ok true /\
  pathMatch "/api/things/42/x" "/api/things/{id}" = Ok false /\
  pathMatch "/api/things/42/x" "/api/*" = Ok true /\
  pathMatch "/api/x" "/api/.*" = Ok false /\
  pathMatch "/v1-2" "/v{a}-{b}" = Ok true /\
  pathMatch "/v12" "/v{a}-{b}" = Ok false.
Proof. repeat split; reflexivity. Qed.

(** * What a template covers

    The template language as a relation, and the proof that compiling a
    template and matching the expression decides it, cached or not. *)

Local Close Scope Z_scope.

(** ** The template language *)

(** [{body}] at the start of a template. *)
Definition is_placeholder (ph : list char) : Prop :=
  exists body, ph = lbrace :: body ++ [rbrace] /\ body <> [] /\
    Forall (fun x => body_char x = true) body.

Definition starts_placeholder (t : list char) : Prop :=
  exists ph rest, is_placeholder ph /\ t = ph ++ rest.

(** [covers t p]: the template [t] covers the path [p]. *)
Inductive covers : list char -> list char -> Prop :=
| covers_nil : covers [] []
| covers_placeholder ph t seg p :
    is_placeholder ph -> seg <> [] -> Forall (fun x => x <> slash) seg ->
    covers t p -> covers (ph ++ t) (seg ++ p)
| covers_wildcard t mid p :
    Forall (fun x => x <> newline) mid -> covers t p ->
    covers (slash :: star :: t) (slash :: mid ++ p)
| covers_literal c t x p :
    ~ starts_placeholder (c :: t) -> ~ (c = slash /\ head t = Some star) ->
    same_rune c x = true -> covers t p -> covers (c :: t) (x :: p).

(** ** Placeholders *)

Lemma body_length_spec s n m :
  body_length s n = Some m <->
  exists body rest, s = body ++ rbrace :: rest /\ m = S (n + length body)%nat /\
    (n + length body <> 0)%nat /\ Forall (fun x => body_char x = true) body.
Proof.
  revert n. induction s as [|x s IH]; intros n; simpl.
  { split; [done|]. intros (body & rest & E & _). by destruct body. }
  destruct (body_char x) eqn:Hx.
  - rewrite IH. split.
    + intros (body & rest & -> & -> & Hn & Hb). exists (x :: body), rest. simpl.
      split; [done|]. split; [lia|]. split; [lia|]. by constructor.
    + intros (body & rest & E & -> & Hn & Hb). destruct body as [|y body]; simplify_eq/=.
      apply Forall_cons in Hb as [_ Hb]. exists body, rest. split; [done|]. split; [lia|].
      split; [lia|done].
  - assert (forall body rest, x :: s = body ++ rbrace :: rest ->
              Forall (fun x => body_char x = true) body -> body = [] /\ x = rbrace) as Hnil.
    { intros [|y body] rest E Hb; simplify_eq/=; [done|].
      apply Forall_cons in Hb as [Hy _]. congruence. }
    case_bool_decide as Hr; [subst x; destruct n|].
    + split; [done|]. intros (body & rest & E & _ & Hn & Hb).
      destruct (Hnil _ _ E Hb) as [-> _]. done.
    + split.
      * intros [= <-]. exists [], s. split; [done|]. split; [simpl; lia|]. split; [simpl; lia|constructor].
      * intros (body & rest & E & -> & Hn & Hb). destruct (Hnil _ _ E Hb) as [-> _].
        simpl. by rewrite Nat.add_0_r.
    + split; [done|]. intros (body & rest & E & _ & Hn & Hb).
      by destruct (Hnil _ _ E Hb) as [_ ->].
Qed.

Lemma placeholder_at_spec t n :
  placeholder_at t = Some n <-> exists ph rest, is_placeholder ph /\ t = ph ++ rest /\ n = length ph.
Proof.
  destruct t as [|x t]; simpl.
  { split; [done|]. intros (ph & rest & (body & -> & _) & E & _). done. }
  case_bool_decide as Hx.
  - subst x. split.
    + intros (m & (body & rest & -> & -> & Hn & Hb)%body_length_spec & ->)%fmap_Some.
      exists (lbrace :: body ++ [rbrace]), rest. split; [|split].
      * exists body. split; [done|]. split; [|done]. by destruct body.
      * simpl. by rewrite <- app_assoc.
      * simpl. rewrite length_app. simpl. lia.
    + intros (ph & rest & (body & -> & Hne & Hb) & E & ->). simplify_eq/=.
      rewrite <- app_assoc. simpl. apply fmap_Some. exists (S (length body)). split.
      * apply body_length_spec. exists body, rest. split; [done|]. split; [done|].
        split; [by destruct body|done].
      * rewrite length_app. simpl. f_equal. lia.
  - split; [done|]. intros (ph & rest & (body & -> & _) & E & _). by simplify_eq/=.
Qed.

Lemma placeholder_at_none t : placeholder_at t = None <-> ~ starts_placeholder t.
Proof.
  split.
  - intros H (ph & rest & Hph & ->).
    assert (placeholder_at (ph ++ rest) = Some (length ph)) as E
      by (apply placeholder_at_spec; eauto). congruence.
  - intros H. destruct (placeholder_at t) as [n|] eqn:E; [|done]. exfalso. apply H.
    apply placeholder_at_spec in E as (ph & rest & ? & ? & _). by exists ph, rest.
Qed.

Lemma placeholder_length t n : placeholder_at t = Some n -> (2 < n)%nat.
Proof.
  intros (ph & rest & (body & -> & Hne & _) & _ & ->)%placeholder_at_spec.
  destruct body; [done|]. simpl. rewrite length_app. simpl. lia.
Qed.

Lemma placeholder_not_star t : starts_placeholder t -> head t <> Some star.
Proof. intros (ph & rest & (body & -> & _) & ->). done. Qed.

(** ** Quoting *)

Lemma quote_wildcard s :
  quotePathTemplate (slash :: star :: s) = Lit slash :: Any :: quotePathTemplate s.
Proof. unfold quotePathTemplate. simpl. by destruct (split_wildcard s). Qed.

Lemma quote_literal x s :
  ~ (x = slash /\ head s = Some star) ->
  quotePathTemplate (x :: s) = Lit x :: quotePathTemplate s.
Proof.
  intros H. unfold quotePathTemplate. destruct s as [|y s]; [done|].
  assert (split_wildcard (x :: y :: s) =
          let '(h, t) := split_wildcard (y :: s) in (x :: h, t)) as ->.
  { simpl. destruct (bool_decide (x = slash) && bool_decide (y = star)) eqn:E; [|done].
    exfalso. apply H. apply andb_prop in E as [?%bool_decide_eq_true ?%bool_decide_eq_true].
    by subst. }
  by destruct (split_wildcard (y :: s)).
Qed.

(** ** One pass over the template *)

Definition wildcard_at (t : list char) : bool :=
  match t with
  | x :: y :: _ => bool_decide (x = slash) && bool_decide (y = star)
  | _ => false
  end.

Fixpoint scan (skip : nat) (t : list char) : expr :=
  match t with
  | [] => []
  | c :: t' =>
      match skip with
      | S skip => scan skip t'
      | O =>
          match placeholder_at t with
          | Some n => Seg :: scan (pred n) t'
          | None =>
              if wildcard_at t then Lit slash :: Any :: scan 1 t' else Lit c :: scan 0 t'
          end
      end
  end.

Lemma scan_skip k t : scan k t = scan 0 (drop k t).
Proof.
  revert t. induction k as [|k IH]; intros [|c t]; simpl; try done.
Qed.

Lemma find_skip k off t :
  FindAllStringIndex k off t = FindAllStringIndex 0 (k + off) (drop k t).
Proof.
  revert off t. induction k as [|k IH]; intros off [|c t]; simpl; try done.
  rewrite IH. do 2 f_equal. lia.
Qed.

(** No placeholder starts within the first part. *)
Definition free (lit tl : list char) : Prop :=
  forall i, (i < length lit)%nat -> placeholder_at (drop i (lit ++ tl)) = None.

Lemma free_cons c lit tl :
  free (c :: lit) tl <-> placeholder_at (c :: lit ++ tl) = None /\ free lit tl.
Proof.
  split.
  - intros H. split; [apply (H 0%nat); simpl; lia|].
    intros i Hi. apply (H (S i)). simpl. lia.
  - intros [H0 H] [|i] Hi; [done|]. simpl. apply H. simpl in Hi. lia.
Qed.

Lemma scan_literal lit tl :
  free lit tl -> head tl <> Some star ->
  scan 0 (lit ++ tl) = quotePathTemplate lit ++ scan 0 tl.
Proof.
  remember (length lit) as m eqn:Hm. revert lit Hm.
  induction m as [m IH] using lt_wf_ind. intros lit Hm Hfree Htl.
  destruct lit as [|c lit]; [done|]. apply free_cons in Hfree as [Hno Hfree].
  change (scan 0 ((c :: lit) ++ tl)) with
    (match placeholder_at (c :: lit ++ tl) with
     | Some n => Seg :: scan (pred n) (lit ++ tl)
     | None => if wildcard_at (c :: lit ++ tl)
               then Lit slash :: Any :: scan 1 (lit ++ tl) else Lit c :: scan 0 (lit ++ tl)
     end).
  rewrite Hno. destruct (wildcard_at (c :: lit ++ tl)) eqn:Hw.
  - destruct lit as [|y lit].
    { exfalso. simpl in Hw. destruct tl as [|y tl]; [done|].
      apply andb_prop in Hw as [_ ->%bool_decide_eq_true]. done. }
    simpl in Hw. apply andb_prop in Hw as [->%bool_decide_eq_true ->%bool_decide_eq_true].
    rewrite quote_wildcard. rewrite (scan_skip 1). change (drop 1 ((star :: lit) ++ tl)) with (lit ++ tl). apply free_cons in Hfree as [_ Hfree].
    rewrite (IH (length lit)); [done| |done|done|done]. simpl in Hm. lia.
  - rewrite quote_literal.
    + simpl. rewrite (IH (length lit)); [done| |done|done|done]. simpl in Hm. lia.
    + intros [-> Hs]. destruct lit as [|y lit]; [done|]. simpl in Hs. by simplify_eq/=.
Qed.

(** The first placeholder of a template. *)
Lemma find_split t off :
  (FindAllStringIndex 0 off t = [] /\ free t []) \/
  exists lit ph rest, t = lit ++ ph ++ rest /\ is_placeholder ph /\ free lit (ph ++ rest) /\
    FindAllStringIndex 0 off t =
      ((off + length lit)%nat, (off + length lit + length ph)%nat)
        :: FindAllStringIndex 0 (off + length lit + length ph) rest.
Proof.
  revert off. induction t as [|c t IH]; intros off.
  { left. split; [done|]. intros i Hi. simpl in Hi. lia. }
  cbn [FindAllStringIndex]. destruct (placeholder_at (c :: t)) as [n|] eqn:E.
  - right. pose proof E as (ph & rest & Hph & Ht & ->)%placeholder_at_spec.
    pose proof (placeholder_length _ _ E) as Hlen.
    exists [], ph, rest. split; [done|]. split; [done|]. split; [intros i Hi; simpl in Hi; lia|].
    simpl length. rewrite Nat.add_0_r. f_equal. rewrite find_skip.
    destruct ph as [|x ph]; [simpl in Hlen; lia|]. injection Ht as -> ->.
    simpl pred. rewrite drop_app_length. f_equal. simpl. lia.
  - destruct (IH (S off)) as [[Hf Hfree]|(lit & ph & rest & -> & Hph & Hfree & Hf)].
    + left. split; [done|]. apply free_cons. by rewrite app_nil_r.
    + right. exists (c :: lit), ph, rest. split; [done|]. split; [done|].
      split; [by apply free_cons|]. rewrite Hf. simpl. repeat f_equal; lia.
Qed.

Lemma scan_placeholder ph rest :
  is_placeholder ph -> scan 0 (ph ++ rest) = Seg :: scan 0 rest.
Proof.
  intros Hph. assert (placeholder_at (ph ++ rest) = Some (length ph)) as E
    by (apply placeholder_at_spec; eauto).
  destruct Hph as (body & -> & _). simpl app in *. cbn [scan]. rewrite E.
  rewrite scan_skip. simpl pred. by rewrite drop_app_length.
Qed.

Lemma assemble_scan template quoted t :
  drop quoted template = t ->
  assemble template quoted (FindAllStringIndex 0 quoted t) = scan 0 t.
Proof.
  remember (length t) as m eqn:Hm. revert quoted t Hm.
  induction m as [m IH] using lt_wf_ind. intros quoted t Hm Hdrop.
  destruct (find_split t quoted) as [[-> Hfree]|(lit & ph & rest & -> & Hph & Hfree & ->)].
  - simpl. rewrite Hdrop. rewrite <- (app_nil_r t) at 2.
    rewrite scan_literal by done. simpl. by rewrite app_nil_r.
  - simpl. rewrite Hdrop.
    replace (quoted + length lit - quoted)%nat with (length lit) by lia.
    rewrite take_app_length.
    rewrite scan_literal, scan_placeholder; [|done..|].
    + do 2 f_equal. eapply IH; [|reflexivity|].
      * rewrite Hm. rewrite !length_app. destruct Hph as (body & -> & _). simpl. lia.
      * rewrite <- Nat.add_assoc, <- drop_drop, Hdrop, <- drop_drop.
        by rewrite !drop_app_length.
    + apply placeholder_not_star. by exists ph, rest.
Qed.

Lemma compile_scan template :
  compile template =
    let e := scan 0 (runes template) in
    if existsb is_bad e then Err (UnusableTemplate template) else Ok e.
Proof. unfold compile. by rewrite assemble_scan. Qed.

(** ** Matching *)

Lemma match_seg e s :
  MatchString (Seg :: e) s = true <->
  exists seg p, s = seg ++ p /\ seg <> [] /\ Forall (fun x => x <> slash) seg /\
    MatchString e p = true.
Proof.
  induction s as [|x s IH].
  { simpl. split; [done|]. intros (seg & p & E & ? & _). by destruct seg. }
  change (MatchString (Seg :: e) (x :: s)) with
    (not_slash x && (MatchString e s || MatchString (Seg :: e) s)).
  unfold not_slash. rewrite andb_true_iff, orb_true_iff, bool_decide_eq_true, IH. split.
  - intros [Hx [H|(seg & p & -> & ? & ? & ?)]].
    + exists [x], s. repeat split; try done. by constructor.
    + exists (x :: seg), p. repeat split; try done. by constructor.
  - intros (seg & p & E & Hne & Hf & H). destruct seg as [|y seg]; [done|]. simplify_eq/=.
    apply Forall_cons in Hf as [Hy Hf]. split; [done|].
    destruct seg as [|z seg]; [by left|]. right. exists (z :: seg), p. done.
Qed.

Lemma match_any e s :
  MatchString (Any :: e) s = true <->
  exists mid p, s = mid ++ p /\ Forall (fun x => x <> newline) mid /\ MatchString e p = true.
Proof.
  induction s as [|x s IH].
  { simpl. rewrite orb_false_r. split.
    - intros H. by exists [], [].
    - intros (mid & p & E & _ & H). symmetry in E. by apply app_eq_nil in E as [-> ->]. }
  change (MatchString (Any :: e) (x :: s)) with
    (MatchString e (x :: s) || (not_newline x && MatchString (Any :: e) s)).
  unfold not_newline. rewrite orb_true_iff, andb_true_iff, bool_decide_eq_true, IH. split.
  - intros [H|[Hx (mid & p & -> & ? & ?)]].
    + by exists [], (x :: s).
    + exists (x :: mid), p. repeat split; try done. by constructor.
  - intros (mid & p & E & Hf & H). destruct mid as [|y mid]; simplify_eq/=; [by left|].
    apply Forall_cons in Hf as [Hy Hf]. right. split; [done|]. by exists mid, p.
Qed.

Lemma wildcard_at_spec t :
  wildcard_at t = true <-> exists t', t = slash :: star :: t'.
Proof.
  destruct t as [|x [|y t]]; simpl; [by split; [|intros [? ?]]..|].
  rewrite andb_true_iff, !bool_decide_eq_true. split.
  - intros [-> ->]. eauto.
  - intros [t' E]. by simplify_eq.
Qed.

(** ** The first part of a covered template *)

Lemma placeholder_unique ph ph' t t' :
  is_placeholder ph -> is_placeholder ph' -> ph ++ t = ph' ++ t' -> ph = ph' /\ t = t'.
Proof.
  intros H H' E. apply app_inj_1; [|done].
  assert (placeholder_at (ph ++ t) = Some (length ph)) as H1
    by (apply placeholder_at_spec; eauto).
  assert (placeholder_at (ph ++ t) = Some (length ph')) as H2
    by (apply placeholder_at_spec; eauto). congruence.
Qed.

Lemma placeholder_lbrace ph t : is_placeholder ph -> head (ph ++ t) = Some lbrace.
Proof. by intros (body & -> & _). Qed.

Lemma covers_nil_inv p : covers [] p -> p = [].
Proof.
  intros H. remember [] as t eqn:Ht. destruct H as [|ph t seg p Hph|t mid p|c t x p]; [done| |done..].
  apply app_eq_nil in Ht as [-> _]. by destruct Hph as (? & ? & _).
Qed.

Lemma covers_placeholder_inv ph t p :
  is_placeholder ph -> covers (ph ++ t) p ->
  exists seg q, p = seg ++ q /\ seg <> [] /\ Forall (fun x => x <> slash) seg /\ covers t q.
Proof.
  intros Hph H. pose proof (placeholder_lbrace ph t Hph) as Hl.
  remember (ph ++ t) as u eqn:Hu.
  destruct H as [|ph' t' seg q Hph' Hne Hf Hc|t' mid q|c t' x q Hno]; [done| |done|].
  - apply placeholder_unique in Hu as [-> ->]; [|done..]. by exists seg, q.
  - exfalso. apply Hno. by exists ph, t.
Qed.

Lemma covers_wildcard_inv t p :
  covers (slash :: star :: t) p ->
  exists mid q, p = slash :: mid ++ q /\ Forall (fun x => x <> newline) mid /\ covers t q.
Proof.
  intros H. remember (slash :: star :: t) as u eqn:Hu.
  destruct H as [|ph' t' seg q Hph' Hne Hf Hc|t' mid q|c t' x q Hno Hw]; [done| | |].
  - pose proof (placeholder_lbrace ph' t' Hph') as Hl. by rewrite Hu in Hl.
  - simplify_eq. by exists mid, q.
  - simplify_eq. by exfalso; apply Hw.
Qed.

Lemma covers_literal_inv c t p :
  ~ starts_placeholder (c :: t) -> ~ (c = slash /\ head t = Some star) ->
  covers (c :: t) p -> exists x q, p = x :: q /\ same_rune c x = true /\ covers t q.
Proof.
  intros Hno Hw H. remember (c :: t) as u eqn:Hu.
  destruct H as [|ph' t' seg q Hph' Hne Hf Hc|t' mid q|c' t' x q]; [done| | |].
  - exfalso. apply Hno. by exists ph', t'.
  - simplify_eq. by exfalso; apply Hw.
  - simplify_eq. by exists x, q.
Qed.

Lemma scan_covers t p : MatchString (scan 0 t) p = true <-> covers t p.
Proof.
  remember (length t) as m eqn:Hm. revert t p Hm.
  induction m as [m IH] using lt_wf_ind. intros t p Hm.
  destruct t as [|c t].
  { destruct p as [|x p]; simpl; split; [constructor|done|done|].
    intros H%covers_nil_inv. done. }
  destruct (placeholder_at (c :: t)) as [n|] eqn:E.
  - pose proof E as (ph & rest & Hph & Ht & ->)%placeholder_at_spec. rewrite Ht.
    rewrite scan_placeholder, match_seg by done.
    assert (length rest < m)%nat as Hlt.
    { subst m. rewrite Ht, length_app. destruct Hph as (? & -> & _). simpl. lia. }
    split.
    + intros (seg & q & -> & ? & ? & H). constructor; try done. by apply (IH (length rest)).
    + intros (seg & q & -> & ? & ? & H)%covers_placeholder_inv; [|done].
      exists seg, q. repeat split; try done. by apply (IH (length rest)).
  - assert (scan 0 (c :: t) = if wildcard_at (c :: t)
            then Lit slash :: Any :: scan 1 t else Lit c :: scan 0 t) as -> by (cbn [scan]; by rewrite E).
    apply placeholder_at_none in E.
    destruct (wildcard_at (c :: t)) eqn:Hw.
    + apply wildcard_at_spec in Hw as [t' Ht]. simplify_eq.
      rewrite scan_skip. simpl drop. cbn [MatchString]. split.
      * destruct p as [|x p]; [done|]. intros [Hx H]%andb_prop.
        apply match_any in H as (mid & q & -> & Hf & H).
        assert (x = slash) as -> by (destruct x; by apply bool_decide_eq_true in Hx).
        constructor; [done|]. apply (IH (length t')); [simpl; lia|done|done].
      * intros (mid & q & -> & Hf & H)%covers_wildcard_inv.
        apply andb_true_iff. split; [done|]. apply match_any. exists mid, q.
        repeat split; try done. apply (IH (length t')); [simpl; lia|done|done].
    + assert (~ (c = slash /\ head t = Some star)) as Hnw.
      { intros [-> Hs]. destruct t as [|y t]; [done|]. simpl in Hs. by simplify_eq. }
      cbn [MatchString]. split.
      * destruct p as [|x p]; [done|]. intros [Hx H]%andb_prop.
        constructor; try done. apply (IH (length t)); [simpl in Hm; lia|done|done].
      * intros (x & q & -> & Hx & H)%covers_literal_inv; [|done..].
        apply andb_true_iff. split; [done|]. apply (IH (length t)); [simpl in Hm; lia|done|done].
Qed.

(** An undecodable byte of the template. *)
Lemma scan_bad skip t : existsb is_bad (scan skip t) = true -> Bad ∈ t.
Proof.
  revert skip. induction t as [|c t IH]; intros skip; [done|]. cbn [scan].
  destruct skip as [|skip]; [|intros H; apply elem_of_cons; right; by eapply IH].
  assert (forall skip, existsb is_bad (scan skip t) = true -> Bad ∈ c :: t) as Hrec.
  { intros k H. apply elem_of_cons. right. by eapply IH. }
  destruct (placeholder_at (c :: t)); [apply Hrec|].
  destruct (wildcard_at (c :: t)); [apply Hrec|]. cbn [existsb is_bad].
  intros [Hc|H]%orb_true_iff; [|by eapply Hrec].
  destruct c; [done|]. by left.
Qed.

(** ** The cache *)

(** Every entry is what compiling its template gives. *)
Definition cache_ok (m : cache) : Prop :=
  forall template compiled, m !! template = Some compiled -> compiled = compile template.

Lemma compilePathTemplate_ok m template :
  cache_ok m ->
  (compilePathTemplate m template).2 = compile template /\
  cache_ok (compilePathTemplate m template).1 /\
  dom (compilePathTemplate m template).1 =@{gset string} {[template]} ∪ dom m.
Proof.
  intros Hm. unfold compilePathTemplate. destruct (m !! template) as [compiled|] eqn:E; simpl.
  - split; [by apply Hm|]. split; [done|].
    apply elem_of_dom_2 in E. set_solver.
  - split; [done|]. split; [|by rewrite dom_insert_L].
    intros t c. destruct (decide (t = template)) as [->|Hne].
    + rewrite lookup_insert_eq. congruence.
    + rewrite lookup_insert_ne by done. apply Hm.
Qed.

(** ** Properties *)

(** [pathMatch] decides the template language: it answers true exactly
    when the template covers the path, where a [{name}] stands for one
    non-empty segment, [/*] for the rest up to a line break, and everything
    else for itself; it fails only for a template with an undecodable byte,
    whatever the path. *)
Lemma pathMatch_spec path template :
  match pathMatch path template with
  | Ok b => b = true <-> covers (runes template) (runes path)
  | Err e => e = UnusableTemplate template /\ Bad ∈ runes template
  end.
Proof.
  unfold pathMatch. rewrite compile_scan. cbv zeta.
  destruct (existsb is_bad (scan 0 (runes template))) eqn:E.
  - split; [done|]. by eapply scan_bad.
  - apply scan_covers.
Qed.

(** The cache of compiled templates changes no answer and holds no key
    but templates: from a cache whose entries are right, [pathMatch] answers
    what compiling anew would, and leaves such a cache with at most the
    template added. *)
Lemma pathMatch_cache_transparent m path template (Hm : cache_ok m) :
  let '(m', answer) := pathMatch_cached m path template in
  answer = pathMatch path template /\ cache_ok m' /\ dom m' =@{gset string} {[template]} ∪ dom m.
Proof.
  unfold pathMatch_cached, pathMatch.
  destruct (compilePathTemplate_ok m template Hm) as (H1 & H2 & H3).
  destruct (compilePathTemplate m template) as [m' compiled]. simpl in *. by subst.
Qed.

Lemma pathMatch_cache_transparent_witness :
  cache_ok ∅ /\
  let '(m', answer) := pathMatch_cached ∅ "/a/b" "/a/{x}" in
  answer = pathMatch "/a/b" "/a/{x}" /\ cache_ok m' /\ dom m' =@{gset string} {["/a/{x}"]} ∪ dom (∅ : cache).
Proof.
  assert (cache_ok ∅) as H by (intros t c; by rewrite lookup_empty).
  split; [exact H|exact (pathMatch_cache_transparent ∅ "/a/b" "/a/{x}" H)].
Defined.
