(* ===== verification/RbacPolicies.v ===== *)
(** * The policy set of the authorization

    Models [authz/rbac/policies.go]: the rules a process decides from, per
    kind, in the order they were added, and the keys of the rules held. *)

From stdpp Require Import base list strings gmap sets.
From Stdlib Require Import ZArith Lia Ascii.
From S2P Require Import Prelude.

Abbreviation rule := (list string).

(** The kinds of rules. *)
Definition policyKind : string := "p".
Definition tenantRoleGrouping : string := "g".
Definition systemRoleGrouping : string := "g2".

(** How many values a rule of each kind carries. *)
Definition ruleTokens (ptype : string) : option nat :=
  if String.eqb ptype policyKind then Some 5
  else if String.eqb ptype tenantRoleGrouping then Some 3
  else if String.eqb ptype systemRoleGrouping then Some 2
  else None.

Record policySet : Type := mkPolicySet {
  rules : gmap string (list rule);
  seen : gmap string (gset string)
}.

Definition newPolicySet : policySet := mkPolicySet ∅ ∅.

(** A missing entry of the Go map reads as nil. *)
Definition rules_of (s : policySet) (ptype : string) : list rule := default [] (rules s !! ptype).
Definition seen_of (s : policySet) (ptype : string) : gset string := default ∅ (seen s !! ptype).

Definition nul : string := String (ascii_of_nat 0) EmptyString.

(** [strings.Join(rule, "\x00")]. *)
Definition ruleKey (r : rule) : string := String.concat nul r.

(** ** Adding *)

Fixpoint add_loop (rs : list rule) (seen : gset string) (stored affected : list rule) :
    gset string * list rule * list rule :=
  match rs with
  | [] => (seen, stored, affected)
  | r :: rs =>
      let key := ruleKey r in
      if decide (key ∈ seen) then add_loop rs seen stored affected
      else add_loop rs ({[key]} ∪ seen) (stored ++ [r]) (affected ++ [r])
  end.

Definition add (s : policySet) (ptype : string) (rs : list rule) : policySet * list rule :=
  let '(seen', stored, affected) := add_loop rs (seen_of s ptype) (rules_of s ptype) [] in
  (mkPolicySet (<[ptype := stored]> (rules s)) (<[ptype := seen']> (seen s)), affected).

(** ** Removing *)

Fixpoint removing_loop (rs : list rule) (seen removing : gset string) :
    gset string * gset string :=
  match rs with
  | [] => (seen, removing)
  | r :: rs =>
      let key := ruleKey r in
      if decide (key ∈ seen) then removing_loop rs (seen ∖ {[key]}) ({[key]} ∪ removing)
      else removing_loop rs seen removing
  end.

Fixpoint kept_loop (rs : list rule) (removing : gset string) (kept affected : list rule) :
    list rule * list rule :=
  match rs with
  | [] => (kept, affected)
  | r :: rs =>
      if decide (ruleKey r ∈ removing) then kept_loop rs removing kept (affected ++ [r])
      else kept_loop rs removing (kept ++ [r]) affected
  end.

Definition remove (s : policySet) (ptype : string) (rs : list rule) : policySet * list rule :=
  let seen0 := seen_of s ptype in
  if decide (seen0 = ∅) then (s, [])
  else
    let '(seen', removing) := removing_loop rs seen0 ∅ in
    if decide (removing = ∅) then (s, [])
    else
      let '(kept, affected) := kept_loop (rules_of s ptype) removing [] [] in
      (mkPolicySet (<[ptype := kept]> (rules s)) (<[ptype := seen']> (seen s)), affected).

(** [ruleMatchesFilter]: an empty value matches any. *)
Fixpoint ruleMatchesFilter (r : rule) (position : nat) (fieldValues : list string) : bool :=
  match fieldValues with
  | [] => true
  | value :: fieldValues =>
      if String.eqb value "" then ruleMatchesFilter r (S position) fieldValues
      else
        match r !! position with
        | None => false
        | Some v => if String.eqb v value then ruleMatchesFilter r (S position) fieldValues else false
        end
  end.

Fixpoint filter_loop (rs : list rule) (fieldIndex : nat) (fieldValues : list string)
    (seen : gset string) (kept affected : list rule) : gset string * list rule * list rule :=
  match rs with
  | [] => (seen, kept, affected)
  | r :: rs =>
      if ruleMatchesFilter r fieldIndex fieldValues
      then filter_loop rs fieldIndex fieldValues (seen ∖ {[ruleKey r]}) kept (affected ++ [r])
      else filter_loop rs fieldIndex fieldValues seen (kept ++ [r]) affected
  end.

Definition removeFiltered (s : policySet) (ptype : string) (fieldIndex : nat)
    (fieldValues : list string) : policySet * list rule :=
  match rules_of s ptype with
  | [] => (s, [])
  | rs =>
      let '(seen', kept, affected) :=
        filter_loop rs fieldIndex fieldValues (seen_of s ptype) [] [] in
      (mkPolicySet (<[ptype := kept]> (rules s)) (<[ptype := seen']> (seen s)), affected)
  end.

(** ** Reading *)

Definition filtered (s : policySet) (ptype : string) (fieldIndex : nat) (value : string) :
    list rule :=
  filter (fun r => r !! fieldIndex = Some value) (rules_of s ptype).

Definition all (s : policySet) (ptype : string) : list rule := rules_of s ptype.

(** ** What the operations do *)

(** The keys held are those of the rules, each once. *)
Definition wf_kind (s : policySet) (ptype : string) : Prop :=
  NoDup (map ruleKey (rules_of s ptype)) /\
  seen_of s ptype = list_to_set (map ruleKey (rules_of s ptype)).

Definition wf (s : policySet) : Prop := forall ptype, wf_kind s ptype.

(** The rules of [rs] with a key not in [seen], the first of each key. *)
Fixpoint fresh (rs : list rule) (seen : gset string) : list rule :=
  match rs with
  | [] => []
  | r :: rs =>
      if decide (ruleKey r ∈ seen) then fresh rs seen
      else r :: fresh rs ({[ruleKey r]} ∪ seen)
  end.

Definition keys (rs : list rule) : gset string := list_to_set (map ruleKey rs).

Lemma rules_of_insert s ptype l S p :
  rules_of (mkPolicySet (<[ptype := l]> (rules s)) S) p =
    if decide (p = ptype) then l else rules_of s p.
Proof.
  unfold rules_of. simpl. destruct (decide (p = ptype)) as [->|].
  - by rewrite lookup_insert_eq.
  - by rewrite lookup_insert_ne.
Qed.

Lemma seen_of_insert s ptype x R p :
  seen_of (mkPolicySet R (<[ptype := x]> (seen s))) p =
    if decide (p = ptype) then x else seen_of s p.
Proof.
  unfold seen_of. simpl. destruct (decide (p = ptype)) as [->|].
  - by rewrite lookup_insert_eq.
  - by rewrite lookup_insert_ne.
Qed.

Lemma add_loop_ok rs seen stored affected :
  NoDup (map ruleKey stored) -> seen = keys stored ->
  add_loop rs seen stored affected =
    (keys (stored ++ fresh rs seen), stored ++ fresh rs seen, affected ++ fresh rs seen) /\
  NoDup (map ruleKey (stored ++ fresh rs seen)).
Proof.
  revert seen stored affected. induction rs as [|r rs IH]; intros seen stored affected Hn ->; simpl.
  { rewrite !app_nil_r. done. }
  destruct (decide (ruleKey r ∈ keys stored)) as [Hin|Hnin]; [by apply IH|].
  destruct (IH ({[ruleKey r]} ∪ keys stored) (stored ++ [r]) (affected ++ [r])) as [-> Hn'].
  - rewrite map_app. apply NoDup_app. split; [done|]. split; [|apply NoDup_singleton].
    intros k Hk Hk'. apply list_elem_of_singleton in Hk' as ->. apply Hnin.
    unfold keys. by apply elem_of_list_to_set.
  - unfold keys. rewrite map_app, list_to_set_app_L. simpl. set_solver.
  - rewrite <- !app_assoc in *. done.
Qed.

Lemma add_ok s ptype rs :
  wf s ->
  let '(s', affected) := add s ptype rs in
  wf s' /\ affected = fresh rs (keys (rules_of s ptype)) /\
  rules_of s' ptype = rules_of s ptype ++ affected /\
  forall p, p <> ptype -> rules_of s' p = rules_of s p.
Proof.
  intros Hwf. destruct (Hwf ptype) as [Hn Hs]. unfold add.
  destruct (add_loop_ok rs (seen_of s ptype) (rules_of s ptype) [] Hn Hs) as [-> Hn'].
  rewrite Hs in *. simpl. split.
  - intros p. unfold wf_kind. rewrite rules_of_insert, seen_of_insert.
    destruct (decide (p = ptype)); [done|apply Hwf].
  - split; [done|]. rewrite rules_of_insert, decide_True by done. split; [done|].
    intros p Hp. by rewrite rules_of_insert, decide_False.
Qed.

Lemma removing_loop_ok rs seen removing :
  removing_loop rs seen removing =
    (seen ∖ keys rs, (keys rs ∩ seen) ∪ removing).
Proof.
  revert seen removing. induction rs as [|r rs IH]; intros seen removing; simpl.
  { apply pair_eq. set_solver. }
  change (keys (r :: rs)) with ({[ruleKey r]} ∪ keys rs).
  destruct (decide (ruleKey r ∈ seen)) as [H|H]; rewrite IH; clear IH; revert H;
    generalize (keys rs) (ruleKey r); intros X k H; (apply pair_eq; split);
    apply set_eq; intros x; destruct (decide (x = k)); set_solver.
Qed.

Lemma kept_loop_ok rs removing kept affected :
  kept_loop rs removing kept affected =
    (kept ++ filter (fun r => ruleKey r ∉ removing) rs,
     affected ++ filter (fun r => ruleKey r ∈ removing) rs).
Proof.
  revert kept affected. induction rs as [|r rs IH]; intros kept affected; simpl.
  { by rewrite !app_nil_r. }
  rewrite !filter_cons. destruct (decide (ruleKey r ∈ removing)) as [Hin|Hnin].
  - rewrite (decide_False (P:=ruleKey r ∉ removing)) by tauto. by rewrite IH, <- app_assoc.
  - rewrite (decide_True (P:=ruleKey r ∉ removing)) by done. by rewrite IH, <- app_assoc.
Qed.

Lemma filter_ext_in {A} (P Q : A -> Prop) `{!forall x, Decision (P x), !forall x, Decision (Q x)} (l : list A) :
  (forall x, x ∈ l -> P x <-> Q x) -> filter P l = filter Q l.
Proof.
  induction l as [|x l IH]; intros Hl; [done|]. rewrite !filter_cons.
  assert (P x <-> Q x) as HPQ by (apply Hl; by left).
  rewrite IH by (intros y Hy; apply Hl; by right).
  destruct (decide (P x)), (decide (Q x)); tauto.
Qed.

Lemma filter_none {A} (P : A -> Prop) `{!forall x, Decision (P x)} (l : list A) :
  (forall x, x ∈ l -> ~ P x) -> filter P l = [].
Proof.
  induction l as [|x l IH]; intros Hl; [done|]. rewrite filter_cons, decide_False by (apply Hl; by left).
  apply IH. intros y Hy. apply Hl. by right.
Qed.

Lemma NoDup_map_filter (P : rule -> Prop) `{!forall x, Decision (P x)} (l : list rule) :
  NoDup (map ruleKey l) -> NoDup (map ruleKey (filter P l)).
Proof.
  induction l as [|x l IH]; [done|]. simpl. intros [Hx Hn]%NoDup_cons. rewrite filter_cons.
  destruct (decide (P x)); [|by apply IH]. simpl. apply NoDup_cons. split; [|by apply IH].
  intros (y & Ey & Hy)%list_elem_of_fmap. apply Hx. apply list_elem_of_fmap. exists y.
  split; [done|]. by apply list_elem_of_filter in Hy as [_ ?].
Qed.

Lemma elem_of_keys r rs : r ∈ rs -> ruleKey r ∈ keys rs.
Proof. intros H. unfold keys. apply elem_of_list_to_set, list_elem_of_fmap. eauto. Qed.

Lemma keys_filter (P : rule -> Prop) `{!forall x, Decision (P x)} (l : list rule) :
  NoDup (map ruleKey l) ->
  keys (filter (fun r => ~ P r) l) = keys l ∖ keys (filter P l).
Proof.
  unfold keys. induction l as [|x l IH]; intros Hn; [simpl; set_solver|].
  simpl in Hn. apply NoDup_cons in Hn as [Hx Hn]. rewrite !filter_cons.
  assert (ruleKey x ∉ (list_to_set (map ruleKey (filter P l)) : gset string)) as Hx'.
  { rewrite elem_of_list_to_set. intros (y & Ey & Hy)%list_elem_of_fmap. apply Hx.
    apply list_elem_of_fmap. exists y. split; [done|]. by apply list_elem_of_filter in Hy as [_ ?]. }
  assert (ruleKey x ∉ (list_to_set (map ruleKey l) : gset string)) as Hx''.
  { by rewrite elem_of_list_to_set. }
  destruct (decide (P x)).
  - rewrite decide_False by tauto. simpl. rewrite IH by done. set_solver.
  - rewrite decide_True by done. simpl. rewrite IH by done. set_solver.
Qed.

Lemma remove_ok s ptype rs :
  wf s ->
  let '(s', affected) := remove s ptype rs in
  wf s' /\ affected = filter (fun r => ruleKey r ∈ keys rs) (rules_of s ptype) /\
  rules_of s' ptype = filter (fun r => ruleKey r ∉ keys rs) (rules_of s ptype) /\
  forall p, p <> ptype -> rules_of s' p = rules_of s p.
Proof.
  intros Hwf. destruct (Hwf ptype) as [Hn Hs]. unfold remove.
  assert (keys rs ∩ keys (rules_of s ptype) = ∅ ->
    wf s /\ [] = filter (fun r => ruleKey r ∈ keys rs) (rules_of s ptype) /\
    rules_of s ptype = filter (fun r => ruleKey r ∉ keys rs) (rules_of s ptype) /\
    (forall p, p <> ptype -> rules_of s p = rules_of s p)) as Hnone.
  { intros Hd. split; [done|]. split; [|split; [|done]].
    - symmetry. apply filter_none. intros r Hr%elem_of_keys. set_solver.
    - symmetry. apply filter_all. intros r Hr%elem_of_keys. set_solver. }
  fold (keys (rules_of s ptype)) in Hs. rewrite Hs.
  destruct (decide (keys (rules_of s ptype) = ∅)) as [E|_]; [apply Hnone; set_solver|].
  rewrite removing_loop_ok. rewrite union_empty_r_L.
  destruct (decide (keys rs ∩ keys (rules_of s ptype) = ∅)) as [E|_]; [by apply Hnone|].
  rewrite kept_loop_ok. simpl.
  rewrite (filter_ext_in (fun r => ruleKey r ∈ keys rs ∩ _) (fun r => ruleKey r ∈ keys rs))
    by (intros r Hr%elem_of_keys; set_solver).
  rewrite (filter_ext_in (fun r => ruleKey r ∉ keys rs ∩ _) (fun r => ruleKey r ∉ keys rs))
    by (intros r Hr%elem_of_keys; set_solver).
  split; [|split; [done|]].
  - intros p. unfold wf_kind. rewrite rules_of_insert, seen_of_insert.
    destruct (decide (p = ptype)); [|apply Hwf]. split; [by apply NoDup_map_filter|].
    fold (keys (filter (fun r => ruleKey r ∉ keys rs) (rules_of s ptype))).
    rewrite (keys_filter (fun r => ruleKey r ∈ keys rs)) by done.
    apply set_eq. intros k. rewrite !elem_of_difference. split.
    + intros [Hk Hnk]. split; [done|]. unfold keys at 1. rewrite elem_of_list_to_set.
      intros (r & -> & [Hr _]%list_elem_of_filter)%list_elem_of_fmap. done.
    + intros [Hk Hnk]. split; [done|]. intros Hk'. apply Hnk. unfold keys at 1.
      unfold keys in Hk. rewrite elem_of_list_to_set in *.
      apply list_elem_of_fmap in Hk as (r & -> & Hr). apply list_elem_of_fmap. exists r.
      split; [done|]. by apply list_elem_of_filter.
  - rewrite rules_of_insert, decide_True by done. split; [done|].
    intros p Hp. by rewrite rules_of_insert, decide_False.
Qed.

Lemma filter_loop_ok rs i vs seen kept affected :
  filter_loop rs i vs seen kept affected =
    (seen ∖ keys (filter (fun r => ruleMatchesFilter r i vs = true) rs),
     kept ++ filter (fun r => ~ ruleMatchesFilter r i vs = true) rs,
     affected ++ filter (fun r => ruleMatchesFilter r i vs = true) rs).
Proof.
  revert seen kept affected. induction rs as [|r rs IH]; intros seen kept affected; simpl.
  { rewrite !app_nil_r. unfold keys. simpl. do 2 f_equal. set_solver. }
  rewrite !filter_cons. destruct (ruleMatchesFilter r i vs) eqn:E; rewrite IH.
  - rewrite (decide_False (P:=~ true = true)) by (intros H; by apply H). rewrite (decide_True (P:=true = true)) by done.
    rewrite <- app_assoc. do 2 f_equal.
    change (keys (r :: ?l)) with ({[ruleKey r]} ∪ keys l).
    generalize (keys (filter (fun r => ruleMatchesFilter r i vs = true) rs)). set_solver.
  - rewrite (decide_True (P:=~ false = true)) by done. rewrite (decide_False (P:=false = true)) by done.
    by rewrite <- app_assoc.
Qed.

Lemma removeFiltered_ok s ptype i vs :
  wf s ->
  let '(s', affected) := removeFiltered s ptype i vs in
  wf s' /\ affected = filter (fun r => ruleMatchesFilter r i vs = true) (rules_of s ptype) /\
  rules_of s' ptype = filter (fun r => ~ ruleMatchesFilter r i vs = true) (rules_of s ptype) /\
  forall p, p <> ptype -> rules_of s' p = rules_of s p.
Proof.
  intros Hwf. destruct (Hwf ptype) as [Hn Hs]. unfold removeFiltered.
  destruct (rules_of s ptype) as [|r0 rs0] eqn:E; [by rewrite E|].
  rewrite <- E in *. rewrite filter_loop_ok. simpl.
  split; [|split; [done|]].
  - intros p. unfold wf_kind. rewrite rules_of_insert, seen_of_insert.
    destruct (decide (p = ptype)); [|apply Hwf]. split; [by apply NoDup_map_filter|].
    fold (keys (filter (fun r => ~ ruleMatchesFilter r i vs = true) (rules_of s ptype))).
    rewrite (keys_filter (fun r => ruleMatchesFilter r i vs = true)) by done. by rewrite Hs.
  - rewrite rules_of_insert, decide_True by done. split; [done|].
    intros p Hp. by rewrite rules_of_insert, decide_False.
Qed.

Lemma newPolicySet_wf : wf newPolicySet.
Proof. intros p. unfold wf_kind, rules_of, seen_of. simpl. rewrite !lookup_empty. simpl. by split; [constructor|]. Qed.

Lemma add_wf s ptype rs : wf s -> wf (add s ptype rs).1.
Proof.
  intros H. pose proof (add_ok s ptype rs H) as Ha.
  destruct (add s ptype rs) as [s' a]. by destruct Ha.
Qed.
