(* ===== verification/RbacRoles.v ===== *)
(** * The role graph of the authorization

    Models [authz/rbac/rolegraph.go] and the role closure of
    [authz/rbac/authorize.go]: who reaches which role, through at most
    [maxRoleHierarchy] assignments.  [None] is an index out of range. *)

From stdpp Require Import base list strings gmap sets sorting.
From Stdlib Require Import ZArith Lia Ascii.
From S2P Require Import Prelude RbacPolicies.

Record roleGraph : Type := mkRoleGraph {
  tenantRoles : gmap string (gmap string (list string));
  systemRoles : gmap string (list string)
}.

Definition maxRoleHierarchy : nat := 10.

(** [domain[member] = append(domain[member], role)]. *)
Definition append_at (m : gmap string (list string)) (k v : string) : gmap string (list string) :=
  <[k := default [] (m !! k) ++ [v]]> m.

Fixpoint add_tenant_rules (rs : list rule) (m : gmap string (gmap string (list string))) :
    option (gmap string (gmap string (list string))) :=
  match rs with
  | [] => Some m
  | r :: rs =>
      dom ← r !! 2; member ← r !! 0; role ← r !! 1;
      let domain := default ∅ (m !! dom) in
      add_tenant_rules rs (<[dom := append_at domain member role]> m)
  end.

Fixpoint add_system_rules (rs : list rule) (m : gmap string (list string)) :
    option (gmap string (list string)) :=
  match rs with
  | [] => Some m
  | r :: rs =>
      member ← r !! 0; role ← r !! 1;
      add_system_rules rs (append_at m member role)
  end.

Definition buildRoleGraph (set : policySet) : option roleGraph :=
  tenant ← add_tenant_rules (all set tenantRoleGrouping) ∅;
  system ← add_system_rules (all set systemRoleGrouping) ∅;
  Some (mkRoleGraph tenant system).

Definition directRoles (g : roleGraph) (grouping name domain : string) : list string :=
  if String.eqb grouping systemRoleGrouping then default [] (systemRoles g !! name)
  else default [] (default ∅ (tenantRoles g !! domain) !! name).

Section Walk.
Context (succ : string -> list string).

(** ** The closure: each level sorted *)

Fixpoint roles_loop (roles : list string) (seen : gset string) (next : list string) :
    gset string * list string :=
  match roles with
  | [] => (seen, next)
  | role :: roles =>
      if decide (role ∈ seen) then roles_loop roles seen next
      else roles_loop roles ({[role]} ∪ seen) (next ++ [role])
  end.

Fixpoint names_loop (names : list string) (seen : gset string) (next : list string) :
    gset string * list string :=
  match names with
  | [] => (seen, next)
  | name :: names =>
      let '(seen, next) := roles_loop (succ name) seen next in
      names_loop names seen next
  end.

Definition string_le (a b : string) : Prop := String.leb a b = true.
#[export] Instance string_le_dec a b : Decision (string_le a b).
Proof. unfold string_le. apply _. Defined.

Fixpoint closure_levels (levels : nat) (seen : gset string) (frontier closure : list string) :
    list string :=
  match levels, frontier with
  | S levels, _ :: _ =>
      let '(seen, next) := names_loop frontier seen [] in
      let next := merge_sort string_le next in
      closure_levels levels seen next (closure ++ next)
  | _, _ => closure
  end.

(** ** The search for one role; [None] is the role found *)

Fixpoint held_loop (role : string) (roles : list string) (seen : gset string)
    (next : list string) : option (gset string * list string) :=
  match roles with
  | [] => Some (seen, next)
  | held :: roles =>
      if String.eqb held role then None
      else if decide (held ∈ seen) then held_loop role roles seen next
      else held_loop role roles ({[held]} ∪ seen) (next ++ [held])
  end.

Fixpoint link_names (role : string) (names : list string) (seen : gset string)
    (next : list string) : option (gset string * list string) :=
  match names with
  | [] => Some (seen, next)
  | name :: names =>
      '(seen, next) ← held_loop role (succ name) seen next;
      link_names role names seen next
  end.

Fixpoint link_levels (role : string) (levels : nat) (seen : gset string)
    (frontier : list string) : bool :=
  match levels, frontier with
  | S levels, _ :: _ =>
      match link_names role frontier seen [] with
      | None => true
      | Some (seen, next) => link_levels role levels seen next
      end
  | _, _ => false
  end.

(** ** Reachability *)

(** [path k a b]: [b] is reached from [a] through exactly [k] assignments. *)
Inductive path : nat -> string -> string -> Prop :=
| path_0 a : path 0 a a
| path_S k a b c : path k a b -> c ∈ succ b -> path (S k) a c.

Definition within (k : nat) (a b : string) : Prop := exists j, j <= k /\ path j a b.

Lemma within_le j k a b : j <= k -> within j a b -> within k a b.
Proof. intros Hle (i & Hi & Hp). exists i. split; [lia|done]. Qed.

Lemma within_step k a b c : within k a b -> c ∈ succ b -> within (S k) a c.
Proof. intros (j & Hj & Hp) Hc. exists (S j). split; [lia|]. by econstructor. Qed.

Lemma within_S k a c :
  within (S k) a c <-> c = a \/ exists b, within k a b /\ c ∈ succ b.
Proof.
  split.
  - intros (j & Hj & Hp). destruct Hp as [a|j a b c Hp Hc]; [by left|].
    right. exists b. split; [|done]. exists j. split; [lia|done].
  - intros [->|(b & Hb & Hc)]; [exists 0; split; [lia|constructor]|by eapply within_step].
Qed.

Lemma within_0 a b : within 0 a b <-> b = a.
Proof.
  split.
  - intros (j & Hj & Hp). assert (j = 0) as -> by lia. by inversion Hp.
  - intros ->. exists 0. split; [lia|constructor].
Qed.

(** ** The loops as sets *)

Definition succs (names : list string) (x : string) : Prop :=
  exists name, name ∈ names /\ x ∈ succ name.

Lemma roles_loop_ok roles seen next :
  let '(seen', next') := roles_loop roles seen next in
  (forall x, x ∈ seen' <-> x ∈ seen \/ x ∈ roles) /\
  (forall x, x ∈ next' <-> x ∈ next \/ (x ∈ roles /\ x ∉ seen)).
Proof.
  revert seen next. induction roles as [|r roles IH]; intros seen next; simpl.
  { split; intros x; rewrite elem_of_nil; tauto. }
  destruct (decide (r ∈ seen)) as [Hin|Hnin].
  - specialize (IH seen next). destruct (roles_loop roles seen next) as [s' n'].
    destruct IH as [Hs Hn]. split; intros x; rewrite ?Hs, ?Hn, elem_of_cons;
      (destruct (decide (x = r)) as [->|]; tauto).
  - specialize (IH ({[r]} ∪ seen) (next ++ [r])).
    destruct (roles_loop roles _ _) as [s' n']. destruct IH as [Hs Hn].
    split; intros x; rewrite ?Hs, ?Hn, ?elem_of_app, !elem_of_cons, ?elem_of_nil,
      elem_of_union, elem_of_singleton;
      (destruct (decide (x = r)) as [->|]; tauto).
Qed.

Lemma names_loop_ok names seen next :
  let '(seen', next') := names_loop names seen next in
  (forall x, x ∈ seen' <-> x ∈ seen \/ succs names x) /\
  (forall x, x ∈ next' <-> x ∈ next \/ (succs names x /\ x ∉ seen)).
Proof.
  revert seen next. induction names as [|n names IH]; intros seen next; simpl.
  { split; intros x; unfold succs; split; [tauto| |tauto|];
      intros [?|H]; try done; [destruct H as (? & H & _)|destruct H as [(? & H & _) _]];
      by apply elem_of_nil in H. }
  pose proof (roles_loop_ok (succ n) seen next) as Hr.
  destruct (roles_loop (succ n) seen next) as [s1 n1]. destruct Hr as [Hs1 Hn1].
  specialize (IH s1 n1). destruct (names_loop names s1 n1) as [s2 n2]. destruct IH as [Hs2 Hn2].
  assert (forall x, succs (n :: names) x <-> x ∈ succ n \/ succs names x) as Hsucc.
  { intros x. unfold succs. split.
    - intros (y & [->|Hy]%elem_of_cons & Hx); [by left|right; eauto].
    - intros [Hx|(y & Hy & Hx)]; [exists n|exists y]; (split; [|done]); apply elem_of_cons; auto. }
  split; intros x; rewrite Hsucc, ?Hs2, ?Hn2, ?Hs1, ?Hn1;
    destruct (decide (x ∈ seen)), (decide (x ∈ succ n)); tauto.
Qed.

(** The search is the closure's walk, stopped at the role. *)
Lemma held_loop_ok role roles seen next :
  held_loop role roles seen next =
    if decide (role ∈ roles) then None else Some (roles_loop roles seen next).
Proof.
  revert seen next. induction roles as [|r roles IH]; intros seen next; simpl; [done|].
  destruct (String.eqb_spec r role) as [->|Hne].
  { rewrite decide_True; [done|]. by left. }
  assert (role ∈ r :: roles <-> role ∈ roles) as Hiff.
  { rewrite elem_of_cons. split; [intros [?|?]; congruence|tauto]. }
  destruct (decide (r ∈ seen)); rewrite IH;
    destruct (decide (role ∈ roles)); destruct (decide (role ∈ r :: roles)); tauto.
Qed.

Lemma link_names_ok role names seen next :
  (succs names role /\ link_names role names seen next = None) \/
  (~ succs names role /\ link_names role names seen next = Some (names_loop names seen next)).
Proof.
  revert seen next. induction names as [|n names IH]; intros seen next; simpl.
  { right. split; [|done]. intros (y & Hy & _). by apply elem_of_nil in Hy. }
  rewrite held_loop_ok. destruct (decide (role ∈ succ n)) as [Hin|Hnin]; simpl.
  { left. split; [|done]. exists n. split; [by left|done]. }
  destruct (roles_loop (succ n) seen next) as [s1 n1].
  destruct (IH s1 n1) as [[Hs E]|[Hs E]].
  - left. split; [|done]. destruct Hs as (y & Hy & Hx). exists y. split; [by right|done].
  - right. split; [|done]. intros (y & [->|Hy]%elem_of_cons & Hx); [done|].
    apply Hs. by exists y.
Qed.

(** ** The walk level by level *)

Section Levels.
Context (subject : string).

(** After [k] levels [seen] holds what is within [k], and [frontier] what is
    not within less. *)
Definition level_inv (k : nat) (seen : gset string) (frontier : list string) : Prop :=
  (forall x, x ∈ seen <-> within k subject x) /\
  exists old : gset string,
    (forall x, x ∈ old <-> exists j, j < k /\ within j subject x) /\
    (forall x, x ∈ frontier <-> x ∈ seen /\ x ∉ old).

Lemma level_inv_0 : level_inv 0 {[subject]} [subject].
Proof.
  split; [intros x; by rewrite within_0, elem_of_singleton|].
  exists ∅. split; intros x.
  - split; [set_solver|]. intros (j & Hj & _). lia.
  - rewrite list_elem_of_singleton. set_solver.
Qed.

(** What is new after a level comes from its frontier. *)
Lemma within_frontier k seen frontier x :
  level_inv k seen frontier ->
  (within (S k) subject x <-> within k subject x \/ succs frontier x).
Proof.
  intros [Hs (old & Ho & Hf)]. split.
  - rewrite within_S. intros [->|(b & Hb & Hx)].
    { left. exists 0. split; [lia|constructor]. }
    destruct (decide (b ∈ old)) as [Hin|Hnin].
    + apply Ho in Hin as (j & Hj & Hw). left. eapply within_le; [|by eapply within_step]. lia.
    + right. exists b. split; [|done]. apply Hf. split; [by apply Hs|done].
  - intros [H|(b & Hb & Hx)]; [eapply within_le; [|exact H]; lia|].
    apply Hf in Hb as [Hb%Hs _]. by eapply within_step.
Qed.

Lemma level_inv_S k seen frontier next :
  level_inv k seen frontier ->
  (forall x, x ∈ next <-> succs frontier x /\ x ∉ seen) ->
  level_inv (S k) (names_loop frontier seen []).1 next.
Proof.
  intros Hinv Hn. pose proof Hinv as [Hs _].
  pose proof (names_loop_ok frontier seen []) as Hl.
  destruct (names_loop frontier seen []) as [s' n']. destruct Hl as [Hs' _]. simpl.
  split.
  - intros x. rewrite Hs', (within_frontier k seen frontier x Hinv), Hs. done.
  - exists seen. split.
    + intros x. rewrite Hs. split.
      * intros H. exists k. split; [lia|done].
      * intros (j & Hj & H). eapply within_le; [|exact H]. lia.
    + intros x. rewrite Hn, Hs'. tauto.
Qed.

(** An empty frontier means nothing more is reached. *)
Lemma level_inv_done k seen x j :
  level_inv k seen [] -> within j subject x -> within k subject x.
Proof.
  intros Hinv. revert x. induction j as [|j IH]; intros x.
  - intros H. eapply within_le; [|exact H]. lia.
  - rewrite within_S. intros [->|(b & Hb%IH & Hx)].
    { exists 0. split; [lia|constructor]. }
    assert (within (S k) subject x) as H by by eapply within_step.
    apply (within_frontier k seen [] x Hinv) in H as [H|(y & Hy & _)]; [done|].
    by apply elem_of_nil in Hy.
Qed.

Lemma closure_levels_ok n k seen frontier closure :
  level_inv k seen frontier ->
  (forall x, x ∈ closure <-> x <> subject /\ within k subject x) ->
  forall x, x ∈ closure_levels n seen frontier closure <-> x <> subject /\ within (k + n) subject x.
Proof.
  revert k seen frontier closure.
  induction n as [|n IH]; intros k seen frontier closure Hinv Hc x; simpl.
  { by rewrite Nat.add_0_r. }
  destruct frontier as [|f frontier].
  { rewrite Hc. split; intros [Hne H]; (split; [done|]).
    - eapply within_le; [|exact H]. lia.
    - by eapply level_inv_done. }
  pose proof (names_loop_ok (f :: frontier) seen []) as Hl.
  pose proof (level_inv_S k seen (f :: frontier)) as HS.
  destruct (names_loop (f :: frontier) seen []) as [s' n'] eqn:E. destruct Hl as [Hs' Hn'].
  assert (forall y, y ∈ merge_sort string_le n' <-> succs (f :: frontier) y /\ y ∉ seen) as Hsort.
  { intros y. rewrite merge_sort_Permutation, Hn', elem_of_nil. tauto. }
  replace (k + S n) with (S k + n) by lia. apply IH; [by apply HS|].
  intros y. rewrite elem_of_app, Hc, Hsort, (within_frontier k seen (f :: frontier) y Hinv).
  pose proof Hinv as [Hseen _].
  assert (subject ∈ seen) as Hsub by (apply Hseen; exists 0; split; [lia|constructor]).
  split.
  - intros [[Hne H]|[H Hn]]; [tauto|]. split; [by intros ->|by right].
  - intros [Hne [H|H]]; [by left|]. destruct (decide (y ∈ seen)) as [Hin|Hnin]; [|by right].
    left. split; [done|]. by apply Hseen.
Qed.

Lemma link_levels_ok role n k seen frontier :
  level_inv k seen frontier -> ~ within k subject role ->
  (link_levels role n seen frontier = true <-> within (k + n) subject role).
Proof.
  revert k seen frontier. induction n as [|n IH]; intros k seen frontier Hinv Hno; simpl.
  { rewrite Nat.add_0_r. by split. }
  destruct frontier as [|f frontier].
  { split; [done|]. intros H. by eapply level_inv_done in H. }
  pose proof (within_frontier k seen (f :: frontier) role Hinv) as Hw.
  destruct (link_names_ok role (f :: frontier) seen []) as [[Hin ->]|[Hnin ->]].
  { split; [intros _|done]. apply (within_le (S k)); [lia|]. apply Hw. by right. }
  pose proof (names_loop_ok (f :: frontier) seen []) as Hl.
  pose proof (level_inv_S k seen (f :: frontier)) as HS.
  destruct (names_loop (f :: frontier) seen []) as [s' n'] eqn:E. destruct Hl as [Hs' Hn'].
  replace (k + S n) with (S k + n) by lia. apply IH.
  - apply HS; [done|]. intros y. rewrite Hn', elem_of_nil. tauto.
  - rewrite Hw. tauto.
Qed.
End Levels.
End Walk.

(** ** The two questions on a graph *)

Definition hasLink (g : roleGraph) (grouping subject role domain : string) : bool :=
  if String.eqb subject role then true
  else link_levels (fun name => directRoles g grouping name domain) role maxRoleHierarchy
         {[subject]} [subject].

Definition subjectRoleClosure (graph : option roleGraph) (subject tenant : string) : list string :=
  match graph with
  | Some g =>
      if String.eqb subject "" then []
      else closure_levels (fun name => directRoles g tenantRoleGrouping name tenant)
             maxRoleHierarchy {[subject]} [subject] []
  | None => []
  end.

(** Reached through at most [maxRoleHierarchy] assignments, but for itself. *)
Definition reaches (g : roleGraph) (grouping domain subject role : string) : Prop :=
  subject <> role /\
  within (fun name => directRoles g grouping name domain) maxRoleHierarchy subject role.

Lemma hasLink_ok g grouping subject role domain :
  subject <> role ->
  (hasLink g grouping subject role domain = true <-> reaches g grouping domain subject role).
Proof.
  intros Hne. unfold hasLink. destruct (String.eqb_spec subject role) as [->|_]; [done|].
  rewrite (link_levels_ok _ subject role maxRoleHierarchy 0); [|apply level_inv_0|].
  - unfold reaches. simpl. tauto.
  - rewrite within_0. congruence.
Qed.

Lemma closure_ok g subject tenant role :
  subject <> "" ->
  (role ∈ subjectRoleClosure (Some g) subject tenant <->
   reaches g tenantRoleGrouping tenant subject role).
Proof.
  intros Hne. unfold subjectRoleClosure. destruct (String.eqb_spec subject ""); [done|].
  rewrite (closure_levels_ok _ subject maxRoleHierarchy 0); [|apply level_inv_0|].
  - unfold reaches. simpl. split; intros []; split; auto.
  - intros x. rewrite elem_of_nil, within_0. tauto.
Qed.

(** ** The graph built from the rules *)

(** Every rule has the values its kind declares. *)
Definition sized (s : policySet) : Prop :=
  forall ptype n r, ruleTokens ptype = Some n -> r ∈ rules_of s ptype -> length r = n.

Lemma append_at_elem m k v k' x :
  x ∈ default [] (append_at m k v !! k') <-> x ∈ default [] (m !! k') \/ (k' = k /\ x = v).
Proof.
  unfold append_at. destruct (decide (k' = k)) as [->|Hne].
  - rewrite lookup_insert_eq. simpl. rewrite elem_of_app, list_elem_of_singleton. tauto.
  - rewrite lookup_insert_ne by done. tauto.
Qed.

Lemma add_tenant_rules_ok rs m :
  (forall r, r ∈ rs -> length r = 3) ->
  exists m', add_tenant_rules rs m = Some m' /\
    forall dom name role,
      role ∈ default [] (default ∅ (m' !! dom) !! name) <->
      role ∈ default [] (default ∅ (m !! dom) !! name) \/ [name; role; dom] ∈ rs.
Proof.
  revert m. induction rs as [|r rs IH]; intros m Hlen.
  { exists m. split; [done|]. intros. rewrite elem_of_nil. tauto. }
  assert (length r = 3) as Hr by (apply Hlen; by left).
  destruct r as [|a [|b [|c [|]]]]; try done. simpl.
  destruct (IH (<[c:=append_at (default ∅ (m !! c)) a b]> m)) as (m' & -> & Hm').
  { intros r Hin. apply Hlen. by right. }
  exists m'. split; [done|]. intros dom name role. rewrite Hm', elem_of_cons.
  destruct (decide (dom = c)) as [->|Hne].
  - rewrite lookup_insert_eq. simpl. rewrite append_at_elem.
    split; [intros [[?|[-> ->]]|?]; auto|intros [?|[[= -> ->]|?]]; auto].
  - rewrite lookup_insert_ne by done.
    split; [tauto|]. intros [?|[[= -> -> ->]|?]]; tauto.
Qed.

Lemma add_system_rules_ok rs m :
  (forall r, r ∈ rs -> length r = 2) ->
  exists m', add_system_rules rs m = Some m' /\
    forall name role,
      role ∈ default [] (m' !! name) <-> role ∈ default [] (m !! name) \/ [name; role] ∈ rs.
Proof.
  revert m. induction rs as [|r rs IH]; intros m Hlen.
  { exists m. split; [done|]. intros. rewrite elem_of_nil. tauto. }
  assert (length r = 2) as Hr by (apply Hlen; by left).
  destruct r as [|a [|b [|]]]; try done. simpl.
  destruct (IH (append_at m a b)) as (m' & -> & Hm').
  { intros r Hin. apply Hlen. by right. }
  exists m'. split; [done|]. intros name role. rewrite Hm', elem_of_cons, append_at_elem.
  split; [intros [[?|[-> ->]]|?]; auto|intros [?|[[= -> ->]|?]]; auto].
Qed.

Lemma buildRoleGraph_ok s :
  sized s ->
  exists g, buildRoleGraph s = Some g /\
    (forall name role dom,
       role ∈ directRoles g tenantRoleGrouping name dom <->
       [name; role; dom] ∈ rules_of s tenantRoleGrouping) /\
    (forall name role dom,
       role ∈ directRoles g systemRoleGrouping name dom <->
       [name; role] ∈ rules_of s systemRoleGrouping).
Proof.
  intros Hs.
  destruct (add_tenant_rules_ok (all s tenantRoleGrouping) ∅) as (mt & Et & Hmt).
  { intros r Hr. by apply (Hs tenantRoleGrouping). }
  destruct (add_system_rules_ok (all s systemRoleGrouping) ∅) as (ms & Es & Hms).
  { intros r Hr. by apply (Hs systemRoleGrouping). }
  exists (mkRoleGraph mt ms). unfold buildRoleGraph. rewrite Et, Es. split; [done|]. split.
  - intros name role dom. unfold directRoles. simpl. rewrite Hmt, lookup_empty. simpl.
    rewrite lookup_empty. simpl. rewrite elem_of_nil. tauto.
  - intros name role dom. unfold directRoles. simpl. rewrite Hms, lookup_empty. simpl.
    rewrite elem_of_nil. tauto.
Qed.
