(* ===== verification/RbacDecision.v ===== *)
(** * Authorization decisions

    Models [authz/rbac/index.go], [authorize.go] and [decision.go]: the
    decision index built from the rules, and the decision answered from the
    index and the role graph.  [matcher] is the policy matcher the package
    keeps as the specification of a decision (in its differential test). *)

From stdpp Require Import base list strings gmap sets.
From Stdlib Require Import ZArith Lia.
From S2P Require Import Prelude GoStrings PathMatch RbacPolicies RbacRoles.

(** The subjects and roles known by name, and the effect that allows. *)
Definition RoleAdmin : string := "admin".
Definition SystemRoleRoot : string := "system_root".
Definition RoleAuthenticated : string := "authenticated".
Definition EffectAllow : string := "allow".

Inductive GrantSource : Set :=
| GrantSourceSystemRoot | GrantSourceTenantAdmin | GrantSourceAuthenticated | GrantSourceRole.

Inductive DenyReason : Set :=
| DenyReasonUnauthenticated | DenyReasonNoRole | DenyReasonNoPolicy | DenyReasonNotInitialized.

(** ** The index *)

Record indexedRule : Type := mkIndexedRule {
  ir_rule : rule; ir_template : string; ir_action : string
}.

Record decisionIndex : Type := mkDecisionIndex {
  authenticated : list indexedRule;
  byTenantRole : gmap string (gmap string (list indexedRule))
}.

(** One round of the loop over the rules; a short rule, or one that does not
    allow, is skipped. *)
Definition index_rule (index : decisionIndex) (r : rule) : decisionIndex :=
  match r with
  | tenant :: role :: obj :: act :: eft :: _ =>
      if negb (String.eqb eft EffectAllow) then index
      else
        let indexed := mkIndexedRule r obj act in
        if String.eqb role RoleAuthenticated
        then mkDecisionIndex (authenticated index ++ [indexed]) (byTenantRole index)
        else
          let roles := default ∅ (byTenantRole index !! tenant) in
          let roles := <[role := default [] (roles !! role) ++ [indexed]]> roles in
          mkDecisionIndex (authenticated index) (<[tenant := roles]> (byTenantRole index))
  | _ => index
  end.

Definition buildDecisionIndex (set : policySet) : decisionIndex :=
  foldl index_rule (mkDecisionIndex [] ∅) (all set policyKind).

(** The first rule that covers the request; the action is compared first. *)
Fixpoint matchRules (rs : list indexedRule) (object action : string) :
    result match_error (option rule) :=
  match rs with
  | [] => Ok None
  | r :: rs =>
      if negb (String.eqb (ir_action r) action) then matchRules rs object action
      else
        match pathMatch object (ir_template r) with
        | Err e => Err e
        | Ok true => Ok (Some (ir_rule r))
        | Ok false => matchRules rs object action
        end
  end.

(** ** The decision *)

(** The state a decision is answered from. *)
Record policies : Type := mkPolicies {
  policyIndex : option decisionIndex;
  policyGraph : option roleGraph
}.

Section Decide.
Context (p : policies).

Definition hasRoleLink (ptype subject role domain : string) : bool :=
  if String.eqb subject role then false
  else
    match policyGraph p with
    | None => false
    | Some graph => hasLink graph ptype subject role domain
    end.

(** The loop over the closure of the subject's roles. *)
Fixpoint match_roles (roles : list string) (tenantRules : gmap string (list indexedRule))
    (subject object action : string) : result match_error (option rule) :=
  match roles with
  | [] => Ok None
  | role :: roles =>
      if String.eqb role subject then match_roles roles tenantRules subject object action
      else
        match matchRules (default [] (tenantRules !! role)) object action with
        | Err e => Err e
        | Ok (Some r) => Ok (Some r)
        | Ok None => match_roles roles tenantRules subject object action
        end
  end.

(** The source of the grant and the rule that allowed it, or a denial. *)
Definition authorize (tenant subject object action : string) :
    result match_error (option (GrantSource * option rule)) :=
  if hasRoleLink systemRoleGrouping subject SystemRoleRoot "" then
    Ok (Some (GrantSourceSystemRoot, None))
  else if hasRoleLink tenantRoleGrouping subject RoleAdmin tenant then
    Ok (Some (GrantSourceTenantAdmin, None))
  else
    match policyIndex p with
    | None => Ok None
    | Some index =>
        let by_authenticated :=
          if String.eqb subject "" then Ok None
          else matchRules (authenticated index) object action in
        match by_authenticated with
        | Err e => Err e
        | Ok (Some r) => Ok (Some (GrantSourceAuthenticated, Some r))
        | Ok None =>
            let roles := subjectRoleClosure (policyGraph p) subject tenant in
            let tenantRules := default ∅ (byTenantRole index !! tenant) in
            match match_roles roles tenantRules subject object action with
            | Err e => Err e
            | Ok (Some r) => Ok (Some (GrantSourceRole, Some r))
            | Ok None => Ok None
            end
        end
    end.

Definition denyReason (tenant subject : string) : DenyReason :=
  match policyGraph p with
  | None => DenyReasonNoRole
  | Some graph =>
      match directRoles graph tenantRoleGrouping subject tenant with
      | [] => DenyReasonNoRole
      | _ => DenyReasonNoPolicy
      end
  end.
End Decide.

(** The tenant an operation acts in: an unset one is the default tenant. *)
Definition DefaultTenant : string := "default".

Definition normalizeTenant (id : string) : string :=
  let id := TrimSpace id in
  if String.eqb id "" then DefaultTenant else id.

Lemma normalizeTenant_nonempty tenant : normalizeTenant tenant <> ""%string.
Proof. unfold normalizeTenant. destruct (String.eqb_spec (GoStrings.TrimSpace tenant) ""); done. Qed.

Lemma normalizeTenant_idem tenant : normalizeTenant (normalizeTenant tenant) = normalizeTenant tenant.
Proof.
  unfold normalizeTenant at 2 3. destruct (String.eqb_spec (GoStrings.TrimSpace tenant) "") as [_|Hne].
  - reflexivity.
  - unfold normalizeTenant. rewrite GoStrings.TrimSpace_idem.
    by destruct (String.eqb_spec (GoStrings.TrimSpace tenant) "").
Qed.

Record Decision : Type := mkDecision {
  Allowed : bool; Source : option GrantSource; Reason : option DenyReason; MatchedRule : list string
}.

(** [Authorize]: the decision with the rule that allowed it, or the reason
    it was denied. *)
Definition Authorize (p : policies) (tenant subject object action : string) :
    result match_error Decision :=
  let tenant := normalizeTenant tenant in
  match authorize p tenant subject object action with
  | Err e => Err e
  | Ok (Some (source, matched)) => Ok (mkDecision true (Some source) None (default [] matched))
  | Ok None => Ok (mkDecision false None (Some (denyReason p tenant subject)) [])
  end.

(** [rebuildDerived]: what a decision is answered from, given the rules. *)
Definition rebuildDerived (set : option policySet) : option policies :=
  match set with
  | None => Some (mkPolicies None None)
  | Some set =>
      graph ← buildRoleGraph set;
      Some (mkPolicies (Some (buildDecisionIndex set)) (Some graph))
  end.

(** ** The specification *)

Section Matcher.
Context (set : policySet).

(** Reached through assignments of the kind, at most [maxRoleHierarchy]. *)
Inductive chain (grouping domain : string) : nat -> string -> string -> Prop :=
| chain_0 a : chain grouping domain 0 a a
| chain_S k a b c r :
    chain grouping domain k a b -> r ∈ rules_of set grouping ->
    r = (if String.eqb grouping systemRoleGrouping then [b; c] else [b; c; domain]) ->
    chain grouping domain (S k) a c.

Definition g (grouping domain subject role : string) : Prop :=
  exists k, k <= maxRoleHierarchy /\ chain grouping domain k subject role.

(** The policy matcher, for one rule: the first line for the implicit
    authenticated role, the second for the subject's own. *)
Definition matcher (tenant subject object action : string) (r : rule) : Prop :=
  exists p_tenant p_role p_obj p_act p_eft, r = [p_tenant; p_role; p_obj; p_act; p_eft] /\
    p_eft = EffectAllow /\
    ((subject <> "" /\ p_role = RoleAuthenticated /\
        pathMatch object p_obj = Ok true /\ action = p_act) \/
     (subject <> p_role /\ tenant = p_tenant /\ g tenantRoleGrouping tenant subject p_role /\
        pathMatch object p_obj = Ok true /\ action = p_act)).

(** A rule that could allow the request but for a template that does not
    compile. *)
Definition unusable (tenant subject action : string) (r : rule) (e : match_error) (object : string) : Prop :=
  exists p_tenant p_role p_obj p_act p_eft, r = [p_tenant; p_role; p_obj; p_act; p_eft] /\
    p_eft = EffectAllow /\ action = p_act /\ pathMatch object p_obj = Err e /\
    (p_role = RoleAuthenticated \/
     (tenant = p_tenant /\ g tenantRoleGrouping tenant subject p_role)).
End Matcher.
