(* ===== verification/RbacSpec.v ===== *)
(** * Decisions mean what the matcher says

    The decision answered from the index and the role graph is the one the
    policy matcher defines over the rules themselves, and names the strongest
    grant. *)

From stdpp Require Import base list strings gmap sets.
From Stdlib Require Import ZArith Lia.
From S2P Require Import Prelude GoStrings PathMatch RbacPolicies RbacRoles RbacDecision.

(** ** The graph *)

Lemma path_chain s graph grouping domain k a b :
  (forall name role, role ∈ directRoles graph grouping name domain <->
     (if String.eqb grouping systemRoleGrouping then [name; role] else [name; role; domain])
       ∈ rules_of s grouping) ->
  path (fun name => directRoles graph grouping name domain) k a b <-> chain s grouping domain k a b.
Proof.
  intros Hg. split.
  - induction 1 as [a|k a b c Hp IH Hc]; [constructor|].
    apply Hg in Hc. econstructor; [exact IH|exact Hc|done].
  - induction 1 as [a|k a b c r Hp IH Hr ->]; [constructor|].
    econstructor; [exact IH|]. by apply Hg.
Qed.

Lemma reaches_g s graph grouping domain subject role :
  (forall name role, role ∈ directRoles graph grouping name domain <->
     (if String.eqb grouping systemRoleGrouping then [name; role] else [name; role; domain])
       ∈ rules_of s grouping) ->
  reaches graph grouping domain subject role <-> subject <> role /\ g s grouping domain subject role.
Proof.
  intros Hg. unfold reaches, within, g.
  split; intros [Hne (k & Hk & Hp)]; (split; [done|]); exists k; (split; [done|]);
    by apply (path_chain s graph grouping domain k subject role Hg).
Qed.

(** ** The index *)

(** What an indexed rule is made from. *)
Definition indexes (r : rule) (tenant role : string) (ir : indexedRule) : Prop :=
  exists obj act rest, r = tenant :: role :: obj :: act :: EffectAllow :: rest /\
    ir = mkIndexedRule r obj act.

Definition role_rules (index : decisionIndex) (tenant role : string) : list indexedRule :=
  default [] (default ∅ (byTenantRole index !! tenant) !! role).

Lemma index_rule_ok index r :
  (forall ir, ir ∈ authenticated (index_rule index r) <->
     ir ∈ authenticated index \/ exists tenant, indexes r tenant RoleAuthenticated ir) /\
  (forall tenant role ir, ir ∈ role_rules (index_rule index r) tenant role <->
     ir ∈ role_rules index tenant role \/ (role <> RoleAuthenticated /\ indexes r tenant role ir)).
Proof.
  assert ((~ exists t ro ir, indexes r t ro ir) -> index_rule index r = index ->
    (forall ir, ir ∈ authenticated (index_rule index r) <->
     ir ∈ authenticated index \/ exists tenant, indexes r tenant RoleAuthenticated ir) /\
    (forall tenant role ir, ir ∈ role_rules (index_rule index r) tenant role <->
     ir ∈ role_rules index tenant role \/ (role <> RoleAuthenticated /\ indexes r tenant role ir)))
    as Hskip.
  { intros Hno ->. split.
    - intros ir. split; [by left|]. intros [?|[t Ht]]; [done|]. exfalso. apply Hno. eauto.
    - intros t ro ir. split; [by left|]. intros [?|[_ Ht]]; [done|]. exfalso. apply Hno. eauto. }
  destruct r as [|t [|ro [|o [|a [|e rest]]]]];
    try (apply Hskip; [intros (? & ? & ? & ? & ? & ? & ? & _); done|done]).
  destruct (decide (e = EffectAllow)) as [->|Hne].
  2:{ apply Hskip; [|simpl; by destruct (String.eqb_spec e EffectAllow)].
      intros (? & ? & ? & ? & ? & ? & [= -> -> -> -> -> ->] & _). done. }
  simpl.
  clear Hskip.
  assert (forall t' ro' ir, indexes (t :: ro :: o :: a :: EffectAllow :: rest) t' ro' ir <->
            t' = t /\ ro' = ro /\ ir = mkIndexedRule (t :: ro :: o :: a :: EffectAllow :: rest) o a)
    as Hix.
  { intros t' ro' ir. split.
    - intros (? & ? & ? & [= -> -> -> -> ->] & ->). done.
    - intros (-> & -> & ->). by exists o, a, rest. }
  destruct (String.eqb_spec ro RoleAuthenticated) as [->|Hro]; simpl; split.
  - intros ir. rewrite elem_of_app, list_elem_of_singleton. split.
    + intros [?| ->]; [by left|]. right. exists t. by apply Hix.
    + intros [?|(t' & (_ & _ & ->)%Hix)]; auto.
  - intros t' ro' ir. unfold role_rules. simpl. split; [by left|].
    intros [?|[Hne (_ & -> & _)%Hix]]; done.
  - intros ir. split; [by left|]. intros [?|(t' & (_ & Hr & _)%Hix)]; [done|]. by rewrite <- Hr in Hro.
  - intros t' ro' ir. unfold role_rules. simpl. rewrite Hix.
    destruct (decide (t' = t)) as [->|Ht].
    + rewrite lookup_insert_eq. simpl. destruct (decide (ro' = ro)) as [->|Hr].
      * rewrite lookup_insert_eq. simpl. rewrite elem_of_app, list_elem_of_singleton. naive_solver.
      * rewrite lookup_insert_ne by done. naive_solver.
    + rewrite lookup_insert_ne by done. naive_solver.
Qed.

Lemma build_index_ok s :
  (forall ir, ir ∈ authenticated (buildDecisionIndex s) <->
     exists r tenant, r ∈ rules_of s policyKind /\ indexes r tenant RoleAuthenticated ir) /\
  (forall tenant role ir, ir ∈ role_rules (buildDecisionIndex s) tenant role <->
     role <> RoleAuthenticated /\ exists r, r ∈ rules_of s policyKind /\ indexes r tenant role ir).
Proof.
  unfold buildDecisionIndex, all. generalize (rules_of s policyKind). intros rs.
  assert (forall rs index,
    (forall ir, ir ∈ authenticated (foldl index_rule index rs) <->
       ir ∈ authenticated index \/
       exists r tenant, r ∈ rs /\ indexes r tenant RoleAuthenticated ir) /\
    (forall tenant role ir, ir ∈ role_rules (foldl index_rule index rs) tenant role <->
       ir ∈ role_rules index tenant role \/
       (role <> RoleAuthenticated /\ exists r, r ∈ rs /\ indexes r tenant role ir))) as Hgen.
  { clear. induction rs as [|r rs IH]; intros index; simpl.
    - split; intros; setoid_rewrite elem_of_nil; naive_solver.
    - destruct (IH (index_rule index r)) as [Ha Hr]. destruct (index_rule_ok index r) as [Ha1 Hr1].
      split; intros; rewrite ?Ha, ?Hr, ?Ha1, ?Hr1; setoid_rewrite elem_of_cons; naive_solver. }
  destruct (Hgen rs (mkDecisionIndex [] ∅)) as [Ha Hr]. split.
  - intros ir. rewrite Ha. simpl. rewrite elem_of_nil. tauto.
  - intros tenant role ir. rewrite Hr. unfold role_rules at 1. simpl.
    rewrite lookup_empty. simpl. rewrite lookup_empty. simpl. rewrite elem_of_nil. tauto.
Qed.

(** ** Matching *)

(** What a search of indexed rules answers. *)
Definition match_answer (found : indexedRule -> Prop) (object action : string)
    (res : result match_error (option rule)) : Prop :=
  match res with
  | Ok (Some r) => exists ir, found ir /\ ir_rule ir = r /\ ir_action ir = action /\
                     pathMatch object (ir_template ir) = Ok true
  | Ok None => forall ir, found ir -> ir_action ir = action ->
                 pathMatch object (ir_template ir) = Ok false
  | Err e => exists ir, found ir /\ ir_action ir = action /\
               pathMatch object (ir_template ir) = Err e
  end.

Lemma matchRules_ok rs object action :
  match_answer (fun ir => ir ∈ rs) object action (matchRules rs object action).
Proof.
  induction rs as [|r rs IH]; simpl; [intros ir Hir; by apply elem_of_nil in Hir|].
  assert (forall res, match_answer (fun ir => ir ∈ rs) object action res ->
            (ir_action r = action -> pathMatch object (ir_template r) = Ok false) ->
            match_answer (fun ir => ir ∈ r :: rs) object action res) as Hcons.
  { intros [[?|]|?]; simpl.
    - intros (ir & ? & ?) _. exists ir. split; [by right|done].
    - intros H Hr ir [->|Hin]%elem_of_cons Ha; [by apply Hr|by apply H].
    - intros (ir & ? & ?) _. exists ir. split; [by right|done]. }
  destruct (String.eqb_spec (ir_action r) action) as [Ha|Ha]; simpl.
  - destruct (pathMatch object (ir_template r)) as [[]|e] eqn:E.
    + exists r. split; [by left|done].
    + by apply Hcons.
    + exists r. split; [by left|done].
  - by apply Hcons.
Qed.

Lemma match_roles_ok roles tenantRules subject object action :
  match_answer (fun ir => exists role, role ∈ roles /\ role <> subject /\
                            ir ∈ default [] (tenantRules !! role))
    object action (match_roles roles tenantRules subject object action).
Proof.
  induction roles as [|role roles IH]; simpl.
  { intros ir (role & Hr & _). by apply elem_of_nil in Hr. }
  destruct (String.eqb_spec role subject) as [->|Hne].
  - destruct (match_roles roles tenantRules subject object action) as [[r|]|e]; simpl in *.
    + destruct IH as (ir & (ro & ? & ?) & ?). exists ir. split; [|done]. exists ro. split; [by right|done].
    + intros ir (ro & [->|Hin]%elem_of_cons & Hn & Hir); [done|]. apply IH. by exists ro.
    + destruct IH as (ir & (ro & ? & ?) & ?). exists ir. split; [|done]. exists ro. split; [by right|done].
  - pose proof (matchRules_ok (default [] (tenantRules !! role)) object action) as Hm.
    destruct (matchRules (default [] (tenantRules !! role)) object action) as [[r|]|e]; simpl in Hm.
    + destruct Hm as (ir & ? & ?). exists ir. split; [|done]. exists role. split; [by left|done].
    + destruct (match_roles roles tenantRules subject object action) as [[r|]|e]; simpl in *.
      * destruct IH as (ir & (ro & ? & ?) & ?). exists ir. split; [|done]. exists ro. split; [by right|done].
      * intros ir (ro & [->|Hin]%elem_of_cons & Hn & Hir); [by apply Hm|]. apply IH. by exists ro.
      * destruct IH as (ir & (ro & ? & ?) & ?). exists ir. split; [|done]. exists ro. split; [by right|done].
    + destruct Hm as (ir & ? & ?). exists ir. split; [|done]. exists role. split; [by left|done].
Qed.

(** ** Decisions *)

(** The two grants that consult no policy. *)
Definition is_system_root (s : policySet) (subject : string) : Prop :=
  subject <> SystemRoleRoot /\ g s systemRoleGrouping "" subject SystemRoleRoot.
Definition is_tenant_admin (s : policySet) (tenant subject : string) : Prop :=
  subject <> RoleAdmin /\ g s tenantRoleGrouping tenant subject RoleAdmin.

(** What [authorize] must answer. *)
Definition decision_ok (s : policySet) (tenant subject object action : string)
    (res : result match_error (option (GrantSource * option rule))) : Prop :=
  let p := rules_of s policyKind in
  let m := matcher s tenant subject object action in
  match res with
  | Ok (Some (GrantSourceSystemRoot, None)) => is_system_root s subject
  | Ok (Some (GrantSourceTenantAdmin, None)) =>
      ~ is_system_root s subject /\ is_tenant_admin s tenant subject
  | Ok (Some (GrantSourceAuthenticated, Some r)) =>
      ~ is_system_root s subject /\ ~ is_tenant_admin s tenant subject /\
      r ∈ p /\ m r /\ r !! 1 = Some RoleAuthenticated
  | Ok (Some (GrantSourceRole, Some r)) =>
      ~ is_system_root s subject /\ ~ is_tenant_admin s tenant subject /\
      (forall r', r' ∈ p -> m r' -> r' !! 1 <> Some RoleAuthenticated) /\ r ∈ p /\ m r
  | Ok None =>
      ~ is_system_root s subject /\ ~ is_tenant_admin s tenant subject /\
      forall r, r ∈ p -> ~ m r
  | Err e =>
      ~ is_system_root s subject /\ ~ is_tenant_admin s tenant subject /\
      exists r, r ∈ p /\ unusable s tenant subject action r e object
  | _ => False
  end.

Section Decide.
Context (s : policySet) (graph : roleGraph) (Hsized : sized s).
Context (Hgraph : buildRoleGraph s = Some graph).
Context (tenant subject object action : string) (Hsubject : subject <> "").

Let p := mkPolicies (Some (buildDecisionIndex s)) (Some graph).

Lemma direct_tenant name role :
  role ∈ directRoles graph tenantRoleGrouping name tenant <->
  [name; role; tenant] ∈ rules_of s tenantRoleGrouping.
Proof.
  destruct (buildRoleGraph_ok s Hsized) as (graph' & Hg' & Ht & _). simplify_eq. apply Ht.
Qed.

Lemma direct_system name role :
  role ∈ directRoles graph systemRoleGrouping name "" <->
  [name; role] ∈ rules_of s systemRoleGrouping.
Proof.
  destruct (buildRoleGraph_ok s Hsized) as (graph' & Hg' & _ & Hsys). simplify_eq. apply Hsys.
Qed.

Lemma system_root_ok :
  hasRoleLink p systemRoleGrouping subject SystemRoleRoot "" = true <-> is_system_root s subject.
Proof.
  unfold hasRoleLink, is_system_root. destruct (String.eqb_spec subject SystemRoleRoot) as [->|Hne].
  { split; [done|tauto]. }
  simpl. rewrite hasLink_ok, (reaches_g s) by (done || apply direct_system). tauto.
Qed.

Lemma tenant_admin_ok :
  hasRoleLink p tenantRoleGrouping subject RoleAdmin tenant = true <-> is_tenant_admin s tenant subject.
Proof.
  unfold hasRoleLink, is_tenant_admin. destruct (String.eqb_spec subject RoleAdmin) as [->|Hne].
  { split; [done|tauto]. }
  simpl. rewrite hasLink_ok, (reaches_g s) by (done || apply direct_tenant). tauto.
Qed.

Lemma roles_ok role :
  role ∈ subjectRoleClosure (Some graph) subject tenant <->
  subject <> role /\ g s tenantRoleGrouping tenant subject role.
Proof. rewrite closure_ok, (reaches_g s) by (done || apply direct_tenant). done. Qed.

(** Rules of the policy kind are five values. *)
Lemma indexes_five r t ro ir :
  r ∈ rules_of s policyKind -> indexes r t ro ir ->
  r = [t; ro; ir_template ir; ir_action ir; EffectAllow] /\ ir_rule ir = r.
Proof.
  intros Hr (o & a & rest & E & ->). assert (length r = 5) as Hlen by by apply (Hsized policyKind).
  rewrite E in *. by destruct rest.
Qed.

Lemma five_indexes t ro o a : indexes [t; ro; o; a; EffectAllow] t ro
  (mkIndexedRule [t; ro; o; a; EffectAllow] o a).
Proof. by exists o, a, []. Qed.

Lemma authenticated_ok :
  match matchRules (authenticated (buildDecisionIndex s)) object action with
  | Ok (Some r) => r ∈ rules_of s policyKind /\ matcher s tenant subject object action r /\
                   r !! 1 = Some RoleAuthenticated
  | Ok None => forall r, r ∈ rules_of s policyKind -> matcher s tenant subject object action r ->
                 r !! 1 <> Some RoleAuthenticated
  | Err e => exists r, r ∈ rules_of s policyKind /\ unusable s tenant subject action r e object
  end.
Proof.
  pose proof (matchRules_ok (authenticated (buildDecisionIndex s)) object action) as Hm.
  destruct (build_index_ok s) as [Ha _].
  destruct (matchRules _ object action) as [[r|]|e]; simpl in Hm.
  - destruct Hm as (ir & (r' & t & Hr & Hix)%Ha & <- & Hact & Hp).
    destruct (indexes_five _ _ _ _ Hr Hix) as [-> ->]. split; [done|]. split; [|done].
    exists t, RoleAuthenticated, (ir_template ir), (ir_action ir), EffectAllow.
    split; [done|]. split; [done|]. by left.
  - intros r Hr (t & ro & o & a & e & -> & -> & Hcase) E. simpl in E. simplify_eq.
    assert (pathMatch object o = Ok true /\ action = a) as [Hp Hact]
      by (destruct Hcase as [(_ & _ & ? & ?)|(_ & _ & _ & ? & ?)]; done).
    assert (pathMatch object o = Ok false) as Hf; [|congruence].
    apply (Hm (mkIndexedRule [t; RoleAuthenticated; o; a; EffectAllow] o a)); [|done].
    apply Ha. eexists _, t. split; [done|apply five_indexes].
  - destruct Hm as (ir & (r' & t & Hr & Hix)%Ha & Hact & Hp).
    destruct (indexes_five _ _ _ _ Hr Hix) as [-> _]. eexists. split; [done|].
    exists t, RoleAuthenticated, (ir_template ir), (ir_action ir), EffectAllow. auto 10.
Qed.

Lemma tenant_rules_ok :
  match match_roles (subjectRoleClosure (Some graph) subject tenant)
          (default ∅ (byTenantRole (buildDecisionIndex s) !! tenant)) subject object action with
  | Ok (Some r) => r ∈ rules_of s policyKind /\ matcher s tenant subject object action r
  | Ok None => forall r, r ∈ rules_of s policyKind -> matcher s tenant subject object action r ->
                 r !! 1 = Some RoleAuthenticated
  | Err e => exists r, r ∈ rules_of s policyKind /\ unusable s tenant subject action r e object
  end.
Proof.
  pose proof (match_roles_ok (subjectRoleClosure (Some graph) subject tenant)
    (default ∅ (byTenantRole (buildDecisionIndex s) !! tenant)) subject object action) as Hm.
  destruct (build_index_ok s) as [_ Ht]. unfold role_rules in Ht.
  destruct (match_roles _ _ subject object action) as [[r|]|e]; simpl in Hm.
  - destruct Hm as (ir & (role & [Hne Hg]%roles_ok & _ & [Hro (r' & Hr & Hix)]%Ht) & <- & Hact & Hp).
    destruct (indexes_five _ _ _ _ Hr Hix) as [-> ->]. split; [done|].
    exists tenant, role, (ir_template ir), (ir_action ir), EffectAllow.
    split; [done|]. split; [done|]. by right.
  - intros r Hr (t & ro & o & a & e & -> & -> & Hcase). simpl.
    destruct (decide (ro = RoleAuthenticated)) as [->|Hro]; [done|]. exfalso.
    destruct Hcase as [(_ & ? & _)|(Hne & <- & Hg & Hp & <-)]; [done|].
    assert (pathMatch object o = Ok false) as Hf; [|congruence].
    apply (Hm (mkIndexedRule [tenant; ro; o; action; EffectAllow] o action)); [|done].
    exists ro. split; [by apply roles_ok|]. split; [done|]. apply Ht. split; [done|].
    eexists. split; [done|apply five_indexes].
  - destruct Hm as (ir & (role & [Hne Hg]%roles_ok & _ & [Hro (r' & Hr & Hix)]%Ht) & Hact & Hp).
    destruct (indexes_five _ _ _ _ Hr Hix) as [-> _]. eexists. split; [done|].
    exists tenant, role, (ir_template ir), (ir_action ir), EffectAllow. auto 10.
Qed.

Lemma authorize_ok :
  decision_ok s tenant subject object action (authorize p tenant subject object action).
Proof.
  unfold authorize, decision_ok.
  destruct (hasRoleLink p systemRoleGrouping subject SystemRoleRoot "") eqn:Er.
  { by apply system_root_ok. }
  assert (~ is_system_root s subject) as Hnr by (rewrite <- system_root_ok; congruence).
  destruct (hasRoleLink p tenantRoleGrouping subject RoleAdmin tenant) eqn:Ea.
  { split; [done|]. by apply tenant_admin_ok. }
  assert (~ is_tenant_admin s tenant subject) as Hna by (rewrite <- tenant_admin_ok; congruence).
  subst p. cbn [policyIndex policyGraph]. destruct (String.eqb_spec subject ""); [done|].
  pose proof authenticated_ok as Hauth.
  destruct (matchRules _ object action) as [[r|]|e];
    [exact (conj Hnr (conj Hna Hauth))| |exact (conj Hnr (conj Hna Hauth))].
  pose proof tenant_rules_ok as Hrules.
  destruct (match_roles _ _ subject object action) as [[r|]|e];
    [exact (conj Hnr (conj Hna (conj Hauth Hrules)))| |exact (conj Hnr (conj Hna Hrules))].
  split; [done|]. split; [done|]. intros r Hr Hm. by eapply Hauth; eauto.
Qed.
End Decide.

(** ** Properties *)

(** C1: an authorization answered from the index and the role graph built
    from a rule set is the one the matcher defines over the rules: the
    strongest applicable grant is named, an allowed request names a stored
    rule the matcher accepts, a denial means no rule does, and an error means
    a rule the request reaches has a template that does not compile. *)
Theorem authorize_matches_matcher (s : policySet) tenant subject object action
    (Hs : sized s) (Hsub : subject <> "") :
  exists pol, rebuildDerived (Some s) = Some pol /\
    decision_ok s tenant subject object action (authorize pol tenant subject object action).
Proof.
  destruct (buildRoleGraph_ok s Hs) as (graph & Hg & _ & _).
  eexists. split; [simpl; rewrite Hg; done|]. by apply authorize_ok.
Qed.

(** [Authorize] allows a request exactly when the subject is a system
    root, an administrator of the tenant, or a stored rule is accepted by the
    matcher; a denied subject is said to have no role exactly when no
    assignment of the tenant names it. *)
Lemma Authorize_decides (s : policySet) tenant subject object action pol d
    (Hs : sized s) (Hsub : subject <> "")
    (Hpol : rebuildDerived (Some s) = Some pol)
    (Hd : Authorize pol tenant subject object action = Ok d) :
  (Allowed d = true <->
     is_system_root s subject \/ is_tenant_admin s (normalizeTenant tenant) subject \/
     exists r, r ∈ rules_of s policyKind /\ matcher s (normalizeTenant tenant) subject object action r) /\
  (Allowed d = false ->
     (Reason d = Some DenyReasonNoRole <->
      forall role, [subject; role; normalizeTenant tenant] ∉ rules_of s tenantRoleGrouping)).
Proof.
  destruct (buildRoleGraph_ok s Hs) as (graph & Hg & Ht & _).
  simpl in Hpol. rewrite Hg in Hpol. simplify_eq/=.
  unfold Authorize in Hd. revert Hd. generalize (normalizeTenant tenant). clear tenant. intros tenant Hd.
  pose proof (authorize_ok s graph Hs Hg tenant subject object action Hsub) as Hok. cbn zeta in Hd.
  destruct (authorize _ tenant subject object action) as [[[src m]|]|e]; simplify_eq/=.
  - split; [|done]. split; [intros _|done].
    destruct src, m as [r|]; simpl in Hok; try done; [by left|tauto| |];
      right; right; exists r; tauto.
  - destruct Hok as (Hnr & Hna & Hno). split; [split; [done|]|intros _].
    + intros [?|[?|(r & Hr & Hm)]]; [done..|]. by destruct (Hno r Hr Hm).
    + unfold denyReason. cbn [policyGraph].
      destruct (directRoles graph tenantRoleGrouping subject tenant) as [|r0 l] eqn:E.
      * split; [intros _|done]. intros role Hrole%Ht. rewrite E in Hrole.
        by apply elem_of_nil in Hrole.
      * split; [done|]. intros Hnone. exfalso. apply (Hnone r0), Ht. rewrite E. by left.
Qed.

(** Both walks of the role graph answer for the assignments as stored:
    the search for one role and the closure of a subject's roles find exactly
    the other names reached through at most [maxRoleHierarchy] assignments. *)
Lemma role_walks_agree (s : policySet) graph tenant subject role
    (Hs : sized s) (Hg : buildRoleGraph s = Some graph)
    (Hsub : subject <> "") (Hne : subject <> role) :
  (hasLink graph tenantRoleGrouping subject role tenant = true <->
     g s tenantRoleGrouping tenant subject role) /\
  (role ∈ subjectRoleClosure (Some graph) subject tenant <->
     g s tenantRoleGrouping tenant subject role).
Proof.
  pose proof (direct_tenant s graph Hs Hg tenant) as Hd.
  rewrite hasLink_ok, closure_ok by done. rewrite (reaches_g s) by exact Hd. tauto.
Qed.

(** The policy set holds each rule once, in the order added: adding keeps
    what is there and appends the rules not yet held, removing and removing
    by filter delete exactly the rules named or matched, each operation
    reports exactly what it changed, and no other kind is touched. *)
Lemma policySet_operations (s : policySet) ptype rs i vs (Hs : wf s) :
  (let '(s', affected) := add s ptype rs in
   wf s' /\ affected = fresh rs (keys (rules_of s ptype)) /\
   rules_of s' ptype = rules_of s ptype ++ affected /\
   forall p, p <> ptype -> rules_of s' p = rules_of s p) /\
  (let '(s', affected) := remove s ptype rs in
   wf s' /\ affected = filter (fun r => ruleKey r ∈ keys rs) (rules_of s ptype) /\
   rules_of s' ptype = filter (fun r => ruleKey r ∉ keys rs) (rules_of s ptype) /\
   forall p, p <> ptype -> rules_of s' p = rules_of s p) /\
  (let '(s', affected) := removeFiltered s ptype i vs in
   wf s' /\ affected = filter (fun r => ruleMatchesFilter r i vs = true) (rules_of s ptype) /\
   rules_of s' ptype = filter (fun r => ~ ruleMatchesFilter r i vs = true) (rules_of s ptype) /\
   forall p, p <> ptype -> rules_of s' p = rules_of s p).
Proof. split; [by apply add_ok|]. split; [by apply remove_ok|by apply removeFiltered_ok]. Qed.

(** Witnesses: one tenant, a role reached through another, and two rules. *)
Definition sample_set : policySet :=
  let s := (add newPolicySet policyKind
    [["default"; "editor"; "/api/posts/{id}"; "PUT"; "allow"];
     ["*"; "authenticated"; "/api/me"; "GET"; "allow"]]).1 in
  (add s tenantRoleGrouping [["alice"; "lead"; "default"]; ["lead"; "editor"; "default"]]).1.

Lemma sample_set_wf : wf sample_set.
Proof. unfold sample_set. do 2 apply add_wf. apply newPolicySet_wf. Qed.

Lemma sample_set_sized : sized sample_set.
Proof.
  intros ptype n r. unfold ruleTokens.
  destruct (String.eqb_spec ptype policyKind) as [->|_];
    [|destruct (String.eqb_spec ptype tenantRoleGrouping) as [->|_];
      [|destruct (String.eqb_spec ptype systemRoleGrouping) as [->|_]; [|done]]];
    intros [= <-] Hr; vm_compute in Hr;
    repeat (apply elem_of_cons in Hr as [->|Hr]; [reflexivity|]); by apply elem_of_nil in Hr.
Qed.

Lemma authorize_matches_matcher_witness :
  sized sample_set /\
  exists pol, rebuildDerived (Some sample_set) = Some pol /\
    decision_ok sample_set "default" "alice" "/api/posts/7" "PUT"
      (authorize pol "default" "alice" "/api/posts/7" "PUT").
Proof.
  split; [exact sample_set_sized|].
  exact (authorize_matches_matcher sample_set "default" "alice" "/api/posts/7" "PUT"
           sample_set_sized ltac:(discriminate)).
Defined.

Definition sample_policies : policies :=
  Eval vm_compute in default (mkPolicies None None) (rebuildDerived (Some sample_set)).

Lemma Authorize_decides_witness :
  Authorize sample_policies " " "alice" "/api/posts/7" "PUT" =
    Ok (mkDecision true (Some GrantSourceRole) None
          ["default"; "editor"; "/api/posts/{id}"; "PUT"; "allow"]) /\
  (is_system_root sample_set "alice" \/ is_tenant_admin sample_set "default" "alice" \/
   exists r, r ∈ rules_of sample_set policyKind /\
     matcher sample_set "default" "alice" "/api/posts/7" "PUT" r).
Proof.
  split; [vm_compute; reflexivity|].
  destruct (Authorize_decides sample_set " " "alice" "/api/posts/7" "PUT" sample_policies
    (mkDecision true (Some GrantSourceRole) None
       ["default"; "editor"; "/api/posts/{id}"; "PUT"; "allow"])
    sample_set_sized ltac:(discriminate) ltac:(vm_compute; reflexivity)
    ltac:(vm_compute; reflexivity)) as [H _].
  apply H. reflexivity.
Defined.

Definition sample_graph : roleGraph :=
  Eval vm_compute in default (mkRoleGraph ∅ ∅) (buildRoleGraph sample_set).

Lemma role_walks_agree_witness :
  hasLink sample_graph tenantRoleGrouping "alice" "editor" "default" = true /\
  g sample_set tenantRoleGrouping "default" "alice" "editor".
Proof.
  destruct (role_walks_agree sample_set sample_graph "default" "alice" "editor"
    sample_set_sized ltac:(vm_compute; reflexivity) ltac:(discriminate) ltac:(discriminate))
    as [H _].
  split; [vm_compute; reflexivity|apply H; vm_compute; reflexivity].
Defined.

Lemma policySet_operations_witness :
  wf sample_set /\
  let '(s', affected) := removeFiltered sample_set policyKind 0 ["default"; "editor"] in
  affected = [["default"; "editor"; "/api/posts/{id}"; "PUT"; "allow"]] /\ wf s'.
Proof.
  split; [exact sample_set_wf|].
  destruct (policySet_operations sample_set policyKind [] 0 ["default"; "editor"] sample_set_wf)
    as (_ & _ & H).
  destruct (removeFiltered sample_set policyKind 0 ["default"; "editor"]) as [s' affected].
  destruct H as (Hw & -> & _). split; [vm_compute; reflexivity|exact Hw].
Defined.
