(* ===== verification/RbacQueries.v ===== *)
(** * Enforcement and the reads of the policy set

    Models [Enforce] of [authz/rbac/enforce.go] with the entry it logs, the
    reads of [assignment.go] and the answers of a process without a policy
    set ([noop.go]). *)

From stdpp Require Import base list strings gmap sets sorting.
From Stdlib Require Import ZArith Lia.
From S2P Require Import Prelude GoStrings PathMatch RbacPolicies RbacRoles RbacDecision RbacSpec.

(** ** Enforcement *)

Record Subject : Type := mkSubject { UserID : string; Username : string; TenantID : string }.

(** What the log says of a decision. *)
Inductive entry : Type :=
| logGrant (tenantID sub obj act : string) (source : GrantSource) (matchedRule : rule)
| logDeny (tenantID sub obj act : string) (reason : option DenyReason)
| logFailure (tenantID sub obj act : string) (err : match_error).

Inductive response : Type :=
| Proceed (tenantID : string) (across : bool)
| Refuse (tenantID : string) (status : Z).

(** [RBAC]: [None] is a process that has installed no policy set. *)
Definition RBAC_Authorize (p : option policies) (tenant subject object action : string) :
    result match_error Decision :=
  match p with
  | None => Ok (mkDecision false None (Some DenyReasonNotInitialized) [])
  | Some p => Authorize p tenant subject object action
  end.

Definition Enforce (p : option policies) (subject : Subject) (obj act : string) : response * entry :=
  let sub := TrimSpace (UserID subject) in
  if String.eqb sub "" then
    (Refuse "" 403, logDeny "" sub obj act (Some DenyReasonUnauthenticated))
  else
    let tenantID := TrimSpace (TenantID subject) in
    let tenantID := if String.eqb tenantID "" then DefaultTenant else tenantID in
    match RBAC_Authorize p tenantID sub obj act with
    | Err e => (Refuse tenantID 500, logFailure tenantID sub obj act e)
    | Ok d =>
        match Allowed d, Source d with
        | true, Some source =>
            (Proceed tenantID (match source with GrantSourceSystemRoot => true | _ => false end),
             logGrant tenantID sub obj act source (MatchedRule d))
        | _, _ => (Refuse tenantID 403, logDeny tenantID sub obj act (Reason d))
        end
    end.

(** ** Reads *)

Definition UserRoot : string := "root".

Definition isBuiltInSystemRole (subject role : string) : bool :=
  String.eqb subject UserRoot && String.eqb role SystemRoleRoot.

Definition HasSystemRole (p : option policies) (subject role : string) : bool :=
  match p with
  | None => isBuiltInSystemRole subject role
  | Some p => hasRoleLink p systemRoleGrouping subject role ""
  end.

Fixpoint roles_of_rules (rs : list rule) (tenant : string) : list string :=
  match rs with
  | [] => []
  | r :: rs =>
      if (length r <? 3) || negb (String.eqb (default ""%string (r !! 2)) tenant)
      then roles_of_rules rs tenant
      else
        let role := TrimSpace (default ""%string (r !! 1)) in
        if String.eqb role "" then roles_of_rules rs tenant
        else role :: roles_of_rules rs tenant
  end.

Definition RolesForSubject (s : policySet) (tenant subject : string) : list string :=
  let subject := TrimSpace subject in
  if String.eqb subject "" then []
  else
    let tenant := normalizeTenant tenant in
    roles_of_rules (filtered s tenantRoleGrouping 0 subject) tenant.

(** The values of a column, the first occurrence of each, of the rules that
    name a role. *)
Fixpoint named_column (rs : list rule) (column : nat) (seen : gset string) : list string :=
  match rs with
  | [] => []
  | r :: rs =>
      if (length r <? 3) || String.eqb (TrimSpace (default ""%string (r !! 1))) ""
      then named_column rs column seen
      else
        let v := TrimSpace (default ""%string (r !! column)) in
        if String.eqb v "" then named_column rs column seen
        else if decide (v ∈ seen) then named_column rs column seen
        else v :: named_column rs column ({[v]} ∪ seen)
  end.

Definition SubjectsInTenant (s : policySet) (tenant : string) : list string :=
  let tenant := normalizeTenant tenant in
  named_column (filtered s tenantRoleGrouping 2 tenant) 0 ∅.

Definition TenantsForSubject (s : policySet) (subject : string) : list string :=
  let subject := TrimSpace subject in
  if String.eqb subject "" then []
  else merge_sort string_le (named_column (filtered s tenantRoleGrouping 0 subject) 2 ∅).

(** ** What they answer *)

(** Allowed by one of the grants, in a tenant. *)
Definition granted (s : policySet) (tenant subject object action : string) : Prop :=
  is_system_root s subject \/ is_tenant_admin s tenant subject \/
  exists r, r ∈ rules_of s policyKind /\ matcher s tenant subject object action r.

Lemma authorize_grants s tenant subject object action pol o :
  sized s -> subject <> ""%string -> rebuildDerived (Some s) = Some pol ->
  authorize pol tenant subject object action = Ok o ->
  match o with
  | Some (source, _) =>
      granted s tenant subject object action /\
      (source = GrantSourceSystemRoot <-> is_system_root s subject)
  | None => ~ granted s tenant subject object action
  end.
Proof.
  intros Hs Hsub Hpol E. destruct (buildRoleGraph_ok s Hs) as (graph & Hg & _).
  simpl in Hpol. rewrite Hg in Hpol. injection Hpol as <-.
  pose proof (authorize_ok s graph Hs Hg tenant subject object action Hsub) as Hok.
  rewrite E in Hok. unfold granted. destruct o as [[source m]|]; simpl in Hok.
  - destruct source, m as [r|]; try done.
    + split; [by left|done].
    + destruct Hok as [Hr Ha]. split; [tauto|]. by split.
    + destruct Hok as (Hr & _ & Hin & Hm & _). split; [right; right; eauto|]. by split.
    + destruct Hok as (Hr & _ & _ & Hin & Hm). split; [right; right; eauto|]. by split.
  - destruct Hok as (Hr & Ha & Hno). intros [?|[?|(r & Hin & Hm)]]; [done..|]. by apply (Hno r).
Qed.

(** C2: [Enforce] lets a request proceed exactly when the subject is named
    and granted the action in the tenant it acts in, the default one when it
    has none; the data it may reach spans tenants exactly when the grant
    does; a refusal is a denial, or an error of this process that is never
    read as a permission; and without a policy set every request is refused. *)
Theorem Enforce_decides (s : policySet) (pol : policies) (subject : Subject) (obj act : string)
    (Hs : sized s) (Hpol : rebuildDerived (Some s) = Some pol) :
  let sub := TrimSpace (UserID subject) in
  let tenant := normalizeTenant (TenantID subject) in
  match (Enforce (Some pol) subject obj act).1 with
  | Proceed t across =>
      t = tenant /\ sub <> ""%string /\ granted s tenant sub obj act /\
      (across = true <-> is_system_root s sub)
  | Refuse t status =>
      (status = 403 /\ (sub = ""%string \/ t = tenant /\ ~ granted s tenant sub obj act)) \/
      (status = 500 /\ exists e, authorize pol tenant sub obj act = Err e)
  end%Z /\
  exists t, (Enforce None subject obj act).1 = Refuse t 403.
Proof.
  intros sub tenant. split.
  - unfold Enforce. fold sub. destruct (String.eqb_spec sub "") as [E|Hsub]; [simpl; auto|].
    change (if String.eqb (TrimSpace (TenantID subject)) "" then DefaultTenant
            else TrimSpace (TenantID subject)) with tenant.
    unfold RBAC_Authorize, Authorize. cbn zeta.
    replace (normalizeTenant tenant) with tenant by (symmetry; apply normalizeTenant_idem).
    destruct (authorize pol tenant sub obj act) as [o|e] eqn:E; [|simpl; eauto].
    pose proof (authorize_grants s tenant sub obj act pol o Hs Hsub Hpol E) as Hok.
    destruct o as [[source m]|]; simpl.
    + destruct Hok as [Hg Hr]. split; [done|]. split; [done|]. split; [done|].
      rewrite <- Hr. by destruct source.
    + auto.
  - unfold Enforce. destruct (String.eqb _ ""); eexists; reflexivity.
Qed.

Lemma elem_of_filtered s ptype i v r :
  r ∈ filtered s ptype i v <-> r ∈ rules_of s ptype /\ r !! i = Some v.
Proof. unfold filtered. rewrite list_elem_of_filter. tauto. Qed.

(** A rule of the tenant assignments that names a role. *)
Definition names_role (r : rule) : Prop :=
  3 <= length r /\ TrimSpace (default ""%string (r !! 1)) <> ""%string.

Lemma named_column_ok rs column seen :
  NoDup (named_column rs column seen) /\
  forall v, v ∈ named_column rs column seen <->
    v <> ""%string /\ v ∉ seen /\
    exists r, r ∈ rs /\ names_role r /\ v = TrimSpace (default ""%string (r !! column)).
Proof.
  revert seen. induction rs as [|r rs IH]; intros seen; simpl.
  { split; [constructor|]. intros v. split; [by intros []%elem_of_nil|].
    by intros (_ & _ & r & []%elem_of_nil & _). }
  assert (forall (P : rule -> Prop), (exists r', r' ∈ r :: rs /\ P r') <-> P r \/ exists r', r' ∈ rs /\ P r') as Hex.
  { intros P. setoid_rewrite elem_of_cons. split.
    - intros (r' & [->|Hr] & HP); [by left|]. right. eauto.
    - intros [HP|(r' & Hr & HP)]; eauto. }
  setoid_rewrite Hex.
  destruct (_ || _) eqn:E.
  { destruct (IH seen) as [Hn Hx]. split; [done|]. intros v. rewrite Hx.
    assert (~ names_role r) as Hno.
    { intros [Hl Hne]. apply orb_true_iff in E as [E%Nat.ltb_lt|E%String.eqb_eq]; [lia|done]. }
    tauto. }
  assert (names_role r) as Hyes.
  { apply orb_false_iff in E as [E1%Nat.ltb_ge E2%String.eqb_neq]. by split. }
  clear E. set (w := TrimSpace (default ""%string (r !! column))) in *.
  destruct (String.eqb_spec w "") as [Ew|Hw].
  { destruct (IH seen) as [Hn Hx]. split; [done|]. intros v. rewrite Hx. split; [tauto|].
    intros (Hv & Hs & [(_ & ->)|?]); [by subst|tauto]. }
  case_decide as Hin.
  { destruct (IH seen) as [Hn Hx]. split; [done|]. intros v. rewrite Hx. split; [tauto|].
    intros (Hv & Hs & [(_ & ->)|?]); [done|tauto]. }
  destruct (IH ({[w]} ∪ seen)) as [Hn Hx]. split.
  { apply NoDup_cons. split; [|done]. rewrite Hx. intros (_ & Hnot & _). apply Hnot.
    apply elem_of_union_l, elem_of_singleton_2. done. }
  intros v. rewrite elem_of_cons, Hx, not_elem_of_union, not_elem_of_singleton.
  destruct (decide (v = w)) as [->|Hne]; [|tauto]. split; [|by left]. intros _. auto.
Qed.

Lemma roles_of_rules_ok rs tenant role :
  role ∈ roles_of_rules rs tenant <->
  role <> ""%string /\ exists r, r ∈ rs /\ 3 <= length r /\ r !! 2 = Some tenant /\
    role = TrimSpace (default ""%string (r !! 1)).
Proof.
  induction rs as [|r rs IH]; simpl.
  { split; [by intros []%elem_of_nil|]. by intros (_ & r & []%elem_of_nil & _). }
  setoid_rewrite elem_of_cons.
  destruct (_ || _) eqn:E.
  - rewrite IH. split; [intros (? & r' & ? & ?); eauto 6|].
    intros (Hne & r' & [->|Hr] & Hl & Ht & Hro); [|eauto 6].
    apply orb_true_iff in E as [E%Nat.ltb_lt|E]; [lia|]. rewrite Ht in E. simpl in E.
    by rewrite String.eqb_refl in E.
  - apply orb_false_iff in E as [E1%Nat.ltb_ge E2%negb_false_iff%String.eqb_eq].
    assert (r !! 2 = Some tenant) as Ht.
    { destruct (lookup_lt_is_Some_2 r 2) as [v Hv]; [lia|]. rewrite Hv in *. simpl in E2. by subst. }
    destruct (String.eqb_spec (TrimSpace (default ""%string (r !! 1))) "") as [Er|Hr].
    + rewrite IH. split; [intros (? & r' & ? & ?); eauto 6|].
      intros (Hne & r' & [->|Hr'] & Hl & Ht' & Hro); [by subst|eauto 6].
    + rewrite elem_of_cons, IH. split.
      * intros [->|(? & r' & ? & ?)]; [|eauto 6]. split; [done|]. exists r. auto.
      * intros (Hne & r' & [->|Hr'] & Hl & Ht' & Hro); [by left|]. right. eauto 6.
Qed.

Lemma sized_three s r :
  sized s -> r ∈ rules_of s tenantRoleGrouping -> exists a b c, r = [a; b; c].
Proof.
  intros Hs Hr. specialize (Hs tenantRoleGrouping 3 r eq_refl Hr).
  destruct r as [|a [|b [|c [|]]]]; try done. eauto.
Qed.

#[export] Instance string_le_total : Total string_le.
Proof. intros a b. apply String.leb_total. Qed.

(** The reads answer from the tenant assignments: the roles a subject
    holds in a tenant, the subjects a tenant's assignments name, each once,
    and the tenants a subject is assigned in, each once and sorted. *)
Lemma role_queries (s : policySet) (tenant subject v : string) (Hs : sized s) :
  let assigned a b c := [a; b; c] ∈ rules_of s tenantRoleGrouping in
  (v ∈ RolesForSubject s tenant subject <->
     TrimSpace subject <> ""%string /\ v <> ""%string /\
     exists role, assigned (TrimSpace subject) role (normalizeTenant tenant) /\ v = TrimSpace role) /\
  (v ∈ SubjectsInTenant s tenant <->
     v <> ""%string /\ exists name role, assigned name role (normalizeTenant tenant) /\
       TrimSpace role <> ""%string /\ v = TrimSpace name) /\
  NoDup (SubjectsInTenant s tenant) /\
  (v ∈ TenantsForSubject s subject <->
     TrimSpace subject <> ""%string /\ v <> ""%string /\
     exists role t, assigned (TrimSpace subject) role t /\
       TrimSpace role <> ""%string /\ v = TrimSpace t) /\
  NoDup (TenantsForSubject s subject) /\ Sorted string_le (TenantsForSubject s subject).
Proof.
  intros assigned.
  destruct (named_column_ok (filtered s tenantRoleGrouping 2 (normalizeTenant tenant)) 0 ∅) as [Hn1 Hx1].
  destruct (named_column_ok (filtered s tenantRoleGrouping 0 (TrimSpace subject)) 2 ∅) as [Hn2 Hx2].
  split; [|split; [|split; [done|split; [|split]]]].
  - unfold RolesForSubject. destruct (String.eqb_spec (TrimSpace subject) "") as [->|Hsub].
    { split; [by intros []%elem_of_nil|by intros [[] _]]. }
    rewrite roles_of_rules_ok. split.
    + intros (Hv & r & [Hr Hr0]%elem_of_filtered & _ & Ht & ->). split; [done|]. split; [done|].
      destruct (sized_three s r Hs Hr) as (a & b & c & ->). simplify_eq/=. by exists b.
    + intros (_ & Hv & role & Hin & ->). split; [done|]. eexists.
      split; [by apply elem_of_filtered|]. split; [simpl; lia|]. by split.
  - unfold SubjectsInTenant. rewrite Hx1. split.
    + intros (Hv & _ & r & [Hr Hr2]%elem_of_filtered & [_ Hne] & ->). split; [done|].
      destruct (sized_three s r Hs Hr) as (a & b & c & ->). simplify_eq/=. by exists a, b.
    + intros (Hv & name & role & Hin & Hne & ->). split; [done|]. split; [apply not_elem_of_empty|].
      eexists. split; [by apply elem_of_filtered|]. split; [split; [simpl; lia|done]|done].
  - unfold TenantsForSubject. destruct (String.eqb_spec (TrimSpace subject) "") as [->|Hsub].
    { split; [by intros []%elem_of_nil|by intros [[] _]]. }
    rewrite merge_sort_Permutation, Hx2. split.
    + intros (Hv & _ & r & [Hr Hr0]%elem_of_filtered & [_ Hne] & ->). split; [done|]. split; [done|].
      destruct (sized_three s r Hs Hr) as (a & b & c & ->). simplify_eq/=. by exists b, c.
    + intros (_ & Hv & role & t & Hin & Hne & ->). split; [done|]. split; [apply not_elem_of_empty|].
      eexists. split; [by apply elem_of_filtered|]. split; [split; [simpl; lia|done]|done].
  - unfold TenantsForSubject. destruct (String.eqb _ ""); [constructor|]. by rewrite merge_sort_Permutation.
  - unfold TenantsForSubject. destruct (String.eqb _ ""); [constructor|]. apply (Sorted_merge_sort _).
Qed.

(** ** Witnesses *)

Lemma Enforce_decides_witness :
  (Enforce (Some sample_policies) (mkSubject " alice" "Alice" "") "/api/posts/7" "PUT").1 =
    Proceed "default" false /\
  ~ is_system_root sample_set "alice".
Proof.
  assert ((Enforce (Some sample_policies) (mkSubject " alice" "Alice" "") "/api/posts/7" "PUT").1 = Proceed "default" false) as E
    by (vm_compute; reflexivity).
  split; [exact E|].
  destruct (Enforce_decides sample_set sample_policies (mkSubject " alice" "Alice" "") "/api/posts/7" "PUT"
    sample_set_sized ltac:(vm_compute; reflexivity)) as [H _].
  cbv zeta in H. rewrite E in H. destruct H as (_ & _ & _ & H).
  change (TrimSpace (UserID (mkSubject " alice" "Alice" ""))) with "alice" in H. intros Hr. apply H in Hr. discriminate Hr.
Defined.

Lemma role_queries_witness :
  sized sample_set /\ NoDup (SubjectsInTenant sample_set " default").
Proof.
  split; [exact sample_set_sized|].
  exact (proj1 (proj2 (proj2 (role_queries sample_set " default" "alice" "editor" sample_set_sized)))).
Defined.
