(* ===== verification/RbacWrites.v ===== *)
(** * Policy writes and reloads

    Models [authz/rbac/adapter.go], [mutation.go] and [reload.go]: the rows of
    the policy table, a batch of mutations as its two halves, storage and
    memory, and the steps of a process in which batches overlap.

    The database is outside the repository.  What is relied on: a table with
    a unique index on the columns, compared as bytes, whose conflicting
    inserts do nothing; deletes that report the rows they removed; and
    transactions whose changes show at their commit.  When a write has to
    wait for an uncommitted one is a parameter of the process. *)

From stdpp Require Import base list strings gmap sets sorting.
From Stdlib Require Import ZArith Lia Ascii.
From S2P Require Import Prelude RbacPolicies RbacDecision.

(** ** Rows *)

Definition ruleColumnCount : nat := 6.

Record policyRow : Set := mkPolicyRow { Ptype : string; values : list string }.

#[export] Instance policyRow_eq_dec : EqDecision policyRow.
Proof. solve_decision. Defined.

(** A rule spread across the value columns, the unused ones empty. *)
Definition newPolicyRow (ptype : string) (r : rule) : policyRow :=
  mkPolicyRow ptype (take ruleColumnCount (r ++ replicate ruleColumnCount ""%string)).

Inductive load_error : Set := NoPtype | UnknownPtype.

(** [policyRow.rule]: as many columns as the kind declares. *)
Definition row_rule (row : policyRow) : result load_error rule :=
  if String.eqb (Ptype row) "" then Err NoPtype
  else
    match ruleTokens (Ptype row) with
    | None => Err UnknownPtype
    | Some tokens => Ok (take tokens (values row))
    end.

Abbreviation table := (list policyRow).

Fixpoint load_rows (rows : table) (set : policySet) : result load_error policySet :=
  match rows with
  | [] => Ok set
  | row :: rows =>
      match row_rule row with
      | Err e => Err e
      | Ok r => load_rows rows (add set (Ptype row) [r]).1
      end
  end.
Definition loadPolicies (t : table) : result load_error policySet := load_rows t newPolicySet.

(** [addPolicies]: on conflict do nothing. *)
Fixpoint addPolicies (t : table) (ptype : string) (rs : list rule) : table :=
  match rs with
  | [] => t
  | r :: rs =>
      let row := newPolicyRow ptype r in
      addPolicies (if decide (row ∈ t) then t else t ++ [row]) ptype rs
  end.

Fixpoint removePoliciesCount (t : table) (ptype : string) (rs : list rule) (removed : Z) :
    table * Z :=
  match rs with
  | [] => (t, removed)
  | r :: rs =>
      let row := newPolicyRow ptype r in
      let kept := filter (fun x => x <> row) t in
      removePoliciesCount kept ptype rs (removed + Z.of_nat (length t - length kept))
  end.

(** The conditions of [removeFilteredPolicyCount] on one row. *)
Fixpoint columns_match (vs : list string) (position : nat) (fieldValues : list string) : bool :=
  match fieldValues with
  | [] => true
  | value :: fieldValues =>
      (String.eqb value "" || bool_decide (vs !! position = Some value))
      && columns_match vs (S position) fieldValues
  end.

Definition removeFilteredPolicyCount (t : table) (ptype : string) (fieldIndex : nat)
    (fieldValues : list string) : option (table * Z) :=
  if (ruleColumnCount <? fieldIndex + length fieldValues) then None
  else
    let hit row := String.eqb (Ptype row) ptype && columns_match (values row) fieldIndex fieldValues in
    let kept := filter (fun row => hit row = false) t in
    Some (kept, Z.of_nat (length t - length kept)).

(** ** Mutations *)

Inductive policyMutation : Type :=
| addRules (ptype : string) (rs : list rule)
| removeRules (ptype : string) (rs : list rule)
| filterRules (ptype : string) (fieldIndex : nat) (fieldValues : list string).

(** [validate]: no value may be empty, nor a filter without values. *)
Definition validate (m : policyMutation) : bool :=
  match m with
  | addRules _ rs | removeRules _ rs =>
      forallb (forallb (fun value => negb (String.eqb value ""))) rs
  | filterRules _ _ vs =>
      match vs with [] => false | _ => forallb (fun value => negb (String.eqb value "")) vs end
  end.

Definition storedCountUnknown : Z := -1.

(** [applyToStore]; [None] is a failing statement. *)
Fixpoint applyToStore (t : table) (ms : list policyMutation) : option (table * list Z) :=
  match ms with
  | [] => Some (t, [])
  | m :: ms =>
      '(t, count) ←
        match m with
        | addRules ptype rs => Some (addPolicies t ptype rs, storedCountUnknown)
        | removeRules ptype rs => Some (removePoliciesCount t ptype rs 0)
        | filterRules ptype i vs => removeFilteredPolicyCount t ptype i vs
        end;
      '(t, counts) ← applyToStore t ms;
      Some (t, count :: counts)
  end.

(** The memory half of one mutation, with the rules it affected. *)
Definition applyMutation (set : policySet) (m : policyMutation) : policySet * list rule :=
  match m with
  | addRules ptype rs => add set ptype rs
  | removeRules ptype rs => remove set ptype rs
  | filterRules ptype i vs => removeFiltered set ptype i vs
  end.

(** The replay of [applyMutations]: the set, and whether every count agreed. *)
Fixpoint replay (set : policySet) (ms : list policyMutation) (counts : list Z) :
    policySet * bool :=
  match ms, counts with
  | m :: ms, count :: counts =>
      let '(set, affected) := applyMutation set m in
      if negb (count =? storedCountUnknown)%Z && negb (count =? Z.of_nat (length affected))%Z
      then (set, false)
      else replay set ms counts
  | _, _ => (set, true)
  end.

(** ** Memory *)

(** What the policy lock guards, and the divergence flag. *)
Record memory : Type := mkMemory {
  policyRules : policySet;
  derived : policies;
  appliedSequence : nat;
  policiesDiverged : bool
}.

(** [reload]; the answer says whether it succeeded, [None] is a panic while
    deriving.  [readable] says whether the database answers. *)
Definition reload (t : table) (readable : bool) (m : memory) : option (memory * bool) :=
  if readable then
    match loadPolicies t with
    | Err _ => Some (m, false)
    | Ok set =>
        p ← rebuildDerived (Some set);
        Some (mkMemory set p (appliedSequence m) false, true)
    end
  else Some (m, false).

Definition recoverPolicies (t : table) (readable : bool) (m : memory) : option memory :=
  '(m, reloaded) ← reload t readable m;
  Some (if (reloaded : bool) then m
        else mkMemory (policyRules m) (derived m) (appliedSequence m) true).

(** [applyMutations]: an overtaken batch is not replayed, and a replay that
    stops leaves the set where it is; both answer that memory has to be
    rebuilt from storage. *)
Definition applyMutations (m : memory) (sequence : nat) (ms : list policyMutation)
    (counts : list Z) : option (memory * bool) :=
  let overtaken := sequence <? appliedSequence m in
  let applied := Nat.max (appliedSequence m) sequence in
  if overtaken then
    Some (mkMemory (policyRules m) (derived m) applied (policiesDiverged m), false)
  else
    match replay (policyRules m) ms counts with
    | (set, false) => Some (mkMemory set (derived m) applied (policiesDiverged m), false)
    | (set, true) =>
        p ← rebuildDerived (Some set);
        Some (mkMemory set p applied (policiesDiverged m), true)
    end.

(** ** The process *)

(** A transaction that has written its batch: the rows its statements
    inserted and deleted, the counts they reported, and its number once it
    has one. *)
Record txn : Type := mkTxn {
  t_batch : list policyMutation; t_inserted : table; t_deleted : table;
  t_counts : list Z; t_seq : option nat
}.

(** The rows once the transaction has committed. *)
Definition commit (t : table) (x : txn) : table :=
  filter (fun row => row ∉ t_deleted x) t ++ t_inserted x.

Definition write_txn (t t' : table) (ms : list policyMutation) (counts : list Z) : txn :=
  mkTxn ms (filter (fun row => row ∉ t) t') (filter (fun row => row ∉ t') t) counts None.

Definition number (sequence : nat) (x : txn) : txn :=
  mkTxn (t_batch x) (t_inserted x) (t_deleted x) (t_counts x) (Some sequence).

(** A process: the committed rows; the transactions that have written and
    not committed; those committed whose memory half has still to run; the
    recoveries still to run; the counter the batches are numbered from; and
    its memory. *)
Record process : Type := mkProcess {
  stored : table;
  open : list txn;
  pending : list txn;
  recovering : nat;
  policySequence : nat;
  mem : memory
}.

(** Whether a mutation is about a rule of a kind. *)
Definition touches (m : policyMutation) (x : string * rule) : bool :=
  match m with
  | addRules ptype rs | removeRules ptype rs => bool_decide (x.1 = ptype) && bool_decide (x.2 ∈ rs)
  | filterRules ptype i vs => bool_decide (x.1 = ptype) && ruleMatchesFilter x.2 i vs
  end.

Definition touched (ms : list policyMutation) (x : string * rule) : bool :=
  existsb (fun m => touches m x) ms.

(** The batches the process issues, and which uncommitted transactions a
    batch has to wait for in the database. *)
Section Steps.
Context (issued : list policyMutation -> Prop)
        (waits : table -> txn -> list policyMutation -> bool).

(** [mutate] in a transaction of its own: its rows written, numbered,
    committed, or rolled back at any point; then its memory half, and the
    recovery it may ask for. *)
Inductive step : process -> process -> Prop :=
| step_write w ms t' counts :
    issued ms -> ms <> [] -> forallb validate ms = true ->
    forallb (fun t => negb (waits (stored w) t ms)) (open w) = true ->
    applyToStore (stored w) ms = Some (t', counts) ->
    step w (mkProcess (stored w) (open w ++ [write_txn (stored w) t' ms counts]) (pending w)
      (recovering w) (policySequence w) (mem w))
| step_number w l1 t l2 :
    open w = l1 ++ t :: l2 -> t_seq t = None ->
    step w (mkProcess (stored w) (l1 ++ number (S (policySequence w)) t :: l2) (pending w)
      (recovering w) (S (policySequence w)) (mem w))
| step_rollback w l1 t l2 :
    open w = l1 ++ t :: l2 ->
    step w (mkProcess (stored w) (l1 ++ l2) (pending w) (recovering w) (policySequence w) (mem w))
| step_commit w l1 t l2 :
    open w = l1 ++ t :: l2 -> t_seq t <> None ->
    step w (mkProcess (commit (stored w) t) (l1 ++ l2) (pending w ++ [t]) (recovering w)
      (policySequence w) (mem w))
| step_apply w l1 t l2 sequence m' applied :
    pending w = l1 ++ t :: l2 -> t_seq t = Some sequence ->
    applyMutations (mem w) sequence (t_batch t) (t_counts t) = Some (m', applied) ->
    step w (mkProcess (stored w) (open w) (l1 ++ l2)
      (if applied then recovering w else S (recovering w)) (policySequence w) m')
| step_recover w n readable m' :
    recovering w = S n ->
    recoverPolicies (stored w) readable (mem w) = Some m' ->
    step w (mkProcess (stored w) (open w) (pending w) n (policySequence w) m')
| step_reload w readable m' reloaded :
    (* the periodic reload, the retry of a diverged process, [ReloadPolicies] *)
    reload (stored w) readable (mem w) = Some (m', reloaded) ->
    step w (mkProcess (stored w) (open w) (pending w) (recovering w) (policySequence w) m').

Definition reachable (w0 w : process) : Prop := steps step w0 w.
End Steps.

(** After [Init]: the rules loaded, nothing written. *)
Definition initial (t : table) (set : policySet) (p : policies) : process :=
  mkProcess t [] [] 0 0 (mkMemory set p 0 false).

(** ** The entry points *)

Definition authenticatedPolicyTenant : string := "*".

Record Permission : Set := mkPermission { Object : string; Action : string }.

#[export] Instance Permission_eq_dec : EqDecision Permission.
Proof. solve_decision. Defined.

Fixpoint unique_permissions (ps : list Permission) (seen : list Permission) : list Permission :=
  match ps with
  | [] => []
  | p :: ps =>
      if decide (p ∈ seen) then unique_permissions ps seen
      else p :: unique_permissions ps (p :: seen)
  end.

(** The order of [slices.SortFunc]: by object, then by action. *)
Definition permission_le (a b : Permission) : Prop :=
  match String.compare (Object a) (Object b) with
  | Lt => True
  | Gt => False
  | Eq => String.leb (Action a) (Action b) = true
  end.

#[export] Instance permission_le_dec a b : base.Decision (permission_le a b).
Proof. unfold permission_le. destruct (String.compare _ _); apply _. Defined.

Definition permissionPolicies (tenant role : string) (ps : list Permission) : list rule :=
  map (fun p => [tenant; role; Object p; Action p; EffectAllow])
    (merge_sort permission_le (unique_permissions ps [])).

Definition replacePermissions (tenant role : string) (ps : list Permission) : list policyMutation :=
  filterRules policyKind 0 [tenant; role]
    :: match permissionPolicies tenant role ps with
       | [] => []
       | rs => [addRules policyKind rs]
       end.

Inductive write_error : Set := ErrReservedRole | ErrSubjectIsRole.

Definition SetRolePermissions (tenant role : string) (ps : list Permission) :
    result write_error (list policyMutation) :=
  if String.eqb role RoleAuthenticated then Err ErrReservedRole
  else Ok (replacePermissions (normalizeTenant tenant) role ps).

Definition SetPermissionsForAuthenticated (ps : list Permission) : list policyMutation :=
  replacePermissions authenticatedPolicyTenant RoleAuthenticated ps.

Definition RemoveRole (tenant role : string) : list policyMutation :=
  let tenant := normalizeTenant tenant in
  [filterRules policyKind 0 [tenant; role]; filterRules tenantRoleGrouping 1 [role; tenant]].

Definition AssignRole (tenant subject role : string) : result write_error (list policyMutation) :=
  let tenant := normalizeTenant tenant in
  if String.eqb subject role then Err ErrSubjectIsRole
  else Ok [addRules tenantRoleGrouping [[subject; role; tenant]]].

Definition UnassignRole (tenant subject role : string) : list policyMutation :=
  [removeRules tenantRoleGrouping [[subject; role; normalizeTenant tenant]]].

Definition AssignSystemRole (subject role : string) : result write_error (list policyMutation) :=
  if String.eqb subject role then Err ErrSubjectIsRole
  else Ok [addRules systemRoleGrouping [[subject; role]]].

Definition UnassignSystemRole (subject role : string) : list policyMutation :=
  [removeRules systemRoleGrouping [[subject; role]]].

Definition RemoveSubject (subject : string) : list policyMutation :=
  [filterRules tenantRoleGrouping 0 [subject]; filterRules systemRoleGrouping 0 [subject]].
