(* ===== verification/RbacWritesSpec.v ===== *)
(** * Memory follows storage

    The two halves of a batch have the same effect on every rule, and a
    process whose overlapping batches wait for each other in the database
    decides, once its batches are through, from exactly the stored rules. *)

From stdpp Require Import base list strings gmap sets sorting.
From Stdlib Require Import ZArith Lia Ascii.
From S2P Require Import Prelude RbacPolicies RbacRoles RbacDecision RbacWrites.

Abbreviation item := (string * rule)%type.

(** ** Rules both sides can tell apart *)

Fixpoint nul_free (s : string) : bool :=
  match s with
  | EmptyString => true
  | String a s => negb (Ascii.eqb a (ascii_of_nat 0)) && nul_free s
  end.

(** A rule of a declared kind and its size, without the separator byte. *)
Definition good_item (x : item) : Prop :=
  exists n, ruleTokens x.1 = Some n /\ length x.2 = n /\ Forall (fun v => nul_free v = true) x.2.

Lemma append_nul x : String.append nul x = String (ascii_of_nat 0) x.
Proof. reflexivity. Qed.

Lemma append_cons c a x : String.append (String c a) x = String c (String.append a x).
Proof. reflexivity. Qed.

Lemma app_nul_inj a b x y :
  nul_free a = true -> nul_free b = true ->
  String.append a (String.append nul x) = String.append b (String.append nul y) -> a = b /\ x = y.
Proof.
  rewrite !append_nul.
  revert b. induction a as [|c a IH]; intros [|d b] Ha Hb E; rewrite ?append_cons in E;
    try (change (String.append "" ?z) with z in E).
  - by injection E as ->.
  - injection E as <- _. done.
  - injection E as -> _. done.
  - apply andb_prop in Ha as [_ Ha]. apply andb_prop in Hb as [_ Hb].
    injection E as -> E. by destruct (IH b Ha Hb E) as [-> ->].
Qed.

Lemma concat_nul_inj l1 l2 :
  length l1 = length l2 ->
  Forall (fun v => nul_free v = true) l1 -> Forall (fun v => nul_free v = true) l2 ->
  ruleKey l1 = ruleKey l2 -> l1 = l2.
Proof.
  unfold ruleKey. revert l2.
  induction l1 as [|a l1 IH]; intros [|b l2] Hlen H1 H2 E; try done.
  apply Forall_cons in H1 as [Ha H1]. apply Forall_cons in H2 as [Hb H2].
  destruct l1 as [|a' l1], l2 as [|b' l2]; [simpl in E; by subst|simpl in Hlen; lia..|].
  change (String.append a (String.append nul (String.concat nul (a' :: l1))) =
          String.append b (String.append nul (String.concat nul (b' :: l2)))) in E.
  apply app_nul_inj in E as [-> E]; [|done..]. f_equal. apply IH; [|done..]. simpl in Hlen |- *; lia.
Qed.

Lemma ruleKey_inj p r1 r2 :
  good_item (p, r1) -> good_item (p, r2) -> ruleKey r1 = ruleKey r2 -> r1 = r2.
Proof.
  intros (n & Hn & Hl1 & Hf1) (n' & Hn' & Hl2 & Hf2). simpl in *. simplify_eq.
  apply concat_nul_inj; [congruence|done|done].
Qed.

Lemma ruleTokens_le p n : ruleTokens p = Some n -> n <= ruleColumnCount.
Proof.
  unfold ruleTokens, ruleColumnCount.
  destruct (String.eqb p _); [intros [= <-]; lia|].
  destruct (String.eqb p _); [intros [= <-]; lia|].
  destruct (String.eqb p _); [intros [= <-]; lia|done].
Qed.

Lemma ruleTokens_not_empty n : ruleTokens "" <> Some n.
Proof. done. Qed.

Lemma row_values p r n :
  ruleTokens p = Some n -> length r = n -> take n (values (newPolicyRow p r)) = r.
Proof.
  intros Hn <-. simpl. rewrite take_take.
  rewrite Nat.min_l by by eapply ruleTokens_le. apply take_app_length.
Qed.

Lemma newPolicyRow_inj x y :
  good_item x -> good_item y ->
  newPolicyRow x.1 x.2 = newPolicyRow y.1 y.2 -> x = y.
Proof.
  destruct x as [p r], y as [q r']. intros (n & Hn & Hl & _) (n' & Hn' & Hl' & _) E. simpl in *.
  assert (p = q) as -> by (apply (f_equal Ptype) in E; done).
  rewrite Hn in Hn'. injection Hn' as Hn'. f_equal.
  rewrite <- (row_values q r n), <- (row_values q r' n) by (done || congruence). by rewrite E.
Qed.

Lemma row_rule_ok x : good_item x -> row_rule (newPolicyRow x.1 x.2) = Ok x.2.
Proof.
  destruct x as [p r]. intros (n & Hn & Hl & _). simpl in *. unfold row_rule. simpl.
  destruct (String.eqb_spec p "") as [->|_]; [by apply ruleTokens_not_empty in Hn|].
  rewrite Hn. f_equal. by apply (row_values p).
Qed.

(** ** Membership *)

Definition in_store (t : table) (x : item) : bool := bool_decide (newPolicyRow x.1 x.2 ∈ t).
Definition in_mem (s : policySet) (x : item) : bool := bool_decide (x.2 ∈ rules_of s x.1).

Definition good_table (t : table) : Prop :=
  forall row, row ∈ t -> exists x, good_item x /\ row = newPolicyRow x.1 x.2.

Definition good_set (s : policySet) : Prop :=
  wf s /\ forall p r, r ∈ rules_of s p -> good_item (p, r).

Definition good_mutation (m : policyMutation) : Prop :=
  match m with
  | addRules p rs | removeRules p rs => forall r, r ∈ rs -> good_item (p, r)
  | filterRules _ _ _ => True
  end.

Definition good_batch (ms : list policyMutation) : Prop := Forall good_mutation ms.

Definition is_add (m : policyMutation) : bool :=
  match m with addRules _ _ => true | _ => false end.

(** Whether a rule is held after a mutation, or a batch, given before. *)
Definition outcome1 (m : policyMutation) (x : item) (v : bool) : bool :=
  if touches m x then is_add m else v.
Definition outcome (ms : list policyMutation) (x : item) (v : bool) : bool :=
  foldl (fun v m => outcome1 m x v) v ms.

Lemma outcome_untouched ms x v : touched ms x = false -> outcome ms x v = v.
Proof.
  revert v. induction ms as [|m ms IH]; intros v; simpl; [done|].
  intros [Hm H]%orb_false_iff. unfold outcome1. rewrite Hm. by apply IH.
Qed.

Lemma outcome_touched ms x v v' : touched ms x = true -> outcome ms x v = outcome ms x v'.
Proof.
  revert v v'. induction ms as [|m ms IH]; intros v v'; simpl; [done|].
  intros [Hm|H]%orb_true_iff; [|by apply IH]. unfold outcome1. by rewrite Hm.
Qed.

(** *** In storage *)

Lemma elem_of_addPolicies t p rs row :
  row ∈ addPolicies t p rs <-> row ∈ t \/ exists r, r ∈ rs /\ row = newPolicyRow p r.
Proof.
  revert t. induction rs as [|r rs IH]; intros t; simpl.
  { setoid_rewrite elem_of_nil. naive_solver. }
  rewrite IH. setoid_rewrite elem_of_cons. case_decide as Hin; [naive_solver|].
  rewrite elem_of_app, list_elem_of_singleton. naive_solver.
Qed.

Lemma elem_of_removePolicies t p rs n row :
  row ∈ (removePoliciesCount t p rs n).1 <-> row ∈ t /\ forall r, r ∈ rs -> row <> newPolicyRow p r.
Proof.
  revert t n. induction rs as [|r rs IH]; intros t n; simpl.
  { setoid_rewrite elem_of_nil. naive_solver. }
  rewrite IH, list_elem_of_filter. setoid_rewrite elem_of_cons. naive_solver.
Qed.

Lemma row_lookup p r i :
  length r <= ruleColumnCount -> i < ruleColumnCount ->
  values (newPolicyRow p r) !! i = Some (default ""%string (r !! i)).
Proof.
  intros Hr Hi. unfold newPolicyRow. cbn [values]. rewrite lookup_take_lt by done.
  destruct (r !! i) as [w|] eqn:E.
  - by apply lookup_app_l_Some.
  - apply lookup_ge_None in E. rewrite lookup_app_r by done. apply lookup_replicate_2. lia.
Qed.

(** The database's filter and the set's agree on a rule and its row. *)
Lemma columns_match_ok x i vs :
  good_item x -> i + length vs <= ruleColumnCount ->
  columns_match (values (newPolicyRow x.1 x.2)) i vs = ruleMatchesFilter x.2 i vs.
Proof.
  destruct x as [p r]. intros (n & Hn & Hl & _). apply ruleTokens_le in Hn. cbn [fst snd] in *.
  revert i. induction vs as [|v vs IH]; intros i Hi; [done|].
  cbn [columns_match ruleMatchesFilter]. cbn [length] in Hi. rewrite IH by lia.
  destruct (String.eqb_spec v "") as [->|Hv]; [done|].
  rewrite row_lookup by lia. destruct (r !! i) as [w|]; simpl.
  - destruct (String.eqb_spec w v) as [->|Hw].
    + by rewrite bool_decide_eq_true_2.
    + rewrite bool_decide_eq_false_2; [done|congruence].
  - rewrite bool_decide_eq_false_2; [done|congruence].
Qed.

Lemma apply_store1_ok t m t' :
  good_table t -> good_mutation m ->
  match m with
  | addRules ptype rs => Some (addPolicies t ptype rs, storedCountUnknown)
  | removeRules ptype rs => Some (removePoliciesCount t ptype rs 0)
  | filterRules ptype i vs => removeFilteredPolicyCount t ptype i vs
  end = Some t' ->
  good_table t'.1 /\ forall x, good_item x -> in_store t'.1 x = outcome1 m x (in_store t x).
Proof.
  intros Ht Hm. destruct m as [p rs|p rs|p i vs]; simpl in *.
  - intros [= <-]. simpl. split.
    + intros row [Hr|(r & Hr & ->)]%elem_of_addPolicies; [by apply Ht|].
      exists (p, r). split; [by apply Hm|done].
    + intros x Hx. unfold outcome1, in_store. simpl.
      destruct (bool_decide (x.1 = p) && bool_decide (x.2 ∈ rs)) eqn:E.
      * apply andb_prop in E as [E1%bool_decide_eq_true E2%bool_decide_eq_true].
        apply bool_decide_eq_true, elem_of_addPolicies. right. exists x.2. by rewrite E1.
      * apply bool_decide_ext. rewrite elem_of_addPolicies. split; [|by left].
        intros [?|(r & Hr & Er)]; [done|]. exfalso.
        change (newPolicyRow x.1 x.2 = newPolicyRow (p, r).1 (p, r).2) in Er.
        apply newPolicyRow_inj in Er as ->; [|done|by apply Hm]. simpl in E.
        by rewrite !bool_decide_eq_true_2 in E.
  - intros [= <-]. split.
    + intros row [Hr _]%elem_of_removePolicies. by apply Ht.
    + intros x Hx. unfold outcome1, in_store. simpl.
      destruct (bool_decide (x.1 = p) && bool_decide (x.2 ∈ rs)) eqn:E.
      * apply andb_prop in E as [E1%bool_decide_eq_true E2%bool_decide_eq_true].
        apply bool_decide_eq_false. rewrite elem_of_removePolicies.
        intros [_ Hno]. apply (Hno x.2 E2). by rewrite E1.
      * apply bool_decide_ext. rewrite elem_of_removePolicies. split; [tauto|].
        intros Hin. split; [done|]. intros r Hr Er.
        change (newPolicyRow x.1 x.2 = newPolicyRow (p, r).1 (p, r).2) in Er.
        apply newPolicyRow_inj in Er as ->; [|done|by apply Hm]. simpl in E.
        by rewrite !bool_decide_eq_true_2 in E.
  - unfold removeFilteredPolicyCount.
    destruct (Nat.ltb_spec ruleColumnCount (i + length vs)); [done|]. intros [= <-]. simpl. split.
    + intros row [_ Hr]%list_elem_of_filter. by apply Ht.
    + intros x Hx. unfold outcome1, in_store. simpl.
      assert ((String.eqb x.1 p && columns_match (values (newPolicyRow x.1 x.2)) i vs) =
              (bool_decide (x.1 = p) && ruleMatchesFilter x.2 i vs)) as Ehit.
      { rewrite columns_match_ok by done. f_equal. destruct (String.eqb_spec x.1 p).
        - by rewrite bool_decide_eq_true_2.
        - by rewrite bool_decide_eq_false_2. }
      simpl in Ehit. destruct (bool_decide (x.1 = p) && ruleMatchesFilter x.2 i vs) eqn:E.
      * apply bool_decide_eq_false. rewrite list_elem_of_filter. simpl. rewrite Ehit. by intros [].
      * apply bool_decide_ext. rewrite list_elem_of_filter. simpl. rewrite Ehit. tauto.
Qed.

Lemma applyToStore_ok ms t t' counts :
  good_table t -> good_batch ms -> applyToStore t ms = Some (t', counts) ->
  good_table t' /\ length counts = length ms /\
  forall x, good_item x -> in_store t' x = outcome ms x (in_store t x).
Proof.
  revert t counts. induction ms as [|m ms IH]; intros t counts Ht Hms; simpl.
  { intros [= <- <-]. done. }
  apply Forall_cons in Hms as [Hm Hms].
  intros ([t1 c1] & E1 & ([t2 c2] & E2 & [= <- <-])%bind_Some)%bind_Some.
  destruct (apply_store1_ok t m (t1, c1) Ht Hm E1) as [Ht1 H1].
  destruct (IH t1 c2 Ht1 Hms E2) as (Ht2 & Hlen & H2).
  split; [done|]. split; [simpl; lia|].
  intros x Hx. rewrite H2, H1 by done. done.
Qed.

(** *** In memory *)

Lemma fresh_in rs seen r : r ∈ fresh rs seen -> r ∈ rs.
Proof.
  revert seen. induction rs as [|r0 rs IH]; intros seen; simpl; [done|].
  case_decide; [intros H'; right; by eapply IH|].
  intros [->|Hr]%elem_of_cons; [by left|]. right. by eapply IH.
Qed.

Lemma fresh_key rs seen r :
  r ∈ rs -> ruleKey r ∈ seen \/ exists r', r' ∈ fresh rs seen /\ ruleKey r' = ruleKey r.
Proof.
  revert seen. induction rs as [|r0 rs IH]; intros seen; simpl; [by intros []%elem_of_nil|].
  intros [->|Hr]%elem_of_cons.
  - case_decide; [by left|]. right. exists r0. split; [by left|done].
  - case_decide; [by apply IH|].
    destruct (IH ({[ruleKey r0]} ∪ seen) Hr) as [[E%elem_of_singleton|?]%elem_of_union|(r' & Hr' & E)].
    + right. exists r0. split; [by left|done].
    + by left.
    + right. exists r'. split; [by right|done].
Qed.

Lemma key_in_keys p rs r :
  (forall r', r' ∈ rs -> good_item (p, r')) -> good_item (p, r) ->
  ruleKey r ∈ keys rs -> r ∈ rs.
Proof.
  intros Hrs Hr Hk. unfold keys in Hk. rewrite elem_of_list_to_set in Hk.
  apply list_elem_of_fmap in Hk as (r' & E & Hr').
  rewrite (ruleKey_inj p r r'); [done|done|by apply Hrs|done].
Qed.

Lemma bool_decide_iff_outcome (b : bool) (P Q : Prop) `{!base.Decision P, !base.Decision Q} (c : bool) :
  (b = true -> P <-> c = true) -> (b = false -> P <-> Q) ->
  bool_decide P = if b then c else bool_decide Q.
Proof.
  intros H1 H2. destruct b.
  - specialize (H1 eq_refl). destruct c.
    + apply bool_decide_eq_true. tauto.
    + apply bool_decide_eq_false. intros HP. destruct H1 as [H1 _]. by apply H1 in HP.
  - by apply bool_decide_ext, H2.
Qed.

Lemma touches_iff m x :
  touches m x = true <->
  match m with
  | addRules p rs | removeRules p rs => x.1 = p /\ x.2 ∈ rs
  | filterRules p i vs => x.1 = p /\ ruleMatchesFilter x.2 i vs = true
  end.
Proof.
  destruct m; simpl; rewrite andb_true_iff, ?bool_decide_eq_true; done.
Qed.

(** What one mutation leaves of the rules of its own kind, and of the rest. *)
Lemma applyMutation_rules s m :
  good_set s -> good_mutation m ->
  wf (applyMutation s m).1 /\
  forall x, good_item x ->
    (x.2 ∈ rules_of (applyMutation s m).1 x.1 <->
     if touches m x then is_add m = true else x.2 ∈ rules_of s x.1).
Proof.
  intros [Hwf Hs] Hm. destruct m as [p rs|p rs|p i vs]; cbn [applyMutation is_add].
  - pose proof (add_ok s p rs Hwf) as Hok. destruct (add s p rs) as [s' a]. cbn [fst].
    destruct Hok as (Hwf' & -> & Hp & Hother). split; [done|]. intros [q r] Hx. cbn [fst snd].
    destruct (touches _ _) eqn:E; rewrite ?touches_iff in E.
    + destruct E as [E Hr]. cbn [fst snd] in E, Hr. subst q. rewrite Hp, elem_of_app. split; [done|]. intros _.
      destruct (fresh_key rs (keys (rules_of s p)) r Hr) as [Hk|(r' & Hr' & Ek)].
      * left. eapply key_in_keys; [intros r' Hr'; by apply Hs|done|done].
      * right. rewrite <- (ruleKey_inj p r' r); [done| |done|done]. by apply Hm, (fresh_in _ _ _ Hr').
    + apply not_true_iff_false in E. rewrite touches_iff in E. cbn [fst snd] in E.
      destruct (decide (q = p)) as [->|Hq]; [|by rewrite Hother].
      rewrite Hp, elem_of_app. split; [|by left]. intros [?|Hf%fresh_in]; [done|tauto].
  - pose proof (remove_ok s p rs Hwf) as Hok. destruct (remove s p rs) as [s' a]. cbn [fst].
    destruct Hok as (Hwf' & _ & Hp & Hother). split; [done|]. intros [q r] Hx. cbn [fst snd].
    destruct (touches _ _) eqn:E; rewrite ?touches_iff in E.
    + destruct E as [E Hr]. cbn [fst snd] in E, Hr. subst q. rewrite Hp, list_elem_of_filter. split; [|done].
      intros [Hk _]. by apply elem_of_keys in Hr.
    + apply not_true_iff_false in E. rewrite touches_iff in E. cbn [fst snd] in E.
      destruct (decide (q = p)) as [->|Hq]; [|by rewrite Hother].
      rewrite Hp, list_elem_of_filter. split; [tauto|]. intros Hin. split; [|done].
      intros Hk. apply E. split; [done|]. by eapply key_in_keys.
  - pose proof (removeFiltered_ok s p i vs Hwf) as Hok.
    destruct (removeFiltered s p i vs) as [s' a]. cbn [fst].
    destruct Hok as (Hwf' & _ & Hp & Hother). split; [done|]. intros [q r] Hx. cbn [fst snd].
    destruct (touches _ _) eqn:E; rewrite ?touches_iff in E.
    + destruct E as [E Hr]. cbn [fst snd] in E, Hr. subst q. rewrite Hp, list_elem_of_filter. split; [|done].
      intros [Hn _]. by destruct Hn.
    + apply not_true_iff_false in E. rewrite touches_iff in E. cbn [fst snd] in E.
      destruct (decide (q = p)) as [->|Hq]; [|by rewrite Hother].
      rewrite Hp, list_elem_of_filter. tauto.
Qed.

Lemma applyMutation_ok s m :
  good_set s -> good_mutation m ->
  good_set (applyMutation s m).1 /\
  forall x, good_item x -> in_mem (applyMutation s m).1 x = outcome1 m x (in_mem s x).
Proof.
  intros Hs Hm. destruct (applyMutation_rules s m Hs Hm) as [Hwf H]. split.
  - split; [done|]. intros q r Hr. destruct Hs as [Hs0 Hs]. clear H.
    destruct m as [p rs|p rs|p i vs]; cbn [applyMutation] in *.
    + pose proof (add_ok s p rs Hs0) as Hok. destruct (add s p rs) as [s' a].
      destruct Hok as (_ & -> & Hp & Hother). cbn [fst] in *.
      destruct (decide (q = p)) as [->|Hq]; [|apply Hs; by rewrite <- Hother].
      rewrite Hp in Hr. apply elem_of_app in Hr as [Hr|Hr%fresh_in]; [by apply Hs|by apply Hm].
    + pose proof (remove_ok s p rs Hs0) as Hok. destruct (remove s p rs) as [s' a].
      destruct Hok as (_ & _ & Hp & Hother). cbn [fst] in *.
      destruct (decide (q = p)) as [->|Hq]; [|apply Hs; by rewrite <- Hother].
      rewrite Hp in Hr. apply list_elem_of_filter in Hr as [_ Hr]. by apply Hs.
    + pose proof (removeFiltered_ok s p i vs Hs0) as Hok. destruct (removeFiltered s p i vs) as [s' a].
      destruct Hok as (_ & _ & Hp & Hother). cbn [fst] in *.
      destruct (decide (q = p)) as [->|Hq]; [|apply Hs; by rewrite <- Hother].
      rewrite Hp in Hr. apply list_elem_of_filter in Hr as [_ Hr]. by apply Hs.
  - intros x Hx. unfold in_mem, outcome1. specialize (H x Hx).
    apply bool_decide_iff_outcome; intros E; by rewrite E in H.
Qed.

Lemma replay_ok ms counts s s' ok :
  good_set s -> good_batch ms -> length counts = length ms ->
  replay s ms counts = (s', ok) ->
  good_set s' /\
  (ok = true -> forall x, good_item x -> in_mem s' x = outcome ms x (in_mem s x)).
Proof.
  revert counts s. induction ms as [|m ms IH]; intros counts s Hs Hms Hlen; simpl.
  { intros [= <- <-]. done. }
  apply Forall_cons in Hms as [Hm Hms]. destruct counts as [|c counts]; [done|].
  destruct (applyMutation_ok s m Hs Hm) as [Hs1 H1].
  destruct (applyMutation s m) as [s1 affected]. cbn [fst] in *.
  destruct (negb _ && negb _); [intros [= <- <-]; done|]. intros E.
  destruct (IH counts s1 Hs1 Hms) as [Hs' H']; [simpl in Hlen; lia|done|].
  split; [done|]. intros Hok x Hx. by rewrite H', H1.
Qed.

Lemma good_set_sized s : good_set s -> sized s.
Proof.
  intros [_ Hs] p n r Hn Hr. destruct (Hs p r Hr) as (n' & Hn' & Hl & _). simpl in *. congruence.
Qed.

Lemma rebuildDerived_ok s : good_set s -> exists p, rebuildDerived (Some s) = Some p.
Proof.
  intros Hs. destruct (buildRoleGraph_ok s (good_set_sized s Hs)) as (graph & Hg & _).
  eexists. simpl. by rewrite Hg.
Qed.

Lemma newPolicySet_good : good_set newPolicySet.
Proof.
  split; [apply newPolicySet_wf|]. intros p r Hr. unfold rules_of in Hr. simpl in Hr.
  rewrite lookup_empty in Hr. by apply elem_of_nil in Hr.
Qed.

Lemma load_rows_ok rows s :
  good_table rows -> good_set s ->
  exists s', load_rows rows s = Ok s' /\ good_set s' /\
    forall x, good_item x -> in_mem s' x = in_mem s x || in_store rows x.
Proof.
  revert s. induction rows as [|row rows IH]; intros s Hrows Hs; simpl.
  { exists s. split; [done|]. split; [done|]. intros x _. unfold in_store.
    rewrite (bool_decide_eq_false_2 (_ ∈ [])) by apply not_elem_of_nil. by rewrite orb_false_r. }
  destruct (Hrows row) as ([p r] & Hx0 & ->); [by left|].
  rewrite row_rule_ok by done. cbn [fst snd].
  destruct (applyMutation_ok s (addRules p [r]) Hs) as [Hs1 H1].
  { intros r' ->%list_elem_of_singleton. done. }
  cbn [applyMutation] in *. change (Ptype (newPolicyRow p r)) with p.
  destruct (IH (add s p [r]).1) as (s' & E & Hs' & H'); [|done|].
  { intros row' Hrow'. apply Hrows. by right. }
  exists s'. split; [done|]. split; [done|]. intros x Hx. rewrite H', H1 by done.
  unfold in_store, outcome1. cbn [is_add].
  assert (touches (addRules p [r]) x = bool_decide (newPolicyRow x.1 x.2 = newPolicyRow p r)) as ->.
  { apply eq_true_iff_eq. rewrite touches_iff, bool_decide_eq_true, list_elem_of_singleton. split.
    - by intros [-> ->].
    - intros Er. change (newPolicyRow x.1 x.2 = newPolicyRow (p, r).1 (p, r).2) in Er.
      by apply newPolicyRow_inj in Er as ->. }
  case_bool_decide as E1; symmetry.
  - rewrite bool_decide_eq_true_2 by (rewrite E1; by left). by rewrite orb_true_r.
  - f_equal. apply bool_decide_ext. rewrite elem_of_cons. tauto.
Qed.

Lemma loadPolicies_ok t :
  good_table t ->
  exists s, loadPolicies t = Ok s /\ good_set s /\ forall x, good_item x -> in_mem s x = in_store t x.
Proof.
  intros Ht. destruct (load_rows_ok t newPolicySet Ht newPolicySet_good) as (s & E & Hs & H).
  exists s. split; [done|]. split; [done|]. intros x Hx. rewrite H by done.
  replace (in_mem newPolicySet x) with false; [done|].
  symmetry. apply bool_decide_eq_false. unfold rules_of. simpl. rewrite lookup_empty.
  apply not_elem_of_nil.
Qed.
