(* ===== verification/RbacProcess.v ===== *)
(** * A process with overlapping policy writes

    The invariant of [RbacWrites.step] when the database makes a batch wait
    for the uncommitted batches it shares a rule with: the numbers of two
    such batches run in the order of their commits, so that the batch that
    decides a rule last in memory is the one that decided it last in storage,
    or memory is rebuilt. *)

From stdpp Require Import base list strings gmap sets.
From Stdlib Require Import ZArith Lia.
From S2P Require Import Prelude RbacPolicies RbacRoles RbacDecision RbacWrites RbacWritesSpec.

(** ** Pairs of a list *)

Section Pairwise.
Context {A : Type} (R : A -> A -> Prop) (Rsym : forall a b, R a b -> R b a).

Fixpoint pairwise (l : list A) : Prop :=
  match l with
  | [] => True
  | a :: l => Forall (R a) l /\ pairwise l
  end.

Lemma pairwise_split l1 a l2 :
  pairwise (l1 ++ a :: l2) <-> pairwise (l1 ++ l2) /\ Forall (R a) (l1 ++ l2).
Proof.
  induction l1 as [|b l1 IH]; simpl; [tauto|]. rewrite IH, !Forall_app, !Forall_cons, Forall_app.
  split.
  - intros ((H1 & Hba & H2) & Hp & Ha1 & Ha2). auto 10.
  - intros (((H1 & H2) & Hp) & Hab & Ha1 & Ha2). auto 10.
Qed.

Lemma pairwise_snoc l a : pairwise (l ++ [a]) <-> pairwise l /\ Forall (R a) l.
Proof. rewrite (pairwise_split l a []). by rewrite app_nil_r. Qed.
End Pairwise.

Lemma elem_of_middle {A} (l1 l2 : list A) a b :
  b ∈ l1 ++ a :: l2 <-> b = a \/ b ∈ l1 ++ l2.
Proof. rewrite !elem_of_app, elem_of_cons. tauto. Qed.

Lemma Forall_middle {A} (P : A -> Prop) l1 a l2 :
  Forall P (l1 ++ a :: l2) <-> P a /\ Forall P (l1 ++ l2).
Proof. rewrite !Forall_app, Forall_cons. tauto. Qed.

(** ** Transactions *)

Definition disjoint (a b : txn) : Prop :=
  forall x, good_item x -> touched (t_batch a) x = true -> touched (t_batch b) x = false.

Lemma disjoint_sym a b : disjoint a b -> disjoint b a.
Proof.
  intros H x Hx Hb. destruct (touched (t_batch a) x) eqn:E; [|done].
  by rewrite (H x Hx E) in Hb.
Qed.

Lemma in_store_commit t u x :
  in_store (commit t u) x =
    (in_store t x && bool_decide (newPolicyRow x.1 x.2 ∉ t_deleted u)) ||
    bool_decide (newPolicyRow x.1 x.2 ∈ t_inserted u).
Proof.
  unfold in_store, commit. apply eq_true_iff_eq.
  rewrite orb_true_iff, andb_true_iff, !bool_decide_eq_true, elem_of_app, list_elem_of_filter. tauto.
Qed.

(** The rows a transaction changes belong to the rules of its batch. *)
Record good_txn (u : txn) : Prop := {
  gt_batch : good_batch (t_batch u);
  gt_counts : length (t_counts u) = length (t_batch u);
  gt_inserted : good_table (t_inserted u);
  gt_own : forall x, good_item x -> touched (t_batch u) x = false ->
    newPolicyRow x.1 x.2 ∉ t_inserted u /\ newPolicyRow x.1 x.2 ∉ t_deleted u
}.

(** Committing it now would have the effect of its batch. *)
Definition effect (t : table) (u : txn) : Prop :=
  forall x, good_item x -> touched (t_batch u) x = true ->
    in_store (commit t u) x = outcome (t_batch u) x (in_store t x).

Lemma commit_untouched t u x :
  good_txn u -> good_item x -> touched (t_batch u) x = false ->
  in_store (commit t u) x = in_store t x.
Proof.
  intros Hu Hx E. destruct (gt_own u Hu x Hx E) as [Hi Hd]. rewrite in_store_commit.
  rewrite (bool_decide_eq_true_2 (_ ∉ _)) by done. rewrite bool_decide_eq_false_2 by done.
  by rewrite andb_true_r, orb_false_r.
Qed.

Lemma commit_good t u : good_table t -> good_txn u -> good_table (commit t u).
Proof.
  intros Ht Hu row Hrow. unfold commit in Hrow.
  apply elem_of_app in Hrow as [[_ Hr]%list_elem_of_filter|Hr]; [by apply Ht|].
  by apply (gt_inserted u Hu).
Qed.

(** The commit of a batch without a rule in common leaves it so. *)
Lemma effect_commit t u v :
  good_txn v -> disjoint u v -> effect t u -> effect (commit t v) u.
Proof.
  intros Hv Hd Hu x Hx E. rewrite in_store_commit.
  rewrite (commit_untouched t v x) by auto. rewrite <- in_store_commit. by apply Hu.
Qed.

Lemma write_txn_ok t t' ms counts :
  good_table t -> good_batch ms -> applyToStore t ms = Some (t', counts) ->
  good_txn (write_txn t t' ms counts) /\ effect t (write_txn t t' ms counts).
Proof.
  intros Ht Hms E. destruct (applyToStore_ok ms t t' counts Ht Hms E) as (Ht' & Hlen & Hx').
  split; [split; simpl; [done|done| |]|].
  - intros row [_ Hr]%list_elem_of_filter. by apply Ht'.
  - intros x Hx Hun. specialize (Hx' x Hx). rewrite outcome_untouched in Hx' by done.
    unfold in_store in Hx'. rewrite !list_elem_of_filter.
    destruct (decide (newPolicyRow x.1 x.2 ∈ t)) as [Hin|Hin].
    + rewrite (bool_decide_eq_true_2 (_ ∈ t)) in Hx' by done. apply bool_decide_eq_true in Hx'. tauto.
    + rewrite (bool_decide_eq_false_2 (_ ∈ t)) in Hx' by done. apply bool_decide_eq_false in Hx'. tauto.
  - intros x Hx Hto. cbn [t_batch write_txn] in *. rewrite <- Hx' by done.
    rewrite in_store_commit. unfold in_store. cbn [t_deleted t_inserted write_txn].
    apply eq_true_iff_eq.
    rewrite orb_true_iff, andb_true_iff, !bool_decide_eq_true, !list_elem_of_filter.
    destruct (decide (newPolicyRow x.1 x.2 ∈ t)), (decide (newPolicyRow x.1 x.2 ∈ t')); tauto.
Qed.

(** ** The invariant *)

Definition numbered_below (n : nat) (t : txn) : Prop := exists s, t_seq t = Some s /\ s <= n.

(** In the order of their commits, or about different rules. *)
Definition ordered (u t : txn) : Prop :=
  disjoint u t \/ forall s s', t_seq u = Some s -> t_seq t = Some s' -> s' < s.

(** Of a committed batch, storage holds its effect on a rule, or a batch with
    a larger number is about the rule and still to come, or it is overtaken. *)
Definition settled (w : process) (t : txn) : Prop :=
  forall x, good_item x -> touched (t_batch t) x = true ->
    in_store (stored w) x = outcome (t_batch t) x true \/
    (exists t' s s', t' ∈ pending w /\ touched (t_batch t') x = true /\
       t_seq t = Some s /\ t_seq t' = Some s' /\ s < s') \/
    (exists s, t_seq t = Some s /\ s < appliedSequence (mem w)).

Definition in_step (w : process) : Prop :=
  Some (derived (mem w)) = rebuildDerived (Some (policyRules (mem w))) /\
  forall x, good_item x -> (forall t, t ∈ pending w -> touched (t_batch t) x = false) ->
    in_mem (policyRules (mem w)) x = in_store (stored w) x.

Record inv (w : process) : Prop := {
  i_table : good_table (stored w);
  i_set : good_set (policyRules (mem w));
  i_open : Forall (fun u => good_txn u /\ effect (stored w) u) (open w);
  i_numbers : Forall (fun u => forall s, t_seq u = Some s -> s <= policySequence w) (open w);
  i_disjoint : pairwise disjoint (open w);
  i_pending : Forall (fun t => good_txn t /\ numbered_below (policySequence w) t) (pending w);
  i_order : Forall (fun u => Forall (ordered u) (pending w)) (open w);
  i_settled : Forall (settled w) (pending w);
  i_sync : policiesDiverged (mem w) = false -> recovering w = 0 -> in_step w
}.

(** Memory rebuilt from storage is in step with it. *)
Lemma reload_ok t readable m m' reloaded :
  good_table t -> good_set (policyRules m) -> reload t readable m = Some (m', reloaded) ->
  good_set (policyRules m') /\ appliedSequence m' = appliedSequence m /\
  if reloaded then
    policiesDiverged m' = false /\
    Some (derived m') = rebuildDerived (Some (policyRules m')) /\
    forall x, good_item x -> in_mem (policyRules m') x = in_store t x
  else m' = m.
Proof.
  intros Ht Hs. unfold reload. destruct readable; [|intros [= <- <-]; done].
  destruct (loadPolicies_ok t Ht) as (set & -> & Hset & Hin).
  intros (p & Hp & [= <- <-])%bind_Some. done.
Qed.

Section Process.
Context (issued : list policyMutation -> Prop)
        (waits : table -> txn -> list policyMutation -> bool)
        (Hissued : forall ms, issued ms -> good_batch ms)
        (Hwaits : forall t u ms x, waits t u ms = false -> good_item x ->
           touched (t_batch u) x = true -> touched ms x = false).

(** A step that leaves storage and the lists alone, and memory no worse. *)
Lemma inv_memory w n m' :
  inv w -> good_set (policyRules m') -> appliedSequence (mem w) <= appliedSequence m' ->
  (policiesDiverged m' = false -> n = 0 -> in_step (mkProcess (stored w) (open w) (pending w) n
     (policySequence w) m')) ->
  inv (mkProcess (stored w) (open w) (pending w) n (policySequence w) m').
Proof.
  intros [] Hm Happ Hsync. split; try done. eapply Forall_impl; [done|].
  intros t Ht x Hx E. destruct (Ht x Hx E) as [?|[?|(s & Es & Hs)]]; [by left|by right; left|].
  right; right. exists s. split; [done|]. simpl. lia.
Qed.

Lemma inv_reload w readable m' reloaded :
  inv w -> reload (stored w) readable (mem w) = Some (m', reloaded) ->
  inv (mkProcess (stored w) (open w) (pending w) (recovering w) (policySequence w) m').
Proof.
  intros Hi E. destruct (reload_ok _ _ _ _ _ (i_table w Hi) (i_set w Hi) E) as (Hs & Ha & Hr).
  apply inv_memory; [done|done|lia|]. destruct reloaded.
  - intros _ _. destruct Hr as (_ & Hd & Hx). split; [done|]. intros x Hx' _. by apply Hx.
  - subst m'. intros Hdiv Hrec. exact (i_sync w Hi Hdiv Hrec).
Qed.

Lemma inv_recover w n readable m' :
  inv w -> recoverPolicies (stored w) readable (mem w) = Some m' ->
  inv (mkProcess (stored w) (open w) (pending w) n (policySequence w) m').
Proof.
  intros Hi. unfold recoverPolicies. intros ([m1 reloaded] & E & [= <-])%bind_Some.
  destruct (reload_ok _ _ _ _ _ (i_table w Hi) (i_set w Hi) E) as (Hs & Ha & Hr).
  apply inv_memory; [done|by destruct reloaded|destruct reloaded; simpl; lia|].
  destruct reloaded; [|done].
  intros _ _. destruct Hr as (_ & Hd & Hx). split; [done|]. intros x Hx' _. by apply Hx.
Qed.

Lemma inv_write w ms t' counts :
  inv w -> issued ms ->
  forallb (fun t => negb (waits (stored w) t ms)) (open w) = true ->
  applyToStore (stored w) ms = Some (t', counts) ->
  inv (mkProcess (stored w) (open w ++ [write_txn (stored w) t' ms counts]) (pending w)
    (recovering w) (policySequence w) (mem w)).
Proof.
  intros Hi Hms Hw E. pose proof Hi as [].
  destruct (write_txn_ok (stored w) t' ms counts) as [Hg He]; [done|by apply Hissued|done|].
  split; cbn [stored open pending recovering policySequence mem]; try done.
  - apply Forall_app. split; [done|]. by apply Forall_singleton.
  - apply Forall_app. split; [done|]. by apply Forall_singleton.
  - apply pairwise_snoc; [exact disjoint_sym|]. split; [done|]. apply Forall_forall. intros u Hu x Hx Ex.
    destruct (touched (t_batch u) x) eqn:Eu; [|done].
    rewrite forallb_forall in Hw. apply list_elem_of_In in Hu. apply Hw in Hu.
    apply negb_true_iff in Hu. by rewrite <- (Hwaits _ _ _ x Hu Hx Eu).
  - apply Forall_app. split; [done|]. apply Forall_singleton. apply Forall_forall.
    intros t Ht. right. by intros s s' [=].
Qed.

Lemma inv_number w l1 t l2 :
  inv w -> open w = l1 ++ t :: l2 -> t_seq t = None ->
  inv (mkProcess (stored w) (l1 ++ number (S (policySequence w)) t :: l2) (pending w)
    (recovering w) (S (policySequence w)) (mem w)).
Proof.
  intros [] E Et. rewrite E in *.
  split; cbn [stored open pending recovering policySequence mem]; try done.
  - apply Forall_middle in i_open0 as [[Hg He] Hrest]. apply Forall_middle. split; [|done].
    split; [|exact He]. by destruct Hg.
  - apply Forall_middle in i_numbers0 as [_ Hrest]. apply Forall_middle. split.
    + intros s [= <-]. lia.
    + eapply Forall_impl; [done|]. intros u Hu s Hs. specialize (Hu s Hs). lia.
  - apply (pairwise_split disjoint disjoint_sym). by apply (pairwise_split disjoint disjoint_sym) in i_disjoint0.
  - eapply Forall_impl; [exact i_pending0|]. intros p (Hp & s & Hs & Hle). split; [done|]. exists s. split; [done|]. lia.
  - apply Forall_middle in i_order0 as [Ho Hrest]. apply Forall_middle. split; [|done].
    apply Forall_forall. intros p Hp. right. intros s s' [= <-] Hs'.
    rewrite Forall_forall in i_pending0. destruct (i_pending0 p Hp) as (_ & s0 & Hs0 & Hle).
    rewrite Hs0 in Hs'. injection Hs' as <-. lia.
Qed.

Lemma inv_rollback w l1 t l2 :
  inv w -> open w = l1 ++ t :: l2 ->
  inv (mkProcess (stored w) (l1 ++ l2) (pending w) (recovering w) (policySequence w) (mem w)).
Proof.
  intros [] E. rewrite E in *.
  split; cbn [stored open pending recovering policySequence mem]; try done.
  - by apply Forall_middle in i_open0 as [_ ?].
  - by apply Forall_middle in i_numbers0 as [_ ?].
  - by apply (pairwise_split disjoint disjoint_sym) in i_disjoint0 as [? _].
  - by apply Forall_middle in i_order0 as [_ ?].
Qed.

Lemma inv_commit w l1 t l2 :
  inv w -> open w = l1 ++ t :: l2 -> t_seq t <> None ->
  inv (mkProcess (commit (stored w) t) (l1 ++ l2) (pending w ++ [t]) (recovering w)
    (policySequence w) (mem w)).
Proof.
  intros [] E Ht. rewrite E in *. destruct (t_seq t) as [n|] eqn:En; [|done].
  apply Forall_middle in i_open0 as [[Hg He] Hopen].
  apply Forall_middle in i_numbers0 as [Hn Hnumbers].
  apply (pairwise_split disjoint disjoint_sym) in i_disjoint0 as [Hpair Hdis].
  apply Forall_middle in i_order0 as [Hot Hord].
  rewrite Forall_forall in Hopen, Hdis, Hord, Hot, i_settled0.
  split; cbn [stored open pending recovering policySequence mem]; try done.
  - by apply commit_good.
  - apply Forall_forall. intros u Hu. destruct (Hopen u Hu) as [Hgu Heu]. split; [done|].
    apply effect_commit; [done| |done]. by apply disjoint_sym, Hdis.
  - apply Forall_app. split; [done|]. apply Forall_singleton. split; [done|]. exists n. auto.
  - apply Forall_forall. intros u Hu. apply Forall_app. split; [by apply Hord|].
    apply Forall_singleton. left. by apply disjoint_sym, Hdis.
  - apply Forall_app. split.
    + apply Forall_forall. intros p Hp x Hx Ep. cbn [stored pending mem].
      destruct (touched (t_batch t) x) eqn:Etx.
      * right; left. destruct (Hot p Hp) as [Hd|Hlt]; [by rewrite (Hd x Hx Etx) in Ep|].
        rewrite Forall_forall in i_pending0. destruct (i_pending0 p Hp) as (_ & s & Es & _).
        exists t, s, n. split; [|auto]. apply elem_of_app. right. by left.
      * rewrite (commit_untouched _ t x) by done.
        destruct (i_settled0 p Hp x Hx Ep) as [?|[(t' & s & s' & Ht' & ?)|?]]; [by left| |by right; right].
        right; left. exists t', s, s'. split; [|done]. apply elem_of_app. by left.
    + apply Forall_singleton. intros x Hx Etx. left. cbn [stored]. rewrite He by done.
      by apply outcome_touched.
  - intros Hdiv Hrec. destruct (i_sync0 Hdiv Hrec) as [Hd Hsync]. split; [done|].
    cbn [stored pending mem]. intros x Hx Hun.
    rewrite (commit_untouched _ t x); [|done|done|apply Hun; apply elem_of_app; right; by left].
    apply Hsync; [done|]. intros p Hp. apply Hun. apply elem_of_app. by left.
Qed.

Lemma settled_apply w l1 t l2 n sequence m' p :
  inv w -> pending w = l1 ++ t :: l2 -> t_seq t = Some sequence ->
  appliedSequence m' = Nat.max (appliedSequence (mem w)) sequence -> p ∈ l1 ++ l2 ->
  settled (mkProcess (stored w) (open w) (l1 ++ l2) n (policySequence w) m') p.
Proof.
  intros Hi E Et Ha Hp x Hx Ep. cbn [stored pending mem]. rewrite Ha.
  pose proof (i_settled w Hi) as Hs. rewrite E in Hs. apply Forall_middle in Hs as [_ Hs].
  rewrite Forall_forall in Hs.
  destruct (Hs p Hp x Hx Ep) as [?|[(t' & s & s' & Ht' & Ex & Es & Es' & Hlt)|(s & Es & Hlt)]].
  - by left.
  - rewrite E in Ht'. apply elem_of_middle in Ht' as [->|Ht'].
    + right; right. exists s. split; [done|]. rewrite Et in Es'. injection Es' as <-. lia.
    + right; left. by exists t', s, s'.
  - right; right. exists s. split; [done|]. lia.
Qed.

(** A batch replayed in full decides its rules in memory as in storage. *)
Lemma in_step_apply w l1 t l2 sequence set p :
  inv w -> pending w = l1 ++ t :: l2 -> t_seq t = Some sequence ->
  appliedSequence (mem w) <= sequence ->
  (forall x, good_item x -> in_mem set x = outcome (t_batch t) x (in_mem (policyRules (mem w)) x)) ->
  rebuildDerived (Some set) = Some p -> in_step w ->
  in_step (mkProcess (stored w) (open w) (l1 ++ l2) (recovering w) (policySequence w)
    (mkMemory set p (Nat.max (appliedSequence (mem w)) sequence) (policiesDiverged (mem w)))).
Proof.
  intros Hi E Et Hle Hset Hp [_ Hsync]. split; [by symmetry|]. cbn [policyRules stored mem pending].
  intros x Hx Hun. rewrite Hset by done. destruct (touched (t_batch t) x) eqn:Etx.
  - pose proof (i_settled w Hi) as Hs. rewrite E in Hs. apply Forall_middle in Hs as [Hs _].
    destruct (Hs x Hx Etx) as [->|[(t' & s & s' & Ht' & Ex & Es & Es' & Hlt)|(s & Es & Hlt)]].
    + by apply outcome_touched.
    + rewrite E in Ht'. apply elem_of_middle in Ht' as [->|Ht'].
      * rewrite Es in Es'. injection Es' as ->. lia.
      * by rewrite (Hun t' Ht') in Ex.
    + rewrite Es in Et. injection Et as ->. lia.
  - rewrite outcome_untouched by done. apply Hsync; [done|]. intros u Hu. rewrite E in Hu.
    apply elem_of_middle in Hu as [->|Hu]; [done|by apply Hun].
Qed.

Lemma inv_apply w l1 t l2 sequence m' (applied : bool) :
  inv w -> pending w = l1 ++ t :: l2 -> t_seq t = Some sequence ->
  applyMutations (mem w) sequence (t_batch t) (t_counts t) = Some (m', applied) ->
  inv (mkProcess (stored w) (open w) (l1 ++ l2)
    (if applied then recovering w else S (recovering w)) (policySequence w) m').
Proof.
  intros Hi E Et Happ.
  assert (good_txn t) as Hg.
  { pose proof (i_pending w Hi) as Hp. rewrite E in Hp. by apply Forall_middle in Hp as [[? _] _]. }
  assert (good_set (policyRules m') /\
    appliedSequence m' = Nat.max (appliedSequence (mem w)) sequence /\
    (applied = true -> policiesDiverged m' = policiesDiverged (mem w) /\
       (in_step w -> in_step (mkProcess (stored w) (open w) (l1 ++ l2) (recovering w)
          (policySequence w) m')))) as (Hset & Ha & Hsync).
  { unfold applyMutations in Happ. destruct (Nat.ltb_spec sequence (appliedSequence (mem w))) as [Hlt|Hge].
    { injection Happ as <- <-. split; [apply (i_set w Hi)|]. done. }
    destruct (replay _ _ _) as [set ok] eqn:Er.
    destruct (replay_ok _ _ _ _ _ (i_set w Hi) (gt_batch t Hg) (gt_counts t Hg) Er) as [Hset Hx].
    destruct ok; [|injection Happ as <- <-; done].
    apply bind_Some in Happ as (p & Hp & [= <- <-]). split; [done|]. split; [done|].
    intros _. split; [done|]. intros Hin. eapply in_step_apply; eauto. }
  pose proof Hi as [].
  split; cbn [stored open pending recovering policySequence mem]; try done.
  - rewrite E in i_pending0. by apply Forall_middle in i_pending0 as [_ ?].
  - eapply Forall_impl; [exact i_order0|]. intros u Hu. cbn beta in Hu. rewrite E in Hu. by apply Forall_middle in Hu as [_ ?].
  - apply Forall_forall. intros p Hp. eapply settled_apply; eauto.
  - destruct applied; [|done]. intros Hdiv Hrec. destruct (Hsync eq_refl) as [Ed Hs].
    apply Hs, i_sync0; [by rewrite <- Ed|done].
Qed.

Lemma inv_step w w' : inv w -> step issued waits w w' -> inv w'.
Proof.
  intros Hi Hstep. destruct Hstep.
  - by apply inv_write.
  - by apply inv_number.
  - by eapply inv_rollback.
  - by apply inv_commit.
  - by eapply inv_apply.
  - by eapply inv_recover.
  - by eapply inv_reload.
Qed.

Lemma inv_reachable w0 w : inv w0 -> reachable issued waits w0 w -> inv w.
Proof. intros H0 Hr. eapply (steps_invariant _ inv); [|done|done]. apply inv_step. Qed.
End Process.

Lemma inv_initial t set p :
  good_table t -> loadPolicies t = Ok set -> rebuildDerived (Some set) = Some p ->
  inv (initial t set p).
Proof.
  intros Ht Hl Hp. destruct (loadPolicies_ok t Ht) as (set' & Hl' & Hg & Hx).
  rewrite Hl in Hl'. injection Hl' as <-.
  split; simpl; try done. intros _ _. split; [by symmetry|]. intros x Hx' _. by apply Hx.
Qed.

(** ** Locks *)

(** Row locks taken whether or not a statement finds something to change:
    batches that name a common rule, or that remove by a filter, wait. *)
Definition names_common_rule (m m' : policyMutation) : bool :=
  match m, m' with
  | (addRules p rs | removeRules p rs), (addRules p' rs' | removeRules p' rs') =>
      String.eqb p p' && existsb (fun r => bool_decide (r ∈ rs')) rs
  | _, _ => true
  end.

Definition row_locks (t : table) (u : txn) (ms : list policyMutation) : bool :=
  existsb (fun m => existsb (names_common_rule m) ms) (t_batch u).

Lemma names_common_rule_ok m m' x :
  touches m x = true -> touches m' x = true -> names_common_rule m m' = true.
Proof.
  rewrite !touches_iff.
  destruct m as [p rs|p rs|], m' as [p' rs'|p' rs'|]; simpl; try done;
    intros [<- Hr] [<- Hr']; rewrite String.eqb_refl; simpl;
    apply existsb_exists; exists x.2; (split; [by apply list_elem_of_In|by apply bool_decide_eq_true]).
Qed.

Lemma row_locks_ok t u ms x :
  row_locks t u ms = false -> good_item x ->
  touched (t_batch u) x = true -> touched ms x = false.
Proof.
  intros Hl _ Hu. destruct (touched ms x) eqn:Hms; [|done]. unfold touched in *.
  apply existsb_exists in Hu as (m & Hm & Em). apply existsb_exists in Hms as (m' & Hm' & Em').
  unfold row_locks in Hl. apply not_true_iff_false in Hl. destruct Hl.
  apply existsb_exists. exists m. split; [done|]. apply existsb_exists. exists m'. split; [done|].
  by eapply names_common_rule_ok.
Qed.

(** An insert whose conflicting row stays as it is takes no lock on it: a
    batch waits for the rows an uncommitted one has changed, no others. *)
Definition changed_row_locks (t : table) (u : txn) (ms : list policyMutation) : bool :=
  existsb (fun row => match row_rule row with
                      | Ok r => touched ms (Ptype row, r)
                      | Err _ => false
                      end) (t_inserted u ++ t_deleted u).

(** ** Schedules *)

(** A step of the process, picked by the position of its transaction. *)
Inductive action : Type :=
| Write (ms : list policyMutation)
| Number (i : nat)
| Rollback (i : nat)
| Commit (i : nat)
| Apply (i : nat)
| Recover (readable : bool)
| Reload (readable : bool).

Definition act (waits : table -> txn -> list policyMutation -> bool) (w : process) (a : action) :
    option process :=
  match a with
  | Write ms =>
      if match ms with [] => false | _ => true end && forallb validate ms &&
         forallb (fun t => negb (waits (stored w) t ms)) (open w)
      then '(t', counts) ← applyToStore (stored w) ms;
           Some (mkProcess (stored w) (open w ++ [write_txn (stored w) t' ms counts]) (pending w)
             (recovering w) (policySequence w) (mem w))
      else None
  | Number i =>
      t ← open w !! i;
      match t_seq t with
      | Some _ => None
      | None =>
          Some (mkProcess (stored w)
            (take i (open w) ++ number (S (policySequence w)) t :: drop (S i) (open w)) (pending w)
            (recovering w) (S (policySequence w)) (mem w))
      end
  | Rollback i =>
      t ← open w !! i;
      Some (mkProcess (stored w) (take i (open w) ++ drop (S i) (open w)) (pending w) (recovering w)
        (policySequence w) (mem w))
  | Commit i =>
      t ← open w !! i;
      _ ← t_seq t;
      Some (mkProcess (commit (stored w) t) (take i (open w) ++ drop (S i) (open w))
        (pending w ++ [t]) (recovering w) (policySequence w) (mem w))
  | Apply i =>
      t ← pending w !! i;
      sequence ← t_seq t;
      '(m', applied) ← applyMutations (mem w) sequence (t_batch t) (t_counts t);
      Some (mkProcess (stored w) (open w) (take i (pending w) ++ drop (S i) (pending w))
        (if (applied : bool) then recovering w else S (recovering w)) (policySequence w) m')
  | Recover readable =>
      match recovering w with
      | 0 => None
      | S n =>
          m' ← recoverPolicies (stored w) readable (mem w);
          Some (mkProcess (stored w) (open w) (pending w) n (policySequence w) m')
      end
  | Reload readable =>
      '(m', _) ← reload (stored w) readable (mem w);
      Some (mkProcess (stored w) (open w) (pending w) (recovering w) (policySequence w) m')
  end.

Fixpoint run (waits : table -> txn -> list policyMutation -> bool) (w : process)
    (actions : list action) : option process :=
  match actions with
  | [] => Some w
  | a :: actions => w' ← act waits w a; run waits w' actions
  end.

Definition writes_of (actions : list action) : list (list policyMutation) :=
  omap (fun a => match a with Write ms => Some ms | _ => None end) actions.

Lemma act_step (issued : list policyMutation -> Prop) waits w a w' :
  Forall issued (writes_of [a]) -> act waits w a = Some w' -> step issued waits w w'.
Proof.
  intros Hms. destruct a as [ms|i|i|i|i|readable|readable]; simpl.
  - destruct (_ && _) eqn:E; [|done]. apply andb_prop in E as [[E1 E2]%andb_prop E3].
    intros ([t' counts] & Ht & [= <-])%bind_Some. simpl in Hms. rewrite Forall_singleton in Hms.
    apply step_write; [done|by destruct ms|done|done|done].
  - intros (t & Et & Hs)%bind_Some. destruct (t_seq t) eqn:En; [done|]. injection Hs as <-.
    apply step_number; [|done]. by rewrite take_drop_middle.
  - intros (t & Et & [= <-])%bind_Some. apply step_rollback with t. by rewrite take_drop_middle.
  - intros (t & Et & (n & En & [= <-])%bind_Some)%bind_Some.
    apply step_commit; [by rewrite take_drop_middle|congruence].
  - intros (t & Et & (n & En & ([m' applied] & Ha & [= <-])%bind_Some)%bind_Some)%bind_Some.
    eapply step_apply; [by rewrite take_drop_middle|done|done].
  - destruct (recovering w) eqn:En; [done|]. intros (m' & Hm & [= <-])%bind_Some.
    by eapply step_recover.
  - intros ([m' reloaded] & Hm & [= <-])%bind_Some. by eapply step_reload.
Qed.

Lemma run_reachable (issued : list policyMutation -> Prop) waits w actions w' :
  Forall issued (writes_of actions) -> run waits w actions = Some w' ->
  reachable issued waits w w'.
Proof.
  assert (forall w0 w, reachable issued waits w0 w ->
    Forall issued (writes_of actions) -> run waits w actions = Some w' ->
    reachable issued waits w0 w') as H; [|intros; eapply H; [apply steps_refl|done..]].
  induction actions as [|a actions IH]; intros w0 w1 Hr Hms; simpl; [by intros [= <-]|].
  intros (w2 & Ha & Hrun)%bind_Some.
  assert (Forall issued (writes_of [a]) /\ Forall issued (writes_of actions)) as [Ha' Hms'].
  { destruct a; try by split; [constructor|]. simpl in Hms. apply Forall_cons in Hms as [Hms1 Hms2].
    split; [by constructor|done]. }
  clear Hms.
  eapply IH; [|done|done]. eapply steps_snoc; [done|]. by eapply act_step.
Qed.

(** ** A sample process *)

Definition sample_rule : rule := ["alice"; "admin"]%string.
Definition sample_other : rule := ["bob"; "auditor"]%string.

(** One stored system role. *)
Definition sample_table : table := [newPolicyRow systemRoleGrouping sample_rule].
Definition sample_loaded : policySet :=
  Eval vm_compute in match loadPolicies sample_table with Ok s => s | Err _ => newPolicySet end.
Definition sample_derived : policies :=
  Eval vm_compute in default (mkPolicies None None) (rebuildDerived (Some sample_loaded)).
Definition sample_process : process := initial sample_table sample_loaded sample_derived.

Lemma sample_rule_good : good_item (systemRoleGrouping, sample_rule).
Proof. exists 2. split; [done|]. split; [done|]. repeat constructor. Qed.

Lemma sample_other_good : good_item (systemRoleGrouping, sample_other).
Proof. exists 2. split; [done|]. split; [done|]. repeat constructor. Qed.

Lemma sample_table_good : good_table sample_table.
Proof. intros row ->%list_elem_of_singleton. eexists. split; [exact sample_rule_good|done]. Qed.

Lemma sample_batch_good m :
  m ∈ [addRules systemRoleGrouping [sample_rule]; removeRules systemRoleGrouping [sample_rule];
       addRules systemRoleGrouping [sample_other]] -> good_batch [m].
Proof.
  rewrite !elem_of_cons. intros [->|[->|[->|[]%elem_of_nil]]]; apply Forall_singleton;
    intros r ->%list_elem_of_singleton; first [exact sample_rule_good|exact sample_other_good].
Qed.

(** ** The theorems *)

(** C11: where the database makes a batch wait for the uncommitted batches it
    shares a rule with, a process that is through with the batches it has
    committed, and does not report a divergence, holds in memory exactly the
    rules in storage, however the batches, their numbers, their memory
    halves, rollbacks and reloads were interleaved; and it decides from them. *)
Theorem memory_tracks_storage (issued : list policyMutation -> Prop)
    (waits : table -> txn -> list policyMutation -> bool)
    (t : table) (set : policySet) (p : policies) (w : process)
    (Hissued : forall ms, issued ms -> good_batch ms)
    (Hwaits : forall t u ms x, waits t u ms = false -> good_item x ->
       touched (t_batch u) x = true -> touched ms x = false)
    (Ht : good_table t) (Hset : loadPolicies t = Ok set) (Hp : rebuildDerived (Some set) = Some p)
    (Hr : reachable issued waits (initial t set p) w)
    (Hpending : pending w = []) (Hrec : recovering w = 0)
    (Hdiv : policiesDiverged (mem w) = false) :
  (forall x, good_item x -> in_mem (policyRules (mem w)) x = in_store (stored w) x) /\
  rebuildDerived (Some (policyRules (mem w))) = Some (derived (mem w)).
Proof.
  pose proof (inv_reachable issued waits Hissued Hwaits _ w (inv_initial t set p Ht Hset Hp) Hr) as Hi.
  destruct (i_sync w Hi Hdiv Hrec) as [Hd Hx]. split; [|by symmetry].
  intros x Hgood. apply Hx; [done|]. rewrite Hpending. intros u Hu. by apply elem_of_nil in Hu.
Qed.

(** Where a batch waits only for rows an uncommitted batch has changed,
    the numbers do not follow storage: an add that found its rule stored,
    and a removal of the rule that commits first, leave the rule in memory
    and not in storage, with no batch outstanding and nothing reported. *)
Lemma unlocked_add_resurrects_rule :
  exists t set p w x,
    good_table t /\ loadPolicies t = Ok set /\ rebuildDerived (Some set) = Some p /\
    reachable good_batch changed_row_locks (initial t set p) w /\
    pending w = [] /\ recovering w = 0 /\ policiesDiverged (mem w) = false /\
    good_item x /\ in_mem (policyRules (mem w)) x = true /\ in_store (stored w) x = false.
Proof.
  destruct (run changed_row_locks sample_process
    [Write [addRules systemRoleGrouping [sample_rule]];
     Write [removeRules systemRoleGrouping [sample_rule]];
     Number 1; Commit 1; Number 0; Commit 0; Apply 0; Apply 0]) as [w|] eqn:E; [|by vm_compute in E].
  exists sample_table, sample_loaded, sample_derived, w, (systemRoleGrouping, sample_rule).
  split; [exact sample_table_good|]. split; [reflexivity|]. split; [reflexivity|].
  split; [eapply run_reachable; [|exact E]; simpl; repeat (apply Forall_cons; split; [apply sample_batch_good; repeat constructor|]); apply Forall_nil; exact I|].
  vm_compute in E. injection E as <-.
  split; [done|]. split; [done|]. split; [done|]. split; [exact sample_rule_good|].
  split; reflexivity.
Qed.

Lemma memory_tracks_storage_witness :
  exists w,
    run row_locks sample_process
      [Write [removeRules systemRoleGrouping [sample_rule]];
       Write [addRules systemRoleGrouping [sample_other]];
       Number 1; Number 0; Commit 1; Commit 0; Apply 1; Apply 0; Recover true] = Some w /\
    in_mem (policyRules (mem w)) (systemRoleGrouping, sample_other) = true /\
    (forall x, good_item x -> in_mem (policyRules (mem w)) x = in_store (stored w) x).
Proof.
  eexists. split; [vm_compute; reflexivity|]. split; [reflexivity|].
  eapply (memory_tracks_storage good_batch row_locks sample_table sample_loaded sample_derived);
    [done|exact row_locks_ok|exact sample_table_good|reflexivity|reflexivity| |done|done|done].
  apply run_reachable with
    [Write [removeRules systemRoleGrouping [sample_rule]];
     Write [addRules systemRoleGrouping [sample_other]];
     Number 1; Number 0; Commit 1; Commit 0; Apply 1; Apply 0; Recover true];
    [|vm_compute; reflexivity].
  simpl; repeat (apply Forall_cons; split; [apply sample_batch_good; repeat constructor|]); apply Forall_nil; exact I.
Defined.
