(* ===== verification/RbacBatches.v ===== *)
(** * The batches of the policy writes

    The count check of a replay in a process in step with storage, and what
    the entry points of [permission.go] and [assignment.go] leave stored and
    decided. *)

From stdpp Require Import base list strings gmap sets sorting.
From Stdlib Require Import ZArith Lia.
From S2P Require Import Prelude GoStrings RbacPolicies RbacDecision RbacWrites RbacWritesSpec.

(** ** The counts *)

Definition agrees (t : table) (s : policySet) : Prop :=
  forall x, good_item x -> in_mem s x = in_store t x.

(** The rows of a kind are the rules of the kind, row by row. *)
Lemma rows_mirror_rules t s p :
  good_table t -> NoDup t -> good_set s -> agrees t s ->
  filter (fun row => Ptype row = p) t ≡ₚ map (newPolicyRow p) (rules_of s p).
Proof.
  intros Ht Hn [Hwf Hs] Hag. apply NoDup_Permutation.
  - by apply NoDup_filter.
  - apply (NoDup_fmap_2_strong (newPolicyRow p)).
    + intros r r' Hr Hr' E. pose proof (Hs p r Hr). pose proof (Hs p r' Hr').
      assert ((p, r) = (p, r')) as E' by by apply newPolicyRow_inj. by injection E'.
    + destruct (Hwf p) as [Hk _]. by eapply NoDup_fmap_1.
  - intros row. rewrite list_elem_of_filter. split.
    + intros [<- Hrow]. destruct (Ht row Hrow) as ([q r] & Hx & ->). apply list_elem_of_fmap.
      exists r. split; [done|]. specialize (Hag (q, r) Hx). unfold in_mem, in_store in Hag.
      cbn [fst snd] in Hag. rewrite (bool_decide_eq_true_2 (_ ∈ t)) in Hag by done.
      by apply bool_decide_eq_true in Hag.
    + intros (r & -> & Hr)%list_elem_of_fmap. split; [done|].
      specialize (Hag (p, r) (Hs p r Hr)). unfold in_mem, in_store in Hag. cbn [fst snd] in Hag.
      rewrite (bool_decide_eq_true_2 (_ ∈ rules_of s p)) in Hag by done. symmetry in Hag.
      by apply bool_decide_eq_true in Hag.
Qed.

Lemma length_rows_rules t s p :
  good_table t -> NoDup t -> good_set s -> agrees t s ->
  length (filter (fun row => Ptype row = p) t) = length (rules_of s p).
Proof. intros. rewrite (rows_mirror_rules t s p) by done. apply length_map. Qed.

Lemma length_filter_split {A} (P : A -> Prop) `{!forall x, base.Decision (P x)} (l : list A) :
  length l = length (filter P l) + length (filter (fun x => ~ P x) l).
Proof.
  induction l as [|x l IH]; [done|]. rewrite !filter_cons.
  destruct (decide (P x)).
  - rewrite decide_False by tauto. simpl. lia.
  - rewrite decide_True by done. simpl. lia.
Qed.

(** Rows of the other kinds are kept. *)
Definition other_rows (p : string) (t : table) : table := filter (fun row => ~ Ptype row = p) t.

Lemma other_rows_filter p (P : policyRow -> Prop) `{!forall x, base.Decision (P x)} t :
  (forall row, Ptype row <> p -> P row) -> other_rows p (filter P t) = other_rows p t.
Proof.
  intros HP. unfold other_rows. rewrite list_filter_filter. apply filter_ext_in.
  intros row _. split; [tauto|]. auto.
Qed.

(** How many rows went is how many rows of the kind went. *)
Lemma removed_rows p t t' :
  other_rows p t' = other_rows p t ->
  length t - length t' =
    length (filter (fun row => Ptype row = p) t) - length (filter (fun row => Ptype row = p) t').
Proof.
  intros E. rewrite (length_filter_split (fun row => Ptype row = p) t),
    (length_filter_split (fun row => Ptype row = p) t').
  fold (other_rows p t') (other_rows p t). rewrite E. lia.
Qed.

Lemma removePolicies_facts t p rs n :
  let '(t', count) := removePoliciesCount t p rs n in
  (count = n + Z.of_nat (length t - length t'))%Z /\ length t' <= length t /\
  other_rows p t' = other_rows p t /\ (NoDup t -> NoDup t').
Proof.
  revert t n. induction rs as [|r rs IH]; intros t n; simpl.
  { rewrite Nat.sub_diag. split; [lia|]. done. }
  set (kept := filter _ t).
  pose proof (IH kept (n + Z.of_nat (length t - length kept))%Z) as Hk.
  destruct (removePoliciesCount kept p rs _) as [t' count]. destruct Hk as (-> & Hle & Ho & Hn).
  assert (length kept <= length t) as Hlk by apply length_filter.
  split; [lia|]. split; [lia|]. split; [|intros H; by apply Hn, NoDup_filter].
  rewrite Ho. apply other_rows_filter. intros row Hrow ->. by apply Hrow.
Qed.

Lemma removeFiltered_facts t p i vs t' count :
  removeFilteredPolicyCount t p i vs = Some (t', count) ->
  count = Z.of_nat (length t - length t') /\ other_rows p t' = other_rows p t /\
  (NoDup t -> NoDup t').
Proof.
  unfold removeFilteredPolicyCount. destruct (ruleColumnCount <? _); [done|]. intros [= <- <-].
  split; [done|]. split; [|apply NoDup_filter]. apply other_rows_filter.
  intros row Hrow. apply andb_false_iff. left. by apply String.eqb_neq.
Qed.

Lemma addPolicies_NoDup t p rs : NoDup t -> NoDup (addPolicies t p rs).
Proof.
  revert t. induction rs as [|r rs IH]; intros t Hn; simpl; [done|]. apply IH.
  case_decide; [done|]. apply NoDup_app. split; [done|]. split; [|apply NoDup_singleton].
  intros row Hr ->%list_elem_of_singleton. done.
Qed.

(** The two sides of one removal report the same number. *)
Lemma removal_counts_agree t t' s s' p (affected : list rule) :
  good_table t -> NoDup t -> good_set s -> agrees t s ->
  good_table t' -> NoDup t' -> good_set s' -> agrees t' s' ->
  other_rows p t' = other_rows p t ->
  length (rules_of s p) = length (rules_of s' p) + length affected ->
  length t - length t' = length affected.
Proof.
  intros Ht Hn Hs Hag Ht' Hn' Hs' Hag' Ho Hl. rewrite (removed_rows p t t' Ho).
  rewrite (length_rows_rules t s), (length_rows_rules t' s') by done. lia.
Qed.

Lemma remove_affected s p rs :
  wf s ->
  length (rules_of s p) = length (rules_of (remove s p rs).1 p) + length (remove s p rs).2.
Proof.
  intros Hwf. pose proof (remove_ok s p rs Hwf) as Hok. destruct (remove s p rs) as [s' a].
  destruct Hok as (_ & -> & Hp & _). cbn [fst snd]. rewrite Hp.
  rewrite (length_filter_split (fun r => ruleKey r ∈ keys rs)). lia.
Qed.

Lemma removeFiltered_affected s p i vs :
  wf s ->
  length (rules_of s p) =
    length (rules_of (removeFiltered s p i vs).1 p) + length (removeFiltered s p i vs).2.
Proof.
  intros Hwf. pose proof (removeFiltered_ok s p i vs Hwf) as Hok.
  destruct (removeFiltered s p i vs) as [s' a].
  destruct Hok as (_ & -> & Hp & _). cbn [fst snd]. rewrite Hp.
  rewrite (length_filter_split (fun r => ruleMatchesFilter r i vs = true)). lia.
Qed.

(** One mutation, its halves run from agreeing states. *)
Definition store_mutation (t : table) (m : policyMutation) : option (table * Z) :=
  match m with
  | addRules ptype rs => Some (addPolicies t ptype rs, storedCountUnknown)
  | removeRules ptype rs => Some (removePoliciesCount t ptype rs 0)
  | filterRules ptype i vs => removeFilteredPolicyCount t ptype i vs
  end.

Lemma mutation_counts_agree t s m t' count :
  good_table t -> NoDup t -> good_set s -> agrees t s -> good_mutation m ->
  store_mutation t m = Some (t', count) ->
  good_table t' /\ NoDup t' /\ good_set (applyMutation s m).1 /\ agrees t' (applyMutation s m).1 /\
  (count = storedCountUnknown \/ count = Z.of_nat (length (applyMutation s m).2)).
Proof.
  intros Ht Hn Hs Hag Hm E.
  destruct (apply_store1_ok t m (t', count) Ht Hm E) as [Ht' Hx]. cbn [fst] in *.
  destruct (applyMutation_ok s m Hs Hm) as [Hs' Hy].
  assert (agrees t' (applyMutation s m).1) as Hag'.
  { intros x Hgood. by rewrite Hx, Hy, Hag. }
  assert (NoDup t') as Hn'.
  { destruct m as [p rs|p rs|p i vs]; simpl in E.
    - injection E as <- _. by apply addPolicies_NoDup.
    - injection E as E. pose proof (removePolicies_facts t p rs 0) as F. rewrite E in F. tauto.
    - apply removeFiltered_facts in E. tauto. }
  do 4 (split; [done|]). destruct m as [p rs|p rs|p i vs]; cbn [applyMutation] in *; simpl in E.
  - injection E as _ <-. by left.
  - right. injection E as E. pose proof (removePolicies_facts t p rs 0) as F. rewrite E in F.
    destruct F as (-> & _ & Ho & _). rewrite Z.add_0_l. f_equal.
    eapply (removal_counts_agree t t' s _ p); try done. apply remove_affected, Hs.
  - right. apply removeFiltered_facts in E as (-> & Ho & _). f_equal.
    eapply (removal_counts_agree t t' s _ p); try done. apply removeFiltered_affected, Hs.
Qed.

(** Replayed in a process in step with storage, a batch never asks for a
    recovery: every removal affects as many rules in memory as it removed
    rows, and the process is in step with storage after it again. *)
Lemma replay_in_step_agrees (t t' : table) (s : policySet) ms counts
    (Ht : good_table t) (Hn : NoDup t) (Hs : good_set s) (Hag : agrees t s)
    (Hms : good_batch ms) (E : applyToStore t ms = Some (t', counts)) :
  exists s', replay s ms counts = (s', true) /\ good_set s' /\ agrees t' s'.
Proof.
  revert t s counts Ht Hn Hs Hag E. induction ms as [|m ms IH]; intros t s counts Ht Hn Hs Hag.
  { intros [= <- <-]. by exists s. }
  simpl. apply Forall_cons in Hms as [Hm Hms].
  intros ([t1 c1] & E1 & ([t2 c2] & E2 & [= <- <-])%bind_Some)%bind_Some.
  destruct (mutation_counts_agree t s m t1 c1 Ht Hn Hs Hag Hm E1) as (Ht1 & Hn1 & Hs1 & Hag1 & Hc).
  destruct (applyMutation s m) as [s1 affected]. cbn [fst snd] in *.
  replace (negb (c1 =? storedCountUnknown)%Z && negb (c1 =? Z.of_nat (length affected))%Z)
    with false by (destruct Hc as [->| ->]; rewrite Z.eqb_refl; by rewrite ?andb_false_r).
  by apply (IH Hms t1 s1 c2).
Qed.

(** ** The permissions of a role *)

Lemma unique_permissions_ok ps seen :
  NoDup (unique_permissions ps seen) /\
  forall p, p ∈ unique_permissions ps seen <-> p ∈ ps /\ p ∉ seen.
Proof.
  revert seen. induction ps as [|q ps IH]; intros seen; simpl.
  { split; [constructor|]. intros p. split; [by intros []%elem_of_nil|by intros [[]%elem_of_nil _]]. }
  case_decide as Hq.
  - destruct (IH seen) as [Hn Hx]. split; [done|]. intros p. rewrite Hx, elem_of_cons.
    split; [tauto|]. intros [[->|?] ?]; [done|tauto].
  - destruct (IH (q :: seen)) as [Hn Hx]. split.
    + apply NoDup_cons. split; [|done]. rewrite Hx. intros [_ Hq']. apply Hq'. by left.
    + intros p. rewrite !elem_of_cons, Hx, not_elem_of_cons.
      destruct (decide (p = q)) as [->|]; tauto.
Qed.

Lemma elem_of_permissionPolicies tenant role ps r :
  r ∈ permissionPolicies tenant role ps <->
  exists p, p ∈ ps /\ r = [tenant; role; Object p; Action p; EffectAllow].
Proof.
  unfold permissionPolicies. split.
  - intros (p & -> & Hp)%list_elem_of_fmap. rewrite merge_sort_Permutation in Hp.
    apply unique_permissions_ok in Hp as [Hp _]. eauto.
  - intros (p & Hp & ->). apply list_elem_of_fmap. exists p. split; [done|].
    rewrite merge_sort_Permutation. apply unique_permissions_ok. split; [done|apply not_elem_of_nil].
Qed.

Lemma matches_two r i a b :
  a <> ""%string -> b <> ""%string ->
  ruleMatchesFilter r i [a; b] = true <-> r !! i = Some a /\ r !! S i = Some b.
Proof.
  intros Ha Hb. simpl. rewrite (proj2 (String.eqb_neq _ _) Ha), (proj2 (String.eqb_neq _ _) Hb).
  destruct (r !! i) as [v|]; [|split; [done|by intros []]].
  destruct (String.eqb_spec v a) as [->|Hv].
  - destruct (r !! S i) as [w|]; [|split; [done|by intros []]].
    destruct (String.eqb_spec w b) as [->|Hw]; [done|]. split; [done|]. intros [_ [= ->]]. done.
  - split; [done|]. intros [[= ->] _]. done.
Qed.

Lemma matches_one r i a :
  a <> ""%string -> ruleMatchesFilter r i [a] = true <-> r !! i = Some a.
Proof.
  intros Ha. simpl. rewrite (proj2 (String.eqb_neq _ _) Ha).
  destruct (r !! i) as [v|]; [|done]. destruct (String.eqb_spec v a) as [->|Hv]; [done|].
  split; [done|]. intros [= ->]. done.
Qed.

(** The values a caller passes that a rule can carry. *)
Definition nul_free_permission (p : Permission) : Prop :=
  nul_free (Object p) = true /\ nul_free (Action p) = true.

Lemma permission_good tenant role p :
  nul_free tenant = true -> nul_free role = true -> nul_free_permission p ->
  good_item (policyKind, [tenant; role; Object p; Action p; EffectAllow]).
Proof.
  intros Ht Hr [Ho Ha]. exists 5. split; [done|]. split; [done|]. by repeat constructor.
Qed.

Lemma replacePermissions_good tenant role ps :
  nul_free tenant = true -> nul_free role = true -> Forall nul_free_permission ps ->
  good_batch (replacePermissions tenant role ps).
Proof.
  intros Ht Hr Hps. apply Forall_cons. split; [done|].
  pose proof (elem_of_permissionPolicies tenant role ps) as Hin.
  destruct (permissionPolicies tenant role ps) as [|r0 rs]; [constructor|].
  apply Forall_singleton. intros r (p & Hp & ->)%Hin. rewrite Forall_forall in Hps.
  apply permission_good; auto.
Qed.

(** A policy of a role in a tenant. *)
Definition policy_of (tenant role : string) (x : string * rule) : Prop :=
  x.1 = policyKind /\ x.2 !! 0 = Some tenant /\ x.2 !! 1 = Some role.

Lemma outcome_add_any p rs x v :
  outcome (match rs with [] => [] | r :: rs' => [addRules p (r :: rs')] end) x v = outcome1 (addRules p rs) x v.
Proof.
  destruct rs as [|r rs]; [|done]. unfold outcome1.
  destruct (touches (addRules p []) x) eqn:E; [|done]. by apply touches_iff in E as [_ []%elem_of_nil].
Qed.

Lemma replacePermissions_outcome tenant role ps x v :
  tenant <> ""%string -> role <> ""%string ->
  outcome (replacePermissions tenant role ps) x v = true <->
  (exists p, p ∈ ps /\ x = (policyKind, [tenant; role; Object p; Action p; EffectAllow])) \/
  (v = true /\ ~ policy_of tenant role x).
Proof.
  intros Ht Hr. unfold replacePermissions.
  change (outcome (?m :: ?l) x v) with (outcome l x (outcome1 m x v)).
  rewrite outcome_add_any. unfold outcome1. cbn [is_add].
  assert (touches (filterRules policyKind 0 [tenant; role]) x = true <-> policy_of tenant role x) as Hf.
  { rewrite touches_iff, matches_two by done. done. }
  assert (touches (addRules policyKind (permissionPolicies tenant role ps)) x = true <->
    exists p, p ∈ ps /\ x = (policyKind, [tenant; role; Object p; Action p; EffectAllow])) as Ha.
  { rewrite touches_iff, elem_of_permissionPolicies. destruct x as [k r]; simpl. split.
    - intros [-> (p & Hp & ->)]. by exists p.
    - intros (p & Hp & [= -> ->]). split; [done|]. by exists p. }
  destruct (touches (addRules _ _) x); [by rewrite <- Ha; split; [left|]|].
  destruct (touches (filterRules _ _ _) x).
  - rewrite <- Ha, <- Hf. split; [done|]. intros [?|[_ H]]; [done|]. by destruct H.
  - rewrite <- Ha, <- Hf. split; [by right|]. by intros [?|[? _]].
Qed.

(** Replacing the permissions of a role leaves stored, of the policies of
    that role in that tenant, exactly the permissions given, and every other
    rule as it was; the reserved role is refused. *)
Lemma SetRolePermissions_replaces (tenant role : string) ps (t t' : table) ms counts
    (Hset : SetRolePermissions tenant role ps = Ok ms) (Hvalid : forallb validate ms = true)
    (Hn : nul_free (normalizeTenant tenant) = true /\ nul_free role = true)
    (Hps : Forall nul_free_permission ps)
    (Ht : good_table t) (E : applyToStore t ms = Some (t', counts)) :
  role <> RoleAuthenticated /\
  forall x, good_item x ->
    (in_store t' x = true <->
     (exists p, p ∈ ps /\
        x = (policyKind, [normalizeTenant tenant; role; Object p; Action p; EffectAllow])) \/
     (in_store t x = true /\ ~ policy_of (normalizeTenant tenant) role x)).
Proof.
  unfold SetRolePermissions in Hset. destruct (String.eqb_spec role RoleAuthenticated); [done|].
  injection Hset as <-. split; [done|]. intros x Hx. destruct Hn as [Hnt Hnr].
  destruct (applyToStore_ok _ t t' counts Ht (replacePermissions_good _ _ _ Hnt Hnr Hps) E)
    as (_ & _ & ->); [|done].
  apply replacePermissions_outcome; [apply normalizeTenant_nonempty|].
  intros ->. cbn in Hvalid. rewrite andb_false_r in Hvalid. done.
Qed.

(** ** The order of the rules of a batch *)

#[export] Instance permission_le_total : Total permission_le.
Proof.
  intros a b. unfold permission_le. rewrite (String.compare_antisym (Object b) (Object a)).
  destruct (String.compare (Object a) (Object b)); simpl; [apply String.leb_total|by left|by right].
Qed.

#[export] Instance permission_le_trans : Transitive permission_le.
Proof.
  intros a b c. unfold permission_le.
  destruct (String.compare (Object a) (Object b)) eqn:E1; [|intros _|done].
  - apply string_compare_eq in E1 as ->.
    destruct (String.compare (Object b) (Object c)); [apply string_leb_trans|done..].
  - destruct (String.compare (Object b) (Object c)) eqn:E2; [|intros _|done].
    + apply string_compare_eq in E2 as <-. by rewrite E1.
    + by rewrite (string_lt_trans _ _ _ E1 E2).
Qed.

#[export] Instance permission_le_antisym : AntiSymm (=) permission_le.
Proof.
  intros [o a] [o' a']. unfold permission_le. simpl.
  rewrite (String.compare_antisym o' o).
  destruct (String.compare o o') eqn:E; simpl; [|done..].
  apply string_compare_eq in E as ->. intros H1 H2. f_equal. by apply String.leb_antisym.
Qed.

(** The policies of a permission set depend on the set alone: neither
    the order a caller lists permissions in nor repeats change the rules or
    their order, no rule comes twice, and the rules are in the order of their
    objects, then of their actions. *)
Lemma permissionPolicies_canonical tenant role ps ps' (H : forall p, p ∈ ps <-> p ∈ ps') :
  permissionPolicies tenant role ps = permissionPolicies tenant role ps' /\
  NoDup (permissionPolicies tenant role ps) /\
  exists sorted, Sorted permission_le sorted /\
    permissionPolicies tenant role ps =
      map (fun p => [tenant; role; Object p; Action p; EffectAllow]) sorted.
Proof.
  destruct (unique_permissions_ok ps []) as [Hn Hin], (unique_permissions_ok ps' []) as [Hn' Hin'].
  split; [|split].
  - unfold permissionPolicies. f_equal. apply (Sorted_unique permission_le); [apply (Sorted_merge_sort _)..|].
    rewrite !merge_sort_Permutation. apply NoDup_Permutation; [done..|].
    intros p. by rewrite Hin, Hin', H.
  - unfold permissionPolicies. apply (NoDup_fmap_2_strong (fun p => [tenant; role; Object p; Action p; EffectAllow])).
    + intros [o a] [o' a'] _ _ [= -> ->]. done.
    + by rewrite merge_sort_Permutation.
  - eexists. split; [|done]. apply (Sorted_merge_sort _).
Qed.

(** ** Roles and subjects *)

Lemma batch_stored ms t t' counts x :
  good_table t -> good_batch ms -> applyToStore t ms = Some (t', counts) -> good_item x ->
  in_store t' x = outcome ms x (in_store t x).
Proof. intros Ht Hms E Hx. by destruct (applyToStore_ok ms t t' counts Ht Hms E) as (_ & _ & ->). Qed.

Lemma assignment_good tenant subject role :
  nul_free tenant = true -> nul_free subject = true -> nul_free role = true ->
  good_item (tenantRoleGrouping, [subject; role; tenant]) /\
  good_item (systemRoleGrouping, [subject; role]).
Proof.
  intros Ht Hs Hr. split; (eexists; split; [done|split; [done|by repeat constructor]]).
Qed.

Lemma touches_single m p r x :
  m = addRules p [r] \/ m = removeRules p [r] ->
  touches m x = bool_decide (x = (p, r)).
Proof.
  intros Hm. apply eq_true_iff_eq. rewrite touches_iff, bool_decide_eq_true.
  destruct x as [q r']. destruct Hm as [->| ->]; simpl; rewrite list_elem_of_singleton;
    (split; [by intros [-> ->]|by intros [= -> ->]]).
Qed.

(** Assigning a role stores the one assignment and unassigning it removes
    the one assignment, in the tenant the call resolves to or outside any
    tenant; every other rule stays; and only an assignment of a name to
    itself is refused. *)
Lemma assignments_write_one_rule (tenant subject role : string) (t : table)
    (Hn : nul_free (normalizeTenant tenant) = true /\ nul_free subject = true /\ nul_free role = true)
    (Ht : good_table t) :
  (AssignRole tenant subject role = Err ErrSubjectIsRole <-> subject = role) /\
  (AssignSystemRole subject role = Err ErrSubjectIsRole <-> subject = role) /\
  let g := (tenantRoleGrouping, [subject; role; normalizeTenant tenant]) in
  let g2 := (systemRoleGrouping, [subject; role]) in
  forall t' counts x, good_item x ->
    (forall ms, AssignRole tenant subject role = Ok ms -> applyToStore t ms = Some (t', counts) ->
       in_store t' x = if decide (x = g) then true else in_store t x) /\
    (applyToStore t (UnassignRole tenant subject role) = Some (t', counts) ->
       in_store t' x = if decide (x = g) then false else in_store t x) /\
    (forall ms, AssignSystemRole subject role = Ok ms -> applyToStore t ms = Some (t', counts) ->
       in_store t' x = if decide (x = g2) then true else in_store t x) /\
    (applyToStore t (UnassignSystemRole subject role) = Some (t', counts) ->
       in_store t' x = if decide (x = g2) then false else in_store t x).
Proof.
  assert (forall ms, (if String.eqb subject role then Err ErrSubjectIsRole else Ok ms : result write_error (list policyMutation))
    = Err ErrSubjectIsRole <-> subject = role) as Hself.
  { intros ms. by destruct (String.eqb_spec subject role). }
  split; [apply Hself|]. split; [apply Hself|].
  intros g g2 t' counts x Hx. destruct Hn as (Hnt & Hns & Hnr).
  destruct (assignment_good _ _ _ Hnt Hns Hnr) as [Hg Hg2].
  assert (forall m k r, good_item (k, r) -> m = addRules k [r] \/ m = removeRules k [r] ->
    applyToStore t [m] = Some (t', counts) ->
    in_store t' x = if decide (x = (k, r)) then is_add m else in_store t x) as Hone.
  { intros m k r Hr Hm E.
    assert (good_batch [m]) as Hb.
    { apply Forall_cons. split; [|constructor].
      destruct Hm as [->| ->]; intros r' Hr'; apply list_elem_of_singleton in Hr' as ->; done. }
    rewrite (batch_stored [m] t t' counts x Ht Hb E Hx). simpl. unfold outcome1. rewrite (touches_single m k r x Hm).
    by destruct (decide (x = (k, r))); [rewrite bool_decide_eq_true_2|rewrite bool_decide_eq_false_2]. }
  unfold AssignRole, AssignSystemRole. destruct (String.eqb subject role);
    (split; [|split; [|split]]); try done.
  - apply (Hone (removeRules _ _)); auto.
  - apply (Hone (removeRules _ _)); auto.
  - intros ms [= <-]. apply (Hone (addRules _ _)); auto.
  - apply (Hone (removeRules _ _)); auto.
  - intros ms [= <-]. apply (Hone (addRules _ _)); auto.
  - apply (Hone (removeRules _ _)); auto.
Qed.

(** Removing a subject leaves no assignment of it, in any tenant or
    outside them, and removing a role no policy of it and no assignment to it
    in its tenant; every other rule stays. *)
Lemma removals_revoke (tenant subject role : string) (t t' : table) counts
    (Ht : good_table t) (Hs : subject <> ""%string) (Hr : role <> ""%string) :
  (applyToStore t (RemoveSubject subject) = Some (t', counts) -> forall x, good_item x ->
     (in_store t' x = true <-> in_store t x = true /\
        ~ ((x.1 = tenantRoleGrouping \/ x.1 = systemRoleGrouping) /\ x.2 !! 0 = Some subject))) /\
  (applyToStore t (RemoveRole tenant role) = Some (t', counts) -> forall x, good_item x ->
     (in_store t' x = true <-> in_store t x = true /\
        ~ policy_of (normalizeTenant tenant) role x /\
        ~ (x.1 = tenantRoleGrouping /\ x.2 !! 1 = Some role /\ x.2 !! 2 = Some (normalizeTenant tenant)))).
Proof.
  assert (forall m1 m2 x, good_item x -> is_add m1 = false -> is_add m2 = false ->
    good_mutation m1 -> good_mutation m2 -> applyToStore t [m1; m2] = Some (t', counts) ->
    (in_store t' x = true <-> in_store t x = true /\ touches m1 x <> true /\ touches m2 x <> true)) as Htwo.
  { intros m1 m2 x Hx A1 A2 G1 G2 E. rewrite (batch_stored [m1; m2] t t' counts x Ht) by
      (done || by repeat constructor).
    simpl. unfold outcome1. rewrite A1, A2. destruct (touches m1 x), (touches m2 x), (in_store t x);
      intuition congruence. }
  split; intros E x Hx.
  - rewrite (Htwo (filterRules tenantRoleGrouping 0 [subject]) (filterRules systemRoleGrouping 0 [subject])
      x Hx eq_refl eq_refl I I E), !touches_iff, !matches_one by done. tauto.
  - rewrite (Htwo (filterRules policyKind 0 [normalizeTenant tenant; role])
      (filterRules tenantRoleGrouping 1 [role; normalizeTenant tenant])
      x Hx eq_refl eq_refl I I E), !touches_iff, !matches_two
      by (done || apply normalizeTenant_nonempty). unfold policy_of. tauto.
Qed.

(** ** Witnesses *)

Definition sample_rows : table :=
  [newPolicyRow policyKind ["default"; "editor"; "/api/posts"; "GET"; "allow"]%string;
   newPolicyRow policyKind ["default"; "viewer"; "/api/posts"; "GET"; "allow"]%string;
   newPolicyRow tenantRoleGrouping ["alice"; "editor"; "default"]%string].

Definition sample_rules : policySet :=
  Eval vm_compute in match loadPolicies sample_rows with Ok s => s | Err _ => newPolicySet end.

Lemma sample_rows_good : good_table sample_rows.
Proof.
  intros row. unfold sample_rows. rewrite !elem_of_cons.
  intros [->|[->|[->|[]%elem_of_nil]]].
  - exists (policyKind, ["default"; "editor"; "/api/posts"; "GET"; "allow"]%string).
    split; [|done]. exists 5. split; [done|]. split; [done|]. by repeat constructor.
  - exists (policyKind, ["default"; "viewer"; "/api/posts"; "GET"; "allow"]%string).
    split; [|done]. exists 5. split; [done|]. split; [done|]. by repeat constructor.
  - exists (tenantRoleGrouping, ["alice"; "editor"; "default"]%string).
    split; [|done]. exists 3. split; [done|]. split; [done|]. by repeat constructor.
Qed.

Lemma sample_rows_loaded : good_set sample_rules /\ agrees sample_rows sample_rules.
Proof.
  destruct (loadPolicies_ok sample_rows sample_rows_good) as (s & E & Hs & Hx).
  assert (loadPolicies sample_rows = Ok sample_rules) as E' by (vm_compute; reflexivity).
  rewrite E' in E. clear E'. injection E as <-. exact (conj Hs Hx).
Qed.

Definition sample_permissions : list Permission :=
  [mkPermission "/api/posts" "PUT"; mkPermission "/api/posts" "GET"; mkPermission "/api/posts" "PUT"].

Lemma sample_permissions_nul_free : Forall nul_free_permission sample_permissions.
Proof. by repeat constructor. Qed.

Lemma replay_in_step_agrees_witness :
  exists t' counts s',
    applyToStore sample_rows (RemoveRole " default" "editor") = Some (t', counts) /\
    counts = [1; 1]%Z /\ replay sample_rules (RemoveRole " default" "editor") counts = (s', true).
Proof.
  do 2 eexists.
  destruct (replay_in_step_agrees sample_rows
    (match applyToStore sample_rows (RemoveRole " default" "editor") with Some (t, _) => t | None => [] end)
    sample_rules (RemoveRole " default" "editor")
    (match applyToStore sample_rows (RemoveRole " default" "editor") with Some (_, c) => c | None => [] end)
    sample_rows_good ltac:(by apply (bool_decide_unpack _); vm_compute)
    (proj1 sample_rows_loaded) (proj2 sample_rows_loaded) ltac:(by repeat constructor)
    ltac:(vm_compute; reflexivity)) as (s' & E & _).
  exists s'. split; [vm_compute; reflexivity|]. split; [reflexivity|exact E].
Defined.

Lemma SetRolePermissions_replaces_witness :
  exists ms t' counts,
    SetRolePermissions "" "editor" sample_permissions = Ok ms /\
    applyToStore sample_rows ms = Some (t', counts) /\
    (in_store t' (policyKind, ["default"; "editor"; "/api/posts"; "PUT"; "allow"]%string) = true <->
     (exists p, p ∈ sample_permissions /\
        (policyKind, ["default"; "editor"; "/api/posts"; "PUT"; "allow"]%string) =
        (policyKind, [normalizeTenant ""; "editor"%string; Object p; Action p; EffectAllow])) \/
     (in_store sample_rows (policyKind, ["default"; "editor"; "/api/posts"; "PUT"; "allow"]%string) = true /\
      ~ policy_of (normalizeTenant "") "editor"
          (policyKind, ["default"; "editor"; "/api/posts"; "PUT"; "allow"]%string))).
Proof.
  do 3 eexists. split; [reflexivity|]. split; [vm_compute; reflexivity|].
  eapply (SetRolePermissions_replaces "" "editor" sample_permissions sample_rows);
    [reflexivity|reflexivity|by split|exact sample_permissions_nul_free|exact sample_rows_good|
     vm_compute; reflexivity|].
  exists 5. split; [done|]. split; [done|]. by repeat constructor.
Defined.

Lemma permissionPolicies_canonical_witness :
  permissionPolicies "default" "editor" sample_permissions =
  permissionPolicies "default" "editor" [mkPermission "/api/posts" "GET"; mkPermission "/api/posts" "PUT"].
Proof.
  apply (permissionPolicies_canonical "default" "editor" sample_permissions
    [mkPermission "/api/posts" "GET"; mkPermission "/api/posts" "PUT"]).
  intros p. unfold sample_permissions. rewrite !elem_of_cons. tauto.
Defined.

Lemma assignments_write_one_rule_witness :
  exists t' counts,
    applyToStore sample_rows (UnassignRole "" "alice" "editor") = Some (t', counts) /\
    in_store t' (tenantRoleGrouping, ["alice"; "editor"; "default"]%string) = false.
Proof.
  do 2 eexists. split; [vm_compute; reflexivity|].
  destruct (assignments_write_one_rule "" "alice" "editor" sample_rows ltac:(by split) sample_rows_good)
    as (_ & _ & H).
  eapply H; [|vm_compute; reflexivity].
  exists 3. split; [done|]. split; [done|]. by repeat constructor.
Defined.

Lemma removals_revoke_witness :
  exists t' counts,
    applyToStore sample_rows (RemoveSubject "alice") = Some (t', counts) /\
    forall x, good_item x ->
      (in_store t' x = true <-> in_store sample_rows x = true /\
         ~ ((x.1 = tenantRoleGrouping \/ x.1 = systemRoleGrouping) /\ x.2 !! 0 = Some "alice"%string)).
Proof.
  do 2 eexists. split; [vm_compute; reflexivity|].
  eapply (removals_revoke "default" "alice" "editor" sample_rows _ _ sample_rows_good);
    [discriminate|discriminate|vm_compute; reflexivity].
Defined.

Definition aliased_rules : list rule :=
  [[String.append "a" (String.append nul "b"); "r"%string]; ["a"%string; String.append "b" (String.append nul "r")]].

(** Rules whose values carry the separator of [ruleKey] share a key: two
    such rules are stored apart and held in memory as one, and the count
    check of the batch that adds them notices nothing. *)
Lemma aliased_rules_not_noticed :
  let ms := [addRules systemRoleGrouping aliased_rules] in
  forallb validate ms = true /\
  exists t' counts s',
    applyToStore [] ms = Some (t', counts) /\ replay newPolicySet ms counts = (s', true) /\
    length t' = 2 /\ rules_of s' systemRoleGrouping = take 1 aliased_rules.
Proof.
  split; [reflexivity|]. do 3 eexists. split; [vm_compute; reflexivity|].
  split; [vm_compute; reflexivity|]. split; reflexivity.
Qed.
