(* ===== verification/PbSchema.v ===== *)
(** * Protobuf definitions held to the committed ones

    Models [internal/pbschema/reconcile.go].  The generated definitions of a
    file are held to the committed file of the same name, message by message
    and service by service; every breach of the contract is reported, and
    what a message drops is reserved in it.

    A message descriptor keeps what the reconciliation reads of it.  A parsed
    file is either absent, unreadable, or its messages and services; the
    parser is third-party code, so what it reads is an argument.  Go's maps
    that collect a list by name keep the last of a name. *)

From stdpp Require Import base list gmap strings sorting.
From Stdlib Require Import ZArith Lia Ascii.
From S2P Require Import Prelude GoStrings.
Local Open Scope Z_scope.

(** ** Descriptors *)

Inductive field_type : Set :=
| TYPE_DOUBLE | TYPE_FLOAT | TYPE_INT64 | TYPE_UINT64 | TYPE_INT32
| TYPE_FIXED64 | TYPE_FIXED32 | TYPE_BOOL | TYPE_STRING | TYPE_GROUP
| TYPE_MESSAGE | TYPE_BYTES | TYPE_UINT32 | TYPE_ENUM | TYPE_SFIXED32
| TYPE_SFIXED64 | TYPE_SINT32 | TYPE_SINT64.

Inductive label : Set := LABEL_OPTIONAL | LABEL_REQUIRED | LABEL_REPEATED.

#[export] Instance field_type_eq_dec : EqDecision field_type.
Proof. solve_decision. Defined.
#[export] Instance label_eq_dec : EqDecision label.
Proof. solve_decision. Defined.

(** [TypeName] is empty for a scalar. *)
Record field : Set := mkField {
  Name : string; Number : Z; Label : label; Type_ : field_type; TypeName : string }.

(** The end of a range is exclusive. *)
Record range : Set := mkRange { Start : Z; End_ : Z }.

#[export] Instance range_eq_dec : EqDecision range.
Proof. solve_decision. Defined.
#[export] Instance field_eq_dec : EqDecision field.
Proof. solve_decision. Defined.

Inductive message : Set := Message {
  MsgName : string;
  Fields : list field;
  ReservedRange : list range;
  ReservedName : list string;
  NestedType : list message;
  MapEntry : bool }.

Record method : Set := mkMethod {
  MethodName : string; InputType : string; OutputType : string;
  ClientStreaming : bool; ServerStreaming : bool }.

Record service : Set := mkService { ServiceName : string; Methods : list method }.

(** ** Names and types *)

(** [strings.LastIndex(s, c)]: -1 where [s] does not hold [c]. *)
Fixpoint last_index (c : ascii) (s : string) (i last : Z) : Z :=
  match s with
  | EmptyString => last
  | String a s => last_index c s (i + 1) (if (a =? c)%char then i else last)
  end.

Definition LastIndex (s : string) (c : ascii) : Z := last_index c s 0 (-1).

(** [s[i:]]. *)
Definition from (i : Z) (s : string) : string :=
  String.substring (Z.to_nat i) (String.length s - Z.to_nat i) s.

Definition messageOfType (typeName : string) : string := from (LastIndex typeName "." + 1) typeName.

(** The keyword of a type: its descriptor name without [TYPE_], in lower
    case. *)
Definition keyword (t : field_type) : string :=
  match t with
  | TYPE_DOUBLE => "double" | TYPE_FLOAT => "float" | TYPE_INT64 => "int64"
  | TYPE_UINT64 => "uint64" | TYPE_INT32 => "int32" | TYPE_FIXED64 => "fixed64"
  | TYPE_FIXED32 => "fixed32" | TYPE_BOOL => "bool" | TYPE_STRING => "string"
  | TYPE_GROUP => "group" | TYPE_MESSAGE => "message" | TYPE_BYTES => "bytes"
  | TYPE_UINT32 => "uint32" | TYPE_ENUM => "enum" | TYPE_SFIXED32 => "sfixed32"
  | TYPE_SFIXED64 => "sfixed64" | TYPE_SINT32 => "sint32" | TYPE_SINT64 => "sint64"
  end.

Definition typeName (f : field) : string :=
  if (TypeName f =? "")%string then keyword (Type_ f)
  else from (LastIndex (TypeName f) "." + 1) (TypeName f).

Definition wireType (f : field) : string :=
  if negb (TypeName f =? "")%string then "named:" +:+ typeName f
  else
    match Type_ f with
    | TYPE_INT32 | TYPE_INT64 | TYPE_UINT32 | TYPE_UINT64 | TYPE_BOOL => "varint"
    | TYPE_SINT32 | TYPE_SINT64 => "zigzag"
    | TYPE_STRING | TYPE_BYTES => "bytes"
    | TYPE_FIXED32 | TYPE_SFIXED32 => "fixed32"
    | TYPE_FIXED64 | TYPE_SFIXED64 => "fixed64"
    | _ => typeName f
    end.

Definition repeated (f : field) : bool := bool_decide (Label f = LABEL_REPEATED).

Definition cardinality (f : field) : string := if repeated f then "repeated" else "singular".

Definition streaming (m : method) : string :=
  if ClientStreaming m && ServerStreaming m then "bidirectional streaming"
  else if ClientStreaming m then "client streaming"
  else if ServerStreaming m then "server streaming"
  else "unary".

(** ** Reserved ranges *)

Definition reserves (ranges : list range) (n : Z) : bool :=
  existsb (fun r => (Start r <=? n) && (n <? End_ r)) ranges.

(** The comparison of the sort: the sign of a difference of 32 bits. *)
Definition start_le (a b : range) : Prop := wrap32 (Start a - Start b) <= 0.

#[export] Instance start_le_dec a b : Decision (start_le a b).
Proof. unfold start_le. apply _. Defined.

(** One turn of the loop; [merged] holds the last range first. *)
Definition merge_step (merged : list range) (r : range) : list range :=
  match merged with
  | last :: rest =>
      if Start r <=? End_ last then
        (if End_ last <? End_ r then mkRange (Start last) (End_ r) else last) :: rest
      else r :: merged
  | [] => [r]
  end.

Definition mergeRanges (ranges : list range) : list range :=
  reverse (foldl merge_step [] (merge_sort start_le ranges)).

(** ** Breaches *)

Inductive breach : Set :=
| Renumbered (msg field : string) (was now : Z)
| CardinalityChanged (msg field was now : string)
| TypeChanged (msg field was now : string)
| NumberHeld (msg field : string) (number : Z) (holder : string)
| NumberReserved (msg field : string) (number : Z)
| NameReserved (msg field : string)
| MessageGone (msg : string)
| ServiceGone (service : string)
| RpcGone (service rpc : string)
| RequestChanged (service rpc was now : string)
| ResponseChanged (service rpc was now : string)
| StreamingChanged (service rpc was now : string)
| Unreadable (file : string).

(** ** Messages *)

(** The fields of a message by name, and the names by number. *)
Definition by_name (fs : list field) : gmap string field :=
  collect Name id fs.
Definition by_number (fs : list field) : gmap Z string :=
  collect Number Name fs.

(** The switch of [holdMessage] on one field. *)
Definition hold_field (name : string) (committed : message) (f : field) : option breach :=
  let known := by_name (Fields committed) !! Name f in
  let held := by_number (Fields committed) !! Number f in
  let changed :=
    was ← known;
    if negb (Number was =? Number f) then Some (Renumbered name (Name f) (Number was) (Number f))
    else if negb (Bool.eqb (repeated was) (repeated f)) then
      Some (CardinalityChanged name (Name f) (cardinality was) (cardinality f))
    else if negb (wireType was =? wireType f)%string then
      Some (TypeChanged name (Name f) (typeName was) (typeName f))
    else None in
  let taken := holder ← held;
    if negb (holder =? Name f)%string then Some (NumberHeld name (Name f) (Number f) holder) else None in
  match changed, taken with
  | Some b, _ => Some b
  | None, Some b => Some b
  | None, None =>
      if reserves (ReservedRange committed) (Number f) then Some (NumberReserved name (Name f) (Number f))
      else if bool_decide (Name f ∈ ReservedName committed) then Some (NameReserved name (Name f))
      else None
  end.

(** The committed fields the message no longer has. *)
Definition dropped (committed msg : message) : list field :=
  filter (fun f => Name f ∉ Name <$> Fields msg) (Fields committed).

Definition sorted_names (names : gset string) : list string := merge_sort string_le (elements names).

(** The message held to its committed counterpart: what it reserves, and the
    breaches reported. *)
Definition hold (name : string) (committed msg : message) : message * list breach :=
  let gone := dropped committed msg in
  let reserved := ReservedRange committed ++
    map (fun f => mkRange (Number f) (wrap32 (Number f + 1))) gone in
  let names : gset string := list_to_set (ReservedName committed) ∪ list_to_set (Name <$> gone) in
  (Message (MsgName msg) (Fields msg) (mergeRanges reserved) (sorted_names names) (NestedType msg) (MapEntry msg),
   omap (hold_field name committed) (Fields msg)).

Definition dotted (parent name : string) : string :=
  if (parent =? "")%string then name else parent +:+ "." +:+ name.

Definition with_nested (nested : list message) (m : message) : message :=
  Message (MsgName m) (Fields m) (ReservedRange m) (ReservedName m) nested (MapEntry m).

Fixpoint holdMessage (old : gmap string message) (parent : string) (msg : message) : message * list breach :=
  let name := dotted parent (MsgName msg) in
  let '(held, reports) :=
    match old !! name with
    | Some committed => hold name committed msg
    | None => (msg, [])
    end in
  let nested := map (holdMessage old name) (NestedType msg) in
  (with_nested (map fst nested) held, reports ++ concat (map snd nested)).

Fixpoint index_message (parent : string) (m : message) (index : gmap string message) : gmap string message :=
  let name := dotted parent (MsgName m) in
  foldl (fun index nested => index_message name nested index) (<[name := m]> index) (NestedType m).

Definition indexMessages (messages : list message) (parent : string) (index : gmap string message) : gmap string message :=
  foldl (fun index m => index_message parent m index) index messages.

(** ** Services *)

Definition services_by_name (l : list service) : gmap string service :=
  collect ServiceName id l.
Definition methods_by_name (l : list method) : gmap string method :=
  collect MethodName id l.

(** The switch of [holdServices] on one committed rpc. *)
Definition hold_rpc (name : string) (methods : gmap string method) (was : method) : option breach :=
  match methods !! MethodName was with
  | None => Some (RpcGone name (MethodName was))
  | Some m =>
      if negb (messageOfType (InputType was) =? messageOfType (InputType m))%string then
        Some (RequestChanged name (MethodName was) (messageOfType (InputType was)) (messageOfType (InputType m)))
      else if negb (messageOfType (OutputType was) =? messageOfType (OutputType m))%string then
        Some (ResponseChanged name (MethodName was) (messageOfType (OutputType was)) (messageOfType (OutputType m)))
      else if negb (Bool.eqb (ClientStreaming was) (ClientStreaming m)) || negb (Bool.eqb (ServerStreaming was) (ServerStreaming m)) then
        Some (StreamingChanged name (MethodName was) (streaming was) (streaming m))
      else None
  end.

Definition hold_service (services : gmap string service) (name : string) (was : service) : list breach :=
  match services !! name with
  | None => [ServiceGone name]
  | Some svc => omap (hold_rpc name (methods_by_name (Methods svc))) (Methods was)
  end.

Definition holdServices (services : list service) (old : gmap string service) : list breach :=
  concat (omap (fun name => hold_service (services_by_name services) name <$> old !! name) (sorted_names (dom old))).

(** ** A file *)

Record file : Set := mkFile { Messages : list message; Services : list service }.

Inductive committedFile : Set := Absent | Failed | Parsed (f : file).

(** One turn of the loop of [reconcile]. *)
Definition reconcile_file (name : string) (committed : committedFile) (f : file) : file * list breach :=
  match committed with
  | Absent => (f, [])
  | Failed => (f, [Unreadable name])
  | Parsed c =>
      let old := indexMessages (Messages c) "" ∅ in
      let held := map (holdMessage old "") (Messages f) in
      let written := map fst held in
      let declared := indexMessages written "" ∅ in
      let gone := omap (fun name =>
        match declared !! name, old !! name with
        | None, Some m => if MapEntry m then None else Some (MessageGone name)
        | _, _ => None
        end) (sorted_names (dom old)) in
      (mkFile written (Services f),
       concat (map snd held) ++ gone ++ holdServices (Services f) (services_by_name (Services c)))
  end.

(** [reconcile] over the files about to be written, in the order the map
    gives them. *)
Definition reconcile (disk : string -> committedFile) (files : list (string * file)) :
    list (string * file) * list breach :=
  let held := map (fun p => (p.1, reconcile_file p.1 (disk p.1) p.2)) files in
  (map (fun p => (p.1, p.2.1)) held, concat (map (fun p => p.2.2) held)).

Example merge_example : mergeRanges [mkRange 20 21; mkRange 13 14; mkRange 12 14] = [mkRange 12 14; mkRange 20 21].
Proof. vm_compute. reflexivity. Qed.
Example hold_example :
  let text n k := mkField n k LABEL_OPTIONAL TYPE_STRING "" in
  hold "Note" (Message "Note" [text "title" 11; text "tags" 12] [] [] [] false) (Message "Note" [text "title" 11] [] [] [] false)
  = (Message "Note" [text "title" 11] [mkRange 12 13] ["tags"] [] false, []).
Proof. vm_compute. reflexivity. Qed.
Example qualified_example : messageOfType ".app.GetNoteRequest" = messageOfType "GetNoteRequest".
Proof. reflexivity. Qed.
