(* ===== verification/PbContract.v ===== *)
(** * The contract of a message

    What a client built against a committed message relies on, and that
    [hold] reports a breach exactly when a message does not keep it.  The
    contract is a preorder, so it survives any number of generations.  First,
    reserved ranges in normal form: [mergeRanges] covers the numbers its
    ranges cover, and what it answers is determined by them alone: sorted,
    apart, and the same whatever order and overlap the ranges came in. *)

From stdpp Require Import base list sets sorting gmap strings.
From Stdlib Require Import ZArith Lia Sorted.
From S2P Require Import Prelude GoStrings PbSchema.
Local Open Scope Z_scope.

(** Ranges as a parser accepts them: not empty and of field numbers. *)
Definition range_ok (r : range) : Prop := 1 <= Start r < End_ r /\ End_ r <= 2 ^ 29.

Definition in_range (r : range) (n : Z) : Prop := Start r <= n < End_ r.

Lemma reserves_elem l n : reserves l n = true <-> exists r, r ∈ l /\ in_range r n.
Proof.
  unfold reserves, in_range. rewrite existsb_exists. setoid_rewrite <- list_elem_of_In.
  split; intros (r & ? & H); exists r; split; try done; [apply andb_true_iff in H; lia|apply andb_true_iff; lia].
Qed.

Lemma reserves_nil n : reserves [] n = false.
Proof. done. Qed.
Lemma reserves_app l1 l2 n : reserves (l1 ++ l2) n = reserves l1 n || reserves l2 n.
Proof. apply existsb_app. Qed.
Lemma reserves_reverse l n : reserves (reverse l) n = reserves l n.
Proof. apply eq_true_iff_eq. rewrite !reserves_elem. by setoid_rewrite elem_of_reverse. Qed.

Lemma reserves_permutation l1 l2 n : l1 ≡ₚ l2 -> reserves l1 n = reserves l2 n.
Proof. intros Hp. apply eq_true_iff_eq. rewrite !reserves_elem. by setoid_rewrite Hp. Qed.

(** ** The sort *)

Lemma start_le_ok a b : range_ok a -> range_ok b -> start_le a b <-> Start a <= Start b.
Proof. unfold range_ok, start_le. intros ??. rewrite wrap32_id by lia. lia. Qed.

Definition ascending : list range -> Prop := StronglySorted (fun a b => Start a <= Start b).

#[export] Instance start_le_total : Total start_le.
Proof.
  intros a b. unfold start_le, wrap32. generalize (Start a) (Start b). intros x y.
  Z.to_euclidean_division_equations. lia.
Qed.

Lemma sorted_ascending l : Forall range_ok l -> ascending (merge_sort start_le l).
Proof.
  intros Hok. apply Sorted_StronglySorted; [intros ???; lia|].
  assert (Forall range_ok (merge_sort start_le l)) as Hs by by rewrite merge_sort_Permutation.
  pose proof (Sorted_merge_sort start_le l) as H. induction H as [|a l' H IH Hd]; [done|].
  inversion Hs as [|?? Ha Hl]; subst. constructor; [auto|].
  destruct Hd as [|b l' Hab]; constructor. apply start_le_ok; [done|by inversion Hl|done].
Qed.

(** ** The loop *)

(** Ranges apart from each other, one before the next. *)
Definition apart : list range -> Prop := StronglySorted (fun a b => End_ a < Start b).

Definition normal (l : list range) : Prop := apart l /\ Forall range_ok l.

(** The ranges merged so far, the last one first. *)
Record merged_ok (m : list range) (n : Z -> bool) : Prop := {
  merged_normal : normal (reverse m);
  merged_covers : forall k, reserves m k = n k }.

Lemma normal_snoc l r :
  normal (l ++ [r]) <-> normal l /\ range_ok r /\ forall x, x ∈ l -> End_ x < Start r.
Proof.
  unfold normal, apart. rewrite StronglySorted_app, Forall_app, Forall_singleton. split.
  - intros ((Hx & Ha & _) & Hl & Hr). split; [done|]. split; [done|]. intros x Hl'. apply Hx; set_solver.
  - intros ((Ha & Hl) & Hr & Hx). split; [|done]. split; [|split; [done|repeat constructor]].
    intros x y ? ->%list_elem_of_singleton. auto.
Qed.

Lemma merge_step_ok m n r :
  merged_ok m n -> range_ok r -> match m with last :: _ => Start last <= Start r | [] => True end ->
  merged_ok (merge_step m r) (fun k => n k || reserves [r] k).
Proof.
  intros [Hn Hc] Hr Hlast. destruct m as [|l m]; cbn [merge_step].
  { split; [repeat constructor; apply Hr|]. intros k. by rewrite <- Hc. }
  rewrite reverse_cons in Hn. pose proof Hn as (Hm & Hl & Hx)%normal_snoc. unfold range_ok in Hl, Hr.
  destruct (Z.leb_spec (Start r) (End_ l)) as [Hle|Hgt].
  - set (l' := if End_ l <? End_ r then _ else _).
    assert (Start l' = Start l /\ End_ l' = Z.max (End_ l) (End_ r)) as [E1 E2] by (unfold l'; case_cmp; simpl; lia).
    split.
    + rewrite reverse_cons. apply normal_snoc. split; [done|]. split; [unfold range_ok; lia|]. intros x Hx'. rewrite E1. auto.
    + intros k. rewrite <- Hc. cbn. rewrite E1, E2, orb_false_r, <- orb_assoc, (orb_comm (existsb _ _)), orb_assoc. f_equal.
      apply eq_true_iff_eq. rewrite orb_true_iff, !andb_true_iff. lia.
  - split.
    + rewrite !reverse_cons. apply normal_snoc. split; [done|]. split; [done|].
      intros x [Hx'| ->%list_elem_of_singleton]%elem_of_app; [|done]. specialize (Hx x Hx'). lia.
    + intros k. rewrite <- Hc. cbn. rewrite orb_false_r. apply orb_comm.
Qed.

Lemma merge_loop_ok rs m n :
  merged_ok m n -> Forall range_ok rs -> ascending rs ->
  match m with last :: _ => Forall (fun r => Start last <= Start r) rs | [] => True end ->
  merged_ok (foldl merge_step m rs) (fun k => n k || reserves rs k).
Proof.
  intros Hm Hok Hs. revert m n Hm. induction Hs as [|r rs Hs IH Hr]; intros m n Hm Hlast; cbn [foldl].
  { destruct Hm as [Hn Hc]. split; [done|]. intros k. by rewrite Hc, orb_false_r. }
  inversion Hok as [|?? Hro Hok']; subst.
  pose proof (merge_step_ok m n r Hm Hro) as Hstep.
  destruct (IH Hok' (merge_step m r) (fun k => n k || reserves [r] k)) as [Hn Hc].
  - apply Hstep. destruct m; [done|]. by inversion Hlast.
  - destruct m as [|l m]; cbn [merge_step]; [done|]. apply Forall_cons in Hlast as [Hl Hls].
    case_cmp; done.
  - split; [done|]. intros k. rewrite Hc. cbn. by rewrite orb_false_r, <- orb_assoc.
Qed.

Lemma mergeRanges_ok l :
  Forall range_ok l -> normal (mergeRanges l) /\ forall n, reserves (mergeRanges l) n = reserves l n.
Proof.
  intros Hok. unfold mergeRanges.
  destruct (merge_loop_ok (merge_sort start_le l) [] (fun _ => false)) as [Hn Hc].
  - split; [split; constructor|done].
  - by rewrite merge_sort_Permutation.
  - by apply sorted_ascending.
  - done.
  - split; [done|]. intros n. rewrite reserves_reverse, Hc. cbn [orb].
    apply reserves_permutation, merge_sort_Permutation.
Qed.

(** ** The normal form *)

Lemma normal_cons r l : normal (r :: l) <-> range_ok r /\ normal l /\ Forall (fun x => End_ r < Start x) l.
Proof. unfold normal, apart. rewrite StronglySorted_cons, Forall_cons. tauto. Qed.

(** What a normal list covers from its head. *)
Lemma normal_head r l n : normal (r :: l) -> reserves (r :: l) n = true ->
  in_range r n \/ End_ r < n /\ reserves l n = true.
Proof.
  intros (Hr & _ & Ha)%normal_cons (x & [->|Hx]%elem_of_cons & Hn)%reserves_elem; [by left|right].
  rewrite Forall_forall in Ha. specialize (Ha x Hx). unfold in_range in Hn. split; [lia|].
  apply reserves_elem. by exists x.
Qed.

Lemma normal_start_covered r l : range_ok r -> reserves (r :: l) (Start r) = true.
Proof. intros Hr. apply reserves_elem. exists r. split; [constructor|]. unfold in_range, range_ok in *. lia. Qed.

Lemma normal_start_le r1 l1 r2 l2 :
  normal (r1 :: l1) -> normal (r2 :: l2) ->
  (forall n, reserves (r1 :: l1) n = true -> reserves (r2 :: l2) n = true) -> Start r2 <= Start r1.
Proof.
  intros H1 H2 Hc. pose proof H1 as (Hr1 & _)%normal_cons. pose proof H2 as (Hr2 & _)%normal_cons.
  pose proof (Hc _ (normal_start_covered r1 l1 Hr1)) as Hs.
  unfold range_ok in *. destruct (normal_head _ _ _ H2 Hs) as [Hn|[Hn _]]; unfold in_range in *; lia.
Qed.

Lemma normal_end_le r1 l1 r2 l2 :
  normal (r1 :: l1) -> normal (r2 :: l2) -> Start r1 = Start r2 ->
  (forall n, reserves (r2 :: l2) n = true -> reserves (r1 :: l1) n = true) -> End_ r2 <= End_ r1.
Proof.
  intros H1 H2 E Hc. pose proof H1 as (Hr1 & _)%normal_cons. destruct (decide (End_ r1 < End_ r2)) as [Hlt|]; [|lia].
  exfalso. unfold range_ok in Hr1. assert (reserves (r2 :: l2) (End_ r1) = true) as Hs%Hc.
  { apply reserves_elem. exists r2. split; [constructor|]. unfold in_range. lia. }
  destruct (normal_head _ _ _ H1 Hs) as [Hn|[Hn _]]; unfold in_range in *; lia.
Qed.

(** The tail covers what the whole covers past the first range. *)
Lemma normal_tail r l n : normal (r :: l) -> reserves l n = reserves (r :: l) n && (End_ r <? n).
Proof.
  intros H. pose proof H as (_ & _ & Ha)%normal_cons. apply eq_true_iff_eq. rewrite andb_true_iff, Z.ltb_lt. split.
  - intros Hn. pose proof Hn as (x & Hx & Hin)%reserves_elem. rewrite Forall_forall in Ha. specialize (Ha x Hx).
    unfold in_range in Hin. split; [|lia]. apply reserves_elem. exists x. split; [by constructor|done].
  - intros [[Hin|[_ Hn]]%(normal_head _ _ _ H) Hlt]; [unfold in_range in Hin; lia|done].
Qed.

Lemma normal_unique l1 l2 :
  normal l1 -> normal l2 -> (forall n, reserves l1 n = reserves l2 n) -> l1 = l2.
Proof.
  revert l2. induction l1 as [|r1 l1 IH]; intros [|r2 l2] H1 H2 Hc; [done|..].
  - pose proof H2 as (Hr & _)%normal_cons. pose proof (normal_start_covered r2 l2 Hr) as Hs. by rewrite <- Hc in Hs.
  - pose proof H1 as (Hr & _)%normal_cons. pose proof (normal_start_covered r1 l1 Hr) as Hs. by rewrite Hc in Hs.
  - assert (Start r1 = Start r2) as Es by (apply Z.le_antisymm; eapply normal_start_le; try done; intros n; by rewrite Hc).
    assert (End_ r1 = End_ r2) as Ee by (apply Z.le_antisymm; eapply normal_end_le; try done; intros n; by rewrite Hc).
    assert (r1 = r2) as <- by (destruct r1, r2; simpl in *; congruence).
    f_equal. apply IH; [by apply normal_cons in H1 as (_ & ? & _)|by apply normal_cons in H2 as (_ & ? & _)|].
    intros n. by rewrite (normal_tail r1 l1), (normal_tail r1 l2), Hc.
Qed.

(** [mergeRanges] answers the one list of ranges in normal form (each
    before the next and apart from it, none empty) that covers the numbers
    its argument covers.  So what a message reserves is written the same way
    whatever order the ranges came in, and however the sort places ranges
    with one start. *)
Lemma mergeRanges_canonical l (Hok : Forall range_ok l) :
  normal (mergeRanges l) /\ (forall n, reserves (mergeRanges l) n = reserves l n) /\
  forall l', normal l' -> (forall n, reserves l' n = reserves l n) -> l' = mergeRanges l.
Proof.
  destruct (mergeRanges_ok l Hok) as [Hn Hc]. split; [done|]. split; [done|]. intros l' Hn' Hc'.
  apply normal_unique; [done..|]. intros n. by rewrite Hc, Hc'.
Qed.

Lemma mergeRanges_canonical_witness :
  let l := [mkRange 1000 (2 ^ 29); mkRange 13 14; mkRange 12 14; mkRange 14 15] in
  Forall range_ok l /\ mergeRanges l = [mkRange 12 15; mkRange 1000 (2 ^ 29)].
Proof.
  assert (Forall range_ok [mkRange 1000 (2 ^ 29); mkRange 13 14; mkRange 12 14; mkRange 14 15]) as Hok.
  { repeat apply Forall_cons_2; [..|apply Forall_nil_2]; unfold range_ok; simpl; lia. }
  split; [exact Hok|]. symmetry. apply (proj2 (proj2 (mergeRanges_canonical _ Hok))).
  - repeat split; repeat constructor; unfold range_ok; simpl; lia.
  - intros n. unfold reserves. cbn [existsb Start End_]. apply eq_true_iff_eq.
    rewrite !orb_true_iff, !andb_true_iff. lia.
Defined.

(** ** The contract *)

(** A message as the parser accepts it. *)
Record wf_message (c : message) : Prop := {
  wf_names : NoDup (Name <$> Fields c);
  wf_numbers : NoDup (Number <$> Fields c);
  wf_field : Forall (fun f => 1 <= Number f <= 536870911) (Fields c);
  wf_ranges : Forall range_ok (ReservedRange c) }.

(** Two fields that are one on the wire. *)
Record same_field (was f : field) : Prop := {
  same_name : Name was = Name f;
  same_number : Number was = Number f;
  same_cardinality : repeated was = repeated f;
  same_type : wireType was = wireType f }.

(** No field of [m] takes what [m] reserves. *)
Definition clear (m : message) : Prop :=
  forall f, f ∈ Fields m -> reserves (ReservedRange m) (Number f) = false /\ Name f ∉ ReservedName m.

(** What [m] owes to the clients of [c]. *)
Record keeps (c m : message) : Prop := {
  keeps_named : forall was f, was ∈ Fields c -> f ∈ Fields m -> Name was = Name f -> same_field was f;
  keeps_numbered : forall was f, was ∈ Fields c -> f ∈ Fields m -> Number was = Number f -> Name was = Name f;
  keeps_dropped : forall was, was ∈ Fields c -> Name was ∉ Name <$> Fields m ->
    reserves (ReservedRange m) (Number was) = true /\ Name was ∈ ReservedName m;
  keeps_ranges : forall n, reserves (ReservedRange c) n = true -> reserves (ReservedRange m) n = true;
  keeps_names : forall n, n ∈ ReservedName c -> n ∈ ReservedName m;
  keeps_clear : clear m }.

#[export] Instance same_field_equiv : Equivalence same_field.
Proof.
  split; [by intros f|by intros f g []; split|].
  intros f g h [] []. split; congruence.
Qed.

(** ** The contract is a preorder *)

Lemma field_in_or_dropped c m was : keeps c m -> was ∈ Fields c ->
  (exists f, f ∈ Fields m /\ same_field was f) \/
  (Name was ∉ Name <$> Fields m /\ reserves (ReservedRange m) (Number was) = true /\ Name was ∈ ReservedName m).
Proof.
  intros Hk Hw. destruct (decide (Name was ∈ Name <$> Fields m)) as [(f & Hf & Hin)%list_elem_of_fmap|Hn].
  - left. exists f. split; [done|]. by apply (keeps_named c m Hk).
  - right. split; [done|]. by apply (keeps_dropped c m Hk).
Qed.

Lemma keeps_trans c m k : keeps c m -> keeps m k -> keeps c k.
Proof.
  intros H1 H2. split.
  - intros was f Hw Hf E. destruct (field_in_or_dropped c m was H1 Hw) as [(g & Hg & Hs)|(_ & _ & Hr)].
    + etrans; [done|]. apply (keeps_named m k H2); [done..|]. by rewrite <- (same_name _ _ Hs).
    + destruct (keeps_clear m k H2 f Hf) as [_ Hc]. destruct Hc. rewrite <- E. by apply (keeps_names m k H2).
  - intros was f Hw Hf E. destruct (field_in_or_dropped c m was H1 Hw) as [(g & Hg & Hs)|(_ & Hr & _)].
    + rewrite (same_name _ _ Hs). apply (keeps_numbered m k H2); [done..|]. by rewrite <- (same_number _ _ Hs).
    + destruct (keeps_clear m k H2 f Hf) as [Hc _]. rewrite <- E, (keeps_ranges m k H2) in Hc; done.
  - intros was Hw Hn. destruct (field_in_or_dropped c m was H1 Hw) as [(g & Hg & Hs)|(_ & Hr & Hr')].
    + rewrite (same_name _ _ Hs), (same_number _ _ Hs) in *. by apply (keeps_dropped m k H2).
    + split; [by apply (keeps_ranges m k H2)|by apply (keeps_names m k H2)].
  - intros n Hn. by apply (keeps_ranges m k H2), (keeps_ranges c m H1).
  - intros n Hn. by apply (keeps_names m k H2), (keeps_names c m H1).
  - apply H2.
Qed.

Lemma keeps_refl c : wf_message c -> clear c -> keeps c c.
Proof.
  intros [Hn Hk _ _] Hc. split; try done.
  - intros f g Hf Hg E. by rewrite (NoDup_key Name (Fields c) f g).
  - intros f g Hf Hg E. by rewrite (NoDup_key Number (Fields c) f g).
  - intros f Hf Hd. destruct Hd. by apply list_elem_of_fmap_2.
Qed.

(** ** The check of a field *)

Lemma by_name_spec fs n : NoDup (Name <$> fs) ->
  match by_name fs !! n with
  | Some f => f ∈ fs /\ Name f = n
  | None => n ∉ Name <$> fs
  end.
Proof.
  intros Hn. destruct (by_name fs !! n) as [f|] eqn:E; [|by apply collect_None in E].
  apply collect_Some in E as (g & Hg & E1 & E2). unfold id in E2. by subst.
Qed.

Lemma by_number_spec fs n : NoDup (Number <$> fs) ->
  match by_number fs !! n with
  | Some holder => exists f, f ∈ fs /\ Number f = n /\ Name f = holder
  | None => n ∉ Number <$> fs
  end.
Proof.
  intros Hn. destruct (by_number fs !! n) as [h|] eqn:E; [|by apply collect_None in E].
  by apply collect_Some in E.
Qed.

Lemma hold_field_None name c f : wf_message c ->
  hold_field name c f = None <->
  (forall was, was ∈ Fields c -> Name was = Name f -> same_field was f) /\
  (forall was, was ∈ Fields c -> Number was = Number f -> Name was = Name f) /\
  reserves (ReservedRange c) (Number f) = false /\ Name f ∉ ReservedName c.
Proof.
  intros Hwf. pose proof (by_name_spec (Fields c) (Name f) (wf_names c Hwf)) as Hn.
  pose proof (by_number_spec (Fields c) (Number f) (wf_numbers c Hwf)) as Hk.
  unfold hold_field. set (changed := _ ≫= _). set (taken := _ ≫= _).
  assert (changed = None <-> forall was, was ∈ Fields c -> Name was = Name f -> same_field was f) as Hc.
  { unfold changed. destruct (by_name (Fields c) !! Name f) as [was|]; cbn [mbind option_bind].
    - destruct Hn as [Hin E]. split.
      + intros H w Hw Ew. rewrite (NoDup_key Name (Fields c) w was); [|apply Hwf|done|done|congruence].
        destruct (Z.eqb_spec (Number was) (Number f)), (Bool.eqb_spec (repeated was) (repeated f)),
          (String.eqb_spec (wireType was) (wireType f)); done.
      + intros H. destruct (H was Hin E) as [_ -> -> ->]. by rewrite Z.eqb_refl, Bool.eqb_reflx, String.eqb_refl.
    - split; [|done]. intros _ w Hw Ew. destruct Hn. rewrite <- Ew. by apply list_elem_of_fmap_2. }
  assert (taken = None <-> forall was, was ∈ Fields c -> Number was = Number f -> Name was = Name f) as Ht.
  { unfold taken. destruct (by_number (Fields c) !! Number f) as [h|]; cbn [mbind option_bind].
    - destruct Hk as (w & Hw & E & <-). split.
      + destruct (String.eqb_spec (Name w) (Name f)) as [E'|]; [|done]. intros _ w' Hw' Ew'.
        rewrite (NoDup_key Number (Fields c) w' w); [done|apply Hwf|done|done|congruence].
      + intros H. by rewrite (H w Hw E), String.eqb_refl.
    - split; [|done]. intros _ w Hw Ew. destruct Hk. rewrite <- Ew. by apply list_elem_of_fmap_2. }
  rewrite <- Hc, <- Ht. destruct changed, taken; [split; [done|intros (? & ? & _); done]..|].
  destruct (reserves _ _); [split; [done|intros (_ & _ & ? & _); done]|].
  case_bool_decide; [split; [done|intros (_ & _ & _ & ?); done]|done].
Qed.

(** ** What a held message reserves *)

Lemma dropped_elem c m f : f ∈ dropped c m <-> f ∈ Fields c /\ Name f ∉ Name <$> Fields m.
Proof. unfold dropped. rewrite list_elem_of_filter. tauto. Qed.

Lemma number_range_ok f : 1 <= Number f <= 536870911 ->
  range_ok (mkRange (Number f) (wrap32 (Number f + 1))) /\
  forall n, in_range (mkRange (Number f) (wrap32 (Number f + 1))) n <-> n = Number f.
Proof. intros H. unfold range_ok, in_range. rewrite wrap32_id by lia. split; [|intros n]; simpl; lia. Qed.

Lemma hold_ranges name c m n : wf_message c ->
  normal (ReservedRange (hold name c m).1) /\
  (reserves (ReservedRange (hold name c m).1) n = true <->
   reserves (ReservedRange c) n = true \/ exists f, f ∈ dropped c m /\ Number f = n).
Proof.
  intros [_ _ Hf Hr]. rewrite Forall_forall in Hf. cbn [hold fst ReservedRange]. set (gone := map _ _).
  assert (forall r, r ∈ gone <-> exists f, f ∈ dropped c m /\ r = mkRange (Number f) (wrap32 (Number f + 1))) as Hg.
  { intros r. unfold gone. rewrite list_elem_of_fmap. naive_solver. }
  destruct (mergeRanges_ok (ReservedRange c ++ gone)) as [Hn ->].
  { apply Forall_app. split; [done|]. apply Forall_forall. intros r (f & [Hin _]%dropped_elem & ->)%Hg.
    by apply number_range_ok, Hf. }
  split; [done|]. rewrite reserves_app, orb_true_iff, (reserves_elem gone). split.
  - intros [H|(r & (f & Hfd & ->)%Hg & Hin)]; [by left|right]. exists f. split; [done|].
    apply number_range_ok in Hin; [done|]. by apply Hf, (dropped_elem c m).
  - intros [H|(f & Hfd & <-)]; [by left|right]. eexists. split; [apply Hg; by exists f|].
    apply number_range_ok; [|done]. by apply Hf, (dropped_elem c m).
Qed.

Lemma hold_names name c m n :
  n ∈ ReservedName (hold name c m).1 <-> n ∈ ReservedName c \/ exists f, f ∈ dropped c m /\ Name f = n.
Proof.
  cbn [hold fst ReservedName]. unfold sorted_names. rewrite merge_sort_Permutation, elem_of_elements, elem_of_union, !elem_of_list_to_set.
  rewrite list_elem_of_fmap. naive_solver.
Qed.

(** ** The check of a message *)

Lemma hold_keeps name c m : wf_message c -> (hold name c m).2 = [] <-> keeps c (hold name c m).1.
Proof.
  intros Hwf. assert ((hold name c m).2 = [] <-> forall f, f ∈ Fields m -> hold_field name c f = None) as ->.
  { apply omap_nil_iff. }
  split.
  - intros H. assert (forall f, f ∈ Fields m -> _) as H' by (intros f Hf; exact (proj1 (hold_field_None name c f Hwf) (H f Hf))).
    clear H. split; cbn [Fields hold fst].
    + intros was f Hw Hf. by apply H'.
    + intros was f Hw Hf. by apply H'.
    + intros was Hw Hd. split; [apply (hold_ranges name c m _ Hwf)|apply (hold_names name c m)]; right; exists was; by rewrite dropped_elem.
    + intros n Hn. apply (hold_ranges name c m _ Hwf). by left.
    + intros n Hn. apply (hold_names name c m). by left.
    + intros f Hf. destruct (H' f Hf) as (_ & Hk & Hr & Hn). split.
      * apply not_true_is_false. intros [E|(g & [Hg Hd]%dropped_elem & E)]%(hold_ranges name c m _ Hwf); [congruence|].
        destruct Hd. rewrite (Hk g Hg E). by apply list_elem_of_fmap_2.
      * intros [?|(g & [Hg Hd]%dropped_elem & E)]%(hold_names name c m); [done|].
        destruct Hd. rewrite E. by apply list_elem_of_fmap_2.
  - intros Hk f Hf. apply hold_field_None; [done|]. destruct (keeps_clear _ _ Hk f Hf) as [Hr Hn]. split; [|split; [|split]].
    + intros was Hw. by apply (keeps_named _ _ Hk).
    + intros was Hw. by apply (keeps_numbered _ _ Hk).
    + apply not_true_is_false. intros E. by rewrite (keeps_ranges _ _ Hk) in Hr.
    + intros E. by apply Hn, (keeps_names _ _ Hk).
Qed.
