(* ===== verification/PbSchemaSpec.v ===== *)
(** * Generated files keep the contract of the committed ones

    [reconcile_file] reports nothing exactly when the file about to be
    written keeps everything the committed file promised; and what a file
    promised once is kept by every later generation. *)

From stdpp Require Import base list gmap sets strings sorting.
From Stdlib Require Import ZArith Lia.
From S2P Require Import Prelude GoStrings PbSchema PbContract.
Local Open Scope Z_scope.

(** ** The messages of a file *)

Lemma message_nested_ind (P : message -> Prop) :
  (forall m, (forall n, n ∈ NestedType m -> P n) -> P m) -> forall m, P m.
Proof.
  intros H. fix IH 1. intros m. apply H. destruct m as [a b c d nested e]. cbn. clear a b c d e.
  induction nested as [|n nested IHl]; intros k Hk.
  - exfalso. exact (proj1 (elem_of_nil k) Hk).
  - apply elem_of_cons in Hk as [->|Hk]; [apply IH|exact (IHl k Hk)].
Qed.

(** [declares p m name d]: below the parent [p], the message [m] is or
    nests the message [d] of the dotted [name]. *)
Inductive declares : string -> message -> string -> message -> Prop :=
| declares_here p m : declares p m (dotted p (MsgName m)) m
| declares_nested p m n name d :
    n ∈ NestedType m -> declares (dotted p (MsgName m)) n name d -> declares p m name d.

Lemma declares_at p m name : name = dotted p (MsgName m) -> declares p m name m.
Proof. intros ->. constructor. Qed.

Lemma declares_inv p m name d : declares p m name d ->
  (name = dotted p (MsgName m) /\ d = m) \/
  exists n, n ∈ NestedType m /\ declares (dotted p (MsgName m)) n name d.
Proof. inversion 1; subst; eauto. Qed.

Definition declared (ms : list message) (name : string) (d : message) : Prop :=
  exists t, t ∈ ms /\ declares "" t name d.

(** ** The index *)

Definition index_all (p : string) (ms : list message) (index : gmap string message) : gmap string message :=
  foldl (fun index m => index_message p m index) index ms.

Lemma index_message_eq p m index :
  index_message p m index =
  index_all (dotted p (MsgName m)) (NestedType m) (<[dotted p (MsgName m) := m]> index).
Proof. by destruct m. Qed.

Lemma index_all_sound p ms :
  (forall m, m ∈ ms -> forall index name d,
    index_message p m index !! name = Some d -> index !! name = Some d \/ declares p m name d) ->
  forall index name d, index_all p ms index !! name = Some d ->
    index !! name = Some d \/ exists m, m ∈ ms /\ declares p m name d.
Proof.
  induction ms as [|m ms IH]; intros Hm index name d; [by left|].
  change (index_all p (m :: ms) index) with (index_all p ms (index_message p m index)).
  intros [H|(n & Hn & Hd)]%IH.
  - apply Hm in H as [?|Hd]; [by left|right; exists m; split; [constructor|done]|constructor].
  - right. exists n. split; [by constructor|done].
  - intros n Hn. apply Hm. by constructor.
Qed.

Lemma index_message_sound m p index name d :
  index_message p m index !! name = Some d -> index !! name = Some d \/ declares p m name d.
Proof.
  revert p index name d. induction m as [m IH] using message_nested_ind. intros p index name d.
  rewrite index_message_eq. intros [H|(n & Hn & Hd)]%index_all_sound.
  - apply lookup_insert_Some in H as [[<- <-]|[_ H]]; [right; constructor|by left].
  - right. by eapply declares_nested.
  - intros n Hn index' name' d'. by apply IH.
Qed.

Lemma index_all_complete p ms :
  (forall m, m ∈ ms -> forall index name,
    is_Some (index !! name) \/ (exists d, declares p m name d) -> is_Some (index_message p m index !! name)) ->
  forall index name, is_Some (index !! name) \/ (exists m d, m ∈ ms /\ declares p m name d) ->
    is_Some (index_all p ms index !! name).
Proof.
  induction ms as [|m ms IH]; intros Hm index name.
  - intros [H|(m & d & []%elem_of_nil & _)]. done.
  - intros H. change (index_all p (m :: ms) index) with (index_all p ms (index_message p m index)).
    apply IH; [intros n Hn; apply Hm; by constructor|].
    destruct H as [H|(n & d & [->|Hn]%elem_of_cons & Hd)].
    + left. apply Hm; [constructor|by left].
    + left. apply Hm; [constructor|right; by exists d].
    + right. by exists n, d.
Qed.

Lemma index_message_complete m p index name :
  is_Some (index !! name) \/ (exists d, declares p m name d) -> is_Some (index_message p m index !! name).
Proof.
  revert p index name. induction m as [m IH] using message_nested_ind. intros p index name H.
  rewrite index_message_eq. apply index_all_complete; [intros n Hn index' name'; by apply IH|].
  destruct H as [H|(d & [[-> ->]|(n & Hn & Hd)]%declares_inv)].
  - left. destruct (decide (dotted p (MsgName m) = name)) as [->|]; [rewrite lookup_insert_eq|rewrite lookup_insert_ne]; eauto.
  - left. rewrite lookup_insert_eq. eauto.
  - right. by exists n, d.
Qed.

(** A name is declared once. *)
Definition unique (ms : list message) : Prop :=
  forall name d d', declared ms name d -> declared ms name d' -> d = d'.

Lemma indexMessages_sound ms name d : indexMessages ms "" ∅ !! name = Some d -> declared ms name d.
Proof.
  intros [H|H]%index_all_sound; [done|done|]. intros m _ index n e. apply index_message_sound.
Qed.

Lemma indexMessages_complete ms name d : declared ms name d -> is_Some (indexMessages ms "" ∅ !! name).
Proof.
  intros (t & Ht & Hd). apply index_all_complete.
  - intros m _ index n. apply index_message_complete.
  - right. by exists t, d.
Qed.

Lemma indexMessages_lookup ms name d : unique ms ->
  indexMessages ms "" ∅ !! name = Some d <-> declared ms name d.
Proof.
  intros Hu. split; [apply indexMessages_sound|]. intros Hd.
  destruct (indexMessages_complete ms name d Hd) as [d' E]. rewrite E. f_equal.
  by eapply Hu; [apply indexMessages_sound|].
Qed.

(** ** Messages held with what they nest *)

(** The committed message of a name, if any, and what holding to it gives. *)
Definition held (old : gmap string message) (name : string) (m : message) : message * list breach :=
  match old !! name with Some c => hold name c m | None => (m, []) end.

Lemma holdMessage_eq old p m :
  holdMessage old p m =
  (with_nested (map fst (map (holdMessage old (dotted p (MsgName m))) (NestedType m))) (held old (dotted p (MsgName m)) m).1,
   (held old (dotted p (MsgName m)) m).2 ++ concat (map snd (map (holdMessage old (dotted p (MsgName m))) (NestedType m)))).
Proof. destruct m as [n fs rr rn ns e]. cbn [holdMessage MsgName]. unfold held. cbn [NestedType MsgName]. by destruct (old !! dotted p n). Qed.

Lemma held_Some old name c m : old !! name = Some c -> held old name m = hold name c m.
Proof. unfold held. by intros ->. Qed.

Lemma held_name old name m : MsgName (held old name m).1 = MsgName m.
Proof. unfold held. by destruct (old !! name). Qed.

Lemma holdMessage_MsgName old p m : MsgName (holdMessage old p m).1 = MsgName m.
Proof. rewrite holdMessage_eq. cbn. apply held_name. Qed.

Lemma holdMessage_nested old p m n :
  n ∈ NestedType (holdMessage old p m).1 <->
  exists k, k ∈ NestedType m /\ n = (holdMessage old (dotted p (MsgName m)) k).1.
Proof. rewrite holdMessage_eq. cbn. rewrite map_map, list_elem_of_fmap. naive_solver. Qed.

(** Holding declares the names it was given, each message held to its
    committed one. *)
Lemma holdMessage_declares old m p name d :
  declares p m name d -> exists ns, declares p (holdMessage old p m).1 name (with_nested ns (held old name d).1).
Proof.
  induction 1 as [p m|p m n name d Hn _ [ns IH]].
  - rewrite holdMessage_eq. cbn [fst]. eexists. apply declares_at. cbn [with_nested MsgName]. by rewrite held_name.
  - exists ns. eapply declares_nested; [apply holdMessage_nested; by exists n|]. by rewrite holdMessage_MsgName.
Qed.

Lemma holdMessage_declares_inv old m p name d' :
  declares p (holdMessage old p m).1 name d' ->
  exists d ns, declares p m name d /\ d' = with_nested ns (held old name d).1.
Proof.
  revert p name d'. induction m as [m IH] using message_nested_ind. intros p name d' [[-> ->]|(n & Hn & Hd)]%declares_inv.
  - rewrite holdMessage_MsgName. exists m. eexists. split; [constructor|]. by rewrite holdMessage_eq.
  - apply holdMessage_nested in Hn as (k & Hk & ->). rewrite holdMessage_MsgName in Hd.
    destruct (IH k Hk _ _ _ Hd) as (d & ns & Hd' & ->). exists d, ns. split; [by eapply declares_nested|done].
Qed.

Lemma holdMessage_reports old m p :
  (holdMessage old p m).2 = [] <-> forall name d, declares p m name d -> (held old name d).2 = [].
Proof.
  revert p. induction m as [m IH] using message_nested_ind. intros p. rewrite holdMessage_eq. cbn [snd].
  rewrite app_nil, map_map, concat_nil_iff. split.
  - intros [H1 H2] name d [[-> ->]|(n & Hn & Hd)]%declares_inv; [done|].
    apply (IH n Hn (dotted p (MsgName m))); [|done]. apply H2, list_elem_of_fmap. by exists n.
  - intros H. split; [apply H; constructor|]. intros x (n & -> & Hn)%list_elem_of_fmap.
    apply IH; [done|]. intros name d Hd. apply H. by eapply declares_nested.
Qed.

Lemma keeps_with_nested c ns m : keeps c (with_nested ns m) <-> keeps c m.
Proof. split; intros []; split; done. Qed.

(** ** Services *)

Record same_rpc (was now : method) : Prop := {
  rpc_name : MethodName was = MethodName now;
  rpc_input : messageOfType (InputType was) = messageOfType (InputType now);
  rpc_output : messageOfType (OutputType was) = messageOfType (OutputType now);
  rpc_client : ClientStreaming was = ClientStreaming now;
  rpc_server : ServerStreaming was = ServerStreaming now }.

#[export] Instance same_rpc_equiv : Equivalence same_rpc.
Proof.
  split; [by intros f|by intros f g []; split|]. intros f g h [] []. split; congruence.
Qed.

Definition wf_services (l : list service) : Prop :=
  NoDup (ServiceName <$> l) /\ forall s, s ∈ l -> NoDup (MethodName <$> Methods s).

Record keeps_service (was now : service) : Prop := {
  service_name : ServiceName was = ServiceName now;
  service_rpcs : forall r, r ∈ Methods was -> exists r', r' ∈ Methods now /\ same_rpc r r' }.

Definition keeps_services (was now : list service) : Prop :=
  forall s, s ∈ was -> exists s', s' ∈ now /\ keeps_service s s'.

Lemma hold_rpc_None name methods r : NoDup (MethodName <$> methods) ->
  hold_rpc name (methods_by_name methods) r = None <-> exists r', r' ∈ methods /\ same_rpc r r'.
Proof.
  intros Hn. unfold hold_rpc. destruct (methods_by_name methods !! MethodName r) as [r1|] eqn:E.
  - apply collect_Some in E as (r2 & Hr & E & E2). unfold id in E2. subst r2. split.
    + intros H. exists r1. split; [done|]. revert H.
      destruct (String.eqb_spec (messageOfType (InputType r)) (messageOfType (InputType r1))),
        (String.eqb_spec (messageOfType (OutputType r)) (messageOfType (OutputType r1))),
        (Bool.eqb_spec (ClientStreaming r) (ClientStreaming r1)), (Bool.eqb_spec (ServerStreaming r) (ServerStreaming r1));
        cbn; try done; intros _; split; congruence.
    + intros (r' & Hr' & [En Ei Eo Ec Es]). assert (r1 = r') as <- by (apply (NoDup_key MethodName methods); [done..|congruence]).
      by rewrite Ei, Eo, Ec, Es, !String.eqb_refl, !Bool.eqb_reflx.
  - apply collect_None in E. split; [done|]. intros (r' & Hr' & Hs). destruct E. rewrite (rpc_name _ _ Hs).
    by apply list_elem_of_fmap_2.
Qed.

Lemma holdServices_nil old new : wf_services old -> wf_services new ->
  holdServices new (services_by_name old) = [] <-> keeps_services old new.
Proof.
  intros [Ho _] [Hn Hm]. unfold holdServices. rewrite concat_nil_iff.
  assert (forall s, s ∈ old -> services_by_name old !! ServiceName s = Some s) as Hold by (intros; by apply (collect_NoDup ServiceName id)).
  assert (forall s, hold_service (services_by_name new) (ServiceName s) s = [] <-> exists s', s' ∈ new /\ keeps_service s s') as Hs.
  { intros s. unfold hold_service. destruct (services_by_name new !! ServiceName s) as [s1|] eqn:E.
    - apply collect_Some in E as (s2 & Hs & E & E2). unfold id in E2. subst s2. rewrite omap_nil_iff. split.
      + intros H. exists s1. split; [done|]. split; [done|]. intros r Hr. eapply hold_rpc_None; [|by apply H]. by apply Hm.
      + intros (s' & Hs' & [E' Hr]). assert (s1 = s') as <- by (apply (NoDup_key ServiceName new); [done..|congruence]).
        intros r Hin. apply hold_rpc_None; [by apply Hm|]. by apply Hr.
    - apply collect_None in E. split; [done|]. intros (s' & Hs' & Hk). destruct E. rewrite (service_name _ _ Hk).
      by apply list_elem_of_fmap_2. }
  split.
  - intros H s Hin. apply Hs, H. apply list_elem_of_omap. exists (ServiceName s). rewrite Hold by done. split; [|done].
    unfold sorted_names. rewrite merge_sort_Permutation, elem_of_elements, elem_of_dom. rewrite Hold by done. eauto.
  - intros H x (name & _ & Hx)%list_elem_of_omap. destruct (services_by_name old !! name) as [s|] eqn:E; [|done].
    injection Hx as <-. apply collect_Some in E as (s2 & Hin & <- & E2). unfold id in E2. subst s2. by apply Hs, H.
Qed.

(** ** Files *)

(** A file as the parser accepts it. *)
Record wf_file (f : file) : Prop := {
  wf_unique : unique (Messages f);
  wf_messages : forall name m, declared (Messages f) name m -> wf_message m;
  wf_file_services : wf_services (Services f) }.

(** What the file [f] owes to the clients of the file [c].  The entry
    message of a map field goes with its field. *)
Record keeps_file (c f : file) : Prop := {
  keeps_declared : forall name m, declared (Messages c) name m -> MapEntry m = false -> exists d, declared (Messages f) name d;
  keeps_messages : forall name m d, declared (Messages c) name m -> declared (Messages f) name d -> keeps m d;
  keeps_rpcs : keeps_services (Services c) (Services f) }.

Lemma written_declared old ms name d' :
  declared (map fst (map (holdMessage old "") ms)) name d' <->
  exists t d ns, t ∈ ms /\ declares "" t name d /\ declares "" (holdMessage old "" t).1 name d' /\
    d' = with_nested ns (held old name d).1.
Proof.
  unfold declared. rewrite map_map. setoid_rewrite list_elem_of_fmap. split.
  - intros (t' & (t & -> & Ht) & Hd). pose proof Hd as (d & ns & Hd' & ->)%holdMessage_declares_inv. by exists t, d, ns.
  - intros (t & d & ns & Ht & _ & Hd & _). eexists. split; [by exists t|done].
Qed.

Lemma written_declares old ms name d :
  declared ms name d -> exists ns, declared (map fst (map (holdMessage old "") ms)) name (with_nested ns (held old name d).1).
Proof.
  intros (t & Ht & Hd). destruct (holdMessage_declares old t "" name d Hd) as [ns Hd']. exists ns.
  exists (holdMessage old "" t).1. split; [|done]. rewrite map_map, list_elem_of_fmap. by exists t.
Qed.

Lemma messages_gone_nil (old declared : gmap string message) :
  omap (fun name =>
    match declared !! name, old !! name with
    | None, Some m => if MapEntry m then None else Some (MessageGone name)
    | _, _ => None
    end) (sorted_names (dom old)) = [] <->
  forall name m, old !! name = Some m -> MapEntry m = false -> is_Some (declared !! name).
Proof.
  rewrite omap_nil_iff. unfold sorted_names. setoid_rewrite merge_sort_Permutation. setoid_rewrite elem_of_elements.
  setoid_rewrite elem_of_dom. split.
  - intros H name m E Hm. specialize (H name). rewrite E, Hm in H. destruct (declared !! name); [eauto|]. by specialize (H (mk_is_Some _ _ eq_refl)).
  - intros H name [m E]. rewrite E. destruct (declared !! name) eqn:Ed; [done|]. destruct (MapEntry m) eqn:Em; [done|].
    apply (H name m) in E as [? E]; [|done]. congruence.
Qed.

Section Reconciled.
Variables (name : string) (c f : file).
Hypothesis (Hc : wf_file c) (Hf : wf_services (Services f)).
Local Abbreviation old := (indexMessages (Messages c) "" ∅).
Local Abbreviation written := (reconcile_file name (Parsed c) f).1.

Lemma old_lookup n m : old !! n = Some m <-> declared (Messages c) n m.
Proof. apply indexMessages_lookup, (wf_unique c Hc). Qed.

(** No message is in breach exactly when each keeps its contract as
    written. *)
Lemma messages_held :
  concat (map snd (map (holdMessage old "") (Messages f))) = [] <->
  forall n m d, declared (Messages c) n m -> declared (Messages written) n d -> keeps m d.
Proof.
  rewrite map_map, concat_nil_iff. split.
  - intros H n m d' Hm (t & d & ns & Ht & Hd & _ & ->)%written_declared. apply keeps_with_nested.
    assert ((held old n d).2 = []) as Hh.
    { eapply (holdMessage_reports old t ""); [|done]. apply H, list_elem_of_fmap. by exists t. }
    rewrite (held_Some _ n m) in * by by apply old_lookup. apply hold_keeps; [|done]. by apply (wf_messages c Hc n).
  - intros H x (t & -> & Ht)%list_elem_of_fmap. apply holdMessage_reports. intros n d Hd.
    unfold held. destruct (old !! n) as [m|] eqn:E; [|done]. pose proof (proj1 (old_lookup n m) E) as Hm.
    apply hold_keeps; [by apply (wf_messages c Hc n)|].
    destruct (written_declares old (Messages f) n d) as [ns Hw]; [by exists t|].
    rewrite (held_Some _ n m) in Hw by done. apply keeps_with_nested with ns. by apply (H n).
Qed.

Lemma reconciled :
  (reconcile_file name (Parsed c) f).2 = [] <-> keeps_file c written.
Proof.
  cbn [reconcile_file snd]. rewrite !app_nil, messages_held, messages_gone_nil.
  rewrite (holdServices_nil (Services c) (Services f)) by (done || apply (wf_file_services c Hc)).
  split.
  - intros (Hm & Hd & Hs). split; [|done|done]. intros n m Hn He.
    destruct (Hd n m (proj2 (old_lookup n m) Hn) He) as [d E]. exists d. by apply indexMessages_sound.
  - intros [Hd Hm Hs]. split; [done|]. split; [|done]. intros n m E He.
    destruct (Hd n m (proj1 (old_lookup n m) E) He) as [d Hd']. by eapply indexMessages_complete.
Qed.
End Reconciled.

(** C15: the generator reports no breach in a file exactly when the file it is
    about to write keeps the contract of the committed one: every message and
    rpc is still declared, every field both messages hold keeps its number,
    its cardinality and its type on the wire, no number changes hands, and
    everything dropped or reserved is reserved in what is written.  An absent
    file binds nothing, and one that cannot be read is always reported. *)
Theorem reconcile_enforces_contract name disk f :
  (forall c, disk = Parsed c -> wf_file c) -> wf_services (Services f) ->
  let '(written, breaches) := reconcile_file name disk f in
  breaches = [] <->
  match disk with
  | Absent => True
  | Failed => False
  | Parsed c => keeps_file c written
  end.
Proof.
  intros Hc Hf. destruct disk as [| |c]; [done|done|]. pose proof (reconciled name c f (Hc c eq_refl) Hf) as H.
  by destruct (reconcile_file name (Parsed c) f).
Qed.

(** ** Generations *)

(** What the parser reads back of a written file: the fields up to how
    their types are spelled, and what is reserved. *)
Record reads_back_message (m c : message) : Prop := {
  back_fields : Forall2 same_field (Fields m) (Fields c);
  back_ranges : forall n, reserves (ReservedRange c) n = reserves (ReservedRange m) n;
  back_names : forall n, n ∈ ReservedName c <-> n ∈ ReservedName m;
  back_entry : MapEntry c = MapEntry m }.

Record reads_back (f c : file) : Prop := {
  back_declared : forall name m, declared (Messages f) name m -> exists d, declared (Messages c) name d /\ reads_back_message m d;
  back_written : forall name d, declared (Messages c) name d -> exists m, declared (Messages f) name m /\ reads_back_message m d;
  back_services : keeps_services (Services f) (Services c) }.

(** One run of the generator that reports nothing, from the committed file
    to the next.  A name does not pass between a message and the entry of a
    map field. *)
Inductive generation (c c' : file) : Prop :=
| generation_of name f written :
    wf_file c -> wf_services (Services f) ->
    reconcile_file name (Parsed c) f = (written, []) -> reads_back written c' -> wf_file c' ->
    (forall name m d, declared (Messages c) name m -> declared (Messages c') name d -> MapEntry m = MapEntry d) ->
    generation c c'.

Lemma Forall2_same_elem (P : field -> field -> Prop) l k f : Forall2 P l k -> f ∈ k -> exists g, g ∈ l /\ P g f.
Proof.
  induction 1 as [|g h l k Hg _ IH]; [by intros []%elem_of_nil|]. intros [->|Hf]%elem_of_cons.
  - exists g. split; [constructor|done].
  - destruct (IH Hf) as (g' & ? & ?). exists g'. split; [by constructor|done].
Qed.

Lemma keeps_reads_back c m d : keeps c m -> reads_back_message m d -> keeps c d.
Proof.
  intros Hk [Hf Hr Hn _].
  assert (forall f, f ∈ Fields d -> exists g, g ∈ Fields m /\ same_field g f) as Hback by (intros f; by apply Forall2_same_elem).
  assert (forall g, g ∈ Fields m -> exists f, f ∈ Fields d /\ same_field g f) as Hforth.
  { intros g Hg. destruct (Forall2_same_elem (flip same_field) (Fields d) (Fields m) g) as (f & ? & ?); [by apply Forall2_flip|done|].
    by exists f. }
  split.
  - intros was f Hw (g & Hg & Hs)%Hback E. etrans; [|done]. apply (keeps_named c m Hk); [done..|]. rewrite E. symmetry. apply Hs.
  - intros was f Hw (g & Hg & Hs)%Hback E. rewrite <- (same_name _ _ Hs). apply (keeps_numbered c m Hk); [done..|].
    rewrite E. symmetry. apply Hs.
  - intros was Hw Hd. rewrite Hr, Hn. apply (keeps_dropped c m Hk); [done|].
    intros (g & E & Hg)%list_elem_of_fmap. apply Hd. destruct (Hforth g Hg) as (f & Hf' & Hs).
    rewrite E, (same_name _ _ Hs). by apply list_elem_of_fmap_2.
  - intros n. rewrite Hr. apply (keeps_ranges c m Hk).
  - intros n. rewrite Hn. apply (keeps_names c m Hk).
  - intros f (g & Hg & Hs)%Hback. rewrite Hr, Hn, <- (same_name _ _ Hs), <- (same_number _ _ Hs). by apply (keeps_clear c m Hk).
Qed.

Lemma keeps_services_trans a b c : keeps_services a b -> keeps_services b c -> keeps_services a c.
Proof.
  intros H1 H2 s Hs. destruct (H1 s Hs) as (s1 & Hs1 & [E1 R1]). destruct (H2 s1 Hs1) as (s2 & Hs2 & [E2 R2]).
  exists s2. split; [done|]. split; [congruence|]. intros r Hr. destruct (R1 r Hr) as (r1 & Hr1 & S1).
  destruct (R2 r1 Hr1) as (r2 & Hr2 & S2). exists r2. split; [done|]. by etrans.
Qed.

Lemma generation_keeps c c' : generation c c' -> keeps_file c c'.
Proof.
  intros [name f written Hc Hf Hr [Hb1 Hb2 Hbs] Hc' _]. pose proof (proj1 (reconciled name c f Hc Hf)) as Hk.
  rewrite Hr in Hk. destruct (Hk eq_refl) as [Hd Hm Hs]. cbn [fst] in *. split.
  - intros n m Hn He. destruct (Hd n m Hn He) as [w Hw]. destruct (Hb1 n w Hw) as (d & Hd' & _). by exists d.
  - intros n m d Hn Hd'. destruct (Hb2 n d Hd') as (w & Hw & Hback). eapply keeps_reads_back; [|done]. by apply (Hm n).
  - by eapply keeps_services_trans.
Qed.

(** A file none of whose messages takes what it reserves. *)
Definition clear_file (c : file) : Prop := forall name m, declared (Messages c) name m -> clear m.

(** C14: what a committed file promised once holds in every later generation
    that was accepted: a message declared then is declared now, a number that
    a field of it ever had is that field's or reserved, a name that ever had
    a number has that number or is reserved, whatever was dropped, added and
    brought back in between; and its rpcs are still what clients call. *)
Theorem contract_survives_generations c0 cn :
  steps generation c0 cn -> wf_file c0 -> clear_file c0 ->
  (forall name m0, declared (Messages c0) name m0 -> MapEntry m0 = false ->
    exists m, declared (Messages cn) name m /\ MapEntry m = false /\ keeps m0 m) /\
  keeps_services (Services c0) (Services cn).
Proof.
  intros Hs Hwf Hclear. induction Hs as [c|c0 c1 c2 _ IH Hg].
  - split; [|intros s Hs; exists s; split; [done|]; split; [done|]; intros r Hr; by exists r].
    intros name m Hm He. exists m. split; [done|]. split; [done|].
    apply keeps_refl; [by apply (wf_messages c Hwf name)|by apply (Hclear name)].
  - destruct (IH Hwf Hclear) as [Hm Hsv]. pose proof (generation_keeps _ _ Hg) as [Hd Hk Hrpc]. split.
    + intros name m0 Hm0 He. destruct (Hm name m0 Hm0 He) as (m1 & Hm1 & He1 & Hk1).
      destruct (Hd name m1 Hm1 He1) as [m2 Hm2]. exists m2. split; [done|]. split.
      * destruct Hg as [? ? ? _ _ _ _ _ Hst]. by rewrite <- (Hst name m1 m2).
      * eapply keeps_trans; [done|]. by apply (Hk name).
    + by eapply keeps_services_trans.
Qed.

(** ** Generating again *)

Lemma sorted_names_ext (s s' : gset string) : s ≡ s' -> sorted_names s = sorted_names s'.
Proof. intros E. apply leibniz_equiv in E. by rewrite E. Qed.

(** Generating again changes nothing: a message that was written without
    a breach is written the same, to its last reserved range and name, when
    it is held to what was written. *)
Lemma hold_is_stable name c m (Hc : wf_message c) (Hm : wf_message m) :
  let '(written, breaches) := hold name c m in
  breaches = [] -> hold name written m = (written, []).
Proof.
  destruct (hold name c m) as [w rs] eqn:E. intros ->.
  pose proof (hold_keeps name c m Hc) as Hk. rewrite E in Hk. pose proof (proj1 Hk eq_refl) as Hkeep. cbn [fst] in Hkeep. clear Hk.
  pose proof (fun n => hold_ranges name c m n Hc) as Hr. rewrite E in Hr. cbn [fst] in Hr.
  assert (Fields w = Fields m /\ MsgName w = MsgName m /\ NestedType w = NestedType m /\ MapEntry w = MapEntry m /\
    exists s, ReservedName w = sorted_names s) as (Ef & En & Et & Ee & s & Es).
  { unfold hold in E. injection E as <- _. cbn. do 4 (split; [done|]). by eexists. }
  assert (wf_message w) as Hw.
  { destruct Hm as [H1 H2 H3 _]. split; rewrite ?Ef; [done..|]. apply (Hr 0). }
  assert (dropped w m = []) as Hd.
  { apply elem_of_nil_inv. intros f [Hf Hn]%dropped_elem. apply Hn. rewrite Ef in Hf. by apply list_elem_of_fmap_2. }
  assert ((hold name w m).1 = w) as E1.
  { unfold hold. rewrite Hd, Es. cbn [fst map fmap list_fmap]. rewrite app_nil_r.
    rewrite <- (normal_unique (ReservedRange w) (mergeRanges (ReservedRange w))).
    - destruct w; cbn in *. subst. f_equal. apply sorted_names_ext. intros n. unfold sorted_names.
      rewrite elem_of_union, !elem_of_list_to_set, merge_sort_Permutation, elem_of_elements. set_solver.
    - apply (Hr 0).
    - apply mergeRanges_ok, (Hr 0).
    - intros n. symmetry. apply mergeRanges_ok, (Hr 0). }
  rewrite (surjective_pairing (hold name w m)), E1. f_equal. apply hold_keeps; [done|]. rewrite E1.
  apply keeps_refl; [done|apply Hkeep].
Qed.

(** ** A file over three generations *)

Lemma declared_flat ms name d : Forall (fun m => NestedType m = []) ms ->
  declared ms name d <-> d ∈ ms /\ name = MsgName d.
Proof.
  rewrite Forall_forall. intros Hf. split.
  - intros (t & Ht & [[-> ->]|(n & Hn & _)]%declares_inv); [done|]. rewrite (Hf t Ht) in Hn. by apply elem_of_nil in Hn.
  - intros [Hd ->]. exists d. split; [done|]. by apply declares_at.
Qed.

Lemma wf_flat f :
  Forall (fun m => NestedType m = []) (Messages f) -> NoDup (MsgName <$> Messages f) ->
  Forall wf_message (Messages f) -> wf_services (Services f) -> wf_file f.
Proof.
  intros Hf Hn Hm Hs. split; [| |done].
  - intros n d d' [Hd ->]%declared_flat [Hd' E]%declared_flat; [|done..]. by apply (NoDup_key MsgName (Messages f)).
  - intros n m [Hin _]%declared_flat; [|done]. rewrite Forall_forall in Hm. auto.
Qed.

Lemma reads_back_refl f : reads_back f f.
Proof.
  assert (forall m, reads_back_message m m) as Hm.
  { intros m. by split. }
  split; [intros n m Hm'; by exists m|intros n m Hm'; by exists m|].
  intros s Hs. exists s. split; [done|]. split; [done|]. intros r Hr. by exists r.
Qed.

Module Notes.

Definition text (name : string) (number : Z) : field := mkField name number LABEL_OPTIONAL TYPE_STRING "".
Definition note (fs : list field) (rs : list range) (ns : list string) : message := Message "Note" fs rs ns [] false.
Definition get : method := mkMethod "GetNote" "GetNoteRequest" "GetNoteResponse" false false.
Definition file_of (m : message) : file := mkFile [m] [mkService "NoteService" [get]].

(** The committed file, and what two runs write: [tags] dropped, then
    [summary] added. *)
Definition first : file := file_of (note [text "title" 11; text "tags" 12] [] []).
Definition second : file := file_of (note [text "title" 11] [mkRange 12 13] ["tags"]).
Definition third : file := file_of (note [text "title" 11; text "summary" 13] [mkRange 12 13] ["tags"]).

Lemma flat m : NestedType m = [] -> Forall (fun m => NestedType m = []) (Messages (file_of m)).
Proof. by repeat constructor. Qed.

Lemma wf m : NestedType m = [] -> wf_message m -> wf_file (file_of m).
Proof.
  intros Hn Hm. apply wf_flat; [by apply flat|apply NoDup_singleton|by apply Forall_singleton|].
  split; [apply NoDup_singleton|]. intros s ->%list_elem_of_singleton. apply NoDup_singleton.
Qed.

Ltac wf_note := apply wf; [done|]; split;
  [ eapply bool_decide_unpack; vm_compute; exact I | eapply bool_decide_unpack; vm_compute; exact I
  | repeat constructor; simpl; lia | repeat constructor; unfold range_ok; simpl; lia ].

Lemma wf_first : wf_file first. Proof. wf_note. Qed.
Lemma wf_second : wf_file second. Proof. wf_note. Qed.
Lemma wf_third : wf_file third. Proof. wf_note. Qed.

Lemma run m m' : wf_file (file_of m) -> wf_file (file_of m') ->
  NestedType m = [] -> NestedType m' = [] -> MapEntry m = false -> MapEntry m' = false ->
  forall fs, reconcile_file "note.proto" (Parsed (file_of m)) (file_of (note fs [] [])) = (file_of m', []) ->
  generation (file_of m) (file_of m').
Proof.
  intros Hw Hw' Hn Hn' He He' fs E.
  apply (generation_of _ _ "note.proto" (file_of (note fs [] [])) (file_of m')); [done|apply Hw|exact E|apply reads_back_refl|done|].
  intros n a b [Ha _]%declared_flat [Hb _]%declared_flat; [|by apply flat..].
  apply list_elem_of_singleton in Ha as ->, Hb as ->. congruence.
Qed.

Lemma clear_first : clear_file first.
Proof.
  intros n m [->%list_elem_of_singleton _]%declared_flat; [|by apply flat].
  intros f Hf. split; [done|]. by intros ?%elem_of_nil.
Qed.

Lemma generations : steps generation first third.
Proof.
  apply steps_snoc with second; [apply steps_snoc with first; [constructor|]|].
  - apply (run _ _ wf_first wf_second eq_refl eq_refl eq_refl eq_refl [text "title" 11]). vm_compute. reflexivity.
  - apply (run _ _ wf_second wf_third eq_refl eq_refl eq_refl eq_refl [text "title" 11; text "summary" 13]). vm_compute. reflexivity.
Qed.

(** Bringing [tags] back, at its number or another, and giving its number to
    another field are all refused. *)
Definition refused (fs : list field) : list breach := (reconcile_file "note.proto" (Parsed third) (file_of (note fs [] []))).2.

Lemma attempts :
  refused [text "title" 11; text "summary" 13; text "tags" 12] = [NumberReserved "Note" "tags" 12] /\
  refused [text "title" 11; text "summary" 13; text "tags" 14] = [NameReserved "Note" "tags"] /\
  refused [text "title" 11; text "summary" 12] = [Renumbered "Note" "summary" 13 12] /\
  refused [text "title" 11; text "body" 13] = [NumberHeld "Note" "body" 13 "summary"].
Proof. vm_compute. done. Qed.

End Notes.

Lemma contract_survives_generations_witness :
  wf_file Notes.first /\ exists m, declared (Messages Notes.third) "Note" m /\ MapEntry m = false /\
    keeps (Notes.note [Notes.text "title" 11; Notes.text "tags" 12] [] []) m.
Proof.
  split; [exact Notes.wf_first|].
  apply (proj1 (contract_survives_generations _ _ Notes.generations Notes.wf_first Notes.clear_first)); [|done].
  eexists. split; [constructor|]. by apply declares_at.
Defined.

Lemma reconcile_enforces_contract_witness :
  wf_file Notes.third /\
  ~ keeps_file Notes.third (Notes.file_of (Notes.note [Notes.text "title" 11; Notes.text "body" 13] [mkRange 12 14] ["summary"; "tags"])).
Proof.
  split; [exact Notes.wf_third|].
  pose proof (reconcile_enforces_contract "note.proto" (Parsed Notes.third)
    (Notes.file_of (Notes.note [Notes.text "title" 11; Notes.text "body" 13] [] []))) as H.
  assert (wf_services (Services (Notes.file_of (Notes.note [Notes.text "title" 11; Notes.text "body" 13] [] [])))) as Hs
    by apply Notes.wf_third.
  specialize (H (fun c E => match E in _ = d return match d with Parsed c => wf_file c | _ => True end with eq_refl => Notes.wf_third end) Hs).
  vm_compute reconcile_file in H. intros Hk. by apply H in Hk.
Defined.

Lemma hold_is_stable_witness :
  let m := Notes.note [Notes.text "title" 11] [] [] in
  let c := Notes.note [Notes.text "title" 11; Notes.text "tags" 12] [mkRange 13 20] [] in
  exists w, hold "Note" c m = (w, []) /\ hold "Note" w m = (w, []).
Proof.
  assert (wf_message (Notes.note [Notes.text "title" 11] [] [])) as Hm.
  { split; [apply NoDup_singleton..| |]; repeat constructor; simpl; lia. }
  assert (wf_message (Notes.note [Notes.text "title" 11; Notes.text "tags" 12] [mkRange 13 20] [])) as Hc.
  { split; [eapply bool_decide_unpack; vm_compute; exact I..| |]; repeat constructor; unfold range_ok; simpl; lia. }
  pose proof (hold_is_stable "Note" _ _ Hc Hm) as H. eexists. split; [vm_compute; reflexivity|].
  vm_compute in H. vm_compute. by apply H.
Defined.
