(* ===== verification/PbNumbering.v ===== *)
(** * The numbers of the fields of a message

    Models the numbering in [internal/pbschema/message.go]: the checks of
    the tagged fields and the numbers [nextNumbers] gives the others, in
    [messageOfStruct].  A Go field is what the numbering reads of it: its
    JSON key, whether an embedded pointer promotes it, the package that
    declares it, and how its [pb] tag reads ([reflect.StructTag]'s scan of the
    tag text is left out).  Whether a package is the project's is an
    argument.  A pass answers the number of each field, [None] for one that is
    left out, and the diagnostics in order. *)

From stdpp Require Import base list gmap strings.
From Stdlib Require Import ZArith Lia Ascii.
From S2P Require Import Prelude Strconv PbSchema.
Local Open Scope Z_scope.

Inductive tag_reading : Set := Tagged (tag : string) | Untagged | Malformed.

Record go_field : Set := mkGoField {
  Key : string; ViaPointer : bool; Pkg : option string; Tag : tag_reading }.

Inductive diag : Set :=
| BadKey (key : string)
| ThroughPointer (key : string)
| OutsideProject (key : string)
| TagUnreadable (key : string)
| NotANumber (key tag : string)
| BelongsToFramework (key : string) (number : Z)
| BelowOne (key : string) (number : Z)
| AboveLargest (key : string) (number : Z)
| InProtobufRange (key : string) (number : Z)
| AlreadyTaken (key : string) (number : Z) (holder : string)
| NoneLeft (key : string)
| MissingTag (key : string) (number : Z).

Definition fieldMaxNumber : Z := 536870911.
Definition reservedRangeStart : Z := 19000.
Definition reservedRangeEnd : Z := 19999.
Definition firstBusinessFieldNumber : Z := 11.

Definition modelRegistryPath : string := "github.com/hydroan/gst/internal/modelregistry".
Definition tenantPath : string := "github.com/hydroan/gst/internal/tenant".

(** The number and the package of a key of the framework. *)
Definition frameworkFields (key : string) : option (Z * string) :=
  if (key =? "id")%string then Some (1, modelRegistryPath)
  else if (key =? "created_by")%string then Some (2, modelRegistryPath)
  else if (key =? "updated_by")%string then Some (3, modelRegistryPath)
  else if (key =? "created_at")%string then Some (4, modelRegistryPath)
  else if (key =? "updated_at")%string then Some (5, modelRegistryPath)
  else if (key =? "tenant_id")%string then Some (6, tenantPath)
  else None.

Definition in_bytes (lo hi a : ascii) : bool := (N_of_ascii lo <=? N_of_ascii a)%N && (N_of_ascii a <=? N_of_ascii hi)%N.
Definition letter (a : ascii) : bool := in_bytes "A" "Z" a || in_bytes "a" "z" a || (a =? "_")%char.

Fixpoint all_chars (p : ascii -> bool) (s : string) : bool :=
  match s with EmptyString => true | String a s => p a && all_chars p s end.

(** [^[A-Za-z_][A-Za-z0-9_]*$]. *)
Definition identifier (s : string) : bool :=
  match s with
  | EmptyString => false
  | String a rest => letter a && all_chars (fun a => letter a || in_bytes "0" "9" a) rest
  end.

Definition framework_number (f : go_field) : option Z :=
  match frameworkFields (Key f), Pkg f with
  | Some (n, pkg), Some p => if (p =? pkg)%string then Some n else None
  | _, _ => None
  end.

Definition isFrameworkField (f : go_field) : bool := bool_decide (is_Some (framework_number f)).

Definition firstFieldNumber (framework : bool) : Z := if framework then firstBusinessFieldNumber else 1.

Definition taggedNumber (key tag : string) (framework : bool) : result diag Z :=
  match ParseInt tag 32 with
  | (_, Some _) => Err (NotANumber key tag)
  | (number, None) =>
      if number <? firstFieldNumber framework then
        Err (if framework then BelongsToFramework key number else BelowOne key number)
      else if fieldMaxNumber <? number then Err (AboveLargest key number)
      else if (reservedRangeStart <=? number) && (number <=? reservedRangeEnd) then Err (InProtobufRange key number)
      else Ok number
  end.

Section Numbering.
Variable projectPackage : string -> bool.

(** What the first loop makes of a field. *)
Inductive slot : Set := Planned (number : Z) | LeftOut (d : diag) | ToNumber.

Definition plan_field (framework : bool) (numbers : gmap Z string) (f : go_field) : slot :=
  if negb (identifier (Key f)) then LeftOut (BadKey (Key f))
  else if ViaPointer f then LeftOut (ThroughPointer (Key f))
  else
    match framework_number f with
    | Some n => Planned n
    | None =>
        if negb (match Pkg f with Some p => projectPackage p | None => false end) then LeftOut (OutsideProject (Key f))
        else
          match Tag f with
          | Malformed => LeftOut (TagUnreadable (Key f))
          | Untagged => ToNumber
          | Tagged tag =>
              match taggedNumber (Key f) tag framework with
              | Err d => LeftOut d
              | Ok number =>
                  match numbers !! number with
                  | Some previous => LeftOut (AlreadyTaken (Key f) number previous)
                  | None => Planned number
                  end
              end
          end
    end.

Definition hold_number (numbers : gmap Z string) (f : go_field) (s : slot) : gmap Z string :=
  match s with Planned n => <[n := Key f]> numbers | _ => numbers end.

(** The first loop: the numbers in use and the slot of each field. *)
Fixpoint plan (framework : bool) (numbers : gmap Z string) (fields : list go_field) : gmap Z string * list (go_field * slot) :=
  match fields with
  | [] => (numbers, [])
  | f :: fields =>
      let s := plan_field framework numbers f in
      let '(numbers, slots) := plan framework (hold_number numbers f s) fields in
      (numbers, (f, s) :: slots)
  end.

(** ** [nextNumbers] *)

Definition committedByName (committed : message) : gmap string Z := collect Name Number (Fields committed).
Definition committedNumbers (committed : message) : list Z := Number <$> Fields committed.

Definition taken (committed : message) (numbers : gmap Z string) (n : Z) : bool :=
  bool_decide (is_Some (numbers !! n)) || bool_decide (n ∈ committedNumbers committed) ||
  reserves (ReservedRange committed) n || ((reservedRangeStart <=? n) && (n <=? reservedRangeEnd)).

(** Where the candidates start from. *)
Definition first_candidate (committed : message) (numbers : gmap Z string) (framework : bool) : Z :=
  foldr Z.max (foldr Z.max (firstFieldNumber framework - 1) (map fst (map_to_list numbers))) (committedNumbers committed).

(** One call of the closure: the number, if any, and the candidate it leaves. *)
Definition next (committed : message) (numbers : gmap Z string) (candidate : Z) (key : string) : option Z * Z :=
  let kept := n ← committedByName committed !! key;
    if bool_decide (is_Some (numbers !! n)) then None else Some n in
  match kept with
  | Some n => (Some n, candidate)
  | None =>
      match next_free (taken committed numbers) fieldMaxNumber candidate with
      | inr n => (Some n, n)
      | inl c => (None, c)
      end
  end.

(** The second loop. *)
Fixpoint number_untagged (committed : message) (numbers : gmap Z string) (candidate : Z) (slots : list (go_field * slot)) :
    list (go_field * option Z) * list diag :=
  match slots with
  | [] => ([], [])
  | (f, Planned n) :: slots =>
      let '(planned, ds) := number_untagged committed numbers candidate slots in ((f, Some n) :: planned, ds)
  | (f, LeftOut _) :: slots =>
      let '(planned, ds) := number_untagged committed numbers candidate slots in ((f, None) :: planned, ds)
  | (f, ToNumber) :: slots =>
      match next committed numbers candidate (Key f) with
      | (None, candidate) =>
          let '(planned, ds) := number_untagged committed numbers candidate slots in ((f, None) :: planned, NoneLeft (Key f) :: ds)
      | (Some n, candidate) =>
          let '(planned, ds) := number_untagged committed (<[n := Key f]> numbers) candidate slots in
          ((f, Some n) :: planned, MissingTag (Key f) n :: ds)
      end
  end.

Definition slot_diag (p : go_field * slot) : option diag :=
  match p.2 with LeftOut d => Some d | _ => None end.

(** The numbering of a message, [committed] being empty where there is no
    committed message. *)
Definition number_fields (committed : message) (fields : list go_field) : list (go_field * option Z) * list diag :=
  let framework := existsb isFrameworkField fields in
  let '(numbers, slots) := plan framework ∅ fields in
  let '(planned, ds) := number_untagged committed numbers (first_candidate committed numbers framework) slots in
  (planned, omap slot_diag slots ++ ds).
End Numbering.
