(* ===== verification/PbNumberingSpec.v ===== *)
(** * What the numbering promises

    The numbers of a message are its fields' own, the ones given to untagged
    fields respect the committed message, and the tag written for a fresh one
    is accepted by the next run. *)

From stdpp Require Import base list gmap sets strings.
From Stdlib Require Import ZArith Lia.
From S2P Require Import Prelude Strconv PbSchema PbContract PbNumbering.
Local Open Scope Z_scope.

Section Spec.
Variable projectPackage : string -> bool.
Local Abbreviation plan_field := (plan_field projectPackage).
Local Abbreviation plan := (plan projectPackage).
Local Abbreviation number_fields := (number_fields projectPackage).

(** The numbers the first loop planned. *)
Definition slot_number (p : go_field * slot) : option Z := match p.2 with Planned n => Some n | _ => None end.
Definition slot_numbers (slots : list (go_field * slot)) : list Z := omap slot_number slots.

(** ** The first loop *)

Lemma framework_number_inj f g n : framework_number f = Some n -> framework_number g = Some n -> Key f = Key g.
Proof.
  unfold framework_number. intros Hf Hg.
  destruct (frameworkFields (Key f)) as [[a p]|] eqn:Ef; [|done]. destruct (frameworkFields (Key g)) as [[b q]|] eqn:Eg; [|done].
  destruct (Pkg f); [|done]. destruct (Pkg g); [|done]. destruct (String.eqb _ p); [|done]. destruct (String.eqb _ q); [|done].
  unfold frameworkFields in *. repeat case_match; simplify_eq;
    repeat match goal with H : (_ =? _)%string = true |- _ => apply String.eqb_eq in H end; congruence.
Qed.

Lemma framework_number_range f n : framework_number f = Some n -> 1 <= n <= 6.
Proof.
  unfold framework_number, frameworkFields. intros H. repeat case_match; simplify_eq; lia.
Qed.

Lemma taggedNumber_Ok key tag framework n : taggedNumber key tag framework = Ok n ->
  firstFieldNumber framework <= n <= fieldMaxNumber /\ ~ (reservedRangeStart <= n <= reservedRangeEnd).
Proof.
  unfold taggedNumber. destruct (ParseInt tag 32) as [m [e|]]; [done|]. intros H.
  destruct (Z.ltb_spec m (firstFieldNumber framework)); [done|]. destruct (Z.ltb_spec fieldMaxNumber m); [done|].
  destruct (_ && _) eqn:E; [done|]. injection H as <-. apply andb_false_iff in E. lia.
Qed.

Lemma firstFieldNumber_pos framework : 1 <= firstFieldNumber framework.
Proof. unfold firstFieldNumber, firstBusinessFieldNumber. destruct framework; lia. Qed.

(** A planned number is the framework's, or a tag's that nothing held. *)
Lemma plan_field_Planned framework numbers f n : plan_field framework numbers f = Planned n ->
  framework_number f = Some n \/
  framework_number f = None /\ firstFieldNumber framework <= n <= fieldMaxNumber /\ numbers !! n = None.
Proof.
  unfold PbNumbering.plan_field. intros H. destruct (negb _); [done|]. destruct (ViaPointer f); [done|].
  destruct (framework_number f) as [m|]; [left; congruence|right]. destruct (negb _); [done|]. destruct (Tag f) as [tag| |]; [|done..].
  destruct (taggedNumber (Key f) tag framework) as [m|] eqn:E; [|done]. destruct (numbers !! m) eqn:En; [done|]. injection H as <-.
  apply taggedNumber_Ok in E as [E _]. split; [done|]. by split.
Qed.

(** The numbers in use after the fields [seen]. *)
Record planned_inv (framework : bool) (seen : list go_field) (numbers : gmap Z string) : Prop := {
  held_by_framework : framework = true -> forall n, is_Some (numbers !! n) -> n < firstBusinessFieldNumber ->
    exists g, g ∈ seen /\ framework_number g = Some n;
  held_in_range : forall n, is_Some (numbers !! n) -> 1 <= n <= fieldMaxNumber }.

Lemma plan_field_fresh framework seen numbers f n :
  planned_inv framework seen numbers -> (isFrameworkField f = true -> framework = true) -> Key f ∉ Key <$> seen ->
  plan_field framework numbers f = Planned n ->
  numbers !! n = None /\ planned_inv framework (f :: seen) (<[n := Key f]> numbers).
Proof.
  intros [Hfw Hr] Hf Hk Hp. pose proof (plan_field_Planned framework numbers f n Hp) as Hn.
  assert (numbers !! n = None /\ 1 <= n <= fieldMaxNumber /\
    (framework = true -> n < firstBusinessFieldNumber -> framework_number f = Some n)) as (Hfree & Hin & Hlow).
  { destruct Hn as [Hn|(_ & Hrange & Hnone)].
    - pose proof (framework_number_range f n Hn). split; [|unfold fieldMaxNumber; split; [lia|done]].
      assert (framework = true) as E by (apply Hf; unfold isFrameworkField; apply bool_decide_eq_true; eauto).
      apply eq_None_not_Some. intros Hs. destruct (Hfw E n Hs) as (g & Hg & Eg); [unfold firstBusinessFieldNumber; lia|].
      apply Hk. rewrite (framework_number_inj f g n Hn Eg). by apply list_elem_of_fmap_2.
    - pose proof (firstFieldNumber_pos framework). split; [done|]. split; [lia|]. intros -> ?. cbn in Hrange. lia. }
  split; [done|]. split.
  - intros E m Hs Hm. destruct (decide (m = n)) as [->|Hne].
    + exists f. split; [constructor|auto].
    + rewrite lookup_insert_ne in Hs by done. destruct (Hfw E m Hs Hm) as (g & Hg & Eg). exists g. split; [by constructor|done].
  - intros m. destruct (decide (m = n)) as [->|Hne]; [done|]. rewrite lookup_insert_ne by done. apply Hr.
Qed.

Lemma planned_inv_more framework seen f numbers : planned_inv framework seen numbers -> planned_inv framework (f :: seen) numbers.
Proof.
  intros [Hfw Hr]. split; [|done]. intros E n Hs Hn. destruct (Hfw E n Hs Hn) as (g & Hg & Eg). exists g. split; [by constructor|done].
Qed.

Lemma plan_ok framework fields seen numbers :
  planned_inv framework seen numbers -> (existsb isFrameworkField fields = true -> framework = true) ->
  NoDup (Key <$> seen ++ fields) ->
  let '(numbers', slots) := plan framework numbers fields in
  slots.*1 = fields /\ NoDup (slot_numbers slots) /\ (exists seen', planned_inv framework seen' numbers') /\
  (forall n, n ∈ slot_numbers slots -> numbers !! n = None) /\
  (forall n, is_Some (numbers' !! n) <-> is_Some (numbers !! n) \/ n ∈ slot_numbers slots).
Proof.
  revert seen numbers. induction fields as [|f fields IH]; intros seen numbers Hinv Hfw Hk; cbn [PbNumbering.plan].
  { split; [done|]. split; [constructor|]. split; [by exists seen|]. split; [by intros n ?%elem_of_nil|].
    intros n. split; [by left|]. by intros [?|?%elem_of_nil]. }
  cbn [existsb] in Hfw. rewrite <- Permutation_middle in Hk.
  assert (Key f ∉ Key <$> seen) as Hkf.
  { cbn in Hk. apply NoDup_cons in Hk as [Hk _]. rewrite fmap_app in Hk. set_solver. }
  assert (forall m, plan_field framework numbers f = Planned m -> numbers !! m = None /\ planned_inv framework (f :: seen) (<[m := Key f]> numbers)) as Hfresh.
  { intros m. apply plan_field_fresh; [done| |done]. intros E. apply Hfw. by rewrite E. }
  set (s := plan_field framework numbers f) in *.
  assert (planned_inv framework (f :: seen) (hold_number numbers f s)) as Hinv'.
  { destruct s as [m| |]; [by apply Hfresh|by apply planned_inv_more..]. }
  specialize (IH (f :: seen) (hold_number numbers f s) Hinv'). destruct (plan framework (hold_number numbers f s) fields) as [numbers' slots].
  destruct IH as (E & Hn & Hi & Hd & Hh); [intros E; apply Hfw; rewrite E; apply orb_true_r|done|].
  split; [cbn; by rewrite E|].
  destruct s as [m|d|]; cbn in *; [|done..]. destruct (Hfresh m eq_refl) as [Hm _]. split.
  { apply NoDup_cons. split; [|done]. intros Hin%Hd. by rewrite lookup_insert_eq in Hin. }
  split; [done|]. split.
  - intros n [->|Hin]%elem_of_cons; [done|]. apply Hd in Hin. by apply lookup_insert_None in Hin as [? _].
  - intros n. rewrite Hh. rewrite elem_of_cons. destruct (decide (n = m)) as [->|Hne].
    + rewrite lookup_insert_eq. split; [by right; left|]. intros _. left. eauto.
    + rewrite lookup_insert_ne by done. tauto.
Qed.

(** An untagged field that is numbered at all is numbered by the second
    loop. *)
Definition untagged (f : go_field) : Prop := Tag f = Untagged /\ framework_number f = None.

Lemma plan_field_untagged framework numbers f : untagged f ->
  forall n, plan_field framework numbers f <> Planned n.
Proof.
  intros [Ht Hf] n. unfold PbNumbering.plan_field. rewrite Ht, Hf. by repeat case_match.
Qed.

Lemma plan_slots framework numbers fields f s : (f, s) ∈ (plan framework numbers fields).2 ->
  exists numbers', plan_field framework numbers' f = s.
Proof.
  revert numbers. induction fields as [|g fields IH]; intros numbers; cbn [PbNumbering.plan]; [by intros ?%elem_of_nil|].
  specialize (IH (hold_number numbers g (plan_field framework numbers g))).
  destruct (plan _ _ fields) as [numbers' slots]. intros [[= -> ->]|H]%elem_of_cons; [by exists numbers|by apply IH].
Qed.

(** ** The second loop *)

Section Untagged.
Variables (committed : message) (held : gmap Z string) (start : Z).
Hypotheses (Hwf : wf_message committed).

(** Numbers no field may take. *)
Definition barred (n : Z) : bool :=
  reserves (ReservedRange committed) n || ((reservedRangeStart <=? n) && (n <=? reservedRangeEnd)).

(** The number an untagged field keeps, if any: the committed one, unless a
    field numbered in the first loop holds it. *)
Definition kept (key : string) : option Z :=
  n ← committedByName committed !! key; if bool_decide (is_Some (held !! n)) then None else Some n.

(** The numbers in use after the untagged fields of the keys [given]. *)
Record given_inv (given : list string) (numbers : gmap Z string) (candidate : Z) : Prop := {
  given_start : start <= candidate;
  given_committed : forall f, f ∈ Fields committed -> Number f <= start;
  given_top : forall n, is_Some (numbers !! n) -> n <= candidate;
  given_held : forall n, is_Some (held !! n) -> is_Some (numbers !! n);
  given_kept : forall f, f ∈ Fields committed -> is_Some (numbers !! Number f) -> is_Some (held !! Number f) \/ Name f ∈ given;
  given_gap : forall n, start < n <= candidate -> barred n = true \/ is_Some (numbers !! n) }.

(** What one call gives. *)
Definition good (key : string) (n : Z) : Prop :=
  match kept key with
  | Some k => n = k
  | None => start < n <= fieldMaxNumber /\ barred n = false
  end.

Lemma committedByName_Some key n :
  committedByName committed !! key = Some n <-> exists f, f ∈ Fields committed /\ Name f = key /\ Number f = n.
Proof.
  split; [apply collect_Some|]. intros (f & Hf & <- & <-). apply (collect_NoDup Name Number); [apply Hwf|done].
Qed.

Lemma kept_Some key n : kept key = Some n ->
  (exists f, f ∈ Fields committed /\ Name f = key /\ Number f = n) /\ held !! n = None.
Proof.
  unfold kept. intros (m & E & H)%bind_Some. case_bool_decide as Hs; [done|]. injection H as ->.
  apply committedByName_Some in E. by rewrite eq_None_not_Some.
Qed.

(** The candidate that is free is above every number in use. *)
Lemma taken_above given numbers candidate n :
  given_inv given numbers candidate -> candidate < n -> taken committed numbers n = barred n.
Proof.
  intros [Hs Hc Ht _ _ _] Hn. unfold taken, barred, committedNumbers.
  rewrite (bool_decide_eq_false_2 (is_Some _)), (bool_decide_eq_false_2 (_ ∈ _)); [done|..].
  - intros (f & -> & Hf)%list_elem_of_fmap. specialize (Hc f Hf). lia.
  - intros H%Ht. lia.
Qed.

(** The call agrees with [kept]: numbers given to other untagged fields do
    not get in the way. *)
Lemma next_kept given numbers candidate key :
  given_inv given numbers candidate -> key ∉ given ->
  (n ← committedByName committed !! key; if bool_decide (is_Some (numbers !! n)) then None else Some n) = kept key.
Proof.
  intros [_ _ _ Hh Hk _] Hg. unfold kept. destruct (committedByName committed !! key) as [n|] eqn:E; [|done]. cbn [mbind option_bind].
  apply committedByName_Some in E as (f & Hf & <- & <-).
  rewrite (bool_decide_ext (is_Some (numbers !! Number f)) (is_Some (held !! Number f))); [done|]. split; [|apply Hh].
  intros Hs. by destruct (Hk f Hf Hs).
Qed.

Lemma next_ok given numbers candidate key :
  given_inv given numbers candidate -> key ∉ given ->
  match next committed numbers candidate key with
  | (Some n, candidate') => numbers !! n = None /\ good key n /\ given_inv (key :: given) (<[n := key]> numbers) candidate'
  | (None, candidate') => kept key = None /\ fieldMaxNumber <= candidate' /\ given_inv (key :: given) numbers candidate'
  end.
Proof.
  intros Hi Hg. unfold next. rewrite (next_kept given numbers candidate key Hi Hg). destruct (kept key) as [n|] eqn:Ek.
  - pose proof (kept_Some key n Ek) as [(f & Hf & En & E) Hfree]. pose proof Hi as [Hs Hc Ht Hh Hk Hgap].
    assert (numbers !! n = None) as Hn.
    { apply eq_None_not_Some. intros H. rewrite <- E in H. destruct (Hk f Hf H) as [Hs'|]; [rewrite E, Hfree in Hs'; by destruct Hs'|by subst]. }
    split; [done|]. unfold good. rewrite Ek. split; [done|]. pose proof (Hc f Hf). split; [done|done|..].
    + intros m. rewrite lookup_insert_is_Some. intros [<-|[_ ?]]; [lia|auto].
    + intros m Hm. apply lookup_insert_is_Some. destruct (decide (n = m)); [by left|right; auto].
    + intros g Hg'. rewrite lookup_insert_is_Some. intros [Eg|[_ H1]]; [|destruct (Hk g Hg' H1); [by left|right; by constructor]].
      right. rewrite (NoDup_key Number (Fields committed) g f); [rewrite En; constructor|apply Hwf|done|done|congruence].
    + intros m Hm. destruct (Hgap m Hm); [by left|right]. apply lookup_insert_is_Some. destruct (decide (n = m)); [by left|by right].
  - pose proof (next_free_ok (taken committed numbers) fieldMaxNumber candidate) as Hf.
    pose proof (taken_above given numbers candidate) as Hab. pose proof Hi as [Hs Hc Ht Hh Hk Hgap].
    destruct (next_free _ _ _) as [c|n].
    + destruct Hf as [-> Hall]. split; [done|]. split; [lia|]. split; [lia|done|..|].
      * intros m Hm%Ht. lia.
      * done.
      * intros g Hg' H1. destruct (Hk g Hg' H1); [by left|right; by constructor].
      * intros m Hm. destruct (decide (m <= candidate)) as [|Hgt]; [apply Hgap; lia|left].
        rewrite <- Hab by (done || lia). apply Hall. lia.
    + destruct Hf as (Hn & Hfree & Hall). split.
      { apply eq_None_not_Some. intros H%Ht. lia. }
      split; [unfold good; rewrite Ek, <- Hab by (done || lia); split; [lia|done]|]. split; [lia|done|..].
      * intros m. rewrite lookup_insert_is_Some. intros [<-|[_ H%Ht]]; lia.
      * intros m Hm. apply lookup_insert_is_Some. destruct (decide (n = m)); [by left|right; auto].
      * intros g Hg'. rewrite lookup_insert_is_Some. pose proof (Hc g Hg'). intros [Eg|[_ H1]]; [lia|].
        destruct (Hk g Hg' H1); [by left|right; by constructor].
      * intros m Hm. rewrite lookup_insert_is_Some. destruct (decide (n = m)) as [|Hne]; [by right; left|].
        destruct (decide (m <= candidate)) as [|Hgt]; [destruct (Hgap m); [lia|by left|right; by right]|left].
        rewrite <- Hab by (done || lia). apply Hall. lia.
Qed.

(** What becomes of a field, when the numbers [used] are in use and the
    keys [refused] are reported. *)
Definition outcome (used : Z -> Prop) (refused : list diag) (s : go_field * slot) (p : go_field * option Z) : Prop :=
  match s.2, p.2 with
  | Planned m, Some n => n = m
  | ToNumber, Some n => good (Key s.1) n
  | ToNumber, None => kept (Key s.1) = None /\ NoneLeft (Key s.1) ∈ refused /\
      forall m, start < m <= fieldMaxNumber -> barred m = true \/ used m
  | LeftOut _, None => True
  | _, _ => False
  end.

Lemma outcome_mono (used used' : Z -> Prop) refused refused' s p :
  (forall m, used m -> used' m) -> refused ⊆ refused' -> outcome used refused s p -> outcome used' refused' s p.
Proof.
  intros Hu Hr. unfold outcome. destruct s.2, p.2; try done. intros (? & ? & H). split; [done|]. split; [by apply Hr|].
  intros m Hm. destruct (H m Hm); [by left|right; auto].
Qed.

(** The whole loop: the planned numbers stay, the given ones are new, and
    each field comes out as it should. *)
Record numbered (slots : list (go_field * slot)) (numbers : gmap Z string) (r : list (go_field * option Z) * list diag) : Prop := {
  numbered_fields : r.1.*1 = slots.*1;
  numbered_distinct : NoDup (omap snd r.1);
  numbered_new : forall n, n ∈ omap snd r.1 -> n ∈ slot_numbers slots \/ numbers !! n = None;
  numbered_outcome : Forall2 (outcome (fun m => is_Some (numbers !! m) \/ m ∈ omap snd r.1) r.2) slots r.1 }.

(** The number of the first field put back in front of the rest. *)
Lemma numbered_cons f s n slots (numbers numbers' : gmap Z string) r d :
  numbered slots numbers' r ->
  (forall m, is_Some (numbers' !! m) -> is_Some (numbers !! m) \/ n = Some m) ->
  (forall m, numbers' !! m = None -> numbers !! m = None) ->
  (forall m, n = Some m -> is_Some (numbers' !! m) /\ m ∉ slot_numbers slots /\ (s = Planned m \/ numbers !! m = None)) ->
  outcome (fun m => is_Some (numbers !! m) \/ m ∈ omap snd ((f, n) :: r.1)) (d ++ r.2) (f, s) (f, n) ->
  numbered ((f, s) :: slots) numbers ((f, n) :: r.1, d ++ r.2).
Proof.
  intros [Hf Hd Hn Ho] Hused Hfree Hhead Hout.
  assert (forall m, m ∈ omap snd ((f, n) :: r.1) <-> n = Some m \/ m ∈ omap snd r.1) as Hin.
  { intros m. cbn. destruct n as [k|]; rewrite ?elem_of_cons; naive_solver. }
  split; cbn [fst snd].
  - cbn. by rewrite Hf.
  - cbn. destruct n as [m|]; [|done]. destruct (Hhead m eq_refl) as (Hs & Hm & _). apply NoDup_cons. split; [|done].
    intros [?|H]%Hn; [done|]. rewrite H in Hs. by destruct Hs.
  - intros m [->|[Hm|Hm]%Hn]%Hin.
    + destruct (Hhead m eq_refl) as (_ & _ & [->|]); [left; constructor|by right].
    + left. unfold slot_numbers in *. cbn. destruct (slot_number (f, s)); [by constructor|done].
    + right. auto.
  - constructor; [done|]. eapply Forall2_impl; [done|]. intros s' p'. apply outcome_mono.
    + intros m [Hm|Hm]; [destruct (Hused m Hm); [by left|right; apply Hin; by left]|right; apply Hin; by right].
    + intros x Hx. apply elem_of_app. by right.
Qed.

Lemma number_untagged_ok slots given numbers candidate :
  given_inv given numbers candidate -> NoDup (given ++ (Key <$> slots.*1)) ->
  NoDup (slot_numbers slots) -> (forall n, n ∈ slot_numbers slots -> is_Some (numbers !! n)) ->
  numbered slots numbers (number_untagged committed numbers candidate slots).
Proof.
  revert given numbers candidate. induction slots as [|[f s] slots IH]; intros given numbers candidate Hi Hk Hn Hh; cbn [number_untagged].
  { split; [done|constructor|by intros n ?%elem_of_nil|constructor]. }
  cbn in Hk. pose proof Hk as Hk'. rewrite <- Permutation_middle in Hk'. pose proof Hk' as [Hf _]%NoDup_cons.
  assert (Key f ∉ given) as Hg by set_solver.
  assert (given_inv given numbers candidate -> numbered slots numbers (number_untagged committed numbers candidate slots)) as Hrest.
  { intros Hi'. apply (IH given); [done| |destruct s; cbn in Hn; by try apply NoDup_cons in Hn as [_ Hn]|].
    - by apply NoDup_cons in Hk' as [_ ?].
    - intros n H. apply Hh. unfold slot_numbers in *. cbn. destruct (slot_number (f, s)); [by constructor|done]. }
  destruct s as [m|d|].
  - specialize (Hrest Hi). destruct (number_untagged _ _ _ slots) as [planned ds].
    apply (numbered_cons f (Planned m) (Some m) slots numbers numbers (planned, ds) []); [done|by left|done| |done].
    intros k [= <-]. split; [apply Hh; constructor|]. cbn in Hn. apply NoDup_cons in Hn as [? _]. split; [done|by left].
  - specialize (Hrest Hi). destruct (number_untagged _ _ _ slots) as [planned ds].
    by apply (numbered_cons f (LeftOut d) None slots numbers numbers (planned, ds) []); [|left| | |].
  - pose proof (next_ok given numbers candidate (Key f) Hi Hg) as Hnext.
    destruct (next _ _ _ _) as [[n|] candidate'].
    + destruct Hnext as (Hfree & Hgood & Hi'). specialize (IH (Key f :: given) (<[n:=Key f]> numbers) candidate' Hi').
      destruct (number_untagged _ _ _ slots) as [planned ds].
      apply (numbered_cons f ToNumber (Some n) slots numbers (<[n:=Key f]> numbers) (planned, ds) [MissingTag (Key f) n]).
      * apply IH; [done|done|]. intros m Hm. apply lookup_insert_is_Some. destruct (decide (n = m)); [by left|right; auto].
      * intros m. rewrite lookup_insert_is_Some. intros [<-|[_ ?]]; [by right|by left].
      * intros m [? _]%lookup_insert_None. done.
      * intros m [= <-]. rewrite lookup_insert_eq. split; [eauto|]. split; [|by right].
        intros Hm%Hh. rewrite Hfree in Hm. by destruct Hm.
      * done.
    + destruct Hnext as (Hkept & Hmax & Hi'). specialize (IH (Key f :: given) numbers candidate' Hi').
      destruct (number_untagged _ _ _ slots) as [planned ds].
      apply (numbered_cons f ToNumber None slots numbers numbers (planned, ds) [NoneLeft (Key f)]); [by apply IH|by left|done|done|].
      unfold outcome. cbn. split; [done|]. split; [constructor|]. intros m Hm.
      destruct (given_gap _ _ _ Hi' m); [lia|by left|right; by left].
Qed.
End Untagged.
(** ** The numbering of a message *)

Lemma first_candidate_ok committed numbers framework :
  let start := first_candidate committed numbers framework in
  firstFieldNumber framework - 1 <= start /\
  (forall f, f ∈ Fields committed -> Number f <= start) /\ (forall n, is_Some (numbers !! n) -> n <= start).
Proof.
  unfold first_candidate, committedNumbers.
  assert (forall l (b : Z), b <= foldr Z.max b l /\ forall x, x ∈ l -> x <= foldr Z.max b l) as Hmax.
  { intros l b. induction l as [|x l [IH1 IH2]]; cbn; [split; [lia|by intros x ?%elem_of_nil]|].
    split; [lia|]. intros y [->|Hy%IH2]%elem_of_cons; lia. }
  set (inner := foldr Z.max _ (map fst _)). destruct (Hmax (Number <$> Fields committed) inner) as [H1 H2].
  destruct (Hmax (map fst (map_to_list numbers)) (firstFieldNumber framework - 1)) as [H3 H4]. fold inner in H3, H4.
  split; [lia|]. split.
  - intros f Hf. apply H2. by apply list_elem_of_fmap_2.
  - intros n [v Hv]. assert (n <= inner); [|lia]. apply H4, list_elem_of_fmap. exists (n, v).
    split; [done|]. by apply elem_of_map_to_list.
Qed.

Section Message.
Variables (committed : message) (fields : list go_field).
Hypotheses (Hwf : wf_message committed) (Hkeys : NoDup (Key <$> fields)).
Local Abbreviation framework := (existsb isFrameworkField fields).
Local Abbreviation first_loop := (plan framework ∅ fields).
Local Abbreviation start := (first_candidate committed first_loop.1 framework).

Lemma first_loop_ok :
  first_loop.2.*1 = fields /\ NoDup (slot_numbers first_loop.2) /\
  (forall n, is_Some (first_loop.1 !! n) <-> n ∈ slot_numbers first_loop.2) /\
  (forall n, is_Some (first_loop.1 !! n) -> 1 <= n <= fieldMaxNumber).
Proof.
  pose proof (plan_ok framework fields [] ∅) as H. destruct first_loop as [numbers slots].
  destruct H as (H1 & H2 & [seen H3] & _ & H5); [|done|done|].
  - split; [intros _ n|intros n]; rewrite lookup_empty; by intros [].
  - split; [done|]. split; [done|]. split; [|by apply H3]. intros n. rewrite H5, lookup_empty.
    split; [|by right]. by intros [[]|?].
Qed.

Lemma number_fields_numbered :
  numbered committed first_loop.1 start first_loop.2 first_loop.1
    (number_untagged committed first_loop.1 start first_loop.2).
Proof.
  destruct first_loop_ok as (H1 & H2 & H3 & _). destruct (first_candidate_ok committed first_loop.1 framework) as (_ & Hc & Hn).
  apply (number_untagged_ok committed first_loop.1 start Hwf _ []); [|by rewrite H1|done|by intros n ?%H3].
  split; [done|done|done|done|by left|lia].
Qed.

Lemma number_fields_1 : (number_fields committed fields).1 = (number_untagged committed first_loop.1 start first_loop.2).1.
Proof. unfold PbNumbering.number_fields. destruct first_loop as [numbers slots]. by destruct (number_untagged _ _ _ _). Qed.

(** The slot of a numbered field. *)
Lemma numbered_slot f n : (f, Some n) ∈ (number_fields committed fields).1 ->
  exists s, (f, s) ∈ first_loop.2 /\ match s with
    | Planned m => n = m
    | ToNumber => good committed first_loop.1 start (Key f) n
    | LeftOut _ => False
    end.
Proof.
  rewrite number_fields_1. destruct number_fields_numbered as [Hf _ _ Ho]. revert Hf Ho.
  generalize (number_untagged committed first_loop.1 start first_loop.2) as r. intros r Hf Ho [i Hi]%list_elem_of_lookup.
  destruct (Forall2_lookup_r _ _ _ _ _ Ho Hi) as ([g s] & Hs & Hout). exists s.
  assert (g = f) as ->.
  { pose proof (f_equal (fun l => l !! i) Hf) as E. cbn in E. rewrite !list_lookup_fmap, Hi, Hs in E. by injection E. }
  split; [by eapply list_elem_of_lookup_2|]. unfold outcome in Hout. cbn in Hout. by destruct s.
Qed.

Lemma numbers_in_range n : n ∈ omap snd (number_fields committed fields).1 -> 1 <= n <= fieldMaxNumber.
Proof.
  intros ([f m] & Hin & E)%list_elem_of_omap. cbn in E. subst m. destruct (numbered_slot f n Hin) as (s & Hs & Hn).
  destruct first_loop_ok as (_ & _ & H3 & H4). destruct (first_candidate_ok committed first_loop.1 framework) as (Hst & _).
  pose proof (firstFieldNumber_pos framework). destruct s as [m| |]; [|done|].
  - subst m. apply H4, H3. apply list_elem_of_omap. by exists (f, Planned n).
  - unfold good in Hn. destruct (kept _ _ _) as [k|] eqn:Ek; [|lia]. subst k.
    apply kept_Some in Ek as [(w & Hw & _ & <-) _]; [|done]. destruct Hwf as [_ _ Hf _]. rewrite Forall_forall in Hf. by apply Hf.
Qed.

(** How a number held to the committed message comes out. *)
Lemma good_held name key n l t tn : clear committed -> good committed first_loop.1 start key n ->
  match hold_field name committed (mkField key n l t tn) with
  | Some (NumberHeld _ _ _ _) | Some (NumberReserved _ _ _) => False
  | Some (Renumbered _ _ was _) => is_Some (first_loop.1 !! was)
  | _ => True
  end.
Proof.
  intros Hclear Hg. set (f := mkField key n l t tn).
  destruct (first_candidate_ok committed first_loop.1 framework) as (_ & Hc & _).
  pose proof (by_name_spec (Fields committed) (Name f) (wf_names _ Hwf)) as Hn.
  pose proof (by_number_spec (Fields committed) (Number f) (wf_numbers _ Hwf)) as Hk.
  assert (reserves (ReservedRange committed) n = false /\
    match by_number (Fields committed) !! n with Some h => h = key | None => True end /\
    match by_name (Fields committed) !! key with Some w => Number w = n \/ is_Some (first_loop.1 !! Number w) | None => True end) as (Hr & Hh & Hw).
  { unfold good in Hg. destruct (kept _ _ _) as [k|] eqn:Ek.
    - subst k. apply kept_Some in Ek as [(w & Hw & En & E) _]; [|done]. split; [rewrite <- E; by apply Hclear|]. cbn [Name Number f] in *. split.
      + destruct (by_number _ !! n) as [h|]; [|done]. destruct Hk as (w' & Hw' & E' & <-). rewrite (NoDup_key Number (Fields committed) w' w); [done|apply Hwf|done|done|congruence].
      + destruct (by_name _ !! key) as [w'|]; [|done]. destruct Hn as [Hw' E']. left.
        rewrite (NoDup_key Name (Fields committed) w' w); [done|apply Hwf|done|done|congruence].
    - destruct Hg as [Hgt Hb]. apply orb_false_iff in Hb as [Hb _]. split; [done|]. cbn [Name Number f] in *. split.
      + destruct (by_number _ !! n) as [h|]; [|done]. destruct Hk as (w & Hw & E & _). specialize (Hc w Hw). lia.
      + destruct (by_name _ !! key) as [w|] eqn:Ew; [|done]. right. destruct Hn as [Hw E].
        unfold kept in Ek. rewrite (proj2 (committedByName_Some committed Hwf key (Number w))) in Ek by eauto. cbn in Ek.
        by case_bool_decide. }
  unfold hold_field. cbn [Name Number f]. rewrite Hr.
  destruct (by_number (Fields committed) !! n) as [h|]; cbn [mbind option_bind]; [subst h; rewrite String.eqb_refl; cbn [negb]|];
    (destruct (by_name (Fields committed) !! key) as [w|]; cbn [mbind option_bind]; [|by case_bool_decide]);
    (destruct (Z.eqb_spec (Number w) n); cbn [negb]; [|by destruct Hw]);
    (destruct (negb (Bool.eqb _ _)); [done|]; destruct (negb (String.eqb _ _)); [done|by case_bool_decide]).
Qed.

(** ** The run that follows *)

(** A field with the tag the generator writes for the number it was given. *)
Definition with_tag (p : go_field * option Z) : go_field :=
  match p with
  | (f, Some n) =>
      match Tag f, framework_number f with
      | Untagged, None => mkGoField (Key f) (ViaPointer f) (Pkg f) (Tagged (FormatInt n))
      | _, _ => f
      end
  | (f, None) => f
  end.

Lemma with_tag_Key p : Key (with_tag p) = Key p.1.
Proof. destruct p as [f [n|]]; cbn; [|done]. by destruct (Tag f), (framework_number f). Qed.

Lemma with_tag_framework p : framework_number (with_tag p) = framework_number p.1.
Proof. destruct p as [f [n|]]; cbn; [|done]. destruct (Tag f); [done| |done]. by destruct (framework_number f) eqn:E. Qed.

Lemma taggedNumber_FormatInt key fw n :
  firstFieldNumber fw <= n <= fieldMaxNumber -> ~ (reservedRangeStart <= n <= reservedRangeEnd) ->
  taggedNumber key (FormatInt n) fw = Ok n.
Proof.
  intros Hn Hr. pose proof (firstFieldNumber_pos fw). unfold taggedNumber, fieldMaxNumber in *.
  rewrite ParseInt_FormatInt by lia. destruct (Z.ltb_spec n (firstFieldNumber fw)); [lia|].
  destruct (Z.ltb_spec 536870911 n); [lia|]. destruct (_ && _) eqn:E; [|done]. apply andb_true_iff in E. lia.
Qed.

Lemma plan_field_frame fw numbers numbers' f n :
  plan_field fw numbers f = Planned n -> numbers' !! n = None -> plan_field fw numbers' f = Planned n.
Proof.
  unfold PbNumbering.plan_field. repeat (case_match; try done). intros [= ->] E. congruence.
Qed.

(** A field of the first run reads back as planned at its number. *)
Lemma with_tag_plan fw numbers f n s :
  plan_field fw numbers f = s ->
  match s with
  | Planned m => n = m
  | ToNumber => firstFieldNumber fw <= n <= fieldMaxNumber /\ ~ (reservedRangeStart <= n <= reservedRangeEnd)
  | LeftOut _ => False
  end ->
  forall numbers', numbers' !! n = None -> plan_field fw numbers' (with_tag (f, Some n)) = Planned n.
Proof.
  intros <- Hs numbers' Hfree. unfold with_tag.
  destruct (plan_field fw numbers f) as [m|d|] eqn:E; [subst m|done|].
  - destruct (Tag f) eqn:Et; [by eapply plan_field_frame| |by eapply plan_field_frame].
    destruct (framework_number f) eqn:Ef; [by eapply plan_field_frame|]. by apply plan_field_untagged in E.
  - destruct (Tag f) eqn:Et; revert E; unfold PbNumbering.plan_field; rewrite Et; [by repeat case_match| |by repeat case_match].
    destruct (framework_number f) eqn:Ef; [by repeat case_match|]. cbn [Key ViaPointer Pkg Tag].
    change (framework_number (mkGoField _ _ _ _)) with (framework_number f). rewrite Ef.
    destruct (negb _); [done|]. destruct (ViaPointer f); [done|]. destruct (negb _); [done|].
    intros _. destruct Hs. by rewrite taggedNumber_FormatInt, Hfree.
Qed.

Lemma plan_all_planned fw ps numbers :
  NoDup (omap snd ps) -> (forall n, n ∈ omap snd ps -> numbers !! n = None) ->
  (forall f n, (f, n) ∈ ps -> exists k, n = Some k /\ forall numbers', numbers' !! k = None -> plan_field fw numbers' (with_tag (f, n)) = Planned k) ->
  (plan fw numbers (map with_tag ps)).2 = map (fun p => (with_tag p, Planned (default 0 p.2))) ps.
Proof.
  revert numbers. induction ps as [|[f n] ps IH]; intros numbers Hn Hfree Hp; [done|]. cbn [map PbNumbering.plan].
  destruct (Hp f n) as (k & -> & Hk); [constructor|]. cbn in Hn, Hfree. apply NoDup_cons in Hn as [Hkn Hn].
  rewrite (Hk numbers) by (apply Hfree; constructor). specialize (IH (hold_number numbers (with_tag (f, Some k)) (Planned k)) Hn).
  destruct (plan fw _ (map with_tag ps)) as [numbers' slots]. cbn [snd]. f_equal. apply IH.
  - intros m Hm. cbn. rewrite lookup_insert_ne; [apply Hfree; by constructor|]. intros ->. done.
  - intros g m Hg. apply Hp. by constructor.
Qed.

Lemma number_untagged_planned m numbers c ps :
  number_untagged m numbers c (map (fun p : go_field * option Z => (with_tag p, Planned (default 0 p.2))) ps) =
  (map (fun p => (with_tag p, Some (default 0 p.2))) ps, []).
Proof. induction ps as [|p ps IH]; [done|]. cbn [map number_untagged]. by rewrite IH. Qed.

End Message.

(** A number of the first loop, its field and where the field is found. *)
Lemma slot_planned committed fields g m : wf_message committed -> NoDup (Key <$> fields) ->
  (g, Planned m) ∈ (plan (existsb isFrameworkField fields) ∅ fields).2 ->
  (g, Some m) ∈ (number_fields committed fields).1 /\ ~ untagged g.
Proof.
  intros Hwf Hkeys Hin. pose proof (plan_slots _ _ _ _ _ Hin) as [numbers Hp]. split.
  - rewrite number_fields_1. destruct (number_fields_numbered committed fields Hwf Hkeys) as [Hf _ _ Ho]. revert Hf Ho.
    generalize (number_untagged committed (plan (existsb isFrameworkField fields) ∅ fields).1
      (first_candidate committed (plan (existsb isFrameworkField fields) ∅ fields).1 (existsb isFrameworkField fields))
      (plan (existsb isFrameworkField fields) ∅ fields).2) as r.
    intros r Hf Ho. apply list_elem_of_lookup in Hin as [i Hi].
    destruct (Forall2_lookup_l _ _ _ _ _ Ho Hi) as ([h o] & Hr & Hout). unfold outcome in Hout. cbn in Hout.
    destruct o as [n|]; [subst n|done]. assert (h = g) as ->; [|by eapply list_elem_of_lookup_2].
    pose proof (f_equal (fun l => l !! i) Hf) as E. cbn in E. rewrite !list_lookup_fmap, Hi, Hr in E. by injection E.
  - intros Hu. by eapply (plan_field_untagged _ _ _ Hu).
Qed.

(** A number a tagged field or the framework holds. *)
Definition held (planned : list (go_field * option Z)) (n : Z) : Prop :=
  exists g, (g, Some n) ∈ planned /\ ~ untagged g.

(** A number nothing ever had: past everything in use, not reserved, and none
    of protobuf's own. *)
Record fresh (committed : message) (planned : list (go_field * option Z)) (n : Z) : Prop := {
  fresh_valid : 1 <= n <= 536870911 /\ ~ (19000 <= n <= 19999);
  fresh_unreserved : forall r, r ∈ ReservedRange committed -> ~ (Start r <= n < End_ r);
  fresh_committed : forall w, w ∈ Fields committed -> Number w < n;
  fresh_held : forall m, held planned m -> m < n }.

(** The number is the one the committed message has for the name. *)
Definition committed_as (committed : message) (key : string) (n : Z) : Prop :=
  exists w, w ∈ Fields committed /\ Name w = key /\ Number w = n.

Lemma reserves_In ranges n : reserves ranges n = false -> forall r, r ∈ ranges -> ~ (Start r <= n < End_ r).
Proof.
  intros H r Hr Hn. assert (reserves ranges n = true); [|congruence]. apply existsb_exists. exists r.
  split; [by apply list_elem_of_In|]. apply andb_true_iff. split; [apply Z.leb_le|apply Z.ltb_lt]; lia.
Qed.

(** What an untagged field is given: its committed number, unless another
    field holds it, and then a fresh one. *)
Lemma given_number committed fields f n : wf_message committed -> NoDup (Key <$> fields) ->
  let planned := (number_fields committed fields).1 in
  (f, Some n) ∈ planned -> untagged f ->
  committed_as committed (Key f) n \/
  fresh committed planned n /\ forall w, w ∈ Fields committed -> Name w = Key f -> held planned (Number w).
Proof.
  intros Hwf Hkeys planned Hin Hu. destruct (numbered_slot committed fields Hwf Hkeys f n Hin) as (s & Hs & Hg).
  destruct (plan_slots _ _ _ _ _ Hs) as [numbers' Hp]. destruct s as [m| |]; [by apply plan_field_untagged in Hp|done|].
  unfold good in Hg. destruct (kept _ _ _) as [k|] eqn:Ek.
  { subst k. left. by apply kept_Some in Ek as [? _]. }
  right. destruct (first_loop_ok fields Hkeys) as (_ & _ & H3 & _). destruct Hg as [Hn Hb].
  destruct (first_candidate_ok committed (plan (existsb isFrameworkField fields) ∅ fields).1 (existsb isFrameworkField fields)) as (Hst & Hc & Hh).
  pose proof (firstFieldNumber_pos (existsb isFrameworkField fields)).
  assert (forall m, is_Some ((plan (existsb isFrameworkField fields) ∅ fields).1 !! m) <-> m ∈ slot_numbers (plan (existsb isFrameworkField fields) ∅ fields).2) as Hheld by done.
  unfold barred in Hb. apply orb_false_iff in Hb as [Hb1 Hb2]. apply andb_false_iff in Hb2. unfold reservedRangeStart, reservedRangeEnd, fieldMaxNumber in *. split.
  - split; [lia|by apply reserves_In|intros w Hw; specialize (Hc w Hw); lia|].
    intros m (g & Hg & Hng). destruct (numbered_slot committed fields Hwf Hkeys g m Hg) as (s & Hs' & Hm).
    destruct s as [k| |]; [subst k|done|].
    + assert (is_Some ((plan (existsb isFrameworkField fields) ∅ fields).1 !! m)) as Hsm; [|specialize (Hh m Hsm); lia].
      apply Hheld, list_elem_of_omap. by exists (g, Planned m).
    + destruct Hng. destruct (plan_slots _ _ _ _ _ Hs') as [numbers'' Hp']. revert Hp'. unfold PbNumbering.plan_field, untagged. repeat case_match; done.
  - intros w Hw Ew. unfold kept in Ek. rewrite (proj2 (committedByName_Some committed Hwf (Key f) (Number w))) in Ek by eauto.
    cbn in Ek. case_bool_decide as Hsw; [|done]. apply Hheld, list_elem_of_omap in Hsw as ([g s] & Hg & E).
    unfold slot_number in E. cbn in E. destruct s; simplify_eq. exists g. by apply slot_planned.
Qed.

(** A field with a number of its own has the framework's, or its tag's, which
    is a business number protobuf leaves to messages. *)
Lemma own_number committed fields f n : wf_message committed -> NoDup (Key <$> fields) ->
  (f, Some n) ∈ (number_fields committed fields).1 ->
  (forall m, framework_number f = Some m -> n = m) /\
  (forall tag, framework_number f = None -> Tag f = Tagged tag ->
    ParseInt tag 32 = (n, None) /\ 1 <= n <= 536870911 /\ ~ (19000 <= n <= 19999) /\
    (existsb isFrameworkField fields = true -> 11 <= n)).
Proof.
  intros Hwf Hkeys Hin. destruct (numbered_slot committed fields Hwf Hkeys f n Hin) as (s & Hs & Hg).
  destruct (plan_slots _ _ _ _ _ Hs) as [numbers' Hp]. unfold PbNumbering.plan_field in Hp. split.
  - intros m Hf. rewrite Hf in Hp. destruct s; repeat case_match; by simplify_eq.
  - intros tag Hf Ht. rewrite Hf, Ht in Hp.
    destruct (taggedNumber (Key f) tag (existsb isFrameworkField fields)) as [k|] eqn:E; [|by destruct s; repeat case_match; simplify_eq].
    assert (n = k) as -> by (destruct s; repeat case_match; by simplify_eq). clear Hp Hs Hin.
    pose proof (firstFieldNumber_pos (existsb isFrameworkField fields)). pose proof (taggedNumber_Ok _ _ _ _ E) as [Hlo Hpb].
    unfold taggedNumber in E. destruct (ParseInt tag 32) as [m [e|]]; [done|]. assert (m = k) as -> by (repeat case_match; by simplify_eq).
    unfold reservedRangeStart, reservedRangeEnd, fieldMaxNumber in *. repeat split; [lia..|]. intros E'. rewrite E' in Hlo. cbn in Hlo. unfold firstBusinessFieldNumber in Hlo. lia.
Qed.

(** C16: the numbers of a message are its fields' own, each one field's; one
    the framework or a tag gives is that one, all are between 1 and the largest
    there is, and a tag's is outside protobuf's own 19000 to 19999, and from
    11 on beside the framework's keys.
    A field without a tag has the number its name had in the committed
    message; unless a tagged field holds that one, or there is none, and then
    it gets a fresh one: valid, outside protobuf's own, not reserved by the
    committed message, and past every number that message uses and every
    number a field holds.  Held to the committed message, it meets no breach
    of the numbers but for the number a tagged field took from it. *)
Theorem numbering_keeps_contract committed fields :
  wf_message committed -> clear committed -> NoDup (Key <$> fields) ->
  let planned := (number_fields committed fields).1 in
  planned.*1 = fields /\ NoDup (omap snd planned) /\
  (forall f n, (f, Some n) ∈ planned ->
    1 <= n <= 536870911 /\
    (forall m, framework_number f = Some m -> n = m) /\
    (forall tag, framework_number f = None -> Tag f = Tagged tag ->
      ParseInt tag 32 = (n, None) /\ 1 <= n <= 536870911 /\ ~ (19000 <= n <= 19999) /\
      (existsb isFrameworkField fields = true -> 11 <= n))) /\
  forall f n, (f, Some n) ∈ planned -> untagged f ->
    (committed_as committed (Key f) n \/
     fresh committed planned n /\ forall w, w ∈ Fields committed -> Name w = Key f -> held planned (Number w)) /\
    forall name l t tn,
      match hold_field name committed (mkField (Key f) n l t tn) with
      | Some (NumberHeld _ _ _ _) | Some (NumberReserved _ _ _) => False
      | Some (Renumbered _ _ was _) => held planned was
      | _ => True
      end.
Proof.
  intros Hwf Hclear Hkeys planned. destruct (number_fields_numbered committed fields Hwf Hkeys) as [Hf Hd _ _].
  destruct (first_loop_ok fields Hkeys) as (H1 & _ & H3 & _). unfold planned.
  split; [by rewrite number_fields_1, Hf|]. split; [by rewrite number_fields_1|]. split.
  { intros f n Hin. split; [|by apply (own_number committed fields)].
    apply (numbers_in_range committed fields Hwf Hkeys), list_elem_of_omap. by exists (f, Some n). }
  intros f n Hin Hu. split; [by apply given_number|]. intros name l t tn.
  destruct (numbered_slot committed fields Hwf Hkeys f n Hin) as (s & Hs & Hg).
  destruct (plan_slots _ _ _ _ _ Hs) as [numbers' Hp]. destruct s as [m| |]; [by apply plan_field_untagged in Hp|done|].
  pose proof (good_held committed fields Hwf name (Key f) n l t tn Hclear Hg) as H.
  destruct (hold_field _ _ _) as [[]|]; try done. apply H3, list_elem_of_omap in H as ([g s] & Hin' & E).
  unfold slot_number in E. cbn in E. destruct s; simplify_eq. exists g. by apply slot_planned.
Qed.

(** C17: when every field got a number, and the committed message has for the
    business fields only numbers a tag may hold (a message that comes to embed
    the framework's keys may not: [kept_number_refused]), the run that follows,
    with the new numbers in the tags, numbers the message the same and has
    nothing to report. *)
Theorem numbering_converges committed fields :
  wf_message committed -> NoDup (Key <$> fields) ->
  (forall w, w ∈ Fields committed -> Name w ∈ Key <$> filter (fun f => framework_number f = None) fields ->
    firstFieldNumber (existsb isFrameworkField fields) <= Number w /\ ~ (reservedRangeStart <= Number w <= reservedRangeEnd)) ->
  let planned := (number_fields committed fields).1 in
  Forall (fun p => is_Some p.2) planned ->
  number_fields committed (map with_tag planned) = (map (fun p => (with_tag p, p.2)) planned, []).
Proof.
  intros Hwf Hkeys Hbus planned Hall. rewrite Forall_forall in Hall.
  destruct (number_fields_numbered committed fields Hwf Hkeys) as [Hf Hd _ _].
  destruct (first_loop_ok fields Hkeys) as (H1 & _). rewrite <- number_fields_1 in Hf, Hd. rewrite H1 in Hf. fold planned in Hf, Hd.
  set (fw := existsb isFrameworkField fields) in *.
  assert (existsb isFrameworkField (map with_tag planned) = fw) as Efw.
  { unfold fw. rewrite <- Hf. clear. induction planned as [|p l IH]; [done|]. cbn. rewrite IH. f_equal.
    unfold isFrameworkField. by rewrite with_tag_framework. }
  assert ((plan fw ∅ (map with_tag planned)).2 = map (fun p => (with_tag p, Planned (default 0 p.2))) planned) as Eplan.
  { apply plan_all_planned; [done|by intros n _; apply lookup_empty|]. intros f n Hin. destruct (Hall _ Hin) as [k E]. cbn in E. subst n.
    exists k. split; [done|]. destruct (numbered_slot committed fields Hwf Hkeys f k Hin) as (s & Hs & Hg).
    destruct (plan_slots _ _ _ _ _ Hs) as [numbers' Hp]. apply (with_tag_plan fw numbers' f k s Hp). destruct s as [m| |]; [done..|].
    destruct (first_candidate_ok committed (plan fw ∅ fields).1 fw) as (Hst & _).
    unfold good in Hg. destruct (kept _ _ _) as [k'|] eqn:Ek.
    - subst k'. apply kept_Some in Ek as [(w & Hw & En & <-) _]; [|done]. destruct (Hbus w Hw) as [Hb1 Hb2].
      { rewrite En. apply list_elem_of_fmap_2, list_elem_of_filter. split.
        - revert Hp. unfold PbNumbering.plan_field. by repeat case_match.
        - rewrite <- Hf. by apply (list_elem_of_fmap_2 fst planned (f, Some (Number w))). }
      destruct Hwf as [_ _ Hmax _]. rewrite Forall_forall in Hmax. destruct (Hmax w Hw). done.
    - destruct Hg as [Hgt Hb]. unfold barred in Hb. apply orb_false_iff in Hb as [_ Hb]. apply andb_false_iff in Hb.
      unfold fw in Hst |- *. split; lia. }
  unfold PbNumbering.number_fields. rewrite Efw. destruct (plan fw ∅ (map with_tag planned)) as [numbers slots]. cbn in Eplan. subst slots.
  rewrite number_untagged_planned. f_equal.
  - apply map_ext_in. intros p Hp%list_elem_of_In. destruct (Hall p Hp) as [k ->]. done.
  - rewrite app_nil_r. apply omap_nil_iff. intros x (p & -> & _)%list_elem_of_fmap. done.
Qed.
End Spec.

(** ** Concrete messages *)

Module Records.

Definition app : string := "example.com/app/model".
Definition in_app (p : string) : bool := (p =? app)%string.
Definition business (key : string) (tag : tag_reading) : go_field := mkGoField key false (Some app) tag.
Definition base (key : string) : go_field := mkGoField key false (Some modelRegistryPath) Untagged.

Definition committed (fs : list field) (rs : list range) : message := Message "Record" fs rs [] [] false.
Definition text (name : string) (number : Z) : field := mkField name number LABEL_OPTIONAL TYPE_STRING "".

(** The examples of the comment on [nextNumbers]. *)
Example keeps_and_follows :
  number_fields in_app (committed [text "title" 11; text "tags" 12] [])
    [business "title" (Tagged "11"); business "tags" Untagged; business "summary" Untagged] =
  ([(business "title" (Tagged "11"), Some 11); (business "tags" Untagged, Some 12); (business "summary" Untagged, Some 13)],
   [MissingTag "tags" 12; MissingTag "summary" 13]).
Proof. vm_compute. reflexivity. Qed.

Example skips_reserved :
  (number_fields in_app (committed [text "title" 11] [mkRange 12 13])
    [business "title" (Tagged "11"); business "summary" Untagged]).2 = [MissingTag "summary" 13].
Proof. vm_compute. reflexivity. Qed.

(** A message that came to carry the framework's keys keeps the committed
    number of an untagged field even where the framework's numbers end: the
    tag written for it is one the next run refuses. *)
Example kept_number_refused :
  let c := committed [text "note" 8] [] in
  let fields := [base "id"; business "note" Untagged] in
  let planned := (number_fields in_app c fields).1 in
  planned = [(base "id", Some 1); (business "note" Untagged, Some 8)] /\
  (number_fields in_app c [base "id"; with_tag (business "note" Untagged, Some 8)]).2 = [BelongsToFramework "note" 8].
Proof. vm_compute. done. Qed.

End Records.

Lemma numbering_keeps_contract_witness :
  let c := Records.committed [Records.text "title" 11; Records.text "tags" 12] [mkRange 13 20] in
  let fields := [Records.business "title" (Tagged "11"); Records.business "tags" Untagged; Records.business "summary" Untagged] in
  let planned := (number_fields Records.in_app c fields).1 in
  wf_message c /\ NoDup (Key <$> fields) /\ NoDup (omap snd planned) /\
  (committed_as c "summary" 20 \/ fresh c planned 20 /\ forall w, w ∈ Fields c -> Name w = "summary" -> held planned (Number w)).
Proof.
  assert (wf_message (Records.committed [Records.text "title" 11; Records.text "tags" 12] [mkRange 13 20])) as Hwf.
  { split; [eapply bool_decide_unpack; vm_compute; exact I..| |]; repeat constructor; simpl; lia. }
  assert (NoDup (Key <$> [Records.business "title" (Tagged "11"); Records.business "tags" Untagged; Records.business "summary" Untagged])) as Hk.
  { eapply bool_decide_unpack; vm_compute; exact I. }
  split; [exact Hwf|]. split; [exact Hk|].
  destruct (fun Hc => numbering_keeps_contract Records.in_app _ _ Hwf Hc Hk) as (_ & Hd & _ & Hu).
  { intros f Hf. split; [|apply not_elem_of_nil].
    repeat (apply elem_of_cons in Hf as [->|Hf]; [reflexivity|]). by apply elem_of_nil in Hf. }
  split; [exact Hd|]. refine (proj1 (Hu (Records.business "summary" Untagged) 20 _ _)); [|split; reflexivity].
  eapply list_elem_of_lookup_2 with (i := 2%nat). vm_compute. reflexivity.
Defined.

Lemma numbering_converges_witness :
  let c := Records.committed [Records.text "title" 11] [mkRange 12 13] in
  let fields := [Records.base "id"; Records.business "title" Untagged; Records.business "summary" Untagged] in
  let planned := (number_fields Records.in_app c fields).1 in
  planned.*2 = [Some 1; Some 11; Some 13] /\
  number_fields Records.in_app c (map with_tag planned) = (map (fun p => (with_tag p, p.2)) planned, []).
Proof.
  split; [vm_compute; reflexivity|].
  apply numbering_converges.
  - split; [eapply bool_decide_unpack; vm_compute; exact I..| |]; repeat constructor; simpl; lia.
  - eapply bool_decide_unpack; vm_compute; exact I.
  - intros w ->%list_elem_of_singleton _. vm_compute. intuition discriminate.
  - vm_compute. repeat constructor; eauto.
Defined.
