(* ===== verification/UrlQuery.v ===== *)
(** * List requests: what a URL query asks for

    Models [internal/urlquery] and the checks [internal/controller] makes of
    a list request.  A query maps a key to its values.  A model is what these
    functions read of it: the capabilities it opted in to, its columns, its
    index declarations and the fields a bare key fills, as reflection and gorm
    resolve them.  How a float and a time are read is an argument, the
    former [strconv.ParseFloat] and the latter [timeBound] over [time.Parse].
    An error value carries what its message names. *)

From stdpp Require Import base list gmap strings sorting.
From Stdlib Require Import ZArith Lia Ascii.
From S2P Require Import Prelude GoStrings Strconv.
Local Open Scope Z_scope.

(** ** Strings *)

(** [strings.Cut] at a character: what comes before its first occurrence and
    what comes after. *)
Fixpoint cut (c : ascii) (s : string) : option (string * string) :=
  match s with
  | EmptyString => None
  | String a s =>
      if (a =? c)%char then Some ("", s)
      else '(before, after) ← cut c s; Some (String a before, after)
  end.

Fixpoint contains (c : ascii) (s : string) : bool :=
  match s with EmptyString => false | String a s => (a =? c)%char || contains c s end.

(** [strings.CutSuffix] of one character. *)
Fixpoint cut_suffix (c : ascii) (s : string) : option string :=
  match s with
  | EmptyString => None
  | String a EmptyString => if (a =? c)%char then Some "" else None
  | String a s => String a <$> cut_suffix c s
  end.

(** [strings.Split] at a character. *)
Fixpoint split_at (c : ascii) (s : string) (word : string) : list string :=
  match s with
  | EmptyString => [word]
  | String a s => if (a =? c)%char then word :: split_at c s "" else split_at c s (word +:+ String a "")
  end.
Definition Split (s : string) (c : ascii) : list string := split_at c s "".

(** [strings.Fields]: the words between runs of white space; one byte or one
    white space sequence a round. *)
Fixpoint fields_of (fuel : nat) (l word : list nat) : list (list nat) :=
  let flush := match word with [] => [] | _ => [word] end in
  match fuel with
  | O => flush
  | S fuel =>
      match l with
      | [] => flush
      | b :: rest =>
          match without_space spaces l with
          | Some l => flush ++ fields_of fuel l []
          | None => fields_of fuel rest (word ++ [b])
          end
      end
  end.
Definition Fields (s : string) : list string := map of_bytes (fields_of (String.length s) (bytes_of s) []).

(** [unicode.SimpleFold] as far as it reaches an ASCII letter: the two cases
    of a letter, the long s and the Kelvin sign. *)
Definition fold_char (c : Z) : Z :=
  if (65 <=? c) && (c <=? 90) then c + 32
  else if c =? 383 then 115
  else if c =? 8490 then 107
  else c.

(** [strings.EqualFold] with an ASCII word. *)
Definition rune_value (c : char) : Z := match c with Rune r => r | Bad => 65533 end.
Definition EqualFold (s word : string) : bool :=
  bool_decide (map (fold_char ∘ rune_value) (runes s) = map (fold_char ∘ rune_value) (runes word)).

Definition lower (a : ascii) : ascii :=
  if ((N_of_ascii "A" <=? N_of_ascii a) && (N_of_ascii a <=? N_of_ascii "Z"))%N then ascii_of_N (N_of_ascii a + 32) else a.
Fixpoint ToLower (s : string) : string :=
  match s with EmptyString => EmptyString | String a s => String (lower a) (ToLower s) end.

(** ** Queries *)

Abbreviation values := (gmap string (list string)).

Definition Get (q : values) (key : string) : string :=
  match q !! key with Some (v :: _) => v | _ => "" end.
Definition Has (q : values) (key : string) : bool := bool_decide (is_Some (q !! key)).

Definition sorted_strings (l : list string) : list string := merge_sort string_le l.
Definition keys (q : values) : list string := (map_to_list q).*1.

(** ** Columns *)

(** The data types are gorm's names. *)
Record Column : Type := mkColumn {
  GoName : string; QueryName : string; DBName : string;
  TimeOfDay : bool; Nullable : bool;
  dataType : string; gormDataType : string;
  Filterable : bool; NotNull : bool; PrimaryKey : bool }.

Definition IsTimeOfDayColumn (c : Column) : bool := TimeOfDay c.
Definition IsTimeColumn (c : Column) : bool :=
  ((gormDataType c =? "time") || (gormDataType c =? "date"))%string && negb (IsTimeOfDayColumn c).
Definition IsNumericColumn (c : Column) : bool :=
  bool_decide (gormDataType c ∈ ["int"; "uint"; "float"]).
Definition IsBoolColumn (c : Column) : bool := (gormDataType c =? "bool")%string.
Definition isJSONDataType (name : string) : bool := String.prefix "json" (ToLower name).
Definition IsJSONColumn (c : Column) : bool := isJSONDataType (gormDataType c) || isJSONDataType (dataType c).

(** ** Models *)

Inductive setter : Set := SetString | SetBool | SetInt (bits : Z) | SetUint (bits : Z) | SetFloat (bits : Z).

Record Index : Type := mkIndex { Unique : bool; IndexFields : list string }.

Record Model : Type := mkModel {
  IsQueryable : bool; IsPaginatable : bool; IsCursorable : bool;
  Columns : list Column; Indexes : list Index; Plan : gmap string setter }.

Definition FilterableIndex (m : Model) : gmap string Column :=
  collect QueryName id (filter (fun c => Filterable c = true) (Columns m)).

Definition GoNameIndex (m : Model) : gmap string Column := collect GoName id (Columns m).

(** [IdentifyingColumns]: the columns no two rows share. *)
Definition identifies (m : Model) (i : Index) : option string :=
  match Unique i, IndexFields i with
  | true, [field] =>
      c ← GoNameIndex m !! field;
      if NotNull c || negb (Nullable c) then Some (DBName c) else None
  | _, _ => None
  end.
Definition IdentifyingColumns (m : Model) : list string :=
  map DBName (filter (fun c => PrimaryKey c = true) (map snd (map_to_list (GoNameIndex m)))) ++ omap (identifies m) (Indexes m).

(** ** Operators *)

Inductive FilterOp : Set :=
| OpEq | OpNe | OpGt | OpGte | OpLt | OpLte | OpIn | OpNotIn
| OpLike | OpNotLike | OpStartsWith | OpEndsWith | OpIsNull.

#[export] Instance FilterOp_eq_dec : EqDecision FilterOp.
Proof. solve_decision. Defined.

Definition FilterOps : list FilterOp :=
  [OpEq; OpNe; OpGt; OpGte; OpLt; OpLte; OpIn; OpNotIn; OpLike; OpNotLike; OpStartsWith; OpEndsWith; OpIsNull].

Definition op_name (op : FilterOp) : string :=
  match op with
  | OpEq => "eq" | OpNe => "ne" | OpGt => "gt" | OpGte => "gte" | OpLt => "lt" | OpLte => "lte"
  | OpIn => "in" | OpNotIn => "notin" | OpLike => "like" | OpNotLike => "notlike"
  | OpStartsWith => "startswith" | OpEndsWith => "endswith" | OpIsNull => "isnull"
  end.

Definition ParseFilterOp (s : string) : option FilterOp :=
  find (fun op => (op_name op =? s)%string) FilterOps.

Definition timeFilterOps : list FilterOp := [OpEq; OpNe; OpGt; OpGte; OpLt; OpLte; OpIsNull].
Definition boolFilterOps : list FilterOp := [OpEq; OpNe; OpIsNull].
Definition jsonFilterOps : list FilterOp := [OpLike; OpNotLike; OpStartsWith; OpEndsWith; OpIsNull].

Definition filterOps (c : Column) : list FilterOp :=
  if IsTimeColumn c || IsTimeOfDayColumn c then timeFilterOps
  else if IsBoolColumn c then boolFilterOps
  else if IsNumericColumn c then FilterOps
  else if IsJSONColumn c then jsonFilterOps
  else FilterOps.

(** ** Errors *)

Inductive query_error : Type :=
| Unsupported (keys : list string)
| Undecodable (unsupported invalid : list string)
| FilterShape (key : string)
| FilterOperator (key op : string)
| FilterField (key field : string)
| FilterValue (key : string)
| NoValue (key : string)
| SortTerm (term : string)
| SortColumn (column : string)
| SortDirection (direction column : string)
| CursorColumn (field : string)
| CursorShared (field : string)
| CursorText (value : string)
| CursorWithSort.

Local Open Scope result_scope.

(** ** Filters *)

Inductive filter_value : Set := VText (s : string) | VBool (b : bool) | VList (l : list string).

(** A condition on a column. *)
Record Filter : Set := NewFilter { FColumn : string; FOp : FilterOp; FValue : filter_value }.

Definition bareTimeFilterColumns : list string := ["created_at"; "updated_at"].

Definition isFilterKey (key : string) : bool := negb (String.prefix "_" key) && contains "[" key.

Definition isFilterQueryKey (key : string) : bool :=
  isFilterKey key || bool_decide (key ∈ bareTimeFilterColumns).

Definition splitFilterKey (key : string) : option (string * string) :=
  '(field, rest) ← cut "[" key;
  op ← cut_suffix "]" rest;
  if (field =? "")%string || (op =? "")%string || contains "[" field || contains "]" field
     || contains "[" op || contains "]" op
  then None else Some (field, op).

Section Values.
Context {F : Type}.
Variables (parse_float : string -> Z -> option F) (time_bound : Column -> string -> option string).

Definition no_error {A} (r : A * option num_error) : bool := match r.2 with None => true | Some _ => false end.

Definition ValidateNumericValue (c : Column) (value : string) : bool :=
  if (gormDataType c =? "int")%string then no_error (ParseInt value 64)
  else if (gormDataType c =? "uint")%string then no_error (ParseUint value 64)
  else if (gormDataType c =? "float")%string then match parse_float value 64 with Some _ => true | None => false end
  else true.

(** [None] is a value the column or the operator does not take. *)
Definition normalizeFilterValue (c : Column) (op : FilterOp) (value : string) : option filter_value :=
  if bool_decide (op ∉ filterOps c) then None
  else if bool_decide (op = OpIsNull) then
    match ParseBool value with (b, None) => Some (VBool b) | _ => None end
  else if IsTimeColumn c || IsTimeOfDayColumn c then VText <$> time_bound c value
  else if IsBoolColumn c then match ParseBool value with (b, None) => Some (VBool b) | _ => None end
  else if IsNumericColumn c then
    match op with
    | OpIn | OpNotIn =>
        let items := Split value "," in
        if forallb (ValidateNumericValue c) items then Some (VList items) else None
    | OpLike | OpNotLike | OpStartsWith | OpEndsWith => Some (VText value)
    | _ => if ValidateNumericValue c value then Some (VText value) else None
    end
  else if IsJSONColumn c then Some (VText value)
  else
    match op with
    | OpIn | OpNotIn => Some (VList (Split value ","))
    | _ => Some (VText value)
    end.

(** One turn of the loop of [Filters]: the condition, or none for an empty
    value.  A key with no value at all, which a parsed query string never
    has, makes the code index out of range; it is an error here. *)
Definition filter_of (m : Model) (q : values) (key : string) : result query_error (option Filter) :=
  let? p :=
    if bool_decide (key ∈ bareTimeFilterColumns) && negb (isFilterKey key) then Ok (key, OpEq)
    else
      match splitFilterKey key with
      | None => Err (FilterShape key)
      | Some (field, token) =>
          match ParseFilterOp token with
          | None => Err (FilterOperator key token)
          | Some op => Ok (field, op)
          end
      end in
  match FilterableIndex m !! p.1 with
  | None => Err (FilterField key p.1)
  | Some c =>
      match q !! key with
      | Some (raw :: _) =>
          if (raw =? "")%string then Ok None
          else
            match normalizeFilterValue c p.2 raw with
            | None => Err (FilterValue key)
            | Some v => Ok (Some (NewFilter (DBName c) p.2 v))
            end
      | _ => Err (NoValue key)
      end
  end.

Fixpoint filters_of (m : Model) (q : values) (keys : list string) : result query_error (list Filter) :=
  match keys with
  | [] => Ok []
  | key :: keys =>
      let? c := filter_of m q key in
      let? conds := filters_of m q keys in
      Ok (match c with Some c => c :: conds | None => conds end)
  end.

Definition Filters (q : values) (m : Model) : result query_error (list Filter) :=
  match filter (fun key => isFilterQueryKey key = true) (keys q) with
  | [] => Ok []
  | ks => if IsQueryable m then filters_of m q (sorted_strings ks) else Err (Unsupported (sorted_strings ks))
  end.

(** ** The fields bare keys fill *)

Inductive field_value : Type :=
| FString (s : string) | FBool (b : bool) | FInt (n : Z) | FUint (n : Z) | FFloat (f : F).

Definition assign (s : setter) (raw : string) : option field_value :=
  match s with
  | SetString => Some (FString raw)
  | SetBool => match ParseBool raw with (b, None) => Some (FBool b) | _ => None end
  | SetInt bits => match ParseInt raw bits with (n, None) => Some (FInt n) | _ => None end
  | SetUint bits => match ParseUint raw bits with (n, None) => Some (FUint n) | _ => None end
  | SetFloat bits => FFloat <$> parse_float raw bits
  end.

(** What becomes of a key in [Decode]. *)
Inductive decoded : Type := Skipped | Refused | Malformed | Assigned (v : field_value).

Definition decode_key (m : Model) (key : string) (vs : list string) : decoded :=
  if isFilterQueryKey key then Skipped
  else
    match Plan m !! key with
    | None => if (key =? "_size")%string && negb (IsPaginatable m) then Skipped else Refused
    | Some s =>
        match last vs with
        | None => Skipped
        | Some raw =>
            if (raw =? "")%string then Skipped
            else match assign s raw with Some v => Assigned v | None => Malformed end
        end
    end.

Definition is_refused (d : decoded) : bool := match d with Refused => true | _ => false end.
Definition is_malformed (d : decoded) : bool := match d with Malformed => true | _ => false end.
Definition assigned (d : decoded) : option field_value := match d with Assigned v => Some v | _ => None end.

Definition outcomes (m : Model) (q : values) : gmap string decoded :=
  map_imap (fun key vs => Some (decode_key m key vs)) q.

Definition keys_where (p : decoded -> bool) (outcome : gmap string decoded) : list string :=
  sorted_strings ((filter (fun kd => p kd.2 = true) (map_to_list outcome)).*1).

(** The fields filled, by key. *)
Definition Decode (q : values) (m : Model) : result query_error (gmap string field_value) :=
  match keys_where is_refused (outcomes m q), keys_where is_malformed (outcomes m q) with
  | [], [] => Ok (omap assigned (outcomes m q))
  | unsupported, invalid => Err (Undecodable unsupported invalid)
  end.

Definition matchQueryKeys (q : values) (ks : list string) : list string := filter (fun key => key ∈ ks) (keys q).

Definition rejected (q : values) (m : Model) : list string :=
  (if IsQueryable m then [] else matchQueryKeys q ["_expand"; "_depth"; "_sort_by"]) ++
  (if IsPaginatable m then [] else matchQueryKeys q ["_page"]) ++
  (if IsPaginatable m || IsCursorable m then [] else matchQueryKeys q ["_size"]) ++
  (if IsCursorable m then [] else matchQueryKeys q ["_cursor_value"; "_cursor_field"; "_cursor_next"]).

Definition decodeListQuery (m : Model) (q : values) : result query_error (gmap string field_value) :=
  match rejected q m with
  | [] => Decode q m
  | ks => Err (Unsupported (sorted_strings ks))
  end.
End Values.

Definition PresentFields (q : values) : gset string :=
  list_to_set (filter (fun key =>
    String.prefix "_" key = false /\ isFilterKey key = false /\
    String.concat "" (default [] (q !! key)) <> "") (keys q)).

Definition WithoutExportKeys (q : values) : values := delete "_limit" (delete "_format" q).
