(* ===== verification/Paging.v ===== *)
(** * Orders, cursors and pages of a list request

    Models [internal/types/order.go], [internal/types/cursor.go] and what
    [internal/urlquery] reads of a request's order, cursor and page. *)

From stdpp Require Import base list gmap strings.
From Stdlib Require Import ZArith Lia Ascii.
From S2P Require Import Prelude GoStrings Strconv UrlQuery.
Local Open Scope Z_scope.
Local Open Scope result_scope.

(** ** Orders and cursors *)

Inductive OrderDirection : Set := OrderAsc | OrderDesc.

#[export] Instance OrderDirection_eq_dec : EqDecision OrderDirection.
Proof. solve_decision. Defined.

Definition Flip (d : OrderDirection) : OrderDirection := match d with OrderDesc => OrderAsc | OrderAsc => OrderDesc end.

Record Order : Set := NewOrder { Table : string; OColumn : string; Direction : OrderDirection }.

Definition Asc (column : string) : Order := NewOrder "" column OrderAsc.

Record Cursor : Set := mkCursor { COrder : Order; Value : string; Backward : bool; Enabled : bool }.

Definition NoCursor : Cursor := mkCursor (NewOrder "" "" OrderAsc) "" false false.
Definition CursorForward (o : Order) (value : string) : Cursor := mkCursor o value false true.
Definition CursorBackward (o : Order) (value : string) : Cursor := mkCursor o value true true.
Definition Bounded (c : Cursor) : bool := negb (Value c =? "")%string.

(** ** The page *)

Definition defaultLimit : Z := 1000.
Definition DefaultPageSize : Z := 20.
Definition MaxPageSize : Z := 100.

Definition cursorRequested (q : values) (m : Model) : bool :=
  if negb (IsCursorable m) then false
  else if negb (Get q "_cursor_value" =? "")%string then true
  else if negb (Get q "_sort_by" =? "")%string then false
  else Has q "_cursor_field" || Has q "_cursor_next" || negb (IsPaginatable m).

Definition Pagination (q : values) (m : Model) : Z * Z :=
  let raw := Get q "_page" in
  let page := if IsPaginatable m && negb (raw =? "")%string then (Atoi raw).1 else 0 in
  let page := if page <=? 0 then 1 else page in
  let size :=
    if IsPaginatable m || IsCursorable m then
      let raw := Get q "_size" in
      let size := if negb (raw =? "")%string then (Atoi raw).1 else 0 in
      if size <=? 0 then DefaultPageSize else if MaxPageSize <? size then MaxPageSize else size
    else defaultLimit in
  (if cursorRequested q m then 1 else page, size).

(** ** The order *)

Definition order_term (m : Model) (term : string) : result query_error Order :=
  match Fields term with
  | ([name] | [name; _]) as fields =>
      match FilterableIndex m !! name with
      | None => Err (SortColumn name)
      | Some c =>
          match fields with
          | [_; direction] =>
              if EqualFold direction "ASC" then Ok (NewOrder "" (DBName c) OrderAsc)
              else if EqualFold direction "DESC" then Ok (NewOrder "" (DBName c) OrderDesc)
              else Err (SortDirection direction name)
          | _ => Ok (NewOrder "" (DBName c) OrderAsc)
          end
      end
  | _ => Err (SortTerm (TrimSpace term))
  end.

Fixpoint order_terms (m : Model) (terms : list string) : result query_error (list Order) :=
  match terms with
  | [] => Ok []
  | term :: terms =>
      let? o := order_term m term in
      let? os := order_terms m terms in
      Ok (o :: os)
  end.

Definition Orders (q : values) (m : Model) : result query_error (list Order) :=
  if negb (IsQueryable m) then Ok []
  else
    let expression := TrimSpace (Get q "_sort_by") in
    if (expression =? "")%string then Ok [] else order_terms m (Split expression ",").

(** ** The cursor *)

Section Cursor.
Context {F : Type}.
Variables (parse_float : string -> Z -> option F) (time_bound : Column -> string -> option string).

(** The zero [Column], which takes any value. *)
Definition zeroColumn : Column := mkColumn "" "" "" false false "" "" false false false.

Definition normalizeCursorValue (c : Column) (value : string) : option string :=
  if IsTimeColumn c || IsTimeOfDayColumn c then time_bound c value
  else if IsBoolColumn c then match ParseBool value with (_, None) => Some value | _ => None end
  else if IsNumericColumn c then if ValidateNumericValue parse_float c value then Some value else None
  else Some value.

Definition DefaultCursorColumn : string := "id".

(** The column a cursor compares by and the one its value is checked
    against. *)
Definition cursor_column (q : values) (m : Model) : result query_error (string * Column) :=
  let field := TrimSpace (Get q "_cursor_field") in
  if (field =? "")%string then
    Ok ("", default zeroColumn (find (fun c => (DBName c =? DefaultCursorColumn)%string) (Columns m)))
  else
    match FilterableIndex m !! field with
    | None => Err (CursorColumn field)
    | Some c =>
        if bool_decide (DBName c ∈ IdentifyingColumns m) then Ok (DBName c, c) else Err (CursorShared field)
    end.

Definition CursorOf (q : values) (m : Model) : result query_error Cursor :=
  if negb (cursorRequested q m) then Ok NoCursor
  else
    let value := Get q "_cursor_value" in
    let? column := cursor_column q m in
    if (value =? "")%string then Ok (CursorForward (Asc column.1) "")
    else
      match normalizeCursorValue column.2 value with
      | None => Err (CursorText value)
      | Some value =>
          Ok (if (ParseBool (Get q "_cursor_next")).1
              then CursorForward (Asc column.1) value else CursorBackward (Asc column.1) value)
      end.

Definition checkCursorOrderConflict (c : Cursor) (orders : list Order) : result query_error unit :=
  match orders with
  | _ :: _ => if Enabled c then Err CursorWithSort else Ok tt
  | [] => Ok tt
  end.

(** What [listFlow] reads of a request before it reaches the database: the
    fields, the conditions, the order, the cursor and the page. *)
Record list_request : Type := mkRequest {
  RFields : gmap string (@field_value F); RPresent : gset string; RFilters : list Filter;
  ROrders : list Order; RCursor : Cursor; RPage : Z * Z }.

Definition read_request (m : Model) (q : values) : result query_error list_request :=
  let? fields := decodeListQuery parse_float m q in
  let? filters := Filters parse_float time_bound q m in
  let? orders := Orders q m in
  let? cursor := CursorOf q m in
  let? _ := checkCursorOrderConflict cursor orders in
  Ok (mkRequest fields (PresentFields q) filters orders cursor (Pagination q m)).
End Cursor.

Example two_terms :
  let name := mkColumn "Name" "name" "name" false false "string" "string" true true false in
  let age := mkColumn "Age" "age" "age_years" false false "int" "int" true true false in
  let m := mkModel true true true [name; age] [] ∅ in
  Orders {["_sort_by" := [" age desc, name"]]} m = Ok [NewOrder "" "age_years" OrderDesc; NewOrder "" "name" OrderAsc].
Proof. vm_compute. reflexivity. Qed.
Example empty_term :
  let name := mkColumn "Name" "name" "name" false false "string" "string" true true false in
  Orders {["_sort_by" := ["name,"]]} (mkModel true true true [name] [] ∅) = Err (SortTerm "").
Proof. vm_compute. reflexivity. Qed.
