(* ===== verification/UrlQuerySpec.v ===== *)
(** * No part of a list request is ignored

    A request that is read without an error has every key accounted for, and
    the page it asks for is within the bounds. *)

From stdpp Require Import base list gmap sets strings.
From Stdlib Require Import ZArith Lia Ascii.
From S2P Require Import Prelude GoStrings Strconv UrlQuery Paging.
Local Open Scope Z_scope.

Section Spec.
Context {F : Type}.
Variables (parse_float : string -> Z -> option F) (time_bound : Column -> string -> option string).
Local Abbreviation Decode := (Decode parse_float).
Local Abbreviation decode_key := (decode_key parse_float).
Local Abbreviation outcomes := (outcomes parse_float).
Local Abbreviation filter_of := (filter_of parse_float time_bound).
Local Abbreviation filters_of := (filters_of parse_float time_bound).
Local Abbreviation Filters := (Filters parse_float time_bound).
Local Abbreviation read_request := (read_request parse_float time_bound).

(** ** Decoding *)

Lemma outcomes_lookup m q key : outcomes m q !! key = decode_key m key <$> q !! key.
Proof. unfold UrlQuery.outcomes. rewrite map_lookup_imap. by destruct (q !! key). Qed.

Lemma keys_where_nil p (outcome : gmap string (@decoded F)) :
  keys_where p outcome = [] -> forall key d, outcome !! key = Some d -> p d = false.
Proof.
  unfold keys_where, sorted_strings. intros H key d Hd. apply not_true_is_false. intros Hp.
  assert (key ∈ (filter (fun kd : string * @decoded F => p kd.2 = true) (map_to_list outcome)).*1) as Hin.
  { apply list_elem_of_fmap. exists (key, d). split; [done|]. apply list_elem_of_filter. split; [done|]. by apply elem_of_map_to_list. }
  rewrite <- (sorting.merge_sort_Permutation string_le), H in Hin. by apply elem_of_nil in Hin.
Qed.

(** [Decode] answers only when no key is refused or malformed, and then the
    fields are the ones assigned. *)
Lemma Decode_Ok q m fields : Decode q m = Ok fields ->
  forall key vs, q !! key = Some vs ->
  match decode_key m key vs with
  | Skipped => fields !! key = None
  | Assigned v => fields !! key = Some v
  | _ => False
  end.
Proof.
  unfold UrlQuery.Decode. intros H key vs Hq. pose proof (outcomes_lookup m q key) as Hk. rewrite Hq in Hk. cbn in Hk.
  destruct (keys_where is_refused _) eqn:E1; [|done]. destruct (keys_where is_malformed _) eqn:E2; [|done]. injection H as <-.
  pose proof (keys_where_nil _ _ E1 _ _ Hk) as R1. pose proof (keys_where_nil _ _ E2 _ _ Hk) as R2.
  rewrite lookup_omap, Hk. cbn. by destruct (decode_key m key vs).
Qed.

(** ** Filters *)

(** The condition a filter key stands for. *)
Definition stands_for (m : Model) (key raw : string) (f : Filter) : Prop :=
  exists field op c v,
    ((key ∈ bareTimeFilterColumns /\ isFilterKey key = false /\ field = key /\ op = OpEq) \/
     exists token, splitFilterKey key = Some (field, token) /\ ParseFilterOp token = Some op) /\
    FilterableIndex m !! field = Some c /\ normalizeFilterValue parse_float time_bound c op raw = Some v /\
    f = NewFilter (DBName c) op v.

Lemma filter_of_Ok m q key r : filter_of m q key = Ok r ->
  exists raw vs, q !! key = Some (raw :: vs) /\
  match r with Some f => stands_for m key raw f | None => raw = ""%string end.
Proof.
  unfold UrlQuery.filter_of. intros ((field, op) & Hp & H)%rbind_Ok. cbn [fst snd] in H.
  destruct (FilterableIndex m !! field) as [c|] eqn:Ec; [|done].
  destruct (q !! key) as [[|raw vs]|] eqn:Eq; [done| |done]. exists raw, vs. split; [done|].
  destruct (raw =? "")%string eqn:Er; [apply String.eqb_eq in Er as ->; by injection H as <-|].
  destruct (normalizeFilterValue _ _ c op raw) as [v|] eqn:Ev; [|done]. injection H as <-.
  exists field, op, c, v. split; [|done].
  destruct (bool_decide _ && _) eqn:Eb.
  - left. injection Hp as <- <-. apply andb_true_iff in Eb as [Eb En]. apply bool_decide_eq_true in Eb. apply negb_true_iff in En. done.
  - right. destruct (splitFilterKey key) as [[f t]|]; [|done]. destruct (ParseFilterOp t) as [o|] eqn:Eo; [|done].
    injection Hp as <- <-. by exists t.
Qed.

Lemma filters_of_Ok m q ks fs : filters_of m q ks = Ok fs ->
  forall key, key ∈ ks -> exists r, filter_of m q key = Ok r /\ match r with Some f => f ∈ fs | None => True end.
Proof.
  revert fs. induction ks as [|k ks IH]; intros fs; cbn [UrlQuery.filters_of]; [intros _ key []%elem_of_nil|].
  intros (r & Hr & (conds & Hc & [= <-])%rbind_Ok)%rbind_Ok key [->|Hin]%elem_of_cons.
  - exists r. split; [done|]. destruct r; [constructor|done].
  - destruct (IH _ Hc key Hin) as (r' & Hr' & Hf). exists r'. split; [done|]. destruct r'; [|done]. destruct r; [by constructor|done].
Qed.

Lemma keys_elem q key : key ∈ keys q <-> is_Some (q !! key).
Proof.
  unfold keys. rewrite list_elem_of_fmap. split.
  - intros ([k v] & -> & H%elem_of_map_to_list). eauto.
  - intros [v H]. exists (key, v). split; [done|]. by apply elem_of_map_to_list.
Qed.

(** [Filters] leaves out no filter key. *)
Lemma Filters_Ok q m fs : Filters q m = Ok fs ->
  forall key vs, q !! key = Some vs -> isFilterQueryKey key = true ->
  IsQueryable m = true /\ exists raw vs', vs = raw :: vs' /\ (raw = ""%string \/ exists f, f ∈ fs /\ stands_for m key raw f).
Proof.
  unfold UrlQuery.Filters. intros H key vs Hq Hk.
  assert (key ∈ filter (fun key => isFilterQueryKey key = true) (keys q)) as Hin.
  { apply list_elem_of_filter. split; [done|]. apply keys_elem. eauto. }
  destruct (filter _ (keys q)) as [|k ks] eqn:E; [by apply elem_of_nil in Hin|]. destruct (IsQueryable m); [|done]. split; [done|].
  destruct (filters_of_Ok _ _ _ _ H key) as (r & Hr & Hf); [by unfold sorted_strings; rewrite sorting.merge_sort_Permutation|].
  destruct (filter_of_Ok _ _ _ _ Hr) as (raw & vs' & Hq' & Hs). exists raw, vs'. split; [congruence|].
  destruct r as [f|]; [right; by exists f|by left].
Qed.

(** ** The whole request *)

Lemma decodeListQuery_Ok m q fields : decodeListQuery parse_float m q = Ok fields -> rejected q m = [] /\ Decode q m = Ok fields.
Proof. unfold decodeListQuery. by destruct (rejected q m). Qed.

(** C30: no key of a list request is ignored.  When a request is read without
    an error, each of its keys is one that the model opted in to, and either
    it has no value, or it is a filter key whose condition, on the column it
    names and with the value it spells, is among the conditions, or it is a
    bare key whose value is the one its field was given. *)
Theorem no_key_is_ignored m q r :
  read_request m q = Ok r ->
  forall key vs, q !! key = Some vs ->
    key ∉ rejected q m /\
    (isFilterQueryKey key = true -> exists raw vs', vs = raw :: vs' /\ (raw = ""%string \/ exists f, f ∈ RFilters r /\ stands_for m key raw f)) /\
    (isFilterQueryKey key = false ->
      (key = "_size"%string /\ IsPaginatable m = false /\ IsCursorable m = true) \/
      exists s, Plan m !! key = Some s /\
        (last vs = None \/ last vs = Some ""%string \/
         exists raw v, last vs = Some raw /\ assign parse_float s raw = Some v /\ RFields r !! key = Some v)).
Proof.
  unfold Paging.read_request.
  intros (fields & [Hrej Hd]%decodeListQuery_Ok & (fs & Hf & (os & _ & (c & _ & (u & _ & [= <-])%rbind_Ok)%rbind_Ok)%rbind_Ok)%rbind_Ok)%rbind_Ok key vs Hq.
  cbn [RFilters RFields]. split; [rewrite Hrej; apply not_elem_of_nil|]. split.
  - intros Hk. by apply (Filters_Ok _ _ _ Hf key vs Hq).
  - intros Hk. pose proof (Decode_Ok _ _ _ Hd key vs Hq) as H. unfold UrlQuery.decode_key in H. rewrite Hk in H.
    destruct (Plan m !! key) as [s|] eqn:Ep.
    + right. exists s. split; [done|]. destruct (last vs) as [raw|] eqn:El; [|by left].
      destruct (raw =? "")%string eqn:Er; [apply String.eqb_eq in Er as ->; right; by left|]. right; right.
      destruct (assign parse_float s raw) as [v|] eqn:Ea; [|done]. by exists raw, v.
    + left. destruct ((key =? "_size")%string) eqn:Ek; [|done]. apply String.eqb_eq in Ek as ->.
      destruct (IsPaginatable m) eqn:Em; [done|]. split; [done|]. split; [done|]. destruct (IsCursorable m) eqn:Ec; [done|]. exfalso.
      assert ("_size"%string ∈ rejected q m) as Hin; [|by rewrite Hrej in Hin; apply elem_of_nil in Hin].
      unfold rejected. rewrite Em, Ec. apply elem_of_app. right. apply elem_of_app. right. apply elem_of_app. left.
      apply list_elem_of_filter. split; [constructor|]. apply keys_elem. eauto.
Qed.

(** The page is at least the first and its size is within the bounds. *)
Lemma Pagination_bounds q m :
  let '(page, size) := Pagination q m in
  1 <= page < 2 ^ 63 /\ 1 <= size <= defaultLimit /\
  (IsPaginatable m = true \/ IsCursorable m = true -> size <= MaxPageSize) /\ (cursorRequested q m = true -> page = 1).
Proof.
  unfold Pagination. set (page := if _ && _ then _ else 0).
  assert (page < 2 ^ 63) as Hp.
  { unfold page, Atoi. pose proof (ParseInt_bound (Get q "_page") 64). destruct (_ && _); lia. }
  set (size := if IsPaginatable m || _ then _ else _).
  assert (1 <= size <= defaultLimit /\ (IsPaginatable m = true \/ IsCursorable m = true -> size <= MaxPageSize)) as [Hs1 Hs2].
  { unfold size, DefaultPageSize, MaxPageSize, defaultLimit. destruct (IsPaginatable m), (IsCursorable m); cbn [orb]; case_cmp; intuition (try lia; discriminate). }
  split; [destruct (cursorRequested q m); case_cmp; lia|]. split; [done|]. split; [done|]. by intros ->.
Qed.
End Spec.

(** ** The shape of a filter key *)

Lemma cut_app c field rest : contains c field = false -> cut c (field +:+ String c rest) = Some (field, rest).
Proof.
  induction field as [|a field IH]; cbn [contains]; intros H.
  - change ("" +:+ String c rest) with (String c rest). cbn [cut]. by rewrite Ascii.eqb_refl.
  - apply orb_false_iff in H as [H1 H2]. 
    change (String a field +:+ String c rest) with (String a (field +:+ String c rest)). cbn [cut]. by rewrite H1, IH.
Qed.

Lemma cut_suffix_app c s : cut_suffix c (s +:+ String c "") = Some s.
Proof.
  induction s as [|a s IH].
  - change ("" +:+ String c "") with (String c ""). cbn [cut_suffix]. by rewrite Ascii.eqb_refl.
  - change (String a s +:+ String c "") with (String a (s +:+ String c "")). cbn [cut_suffix]. rewrite IH. by destruct s.
Qed.

(** A key written [field[op]] is read back, and no other key is split. *)
Lemma splitFilterKey_spec key field op :
  splitFilterKey key = Some (field, op) <->
  key = field +:+ "[" +:+ op +:+ "]" /\ field <> ""%string /\ op <> ""%string /\
  contains "[" field = false /\ contains "]" field = false /\ contains "[" op = false /\ contains "]" op = false.
Proof.
  assert (forall c s b a, cut c s = Some (b, a) -> s = b +:+ String c a) as Hcut.
  { intros c s. induction s as [|x s IH]; cbn; [done|]. intros b a. destruct (Ascii.eqb_spec x c) as [->|]; [by intros [= <- <-]|].
    intros ([b' a'] & E & [= <- <-])%bind_Some. cbn. by rewrite (IH _ _ E). }
  assert (forall c s t, cut_suffix c s = Some t -> s = t +:+ String c "") as Hsuf.
  { intros c s. induction s as [|x s IH]; cbn; [done|]. intros t. destruct s as [|y s].
    - destruct (Ascii.eqb_spec x c) as [->|]; [by intros [= <-]|done].
    - intros (t' & E & ->)%fmap_Some. cbn. by rewrite (IH _ E). }
  unfold splitFilterKey. split.
  - intros ([f rest] & E1 & (o & E2 & H)%bind_Some)%bind_Some. apply Hcut in E1. apply Hsuf in E2.
    destruct (_ || _) eqn:Eb; [done|]. injection H as -> ->. repeat apply orb_false_iff in Eb as [Eb ?].
    rewrite E1, E2. split; [done|]. split; [by apply String.eqb_neq|]. by split; [apply String.eqb_neq|].
  - intros (-> & Hf & Ho & H1 & H2 & H3 & H4).
    change (field +:+ "[" +:+ op +:+ "]") with (field +:+ String "[" (op +:+ String "]" "")). rewrite cut_app by done.
    cbn [mbind option_bind]. rewrite cut_suffix_app. cbn [mbind option_bind].
    apply String.eqb_neq in Hf, Ho. by rewrite Hf, Ho, H1, H2, H3, H4.
Qed.

(** ** A request *)

Module Requests.

Definition name : Column := mkColumn "Name" "name" "name" false false "string" "string" true true false.
Definition age : Column := mkColumn "Age" "age" "age_years" false false "int" "int" true true false.
Definition model : Model := mkModel true true true [name; age] []
  {["name" := SetString; "age" := SetInt 64; "_page" := SetInt 64; "_size" := SetInt 64; "_sort_by" := SetString]}.
Definition no_float (_ : string) (_ : Z) : option unit := None.
Definition no_time (_ : Column) (_ : string) : option string := None.
Definition read := read_request no_float no_time model.

Definition query : values := {["name" := ["ann"]; "age[gt]" := ["20"]; "age[in]" := [""]; "_page" := ["3"]]}.

Example conditions : match read query with Ok r => (RFilters r, RPage r) = ([NewFilter "age_years" OpGt (VText "20")], (3, 20)) | Err _ => False end.
Proof. vm_compute. reflexivity. Qed.

(** A mistyped name, operator or value fails the request. *)
Example mistyped_name : read {["nam" := ["ann"]]} = Err (Undecodable ["nam"] []).
Proof. vm_compute. reflexivity. Qed.
Example mistyped_operator : read {["age[greater]" := ["20"]]} = Err (FilterOperator "age[greater]" "greater").
Proof. vm_compute. reflexivity. Qed.
Example mistyped_value : read {["age[in]" := ["20,x"]]} = Err (FilterValue "age[in]").
Proof. vm_compute. reflexivity. Qed.

End Requests.

Lemma no_key_is_ignored_witness :
  exists r f, Requests.read Requests.query = Ok r /\ f ∈ RFilters r /\
    stands_for Requests.no_float Requests.no_time Requests.model "age[gt]" "20" f.
Proof.
  destruct (Requests.read Requests.query) as [r|] eqn:E; [|vm_compute in E; discriminate].
  destruct (no_key_is_ignored Requests.no_float Requests.no_time Requests.model Requests.query r E "age[gt]" ["20"])
    as (_ & H & _); [vm_compute; reflexivity|].
  destruct (H eq_refl) as (raw & vs & Hv & Hor). clear H E. injection Hv as <- <-.
  destruct Hor as [Hbad|(f & Hf & Hs)]; [clear -Hbad; discriminate Hbad|].
  exists r, f. split; [reflexivity|]. split; [exact Hf|exact Hs].
Defined.
