(* ===== verification/Listing.v ===== *)
(** * Reading pages from the database

    Models the paging options of [database/query_options.go] and the reading
    half of [List] in [database/read.go].  A chain gathers the conditions, the
    order and the window of one statement.  The SQL engine is third-party
    code: [Engine] says what is relied on, that a statement answers a window
    of the matching rows in some order that agrees with its ORDER BY, chosen
    anew by each statement where rows compare equal. *)

From stdpp Require Import base list strings sorting.
From Stdlib Require Import ZArith Lia.
From S2P Require Import Prelude Order UrlQuery Paging.
Local Open Scope Z_scope.

Record Condition : Set := mkCondition { COn : string; Above : bool; CValue : string }.

(** An offset or a limit below zero is none. *)
Record Statement : Set := mkStatement {
  Where : list Condition; OrderBy : list (string * OrderDirection); Offset : Z; Limit : Z }.

Inductive db_error : Set := ErrCursorWithOrder | ErrColumnTable | ErrSharedCursorColumn.

Record Chain : Set := mkChain {
  Stmt : Statement; Paginated : bool; CursorSet : Cursor; OrdersSet : list Order; Err_ : option db_error }.

Definition defaultChainLimit : Z := -1.

Definition NewChain : Chain :=
  mkChain (mkStatement [] [] (-1) defaultChainLimit) false NoCursor [] None.

Definition with_window (offset limit : Z) (s : Statement) : Statement := mkStatement (Where s) (OrderBy s) offset limit.
Definition with_where (c : Condition) (s : Statement) : Statement := mkStatement (Where s ++ [c]) (OrderBy s) (Offset s) (Limit s).
Definition with_order (t : string * OrderDirection) (s : Statement) : Statement := mkStatement (Where s) (OrderBy s ++ [t]) (Offset s) (Limit s).
Definition with_stmt (f : Statement -> Statement) (c : Chain) : Chain :=
  mkChain (f (Stmt c)) (Paginated c) (CursorSet c) (OrdersSet c) (Err_ c).
Definition failed (e : db_error) (c : Chain) : Chain := mkChain (Stmt c) (Paginated c) (CursorSet c) (OrdersSet c) (Some e).

Section Options.
(** The model's table, the columns no two rows share and its primary key. *)
Variables (table : string) (identifying primary : list string).

Definition WithPagination (page size : Z) (c : Chain) : Chain :=
  let page := if page <=? 0 then 1 else page in
  let size := if size <=? 0 then defaultChainLimit else size in
  let offset := wrap64 (wrap64 (page - 1) * size) in
  let offset := if offset <=? 0 then -1 else offset in
  mkChain (with_window offset size (Stmt c)) true (CursorSet c) (OrdersSet c) (Err_ c).

Definition WithLimit (limit : Z) (c : Chain) : Chain :=
  let limit := if limit <=? 0 then defaultChainLimit else limit in
  with_stmt (fun s => with_window (Offset s) limit s) c.

Definition ownOrder (o : Order) : bool := (Table o =? "")%string || (Table o =? table)%string.

Definition orderClause (o : Order) : string * OrderDirection := (OColumn o, Direction o).

Definition WithCursor (cursor : Cursor) (c : Chain) : Chain :=
  if negb (Enabled cursor) then c
  else if negb (length (OrdersSet c) =? 0)%nat then failed ErrCursorWithOrder c
  else if negb (ownOrder (COrder cursor)) then failed ErrColumnTable c
  else
    let o := COrder cursor in
    let cursor :=
      if (OColumn o =? "")%string then
        let o := NewOrder (Table o) DefaultCursorColumn (Direction o) in
        if Backward cursor then CursorBackward o (Value cursor) else CursorForward o (Value cursor)
      else cursor in
    if bool_decide (OColumn (COrder cursor) ∈ identifying)
    then mkChain (Stmt c) (Paginated c) cursor (OrdersSet c) (Err_ c)
    else failed ErrSharedCursorColumn c.

Fixpoint WithOrder (orders : list Order) (c : Chain) : Chain :=
  match orders with
  | [] => c
  | o :: orders =>
      if (OColumn o =? "")%string then WithOrder orders c
      else if Enabled (CursorSet c) then failed ErrCursorWithOrder c
      else if negb (ownOrder o) then failed ErrColumnTable c
      else WithOrder orders
        (mkChain (with_order (orderClause o) (Stmt c)) (Paginated c) (CursorSet c) (OrdersSet c ++ [o]) (Err_ c))
  end.

Definition applyCursorPagination (c : Chain) : Chain :=
  let cur := CursorSet c in
  if negb (Enabled cur) then c
  else
    let direction := if Backward cur then Flip (Direction (COrder cur)) else Direction (COrder cur) in
    let c :=
      if Bounded cur
      then with_stmt (with_where (mkCondition (OColumn (COrder cur)) (bool_decide (direction = OrderAsc)) (Value cur))) c
      else c in
    with_stmt (with_order (OColumn (COrder cur), direction)) c.

(** The loop of [completeOrder]: nothing to add once a column tells rows
    apart, otherwise the direction of the last term. *)
Fixpoint completing (orders : list Order) (direction : OrderDirection) : option OrderDirection :=
  match orders with
  | [] => Some direction
  | o :: orders => if bool_decide (OColumn o ∈ identifying) then None else completing orders (Direction o)
  end.

Definition completeOrder (c : Chain) : Chain :=
  if negb (Paginated c) || Enabled (CursorSet c) then c
  else
    match completing (OrdersSet c) OrderAsc with
    | None => c
    | Some direction => fold_left (fun c column => with_stmt (with_order (column, direction)) c) primary c
    end.

(** ** [List] *)

Section List.
Context {row : Type}.

(** The rows a statement answers on a table. *)
Variable Find : list row -> Statement -> list row.

Definition List_ (rows : list row) (c : Chain) : result db_error (list row) :=
  match Err_ c with
  | Some e => Err e
  | None =>
      let c := completeOrder (applyCursorPagination c) in
      let found := Find rows (Stmt c) in
      Ok (if Enabled (CursorSet c) && Backward (CursorSet c) then reverse found else found)
  end.

(** The read of [listFlow]. *)
Definition list_page (rows : list row) (page_size : Z * Z) (cursor : Cursor) (orders : list Order) : result db_error (list row) :=
  List_ rows (WithOrder orders (WithCursor cursor (WithPagination page_size.1 page_size.2 NewChain))).
End List.
End Options.

(** ** The engine *)

Section Engine.
Context {row V : Type}.
(** What a row holds in a column, how values compare, and the value a bound
    text is compared as. *)
Variables (vcmp : V -> V -> Z) (col : row -> string -> V) (bound : string -> string -> V).

Definition matches (r : row) (c : Condition) : Prop :=
  if Above c then vcmp (bound (COn c) (CValue c)) (col r (COn c)) < 0 else vcmp (col r (COn c)) (bound (COn c) (CValue c)) < 0.

#[export] Instance matches_dec r c : Decision (matches r c).
Proof. unfold matches. destruct (Above c); apply _. Defined.

Definition matching (cs : list Condition) (r : row) : Prop := Forall (matches r) cs.

#[export] Instance matching_dec cs r : Decision (matching cs r).
Proof. unfold matching. apply _. Defined.

Definition term_cmp (t : string * OrderDirection) (a b : row) : Z :=
  match t.2 with OrderAsc => vcmp (col a t.1) (col b t.1) | OrderDesc => vcmp (col b t.1) (col a t.1) end.

Fixpoint row_cmp (ts : list (string * OrderDirection)) (a b : row) : Z :=
  match ts with
  | [] => 0
  | t :: ts => if term_cmp t a b =? 0 then row_cmp ts a b else term_cmp t a b
  end.

Definition row_le (ts : list (string * OrderDirection)) (a b : row) : Prop := row_cmp ts a b <= 0.

#[export] Instance row_le_dec ts a b : Decision (row_le ts a b).
Proof. unfold row_le. apply _. Defined.

Definition window (offset limit : Z) (l : list row) : list row :=
  let l := if offset <? 0 then l else drop (Z.to_nat offset) l in
  if limit <? 0 then l else take (Z.to_nat limit) l.

Class Engine (Find : list row -> Statement -> list row) : Prop := {
  Find_window : forall rows s, exists l, l ≡ₚ filter (matching (Where s)) rows /\
    Sorted (row_le (OrderBy s)) l /\ Find rows s = window (Offset s) (Limit s) l }.

(** An engine that sorts. *)
Definition sorting_engine (rows : list row) (s : Statement) : list row :=
  window (Offset s) (Limit s) (merge_sort (row_le (OrderBy s)) (filter (matching (Where s)) rows)).
End Engine.
