(* ===== verification/ListingSpec.v ===== *)
(** * Pages and feeds read every row once

    Offset pages are windows onto one list whatever the engine does with rows
    that compare equal, and a feed read page by page along its cursor meets
    every row that stays exactly once, however the table changes behind it. *)

From stdpp Require Import base list sets strings sorting.
From Stdlib Require Import ZArith Lia Sorted.
From S2P Require Import Prelude Order UrlQuery Paging Listing.
Local Open Scope Z_scope.

Section Spec.
Context {row V : Type} `{EqDecision row}.
Variables (vcmp : V -> V -> Z) (col : row -> string -> V) (bound : string -> string -> V).
Context `{!Comparison vcmp}.
Local Abbreviation term_cmp := (term_cmp vcmp col).
Local Abbreviation row_cmp := (row_cmp vcmp col).
Local Abbreviation row_le := (row_le vcmp col).
Local Abbreviation matching := (matching vcmp col bound).

(** ** The order of rows *)

#[export] Instance term_comparison t : Comparison (term_cmp t).
Proof.
  destruct t as [c []]; unfold Listing.term_cmp; cbn; split; intros.
  - apply cmp_sym.
  - by eapply cmp_trans.
  - by eapply cmp_eq_lt.
  - apply cmp_sym.
  - by eapply cmp_trans.
  - by eapply (cmp_lt_eq vcmp).
Qed.

#[export] Instance row_comparison ts : Comparison (row_cmp ts).
Proof.
  induction ts as [|t ts IH]; [by split|]. cbn [Listing.row_cmp].
  pose proof (cmp_eq_sym (term_cmp t)) as Hs.
  split; intros a b; [|intros c..].
  - pose proof (@cmp_sym _ (term_cmp t) _ a b). pose proof (@cmp_sym _ (row_cmp ts) _ a b). case_cmp; lia.
  - pose proof (@cmp_trans _ (term_cmp t) _ a b c). pose proof (@cmp_eq_lt _ (term_cmp t) _ a b c).
    pose proof (cmp_lt_eq (term_cmp t) a b c). pose proof (cmp_eq_trans (term_cmp t) a b c).
    pose proof (@cmp_trans _ (row_cmp ts) _ a b c). case_cmp; lia.
  - pose proof (@cmp_eq_lt _ (term_cmp t) _ a b c). pose proof (cmp_eq_trans (term_cmp t) a b c).
    pose proof (@cmp_eq_lt _ (row_cmp ts) _ a b c). case_cmp; lia.
Qed.

#[export] Instance row_le_trans ts : Transitive (row_le ts).
Proof. intros a b c. unfold Listing.row_le. apply (cmp_le_trans (row_cmp ts)). Qed.

#[export] Instance row_le_total ts : Total (row_le ts).
Proof. intros a b. unfold Listing.row_le. pose proof (@cmp_sym _ (row_cmp ts) _ a b). lia. Qed.

(** Two sorted lists of the same rows are equal where no two rows compare
    equal. *)
Definition tells_apart (ts : list (string * OrderDirection)) (l : list row) : Prop :=
  forall a b, a ∈ l -> b ∈ l -> row_cmp ts a b = 0 -> a = b.

Lemma sorted_unique ts l1 l2 :
  tells_apart ts l1 -> l1 ≡ₚ l2 -> Sorted (row_le ts) l1 -> Sorted (row_le ts) l2 -> l1 = l2.
Proof.
  intros Ht Hp H1 H2. apply (Sorted_unique_strong (row_le ts)); [|done..].
  intros a b Ha Hb Hab Hba. apply Ht; [done|by rewrite Hp|]. unfold Listing.row_le in *.
  pose proof (@cmp_sym _ (row_cmp ts) _ a b). lia.
Qed.

Lemma row_cmp_app ts ts' a b : row_cmp (ts ++ ts') a b = 0 -> row_cmp ts a b = 0 /\ row_cmp ts' a b = 0.
Proof. induction ts as [|t ts IH]; cbn; [done|]. destruct (Z.eqb_spec (term_cmp t a b) 0); [done|]. intros ?. done. Qed.

Lemma row_le_app ts ts' a b : row_le (ts ++ ts') a b -> row_le ts a b.
Proof.
  unfold Listing.row_le. induction ts as [|t ts IH]; cbn; [done|]. by destruct (Z.eqb_spec (term_cmp t a b) 0).
Qed.

Lemma sorted_app_terms ts ts' l : Sorted (row_le (ts ++ ts')) l -> Sorted (row_le ts) l.
Proof.
  induction 1 as [|a l Hs IH Hd]; constructor; [done|]. destruct Hd; constructor. by eapply row_le_app.
Qed.

Lemma row_cmp_In ts a b t : row_cmp ts a b = 0 -> t ∈ ts -> term_cmp t a b = 0.
Proof.
  intros H. induction ts as [|u ts IH]; [by intros []%elem_of_nil|]. cbn in H.
  destruct (Z.eqb_spec (term_cmp u a b) 0); [|done].
  intros [->|Hin]%elem_of_cons; [done|by apply IH].
Qed.

(** ** Offset pages *)

Section Pages.
Context (Find : list row -> Statement -> list row) `{!Engine vcmp col bound Find}.
Variables (table : string) (identifying primary : list string) (rows : list row).
Hypotheses
  (Hid : forall c, c ∈ identifying -> tells_apart [(c, OrderAsc)] rows)
  (Hpk : forall a b, a ∈ rows -> b ∈ rows -> (forall c, c ∈ primary -> vcmp (col a c) (col b c) = 0) -> a = b).

Definition own_orders (os : list Order) : Prop :=
  Forall (fun o => ownOrder table o = true /\ OColumn o <> "") os.

Lemma WithOrder_ok os c : own_orders os -> Enabled (CursorSet c) = false ->
  WithOrder table os c =
  mkChain (mkStatement (Where (Stmt c)) (OrderBy (Stmt c) ++ map orderClause os) (Offset (Stmt c)) (Limit (Stmt c)))
    (Paginated c) (CursorSet c) (OrdersSet c ++ os) (Err_ c).
Proof.
  intros Ho He. revert c He. induction Ho as [|o os [Hown Hc] _ IH]; intros c He; cbn [WithOrder map].
  { rewrite !app_nil_r. by destruct c as [[] ? ? ? ?]. }
  apply String.eqb_neq in Hc. rewrite Hc, He, Hown. cbn [negb]. rewrite IH by done. cbn. by rewrite <- !app_assoc.
Qed.

Lemma complete_fold d cs c :
  fold_left (fun c column => with_stmt (with_order (column, d)) c) cs c =
  mkChain (mkStatement (Where (Stmt c)) (OrderBy (Stmt c) ++ map (fun x => (x, d)) cs) (Offset (Stmt c)) (Limit (Stmt c)))
    (Paginated c) (CursorSet c) (OrdersSet c) (Err_ c).
Proof.
  revert c. induction cs as [|x cs IH]; intros c; cbn [fold_left map].
  { rewrite app_nil_r. by destruct c as [[] ? ? ? ?]. }
  rewrite IH. cbn. by rewrite <- app_assoc.
Qed.

(** The terms that complete the order [os]. *)
Definition completion (os : list Order) : list (string * OrderDirection) :=
  match completing identifying os OrderAsc with None => [] | Some d => map (fun x => (x, d)) primary end.

Lemma completing_None os d : completing identifying os d = None -> exists o, o ∈ os /\ OColumn o ∈ identifying.
Proof.
  revert d. induction os as [|o os IH]; intros d; cbn; [done|]. case_bool_decide as Hi.
  - intros _. exists o. split; [constructor|done].
  - intros (o' & Hin & Ho)%IH. exists o'. split; [by constructor|done].
Qed.

Lemma term_cmp_zero x d a b : term_cmp (x, d) a b = 0 <-> vcmp (col a x) (col b x) = 0.
Proof. unfold Listing.term_cmp. destruct d; cbn; [done|]. exact (cmp_eq_sym vcmp (col b x) (col a x)). Qed.

(** A completed order is total. *)
Lemma completed_tells_apart os : tells_apart (map orderClause os ++ completion os) rows.
Proof.
  intros a b Ha Hb [H1 H2]%row_cmp_app. unfold completion in H2. destruct (completing identifying os OrderAsc) as [d|] eqn:E.
  - apply Hpk; [done..|]. intros c Hc. apply (term_cmp_zero c d). apply (row_cmp_In _ _ _ _ H2), list_elem_of_fmap. by exists c.
  - apply completing_None in E as (o & Ho & Hi). apply (Hid (OColumn o) Hi); [done..|].
    assert (term_cmp (orderClause o) a b = 0) as Ht by (apply (row_cmp_In _ _ _ _ H1), list_elem_of_fmap; by exists o).
    unfold orderClause in Ht. apply term_cmp_zero in Ht. cbn [Listing.row_cmp].
    rewrite (proj2 (Z.eqb_eq (term_cmp (OColumn o, OrderAsc) a b) 0)); [done|by apply term_cmp_zero].
Qed.

(** The statement of a page. *)
Definition page_statement (os : list Order) (page size : Z) : Statement :=
  mkStatement [] (map orderClause os ++ completion os)
    (if (page - 1) * size <=? 0 then -1 else (page - 1) * size) size.

Lemma list_page_offset os page size : own_orders os -> 1 <= page -> 1 <= size -> size < 2 ^ 63 -> (page - 1) * size < 2 ^ 63 ->
  list_page table identifying primary Find rows (page, size) NoCursor os = Ok (Find rows (page_statement os page size)).
Proof.
  intros Ho Hp Hs Hs' Hoff. unfold list_page, WithCursor, WithPagination. cbn [fst snd NoCursor Enabled negb].
  destruct (Z.leb_spec page 0); [lia|]. destruct (Z.leb_spec size 0); [lia|].
  rewrite (wrap64_id (page - 1)) by nia. rewrite wrap64_id by nia.
  rewrite WithOrder_ok by done. cbn. unfold List_. cbn. unfold completeOrder. cbn.
  unfold page_statement, completion. destruct (completing identifying os OrderAsc) as [d|].
  - rewrite complete_fold. done.
  - by rewrite app_nil_r.
Qed.

Lemma window_page page size (l : list row) : 1 <= page -> 1 <= size ->
  window (if (page - 1) * size <=? 0 then -1 else (page - 1) * size) size l =
  take (Z.to_nat size) (drop (Z.to_nat ((page - 1) * size)) l).
Proof.
  intros Hp Hs. unfold window. destruct (Z.ltb_spec size 0); [lia|].
  destruct (Z.leb_spec ((page - 1) * size) 0).
  - replace (Z.to_nat ((page - 1) * size)) with 0%nat by nia. done.
  - destruct (Z.ltb_spec ((page - 1) * size) 0); [lia|done].
Qed.

Lemma pages_concat (size n : nat) (l : list row) : (length l <= n * size)%nat ->
  concat (map (fun k => take size (drop (k * size) l)) (seq 0 n)) = l.
Proof.
  revert l. induction n as [|n IH]; intros l Hl; [destruct l; [done|cbn in Hl; lia]|]. cbn [seq map concat].
  rewrite <- seq_shift, map_map. erewrite map_ext; [|intros k; cbn; rewrite <- drop_drop; reflexivity].
  rewrite IH by (rewrite length_drop; lia). cbn. by rewrite drop_0, take_drop.
Qed.

(** C27: the pages of a list are windows onto one sorted list of the matching
    rows, although the engine may place rows that compare equal differently in
    every statement: put together, enough pages are that list, each row once.
    The offset of a page has to fit an [int]. *)
Theorem pages_partition os : own_orders os ->
  exists l, l ≡ₚ rows /\ Sorted (row_le (map orderClause os)) l /\
  (forall page size, 1 <= page -> 1 <= size < 2 ^ 63 -> (page - 1) * size < 2 ^ 63 ->
    list_page table identifying primary Find rows (page, size) NoCursor os =
    Ok (take (Z.to_nat size) (drop (Z.to_nat ((page - 1) * size)) l))) /\
  (forall (n : nat) size, 1 <= size < 2 ^ 63 -> Z.of_nat n * size < 2 ^ 63 -> Z.of_nat (length rows) <= Z.of_nat n * size ->
    concat (map (fun k => match list_page table identifying primary Find rows (Z.of_nat k + 1, size) NoCursor os with
                          | Ok p => p | Err _ => [] end) (seq 0 n)) = l).
Proof.
  intros Ho. set (ts := map orderClause os ++ completion os).
  set (l := merge_sort (row_le ts) rows). exists l. assert (l ≡ₚ rows) as Hl by apply merge_sort_Permutation.
  split; [done|]. split; [apply (sorted_app_terms (map orderClause os) (completion os)), Sorted_merge_sort; apply _|].
  assert (forall page size, 1 <= page -> 1 <= size < 2 ^ 63 -> (page - 1) * size < 2 ^ 63 ->
    list_page table identifying primary Find rows (page, size) NoCursor os =
    Ok (take (Z.to_nat size) (drop (Z.to_nat ((page - 1) * size)) l))) as Hpage.
  { intros page size Hp Hs Hoff. rewrite list_page_offset by (done || lia). f_equal.
    destruct (@Find_window _ _ vcmp col bound Find _ rows (page_statement os page size)) as (l' & Hp' & Hs' & ->). cbn [Offset Limit page_statement].
    rewrite window_page by lia. do 2 f_equal. cbn [Where page_statement] in Hp'.
    assert (filter (matching []) rows = rows) as Ef by (apply filter_all; intros; constructor). rewrite Ef in Hp'.
    apply (sorted_unique ts); [|by rewrite Hl|done|apply Sorted_merge_sort; apply _].
    intros a b Ha Hb. apply completed_tells_apart; by rewrite <- Hp'. }
  split; [done|]. intros n size Hs Hn Hlen. rewrite <- (pages_concat (Z.to_nat size) n l) by (rewrite Hl; nia).
  f_equal. apply map_ext_in. intros k Hk%in_seq. rewrite Hpage by nia. do 2 f_equal. nia.
Qed.
End Pages.

(** ** Feeds *)

Section Feeds.
Context (Find : list row -> Statement -> list row) `{!Engine vcmp col bound Find}.
Variables (table : string) (identifying primary : list string).
(** The column of the feed, and the text a value of it is sent as. *)
Variables (c : string) (text : V -> string).
Hypotheses (Hc : c ∈ identifying) (Hname : c <> ""%string).

Local Abbreviation read := (list_page table identifying primary Find).

Definition before (a b : row) : Prop := vcmp (col a c) (col b c) < 0.
Definition after (value : string) (r : row) : Prop := value = ""%string \/ vcmp (bound c value) (col r c) < 0.

(** The value of a row is sent as a text that is not empty and is compared
    as that value. *)
Definition spelled (r : row) : Prop :=
  text (col r c) <> ""%string /\ vcmp (bound c (text (col r c))) (col r c) = 0.

(** A table as a feed of [c] is read from it: the rows are told apart. *)
Definition feedable (rows : list row) : Prop := NoDup rows /\ tells_apart [(c, OrderAsc)] rows.

#[export] Instance after_dec value r : Decision (after value r).
Proof. unfold after. apply _. Defined.

Lemma before_trans : Transitive before.
Proof. intros a b d. unfold before. apply cmp_trans. Qed.

Lemma before_NoDup l : StronglySorted before l -> NoDup l.
Proof.
  induction 1 as [|a l H IH Ha]; constructor; [|done]. intros Hin. rewrite Forall_forall in Ha. specialize (Ha a Hin).
  unfold before in Ha. rewrite (cmp_refl vcmp) in Ha. lia.
Qed.

Lemma after_text x r : spelled x -> after (text (col x c)) r <-> before x r.
Proof.
  intros [Ht H0]. unfold after, before. split.
  - intros [?|H]; [done|]. apply (cmp_eq_lt _ (bound c (text (col x c)))); [|done]. by apply (cmp_eq_sym vcmp).
  - intros H. right. by apply (cmp_eq_lt _ (col x c)).
Qed.

Lemma feed_sorted l : feedable l -> Sorted (row_le [(c, OrderAsc)]) l -> StronglySorted before l.
Proof.
  intros [Hn Ht] Hs. apply Sorted_StronglySorted in Hs; [|intros x y z; apply row_le_trans].
  induction Hs as [|a l Hs IH Ha]; [constructor|]. apply NoDup_cons in Hn as [Hna Hn].
  constructor; [apply IH; [done|intros x y ??; apply Ht; by constructor]|].
  rewrite Forall_forall in Ha |- *. intros b Hb. specialize (Ha b Hb). unfold Listing.row_le in Ha. cbn in Ha.
  unfold before. destruct (Z.eqb_spec (vcmp (col a c) (col b c)) 0) as [E|]; [|lia]. exfalso. apply Hna.
  rewrite (Ht a b); [done|constructor|by constructor|]. cbn. by rewrite E.
Qed.

Lemma feedable_filter value rows : feedable rows -> feedable (filter (after value) rows).
Proof.
  intros [Hn Ht]. split; [by apply NoDup_filter|]. intros a b [_ Ha]%list_elem_of_filter [_ Hb]%list_elem_of_filter. by apply Ht.
Qed.

Lemma feedable_perm l rows : l ≡ₚ rows -> feedable rows -> feedable l.
Proof. intros Hp [Hn Ht]. split; [by rewrite Hp|]. intros a b Ha Hb. apply Ht; by rewrite <- Hp. Qed.

(** A page along the feed starts just past the boundary. *)
Lemma forward_page rows value size : feedable rows -> 1 <= size < 2 ^ 63 ->
  exists l, l ≡ₚ filter (after value) rows /\ StronglySorted before l /\
    read rows (1, size) (CursorForward (Asc c) value) [] = Ok (take (Z.to_nat size) l).
Proof.
  intros Hf Hs. set (conds := if (value =? "")%string then [] else [mkCondition c true value]).
  destruct (@Find_window _ _ vcmp col bound Find _ rows (mkStatement conds [(c, OrderAsc)] (-1) size)) as (l & Hp & Hsort & Hw).
  assert (filter (matching (Where (mkStatement conds [(c, OrderAsc)] (-1) size))) rows = filter (after value) rows) as E.
  { apply list_filter_iff. intros r. unfold conds, after, Listing.matching. cbn [Where]. destruct (String.eqb_spec value "") as [->|Hne].
    - split; [by left|constructor].
    - rewrite Forall_singleton. unfold matches. cbn. split; [by right|by intros [?|?]]. }
  rewrite E in Hp. exists l. split; [done|]. split; [apply feed_sorted; [by eapply feedable_perm, feedable_filter|done]|].
  unfold list_page, WithPagination. cbn [fst snd]. change (1 <=? 0) with false. destruct (Z.leb_spec size 0); [lia|].
  unfold WithCursor. cbn. rewrite (proj2 (String.eqb_neq c "") Hname). cbn. rewrite (bool_decide_eq_true_2 _ Hc). cbn.
  unfold List_, completeOrder, applyCursorPagination, Bounded. cbn.
  assert (forall st, st = mkStatement conds [(c, OrderAsc)] (-1) size -> Ok (Find rows st) = Ok (E := db_error) (take (Z.to_nat size) l)) as Hres.
  { intros st ->. rewrite Hw. unfold window. cbn. destruct (Z.ltb_spec size 0); [lia|done]. }
  unfold conds in Hres. destruct (value =? "")%string; cbn; by apply Hres.
Qed.

(** Reading on: each page from the table as it is by then, from the last row
    read, until a page is short; and whether the end was reached. *)
Fixpoint feed (size : Z) (tables : list (list row)) (value : string) : list row * bool :=
  match tables with
  | [] => ([], false)
  | rows :: tables =>
      match read rows (1, size) (CursorForward (Asc c) value) [] with
      | Err _ => ([], false)
      | Ok page =>
          if Z.of_nat (length page) <? size then (page, true)
          else
            match last page with
            | None => (page, true)
            | Some r => let '(rest, ended) := feed size tables (text (col r c)) in (page ++ rest, ended)
            end
      end
  end.

Lemma feed_ok size tables value :
  1 <= size < 2 ^ 63 -> Forall feedable tables -> (forall rows r, rows ∈ tables -> r ∈ rows -> spelled r) ->
  let '(l, ended) := feed size tables value in
  StronglySorted before l /\ Forall (after value) l /\
  (ended = true -> forall r, (forall rows, rows ∈ tables -> r ∈ rows) -> after value r -> r ∈ l) /\
  (forall r, r ∈ l -> exists rows, rows ∈ tables /\ r ∈ rows) /\
  (ended = false -> Z.of_nat (length l) = size * Z.of_nat (length tables)).
Proof.
  intros Hs Hf Ht. revert value. induction Hf as [|rows tables Hrows _ IH]; intros value; cbn [feed].
  { split; [constructor|]. split; [constructor|]. split; [done|]. split; [by intros r []%elem_of_nil|cbn; lia]. }
  destruct (forward_page rows value size Hrows Hs) as (l & Hp & Hsort & ->).
  assert (Forall (after value) l) as Hafter by (rewrite Hp; apply Forall_forall; by intros r [? _]%list_elem_of_filter).
  assert (forall r, r ∈ rows -> after value r -> r ∈ l) as Hall by (intros r ??; rewrite Hp; by apply list_elem_of_filter).
  rewrite <- (take_drop (Z.to_nat size) l) in Hsort, Hafter, Hall. set (page := take (Z.to_nat size) l) in *.
  assert (forall r, r ∈ page -> exists rows', rows' ∈ rows :: tables /\ r ∈ rows') as Hfrom.
  { intros r Hr. exists rows. split; [constructor|]. assert (r ∈ l) as Hl by (rewrite <- (take_drop (Z.to_nat size) l); by apply elem_of_app; left).
    rewrite Hp in Hl. by apply list_elem_of_filter in Hl as [_ ?]. }
  apply StronglySorted_app in Hsort as (Hx & Hs1 & Hs2). apply Forall_app in Hafter as [Ha1 _].
  destruct (Z.ltb_spec (Z.of_nat (length page)) size) as [Hshort|Hfull].
  { split; [done|]. split; [done|]. split; [|by split]. intros _ r Hr Har. assert (drop (Z.to_nat size) l = []) as Hd.
    { apply drop_ge. unfold page in Hshort. rewrite length_take in Hshort. lia. }
    rewrite Hd, app_nil_r in Hall. apply Hall; [apply Hr; constructor|done]. }
  destruct (last page) as [x|] eqn:Hl; [|destruct page; [cbn in Hfull; lia|by apply last_None in Hl]].
  apply last_Some in Hl as [p' Hp'].
  assert (spelled x) as Htx.
  { apply (Ht rows); [constructor|]. assert (x ∈ l) as Hxl by (rewrite <- (take_drop (Z.to_nat size) l); fold page; rewrite Hp'; set_solver).
    rewrite Hp in Hxl. by apply list_elem_of_filter in Hxl as [_ ?]. }
  specialize (IH (fun rows' r Hin => Ht rows' r (list_elem_of_further _ _ _ Hin)) (text (col x c))).
  destruct (feed size tables (text (col x c))) as [rest ended]. destruct IH as (Hsr & Har & Hend & Hin' & Hlen).
  assert (forall r, r ∈ rest -> before x r) as Hrest.
  { intros r Hr. rewrite Forall_forall in Har. by apply after_text; [|apply Har]. }
  assert (forall p r, p ∈ page -> before x r -> before p r) as Hpx.
  { intros p r Hin Hr. rewrite Hp' in Hin, Hs1. apply elem_of_app in Hin as [Hin| ->%list_elem_of_singleton]; [|done].
    apply StronglySorted_app in Hs1 as (Hpp & _). eapply before_trans; [apply Hpp; [done|constructor]|done]. }
  assert (x ∈ page) as Hxp by (rewrite Hp'; apply elem_of_app; right; constructor).
  split; [|split; [|split; [|split]]].
  - apply StronglySorted_app. split; [|done]. intros p r Hin Hr. apply Hpx; auto.
  - apply Forall_app. split; [done|]. rewrite Forall_forall in Ha1. apply Forall_forall. intros r Hr%Hrest.
    destruct (Ha1 x Hxp) as [->|Hb]; [by left|right]. eapply cmp_trans; [exact Hb|exact Hr].
  - intros He r Hr Hv. apply elem_of_app. assert (r ∈ page ++ drop (Z.to_nat size) l) as [?|Hd]%elem_of_app.
    { apply Hall; [apply Hr; constructor|done]. }
    + by left.
    + right. apply Hend; [done|intros rows' Hin; apply Hr; by constructor|]. apply after_text; [done|]. by apply Hx.
  - intros r [Hr|Hr]%elem_of_app; [by apply Hfrom|]. destruct (Hin' r Hr) as (rows' & ? & ?). exists rows'. split; [by constructor|done].
  - intros He. rewrite length_app. cbn [length]. specialize (Hlen He). unfold page in Hfull |- *. rewrite length_take in Hfull |- *. lia.
Qed.

(** C29: a feed read to its end along its cursor meets every row that was
    there all along exactly once, in order, and no row twice, although rows
    come and go between the pages; and the end is reached within the pages the
    rows that are ever there fill.  No value of the column may be sent as an
    empty text, which asks for the first page. *)
Theorem feed_reads_each_row_once size tables :
  1 <= size < 2 ^ 63 -> Forall feedable tables ->
  (forall rows r, rows ∈ tables -> r ∈ rows -> spelled r) ->
  let '(l, ended) := feed size tables "" in
  StronglySorted before l /\ NoDup l /\
  (ended = true -> forall r, (forall rows, rows ∈ tables -> r ∈ rows) -> r ∈ l) /\
  (forall all, (forall rows, rows ∈ tables -> rows ⊆ all) -> Z.of_nat (length all) < size * Z.of_nat (length tables) -> ended = true).
Proof.
  intros Hs Hf Ht. pose proof (feed_ok size tables "" Hs Hf Ht) as H. destruct (feed size tables "") as [l ended].
  destruct H as (H1 & _ & H3 & Hfrom & Hlen). assert (NoDup l) as Hn by by apply before_NoDup.
  split; [done|]. split; [done|]. split.
  - intros He r Hr. apply H3; [done|done|by left].
  - intros all Hall Hfew. destruct ended; [done|]. specialize (Hlen eq_refl).
    assert (l ⊆+ all) as Hsub%submseteq_length; [|lia]. apply NoDup_submseteq; [done|].
    intros r (rows & Hin & Hr)%Hfrom. by apply (Hall rows).
Qed.
End Feeds.
End Spec.

(** The engine that sorts is one. *)
#[export] Instance sorting_engine_ok {row V} (vcmp : V -> V -> Z) (col : row -> string -> V) bound `{!Comparison vcmp} :
  Engine vcmp col bound (sorting_engine vcmp col bound).
Proof.
  split. intros rows s. exists (merge_sort (row_le vcmp col (OrderBy s)) (filter (matching vcmp col bound (Where s)) rows)).
  split; [apply merge_sort_Permutation|]. split; [|done]. apply Sorted_merge_sort. apply _.
Qed.

(** ** Concrete reads *)

Module Reads.

(** Rows of an id and a group, both numbers, read as MySQL compares a bound
    text with a number. *)
Definition column (r : Z * Z) (c : string) : Z := if (c =? "id")%string then r.1 else r.2.
Definition number (_ : string) (text : string) : Z := (Strconv.Atoi text).1.
Definition engine : list (Z * Z) -> Statement -> list (Z * Z) := sorting_engine compareZ column number.
Definition page (rows : list (Z * Z)) (p : Z * Z) (cur : Cursor) (os : list Order) : result db_error (list (Z * Z)) :=
  list_page "records" ["id"] ["id"] engine rows p cur os.

Definition rows : list (Z * Z) := [(5, 2); (3, 1); (1, 2); (4, 1); (2, 1); (6, 2)].

Example by_group : page rows (2, 2) NoCursor [Asc "grp"] = Ok [(4, 1); (1, 2)].
Proof. vm_compute. reflexivity. Qed.

(** A page far beyond the end is empty, until its offset wraps around: this
    one begins at the fifth row. *)
Example beyond_the_end : page rows (1000, 20) NoCursor [] = Ok [].
Proof. vm_compute. reflexivity. Qed.
Example offset_wraps : page rows (922337203685477582, 20) NoCursor [] = Ok [(5, 2); (6, 2)].
Proof. vm_compute. reflexivity. Qed.

(** Down and up the feed. *)
Example forward : page rows (1, 2) (CursorForward (Asc "id") "2") [] = Ok [(3, 1); (4, 1)].
Proof. vm_compute. reflexivity. Qed.
Example backward : page rows (1, 2) (CursorBackward (Asc "id") "5") [] = Ok [(3, 1); (4, 1)].
Proof. vm_compute. reflexivity. Qed.
Example shared : page rows (1, 2) (CursorForward (Asc "grp") "1") [] = Err ErrSharedCursorColumn.
Proof. vm_compute. reflexivity. Qed.

Lemma id_tells_apart l : NoDup (fst <$> l) -> tells_apart compareZ column [("id", OrderAsc)] l.
Proof.
  intros Hn a b Ha Hb H. apply (NoDup_key fst l); [done..|]. cbn in H. unfold column in H. cbn in H.
  unfold compareZ in H. destruct (Z.ltb_spec a.1 b.1), (Z.ltb_spec b.1 a.1); cbn in H; lia.
Qed.

End Reads.

Lemma pages_partition_witness :
  exists l, l ≡ₚ Reads.rows /\
    concat (map (fun k => match Reads.page Reads.rows (Z.of_nat k + 1, 4) NoCursor [Asc "grp"] with Ok p => p | Err _ => [] end) (seq 0 2)) = l.
Proof.
  destruct (pages_partition compareZ Reads.column Reads.number Reads.engine "records" ["id"] ["id"] Reads.rows) with (os := [Asc "grp"])
    as (l & Hl & _ & _ & H).
  - intros c ->%list_elem_of_singleton. apply Reads.id_tells_apart. eapply bool_decide_unpack; vm_compute; exact I.
  - intros a b Ha Hb H. apply (Reads.id_tells_apart Reads.rows); [eapply bool_decide_unpack; vm_compute; exact I|done|done|].
    unfold row_cmp, term_cmp. cbn [fst snd]. by rewrite (H "id"%string) by constructor.
  - repeat constructor. discriminate.
  - exists l. split; [exact Hl|]. apply (H 2%nat 4); [lia|lia|vm_compute; discriminate].
Defined.

(** The feed while the row 3 goes and the row 7 comes. *)
Lemma feed_reads_each_row_once_witness :
  let tables := [Reads.rows; [(5, 2); (1, 2); (4, 1); (2, 1); (6, 2)]; [(5, 2); (1, 2); (4, 1); (2, 1); (6, 2); (7, 0)]] in
  let read := feed Reads.column Reads.engine "records" ["id"] ["id"] "id" Strconv.FormatInt 3 tables "" in
  read = ([(1, 2); (2, 1); (3, 1); (4, 1); (5, 2); (6, 2); (7, 0)], true) /\ NoDup read.1.
Proof.
  cbv zeta. set (tables := [_; _; _]). split; [vm_compute; reflexivity|].
  pose proof (feed_reads_each_row_once compareZ Reads.column Reads.number Reads.engine "records" ["id"] ["id"] "id" Strconv.FormatInt) as H.
  specialize (H ltac:(constructor) ltac:(discriminate) 3 tables ltac:(lia)).
  assert (Forall (feedable compareZ Reads.column "id") tables) as Hf.
  { repeat apply Forall_cons_2; [..|apply Forall_nil_2]; (split; [|apply Reads.id_tells_apart]; eapply bool_decide_unpack; vm_compute; exact I). }
  assert (forall rows r, rows ∈ tables -> r ∈ rows -> spelled compareZ Reads.column Reads.number "id" Strconv.FormatInt r) as Ht.
  { assert (Forall (Forall (spelled compareZ Reads.column Reads.number "id" Strconv.FormatInt)) tables) as Hall.
    { repeat apply Forall_cons_2; [..|apply Forall_nil_2]; repeat apply Forall_cons_2; (apply Forall_nil_2 || (split; [discriminate|reflexivity])). }
    intros l r Hl Hr. rewrite Forall_forall in Hall. specialize (Hall l Hl). rewrite Forall_forall in Hall. exact (Hall r Hr). }
  specialize (H Hf Ht). destruct (feed _ _ _ _ _ _ _ _ _ _) as [l ended]. apply H.
Defined.
