(* ===== verification/Predicate.v ===== *)
(** * Predicates: filters rendered into SQL

    Models [database/filter.go] and the parts of [database/dialect.go] it
    uses: how a tree of filters becomes one condition of a statement.  A
    condition is kept as a tree of the expressions the code hands to gorm, and
    [pieces] spells their SQL as the code does; joining them is gorm's.  A model is its table, with the
    columns gorm resolves; the values of the other scalars a filter may carry
    are of any type.  What a value over a date column binds, [dayValue], goes
    through the calendar and is an argument. *)

From stdpp Require Import base list gmap strings.
From Stdlib Require Import ZArith Lia Ascii.
From S2P Require Import Prelude GoStrings UrlQuery Strconv.
Local Open Scope Z_scope.

(** ** Dialects *)

Inductive dialect : Set := MySQL | Postgres | SQLite | ClickHouse.

#[export] Instance dialect_eq_dec : EqDecision dialect.
Proof. solve_decision. Defined.

(** ** Filters *)

(** The operators: the ones a URL spells, the ones only services use, and any
    other text. *)
Inductive Operator : Set :=
| Exposed (op : FilterOp)
| Regex | NotRegex | JSONContains | Or | And | Exists | EqCol | Never
| Unknown (text : string).

#[export] Instance Operator_eq_dec : EqDecision Operator.
Proof. solve_decision. Defined.

Definition spelling (op : Operator) : string :=
  match op with
  | Exposed op => op_name op
  | Regex => "regex" | NotRegex => "notregex" | JSONContains => "jsoncontains"
  | Or => "or" | And => "and" | Exists => "exists" | EqCol => "eqcol" | Never => "false"
  | Unknown text => text
  end.

(** A model, as the renderer reads it: its table and its columns, unless gorm
    cannot parse it. *)
Record Table_ : Type := mkTable { TableName : string; Schema : option (list Column) }.

Section Filters.
(** Scalars other than booleans, strings and times. *)
Context {A : Type}.

Inductive datum : Type := DNil | DBool (b : bool) | DString (s : string) | DTime (ns : Z) | DOther (a : A).

(** A value of a filter: one datum, byte slices and arrays that bind
    themselves, other slices, a column reference, the children of a group and
    a subquery. *)
Inductive value (F : Type) : Type :=
| VDatum (d : datum)
| VBytes (a : A)
| VValuer (a : A)
| VMany (l : list datum)
| VRef (name table : string)
| VFilters (l : list F)
| VSubquery (related : option Table_) (filters : list F) (negate : bool).

Inductive filter_ : Type :=
| NewFilter_ (table column : string) (op : Operator) (v : value filter_).
End Filters.
Arguments datum : clear implicits.
Arguments value : clear implicits.
Arguments filter_ : clear implicits.
Arguments VDatum {A F} d.
Arguments VBytes {A F} a.
Arguments VValuer {A F} a.
Arguments VMany {A F} l.
Arguments VRef {A F} name table.
Arguments VFilters {A F} l.
Arguments VSubquery {A F} related filters negate.

Definition FTable {A} (f : filter_ A) : string := let 'NewFilter_ t _ _ _ := f in t.
Definition Column_ {A} (f : filter_ A) : string := let 'NewFilter_ _ c _ _ := f in c.
Definition Op {A} (f : filter_ A) : Operator := let 'NewFilter_ _ _ o _ := f in o.
Definition Value_ {A} (f : filter_ A) : value A (filter_ A) := let 'NewFilter_ _ _ _ v := f in v.

(** ** Conditions *)

(** A side of a comparison: a column under the name its table is read by, if
    any, and a bound value, possibly within a function of the dialect. *)
Inductive operand : Set :=
| Col (qualifier name : string)
| Bind
| Strftime (o : operand)
| CastText (o : operand)
| ToString (o : operand).

Inductive condition (A : Type) : Type :=
| CFalse
| CCompare (lhs : operand) (op : string) (rhs : operand) (v : value A (filter_ A))
| CIn (o : operand) (negate : bool) (v : value A (filter_ A))
| CLike (o : operand) (negate : bool) (suffix : string) (pattern : string)
| CNull (o : operand) (negate : bool)
| CRegex (o : operand) (negate : bool) (operator : string) (expr : string)
| CContains (column : operand) (s : string)
| CEqual (a b : operand)
| COr (l : list (condition A))
| CAnd (l : list (condition A))
| CExists (negate : bool) (related : Table_) (alias : option string) (where_ : condition A).
Arguments CFalse {A}.
Arguments CCompare {A} lhs op rhs v.
Arguments CIn {A} o negate v.
Arguments CLike {A} o negate suffix pattern.
Arguments CNull {A} o negate.
Arguments CRegex {A} o negate operator expr.
Arguments CContains {A} column s.
Arguments CEqual {A} a b.
Arguments COr {A} l.
Arguments CAnd {A} l.
Arguments CExists {A} negate related alias where_.

(** *** As SQL

    [quote] is gorm's quoting of an identifier. *)

Section Text.
Context {A : Type}.
Variable quoteIdent : string -> string.

Definition quoteTableColumn (table column : string) : string :=
  if (table =? "")%string then quoteIdent column else quoteIdent table +:+ "." +:+ quoteIdent column.

Fixpoint operand_text (o : operand) : string :=
  match o with
  | Col q c => quoteTableColumn q c
  | Bind => "?"
  | Strftime o => "strftime('%Y-%m-%d %H:%M:%f', " +:+ operand_text o +:+ ")"
  | CastText o => "CAST(" +:+ operand_text o +:+ " AS TEXT)"
  | ToString o => "toString(" +:+ operand_text o +:+ ")"
  end.

(** What a subquery reads from. *)
Definition from_text (related : Table_) (alias : option string) : string :=
  match alias with Some a => TableName related +:+ " AS " +:+ a | None => TableName related end.

Fixpoint pieces (c : condition A) : list string :=
  match c with
  | CFalse => ["1 = 0"]
  | CCompare l op r _ => [operand_text l +:+ op +:+ operand_text r]
  | CIn o n _ => [operand_text o +:+ (if n then " NOT IN ?" else " IN ?")]
  | CLike o n suffix _ => [operand_text o +:+ (if n then " NOT LIKE ?" else " LIKE ?") +:+ suffix]
  | CNull o n => [operand_text o +:+ (if n then " IS NOT NULL" else " IS NULL")]
  | CRegex o n operator _ =>
      [if n then "NOT (" +:+ operand_text o +:+ " " +:+ operator +:+ " ?)" else operand_text o +:+ " " +:+ operator +:+ " ?"]
  | CContains o _ => [match o with Col q c => if (q =? "")%string then c else q +:+ "." +:+ c | _ => "" end]
  | CEqual a b => [operand_text a +:+ " = " +:+ operand_text b]
  | COr l | CAnd l => concat (map pieces l)
  | CExists n t alias w => (if n then "NOT EXISTS (?)" else "EXISTS (?)") :: from_text t alias :: pieces w
  end.
End Text.

(** ** The dialect's spellings *)

Definition regexpOperator (d : dialect) : string := if bool_decide (d = Postgres) then "~" else "REGEXP".

Definition timeComparableExpr (d : dialect) (o : operand) : operand :=
  if bool_decide (d = SQLite) then Strftime o else o.

Definition textPatternColumn (d : dialect) (o : operand) (cast : bool) : operand :=
  if negb cast then o
  else match d with Postgres => CastText o | ClickHouse => ToString o | _ => o end.

Definition likeEscapeSuffix (d : dialect) : string := if bool_decide (d = ClickHouse) then "" else " ESCAPE '|'".

Definition likeEscape (d : dialect) : ascii := if bool_decide (d = ClickHouse) then "\" else "|".

(** [strings.Replacer]: the escape character before itself and before each of
    the wildcards. *)
Fixpoint escape_with (e : ascii) (s : string) : string :=
  match s with
  | EmptyString => EmptyString
  | String a s =>
      if (a =? e)%char || (a =? "%")%char || (a =? "_")%char then String e (String a (escape_with e s))
      else String a (escape_with e s)
  end.

Definition escapeLikePattern (d : dialect) (s : string) : string := escape_with (likeEscape d) s.

(** ** Scopes *)

Record tableInfo : Type := mkInfo {
  columns : option (gset string);
  timeColumns : gset string; dateColumns : gset string; jsonColumns : gset string; numericColumns : gset string;
  qualify : string;
  rename : option (gmap string string) }.

(** [column]: the name a column is read under. *)
Definition read_as (info : tableInfo) (name : string) : string :=
  default name (renames ← rename info; renames !! name).

Definition qualifiedBy (name : string) (info : tableInfo) : tableInfo :=
  mkInfo (columns info) (timeColumns info) (dateColumns info) (jsonColumns info) (numericColumns info) name (rename info).

(** A nil set has no member. *)
Definition has_column (info : tableInfo) (name : string) : bool :=
  match columns info with Some set => bool_decide (name ∈ set) | None => false end.

(** [IsDateColumn]. *)
Definition IsDateColumn (c : Column) : bool := EqualFold (dataType c) "date".

Definition names_where (p : Column -> bool) (l : list Column) : gset string :=
  list_to_set (map DBName (filter (fun c => p c = true) l)).

Definition tableInfoOf (l : list Column) : tableInfo :=
  mkInfo (Some (names_where (fun _ => true) l)) (names_where IsTimeColumn l) (names_where IsDateColumn l)
    (names_where IsJSONColumn l) (names_where IsNumericColumn l) "" None.

Record filterScope : Type := mkScope {
  info : tableInfo;
  parent : string;
  outer : string; outerTable : string; outerColumns : option (gset string);
  depth : Z;
  table_ : string;
  tables : option (gmap string tableInfo);
  derived : bool }.

(** [outerScope]; a model gorm cannot parse has no column in any set. *)
Definition outerScope (m : Table_) : filterScope :=
  let l := default [] (Schema m) in
  mkScope
    (mkInfo None (names_where IsTimeColumn l) (names_where IsDateColumn l) (names_where IsJSONColumn l) (names_where IsNumericColumn l) "" None)
    (TableName m) "" "" None 0 (TableName m) None false.

(** [outerColumnSet]. *)
Definition outerColumnSet (m : Table_) : option (gset string) := names_where (fun _ => true) <$> Schema m.

(** ** Failures *)

(** Why a filter cannot be applied. *)
Inductive reason : Set :=
| ExpectsSubquery | EmptyColumn | ForeignTable (name : string) | NoSuchColumn | NoSuchKey
| ExpectsScalar | ExpectsSlice | ExpectsString | ExpectsBool | ExpectsFilters | ExpectsJSON | UnknownOperator
| NoChildren | ExpectsColumn | EmptyCorrelation | OutsideSubquery | EnclosingUnresolved | NotEnclosing (name : string)
| NotInEnclosing | WithoutTable | NoRelated | NoCorrelation | InsideJoin | NoParent | NoTableName | NoColumns.

Inductive failure : Set :=
| Unusable (op : Operator) (why : reason)
| UnsupportedOnDialect (op : Operator).

(** Whether a failure is marked with [ErrColumnTable]. *)
Definition column_table (e : failure) : bool :=
  match e with Unusable _ (ForeignTable _ | NotEnclosing _) => true | _ => false end.

(** [narrows]: whether a client could have spelled the filter. *)
Definition narrows (e : failure) : bool :=
  match e with
  | Unusable op _ => negb (column_table e) && match ParseFilterOp (spelling op) with Some _ => true | None => false end
  | UnsupportedOnDialect _ => false
  end.

(** ** Rendering *)

Section Render.
Context {A : Type}.
Abbreviation filter_t := (filter_ A).
Abbreviation val := (value A filter_t).
Abbreviation rendered := (condition A * option failure)%type.

(** [dayValue], on a string and on a time. *)
Variables (day_string : string -> string) (day_time : Z -> Z).
Variable d : dialect.
(** The model the chain reads. *)
Variable model : Table_.

Definition failClosedFilter (f : filter_t) (why : reason) : rendered := (CFalse, Some (Unusable (Op f) why)).

Definition dayValue (x : datum A) : datum A :=
  match x with DString s => DString (day_string s) | DTime t => DTime (day_time t) | _ => x end.

(** [eqColParent]: the name and the table of the other column. *)
Definition eqColParent (v : val) : option (string * string) :=
  match v with
  | VDatum (DString s) => Some (s, ""%string)
  | VRef name table => Some (name, table)
  | _ => None
  end.

Fixpoint hasCorrelation_of (f : filter_t) : bool :=
  match Op f with
  | EqCol => true
  | Or | And => match f with NewFilter_ _ _ _ (VFilters l) => existsb hasCorrelation_of l | _ => false end
  | _ => false
  end.
Definition hasCorrelation (l : list filter_t) : bool := existsb hasCorrelation_of l.

Definition comparisonSQL (i : tableInfo) (dbName : string) (column : operand) (op : string) (v : val) : condition A :=
  if bool_decide (dbName ∈ timeColumns i)
  then CCompare (timeComparableExpr d column) op (timeComparableExpr d Bind) v
  else CCompare column op Bind v.

Definition patternColumn (i : tableInfo) (dbName : string) (column : operand) : operand :=
  textPatternColumn d column (bool_decide (dbName ∈ jsonColumns i) || bool_decide (dbName ∈ numericColumns i)).

Definition is_slice (v : val) : bool :=
  match v with VBytes _ | VValuer _ | VMany _ | VFilters _ => true | _ => false end.
Definition binds_itself (v : val) : bool := match v with VBytes _ | VValuer _ => true | _ => false end.

Definition scalarFilter (f : filter_t) (i : tableInfo) (sql : val -> condition A) : rendered :=
  match Value_ f with
  | VDatum DNil => failClosedFilter f ExpectsScalar
  | v =>
      if is_slice v && (bool_decide (Column_ f ∈ jsonColumns i) || negb (binds_itself v)) then failClosedFilter f ExpectsScalar
      else
        let v := if bool_decide (Column_ f ∈ dateColumns i) then match v with VDatum x => VDatum (dayValue x) | _ => v end else v in
        (sql v, None)
  end.

(** Of a byte slice and of an array that binds itself no member is known
    here, so their days are left as they are. *)
Definition listFilter (f : filter_t) (i : tableInfo) (sql : val -> condition A) : rendered :=
  let v := Value_ f in
  if negb (is_slice v) then failClosedFilter f ExpectsSlice
  else
    let v := if bool_decide (Column_ f ∈ dateColumns i) then match v with VMany l => VMany (map dayValue l) | _ => v end else v in
    (sql v, None).

Definition patternFilter (f : filter_t) (sql : string -> condition A) (prefix suffix : string) : rendered :=
  match Value_ f with
  | VDatum (DString s) => (sql (prefix +:+ escapeLikePattern d s +:+ suffix), None)
  | _ => failClosedFilter f ExpectsString
  end.

Definition stringFilter (f : filter_t) (sql : string -> condition A) : rendered :=
  match Value_ f with
  | VDatum (DString s) => (sql s, None)
  | _ => failClosedFilter f ExpectsString
  end.

Definition tableColumn (table : string) (i : tableInfo) (column : string) : operand :=
  Col (if (qualify i =? "")%string then table else qualify i) (read_as i column).

Definition scopedColumn (column : string) (s : filterScope) : operand := Col (qualify (info s)) (read_as (info s) column).

(** Whether a filter names a table other than its scope's. *)
Definition elsewhere (f : filter_t) (s : filterScope) : bool :=
  negb (FTable f =? "")%string && negb (table_ s =? "")%string && negb (FTable f =? table_ s)%string.

Definition placeFilter (f : filter_t) (s : filterScope) : (operand * tableInfo) + failure :=
  if elsewhere f s then
    match tables s ≫= (.!! FTable f) with
    | None => inr (Unusable (Op f) (ForeignTable (FTable f)))
    | Some i =>
        if has_column i (Column_ f) then inl (tableColumn (FTable f) i (Column_ f), i)
        else inr (Unusable (Op f) match rename i with Some _ => NoSuchKey | None => NoSuchColumn end)
    end
  else if bool_decide (columns (info s) <> None) && negb (has_column (info s) (Column_ f)) then
    inr (Unusable (Op f) (if derived s then NoSuchKey else NoSuchColumn))
  else inl (scopedColumn (Column_ f) s, info s).

Definition placedName (f : filter_t) (s : filterScope) (i : tableInfo) : operand :=
  let q := if (qualify i =? "")%string && elsewhere f s then FTable f else qualify i in
  Col q (read_as i (Column_ f)).

Definition joinEqCol (f : filter_t) (column : operand) (other otherTable : string) (s : filterScope) : rendered :=
  if (otherTable =? "")%string then failClosedFilter f WithoutTable
  else
    match (if (otherTable =? table_ s)%string then Some (info s) else tables s ≫= (.!! otherTable)) with
    | None => failClosedFilter f (ForeignTable otherTable)
    | Some i =>
        if has_column i other then (CEqual column (tableColumn otherTable i other), None)
        else failClosedFilter f match rename i with Some _ => NoSuchKey | None => NoSuchColumn end
    end.

Definition eqColCondition (f : filter_t) (column : operand) (s : filterScope) : rendered :=
  match eqColParent (Value_ f) with
  | None => failClosedFilter f ExpectsColumn
  | Some (other, otherTable) =>
      if (other =? "")%string then failClosedFilter f EmptyCorrelation
      else if bool_decide (tables s <> None) && (outer s =? "")%string then joinEqCol f column other otherTable s
      else if (outer s =? "")%string then failClosedFilter f OutsideSubquery
      else
        match outerColumns s with
        | None => failClosedFilter f EnclosingUnresolved
        | Some set =>
            if negb (otherTable =? "")%string && negb (otherTable =? outerTable s)%string then failClosedFilter f (NotEnclosing otherTable)
            else if bool_decide (other ∈ set) then (CEqual column (Col (outer s) other), None)
            else failClosedFilter f NotInEnclosing
        end
  end.

(** The failure of a list: the first, unless a later one fails the chain
    while it only narrows the query. *)
Definition worse (sofar : option failure) (e : option failure) : option failure :=
  match e with
  | None => sofar
  | Some e' => match sofar with Some e0 => if narrows e0 && negb (narrows e') then e else sofar | None => e end
  end.

(** [renderFilters] over what its filters rendered as: none adds no
    condition, and one alternative is that condition. *)
Definition combine (rs : list rendered) (or : bool) : option (condition A) * option failure :=
  match rs with
  | [] => (None, None)
  | _ =>
      let fail := fold_left worse (map snd rs) None in
      (Some (if or then match map fst rs with [e] => e | exprs => COr exprs end else CAnd (map fst rs)), fail)
  end.

Definition groupCondition (f : filter_t) (render : filter_t -> rendered) (or : bool) : rendered :=
  match Value_ f with
  | VFilters l =>
      match combine (map render l) or with
      | (Some e, fail) => (e, fail)
      | (None, _) => failClosedFilter f NoChildren
      end
  | _ => failClosedFilter f ExpectsFilters
  end.

(** The name a subquery reads its table by, an alias when the query around
    it reads the same table. *)
Definition alias_of (child : string) (s : filterScope) : option string :=
  if (child =? parent s)%string then Some (child +:+ "_gst" +:+ Strconv.FormatInt (depth s + 1)) else None.

Definition inner_scope (related : Table_) (childColumns : list Column) (s : filterScope) : filterScope :=
  let childRef := default (TableName related) (alias_of (TableName related) s) in
  mkScope (qualifiedBy childRef (tableInfoOf childColumns)) childRef (parent s) (table_ s)
    (match columns (info s) with Some set => Some set | None => outerColumnSet model end)
    (depth s + 1) (TableName related) None false.

(** [existsCondition], [render] rendering the filters of the subquery in
    their scope. *)
Definition existsCondition (f : filter_t) (render : filterScope -> filter_t -> rendered) (s : filterScope) : rendered :=
  match Value_ f with
  | VSubquery related filters negate =>
      if bool_decide (d = ClickHouse) then (CFalse, Some (UnsupportedOnDialect (Op f)))
      else
        match related with
        | None => failClosedFilter f NoRelated
        | Some related =>
            if negb (hasCorrelation filters) then failClosedFilter f NoCorrelation
            else if derived s then failClosedFilter f InsideJoin
            else if (parent s =? "")%string then failClosedFilter f NoParent
            else if (TableName related =? "")%string then failClosedFilter f NoTableName
            else
              match Schema related with
              | None => failClosedFilter f NoColumns
              | Some childColumns =>
                  let '(expr, fail) := combine (map (render (inner_scope related childColumns s)) filters) false in
                  match fail with
                  | Some e => (CFalse, Some e)
                  | None => (CExists negate related (alias_of (TableName related) s) (default (CAnd []) expr), None)
                  end
              end
        end
  | _ => failClosedFilter f ExpectsSubquery
  end.

(** The operators that name a column, once it is placed. *)
Definition columnFilter (f : filter_t) (s : filterScope) (column : operand) (i : tableInfo) : rendered :=
  let name := Column_ f in
  let pattern := patternColumn i name column in
  match Op f with
  | Exposed OpEq => scalarFilter f i (comparisonSQL i name column " = ")
  | Exposed OpNe => scalarFilter f i (comparisonSQL i name column " <> ")
  | Exposed OpGt => scalarFilter f i (comparisonSQL i name column " > ")
  | Exposed OpGte => scalarFilter f i (comparisonSQL i name column " >= ")
  | Exposed OpLt => scalarFilter f i (comparisonSQL i name column " < ")
  | Exposed OpLte => scalarFilter f i (comparisonSQL i name column " <= ")
  | Exposed OpIn => listFilter f i (CIn column false)
  | Exposed OpNotIn => listFilter f i (CIn column true)
  | Exposed OpLike => patternFilter f (CLike pattern false (likeEscapeSuffix d)) "%" "%"
  | Exposed OpNotLike => patternFilter f (CLike pattern true (likeEscapeSuffix d)) "%" "%"
  | Exposed OpStartsWith => patternFilter f (CLike pattern false (likeEscapeSuffix d)) "" "%"
  | Exposed OpEndsWith => patternFilter f (CLike pattern false (likeEscapeSuffix d)) "%" ""
  | Exposed OpIsNull =>
      match Value_ f with VDatum (DBool b) => (CNull column (negb b), None) | _ => failClosedFilter f ExpectsBool end
  | Regex => stringFilter f (CRegex pattern false (regexpOperator d))
  | NotRegex => stringFilter f (CRegex pattern true (regexpOperator d))
  | JSONContains =>
      if bool_decide (d = ClickHouse) then (CFalse, Some (UnsupportedOnDialect (Op f)))
      else if negb (bool_decide (name ∈ jsonColumns i)) then failClosedFilter f ExpectsJSON
      else stringFilter f (CContains (placedName f s i))
  | EqCol => eqColCondition f column s
  | _ => failClosedFilter f UnknownOperator
  end.

Definition placedFilter (f : filter_t) (s : filterScope) : rendered :=
  if (Column_ f =? "")%string then failClosedFilter f EmptyColumn
  else
    match placeFilter f s with
    | inr e => (CFalse, Some e)
    | inl (column, i) => columnFilter f s column i
    end.

Fixpoint renderFilter (s : filterScope) (f : filter_t) : rendered :=
  match Op f with
  | Or => groupCondition f (renderFilter s) true
  | And => groupCondition f (renderFilter s) false
  | Exists => existsCondition f renderFilter s
  | Never => (CFalse, None)
  | _ => placedFilter f s
  end.

Definition renderFilters (s : filterScope) (filters : list filter_t) : option (condition A) * option failure :=
  combine (map (renderFilter s) filters) false.

(** ** On a chain *)

Fixpoint foreignTableFilter (own enclosing : string) (f : filter_t) : option filter_t :=
  let names_other := negb (FTable f =? "")%string && negb (FTable f =? own)%string in
  match Op f with
  | Or | And =>
      match f with NewFilter_ _ _ _ (VFilters l) => head (omap (foreignTableFilter own enclosing) l) | _ => None end
  | Exists =>
      match f with
      | NewFilter_ _ _ _ (VSubquery (Some related) l _) => head (omap (foreignTableFilter (TableName related) own) l)
      | _ => None
      end
  | EqCol =>
      if names_other then Some f
      else
        match eqColParent (Value_ f) with
        | Some (_, other) =>
            if negb (enclosing =? "")%string && negb (other =? "")%string && negb (other =? enclosing)%string then Some f else None
        | None => None
        end
  | _ => if names_other then Some f else None
  end.

Inductive query_error : Type := ErrColumnTable (f : filter_t) | ErrFilter (e : failure).

(** [applyFilters]: the condition the filters add to the chain, or its
    error. *)
Definition applyFilters (filters : list filter_t) : result query_error (option (condition A)) :=
  match head (omap (foreignTableFilter (TableName model) "") filters) with
  | Some f => Err (ErrColumnTable f)
  | None =>
      match renderFilters (outerScope model) filters with
      | (expr, Some e) => if narrows e then Ok expr else Err (ErrFilter e)
      | (expr, None) => Ok expr
      end
  end.
End Render.
Arguments query_error : clear implicits.

(** ** An example *)

Module Rendered.
Definition column (name type : string) : Column := mkColumn name name name false false type type true true false.
Definition samples : Table_ := mkTable "samples" (Some [column "id" "string"; column "parent_id" "string"; column "name" "string"; column "at" "time"]).
Definition quote (name : string) : string := "`" +:+ name +:+ "`".
Definition string_of (s : string) : value Z (filter_ Z) := VDatum (DString s).

(** A sample that has a child named like [50%], of the same table. *)
Definition filters : list (filter_ Z) :=
  [NewFilter_ "" "" Exists (VSubquery (Some samples)
     [NewFilter_ "samples" "parent_id" EqCol (VRef "id" "samples");
      NewFilter_ "" "name" (Exposed OpLike) (string_of "50%")] true);
   NewFilter_ "" "at" (Exposed OpGt) (string_of "2026-01-01 00:00:00")].

Definition rendering (d : dialect) : list string :=
  match applyFilters (A := Z) (fun s => s) (fun t => t) d samples filters with
  | Ok (Some c) => pieces quote c
  | _ => []
  end.

Example on_mysql : rendering MySQL =
  ["NOT EXISTS (?)"; "samples AS samples_gst1"; "`samples_gst1`.`parent_id` = `samples`.`id`";
   "`samples_gst1`.`name` LIKE ? ESCAPE '|'"; "`at` > ?"].
Proof. vm_compute. reflexivity. Qed.

Example on_sqlite : last (rendering SQLite) =
  Some "strftime('%Y-%m-%d %H:%M:%f', `at`) > strftime('%Y-%m-%d %H:%M:%f', ?)".
Proof. vm_compute. reflexivity. Qed.

Example on_clickhouse : applyFilters (A := Z) (fun s => s) (fun t => t) ClickHouse samples filters = Err (ErrFilter (UnsupportedOnDialect Exists)).
Proof. vm_compute. reflexivity. Qed.

(** What a client misspells narrows the query, what a service misspells
    fails it. *)
Example client_mistake :
  applyFilters (A := Z) (fun s => s) (fun t => t) MySQL samples [NewFilter_ "" "name" (Exposed OpIn) (string_of "a,b")] = Ok (Some (CAnd [CFalse])).
Proof. vm_compute. reflexivity. Qed.
Example service_mistake :
  applyFilters (A := Z) (fun s => s) (fun t => t) MySQL samples [NewFilter_ "" "" Or (VFilters [])] = Err (ErrFilter (Unusable Or NoChildren)).
Proof. vm_compute. reflexivity. Qed.
End Rendered.
