(* ===== verification/PredicateSpec.v ===== *)
(** * A condition selects what its filters mean

    What a database makes of a condition is stated by [Evaluates]: the logic
    of three values, the resolution of a column to the nearest table read
    under its name, gorm's joining of groups.  What a filter means is stated
    without names, over the rows of the queries it sits in. *)

From stdpp Require Import base list gmap strings.
From Stdlib Require Import ZArith Lia Ascii.
From S2P Require Import Prelude GoStrings UrlQuery Predicate.
Local Open Scope Z_scope.

(** ** Truth of three values *)

(** [None] is SQL's unknown. *)
Abbreviation truth := (option bool).

Definition all_of (l : list truth) : truth :=
  if bool_decide (Some false ∈ l) then Some false else if bool_decide (None ∈ l) then None else Some true.
Definition any_of (l : list truth) : truth :=
  if bool_decide (Some true ∈ l) then Some true else if bool_decide (None ∈ l) then None else Some false.
Definition flip (negate : bool) (t : truth) : truth := xorb negate <$> t.
Definition true_ (t : truth) : bool := bool_decide (t = Some true).

Lemma all_of_one t : all_of [t] = t.
Proof. by destruct t as [[]|]. Qed.

Lemma any_of_one t : any_of [t] = t.
Proof. by destruct t as [[]|]. Qed.

Lemma all_of_true l : all_of l = Some true <-> Forall (fun t => t = Some true) l.
Proof.
  unfold all_of. rewrite Forall_forall. case_bool_decide as H; [|case_bool_decide as H'].
  - split; [done|]. intros Hl. by specialize (Hl _ H).
  - split; [done|]. intros Hl. by specialize (Hl _ H').
  - split; [|done]. intros _ t Ht. cbn. destruct t as [[]|]; [done|by destruct H|by destruct H'].
Qed.

Lemma existsb_agree {X} (p q : X -> bool) l : (forall x, p x = q x) -> existsb p l = existsb q l.
Proof. intros H. induction l as [|x l IH]; cbn; [done|]. by rewrite H, IH. Qed.

(** ** How bad a filter is *)

Inductive severity : Set := Fine | Narrows | Fails.

#[export] Instance severity_eq_dec : EqDecision severity.
Proof. solve_decision. Defined.

Definition worst (a b : severity) : severity :=
  match a, b with Fails, _ | _, Fails => Fails | Narrows, _ | _, Narrows => Narrows | Fine, Fine => Fine end.

Definition severity_of (e : option failure) : severity :=
  match e with None => Fine | Some e => if narrows e then Narrows else Fails end.

Lemma severity_worse a b : severity_of (worse a b) = worst (severity_of a) (severity_of b).
Proof. unfold worse. destruct a as [a|], b as [b|]; cbn; try destruct (narrows a) eqn:Ea; try destruct (narrows b) eqn:Eb; cbn; rewrite ?Ea, ?Eb; done. Qed.

Definition worst_of (l : list severity) : severity := fold_left worst l Fine.

Lemma severity_fold l e : severity_of (fold_left worse l e) = fold_left worst (map severity_of l) (severity_of e).
Proof. revert e. induction l as [|a l IH]; intros e; cbn; [done|]. by rewrite IH, severity_worse. Qed.

Lemma worst_of_Fine l : worst_of l = Fine <-> Forall (eq Fine) l.
Proof.
  unfold worst_of. assert (forall a, fold_left worst l a = Fine <-> a = Fine /\ Forall (eq Fine) l) as H; [|rewrite H; tauto].
  induction l as [|b l IH]; intros a; cbn; [split; [intros E; split; [exact E|constructor]|by intros [? _]]|]. rewrite IH, Forall_cons. destruct a, b; cbn; (split; [intros [E H]|intros (E & E' & H)]); done.
Qed.

Lemma worst_of_Fails l : worst_of l = Fails <-> Fails ∈ l.
Proof.
  unfold worst_of. assert (forall a, fold_left worst l a = Fails <-> a = Fails \/ Fails ∈ l) as H; [|rewrite H; naive_solver].
  induction l as [|b l IH]; intros a; cbn; [split; [by left|by intros [?|?%elem_of_nil]]|].
  rewrite IH, elem_of_cons. destruct a, b; cbn; naive_solver.
Qed.

(** ** Induction on filters *)

Section Induction.
Context {A : Type} (P : filter_ A -> Prop).
Hypothesis step : forall t c o v,
  (forall l, v = VFilters l -> Forall P l) -> (forall m l n, v = VSubquery m l n -> Forall P l) -> P (NewFilter_ t c o v).

Fixpoint filter_induction (f : filter_ A) : P f.
Proof.
  destruct f as [t c o v]. apply step.
  - intros l E. destruct v as [| | | | |l'|]; try discriminate. injection E as <-.
    induction l' as [|g l' IH]; constructor; [apply filter_induction|exact IH].
  - intros m l n E. destruct v as [| | | | | |m' l' n']; try discriminate. injection E as <- <- <-.
    induction l' as [|g l' IH]; constructor; [apply filter_induction|exact IH].
Defined.
End Induction.

(** ** The database *)

Section Semantics.
Context {A C row : Type}.
Abbreviation filter_t := (filter_ A).
Abbreviation val := (value A filter_t).

(** What a row holds in a column, the rows a read of a model may answer, the
    values of SQL and its predicates on them. *)
Record database : Type := mkDatabase {
  cell : row -> string -> C;
  rows : Table_ -> list row;
  bound : val -> C;
  strftime : C -> C; as_text : C -> C; to_string : C -> C;
  compares : string -> C -> C -> truth;
  member : C -> val -> truth;
  like : string -> string -> C -> truth;
  matches_regexp : string -> string -> C -> truth;
  contains_json : string -> C -> truth;
  is_null : C -> bool }.
Variable db : database.

(** The tables read around a condition, the nearest first, under their
    names. *)
Abbreviation frame := (string * (Table_ * row))%type.

Definition names_of (t : Table_) : gset string := names_where (fun _ => true) (default [] (Schema t)).

Fixpoint resolve (env : list frame) (q c : string) : option C :=
  match env with
  | [] => None
  | (name, (t, r)) :: env =>
      if (q =? "")%string then if bool_decide (c ∈ names_of t) then Some (cell db r c) else resolve env q c
      else if (name =? q)%string then if bool_decide (c ∈ names_of t) then Some (cell db r c) else None
      else resolve env q c
  end.

Fixpoint side (env : list frame) (v : C) (o : operand) : option C :=
  match o with
  | Col q c => resolve env q c
  | Bind => Some v
  | Strftime o => strftime db <$> side env v o
  | CastText o => as_text db <$> side env v o
  | ToString o => to_string db <$> side env v o
  end.

(** gorm reads a group of one alternative as a connector. *)
Definition connector (e : condition A) : bool := match e with COr [_] => true | _ => false end.

Class Evaluates (holds : list frame -> condition A -> truth) : Prop := {
  holds_false env : holds env CFalse = Some false;
  holds_compare env l op r v a b :
    side env (bound db v) l = Some a -> side env (bound db v) r = Some b -> holds env (CCompare l op r v) = compares db op a b;
  holds_in env o n v a : side env (bound db v) o = Some a -> holds env (CIn o n v) = flip n (member db a v);
  holds_like env o n suffix p a : side env (bound db (VDatum (DString p))) o = Some a -> holds env (CLike o n suffix p) = flip n (like db suffix p a);
  holds_null env o n a : side env (bound db (VDatum DNil)) o = Some a -> holds env (CNull o n) = Some (xorb n (is_null db a));
  holds_regexp env o n operator e a :
    side env (bound db (VDatum (DString e))) o = Some a -> holds env (CRegex o n operator e) = flip n (matches_regexp db operator e a);
  holds_contains env o s a : side env (bound db (VDatum (DString s))) o = Some a -> holds env (CContains o s) = contains_json db s a;
  holds_equal env l r a b :
    side env (bound db (VDatum DNil)) l = Some a -> side env (bound db (VDatum DNil)) r = Some b -> holds env (CEqual l r) = compares db " = " a b;
  holds_or env l : (1 < length l)%nat -> holds env (COr l) = any_of (map (holds env) l);
  holds_and env l : Forall (fun e => connector e = false) l -> holds env (CAnd l) = all_of (map (holds env) l);
  holds_exists env n t alias w :
    holds env (CExists n t alias w) =
    flip n (Some (existsb (fun r => true_ (holds ((default (TableName t) alias, (t, r)) :: env) w)) (rows db t))) }.

(** ** What a filter means *)

Variables (day_string : string -> string) (day_time : Z -> Z) (d : dialect) (model : Table_).

Definition info_of (t : Table_) : tableInfo := tableInfoOf (default [] (Schema t)).

Definition by_operator (f : filter_t) : severity :=
  match ParseFilterOp (spelling (Op f)) with Some _ => Narrows | None => Fails end.

Definition is_string (v : val) : bool := match v with VDatum (DString _) => true | _ => false end.

(** Whether the value of a filter is of the shape its operator takes, on a
    column of [t], the queries around reading the tables of [around]. *)
Definition shape_ok (t : Table_) (around : list Table_) (f : filter_t) : bool :=
  let json := bool_decide (Column_ f ∈ jsonColumns (info_of t)) in
  match Op f with
  | Exposed (OpEq | OpNe | OpGt | OpGte | OpLt | OpLte) =>
      match Value_ f with
      | VDatum DNil => false
      | v => negb (is_slice v) || (negb json && binds_itself v)
      end
  | Exposed (OpIn | OpNotIn) => is_slice (Value_ f)
  | Exposed (OpLike | OpNotLike | OpStartsWith | OpEndsWith) | Regex | NotRegex => is_string (Value_ f)
  | Exposed OpIsNull => match Value_ f with VDatum (DBool _) => true | _ => false end
  | JSONContains => negb (bool_decide (d = ClickHouse)) && json && is_string (Value_ f)
  | EqCol =>
      match around, eqColParent (Value_ f) with
      | p :: _, Some (other, table) =>
          negb (other =? "")%string && bool_decide (Schema p <> None) && bool_decide (other ∈ names_of p) &&
          ((table =? "")%string || (table =? TableName p)%string)
      | _, _ => false
      end
  | _ => false
  end.

Definition own_table (t : Table_) (f : filter_t) : bool :=
  (FTable f =? "")%string || (TableName t =? "")%string || (FTable f =? TableName t)%string.

(** The grade of a filter that names a column; the outermost query leaves
    the names of its columns to its caller. *)
Definition column_grade (t : Table_) (around : list Table_) (f : filter_t) : severity :=
  if (Column_ f =? "")%string then by_operator f
  else if negb (own_table t f) then Fails
  else if bool_decide (around <> []) && negb (bool_decide (Column_ f ∈ names_of t)) then by_operator f
  else if shape_ok t around f then Fine else by_operator f.

Fixpoint grade (t : Table_) (around : list Table_) (f : filter_t) : severity :=
  match Op f with
  | Or | And => match f with NewFilter_ _ _ _ (VFilters ((_ :: _) as l)) => worst_of (map (grade t around) l) | _ => Fails end
  | Exists =>
      match f with
      | NewFilter_ _ _ _ (VSubquery (Some m) l _) =>
          if negb (bool_decide (d = ClickHouse)) && hasCorrelation l && negb (TableName t =? "")%string &&
             negb (TableName m =? "")%string && bool_decide (Schema m <> None)
          then worst_of (map (grade m (t :: around)) l) else Fails
      | _ => Fails
      end
  | Never => Fine
  | _ => column_grade t around f
  end.

Definition bind_day (t : Table_) (f : filter_t) : val :=
  if bool_decide (Column_ f ∈ dateColumns (info_of t)) then
    match Value_ f with
    | VDatum x => VDatum (dayValue day_string day_time x)
    | VMany l => VMany (map (dayValue day_string day_time) l)
    | v => v
    end
  else Value_ f.

(** The sides of a comparison on a column of [t] in their comparable form. *)
Definition comparable (t : Table_) (f : filter_t) (x : C) : C :=
  if bool_decide (Column_ f ∈ timeColumns (info_of t)) && bool_decide (d = SQLite) then strftime db x else x.

Definition text_form (t : Table_) (f : filter_t) (x : C) : C :=
  if bool_decide (Column_ f ∈ jsonColumns (info_of t)) || bool_decide (Column_ f ∈ numericColumns (info_of t)) then
    match d with Postgres => as_text db x | ClickHouse => to_string db x | _ => x end
  else x.

Definition string_in (v : val) : string := match v with VDatum (DString s) => s | _ => "" end.

(** The truth of a filter on [x], the value of its column, [outer] reading a
    column of the row around. *)
Definition leaf (t : Table_) (f : filter_t) (x : C) (outer : string -> option C) : truth :=
  let compare op := compares db op (comparable t f x) (comparable t f (bound db (bind_day t f))) in
  let escaped := escapeLikePattern d (string_in (Value_ f)) in
  let pattern p := like db (likeEscapeSuffix d) p (text_form t f x) in
  match Op f with
  | Exposed OpEq => compare " = " | Exposed OpNe => compare " <> "
  | Exposed OpGt => compare " > " | Exposed OpGte => compare " >= "
  | Exposed OpLt => compare " < " | Exposed OpLte => compare " <= "
  | Exposed OpIn => member db x (bind_day t f)
  | Exposed OpNotIn => flip true (member db x (bind_day t f))
  | Exposed OpLike => pattern ("%" +:+ escaped +:+ "%")
  | Exposed OpNotLike => flip true (pattern ("%" +:+ escaped +:+ "%"))
  | Exposed OpStartsWith => pattern ("" +:+ escaped +:+ "%")
  | Exposed OpEndsWith => pattern ("%" +:+ escaped +:+ "")
  | Exposed OpIsNull => match Value_ f with VDatum (DBool b) => Some (xorb (negb b) (is_null db x)) | _ => Some false end
  | Regex => matches_regexp db (regexpOperator d) (string_in (Value_ f)) (text_form t f x)
  | NotRegex => flip true (matches_regexp db (regexpOperator d) (string_in (Value_ f)) (text_form t f x))
  | JSONContains => contains_json db (string_in (Value_ f)) x
  | EqCol =>
      match eqColParent (Value_ f) with
      | Some (other, _) => match outer other with Some y => compares db " = " x y | None => Some false end
      | None => Some false
      end
  | _ => Some false
  end.

(** [here] is the row a filter is about, [around] the rows of the queries
    around it. *)
Fixpoint meaning (here : Table_ * row) (around : list (Table_ * row)) (f : filter_t) : truth :=
  match Op f with
  | Or => match f with NewFilter_ _ _ _ (VFilters ((_ :: _) as l)) => any_of (map (meaning here around) l) | _ => Some false end
  | And => match f with NewFilter_ _ _ _ (VFilters ((_ :: _) as l)) => all_of (map (meaning here around) l) | _ => Some false end
  | Exists =>
      match f with
      | NewFilter_ _ _ _ (VSubquery (Some m) l negate) =>
          if bool_decide (grade here.1 (map fst around) f = Fine) then
            flip negate (Some (existsb (fun r => true_ (all_of (map (meaning (m, r) (here :: around)) l))) (rows db m)))
          else Some false
      | _ => Some false
      end
  | Never => Some false
  | _ =>
      if bool_decide (column_grade here.1 (map fst around) f = Fine) then
        leaf here.1 f (cell db here.2 (Column_ f)) (fun other => p ← head around; Some (cell db p.2 other))
      else Some false
  end.

(** ** The scopes of nested queries *)

Fixpoint scope_of (t : Table_) (around : list Table_) : filterScope :=
  match around with
  | [] => outerScope t
  | p :: around => inner_scope model t (default [] (Schema t)) (scope_of p around)
  end.

(** The name a query reads its table by. *)
Definition ref (t : Table_) (around : list Table_) : string := parent (scope_of t around).

(** The queries around one are those of the chain: its model outermost, and
    between them the tables subqueries may read. *)
Fixpoint legit (t : Table_) (around : list Table_) : Prop :=
  match around with
  | [] => t = model
  | p :: around => Schema t <> None /\ TableName t <> ""%string /\ ref p around <> ""%string /\ legit p around
  end.

Fixpoint frames (here : Table_ * row) (around : list (Table_ * row)) : list frame :=
  (ref here.1 (map fst around), here) :: match around with [] => [] | p :: around => frames p around end.

Lemma app_proper s c t : s <> s +:+ String c t.
Proof. induction s as [|a s IH]; [done|]. intros E. injection E as E. exact (IH E). Qed.

Lemma alias_differs child s : default child (alias_of child s) <> parent s.
Proof.
  unfold alias_of. destruct (String.eqb_spec child (parent s)) as [<-|]; [|done]. cbn.
  intros E. symmetry in E. exact (app_proper _ _ _ E).
Qed.

Lemma alias_nonempty child s : child <> ""%string -> default child (alias_of child s) <> ""%string.
Proof. intros H. unfold alias_of. destruct (_ =? _)%string; cbn; [|done]. by destruct child. Qed.

Lemma ref_inner t p around : ref t (p :: around) = default (TableName t) (alias_of (TableName t) (scope_of p around)).
Proof. done. Qed.

Lemma ref_differs t p around : ref t (p :: around) <> ref p around.
Proof. rewrite ref_inner. apply alias_differs. Qed.

Lemma ref_nonempty t around : TableName t <> ""%string -> ref t around <> ""%string.
Proof. destruct around as [|p around]; [done|]. rewrite ref_inner. apply alias_nonempty. Qed.

Lemma scope_table t around : table_ (scope_of t around) = TableName t.
Proof. by destruct around. Qed.

Lemma scope_plain t around : tables (scope_of t around) = None /\ derived (scope_of t around) = false /\ rename (info (scope_of t around)) = None.
Proof. by destruct around. Qed.

Lemma scope_sets t around :
  timeColumns (info (scope_of t around)) = timeColumns (info_of t) /\ dateColumns (info (scope_of t around)) = dateColumns (info_of t) /\
  jsonColumns (info (scope_of t around)) = jsonColumns (info_of t) /\ numericColumns (info (scope_of t around)) = numericColumns (info_of t).
Proof. by destruct around. Qed.

Lemma scope_columns t around : columns (info (scope_of t around)) = match around with [] => None | _ => Some (names_of t) end.
Proof. by destruct around. Qed.

Lemma scope_qualify t around : qualify (info (scope_of t around)) = match around with [] => ""%string | _ => ref t around end.
Proof. by destruct around. Qed.

Lemma scope_outer t around : outer (scope_of t around) = match around with [] => ""%string | p :: around => ref p around end.
Proof. by destruct around. Qed.

Lemma scope_outerColumns t p around : legit p around ->
  outerColumns (scope_of t (p :: around)) = names_where (fun _ => true) <$> Schema p /\ outerTable (scope_of t (p :: around)) = TableName p.
Proof.
  intros H. cbn [scope_of inner_scope outerColumns outerTable]. rewrite scope_columns, scope_table. split; [|done].
  destruct around as [|q around]; [by rewrite H|]. destruct H as [H _]. unfold names_of. by destruct (Schema p).
Qed.

Lemma resolve_own t r around c : c ∈ names_of t -> (around = [] \/ TableName t <> ""%string) ->
  resolve (frames (t, r) around) (qualify (info (scope_of t (map fst around)))) c = Some (cell db r c).
Proof.
  intros Hc Ht. rewrite scope_qualify. destruct around as [|p around]; cbn [frames map resolve fst].
  - by rewrite bool_decide_eq_true_2.
  - destruct Ht as [|Ht]; [done|]. pose proof (ref_nonempty t (map fst (p :: around)) Ht) as Hr. cbn [map] in Hr.
    rewrite (proj2 (String.eqb_neq _ "") Hr), String.eqb_refl. by rewrite bool_decide_eq_true_2.
Qed.

Lemma resolve_outer t r p around c : legit t (map fst (p :: around)) -> c ∈ names_of p.1 ->
  resolve (frames (t, r) (p :: around)) (ref p.1 (map fst around)) c = Some (cell db p.2 c).
Proof.
  destruct p as [p r']. cbn [frames map resolve fst snd]. intros (_ & _ & Hp & _) Hc.
  rewrite (proj2 (String.eqb_neq _ "") Hp). pose proof (ref_differs t p (map fst around)) as Hd.
  rewrite (proj2 (String.eqb_neq _ _) Hd).
  destruct around as [|q around]; cbn [frames map resolve fst] in *;
    by rewrite String.eqb_refl, (proj2 (String.eqb_neq _ "") Hp), bool_decide_eq_true_2.
Qed.

(** ** Filters that name a column *)

Section Leaves.
Context (holds : list frame -> condition A -> truth) `{!Evaluates holds}.

Local Arguments ParseFilterOp : simpl never.
Local Arguments failClosedFilter : simpl never.

Local Abbreviation columnFilter := (columnFilter day_string day_time d).
Local Abbreviation scalarFilter := (scalarFilter day_string day_time).
Local Abbreviation listFilter := (listFilter day_string day_time).

(** A filter renders as [good] when it is usable, and otherwise closes. *)
Definition renders (f : filter_t) (usable : bool) (good : condition A) (r : condition A * option failure) : Prop :=
  if usable then r = (good, None) else r.1 = CFalse /\ severity_of r.2 = by_operator f.

Local Arguments renders : simpl never.

Lemma closed_renders f good why : column_table (Unusable (Op f) why) = false -> renders f false good (failClosedFilter f why).
Proof.
  intros H. split; [done|]. change (severity_of (Some (Unusable (Op f) why)) = by_operator f).
  unfold severity_of, narrows, by_operator. rewrite H. by destruct (ParseFilterOp _).
Qed.

Lemma closed_service f good why : ParseFilterOp (spelling (Op f)) = None -> renders f false good (failClosedFilter f why).
Proof.
  intros H. split; [done|]. change (severity_of (Some (Unusable (Op f) why)) = by_operator f).
  unfold severity_of, narrows, by_operator. rewrite H. by rewrite andb_false_r.
Qed.

Lemma scalar_renders t around f sql :
  let usable := match Value_ f with VDatum DNil => false | v => negb (is_slice v) || (negb (bool_decide (Column_ f ∈ jsonColumns (info_of t))) && binds_itself v) end in
  renders f usable (sql (bind_day t f)) (scalarFilter f (info (scope_of t around)) sql).
Proof.
  destruct (scope_sets t around) as (_ & Ed & Ej & _). unfold Predicate.scalarFilter, bind_day. rewrite Ed, Ej.
  destruct (Value_ f) as [[]| | | | | |] eqn:Ev; cbn [is_slice binds_itself negb andb orb];
    repeat case_bool_decide; cbn [negb andb orb]; try done; by apply closed_renders.
Qed.

Lemma list_renders t around f sql :
  renders f (is_slice (Value_ f)) (sql (bind_day t f)) (listFilter f (info (scope_of t around)) sql).
Proof.
  destruct (scope_sets t around) as (_ & Ed & _). unfold Predicate.listFilter, bind_day. rewrite Ed.
  destruct (Value_ f) as [[]| | | | | |] eqn:Ev; cbn [is_slice negb]; try (by case_bool_decide); by apply closed_renders.
Qed.

Lemma pattern_renders f sql prefix suffix :
  renders f (is_string (Value_ f)) (sql (prefix +:+ escapeLikePattern d (string_in (Value_ f)) +:+ suffix)) (patternFilter d f sql prefix suffix).
Proof. unfold patternFilter. destruct (Value_ f) as [[]| | | | | |]; cbn; try done; by apply closed_renders. Qed.

Lemma string_renders f sql : renders f (is_string (Value_ f)) (sql (string_in (Value_ f))) (stringFilter f sql).
Proof. unfold stringFilter. destruct (Value_ f) as [[]| | | | | |]; cbn; try done; by apply closed_renders. Qed.

(** The column of a correlation, and the other one. *)
Lemma eqcol_renders t around f column : legit t around -> Op f = EqCol ->
  renders f (shape_ok t around f)
    (CEqual column (Col (outer (scope_of t around)) match eqColParent (Value_ f) with Some (other, _) => other | None => ""%string end))
    (eqColCondition f column (scope_of t around)).
Proof.
  intros Hl Ho. unfold eqColCondition, shape_ok. rewrite Ho.
  assert (ParseFilterOp (spelling (Op f)) = None) as Hp by (rewrite Ho; reflexivity).
  destruct (scope_plain t around) as (-> & _ & _). rewrite (bool_decide_eq_false_2 (None <> None)) by tauto. cbn [andb].
  destruct (eqColParent (Value_ f)) as [[other table]|]; [|destruct around; by apply closed_service].
  destruct (other =? "")%string; [destruct around; by apply closed_service|]. cbn [negb andb].
  destruct around as [|p around]; [by apply closed_service|]. rewrite scope_outer.
  destruct Hl as (_ & _ & Hr & Hl). rewrite (proj2 (String.eqb_neq _ "") Hr).
  destruct (scope_outerColumns t p around Hl) as [-> ->]. unfold names_of.
  destruct (Schema p) as [l|]; cbn [fmap option_fmap option_map default from_option]; [|by apply closed_service].
  rewrite (bool_decide_eq_true_2 (Some l <> None)) by done. cbn [andb].
  rewrite <- negb_orb. destruct (_ || _); cbn [negb]; [|rewrite andb_false_r; by apply closed_service].
  rewrite andb_true_r. change (Datatypes.id l) with l. destruct (bool_decide _); [done|by apply closed_service].
Qed.

(** The column of a filter, read in its own row. *)
Section Placed.
Variables (t : Table_) (r : row) (around : list (Table_ * row)) (f : filter_t).
Local Abbreviation s := (scope_of t (map fst around)).
Local Abbreviation env := (frames (t, r) around).
Local Abbreviation x := (cell db r (Column_ f)).
Local Abbreviation column := (scopedColumn (Column_ f) s).
Hypotheses (Hl : legit t (map fst around)) (Hin : Column_ f ∈ names_of t).

Lemma side_column v : side env v column = Some x.
Proof.
  unfold scopedColumn, read_as. destruct (scope_plain t (map fst around)) as (_ & _ & ->). cbn.
  apply resolve_own; [done|]. destruct around as [|p l]; [by left|right; by destruct Hl as (_ & ? & _)].
Qed.

Lemma side_comparable o y v : side env v o = Some y ->
  side env v (if bool_decide (Column_ f ∈ timeColumns (info s)) then timeComparableExpr d o else o) = Some (comparable t f y).
Proof.
  intros H. destruct (scope_sets t (map fst around)) as (-> & _). unfold comparable, timeComparableExpr.
  case_bool_decide; cbn [andb]; [|done]. case_bool_decide; cbn [side]; by rewrite H.
Qed.

Lemma side_pattern v : side env v (patternColumn d (info s) (Column_ f) column) = Some (text_form t f x).
Proof.
  destruct (scope_sets t (map fst around)) as (_ & _ & Ej & En). unfold patternColumn, text_form, textPatternColumn. rewrite Ej, En.
  pose proof (side_column v) as H. destruct (_ || _); cbn [negb]; [|done]. destruct d; cbn [side]; by rewrite H.
Qed.

Lemma holds_comparison op v : holds env (comparisonSQL d (info s) (Column_ f) column op v) = compares db op (comparable t f x) (comparable t f (bound db v)).
Proof.
  pose proof (side_comparable column x (bound db v) (side_column _)) as H1.
  pose proof (side_comparable Bind (bound db v) (bound db v) eq_refl) as H2.
  unfold comparisonSQL. destruct (bool_decide _); by apply holds_compare.
Qed.

Lemma holds_correlation other p l : around = p :: l -> other ∈ names_of p.1 ->
  holds env (CEqual column (Col (outer s) other)) = compares db " = " x (cell db p.2 other).
Proof.
  intros E Ho. apply holds_equal; [apply side_column|]. cbn [side]. rewrite scope_outer. subst around.
  by apply (resolve_outer t r p l other).
Qed.
End Placed.

Lemma placedName_own t around f : own_table t f = true ->
  placedName f (scope_of t around) (info (scope_of t around)) = scopedColumn (Column_ f) (scope_of t around).
Proof.
  unfold own_table, placedName, scopedColumn, elsewhere. rewrite scope_table. intros H.
  rewrite <- !negb_orb, H. by rewrite andb_false_r.
Qed.

(** What a filter on a column renders as. *)
Lemma columnFilter_renders t around f : legit t around ->
  exists good, connector good = false /\
    renders f (shape_ok t around f) good (columnFilter f (scope_of t around) (scopedColumn (Column_ f) (scope_of t around)) (info (scope_of t around))) /\
    (shape_ok t around f = true -> own_table t f = true -> Column_ f ∈ names_of t -> forall r rs, map fst rs = around ->
     holds (frames (t, r) rs) good = leaf t f (cell db r (Column_ f)) (fun other => p ← head rs; Some (cell db p.2 other))).
Proof.
  intros Hl. set (s := scope_of t around). set (column := scopedColumn (Column_ f) s).
  unfold Predicate.columnFilter.
  destruct (Op f) as [[]| | | | | | | | |text] eqn:Ho.
  1-6: (exists (comparisonSQL d (info s) (Column_ f) column (match Op f with
      | Exposed OpEq => " = " | Exposed OpNe => " <> " | Exposed OpGt => " > " | Exposed OpGte => " >= " | Exposed OpLt => " < " | _ => " <= " end)
      (bind_day t f)); rewrite Ho; split; [unfold comparisonSQL; by destruct (bool_decide _)|];
    split; [unfold shape_ok; rewrite Ho; apply scalar_renders|];
    intros _ _ Hin r rs <-; rewrite (holds_comparison t r rs f Hl Hin); unfold leaf; by rewrite Ho).
  1-2: (exists (CIn column (match Op f with Exposed OpIn => false | _ => true end) (bind_day t f)); rewrite Ho; split; [done|];
    split; [unfold shape_ok; rewrite Ho; apply list_renders|];
    intros _ _ Hin r rs <-; rewrite (holds_in _ _ _ _ _ (side_column t r rs f Hl Hin _)); unfold leaf; rewrite Ho; by destruct (member _ _ _)).
  1-4: (eexists (CLike (patternColumn d (info s) (Column_ f) column) (match Op f with Exposed OpNotLike => true | _ => false end) (likeEscapeSuffix d) _);
    rewrite Ho; split; [done|]; split; [unfold shape_ok; rewrite Ho; apply pattern_renders|];
    intros _ _ Hin r rs <-; rewrite (holds_like _ _ _ _ _ _ (side_pattern t r rs f Hl Hin _)); unfold leaf; rewrite Ho; by destruct (like _ _ _ _)).
  1: { exists (CNull column match Value_ f with VDatum (DBool b) => negb b | _ => false end). split; [done|]. split.
    - unfold shape_ok. rewrite Ho. destruct (Value_ f) as [[]| | | | | |]; try (by apply closed_renders); done.
    - unfold shape_ok. rewrite Ho. intros Hs _ Hin r rs <-. rewrite (holds_null _ _ _ _ (side_column t r rs f Hl Hin _)). unfold leaf. rewrite Ho.
      by destruct (Value_ f) as [[]| | | | | |]. }
  1-2: (eexists (CRegex (patternColumn d (info s) (Column_ f) column) (match Op f with NotRegex => true | _ => false end) (regexpOperator d) _);
    rewrite Ho; split; [done|]; split; [unfold shape_ok; rewrite Ho; apply string_renders|];
    intros _ _ Hin r rs <-; rewrite (holds_regexp _ _ _ _ _ _ (side_pattern t r rs f Hl Hin _)); unfold leaf; rewrite Ho; by destruct (matches_regexp _ _ _ _)).
  1: { exists (CContains (placedName f s (info s)) (string_in (Value_ f))). split; [done|]. split.
    - unfold shape_ok. rewrite Ho. destruct (scope_sets t around) as (_ & _ & Ej & _). fold s in Ej. rewrite Ej.
      case_bool_decide; cbn [negb andb]; [split; [done|]; unfold by_operator; by rewrite Ho|].
      case_bool_decide; cbn [negb andb]; [apply string_renders|by apply closed_renders].
    - intros _ Hown Hin r rs <-. unfold leaf. rewrite Ho. apply holds_contains. unfold s. rewrite placedName_own by done. by apply side_column. }
  4: { eexists (CEqual column (Col (outer s) _)). split; [done|]. split; [by apply eqcol_renders|].
    unfold shape_ok, leaf. rewrite Ho. intros Hs _ Hin r rs <-. destruct rs as [|p l]; cbn [map] in Hs; [done|].
    destruct (eqColParent (Value_ f)) as [[other table]|]; [|done].
    rewrite !andb_true_iff, !bool_decide_eq_true in Hs. destruct Hs as [[_ Ho'] _].
    by apply (holds_correlation t r (p :: l) f Hl Hin other p l). }
  all: exists CFalse; (split; [done|]); (split; [unfold shape_ok; rewrite Ho; by apply closed_renders|]); unfold shape_ok; by rewrite Ho.
Qed.

Lemma own_table_elsewhere t around f : elsewhere f (scope_of t around) = negb (own_table t f).
Proof. unfold own_table, elsewhere. by rewrite scope_table, !negb_orb. Qed.

Lemma placedFilter_ok t around f : legit t around ->
  let r := placedFilter day_string day_time d f (scope_of t around) in
  connector r.1 = false /\ severity_of r.2 = column_grade t around f /\
  ((around = [] -> Column_ f = ""%string \/ Column_ f ∈ names_of t) -> forall x rs, map fst rs = around ->
   holds (frames (t, x) rs) r.1 =
   if bool_decide (column_grade t around f = Fine)
   then leaf t f (cell db x (Column_ f)) (fun other => p ← head rs; Some (cell db p.2 other)) else Some false).
Proof.
  intros Hl. unfold placedFilter, placeFilter, column_grade. destruct (String.eqb_spec (Column_ f) "") as [Hc|Hc].
  { destruct (closed_renders f CFalse EmptyColumn eq_refl) as [-> ->]. split; [done|]. split; [done|]. intros _ x rs _.
    rewrite bool_decide_eq_false_2; [apply holds_false|]. unfold by_operator. by destruct (ParseFilterOp _). }
  rewrite own_table_elsewhere. destruct (scope_plain t around) as (-> & -> & _). destruct (own_table t f) eqn:Hown; cbn [negb mbind option_bind].
  2: { split; [done|]. split; [done|]. intros _ x rs _. rewrite bool_decide_eq_false_2 by done. apply holds_false. }
  assert (bool_decide (columns (info (scope_of t around)) <> None) && negb (has_column (info (scope_of t around)) (Column_ f)) =
          bool_decide (around <> []) && negb (bool_decide (Column_ f ∈ names_of t))) as ->.
  { unfold has_column. rewrite scope_columns. by destruct around. }
  destruct (bool_decide (around <> []) && _) eqn:Hk.
  { destruct (closed_renders f CFalse NoSuchColumn eq_refl) as [_ E]. split; [done|]. split; [exact E|]. intros _ x rs _.
    rewrite bool_decide_eq_false_2; [apply holds_false|]. unfold by_operator. by destruct (ParseFilterOp _). }
  destruct (columnFilter_renders t around f Hl) as (good & Hg & Hr & Hh). unfold renders in Hr.
  destruct (shape_ok t around f).
  - rewrite Hr. split; [done|]. split; [done|]. intros Hn x rs E. rewrite bool_decide_eq_true_2 by done. cbn [fst].
    apply Hh; [done|done| |done]. apply andb_false_iff in Hk as [Hk|Hk].
    + apply bool_decide_eq_false in Hk. destruct around; [by destruct Hn|by destruct Hk].
    + by apply negb_false_iff, bool_decide_eq_true in Hk.
  - destruct Hr as [-> ->]. split; [done|]. split; [done|]. intros _ x rs _.
    rewrite bool_decide_eq_false_2; [apply holds_false|]. unfold by_operator. by destruct (ParseFilterOp _).
Qed.

(** ** Groups, subqueries and lists *)

Lemma combine_ok (rs : list (condition A * option failure)) alternatives : rs <> [] -> Forall (fun r : condition A * option failure => connector r.1 = false) rs ->
  exists e, (combine (A := A) rs alternatives).1 = Some e /\ connector e = false /\
    severity_of (combine rs alternatives).2 = worst_of (map (fun r : condition A * option failure => severity_of r.2) rs) /\
    forall env, holds env e = (if alternatives then any_of else all_of) (map (fun r : condition A * option failure => holds env r.1) rs).
Proof.
  intros Hne Hc. unfold combine. destruct rs as [|r rs]; [done|]. clear Hne. set (l := r :: rs) in *.
  assert (severity_of (fold_left worse (map snd l) None) = worst_of (map (fun r : condition A * option failure => severity_of r.2) l)) as Hs
    by (rewrite severity_fold, map_map; done).
  assert (Forall (fun e => connector e = false) (map fst l)) as Hc' by (apply Forall_map; done).
  destruct alternatives.
  - cbn [fst snd]. destruct rs as [|r' rs].
    + exists r.1. split; [done|]. split; [by apply Forall_cons in Hc' as [? _]|]. split; [done|].
      intros env. cbn [l map]. by rewrite any_of_one.
    + exists (COr (map fst l)). split; [done|]. split; [done|]. split; [done|]. intros env.
      rewrite holds_or by (cbn; lia). by rewrite map_map.
  - exists (CAnd (map fst l)). split; [done|]. split; [done|]. split; [done|]. intros env.
    rewrite holds_and by done. by rewrite map_map.
Qed.

Lemma ref_empty t around : legit t around -> (ref t around =? "")%string = (TableName t =? "")%string.
Proof.
  intros Hl. destruct around as [|p around]; [done|]. destruct Hl as (_ & Ht & _).
  pose proof (ref_nonempty t (p :: around) Ht) as Hr. apply String.eqb_neq in Ht, Hr. by rewrite Ht, Hr.
Qed.

(** The columns a chain's own filters name are its model's. *)
Fixpoint columns_known (f : filter_t) : bool :=
  match Op f with
  | Or | And => match f with NewFilter_ _ _ _ (VFilters l) => forallb columns_known l | _ => true end
  | Exists | Never => true
  | _ => (Column_ f =? "")%string || bool_decide (Column_ f ∈ names_of model)
  end.

Local Abbreviation renderFilter := (renderFilter day_string day_time d model).

(** A filter renders as its meaning, in every query it may sit in. *)
Definition rendered_right (f : filter_t) : Prop :=
  forall t around, legit t around -> (around = [] -> columns_known f = true) ->
  let r := renderFilter (scope_of t around) f in
  connector r.1 = false /\ severity_of r.2 = grade t around f /\
  forall x rs, map fst rs = around -> holds (frames (t, x) rs) r.1 = meaning (t, x) rs f.

(** The filters of a list, rendered. *)
Lemma rendered_list l t around alternatives : l <> [] -> Forall rendered_right l -> legit t around ->
  (around = [] -> forallb columns_known l = true) ->
  exists e, (combine (map (renderFilter (scope_of t around)) l) alternatives).1 = Some e /\ connector e = false /\
    severity_of (combine (map (renderFilter (scope_of t around)) l) alternatives).2 = worst_of (map (grade t around) l) /\
    forall x rs, map fst rs = around ->
      holds (frames (t, x) rs) e = (if alternatives then any_of else all_of) (map (meaning (t, x) rs) l).
Proof.
  intros Hne Hall Hl Hk. rewrite Forall_forall in Hall.
  assert (forall f, f ∈ l -> around = [] -> columns_known f = true) as Hk'.
  { intros f Hf E. specialize (Hk E). rewrite forallb_forall in Hk. apply Hk. by apply list_elem_of_In. }
  destruct (combine_ok (map (renderFilter (scope_of t around)) l) alternatives) as (e & He & Hc & Hs & Hh).
  - by destruct l.
  - apply Forall_map, Forall_forall. intros f Hf. by apply (Hall f Hf t around Hl (Hk' f Hf)).
  - exists e. split; [done|]. split; [done|]. split.
    + rewrite Hs, map_map. f_equal. apply map_ext_in. intros f Hf%list_elem_of_In. by apply (Hall f Hf t around Hl (Hk' f Hf)).
    + intros x rs E. rewrite Hh, map_map. f_equal. apply map_ext_in. intros f Hf%list_elem_of_In.
      by apply (Hall f Hf t around Hl (Hk' f Hf)).
Qed.

Lemma group_right tb c (v : val) (alternatives : bool) :
  (forall l, v = VFilters l -> Forall rendered_right l) ->
  rendered_right (NewFilter_ tb c (if alternatives then Or else And) v).
Proof.
  intros Hv t around Hl Hk.
  assert (renderFilter (scope_of t around) (NewFilter_ tb c (if alternatives then Or else And) v) =
    groupCondition (NewFilter_ tb c (if alternatives then Or else And) v) (renderFilter (scope_of t around)) alternatives) as ->
    by by destruct alternatives.
  assert (match v with VFilters (_ :: _) => True | _ => False end \/ match v with VFilters (_ :: _) => False | _ => True end) as [Hg|Hg]
    by (destruct v as [| | | | |[]|]; auto).
  - destruct v as [| | | | |l|]; try done. destruct l as [|f l]; [done|]. unfold groupCondition. cbn [Value_].
    destruct (rendered_list (f :: l) t around alternatives) as (e & He & Hc & Hs & Hh); [done|by apply Hv|done| |].
    { intros E. specialize (Hk E). by destruct alternatives. }
    destruct (combine _ _) as [e' fail]. cbn [fst snd] in He, Hs. subst e'. cbv zeta. cbn [fst snd]. split; [done|].
    split; [rewrite Hs; by destruct alternatives|]. intros x rs E. cbn [fst]. rewrite Hh by done. by destruct alternatives.
  - assert (exists why, groupCondition (NewFilter_ tb c (if alternatives then Or else And) v) (renderFilter (scope_of t around)) alternatives
      = failClosedFilter (NewFilter_ tb c (if alternatives then Or else And) v) why /\
      column_table (Unusable (if alternatives then Or else And) why) = false) as (why & -> & Hw).
    { unfold groupCondition. destruct v as [| | | | |[|]|]; try done; cbn; eauto. }
    split; [done|]. destruct (closed_renders (NewFilter_ tb c (if alternatives then Or else And) v) CFalse why Hw) as [E ->].
    split; [|intros x rs _; rewrite E, holds_false]; destruct alternatives; destruct v as [| | | | |[|]|]; done.
Qed.

Lemma exists_right tb c m l negate : Forall rendered_right l ->
  rendered_right (NewFilter_ tb c Exists (VSubquery m l negate)).
Proof.
  intros Hall t around Hl _. set (f := NewFilter_ tb c Exists (VSubquery m l negate)).
  change (renderFilter (scope_of t around) f) with (existsCondition d model f renderFilter (scope_of t around)).
  assert (forall why, renders f false CFalse (failClosedFilter f why)) as Hclosed by (intros; by apply closed_service).
  assert (forall r : condition A * option failure, r.1 = CFalse -> severity_of r.2 = Fails -> grade t around f = Fails ->
    connector r.1 = false /\ severity_of r.2 = grade t around f /\
    forall x rs, map fst rs = around -> holds (frames (t, x) rs) r.1 = meaning (t, x) rs f) as Hfails.
  { intros r E Es Eg. rewrite E, Es, Eg. split; [done|]. split; [done|]. intros x rs Hrs. rewrite holds_false. cbn [meaning f Op fst].
    destruct m; [|done]. rewrite Hrs. fold f. by rewrite Eg, bool_decide_eq_false_2. }
  unfold existsCondition. cbn [Value_ f].
  destruct (bool_decide (d = ClickHouse)) eqn:Hd.
  { apply Hfails; [done..|]. cbn [grade f Op]. destruct m; [|done]. by rewrite Hd. }
  destruct m as [m|]; [|by apply Hfails; [apply (Hclosed NoRelated)..|]].
  assert (grade t around f = if hasCorrelation l && negb (TableName t =? "")%string && negb (TableName m =? "")%string && bool_decide (Schema m <> None)
    then worst_of (map (grade m (t :: around)) l) else Fails) as Eg by (cbn [grade f Op]; by rewrite Hd).
  destruct (hasCorrelation l) eqn:Hco; cbn [negb andb] in *; [|by apply Hfails; [apply (Hclosed NoCorrelation)..|]].
  destruct (scope_plain t around) as (_ & -> & _). change (parent (scope_of t around)) with (ref t around). rewrite ref_empty by done.
  destruct (TableName t =? "")%string eqn:Ht; cbn [negb andb] in *; [by apply Hfails; [apply (Hclosed NoParent)..|]|].
  destruct (TableName m =? "")%string eqn:Hm; cbn [negb andb] in *; [by apply Hfails; [apply (Hclosed NoTableName)..|]|].
  destruct (Schema m) as [cols|] eqn:Hsch; [|by apply Hfails; [apply (Hclosed NoColumns)..|]]. rewrite bool_decide_eq_true_2 in Eg by done.
  assert (legit m (t :: around)) as Hlm.
  { split; [by rewrite Hsch|]. apply String.eqb_neq in Hm. split; [done|]. split; [|done]. apply String.eqb_neq. by rewrite ref_empty. }
  assert (inner_scope model m cols (scope_of t around) = scope_of m (t :: around)) as -> by (cbn [scope_of]; by rewrite Hsch).
  destruct (rendered_list l m (t :: around) false) as (e & He & _ & Hs & Hh); [by destruct l|done|done|done|].
  destruct (combine _ _) as [e' fail]. cbn [fst snd] in He, Hs. subst e'. rewrite <- Hs in Eg. cbn [default].
  destruct fail as [why|].
  - cbn [fst snd]. split; [done|]. split; [done|]. intros x rs Hrs. rewrite holds_false. cbn [meaning f Op fst]. rewrite Hrs. fold f.
    rewrite Eg, bool_decide_eq_false_2; [done|]. cbn. by destruct (narrows why).
  - cbn [fst snd]. split; [done|]. split; [done|]. intros x rs Hrs. rewrite holds_exists. cbn [meaning f Op fst]. rewrite Hrs. fold f.
    rewrite Eg, bool_decide_eq_true_2 by done. f_equal. f_equal. apply existsb_agree. intros y. f_equal.
    subst around. change ((default (TableName m) (alias_of (TableName m) (scope_of t (map fst rs))), (m, y)) :: frames (t, x) rs)
      with (frames (m, y) ((t, x) :: rs)). by rewrite Hh.
Qed.

Lemma rendered_right_all f : rendered_right f.
Proof.
  induction f as [tb c o v Hg Hq] using filter_induction. destruct o as [o| | | | | | | | |o].
  5: by apply (group_right tb c v true).
  5: by apply (group_right tb c v false).
  5: { destruct v as [| | | | | |m l n]; [..|by apply exists_right, (Hq m l n)];
       intros t around Hl _; cbn; (split; [done|]); (split; [done|]); intros; apply holds_false. }
  6: { intros t around Hl _. cbn. split; [done|]. split; [done|]. intros. apply holds_false. }
  all: intros t around Hl Hk; match goal with |- context [renderFilter _ ?f] =>
    destruct (placedFilter_ok t around f Hl) as (H1 & H2 & H3) end.
  all: (split; [exact H1|]); (split; [exact H2|]).
  all: intros x rs E; cbn [meaning Op fst snd]; rewrite E; apply H3; [|done].
  all: intros Ea; specialize (Hk Ea); cbn [columns_known Op] in Hk; apply orb_true_iff in Hk as [Hk%String.eqb_eq|Hk%bool_decide_eq_true]; [by left|right];
    rewrite Ea in Hl; cbn in Hl; by rewrite Hl.
Qed.

Lemma applyFilters_selects filters (Hk : Forall (fun f => columns_known f = true) filters) :
  match applyFilters day_string day_time d model filters with
  | Ok None => filters = []
  | Ok (Some e) =>
      (forall f, f ∈ filters -> grade model [] f <> Fails) /\
      forall r, holds (frames (model, r) []) e = Some true <-> forall f, f ∈ filters -> meaning (model, r) [] f = Some true
  | Err _ => exists f, f ∈ filters /\ (foreignTableFilter (TableName model) "" f <> None \/ grade model [] f = Fails)
  end.
Proof.
  unfold applyFilters. destruct (head (omap _ filters)) as [g|] eqn:Eh.
  { destruct (omap _ filters) as [|g' l] eqn:Eo; [done|]. assert (g' ∈ omap (foreignTableFilter (TableName model) "") filters) as Hin by (rewrite Eo; constructor).
    apply list_elem_of_omap in Hin as (f & Hf & E). exists f. split; [done|]. left. by rewrite E. }
  destruct filters as [|f0 l] eqn:Ef; [done|]. rewrite <- Ef in *. unfold renderFilters.
  destruct (rendered_list filters model [] false) as (e & He & _ & Hs & Hh);
    [by rewrite Ef|apply Forall_forall; intros; apply rendered_right_all|done|intros _; apply forallb_forall; intros f Hf%list_elem_of_In; by apply (proj1 (Forall_forall _ _) Hk)|].
  change (scope_of model []) with (outerScope model) in *. destruct (combine _ _) as [expr fail]. cbn [fst snd] in He, Hs. subst expr.
  assert (worst_of (map (grade model []) filters) <> Fails ->
    (forall f, f ∈ filters -> grade model [] f <> Fails) /\
    forall r, holds (frames (model, r) []) e = Some true <-> forall f, f ∈ filters -> meaning (model, r) [] f = Some true) as Hok.
  { intros Hw. split.
    - intros f Hf E. apply Hw, worst_of_Fails, list_elem_of_fmap. by exists f.
    - intros r. rewrite (Hh r []) by done. rewrite all_of_true, Forall_map, Forall_forall. done. }
  destruct fail as [why|]; cbn [severity_of] in Hs; [|apply Hok; by rewrite <- Hs].
  destruct (narrows why); [apply Hok; by rewrite <- Hs|].
  symmetry in Hs. apply worst_of_Fails, list_elem_of_fmap in Hs as (f & E & Hf). exists f. split; [done|]. by right.
Qed.

(** C24: the condition a list of filters adds to a chain is true of exactly the
    rows of which every filter is true, as it is meant: at every depth a
    column is read in the row of the query it names, also where a subquery
    reads the table of the query around it, groups and subqueries have their
    logical meaning, and a filter that cannot be applied is true of no row,
    negated or not.  The filters fail the chain exactly when one of them
    names another table or carries a mistake that no client can have made. *)
Theorem filters_select_what_they_mean filters (Hk : Forall (fun f => columns_known f = true) filters) :
  match applyFilters day_string day_time d model filters with
  | Ok None => filters = []
  | Ok (Some e) =>
      (forall f, f ∈ filters -> grade model [] f <> Fails) /\
      forall r, holds (frames (model, r) []) e = Some true <-> forall f, f ∈ filters -> meaning (model, r) [] f = Some true
  | Err _ => exists f, f ∈ filters /\ (foreignTableFilter (TableName model) "" f <> None \/ grade model [] f = Fails)
  end.
Proof. exact (applyFilters_selects filters Hk). Qed.
End Leaves.

(** ** An evaluator

    Groups are joined as gorm joins them, but for the connector. *)

Definition read (t : option truth) : truth := default None t.

Fixpoint evaluate (env : list frame) (e : condition A) : truth :=
  match e with
  | CFalse => Some false
  | CCompare l op r v => read (a ← side env (bound db v) l; b ← side env (bound db v) r; Some (compares db op a b))
  | CIn o n v => read (a ← side env (bound db v) o; Some (flip n (member db a v)))
  | CLike o n suffix p => read (a ← side env (bound db (VDatum (DString p))) o; Some (flip n (like db suffix p a)))
  | CNull o n => read (a ← side env (bound db (VDatum DNil)) o; Some (Some (xorb n (is_null db a))))
  | CRegex o n operator e => read (a ← side env (bound db (VDatum (DString e))) o; Some (flip n (matches_regexp db operator e a)))
  | CContains o s => read (a ← side env (bound db (VDatum (DString s))) o; Some (contains_json db s a))
  | CEqual l r => read (a ← side env (bound db (VDatum DNil)) l; b ← side env (bound db (VDatum DNil)) r; Some (compares db " = " a b))
  | COr l => any_of (map (evaluate env) l)
  | CAnd l => all_of (map (evaluate env) l)
  | CExists n t alias w =>
      flip n (Some (existsb (fun r => true_ (evaluate ((default (TableName t) alias, (t, r)) :: env) w)) (rows db t)))
  end.

Lemma evaluate_ok : Evaluates evaluate.
Proof. split; intros; cbn [evaluate]; rewrite ?H, ?H0; done. Qed.
End Semantics.
#[export] Existing Instance evaluate_ok.

(** ** A database of samples *)

Module Samples.
Import Rendered.

(** Rows are associations of columns and texts, compared as MySQL compares
    texts with [=]; a missing column is null. *)
Definition row : Type := list (string * string).
Definition holding (r : row) (c : string) : option string := snd <$> List.find (fun p => (p.1 =? c)%string) r.
Definition equal (_ : string) (a b : option string) : truth := x ← a; y ← b; Some (x =? y)%string.

Definition stored : list row :=
  [[("id", "1"); ("name", "root")]; [("id", "2"); ("parent_id", "1"); ("name", "leaf")]; [("id", "3"); ("name", "lone")]].

Definition mysql : database :=
  mkDatabase (A := Z) (C := option string) (row := row) holding (fun _ => stored)
    (fun v => match v with VDatum (DString s) => Some s | _ => None end)
    (fun x => x) (fun x => x) (fun x => x) equal (fun _ _ => None) (fun _ _ _ => None) (fun _ _ _ => None) (fun _ _ => None)
    (fun x => match x with None => true | Some _ => false end).

(** The samples that have no child named as given: the subquery reads the
    table of the query around it. *)
Definition childless (name : string) : list (filter_ Z) :=
  [NewFilter_ "" "" Exists (VSubquery (Some samples)
     [NewFilter_ "samples" "parent_id" EqCol (VRef "id" "samples"); NewFilter_ "" "name" (Exposed OpEq) (string_of name)] true)].

Definition condition_of (filters : list (filter_ Z)) : condition Z :=
  match applyFilters (fun s => s) (fun t => t) MySQL samples filters with Ok (Some e) => e | _ => CFalse end.
Definition selects (filters : list (filter_ Z)) (r : row) : truth :=
  evaluate mysql [("samples", (samples, r))] (condition_of filters).

Example selected : map (selects (childless "leaf")) stored = [Some false; Some true; Some true].
Proof. vm_compute. reflexivity. Qed.

(** An [or] of one filter is that filter, not an alternative to the others. *)
Example single_alternative :
  selects [NewFilter_ "" "id" (Exposed OpEq) (string_of "1"); NewFilter_ "" "" Or (VFilters [NewFilter_ "" "name" (Exposed OpEq) (string_of "lone")])]
    [("id", "3"); ("name", "lone")] = Some false.
Proof. vm_compute. reflexivity. Qed.
End Samples.

Lemma filters_select_what_they_mean_witness : Forall (fun r =>
  Samples.selects (Samples.childless "leaf") r = Some true <->
  forall f, f ∈ Samples.childless "leaf" -> meaning Samples.mysql (fun s => s) (fun t => t) MySQL (Rendered.samples, r) [] f = Some true)
  Samples.stored.
Proof.
  pose proof (filters_select_what_they_mean Samples.mysql (fun s => s) (fun t => t) MySQL Rendered.samples (evaluate Samples.mysql)
    (Samples.childless "leaf")) as H.
  specialize (H ltac:(repeat constructor)).
  assert (applyFilters (A := Z) (fun s => s) (fun t => t) MySQL Rendered.samples (Samples.childless "leaf") = Ok (Some (Samples.condition_of (Samples.childless "leaf")))) as E
    by (vm_compute; reflexivity).
  rewrite E in H. destruct H as [_ H]. apply Forall_forall. intros r _. exact (H r).
Defined.
