(* ===== verification/PredicateText.v ===== *)
(** * Client values in predicates

    Three guarantees about the values a client sends: they are bound and
    never spelled into SQL, a LIKE pattern matches them literally, and a
    filter read from a URL always carries a value its operator takes. *)

From stdpp Require Import base list gmap strings.
From Stdlib Require Import ZArith Lia Ascii.
From S2P Require Import Prelude GoStrings Strconv UrlQuery Predicate PredicateSpec.
Local Open Scope Z_scope.

(** ** Values stay out of the text *)

Section Text.
Context {A : Type}.
Abbreviation filter_t := (filter_ A).

(** Two scalars of one kind: any two strings, booleans, times or others, but
    for the boolean of [isnull], which is no value but the direction of the
    test. *)
Inductive alike_datum (o : Operator) : datum A -> datum A -> Prop :=
| alike_nil : alike_datum o DNil DNil
| alike_bool b b' : o <> Exposed OpIsNull -> alike_datum o (DBool b) (DBool b')
| alike_isnull b : alike_datum o (DBool b) (DBool b)
| alike_string s s' : alike_datum o (DString s) (DString s')
| alike_time n n' : alike_datum o (DTime n) (DTime n')
| alike_other a a' : alike_datum o (DOther a) (DOther a').

(** Filters of the same structure that differ in the values compared.  A
    correlation compares with no value but with another column. *)
Inductive alike : filter_t -> filter_t -> Prop :=
| alike_correlation t c v : alike (NewFilter_ t c EqCol v) (NewFilter_ t c EqCol v)
| alike_one t c o x x' : o <> EqCol -> alike_datum o x x' -> alike (NewFilter_ t c o (VDatum x)) (NewFilter_ t c o (VDatum x'))
| alike_bytes t c o a a' : o <> EqCol -> alike (NewFilter_ t c o (VBytes a)) (NewFilter_ t c o (VBytes a'))
| alike_valuer t c o a a' : o <> EqCol -> alike (NewFilter_ t c o (VValuer a)) (NewFilter_ t c o (VValuer a'))
| alike_many t c o l l' : o <> EqCol -> alike (NewFilter_ t c o (VMany l)) (NewFilter_ t c o (VMany l'))
| alike_ref t c o n m : o <> EqCol -> alike (NewFilter_ t c o (VRef n m)) (NewFilter_ t c o (VRef n m))
| alike_group t c o l l' : o <> EqCol -> Forall2 alike l l' -> alike (NewFilter_ t c o (VFilters l)) (NewFilter_ t c o (VFilters l'))
| alike_subquery t c o m l l' n : o <> EqCol -> Forall2 alike l l' ->
    alike (NewFilter_ t c o (VSubquery m l n)) (NewFilter_ t c o (VSubquery m l' n)).

Variables (day_string : string -> string) (day_time : Z -> Z) (d : dialect) (model : Table_) (quoteIdent : string -> string).
Local Abbreviation renderFilter := (renderFilter day_string day_time d model).
Local Abbreviation pieces := (pieces (A := A) quoteIdent).

Definition same (r r' : condition A * option failure) : Prop := pieces r.1 = pieces r'.1 /\ r.2 = r'.2.

Lemma same_closed t c o v v' why : same (failClosedFilter (NewFilter_ t c o v) why) (failClosedFilter (NewFilter_ t c o v') why).
Proof. done. Qed.

(** Values of one kind. *)
Definition alike_value (o : Operator) (v v' : value A filter_t) : Prop :=
  match v, v' with
  | VDatum x, VDatum x' => alike_datum o x x'
  | VBytes _, VBytes _ | VValuer _, VValuer _ | VMany _, VMany _ | VFilters _, VFilters _ | VSubquery _ _ _, VSubquery _ _ _ => True
  | VRef n m, VRef n' m' => n = n' /\ m = m'
  | _, _ => False
  end.

Lemma pieces_comparison i c column op v v' : pieces (comparisonSQL d i c column op v) = pieces (comparisonSQL d i c column op v').
Proof. unfold comparisonSQL. by destruct (bool_decide _). Qed.

Lemma column_same t c o v v' s column i : alike_value o v v' -> o <> EqCol ->
  same (columnFilter day_string day_time d (NewFilter_ t c o v) s column i) (columnFilter day_string day_time d (NewFilter_ t c o v') s column i).
Proof.
  intros Hv Ho.
  assert (forall sql, (forall w w', pieces (sql w) = pieces (sql w')) ->
    same (scalarFilter day_string day_time (NewFilter_ t c o v) i sql) (scalarFilter day_string day_time (NewFilter_ t c o v') i sql)) as Hs.
  { intros sql Hsql. unfold scalarFilter. cbn [Value_ Column_].
    destruct v, v'; try done; [destruct Hv|..]; cbn [is_slice binds_itself andb negb];
      repeat destruct (bool_decide _); cbn [andb orb negb]; (apply same_closed || (split; [apply Hsql|done])). }
  assert (forall sql, (forall w w', pieces (sql w) = pieces (sql w')) ->
    same (listFilter day_string day_time (NewFilter_ t c o v) i sql) (listFilter day_string day_time (NewFilter_ t c o v') i sql)) as Hl.
  { intros sql Hsql. unfold listFilter. cbn [Value_ Column_].
    destruct v, v'; try done; cbn [is_slice negb]; by (split; [apply Hsql|]). }
  assert (forall sql prefix suffix, (forall w w', pieces (sql w) = pieces (sql w')) ->
    same (patternFilter d (NewFilter_ t c o v) sql prefix suffix) (patternFilter d (NewFilter_ t c o v') sql prefix suffix)) as Hp.
  { intros sql prefix suffix Hsql. unfold patternFilter. cbn [Value_]. destruct v, v'; try done. destruct Hv; try done. by split; [apply Hsql|]. }
  assert (forall sql, (forall w w', pieces (sql w) = pieces (sql w')) ->
    same (stringFilter (NewFilter_ t c o v) sql) (stringFilter (NewFilter_ t c o v') sql)) as Ht.
  { intros sql Hsql. unfold stringFilter. cbn [Value_]. destruct v, v'; try done. destruct Hv; try done. by split; [apply Hsql|]. }
  unfold columnFilter. cbn [Op Column_ Value_].
  destruct o as [[]| | | | | | | | |]; try done; try (by apply Hs; intros; apply pieces_comparison); try (by apply Hl); try (by apply Hp); try (by apply Ht).
  - destruct v, v'; try done. by destruct Hv.
  - destruct (bool_decide _); [done|]. destruct (negb _); [done|]. change (placedName (NewFilter_ t c JSONContains v) s i) with (placedName (NewFilter_ t c JSONContains v') s i). by apply Ht.
Qed.

Lemma combine_same rs rs' alternatives : Forall2 same rs rs' ->
  pieces <$> (combine rs alternatives).1 = pieces <$> (combine rs' alternatives).1 /\ (combine rs alternatives).2 = (combine rs' alternatives).2.
Proof.
  intros H. assert (map pieces (map fst rs) = map pieces (map fst rs') /\ map snd rs = map snd rs') as [E1 E2].
  { induction H as [|r r' l l' [H1 H2] _ [IH1 IH2]]; [done|]. cbn. by rewrite H1, H2, IH1, IH2. }
  unfold combine. destruct H as [|r r' l l' Hr Hl]; [done|]. cbn [fst snd]. rewrite E2. split; [|done].
  destruct alternatives; cbn [fmap option_fmap option_map Predicate.pieces]; [|by rewrite E1].
  destruct Hl; cbn [map]; [by destruct Hr as [-> _]|]. cbn [map] in E1. cbn [Predicate.pieces map]. by rewrite E1.
Qed.

Lemma correlation_alike f g : alike f g -> hasCorrelation_of f = hasCorrelation_of g.
Proof.
  revert g. induction f as [t c o v Hg _] using filter_induction. intros g H. inversion H; subst; try done.
  destruct o; try done; cbn [hasCorrelation_of Op]; specialize (Hg _ eq_refl); clear H;
    (match goal with H : Forall2 alike _ _ |- _ => induction H as [|x y l1 l2 Hxy _ IH] end); [done| |done|];
    apply Forall_cons in Hg as [Hx Hg]; cbn; by rewrite (Hx _ Hxy), IH.
Qed.

Lemma render_alike f : forall g s, alike f g -> same (renderFilter s f) (renderFilter s g).
Proof.
  induction f as [t c o v Hg Hq] using filter_induction. intros g s Ha.
  assert (exists v', g = NewFilter_ t c o v' /\ (o = EqCol -> v' = v) /\ alike_value o v v') as (v' & -> & He & Hv).
  { inversion Ha; subst; eexists; (split; [done|]); (split; [done|]); try done. unfold alike_value. destruct v as [[]| | | | | |]; try constructor; done. }
  assert (forall l l' s, Forall (fun f => forall g s, alike f g -> same (renderFilter s f) (renderFilter s g)) l -> Forall2 alike l l' ->
    Forall2 same (map (renderFilter s) l) (map (renderFilter s) l')) as Hlist.
  { intros l l' s' Hl H. induction H as [|x y l1 l2 Hxy _ IH]; [constructor|]. apply Forall_cons in Hl as [Hx Hl]. constructor; [by apply Hx|by apply IH]. }
  assert (forall alternatives, o <> EqCol ->
    same (groupCondition (NewFilter_ t c o v) (renderFilter s) alternatives) (groupCondition (NewFilter_ t c o v') (renderFilter s) alternatives)) as Hgroup.
  { intros alternatives Hne. unfold groupCondition. cbn [Value_]. destruct v as [| | | | |l|], v' as [| | | | |l'|]; try done.
    assert (Forall2 alike l l') as H by (inversion Ha; subst; done).
    destruct (combine_same _ _ alternatives (Hlist l l' s (Hg l eq_refl) H)) as [E1 E2].
    destruct (combine (map _ l) _) as [[e|] fail], (combine (map _ l') _) as [[e'|] fail']; cbn in E1, E2; try done.
    injection E1 as E1. by split. }
  assert (o <> EqCol -> same (placedFilter day_string day_time d (NewFilter_ t c o v) s) (placedFilter day_string day_time d (NewFilter_ t c o v') s)) as Hleaf.
  { intros Hne. unfold placedFilter. cbn [Column_]. destruct (c =? "")%string; [apply same_closed|].
    change (placeFilter (NewFilter_ t c o v) s) with (placeFilter (NewFilter_ t c o v') s).
    destruct (placeFilter _ _) as [[column i]|e]; [by apply column_same|done]. }
  destruct o as [o| | | | | | | | |o]; cbn [Predicate.renderFilter Op]; try (by apply Hgroup); try (by apply Hleaf); try done; [|by rewrite (He eq_refl)].
  change (same (existsCondition d model (NewFilter_ t c Exists v) renderFilter s) (existsCondition d model (NewFilter_ t c Exists v') renderFilter s)).
  unfold existsCondition. cbn [Value_]. destruct v as [| | | | | |m l n], v' as [| | | | | |m' l' n']; try done.
  assert (m' = m /\ n' = n /\ Forall2 alike l l') as (-> & -> & H) by (inversion Ha; subst; done).
  destruct (bool_decide _); [done|]. destruct m as [m|]; [|done].
  assert (hasCorrelation l = hasCorrelation l') as ->.
  { unfold hasCorrelation. clear -H. induction H as [|x y l1 l2 Hxy _ IH]; [done|]. cbn. by rewrite (correlation_alike _ _ Hxy), IH. }
  destruct (negb _); [done|]. destruct (derived s); [done|]. destruct (_ =? _)%string; [done|]. destruct (_ =? _)%string; [done|].
  destruct (Schema m) as [cols|]; [|done].
  destruct (combine_same _ _ false (Hlist l l' (inner_scope model m cols s) (Hq _ l _ eq_refl) H)) as [E1 E2].
  destruct (combine (map _ l) _) as [e fail], (combine (map _ l') _) as [e' fail']. cbn [fst snd] in E1, E2. subst fail'.
  destruct fail; [done|]. split; [|done]. cbn [fst Predicate.pieces]. f_equal. f_equal.
  destruct e as [e|], e' as [e'|]; cbn in E1 |- *; try done. by injection E1.
Qed.

(** C25: the values filters compare with are bound and never spelled into SQL:
    strings, booleans, times, other scalars, byte slices and lists.  Two lists
    of filters that differ only in them render the same SQL, piece by piece,
    and fail alike.  The column a correlation names and the direction of an
    [isnull] are no such values: they are part of the SQL. *)
Theorem values_are_bound s l l' : Forall2 alike l l' ->
  pieces <$> (renderFilters day_string day_time d model s l).1 = pieces <$> (renderFilters day_string day_time d model s l').1 /\
  (renderFilters day_string day_time d model s l).2 = (renderFilters day_string day_time d model s l').2.
Proof.
  intros H. apply combine_same. induction H as [|f g l l' Hfg _ IH]; constructor; [by apply render_alike|done].
Qed.
End Text.

(** A name that tries to end the string it is compared with. *)
Lemma values_are_bound_witness :
  let named (s : string) : list (filter_ Z) := [NewFilter_ "" "name" (Exposed OpEq) (VDatum (DString s))] in
  pieces Rendered.quote <$> (renderFilters (fun s => s) (fun t => t) MySQL Rendered.samples (outerScope Rendered.samples) (named "' OR 1 = 1 --")).1 = Some ["`name` = ?"].
Proof.
  cbv zeta. destruct (values_are_bound (A := Z) (fun s => s) (fun t => t) MySQL Rendered.samples Rendered.quote (outerScope Rendered.samples)
    [NewFilter_ "" "name" (Exposed OpEq) (VDatum (DString "' OR 1 = 1 --"))] [NewFilter_ "" "name" (Exposed OpEq) (VDatum (DString ""))]) as [-> _].
  - constructor; [|constructor]. by repeat constructor.
  - vm_compute. reflexivity.
Defined.

(** ** Patterns match literally *)

Inductive token : Set := Lit (a : ascii) | One | Many.

(** A LIKE pattern with its escape character. *)
Fixpoint tokens (escape : ascii) (p : string) : list token :=
  match p with
  | EmptyString => []
  | String a p =>
      if (a =? escape)%char then match p with String b p => Lit b :: tokens escape p | EmptyString => [Lit a] end
      else if (a =? "%")%char then Many :: tokens escape p
      else if (a =? "_")%char then One :: tokens escape p
      else Lit a :: tokens escape p
  end.

Inductive matched : list token -> string -> Prop :=
| matched_end : matched [] ""
| matched_lit a ts s : matched ts s -> matched (Lit a :: ts) (String a s)
| matched_one a ts s : matched ts s -> matched (One :: ts) (String a s)
| matched_many_end ts s : matched ts s -> matched (Many :: ts) s
| matched_many a ts s : matched (Many :: ts) s -> matched (Many :: ts) (String a s).

Fixpoint literally (s : string) : list token :=
  match s with EmptyString => [] | String a s => Lit a :: literally s end.

Lemma tokens_escaped e s rest : e <> "%"%char -> e <> "_"%char -> tokens e (escape_with e s +:+ rest) = literally s ++ tokens e rest.
Proof.
  intros H1 H2. induction s as [|a s IH]; [done|]. cbn [escape_with].
  destruct (_ || _) eqn:E.
  - change (String e (String a (escape_with e s)) +:+ rest) with (String e (String a (escape_with e s +:+ rest))).
    cbn [tokens]. rewrite Ascii.eqb_refl. cbn [literally app]. by rewrite IH.
  - change (String a (escape_with e s) +:+ rest) with (String a (escape_with e s +:+ rest)).
    apply orb_false_iff in E as [[Ee Ep]%orb_false_iff Eu]. cbn [tokens]. rewrite Ee, Ep, Eu. cbn [literally app]. by rewrite IH.
Qed.

Lemma matched_literally s ts x : matched (literally s ++ ts) x <-> exists y, x = s +:+ y /\ matched ts y.
Proof.
  revert x. induction s as [|a s IH]; intros x; cbn [literally app].
  - split; [intros H; by exists x|]. by intros (y & -> & H).
  - split.
    + intros H. inversion H as [|? ? z Hz| | |]; subst. apply IH in Hz as (y & -> & Hy). by exists y.
    + intros (y & -> & Hy). change (String a s +:+ y) with (String a (s +:+ y)). constructor. apply IH. by exists y.
Qed.

Lemma matched_many_iff ts x : matched (Many :: ts) x <-> exists y z, x = y +:+ z /\ matched ts z.
Proof.
  split.
  - intros H. remember (Many :: ts) as l eqn:E. induction H as [| | |ts' s H _|a ts' s H IH]; try done; injection E as ->.
    + by exists "", s.
    + destruct IH as (y & z & -> & Hz); [done|]. by exists (String a y), z.
  - intros (y & z & -> & Hz). induction y as [|a y IH]; [by apply matched_many_end|].
    change (String a y +:+ z) with (String a (y +:+ z)). by constructor.
Qed.

Lemma matched_nil x : matched [] x <-> x = "".
Proof. split; [by inversion 1|intros ->; constructor]. Qed.

Lemma matched_anything x : matched [Many] x.
Proof. apply matched_many_iff. exists x, "". split; [|constructor]. induction x as [|a x IH]; [done|]. change (String a x +:+ "") with (String a (x +:+ "")). by rewrite <- IH. Qed.

Lemma escape_plain d : likeEscape d <> "%"%char /\ likeEscape d <> "_"%char.
Proof. unfold likeEscape. by destruct (bool_decide _). Qed.

(** The pattern a like filter binds matches the client's text literally,
    on every dialect, whatever wildcards and escape characters it holds: the
    values that contain it, the ones that start with it and the ones that end
    with it. *)
Lemma patterns_match_literally d s x :
  let bound prefix suffix := matched (tokens (likeEscape d) (prefix +:+ escapeLikePattern d s +:+ suffix)) x in
  (bound "%" "%" <-> exists before after, x = before +:+ s +:+ after) /\
  (bound "" "%" <-> exists after, x = s +:+ after) /\
  (bound "%" "" <-> exists before, x = before +:+ s).
Proof.
  destruct (escape_plain d) as [H1 H2]. unfold escapeLikePattern. set (e := likeEscape d) in *. cbv zeta.
  assert (forall p, tokens e ("%" +:+ p) = Many :: tokens e p) as Hm.
  { intros p. change ("%" +:+ p) with (String "%" p). cbn [tokens]. by rewrite (proj2 (Ascii.eqb_neq "%" e)) by congruence. }
  assert (tokens e "%" = [Many]) as Ht by (cbn [tokens]; by rewrite (proj2 (Ascii.eqb_neq "%" e)) by congruence).
  assert (forall y, y +:+ "" = y) as Hr.
  { induction y as [|a y IH]; [done|]. change (String a y +:+ "") with (String a (y +:+ "")). by rewrite IH. }
  split; [|split].
  - rewrite Hm, matched_many_iff. setoid_rewrite tokens_escaped; [|done..]. setoid_rewrite matched_literally. rewrite Ht. split.
    + intros (y & z & -> & w & -> & _). by exists y, w.
    + intros (y & z & ->). exists y, (s +:+ z). split; [done|]. exists z. split; [done|]. apply matched_anything.
  - change ("" +:+ escape_with e s +:+ "%") with (escape_with e s +:+ "%"). rewrite tokens_escaped, matched_literally, Ht by done. split.
    + intros (y & -> & _). by exists y.
    + intros (y & ->). exists y. split; [done|]. apply matched_anything.
  - rewrite Hm, matched_many_iff. setoid_rewrite tokens_escaped; [|done..]. setoid_rewrite matched_literally. cbn [tokens]. setoid_rewrite matched_nil. split.
    + intros (y & z & -> & w & -> & ->). exists y. by rewrite Hr.
    + intros (y & ->). exists y, s. split; [done|]. exists "". by rewrite Hr.
Qed.

(** ** Filters read from a URL *)

(** [types.NewFilter] of a condition of a list request. *)
Definition of_url {A} (f : UrlQuery.Filter) : filter_ A :=
  NewFilter_ "" (FColumn f) (Exposed (FOp f))
    match FValue f with
    | VText s => VDatum (DString s)
    | VBool b => VDatum (DBool b)
    | VList l => VMany (map DString l)
    end.

Section Url.
Context {F A : Type} (parse_float : string -> Z -> option F) (time_bound : Column -> string -> option string).

Lemma filters_of_origin m q ks fs : filters_of parse_float time_bound m q ks = Ok fs ->
  forall f, f ∈ fs -> exists c op raw v, c ∈ Columns m /\ normalizeFilterValue parse_float time_bound c op raw = Some v /\ f = NewFilter (DBName c) op v.
Proof.
  revert fs. induction ks as [|key ks IH]; intros fs; cbn [filters_of]; [intros [= <-] f []%elem_of_nil|].
  intros (r & Hr & (conds & Hc & [= <-])%rbind_Ok)%rbind_Ok f Hf.
  destruct r as [g|]; [apply elem_of_cons in Hf as [->|Hf]|]; [|by apply (IH conds)..].
  unfold filter_of in Hr. apply rbind_Ok in Hr as (p & _ & H).
  destruct (FilterableIndex m !! p.1) as [c|] eqn:Ec; [|done].
  destruct (q !! key) as [[|raw ?]|]; try done. destruct (raw =? "")%string; [done|].
  destruct (normalizeFilterValue _ _ c p.2 raw) as [v|] eqn:Ev; [|done]. injection H as <-.
  exists c, p.2, raw, v. split; [|done]. unfold FilterableIndex in Ec. apply collect_Some in Ec as (c' & Hin & _ & <-).
  by apply list_elem_of_filter in Hin as [_ ?].
Qed.

(** An operator the column does not take. *)
Local Ltac not_taken Eo En :=
  exfalso; first [by apply En | let H := fresh in let P := type of Eo in
    assert (bool_decide P = true) as H by (apply bool_decide_eq_true_2; exact Eo); vm_compute in H; discriminate H].

(** The value normalized for an operator is of the shape it takes. *)
Lemma normalized_shape c op raw v : normalizeFilterValue parse_float time_bound c op raw = Some v ->
  match op with
  | OpIn | OpNotIn => exists l, v = VList l
  | OpLike | OpNotLike | OpStartsWith | OpEndsWith => exists s, v = VText s
  | OpIsNull => exists b, v = VBool b
  | _ => exists w, v = VText w \/ exists b, v = VBool b
  end.
Proof.
  unfold normalizeFilterValue. destruct (bool_decide (op ∉ filterOps c)) eqn:Eo; [done|]. apply bool_decide_eq_false, dec_stable in Eo.
  case_bool_decide as En.
  { subst op. destruct (ParseBool raw) as [b [|]]; [done|]. intros [= <-]. by exists b. }
  unfold filterOps in Eo. destruct (IsTimeColumn c || IsTimeOfDayColumn c).
  { intros (w & _ & ->)%fmap_Some. destruct op; try (eexists; left; reflexivity); try (eexists; reflexivity); not_taken Eo En. }
  destruct (IsBoolColumn c).
  { destruct (ParseBool raw) as [b [|]]; [done|]. intros [= <-].
    destruct op; try (exists ""%string; right; exists b; reflexivity); not_taken Eo En. }
  destruct (IsNumericColumn c).
  { destruct op; try destruct (forallb _ _); try destruct (ValidateNumericValue _ _ _); intros [= <-]; eauto; by destruct En. }
  destruct (IsJSONColumn c).
  { intros [= <-]. destruct op; eauto; not_taken Eo En. }
  destruct op; intros [= <-]; eauto; by destruct En.
Qed.

(** C26: a filter a request is read into carries a value of the shape its
    operator takes and names a column of the model, so that, applied to the
    model's table, it neither fails the query nor silently empties it. *)
Theorem url_filters_apply m q fs table d :
  Forall (fun c => DBName c <> ""%string) (Columns m) -> Filters parse_float time_bound q m = Ok fs ->
  Forall (fun f => let t := mkTable table (Some (Columns m)) in
    grade d t [] (of_url (A := A) f) = Fine /\ columns_known t (of_url (A := A) f) = true) fs.
Proof.
  intros Hn H. apply Forall_forall. intros f Hf.
  assert (exists ks, filters_of parse_float time_bound m q ks = Ok fs) as (ks & Hks).
  { unfold Filters in H. destruct (filter _ (keys q)) as [|k ks]; [exists []; exact H|]. destruct (IsQueryable m); [by eexists|done]. }
  destruct (filters_of_origin m q ks fs Hks f Hf) as (c & op & raw & v & Hc & Hv & ->).
  apply normalized_shape in Hv. rewrite Forall_forall in Hn. specialize (Hn c Hc). apply String.eqb_neq in Hn.
  cbv zeta. unfold of_url. cbn [FColumn FOp FValue grade columns_known Op]. unfold column_grade. cbn [Column_ own_table FTable TableName].
  unfold own_table. cbn [FTable TableName]. rewrite Hn. cbn [String.eqb orb negb]. rewrite bool_decide_eq_false_2 by (intros E; by apply E). cbn [andb].
  split.
  - assert (shape_ok d (mkTable table (Some (Columns m))) []
      (NewFilter_ (A := A) "" (DBName c) (Exposed op) match v with VText s => VDatum (DString s) | VBool b => VDatum (DBool b) | VList l => VMany (map DString l) end) = true) as ->; [|done].
    unfold shape_ok. cbn [Op Value_ Column_]. destruct op; try (by destruct Hv as [? ->]); by destruct Hv as [? [->|[? ->]]].
  - apply bool_decide_eq_true. unfold names_of, names_where. cbn [Schema default]. apply elem_of_list_to_set, list_elem_of_fmap. exists c. split; [done|].
    by apply list_elem_of_filter.
Qed.
End Url.

Lemma url_filters_apply_witness :
  exists fs, Filters (F := unit) (fun _ _ => None) (fun _ _ => None) {["age[in]" := ["20,30"]]}
    (mkModel true true true [mkColumn "Age" "age" "age_years" false false "int" "int" true true false] [] ∅) = Ok fs /\
  map (of_url (A := Z)) fs = [NewFilter_ "" "age_years" (Exposed OpIn) (VMany [DString "20"; DString "30"])] /\
  Forall (fun f => grade MySQL (mkTable "people" (Some [mkColumn "Age" "age" "age_years" false false "int" "int" true true false])) [] (of_url (A := Z) f) = Fine) fs.
Proof.
  set (m := mkModel _ _ _ _ _ _). exists [NewFilter "age_years" OpIn (VList ["20"; "30"])].
  assert (Filters (F := unit) (fun _ _ => None) (fun _ _ => None) {["age[in]" := ["20,30"]]} m = Ok [NewFilter "age_years" OpIn (VList ["20"; "30"])]) as E
    by (vm_compute; reflexivity).
  split; [exact E|]. split; [reflexivity|].
  pose proof (url_filters_apply (A := Z) (fun _ _ => None) (fun _ _ => None) m _ _ "people" MySQL ltac:(repeat constructor; discriminate) E) as H.
  eapply Forall_impl; [exact H|]. intros f [Hf _]. exact Hf.
Defined.
