(* ===== verification/Writes.v ===== *)
(** * The write path of the database layer

    Models src/database/write.go with version.go, transaction.go,
    transaction_boundary.go, after_commit.go and the options of a write: what
    Create, Update, UpdateByID and Delete do to the table of a model, to the
    objects they are passed and to the transaction around them.

    A model is [model.Base], a version where it declares one, and columns of
    its own; its objects are shared by pointer and live on a heap.  gorm and
    the database are an [engine]: every statement either answers an error and
    changes nothing or answers the table after it.  The number of the
    statement is an argument, so any statement of a run may fail.  Left out:
    the branches of ClickHouse and of dry runs, and tracing; Upsert is
    [Upserts]. *)

From stdpp Require Import base list gmap strings.
From Stdlib Require Import ZArith.
From S2P Require Import Prelude.
Local Open Scope Z_scope.

(** ** Data *)

Section Records.
Context {A : Type}.

(** A value of a column of the model's own: a time of type [time.Time], or
    any other. *)
Inductive cell : Type := Instant (ns : Z) | Value (a : A).

Record record_ : Type := mkRecord {
  ID : string;
  CreatedBy : string; UpdatedBy : string;
  CreatedAt : Z; UpdatedAt : Z;
  DeletedAt : option Z;
  Version : Z;
  Fields : gmap string cell }.

(** What a pointer leads to: the columns and the associations to preload. *)
Record object : Type := mkObject { record_of : record_; associations : list A }.

(** *** The setters of a record *)

Definition SetID_to (id : string) (r : record_) : record_ :=
  mkRecord id (CreatedBy r) (UpdatedBy r) (CreatedAt r) (UpdatedAt r) (DeletedAt r) (Version r) (Fields r).
Definition SetCreatedBy (by_ : string) (r : record_) : record_ :=
  mkRecord (ID r) by_ (UpdatedBy r) (CreatedAt r) (UpdatedAt r) (DeletedAt r) (Version r) (Fields r).
Definition SetUpdatedBy (by_ : string) (r : record_) : record_ :=
  mkRecord (ID r) (CreatedBy r) by_ (CreatedAt r) (UpdatedAt r) (DeletedAt r) (Version r) (Fields r).
Definition SetCreatedAt (t : Z) (r : record_) : record_ :=
  mkRecord (ID r) (CreatedBy r) (UpdatedBy r) t (UpdatedAt r) (DeletedAt r) (Version r) (Fields r).
Definition SetUpdatedAt (t : Z) (r : record_) : record_ :=
  mkRecord (ID r) (CreatedBy r) (UpdatedBy r) (CreatedAt r) t (DeletedAt r) (Version r) (Fields r).
Definition SetDeletedAt (t : option Z) (r : record_) : record_ :=
  mkRecord (ID r) (CreatedBy r) (UpdatedBy r) (CreatedAt r) (UpdatedAt r) t (Version r) (Fields r).
Definition SetVersionValue (v : Z) (r : record_) : record_ :=
  mkRecord (ID r) (CreatedBy r) (UpdatedBy r) (CreatedAt r) (UpdatedAt r) (DeletedAt r) v (Fields r).
Definition SetFields (f : gmap string cell) (r : record_) : record_ :=
  mkRecord (ID r) (CreatedBy r) (UpdatedBy r) (CreatedAt r) (UpdatedAt r) (DeletedAt r) (Version r) f.

Definition live (r : record_) : bool := bool_decide (DeletedAt r = None).
End Records.
Arguments cell : clear implicits.
Arguments record_ : clear implicits.
Arguments object : clear implicits.
(** The rows of the model's table by id. *)
Abbreviation table A := (gmap string (record_ A)).

(** [UTCMillisecond], on nanoseconds. *)
Definition UTCMillisecond (t : Z) : Z := t - t mod 1000000.

(** ** Statements *)

(** The condition of a statement: the primary keys it names, the version it
    matches and the conditions of the chain. *)
Record where_ (C : Type) : Type := mkWhere { keys : list string; version_is : option Z; also : list C }.
Arguments mkWhere {C} keys version_is also.
Arguments keys {C} w.
Arguments version_is {C} w.
Arguments also {C} w.

Definition restricts {C} (w : where_ C) : bool :=
  negb (bool_decide (keys w = []) && bool_decide (version_is w = None) && match also w with [] => true | _ => false end).

(** What an assignment of UpdateByID puts into a column. *)
Inductive assigned (A : Type) : Type :=
| PutCell (c : cell A) | PutText (s : string) | PutNumber (n : Z) | BumpVersion.
Arguments PutCell {A} c.
Arguments PutText {A} s.
Arguments PutNumber {A} n.
Arguments BumpVersion {A}.

(** The columns of an UPDATE: the ones [Select] names, all of them for ["*"]
    (here the empty list), but what [Omit] leaves out, a column or the
    associations. *)
Inductive omission : Set := OmitColumn (column : string) | OmitAssociations.
#[export] Instance omission_eq_dec : EqDecision omission.
Proof. solve_decision. Defined.
Record update_columns : Set := mkUpdateColumns { Select : list string; Omit : list omission }.

(** gorm over the database.  [D] are its errors; the first argument of a
    statement is its number. *)
Record engine (A C D : Type) : Type := mkEngine {
  insert : nat -> list (record_ A) -> table A -> result D (table A);
  update : nat -> where_ C -> update_columns -> record_ A -> Z -> table A -> result D (table A * Z);
  delete : nat -> where_ C -> bool -> bool -> Z -> table A -> result D (table A * Z);
  assign : nat -> where_ C -> gmap string (assigned A) -> Z -> table A -> result D (table A);
  begin_ : nat -> option D;
  commit : nat -> option D;
  (** What a statement leaves in the objects it was passed. *)
  updated_object : Z -> record_ A -> record_ A;
  deleted_object : Z -> record_ A -> record_ A }.
Arguments mkEngine {A C D}.
Arguments insert {A C D} e.
Arguments update {A C D} e.
Arguments delete {A C D} e.
Arguments assign {A C D} e.
Arguments begin_ {A C D} e.
Arguments commit {A C D} e.
Arguments updated_object {A C D} e.
Arguments deleted_object {A C D} e.

(** ** Errors *)

Inductive error (D : Type) : Type :=
| ErrWithDeletedOnWrite | ErrWithReplicaOnWrite | ErrInvalidDB
| ErrIDRequired | ErrVersionRequired (id : string) | ErrStaleObject (id : string) (version : Z) | ErrRecordNotFound
| ErrConditionsWithRecords | ErrConditionsWithDeleteHooks
| ErrNoAssignments | ErrEmptyFieldName | ErrColumnTable | ErrNilValue | ErrDuplicateColumn
| ErrNilTransaction | ErrNilContext
| ErrDuplicatedKey (owner : string) | ErrNoConflictUpdate
| Defect (e : D)       (** recorded on the chain *)
| Database (e : D)     (** of a statement, of BEGIN or of COMMIT *)
| Raised (e : D)       (** by a hook or by the work of a transaction *)
| ErrAfterCommit (e : D).
Arguments ErrWithDeletedOnWrite {D}.
Arguments ErrWithReplicaOnWrite {D}.
Arguments ErrInvalidDB {D}.
Arguments ErrIDRequired {D}.
Arguments ErrVersionRequired {D} id.
Arguments ErrStaleObject {D} id version.
Arguments ErrRecordNotFound {D}.
Arguments ErrConditionsWithRecords {D}.
Arguments ErrConditionsWithDeleteHooks {D}.
Arguments ErrNoAssignments {D}.
Arguments ErrEmptyFieldName {D}.
Arguments ErrColumnTable {D}.
Arguments ErrNilValue {D}.
Arguments ErrDuplicateColumn {D}.
Arguments ErrNilTransaction {D}.
Arguments ErrNilContext {D}.
Arguments ErrDuplicatedKey {D} owner.
Arguments ErrNoConflictUpdate {D}.
Arguments Defect {D} e.
Arguments Database {D} e.
Arguments Raised {D} e.
Arguments ErrAfterCommit {D} e.

(** ** The world of a chain *)

(** The actions registered for after a commit, by name. *)
Inductive event (Act : Type) : Type := Committed | RolledBack | Ran (a : Act).
Arguments Committed {Act}.
Arguments RolledBack {Act}.
Arguments Ran {Act} a.

(** A pointer. *)
Abbreviation pointer := nat.

(** [boundary] is the one the context carries, [None] outside a transaction;
    [restoreVersions] is the variable of the running Update. *)
Record world (A Act : Type) : Type := mkWorld {
  heap : gmap pointer (object A);
  rows : table A;
  statements : nat;
  boundary : option (list Act);
  restoreVersions : list (pointer * Z);
  events : list (event Act) }.
Arguments mkWorld {A Act}.
Arguments heap {A Act} w.
Arguments rows {A Act} w.
Arguments statements {A Act} w.
Arguments boundary {A Act} w.
Arguments restoreVersions {A Act} w.
Arguments events {A Act} w.

Section Monad.
Context {A Act D : Type}.
Abbreviation world_t := (world A Act).

Definition M (X : Type) : Type := world_t -> result (error D) X * world_t.

Definition ret {X} (x : X) : M X := fun w => (Ok x, w).
Definition throw {X} (e : error D) : M X := fun w => (Err e, w).
Definition bind {X Y} (m : M X) (k : X -> M Y) : M Y := fun w =>
  match m w with
  | (Ok x, w') => k x w'
  | (Err e, w') => (Err e, w')
  end.
Definition gets {X} (f : world_t -> X) : M X := fun w => (Ok (f w), w).
Definition modify (f : world_t -> world_t) : M unit := fun w => (Ok tt, f w).
End Monad.
Arguments M : clear implicits.

Declare Scope write_scope.
Delimit Scope write_scope with write.
Bind Scope write_scope with M.
Notation "x <- m ;; k" := (bind m (fun x => k)) (at level 100, m at next level, right associativity) : write_scope.
Notation "m ;; k" := (bind m (fun _ => k)) (at level 100, right associativity) : write_scope.
Local Open Scope write_scope.

Section World.
Context {A Act D : Type}.
Abbreviation M := (M A Act D).

Definition set_heap (h : gmap pointer (object A)) (w : world A Act) : world A Act :=
  mkWorld h (rows w) (statements w) (boundary w) (restoreVersions w) (events w).
Definition set_rows (t : table A) (w : world A Act) : world A Act :=
  mkWorld (heap w) t (statements w) (boundary w) (restoreVersions w) (events w).
Definition set_boundary (b : option (list Act)) (w : world A Act) : world A Act :=
  mkWorld (heap w) (rows w) (statements w) b (restoreVersions w) (events w).
Definition set_restores (l : list (pointer * Z)) (w : world A Act) : world A Act :=
  mkWorld (heap w) (rows w) (statements w) (boundary w) l (events w).
Definition tick (w : world A Act) : world A Act :=
  mkWorld (heap w) (rows w) (S (statements w)) (boundary w) (restoreVersions w) (events w).
Definition log (e : event Act) (w : world A Act) : world A Act :=
  mkWorld (heap w) (rows w) (statements w) (boundary w) (restoreVersions w) (events w ++ [e]).

(** The zero value of a model. *)
Definition zero_record : record_ A := mkRecord "" "" "" 0 0 None 0 ∅.
Definition zero_object : object A := mkObject zero_record [].

(** Every pointer of a run leads to an object. *)
Definition at_ (w : world A Act) (p : pointer) : object A := default zero_object (heap w !! p).
Definition record_at (w : world A Act) (p : pointer) : record_ A := record_of (at_ w p).

Definition put (p : pointer) (o : object A) : M unit := modify (fun w => set_heap (<[p := o]> (heap w)) w).
Definition change (f : record_ A -> record_ A) (p : pointer) : M unit :=
  o <- gets (fun w => at_ w p);; put p (mkObject (f (record_of o)) (associations o)).

(** [for i := range objs]. *)
Fixpoint each {X} (l : list X) (f : X -> M unit) : M unit :=
  match l with
  | [] => ret tt
  | x :: l => f x;; each l f
  end.

Definition when (b : bool) (m : M unit) : M unit := if b then m else ret tt.
End World.

(** ** Models and chains *)

(** What the code reads of a model: whether its columns resolve, the column
    of its version, how it is deleted, and the hooks it overrides, before and
    after; a hook it does not override returns nil at once. *)
Record model (A Act D : Type) : Type := mkModel {
  resolves : option D;
  versionColumn : option string;
  Purge : bool;
  create_hooks : option ((pointer -> M A Act D unit) * (pointer -> M A Act D unit));
  update_hooks : option ((pointer -> M A Act D unit) * (pointer -> M A Act D unit));
  delete_hooks : option ((pointer -> M A Act D unit) * (pointer -> M A Act D unit)) }.
Arguments mkModel {A Act D}.
Arguments resolves {A Act D} m.
Arguments versionColumn {A Act D} m.
Arguments Purge {A Act D} m.
Arguments create_hooks {A Act D} m.
Arguments update_hooks {A Act D} m.
Arguments delete_hooks {A Act D} m.

(** A chain [Database[M](ctx)]: its options, the conditions on it and the
    caller its context carries. *)
Record chain (C D : Type) : Type := mkChain {
  defect : option D; opened : bool;
  enablePurge : option bool; allowMissing : bool; matchAll : bool;
  includeDeleted : bool; replicaRead : option bool;
  batchSize : Z; noHook : bool;
  selectColumns : list string;
  conditions : list C;
  caller : string }.
Arguments mkChain {C D}.
Arguments defect {C D} c.
Arguments opened {C D} c.
Arguments enablePurge {C D} c.
Arguments allowMissing {C D} c.
Arguments matchAll {C D} c.
Arguments includeDeleted {C D} c.
Arguments replicaRead {C D} c.
Arguments batchSize {C D} c.
Arguments noHook {C D} c.
Arguments selectColumns {C D} c.
Arguments conditions {C D} c.
Arguments caller {C D} c.

Section Options.
Context {C D : Type}.
Abbreviation chain_t := (chain C D).

(** [Database], a chain over an open handle. *)
Definition Database_ (caller_id : string) : chain_t :=
  mkChain None true None false false false None 0 false [] [] caller_id.

Definition WithPurge (enable : list bool) (c : chain_t) : chain_t :=
  mkChain (defect c) (opened c) (Some (default true (head enable))) (allowMissing c) (matchAll c) (includeDeleted c) (replicaRead c) (batchSize c) (noHook c) (selectColumns c) (conditions c) (caller c).
Definition WithAllowMissing (c : chain_t) : chain_t :=
  mkChain (defect c) (opened c) (enablePurge c) true (matchAll c) (includeDeleted c) (replicaRead c) (batchSize c) (noHook c) (selectColumns c) (conditions c) (caller c).
Definition WithDeleted (c : chain_t) : chain_t :=
  mkChain (defect c) (opened c) (enablePurge c) (allowMissing c) (matchAll c) true (replicaRead c) (batchSize c) (noHook c) (selectColumns c) (conditions c) (caller c).
Definition WithReplica (prefer : list bool) (c : chain_t) : chain_t :=
  mkChain (defect c) (opened c) (enablePurge c) (allowMissing c) (matchAll c) (includeDeleted c) (Some (default true (head prefer))) (batchSize c) (noHook c) (selectColumns c) (conditions c) (caller c).
Definition WithBatchSize (size : Z) (c : chain_t) : chain_t :=
  mkChain (defect c) (opened c) (enablePurge c) (allowMissing c) (matchAll c) (includeDeleted c) (replicaRead c) size (noHook c) (selectColumns c) (conditions c) (caller c).
Definition WithoutHook (c : chain_t) : chain_t :=
  mkChain (defect c) (opened c) (enablePurge c) (allowMissing c) (matchAll c) (includeDeleted c) (replicaRead c) (batchSize c) true (selectColumns c) (conditions c) (caller c).
Definition select_columns (l : list string) (c : chain_t) : chain_t :=
  mkChain (defect c) (opened c) (enablePurge c) (allowMissing c) (matchAll c) (includeDeleted c) (replicaRead c) (batchSize c) (noHook c) l (conditions c) (caller c).
(** [db.ins.Where(expr)]. *)
Definition Where (e : C) (c : chain_t) : chain_t :=
  mkChain (defect c) (opened c) (enablePurge c) (allowMissing c) (matchAll c) (includeDeleted c) (replicaRead c) (batchSize c) (noHook c) (selectColumns c) (conditions c ++ [e]) (caller c).
(** [db.matchAll = true] and [db.err = e]. *)
Definition match_all (c : chain_t) : chain_t :=
  mkChain (defect c) (opened c) (enablePurge c) (allowMissing c) true (includeDeleted c) (replicaRead c) (batchSize c) (noHook c) (selectColumns c) (conditions c) (caller c).
Definition set_defect (e : D) (c : chain_t) : chain_t :=
  mkChain (Some e) (opened c) (enablePurge c) (allowMissing c) (matchAll c) (includeDeleted c) (replicaRead c) (batchSize c) (noHook c) (selectColumns c) (conditions c) (caller c).
End Options.

(** [ensureSelected]. *)
Definition ensureSelected (columns : list string) (column : string) : list string :=
  if bool_decide (column ∈ columns) then columns else columns ++ [column].

(** [for i := 0; i < len(objs); i += batchSize { objs[i:end] }], which ends
    within as many turns as there are objects. *)
Fixpoint slices {X} (turns size : nat) (l : list X) : list (list X) :=
  match turns, l with
  | S turns, _ :: _ => take size l :: slices turns size (drop size l)
  | _, _ => []
  end.
Definition batches {X} (size : nat) (l : list X) : list (list X) := slices (length l) size l.

Definition defaultBatchSize : Z := 1000.
Definition defaultDeleteBatchSize : Z := 10000.
Definition batch_size {C D} (fallback : Z) (c : chain C D) : nat := Z.to_nat (if 0 <? batchSize c then batchSize c else fallback).

(** [compactModels]: the zero value of a pointer type is nil. *)
Definition compactModels (objs : list (option pointer)) : list pointer := omap id objs.

(** ** The operations *)

Section Operations.
Context {A C D Act : Type}.
Abbreviation M := (M A Act D).

Variable e : engine A C D.
(** The clock and the generator of ids, by the statements sent before; what
    an action answers and does to the table. *)
Variables (clock : nat -> Z) (uuid : nat -> string).
Variable perform : Act -> nat -> table A -> option D * table A.
(** The guard leases install on transactions. *)
Variable GuardTransaction : M unit.

Definition NowUTC : M Z := gets (fun w => UTCMillisecond (clock (statements w))).

(** *** Transactions *)

(** [transactionBoundary.run]: in order, stopping at the first failure. *)
Fixpoint run (actions : list Act) : M unit :=
  match actions with
  | [] => ret tt
  | a :: actions => fun w =>
      let '(failed, t) := perform a (statements w) (rows w) in
      let w := log (Ran a) (set_rows t (tick w)) in
      match failed with
      | Some err => (Err (ErrAfterCommit err), w)
      | None => run actions w
      end
  end.

Definition withTransactionBoundary (fn : M unit) : M unit := fun w =>
  match begin_ e (statements w) with
  | Some err => (Err (Database err), tick w)
  | None =>
      let rolled_back w' := log RolledBack (set_boundary (boundary w) (set_rows (rows w) w')) in
      match fn (set_boundary (Some []) (tick w)) with
      | (Err err, w') => (Err err, rolled_back w')
      | (Ok _, w') =>
          match commit e (statements w') with
          | Some err => (Err (Database err), rolled_back (tick w'))
          | None => run (default [] (boundary w')) (log Committed (set_boundary (boundary w) (tick w')))
          end
      end
  end.

Definition withWriteTransaction (fn : M unit) : M unit :=
  joined <- gets (fun w => match boundary w with Some _ => true | None => false end);;
  if joined : bool then fn else withTransactionBoundary fn.

(** The session without a transaction of its own changes no statement. *)
Definition withSingleStatementWrite (fn : M unit) : M unit := fn.

(** [Transaction]; the arguments are nil or not. *)
Definition Transaction (ctx : bool) (fn : option (M unit)) : M unit :=
  match fn with
  | None => throw ErrNilTransaction
  | Some fn =>
      if negb ctx then throw ErrNilContext
      else
        joined <- gets (fun w => match boundary w with Some _ => true | None => false end);;
        if joined : bool then fn else withTransactionBoundary (GuardTransaction;; fn)
  end.

(** [AfterCommit] of an action, or of nil. *)
Definition AfterCommit (fn : option Act) : M unit := fun w =>
  match fn with
  | None => (Ok tt, w)
  | Some a =>
      match boundary w with
      | Some l => (Ok tt, set_boundary (Some (l ++ [a])) w)
      | None =>
          let '(failed, t) := perform a (statements w) (rows w) in
          (match failed with Some err => Err (Raised err) | None => Ok tt end, log (Ran a) (set_rows t (tick w)))
      end
  end.

(** *** Statements as the code sends them *)

(** A statement takes the next number; what it answers is the code's to read. *)
Definition statement {X} (s : nat -> table A -> result D (table A * X)) : M X := fun w =>
  match s (statements w) (rows w) with
  | Ok (t, x) => (Ok x, tick (set_rows t w))
  | Err err => (Err (Database err), tick w)
  end.

Definition lift {X Y} (f : X -> Y) (r : result D X) : result D Y := match r with Ok x => Ok (f x) | Err err => Err err end.

Variable m : model A Act D.

Definition IsVersioned : bool := match versionColumn m with Some _ => true | None => false end.

(** [VersionValue] answers 0 of a model without a version. *)
Definition VersionValue (r : record_ A) : Z := if IsVersioned then Version r else 0.

Section Chain.
Abbreviation chain_t := (chain C D).

Definition prepare (c : chain_t) : M chain_t :=
  match defect c with
  | Some err => throw (Defect err)
  | None =>
      if negb (opened c) then throw ErrInvalidDB
      else ret (match enablePurge c with Some _ => c | None => WithPurge [Purge m] c end)
  end.

(** The checks every write opens with. *)
Definition refuse_read_options (c : chain_t) : M unit :=
  if includeDeleted c then throw ErrWithDeletedOnWrite
  else match replicaRead c with Some _ => throw ErrWithReplicaOnWrite | None => ret tt end.

(** The hooks of an operation, unless the chain disables them. *)
Definition run_hooks (c : chain_t) (hook : option (pointer -> M unit)) (objs : list pointer) : M unit :=
  if noHook c then ret tt
  else match hook with Some hook => each objs hook | None => ret tt end.

(** *** Preparing objects *)

(** [SetID()]: an id already set is kept. *)
Definition SetID (p : pointer) : M unit :=
  id <- gets (fun w => ID (record_at w p));;
  if (id =? "")%string then
    fresh_id <- gets (fun w => uuid (statements w));; modify tick;; change (SetID_to fresh_id) p
  else ret tt.

Definition clearAssociations (objs : list pointer) : M unit :=
  each objs (fun p => o <- gets (fun w => at_ w p);; put p (mkObject (record_of o) [])).

Definition normalize_cell (c : cell A) : cell A := match c with Instant t => Instant (UTCMillisecond t) | Value a => Value a end.

(** [normalizeTimes] of one record: the columns of type [time.Time], the two
    of [Base] among them. *)
Definition normalize_record (r : record_ A) : record_ A :=
  SetFields (normalize_cell <$> Fields r) (SetUpdatedAt (UTCMillisecond (UpdatedAt r)) (SetCreatedAt (UTCMillisecond (CreatedAt r)) r)).

Definition normalizeTimes (objs : list pointer) : M unit :=
  match resolves m with
  | Some err => throw (Raised err)
  | None => each objs (change normalize_record)
  end.

Definition initializeVersions (objs : list pointer) : M unit :=
  if IsVersioned then each objs (change (fun r => if Version r =? 0 then SetVersionValue 1 r else r)) else ret tt.

Definition fillForInsert (objs : list pointer) : M Z :=
  each objs SetID;;
  clearAssociations objs;;
  normalizeTimes objs;;
  now <- NowUTC;;
  each objs (fun p => change (SetCreatedAt now) p;; change (SetUpdatedAt now) p);;
  initializeVersions objs;;
  ret now.

(** The primary keys gorm reads of the objects of a statement: the ones set. *)
Definition key_of (l : list (record_ A)) : list string := filter (fun id => id <> ""%string) (map ID l).

(** *** Create *)

Definition insert_batch (batch : list pointer) : M unit :=
  records <- gets (fun w => map (record_at w) batch);;
  statement (fun n t => lift (fun t => (t, tt)) (insert e n records t)).

Definition create_write (c : chain_t) (objs : list pointer) : M unit :=
  run_hooks c (fst <$> create_hooks m) objs;;
  fillForInsert objs;;
  each (batches (batch_size defaultBatchSize c) objs) insert_batch;;
  run_hooks c (snd <$> create_hooks m) objs.

(** Whether an operation runs hooks of the model's own. *)
Definition overrides (c : chain_t) (hooks : option ((pointer -> M unit) * (pointer -> M unit))) : bool :=
  negb (noHook c) && match hooks with Some _ => true | None => false end.

Definition Create (c : chain_t) (objs : list (option pointer)) : M unit :=
  refuse_read_options c;;
  let objs := compactModels objs in
  if bool_decide (objs = []) then ret tt
  else
    c <- prepare c;;
    when (negb (caller c =? "")%string)
      (each objs (fun p => change (SetCreatedBy (caller c)) p;; change (SetUpdatedBy (caller c)) p));;
    let write := create_write c objs in
    if negb (overrides c (create_hooks m)) && (length objs <=? batch_size defaultBatchSize c)%nat
    then withSingleStatementWrite write
    else withWriteTransaction write.

(** *** Update *)

(** [bumpVersionForUpdate]: the version the statement matches; what restores
    the object joins [restoreVersions]. *)
Definition bumpVersionForUpdate (p : pointer) : M Z :=
  prev <- gets (fun w => Version (record_at w p));;
  change (SetVersionValue (wrap64 (prev + 1))) p;;
  modify (fun w => set_restores (restoreVersions w ++ [(p, prev)]) w);;
  ret prev.

Definition updateRowStatement (c : chain C D) : update_columns :=
  mkUpdateColumns (selectColumns c) [OmitColumn "deleted_at"; OmitAssociations].

(** The statement's run by [Updates]: the number of rows it matched. *)
Definition update_row (c : chain_t) (version : option Z) (p : pointer) : M Z :=
  r <- gets (fun w => record_at w p);;
  now <- NowUTC;;
  n <- statement (fun n t => update e n (mkWhere (key_of [r]) version (conditions c)) (updateRowStatement c) r now t);;
  change (updated_object e now) p;;
  ret n.

Definition update_one (c : chain_t) (p : pointer) : M unit :=
  version <- (if IsVersioned then prev <- bumpVersionForUpdate p;; ret (Some prev) else ret None);;
  matched <- update_row c version p;;
  if matched =? 0 then
    r <- gets (fun w => record_at w p);;
    throw (match version with Some v => ErrStaleObject (ID r) v | None => ErrRecordNotFound end)
  else ret tt.

Definition update_write (c : chain_t) (objs : list pointer) : M unit :=
  run_hooks c (fst <$> update_hooks m) objs;;
  normalizeTimes objs;;
  clearAssociations objs;;
  each objs (update_one c);;
  run_hooks c (snd <$> update_hooks m) objs.

(** The objects of an update carry an id, and a version where versioned. *)
Definition check_updatable (p : pointer) : M unit :=
  r <- gets (fun w => record_at w p);;
  if (ID r =? "")%string then throw ErrIDRequired
  else if IsVersioned && (VersionValue r =? 0) then throw (ErrVersionRequired (ID r))
  else ret tt.

(** The deferred function: [for _, restore := range restoreVersions]. *)
Fixpoint restore (l : list (pointer * Z)) : M unit :=
  match l with
  | [] => ret tt
  | (p, prev) :: l => change (SetVersionValue prev) p;; restore l
  end.

Definition restoring (body : M unit) : M unit := fun w =>
  match body (set_restores [] w) with
  | (Ok _, w') => (Ok tt, set_restores (restoreVersions w) w')
  | (Err err, w') => (Err err, set_restores (restoreVersions w) (snd (restore (restoreVersions w') w')))
  end.

(** The columns the framework manages join a narrowed selection. *)
Definition managed_columns (c : chain_t) : chain_t :=
  let c := if negb (caller c =? "")%string && negb (bool_decide (selectColumns c = []))
           then select_columns (ensureSelected (selectColumns c) "updated_by") c else c in
  match versionColumn m with
  | Some column => if bool_decide (selectColumns c = []) then c else select_columns (ensureSelected (selectColumns c) column) c
  | None => c
  end.

Definition Update (c : chain_t) (objs : list (option pointer)) : M unit :=
  refuse_read_options c;;
  let objs := compactModels objs in
  if bool_decide (objs = []) then ret tt
  else
    each objs check_updatable;;
    c <- prepare c;;
    when (negb (caller c =? "")%string) (each objs (change (SetUpdatedBy (caller c))));;
    let c := managed_columns c in
    let write := update_write c objs in
    restoring (if negb (overrides c (update_hooks m)) && (length objs =? 1)%nat
               then withSingleStatementWrite write
               else withWriteTransaction write).

(** *** UpdateByID *)

(** An assignment: the table its reference was generated for, its column and
    its value, [None] for nil. *)
Record Assignment : Type := mkAssignment { Table_of : string; Column_of : string; Value_of : option (assigned A) }.

Variable outerTableName : string.

Fixpoint collect_assignments (l : list Assignment) (updates : gmap string (assigned A)) : result (error D) (gmap string (assigned A)) :=
  match l with
  | [] => Ok updates
  | a :: l =>
      if (Column_of a =? "")%string then Err ErrEmptyFieldName
      else if negb (Table_of a =? "")%string && negb (Table_of a =? outerTableName)%string then Err ErrColumnTable
      else
        match Value_of a with
        | None => Err ErrNilValue
        | Some v => if bool_decide (is_Some (updates !! Column_of a)) then Err ErrDuplicateColumn
                    else collect_assignments l (<[Column_of a := v]> updates)
        end
  end.

Definition on_time_base (v : assigned A) : assigned A := match v with PutCell c => PutCell (normalize_cell c) | _ => v end.

Definition UpdateByID (c : chain_t) (id : string) (assignments : list Assignment) : M unit :=
  refuse_read_options c;;
  if (id =? "")%string then throw ErrIDRequired
  else if bool_decide (length assignments = 0%nat) then throw ErrNoAssignments
  else
    match collect_assignments assignments ∅ with
    | Err err => throw err
    | Ok updates =>
        let updates := on_time_base <$> updates in
        let updates := if (caller c =? "")%string then updates else <["updated_by" := PutText (caller c)]> updates in
        c <- prepare c;;
        let updates :=
          match versionColumn m with
          | Some column => match updates !! column with Some _ => updates | None => <[column := BumpVersion]> updates end
          | None => updates
          end in
        now <- NowUTC;;
        statement (fun n t => lift (fun t => (t, tt)) (assign e n (mkWhere [id] None (conditions c)) updates now t))
    end.

(** *** Delete *)

(** A statement of a delete over a batch of objects: the rows it matched.  A
    soft delete marks the objects too. *)
Definition delete_rows (c : chain_t) (version : option Z) (batch : list pointer) : M Z :=
  records <- gets (fun w => map (record_at w) batch);;
  now <- NowUTC;;
  let unscoped := default false (enablePurge c) in
  when (negb unscoped) (each batch (change (deleted_object e now)));;
  statement (fun n t => delete e n (mkWhere (key_of records) version (conditions c)) unscoped (matchAll c) now t).

(** The row of one object, checked against the version it carries. *)
Definition delete_checked (c : chain_t) (p : pointer) : M Z :=
  r <- gets (fun w => record_at w p);;
  let v := VersionValue r in
  let carried := 0 <? v in
  matched <- delete_rows c (if carried then Some v else None) [p];;
  if carried && (matched =? 0) then throw (ErrStaleObject (ID r) v) else ret matched.

(** A loop that adds up what its statements matched. *)
Fixpoint summing {X} (l : list X) (f : X -> M Z) : M Z :=
  match l with
  | [] => ret 0
  | x :: l => a <- f x;; b <- summing l f;; ret (a + b)
  end.

Definition delete_write (c : chain_t) (guarded : bool) (strict : bool) (expected : Z) (objs : list pointer) : M unit :=
  run_hooks c (fst <$> delete_hooks m) objs;;
  matched <- (if guarded then summing objs (delete_checked c)
              else summing (batches (batch_size defaultDeleteBatchSize c) objs) (delete_rows c None));;
  if strict && (matched <? expected) then throw ErrRecordNotFound
  else run_hooks c (snd <$> delete_hooks m) objs.

(** A new zero value of the model. *)
Definition new_object : M pointer :=
  p <- gets (fun w => fresh (dom (heap w)));; put p zero_object;; ret p.

Definition Delete (c : chain_t) (objs : list (option pointer)) : M unit :=
  refuse_read_options c;;
  c <- prepare c;;
  let conditioned := matchAll c || negb (bool_decide (length (conditions c) = 0%nat)) in
  let objs := compactModels objs in
  if bool_decide (objs = []) && negb conditioned then ret tt
  else
    records <- gets (fun w => map (record_at w) objs);;
    let expected := Z.of_nat (size (list_to_set (key_of records) : gset string)) in
    if conditioned && (0 <? expected) then throw ErrConditionsWithRecords
    else
      objs <- (if bool_decide (objs = []) then p <- new_object;; ret [p] else ret objs);;
      let strict := negb (allowMissing c) && (0 <? expected) in
      if conditioned && overrides c (delete_hooks m) then throw ErrConditionsWithDeleteHooks
      else
        guarded <- gets (fun w => IsVersioned && existsb (fun p => 0 <? VersionValue (record_at w p)) objs);;
        let write := delete_write c guarded strict expected objs in
        if negb (overrides c (delete_hooks m)) && (length objs <=? batch_size defaultDeleteBatchSize c)%nat
           && (negb strict || (expected <=? 1)) && (negb guarded || (length objs <=? 1)%nat)
        then withSingleStatementWrite write
        else withWriteTransaction write.
End Chain.
End Operations.
