(* ===== verification/WritesBase.v ===== *)
(** * What the write path relies on of gorm, and how its code is reasoned about

    [Documented] states what the statements of an engine do when they
    succeed, and [sql] is one such engine; the classes [Local_] and [Inside]
    say what a piece of code leaves alone outside and inside a
    transaction. *)

From stdpp Require Import base list gmap strings.
From Stdlib Require Import ZArith Lia.
From S2P Require Import Prelude Writes.
Local Open Scope Z_scope.
Local Open Scope write_scope.

(** ** Statements *)

Section Statements.
Context {A C : Type}.
(** Which rows a condition of the chain is true of. *)
Variable holds : C -> record_ A -> bool.
Variable versionColumn : option string.

(** The rows a statement is about; soft deleted rows are out of its scope
    unless it is unscoped. *)
Definition selects (w : where_ C) (unscoped : bool) (r : record_ A) : bool :=
  (unscoped || live r) && (bool_decide (keys w = []) || bool_decide (ID r ∈ keys w))
  && match version_is w with Some v => Version r =? v | None => true end
  && forallb (fun c => holds c r) (also w).

Definition selected (columns : list string) (c : string) : bool := bool_decide (columns = []) || bool_decide (c ∈ columns).

Definition writes (columns : update_columns) (c : string) : bool :=
  selected (Select columns) c && bool_decide (OmitColumn c ∉ Omit columns).

(** An UPDATE of the columns selected and not omitted.  The creation facts
    stay, by their create-only permission ([<-:create] in the tags of
    modelregistry.Base), and the update time is refreshed. *)
Definition written (columns : update_columns) (o : record_ A) (now : Z) (old : record_ A) : record_ A :=
  mkRecord (ID old) (CreatedBy old) (if writes columns "updated_by" then UpdatedBy o else UpdatedBy old)
    (CreatedAt old) now (if writes columns "deleted_at" then DeletedAt o else DeletedAt old)
    (if match versionColumn with Some c => writes columns c | None => false end then Version o else Version old)
    (filter (fun '(c, _) => writes columns c = true) (Fields o) ∪ Fields old).

Definition marked (now : Z) (old : record_ A) : record_ A := SetDeletedAt (Some now) old.

(** The columns an assignment may name for [assign_one] to say what it does:
    the model's own, its version and [updated_by]. *)
Definition framework_columns : list string := ["id"; "created_by"; "created_at"; "updated_at"; "deleted_at"].

Definition assign_one (now : Z) (column : string) (v : assigned A) (r : record_ A) : record_ A :=
  match v with
  | PutCell x => SetFields (<[column := x]> (Fields r)) r
  | PutText s => SetUpdatedBy s r
  | PutNumber n => SetVersionValue n r
  | BumpVersion => SetVersionValue (Version r + 1) r
  end.

Definition assignable (updates : gmap string (assigned A)) : Prop :=
  forall c v, updates !! c = Some v ->
    match v with
    | PutCell _ => c ∉ framework_columns /\ c <> "updated_by"%string /\ Some c <> versionColumn
    | PutText _ => c = "updated_by"%string
    | PutNumber _ | BumpVersion => Some c = versionColumn
    end.

Definition assigned_row (updates : gmap string (assigned A)) (now : Z) (r : record_ A) : record_ A :=
  SetUpdatedAt now (map_fold (assign_one now) r updates).

(** Every row under its id. *)
Definition keyed (t : table A) : Prop := forall id r, t !! id = Some r -> ID r = id.

Definition count (w : where_ C) (unscoped : bool) (t : table A) : Z :=
  Z.of_nat (size (filter (fun '(_, r) => selects w unscoped r = true) t)).

Class Documented {D} (e : engine A C D) : Prop := {
  insert_documented n l t t' : insert e n l t = Ok t' ->
    NoDup (map ID l) /\ (forall r, r ∈ l -> t !! ID r = None) /\ t' = list_to_map (map (fun r => (ID r, r)) l) ∪ t;
  update_documented n w columns o now t t' k : update e n w columns o now t = Ok (t', k) ->
    restricts w = true /\ k = count w false t /\ t' = (fun r => if selects w false r then written columns o now r else r) <$> t;
  delete_documented n w unscoped global now t t' k : delete e n w unscoped global now t = Ok (t', k) ->
    (restricts w || global = true) /\ k = count w unscoped t /\
    t' = if unscoped then filter (fun '(_, r) => selects w unscoped r = false) t
         else (fun r => if selects w unscoped r then marked now r else r) <$> t;
  assign_documented n w updates now t t' : assign e n w updates now t = Ok t' -> assignable updates ->
    t' = (fun r => if selects w false r then assigned_row updates now r else r) <$> t;
  (** What a statement leaves in an object it was passed is a time. *)
  updated_object_documented now r : ID (updated_object e now r) = ID r /\ Version (updated_object e now r) = Version r;
  deleted_object_documented now r : ID (deleted_object e now r) = ID r /\ Version (deleted_object e now r) = Version r }.

Lemma keyed_fmap (f : record_ A -> record_ A) t : (forall r, ID (f r) = ID r) -> keyed t -> keyed (f <$> t).
Proof. intros Hf Hk id r. rewrite lookup_fmap, fmap_Some. intros (r0 & Hr & ->). rewrite Hf. eauto. Qed.

Lemma count_zero w unscoped t : count w unscoped t = 0 -> forall id r, t !! id = Some r -> selects w unscoped r = false.
Proof.
  unfold count. intros H id r Hr. destruct (selects w unscoped r) eqn:E; [|done].
  assert (filter (fun '(_, r) => selects w unscoped r = true) t !! id = Some r) as Hf by (apply map_lookup_filter_Some; by split).
  assert (size (filter (fun '(_, r) => selects w unscoped r = true) t) = 0%nat) as H0 by lia.
  apply map_size_empty_inv in H0. by rewrite H0, lookup_empty in Hf.
Qed.

Lemma count_pos w unscoped t : 0 <= count w unscoped t.
Proof. unfold count. lia. Qed.

Lemma count_some w unscoped t : count w unscoped t <> 0 -> exists id r, t !! id = Some r /\ selects w unscoped r = true.
Proof.
  unfold count. intros H. destruct (map_choose (filter (fun '(_, r) => selects w unscoped r = true) t)) as (id & r & Hr).
  - intros E. rewrite E, map_size_empty in H. done.
  - apply map_lookup_filter_Some in Hr as [??]. by exists id, r.
Qed.

(** A statement that matches nothing changes nothing. *)
Lemma fmap_unselected w unscoped (f : record_ A -> record_ A) (t : table A) :
  (forall id r, t !! id = Some r -> selects w unscoped r = false) -> (fun r => if selects w unscoped r then f r else r) <$> t = t.
Proof.
  intros H. apply map_eq. intros id. rewrite lookup_fmap. destruct (t !! id) as [r|] eqn:E; cbn; [|done]. by rewrite (H id r E).
Qed.

Lemma filter_unselected w unscoped (t : table A) :
  (forall id r, t !! id = Some r -> selects w unscoped r = false) -> filter (fun '(_, r) => selects w unscoped r = false) t = t.
Proof.
  intros H. apply map_eq. intros id. destruct (t !! id) as [r|] eqn:E.
  - apply map_lookup_filter_Some. split; [done|]. by apply (H id).
  - apply map_lookup_filter_None. by left.
Qed.
End Statements.
Arguments Documented {A C} holds versionColumn {D} e.

(** ** Pieces of code *)

Section Calculus.
Context {A Act D : Type}.
Abbreviation M := (M A Act D).

Lemma bind_ok {X Y} (m : M X) (k : X -> M Y) w x w' : m w = (Ok x, w') -> bind m k w = k x w'.
Proof. unfold bind. by intros ->. Qed.

(** A sequence that succeeds. *)
Lemma bind_inv {X Y} (m : M X) (k : X -> M Y) w y : (bind m k w).1 = Ok y ->
  exists x w', m w = (Ok x, w') /\ bind m k w = k x w' /\ (k x w').1 = Ok y.
Proof. unfold bind. destruct (m w) as [[x|err] w']; [|done]. by exists x, w'. Qed.

(** *** Code that keeps to the objects *)

(** [Local m]: the table, the boundary and the events stay, whatever comes of
    it, and no error of a committed transaction does. *)
Class Local_ {X} (m : M X) : Prop :=
  local : forall w, rows (m w).2 = rows w /\ boundary (m w).2 = boundary w /\ events (m w).2 = events w /\
    forall err, (m w).1 <> Err (ErrAfterCommit err).

(** [Inside m]: within a transaction, what is registered for its commit grows
    and nothing runs. *)
Class Inside {X} (m : M X) : Prop :=
  inside : forall w l, boundary w = Some l ->
    (exists l', boundary (m w).2 = Some (l ++ l')) /\ events (m w).2 = events w /\
    forall err, (m w).1 <> Err (ErrAfterCommit err).

#[export] Instance Local_ret {X} (x : X) : Local_ (ret x : M X).
Proof. by repeat split. Qed.
#[export] Instance Local_gets {X} (f : world A Act -> X) : Local_ (gets f : M X).
Proof. by repeat split. Qed.
#[export] Instance Local_bind {X Y} (m : M X) (k : X -> M Y) : Local_ m -> (forall x, Local_ (k x)) -> Local_ (bind m k).
Proof.
  intros Hm Hk w. specialize (Hm w). unfold bind. destruct (m w) as [[x|err] w']; cbn in *; destruct Hm as (E1 & E2 & E3 & He).
  - specialize (Hk x w') as (F1 & F2 & F3 & Hf). by rewrite F1, F2, F3.
  - repeat split; try done. intros err' [= ->]. by apply (He err').
Qed.
#[export] Instance Local_put p o : Local_ (put p o : M unit).
Proof. by repeat split. Qed.
#[export] Instance Local_tick : Local_ (modify tick : M unit).
Proof. by repeat split. Qed.
#[export] Instance Local_restores f : Local_ (modify (fun w => set_restores (f w) w) : M unit).
Proof. by repeat split. Qed.
#[export] Instance Local_change f p : Local_ (change f p : M unit).
Proof. apply Local_bind; apply _. Qed.
#[export] Instance Local_each {X} (l : list X) (f : X -> M unit) : (forall x, Local_ (f x)) -> Local_ (each l f).
Proof. intros Hf. induction l as [|x l IH]; cbn; [apply _|]. by apply Local_bind. Qed.
#[export] Instance Local_if {X} (b : bool) (m1 m2 : M X) : Local_ m1 -> Local_ m2 -> Local_ (if b then m1 else m2).
Proof. by destruct b. Qed.
#[export] Instance Local_when b (m : M unit) : Local_ m -> Local_ (when b m).
Proof. intros H. apply Local_if; apply _. Qed.

Lemma Local_throw {X} (err : error D) : (forall err', err <> ErrAfterCommit err') -> Local_ (throw err : M X).
Proof. intros H w. repeat split. intros err' [= E]. by apply (H err'). Qed.

#[export] Instance Inside_local {X} (m : M X) : Local_ m -> Inside m | 10.
Proof. intros H w l E. destruct (H w) as (_ & E2 & E3 & He). split; [|done]. exists []. by rewrite app_nil_r, E2. Qed.
#[export] Instance Inside_bind {X Y} (m : M X) (k : X -> M Y) : Inside m -> (forall x, Inside (k x)) -> Inside (bind m k).
Proof.
  intros Hm Hk w l E. specialize (Hm w l E). unfold bind. destruct (m w) as [[x|err] w']; cbn in *; destruct Hm as ((l' & E2) & E3 & He).
  - destruct (Hk x w' _ E2) as ((l'' & F2) & F3 & Hf). split; [exists (l' ++ l''); by rewrite F2, app_assoc|]. by rewrite F3.
  - split; [by exists l'|]. split; [done|]. intros err' [= ->]. by apply (He err').
Qed.
#[export] Instance Inside_each {X} (l : list X) (f : X -> M unit) : (forall x, Inside (f x)) -> Inside (each l f).
Proof. intros Hf. induction l as [|x l IH]; cbn; [apply _|]. by apply Inside_bind. Qed.
#[export] Instance Inside_summing {X} (l : list X) (f : X -> M Z) : (forall x, Inside (f x)) -> Inside (summing l f).
Proof. intros Hf. induction l as [|x l IH]; cbn; [apply _|]. apply Inside_bind; [done|]. intros a. by apply Inside_bind; [|apply _]. Qed.
#[export] Instance Inside_if {X} (b : bool) (m1 m2 : M X) : Inside m1 -> Inside m2 -> Inside (if b then m1 else m2).
Proof. by destruct b. Qed.
#[export] Instance Inside_when b (m : M unit) : Inside m -> Inside (when b m).
Proof. intros H. apply Inside_if; apply _. Qed.
#[export] Instance Inside_statement {X} (s : nat -> table A -> result D (table A * X)) : Inside (statement s : M X).
Proof.
  intros w l E. unfold statement. destruct (s _ _) as [[t x]|err]; cbn; (split; [exists []; by rewrite app_nil_r|done]).
Qed.
End Calculus.

(** The batches of a chain are of some size. *)
Lemma batch_size_pos {C D} fallback (c : chain C D) : 0 < fallback -> (0 < batch_size fallback c)%nat.
Proof. intros H. unfold batch_size. destruct (0 <? batchSize c) eqn:E; boolify; lia. Qed.

#[export] Hint Extern 1 (Local_ (throw _)) => apply Local_throw; intros ?; repeat case_match; discriminate : typeclass_instances.
#[export] Hint Extern 2 (Local_ (match ?x with _ => _ end)) => destruct x : typeclass_instances.
#[export] Hint Extern 2 (Inside (match ?x with _ => _ end)) => destruct x : typeclass_instances.

(** ** An engine that does as documented

    Statements fail by their number, for duplicate keys and for want of a
    condition, and in no other case. *)

Section Reference.
Context {A C D : Type} (holds : C -> record_ A -> bool) (versionColumn : option string).
Context (fails : nat -> option D) (duplicated missing : D).

Definition unless_failing {X} (n : nat) (r : result D X) : result D X := match fails n with Some err => Err err | None => r end.

Definition sql : engine A C D := mkEngine
  (fun n l t => unless_failing n
    (if bool_decide (NoDup (map ID l)) && forallb (fun r => bool_decide (t !! ID r = None)) l
     then Ok (list_to_map (map (fun r => (ID r, r)) l) ∪ t) else Err duplicated))
  (fun n w columns o now t => unless_failing n
    (if restricts w then Ok ((fun r => if selects holds w false r then written versionColumn columns o now r else r) <$> t, count holds w false t) else Err missing))
  (fun n w unscoped global now t => unless_failing n
    (if restricts w || global
     then Ok (if unscoped then filter (fun '(_, r) => selects holds w unscoped r = false) t
              else (fun r => if selects holds w unscoped r then marked now r else r) <$> t, count holds w unscoped t)
     else Err missing))
  (fun n w updates now t => unless_failing n
    (if restricts w then Ok ((fun r => if selects holds w false r then assigned_row updates now r else r) <$> t) else Err missing))
  fails fails SetUpdatedAt (fun now => SetDeletedAt (Some now)).

#[export] Instance sql_documented : Documented holds versionColumn sql.
Proof.
  split; cbn; unfold unless_failing.
  - intros n l t t'. destruct (fails n); [done|]. destruct (_ && _) eqn:E; [|done]. intros [= <-]. apply andb_prop in E as [E1 E2].
    split; [by apply bool_decide_eq_true in E1|]. split; [|done]. intros r Hr. rewrite forallb_forall in E2.
    specialize (E2 r (proj1 (list_elem_of_In _ _) Hr)). by apply bool_decide_eq_true in E2.
  - intros n w columns o now t t' k. destruct (fails n); [done|]. destruct (restricts w); [|done]. by intros [= <- <-].
  - intros n w unscoped global now t t' k. destruct (fails n); [done|]. destruct (_ || _) eqn:E; [|done]. by intros [= <- <-].
  - intros n w updates now t t'. destruct (fails n); [done|]. destruct (restricts w); [|done]. by intros [= <-].
  - done.
  - done.
Qed.
End Reference.
