(* ===== verification/WritesSpec.v ===== *)
(** * Writes take effect as a whole

    The four writes and a transaction around any work, called outside a
    transaction, either leave the table as it was, with no action run, or
    take effect; what was registered for after the commit runs after it, in
    order, up to the first failure. *)

From stdpp Require Import base list gmap strings.
From Stdlib Require Import ZArith Lia.
From S2P Require Import Prelude Writes WritesBase.
Local Open Scope Z_scope.
Local Open Scope write_scope.

Section Whole.
Context {A C D Act : Type}.
Abbreviation M := (M A Act D).
Context (e : engine A C D) (clock : nat -> Z) (uuid : nat -> string).
Context (perform : Act -> nat -> table A -> option D * table A) (GuardTransaction : M unit).
Context (holds : C -> record_ A -> bool).

(** ** Within a transaction *)

(** Hooks that keep to the transaction they run in. *)
Class Behaved (m : model A Act D) : Prop := {
  create_inside h : create_hooks m = Some h -> (forall p, Inside (h.1 p)) /\ forall p, Inside (h.2 p);
  update_inside h : update_hooks m = Some h -> (forall p, Inside (h.1 p)) /\ forall p, Inside (h.2 p);
  delete_inside h : delete_hooks m = Some h -> (forall p, Inside (h.1 p)) /\ forall p, Inside (h.2 p) }.

Section Model.
Context (m : model A Act D) `{!Behaved m}.

#[export] Instance Local_NowUTC : Local_ (NowUTC clock : M Z).
Proof. apply _. Qed.

#[local] Instance Inside_hooks c hooks (f : (pointer -> M unit) * (pointer -> M unit) -> pointer -> M unit) objs :
  (forall h, hooks = Some h -> forall p, Inside (f h p)) -> Inside (run_hooks (C := C) c (f <$> hooks) objs).
Proof. intros H. unfold run_hooks. destruct (noHook c); [apply _|]. destruct hooks as [h|]; [|apply _]. cbn. apply Inside_each. by apply H. Qed.

#[export] Instance Local_fill objs : Local_ (fillForInsert clock uuid m objs : M Z).
Proof. unfold fillForInsert, SetID, clearAssociations, normalizeTimes, initializeVersions. apply _. Qed.

#[local] Instance Inside_create c objs : Inside (create_write e clock uuid m c objs).
Proof.
  unfold create_write, insert_batch. apply Inside_bind; [apply Inside_hooks; intros h E; by apply (create_inside h E)|]. intros _.
  apply Inside_bind; [apply _|]. intros _. apply Inside_bind; [apply _|]. intros _. apply Inside_hooks. intros h E. by apply (create_inside h E).
Qed.

#[export] Instance Local_bump p : Local_ (bumpVersionForUpdate p : M Z).
Proof. unfold bumpVersionForUpdate. apply _. Qed.

#[local] Instance Inside_update_one c p : Inside (update_one e clock m c p).
Proof. unfold update_one, update_row. apply _. Qed.

#[local] Instance Inside_update c objs : Inside (update_write e clock m c objs).
Proof.
  unfold update_write, normalizeTimes, clearAssociations. apply Inside_bind; [apply Inside_hooks; intros h E; by apply (update_inside h E)|]. intros _.
  apply Inside_bind; [apply _|]. intros _. apply Inside_bind; [apply _|]. intros _. apply Inside_bind; [apply _|]. intros _.
  apply Inside_hooks. intros h E. by apply (update_inside h E).
Qed.

#[local] Instance Inside_delete_rows c v batch : Inside (delete_rows (D := D) (Act := Act) e clock c v batch).
Proof. unfold delete_rows. apply _. Qed.

#[local] Instance Inside_delete c guarded strict expected objs : Inside (delete_write e clock m c guarded strict expected objs).
Proof.
  unfold delete_write, delete_checked. apply Inside_bind; [apply Inside_hooks; intros h E; by apply (delete_inside h E)|]. intros _.
  apply Inside_bind; [apply _|]. intros matched. apply Inside_if; [apply _|]. apply Inside_hooks. intros h E. by apply (delete_inside h E).
Qed.

(** ** Outside a transaction *)

(** How a call ends: it took effect without a transaction of its own, or with
    one that committed and ran what was registered, to its end or to the
    first action that failed; or it left the table alone and ran nothing. *)
Definition outcome (w : world A Act) (r : result (error D) unit) (w' : world A Act) : Prop :=
  boundary w' = None /\
  match r with
  | Ok _ => events w' = events w \/ exists acts, events w' = events w ++ Committed :: map Ran acts
  | Err (ErrAfterCommit _) => exists acts a, events w' = events w ++ Committed :: map Ran (acts ++ [a])
  | Err _ => rows w' = rows w /\ (events w' = events w \/ events w' = events w ++ [RolledBack])
  end.

Class Whole (f : M unit) : Prop := whole : forall w, boundary w = None -> outcome w (f w).1 (f w).2.

(** One statement at most, and no error after it. *)
Class Clean {X} (f : M X) : Prop :=
  clean : forall w, boundary w = None -> boundary (f w).2 = None /\ events (f w).2 = events w /\
    forall err, (f w).1 = Err err -> rows (f w).2 = rows w /\ forall err', err <> ErrAfterCommit err'.

#[local] Instance Clean_local {X} (f : M X) : Local_ f -> Clean f | 10.
Proof.
  intros H w Ew. destruct (H w) as (E1 & E2 & E3 & He). rewrite E2, E3. repeat split; try done. intros err' ->. by apply (He err').
Qed.
#[local] Instance Clean_local_bind {X Y} (f : M X) (k : X -> M Y) : Local_ f -> (forall x, Clean (k x)) -> Clean (bind f k).
Proof.
  intros Hf Hk w Ew. destruct (Hf w) as (E1 & E2 & E3 & He). unfold bind. destruct (f w) as [[x|err] w']; cbn in *.
  - destruct (Hk x w') as (F1 & F2 & F3); [by rewrite E2|]. rewrite F1, F2, E3. repeat split; [|by apply (F3 err)]. rewrite <- E1. by apply (F3 err).
  - rewrite E2, E3. split; [done|]. split; [done|]. intros err' [= <-]. split; [done|]. intros err' ->. by apply (He err').
Qed.

Lemma whole_clean f : Clean f -> Whole f.
Proof.
  intros H w Ew. destruct (H w Ew) as (E1 & E2 & He). split; [done|]. rewrite E2. destruct (f w).1 as [x|err]; [by left|].
  destruct (He err eq_refl) as [-> Hn]. destruct err; try (split; [done|by left]). by destruct (Hn e0).
Qed.
#[local] Instance Whole_local f : Local_ f -> Whole f | 10.
Proof. intros H. apply whole_clean, _. Qed.
Lemma whole_bind_such {X} (P : X -> Prop) (f : M X) k :
  Local_ f -> (forall w x, (f w).1 = Ok x -> P x) -> (forall x, P x -> Whole (k x)) -> Whole (bind f k).
Proof.
  intros Hf Hp Hk w Ew. destruct (Hf w) as (E1 & E2 & E3 & He). specialize (Hp w). unfold bind. destruct (f w) as [[x|err] w']; cbn in *.
  - destruct (Hk x (Hp x eq_refl) w') as (F1 & F2); [by rewrite E2|]. split; [done|]. by rewrite E3, E1 in F2.
  - split; [by rewrite E2|]. rewrite E1, E3. destruct err; try (split; [done|by left]). by destruct (He e0).
Qed.
#[local] Instance Whole_bind {X} (f : M X) k : Local_ f -> (forall x, Whole (k x)) -> Whole (bind f k).
Proof. intros Hf Hk. by apply (whole_bind_such (fun _ => True)). Qed.
#[local] Instance Whole_if (b : bool) f g : Whole f -> Whole g -> Whole (if b then f else g).
Proof. by destruct b. Qed.

Lemma run_outcome acts w :
  boundary (run perform acts w).2 = boundary w /\
  match (run perform acts w).1 with
  | Ok _ => events (run perform acts w).2 = events w ++ map Ran acts
  | Err err => (exists err', err = ErrAfterCommit (D := D) err') /\ exists l a, events (run perform acts w).2 = events w ++ map Ran (l ++ [a])
  end.
Proof.
  revert w. induction acts as [|a acts IH]; intros w; cbn; [by rewrite app_nil_r|].
  destruct (perform a (statements w) (rows w)) as [[err|] t]; cbn.
  - split; [done|]. split; [by eexists|]. by exists [], a.
  - match goal with |- context [run perform acts ?u] => destruct (IH u) as [E1 E2]; destruct (run perform acts u) as [[x|err] w'] end; cbn in *.
    + split; [done|]. by rewrite E2, <- app_assoc.
    + split; [done|]. destruct E2 as [He (l & b & E2)]. split; [done|]. exists (a :: l), b. by rewrite E2, <- app_assoc.
Qed.

Lemma whole_boundary fn : Inside fn -> Whole (withTransactionBoundary e perform fn).
Proof.
  intros H w Ew. unfold withTransactionBoundary. destruct (begin_ e (statements w)) as [err|]; cbn; [split; [done|]; split; [done|by left]|].
  destruct (H (set_boundary (Some []) (tick w)) [] eq_refl) as ((l' & E2) & E3 & He).
  destruct (fn _) as [[x|err] w']; cbn in *.
  - destruct (commit e (statements w')) as [err|]; cbn.
    + split; [done|]. split; [done|]. right. cbn. by rewrite E3.
    + match goal with |- context [run perform ?l ?u] => destruct (run_outcome l u) as [F1 F2]; destruct (run perform l u) as [[y|err] w''] end; cbn in *.
      * split; [by rewrite F1|]. right. eexists. by rewrite F2, E3, <- app_assoc.
      * split; [by rewrite F1|]. destruct F2 as [(err' & ->) (l & a & F2)]. exists l, a. by rewrite F2, E3, <- app_assoc.
  - split; [done|]. cbn; rewrite E3. destruct err; try (split; [done|by right]). by destruct (He e0).
Qed.

#[local] Instance Whole_write_transaction fn : Inside fn -> Whole (withWriteTransaction e perform fn).
Proof. intros H w Ew. unfold withWriteTransaction, bind, gets. cbn. rewrite Ew. by apply whole_boundary. Qed.

(** ** Calls of one statement *)

Lemma batches_one {X} n (l : list X) : l <> [] -> (length l <= n)%nat -> batches n l = [l].
Proof.
  destruct l as [|x l]; [done|]. intros _ H. unfold batches. cbn [length slices]. rewrite (take_ge (x :: l)), (drop_ge (x :: l)) by done. by destruct (length l).
Qed.

Lemma hooks_off c hooks (f : (pointer -> M unit) * (pointer -> M unit) -> pointer -> M unit) objs :
  overrides (C := C) c hooks = false -> run_hooks c (f <$> hooks) objs = ret tt.
Proof. unfold overrides, run_hooks. destruct (noHook c); [done|]. by destruct hooks. Qed.

(** A piece of code that counts the rows it matched, and changed none where it
    counts none. *)
Class Counts (f : M Z) : Prop :=
  counts : forall w, boundary (f w).2 = boundary w /\ events (f w).2 = events w /\
    match (f w).1 with
    | Ok k => 0 <= k /\ (k = 0 -> rows (f w).2 = rows w)
    | Err err => rows (f w).2 = rows w /\ forall err', err <> ErrAfterCommit err'
    end.

Lemma counts_local_bind {X} (f : M X) (k : X -> M Z) : Local_ f -> (forall x, Counts (k x)) -> Counts (bind f k).
Proof.
  intros Hf Hk w. destruct (Hf w) as (E1 & E2 & E3 & He). unfold bind. destruct (f w) as [[x|err] w']; cbn in *.
  - destruct (Hk x w') as (F1 & F2 & F3). by rewrite F1, F2, E2, E3, <- E1.
  - rewrite E1, E2, E3. repeat split; try done. intros err' ->. by apply (He err').
Qed.

(** What follows may fail only when nothing was counted. *)
Definition fails_on_none {X} (k : Z -> M X) : Prop := forall n w err, 0 <= n -> (k n w).1 = Err err -> n = 0.

Lemma clean_counts {X} f (k : Z -> M X) : Counts f -> (forall n, Local_ (k n)) -> fails_on_none k -> Clean (bind f k).
Proof.
  intros Hf Hk Hn w Ew. destruct (Hf w) as (E1 & E2 & E3). unfold bind. destruct (f w) as [[n|err] w']; cbn in *.
  - destruct (Hk n w') as (F1 & F2 & F3 & He). rewrite F2, F3, F1, E1. split; [done|]. split; [done|]. intros err Herr. destruct E3 as [Hp E3].
    split; [by eapply E3, Hn|]. intros err' ->. by apply (He err').
  - rewrite E1, E2. split; [done|]. split; [done|]. intros err' [= <-]. done.
Qed.

Lemma counts_bind f (k : Z -> M Z) : Counts f -> (forall n, Local_ (k n)) -> fails_on_none k ->
  (forall n w n', (k n w).1 = Ok n' -> n' = n) -> Counts (bind f k).
Proof.
  intros Hf Hk Hn Hv w. destruct (Hf w) as (E1 & E2 & E3). unfold bind. destruct (f w) as [[n|err] w']; cbn in *; [|done].
  destruct (Hk n w') as (F1 & F2 & F3 & He). rewrite F1, F2, F3. split; [done|]. split; [done|]. destruct E3 as [Hpos E3].
  destruct (k n w').1 as [n'|err] eqn:En; [by rewrite (Hv _ _ _ En)|]. split; [by eapply E3, Hn|]. intros err' ->. by apply (He err').
Qed.

Lemma counts_one {X} (x : X) f : Counts (f x) -> Counts (summing [x] f).
Proof.
  intros H. cbn. apply counts_bind; [done|intros; apply _|by intros n w err|]. intros n w n'. cbn. intros [= <-]. lia.
Qed.

Context `{!Documented holds (versionColumn m) e}.

Lemma counts_update_row c v p : Counts (update_row e clock c v p).
Proof.
  unfold update_row. repeat (apply counts_local_bind; [apply _|intros ?]). intros w. unfold bind, statement.
  destruct (update e _ _ _ _ _ _) as [[t k]|err] eqn:E; cbn; [|done]. apply (update_documented holds (versionColumn m)) in E as (_ & -> & ->). repeat split; [apply count_pos|].
  intros Hk. apply fmap_unselected. by apply count_zero.
Qed.

Lemma counts_delete_rows c v batch : Counts (delete_rows e clock c v batch).
Proof.
  unfold delete_rows. repeat (apply counts_local_bind; [apply _|intros ?]). intros w. unfold statement.
  destruct (delete e _ _ _ _ _ _) as [[t k]|err] eqn:E; cbn; [|done]. apply (delete_documented holds (versionColumn m)) in E as (_ & -> & ->). repeat split; [apply count_pos|].
  intros Hk. destruct (default false _); [apply filter_unselected|apply fmap_unselected]; by apply count_zero.
Qed.

Lemma counts_delete_checked c p : Counts (delete_checked e clock m c p).
Proof.
  unfold delete_checked. apply counts_local_bind; [apply _|]. intros r. apply counts_bind; [apply counts_delete_rows|intros; apply _| |].
  - intros n w err _. destruct (_ && _) eqn:E; [|done]. by boolify.
  - intros n w n'. destruct (_ && _); [done|]. cbn. congruence.
Qed.

Lemma clean_create c objs : overrides c (create_hooks m) = false -> objs <> [] ->
  (length objs <= batch_size defaultBatchSize c)%nat -> Clean (create_write e clock uuid m c objs).
Proof.
  intros Ho Hne Hl. unfold create_write. rewrite !hooks_off by done. apply Clean_local_bind; [apply _|]. intros _.
  apply Clean_local_bind; [apply _|]. intros _. rewrite batches_one by done. intros w Ew. cbn. unfold bind, insert_batch, gets, statement.
  cbn. destruct (insert e _ _ _) as [t|err]; cbn; repeat split; try done. by injection H as <-.
Qed.

Lemma clean_update c p : overrides c (update_hooks m) = false -> Clean (update_write e clock m c [p]).
Proof.
  intros Ho. unfold update_write, normalizeTimes, clearAssociations. rewrite !hooks_off by done.
  repeat (apply Clean_local_bind; [apply _|intros _]).
  assert (Clean (update_one e clock m c p)) as H.
  { unfold update_one. apply Clean_local_bind; [apply _|]. intros v. apply clean_counts; [apply counts_update_row|intros; apply _|].
    intros n w err _. destruct (n =? 0) eqn:E; [by boolify|done]. }
  intros w Ew. destruct (H w Ew) as (E1 & E2 & E3). cbn. unfold bind. by destruct (update_one e clock m c p w) as [[x|err] w'].
Qed.

Lemma clean_delete c guarded strict expected objs : overrides c (delete_hooks m) = false -> objs <> [] ->
  (length objs <= batch_size defaultDeleteBatchSize c)%nat -> (strict = true -> expected <= 1) -> (guarded = true -> (length objs <= 1)%nat) ->
  Clean (delete_write e clock m c guarded strict expected objs).
Proof.
  intros Ho Hne Hl Hs Hg. unfold delete_write. rewrite !hooks_off by done. apply Clean_local_bind; [apply _|]. intros _.
  apply clean_counts; [|intros; apply _|].
  - destruct guarded.
    + specialize (Hg eq_refl). destruct objs as [|p [|]]; cbn in Hg; [done| |lia]. apply counts_one, counts_delete_checked.
    + rewrite batches_one by done. apply counts_one, counts_delete_rows.
  - intros n w err Hn. destruct strict; [|done]. specialize (Hs eq_refl). cbn. destruct (n <? expected) eqn:E; [|done]. boolify. lia.
Qed.

(** ** The theorem *)

#[export] Instance Local_refuse c : Local_ (refuse_read_options (C := C) c : M unit).
Proof. unfold refuse_read_options. apply _. Qed.
#[export] Instance Local_prepare c : Local_ (prepare (C := C) m c).
Proof. unfold prepare. destruct (defect c); [by apply Local_throw|]. destruct (negb _); [by apply Local_throw|]. destruct (enablePurge c); apply _. Qed.

Lemma whole_single_or_transaction (single : bool) f : Inside f -> (single = true -> Clean f) ->
  Whole (if single then withSingleStatementWrite f else withWriteTransaction e perform f).
Proof. intros Hi Hc. destruct single; [by apply whole_clean, Hc|apply _]. Qed.

Lemma whole_Create c objs : Whole (Create e clock uuid perform m c objs).
Proof.
  unfold Create. apply Whole_bind; [apply _|]. intros _. cbv zeta. destruct (bool_decide _) eqn:Hne; [apply _|]. boolify.
  apply Whole_bind; [apply _|]. intros c'. apply Whole_bind; [apply _|]. intros _. apply whole_single_or_transaction; [apply _|].
  intros H. boolify. apply clean_create; [by boolify|done|by apply Nat.leb_le].
Qed.

#[export] Instance Local_restore l : Local_ (restore l : M unit).
Proof. induction l as [|[p v] l IH]; cbn; apply _. Qed.

Lemma whole_restoring f : Whole f -> Whole (restoring f).
Proof.
  intros H w Ew. unfold restoring. destruct (H (set_restores [] w) Ew) as [E1 E2]. destruct (f _) as [[x|err] w']; cbn in *; [by destruct x|].
  destruct (Local_restore (restoreVersions w') w') as (F1 & F2 & F3 & _). split; cbn; [by rewrite F2|]. by rewrite F1, F3.
Qed.

Lemma whole_Update c objs : Whole (Update e clock perform m c objs).
Proof.
  unfold Update, check_updatable. apply Whole_bind; [apply _|]. intros _. cbv zeta. destruct (bool_decide _) eqn:Hne; [apply _|].
  apply Whole_bind; [apply _|]. intros _. apply Whole_bind; [apply _|]. intros c'. apply Whole_bind; [apply _|]. intros _.
  apply whole_restoring, whole_single_or_transaction; [apply _|]. intros H. boolify.
  destruct (compactModels objs) as [|p [|]]; try done. apply clean_update. by boolify.
Qed.

Lemma whole_UpdateByID outer c id l : Whole (UpdateByID e clock m outer c id l).
Proof.
  apply whole_clean. unfold UpdateByID. apply Clean_local_bind; [apply _|]. intros _.
  destruct (id =? "")%string; [apply Clean_local, _|]. destruct (bool_decide _); [apply Clean_local, _|].
  assert (forall err err', collect_assignments outer l ∅ = Err err -> err <> ErrAfterCommit (D := D) err') as Hc.
  { generalize (∅ : gmap string (assigned A)). induction l as [|a l IH]; intros g err err'; cbn; [done|]. repeat case_match; try (intros [= <-]; discriminate). apply IH. }
  destruct (collect_assignments outer l ∅) as [updates|err]; [|apply Clean_local, Local_throw; eauto].
  apply Clean_local_bind; [apply _|]. intros c'. cbv zeta. apply Clean_local_bind; [apply _|]. intros now w Ew. unfold statement.
  match goal with |- context [lift _ ?x] => destruct x as [t|err] end; cbn; repeat split; try done. by injection H as <-.
Qed.

Lemma whole_Delete c objs : Whole (Delete e clock perform m c objs).
Proof.
  unfold Delete, new_object. apply Whole_bind; [apply _|]. intros _. apply Whole_bind; [apply _|]. intros c'. cbv zeta.
  destruct (_ && _); [apply _|]. apply Whole_bind; [apply _|]. intros records. destruct (_ && _); [apply _|].
  apply (whole_bind_such (fun l => l <> [])); [apply _| |].
  { intros w l. destruct (bool_decide (compactModels objs = [])) eqn:E; cbn; [by intros [= <-]|]. boolify. by intros [= <-]. }
  intros l Hne. destruct (_ && _); [apply _|]. apply Whole_bind; [apply _|]. intros guarded.
  apply whole_single_or_transaction; [apply _|]. generalize (negb (allowMissing c') && (0 <? Z.of_nat (size (list_to_set (key_of records) : gset string)))). intros strict.
  intros H. repeat match goal with H : _ && _ = true |- _ => apply andb_prop in H as [? ?] end.
  apply clean_delete; [by apply negb_true_iff|done|by apply Nat.leb_le|intros ->; cbn in *; by apply Z.leb_le|intros ->; cbn in *; by apply Nat.leb_le].
Qed.
(** Writes join the transaction they are called in. *)
#[local] Instance Inside_join (f : M unit) : Inside f -> Inside (withWriteTransaction e perform f).
Proof. intros H w l E. unfold withWriteTransaction, bind, gets. cbn. rewrite E. by apply H. Qed.

#[local] Instance Inside_restoring (f : M unit) : Inside f -> Inside (restoring f).
Proof.
  intros H w l E. destruct (H (set_restores [] w) l E) as ((l' & E2) & E3 & He). unfold restoring. destruct (f _) as [[x|err] w']; cbn in *; [by split; [exists l'|]|].
  destruct (Local_restore (restoreVersions w') w') as (F1 & F2 & F3 & _). split; [exists l'; by rewrite F2|]. by rewrite F3.
Qed.

Lemma Inside_single (f : M unit) : Inside f -> Inside (withSingleStatementWrite f).
Proof. done. Qed.

Ltac inside := repeat match goal with
  | |- Inside (bind _ _) => apply Inside_bind; [|intros ?]
  | |- Inside (let _ := _ in _) => cbv zeta
  | |- Inside (if _ then _ else _) => apply Inside_if
  | |- Inside (withSingleStatementWrite _) => apply Inside_single
  | |- Inside (withWriteTransaction _ _ _) => apply Inside_join
  | |- Inside (restoring _) => apply Inside_restoring
  | |- Inside _ => solve [apply _]
  end.

Lemma Inside_Create c objs : Inside (A := A) (Create e clock uuid perform m c objs).
Proof. unfold Create. inside. Qed.
Lemma Inside_Update c objs : Inside (Update e clock perform m c objs).
Proof. unfold Update, check_updatable. inside. Qed.
Lemma Inside_Delete c objs : Inside (Delete e clock perform m c objs).
Proof. unfold Delete, new_object. inside. Qed.
End Model.

(** A write on a chain of the model, or a transaction around some work. *)
Inductive write : Type :=
| WCreate (c : chain C D) (objs : list (option pointer))
| WUpdate (c : chain C D) (objs : list (option pointer))
| WUpdateByID (outerTableName : string) (c : chain C D) (id : string) (assignments : list (Assignment (A := A)))
| WDelete (c : chain C D) (objs : list (option pointer))
| WTransaction (fn : M unit).

Definition do_ (m : model A Act D) (x : write) : M unit :=
  match x with
  | WCreate c objs => Create e clock uuid perform m c objs
  | WUpdate c objs => Update e clock perform m c objs
  | WUpdateByID outer c id l => UpdateByID e clock m outer c id l
  | WDelete c objs => Delete e clock perform m c objs
  | WTransaction fn => Transaction e perform GuardTransaction true (Some fn)
  end.

(** The work of a transaction keeps to it. *)
Definition work_inside (x : write) : Prop := match x with WTransaction fn => Inside fn | _ => True end.

(** The table once some actions ran, the first of them as the statement [n]. *)
Fixpoint performed (acts : list Act) (n : nat) (t : table A) : table A :=
  match acts with [] => t | a :: acts => performed acts (S n) (perform a n t).2 end.

(** A transaction that committed: its work succeeded, and what it left in the
    table is kept.  After the commit runs what the work registered, in order,
    all of it unless one fails. *)
Definition runs_registered (x : write) (w : world A Act) (r : result (error D) unit) (w' : world A Act) : Prop :=
  match x with
  | WTransaction fn =>
      (r = Ok tt \/ exists err, r = Err (ErrAfterCommit err)) ->
      let d := (GuardTransaction;; fn) (set_boundary (Some []) (tick w)) in
      exists acts ran rest, d.1 = Ok tt /\ boundary d.2 = Some acts /\ acts = ran ++ rest /\
        rows w' = performed ran (S (statements d.2)) (rows d.2) /\ events w' = events w ++ Committed :: map Ran ran /\
        (r = Ok tt -> rest = []) /\ (r <> Ok tt -> ran <> [])
  | _ => True
  end.

Lemma run_prefix acts w : exists ran rest, acts = ran ++ rest /\ rows (run (D := D) perform acts w).2 = performed ran (statements w) (rows w) /\
  events (run (D := D) perform acts w).2 = events w ++ map Ran ran /\
  ((run (D := D) perform acts w).1 = Ok tt -> rest = []) /\ ((run (D := D) perform acts w).1 <> Ok tt -> ran <> []).
Proof.
  revert w. induction acts as [|a acts IH]; intros w; cbn.
  - exists [], []. cbn. rewrite app_nil_r. by repeat split.
  - destruct (perform a (statements w) (rows w)) as [[err|] t] eqn:E; cbn.
    + exists [a], acts. cbn. by rewrite E.
    + destruct (IH (log (Ran a) (set_rows t (tick w)))) as (ran & rest & E1 & E2 & E3 & E4 & E5). exists (a :: ran), rest. rewrite E2, E3. cbn. rewrite <- app_assoc, E.
      split; [by rewrite E1|]. split; [done|]. split; [done|]. by split.
Qed.

Lemma transaction_outermost fn w : boundary w = None ->
  Transaction e perform GuardTransaction true (Some fn) w = withTransactionBoundary e perform (GuardTransaction;; fn) w.
Proof. intros Ew. unfold Transaction. cbn [negb]. unfold bind at 1. unfold gets. by rewrite Ew. Qed.

Lemma transaction_runs_registered fn w : boundary w = None -> Inside (GuardTransaction;; fn) ->
  runs_registered (WTransaction fn) w (Transaction e perform GuardTransaction true (Some fn) w).1 (Transaction e perform GuardTransaction true (Some fn) w).2.
Proof.
  intros Ew Hi. unfold runs_registered. rewrite transaction_outermost by done. unfold withTransactionBoundary.
  destruct (begin_ e (statements w)) as [err|]; [by intros [?|[? ?]]|]. destruct (Hi (set_boundary (Some []) (tick w)) [] eq_refl) as ((l' & E2) & E3 & He).
  destruct ((GuardTransaction;; fn) (set_boundary (Some []) (tick w))) as [[[]|err] w1]; cbn in *.
  - destruct (commit e (statements w1)) as [err|].
    { intros [F|[err1 F]]; discriminate F. }
    intros _. rewrite E2. cbn.
    destruct (run_prefix l' (log Committed (set_boundary (boundary w) (tick w1)))) as (ran & rest & F1 & F2 & F3 & F4 & F5). exists l', ran, rest.
    do 3 (split; [done|]). split; [by rewrite F2|]. split; [by rewrite F3, <- E3; cbn; rewrite <- app_assoc|]. done.
  - intros [?|[err' [= ->]]]; [done|]. by destruct (He err').
Qed.

(** Either way a call leaves no transaction open and no half of its work. *)
Lemma all_or_nothing m x w (Hm : Behaved m) (He : Documented holds (versionColumn m) e) (Hg : Inside GuardTransaction) (Hx : work_inside x) (Hw : boundary w = None) :
  outcome w (do_ m x w).1 (do_ m x w).2 /\ runs_registered x w (do_ m x w).1 (do_ m x w).2.
Proof.
  split; [|destruct x; try exact I; apply transaction_runs_registered; [done|by apply Inside_bind]].
  destruct x; cbn [do_]; [by apply whole_Create|by apply whole_Update|by apply whole_UpdateByID|by apply whole_Delete|].
  rewrite transaction_outermost by done. apply whole_boundary; [by apply Inside_bind|done].
Qed.
End Whole.

(** ** Scenes *)

Module Scenes.
(** Conditions on the creator; errors and actions by name; the action
    [cache] fails. *)
Definition holds (creator : string) (r : record_ Z) : bool := (CreatedBy r =? creator)%string.
Definition no_failure (n : nat) : option string := None.
Definition engine_ (versionColumn : option string) (fails : nat -> option string) : engine Z string string :=
  sql holds versionColumn fails "duplicated key" "missing where".
Definition clock (n : nat) : Z := 1000000000 * Z.of_nat n.
Definition uuid (n : nat) : string := "id".
Definition perform (a : string) (n : nat) (t : table Z) : option string * table Z :=
  (if (a =? "cache")%string then Some "cache is down"%string else None, t).
Definition register (actions : list string) : M Z string string unit := each actions (fun a => AfterCommit perform (Some a)).

(** A versioned model, its hooks after an update registering an action. *)
Definition plain : model Z string string := mkModel None (Some "version"%string) false None None None.
Definition announcing : model Z string string :=
  mkModel None (Some "version"%string) false None (Some (fun _ => ret tt, fun _ => register ["cache"%string])) None.

Definition row_ (id : string) (version : Z) : record_ Z := mkRecord id "ann" "ann" 0 0 None version ∅.
Definition chain_ : chain string string := Database_ "bob".
Definition world_ (objects : list (record_ Z)) (t : list (record_ Z)) : world Z string :=
  mkWorld (list_to_map (imap (fun i r => (i, mkObject r [])) objects)) (list_to_map (map (fun r => (ID r, r)) t)) 0 None [] [].

#[export] Instance Behaved_plain : Behaved plain.
Proof. by split. Qed.

Lemma register_inside actions : Inside (register actions).
Proof.
  apply Inside_each. intros a w l E. cbn. rewrite E. split; [by exists [a]|]. by split.
Qed.

(** Its second action fails after the commit. *)
Definition work : M Z string string unit :=
  Create (engine_ (Some "version"%string) no_failure) clock uuid perform plain chain_ [Some 0%nat];; register ["reload"%string; "cache"%string; "never"%string].
End Scenes.

Import Scenes.

(** *** What surprises *)

Local Abbreviation versioned_engine := (engine_ (Some "version"%string) no_failure).

(** An object passed twice to an Update that fails: the restores run in the
    order of the bumps, so the last leaves the version after the first bump,
    although the row still has the one before it. *)
Example repeated_object_keeps_bump :
  let w := world_ [row_ "a" 3; row_ "gone" 1] [row_ "a" 3] in
  let d := Update versioned_engine clock perform plain chain_ [Some 0; Some 0; Some 1]%nat w in
  d.1 = Err (ErrStaleObject "gone" 1) /\ rows d.2 = rows w /\ Version (record_at d.2 0%nat) = 4.
Proof. vm_compute. repeat split; reflexivity. Qed.

(** An Update that committed and whose after-commit action failed: the row
    has the new version and the object is put back to the old one, so that it
    can never be saved again. *)
Example committed_update_restored :
  let w := world_ [row_ "a" 3] [row_ "a" 3] in
  let d := Update versioned_engine clock perform announcing chain_ [Some 0%nat] w in
  d.1 = Err (ErrAfterCommit "cache is down"%string) /\ Version <$> rows d.2 !! "a"%string = Some 4 /\ Version (record_at d.2 0%nat) = 3 /\
  (Update versioned_engine clock perform plain chain_ [Some 0%nat] d.2).1 = Err (ErrStaleObject "a" 3).
Proof. vm_compute. repeat split; reflexivity. Qed.

(** An object with a version and no id, passed to Delete: nothing names a
    row, the version is the whole condition, and every live row that carries
    it goes. *)
Example idless_delete_takes_a_version :
  let w := world_ [row_ "" 1] [row_ "a" 1; row_ "b" 2; row_ "c" 1] in
  let d := Delete versioned_engine clock perform plain (WithPurge [] chain_) [Some 0%nat] w in
  d.1 = Ok tt /\ map fst (map_to_list (rows d.2)) = ["b"%string].
Proof. vm_compute. repeat split; reflexivity. Qed.

(** An object with a version, named twice in a Delete, is found stale by its
    second statement; without its version it is deleted once. *)
Example repeated_delete_is_stale :
  let w := world_ [row_ "a" 1; row_ "a" 0] [row_ "a" 1] in
  let delete p := (Delete versioned_engine clock perform plain chain_ [Some p; Some p] w).1 in
  delete 0%nat = Err (ErrStaleObject "a" 1) /\ delete 1%nat = Ok tt.
Proof. vm_compute. repeat split; reflexivity. Qed.
