(* ===== verification/WritesLocking.v ===== *)
(** * Updates, and what they overwrite

    Without hooks, what Update writes is stated row by row, and over any
    history of writes an update of a versioned model is shown to overwrite
    nothing but the row its caller read. *)

From stdpp Require Import base list gmap strings.
From Stdlib Require Import ZArith Lia.
From S2P Require Import Prelude Writes WritesBase WritesSpec.
Local Open Scope Z_scope.
Local Open Scope write_scope.

Section Rows.
Context {A C D Act : Type}.
Abbreviation M := (M A Act D).
Context (e : engine A C D) (clock : nat -> Z) (uuid : nat -> string).
Context (perform : Act -> nat -> table A -> option D * table A).
Context (holds : C -> record_ A -> bool) (m : model A Act D) `{!Documented holds (versionColumn m) e}.

(** ** Code without hooks *)

(** It registers nothing. *)
Class Quiet {X} (f : M X) : Prop := quiet : forall w, boundary (f w).2 = boundary w.

#[export] Instance Quiet_local {X} (f : M X) : Local_ f -> Quiet f.
Proof. intros H w. apply H. Qed.
#[export] Instance Quiet_bind {X Y} (f : M X) (k : X -> M Y) : Quiet f -> (forall x, Quiet (k x)) -> Quiet (bind f k).
Proof. intros Hf Hk w. specialize (Hf w). unfold bind. destruct (f w) as [[x|err] w']; cbn in *; [|done]. by rewrite Hk. Qed.
#[export] Instance Quiet_each {X} (l : list X) (f : X -> M unit) : (forall x, Quiet (f x)) -> Quiet (each l f).
Proof. intros H. induction l; cbn; apply _. Qed.
#[export] Instance Quiet_summing {X} (l : list X) (f : X -> M Z) : (forall x, Quiet (f x)) -> Quiet (summing l f).
Proof. intros H. induction l; cbn; apply _. Qed.
#[export] Instance Quiet_if {X} (b : bool) (f g : M X) : Quiet f -> Quiet g -> Quiet (if b then f else g).
Proof. by destruct b. Qed.
#[export] Instance Quiet_statement {X} (s : nat -> table A -> result D (table A * X)) : Quiet (statement s : M X).
Proof. intros w. unfold statement. by destruct (s _ _) as [[]|]. Qed.

(** What is left of such a call, with a transaction of its own or without. *)
Lemma write_effect (single : bool) f w : Quiet f -> boundary w = None ->
  let d := (if single then withSingleStatementWrite f else withWriteTransaction e perform f) w in
  exists w1, heap w1 = heap w /\ rows w1 = rows w /\ restoreVersions w1 = restoreVersions w /\ (boundary w1 = None \/ boundary w1 = Some []) /\
    (rows d.2 = rows w \/ rows d.2 = rows (f w1).2) /\
    (d.1 = Ok tt -> (f w1).1 = Ok tt /\ rows d.2 = rows (f w1).2 /\ heap d.2 = heap (f w1).2).
Proof.
  intros Hq Ew. cbv zeta. destruct single.
  - exists w. unfold withSingleStatementWrite. repeat (split; [by try left|]). split; [by right|]. done.
  - unfold withWriteTransaction, bind, gets. cbn. rewrite Ew. unfold withTransactionBoundary.
    exists (set_boundary (Some []) (tick w)). do 3 (split; [done|]). split; [by right|]. specialize (Hq (set_boundary (Some []) (tick w))).
    destruct (begin_ e (statements w)) as [err|]; [split; [by left|done]|].
    destruct (f (set_boundary (Some []) (tick w))) as [[[]|err] w1]; cbn in *; [|split; [by left|done]].
    destruct (commit e (statements w1)) as [err|]; cbn; [split; [by left|done]|]. rewrite Hq. cbn. split; [by right|done].
Qed.

(** *** Objects *)

Lemma record_at_put p (o : object A) (w : world A Act) q : record_at (set_heap (<[p := o]> (heap w)) w) q = if decide (q = p) then record_of o else record_at w q.
Proof.
  unfold record_at, at_. cbn. case_decide as H; [subst; by rewrite lookup_insert_eq|]. by rewrite lookup_insert_ne by done.
Qed.

Lemma change_at f p (w : world A Act) q : record_at (change (D := D) f p w).2 q = if decide (q = p) then f (record_at w p) else record_at w q.
Proof. unfold change, bind, gets, put, modify. cbn. rewrite record_at_put. by case_decide. Qed.

Lemma each_change f objs (w : world A Act) : NoDup objs ->
  (each (D := D) objs (change f) w).1 = Ok tt /\
  forall q, record_at (each (D := D) objs (change f) w).2 q = if bool_decide (q ∈ objs) then f (record_at w q) else record_at w q.
Proof.
  revert w. induction objs as [|p objs IH]; intros w Hn.
  - split; [done|]. intros q. rewrite bool_decide_eq_false_2; [done|]. apply not_elem_of_nil.
  - apply NoDup_cons in Hn as [Hp Hn]. set (w1 := (change (D := D) f p w).2). destruct (IH w1 Hn) as [E1 E2]. split; [exact E1|]. intros q.
    change (each (p :: objs) (change f) w) with (each (D := D) objs (change f) w1). rewrite E2.
    assert (forall q, record_at w1 q = if decide (q = p) then f (record_at w p) else record_at w q) as Hw by (intros; apply change_at).
    rewrite !Hw. destruct (decide (q = p)) as [->|Hne].
    + rewrite bool_decide_eq_false_2 by done. by rewrite bool_decide_eq_true_2 by constructor.
    + destruct (bool_decide (q ∈ objs)) eqn:E; boolify; [rewrite bool_decide_eq_true_2 by (by constructor)|rewrite bool_decide_eq_false_2 by (by rewrite elem_of_cons; intros [?|?])]; done.
Qed.

(** ** One row *)

(** The record the statement of an object writes. *)
Definition bumped (o : record_ A) : record_ A := if IsVersioned m then SetVersionValue (wrap64 (Version o + 1)) o else o.

(** The condition of that statement. *)
Definition statement_of (c : chain C D) (o : record_ A) : where_ C :=
  mkWhere (key_of [o]) (if IsVersioned m then Some (Version o) else None) (conditions c).

Lemma key_of_one (r : record_ A) : ID r <> ""%string -> key_of [r] = [ID r].
Proof. intros H. unfold key_of. cbn. by rewrite decide_True. Qed.

Lemma update_row_run c v p (w : world A Act) : let now := UTCMillisecond (clock (statements w)) in
  update_row e clock c v p w =
  match update e (statements w) (mkWhere (key_of [record_at w p]) v (conditions c)) (updateRowStatement c) (record_at w p) now (rows w) with
  | Ok (t, k) => (Ok k, (change (D := D) (updated_object e now) p (tick (set_rows t w))).2)
  | Err err => (Err (Database err), tick w)
  end.
Proof. unfold update_row, bind, gets, statement, NowUTC. cbv zeta. cbn. by destruct (update e _ _ _ _ _ _) as [[]|]. Qed.

(** What [update_one] does to the table and to the objects, whatever its
    outcome. *)
Lemma update_one_effect c p (w : world A Act) :
  let d := update_one e clock m c p w in
  let o := record_at w p in
  let select := selects holds (statement_of c o) false in
  exists now,
    (rows d.2 = rows w \/ rows d.2 = (fun r => if select r then written (versionColumn m) (updateRowStatement c) (bumped o) now r else r) <$> rows w) /\
    (d.1 = Ok tt ->
      rows d.2 = (fun r => if select r then written (versionColumn m) (updateRowStatement c) (bumped o) now r else r) <$> rows w /\
      (exists id r, rows w !! id = Some r /\ select r = true) /\
      forall q, record_at d.2 q = if decide (q = p) then updated_object e now (bumped o) else record_at w q).
Proof.
  cbv zeta. set (o := record_at w p). set (now := UTCMillisecond (clock (statements w))). exists now.
  set (prepared := if IsVersioned m then prev <- bumpVersionForUpdate p;; ret (Some prev) else ret None : M (option Z)).
  assert (exists w1, prepared w = (Ok (if IsVersioned m then Some (Version o) else None), w1) /\ rows w1 = rows w /\ statements w1 = statements w /\
    forall q, record_at w1 q = if decide (q = p) then bumped o else record_at w q) as (w1 & E1 & Er & Es & Ew).
  { unfold prepared, bumped. destruct (IsVersioned m).
    - unfold bumpVersionForUpdate, bind, gets, modify, ret. cbn. eexists. split; [reflexivity|]. do 2 (split; [done|]).
      intros q. etransitivity; [|exact (change_at (SetVersionValue (wrap64 (Version o + 1))) p w q)]. reflexivity.
    - exists w. split; [done|]. do 2 (split; [done|]). intros q. by case_decide; subst. }
  assert (key_of [record_at w1 p] = key_of [o]) as Ekey by (rewrite Ew, decide_True by done; unfold bumped; by destruct (IsVersioned m)).
  unfold update_one. change (if IsVersioned m then _ else _) with prepared. rewrite (bind_ok _ _ _ _ _ E1).
  unfold bind. rewrite update_row_run, Es, Er, Ekey, Ew, decide_True by done. fold (statement_of c o) now.
  destruct (update e _ _ _ _ _ _) as [[t k]|err] eqn:E; [|split; [left; exact Er|discriminate]].
  apply (update_documented holds (versionColumn m)) in E as (_ & -> & ->).
  destruct (count holds (statement_of c o) false (rows w) =? 0) eqn:Ek; (split; [right; reflexivity|]); [discriminate|].
  intros _. split; [reflexivity|]. boolify. split; [by apply (count_some holds)|]. intros q. cbn [snd ret].
  rewrite change_at. change (record_at (tick ?x) ?y) with (record_at x y). change (record_at (set_rows ?t ?x) ?y) with (record_at x y).
  rewrite !Ew, (decide_True (P := p = p)) by done. by case_decide.
Qed.

(** The row an object is saved over: live, of the version it carries, and
    within the conditions of the chain. *)
Definition saved_over (c : chain C D) (o old : record_ A) : Prop :=
  live old = true /\ (IsVersioned m = true -> Version old = Version o) /\ forallb (fun x => holds x old) (conditions c) = true.

Lemma update_one_row c p w : keyed (rows w) -> ID (record_at w p) <> ""%string -> (update_one e clock m c p w).1 = Ok tt ->
  let d := update_one e clock m c p w in
  let o := record_at w p in
  exists old now, rows w !! ID o = Some old /\ saved_over c o old /\
    rows d.2 = <[ID o := written (versionColumn m) (updateRowStatement c) (bumped o) now old]> (rows w) /\
    forall q, record_at d.2 q = if decide (q = p) then updated_object e now (bumped o) else record_at w q.
Proof.
  intros Hk Hid Hok. cbv zeta. destruct (update_one_effect c p w) as (now & _ & H). destruct (H Hok) as (E1 & (id & old & Hold & Hsel) & E2). clear H.
  set (o := record_at w p) in *. assert (forall r, selects holds (statement_of c o) false r = true -> ID r = ID o /\ saved_over c o r) as Hs.
  { intros r. unfold selects, statement_of. cbn [keys version_is also orb]. rewrite key_of_one by done. intros Hr.
    apply andb_prop in Hr as [Hr Hc]. apply andb_prop in Hr as [Hr Hv]. apply andb_prop in Hr as [Hl Hr].
    split; [|split; [done|split; [|done]]].
    - apply orb_true_iff in Hr as [Hr|Hr]; boolify; [done|by apply list_elem_of_singleton in Hr].
    - intros E. rewrite E in Hv. by boolify. }
  destruct (Hs old Hsel) as [Eo Ho]. rewrite (Hk id old Hold) in Eo. subst id. exists old, now. do 2 (split; [done|]). split; [|done].
  rewrite E1. apply map_eq. intros id. rewrite lookup_fmap. destruct (decide (id = ID o)) as [->|Hne].
  - rewrite lookup_insert_eq, Hold. cbn. by rewrite Hsel.
  - rewrite lookup_insert_ne by done. destruct (rows w !! id) as [r|] eqn:Er; cbn; [|done].
    destruct (selects _ _ _ r) eqn:Es; [|done]. destruct (Hs r Es) as [Hr _]. by rewrite (Hk id r Er) in Hr.
Qed.

Lemma keyed_insert_written id c o now old (t : table A) : keyed t -> t !! id = Some old -> keyed (<[id := written (versionColumn m) c o now old]> t).
Proof.
  intros Hk Ho id' r. rewrite lookup_insert_Some. intros [[<- <-]|[_ Hr]]; [cbn; by apply Hk|by apply Hk].
Qed.

(** ** A list of objects *)

Lemma each_update_rows c objs w : keyed (rows w) -> NoDup (map (fun p => ID (record_at w p)) objs) ->
  (forall p, p ∈ objs -> ID (record_at w p) <> ""%string) -> (each objs (update_one e clock m c) w).1 = Ok tt ->
  let w' := (each objs (update_one e clock m c) w).2 in
  (forall id, (forall p, p ∈ objs -> ID (record_at w p) <> id) -> rows w' !! id = rows w !! id) /\
  (forall q, q ∉ objs -> record_at w' q = record_at w q) /\
  forall p, p ∈ objs -> let o := record_at w p in
    exists old now, rows w !! ID o = Some old /\ saved_over c o old /\
      rows w' !! ID o = Some (written (versionColumn m) (updateRowStatement c) (bumped o) now old) /\
      record_at w' p = updated_object e now (bumped o).
Proof.
  revert w. induction objs as [|p objs IH]; intros w Hk Hn Hid; cbn [each]; [intros _; repeat split; [done..|intros ? []%elem_of_nil]|].
  cbn [map] in Hn. apply NoDup_cons in Hn as [Hp Hn]. unfold bind. destruct (update_one e clock m c p w) as [[[]|err] w1] eqn:E1; [|done].
  assert ((update_one e clock m c p w).1 = Ok tt) as Hok by (by rewrite E1).
  destruct (update_one_row c p w Hk (Hid p ltac:(constructor)) Hok) as (old & now & Hold & Hs & Er & Ew). rewrite E1 in Er, Ew. cbn in Er, Ew.
  assert (forall q, q ∈ objs -> record_at w1 q = record_at w q /\ ID (record_at w q) <> ID (record_at w p)) as Hsame.
  { intros q Hq. assert (ID (record_at w q) <> ID (record_at w p)) as Hne.
    { intros Eq. apply Hp. rewrite <- Eq. by apply (list_elem_of_fmap_2 (fun p => ID (record_at w p))). }
    split; [|done]. rewrite Ew. case_decide; [by subst|done]. }
  intros Hall. destruct (IH w1) as (F1 & F3 & F2); [| | |exact Hall|].
  { rewrite Er. by apply keyed_insert_written. }
  { erewrite map_ext_in; [exact Hn|]. intros q Hq%list_elem_of_In. cbn. by destruct (Hsame q Hq) as [-> _]. }
  { intros q Hq. destruct (Hsame q Hq) as [-> _]. apply Hid. by constructor. }
  split; [|split].
  - intros id Hnot. rewrite F1.
    + rewrite Er. apply lookup_insert_ne, Hnot. constructor.
    + intros q Hq. destruct (Hsame q Hq) as [-> _]. apply Hnot. by constructor.
  - intros q [Hq Hno]%not_elem_of_cons. rewrite F3 by done. rewrite Ew. by rewrite decide_False.
  - intros q [->|Hq]%elem_of_cons; cbv zeta.
    + exists old, now. do 2 (split; [done|]). assert (p ∉ objs) as Hno by (intros Hin; by destruct (Hsame p Hin)). split.
      * rewrite F1; [by rewrite Er, lookup_insert_eq|]. intros q Hq. by destruct (Hsame q Hq) as [-> ?].
      * rewrite F3 by done. by rewrite Ew, decide_True.
    + destruct (Hsame q Hq) as [Eq Hne]. destruct (F2 q Hq) as (old' & now' & H1 & H2 & H3 & H4). rewrite Eq in *. exists old', now'.
      rewrite Er, lookup_insert_ne in H1 by congruence. done.
Qed.

(** ** Update without hooks *)

Lemma clear_at objs (w : world A Act) : (clearAssociations (D := D) objs w).1 = Ok tt /\ rows (clearAssociations (D := D) objs w).2 = rows w /\
  forall q, record_at (clearAssociations (D := D) objs w).2 q = record_at w q.
Proof.
  unfold clearAssociations. revert w. induction objs as [|p objs IH]; intros w; [done|]. cbn [each]. unfold bind at 1.
  set (w1 := (put (D := D) p (mkObject (record_of (at_ w p)) []) w).2). change ((o <- gets _;; put p _) w) with (Ok (E := error D) tt, w1).
  destruct (IH w1) as (E1 & E2 & E3). split; [exact E1|]. split; [etransitivity; [exact E2|reflexivity]|].
  intros q. etransitivity; [exact (E3 q)|]. unfold w1, put, modify. cbn [snd]. rewrite record_at_put. case_decide; [by subst|done].
Qed.

Lemma each_kept f objs (w : world A Act) :
  rows (each (D := D) objs (change f) w).2 = rows w /\ boundary (each (D := D) objs (change f) w).2 = boundary w.
Proof. destruct (Local_each (D := D) objs (change f) (fun p => Local_change f p) w) as (E1 & E2 & _). by split. Qed.

Lemma update_write_ok c objs w : overrides c (update_hooks m) = false -> NoDup objs -> (update_write e clock m c objs w).1 = Ok tt ->
  exists w1, rows w1 = rows w /\ (forall p, p ∈ objs -> record_at w1 p = normalize_record (record_at w p)) /\
    (each objs (update_one e clock m c) w1).1 = Ok tt /\
    rows (update_write e clock m c objs w).2 = rows (each objs (update_one e clock m c) w1).2 /\
    heap (update_write e clock m c objs w).2 = heap (each objs (update_one e clock m c) w1).2.
Proof.
  intros Ho Hn. unfold update_write. rewrite !hooks_off by done. unfold normalizeTimes. destruct (resolves m) as [err|]; [done|].
  unfold bind at 1 6 11, ret at 1 3 5. cbn. unfold bind.
  destruct (each_change normalize_record objs w Hn) as [E1 E2]. pose proof (proj1 (each_kept normalize_record objs w)) as E3.
  destruct (each objs (change normalize_record) w) as [r1 w1]. cbn in E1, E2, E3. subst r1.
  destruct (clear_at objs w1) as (F1 & F2 & F3). destruct (clearAssociations objs w1) as [r2 w2]. cbn in F1, F2, F3. subst r2. intros H. exists w2.
  destruct (each objs (update_one e clock m c) w2) as [[[]|err] w3]; [|done]. rewrite F2, E3. split; [done|]. split; [|done].
  intros p Hp. by rewrite F3, E2, bool_decide_eq_true_2.
Qed.

Lemma each_check objs w : (each objs (check_updatable m) w).1 = Ok tt -> (each objs (check_updatable m) w).2 = w /\
  forall p, p ∈ objs -> ID (record_at w p) <> ""%string /\ (IsVersioned m = true -> Version (record_at w p) <> 0).
Proof.
  induction objs as [|p objs IH]; cbn; [intros _; split; [done|intros ? []%elem_of_nil]|]. unfold check_updatable at 1 3, bind, gets. cbn.
  destruct (ID (record_at w p) =? "")%string eqn:E; [done|]. destruct (IsVersioned m && _) eqn:Ev; [done|]. cbn. intros H. destruct (IH H) as [E1 E2].
  split; [exact E1|]. intros q [->|Hq]%elem_of_cons; [|by apply E2]. boolify. split; [done|]. intros Hv Hz. unfold VersionValue in Ev. rewrite Hv, Hz in Ev. by destruct Ev.
Qed.

(** The chain the statements run on. *)
Definition prepared_chain (c : chain C D) : chain C D := match enablePurge c with Some _ => c | None => WithPurge [Purge m] c end.
Definition update_chain (c : chain C D) : chain C D := managed_columns m (prepared_chain c).

(** An object as the statements find it. *)
Definition prepared (c : chain C D) (o : record_ A) : record_ A :=
  normalize_record (if (caller c =? "")%string then o else SetUpdatedBy (caller c) o).

Lemma refuse_ok (c : chain C D) (w : world A Act) : (refuse_read_options c w).1 = Ok tt -> refuse_read_options c w = (Ok tt, w).
Proof. unfold refuse_read_options. destruct (includeDeleted c); [done|]. by destruct (replicaRead c). Qed.

Lemma prepare_ok (c : chain C D) (w : world A Act) c' : (prepare m c w).1 = Ok c' -> prepare m c w = (Ok c', w) /\ c' = prepared_chain c.
Proof.
  unfold prepare, prepared_chain. destruct (defect c); [done|]. destruct (negb _); [done|]. by destruct (enablePurge c); intros [= <-].
Qed.

#[export] Instance Quiet_update_one c p : Quiet (update_one e clock m c p).
Proof. unfold update_one, update_row, bumpVersionForUpdate. apply _. Qed.

Lemma quiet_update_write c objs : overrides c (update_hooks m) = false -> Quiet (update_write e clock m c objs).
Proof. intros H. unfold update_write, normalizeTimes, clearAssociations. rewrite !hooks_off by done. apply _. Qed.

Lemma update_chain_kept c : noHook (update_chain c) = noHook c /\ conditions (update_chain c) = conditions c.
Proof.
  clear Documented0. unfold update_chain, managed_columns, prepared_chain. destruct (enablePurge c), (versionColumn m); cbn; repeat case_match; done. Qed.

Lemma caller_set c l (w w' : world A Act) : NoDup l ->
  when (negb (caller (prepared_chain c) =? "")%string) (each l (change (SetUpdatedBy (caller (prepared_chain c))))) w = (Ok (E := error D) tt, w') ->
  rows w' = rows w /\ boundary w' = boundary w /\ forall p, p ∈ l -> normalize_record (record_at w' p) = prepared c (record_at w p).
Proof.
  intros Hn. assert (caller (prepared_chain c) = caller c) as -> by (unfold prepared_chain; by destruct (enablePurge c)). unfold prepared.
  destruct (caller c =? "")%string; cbn; [by intros [= ->]|]. intros E.
  destruct (each_change (SetUpdatedBy (caller c)) l w Hn) as [_ F2]. destruct (each_kept (SetUpdatedBy (caller c)) l w) as [G1 G2]. rewrite E in F2, G1, G2.
  split; [done|]. split; [done|]. intros p Hp. cbn in F2. by rewrite F2, bool_decide_eq_true_2.
Qed.

(** A call of Update that succeeds: the objects are checked and brought into
    form, then saved one by one. *)
Lemma Update_ok c objs w : overrides c (update_hooks m) = false -> boundary w = None -> NoDup (compactModels objs) ->
  (Update e clock perform m c objs w).1 = Ok tt -> compactModels objs <> [] ->
  let l := compactModels objs in
  (forall p, p ∈ l -> ID (record_at w p) <> ""%string /\ (IsVersioned m = true -> Version (record_at w p) <> 0)) /\
  exists w1, rows w1 = rows w /\ (forall p, p ∈ l -> record_at w1 p = prepared c (record_at w p)) /\
    (each l (update_one e clock m (update_chain c)) w1).1 = Ok tt /\
    rows (Update e clock perform m c objs w).2 = rows (each l (update_one e clock m (update_chain c)) w1).2 /\
    heap (Update e clock perform m c objs w).2 = heap (each l (update_one e clock m (update_chain c)) w1).2.
Proof.
  intros Ho Hw Hn. unfold Update. set (l := compactModels objs) in *. intros H Hne. cbv zeta.
  apply bind_inv in H as ([] & w0 & Er & Eq & H). rewrite Eq. clear Eq. cbv zeta in H |- *. rewrite bool_decide_eq_false_2 in H |- * by done.
  assert (w0 = w) as -> by (pose proof (refuse_ok c w) as F; rewrite Er in F; by injection (F eq_refl)).
  apply bind_inv in H as ([] & w0 & Ec & Eq & H). rewrite Eq. clear Eq. destruct (each_check l w) as [E1 Hc]; [by rewrite Ec|]. rewrite Ec in E1. cbn in E1. subst w0.
  split; [exact Hc|]. apply bind_inv in H as (c' & w0 & Ep & Eq & H). rewrite Eq. clear Eq.
  destruct (prepare_ok c w c') as [E2 ->]; [by rewrite Ep|]. rewrite Ep in E2. injection E2 as ->.
  apply bind_inv in H as ([] & w2 & E2 & Eq & H). rewrite Eq. clear Eq. destruct (caller_set c l w w2 Hn E2) as (E3 & E4 & E5). fold (update_chain c) in *.
  unfold restoring in *. set (write := update_write e clock m (update_chain c) l) in *. set (single := negb _ && _) in *.
  assert (overrides (update_chain c) (update_hooks m) = false) as Hover by (unfold overrides in *; by destruct (update_chain_kept c) as [-> _]).
  destruct (write_effect single write (set_restores [] w2)) as (w3 & G1 & G2 & _ & _ & _ & G3); [by apply quiet_update_write|by rewrite <- Hw|].
  destruct ((if single then withSingleStatementWrite write else withWriteTransaction e perform write) (set_restores [] w2)) as [[[]|err] w4]; [|done].
  destruct (G3 eq_refl) as (G4 & G5 & G6). cbn in *. destruct (update_write_ok (update_chain c) l w3 Hover Hn G4) as (w5 & K1 & K2 & K3 & K4 & K5).
  exists w5. rewrite K1, G2, E3. split; [done|]. split; [|split; [done|split; [by rewrite G5|by rewrite G6]]].
  intros p Hp. rewrite K2 by done. rewrite <- E5 by done. unfold record_at, at_. by rewrite G1.
Qed.

Local Arguments ensureSelected : simpl never.

Lemma selected_ensure l x y : l <> [] -> selected (ensureSelected l x) y = selected l y || bool_decide (y = x).
Proof.
  clear Documented0.
  intros H. unfold selected, ensureSelected. destruct (decide (x ∈ l)) as [Hin|Hin]; [rewrite (bool_decide_eq_true_2 (x ∈ l)) by done|rewrite (bool_decide_eq_false_2 (x ∈ l)) by done].
  - destruct (bool_decide (y = x)) eqn:E; [|by rewrite orb_false_r]. boolify. subst. by rewrite (bool_decide_eq_true_2 _ Hin), !orb_true_r.
  - rewrite !(bool_decide_eq_false_2 (_ = [])) by (try done; by destruct l). cbn.
    destruct (bool_decide (y ∈ l)) eqn:E1, (bool_decide (y = x)) eqn:E2; boolify; subst; cbn;
      [apply bool_decide_eq_true_2|apply bool_decide_eq_true_2|apply bool_decide_eq_true_2|apply bool_decide_eq_false_2]; rewrite elem_of_app, list_elem_of_singleton; tauto.
Qed.

Lemma ensure_nonempty l x : ensureSelected l x <> [].
Proof. unfold ensureSelected. case_bool_decide as H; [intros ->; by apply not_elem_of_nil in H|by destruct l]. Qed.

(** What an update writes of the columns the chain selected: those, the
    updater of a known caller and the version. *)
Lemma update_selected c y : selected (selectColumns (update_chain c)) y =
  selected (selectColumns c) y || (negb (caller c =? "")%string && bool_decide (y = "updated_by"%string)) || bool_decide (versionColumn m = Some y).
Proof.
  clear Documented0.
  assert (selectColumns (update_chain c) = match selectColumns c with [] => [] | l =>
    let l := if (caller c =? "")%string then l else ensureSelected l "updated_by" in match versionColumn m with Some v => ensureSelected l v | None => l end end) as ->.
  { unfold update_chain, managed_columns, prepared_chain. destruct (enablePurge c), (versionColumn m); cbn; destruct (caller c =? "")%string; cbn;
      destruct (selectColumns c) eqn:E; cbn; rewrite ?E; try done; cbn; rewrite ?(bool_decide_eq_false_2 _ (ensure_nonempty _ _)); done. }
  destruct (selectColumns c) as [|x l]; [done|]. set (l0 := x :: l). assert (l0 <> []) as Hl by done. clearbody l0. cbv zeta.
  assert (forall v, bool_decide (Some v = Some y) = bool_decide (y = v)) as Ev by (intros v; apply bool_decide_ext; naive_solver).
  destruct (caller c =? "")%string, (versionColumn m) as [v|]; cbn [negb andb]; rewrite ?selected_ensure by (done || apply ensure_nonempty); rewrite ?Ev, ?orb_false_r; try done.
Qed.

Lemma update_all_selected c : selectColumns (update_chain c) = [] <-> selectColumns c = [].
Proof.
  clear Documented0.
  unfold update_chain, managed_columns, prepared_chain. destruct (enablePurge c), (versionColumn m); cbn; destruct (caller c =? "")%string; cbn;
    destruct (selectColumns c) eqn:E; cbn; rewrite ?E; try done; cbn; rewrite ?(bool_decide_eq_false_2 _ (ensure_nonempty _ _)); try done;
    (split; [intros H; by apply ensure_nonempty in H|done]).
Qed.

(** What an update makes of the row [old] of the object [o]: creation facts
    and deletion mark stay, the version goes up by one, the updater is the
    caller, and of its own columns the ones selected take the object's value,
    times at the precision of the framework. *)
Definition saved (c : chain C D) (o old new : record_ A) : Prop :=
  ID new = ID old /\ CreatedAt new = CreatedAt old /\ CreatedBy new = CreatedBy old /\ DeletedAt new = DeletedAt old /\
  Version new = (if IsVersioned m then wrap64 (Version o + 1) else Version old) /\
  UpdatedBy new = (if negb (caller c =? "")%string then caller c
                   else if selected (selectColumns c) "updated_by" then UpdatedBy o else UpdatedBy old) /\
  forall col, col <> "updated_by"%string -> col <> "deleted_at"%string -> Some col <> versionColumn m ->
    (selected (selectColumns c) col = false -> Fields new !! col = Fields old !! col) /\
    (forall x, selected (selectColumns c) col = true -> Fields o !! col = Some x -> Fields new !! col = Some (normalize_cell x)).

(** The version has a column to itself. *)
Definition own_version : Prop := forall v, versionColumn m = Some v -> v <> "updated_by"%string /\ v <> "deleted_at"%string.

Lemma update_writes c y : writes (updateRowStatement (update_chain c)) y = selected (selectColumns (update_chain c)) y && negb (bool_decide (y = "deleted_at"%string)).
Proof.
  clear Documented0. unfold writes, updateRowStatement. cbn [Select Omit]. f_equal. rewrite <- bool_decide_not. apply bool_decide_ext.
  rewrite !not_elem_of_cons. split; [by intros [? _] ->|]. intros H. split; [congruence|]. split; [done|apply not_elem_of_nil].
Qed.

Lemma update_chain_writes c v : own_version -> versionColumn m = Some v -> writes (updateRowStatement (update_chain c)) v = true.
Proof.
  clear Documented0. intros Hv Ev. destruct (Hv v Ev) as [_ Hd].
  by rewrite update_writes, update_selected, Ev, (bool_decide_eq_true_2 (Some v = Some v)), (bool_decide_eq_false_2 (v = "deleted_at"%string)), orb_true_r by done.
Qed.

Lemma written_saved c o old now : own_version ->
  saved c o old (written (versionColumn m) (updateRowStatement (update_chain c)) (bumped (prepared c o)) now old).
Proof.
  clear Documented0.
  intros Hv. unfold saved, written. cbn [ID CreatedBy UpdatedBy CreatedAt DeletedAt Version Fields]. rewrite !update_writes.
  rewrite (bool_decide_eq_true_2 ("deleted_at"%string = _)), andb_false_r by done. do 4 (split; [done|]). split; [|split].
  - unfold bumped, IsVersioned, prepared. destruct (versionColumn m) as [v|] eqn:Ev; [|done].
    rewrite (update_chain_writes c v Hv Ev). by destruct (caller c =? "")%string.
  - rewrite update_selected, (bool_decide_eq_true_2 ("updated_by" = "updated_by")%string), (bool_decide_eq_false_2 ("updated_by" = "deleted_at")%string), (bool_decide_eq_false_2 (versionColumn m = _)), !andb_true_r, orb_false_r by (done || (intros E; by destruct (Hv _ E))).
    unfold bumped, prepared. destruct (caller c =? "")%string, (IsVersioned m); cbn; rewrite ?orb_false_r, ?orb_true_r; done.
  - intros col H1 H2 H3. assert (writes (updateRowStatement (update_chain c)) col = selected (selectColumns c) col) as Es.
    { by rewrite update_writes, update_selected, (bool_decide_eq_false_2 (col = "updated_by"%string)), (bool_decide_eq_false_2 (versionColumn m = _)), (bool_decide_eq_false_2 (col = "deleted_at"%string)), andb_false_r, andb_true_r, !orb_false_r by congruence. }
    assert (Fields (bumped (prepared c o)) = normalize_cell <$> Fields o) as -> by (unfold bumped, prepared; destruct (IsVersioned m), (caller c =? "")%string; done).
    split.
    + intros Hs. rewrite lookup_union_r; [done|]. apply map_lookup_filter_None. right. intros x _ Hin. congruence.
    + intros x Hs Hx. apply lookup_union_Some_l, map_lookup_filter_Some. rewrite lookup_fmap, Hx. split; [done|]. by rewrite Es.
Qed.

(** Each of the objects [l] is saved, and no other row changes. *)
Definition all_saved (c : chain C D) (l : list pointer) (w w' : world A Act) : Prop :=
  (forall id, (forall p, p ∈ l -> ID (record_at w p) <> id) -> rows w' !! id = rows w !! id) /\
  forall p, p ∈ l -> let o := record_at w p in
    exists old new, rows w !! ID o = Some old /\ saved_over c o old /\ rows w' !! ID o = Some new /\ saved c o old new /\
      (IsVersioned m = true -> Version (record_at w' p) = Version new).

Lemma Update_saves_all c objs w (Ho : overrides c (update_hooks m) = false) (Hw : boundary w = None) (Hk : keyed (rows w)) (Hv : own_version)
  (Hn : NoDup (map (fun p => ID (record_at w p)) (compactModels objs))) (Hok : (Update e clock perform m c objs w).1 = Ok tt) :
  all_saved c (compactModels objs) w (Update e clock perform m c objs w).2.
Proof.
  unfold all_saved.
  cbv zeta. destruct (decide (compactModels objs = [])) as [El|Hne].
  { assert (rows (Update e clock perform m c objs w).2 = rows w) as Er.
    { unfold Update, bind. rewrite El. destruct (refuse_read_options c w) as [[[]|err] w0] eqn:E; cbn.
      all: pose proof (local (Local_ := Local_refuse c) w) as (F & _); rewrite E in F; exact F. }
    rewrite El. split; [intros; by rewrite Er|intros ? []%elem_of_nil]. }
  assert (NoDup (compactModels objs)) as Hnd by (eapply NoDup_fmap_1; exact Hn).
  destruct (Update_ok c objs w Ho Hw Hnd Hok Hne) as (Hc & w1 & E1 & E2 & E3 & E4 & E5). set (l := compactModels objs) in *.
  assert (forall p, p ∈ l -> ID (record_at w1 p) = ID (record_at w p) /\ Version (record_at w1 p) = Version (record_at w p)) as Hid.
  { intros p Hp. rewrite E2 by done. unfold prepared. by destruct (caller c =? "")%string. }
  destruct (each_update_rows (update_chain c) l w1) as (F1 & _ & F2); [by rewrite E1| | |done|].
  { erewrite map_ext_in; [exact Hn|]. intros p Hp%list_elem_of_In. by apply Hid. }
  { intros p Hp. destruct (Hid p Hp) as [-> _]. by apply Hc. }
  rewrite E4. split.
  - intros id Hnot. rewrite F1; [by rewrite E1|]. intros p Hp. destruct (Hid p Hp) as [-> _]. by apply Hnot.
  - intros p Hp. destruct (F2 p Hp) as (old & now & G1 & G2 & G3 & G4). destruct (Hid p Hp) as [Hi Hver]. rewrite Hi, E1 in *. exists old. eexists.
    split; [done|]. split; [|split; [exact G3|split]].
    + destruct G2 as (L & V & Q). split; [done|]. split; [intros E; by rewrite <- Hver, V|].
      rewrite <- Q. unfold update_chain, managed_columns, prepared_chain. by destruct (enablePurge c), (versionColumn m); cbn; repeat case_match.
    + rewrite E2 by done. by apply written_saved.
    + intros Ev. unfold record_at at 1, at_. rewrite E5. fold (at_ (each l (update_one e clock m (update_chain c)) w1).2 p).
      change (record_of (at_ ?x ?y)) with (record_at x y). rewrite G4. destruct (updated_object_documented holds (versionColumn m) now (bumped (record_at w1 p)) (e := e)) as [_ ->].
      cbn. unfold IsVersioned in Ev. destruct (versionColumn m) as [v|] eqn:Evc; [|done].
      by rewrite (update_chain_writes c v Hv Evc).
Qed.

(** C20: an update without hooks, called outside a transaction on objects of
    distinct ids, that succeeds saves each of its objects over a live row of
    its id, which for a versioned model still has the version the object
    carries, and changes no other row.  The creation facts stay, by gorm's
    create-only permission on them, and so does the deletion mark, whatever the
    object says and whatever columns are selected; the version of the row and
    of the object goes up by one, the updater is the caller of a known caller,
    and of the model's own columns exactly the selected take the object's
    values. *)
Theorem Update_saves c objs w (Ho : overrides c (update_hooks m) = false) (Hw : boundary w = None) (Hk : keyed (rows w)) (Hv : own_version)
  (Hn : NoDup (map (fun p => ID (record_at w p)) (compactModels objs))) (Hok : (Update e clock perform m c objs w).1 = Ok tt) :
  let l := compactModels objs in
  let w' := (Update e clock perform m c objs w).2 in
  (forall id, (forall p, p ∈ l -> ID (record_at w p) <> id) -> rows w' !! id = rows w !! id) /\
  forall p, p ∈ l -> let o := record_at w p in
    exists old new, rows w !! ID o = Some old /\ saved_over c o old /\ rows w' !! ID o = Some new /\ saved c o old new /\
      (IsVersioned m = true -> Version (record_at w' p) = Version new).
Proof. by apply Update_saves_all. Qed.

(** ** Histories *)

(** What may have become of a live row once others wrote: its version moved on
    or it was deleted.  A deleted row stays as it is. *)
Definition later (r r' : record_ A) : Prop := r' = r \/ (live r = true /\ (live r' = false \/ Version r < Version r')).

Definition advances (t t' : table A) : Prop :=
  (keyed t -> keyed t') /\ forall id r, t !! id = Some r -> exists r', t' !! id = Some r' /\ later r r'.

Lemma later_trans r1 r2 r3 : later r1 r2 -> later r2 r3 -> later r1 r3.
Proof.
  intros [->|(H1 & H2)] [->|(H3 & H4)]; [by left|by right|by right|right]. split; [done|]. destruct H2 as [H2|H2]; [congruence|].
  destruct H4 as [H4|H4]; [by left|right; lia].
Qed.

#[local] Instance advances_preorder : PreOrder advances.
Proof.
  split; [intros t; split; [done|]; intros id r Hr; exists r; by split; [|left]|].
  intros t1 t2 t3 [K1 H1] [K2 H2]. split; [tauto|]. intros id r Hr. destruct (H1 id r Hr) as (r' & Hr' & L1). destruct (H2 id r' Hr') as (r'' & Hr'' & L2).
  exists r''. split; [done|]. by apply (later_trans _ r').
Qed.

Lemma advances_fmap (f : record_ A -> record_ A) t : (forall r, ID (f r) = ID r) -> (forall id r, t !! id = Some r -> later r (f r)) -> advances t (f <$> t).
Proof.
  intros Hi Hf. split; [by apply keyed_fmap|]. intros id r Hr. exists (f r). rewrite lookup_fmap, Hr. split; [done|]. by apply (Hf id).
Qed.

(** Code that only moves rows on. *)
Class Advancing {X} (f : M X) : Prop := advancing : forall w, advances (rows w) (rows (f w).2).

#[local] Instance Advancing_local {X} (f : M X) : Local_ f -> Advancing f.
Proof. intros H w. destruct (H w) as (-> & _). reflexivity. Qed.
#[local] Instance Advancing_bind {X Y} (f : M X) (k : X -> M Y) : Advancing f -> (forall x, Advancing (k x)) -> Advancing (bind f k).
Proof.
  intros Hf Hk w. specialize (Hf w). unfold bind. destruct (f w) as [[x|err] w']; cbn in *; [|done]. etransitivity; [exact Hf|apply Hk].
Qed.
#[local] Instance Advancing_each {X} (l : list X) (f : X -> M unit) : (forall x, Advancing (f x)) -> Advancing (each l f).
Proof. intros H. induction l; cbn; apply _. Qed.
#[local] Instance Advancing_summing {X} (l : list X) (f : X -> M Z) : (forall x, Advancing (f x)) -> Advancing (summing l f).
Proof. intros H. induction l; cbn; apply _. Qed.
#[local] Instance Advancing_if {X} (b : bool) (f g : M X) : Advancing f -> Advancing g -> Advancing (if b then f else g).
Proof. by destruct b. Qed.

Lemma advancing_statement {X} (s : nat -> table A -> result D (table A * X)) :
  (forall n t t' x, s n t = Ok (t', x) -> advances t t') -> Advancing (statement s : M X).
Proof. intros H w. unfold statement. destruct (s _ _) as [[t x]|err] eqn:E; cbn; [by eapply H|reflexivity]. Qed.

Lemma advancing_insert n l t t' : insert e n l t = Ok t' -> advances t t'.
Proof.
  intros H%(insert_documented holds (versionColumn m)). destruct H as (Hn & Hf & ->). split.
  - intros Hk id r. rewrite lookup_union_Some_raw. intros [Hr|[_ Hr]]; [|by apply Hk].
    apply elem_of_list_to_map_2, list_elem_of_fmap in Hr as (r' & [= -> ->] & _). done.
  - intros id r Hr. exists r. split; [|by left]. rewrite lookup_union_r; [done|]. apply not_elem_of_list_to_map_1.
    rewrite list_elem_of_fmap. intros ([id' r'] & -> & Hin). apply list_elem_of_fmap in Hin as (r0 & [= -> ->] & Hin).
    cbn in Hr. by rewrite (Hf r0 Hin) in Hr.
Qed.

Lemma advancing_delete_rows c v batch : default false (enablePurge c) = false -> Advancing (delete_rows (Act := Act) e clock c v batch).
Proof.
  intros Hp. unfold delete_rows. do 3 (apply Advancing_bind; [apply _|intros ?]). apply advancing_statement. intros n t t' k E.
  apply (delete_documented holds (versionColumn m)) in E as (_ & _ & ->). rewrite Hp. apply advances_fmap; intros.
  - by destruct (selects _ _ _ _).
  - destruct (selects _ _ _ _) eqn:Es; [|by left]. right. unfold selects in Es. cbn in Es. destruct (live r); [|done]. by split; [|left].
Qed.

(** Versions that [n] more updates of one row do not exhaust. *)
Definition below (n : nat) (t : table A) : Prop := forall id r, t !! id = Some r -> - 2 ^ 63 <= Version r /\ Version r + Z.of_nat n < 2 ^ 63.

Context (versioned : IsVersioned m = true) (distinct : own_version).

Definition bumping (c : chain C D) : Prop := forall v, versionColumn m = Some v -> writes (updateRowStatement c) v = true.

Lemma update_chain_bumping c : bumping (update_chain c).
Proof.
  clear Documented0. intros v Hv. by apply update_chain_writes.
Qed.

Lemma written_version c (o : record_ A) now old : bumping c -> Version (written (versionColumn m) (updateRowStatement c) (bumped o) now old) = wrap64 (Version o + 1).
Proof.
  clear Documented0.
  intros Hb. unfold written, bumped. rewrite versioned. cbn. unfold IsVersioned in versioned. destruct (versionColumn m) as [v|] eqn:E; [|done]. by rewrite (Hb v E).
Qed.

Lemma update_one_advances c p n w : bumping c -> below (S n) (rows w) ->
  advances (rows w) (rows (update_one e clock m c p w).2) /\ below n (rows (update_one e clock m c p w).2).
Proof.
  intros Hb Hbelow. destruct (update_one_effect c p w) as (now & [-> | ->] & _).
  - split; [reflexivity|]. intros id r Hr. specialize (Hbelow id r Hr). lia.
  - assert (forall id r, rows w !! id = Some r -> selects holds (statement_of c (record_at w p)) false r = true ->
      live r = true /\ Version (written (versionColumn m) (updateRowStatement c) (bumped (record_at w p)) now r) = Version r + 1) as Hs.
    { intros id r Hr Hsel. rewrite written_version by done. unfold selects, statement_of in Hsel. cbn in Hsel. rewrite versioned in Hsel.
      apply andb_prop in Hsel as [Hsel _]. apply andb_prop in Hsel as [Hsel Hv]. apply andb_prop in Hsel as [Hl _]. boolify. split; [done|].
      specialize (Hbelow id r Hr). rewrite <- Hv, wrap64_id; lia. }
    split.
    + apply advances_fmap; [intros; by destruct (selects _ _ _ _)|]. intros id r Hr. destruct (selects _ _ _ r) eqn:E; [|by left].
      destruct (Hs id r Hr E) as [Hl Hv]. right. split; [done|]. right. lia.
    + intros id r'. rewrite lookup_fmap, fmap_Some. intros (r & Hr & ->). specialize (Hbelow id r Hr). destruct (selects _ _ _ r) eqn:E; [|lia].
      destruct (Hs id r Hr E) as [_ ->]. lia.
Qed.

Lemma each_update_advances c objs w : bumping c -> below (length objs) (rows w) -> advances (rows w) (rows (each objs (update_one e clock m c) w).2).
Proof.
  intros Hb. revert w. induction objs as [|p objs IH]; intros w Hw; cbn; [reflexivity|].
  destruct (update_one_advances c p (length objs) w Hb Hw) as [H1 H2]. unfold bind. destruct (update_one e clock m c p w) as [[x|err] w1]; cbn in *; [|done].
  etransitivity; [exact H1|]. by apply IH.
Qed.

(** *** Assignments *)

(** Assignments of the model's own columns, which leave the version to the
    framework. *)
Definition own_assignments (l : list (Assignment (A := A))) : Prop :=
  Forall (fun a => exists x, Value_of a = Some (PutCell x) /\ Column_of a ∉ framework_columns /\ Column_of a <> "updated_by"%string /\
    Some (Column_of a) <> versionColumn m) l.

Definition cells_only (u : gmap string (assigned A)) : Prop :=
  forall c v, u !! c = Some v -> exists x, v = PutCell x /\ c ∉ framework_columns /\ c <> "updated_by"%string /\ Some c <> versionColumn m.

Lemma collect_cells outer l u0 u : own_assignments l -> cells_only u0 -> collect_assignments (D := D) outer l u0 = Ok u -> cells_only u.
Proof.
  intros Hl. revert u0. induction Hl as [|a l (x & Hv & Ha) Hl IH]; intros u0 H0; cbn; [by intros [= <-]|].
  destruct (_ =? _)%string; [done|]. destruct (_ && _); [done|]. rewrite Hv. destruct (bool_decide _); [done|]. apply IH.
  intros c v. rewrite lookup_insert_Some. intros [[<- <-]|[_ H]]; [by exists x|by apply H0].
Qed.

(** Assignments of which only the version's may bump. *)
Definition bumps_only (vc : string) (u : gmap string (assigned A)) : Prop :=
  forall c v, u !! c = Some v -> match v with PutNumber _ => False | BumpVersion => c = vc | _ => True end.

Lemma assigned_version vc (u : gmap string (assigned A)) now (r : record_ A) : bumps_only vc u ->
  let r' := assigned_row u now r in
  ID r' = ID r /\ DeletedAt r' = DeletedAt r /\ Version r' = Version r + (match u !! vc with Some BumpVersion => 1 | _ => 0 end).
Proof.
  cbv zeta. unfold assigned_row. cbn.
  refine (map_fold_weak_ind (fun r' u => bumps_only vc u ->
    ID r' = ID r /\ DeletedAt r' = DeletedAt r /\ Version r' = Version r + (match u !! vc with Some BumpVersion => 1 | _ => 0 end)) (assign_one now) r _ _ u).
  - intros _. rewrite lookup_empty. repeat split. lia.
  - intros c v u' r' Hc IH H. destruct IH as (I1 & I2 & I3).
    { intros c' v' Hv. apply (H c' v'). rewrite lookup_insert_ne; [done|]. intros ->. congruence. }
    pose proof (H c v (lookup_insert_eq _ _ _)) as Hv. destruct v; cbn; rewrite ?I1, ?I2, ?I3; try done.
    all: repeat (split; [done|]).
    + destruct (decide (c = vc)) as [->|Hne]; [by rewrite lookup_insert_eq, Hc|by rewrite lookup_insert_ne].
    + destruct (decide (c = vc)) as [->|Hne]; [by rewrite lookup_insert_eq, Hc|by rewrite lookup_insert_ne].
    + subst. rewrite Hc, lookup_insert_eq. lia.
Qed.


Lemma live_deleted (r r' : record_ A) : DeletedAt r' = DeletedAt r -> live r' = live r.
Proof. unfold live. by intros ->. Qed.

Lemma advancing_assign outer c id l : own_assignments l -> Advancing (UpdateByID (Act := Act) e clock m outer c id l).
Proof.
  intros Hl. unfold UpdateByID. apply Advancing_bind; [apply Advancing_local, Local_refuse|]. intros _. destruct (id =? "")%string; [apply _|].
  destruct (bool_decide _); [apply _|]. destruct (collect_assignments outer l ∅) as [u|err] eqn:Eu; [|intros w; reflexivity].
  apply Advancing_bind; [apply Advancing_local, Local_prepare|]. intros c'. cbv zeta. apply Advancing_bind; [apply Advancing_local; unfold NowUTC; apply _|]. intros now.
  apply collect_cells in Eu; [|done|by intros ? ?; rewrite lookup_empty].
  assert (exists vc, versionColumn m = Some vc) as [vc Evc] by (unfold IsVersioned in versioned; destruct (versionColumn m); [by eexists|done]).
  set (u1 := if (caller c =? "")%string then on_time_base <$> u else <["updated_by" := PutText (caller c)]> (on_time_base <$> u)).
  assert (forall k v, u1 !! k = Some v -> k = "updated_by"%string /\ v = PutText (caller c) \/
    exists x, v = PutCell x /\ k ∉ framework_columns /\ k <> "updated_by"%string /\ Some k <> versionColumn m) as H1.
  { assert (forall k v, (on_time_base <$> u) !! k = Some v -> exists x, v = PutCell x /\ k ∉ framework_columns /\ k <> "updated_by"%string /\ Some k <> versionColumn m) as H0.
    { intros k v. rewrite lookup_fmap, fmap_Some. intros (v0 & Hv & ->). destruct (Eu k v0 Hv) as (x & -> & ? & ? & ?). eexists. by repeat split. }
    intros k v. unfold u1. destruct (caller c =? "")%string; [by intros Hv; right; apply H0|].
    rewrite lookup_insert_Some. intros [[<- <-]|[_ Hv]]; [by left|right; by apply H0]. }
  rewrite Evc. assert (u1 !! vc = None) as ->.
  { destruct (u1 !! vc) as [v|] eqn:Ev; [|done]. destruct (H1 vc v Ev) as [[-> ->]|(x & -> & _ & _ & Hne)]; [by destruct (distinct _ Evc)|congruence]. }
  set (u2 := <[vc := BumpVersion]> u1). assert (bumps_only vc u2 /\ assignable (versionColumn m) u2) as [Hb Ha].
  { split; intros k v; unfold u2; rewrite lookup_insert_Some; intros [[<- <-]|[Hne Hv]]; try done;
      destruct (H1 k v Hv) as [[-> ->]|(x & -> & ? & ? & ?)]; done. }
  apply advancing_statement. intros n t t' x E. unfold lift in E. destruct (assign e _ _ _ _ _) as [t1|err] eqn:Ea; [|done]. injection E as <- _.
  apply (assign_documented holds (versionColumn m)) in Ea as ->; [|done]. apply advances_fmap.
  - intros r. destruct (selects _ _ _ _); [|done]. by apply (assigned_version vc).
  - intros k r _. destruct (selects _ _ _ r) eqn:Es; [|by left]. destruct (assigned_version vc u2 now r Hb) as (_ & _ & E).
    unfold u2 in E at 2. rewrite lookup_insert_eq in E. right. split; [|right; lia]. unfold selects in Es. cbn in Es. by destruct (live r).
Qed.

(** *** Writes of a history *)

Lemma forward_bind {X Y} (f : M X) (k : X -> M Y) w : Local_ f ->
  (forall x w', rows w' = rows w -> boundary w' = boundary w -> (f w).1 = Ok x -> advances (rows w') (rows (k x w').2)) -> advances (rows w) (rows (bind f k w).2).
Proof.
  intros Hf Hk. destruct (Hf w) as (E1 & E2 & _). unfold bind. destruct (f w) as [[x|err] w'] eqn:E; cbn in *; [|rewrite E1; reflexivity].
  rewrite <- E1. by apply Hk.
Qed.

Lemma forward_write (single : bool) f w : Quiet f -> boundary w = None -> (forall w1, rows w1 = rows w -> advances (rows w1) (rows (f w1).2)) ->
  advances (rows w) (rows ((if single then withSingleStatementWrite f else withWriteTransaction e perform f) w).2).
Proof.
  intros Hq Hw Hf. destruct (write_effect single f w Hq Hw) as (w1 & _ & E2 & _ & _ & [->| ->] & _); [reflexivity|]. rewrite <- E2. by apply Hf.
Qed.

Ltac as_advancing := match goal with |- advances (rows ?w) (rows (?f ?w).2) => let H := fresh in assert (Advancing f) as H; [|exact (H w)] end.

Lemma Create_advances c objs w : overrides c (create_hooks m) = false -> boundary w = None ->
  advances (rows w) (rows (Create e clock uuid perform m c objs w).2).
Proof.
  intros Ho Hw. unfold Create. apply forward_bind; [apply Local_refuse|]. intros _ w1 E1 B1 _. rewrite Hw in B1. cbv zeta.
  destruct (bool_decide _); [reflexivity|]. apply forward_bind; [apply Local_prepare|]. intros c' w2 E2 B2 Hc. rewrite B1 in B2.
  apply prepare_ok in Hc as [_ ->]. apply forward_bind; [apply _|]. intros _ w3 E3 B3 _. rewrite B2 in B3.
  assert (overrides (prepared_chain c) (create_hooks m) = false) as Hp by (unfold overrides, prepared_chain in *; by destruct (enablePurge c)).
  apply forward_write; [|done|].
  - unfold create_write, insert_batch. rewrite !hooks_off by done. repeat (apply Quiet_bind; [apply _|intros ?]). apply _.
  - intros w4 _. unfold create_write, insert_batch. rewrite !hooks_off by done.
    as_advancing. apply Advancing_bind; [apply _|intros _]. apply Advancing_bind; [apply Advancing_local, Local_fill|intros _]. apply Advancing_bind; [|intros _; apply _].
    apply Advancing_each. intros batch. apply Advancing_bind; [apply _|]. intros records. apply advancing_statement. intros n t t' x E.
    unfold lift in E. destruct (insert e n records t) as [t1|err] eqn:Ei; [|done]. injection E as <- _. by eapply advancing_insert.
Qed.

Lemma Delete_advances c objs w : overrides c (delete_hooks m) = false -> default (Purge m) (enablePurge c) = false -> boundary w = None ->
  advances (rows w) (rows (Delete e clock perform m c objs w).2).
Proof.
  intros Ho Hp Hw. unfold Delete, new_object. apply forward_bind; [apply Local_refuse|]. intros _ w1 E1 B1 _. rewrite Hw in B1.
  apply forward_bind; [apply Local_prepare|]. intros c' w2 E2 B2 Hc. rewrite B1 in B2. apply prepare_ok in Hc as [_ ->]. cbv zeta.
  destruct (_ && _); [reflexivity|]. apply forward_bind; [apply _|]. intros records w3 E3 B3 _. rewrite B2 in B3. destruct (_ && _); [reflexivity|].
  apply forward_bind; [apply _|]. intros l w4 E4 B4 _. rewrite B3 in B4. destruct (_ && _); [reflexivity|].
  apply forward_bind; [apply _|]. intros guarded w5 E5 B5 _. rewrite B4 in B5.
  assert (overrides (prepared_chain c) (delete_hooks m) = false) as Hh by (unfold overrides, prepared_chain in *; by destruct (enablePurge c)).
  assert (default false (enablePurge (prepared_chain c)) = false) as Hu by (unfold prepared_chain; destruct (enablePurge c) eqn:Ep; cbn; [by rewrite Ep|done]).
  apply forward_write; [|done|].
  - unfold delete_write, delete_checked, delete_rows. rewrite !hooks_off by done. repeat (apply Quiet_bind; [apply _|intros ?]). apply _.
  - intros w6 _. unfold delete_write. rewrite !hooks_off by done.
    as_advancing. apply Advancing_bind; [apply _|intros _]. apply Advancing_bind; [|intros n; apply _].
    assert (forall v batch, Advancing (delete_rows (Act := Act) e clock (prepared_chain c) v batch)) as Hrows by (intros; by apply advancing_delete_rows).
    destruct guarded; [|apply _]. apply Advancing_summing. intros p. unfold delete_checked. apply Advancing_bind; [apply _|]. intros r.
    apply Advancing_bind; [apply Hrows|]. intros n. apply _.
Qed.

Lemma compact_length objs : (length (compactModels objs) <= length objs)%nat.
Proof. unfold compactModels. induction objs as [|[p|] objs IH]; cbn; unfold id in *; lia. Qed.

Lemma Update_advances c objs w : overrides c (update_hooks m) = false -> below (length objs) (rows w) -> boundary w = None ->
  advances (rows w) (rows (Update e clock perform m c objs w).2).
Proof.
  intros Ho Hb Hw. unfold Update. set (l := compactModels objs). apply forward_bind; [apply Local_refuse|]. intros _ w1 E1 B1 _. rewrite Hw in B1. cbv zeta.
  destruct (bool_decide _); [reflexivity|]. apply forward_bind; [unfold check_updatable; apply _|]. intros _ w2 E2 B2 _. rewrite B1 in B2.
  apply forward_bind; [apply Local_prepare|]. intros c' w3 E3 B3 Hc. rewrite B2 in B3. apply prepare_ok in Hc as [_ ->].
  apply forward_bind; [apply _|]. intros _ w4 E4 B4 _. rewrite B3 in B4. fold (update_chain c).
  assert (overrides (update_chain c) (update_hooks m) = false) as Hh by (unfold overrides in *; by destruct (update_chain_kept c) as [-> _]).
  match goal with |- context [restoring ?g] => set (f := g) end. assert (rows (restoring f w4).2 = rows (f (set_restores [] w4)).2) as ->.
  { unfold restoring. destruct (f _) as [[[]|err] w5]; [done|]. cbn. apply (Local_restore (restoreVersions w5) w5). }
  change (rows w4) with (rows (set_restores [] w4)). unfold f. apply forward_write; [by apply quiet_update_write|done|].
  intros w5 E5. unfold update_write, normalizeTimes. rewrite !hooks_off by done. apply forward_bind; [apply _|]. intros _ w6 E6 _ _.
  apply forward_bind; [destruct (resolves m); apply _|]. intros _ w7 E7 _ _. apply forward_bind; [unfold clearAssociations; apply _|]. intros _ w8 E8 _ _.
  assert (advances (rows w8) (rows (each l (update_one e clock m (update_chain c)) w8).2)) as H.
  { apply each_update_advances; [apply update_chain_bumping|]. intros id r Hr. rewrite E8, E7, E6, E5 in Hr. cbn in Hr. rewrite E4, E3, E2, E1 in Hr.
    specialize (Hb id r Hr). assert (length l <= length objs)%nat by (apply compact_length). lia. }
  unfold bind. destruct (each l _ w8) as [[[]|err] w9]; [|done]. exact H.
Qed.

(** A history: writes without hooks, deletes that mark and assignments of the
    model's own columns, by anyone and with whatever objects, between which
    clients read rows into objects and change the ones they hold. *)
Inductive step (w : world A Act) : world A Act -> Prop :=
| step_create c objs : overrides c (create_hooks m) = false -> step w (Create e clock uuid perform m c objs w).2
| step_update c objs : overrides c (update_hooks m) = false -> below (length objs) (rows w) -> step w (Update e clock perform m c objs w).2
| step_assign outer c id l : own_assignments l -> step w (UpdateByID e clock m outer c id l w).2
| step_delete c objs : overrides c (delete_hooks m) = false -> default (Purge m) (enablePurge c) = false -> step w (Delete e clock perform m c objs w).2
| step_client h : step w (set_heap h w).

Context `{!Behaved m}.

Lemma step_forward w w' : step w w' -> boundary w = None -> boundary w' = None /\ advances (rows w) (rows w').
Proof.
  intros [c objs Ho|c objs Ho Hb|outer c id l Hl|c objs Ho Hp|h] Hw.
  - split; [by apply (whole_Create e clock uuid perform m c objs w Hw)|by apply Create_advances].
  - split; [by apply (whole_Update e clock perform holds m c objs w Hw)|by apply Update_advances].
  - split; [by apply (whole_UpdateByID e clock m outer c id l w Hw)|by apply advancing_assign].
  - split; [by apply (whole_Delete e clock perform holds m c objs w Hw)|by apply Delete_advances].
  - by split.
Qed.

Lemma history_forward w w' : steps step w w' -> boundary w = None -> boundary w' = None /\ advances (rows w) (rows w').
Proof.
  induction 1 as [w|w1 w2 w3 Hs IH Hstep]; intros Hw; [by split|]. destruct (IH Hw) as [B1 A1]. destruct (step_forward w2 w3 Hstep B1) as [B2 A2].
  split; [done|]. by etransitivity.
Qed.

(** C19: an update of a versioned model overwrites what its caller read.  Let a
    row be read at one state of a history; if, at any later state, an update
    of an object with the id and the version of that row succeeds, the row it
    overwrites is the very row that was read, whatever was written in
    between.  Two updates decided over the same read can so never both
    succeed, and no write gets lost.  The version column is one of its own,
    neither the updater's nor the deletion mark's. *)
Theorem updates_overwrite_what_was_read w1 w2 id r c p
  (Hw : boundary w1 = None) (Hk : keyed (rows w1)) (Hs : steps step w1 w2) (Hr : rows w1 !! id = Some r)
  (Ho : overrides c (update_hooks m) = false) (Hid : ID (record_at w2 p) = id) (Hver : Version (record_at w2 p) = Version r)
  (Hok : (Update e clock perform m c [Some p] w2).1 = Ok tt) :
  rows w2 !! id = Some r /\ live r = true /\
  exists r', rows (Update e clock perform m c [Some p] w2).2 !! id = Some r' /\ Version r' = wrap64 (Version r + 1).
Proof.
  destruct (history_forward w1 w2 Hs Hw) as [B [K F]]. destruct (F id r Hr) as (r2 & Hr2 & L).
  destruct (Update_saves_all c [Some p] w2 Ho B (K Hk) distinct) as [_ H]; [cbn; apply NoDup_singleton|done|].
  destruct (H p) as (old & new & Hold & (Hl & Hv & _) & Hnew & Hs' & _); [by constructor|]. cbv zeta in *. rewrite Hid in *.
  rewrite Hr2 in Hold. injection Hold as <-. specialize (Hv versioned). assert (r2 = r) as ->.
  { destruct L as [->|[Hlr [Hd|Hlt]]]; [done|congruence|lia]. }
  split; [done|]. split; [done|]. exists new. split; [done|]. destruct Hs' as (_ & _ & _ & _ & -> & _). by rewrite versioned, Hver.
Qed.
End Rows.

(** ** A race *)

(** Two clients read a row at the version 3.  The second of them to save finds
    it stale; the first overwrote what it read. *)
Module Race.
Import Scenes.

Definition engine_ := Scenes.engine_ (Some "version"%string) no_failure.
Definition before : world Z string := world_ [row_ "a" 3; row_ "a" 3] [row_ "a" 3].
#[export] Instance documented : Documented Scenes.holds (versionColumn plain) engine_.
Proof. exact (sql_documented _ _ _ _ _). Qed.
Definition save (p : pointer) (w : world Z string) := Update engine_ clock perform plain chain_ [Some p] w.

Example second_is_stale :
  (save 0 before).1 = Ok tt /\ (save 1 (save 0 before).2).1 = Err (ErrStaleObject "a" 3) /\
  rows (save 1 (save 0 before).2).2 = rows (save 0 before).2.
Proof. vm_compute. repeat split; reflexivity. Qed.
End Race.
Import Scenes Race.

Lemma one_row_keyed : keyed (rows Race.before).
Proof.
  intros id r H. change (rows Race.before) with (<["a"%string := Scenes.row_ "a" 3]> (∅ : table Z)) in H.
  by apply lookup_insert_Some in H as [[<- <-]|[_ H]].
Qed.

Lemma updates_overwrite_what_was_read_witness :
  rows Race.before !! "a"%string = Some (Scenes.row_ "a" 3) /\ live (Scenes.row_ "a" 3) = true /\
  exists r', rows (Race.save 0 Race.before).2 !! "a"%string = Some r' /\ Version r' = wrap64 (3 + 1).
Proof.
  assert (own_version Scenes.plain) as Hv by (intros v [= <-]; split; discriminate).
  refine (updates_overwrite_what_was_read Race.engine_ Scenes.clock Scenes.uuid Scenes.perform Scenes.holds Scenes.plain eq_refl Hv
    Race.before Race.before "a" (Scenes.row_ "a" 3) Scenes.chain_ 0%nat eq_refl one_row_keyed _ _ eq_refl _ _ _); [constructor|vm_compute; reflexivity..].
Defined.

Lemma Update_saves_witness :
  let w' := (Race.save 0 Race.before).2 in
  exists old new, rows Race.before !! "a"%string = Some old /\ saved_over Scenes.holds Scenes.plain Scenes.chain_ (Scenes.row_ "a" 3) old /\
    rows w' !! "a"%string = Some new /\ saved Scenes.plain Scenes.chain_ (Scenes.row_ "a" 3) old new /\
    (IsVersioned Scenes.plain = true -> Version (record_at w' 0%nat) = Version new).
Proof.
  assert (own_version Scenes.plain) as Hv by (intros v [= <-]; split; discriminate).
  refine (proj2 (Update_saves Race.engine_ Scenes.clock Scenes.perform Scenes.holds Scenes.plain Scenes.chain_ [Some 0%nat] Race.before
    eq_refl eq_refl one_row_keyed Hv _ _) 0%nat _); [apply NoDup_singleton|vm_compute; reflexivity|constructor].
Defined.
