(* ===== verification/WritesDelete.v ===== *)
(** * What Delete removes, and writes as a whole

    Without hooks, a delete removes exactly the rows its objects name, or
    exactly the rows the conditions of the chain are true of; and any write
    that succeeds is in the table with all of its statements. *)

From stdpp Require Import base list gmap strings.
From Stdlib Require Import ZArith Lia.
From S2P Require Import Prelude Writes WritesBase WritesSpec WritesLocking.
Local Open Scope Z_scope.
Local Open Scope write_scope.

Section Removal.
Context {A C D Act : Type}.
Abbreviation M := (M A Act D).

(** ** Sets of rows *)

(** The rows of a set of ids that a delete finds: soft deleted rows only when
    it purges. *)
Definition found (purge : bool) (t : table A) (id : string) : bool :=
  match t !! id with Some r => purge || live r | None => false end.
Definition all_found (purge : bool) (ids : gset string) (t : table A) : gset string := filter (fun id => found purge t id = true) ids.

(** [t'] is [t] with the rows of [ids] deleted. *)
Definition deleted (purge : bool) (ids : gset string) (t t' : table A) : Prop := forall id,
  if bool_decide (id ∈ ids) && found purge t id
  then if purge then t' !! id = None else exists r now, t !! id = Some r /\ t' !! id = Some (marked now r)
  else t' !! id = t !! id.

Lemma deleted_found purge ids t t' id : deleted purge ids t t' -> found purge t' id = negb (bool_decide (id ∈ ids)) && found purge t id.
Proof.
  intros H. specialize (H id). destruct (bool_decide (id ∈ ids)); cbn in *; [|unfold found; by rewrite H].
  destruct (found purge t id) eqn:E; cbn in *; [|by unfold found in *; rewrite H].
  destruct purge; [unfold found; by rewrite H|]. destruct H as (r & now & _ & H). unfold found. by rewrite H.
Qed.

Lemma deleted_none purge t : deleted purge ∅ t t.
Proof. intros id. by rewrite (bool_decide_eq_false_2 (id ∈ _)) by set_solver. Qed.

Lemma deleted_union purge ids1 ids2 t t1 t2 : deleted purge ids1 t t1 -> deleted purge ids2 t1 t2 -> deleted purge (ids1 ∪ ids2) t t2.
Proof.
  intros H1 H2 id. pose proof (deleted_found purge ids1 t t1 id H1) as E. specialize (H1 id). specialize (H2 id). rewrite E in H2.
  assert (bool_decide (id ∈ ids1 ∪ ids2) = bool_decide (id ∈ ids1) || bool_decide (id ∈ ids2)) as ->.
  { destruct (bool_decide (id ∈ ids1)) eqn:E1, (bool_decide (id ∈ ids2)) eqn:E2; boolify; cbn; [apply bool_decide_eq_true_2; set_solver..|apply bool_decide_eq_false_2; set_solver]. }
  destruct (bool_decide (id ∈ ids1)) eqn:E1, (bool_decide (id ∈ ids2)) eqn:E2, (found purge t id) eqn:Ef; cbn in *;
    try (by rewrite H2); try (destruct purge; [by rewrite H2|]; by rewrite H2).
  all: destruct purge; [done|]; destruct H2 as (r & now & Hr & H2); exists r, now; rewrite H1 in Hr; done.
Qed.

Lemma deleted_keyed purge ids t t' : deleted purge ids t t' -> keyed t -> keyed t'.
Proof.
  intros H Hk id r Hr. specialize (H id). destruct (_ && _); [|apply Hk; congruence].
  destruct purge; [congruence|]. destruct H as (r0 & now & H0 & H1). rewrite H1 in Hr. injection Hr as <-. cbn. by apply Hk.
Qed.

(** The counts of a sequence of deletes add up. *)
Lemma found_size purge ids1 ids2 t t1 : deleted purge ids1 t t1 ->
  size (all_found purge (ids1 ∪ ids2) t) = (size (all_found purge ids1 t) + size (all_found purge ids2 t1))%nat.
Proof.
  intros H. assert (forall id, id ∈ all_found purge ids2 t1 <-> id ∉ ids1 /\ id ∈ ids2 /\ found purge t id = true) as E.
  { intros id. unfold all_found. rewrite elem_of_filter, (deleted_found _ _ _ _ id H). destruct (bool_decide (id ∈ ids1)) eqn:E; boolify; cbn; naive_solver. }
  rewrite <- size_union.
  - f_equal. apply set_eq. intros id. rewrite elem_of_union, E. unfold all_found. rewrite !elem_of_filter, elem_of_union. destruct (decide (id ∈ ids1)); tauto.
  - intros id. rewrite E. unfold all_found. rewrite elem_of_filter. tauto.
Qed.

Lemma none_found purge t : size (all_found purge ∅ t) = 0%nat.
Proof. apply size_empty_iff. intros id. unfold all_found. rewrite elem_of_filter. set_solver. Qed.

Lemma found_all purge ids t : (size ids <= size (all_found purge ids t))%nat -> forall id, id ∈ ids -> found purge t id = true.
Proof.
  intros H id Hid. assert (all_found purge ids t = ids) as E; [|rewrite <- E in Hid; by apply elem_of_filter in Hid as [? _]].
  apply set_subseteq_size_eq; [by intros x [_ ?]%elem_of_filter|done].
Qed.

(** ** One statement *)

Context (e : engine A C D) (clock : nat -> Z) (perform : Act -> nat -> table A -> option D * table A).
Context (holds : C -> record_ A -> bool) (m : model A Act D) `{!Documented holds (versionColumn m) e}.

Abbreviation purging c := (default false (enablePurge c)).

(** Ids and versions of the objects stay. *)
Definition same_keys (w w' : world A Act) : Prop :=
  forall q, ID (record_at w' q) = ID (record_at w q) /\ Version (record_at w' q) = Version (record_at w q).

Lemma each_same_keys f objs (w : world A Act) : (forall r, ID (f r) = ID r /\ Version (f r) = Version r) ->
  same_keys w (each (D := D) objs (change f) w).2.
Proof.
  intros Hf. revert w. induction objs as [|p objs IH]; intros w q; [done|].
  change (each (p :: objs) (change f) w) with (each (D := D) objs (change f) (change (D := D) f p w).2).
  destruct (IH (change (D := D) f p w).2 q) as [-> ->]. rewrite change_at. case_decide; [subst; apply Hf|done].
Qed.

Definition after_delete (wh : where_ C) (purge : bool) (now : Z) (t : table A) : table A :=
  if purge then filter (fun '(_, r) => selects holds wh purge r = false) t
  else (fun r => if selects holds wh purge r then marked now r else r) <$> t.

Lemma delete_rows_ok c v batch w k : (delete_rows (Act := Act) e clock c v batch w).1 = Ok k ->
  let wh := mkWhere (key_of (map (record_at w) batch)) v (conditions c) in
  let w' := (delete_rows e clock c v batch w).2 in
  exists now, k = count holds wh (purging c) (rows w) /\ rows w' = after_delete wh (purging c) now (rows w) /\
    (restricts wh || matchAll c = true) /\ same_keys w w'.
Proof.
  unfold delete_rows. intros H. apply bind_inv in H as (records & w1 & E & Eq & H). rewrite Eq. clear Eq. injection E as <- <-.
  apply bind_inv in H as (now & w1 & E & Eq & H). rewrite Eq. clear Eq. injection E as <- <-. set (now := UTCMillisecond _) in *.
  apply bind_inv in H as ([] & w1 & E & Eq & H). rewrite Eq. clear Eq.
  assert (rows w1 = rows w /\ same_keys w w1) as [Er Ek].
  { destruct (purging c); cbn in E; [by injection E as <-|]. destruct (each_kept (D := D) (deleted_object e now) batch w) as [E1 _].
    pose proof (each_same_keys (deleted_object e now) batch w (deleted_object_documented holds (versionColumn m) now)) as E2. by rewrite E in E1, E2. }
  unfold statement in *. destruct (delete e _ _ _ _ _ _) as [[t n]|err] eqn:Ed; [|done]. cbn in H. injection H as ->.
  apply (delete_documented holds (versionColumn m)) in Ed as (Hr & -> & ->). exists now. rewrite Er. cbn. by repeat split; try apply Ek.
Qed.

(** A statement that names rows by their ids alone. *)
Lemma after_delete_ids ks purge now (t : table A) v cs : keyed t -> ks <> [] -> cs = [] ->
  (forall id r, t !! id = Some r -> id ∈ ks -> purge || live r = true -> match v with Some v => Version r = v | None => True end) ->
  deleted purge (list_to_set ks) t (after_delete (mkWhere ks v cs) purge now t) /\
  count holds (mkWhere ks v cs) purge t = Z.of_nat (size (all_found purge (list_to_set ks) t)).
Proof.
  intros Hk Hks -> Hv. assert (forall id r, t !! id = Some r -> selects holds (mkWhere ks v []) purge r = bool_decide (id ∈ (list_to_set ks : gset string)) && found purge t id) as Hs.
  { intros id r Hr. unfold selects, found. cbn. rewrite Hr, (Hk id r Hr), (bool_decide_eq_false_2 (ks = [])), andb_true_r by done. cbn.
    assert (bool_decide (id ∈ (list_to_set ks : gset string)) = bool_decide (id ∈ ks)) as -> by (apply bool_decide_ext; apply elem_of_list_to_set).
    destruct (decide (id ∈ ks)) as [Ei|Ei]; [rewrite (bool_decide_eq_true_2 _ Ei)|by rewrite (bool_decide_eq_false_2 _ Ei), andb_false_r].
    destruct (purge || live r) eqn:El; [|done]. cbn.
    specialize (Hv id r Hr Ei El). destruct v as [v|]; [|done]. subst. apply Z.eqb_refl. }
  split.
  - intros id. destruct (t !! id) as [r|] eqn:Hr.
    + rewrite <- (Hs id r Hr). unfold after_delete. destruct (selects holds _ purge r) eqn:E, purge.
      * apply map_lookup_filter_None. right. intros r' Hr'. rewrite Hr in Hr'. injection Hr' as <-. by rewrite E.
      * exists r, now. split; [done|]. by rewrite lookup_fmap, Hr; cbn; rewrite E.
      * by apply map_lookup_filter_Some.
      * rewrite lookup_fmap, Hr. cbn. by rewrite E.
    + assert (found purge t id = false) as -> by (unfold found; by rewrite Hr). rewrite andb_false_r. unfold after_delete.
      destruct purge; [apply map_lookup_filter_None; by left|by rewrite lookup_fmap, Hr].
  - unfold count. f_equal. rewrite <- (size_dom (D := gset string)). f_equal. apply set_eq. intros id. rewrite elem_of_dom. unfold all_found. rewrite elem_of_filter.
    split.
    + intros [r [Hr E]%map_lookup_filter_Some]. rewrite (Hs id r Hr) in E. apply andb_prop in E as [E1 E2]. by boolify.
    + intros [Hf Hi]. unfold found in Hf. destruct (t !! id) as [r|] eqn:Hr; [|done]. exists r. apply map_lookup_filter_Some. split; [done|].
      rewrite (Hs id r Hr), (bool_decide_eq_true_2 _ Hi). cbn. unfold found. by rewrite Hr.
Qed.

(** ** A loop of statements *)

(** From worlds where the objects have the keys they have in [w0], [f] deletes
    the rows of [ids] and counts the ones it found; what [ok] says holds of
    the table it started from. *)
Definition Deletes (w0 : world A Act) (purge : bool) (f : M Z) (ids : gset string) (ok : table A -> Prop) : Prop := forall w k,
  same_keys w0 w -> keyed (rows w) -> (f w).1 = Ok k ->
  deleted purge ids (rows w) (rows (f w).2) /\ k = Z.of_nat (size (all_found purge ids (rows w))) /\ same_keys w0 (f w).2 /\ ok (rows w).

(** What a delete says of a row it found, an earlier table says too. *)
Definition of_found (purge : bool) (ok : table A -> Prop) : Prop := forall ids t t', deleted purge ids t t' -> ok t' -> ok t.

Lemma same_keys_trans w1 w2 w3 : same_keys w1 w2 -> same_keys w2 w3 -> same_keys w1 w3.
Proof. intros H1 H2 q. destruct (H1 q) as [<- <-]. apply H2. Qed.

Lemma summing_deletes {X} w0 purge (l : list X) (f : X -> M Z) ids ok :
  (forall x, x ∈ l -> Deletes w0 purge (f x) (ids x) (ok x) /\ of_found purge (ok x)) ->
  Deletes w0 purge (summing l f) (⋃ (map ids l)) (fun t => forall x, x ∈ l -> ok x t).
Proof.
  induction l as [|x l IH]; intros Hl w k Hw Hk H.
  - injection H as <-. cbn. split; [apply deleted_none|]. split; [by rewrite none_found|]. split; [exact Hw|by intros ? ?%elem_of_nil].
  - cbn [summing] in H |- *. apply bind_inv in H as (a & w1 & E1 & Eq & H). rewrite Eq. clear Eq.
    apply bind_inv in H as (b & w2 & E2 & Eq & H). rewrite Eq. clear Eq. injection H as <-. cbn [snd ret].
    destruct (Hl x ltac:(constructor)) as [Hx _]. destruct (Hx w a Hw Hk) as (D1 & -> & S1 & O1); [by rewrite E1|]. rewrite E1 in D1, S1. cbn in D1, S1.
    destruct (IH (fun y Hy => Hl y (list_elem_of_further _ _ _ Hy)) w1 b S1) as (D2 & -> & S2 & O2); [by eapply deleted_keyed|by rewrite E2|]. rewrite E2 in D2, S2.
    cbn in D2, S2 |- *. split; [by apply (deleted_union _ _ _ _ (rows w1))|]. split; [rewrite (found_size _ _ _ _ _ D1); lia|]. split; [done|].
    intros y [->|Hy]%elem_of_cons; [done|]. destruct (Hl y (list_elem_of_further _ _ _ Hy)) as [_ Hback]. by apply (Hback _ _ _ D1), O2.
Qed.

Lemma key_of_ids (w0 w : world A Act) batch : same_keys w0 w -> (forall p, p ∈ batch -> ID (record_at w0 p) <> ""%string) ->
  key_of (map (record_at w) batch) = map (fun p => ID (record_at w0 p)) batch.
Proof.
  intros Hw Hb. unfold key_of. rewrite map_map. rewrite (map_ext _ (fun p => ID (record_at w0 p))) by (intros p; apply Hw).
  apply filter_all. intros id (p & -> & Hp)%list_elem_of_fmap. by apply Hb.
Qed.

Definition named_by (w : world A Act) (l : list pointer) : gset string := list_to_set (map (fun p => ID (record_at w p)) l).

Lemma batch_deletes c w0 batch : conditions c = [] -> batch <> [] -> (forall p, p ∈ batch -> ID (record_at w0 p) <> ""%string) ->
  Deletes w0 (purging c) (delete_rows e clock c None batch) (named_by w0 batch) (fun _ => True).
Proof.
  intros Hc Hb Hid w k Hw Hk H. destruct (delete_rows_ok c None batch w k H) as (now & -> & -> & _ & Hs). rewrite (key_of_ids w0) by done.
  destruct (after_delete_ids (map (fun p => ID (record_at w0 p)) batch) (purging c) now (rows w) None (conditions c) Hk) as [H1 H2]; [by destruct batch|done|done|].
  split; [done|]. split; [done|]. split; [by apply (same_keys_trans _ w)|done].
Qed.

(** The row of an object that carries a version was found with it. *)
Definition fresh_ (purge : bool) (o : record_ A) (t : table A) : Prop :=
  0 < VersionValue m o -> exists r, t !! ID o = Some r /\ purge || live r = true /\ Version r = VersionValue m o.

Lemma fresh_of_found purge o : of_found purge (fresh_ purge o).
Proof.
  intros ids t t' Hd H Hv. destruct (H Hv) as (r & Hr & Hl & E). exists r. split; [|done]. specialize (Hd (ID o)).
  destruct (_ && _); [|congruence]. destruct purge; [congruence|]. destruct Hd as (r0 & now & _ & Hd). rewrite Hr in Hd. by injection Hd as ->.
Qed.

Lemma checked_deletes c w0 p : conditions c = [] -> ID (record_at w0 p) <> ""%string ->
  Deletes w0 (purging c) (delete_checked e clock m c p) {[ID (record_at w0 p)]} (fresh_ (purging c) (record_at w0 p)).
Proof.
  intros Hc Hid w k Hw Hk H. unfold delete_checked in *. apply bind_inv in H as (r & w1 & E & Eq & H). rewrite Eq. clear Eq. injection E as <- <-.
  destruct (Hw p) as [Hi Hver]. assert (VersionValue m (record_at w p) = VersionValue m (record_at w0 p)) as Hvv by (unfold VersionValue; by rewrite Hver).
  cbv zeta in *. rewrite Hvv in *. set (v := VersionValue m (record_at w0 p)) in *. set (carried := if 0 <? v then Some v else None) in *.
  apply bind_inv in H as (n & w1 & E & Eq & H). rewrite Eq. clear Eq.
  destruct (delete_rows_ok c carried [p] w n) as (now & -> & Er & _ & Hs); [by rewrite E|]. rewrite E in Er, Hs.
  cbn [fst snd map] in *. rewrite (key_of_one (A := A)) in * by (by rewrite Hi). rewrite Hi in *. set (wh := mkWhere [ID (record_at w0 p)] carried (conditions c)) in *.
  destruct ((0 <? v) && (count holds wh (purging c) (rows w) =? 0)) eqn:Ec; [done|]. injection H as <-. cbn [snd ret].
  assert (0 < v -> exists r, rows w !! ID (record_at w0 p) = Some r /\ purging c || live r = true /\ Version r = v) as Hfresh.
  { intros Hv. apply Z.ltb_lt in Hv. rewrite Hv in Ec. apply Z.eqb_neq in Ec. destruct (count_some holds wh _ _ Ec) as (id & r & Hr & Es).
    unfold selects, wh in Es. cbn in Es. rewrite (Hk id r Hr) in Es. unfold carried in Es. rewrite Hv in Es.
    apply andb_prop in Es as [Es _]. apply andb_prop in Es as [Es Ev]. apply andb_prop in Es as [El Ei]. apply Z.eqb_eq in Ev.
    apply bool_decide_eq_true in Ei. apply list_elem_of_singleton in Ei as ->. by exists r. }
  destruct (after_delete_ids [ID (record_at w0 p)] (purging c) now (rows w) carried (conditions c) Hk) as [H1 H2]; [done|done| |].
  { intros id r Hr ->%list_elem_of_singleton _. unfold carried. destruct (0 <? v) eqn:Hv; [|done]. boolify. destruct (Hfresh Hv) as (r' & Hr' & _ & Ev). congruence. }
  rewrite Er. assert (list_to_set [ID (record_at w0 p)] = ({[ID (record_at w0 p)]} : gset string)) as E1 by (cbn; by rewrite union_empty_r_L).
  rewrite E1 in *. split; [done|]. split; [done|]. split; [by apply (same_keys_trans _ w)|done].
Qed.

(** ** Delete *)

Lemma slices_concat {X} n k (l : list X) : (0 < n)%nat -> (length l <= k)%nat -> concat (slices k n l) = l /\ Forall (fun b => b <> []) (slices k n l).
Proof.
  intros Hn. revert l. induction k as [|k IH]; intros l Hk; [by destruct l; cbn in Hk; [|lia]|]. destruct l as [|x l]; [done|]. cbn [slices].
  destruct (IH (drop n (x :: l))) as [E F]; [rewrite length_drop; cbn in *; lia|]. split; [cbn [concat]; by rewrite E, take_drop|].
  constructor; [by destruct n; [lia|]|done].
Qed.

Lemma batches_concat {X} n (l : list X) : (0 < n)%nat -> concat (batches n l) = l /\ Forall (fun b => b <> []) (batches n l).
Proof. intros H. by apply slices_concat. Qed.

Lemma named_by_concat w bs : ⋃ (map (named_by w) bs) = named_by w (concat bs).
Proof.
  induction bs as [|b bs IH]; [done|]. change (⋃ (map (named_by w) (b :: bs))) with (named_by w b ∪ ⋃ (map (named_by w) bs)). rewrite IH.
  unfold named_by. cbn [concat]. by rewrite map_app, list_to_set_app_L.
Qed.

(** The loop of a delete over named objects. *)
Lemma loop_deletes c w0 l (guarded : bool) : conditions c = [] -> (forall p, p ∈ l -> ID (record_at w0 p) <> ""%string) ->
  (guarded = false -> forall p, p ∈ l -> VersionValue m (record_at w0 p) <= 0) ->
  Deletes w0 (purging c)
    (if guarded then summing l (delete_checked e clock m c) else summing (batches (batch_size defaultDeleteBatchSize c) l) (delete_rows e clock c None))
    (named_by w0 l) (fun t => forall p, p ∈ l -> fresh_ (purging c) (record_at w0 p) t).
Proof.
  intros Hc Hid Hg. destruct guarded.
  - assert (named_by w0 l = ⋃ (map (fun p => {[ID (record_at w0 p)]}) l)) as -> by (clear; induction l as [|p l IH]; [done|]; unfold named_by in *; cbn; by rewrite <- IH).
    apply summing_deletes. intros p Hp. split; [by apply checked_deletes; [|apply Hid]|apply fresh_of_found].
  - destruct (batches_concat (batch_size defaultDeleteBatchSize c) l) as [El Hne]; [by apply batch_size_pos|]. rewrite Forall_forall in Hne.
    assert (forall b p, b ∈ batches (batch_size defaultDeleteBatchSize c) l -> p ∈ b -> p ∈ l) as Hin.
    { intros b p Hb Hp. rewrite <- El. apply list_elem_of_In, in_concat. exists b. by rewrite <- !list_elem_of_In. }
    rewrite <- El at 2. rewrite <- named_by_concat. intros w k Hw Hk H.
    destruct (summing_deletes w0 (purging c) (batches (batch_size defaultDeleteBatchSize c) l) (delete_rows e clock c None) (named_by w0) (fun _ _ => True)) with (w := w) (k := k)
      as (D1 & D2 & D3 & _); try done.
    + intros b Hb. split; [|done]. apply batch_deletes; [done|by apply Hne|]. intros p Hp. apply Hid. by apply (Hin b).
    + repeat (split; [done|]). intros p Hp Hv. specialize (Hg eq_refl p Hp). lia.
Qed.

#[local] Instance Quiet_delete_rows c v b : Quiet (delete_rows (Act := Act) e clock c v b).
Proof. unfold delete_rows. repeat (apply Quiet_bind; [apply _|intros ?]). apply _. Qed.

Lemma quiet_delete_write c guarded strict expected l : overrides c (delete_hooks m) = false -> Quiet (delete_write e clock m c guarded strict expected l).
Proof.
  intros Ho. unfold delete_write, delete_checked. rewrite !hooks_off by done. apply Quiet_bind; [apply _|intros _]. apply Quiet_bind; [|intros ?; apply _].
  apply Quiet_if; apply Quiet_summing; intros ?; [|apply _]. repeat (apply Quiet_bind; [apply _|intros ?]). apply _.
Qed.

(** A body that succeeds counted what it had to. *)
Lemma delete_write_ok c guarded strict expected l w : overrides c (delete_hooks m) = false -> (delete_write e clock m c guarded strict expected l w).1 = Ok tt ->
  let loop := if guarded then summing l (delete_checked e clock m c) else summing (batches (batch_size defaultDeleteBatchSize c) l) (delete_rows e clock c None) in
  exists k, (loop w).1 = Ok k /\ rows (delete_write e clock m c guarded strict expected l w).2 = rows (loop w).2 /\ (strict = true -> expected <= k).
Proof.
  intros Ho. unfold delete_write. rewrite !hooks_off by done. intros H. apply bind_inv in H as ([] & w1 & E & Eq & H). rewrite Eq. clear Eq. injection E as <-.
  apply bind_inv in H as (k & w1 & E & Eq & H). rewrite Eq. clear Eq. cbv zeta. rewrite E. exists k. split; [done|].
  destruct (strict && (k <? expected)) eqn:Es; [done|]. split; [done|]. intros ->. cbn in Es. boolify. lia.
Qed.

Abbreviation prepared_chain := (prepared_chain m).

Lemma prepared_chain_kept (c : chain C D) : purging (prepared_chain c) = default (Purge m) (enablePurge c) /\ conditions (prepared_chain c) = conditions c /\
  matchAll (prepared_chain c) = matchAll c /\ noHook (prepared_chain c) = noHook c /\ allowMissing (prepared_chain c) = allowMissing c.
Proof. unfold WritesLocking.prepared_chain. by destruct (enablePurge c) eqn:E; cbn; rewrite ?E. Qed.

(** A call of Delete that succeeds, up to the objects it works on. *)
Lemma Delete_ok c objs w : (Delete e clock perform m c objs w).1 = Ok tt ->
  let l := compactModels objs in
  let conditioned := matchAll c || negb (bool_decide (length (conditions c) = 0%nat)) in
  (l = [] /\ conditioned = false /\ (Delete e clock perform m c objs w).2 = w) \/
  let expected := Z.of_nat (size (list_to_set (key_of (map (record_at w) l)) : gset string)) in
  let strict := negb (allowMissing c) && (0 <? expected) in
  exists l' w1, (if bool_decide (l = []) then p <- new_object;; ret [p] else ret l : M (list pointer)) w = (Ok l', w1) /\
    (conditioned = true -> expected = 0) /\ (l = [] -> conditioned = true) /\
    let guarded := IsVersioned m && existsb (fun p => 0 <? VersionValue m (record_at w1 p)) l' in
    let write := delete_write e clock m (prepared_chain c) guarded strict expected l' in
    exists single : bool, Delete e clock perform m c objs w = (if single then withSingleStatementWrite write else withWriteTransaction e perform write) w1.
Proof.
  intros H. cbv zeta. unfold Delete in *. apply bind_inv in H as ([] & w0 & Er & Eq & H). rewrite Eq. clear Eq.
  assert (w0 = w) as -> by (pose proof (refuse_ok c w) as F; rewrite Er in F; by injection (F eq_refl)).
  apply bind_inv in H as (c' & w0 & Ep & Eq & H). rewrite Eq. clear Eq. destruct (prepare_ok m c w c') as [E2 ->]; [by rewrite Ep|]. rewrite Ep in E2. injection E2 as ->.
  destruct (prepared_chain_kept c) as (_ & Ec & Em & _ & Ea). cbv zeta in *. rewrite Ec, Em in *. set (conditioned := matchAll c || _) in *.
  destruct (bool_decide (compactModels objs = []) && negb conditioned) eqn:E0.
  { left. apply andb_prop in E0 as [E0 E1]. boolify. by repeat split. }
  right. apply bind_inv in H as (records & w0 & E & Eq & H). rewrite Eq. clear Eq. injection E as <- <-.
  set (expected := Z.of_nat _) in *. destruct (conditioned && (0 <? expected)) eqn:E1; [done|].
  apply bind_inv in H as (l' & w1 & E & Eq & H). rewrite Eq. clear Eq. exists l', w1. split; [exact E|]. split.
  { intros Hcond. rewrite Hcond in E1. cbn in E1. boolify. unfold expected in *. lia. }
  split; [intros El; rewrite (bool_decide_eq_true_2 _ El) in E0; by destruct conditioned|].
  rewrite Ea in *. destruct (conditioned && overrides _ _); [done|]. apply bind_inv in H as (guarded & w2 & E3 & Eq & H). rewrite Eq. clear Eq. injection E3 as <- <-.
  by eexists.
Qed.

(** A delete of records, without hooks and of objects that all carry an
    id, removes exactly the rows of those ids when it succeeds: soft deleted,
    or gone when it purges, in whatever batches.  No other row changes.
    Unless missing records are allowed every record named was there, and the
    row of an object that carries a version had that version. *)
Lemma Delete_removes_named c objs w (Ho : overrides c (delete_hooks m) = false) (Hc : conditions c = []) (Hm : matchAll c = false)
  (Hw : boundary w = None) (Hk : keyed (rows w)) (Hid : forall p, p ∈ compactModels objs -> ID (record_at w p) <> ""%string)
  (Hok : (Delete e clock perform m c objs w).1 = Ok tt) :
  let purge := default (Purge m) (enablePurge c) in
  let l := compactModels objs in
  deleted purge (named_by w l) (rows w) (rows (Delete e clock perform m c objs w).2) /\
  (allowMissing c = false -> forall p, p ∈ l -> found purge (rows w) (ID (record_at w p)) = true) /\
  forall p, p ∈ l -> fresh_ purge (record_at w p) (rows w).
Proof.
  cbv zeta. destruct (Delete_ok c objs w Hok) as [(El & _ & ->)|(l' & w1 & E & _ & Hcond & single & Eq)].
  { rewrite El. split; [apply deleted_none|]. split; [intros _|]; intros p Hp; by apply not_elem_of_nil in Hp. }
  set (l := compactModels objs) in *. rewrite Hc, Hm in Hcond. rewrite bool_decide_eq_false_2 in E by (intros El; by specialize (Hcond El)).
  injection E as <- <-. rewrite Eq in Hok |- *. clear Eq. destruct (prepared_chain_kept c) as (Ep & Ec & _ & Eh & _). rewrite Hc in Ec.
  assert (overrides (prepared_chain c) (delete_hooks m) = false) as Hover by (unfold overrides in *; by rewrite Eh).
  set (guarded := IsVersioned m && _) in *. set (strict := negb (allowMissing c) && _) in *. set (expected := Z.of_nat _) in *.
  set (write := delete_write e clock m (prepared_chain c) guarded strict expected l) in *.
  destruct (write_effect e perform single write w) as (w2 & G1 & G2 & _ & _ & _ & G3); [by apply quiet_delete_write|done|].
  destruct (G3 Hok) as (G4 & -> & _). destruct (delete_write_ok _ _ _ _ _ _ Hover G4) as (k & K1 & Erows & K3). fold write in Erows. rewrite Erows. clear Erows.
  assert (forall p, record_at w2 p = record_at w p) as Hrec by (intros p; unfold record_at, at_; by rewrite G1).
  destruct (loop_deletes (prepared_chain c) w l guarded Ec Hid) with (w := w2) (k := k) as (D1 & D2 & _ & D4); [|intros q; by rewrite Hrec|by rewrite G2|done|].
  { intros Hg p Hp. unfold guarded, VersionValue in *. destruct (IsVersioned m); [|done]. cbn in Hg.
    destruct (decide (0 < Version (record_at w p))) as [Hlt|]; [|lia]. exfalso. apply not_true_iff_false in Hg. apply Hg, existsb_exists. exists p.
    split; [by apply list_elem_of_In|by apply Z.ltb_lt]. }
  rewrite Ep, G2 in *. split; [done|]. split; [|done]. intros Hallow p Hp. apply (found_all _ (named_by w l)).
  - assert (expected = Z.of_nat (size (named_by w l))) as Ee by (unfold expected, named_by; by rewrite (key_of_ids w w)).
    assert (0 < expected) as Hpos.
    { rewrite Ee. destruct (size (named_by w l)) eqn:Es; [|lia]. apply size_empty_iff in Es. exfalso. apply (not_elem_of_empty (C := gset string) (ID (record_at w p))), Es.
      unfold named_by. apply elem_of_list_to_set, list_elem_of_fmap. by exists p. }
    assert (strict = true) as Hs by (unfold strict; rewrite Hallow; cbn; by apply Z.ltb_lt). specialize (K3 Hs). lia.
  - unfold named_by. apply elem_of_list_to_set, list_elem_of_fmap. by exists p.
Qed.

(** A delete by conditions: one statement without keys. *)
Lemma Delete_by_conditions c w (Ho : overrides c (delete_hooks m) = false) (Hc : matchAll c || negb (bool_decide (length (conditions c) = 0%nat)) = true)
  (Hw : boundary w = None) (Hok : (Delete e clock perform m c [] w).1 = Ok tt) :
  exists now, rows (Delete e clock perform m c [] w).2 =
    after_delete (mkWhere [] None (conditions c)) (default (Purge m) (enablePurge c)) now (rows w).
Proof.
  destruct (Delete_ok c [] w Hok) as [(_ & E & _)|(l' & w1 & E & _ & _ & single & Eq)]; [congruence|].
  cbn in E. unfold new_object, bind, gets, put, modify, ret in E. cbn in E. injection E as <- <-. set (p := fresh (dom (heap w))) in *.
  rewrite Eq in Hok |- *. clear Eq. set (w1 := set_heap _ w) in *. assert (record_at w1 p = zero_record) as Ez by (unfold record_at, at_, w1; cbn; by rewrite lookup_insert_eq).
  destruct (prepared_chain_kept c) as (Ep & Ec & _ & Eh & _).
  assert (overrides (prepared_chain c) (delete_hooks m) = false) as Hover by (unfold overrides in *; by rewrite Eh).
  assert (IsVersioned m && existsb (fun p => 0 <? VersionValue m (record_at w1 p)) [p] = false) as Eg.
  { cbn. rewrite Ez. unfold VersionValue. by destruct (IsVersioned m). }
  rewrite Eg in *. match goal with |- context [delete_write e clock m (prepared_chain c) false ?s ?x [p]] => set (strict := s) in *; set (expected := x) in * end.
  destruct (write_effect e perform single (delete_write e clock m (prepared_chain c) false strict expected [p]) w1) as (w2 & G1 & G2 & _ & _ & _ & G3); [by apply quiet_delete_write|done|].
  destruct (G3 Hok) as (G4 & -> & _). destruct (delete_write_ok _ _ _ _ _ _ Hover G4) as (k & K1 & -> & _).
  rewrite (batches_one) in * by (done || (cbn; apply batch_size_pos; done)). cbn [summing] in *.
  apply bind_inv in K1 as (n & w3 & E3 & Eq & K1). rewrite Eq. cbn [snd].
  destruct (delete_rows_ok (prepared_chain c) None [p] w2 n) as (now & _ & Er & _); [by rewrite E3|]. rewrite E3 in Er. cbn [snd fst] in Er.
  assert (record_at w2 p = zero_record) as Ez2 by (rewrite <- Ez; unfold record_at, at_; by rewrite G1).
  exists now. cbn in *. rewrite Ez2 in Er. cbn in Er. rewrite Ep, Ec, G2 in Er. exact Er.
Qed.
End Removal.

(** ** Writes as a whole *)

Section Effects.
Context {A C D Act : Type}.
Abbreviation M := (M A Act D).
Context (e : engine A C D) (clock : nat -> Z) (uuid : nat -> string) (perform : Act -> nat -> table A -> option D * table A).
Context (holds : C -> record_ A -> bool) (m : model A Act D) `{!Documented holds (versionColumn m) e}.

(** *** Create *)

(** The table with new records in it. *)
Definition inserted_into (records : list (record_ A)) (t t' : table A) : Prop :=
  NoDup (map ID records) /\ (forall r, r ∈ records -> t !! ID r = None) /\ t' = list_to_map (map (fun r => (ID r, r)) records) ∪ t.

Lemma keyed_list_lookup (l : list (record_ A)) id : (list_to_map (map (fun r => (ID r, r)) l) : table A) !! id = None <-> id ∉ map ID l.
Proof. rewrite <- not_elem_of_list_to_map. by rewrite <- list_fmap_compose. Qed.

Lemma inserted_into_app l1 l2 t t1 t2 : inserted_into l1 t t1 -> inserted_into l2 t1 t2 -> inserted_into (l1 ++ l2) t t2.
Proof.
  intros (N1 & F1 & ->) (N2 & F2 & ->). assert (forall r, r ∈ l2 -> ID r ∉ map ID l1 /\ t !! ID r = None) as Hd.
  { intros r Hr. specialize (F2 r Hr). apply lookup_union_None in F2 as [H1 H2]. by rewrite <- keyed_list_lookup. }
  split; [|split].
  - rewrite map_app. apply NoDup_app. split; [done|]. split; [|done]. intros id H1 (r & -> & Hr)%list_elem_of_fmap. by destruct (Hd r Hr).
  - intros r [Hr|Hr]%elem_of_app; [by apply F1|by apply Hd].
  - rewrite map_app, list_to_map_app, <- !map_union_assoc. rewrite !(map_union_assoc _ _ t). f_equal. apply map_union_comm, map_disjoint_spec.
    intros id r1 r2 H1 H2. apply elem_of_list_to_map_2, list_elem_of_fmap in H1 as (r & [= -> ->] & Hr).
    apply elem_of_list_to_map_2, list_elem_of_fmap in H2 as (r' & [= E ->] & Hr'). destruct (Hd r Hr) as [Hno _]. apply Hno. rewrite E. by apply list_elem_of_fmap_2.
Qed.

Lemma insert_batches_ok bs (w : world A Act) : (each bs (insert_batch e) w).1 = Ok tt ->
  heap (each bs (insert_batch e) w).2 = heap w /\
  inserted_into (map (record_at w) (concat bs)) (rows w) (rows (each bs (insert_batch e) w).2).
Proof.
  revert w. induction bs as [|b bs IH]; intros w.
  - intros _. split; [done|]. split; [constructor|]. split; [by intros r ?%elem_of_nil|]. cbn. by rewrite map_empty_union.
  - cbn [each]. intros H. apply bind_inv in H as ([] & w1 & E & Eq & H). rewrite Eq. clear Eq. destruct (IH w1 H) as [H1 H2].
    unfold insert_batch, bind, gets, statement, lift in E. destruct (insert e (statements w) (map (record_at w) b) (rows w)) as [t|err] eqn:Ei; [|done].
    injection E as <-. apply (insert_documented holds (versionColumn m)) in Ei. split; [done|]. cbn [concat]. rewrite map_app.
    by apply (inserted_into_app _ _ _ t).
Qed.

Lemma create_write_ok c l (w : world A Act) : overrides c (create_hooks m) = false -> (create_write e clock uuid m c l w).1 = Ok tt ->
  let w' := (create_write e clock uuid m c l w).2 in inserted_into (map (record_at w') l) (rows w) (rows w').
Proof.
  intros Ho. unfold create_write. rewrite !hooks_off by done. intros H. cbv zeta. apply bind_inv in H as ([] & w0 & E & Eq & H). rewrite Eq. clear Eq. injection E as <-.
  apply bind_inv in H as (now & w1 & E & Eq & H). rewrite Eq. clear Eq. destruct (Local_fill (A := A) (D := D) clock uuid m l w) as (F1 & _). rewrite E in F1. cbn in F1.
  apply bind_inv in H as ([] & w2 & E2 & Eq & H). rewrite Eq. clear Eq H. cbn [snd ret].
  destruct (insert_batches_ok (batches (batch_size defaultBatchSize c) l) w1) as [H1 H2]; [by rewrite E2|]. rewrite E2 in H1, H2. cbn in H1, H2.
  destruct (batches_concat (batch_size defaultBatchSize c) l) as [Hc _]; [by apply batch_size_pos|]. rewrite Hc, F1 in H2.
  unfold record_at, at_ in *. by rewrite H1.
Qed.

Lemma quiet_create_write c l : overrides c (create_hooks m) = false -> Quiet (create_write (A := A) (Act := Act) e clock uuid m c l).
Proof. intros H. unfold create_write, insert_batch. rewrite !hooks_off by done. repeat (apply Quiet_bind; [apply _|intros ?]). apply _. Qed.

(** A create without hooks that succeeds inserts its objects, as they are
    when it returns. *)
Lemma Create_inserts c objs w : overrides c (create_hooks m) = false -> boundary w = None ->
  (Create e clock uuid perform m c objs w).1 = Ok tt ->
  let w' := (Create e clock uuid perform m c objs w).2 in
  inserted_into (map (record_at w') (compactModels objs)) (rows w) (rows w').
Proof.
  intros Ho Hw. unfold Create. set (l := compactModels objs). intros H. cbv zeta.
  apply bind_inv in H as ([] & w0 & Er & Eq & H). rewrite Eq. clear Eq. cbv zeta in H |- *.
  assert (w0 = w) as -> by (pose proof (refuse_ok c w) as F; rewrite Er in F; by injection (F eq_refl)).
  destruct (bool_decide (l = [])) eqn:El.
  { boolify. rewrite El. split; [constructor|]. split; [by intros r ?%elem_of_nil|]. cbn. by rewrite map_empty_union. }
  apply bind_inv in H as (c' & w0 & Ep & Eq & H). rewrite Eq. clear Eq. destruct (prepare_ok m c w c') as [E2 ->]; [by rewrite Ep|]. rewrite Ep in E2. injection E2 as ->.
  apply bind_inv in H as ([] & w2 & E2 & Eq & H). rewrite Eq. clear Eq.
  match type of E2 with ?f w = _ => assert (Local_ f) as Hl by apply _ end. destruct (Hl w) as (L1 & L2 & _). rewrite E2 in L1, L2. cbn in L1, L2. clear Hl E2.
  assert (overrides (prepared_chain m c) (create_hooks m) = false) as Hover by (unfold overrides, prepared_chain in *; by destruct (enablePurge c)).
  set (write := create_write e clock uuid m (prepared_chain m c) l) in *. set (single := negb _ && _) in *.
  destruct (write_effect e perform single write w2 (quiet_create_write _ _ Hover)) as (w3 & _ & G2 & _ & _ & _ & G3); [by rewrite L2|].
  destruct (G3 H) as (G4 & G5 & G6). pose proof (create_write_ok _ _ _ Hover G4) as Hi. cbv zeta in Hi. fold write in Hi.
  rewrite <- L1, <- G2, G5. unfold record_at, at_ in *. by rewrite G6.
Qed.

(** *** UpdateByID *)

Lemma collected outer (l : list (Assignment (A := A))) u0 u : collect_assignments (D := D) outer l u0 = Ok u ->
  (forall c v, u0 !! c = Some v -> u !! c = Some v) /\ forall a v, a ∈ l -> Value_of a = Some v -> u !! Column_of a = Some v.
Proof.
  revert u0. induction l as [|a l IH]; intros u0; cbn [collect_assignments]; [intros [= <-]; split; [done|by intros a v ?%elem_of_nil]|].
  destruct (_ =? _)%string; [done|]. destruct (_ && _); [done|]. destruct (Value_of a) as [x|] eqn:Ea; [|done].
  destruct (u0 !! Column_of a) eqn:E0; cbn; [done|]. intros H. destruct (IH _ H) as [H1 H2]. split.
  - intros c v Hc. apply H1. rewrite lookup_insert_ne; [done|]. congruence.
  - intros b v [->|Hb]%elem_of_cons; [|by apply H2]. rewrite Ea. intros [= ->]. apply H1. by rewrite lookup_insert_eq.
Qed.

Lemma assigned_fields (u : gmap string (assigned A)) now (r : record_ A) c :
  Fields (assigned_row u now r) !! c = match u !! c with Some (PutCell x) => Some x | _ => Fields r !! c end.
Proof.
  unfold assigned_row. cbn. refine (map_fold_weak_ind (fun r' u => Fields r' !! c = match u !! c with Some (PutCell x) => Some x | _ => Fields r !! c end)
    (assign_one now) r _ _ u); [by rewrite lookup_empty|].
  intros k v u' r' Hk IH. destruct (decide (k = c)) as [->|Hne].
  - rewrite Hk in IH. rewrite lookup_insert_eq. destruct v; cbn; [by rewrite lookup_insert_eq|done..].
  - rewrite lookup_insert_ne by done. destruct v; cbn; [by rewrite lookup_insert_ne|done..].
Qed.

Definition cells_assigned (l : list (Assignment (A := A))) (r : record_ A) : Prop :=
  forall a x, a ∈ l -> Value_of a = Some (PutCell x) -> Fields r !! Column_of a = Some (normalize_cell x).

(** The table with the columns of one live row, if it meets the conditions,
    assigned. *)
Definition assigned_in (conds : list C) (id : string) (l : list (Assignment (A := A))) (t t' : table A) : Prop :=
  forall k, match t !! k with
  | None => t' !! k = None
  | Some r => if bool_decide (k = id) && live r && forallb (fun c => holds c r) conds
              then exists r', t' !! k = Some r' /\ cells_assigned l r' else t' !! k = Some r
  end.

Lemma UpdateByID_assigns outer c id l w : own_assignments m l -> keyed (rows w) ->
  (UpdateByID (Act := Act) e clock m outer c id l w).1 = Ok tt ->
  assigned_in (conditions c) id l (rows w) (rows (UpdateByID (Act := Act) e clock m outer c id l w).2).
Proof.
  intros Hl Hk. unfold UpdateByID. intros H. apply bind_inv in H as ([] & w0 & Er & Eq & H). rewrite Eq. clear Eq.
  assert (w0 = w) as -> by (pose proof (refuse_ok c w) as F; rewrite Er in F; by injection (F eq_refl)).
  destruct (id =? "")%string; [done|]. destruct (bool_decide _); [done|]. destruct (collect_assignments outer l ∅) as [u|err] eqn:Eu; [|done].
  apply bind_inv in H as (c' & w0 & Ep & Eq & H). rewrite Eq. clear Eq. destruct (prepare_ok m c w c') as [E2 ->]; [by rewrite Ep|]. rewrite Ep in E2. injection E2 as ->.
  apply bind_inv in H as (now & w1 & E & Eq & H). rewrite Eq. clear Eq. injection E as <- <-. set (now := UTCMillisecond _) in *.
  set (u1 := if (caller c =? "")%string then on_time_base <$> u else <["updated_by" := PutText (caller c)]> (on_time_base <$> u)) in *.
  set (u2 := match versionColumn m with Some column => match u1 !! column with Some _ => u1 | None => <[column := BumpVersion]> u1 end | None => u1 end) in *.
  assert (forall a x, a ∈ l -> Value_of a = Some (PutCell x) -> u2 !! Column_of a = Some (PutCell (normalize_cell x))) as Hu2.
  { intros a x Ha Hx. destruct (collected _ _ _ _ Eu) as [_ Hin]. pose proof (Hin a _ Ha Hx) as Hu. unfold own_assignments in Hl. rewrite Forall_forall in Hl.
    destruct (Hl a Ha) as (_ & _ & _ & Hub & Hvc).
    assert (u1 !! Column_of a = Some (PutCell (normalize_cell x))) as H1.
    { unfold u1. destruct (_ =? _)%string; [|rewrite lookup_insert_ne by done]; by rewrite lookup_fmap, Hu. }
    unfold u2. destruct (versionColumn m) as [vc|]; [|done]. destruct (u1 !! vc); [done|]. rewrite lookup_insert_ne; [done|]. congruence. }
  assert (assignable (versionColumn m) u2) as Ha.
  { pose proof (collect_cells m outer l ∅ u Hl) as Hcells. specialize (Hcells ltac:(by intros ? ?; rewrite lookup_empty) Eu).
    assert (assignable (versionColumn m) u1) as H1.
    { assert (assignable (versionColumn m) (on_time_base <$> u)) as H0.
      { intros k v. rewrite lookup_fmap, fmap_Some. intros (v0 & Hv & ->). by destruct (Hcells k v0 Hv) as (x & -> & ? & ? & ?). }
      unfold u1. destruct (_ =? _)%string; [done|]. intros k v. rewrite lookup_insert_Some. intros [[<- <-]|[_ Hv]]; [done|by apply H0]. }
    unfold u2. destruct (versionColumn m) as [vc|] eqn:Ev; [|done]. destruct (u1 !! vc); [done|].
    intros k v. rewrite lookup_insert_Some. intros [[<- <-]|[_ Hv]]; [done|by apply H1]. }
  unfold statement, lift in *. destruct (assign e _ _ _ _ _) as [t|err] eqn:Ea; [|done]. apply (assign_documented holds (versionColumn m)) in Ea as ->; [|done].
  cbn [snd rows tick set_rows]. destruct (prepared_chain_kept m c) as (_ & -> & _). intros k. rewrite lookup_fmap. destruct (rows w !! k) as [r|] eqn:Hr; cbn; [|done].
  assert (selects holds (mkWhere [id] None (conditions c)) false r = bool_decide (k = id) && live r && forallb (fun c => holds c r) (conditions c)) as ->.
  { unfold selects. cbn. rewrite (Hk k r Hr), andb_true_r. rewrite (bool_decide_ext (k ∈ [id]) (k = id)) by apply list_elem_of_singleton. by rewrite (andb_comm (live r)). }
  destruct (_ && _ && _); [|done]. eexists. split; [done|]. intros a x Hin Hx. by rewrite assigned_fields, (Hu2 a x Hin Hx).
Qed.
(** *** All or nothing *)

Context (GuardTransaction : M unit).

(** What a call without hooks that succeeded did, whole. *)
Definition took_effect (x : write (A := A) (C := C) (D := D) (Act := Act)) (w w' : world A Act) : Prop :=
  match x with
  | WCreate c objs => overrides c (create_hooks m) = false -> inserted_into (map (record_at w') (compactModels objs)) (rows w) (rows w')
  | WUpdate c objs => overrides c (update_hooks m) = false -> own_version m -> NoDup (map (fun p => ID (record_at w p)) (compactModels objs)) ->
      all_saved holds m c (compactModels objs) w w'
  | WUpdateByID outer c id l => own_assignments m l -> assigned_in (conditions c) id l (rows w) (rows w')
  | WDelete c objs => overrides c (delete_hooks m) = false -> conditions c = [] -> matchAll c = false ->
      (forall p, p ∈ compactModels objs -> ID (record_at w p) <> ""%string) ->
      deleted (default (Purge m) (enablePurge c)) (named_by w (compactModels objs)) (rows w) (rows w')
  | WTransaction fn => True
  end.

(** C18: a write, or a transaction around any work, called outside a
    transaction leaves none open and takes effect as a whole.  An error other
    than that of an action after the commit means that the table is as it was
    and that no action ran, whatever statement, hook or commit failed, and
    with no transaction at all around a single statement.  A success of a
    write without hooks means that all of it is in the table: every object
    inserted, every object saved, the columns of the one row assigned, every
    row named deleted.  A transaction that committed succeeded in its work and
    keeps what that left in the table; after it runs all that the work
    registered, in order, up to the first action that fails. *)
Theorem writes_are_all_or_nothing x w
  (Hm : Behaved m) (Hg : Inside GuardTransaction) (Hx : work_inside x) (Hw : boundary w = None) :
  let d := do_ e clock uuid perform GuardTransaction m x w in
  outcome w d.1 d.2 /\
  (d.1 = Ok tt -> keyed (rows w) -> took_effect x w d.2) /\
  runs_registered perform GuardTransaction x w d.1 d.2.
Proof.
  cbv zeta. destruct (all_or_nothing e clock uuid perform GuardTransaction holds m x w) as [H1 H2]; [done..|].
  split; [done|]. split; [|done]. intros Hok Hk. destruct x as [c l|c l|outer c i l|c l|fn]; cbn [do_ took_effect] in *; [..|done].
  - intros Ho. by apply Create_inserts.
  - intros Ho Hv Hn. by apply Update_saves_all.
  - intros Hl. by apply UpdateByID_assigns.
  - intros Ho Hc Ha Hid. by apply (Delete_removes_named e clock perform holds m c l w).
Qed.
End Effects.

(** Two of three rows, one of them at the version its object carries. *)
Module Purge_two.
Import Scenes.
Definition engine_ := Scenes.engine_ (Some "version"%string) no_failure.
Definition before : world Z string := world_ [row_ "a" 0; row_ "c" 2] [row_ "a" 1; row_ "b" 1; row_ "c" 2].
Definition chain_ : chain string string := WithPurge [] Scenes.chain_.
Definition after := (Delete engine_ clock perform plain chain_ [Some 0; Some 1]%nat before).2.
#[export] Instance documented : Documented Scenes.holds (versionColumn plain) engine_.
Proof. exact (sql_documented _ _ _ _ _). Qed.

Lemma keyed_before : keyed (rows before).
Proof.
  intros id r H. change (rows before) with (list_to_map [("a"%string, row_ "a" 1); ("b"%string, row_ "b" 1); ("c"%string, row_ "c" 2)] : table Z) in H.
  apply elem_of_list_to_map_2 in H. repeat (apply elem_of_cons in H as [[= -> ->]|H]; [done|]). by apply not_elem_of_nil in H.
Qed.
End Purge_two.

Lemma Delete_removes_named_witness :
  map fst (map_to_list (rows Purge_two.after)) = ["b"%string] /\
  deleted true (named_by Purge_two.before [0; 1]%nat) (rows Purge_two.before) (rows Purge_two.after).
Proof.
  split; [vm_compute; reflexivity|].
  refine (proj1 (Delete_removes_named Purge_two.engine_ Scenes.clock Scenes.perform Scenes.holds Scenes.plain Purge_two.chain_ [Some 0; Some 1]%nat Purge_two.before
    eq_refl eq_refl eq_refl eq_refl Purge_two.keyed_before _ _)); [|vm_compute; reflexivity].
  intros p Hp. change (compactModels [Some 0; Some 1]%nat) with [0; 1]%nat in Hp.
  apply elem_of_cons in Hp as [->|Hp]; [vm_compute; discriminate|]. apply list_elem_of_singleton in Hp as ->. vm_compute. discriminate.
Defined.

(** Two objects, one without an id, and a transaction. *)
Module Whole_writes.
Import Scenes.
Definition engine_ := Scenes.engine_ (Some "version"%string) no_failure.
#[export] Instance documented : Documented Scenes.holds (versionColumn plain) engine_.
Proof. exact (sql_documented _ _ _ _ _). Qed.
Definition before : world Z string := world_ [row_ "" 0; row_ "b" 0] [].
Definition two := do_ engine_ clock uuid perform (ret tt) plain (WCreate chain_ [Some 0; Some 1]%nat) before.
Definition sequence := do_ engine_ clock uuid perform (ret tt) plain (WTransaction work) before.
End Whole_writes.

Lemma writes_are_all_or_nothing_witness :
  (Whole_writes.two.1 = Ok tt /\ map fst (map_to_list (rows Whole_writes.two.2)) = ["id"; "b"]%string /\
   took_effect Scenes.holds Scenes.plain (WCreate Scenes.chain_ [Some 0; Some 1]%nat) Whole_writes.before Whole_writes.two.2) /\
  Whole_writes.sequence.1 = Err (ErrAfterCommit "cache is down"%string) /\
  events Whole_writes.sequence.2 = [Committed; Ran "reload"%string; Ran "cache"%string] /\
  outcome Whole_writes.before Whole_writes.sequence.1 Whole_writes.sequence.2.
Proof.
  split.
  - split; [vm_compute; reflexivity|]. split; [vm_compute; reflexivity|].
    destruct (writes_are_all_or_nothing Whole_writes.engine_ Scenes.clock Scenes.uuid Scenes.perform Scenes.holds Scenes.plain (ret tt)
      (WCreate Scenes.chain_ [Some 0; Some 1]%nat) Whole_writes.before Scenes.Behaved_plain) as (_ & H & _); [apply _|exact I|reflexivity|].
    apply H; [vm_compute; reflexivity|]. intros id r Hr. change (rows Whole_writes.before) with (∅ : table Z) in Hr. by rewrite lookup_empty in Hr.
  - split; [vm_compute; reflexivity|]. split; [vm_compute; reflexivity|].
    destruct (writes_are_all_or_nothing Whole_writes.engine_ Scenes.clock Scenes.uuid Scenes.perform Scenes.holds Scenes.plain (ret tt)
      (WTransaction Scenes.work) Whole_writes.before Scenes.Behaved_plain) as (H & _); [apply _| |reflexivity|exact H].
    apply Inside_bind; [apply Inside_Create; exact Scenes.Behaved_plain|intros _; apply Scenes.register_inside].
Defined.
