(* ===== verification/Tenants.v ===== *)
(** * The tenant a statement belongs to

    Models src/internal/tenant: the tenant a context acts in ([context.go])
    and the clauses the tenant column attaches to the statements of a model
    that embeds [tenant.Scope] ([tenant.go]).  gorm applies the clauses it
    finds on the type of a column to every statement of the model before it
    builds it: [scoped] is the engine of such a model, over one that knows
    nothing of tenants.

    Left out: a value gorm cannot set into the column, which a string never
    is. *)

From stdpp Require Import base list gmap strings.
From Stdlib Require Import ZArith.
From S2P Require Import Prelude GoStrings Writes.
Local Open Scope Z_scope.

(** ** Contexts *)

Definition Default : string := "default".

Record scope : Type := mkScope { scope_id : string; across : bool }.

(** What the package reads of a context: the scope it was given, and the
    tenant of the request it came from, where it came from one.  A nil
    context is [None]. *)
Record context : Type := mkContext { scopeKey : option scope; TenantID_of : option string }.

Definition Background : context := mkContext None None.

Definition WithValue (ctx : context) (s : scope) : context := mkContext (Some s) (TenantID_of ctx).

Definition In_ (ctx : option context) (name : string) : context :=
  let ctx := default Background ctx in
  let name := TrimSpace name in
  let name := if (name =? "")%string then Default else name in
  WithValue ctx (mkScope name false).

Definition Across (ctx : option context) : context := WithValue (default Background ctx) (mkScope "" true).

Definition requestTenant (ctx : option context) : string :=
  TrimSpace (default "" (ctx ≫= TenantID_of))%string.

Definition resolve (ctx : option context) : scope :=
  match ctx with
  | None => mkScope Default false
  | Some c =>
      match scopeKey c with
      | Some s => if across s && (scope_id s =? "")%string then mkScope (requestTenant ctx) (across s) else s
      | None =>
          let name := requestTenant ctx in
          if negb (name =? "")%string then mkScope name false else mkScope Default false
      end
  end.

Definition From_ (ctx : option context) : string * bool :=
  let s := resolve ctx in
  if across s then (""%string, false) else (scope_id s, true).

(** ** The tenant column *)

(** Values that can be a tenant: what [value.(ID)] answers, and a tenant as a
    value. *)
Class TenantValues (A : Type) : Type := {
  as_ID : A -> option string;
  of_ID : string -> A;
  as_of_ID s : as_ID (of_ID s) = Some s }.

Definition tenant_id : string := "tenant_id".

Inductive refusal : Type := ErrTenantRequired | ErrTenantImmutable (named acting : string).

(** What a statement holds by reflection: a batch, a pointer, nil or not, a
    struct of the model, or anything else. *)
Inductive reflected (A : Type) : Type :=
| Slice (l : list (reflected A))
| Pointer (v : option (reflected A))
| Struct (r : record_ A)
| Other.
Arguments Slice {A} l.
Arguments Pointer {A} v.
Arguments Struct {A} r.
Arguments Other {A}.

(** The fields of [gorm.Statement] the clauses use: the conditions of its
    WHERE, whether it carries [clauseMarker], its rows and its error. *)
Record Statement (A C : Type) : Type := mkStatement {
  where_exprs : list C;
  clauseMarker : bool;
  ReflectValue : reflected A;
  Error : option refusal }.
Arguments mkStatement {A C}.
Arguments where_exprs {A C} s.
Arguments clauseMarker {A C} s.
Arguments ReflectValue {A C} s.
Arguments Error {A C} s.

Inductive clause : Type := predicateClause | stampClause | immutableClause.

(** [ID.QueryClauses] and its siblings. *)
Definition QueryClauses : list clause := [predicateClause].
Definition UpdateClauses : list clause := [predicateClause; immutableClause].
Definition DeleteClauses : list clause := [predicateClause].
Definition CreateClauses : list clause := [stampClause].

Section Clauses.
Context {A C : Type} `{!TenantValues A}.
(** [clause.Eq] on the tenant column. *)
Variable tenant_is : string -> C.

(** [GetTenantID]; a column that holds no tenant reads as the zero value. *)
Definition GetTenantID (r : record_ A) : string :=
  match Fields r !! tenant_id with
  | Some (Value a) => default "" (as_ID a)
  | _ => ""
  end.

(** [field.Set]. *)
Definition SetTenantID (name : string) (r : record_ A) : record_ A :=
  SetFields (<[tenant_id := Value (of_ID name)]> (Fields r)) r.

(** A visit changes the struct and the error of the statement. *)
Abbreviation visitor := (record_ A -> option refusal -> record_ A * option refusal).

Fixpoint forEachRow (visit : visitor) (v : reflected A) (err : option refusal) : reflected A * option refusal :=
  match v with
  | Slice l =>
      let '(l, err) := (fix elements l err :=
        match l with
        | [] => ([], err)
        | v :: l => let '(v, err) := forEachRow visit v err in let '(l, err) := elements l err in (v :: l, err)
        end) l err in
      (Slice l, err)
  | Pointer (Some v) => let '(v, err) := forEachRow visit v err in (Pointer (Some v), err)
  | Pointer None => (Pointer None, err)
  | Struct r => let '(r, err) := visit r err in (Struct r, err)
  | Other => (Other, err)
  end.

Definition stamp (s : scope) : visitor := fun r err =>
  match err with
  | Some _ => (r, err)
  | None =>
      if negb (across s) then (SetTenantID (scope_id s) r, None)
      else if negb (GetTenantID r =? "")%string then (r, None)
      else if (scope_id s =? "")%string then (r, Some ErrTenantRequired)
      else (SetTenantID (scope_id s) r, None)
  end.

Definition hold_to (s : scope) : visitor := fun r err =>
  match err with
  | Some _ => (r, err)
  | None =>
      if (GetTenantID r =? "")%string then (r, None)
      else if negb (GetTenantID r =? scope_id s)%string then (r, Some (ErrTenantImmutable (GetTenantID r) (scope_id s)))
      else (r, None)
  end.

Definition ModifyStatement (ctx : option context) (c : clause) (stmt : Statement A C) : Statement A C :=
  let s := resolve ctx in
  match c with
  | predicateClause =>
      if clauseMarker stmt then stmt
      else if across s then stmt
      else mkStatement (where_exprs stmt ++ [tenant_is (scope_id s)]) true (ReflectValue stmt) (Error stmt)
  | stampClause =>
      let '(v, err) := forEachRow (stamp s) (ReflectValue stmt) (Error stmt) in
      mkStatement (where_exprs stmt) (clauseMarker stmt) v err
  | immutableClause =>
      if across s then stmt
      else
        let '(v, err) := forEachRow (hold_to s) (ReflectValue stmt) (Error stmt) in
        mkStatement (where_exprs stmt) (clauseMarker stmt) v err
  end.

(** ** The statements of a scoped model *)

Definition apply_clauses (ctx : option context) (l : list clause) (stmt : Statement A C) : Statement A C :=
  fold_left (fun stmt c => ModifyStatement ctx c stmt) l stmt.

(** The structs of a statement, in order. *)
Fixpoint structs (v : reflected A) : list (record_ A) :=
  match v with
  | Slice l => flat_map structs l
  | Pointer (Some v) => structs v
  | Struct r => [r]
  | Pointer None | Other => []
  end.

Definition pointer_to (r : record_ A) : reflected A := Pointer (Some (Struct r)).
Definition batch (l : list (record_ A)) : reflected A := Slice (map pointer_to l).

(** The conditions of a statement after its clauses, or its refusal. *)
Definition narrowed (ctx : option context) (l : list clause) (v : reflected A) (w : where_ C) : result refusal (where_ C) :=
  let stmt := apply_clauses ctx l (mkStatement (also w) false v None) in
  match Error stmt with
  | Some err => Err err
  | None => Ok (mkWhere (keys w) (version_is w) (where_exprs stmt))
  end.

(** The rows of an INSERT after its clauses, or its refusal. *)
Definition stamped (ctx : option context) (l : list (record_ A)) : result refusal (list (record_ A)) :=
  let stmt := apply_clauses ctx CreateClauses (mkStatement [] false (batch l) None) in
  match Error stmt with
  | Some err => Err err
  | None => Ok (structs (ReflectValue stmt))
  end.

Context {D : Type} (refused : refusal -> D).

Definition unless_refused {X Y} (r : result refusal X) (k : X -> result D Y) : result D Y :=
  match r with Ok x => k x | Err err => Err (refused err) end.

(** The engine of a model that embeds [Scope]: an UPDATE by assignments holds
    a nil pointer to the model. *)
Definition scoped (ctx : option context) (base : engine A C D) : engine A C D := mkEngine
  (fun n l t => unless_refused (stamped ctx l) (fun l => insert base n l t))
  (fun n w columns r now t => unless_refused (narrowed ctx UpdateClauses (pointer_to r) w) (fun w => update base n w columns r now t))
  (fun n w unscoped global now t =>
     unless_refused (narrowed ctx DeleteClauses Other w) (fun w => delete base n w unscoped global now t))
  (fun n w updates now t => unless_refused (narrowed ctx UpdateClauses (Pointer None) w) (fun w => assign base n w updates now t))
  (begin_ base) (commit base) (updated_object base) (deleted_object base).

(** A SELECT of rows of the model. *)
Definition scoped_find {X} (ctx : option context) (find : nat -> where_ C -> table A -> result D X)
    (n : nat) (w : where_ C) (t : table A) : result D X :=
  unless_refused (narrowed ctx QueryClauses Other w) (fun w => find n w t).
End Clauses.
