(* ===== verification/TenantsSpec.v ===== *)
(** * A tenant's statements stay within its rows

    [Tenanted] states what an engine does with the tenant column and with a
    condition on it; over one, the writes of a scoped model are shown to
    change no row of another tenant, and the updates and deletes to depend on
    none. *)

From stdpp Require Import base list gmap strings.
From Stdlib Require Import ZArith Lia.
From S2P Require Import Prelude GoStrings Writes WritesBase WritesSpec Tenants.
Local Open Scope Z_scope.
Local Open Scope write_scope.

(** ** Contexts *)

(** The context acts in one tenant. *)
Definition acts_in (ctx : option context) (name : string) : Prop := From_ ctx = (name, true).

Lemma acts_in_resolve ctx name : acts_in ctx name <-> resolve ctx = mkScope name false.
Proof. unfold acts_in, From_. destruct (resolve ctx) as [s []]; cbn; (split; intros H; [|congruence]); by injection H as <-. Qed.

(** A request acts in the tenant it was authorized in, whatever the case of
    its white space; code outside one in the default tenant; and [In_] and
    [Across] win over both. *)
Lemma From_cases ctx name :
  From_ (Some (In_ ctx name)) = (if (TrimSpace name =? "")%string then Default else TrimSpace name, true) /\
  From_ (Some (Across ctx)) = (""%string, false) /\
  (forall request, TrimSpace request <> ""%string -> From_ (Some (mkContext None (Some request))) = (TrimSpace request, true)) /\
  From_ (Some Background) = (Default, true) /\ From_ None = (Default, true).
Proof.
  split; [done|]. split; [done|]. split; [|done].
  intros request Hr. unfold From_, resolve, requestTenant. change (TrimSpace (default _ _)) with (TrimSpace request).
  apply String.eqb_neq in Hr. cbv zeta. cbn [scopeKey]. by rewrite Hr.
Qed.

(** ** What the clauses do *)

Section Clauses.
Context {A C : Type} `{!TenantValues A} (tenant_is : string -> C).

Lemma GetTenantID_set name (r : record_ A) : GetTenantID (SetTenantID name r) = name.
Proof. unfold GetTenantID, SetTenantID. cbn. by rewrite lookup_insert_eq, as_of_ID. Qed.

(** A batch is visited struct by struct, in order. *)
Fixpoint visit_all (visit : record_ A -> option refusal -> record_ A * option refusal) (l : list (record_ A)) (err : option refusal)
    : list (record_ A) * option refusal :=
  match l with
  | [] => ([], err)
  | r :: l => let '(r, err) := visit r err in let '(l, err) := visit_all visit l err in (r :: l, err)
  end.

Lemma forEachRow_batch visit (l : list (record_ A)) err :
  forEachRow visit (batch l) err = let '(l, err) := visit_all visit l err in (batch l, err).
Proof.
  unfold batch. cbn. revert err. induction l as [|r l IH]; intros err; [done|]. cbn. destruct (visit r err) as [r' err']. specialize (IH err').
  match type of IH with (let '(_, _) := ?x in _) = _ => destruct x as [l1 err1] end. destruct (visit_all visit l err') as [l2 err2]. by injection IH as -> ->.
Qed.

Lemma structs_batch (l : list (record_ A)) : structs (batch l) = l.
Proof. induction l as [|r l IH]; [done|]. cbn in *. by rewrite IH. Qed.

Context (ctx : option context) (name : string) (Hone : acts_in ctx name).

(** Rows inserted by a tenant are its own, whatever they arrived with. *)
Lemma stamped_one (l : list (record_ A)) : stamped (C := C) tenant_is ctx l = Ok (map (SetTenantID name) l).
Proof.
  unfold stamped, apply_clauses, CreateClauses. cbn [fold_left ModifyStatement ReflectValue Error]. rewrite (proj1 (acts_in_resolve ctx name) Hone).
  rewrite forEachRow_batch.
  enough (visit_all (stamp (mkScope name false)) l None = (map (SetTenantID name) l, None)) as ->; [cbn [Error ReflectValue]; by rewrite structs_batch|].
  induction l as [|r l IH]; [done|]. cbn in *. by rewrite IH.
Qed.

Lemma narrowed_one (w : where_ C) :
  let narrow := mkWhere (keys w) (version_is w) (also w ++ [tenant_is name]) in
  narrowed tenant_is ctx QueryClauses (A := A) Other w = Ok narrow /\
  narrowed tenant_is ctx DeleteClauses (A := A) Other w = Ok narrow /\
  narrowed tenant_is ctx UpdateClauses (A := A) (Pointer None) w = Ok narrow /\
  forall r : record_ A, narrowed tenant_is ctx UpdateClauses (pointer_to r) w =
    if (GetTenantID r =? "")%string || (GetTenantID r =? name)%string then Ok narrow else Err (ErrTenantImmutable (GetTenantID r) name).
Proof.
  cbv zeta. unfold narrowed, apply_clauses. cbn. rewrite (proj1 (acts_in_resolve ctx name) Hone). cbn. repeat split. intros r.
  destruct (GetTenantID r =? "")%string; cbn; [done|]. by destruct (GetTenantID r =? name)%string.
Qed.
End Clauses.

(** What a caller across every tenant inserts: rows keep the tenant they name,
    the others take that of its request, and without one they are refused. *)
Lemma stamped_across {A C} `{!TenantValues A} (tenant_is : string -> C) ctx (l : list (record_ A)) :
  (From_ ctx).2 = false ->
  stamped tenant_is ctx l =
    if bool_decide (scope_id (resolve ctx) = ""%string) && existsb (fun r => GetTenantID r =? "")%string l then Err ErrTenantRequired
    else Ok (map (fun r => if (GetTenantID r =? "")%string then SetTenantID (scope_id (resolve ctx)) r else r) l).
Proof.
  unfold From_. intros Ha. destruct (resolve ctx) as [i []] eqn:E; [|done]. clear Ha. unfold stamped, apply_clauses, CreateClauses. cbn [fold_left ModifyStatement ReflectValue Error]. rewrite E.
  rewrite forEachRow_batch.
  enough (visit_all (stamp (mkScope i true)) l None =
    let refused := bool_decide (i = ""%string) && existsb (fun r => GetTenantID r =? "")%string l in
    if refused then (l, Some ErrTenantRequired) else (map (fun r => if (GetTenantID r =? "")%string then SetTenantID i r else r) l, None)) as ->.
  { cbv zeta. destruct (_ && _); cbn [Error ReflectValue]; by rewrite ?structs_batch. }
  assert (forall l err, visit_all (stamp (A := A) (mkScope i true)) l (Some err) = (l, Some err)) as Hstop.
  { clear. intros l err. induction l as [|r l IH]; [done|]. cbn in *. by rewrite IH. }
  clear E. induction l as [|r l IH]; [cbn; by rewrite andb_false_r|]. cbn. destruct (String.eqb_spec (GetTenantID r) ""); cbn.
  - destruct (String.eqb_spec i ""); [by rewrite Hstop, bool_decide_eq_true_2 by done|]. rewrite IH. by rewrite bool_decide_eq_false_2 by done.
  - rewrite IH. by destruct (bool_decide _ && existsb _ _).
Qed.

(** ** The rows of a tenant *)

Section Rows.
Context {A : Type} `{!TenantValues A} (a : string).

Definition own (t : table A) : table A := filter (fun '(_, r) => GetTenantID r = a) t.
Definition others (t : table A) : table A := filter (fun '(_, r) => GetTenantID r <> a) t.

Lemma own_lookup t i r : own t !! i = Some r <-> t !! i = Some r /\ GetTenantID r = a.
Proof. unfold own. by rewrite map_lookup_filter_Some. Qed.
Lemma others_lookup t i r : others t !! i = Some r <-> t !! i = Some r /\ GetTenantID r <> a.
Proof. unfold others. by rewrite map_lookup_filter_Some. Qed.

(** A change of the rows of the tenant that keeps them in it. *)
Lemma fmap_rows (p : record_ A -> bool) (f : record_ A -> record_ A) t :
  (forall r, p r = true -> GetTenantID r = a) -> (forall r, GetTenantID r = a -> GetTenantID (f r) = a) ->
  let g := fun r => if p r then f r else r in
  others (g <$> t) = others t /\ own (g <$> t) = g <$> own t.
Proof.
  intros Hp Hf g. assert (forall r, GetTenantID (g r) = a <-> GetTenantID r = a) as Hg.
  { intros r. unfold g. destruct (p r) eqn:E; [|done]. split; [by intros _; apply Hp|apply Hf]. }
  split; unfold own, others; rewrite map_filter_fmap.
  - transitivity (g <$> others t); [f_equal; apply map_filter_ext; intros j r _; cbn; by rewrite Hg|]. fold (others t). apply map_eq. intros i. rewrite lookup_fmap.
    destruct (others t !! i) as [r|] eqn:E; [|done]. apply others_lookup in E as [_ Hr]. cbn. f_equal. unfold g. destruct (p r) eqn:Ep; [|done].
    by destruct Hr; apply Hp.
  - f_equal. apply map_filter_ext. intros j r _. cbn. by rewrite Hg.
Qed.

Lemma filter_rows (p : record_ A -> bool) t : (forall r, p r = true -> GetTenantID r = a) ->
  others (filter (fun '(_, r) => p r = false) t) = others t /\
  own (filter (fun '(_, r) => p r = false) t) = filter (fun '(_, r) => p r = false) (own t).
Proof.
  intros Hp. split; unfold own, others; [rewrite map_filter_filter_l; [done|]|rewrite !map_filter_filter; apply map_filter_ext; naive_solver].
  intros i r _ Hr. cbn in *. destruct (p r) eqn:E; [|done]. by destruct Hr; apply Hp.
Qed.

Lemma size_rows (p : record_ A -> bool) t : (forall r, p r = true -> GetTenantID r = a) ->
  filter (fun '(_, r) => p r = true) t = filter (fun '(_, r) => p r = true) (own t).
Proof. intros Hp. unfold own. rewrite map_filter_filter_l; [done|]. intros i r _. cbn. apply Hp. Qed.
End Rows.

(** ** What is relied on of gorm and the database *)

Section Laws.
Context {A C D : Type} `{!TenantValues A} (holds : C -> record_ A -> bool) (tenant_is : string -> C).

(** A condition on the tenant column is true of the rows of the tenant; the
    column is written on insert alone; and a statement that succeeds does to
    the rows it selects what its arguments say, whatever the other rows are.
    Nothing is assumed of when one fails: a unique key that does not name the
    tenant may refuse a row for one of another tenant. *)
Class Tenanted (base : engine A C D) : Prop := {
  tenant_holds a r : holds (tenant_is a) r = bool_decide (GetTenantID r = a);
  insert_adds n l t t' : insert base n l t = Ok t' ->
    (forall r, r ∈ l -> t !! ID r = None) /\ t' = list_to_map (map (fun r => (ID r, r)) l) ∪ t;
  update_saves n w columns o now : exists save : record_ A -> record_ A, (forall r, GetTenantID (save r) = GetTenantID r) /\
    forall t t' k, update base n w columns o now t = Ok (t', k) ->
      k = count holds w false t /\ t' = (fun r => if selects holds w false r then save r else r) <$> t;
  delete_removes n w unscoped global now t t' k : delete base n w unscoped global now t = Ok (t', k) ->
    k = count holds w unscoped t /\
    t' = if unscoped then filter (fun '(_, r) => selects holds w unscoped r = false) t
         else (fun r => if selects holds w unscoped r then marked now r else r) <$> t;
  assign_saves n w updates now : updates !! "id"%string = None ->
    exists save : record_ A -> record_ A, (forall r, GetTenantID (save r) = GetTenantID r) /\
    forall t t', assign base n w updates now t = Ok t' -> t' = (fun r => if selects holds w false r then save r else r) <$> t }.

(** *** A statement narrowed to one tenant *)

(** [bounded a s]: the statement leaves the rows of other tenants, and what it
    answers and does to the rows of the tenant depends on these alone, where
    it succeeds. *)
Definition bounded {X} (a : string) (s : table A -> result D (table A * X)) : Prop :=
  (forall t t' x, s t = Ok (t', x) -> others a t' = others a t) /\
  (forall t1 t2, own a t1 = own a t2 ->
    match s t1, s t2 with
    | Ok (t1', x1), Ok (t2', x2) => x1 = x2 /\ own a t1' = own a t2'
    | _, _ => True
    end).

Context (base : engine A C D) `{!Tenanted base} (a : string).

Lemma selects_own w unscoped r : tenant_is a ∈ also w -> selects holds w unscoped r = true -> GetTenantID r = a.
Proof.
  intros Hw H. unfold selects in H. apply andb_prop in H as [_ H]. rewrite forallb_forall in H.
  specialize (H _ (proj1 (list_elem_of_In _ _) Hw)). cbn in H. rewrite tenant_holds in H. by boolify.
Qed.

Lemma bounded_intro {X} (s : table A -> result D (table A * X)) :
  (forall t t' x, s t = Ok (t', x) -> others a t' = others a t) ->
  (forall t1 t2 t1' t2' x1 x2, own a t1 = own a t2 -> s t1 = Ok (t1', x1) -> s t2 = Ok (t2', x2) -> x1 = x2 /\ own a t1' = own a t2') ->
  bounded a s.
Proof.
  intros Ho Hx. split; [done|]. intros t1 t2 E. destruct (s t1) as [[t1' x1]|err1] eqn:E1, (s t2) as [[t2' x2]|err2] eqn:E2; eauto.
Qed.

Lemma count_own w unscoped t : tenant_is a ∈ also w -> count holds w unscoped t = count holds w unscoped (own a t).
Proof. intros Hw. unfold count. by rewrite (size_rows a (selects holds w unscoped) t) by (intros r; by apply selects_own). Qed.

Lemma bounded_update n w columns o now : tenant_is a ∈ also w -> bounded a (update base n w columns o now).
Proof.
  intros Hw. destruct (update_saves n w columns o now) as (save & Hk & Hs). apply bounded_intro.
  - intros t t' k [_ ->]%Hs. apply (fmap_rows a (selects holds w false)); [intros r; by apply selects_own|]. intros r <-. apply Hk.
  - intros t1 t2 t1' t2' k1 k2 E [-> ->]%Hs [-> ->]%Hs.
    split; [by rewrite (count_own w false t1), (count_own w false t2), E by done|].
    rewrite !(proj2 (fmap_rows a (selects holds w false) save _ (fun r => selects_own w false r Hw) (fun r Hr => eq_trans (Hk r) Hr))). by rewrite E.
Qed.

Lemma bounded_delete n w unscoped global now : tenant_is a ∈ also w -> bounded a (delete base n w unscoped global now).
Proof.
  intros Hw. assert (forall r, selects holds w unscoped r = true -> GetTenantID r = a) as Hp by (intros r; by apply selects_own). apply bounded_intro.
  - intros t t' k [_ ->]%delete_removes. destruct unscoped; [by apply (filter_rows a (selects holds w true))|].
    by apply (fmap_rows a (selects holds w false) (marked now)).
  - intros t1 t2 t1' t2' k1 k2 E [-> ->]%delete_removes [-> ->]%delete_removes.
    split; [by rewrite (count_own w unscoped t1), (count_own w unscoped t2), E by done|].
    destruct unscoped; [by rewrite !(proj2 (filter_rows a (selects holds w true) _ Hp)), E|].
    by rewrite !(proj2 (fmap_rows a (selects holds w false) (marked now) _ Hp (fun r Hr => Hr))), E.
Qed.

Lemma bounded_assign n w updates now : tenant_is a ∈ also w -> updates !! "id"%string = None ->
  bounded a (fun t => lift (fun t => (t, tt)) (assign base n w updates now t)).
Proof.
  intros Hw Hid. destruct (assign_saves n w updates now Hid) as (save & Hk & Hs).
  assert (forall t t' x, lift (fun t => (t, tt)) (assign base n w updates now t) = Ok (t', x) ->
    t' = (fun r => if selects holds w false r then save r else r) <$> t) as Hs'.
  { intros t t' x. destruct (assign base n w updates now t) eqn:E; [|done]. intros [= <- _]. by apply Hs. }
  apply bounded_intro.
  - intros t t' k ->%Hs'. apply (fmap_rows a (selects holds w false)); [intros r; by apply selects_own|]. intros r <-. apply Hk.
  - intros t1 t2 t1' t2' [] [] E ->%Hs' ->%Hs'. split; [done|].
    rewrite !(proj2 (fmap_rows a (selects holds w false) save _ (fun r => selects_own w false r Hw) (fun r Hr => eq_trans (Hk r) Hr))). by rewrite E.
Qed.
End Laws.

(** ** Pieces of code *)

Section Calculus.
Context {A Act D : Type} `{!TenantValues A} (a : string).
Abbreviation M := (M A Act D).

(** [Within m]: the rows of other tenants stay. *)
Class Within {X} (m : M X) : Prop := within : forall w, others a (rows (m w).2) = others a (rows w).

(** Two worlds that differ in rows of other tenants alone. *)
Record same_to (w1 w2 : world A Act) : Prop := mkSame {
  same_heap : heap w1 = heap w2;
  same_rows : own a (rows w1) = own a (rows w2);
  same_statements : statements w1 = statements w2;
  same_boundary : boundary w1 = boundary w2;
  same_restores : restoreVersions w1 = restoreVersions w2;
  same_events : events w1 = events w2 }.

(** The database failed a statement, a BEGIN or a COMMIT. *)
Definition database_failed {X} (r : result (error D) X) : Prop := exists d, r = Err (Database d).

(** [Blind m]: in such worlds it answers the same and leaves such worlds,
    unless the database fails it in one of them. *)
Class Blind {X} (m : M X) : Prop :=
  blind : forall w1 w2, same_to w1 w2 ->
    ((m w1).1 = (m w2).1 /\ same_to (m w1).2 (m w2).2) \/ database_failed (m w1).1 \/ database_failed (m w2).1.

#[export] Instance Within_local {X} (m : M X) : Local_ m -> Within m | 10.
Proof. intros H w. by rewrite (proj1 (H w)). Qed.
#[export] Instance Within_throw {X} (err : error D) : Within (throw err : M X).
Proof. done. Qed.
#[export] Instance Within_bind {X Y} (m : M X) (k : X -> M Y) : Within m -> (forall x, Within (k x)) -> Within (bind m k).
Proof.
  intros Hm Hk w. specialize (Hm w). unfold bind. destruct (m w) as [[x|err] w']; cbn in *; [|done]. by rewrite (Hk x).
Qed.
#[export] Instance Within_each {X} (l : list X) (f : X -> M unit) : (forall x, Within (f x)) -> Within (each l f).
Proof. intros H. induction l; cbn; apply _. Qed.
#[export] Instance Within_summing {X} (l : list X) (f : X -> M Z) : (forall x, Within (f x)) -> Within (summing l f).
Proof. intros H. induction l; cbn; apply _. Qed.
#[export] Instance Within_if {X} (b : bool) (m1 m2 : M X) : Within m1 -> Within m2 -> Within (if b then m1 else m2).
Proof. by destruct b. Qed.

Lemma blind_ret {X} (x : X) : Blind (ret x : M X).
Proof. by left. Qed.
Lemma blind_throw {X} (err : error D) : Blind (throw err : M X).
Proof. by left. Qed.
Lemma blind_gets {X} (f : world A Act -> X) : (forall w1 w2, same_to w1 w2 -> f w1 = f w2) -> Blind (gets f : M X).
Proof. intros H w1 w2 Hw. left. cbn. by rewrite (H w1 w2 Hw). Qed.
Lemma blind_modify (f : world A Act -> world A Act) : (forall w1 w2, same_to w1 w2 -> same_to (f w1) (f w2)) -> Blind (modify f : M unit).
Proof. intros H w1 w2 Hw. left. split; [done|by apply H]. Qed.
Lemma blind_bind {X Y} (m : M X) (k : X -> M Y) : Blind m -> (forall x, Blind (k x)) -> Blind (bind m k).
Proof.
  intros Hm Hk w1 w2 Hw. unfold bind. destruct (Hm w1 w2 Hw) as [[E Hw']|[[d E]|[d E]]].
  - destruct (m w1) as [[x|err] w1'], (m w2) as [[x2|err2] w2']; cbn in *; try done; injection E as <-; [by apply Hk|by left].
  - right. left. exists d. destruct (m w1) as [[x|err] w1']; cbn in *; [done|congruence].
  - right. right. exists d. destruct (m w2) as [[x|err] w2']; cbn in *; [done|congruence].
Qed.
End Calculus.
Arguments Within {A Act D _} a {X} m.
Arguments Blind {A Act D _} a {X} m.
Arguments same_to {A Act _} a w1 w2.

(** Both worlds read the same. *)
Ltac reads_same := intros [] [] []; cbn in *; subst; done.
#[export] Hint Extern 1 (Blind _ (ret _)) => apply blind_ret : typeclass_instances.
#[export] Hint Extern 1 (Blind _ (throw _)) => apply blind_throw : typeclass_instances.
#[export] Hint Extern 1 (Blind _ (gets _)) => apply blind_gets; reads_same : typeclass_instances.
#[export] Hint Extern 1 (Blind _ (modify _)) => apply blind_modify; reads_same : typeclass_instances.
#[export] Hint Extern 1 (Blind _ (bind _ _)) => apply blind_bind; [|intros ?] : typeclass_instances.
#[export] Hint Extern 2 (Blind _ (match ?x with _ => _ end)) => destruct x : typeclass_instances.
#[export] Hint Extern 2 (Within _ (match ?x with _ => _ end)) => destruct x : typeclass_instances.

Section Code.
Context {A C Act D : Type} `{!TenantValues A} (a : string).
Abbreviation M := (M A Act D).

#[export] Instance Blind_each {X} (l : list X) (f : X -> M unit) : (forall x, Blind a (f x)) -> Blind a (each l f).
Proof. intros H. induction l; cbn; apply _. Qed.
#[export] Instance Blind_summing {X} (l : list X) (f : X -> M Z) : (forall x, Blind a (f x)) -> Blind a (summing l f).
Proof. intros H. induction l; cbn; apply _. Qed.
#[export] Instance Blind_put p o : Blind a (put p o : M unit).
Proof. unfold put. apply _. Qed.
#[export] Instance Blind_change f p : Blind a (change f p : M unit).
Proof. unfold change. apply _. Qed.
#[export] Instance Blind_when b (m : M unit) : Blind a m -> Blind a (when b m).
Proof. intros H. unfold when. apply _. Qed.

#[export] Instance Within_statement {X} (s : nat -> table A -> result D (table A * X)) : (forall n, bounded a (s n)) -> Within a (statement s : M X).
Proof. intros H w. unfold statement. destruct (s _ _) as [[t x]|err] eqn:E; cbn; [|done]. by apply (H (statements w)) in E. Qed.
#[export] Instance Blind_statement {X} (s : nat -> table A -> result D (table A * X)) : (forall n, bounded a (s n)) -> Blind a (statement s : M X).
Proof.
  intros H [h1 t1 n1 b1 v1 l1] [h2 t2 n2 b2 v2 l2] []. cbn in *. subst. destruct (H n2) as [_ Hs]. specialize (Hs t1 t2 same_rows0).
  unfold statement, database_failed. cbn. destruct (s n2 t1) as [[t1' x1]|err1], (s n2 t2) as [[t2' x2]|err2]; cbn; eauto.
  left. destruct Hs as [-> Hs]. by split.
Qed.

(** An action run after a commit, the same of it. *)
Definition contained (perform : Act -> nat -> table A -> option D * table A) : Prop :=
  (forall act n t, others a (perform act n t).2 = others a t) /\
  (forall act n t1 t2, own a t1 = own a t2 -> (perform act n t1).1 = (perform act n t2).1 /\ own a (perform act n t1).2 = own a (perform act n t2).2).

Context (e : engine A C D) (perform : Act -> nat -> table A -> option D * table A) (Hp : contained perform).

Lemma run_contained acts : Within a (run (D := D) perform acts) /\ Blind a (run (D := D) perform acts).
Proof.
  induction acts as [|act acts [IHw IHb]]; [split; cbn; apply _|]. split.
  - intros w. cbn. pose proof (proj1 Hp act (statements w) (rows w)) as E. destruct (perform _ _ _) as [[err|] t]; cbn in *; [done|]. by rewrite IHw.
  - intros [h1 t1 n1 b1 v1 l1] [h2 t2 n2 b2 v2 l2] []. cbn in *. subst. destruct (proj2 Hp act n2 t1 t2 same_rows0) as [E1 E2].
    destruct (perform act n2 t1) as [r1 t1'], (perform act n2 t2) as [r2 t2']. cbn in *. subst. destruct r2 as [err|]; [by left|]. by apply IHb.
Qed.

#[export] Instance Within_boundary fn : Within a fn -> Within a (withTransactionBoundary e perform fn).
Proof.
  intros H w. unfold withTransactionBoundary. destruct (begin_ e _); [done|]. specialize (H (set_boundary (Some []) (tick w))).
  destruct (fn _) as [[x|err] w']; cbn in *; [|done]. destruct (commit e _); cbn; [done|]. by rewrite (proj1 (run_contained _)).
Qed.

#[export] Instance Blind_boundary fn : Blind a fn -> Blind a (withTransactionBoundary e perform fn).
Proof.
  intros H [h1 t1 n1 b1 v1 l1] [h2 t2 n2 b2 v2 l2] []. cbn in *. subst. unfold withTransactionBoundary. cbn. destruct (begin_ e n2); [by left|].
  unfold set_boundary, tick. cbn. destruct (H (mkWorld h2 t1 (S n2) (Some []) v2 l2) (mkWorld h2 t2 (S n2) (Some []) v2 l2) ltac:(done)) as [[E Hs]|[[d E]|[d E]]].
  - destruct (fn _) as [[x1|err1] [h3 t3 n3 b3 v3 l3]], (fn _) as [[x2|err2] [h4 t4 n4 b4 v4 l4]]; cbn in *; try done.
    + destruct Hs; cbn in *; subst. destruct (commit e n4); [by left|]. by apply run_contained.
    + left. injection E as <-. destruct Hs; cbn in *; subst. by split.
  - right. left. exists d. destruct (fn _) as [[x1|err1] w3]; cbn in *; [done|by injection E as ->].
  - right. right. exists d. destruct (fn (mkWorld h2 t2 _ _ _ _)) as [[x1|err1] w3]; cbn in *; [done|by injection E as ->].
Qed.

#[export] Instance Within_transaction fn : Within a fn -> Within a (withWriteTransaction e perform fn).
Proof. intros H. unfold withWriteTransaction. apply Within_bind; [apply Within_local, Local_gets|]. intros b. destruct b; apply _. Qed.
#[export] Instance Blind_transaction fn : Blind a fn -> Blind a (withWriteTransaction e perform fn).
Proof. intros H. unfold withWriteTransaction. apply _. Qed.
End Code.

(** ** The writes of a scoped model *)

Section Isolation.
Context {A C D Act : Type} `{!TenantValues A}.
Abbreviation M := (M A Act D).
Context (holds : C -> record_ A -> bool) (tenant_is : string -> C) (refused : refusal -> D) (base : engine A C D) `{!Tenanted holds tenant_is base}.
Context (ctx : option context) (a : string) (Hone : acts_in ctx a).
Context (clock : nat -> Z) (uuid : nat -> string) (perform : Act -> nat -> table A -> option D * table A) (GuardTransaction : M unit).
Local Abbreviation e := (scoped tenant_is refused ctx base).

(** *** Its statements *)

Lemma bounded_refused {X} (err : D) : bounded (X := X) a (fun _ => Err err).
Proof. done. Qed.

Lemma narrow_in (w : where_ C) : tenant_is a ∈ also (mkWhere (keys w) (version_is w) (also w ++ [tenant_is a])).
Proof. cbn. apply elem_of_app. right. by constructor. Qed.

Lemma scoped_update n w columns o now : bounded a (update e n w columns o now).
Proof.
  cbn. destruct (narrowed_one tenant_is (A := A) ctx a Hone w) as (_ & _ & _ & E). rewrite E.
  destruct (_ || _); [apply (bounded_update holds tenant_is), narrow_in; apply _|apply bounded_refused].
Qed.

Lemma scoped_delete n w unscoped global now : bounded a (delete e n w unscoped global now).
Proof.
  cbn. destruct (narrowed_one tenant_is (A := A) ctx a Hone w) as (_ & E & _). rewrite E. apply (bounded_delete holds tenant_is), narrow_in; apply _.
Qed.

Lemma scoped_assign n w updates now : updates !! "id"%string = None ->
  bounded a (fun t => lift (fun t => (t, tt)) (assign e n w updates now t)).
Proof.
  intros Hid. cbn. destruct (narrowed_one tenant_is (A := A) ctx a Hone w) as (_ & _ & E & _). rewrite E.
  apply (bounded_assign holds tenant_is); [apply _|apply narrow_in|done].
Qed.

(** An insert adds rows of the tenant. *)
Lemma scoped_insert n l t t' : insert e n l t = Ok t' -> others a t' = others a t.
Proof.
  cbn. rewrite (stamped_one tenant_is ctx a Hone). cbn. intros [Hf ->]%(insert_adds holds tenant_is). unfold others. rewrite map_filter_union.
  - match goal with |- ?x ∪ _ = _ => enough (x = ∅) as -> by apply (left_id ∅ (∪)) end. apply map_empty_filter_2. intros i r Hr.
    apply elem_of_list_to_map_2, list_elem_of_fmap in Hr as (r' & [= -> ->] & Hr). apply list_elem_of_fmap in Hr as (r0 & -> & _). cbn. rewrite GetTenantID_set. naive_solver.
  - apply map_disjoint_spec. intros i r r' Hr Hr'. apply elem_of_list_to_map_2, list_elem_of_fmap in Hr as (r0 & [= -> ->] & Hr). by rewrite (Hf r0 Hr) in Hr'.
Qed.

#[local] Instance Within_insert objs : Within a (insert_batch e objs : M unit).
Proof.
  intros w. unfold insert_batch, bind, gets, statement. cbv beta iota. destruct (insert e _ _ _) as [t|err] eqn:E; cbn; [|done]. by apply scoped_insert in E.
Qed.

(** *** Its operations *)

(** Hooks of the model that write within the tenant, those of an update and
    of a delete reading nothing else. *)
Class Hooks_within (m : model A Act D) : Prop := {
  create_within h : create_hooks m = Some h -> forall p, Within a (h.1 p) /\ Within a (h.2 p);
  update_within h : update_hooks m = Some h -> forall p, (Within a (h.1 p) /\ Within a (h.2 p)) /\ Blind a (h.1 p) /\ Blind a (h.2 p);
  delete_within h : delete_hooks m = Some h -> forall p, (Within a (h.1 p) /\ Within a (h.2 p)) /\ Blind a (h.1 p) /\ Blind a (h.2 p) }.

Context (m : model A Act D) `{!Hooks_within m} (Hp : contained a perform).

#[local] Instance Within_hooks c hooks (f : (pointer -> M unit) * (pointer -> M unit) -> pointer -> M unit) objs :
  (forall h, hooks = Some h -> forall p, Within a (f h p)) -> Within a (run_hooks (C := C) c (f <$> hooks) objs).
Proof. intros H. unfold run_hooks. destruct (noHook c); [apply _|]. destruct hooks as [h|]; cbn; [|apply _]. apply Within_each. by apply H. Qed.
#[local] Instance Blind_hooks c hooks (f : (pointer -> M unit) * (pointer -> M unit) -> pointer -> M unit) objs :
  (forall h, hooks = Some h -> forall p, Blind a (f h p)) -> Blind a (run_hooks (C := C) c (f <$> hooks) objs).
Proof. intros H. unfold run_hooks. destruct (noHook c); [apply _|]. destruct hooks as [h|]; cbn; [|apply _]. apply Blind_each. by apply H. Qed.

Ltac contain := repeat match goal with
  | |- Within _ (bind _ _) => apply Within_bind; [|intros ?]
  | |- Blind _ (bind _ _) => apply blind_bind; [|intros ?]
  | |- _ _ (let _ := _ in _) => cbv zeta
  | |- Within _ (run_hooks _ (_ <$> _) _) => apply Within_hooks; intros h E p;
      first [by apply (create_within h E) | by apply (update_within h E) | by apply (delete_within h E)]
  | |- Blind _ (run_hooks _ (_ <$> _) _) => apply Blind_hooks; intros h E p; first [by apply (update_within h E) | by apply (delete_within h E)]
  | |- Within _ (withWriteTransaction _ _ _) => apply Within_transaction; [exact Hp|]
  | |- Blind _ (withWriteTransaction _ _ _) => apply Blind_transaction; [exact Hp|]
  | |- _ _ (withSingleStatementWrite _) => unfold withSingleStatementWrite
  | |- Within _ (each _ _) => apply Within_each; intros ?
  | |- Within _ (summing _ _) => apply Within_summing; intros ?
  | |- Blind _ (each _ _) => apply Blind_each; intros ?
  | |- Blind _ (summing _ _) => apply Blind_summing; intros ?
  | |- Within _ (statement _) => apply Within_statement; intros ?; first [apply scoped_update | apply scoped_delete]
  | |- Blind _ (statement _) => apply Blind_statement; intros ?; first [apply scoped_update | apply scoped_delete]
  | |- _ _ (if ?b then _ else _) => destruct b
  | |- Within _ _ => solve [apply _]
  | |- Blind _ _ => solve [apply _]
  | |- _ _ (match ?x with _ => _ end) => destruct x
  end.

Lemma within_Create c objs : Within a (Create e clock uuid perform m c objs).
Proof. unfold Create, create_write. contain. Qed.

Lemma same_restored l w1 w2 : same_to a w1 w2 -> same_to a (restore l w1 : result (error D) unit * world A Act).2 (restore (D := D) l w2).2.
Proof.
  revert w1 w2. induction l as [|[p v] l IH]; intros w1 w2 H; [done|]. cbn. apply IH. destruct H as [H1 H2 H3 H4 H5 H6].
  unfold change, put, bind, gets, modify, at_. cbn. by rewrite H1.
Qed.

Lemma restoring_contained (f : M unit) : Within a f /\ Blind a f -> Within a (restoring f) /\ Blind a (restoring f).
Proof.
  intros [Hw Hb]. split.
  - intros w. unfold restoring. specialize (Hw (set_restores [] w)). destruct (f _) as [[x|err] w']; cbn in *; [done|]. by rewrite (proj1 (Local_restore (restoreVersions w') w')).
  - intros w1 w2 H. assert (same_to a (set_restores [] w1) (set_restores [] w2)) as H' by (by destruct H).
    unfold restoring. assert (restoreVersions w1 = restoreVersions w2) as Er by apply H. destruct (Hb _ _ H') as [[E Hs]|[[d E]|[d E]]].
    + left. destruct (f _) as [[x1|err1] w3], (f _) as [[x2|err2] w4]; cbn in *; try done.
      * split; [done|]. rewrite Er. by destruct Hs.
      * injection E as <-. rewrite <- (same_restores a _ _ Hs), Er. split; [done|]. pose proof (same_restored (restoreVersions w3) w3 w4 Hs) as Hs'. by destruct Hs'.
    + right. left. exists d. destruct (f _) as [[x1|err1] w3]; cbn in *; [done|by injection E as ->].
    + right. right. exists d. destruct (f (set_restores [] w2)) as [[x1|err1] w3]; cbn in *; [done|by injection E as ->].
Qed.

Lemma contained_Update c objs : Within a (Update e clock perform m c objs) /\ Blind a (Update e clock perform m c objs).
Proof.
  assert (forall c objs, Within a (update_write e clock m c objs) /\ Blind a (update_write e clock m c objs)) as H.
  { intros c' l. unfold update_write, update_one, update_row, bumpVersionForUpdate, normalizeTimes, clearAssociations, NowUTC. split; contain. }
  unfold Update, check_updatable, refuse_read_options, prepare. split; contain.
  all: apply restoring_contained; split; destruct (_ && _); contain; apply H.
Qed.

Lemma contained_Delete c objs : Within a (Delete e clock perform m c objs) /\ Blind a (Delete e clock perform m c objs).
Proof.
  unfold Delete, delete_write, delete_checked, delete_rows, new_object, refuse_read_options, prepare, NowUTC. split; contain.
Qed.

(** A write by id assigns no id. *)
Lemma collect_id outer l updates u : Forall (fun x : Assignment (A := A) => Column_of x <> "id"%string) l -> updates !! "id"%string = None ->
  collect_assignments (D := D) outer l updates = Ok u -> u !! "id"%string = None.
Proof.
  intros Hl. revert updates. induction Hl as [|x l Hx Hl IH]; intros updates Hu; cbn; [by intros [= <-]|].
  repeat case_match; try done. apply IH. by rewrite lookup_insert_ne.
Qed.

Lemma contained_UpdateByID outer c i l : Forall (fun x : Assignment (A := A) => Column_of x <> "id"%string) l -> versionColumn m <> Some "id"%string ->
  Within a (UpdateByID e clock m outer c i l) /\ Blind a (UpdateByID e clock m outer c i l).
Proof.
  intros Hl Hv. unfold UpdateByID, refuse_read_options, prepare, NowUTC. destruct (collect_assignments outer l ∅) as [u|err] eqn:E; [|split; contain].
  apply collect_id in E; [|done|by rewrite lookup_empty]. cbv zeta. set (u1 := if (caller c =? "")%string then _ else _).
  assert (u1 !! "id"%string = None) as H1 by (unfold u1; case_match; [|rewrite lookup_insert_ne by done]; by rewrite lookup_fmap, E).
  assert (match versionColumn m with Some column => match u1 !! column with Some _ => u1 | None => <[column := BumpVersion]> u1 end | None => u1 end !! "id"%string = None) as H2.
  { destruct (versionColumn m) as [column|]; [|done]. destruct (u1 !! column); [done|]. rewrite lookup_insert_ne by congruence. done. }
  split; contain.
  - apply Within_statement. intros n. by apply scoped_assign.
  - apply Blind_statement. intros n. by apply scoped_assign.
Qed.

(** *** The theorem *)

(** Writes that name no id to assign, and a transaction around work that keeps
    to the tenant. *)
Definition tame (x : write (A := A) (C := C) (Act := Act) (D := D)) : Prop :=
  match x with
  | WUpdateByID _ _ _ l => Forall (fun y => Column_of y <> "id"%string) l /\ versionColumn m <> Some "id"%string
  | WTransaction fn => Within a fn
  | _ => True
  end.

(** An insert answers whether the id it was given is taken, in any tenant. *)
Definition looks_away (x : write (A := A) (C := C) (Act := Act) (D := D)) : Prop :=
  match x with WCreate _ _ => False | WTransaction fn => Blind a fn | _ => True end.

Local Abbreviation run_write x := (do_ e clock uuid perform GuardTransaction m x).

Lemma transaction_contained (fn : M unit) : Within a GuardTransaction /\ Blind a GuardTransaction ->
  (Within a fn -> Within a (Transaction e perform GuardTransaction true (Some fn))) /\
  (Blind a fn -> Blind a (Transaction e perform GuardTransaction true (Some fn))).
Proof.
  intros [Hw Hb]. unfold Transaction. cbn [negb]. split; intros Hf; contain.
  - apply Within_boundary; [exact Hp|]. by apply Within_bind.
  - apply Blind_boundary; [exact Hp|]. by apply blind_bind.
Qed.

(** C9: a write of a model that embeds [tenant.Scope], called in a context
    that acts in one tenant, leaves every row of every other tenant as it was,
    whatever its objects, its conditions and its options name and however it
    ends: a create, an update, a delete, an update by id that assigns no id,
    or a transaction around work that keeps to the tenant, of a model whose
    hooks and registered actions keep to it too.  An update, an update by id
    and a delete do not see the other tenants at all: in two worlds that
    differ in their rows alone, the call answers the same and leaves the same
    rows of its own, the same objects and the same events, unless the database
    fails it in one of them, as a unique key that does not name the tenant
    would. *)
Theorem tenants_are_isolated (x : write (A := A) (C := C) (Act := Act) (D := D))
  (Hg : Within a GuardTransaction /\ Blind a GuardTransaction) (Hx : tame x) :
  (forall w, others a (rows (run_write x w).2) = others a (rows w)) /\
  (looks_away x -> forall w1 w2, same_to a w1 w2 ->
    ((run_write x w1).1 = (run_write x w2).1 /\ same_to a (run_write x w1).2 (run_write x w2).2) \/
    database_failed (run_write x w1).1 \/ database_failed (run_write x w2).1).
Proof.
  destruct x as [c l|c l|outer c i l|c l|fn]; cbn [do_ tame looks_away] in *.
  - split; [apply within_Create|done].
  - destruct (contained_Update c l) as [H1 H2]. by split.
  - destruct (contained_UpdateByID outer c i l (proj1 Hx) (proj2 Hx)) as [H1 H2]. by split.
  - destruct (contained_Delete c l) as [H1 H2]. by split.
  - destruct (transaction_contained fn Hg) as [H1 H2]. split; [by apply H1|exact H2].
Qed.

(** A read answers rows of the tenant alone. *)
Lemma scoped_find_own (find : nat -> where_ C -> table A -> result D (list (record_ A))) n w t l :
  (forall n w t l, find n w t = Ok l -> forall r, r ∈ l -> exists unscoped, selects holds w unscoped r = true) ->
  scoped_find tenant_is refused ctx find n w t = Ok l -> forall r, r ∈ l -> GetTenantID r = a.
Proof.
  intros Hf. unfold scoped_find. destruct (narrowed_one tenant_is (A := A) ctx a Hone w) as (E & _). rewrite E. cbn. intros H r Hr.
  destruct (Hf _ _ _ _ H r Hr) as [unscoped Hs]. exact (selects_own holds tenant_is base a _ unscoped r (narrow_in w) Hs).
Qed.
End Isolation.

(** ** An engine that keeps the tenant column *)

Section Reference.
Context {A C D : Type} `{!TenantValues A} (holds : C -> record_ A -> bool) (tenant_is : string -> C) (versionColumn : option string).
Context (Hc : forall a r, holds (tenant_is a) r = bool_decide (GetTenantID r = a)).
Context (fails : nat -> option D) (duplicated missing : D).

(** A create-only column keeps the value of the row. *)
Definition keeping (old r : record_ A) : record_ A :=
  SetFields (match Fields old !! tenant_id with Some c => <[tenant_id := c]> (Fields r) | None => stdpp.base.delete tenant_id (Fields r) end) r.

Lemma GetTenantID_keeping old r : GetTenantID (keeping old r) = GetTenantID old.
Proof.
  unfold GetTenantID, keeping. cbn. destruct (Fields old !! tenant_id) as [c|] eqn:E; [by rewrite lookup_insert_eq|by rewrite lookup_delete_eq].
Qed.

Local Abbreviation plain := (sql holds versionColumn fails duplicated missing).

Definition tenant_sql : engine A C D := mkEngine
  (insert plain)
  (fun n w columns o now t => unless_failing fails n
    (if restricts w then Ok ((fun r => if selects holds w false r then keeping r (written versionColumn columns o now r) else r) <$> t, count holds w false t)
     else Err missing))
  (delete plain)
  (fun n w updates now t => unless_failing fails n
    (if restricts w then Ok ((fun r => if selects holds w false r then keeping r (assigned_row updates now r) else r) <$> t) else Err missing))
  (begin_ plain) (commit plain) (updated_object plain) (deleted_object plain).

#[export] Instance tenant_sql_tenanted : Tenanted holds tenant_is tenant_sql.
Proof.
  split.
  - exact Hc.
  - intros n l t t' (_ & H)%(insert_documented holds versionColumn (e := plain)). exact H.
  - intros n w columns o now. exists (fun r => keeping r (written versionColumn columns o now r)). split; [intros r; apply GetTenantID_keeping|].
    intros t t' k. cbn. unfold unless_failing. destruct (fails n); [done|]. destruct (restricts w); [|done]. by intros [= <- <-].
  - intros n w unscoped global now t t' k (_ & H)%(delete_documented holds versionColumn (e := plain)). exact H.
  - intros n w updates now _. exists (fun r => keeping r (assigned_row updates now r)). split; [intros r; apply GetTenantID_keeping|].
    intros t t'. cbn. unfold unless_failing. destruct (fails n); [done|]. destruct (restricts w); [|done]. by intros [= <-].
Qed.
End Reference.

(** ** Scenes *)

Module TenantScenes.
(** Values are texts; a condition is on the tenant or on the creator. *)
#[export] Instance text_values : TenantValues string := {| as_ID := Some; of_ID := fun s => s; as_of_ID := fun s => eq_refl |}.
Definition cond : Type := string + string.
Definition holds (c : cond) (r : record_ string) : bool :=
  match c with inl a => bool_decide (GetTenantID r = a) | inr creator => (CreatedBy r =? creator)%string end.
Definition sql_ (n : option nat) : engine string cond string :=
  tenant_sql holds None (fun k => if bool_decide (Some k = n) then Some "connection lost"%string else None) "duplicated key" "missing where".
Definition refused (err : refusal) : string := match err with ErrTenantRequired => "tenant required" | ErrTenantImmutable _ _ => "tenant immutable" end.
Definition acme : option context := Some (In_ None " acme ").
Definition engine_ : engine string cond string := scoped inl refused acme (sql_ None).
Definition clock (n : nat) : Z := 1000000000 * Z.of_nat n.
Definition uuid (n : nat) : string := "fresh".
Definition perform (act : string) (n : nat) (t : table string) : option string * table string := (None, t).
Definition plain : model string string string := mkModel None None false None None None.
Definition row_ (i tenant name : string) : record_ string :=
  mkRecord i "ann" "ann" 0 0 None 0 (list_to_map [(tenant_id, Value tenant); ("name"%string, Value name)]).
Definition chain_ : chain cond string := Database_ "bob".
Definition world_ (objects : list (record_ string)) (t : list (record_ string)) : world string string :=
  mkWorld (list_to_map (imap (fun i r => (i, mkObject r [])) objects)) (list_to_map (map (fun r => (ID r, r)) t)) 0 None [] [].

#[export] Instance sql_tenanted n : Tenanted holds inl (sql_ n).
Proof. apply tenant_sql_tenanted. done. Qed.
#[export] Instance plain_within a : Hooks_within a plain.
Proof. by split. Qed.
Lemma perform_contained a : contained a perform.
Proof. by split. Qed.
Lemma acme_one : acts_in acme "acme".
Proof. by vm_compute. Qed.

(** A record the caller names another tenant's row in, with another tenant in
    it. *)
Definition forged : record_ string := row_ "t2" "globex" "mine now".
Definition rows_ : list (record_ string) := [row_ "t1" "acme" "first"; row_ "t2" "globex" "theirs"].
Definition rows_without : list (record_ string) := [row_ "t1" "acme" "first"].
Definition no_guard : M string string string unit := ret tt.
Definition do (x : write (A := string) (C := cond) (Act := string) (D := string)) (w : world string string) :=
  do_ engine_ clock uuid perform no_guard plain x w.
Definition update_theirs : write (A := string) (C := cond) (Act := string) (D := string) := WUpdate chain_ [Some 0%nat].
End TenantScenes.
Import TenantScenes.

(** An update of the row of another tenant answers that there is none, as it
    does where there is none; one that names another tenant is refused; and
    deleting every row deletes the tenant's. *)
Lemma tenants_are_isolated_witness :
  let w := world_ [row_ "t2" "" "mine now"; forged] rows_ in
  let without := world_ [row_ "t2" "" "mine now"; forged] rows_without in
  (do update_theirs w).1 = Err ErrRecordNotFound /\
  (do update_theirs w).1 = (do update_theirs without).1 /\
  others "acme" (rows (do (WDelete (match_all chain_) []) w).2) = others "acme" (rows w) /\
  own "acme" (rows (do (WDelete (WithPurge [] (match_all chain_)) []) w).2) = ∅ /\
  (do (WUpdate chain_ [Some 1%nat]) w).1 = Err (Database "tenant immutable").
Proof.
  cbv zeta. split; [by vm_compute|].
  assert (Within "acme" no_guard /\ Blind "acme" no_guard) as Hg by (unfold no_guard; split; apply _).
  split; [|split; [|split; by vm_compute]].
  - unfold do.
    destruct (proj2 (tenants_are_isolated holds inl refused (sql_ None) acme "acme" acme_one clock uuid perform no_guard plain
      (perform_contained "acme") update_theirs Hg I) I (world_ [row_ "t2" "" "mine now"; forged] rows_)
      (world_ [row_ "t2" "" "mine now"; forged] rows_without)) as [[E _]|[[d E]|[d E]]]; [by split; [|vm_compute|..]|exact E|vm_compute in E; discriminate E..].
  - unfold do.
    exact (proj1 (tenants_are_isolated holds inl refused (sql_ None) acme "acme" acme_one clock uuid perform no_guard plain
      (perform_contained "acme") (WDelete (match_all chain_) []) Hg I) _).
Defined.

(** *** What surprises *)

(** A record without an id makes a delete without a condition, which is
    refused on another model; on a scoped one the condition on the tenant
    stands for it, and every row of the tenant goes. *)
Lemma idless_delete_takes_the_tenant :
  let w := world_ [row_ "" "" "draft"] rows_ in
  let d := do (WDelete (WithPurge [] chain_) [Some 0%nat]) w in
  d.1 = Ok tt /\ own "acme" (rows d.2) = ∅ /\ others "acme" (rows d.2) = others "acme" (rows w) /\
  (do_ (sql_ None) clock uuid perform no_guard plain (WDelete (WithPurge [] chain_) [Some 0%nat]) w).1 = Err (Database "missing where"%string).
Proof. by vm_compute. Qed.
