(* ===== verification/Upserts.v ===== *)
(** * Insert or update

    Models src/database/upsert.go with [versionBumpingConflict] of version.go:
    Upsert, the keys it reads before it writes on a model whose rows belong to
    tenants, and the objects it reads back after.

    The table holds its rows by id, so the primary key is the id.  Left out,
    as for the other writes: the branch of ClickHouse, dry runs and tracing;
    and the cache of [uniqueIndexes], whose entries never change. *)

From stdpp Require Import base list gmap strings.
From Stdlib Require Import ZArith.
From S2P Require Import Prelude GoStrings Writes Tenants.
Local Open Scope Z_scope.
Local Open Scope write_scope.

(** ** Unique indexes *)

(** A field of gorm's schema; one without a column has an empty name. *)
Record SchemaField : Type := mkSchemaField {
  DBName : string; Unique : bool; UniqueIndex : string; PrimaryKey : bool }.

Record IndexOption : Type := mkIndexOption { Field : option SchemaField; Expression : string }.

Record Index : Type := mkIndex { Name : string; Class_ : string; Where_ : string; IndexFields : list IndexOption }.

(** What the method [Indexes] of the model declares. *)
Record IndexPlan : Type := mkIndexPlan { PlanName : string; PlanUnique : bool; Columns : list string }.

Definition has_column (o : IndexOption) : bool :=
  match Field o with Some f => negb (DBName f =? "")%string && (Expression o =? "")%string | None => false end.
Definition non_primary (o : IndexOption) : bool :=
  match Field o with Some f => negb (PrimaryKey f) | None => false end.

Definition uniqueIndexUsable (index : option Index) : bool :=
  match index with
  | None => false
  | Some i =>
      if negb (Class_ i =? "UNIQUE")%string || negb (Where_ i =? "")%string || (length (IndexFields i) =? 0)%nat then false
      else forallb has_column (IndexFields i) && existsb non_primary (IndexFields i)
  end.

(** [schema.FieldsByDBName]. *)
Definition field_of (fields : list SchemaField) (column : string) : option SchemaField :=
  find (fun f => DBName f =? column)%string fields.

Fixpoint plan_fields (fields : list SchemaField) (columns : list string) : result string (list IndexOption) :=
  match columns with
  | [] => Ok []
  | column :: columns =>
      match field_of fields column with
      | None => Err column
      | Some f => match plan_fields fields columns with Ok l => Ok (mkIndexOption (Some f) "" :: l) | Err e => Err e end
      end
  end.

Fixpoint plan_indexes (fields : list SchemaField) (plans : list IndexPlan) : result string (list Index) :=
  match plans with
  | [] => Ok []
  | plan :: plans =>
      if negb (PlanUnique plan) then plan_indexes fields plans
      else
        match plan_fields fields (Columns plan) with
        | Err column => Err column
        | Ok l =>
            let index := mkIndex (PlanName plan) "UNIQUE" "" l in
            match plan_indexes fields plans with
            | Ok rest => Ok (if uniqueIndexUsable (Some index) then index :: rest else rest)
            | Err column => Err column
            end
        end
  end.

(** The indexes gorm parses of the tags, the fields of the schema and the
    plans; the error names a column the schema does not carry. *)
Definition collectUniqueIndexes (parsed : list (option Index)) (fields : list SchemaField) (plans : list IndexPlan)
    : result string (list Index) :=
  let tagged := omap (fun i => if uniqueIndexUsable i then i else None) parsed in
  let single := filter (fun f => Unique f = true /\ UniqueIndex f = ""%string /\ PrimaryKey f = false /\ DBName f <> ""%string) fields in
  match plan_indexes fields plans with
  | Ok planned => Ok (tagged ++ map (fun f => mkIndex ("unique:" ++ DBName f) "UNIQUE" "" [mkIndexOption (Some f) ""]) single ++ planned)
  | Err column => Err column
  end.

Definition indexColumns (index : Index) : list string := omap (fun o => DBName <$> Field o) (IndexFields index).

(** ** Keys *)

(** The value a record holds in a column. *)
Inductive datum (A : Type) : Type :=
| Text (s : string) | Number (z : Z) | Deleted (at_time : option Z) | Cell (c : cell A) | Missing.
Arguments Text {A} s.
Arguments Number {A} z.
Arguments Deleted {A} at_time.
Arguments Cell {A} c.
Arguments Missing {A}.

(** What reflection and fmt say of a value of a column of the model's own. *)
Class ColumnValues (A : Type) : Type := {
  nil_cell : A -> bool;
  zero_cell : A -> bool;
  (** [fmt.Sprintf("%T:%#v", value, value)]. *)
  GoSyntax : datum A -> string }.

(** [clause.IN] on the columns of a key. *)
Record KeyIn (A : Type) : Type := mkKeyIn { key_columns : list string; key_values : list (list (datum A)) }.
Arguments mkKeyIn {A} key_columns key_values.
Arguments key_columns {A} k.
Arguments key_values {A} k.

Section Keys.
Context {A : Type} `{!ColumnValues A}.
Variable versionColumn : option string.

(** [field.ValueOf] of the field of a column. *)
Definition ValueOf (column : string) (r : record_ A) : datum A :=
  if (column =? "id")%string then Text (ID r)
  else if (column =? "created_by")%string then Text (CreatedBy r)
  else if (column =? "updated_by")%string then Text (UpdatedBy r)
  else if (column =? "created_at")%string then Cell (Instant (CreatedAt r))
  else if (column =? "updated_at")%string then Cell (Instant (UpdatedAt r))
  else if (column =? "deleted_at")%string then Deleted (DeletedAt r)
  else if bool_decide (Some column = versionColumn) then Number (Version r)
  else match Fields r !! column with Some c => Cell c | None => Missing end.

Definition is_zero (d : datum A) : bool :=
  match d with
  | Text s => (s =? "")%string
  | Number z => z =? 0
  | Deleted t => bool_decide (t = None)
  | Cell (Instant t) => t =? 0
  | Cell (Value a) => zero_cell a
  | Missing => true
  end.

Definition isNilValue (d : datum A) : bool :=
  match d with
  | Cell (Value a) => nil_cell a
  | Missing => true
  | _ => false
  end.

Definition uniqueIndexValues (index : Index) (r : record_ A) : option (list (datum A)) :=
  let values := map (fun column => ValueOf column r) (indexColumns index) in
  if existsb isNilValue values then None else Some values.

(** [strings.Join]. *)
Definition uniqueIndexKey (values : list (datum A)) : string :=
  String.concat (String (Ascii.ascii_of_nat 0) "") (map GoSyntax values).

Definition keyIn (columns : list string) (keys : list (list (datum A))) : KeyIn A := mkKeyIn columns keys.
End Keys.

(** ** Statements *)

(** What a conflict update does to a column of the row: the value of the row
    that was to be inserted, the time of the statement, or the row's own value
    plus one. *)
Inductive update_ : Type := Excluded | Refreshed | BumpRow.
Definition conflict : Type := list (string * update_).

Record merging (A C D : Type) : Type := mkMerging {
  (** The conflict update gorm builds for a batch, in a dry run. *)
  conflict_update : nat -> list (record_ A) -> list string -> Z -> result D (option conflict);
  (** INSERT ... ON CONFLICT with the one gorm builds or a given one, and what
      it leaves in the objects. *)
  save : nat -> list (record_ A) -> list string -> Z -> option conflict -> table A -> result D (table A * list (record_ A));
  (** The tenant column of the rows, deleted or not, of whatever tenant, that
      one of some conditions is true of. *)
  Pluck : nat -> list C -> table A -> result D (list string);
  Find : nat -> where_ C -> table A -> result D (list (record_ A)) }.
Arguments mkMerging {A C D}.
Arguments conflict_update {A C D} m.
Arguments save {A C D} m.
Arguments Pluck {A C D} m.
Arguments Find {A C D} m.

(** The statements of a scoped model; the one on the table's name alone has no
    schema to find clauses on. *)
Definition scoped_merging {A C D} `{!TenantValues A} (tenant_is : string -> C) (refused : refusal -> D) (ctx : option context)
    (base : merging A C D) : merging A C D := mkMerging
  (fun n l columns now => unless_refused refused (stamped tenant_is ctx l) (fun l => conflict_update base n l columns now))
  (fun n l columns now pre t => unless_refused refused (stamped tenant_is ctx l) (fun l => save base n l columns now pre t))
  (Pluck base)
  (scoped_find tenant_is refused ctx (Find base)).

(** ** Upsert *)

Section Upsert.
Context {A C D Act : Type} `{!ColumnValues A}.
Abbreviation M := (M A Act D).

Variables (e : engine A C D) (s : merging A C D).
Variables (clock : nat -> Z) (uuid : nat -> string).
Variable perform : Act -> nat -> table A -> option D * table A.
Variable m : model A Act D.
(** The context of the chain, whether the model has a tenant column, its
    primary columns, those of its own gorm refreshes on every write, and its
    unique indexes. *)
Variables (ctx : option context) (tenantColumn : bool) (PrimaryFields : list string) (AutoUpdateTime : list string).
Variable uniqueIndexes : result D (list Index).
Variable key_in : KeyIn A -> C.

(** A statement that changes no row. *)
Definition read {X} (f : nat -> table A -> result D X) : M X := fun w =>
  match f (statements w) (rows w) with
  | Ok x => (Ok x, tick w)
  | Err err => (Err (Database err), tick w)
  end.

Definition resolve_indexes : M (list Index) := match uniqueIndexes with Ok l => ret l | Err err => throw (Raised err) end.

Definition versionBumpingConflict (batch : list (record_ A)) (columns : list string) (now : Z) (versionColumn : string) : M conflict :=
  built <- gets (fun w => conflict_update s (statements w) batch columns now);;
  match built with
  | Err err => throw (Database err)
  | Ok None => throw ErrNoConflictUpdate
  | Ok (Some assignments) => ret ((versionColumn, BumpRow) :: filter (fun x => x.1 <> versionColumn) assignments)
  end.

(** The primary keys of a batch, those the database numbers left out. *)
Definition primaryKeys (batch : list (record_ A)) : list (list (datum A)) :=
  filter (fun key => existsb (fun d => negb (is_zero d)) key = true)
    (map (fun r => map (fun column => ValueOf (versionColumn m) column r) PrimaryFields) batch).

Definition indexKeys (index : Index) (batch : list (record_ A)) : list (list (datum A)) :=
  omap (uniqueIndexValues (versionColumn m) index) batch.

Definition key_conditions (indexes : list Index) (batch : list (record_ A)) : list C :=
  let primary := primaryKeys batch in
  (if bool_decide (length primary = 0%nat) then [] else [key_in (keyIn PrimaryFields primary)]) ++
  flat_map (fun index =>
    let keys := indexKeys index batch in
    if bool_decide (length keys = 0%nat) then [] else [key_in (keyIn (indexColumns index) keys)]) indexes.

Fixpoint check_owners (acting : string) (held : list string) : M unit :=
  match held with
  | [] => ret tt
  | owner :: held => if negb (owner =? acting)%string then throw (ErrDuplicatedKey owner) else check_owners acting held
  end.

Definition refuseForeignTenantRows (batch : list pointer) : M unit :=
  if negb tenantColumn then ret tt
  else
    let '(acting, one) := From_ ctx in
    if negb one then ret tt
    else
      indexes <- resolve_indexes;;
      records <- gets (fun w => map (record_at w) batch);;
      let conditions := key_conditions indexes records in
      if bool_decide (length conditions = 0%nat) then ret tt
      else
        held <- read (fun n t => Pluck s n conditions t);;
        check_owners acting held.

(** *** Reading the objects back *)

(** The candidates of an index by key, and the keys in the order of the
    objects. *)
Definition add_candidate (index : Index) (record : pointer -> record_ A) (synced : gset string)
    (st : gmap string (list pointer) * list (list (datum A))) (p : pointer) : gmap string (list pointer) * list (list (datum A)) :=
  let '(candidatesByKey, keys) := st in
  if bool_decide (ID (record p) ∈ synced) then st
  else
    match uniqueIndexValues (versionColumn m) index (record p) with
    | None => st
    | Some values =>
        let key := uniqueIndexKey values in
        (<[key := default [] (candidatesByKey !! key) ++ [p]]> candidatesByKey,
         if bool_decide (is_Some (candidatesByKey !! key)) then keys else keys ++ [values])
    end.

Fixpoint sync_candidates (candidates : list pointer) (current : record_ A) (synced : gset string) : M (gset string) :=
  match candidates with
  | [] => ret synced
  | candidate :: candidates =>
      originalID <- gets (fun w => ID (record_at w candidate));;
      change (fun _ => current) candidate;;
      sync_candidates candidates current ({[originalID; ID current]} ∪ synced)
  end.

Fixpoint sync_rows (index : Index) (candidatesByKey : gmap string (list pointer)) (persisted : list (record_ A)) (synced : gset string) : M (gset string) :=
  match persisted with
  | [] => ret synced
  | current :: persisted =>
      match uniqueIndexValues (versionColumn m) index current with
      | None => sync_rows index candidatesByKey persisted synced
      | Some values =>
          synced <- sync_candidates (default [] (candidatesByKey !! uniqueIndexKey values)) current synced;;
          sync_rows index candidatesByKey persisted synced
      end
  end.

Fixpoint sync_indexes (indexes : list Index) (batch : list pointer) (synced : gset string) : M unit :=
  match indexes with
  | [] => ret tt
  | index :: indexes =>
      record <- gets record_at;;
      let '(candidatesByKey, keys) := fold_left (add_candidate index record synced) batch (∅, []) in
      if bool_decide (length keys = 0%nat) then sync_indexes indexes batch synced
      else
        persisted <- read (fun n t => Find s n (mkWhere [] None [key_in (keyIn (indexColumns index) keys)]) t);;
        synced <- sync_rows index candidatesByKey persisted synced;;
        sync_indexes indexes batch synced
  end.

Definition syncSaveResultsByUniqueIndexes (batch : list pointer) : M unit :=
  if bool_decide (length batch = 0%nat) then ret tt
  else
    indexes <- resolve_indexes;;
    if bool_decide (length indexes = 0%nat) then ret tt else sync_indexes indexes batch ∅.

(** *** A batch and the whole *)

(** The conflict update the call sets itself, on a versioned model. *)
Definition conflict_clause (c : chain C D) (now : Z) (records : list (record_ A)) : M (option conflict) :=
  match versionColumn m with
  | Some column => conflict <- versionBumpingConflict records (selectColumns c) now column;; ret (Some conflict)
  | None => ret None
  end.

(** [tx.Save(objs[i:end])]. *)
Definition save_batch (c : chain C D) (now : Z) (batch : list pointer) : M unit :=
  records <- gets (fun w => map (record_at w) batch);;
  pre <- conflict_clause c now records;;
  left <- statement (fun n t => save s n records (selectColumns c) now pre t);;
  each (zip batch left) (fun '(p, r) => change (fun _ => r) p).

(** The keys are looked at and the rows inserted by two statements; that
    another client may write between them is left out. *)
Definition upsert_batch (c : chain C D) (now : Z) (batch : list pointer) : M unit :=
  refuseForeignTenantRows batch;;
  save_batch c now batch;;
  syncSaveResultsByUniqueIndexes batch.

Definition upsert_write (c : chain C D) (objs : list pointer) : M unit :=
  now <- fillForInsert clock uuid m objs;;
  each (batches (batch_size defaultBatchSize c) objs) (upsert_batch c now).

(** The columns the framework manages join a narrowed selection. *)
Definition upsert_columns (c : chain C D) : chain C D :=
  if bool_decide (selectColumns c = []) then c
  else
    let columns := if (caller c =? "")%string then selectColumns c else ensureSelected (ensureSelected (selectColumns c) "created_by") "updated_by" in
    select_columns (fold_left ensureSelected AutoUpdateTime columns) c.

Definition Upsert (c : chain C D) (objs : list (option pointer)) : M unit :=
  refuse_read_options c;;
  let objs := compactModels objs in
  if bool_decide (objs = []) then ret tt
  else
    c <- prepare m c;;
    when (negb (caller c =? "")%string)
      (each objs (fun p => change (SetCreatedBy (caller c)) p;; change (SetUpdatedBy (caller c)) p));;
    withWriteTransaction e perform (upsert_write (upsert_columns c) objs).
End Upsert.
