(* ===== verification/UpsertsSpec.v ===== *)
(** * What an upsert merges into

    [Merging] states what gorm and the database do with an INSERT ... ON
    CONFLICT; over it, Upsert is shown to take effect as a whole, to keep what
    a row was created with and move no version back, to stay within a tenant,
    and to leave in an object the id of a row. *)

From stdpp Require Import base list gmap strings.
From Stdlib Require Import ZArith Lia.
From S2P Require Import Prelude GoStrings Writes WritesBase WritesSpec WritesLocking Tenants TenantsSpec Upserts WritesDelete.
Local Open Scope Z_scope.
Local Open Scope write_scope.

(** ** Unique indexes *)

Lemma planned_usable fields plans l : plan_indexes fields plans = Ok l -> Forall (fun index => uniqueIndexUsable (Some index) = true) l.
Proof.
  revert l. induction plans as [|plan plans IH]; intros l; cbn [plan_indexes]; [by intros [= <-]|].
  destruct (negb (PlanUnique plan)); [apply IH|]. destruct (plan_fields fields (Columns plan)) as [lf|]; [|done].
  destruct (plan_indexes fields plans) as [rest|]; [|done].
  destruct (uniqueIndexUsable (Some (mkIndex (PlanName plan) "UNIQUE" "" lf))) eqn:E; intros [= <-]; [constructor; [exact E|]|]; by apply IH.
Qed.

(** Every index collected is a unique key of plain columns, one of them
    besides the primary key, whatever declared it. *)
Lemma collected_usable parsed fields plans l : collectUniqueIndexes parsed fields plans = Ok l ->
  Forall (fun index => uniqueIndexUsable (Some index) = true) l.
Proof.
  unfold collectUniqueIndexes. destruct (plan_indexes fields plans) as [planned|] eqn:E; [|done]. intros [= <-].
  rewrite !Forall_app. split; [|split; [|by eapply planned_usable]]; apply Forall_forall; intros index Hi.
  - apply list_elem_of_omap in Hi as (i & _ & Hi). destruct (uniqueIndexUsable i) eqn:Eu; [by subst|done].
  - apply list_elem_of_fmap in Hi as (f & -> & Hf). apply list_elem_of_filter in Hf as ((_ & _ & Hp & Hn) & _).
    apply String.eqb_neq in Hn. unfold uniqueIndexUsable, has_column, non_primary. cbn. by rewrite Hn, Hp.
Qed.

(** ** What is relied on of gorm and the database *)

Section Laws.
Context {A C D : Type} `{!TenantValues A} `{!ColumnValues A}.
(** Which rows a condition is true of; equality of the database; whether an
    insert merges on any unique key or on the primary key alone; the values of
    columns an insert leaves out; what gorm puts into a column it refreshes,
    and its own conflict update of a selection. *)
Context (holds : C -> record_ A -> bool) (same : datum A -> datum A -> bool) (any_key : bool).
Context (defaults : gmap string (cell A)) (default_version : Z) (refreshed : string -> Z -> cell A) (expansion : list string -> conflict).
Context (versionColumn : option string) (indexes : list Index) (key_in : KeyIn A -> C).

Local Abbreviation ValueOf := (ValueOf versionColumn).

(** A row has a key: the database finds its values equal, which a null is to
    none. *)
Definition has_key (columns : list string) (key : list (datum A)) (r : record_ A) : bool :=
  bool_decide (length key = length columns) && forallb (fun '(d, c) => same d (ValueOf c r)) (zip key columns).

Definition in_key (k : KeyIn A) (r : record_ A) : bool := existsb (fun key => has_key (key_columns k) key r) (key_values k).

(** The row an insert of some columns adds; WithSelect names those of the
    framework whatever it selects. *)
Definition inserted (columns : list string) (o : record_ A) : record_ A :=
  mkRecord (ID o) (CreatedBy o) (UpdatedBy o) (CreatedAt o) (UpdatedAt o) (DeletedAt o)
    (if match versionColumn with Some c => selected columns c | None => true end then Version o else default_version)
    (if bool_decide (columns = []) then Fields o else filter (fun '(c, _) => c ∈ columns) (Fields o) ∪ defaults).

Definition put_column (column : string) (o r : record_ A) : record_ A :=
  if (column =? "updated_by")%string then SetUpdatedBy (UpdatedBy o) r
  else if (column =? "updated_at")%string then SetUpdatedAt (UpdatedAt o) r
  else if (column =? "deleted_at")%string then SetDeletedAt (DeletedAt o) r
  else if bool_decide (Some column = versionColumn) then SetVersionValue (Version o) r
  else match Fields o !! column with Some c => SetFields (<[column := c]> (Fields r)) r | None => r end.

Definition assign_update (now : Z) (o : record_ A) (r : record_ A) (x : string * update_) : record_ A :=
  match x.2 with
  | BumpRow => SetVersionValue (Version r + 1) r
  | Refreshed => if (x.1 =? "updated_at")%string then SetUpdatedAt now r else SetFields (<[x.1 := refreshed x.1 now]> (Fields r)) r
  | Excluded => put_column x.1 o r
  end.

(** The row after a merge of the row [o] that was to be inserted. *)
Definition merged (assignments : conflict) (now : Z) (o old : record_ A) : record_ A := fold_left (assign_update now o) assignments old.

Definition shares_key (index : Index) (o r : record_ A) : Prop :=
  exists key, uniqueIndexValues versionColumn index o = Some key /\ has_key (indexColumns index) key r = true.

Definition collides (o r : record_ A) : Prop := ID o = ID r \/ (any_key = true /\ exists index, index ∈ indexes /\ shares_key index o r).

(** Row by row: a row no row collides with is added, another is merged into
    one that it does. *)
Inductive merges (assignments : conflict) (columns : list string) (now : Z) : list (record_ A) -> table A -> table A -> Prop :=
| merges_none t : merges assignments columns now [] t t
| merges_insert o l t t' :
    (forall i r, t !! i = Some r -> ~ collides (inserted columns o) r) -> t !! ID o = None ->
    merges assignments columns now l (<[ID o := inserted columns o]> t) t' -> merges assignments columns now (o :: l) t t'
| merges_update o l i old t t' :
    t !! i = Some old -> collides (inserted columns o) old ->
    merges assignments columns now l (<[i := merged assignments now (inserted columns o) old]> t) t' -> merges assignments columns now (o :: l) t t'.

(** Columns a conflict update never names: the key and the creation facts,
    and the tenant, which are all written on insert alone. *)
Definition create_only : list string := ["id"; "created_at"; "created_by"; tenant_id].

Class Merging (s : merging A C D) : Prop := {
  save_merges n l columns now pre t t' l' : save s n l columns now pre t = Ok (t', l') ->
    l' = l /\ merges (default (expansion columns) pre) columns now l t t';
  conflict_expands n l columns now assignments : conflict_update s n l columns now = Ok (Some assignments) -> assignments = expansion columns;
  expansion_update columns x : x ∈ expansion columns -> x.1 ∉ create_only /\ x.2 <> BumpRow;
  Pluck_answers n conditions t l : Pluck s n conditions t = Ok l ->
    forall i r, t !! i = Some r -> existsb (fun c => holds c r) conditions = true -> GetTenantID r ∈ l;
  Find_answers n w t l : Find s n w t = Ok l ->
    forall r, r ∈ l <-> exists i, t !! i = Some r /\ selects holds w false r = true;
  key_in_holds k r : holds (key_in k) r = in_key k r }.

(** *** A merged row *)

(** What a write never takes from a row. *)
Definition same_facts (r r' : record_ A) : Prop :=
  ID r' = ID r /\ CreatedBy r' = CreatedBy r /\ CreatedAt r' = CreatedAt r /\ GetTenantID r' = GetTenantID r.

Lemma tenant_put column v (r : record_ A) : column <> tenant_id -> GetTenantID (SetFields (<[column := v]> (Fields r)) r) = GetTenantID r.
Proof. intros H. unfold GetTenantID. cbn. by rewrite lookup_insert_ne. Qed.

Lemma assign_facts now o r x : x.1 ∉ create_only -> same_facts r (assign_update now o r x).
Proof.
  intros Hx. assert (x.1 <> tenant_id) as Ht by (intros E; apply Hx; rewrite E; repeat constructor).
  unfold assign_update, put_column. destruct x as [c []]; cbn in *; repeat case_match; by repeat split; rewrite ?tenant_put.
Qed.

Lemma merged_facts assignments now o old : (forall x, x ∈ assignments -> x.1 ∉ create_only) -> same_facts old (merged assignments now o old).
Proof.
  unfold merged. revert old. induction assignments as [|x l IH]; intros old Hl; [by repeat split|]. cbn.
  destruct (IH (assign_update now o old x)) as (E1 & E2 & E3 & E4); [intros y Hy; apply Hl; by constructor|].
  destruct (assign_facts now o old x) as (F1 & F2 & F3 & F4); [apply Hl; constructor|].
  repeat split; congruence.
Qed.

(** The conflict update of a versioned model bumps the version of the row. *)
Lemma merged_version column assignments now o old : versionColumn = Some column ->
  (forall x, x ∈ assignments -> x.1 <> column /\ x.2 <> BumpRow) ->
  Version (merged ((column, BumpRow) :: assignments) now o old) = Version old + 1.
Proof.
  intros Hc Hl. unfold merged. cbn [fold_left]. change (assign_update now o old (column, BumpRow)) with (SetVersionValue (Version old + 1) old).
  change (Version old + 1) with (Version (SetVersionValue (Version old + 1) old)) at 2. generalize (SetVersionValue (Version old + 1) old). intros r.
  revert r. induction assignments as [|x l IH]; intros r; [done|]. cbn. rewrite IH by (intros y Hy; apply Hl; by constructor).
  destruct (Hl x ltac:(constructor)) as [H1 H2]. unfold assign_update, put_column. rewrite Hc.
  destruct x as [c []]; cbn in *; repeat case_match; boolify; try done; congruence.
Qed.

(** *** What a batch leaves of the rows there were *)

(** Each row is there, with what it was created with, and as it was or, on a
    versioned model, of a later version. *)
Definition advanced (t t' : table A) : Prop := forall i r, t !! i = Some r ->
  exists r', t' !! i = Some r' /\ same_facts r r' /\ (r' = r \/ (versionColumn <> None -> Version r < Version r')).

Lemma advanced_refl t : advanced t t.
Proof. intros i r Hr. exists r. repeat split; try done. by left. Qed.

Lemma advanced_trans t1 t2 t3 : advanced t1 t2 -> advanced t2 t3 -> advanced t1 t3.
Proof.
  intros H1 H2 i r Hr. destruct (H1 i r Hr) as (r2 & Hr2 & (E1 & E2 & E3 & E4) & V2). destruct (H2 i r2 Hr2) as (r3 & Hr3 & (F1 & F2 & F3 & F4) & V3).
  exists r3. split; [done|]. split; [repeat split; congruence|]. destruct V2 as [->|V2], V3 as [->|V3]; [by left|by right..|right].
  intros H. specialize (V2 H). specialize (V3 H). lia.
Qed.

(** The conflict update of a batch: gorm's, with the bump where the model has
    a version. *)
Definition conflict_of (columns : list string) : conflict :=
  match versionColumn with
  | Some column => (column, BumpRow) :: filter (fun x => x.1 <> column) (expansion columns)
  | None => expansion columns
  end.

Lemma default_conflict columns :
  default (expansion columns) (match versionColumn with Some _ => Some (conflict_of columns) | None => None end) = conflict_of columns.
Proof. unfold conflict_of. destruct versionColumn; reflexivity. Qed.

Definition version_own : Prop := forall column, versionColumn = Some column -> column ∉ create_only.

Context (s : merging A C D) `{!Merging s} (Hv : version_own).

Lemma conflict_create_only columns x : x ∈ conflict_of columns -> x.1 ∉ create_only.
Proof.
  unfold conflict_of. destruct versionColumn as [column|] eqn:E; [|apply expansion_update].
  intros [->|[_ H]%list_elem_of_filter]%elem_of_cons; [by apply Hv|by apply (expansion_update columns)].
Qed.

Lemma merged_advances columns now o old : let r := merged (conflict_of columns) now o old in
  same_facts old r /\ (versionColumn <> None -> Version old < Version r).
Proof.
  cbv zeta. split; [by apply merged_facts, conflict_create_only|]. unfold conflict_of. destruct versionColumn as [column|] eqn:E; [|done]. intros _.
  rewrite (merged_version column); [lia|done|]. intros x [H1 H2]%list_elem_of_filter. split; [done|by apply (expansion_update columns)].
Qed.

Lemma merges_advances columns now l t t' : merges (conflict_of columns) columns now l t t' -> advanced t t'.
Proof.
  induction 1 as [t|o l t t' Hno Hnew H IH|o l i old t t' Hold Hc H IH]; [apply advanced_refl|..].
  - eapply advanced_trans; [|exact IH]. intros i r Hr. exists r. rewrite lookup_insert_ne by congruence. repeat split; try done. by left.
  - eapply advanced_trans; [|exact IH]. intros j r Hr. destruct (decide (j = i)) as [->|Hne].
    + rewrite Hold in Hr. injection Hr as ->. eexists. rewrite lookup_insert_eq. split; [done|].
      destruct (merged_advances columns now (inserted columns o) r) as [H1 H2]. split; [done|by right].
    + exists r. rewrite lookup_insert_ne by done. repeat split; try done. by left.
Qed.

(** *** Rows of other tenants *)

(** A batch of one tenant, no row of another colliding with it, leaves theirs
    and adds its own. *)
Lemma merges_within a columns now l t t' : (forall o, o ∈ l -> GetTenantID (inserted columns o) = a) ->
  (forall o i r, o ∈ l -> others a t !! i = Some r -> ~ collides (inserted columns o) r) ->
  merges (conflict_of columns) columns now l t t' -> others a t' = others a t.
Proof.
  intros Hl Hc H. revert Hl Hc. induction H as [t|o l t t' Hno Hnew H IH|o l i old t t' Hold Hco H IH]; intros Hl Hc; [done|..].
  - assert (others a (<[ID o := inserted columns o]> t) = others a t) as E.
    { unfold others. rewrite map_filter_insert_False by (cbn; intros []; apply Hl; constructor). by rewrite delete_id. }
    rewrite <- E. apply IH; [intros x Hx; apply Hl; by constructor|]. rewrite E. intros x j r Hx. apply Hc. by constructor.
  - assert (GetTenantID old = a) as Ha.
    { destruct (decide (GetTenantID old = a)) as [|Hn]; [done|]. destruct (Hc o i old ltac:(constructor)); [by apply others_lookup|done]. }
    assert (others a (<[i := merged (conflict_of columns) now (inserted columns o) old]> t) = others a t) as E.
    { unfold others. destruct (merged_advances columns now (inserted columns o) old) as [(_ & _ & _ & E) _].
      rewrite map_filter_insert_False by (cbn; rewrite E; naive_solver). apply map_filter_delete_not. intros r Hr. cbn. rewrite Hold in Hr. naive_solver. }
    rewrite <- E. apply IH; [intros x Hx; apply Hl; by constructor|]. rewrite E. intros x j r Hx. apply Hc. by constructor.
Qed.
End Laws.

(** ** Pieces of code *)

Section Code.
Context {A C D Act : Type} `{!ColumnValues A}.
Abbreviation M := (M A Act D).
Context (e : engine A C D) (s : merging A C D) (clock : nat -> Z) (uuid : nat -> string).
Context (perform : Act -> nat -> table A -> option D * table A) (m : model A Act D).
Context (ctx : option context) (tenantColumn : bool) (PrimaryFields AutoUpdateTime : list string).
Context (uniqueIndexes : result D (list Index)) (key_in : KeyIn A -> C).

#[export] Instance Local_read {X} (f : nat -> table A -> result D X) : Local_ (read f : M X).
Proof. intros w. unfold read. by destruct (f _ _). Qed.

#[export] Instance Local_resolve : Local_ (resolve_indexes uniqueIndexes : M (list Index)).
Proof. unfold resolve_indexes. apply _. Qed.

#[export] Instance Local_check acting held : Local_ (check_owners acting held : M unit).
Proof. induction held; cbn; apply _. Qed.

#[export] Instance Local_refuse batch : Local_ (refuseForeignTenantRows s m ctx tenantColumn PrimaryFields uniqueIndexes key_in batch : M unit).
Proof. unfold refuseForeignTenantRows. destruct (From_ ctx). apply _. Qed.

#[export] Instance Local_candidates candidates current synced : Local_ (sync_candidates candidates current synced : M (gset string)).
Proof. revert synced. induction candidates; intros synced; cbn; apply _. Qed.

#[export] Instance Local_rows index byKey persisted synced : Local_ (sync_rows m index byKey persisted synced : M (gset string)).
Proof. revert synced. induction persisted; intros synced; cbn; [apply _|]. case_match; apply _. Qed.

#[export] Instance Local_indexes indexes batch synced : Local_ (sync_indexes s m key_in indexes batch synced : M unit).
Proof.
  revert synced. induction indexes; intros synced; cbn; [apply _|]. apply Local_bind; [apply _|]. intros record. destruct (fold_left _ _ _). apply _.
Qed.

#[export] Instance Local_sync batch : Local_ (syncSaveResultsByUniqueIndexes s m uniqueIndexes key_in batch : M unit).
Proof. unfold syncSaveResultsByUniqueIndexes. apply _. Qed.

#[export] Instance Local_conflict records columns now column : Local_ (versionBumpingConflict s records columns now column : M conflict).
Proof. unfold versionBumpingConflict. apply Local_bind; [apply _|]. intros [[]|]; apply _. Qed.

#[export] Instance Local_clause c now records : Local_ (conflict_clause s m c now records : M (option conflict)).
Proof. unfold conflict_clause. apply _. Qed.

#[export] Instance Inside_upsert_write c objs :
  Inside (upsert_write s clock uuid m ctx tenantColumn PrimaryFields uniqueIndexes key_in c objs).
Proof.
  unfold upsert_write, upsert_batch, save_batch. apply Inside_bind; [apply _|]. intros now. apply Inside_each. intros batch.
  apply Inside_bind; [apply _|]. intros _. apply Inside_bind; [|intros; apply _].
  apply Inside_bind; [apply _|]. intros records. apply Inside_bind; [apply _|]. intros pre.
  apply Inside_bind; [apply _|]. intros left_. apply Inside_local, Local_each. intros [p r]. apply _.
Qed.

Lemma whole_Upsert c objs : Whole (Upsert e s clock uuid perform m ctx tenantColumn PrimaryFields AutoUpdateTime uniqueIndexes key_in c objs).
Proof.
  unfold Upsert, refuse_read_options, prepare. eapply (whole_bind_such (fun _ => True)); [apply _|done|]. intros _ _. cbv zeta.
  destruct (bool_decide _); [apply whole_clean; intros w Ew; by repeat split|].
  eapply (whole_bind_such (fun _ => True)); [apply _|done|]. intros c' _.
  eapply (whole_bind_such (fun _ => True)); [apply _|done|]. intros _ _.
  apply (whole_single_or_transaction e perform false); [apply _|done].
Qed.
End Code.

(** ** What filling the objects keeps *)

Section Filling.
Context {A Act D : Type}.
Abbreviation M := (M A Act D).

(** What holds of a record an object leads to. *)
Class Keeps (P : record_ A -> Prop) {X} (f : M X) : Prop := keeps : forall w q, P (record_at w q) -> P (record_at (f w).2 q).

Context (P : record_ A -> Prop).

#[local] Instance Keeps_bind {X Y} (f : M X) (k : X -> M Y) : Keeps P f -> (forall x, Keeps P (k x)) -> Keeps P (bind f k).
Proof.
  intros Hf Hk w q Hq. specialize (Hf w q Hq). unfold bind. destruct (f w) as [[x|err] w']; cbn in *; [|done]. by apply (Hk x w' q).
Qed.
#[local] Instance Keeps_each {X} (l : list X) (f : X -> M unit) : (forall x, Keeps P (f x)) -> Keeps P (each l f).
Proof. intros H. induction l; cbn; [by intros w q|]. apply _. Qed.
#[local] Instance Keeps_gets {X} (f : world A Act -> X) : Keeps P (gets f : M X).
Proof. by intros w q. Qed.
#[local] Instance Keeps_throw {X} (err : error D) : Keeps P (throw err : M X).
Proof. by intros w q. Qed.
#[local] Instance Keeps_ret {X} (x : X) : Keeps P (ret x : M X).
Proof. by intros w q. Qed.
Lemma Keeps_change f p : (forall r, P r -> P (f r)) -> Keeps P (change f p : M unit).
Proof. intros H w q Hq. rewrite change_at. case_decide; [subst; by apply H|done]. Qed.

Context (clock : nat -> Z) (uuid : nat -> string) {C : Type} (m : model A Act D).

Lemma Keeps_fill objs : (forall r i, ID r = ""%string -> P r -> P (SetID_to i r)) -> (forall r, P r -> P (normalize_record r)) ->
  (forall r t, P r -> P (SetCreatedAt t r)) -> (forall r t, P r -> P (SetUpdatedAt t r)) -> (forall r v, P r -> P (SetVersionValue v r)) ->
  Keeps P (fillForInsert clock uuid m objs).
Proof.
  intros Hid Hn Hc Hu Hv. unfold fillForInsert. apply Keeps_bind.
  { apply Keeps_each. intros p w q Hq. unfold SetID, bind, gets. cbn. destruct (String.eqb_spec (ID (record_at w p)) ""%string) as [E|E]; [|done].
    unfold modify. cbn. change (P (record_at (change (D := D) (SetID_to (uuid (statements w))) p (tick w)).2 q)). rewrite change_at.
    case_decide as Hpq; [subst; by apply Hid|done]. }
  intros _. apply Keeps_bind.
  { unfold clearAssociations. apply Keeps_each. intros p w q Hq. unfold bind, gets, put, modify. cbn. rewrite record_at_put. by case_decide; subst. }
  intros _. apply Keeps_bind; [unfold normalizeTimes; destruct (resolves m); [apply _|]; apply Keeps_each; intros p; by apply Keeps_change|]. intros _.
  apply Keeps_bind; [apply _|]. intros now. apply Keeps_bind.
  { apply Keeps_each; intros p; apply Keeps_bind; [apply Keeps_change|intros _; apply Keeps_change]; auto. }
  intros _. apply Keeps_bind; [|intros _; apply _]. unfold initializeVersions. destruct (IsVersioned m); [|apply _]. apply Keeps_each. intros p.
  apply Keeps_change. intros r. destruct (Version r =? 0); auto.
Qed.
End Filling.

(** An id that is set stays, and so does the mark of deletion. *)
Lemma Keeps_ids {A Act D} clock uuid (m : model A Act D) objs i : i <> ""%string -> Keeps (fun r => ID r = i) (fillForInsert clock uuid m objs).
Proof. intros Hi. apply Keeps_fill; try done. intros r j E <-. congruence. Qed.
Lemma Keeps_deleted {A Act D} clock uuid (m : model A Act D) objs t : Keeps (fun r => DeletedAt r = t) (fillForInsert clock uuid m objs).
Proof. by apply Keeps_fill. Qed.

(** *** The record an object is saved as *)

(** It has the object's id where that is set, its mark of deletion and, times
    at the precision of the framework, its columns but the tenant's. *)
Definition saved_as {A} (o r : record_ A) : Prop :=
  (ID o <> ""%string -> ID r = ID o) /\ DeletedAt r = DeletedAt o /\
  forall c, c <> tenant_id -> normalize_cell <$> Fields r !! c = normalize_cell <$> Fields o !! c.

Lemma saved_as_trans {A} (o1 o2 o3 : record_ A) : saved_as o1 o2 -> saved_as o2 o3 -> saved_as o1 o3.
Proof.
  intros (I1 & D1 & F1) (I2 & D2 & F2). split; [intros H; specialize (I1 H); rewrite I2 by congruence; done|]. split; [congruence|].
  intros c Hc. by rewrite F2, F1.
Qed.

Lemma saved_as_refl {A} (o : record_ A) : saved_as o o.
Proof. by repeat split. Qed.

Lemma UTCMillisecond_idemp t : UTCMillisecond (UTCMillisecond t) = UTCMillisecond t.
Proof.
  unfold UTCMillisecond. assert ((t - t mod 1000000) mod 1000000 = 0) as ->; [|lia].
  rewrite Zminus_mod, Zmod_mod, Z.sub_diag. done.
Qed.

Lemma saved_as_normalized {A} (o r : record_ A) : saved_as o r -> saved_as o (normalize_record r).
Proof.
  intros (I & E & F). split; [done|]. split; [done|]. intros c Hc. rewrite <- F by done. cbn. rewrite lookup_fmap.
  destruct (Fields r !! c) as [[t|v]|]; cbn; [by rewrite UTCMillisecond_idemp|done..].
Qed.

Lemma saved_as_filled {A Act D} clock uuid (m : model A Act D) objs o : Keeps (saved_as o) (fillForInsert clock uuid m objs).
Proof.
  apply Keeps_fill; try done; [|by apply saved_as_normalized].
  intros r i E (I & Ed & F). split; [intros H; specialize (I H); congruence|by split].
Qed.

Lemma saved_as_stamped {A C} `{!TenantValues A} (tenant_is : string -> C) ctx (l l' : list (record_ A)) :
  stamped tenant_is ctx l = Ok l' -> Forall2 saved_as l l'.
Proof.
  assert (forall n (r : record_ A), saved_as r (SetTenantID n r)) as Hs.
  { intros n r. split; [done|]. split; [done|]. intros c Hc. cbn. by rewrite lookup_insert_ne. }
  assert (forall f, (forall r, f r = r \/ exists n, f r = SetTenantID n r) -> Forall2 saved_as l (map f l)) as Hm.
  { intros f Hf. generalize l. intros k. induction k as [|r k IH]; [constructor|]. cbn. constructor; [|exact IH].
    destruct (Hf r) as [->|[n ->]]; [apply saved_as_refl|apply Hs]. }
  destruct (From_ ctx) as [name one] eqn:E. destruct one.
  - rewrite (stamped_one tenant_is ctx name E). intros [= <-]. apply Hm. intros r. right. by exists name.
  - rewrite stamped_across by (by rewrite E). destruct (_ && _); [done|]. intros [= <-]. apply Hm. intros r. case_match; [right; by eexists|by left].
Qed.

(** *** Objects a piece of code leaves alone *)

Section Frame.
Context {A Act D : Type}.
Abbreviation M := (M A Act D).

Class Touches (ps : list pointer) {X} (f : M X) : Prop := touches : forall w q, q ∉ ps -> record_at (f w).2 q = record_at w q.

#[export] Instance Touches_bind ps {X Y} (f : M X) (k : X -> M Y) : Touches ps f -> (forall x, Touches ps (k x)) -> Touches ps (bind f k).
Proof.
  intros Hf Hk w q Hq. specialize (Hf w q Hq). unfold bind. destruct (f w) as [[x|err] w']; cbn in *; [|done]. by rewrite (Hk x w' q Hq).
Qed.
Lemma Touches_each ps {X} (l : list X) (f : X -> M unit) : (forall x, x ∈ l -> Touches ps (f x)) -> Touches ps (each l f).
Proof.
  induction l as [|x l IH]; intros Hl; cbn; [by intros w q|]. apply Touches_bind; [apply Hl; constructor|]. intros _. apply IH. intros y Hy. apply Hl. by constructor.
Qed.
Lemma Touches_change ps f p : p ∈ ps -> Touches ps (change f p : M unit).
Proof. intros Hp w q Hq. rewrite change_at. case_decide; [by subst|done]. Qed.
#[export] Instance Touches_gets ps {X} (f : world A Act -> X) : Touches ps (gets f : M X).
Proof. by intros w q. Qed.
#[export] Instance Touches_ret ps {X} (x : X) : Touches ps (ret x : M X).
Proof. by intros w q. Qed.
#[export] Instance Touches_throw ps {X} (err : error D) : Touches ps (throw err : M X).
Proof. by intros w q. Qed.
#[export] Instance Touches_if ps {X} (b : bool) (f g : M X) : Touches ps f -> Touches ps g -> Touches ps (if b then f else g).
Proof. by destruct b. Qed.
#[export] Instance Touches_statement ps {X} (f : nat -> table A -> result D (table A * X)) : Touches ps (statement f : M X).
Proof. intros w q _. unfold statement. by destruct (f _ _) as [[]|]. Qed.
#[export] Instance Touches_read ps {X} (f : nat -> table A -> result D X) : Touches ps (read f : M X).
Proof. intros w q _. unfold read. by destruct (f _ _). Qed.
End Frame.

Section Frames.
Context {A C D Act : Type} `{!ColumnValues A}.
Abbreviation M := (M A Act D).
Context (s : merging A C D) (m : model A Act D) (ctx : option context) (tenantColumn : bool) (PrimaryFields : list string).
Context (uniqueIndexes : result D (list Index)) (key_in : KeyIn A -> C).

#[export] Instance Touches_resolve ps : Touches ps (resolve_indexes uniqueIndexes : M (list Index)).
Proof. unfold resolve_indexes. destruct uniqueIndexes; apply _. Qed.

#[export] Instance Touches_refuse ps batch : Touches ps (refuseForeignTenantRows s m ctx tenantColumn PrimaryFields uniqueIndexes key_in batch : M unit).
Proof.
  assert (forall acting held, Touches ps (check_owners acting held : M unit)) as Hc by (intros acting held; induction held; cbn; apply _).
  unfold refuseForeignTenantRows. destruct (From_ ctx). apply _.
Qed.

#[export] Instance Touches_save c now batch : Touches batch (save_batch s m c now batch : M unit).
Proof.
  unfold save_batch. apply Touches_bind; [apply _|]. intros records. apply Touches_bind.
  { unfold conflict_clause, versionBumpingConflict. destruct (versionColumn m); [|apply _]. apply Touches_bind; [|intros; apply _].
    apply Touches_bind; [apply _|]. intros [[]|]; apply _. }
  intros pre. apply Touches_bind; [apply _|]. intros l. apply Touches_each. intros [p r] Hp. apply Touches_change.
  by eapply elem_of_zip_l.
Qed.

Lemma Touches_candidates ps candidates current synced : candidates ⊆ ps -> Touches ps (sync_candidates candidates current synced : M (gset string)).
Proof.
  revert synced. induction candidates as [|p l IH]; intros synced Hl; cbn; [apply _|]. apply Touches_bind; [apply _|]. intros i.
  apply Touches_bind; [apply Touches_change, Hl; constructor|]. intros _. apply IH. intros q Hq. apply Hl. by constructor.
Qed.

Lemma Touches_rows ps index byKey persisted synced : (forall k l, byKey !! k = Some l -> l ⊆ ps) -> Touches ps (sync_rows m index byKey persisted synced : M (gset string)).
Proof.
  intros Hk. revert synced. induction persisted as [|r l IH]; intros synced; cbn; [apply _|]. destruct (uniqueIndexValues _ _ _); [|apply IH].
  apply Touches_bind; [|intros; apply IH]. apply Touches_candidates. destruct (byKey !! _) eqn:E; [by eapply Hk|]. apply list_subseteq_nil.
Qed.

Lemma candidates_of index record synced ps batch (st : gmap string (list pointer) * list (list (datum A))) :
  batch ⊆ ps -> (forall k l, st.1 !! k = Some l -> l ⊆ ps) ->
  forall k l, (fold_left (add_candidate m index record synced) batch st).1 !! k = Some l -> l ⊆ ps.
Proof.
  revert st. induction batch as [|p batch IH]; intros st Hb Hst; [done|]. cbn. apply IH; [intros q Hq; apply Hb; by constructor|].
  intros k l. unfold add_candidate. destruct st as [byKey keys]. cbn in Hst. destruct (bool_decide _); [apply Hst|]. destruct (uniqueIndexValues _ _ _) as [v|]; [|apply Hst].
  cbn. rewrite lookup_insert_Some. intros [[<- <-]|[_ H]]; [|by eapply Hst]. intros q [Hq|Hq]%elem_of_app.
  - destruct (byKey !! _) eqn:E; cbn in Hq; [by eapply Hst|by apply elem_of_nil in Hq].
  - apply list_elem_of_singleton in Hq as ->. apply Hb. constructor.
Qed.

#[export] Instance Touches_sync batch : Touches batch (syncSaveResultsByUniqueIndexes s m uniqueIndexes key_in batch : M unit).
Proof.
  unfold syncSaveResultsByUniqueIndexes. apply Touches_if; [apply _|]. apply Touches_bind; [apply _|]. intros indexes. apply Touches_if; [apply _|].
  generalize (∅ : gset string). induction indexes as [|index indexes IH]; intros synced; cbn [sync_indexes]; [apply _|]. apply Touches_bind; [apply _|]. intros record.
  pose proof (candidates_of index record synced batch batch (∅, [])) as Hc. destruct (fold_left _ _ _) as [byKey keys].
  apply Touches_if; [apply IH|]. apply Touches_bind; [apply _|]. intros persisted. apply Touches_bind; [|intros; apply IH].
  apply Touches_rows, Hc; [done|]. intros k l. cbn. by rewrite lookup_empty.
Qed.

#[export] Instance Touches_batch c now batch :
  Touches batch (upsert_batch s m ctx tenantColumn PrimaryFields uniqueIndexes key_in c now batch : M unit).
Proof. unfold upsert_batch. apply _. Qed.
End Frames.

(** ** Upsert keeps what rows were created with *)

Section Upsert.
Context {A C D Act : Type} `{!TenantValues A} `{!ColumnValues A}.
Abbreviation M := (M A Act D).
Context (holds : C -> record_ A -> bool) (same : datum A -> datum A -> bool) (any_key : bool).
Context (defaults : gmap string (cell A)) (default_version : Z) (refreshed : string -> Z -> cell A) (expansion : list string -> conflict).
Context (m : model A Act D) (indexes : list Index) (key_in : KeyIn A -> C).
Context (base : merging A C D).
Local Abbreviation laws := (Merging holds same any_key defaults default_version refreshed expansion (versionColumn m) indexes key_in base).
Context {Hbase : laws}.
Context (e : engine A C D) (clock : nat -> Z) (uuid : nat -> string) (perform : Act -> nat -> table A -> option D * table A).
Context (ctx : option context) (tenantColumn : bool) (PrimaryFields AutoUpdateTime : list string) (uniqueIndexes : result D (list Index)).
Context (Hv : version_own (versionColumn m)).

Local Abbreviation merges_ := (merges same any_key defaults default_version refreshed (versionColumn m) indexes).
Local Abbreviation advanced_ := (advanced (A := A) (versionColumn m)).

(** The statements of the model, scoped or not: the rows they leave in the
    objects are those they insert or merge. *)
Class Saving (s : merging A C D) : Prop := {
  saving n l columns now pre t t' l' : save s n l columns now pre t = Ok (t', l') ->
    Forall2 saved_as l l' /\ merges_ (default (expansion columns) pre) columns now l' t t';
  expanding n l columns now assignments : conflict_update s n l columns now = Ok (Some assignments) -> assignments = expansion columns }.

#[export] Instance saving_base : Saving base.
Proof.
  split; [|intros n l columns now; by eapply conflict_expands]. intros n l columns now pre t t' l' H. eapply save_merges in H as [-> H]; [split; [|exact H]|exact Hbase].
  clear H. induction l; constructor; [apply saved_as_refl|done].
Qed.

#[export] Instance saving_scoped tenant_is refused : Saving (scoped_merging tenant_is refused ctx base).
Proof.
  split; cbn; unfold unless_refused.
  - intros n l columns now pre t t' l'. destruct (stamped _ _ _) as [l0|] eqn:E; [|done]. intros [H1 H2]%saving. split; [|exact H2].
    apply saved_as_stamped in E. clear H2. revert l' H1. induction E as [|o1 o2 l1 l2 H12 E IH]; intros l' H; inversion H; subst; constructor; [by eapply saved_as_trans|by apply IH].
  - intros n l columns now assignments. destruct (stamped _ _ _) as [l0|]; [|done]. apply expanding.
Qed.

Context (s : merging A C D) `{!Saving s}.

Lemma read_ok {X} (f : nat -> table A -> result D X) (w : world A Act) x w' : read f w = (Ok x, w') -> w' = tick w /\ f (statements w) (rows w) = Ok x.
Proof. unfold read. destruct (f _ _); [|done]. by intros [= <- <-]. Qed.

Local Abbreviation clause_of c := (match versionColumn m with Some _ => Some (conflict_of expansion (versionColumn m) (selectColumns c)) | None => None end).

Lemma conflict_clause_ok (c : chain C D) now records (w : world A Act) x w' : conflict_clause s m c now records w = (Ok x, w') -> x = clause_of c.
Proof.
  unfold conflict_clause, conflict_of. destruct (versionColumn m) as [column|]; [|by intros [= <- _]].
  unfold versionBumpingConflict, bind, gets. cbn. destruct (conflict_update _ _ _ _ _) as [[l|]|err] eqn:E; cbn; intros [= <- _].
  by apply expanding in E as ->.
Qed.

(** A batch is saved with the conflict update of the model. *)
Lemma save_batch_effect c now batch (w w' : world A Act) : (save_batch s m c now batch w).2 = w' ->
  rows w' = rows w \/
  exists n l t, save s n (map (record_at w) batch) (selectColumns c) now (clause_of c) (rows w) = Ok (t, l) /\ rows w' = t.
Proof.
  unfold save_batch. set (records := map (record_at w) batch). rewrite (bind_ok _ _ w records w) by done.
  pose proof (Local_clause s m c now records w) as (Er & _). pose proof (conflict_clause_ok c now records w) as Ex.
  unfold bind at 1. destruct (conflict_clause s m c now records w) as [[o|err] w1]; [|intros <-; by left]. cbn [snd] in Er. rewrite (Ex o w1 eq_refl).
  unfold bind, statement. rewrite Er. destruct (save _ _ _ _ _ _ _) as [[t l]|err] eqn:E; cbn; [|intros <-; by left]. intros <-. right.
  exists (statements w1), l, t. split; [done|].
  match goal with |- context [each ?l ?f ?w0] => assert (Local_ (each l f)) as Hl by (apply Local_each; intros [p r]; apply _); exact (proj1 (Hl w0)) end.
Qed.

Lemma save_batch_advances c now batch (w : world A Act) : advanced_ (rows w) (rows (save_batch s m c now batch w).2).
Proof.
  destruct (save_batch_effect c now batch w _ eq_refl) as [->|(n & l & t & E & ->)]; [apply advanced_refl|].
  apply saving in E as [_ E]. rewrite default_conflict in E. eapply merges_advances; [exact Hbase|exact Hv|exact E].
Qed.

Lemma save_batch_ok c now batch (w : world A Act) : (save_batch s m c now batch w).1 = Ok tt ->
  exists l, Forall2 (fun p r => saved_as (record_at w p) r) batch l /\
    merges_ (conflict_of expansion (versionColumn m) (selectColumns c)) (selectColumns c) now l (rows w) (rows (save_batch s m c now batch w).2).
Proof.
  intros H. unfold save_batch in *. apply bind_inv in H as (records & w0 & E & Eq & H). rewrite Eq. clear Eq. injection E as <- <-.
  apply bind_inv in H as (pre & w1 & E & Eq & H). rewrite Eq. clear Eq. pose proof (Local_clause s m c now (map (record_at w) batch) w) as (Er & _).
  rewrite E in Er. cbn in Er. apply conflict_clause_ok in E as ->.
  apply bind_inv in H as (l & w2 & E & Eq & H). rewrite Eq. clear Eq. unfold statement in E. destruct (save _ _ _ _ _ _ _) as [[t l0]|] eqn:Es; [|done].
  injection E as -> <-. apply saving in Es as [H1 H2]. rewrite default_conflict, Er in H2. exists l. split.
  - clear -H1. revert l H1. induction batch as [|p batch IH]; intros l H; inversion H; subst; constructor; auto.
  - match goal with |- context [each ?l ?f ?w0] => assert (Local_ (each l f)) as Hl by (apply Local_each; intros [p r]; apply _); rewrite (proj1 (Hl w0)) end. exact H2.
Qed.

Lemma merges_app columns now l1 l2 t t1 t2 : merges_ (conflict_of expansion (versionColumn m) columns) columns now l1 t t1 ->
  merges_ (conflict_of expansion (versionColumn m) columns) columns now l2 t1 t2 ->
  merges_ (conflict_of expansion (versionColumn m) columns) columns now (l1 ++ l2) t t2.
Proof. induction 1; intros H2; cbn; [done|by eapply merges_insert; eauto|by eapply merges_update; eauto]. Qed.

(** Code that leaves the rows there were. *)
Class Advances {X} (f : M X) : Prop := advances : forall w, advanced_ (rows w) (rows (f w).2).

#[local] Instance Advances_local {X} (f : M X) : Local_ f -> Advances f | 10.
Proof. intros H w. rewrite (proj1 (H w)). apply advanced_refl. Qed.
#[local] Instance Advances_bind {X Y} (f : M X) (k : X -> M Y) : Advances f -> (forall x, Advances (k x)) -> Advances (bind f k).
Proof.
  intros Hf Hk w. specialize (Hf w). unfold bind. destruct (f w) as [[x|err] w']; cbn in *; [|done]. by eapply advanced_trans, Hk.
Qed.
#[local] Instance Advances_each {X} (l : list X) (f : X -> M unit) : (forall x, Advances (f x)) -> Advances (each l f).
Proof. intros H. induction l; cbn; apply _. Qed.
#[local] Instance Advances_save c now batch : Advances (save_batch s m c now batch).
Proof. intros w. apply save_batch_advances. Qed.

Local Abbreviation write_ := (upsert_write s clock uuid m ctx tenantColumn PrimaryFields uniqueIndexes key_in).

#[local] Instance Quiet_write c objs : Quiet (write_ c objs).
Proof.
  unfold upsert_write, upsert_batch, save_batch. apply Quiet_bind; [apply _|]. intros now. apply Quiet_each. intros batch.
  apply Quiet_bind; [apply _|]. intros _. apply Quiet_bind; [|intros; apply _].
  apply Quiet_bind; [apply _|]. intros records. apply Quiet_bind; [apply _|]. intros pre.
  apply Quiet_bind; [apply _|]. intros left_. apply Quiet_local, Local_each. intros [p r]. apply _.
Qed.

(** The loop over batches of distinct objects saves them all. *)
Lemma batches_saved c now bs (w : world A Act) : NoDup (concat bs) ->
  (each bs (upsert_batch s m ctx tenantColumn PrimaryFields uniqueIndexes key_in c now) w).1 = Ok tt ->
  exists l, Forall2 (fun p r => saved_as (record_at w p) r) (concat bs) l /\
    merges_ (conflict_of expansion (versionColumn m) (selectColumns c)) (selectColumns c) now l (rows w)
      (rows (each bs (upsert_batch s m ctx tenantColumn PrimaryFields uniqueIndexes key_in c now) w).2).
Proof.
  revert w. induction bs as [|b bs IH]; intros w Hn H; [exists []; split; constructor|]. cbn [each concat] in *.
  apply NoDup_app in Hn as (_ & Hd & Hn). apply bind_inv in H as ([] & w1 & E & Eq & H). rewrite Eq. clear Eq.
  destruct (IH w1 Hn H) as (l2 & F2 & M2). pose proof (Touches_batch s m ctx tenantColumn PrimaryFields uniqueIndexes key_in c now b w) as Ht. rewrite E in Ht. cbn in Ht.
  unfold upsert_batch in E. unfold bind at 1 in E. destruct (refuseForeignTenantRows _ _ _ _ _ _ _ b w) as [[[]|err] w2] eqn:Er; [|done].
  pose proof (Local_refuse s m ctx tenantColumn PrimaryFields uniqueIndexes key_in b w) as (Hr & _). rewrite Er in Hr. cbn in Hr.
  assert (forall q, record_at w2 q = record_at w q) as Hrec.
  { intros q. pose proof (Touches_refuse s m ctx tenantColumn PrimaryFields uniqueIndexes key_in [] b w q) as Hq. rewrite Er in Hq. apply Hq, not_elem_of_nil. }
  unfold bind at 1 in E. destruct (save_batch s m c now b w2) as [[[]|err] w3] eqn:Es; [|done].
  destruct (save_batch_ok c now b w2) as (l1 & F1 & M1); [by rewrite Es|]. rewrite Es, Hr in M1. cbn in M1.
  pose proof (Local_sync s m uniqueIndexes key_in b w3) as (Hs & _). rewrite E in Hs. cbn in Hs. rewrite Hs in *.
  exists (l1 ++ l2). split; [|by eapply merges_app]. apply Forall2_app.
  - eapply Forall2_impl; [exact F1|]. intros p r. cbn. by rewrite Hrec.
  - clear -F2 Ht Hd. induction F2 as [|p r l l' Hp F IH]; constructor.
    + rewrite <- (Ht p); [done|]. intros Hin. apply (Hd p Hin). constructor.
    + apply IH. intros x Hx Hx'. apply (Hd x Hx). by constructor.
Qed.

Lemma write_saved c objs (w : world A Act) : NoDup objs -> (write_ c objs w).1 = Ok tt ->
  exists now l, Forall2 (fun p r => saved_as (record_at w p) r) objs l /\
    merges_ (conflict_of expansion (versionColumn m) (selectColumns c)) (selectColumns c) now l (rows w) (rows (write_ c objs w).2).
Proof.
  intros Hn H. unfold upsert_write in *. apply bind_inv in H as (now & w1 & E & Eq & H). rewrite Eq. clear Eq. exists now.
  pose proof (Local_fill clock uuid m objs w) as (Er & _). rewrite E in Er. cbn in Er.
  destruct (batches_concat (batch_size defaultBatchSize c) objs) as [Hc _]; [by apply batch_size_pos|].
  destruct (batches_saved c now (batches (batch_size defaultBatchSize c) objs) w1) as (l & F & Hm); [by rewrite Hc|done|]. rewrite Hc, Er in *.
  exists l. split; [|exact Hm]. eapply Forall2_impl; [exact F|]. intros p r Hp. eapply saved_as_trans; [|exact Hp].
  pose proof (saved_as_filled clock uuid m objs (record_at w p) w p (saved_as_refl _)) as Hs. by rewrite E in Hs.
Qed.

Lemma Advances_write c objs : Advances (write_ c objs).
Proof. unfold upsert_write, upsert_batch. apply _. Qed.

Local Abbreviation Upsert_ := (Upsert e s clock uuid perform m ctx tenantColumn PrimaryFields AutoUpdateTime uniqueIndexes key_in).

(** Upsert up to its transaction, which changes no row. *)
Lemma Upsert_cases c objs (w : world A Act) : boundary w = None ->
  (rows (Upsert_ c objs w).2 = rows w /\ (Upsert_ c objs w).1 <> Ok tt) \/ (compactModels objs = [] /\ rows (Upsert_ c objs w).2 = rows w) \/
  exists c' w1, selectColumns c' = selectColumns c /\ batchSize c' = batchSize c /\ rows w1 = rows w /\ boundary w1 = None /\
    caller c' = caller c /\
    (forall q, ID (record_at w1 q) = ID (record_at w q) /\ DeletedAt (record_at w1 q) = DeletedAt (record_at w q) /\ Fields (record_at w1 q) = Fields (record_at w q)) /\
    Upsert_ c objs w = withWriteTransaction e perform (write_ (upsert_columns AutoUpdateTime c') (compactModels objs)) w1.
Proof.
  intros Ew. unfold Upsert, refuse_read_options. destruct (includeDeleted c); [by left|]. destruct (replicaRead c); [by left|].
  rewrite (bind_ok _ _ w tt w) by done. cbv zeta. destruct (bool_decide _) eqn:E; [right; left; by boolify|]. unfold prepare.
  destruct (defect c); [by left|]. destruct (opened c); [|by left]. right. right. cbn [negb].
  set (c' := match enablePurge c with Some _ => c | None => _ end). rewrite (bind_ok _ _ w c' w) by done.
  match goal with |- context [when ?b ?f] => assert (Local_ (when b f)) as Hl by apply _; assert (exists w1, when b f w = (Ok tt, w1) /\ forall q, ID (record_at w1 q) = ID (record_at w q) /\ DeletedAt (record_at w1 q) = DeletedAt (record_at w q) /\ Fields (record_at w1 q) = Fields (record_at w q)) as (w1 & E1 & Eid) end.
  { unfold when. destruct (negb _); [|by exists w]. generalize (compactModels objs) w. intros l. induction l as [|p l IH]; intros w0; [by exists w0|]. cbn.
    match goal with |- context [each l ?f ?w'] => destruct (IH w') as (w1 & E1 & Eid); exists w1; split; [exact E1|]; intros q; destruct (Eid q) as (-> & -> & ->) end.
    pose proof (change_at (D := D) (SetUpdatedBy (caller c')) p (change (D := D) (SetCreatedBy (caller c')) p w0).2 q) as E2.
    split; [etransitivity; [exact (f_equal ID E2)|]|split; [etransitivity; [exact (f_equal DeletedAt E2)|]|etransitivity; [exact (f_equal Fields E2)|]]];
      rewrite !change_at; repeat case_decide; by subst. }
  exists c', w1. specialize (Hl w). rewrite E1 in Hl. cbn in Hl. destruct Hl as (F1 & F2 & _). rewrite (bind_ok _ _ w tt w1) by exact E1.
  unfold c'. split; [by destruct (enablePurge c)|]. split; [by destruct (enablePurge c)|]. split; [exact F1|]. split; [by rewrite F2|]. split; [by destruct (enablePurge c)|]. by split.
Qed.

Lemma Upsert_advances c objs (w : world A Act) : boundary w = None -> advanced_ (rows w) (rows (Upsert_ c objs w).2).
Proof.
  intros Ew. destruct (Upsert_cases c objs w Ew) as [[-> _]|[[_ ->]|(c' & w1 & _ & _ & Er & Eb & _ & _ & ->)]]; [apply advanced_refl..|].
  destruct (write_effect e perform false _ w1 (Quiet_write (upsert_columns AutoUpdateTime c') (compactModels objs)) Eb) as (w2 & _ & E2 & _ & _ & [->| ->] & _).
  - rewrite Er. apply advanced_refl.
  - rewrite <- Er, <- E2. apply Advances_write.
Qed.

(** What a successful call does to the table: each of its objects, in order,
    is inserted or merged into a row it collides with. *)
Lemma Upsert_saves c objs (w : world A Act) : boundary w = None -> NoDup (compactModels objs) -> (Upsert_ c objs w).1 = Ok tt ->
  let columns := selectColumns (upsert_columns AutoUpdateTime c) in
  exists now l, Forall2 (fun p r => saved_as (record_at w p) r) (compactModels objs) l /\
    merges_ (conflict_of expansion (versionColumn m) columns) columns now l (rows w) (rows (Upsert_ c objs w).2).
Proof.
  intros Ew Hn H. cbv zeta. destruct (Upsert_cases c objs w Ew) as [[_ Hne]|[[El ->]|(c' & w1 & Ec & _ & Er & Eb & Ecl & Eid & E)]]; [done| |].
  { exists 0, []. rewrite El. split; constructor. }
  rewrite E in H |- *. clear E. assert (selectColumns (upsert_columns AutoUpdateTime c') = selectColumns (upsert_columns AutoUpdateTime c)) as <-.
  { unfold upsert_columns. rewrite Ec, Ecl. by destruct (bool_decide _). }
  destruct (write_effect e perform false _ w1 (Quiet_write (upsert_columns AutoUpdateTime c') (compactModels objs)) Eb) as (w2 & Eh & E2 & _ & _ & _ & Hok).
  destruct (Hok H) as (Hf & -> & _). destruct (write_saved _ _ w2 Hn Hf) as (now & l & F & Hm). rewrite E2, Er in Hm. exists now, l. split; [|exact Hm].
  eapply Forall2_impl; [exact F|]. intros p r. cbn. assert (record_at w2 p = record_at w1 p) as -> by (unfold record_at, at_; by rewrite Eh).
  intros (I & Ed & Fs). destruct (Eid p) as (E1 & E3 & E4). rewrite E1, E3, E4 in *. by split.
Qed.

(** C21: an upsert called outside a transaction takes effect as a whole.  Where
    it fails, no batch of it is in the table and no transaction is left open;
    where it succeeds over distinct objects, every one of them is, in order,
    inserted or merged into a row it shares a key with, as a record of its id,
    its mark of deletion and its columns.  And it leaves each row there was:
    with its id, its creator, its creation time and its tenant, whatever the
    objects and the columns selected say, and either as it was or, on a
    versioned model, of a later version than it had, even where it was written
    over an object of an older one. *)
Theorem Upsert_keeps_rows c objs (w : world A Act) (Hw : boundary w = None) :
  let d := Upsert_ c objs w in
  outcome w d.1 d.2 /\
  (d.1 = Ok tt -> NoDup (compactModels objs) ->
    let columns := selectColumns (upsert_columns AutoUpdateTime c) in
    exists now records, Forall2 (fun p r => saved_as (record_at w p) r) (compactModels objs) records /\
      merges_ (conflict_of expansion (versionColumn m) columns) columns now records (rows w) (rows d.2)) /\
  advanced_ (rows w) (rows d.2).
Proof. split; [by apply whole_Upsert|]. split; [intros; by apply Upsert_saves|by apply Upsert_advances]. Qed.
End Upsert.

(** ** Upsert stays within a tenant *)

Section Tenant.
Context {A C D Act : Type} `{!TenantValues A} `{!ColumnValues A}.
Abbreviation M := (M A Act D).
Context (holds : C -> record_ A -> bool) (same : datum A -> datum A -> bool) (any_key : bool).
Context (defaults : gmap string (cell A)) (default_version : Z) (refreshed : string -> Z -> cell A) (expansion : list string -> conflict).
Context (m : model A Act D) (indexes : list Index) (key_in : KeyIn A -> C) (tenant_is : string -> C) (refused : refusal -> D).
Context (base : merging A C D).
Context {Hbase : Merging holds same any_key defaults default_version refreshed expansion (versionColumn m) indexes key_in base}.
Context (e : engine A C D) (clock : nat -> Z) (uuid : nat -> string) (perform : Act -> nat -> table A -> option D * table A).
Context (ctx : option context) (a : string) (Hone : acts_in ctx a) (AutoUpdateTime : list string).
Context (Hv : version_own (versionColumn m)).
(** The database finds a text equal to itself, and a tenant to the tenant of
    no row but its own. *)
Context (Htext : forall x, same (Text x) (Text x) = true).
Context (Htenant : forall r, same (Cell (Value (of_ID a))) (ValueOf (versionColumn m) tenant_id r) = true -> GetTenantID r = a).

Local Abbreviation s := (scoped_merging tenant_is refused ctx base).
Local Abbreviation refuse := (refuseForeignTenantRows s m ctx true ["id"%string] (Ok indexes) key_in).
Local Abbreviation batch_ := (upsert_batch s m ctx true ["id"%string] (Ok indexes) key_in).

(** No row of another tenant has an empty id. *)
Definition named_rows (t : table A) : Prop := forall i r, others a t !! i = Some r -> ID r <> ""%string.

Lemma check_owners_ok held (w w' : world A Act) : check_owners (D := D) a held w = (Ok tt, w') -> w' = w /\ Forall (fun owner => owner = a) held.
Proof.
  induction held as [|owner held IH]; cbn; [intros [= <-]; by split|]. destruct (String.eqb_spec owner a) as [->|]; [|done]. cbn.
  intros H. destruct (IH H) as [-> Hl]. by split; [|constructor].
Qed.

(** Past the check, no row of another tenant has a key of the batch. *)
Lemma no_foreign_key batch (w w' : world A Act) : refuse batch w = (Ok tt, w') -> heap w' = heap w /\ rows w' = rows w /\
  forall i r, others a (rows w) !! i = Some r ->
    existsb (fun c => holds c r) (key_conditions m ["id"%string] key_in indexes (map (record_at w) batch)) = false.
Proof.
  unfold refuseForeignTenantRows. cbn [negb]. rewrite Hone. cbn [negb]. set (conds := key_conditions _ _ _ _ _).
  rewrite (bind_ok _ _ w indexes w) by done. rewrite (bind_ok _ _ w (map (record_at w) batch) w) by done. cbv zeta. fold conds.
  destruct (bool_decide (length conds = 0%nat)) eqn:E; boolify.
  - intros [= <-]. split; [done|]. split; [done|]. intros i r _. by apply nil_length_inv in E as ->.
  - unfold bind at 1. destruct (read _ w) as [[held|err] w1] eqn:Er; [|done]. apply read_ok in Er as [-> Hh]. cbn in Hh.
    intros [-> Hall]%check_owners_ok. split; [done|]. split; [done|]. intros i r Hr. apply not_true_is_false. intros Hc.
    apply others_lookup in Hr as [Hr Hn]. apply Hn. rewrite Forall_forall in Hall. apply Hall. eapply Pluck_answers; [exact Hbase|exact Hh|exact Hr|exact Hc].
Qed.

(** Keys that are read. *)
Lemma primary_read l o r : o ∈ l -> ID o = ID r -> ID o <> ""%string -> existsb (fun c => holds c r) (key_conditions m ["id"%string] key_in indexes l) = true.
Proof.
  intros Ho Hid Hne. unfold key_conditions. rewrite existsb_app. apply orb_true_iff. left.
  assert ([Text (ID o)] ∈ primaryKeys m ["id"%string] l) as Hk.
  { unfold primaryKeys. apply list_elem_of_filter. cbn. apply String.eqb_neq in Hne. rewrite Hne. split; [done|].
    apply list_elem_of_fmap. by exists o. }
  destruct (bool_decide _) eqn:E; boolify.
  - apply nil_length_inv in E. rewrite E in Hk. by apply elem_of_nil in Hk.
  - cbn. rewrite orb_false_r. erewrite key_in_holds by exact Hbase. unfold in_key. cbn. apply existsb_exists. exists [Text (ID o)].
    split; [by apply list_elem_of_In|]. unfold has_key. cbn. by rewrite Hid, Htext.
Qed.

Lemma index_read l o r index key : o ∈ l -> index ∈ indexes -> uniqueIndexValues (versionColumn m) index o = Some key ->
  has_key same (versionColumn m) (indexColumns index) key r = true ->
  existsb (fun c => holds c r) (key_conditions m ["id"%string] key_in indexes l) = true.
Proof.
  intros Ho Hi Hkey Hr. unfold key_conditions. rewrite existsb_app. apply orb_true_iff. right.
  assert (key ∈ indexKeys m index l) as Hk by (apply list_elem_of_omap; by exists o).
  apply existsb_exists. exists (key_in (keyIn (indexColumns index) (indexKeys m index l))). split.
  - apply in_flat_map. exists index. split; [by apply list_elem_of_In|]. cbv zeta. destruct (bool_decide _) eqn:E; boolify; [|by left].
    apply nil_length_inv in E. rewrite E in Hk. by apply elem_of_nil in Hk.
  - erewrite key_in_holds by exact Hbase. unfold in_key. cbn. apply existsb_exists. exists key. by split; [apply list_elem_of_In|].
Qed.

(** Stamping changes no column but the tenant's. *)
Lemma ValueOf_stamped column (o : record_ A) : column <> tenant_id ->
  ValueOf (versionColumn m) column (SetTenantID a o) = ValueOf (versionColumn m) column o.
Proof. intros H. unfold ValueOf. cbn. by rewrite lookup_insert_ne by done. Qed.

Lemma ValueOf_tenant (o : record_ A) : ValueOf (versionColumn m) tenant_id (SetTenantID a o) = Cell (Value (of_ID a)).
Proof.
  unfold ValueOf. cbn. rewrite bool_decide_eq_false_2; [by rewrite lookup_insert_eq|]. intros E. apply (Hv tenant_id (eq_sym E)). by repeat constructor.
Qed.

Lemma inserted_all (o : record_ A) : inserted defaults default_version (versionColumn m) [] o = o.
Proof. unfold inserted, selected. destruct o. cbn. by destruct (versionColumn m). Qed.

Lemma shares_stamped index o r : shares_key same (versionColumn m) index (SetTenantID a o) r ->
  GetTenantID r = a \/ shares_key same (versionColumn m) index o r.
Proof.
  intros (key & Hkey & Hr). destruct (decide (tenant_id ∈ indexColumns index)) as [Hin|Hout].
  - left. apply Htenant. unfold uniqueIndexValues in Hkey. destruct (existsb _ _); [done|]. injection Hkey as <-.
    unfold has_key in Hr. apply andb_prop in Hr as [_ Hr]. rewrite forallb_forall in Hr.
    specialize (Hr (ValueOf (versionColumn m) tenant_id (SetTenantID a o), tenant_id)). cbn in Hr. rewrite <- ValueOf_tenant with (o := o). apply Hr.
    apply list_elem_of_In. clear Hr. induction (indexColumns index) as [|x l IH]; [by apply elem_of_nil in Hin|].
    cbn. apply elem_of_cons in Hin as [<-|Hin]; [constructor|]. constructor. by apply IH.
  - right. exists key. split; [|done]. rewrite <- Hkey. unfold uniqueIndexValues.
    assert (map (fun c => ValueOf (versionColumn m) c (SetTenantID a o)) (indexColumns index) = map (fun c => ValueOf (versionColumn m) c o) (indexColumns index)) as ->; [|done].
    apply map_ext_in. intros c Hc. apply ValueOf_stamped. intros ->. by apply Hout, list_elem_of_In.
Qed.

Lemma batch_within c now batch (w : world A Act) : selectColumns c = [] -> named_rows (rows w) ->
  others a (rows (batch_ c now batch w).2) = others a (rows w).
Proof.
  intros Hsel Hn. unfold upsert_batch. unfold bind at 1. pose proof (Local_refuse s m ctx true ["id"%string] (Ok indexes) key_in batch w) as (El & _).
  destruct (refuse batch w) as [[[]|err] w1] eqn:E; cbn in El; [|by cbn; rewrite El]. apply no_foreign_key in E as (Eh & Er & Hkeys).
  unfold bind. destruct (save_batch s m c now batch w1) as [res w2] eqn:Es.
  assert (others a (rows w2) = others a (rows w)) as Ew2.
  { destruct (save_batch_effect holds same any_key defaults default_version refreshed expansion m indexes key_in base Hv s c now batch w1 w2) as [->|(n & l & t & Hs & ->)];
      [by rewrite Es|by rewrite Er|].
    cbn in Hs. rewrite (stamped_one tenant_is ctx a Hone) in Hs. cbn in Hs. eapply save_merges in Hs as [-> Hm]; [|exact Hbase].
    rewrite default_conflict, Hsel, Er in Hm. assert (map (record_at w1) batch = map (record_at w) batch) as Erec by (unfold record_at, at_; by rewrite Eh).
    rewrite Erec in Hm. eapply (merges_within holds same any_key defaults default_version refreshed expansion (versionColumn m) indexes key_in base Hv); [| |exact Hm].
    - intros o (o0 & -> & _)%list_elem_of_fmap. rewrite inserted_all. apply GetTenantID_set.
    - intros o i r (o0 & -> & Ho)%list_elem_of_fmap Hr. rewrite inserted_all. specialize (Hkeys i r Hr). pose proof (proj2 (proj1 (others_lookup a _ i r) Hr)) as Ht.
      intros [Hid|(_ & index & Hi & Hshare)].
      + rewrite (primary_read _ o0 r Ho Hid) in Hkeys; [done|]. cbn in Hid. rewrite Hid. by eapply Hn.
      + apply shares_stamped in Hshare as [|(key & Hk & Hrk)]; [done|]. by rewrite (index_read _ o0 r index key Ho Hi Hk Hrk) in Hkeys. }
  destruct res as [[]|err]; cbn; [|exact Ew2].
  pose proof (Local_sync s m (Ok indexes) key_in batch w2) as (-> & _). exact Ew2.
Qed.
(** *** The whole call *)

Class Stays {X} (f : M X) : Prop := stays : forall w, named_rows (rows w) -> others a (rows (f w).2) = others a (rows w).

Lemma named_rows_others t t' : others a t' = others a t -> named_rows t -> named_rows t'.
Proof. intros E H i r Hr. rewrite E in Hr. by eapply H. Qed.

#[local] Instance Stays_local {X} (f : M X) : Local_ f -> Stays f | 10.
Proof. intros H w _. by rewrite (proj1 (H w)). Qed.
#[local] Instance Stays_bind {X Y} (f : M X) (k : X -> M Y) : Stays f -> (forall x, Stays (k x)) -> Stays (bind f k).
Proof.
  intros Hf Hk w Hw. specialize (Hf w Hw). unfold bind. destruct (f w) as [[x|err] w']; cbn in *; [|done].
  rewrite (Hk x w'); [done|]. by eapply named_rows_others.
Qed.
#[local] Instance Stays_each {X} (l : list X) (f : X -> M unit) : (forall x, Stays (f x)) -> Stays (each l f).
Proof. intros H. induction l; cbn; apply _. Qed.
#[local] Instance Stays_if {X} (b : bool) (f g : M X) : Stays f -> Stays g -> Stays (if b then f else g).
Proof. by destruct b. Qed.

Context (Hp : contained a perform).

#[local] Instance Stays_boundary f : Stays f -> Stays (withTransactionBoundary e perform f).
Proof.
  intros H w Hw. unfold withTransactionBoundary. destruct (begin_ e _); [done|]. specialize (H (set_boundary (Some []) (tick w)) Hw).
  destruct (f _) as [[x|err] w']; cbn in *; [|done]. destruct (commit e _); cbn; [done|]. by rewrite (proj1 (run_contained a perform Hp _)).
Qed.

Local Abbreviation write_ := (upsert_write s clock uuid m ctx true ["id"%string] (Ok indexes) key_in).
Local Abbreviation Upsert_ := (Upsert e s clock uuid perform m ctx true ["id"%string] AutoUpdateTime (Ok indexes) key_in).

Lemma Stays_write c objs : selectColumns c = [] -> Stays (write_ c objs).
Proof.
  intros Hc. unfold upsert_write. apply Stays_bind; [apply _|]. intros now. apply Stays_each. intros batch w Hw. by apply batch_within.
Qed.

Lemma Stays_Upsert c objs : selectColumns c = [] -> Stays (Upsert_ c objs).
Proof.
  intros Hc. unfold Upsert. apply Stays_bind; [unfold refuse_read_options; apply _|]. intros _. cbv zeta. destruct (bool_decide _); [apply _|].
  intros w Hw. unfold bind at 1. destruct (prepare m c w) as [[c'|err] w1] eqn:E; [|assert (Local_ (prepare m c : M (chain C D))) as Hl by (unfold prepare; apply _); specialize (Hl w); rewrite E in Hl; cbn in *; by rewrite (proj1 Hl)].
  assert (selectColumns c' = [] /\ w1 = w) as [Hc' ->].
  { unfold prepare in E. destruct (defect c); [done|]. destruct (negb (opened c)); [done|]. destruct (enablePurge c); by injection E as <- <-. }
  apply Stays_bind; [apply _| |done]. intros _. unfold upsert_columns. rewrite Hc', bool_decide_eq_true_2 by done.
  unfold withWriteTransaction. apply Stays_bind; [apply _|]. intros joined.
  apply Stays_if; [by apply Stays_write|]. apply Stays_boundary. by apply Stays_write.
Qed.

(** What a call of one batch succeeds over. *)
Lemma write_refuses c objs (w : world A Act) : objs <> [] -> (length objs <= batch_size defaultBatchSize c)%nat -> keyed (rows w) ->
  (write_ c objs w).1 = Ok tt -> forall p, p ∈ objs -> ID (record_at w p) <> ""%string -> others a (rows w) !! ID (record_at w p) = None.
Proof.
  intros Hne Hlen Hk H p Hpo Hid. unfold upsert_write in H. apply bind_inv in H as (now & w1 & E1 & _ & H).
  assert (rows w1 = rows w /\ ID (record_at w1 p) = ID (record_at w p)) as [Er Ei].
  { split; [|pose proof (Keeps_ids clock uuid m objs (ID (record_at w p)) Hid w p eq_refl) as Hf; by rewrite E1 in Hf].
    pose proof (Local_fill clock uuid m objs w) as (Hf & _). by rewrite E1 in Hf. }
  rewrite (batches_one _ _ Hne Hlen) in H. cbn [each] in H. apply bind_inv in H as ([] & w2 & E2 & _ & _).
  unfold upsert_batch, bind at 1 in E2. destruct (refuse objs w1) as [[[]|err] w3] eqn:E; [|done]. apply no_foreign_key in E as (_ & _ & Hkeys).
  rewrite Er, <- Ei in *. destruct (others a (rows w) !! ID (record_at w1 p)) as [r|] eqn:Eo; [|done].
  specialize (Hkeys _ r Eo). apply others_lookup in Eo as [Eo _]. apply Hk in Eo.
  rewrite (primary_read _ (record_at w1 p) r) in Hkeys; [done| |done|]; [by apply list_elem_of_fmap_2|congruence].
Qed.

(** C10: an upsert of a tenant-scoped model in one tenant, every column
    selected, between whose look at the keys and whose insert no other client
    writes (a row another tenant puts under a key in between is merged into,
    as the comment on refuseForeignTenantRows says), leaves the rows of every
    other tenant as they were, however it ends and on every dialect: neither an id nor a value of a unique key, of
    a live row or of a soft deleted one, lets it merge into one.  One of a
    single batch succeeds only where no object of it names the id of such a
    row. *)
Theorem Upsert_stays_in_tenant c objs (w : world A Act) (Hc : selectColumns c = []) (Hn : named_rows (rows w)) :
  others a (rows (Upsert_ c objs w).2) = others a (rows w) /\
  (boundary w = None -> keyed (rows w) -> (length (compactModels objs) <= batch_size defaultBatchSize c)%nat -> (Upsert_ c objs w).1 = Ok tt ->
    forall p, p ∈ compactModels objs -> ID (record_at w p) <> ""%string -> others a (rows w) !! ID (record_at w p) = None).
Proof.
  split; [by apply Stays_Upsert|]. intros Hb Hk Hlen H p Hpo Hid.
  destruct (Upsert_cases m key_in e clock uuid perform ctx true ["id"%string] AutoUpdateTime (Ok indexes) s c objs w Hb)
    as [[_ Hne]|[[E _]|(c' & w1 & Ec & Es & Er & Eb & _ & Eid & E)]]; [done|rewrite E in Hpo; by apply elem_of_nil in Hpo|].
  rewrite E in H. set (f := write_ (upsert_columns AutoUpdateTime c') (compactModels objs)) in H.
  destruct (write_effect e perform false f w1 (Quiet_write m key_in clock uuid ctx true ["id"%string] (Ok indexes) s _ _) Eb) as (w2 & Eh & Er2 & _ & _ & _ & Hok).
  destruct (Hok H) as [Hf _]. assert (forall q, ID (record_at w2 q) = ID (record_at w q)) as Eid2 by (intros q; rewrite <- (proj1 (Eid q)); unfold record_at, at_; by rewrite Eh).
  rewrite <- Eid2, <- Er, <- Er2. assert (upsert_columns AutoUpdateTime c' = c') as Eu by (unfold upsert_columns; by rewrite Ec, Hc).
  assert (compactModels objs <> []) as Hne by (intros E0; rewrite E0 in Hpo; by apply elem_of_nil in Hpo).
  eapply write_refuses; [exact Hne| |by rewrite Er2, Er|exact Hf|exact Hpo|by rewrite Eid2]. rewrite Eu. unfold batch_size. by rewrite Es.
Qed.
End Tenant.
