(* ===== verification/UpsertsSync.v ===== *)
(** * The object an upsert leaves, and upserts of concrete rows

    On MySQL an object can merge into a row of another id than its own; read
    back by its unique keys, it is shown to end with the id of a row.  An
    engine that merges as documented, the theorems of upserts on it, and what
    they leave out. *)

From stdpp Require Import base list gmap strings pretty.
From Stdlib Require Import ZArith Lia.
From S2P Require Import Prelude GoStrings Writes WritesBase WritesSpec WritesLocking Tenants TenantsSpec Upserts UpsertsSpec.
Local Open Scope Z_scope.
Local Open Scope write_scope.

Section Sync.
Context {A C D Act : Type} `{!TenantValues A} `{!ColumnValues A}.
Abbreviation M := (M A Act D).
Context (holds : C -> record_ A -> bool) (same : datum A -> datum A -> bool) (any_key : bool).
Context (defaults : gmap string (cell A)) (default_version : Z) (refreshed : string -> Z -> cell A) (expansion : list string -> conflict).
Context (m : model A Act D) (indexes : list Index) (key_in : KeyIn A -> C).
Context (base : merging A C D).
Context {Hbase : Merging holds same any_key defaults default_version refreshed expansion (versionColumn m) indexes key_in base}.

(** The database finds a value it finds equal to another equal to itself; and
    values it finds equal are spelled alike and are no nulls. *)
Context (same_refl : forall d d', same d d' = true -> same d d = true).
Context (same_spelled : forall d d', same d d' = true -> GoSyntax d = GoSyntax d' /\ isNilValue d' = false).

Local Abbreviation values index r := (uniqueIndexValues (versionColumn m) index r).
Local Abbreviation shares index o r := (shares_key same (versionColumn m) index o r).

(** A row that shares a key has values of its own, spelled alike. *)
Lemma shares_values index o r : shares index o r -> exists k k', values index o = Some k /\ values index r = Some k' /\ uniqueIndexKey k = uniqueIndexKey k'.
Proof.
  intros (key & Hk & Hr). exists key, (map (fun c => ValueOf (versionColumn m) c r) (indexColumns index)). split; [done|].
  unfold has_key in Hr. apply andb_prop in Hr as [Hl Hr]. boolify. unfold uniqueIndexValues.
  assert (Forall2 (fun d d' => same d d' = true) key (map (fun c => ValueOf (versionColumn m) c r) (indexColumns index))) as Hf.
  { clear Hk. revert key Hl Hr. induction (indexColumns index) as [|c l IH]; intros [|d key] Hl Hr; [constructor|done..|].
    cbn in *. apply andb_prop in Hr as [H1 H2]. constructor; [done|]. apply IH; [lia|done]. }
  split.
  - assert (existsb isNilValue (map (fun c => ValueOf (versionColumn m) c r) (indexColumns index)) = false) as ->; [|done].
    clear -Hf same_spelled. induction Hf as [|d d' l l' H Hf IH]; [done|]. cbn. rewrite IH. apply same_spelled in H as [_ ->]. done.
  - unfold uniqueIndexKey. f_equal. clear -Hf same_spelled. induction Hf as [|d d' l l' H Hf IH]; [done|]. cbn. f_equal; [by apply same_spelled|done].
Qed.

Lemma shares_in_key index o r k : values index o = Some k -> shares index o r -> in_key same (versionColumn m) (keyIn (indexColumns index) [k]) r = true.
Proof. intros Hk (key & Hk' & Hr). rewrite Hk in Hk'. injection Hk' as <-. unfold in_key. cbn. by rewrite Hr. Qed.

(** *** One object *)

Context (p : pointer).

Lemma sync_candidates_one current synced (w : world A Act) : exists w',
  sync_candidates (D := D) [p] current synced w = (Ok ({[ID (record_at w p); ID current]} ∪ synced), w') /\
  rows w' = rows w /\ record_at w' p = current.
Proof.
  eexists. split; [reflexivity|]. split; [done|].
  etransitivity; [exact (change_at (D := D) (fun _ => current) p w p)|]. by rewrite decide_True.
Qed.

Lemma sync_rows_one index key persisted synced (w : world A Act) : exists synced' w',
  sync_rows (D := D) m index {[key := [p]]} persisted synced w = (Ok synced', w') /\ rows w' = rows w /\
  ((Forall (fun r => forall k, values index r = Some k -> uniqueIndexKey k <> key) persisted /\ synced' = synced /\ record_at w' p = record_at w p) \/
   record_at w' p ∈ persisted).
Proof.
  revert synced w. induction persisted as [|current persisted IH]; intros synced w; cbn [sync_rows].
  { exists synced, w. split; [done|]. split; [done|]. left. by repeat split. }
  destruct (values index current) as [k|] eqn:Ek.
  - destruct (decide (uniqueIndexKey k = key)) as [->|Hne].
    + rewrite lookup_singleton_eq. cbn [default]. destruct (sync_candidates_one current synced w) as (w1 & E1 & Er & Ep).
      rewrite (bind_ok _ _ _ _ _ E1). destruct (IH ({[ID (record_at w p); ID current]} ∪ synced) w1) as (synced' & w' & E' & Er' & Hor).
      exists synced', w'. split; [exact E'|]. split; [by rewrite Er', Er|]. right. destruct Hor as [(_ & _ & ->)|H]; [rewrite Ep; constructor|by constructor].
    + rewrite lookup_singleton_ne by done. cbn [default]. rewrite (bind_ok _ _ w synced w) by done.
      destruct (IH synced w) as (synced' & w' & E' & Er' & Hor). exists synced', w'. split; [exact E'|]. split; [done|].
      destruct Hor as [(Hf & -> & Ep)|H]; [left; split; [constructor; [|done]; intros k' Hk'; congruence|done]|right; by constructor].
  - destruct (IH synced w) as (synced' & w' & E' & Er' & Hor). exists synced', w'. split; [exact E'|]. split; [done|].
    destruct Hor as [(Hf & -> & Ep)|H]; [left; split; [constructor; [|done]; intros k' Hk'; congruence|done]|right; by constructor].
Qed.

(** The object names a row of the table. *)
Definition names_row (w : world A Act) : Prop := is_Some (rows w !! ID (record_at w p)).

(** It does after the indexes are read, where it did before or where a live
    row shares one of its keys. *)
Lemma sync_indexes_one idxs synced (w w' : world A Act) : keyed (rows w) ->
  (names_row w \/ (ID (record_at w p) ∉ synced /\ exists index i r, index ∈ idxs /\ rows w !! i = Some r /\ live r = true /\ shares index (record_at w p) r)) ->
  sync_indexes base m key_in idxs [p] synced w = (Ok tt, w') -> rows w' = rows w /\ names_row w'.
Proof.
  revert synced w. induction idxs as [|index idxs IH]; intros synced w Hk Hor H.
  { injection H as <-. destruct Hor as [Hn|(_ & index & i & r & Hi & _)]; [done|by apply elem_of_nil in Hi]. }
  cbn [sync_indexes] in H. rewrite (bind_ok _ _ w (record_at w) w) in H by done. cbn [fold_left add_candidate] in H.
  assert (forall w1 synced1, rows w1 = rows w -> record_at w1 p = record_at w p -> synced1 = synced ->
    (values index (record_at w p) = None \/ ID (record_at w p) ∈ synced \/ Forall (fun r => ~ (live r = true /\ shares index (record_at w p) r)) (map snd (map_to_list (rows w)))) ->
    sync_indexes base m key_in idxs [p] synced1 w1 = (Ok tt, w') -> rows w' = rows w /\ names_row w') as Hskip.
  { intros w1 synced1 Er Ep -> Hno H1. rewrite <- Er. eapply IH; [by rewrite Er| |exact H1]. unfold names_row. rewrite Er, Ep.
    destruct Hor as [Hn|(Hs & index' & i & r & Hi & Hr & Hl & Hsh)]; [by left|].
    apply elem_of_cons in Hi as [->|Hi]; [|right; split; [done|]; by exists index', i, r]. exfalso. destruct Hno as [Hv|[?|Hf]]; [destruct Hsh as (k & Hk' & _); congruence|done|].
    rewrite Forall_forall in Hf. apply (Hf r); [|done]. apply list_elem_of_fmap. exists (i, r). split; [done|]. by apply elem_of_map_to_list. }
  destruct (bool_decide (ID (record_at w p) ∈ synced)) eqn:Es; boolify.
  { rewrite bool_decide_eq_true_2 in H by done. apply (Hskip w synced); auto. }
  destruct (values index (record_at w p)) as [k|] eqn:Ek; [|rewrite bool_decide_eq_true_2 in H by done; apply (Hskip w synced); auto].
  rewrite lookup_empty in H. cbn [default] in H. rewrite (bool_decide_eq_false_2 (is_Some (None : option (list pointer)))) in H by (by intros [? ?]). cbn [length app] in H.
  rewrite bool_decide_eq_false_2 in H by done. unfold bind at 1 in H. destruct (read _ w) as [[persisted|err] w1] eqn:Er; [|done]. apply read_ok in Er as [-> Hfind].
  rewrite insert_empty in H. destruct (sync_rows_one index (uniqueIndexKey k) persisted synced (tick w)) as (synced' & w2 & E2 & Er2 & Hor2).
  rewrite (bind_ok _ _ _ _ _ E2) in H. change (rows (tick w)) with (rows w) in Er2. change (record_at (tick w) p) with (record_at w p) in Hor2.
  assert (forall r, r ∈ persisted <-> exists i, rows w !! i = Some r /\ selects holds (mkWhere [] None [key_in (keyIn (indexColumns index) [k])]) false r = true) as Hp
    by (eapply Find_answers; [exact Hbase|exact Hfind]).
  destruct Hor2 as [(Hnone & -> & Ep)|Hin].
  - apply (Hskip w2 synced Er2 Ep eq_refl); [|exact H]. right. right. apply Forall_forall. intros r Hr [Hl Hsh].
    apply list_elem_of_fmap in Hr as ((i & r') & -> & Hr). apply elem_of_map_to_list in Hr. cbn in *.
    destruct (shares_values _ _ _ Hsh) as (k1 & k2 & Hk1 & Hk2 & Heq). rewrite Ek in Hk1. injection Hk1 as <-.
    rewrite Forall_forall in Hnone. apply (Hnone r') with k2; [|done|done]. apply Hp. exists i. split; [done|]. unfold selects. cbn. rewrite Hl. cbn.
    erewrite key_in_holds by exact Hbase. by rewrite (shares_in_key index (record_at w p)).
  - apply Hp in Hin as (i & Hi & _). rewrite <- Er2. eapply IH; [by rewrite Er2| |exact H]. left. unfold names_row. rewrite Er2. rewrite (Hk i _ Hi). by eexists.
Qed.
(** *** The row it was written into *)

Local Abbreviation vc := (versionColumn m).
Local Abbreviation asg := (conflict_of expansion vc []).
Local Abbreviation merged_ now o old := (merged refreshed vc asg now o old).
Context (Hv : version_own vc).
(** The columns of a unique key are written from the object where they are
    written, and so is the mark of deletion. *)
Context (keys_excluded : forall index x, index ∈ indexes -> x ∈ asg -> x.1 ∈ indexColumns index -> x.2 = Excluded).
Context (deleted_excluded : ("deleted_at"%string, Excluded) ∈ asg /\ forall u, ("deleted_at"%string, u) ∈ asg -> u = Excluded).

Lemma assign_value now o r x c : x.1 ∉ create_only -> (x.2 = BumpRow -> Some x.1 = vc) -> (x.1 = c -> x.2 = Excluded) ->
  ValueOf vc c (assign_update refreshed vc now o r x) = ValueOf vc c o \/ ValueOf vc c (assign_update refreshed vc now o r x) = ValueOf vc c r.
Proof.
  intros Hx Hb Hc. destruct x as [d u]. cbn in *. destruct (decide (d = c)) as [->|Hne].
  - rewrite (Hc eq_refl). clear Hb Hc. unfold assign_update, put_column, ValueOf. cbn.
    assert (c <> "id"%string /\ c <> "created_by"%string /\ c <> "created_at"%string) as (H1 & H2 & H3) by (repeat split; intros ->; apply Hx; by repeat constructor).
    apply String.eqb_neq in H1, H2, H3. rewrite H1, H2, H3.
    destruct (c =? "updated_by")%string; [by left|]. destruct (c =? "updated_at")%string; [by left|]. destruct (c =? "deleted_at")%string; [by left|].
    destruct (bool_decide (Some c = vc)); [by left|]. destruct (Fields o !! c) as [v|]; [left; cbn; by rewrite lookup_insert_eq|by right].
  - right. clear Hc. unfold assign_update, put_column. cbn. destruct u.
    + repeat case_match; boolify; subst; try done; unfold ValueOf; cbn; repeat case_match; boolify; subst; try done; try congruence;
        rewrite ?lookup_insert_ne in * by done; congruence.
    + case_match; boolify; subst; unfold ValueOf; cbn; repeat case_match; boolify; subst; try done; rewrite ?lookup_insert_ne in * by done; congruence.
    + specialize (Hb eq_refl). unfold ValueOf. cbn. repeat case_match; boolify; subst; try done; congruence.
Qed.

Lemma asg_update x : x ∈ asg -> x.1 ∉ create_only /\ (x.2 = BumpRow -> Some x.1 = vc).
Proof.
  intros Hx. split; [by eapply conflict_create_only; [exact Hbase|exact Hv|exact Hx]|]. unfold conflict_of in Hx. destruct vc as [column|].
  - apply elem_of_cons in Hx as [->|[_ Hx]%list_elem_of_filter]; [done|]. intros H. by eapply expansion_update in Hx as [_ Hx]; [|exact Hbase].
  - intros H. by eapply expansion_update in Hx as [_ Hx]; [|exact Hbase].
Qed.

Lemma merged_value now o old c : (forall x, x ∈ asg -> x.1 = c -> x.2 = Excluded) ->
  ValueOf vc c (merged_ now o old) = ValueOf vc c o \/ ValueOf vc c (merged_ now o old) = ValueOf vc c old.
Proof.
  intros Hc. unfold merged. pose proof asg_update as Ha. clear keys_excluded deleted_excluded. revert old. induction asg as [|x l IH]; intros old; [by right|]. cbn.
  destruct (IH (fun y Hy => Hc y (list_elem_of_further _ _ _ Hy)) (fun y Hy => Ha y (list_elem_of_further _ _ _ Hy)) (assign_update refreshed vc now o old x)) as [E|E]; [by left|].
  rewrite E. destruct (Ha x ltac:(constructor)) as [H1 H2]. apply assign_value; [done..|]. intros H3. apply (Hc x); [constructor|done].
Qed.

Lemma merged_shares now o old index : index ∈ indexes -> shares index o old -> shares index o (merged_ now o old).
Proof.
  intros Hi (key & Hk & Hr). exists key. split; [done|]. unfold uniqueIndexValues in Hk. destruct (existsb isNilValue _) eqn:En; [done|]. injection Hk as <-.
  unfold has_key in *. apply andb_prop in Hr as [-> Hr]. cbn.
  assert (forall c, c ∈ indexColumns index -> ValueOf vc c (merged_ now o old) = ValueOf vc c o \/ ValueOf vc c (merged_ now o old) = ValueOf vc c old) as Hm.
  { intros c Hc. apply merged_value. intros x Hx <-. by eapply keys_excluded. }
  clear Hi. induction (indexColumns index) as [|c l IH]; [done|]. cbn in *. apply orb_false_iff in En as [En1 En2]. apply andb_prop in Hr as [Hr1 Hr2].
  apply andb_true_iff. split.
  - destruct (Hm c ltac:(constructor)) as [->| ->]; [by eapply same_refl|done].
  - apply IH; [done|done|]. intros d Hd. apply Hm. by constructor.
Qed.

Lemma merged_live now o old : live o = true -> live (merged_ now o old) = true.
Proof.
  unfold live. intros Ho. boolify. apply bool_decide_eq_true_2. destruct deleted_excluded as [Hin Hex]. unfold merged.
  assert (forall l old, (forall u, ("deleted_at"%string, u) ∈ l -> u = Excluded) -> (("deleted_at"%string, Excluded) ∈ l \/ DeletedAt old = None) ->
    DeletedAt (fold_left (assign_update refreshed vc now o) l old) = None) as H; [|apply H; [exact Hex|by left]].
  clear Hin Hex. induction l as [|[c u] l IH]; intros r Hex Hor; [by destruct Hor as [?%elem_of_nil|]|]. cbn.
  apply IH; [intros u' Hu'; apply Hex; by constructor|]. destruct (decide (c = "deleted_at"%string)) as [->|Hne].
  - right. rewrite (Hex u ltac:(constructor)). exact Ho.
  - destruct Hor as [[[= E _]|Hin]%elem_of_cons|Hd]; [by destruct Hne|by left|right].
    unfold assign_update, put_column. destruct u; cbn; repeat case_match; boolify; done.
Qed.

(** A row of the table is what the object is, or shares one of its keys. *)
Lemma merges_names now o t t' : keyed t -> live o = true ->
  merges same any_key defaults default_version refreshed vc indexes asg [] now [o] t t' ->
  keyed t' /\ (is_Some (t' !! ID o) \/ exists index i r, index ∈ indexes /\ t' !! i = Some r /\ live r = true /\ shares index o r).
Proof.
  intros Hk Ho H. inversion H as [|? ? ? ? Hno Hnew H'|? ? i old ? ? Hold Hco H']; subst; inversion H'; subst;
    assert (inserted defaults default_version vc [] o = o) as Eo by (unfold inserted, selected; destruct o; cbn; by destruct vc); rewrite Eo in *.
  - split; [|left; rewrite lookup_insert_eq; by eexists]. intros i r. destruct (decide (i = ID o)) as [->|]; [rewrite lookup_insert_eq; by intros [= <-]|].
    rewrite lookup_insert_ne by done. apply Hk.
  - assert (ID (merged_ now o old) = ID old) as Eid by (eapply (merged_advances holds same any_key defaults default_version refreshed expansion vc indexes key_in base Hv [])).
    split.
    + intros j r. destruct (decide (j = i)) as [->|]; [rewrite lookup_insert_eq; intros [= <-]; rewrite Eid; by apply Hk|].
      rewrite lookup_insert_ne by done. apply Hk.
    + destruct Hco as [E|(_ & index & Hi & Hsh)].
      * left. rewrite E, (Hk i old Hold), lookup_insert_eq. by eexists.
      * right. exists index, i, (merged_ now o old). rewrite lookup_insert_eq. repeat split; [done|by apply merged_live|by apply merged_shares].
Qed.
(** *** The whole call *)

Context (e : engine A C D) (clock : nat -> Z) (uuid : nat -> string) (perform : Act -> nat -> table A -> option D * table A).
Context (ctx : option context) (PrimaryFields AutoUpdateTime : list string).

Lemma clause_reads (c : chain C D) now records (w : world A Act) x w' : conflict_clause base m c now records w = (Ok x, w') -> w' = w.
Proof.
  unfold conflict_clause. destruct vc as [column|]; [|by intros [= _ <-]]. unfold versionBumpingConflict, bind, gets. cbn.
  destruct (conflict_update _ _ _ _ _) as [[l|]|err]; cbn; by intros [= _ <-].
Qed.

Lemma save_one c now (w w' : world A Act) : selectColumns c = [] -> keyed (rows w) -> live (record_at w p) = true ->
  save_batch base m c now [p] w = (Ok tt, w') ->
  record_at w' p = record_at w p /\ keyed (rows w') /\
  (names_row w' \/ exists index i r, index ∈ indexes /\ rows w' !! i = Some r /\ live r = true /\ shares index (record_at w p) r).
Proof.
  intros Hc Hk Hl H. unfold save_batch in H. cbn [map] in H. rewrite (bind_ok _ _ w [record_at w p] w) in H by done.
  unfold bind at 1 in H. destruct (conflict_clause _ _ _ _ _ w) as [[pre|err] w1] eqn:E1; [|done].
  assert (pre = match vc with Some _ => Some (conflict_of expansion vc (selectColumns c)) | None => None end) as ->.
  { eapply conflict_clause_ok; [exact Hbase|exact Hv| |exact E1]. eapply saving_base; exact Hbase. }
  apply clause_reads in E1 as ->. unfold bind, statement in H. destruct (save _ _ _ _ _ _ _) as [[t l]|err] eqn:Es; [|done].
  eapply save_merges in Es as [-> Hm]; [|exact Hbase]. rewrite default_conflict, Hc in Hm. cbn [zip zip_with each] in H.
  assert (w' = (change (D := D) (fun _ => record_at w p) p (tick (set_rows t w))).2) as -> by (unfold change, bind, gets, put, modify, ret in *; cbn in *; by injection H).
  assert (record_at (change (D := D) (fun _ => record_at w p) p (tick (set_rows t w))).2 p = record_at w p) as Ep.
  { etransitivity; [exact (change_at (D := D) (fun _ => record_at w p) p (tick (set_rows t w)) p)|]. by rewrite decide_True. }
  destruct (merges_names now (record_at w p) (rows w) t Hk Hl Hm) as [Hk' Hor]. split; [exact Ep|]. split; [exact Hk'|]. unfold names_row. by rewrite Ep.
Qed.

Local Abbreviation Upsert_ := (Upsert e base clock uuid perform m ctx false PrimaryFields AutoUpdateTime (Ok indexes) key_in).

(** C22: after an upsert of one object that is not marked as deleted, called
    outside a transaction and with every column selected, that succeeds on a
    model whose rows belong to no tenant, the object holds the id of a row of the table,
    whichever unique key the database merged it on and whatever id it was
    given for the insert, where values the database finds equal are spelled
    alike. *)
Theorem Upsert_names_a_row c (w : world A Act) (Hc : selectColumns c = []) (Hb : boundary w = None) (Hk : keyed (rows w))
  (Hl : live (record_at w p) = true) (H : (Upsert_ c [Some p] w).1 = Ok tt) :
  names_row (Upsert_ c [Some p] w).2.
Proof.
  destruct (Upsert_cases m key_in e clock uuid perform ctx false PrimaryFields AutoUpdateTime (Ok indexes) base c [Some p] w Hb)
    as [[_ Hne]|[[E _]|(c' & w1 & Ec & Es & Er & Eb & _ & Ed & E)]]; [by destruct Hne|by cbn in E|]. rewrite E in H |- *. clear E. change (compactModels [Some p]) with [p] in *.
  set (f := upsert_write base clock uuid m ctx false PrimaryFields (Ok indexes) key_in (upsert_columns AutoUpdateTime c') [p]) in *.
  destruct (write_effect e perform false f w1 (Quiet_write m key_in clock uuid ctx false PrimaryFields (Ok indexes) base _ _) Eb) as (w2 & Eh & Er2 & _ & _ & _ & Hok).
  destruct (Hok H) as (Hf & Hrows & Hheap). unfold names_row, record_at, at_. change (if false then withSingleStatementWrite f else withWriteTransaction e perform f)
    with (withWriteTransaction e perform f) in Hrows, Hheap. rewrite Hrows, Hheap. change (names_row (f w2).2).
  assert (upsert_columns AutoUpdateTime c' = c') as Eu by (unfold upsert_columns; by rewrite Ec, Hc).
  assert (live (record_at w2 p) = true) as Hl2.
  { unfold live in *. replace (record_at w2 p) with (record_at w1 p) by (unfold record_at, at_; by rewrite Eh). by rewrite (proj1 (proj2 (Ed p))). }
  assert (keyed (rows w2)) as Hk2 by (by rewrite Er2, Er). unfold f in *. rewrite Eu in *. clear - Hf Hl2 Hk2 Ec Hc Hbase same_refl same_spelled Hv keys_excluded deleted_excluded.
  unfold upsert_write in *. apply bind_inv in Hf as (now & w3 & E3 & -> & Hf).
  assert (keyed (rows w3) /\ live (record_at w3 p) = true) as [Hk3 Hl3].
  { pose proof (Local_fill clock uuid m [p] w2) as (F & _). pose proof (Keeps_deleted clock uuid m [p] _ w2 p eq_refl) as Fd. rewrite E3 in F, Fd. cbn in F, Fd.
    split; [by rewrite F|]. unfold live in *. by rewrite Fd. }
  rewrite (batches_one _ [p]) in * by (done || by apply batch_size_pos). cbn [each] in *.
  apply bind_inv in Hf as ([] & w4 & E4 & -> & _). cbn [snd ret]. unfold upsert_batch in E4.
  rewrite (bind_ok _ _ w3 tt w3) in E4 by done. unfold bind in E4. destruct (save_batch base m c' now [p] w3) as [[[]|err] w5] eqn:E5; [|done].
  destruct (save_one c' now w3 w5) as (Ep & Hk5 & Hor); [by rewrite Ec, Hc|done|done|done|].
  unfold syncSaveResultsByUniqueIndexes in E4. rewrite bool_decide_eq_false_2 in E4 by done. rewrite (bind_ok _ _ w5 indexes w5) in E4 by done.
  destruct (bool_decide (length indexes = 0%nat)) eqn:Ei; boolify.
  - injection E4 as <-. destruct Hor as [H|(index & _ & _ & Hi & _)]; [done|]. apply nil_length_inv in Ei. rewrite Ei in Hi. by apply elem_of_nil in Hi.
  - eapply sync_indexes_one; [exact Hk5| |exact E4]. destruct Hor as [H|H]; [by left|right]. split; [by apply not_elem_of_empty|]. by rewrite Ep.
Qed.
End Sync.

(** * Upserts of concrete rows *)

Local Open Scope Z_scope.

(** ** An engine that does as documented *)

Section Reference.
Context {A D : Type} `{!TenantValues A} `{!ColumnValues A}.

(** Conditions on the tenant and on a key. *)
Inductive condition : Type := TenantIs (a : string) | InKey (k : KeyIn A).

Context (same : datum A -> datum A -> bool) (any_key : bool).
Context (defaults : gmap string (cell A)) (default_version : Z) (refreshed : string -> Z -> cell A) (expansion : list string -> conflict).
Context (versionColumn : option string) (indexes : list Index).
Context (fails : nat -> option D) (duplicated missing : D).

Definition holds_ (c : condition) (r : record_ A) : bool :=
  match c with
  | TenantIs a => bool_decide (GetTenantID r = a)
  | InKey k => in_key same versionColumn k r
  end.

Definition shares_b (o r : record_ A) : bool :=
  existsb (fun index =>
    match uniqueIndexValues versionColumn index o with
    | Some key => has_key same versionColumn (indexColumns index) key r
    | None => false
    end) indexes.

Definition collides_b (o r : record_ A) : bool := (ID o =? ID r)%string || (any_key && shares_b o r).

Fixpoint save_all (assignments : conflict) (columns : list string) (now : Z) (l : list (record_ A)) (t : table A) : result D (table A) :=
  match l with
  | [] => Ok t
  | o :: l =>
      let o' := inserted defaults default_version versionColumn columns o in
      match filter (fun '(_, r) => collides_b o' r = true) (map_to_list t) with
      | (i, old) :: _ => save_all assignments columns now l (<[i := merged refreshed versionColumn assignments now o' old]> t)
      | [] =>
          if bool_decide (t !! ID o = None) && forallb (fun '(_, r) => negb (shares_b o' r)) (map_to_list t)
          then save_all assignments columns now l (<[ID o := o']> t)
          else Err duplicated
      end
  end.

Definition upsert_sql : merging A condition D := mkMerging
  (fun n l columns now => Ok (Some (expansion columns)))
  (fun n l columns now pre t => unless_failing fails n
    match save_all (default (expansion columns) pre) columns now l t with Ok t => Ok (t, l) | Err err => Err err end)
  (fun n conditions t => unless_failing fails n
    (Ok (map (fun '(_, r) => GetTenantID r) (filter (fun '(_, r) => existsb (fun c => holds_ c r) conditions = true) (map_to_list t)))))
  (fun n w t => unless_failing fails n (Ok (map snd (filter (fun '(_, r) => selects holds_ w false r = true) (map_to_list t))))).

Lemma shares_b_ok o r : shares_b o r = true <-> exists index, index ∈ indexes /\ shares_key same versionColumn index o r.
Proof.
  unfold shares_b, shares_key. rewrite existsb_exists. setoid_rewrite <- list_elem_of_In. split.
  - intros (index & Hi & H). destruct (uniqueIndexValues versionColumn index o) as [key|] eqn:E; [|done]. by exists index; split; [|exists key].
  - intros (index & Hi & key & E & H). exists index. by rewrite E.
Qed.

Lemma collides_b_ok o r : collides_b o r = true <-> collides same any_key versionColumn indexes o r.
Proof. unfold collides_b, collides. rewrite orb_true_iff, andb_true_iff, shares_b_ok, String.eqb_eq. done. Qed.

Lemma save_all_merges assignments columns now l t t' : save_all assignments columns now l t = Ok t' ->
  merges same any_key defaults default_version refreshed versionColumn indexes assignments columns now l t t'.
Proof.
  revert t. induction l as [|o l IH]; intros t; cbn; [intros [= <-]; constructor|]. destruct (filter _ _) as [|[i old] rest] eqn:E.
  - destruct (_ && _) eqn:Eb; [|done]. intros H. apply andb_prop in Eb as [Eb _]. boolify. apply merges_insert; [|done|by apply IH].
    intros j r Hr Hc. apply collides_b_ok in Hc. apply (not_elem_of_nil (j, r)). rewrite <- E. apply list_elem_of_filter.
    split; [done|]. by apply elem_of_map_to_list.
  - intros H. assert ((i, old) ∈ filter (fun '(_, r) => collides_b (inserted defaults default_version versionColumn columns o) r = true) (map_to_list t)) as Hin
      by (rewrite E; constructor). apply list_elem_of_filter in Hin as [Hc Hin]. apply elem_of_map_to_list in Hin.
    eapply merges_update; [done|by apply collides_b_ok|by apply IH].
Qed.

#[export] Instance upsert_sql_merging : (forall columns x, x ∈ expansion columns -> x.1 ∉ create_only /\ x.2 <> BumpRow) ->
  Merging holds_ same any_key defaults default_version refreshed expansion versionColumn indexes InKey upsert_sql.
Proof.
  intros Hx. split; cbn; unfold unless_failing.
  - intros n l columns now pre t t' l'. destruct (fails n); [done|]. destruct (save_all _ _ _ _ _) as [t1|] eqn:E; [|done]. intros [= <- <-].
    split; [done|]. by apply save_all_merges.
  - by intros n l columns now assignments [= <-].
  - exact Hx.
  - intros n conditions t l. destruct (fails n); [done|]. intros [= <-] i r Hr Hc. apply list_elem_of_fmap. exists (i, r). split; [done|].
    apply list_elem_of_filter. split; [done|]. by apply elem_of_map_to_list.
  - intros n w t l. destruct (fails n); [done|]. intros [= <-] r. rewrite list_elem_of_fmap. split.
    + intros ((i & r') & -> & [Hs Hr]%list_elem_of_filter). exists i. split; [by apply elem_of_map_to_list|done].
    + intros (i & Hr & Hs). exists (i, r). split; [done|]. apply list_elem_of_filter. split; [done|]. by apply elem_of_map_to_list.
  - done.
Qed.
End Reference.
Arguments condition : clear implicits.

(** ** Scenes *)

Module UpsertScenes.
(** Values are texts, none of them null. *)
#[export] Instance text_values : TenantValues string := {| as_ID := Some; of_ID := fun s => s; as_of_ID := fun s => eq_refl |}.
#[export] Instance text_columns : ColumnValues string := {|
  nil_cell := fun _ => false; zero_cell := fun s => (s =? "")%string;
  GoSyntax := fun d =>
    match d with
    | Text s | Cell (Value s) => "string:" ++ s
    | Number z => "int64:" ++ pretty z
    | Cell (Instant t) | Deleted (Some t) => "time.Time:" ++ pretty t
    | Deleted None | Missing => "<nil>"
    end%string |}.

(** Equality of the database, in which a null is equal to nothing. *)
Definition same (d d' : datum string) : bool :=
  match d, d' with
  | Text s, Text s' | Cell (Value s), Cell (Value s') => (s =? s')%string
  | Number z, Number z' | Cell (Instant z), Cell (Instant z') | Deleted (Some z), Deleted (Some z') => z =? z'
  | _, _ => false
  end.

(** A unique index on the code, and one on the tenant and the code. *)
Definition option_ (column : string) : IndexOption := mkIndexOption (Some (mkSchemaField column false "" false)) "".
Definition by_code : Index := mkIndex "code" "UNIQUE" "" [option_ "code"].
Definition by_tenant_code : Index := mkIndex "tenant_code" "UNIQUE" "" [option_ tenant_id; option_ "code"].

Definition expansion (columns : list string) : conflict :=
  filter (fun x => bool_decide (columns = []) || bool_decide (x.1 ∈ columns) = true)
    [("name", Excluded); ("code", Excluded); ("updated_by", Excluded); ("updated_at", Refreshed); ("deleted_at", Excluded)]%string.
(** The table's own defaults, that of the tenant column among them. *)
Definition defaults : gmap string (cell string) := list_to_map [(tenant_id, Value Default); ("code"%string, Value ""%string)].
Definition refreshed (column : string) (now : Z) : cell string := Instant now.

Section Table.
Context (vc : option string) (indexes : list Index) (any_key : bool).
Definition upserts : merging string (condition string) string :=
  upsert_sql same any_key defaults 0 refreshed expansion vc indexes (fun _ => None) "duplicated key"%string.
Definition sql_ : engine string (condition string) string :=
  tenant_sql (holds_ same vc) vc (fun _ => None) "duplicated key"%string "missing where"%string.
#[export] Instance upserts_merging : Merging (holds_ same vc) same any_key defaults 0 refreshed expansion vc indexes InKey upserts.
Proof.
  apply upsert_sql_merging. intros columns x [_ Hx]%list_elem_of_filter.
  repeat (apply elem_of_cons in Hx as [->|Hx]; [split; [apply (bool_decide_unpack _); by vm_compute|done]|]). by apply elem_of_nil in Hx.
Qed.
End Table.

Definition refused (err : refusal) : string := match err with ErrTenantRequired => "tenant required" | ErrTenantImmutable _ _ => "tenant immutable" end.
Definition acme : option context := Some (In_ None "acme").
Definition clock (n : nat) : Z := 1000000000 * Z.of_nat (S n).
Definition uuid (n : nat) : string := "fresh".
Definition perform (act : string) (n : nat) (t : table string) : option string * table string := (None, t).
Definition plain : model string string string := mkModel None None false None None None.
Definition versioned : model string string string := mkModel None (Some "version"%string) false None None None.
Definition row_ (i creator : string) (version : Z) (fields : list (string * string)) : record_ string :=
  mkRecord i creator creator 0 0 None version (list_to_map (map (fun '(c, v) => (c, Value v)) fields)).
Definition chain_ : chain (condition string) string := Database_ "bob".
Definition world_ (objects : list (record_ string)) (t : list (record_ string)) : world string string :=
  mkWorld (list_to_map (imap (fun i r => (i, mkObject r [])) objects)) (list_to_map (map (fun r => (ID r, r)) t)) 0 None [] [].
End UpsertScenes.
Import UpsertScenes.
Local Open Scope string_scope.
Local Open Scope Z_scope.

(** *** An older object merges into a newer row *)

Local Abbreviation upsert_versioned :=
  (Upsert (sql_ (Some "version")) (upserts (Some "version") [] false) clock uuid perform versioned None false ["id"] [] (Ok []) InKey).
Definition stale_world : world string string :=
  world_ [row_ "r1" "eve" 2 [("name", "new"); ("code", "b")]] [row_ "r1" "ann" 5 [("name", "old"); ("code", "a")]].

Lemma version_own_version : version_own (Some "version").
Proof. intros column [= <-]. unfold create_only. rewrite !elem_of_cons. by intros [?|[?|[?|[?|?%elem_of_nil]]]]. Qed.

Lemma Upsert_keeps_rows_witness :
  let w' := (upsert_versioned chain_ [Some 0%nat] stale_world).2 in
  (upsert_versioned chain_ [Some 0%nat] stale_world).1 = Ok tt /\
  (Version <$> rows w' !! "r1") = Some 6 /\ (CreatedBy <$> rows w' !! "r1") = Some "ann" /\ (UpdatedBy <$> rows w' !! "r1") = Some "bob" /\
  advanced (Some "version") (rows stale_world) (rows w').
Proof.
  cbv zeta. split; [by vm_compute|]. split; [by vm_compute|]. split; [by vm_compute|]. split; [by vm_compute|].
  refine (proj2 (proj2 (Upsert_keeps_rows (holds_ same (Some "version")) same false defaults 0 refreshed expansion versioned [] InKey
    (upserts (Some "version") [] false) (sql_ (Some "version")) clock uuid perform None false ["id"] [] (Ok []) version_own_version
    (upserts (Some "version") [] false) chain_ [Some 0%nat] stale_world eq_refl))).
Defined.

(** *** Another tenant's keys *)

(** On MySQL, in the tenant [acme], over a unique key on the code. *)
Local Abbreviation upsert_acme index :=
  (Upsert (sql_ None) (scoped_merging TenantIs refused acme (upserts None [index] true)) clock uuid perform plain acme true ["id"] [] (Ok [index]) InKey).

Definition theirs : record_ string := row_ "t2" "ann" 0 [(tenant_id, "globex"); ("name", "theirs"); ("code", "k")].
Definition tenants_world (o : record_ string) : world string string := world_ [o] [row_ "t1" "ann" 0 [(tenant_id, "acme"); ("name", "ours"); ("code", "j")]; theirs].
Definition thief : record_ string := row_ "t2" "eve" 0 [(tenant_id, ""); ("name", "taken"); ("code", "x")].
Definition code_thief : record_ string := row_ "" "eve" 0 [(tenant_id, ""); ("name", "taken"); ("code", "k")].
Definition newcomer : record_ string := row_ "" "eve" 0 [(tenant_id, ""); ("name", "mine"); ("code", "x")].

(** An id and a code of another tenant's row are refused, and a key of its own
    merges or is new. *)
Lemma Upsert_stays_in_tenant_witness :
  (upsert_acme by_code chain_ [Some 0%nat] (tenants_world thief)).1 = Err (ErrDuplicatedKey "globex") /\
  (upsert_acme by_code chain_ [Some 0%nat] (tenants_world code_thief)).1 = Err (ErrDuplicatedKey "globex") /\
  (upsert_acme by_code chain_ [Some 0%nat] (tenants_world newcomer)).1 = Ok tt /\
  others "acme" (rows (upsert_acme by_code chain_ [Some 0%nat] (tenants_world newcomer)).2) = others "acme" (rows (tenants_world newcomer)).
Proof.
  split; [by vm_compute|]. split; [by vm_compute|]. split; [by vm_compute|].
  refine (proj1 (Upsert_stays_in_tenant (holds_ same None) same true defaults 0 refreshed expansion plain [by_code] InKey TenantIs refused
    (upserts None [by_code] true) (sql_ None) clock uuid perform acme "acme" _ [] _ _ _ _ chain_ [Some 0%nat] (tenants_world newcomer) eq_refl _)).
  - by vm_compute.
  - done.
  - intros x. cbn. apply String.eqb_refl.
  - intros r. change (ValueOf (versionColumn plain) tenant_id r) with (match Fields r !! tenant_id with Some c => Cell c | None => Missing end).
    unfold GetTenantID. destruct (Fields r !! tenant_id) as [[t|x]|]; [done| |done].
    change (("acme" =? x)%string = true -> x = "acme"). intros H. by apply String.eqb_eq in H as <-.
  - by split.
  - intros i r Hr. apply others_lookup in Hr as [Hr _]. cbn in Hr.
    repeat (apply lookup_insert_Some in Hr as [[<- <-]|[_ Hr]]; [done|]). by rewrite lookup_empty in Hr.
Defined.

(** *** Merged on another key *)

Local Abbreviation upsert_mysql :=
  (Upsert (sql_ None) (upserts None [by_code] true) clock uuid perform plain None false ["id"] [] (Ok [by_code]) InKey).
Definition collided_world : world string string :=
  world_ [row_ "" "eve" 0 [("name", "new"); ("code", "k")]] [row_ "r1" "ann" 0 [("name", "old"); ("code", "k")]].

Lemma Upsert_names_a_row_witness :
  let w' := (upsert_mysql chain_ [Some 0%nat] collided_world).2 in
  ID (record_at w' 0%nat) = "r1" /\ names_row 0%nat w'.
Proof.
  cbv zeta. split; [by vm_compute|].
  refine (Upsert_names_a_row (holds_ same None) same true defaults 0 refreshed expansion plain [by_code] InKey (upserts None [by_code] true)
    _ _ 0%nat _ _ _ (sql_ None) clock uuid perform None ["id"] [] chain_ collided_world eq_refl eq_refl _ eq_refl _).
  - intros [s|z|[z|]|[z|s]|] d'; cbn; try done; intros _; (apply String.eqb_refl || apply Z.eqb_refl).
  - intros [s|z|[z|]|[z|s]|] [s'|z'|[z'|]|[z'|s']|]; cbn; try done; intros H; boolify; by subst.
  - done.
  - intros index x [->|?%elem_of_nil]%elem_of_cons Hx; [|done]. cbn. intros Hc. rewrite list_elem_of_singleton in Hc.
    apply list_elem_of_filter in Hx as [_ Hx]. repeat (apply elem_of_cons in Hx as [->|Hx]; [done|]). by apply elem_of_nil in Hx.
  - split; [apply list_elem_of_In; vm_compute; auto 10|]. intros u Hx. apply list_elem_of_filter in Hx as [_ Hx].
    repeat (apply elem_of_cons in Hx as [Hx|Hx]; [by simplify_eq|]). by apply elem_of_nil in Hx.
  - intros i r Hr. cbn in Hr. repeat (apply lookup_insert_Some in Hr as [[<- <-]|[_ Hr]]; [done|]). by rewrite lookup_empty in Hr.
  - by vm_compute.
Defined.

(** ** What the theorems leave out *)

(** An object that names another tenant is held to that tenant's keys before
    it is stamped: it is refused for a key of theirs it would not have, which
    tells whether they have it, and goes through without the name. *)
Lemma named_tenant_is_probed :
  let named := row_ "" "eve" 0 [(tenant_id, "globex"); ("name", "mine"); ("code", "k")] in
  let absent := row_ "" "eve" 0 [(tenant_id, "globex"); ("name", "mine"); ("code", "z")] in
  let unnamed := row_ "" "eve" 0 [(tenant_id, ""); ("name", "mine"); ("code", "k")] in
  let answer o := upsert_acme by_tenant_code chain_ [Some 0%nat] (tenants_world o) in
  (answer named).1 = Err (ErrDuplicatedKey "globex") /\ (answer absent).1 = Ok tt /\
  (answer unnamed).1 = Ok tt /\ (GetTenantID <$> rows (answer unnamed).2 !! "fresh") = Some "acme".
Proof. by vm_compute. Qed.

(** A narrowed upsert that inserts leaves the tenant column to its default:
    the row is the default tenant's. *)
Lemma narrowed_upsert_lands_in_default :
  let c := select_columns ["name"; "id"; "created_by"; "updated_by"; "created_at"; "updated_at"; "deleted_at"] chain_ in
  let d := upsert_acme by_code c [Some 0%nat] (tenants_world newcomer) in
  d.1 = Ok tt /\ (GetTenantID <$> rows d.2 !! "fresh") = Some Default.
Proof. by vm_compute. Qed.

(** *** Nullable keys *)

Module Nullable.
(** A text behind a pointer, at an address, or nil. *)
Inductive text_pointer : Type := At (address : nat) (s : string) | Nil.
#[export] Instance pointer_tenants : TenantValues text_pointer.
Proof. refine {| as_ID := fun x => match x with At _ s => Some s | Nil => None end; of_ID := At 0 |}. done. Defined.
(** fmt spells a pointer to a text by its address. *)
#[export] Instance pointer_columns : ColumnValues text_pointer := {|
  nil_cell := fun x => match x with Nil => true | _ => false end;
  zero_cell := fun x => match x with Nil => true | _ => false end;
  GoSyntax := fun d => match d with Cell (Value (At address _)) => "*string:(*string)(0x" ++ pretty (N.of_nat address) ++ ")" | _ => "" end%string |}.
Definition same (d d' : datum text_pointer) : bool :=
  match d, d' with
  | Text s, Text s' | Cell (Value (At _ s)), Cell (Value (At _ s')) => (s =? s')%string
  | _, _ => false
  end.
Definition table_ : merging text_pointer (condition text_pointer) string :=
  upsert_sql same true ∅ 0 (fun _ now => Instant now) (fun _ => [("name", Excluded); ("code", Excluded); ("deleted_at", Excluded)]) None [by_code]
    (fun _ => None) "duplicated key".
(** A row that is read back holds pointers of its own. *)
Definition scanned (r : record_ text_pointer) : record_ text_pointer :=
  SetFields ((fun c => match c with Value (At address s) => Value (At (1000 + address) s) | c => c end) <$> Fields r) r.
Definition base : merging text_pointer (condition text_pointer) string :=
  mkMerging (conflict_update table_) (save table_) (Pluck table_) (fun n w t => lift (map scanned) (Find table_ n w t)).
Definition sql_ : engine text_pointer (condition text_pointer) string := tenant_sql (holds_ same None) None (fun _ => None) "duplicated key" "missing where".
Definition record (i name : string) (code : text_pointer) : record_ text_pointer :=
  mkRecord i "ann" "ann" 0 0 None 0 (list_to_map [("name", Value (At 1 name)); ("code", Value code)]).
Definition world_ (o r : record_ text_pointer) : world text_pointer string := mkWorld {[0%nat := mkObject o []]} {[ID r := r]} 0 None [] [].
Definition model_ : model text_pointer string string := mkModel None None false None None None.
Definition upsert (w : world text_pointer string) :=
  Upsert sql_ base clock uuid (fun _ _ t => (None, t)) model_ None false ["id"] [] (Ok [by_code]) InKey (Database_ "bob") [Some 0%nat] w.
End Nullable.

(** The same merge as above over a nullable code, whose pointer fmt spells by
    its address: the call succeeds, and the object keeps the id it was given
    for the insert, which no row has. *)
Lemma nullable_key_is_not_read_back :
  let d := Nullable.upsert (Nullable.world_ (Nullable.record "" "new" (Nullable.At 2 "k")) (Nullable.record "r1" "old" (Nullable.At 3 "k"))) in
  d.1 = Ok tt /\ ID (record_at d.2 0%nat) = "fresh" /\ rows d.2 !! "fresh" = None /\ is_Some (rows d.2 !! "r1").
Proof. cbv zeta. split; [by vm_compute|]. split; [by vm_compute|]. split; [by vm_compute|]. vm_compute. by eexists. Qed.
