(* ===== verification/Query.v ===== *)
(** * Queries of the database layer

    Models src/database/with_query.go: the conditions a query model and
    filters put on a chain, and what keeps an empty query from naming every
    row.  What gorm reads of a query model, field by field, is an argument. *)

From stdpp Require Import base list gmap strings.
From Stdlib Require Import ZArith.
From S2P Require Import Prelude GoStrings UrlQuery Predicate Writes.
Local Open Scope Z_scope.

Section WithQuery.
Context {A D : Type}.
Abbreviation val := (value A (filter_ A)).
Abbreviation chain_t := (chain (condition A) D).

(** Of the field a column resolves to: whether gorm reads it, whether it is
    zero, and the value it binds, [None] for nil and for a nil pointer. *)
Record field_value : Type := mkField { Readable : bool; Zero : bool; ValueOf : option val }.

(** A query model by its columns, and the options of a query. *)
Abbreviation query_model := (Column -> option field_value).
Record QueryOptions : Type := mkOptions { AllowEmpty : bool; PresentFields : gset string; Filters : list (filter_ A) }.

Variables (day_string : string -> string) (day_time : Z -> Z).
Variable d : dialect.
Variable model : Table_.
(** Whether a byte slice or a slice that binds itself is empty. *)
Variable empty_bytes : A -> bool.
(** The error of a chain whose filters fail it. *)
Variable chain_error : query_error A -> D.

Definition timestampColumns : list string := ["created_at"; "updated_at"; "deleted_at"].
Definition frameworkColumns : list string := ["id"; "created_by"; "updated_by"; "created_at"; "updated_at"; "deleted_at"].

(** [conditionValue]; an instant is the same in UTC. *)
Definition conditionValue (v : val) (day : bool) : val :=
  if day then match v with VDatum x => VDatum (dayValue day_string day_time x) | _ => v end else v.

(** The condition the field of one column stands for. *)
Definition structCondition (query : query_model) (present : gset string) (c : Column) : option val :=
  let named := bool_decide (QueryName c ∈ present) && Filterable c && negb (bool_decide (DBName c ∈ frameworkColumns)) in
  match query c with
  | None => None
  | Some f =>
      if (negb named && negb (Readable f)) || bool_decide (DBName c ∈ timestampColumns) then None
      else if Zero f && negb named then None
      else (fun v => conditionValue v (IsDateColumn c)) <$> ValueOf f
  end.

Definition structConditions (query : query_model) (columns : list Column) (present : gset string) : gmap string val :=
  foldl (fun q c => match structCondition query present c with Some v => <[DBName c := v]> q | None => q end) ∅ columns.

(** An empty string, byte slice or slice names no value to match. *)
Definition names_nothing (v : val) : bool :=
  match v with
  | VDatum (DString s) => (s =? "")%string
  | VBytes a | VValuer a => empty_bytes a
  | VMany l => match l with [] => true | _ => false end
  | VFilters l => match l with [] => true | _ => false end
  | _ => false
  end.

(** The condition of one column of the query. *)
Definition equality (k : string) (v : val) : condition A :=
  let columns := default [] (Schema model) in
  if bool_decide (k ∈ names_where IsJSONColumn columns) then CFalse
  else if bool_decide (k ∈ names_where IsTimeColumn columns) then CCompare (timeComparableExpr d (Col "" k)) " = " (timeComparableExpr d Bind) v
  else CCompare (Col "" k) " = " Bind v.

(** The loop over the columns in order, which also tells whether any named a
    value. *)
Fixpoint add_equalities (q : gmap string val) (ks : list string) (c : chain_t) : chain_t * bool :=
  match ks with
  | [] => (c, false)
  | k :: ks =>
      match q !! k with
      | Some v =>
          if names_nothing v then add_equalities q ks c
          else let '(c, _) := add_equalities q ks (Where (equality k v) c) in (c, true)
      | None => add_equalities q ks c
      end
  end.

(** The guard on a query without a condition of its own. *)
Definition empty_query (opt : QueryOptions) (c : chain_t) : chain_t :=
  match Filters opt with
  | _ :: _ => c
  | [] => if negb (AllowEmpty opt) then Where CFalse c else match_all c
  end.

Definition WithFilters (filters : list (filter_ A)) (c : chain_t) : chain_t :=
  match filters with
  | [] => c
  | _ =>
      match applyFilters day_string day_time d model filters with
      | Err err => set_defect (chain_error err) c
      | Ok (Some expr) => Where expr c
      | Ok None => c
      end
  end.

(** [WithQuery]; the query is nil or a model, which gorm may not parse. *)
Definition WithQuery (query : option query_model) (opt : QueryOptions) (c : chain_t) : chain_t :=
  let c := WithFilters (Filters opt) c in
  match query with
  | None => empty_query opt c
  | Some query =>
      match Schema model with
      | None => Where CFalse c
      | Some columns =>
          let q := structConditions query columns (PresentFields opt) in
          if bool_decide (q = ∅) then empty_query opt c
          else
            let '(c, valid) := add_equalities q (sorted_strings ((map_to_list q).*1)) c in
            if negb valid && (match Filters opt with [] => true | _ => false end) && negb (AllowEmpty opt) then Where CFalse c else c
      end
  end.
End WithQuery.
Arguments mkOptions {A}.
Arguments AllowEmpty {A} q.
Arguments PresentFields {A} q.
Arguments Filters {A} q.
