(* ===== verification/QuerySpec.v ===== *)
(** * A delete by a query

    The filters of a query, the guard on empty queries and the delete of the
    rows a chain's conditions match, put together: a delete by filters removes
    the rows the filters mean, and every row only where that was asked for. *)

From stdpp Require Import base list gmap strings.
From Stdlib Require Import ZArith Lia.
From S2P Require Import Prelude GoStrings UrlQuery Predicate PredicateSpec Writes WritesBase WritesSpec WritesLocking WritesDelete Query.
Local Open Scope Z_scope.

Section Rows.
Context {A B V D Act : Type}.
(** The cells of rows hold [B], filters hold [A] and SQL knows [V]. *)
Abbreviation row := (record_ B).
Context (db : PredicateSpec.database (A := A) (C := V) (row := row)) (evaluator : list (string * (Table_ * row)) -> condition A -> truth) `{!Evaluates db evaluator}.
Context (day_string : string -> string) (day_time : Z -> Z) (d : dialect) (model : Table_) (empty_bytes : A -> bool) (chain_error : query_error A -> D).
Context (e : engine B (condition A) D) (clock : nat -> Z) (perform : Act -> nat -> table B -> option D * table B) (m : Writes.model B Act D).

(** The rows a condition on the chain is true of. *)
Definition true_of (c : condition A) (r : row) : bool := bool_decide (evaluator (frames model (model, r) []) c = Some true).

Context `{!Documented true_of (versionColumn m) e}.

Abbreviation WithQuery := (WithQuery day_string day_time d model empty_bytes chain_error).
Abbreviation means f r := (meaning db day_string day_time d (model, r) [] f = Some true).

(** The rows a query without a model asks for. *)
Definition asked (opt : QueryOptions (A := A)) (r : row) : Prop :=
  match Filters opt with [] => AllowEmpty opt = true | _ => forall f, f ∈ Filters opt -> means f r end.

(** What a delete does to the table when it removes the rows of [P]. *)
Definition removes (purge : bool) (P : row -> Prop) (t t' : table B) : Prop := forall id,
  match t !! id with
  | None => t' !! id = None
  | Some r =>
      (purge || live r = true -> P r -> if purge then t' !! id = None else exists now, t' !! id = Some (marked now r)) /\
      (~ (purge || live r = true /\ P r) -> t' !! id = Some r)
  end.

Lemma after_delete_removes (conds : list (condition A)) purge now (t : table B) :
  removes purge (fun r => forallb (fun c => true_of c r) conds = true) t (after_delete true_of (mkWhere [] None conds) purge now t).
Proof.
  intros id. unfold after_delete. destruct (t !! id) as [r|] eqn:Hr.
  - assert (selects true_of (mkWhere [] None conds) purge r = (purge || live r) && forallb (fun c => true_of c r) conds) as Es by (unfold selects; cbn; by rewrite !andb_true_r).
    destruct (selects true_of (mkWhere [] None conds) purge r) eqn:E; symmetry in Es.
    + apply andb_prop in Es as [E1 E2]. split; [intros _ _|intros H; by destruct H]. destruct purge.
      * apply map_lookup_filter_None. right. intros r' Hr'. rewrite Hr in Hr'. injection Hr' as <-. by rewrite E.
      * exists now. rewrite lookup_fmap, Hr. cbn. by rewrite E.
    + split; [intros E1 E2; by rewrite E1, E2 in Es|intros _]. destruct purge; [by apply map_lookup_filter_Some|]. rewrite lookup_fmap, Hr. cbn. by rewrite E.
  - destruct purge; [apply map_lookup_filter_None; by left|by rewrite lookup_fmap, Hr].
Qed.

Lemma removes_iff purge (P Q : row -> Prop) t t' : (forall r, P r <-> Q r) -> removes purge P t t' -> removes purge Q t t'.
Proof. intros H Hr id. specialize (Hr id). destruct (t !! id) as [r|]; [|done]. specialize (H r). tauto. Qed.

Lemma Delete_defect c w : (Delete e clock perform m c [] w).1 = Ok tt -> defect c = None.
Proof.
  unfold Delete. intros H. apply bind_inv in H as ([] & w1 & _ & _ & H). apply bind_inv in H as (c' & w2 & E & _ & _). unfold prepare in E. by destruct (defect c).
Qed.

(** *** A query model *)

Local Abbreviation query_model := (Column -> option (field_value (A := A))).

(** The column asks for the value [v]: its field is one gorm reads, and not
    zero; or, zero or not, one that the request names, that clients may filter
    on and that is the model's own.  Timestamps ask for nothing. *)
Definition named_in (opt : QueryOptions (A := A)) (c : Column) : Prop :=
  QueryName c ∈ PresentFields opt /\ Filterable c = true /\
  DBName c ∉ ["id"; "created_by"; "updated_by"; "created_at"; "updated_at"; "deleted_at"].

Definition wants (opt : QueryOptions (A := A)) (query : query_model) (c : Column) (v : value A (filter_ A)) : Prop :=
  exists f u, query c = Some f /\ DBName c ∉ ["created_at"; "updated_at"; "deleted_at"] /\
    (named_in opt c \/ Readable f = true /\ Zero f = false) /\ ValueOf f = Some u /\
    v = if IsDateColumn c then match u with VDatum x => VDatum (dayValue day_string day_time x) | _ => u end else u.

(** The row has the value in the column, as an equality filter would have it;
    a document is equal to nothing. *)
Definition has_value (c : Column) (v : value A (filter_ A)) (r : row) : Prop :=
  DBName c ∉ jsonColumns (info_of model) /\
  let eq := NewFilter_ "" (DBName c) (Exposed OpEq) v in
  compares db " = " (PredicateSpec.comparable db d model eq (PredicateSpec.cell db r (DBName c))) (PredicateSpec.comparable db d model eq (bound db v)) = Some true.

Abbreviation blank v := (names_nothing empty_bytes v).

(** The rows a query asks for.  A model whose fields ask for nothing is no
    model; one that asks for blank values alone asks for no row unless filters
    do. *)
Definition asked_of (query : option query_model) (opt : QueryOptions (A := A)) (r : row) : Prop :=
  match query, Schema model with
  | None, _ => asked opt r
  | Some _, None => False
  | Some q, Some columns =>
      (forall c v, c ∈ columns -> ~ wants opt q c v) /\ asked opt r \/
      ((exists c v, c ∈ columns /\ wants opt q c v) /\
       ((exists c v, c ∈ columns /\ wants opt q c v /\ blank v = false) \/ Filters opt <> []) /\
       (forall c v, c ∈ columns -> wants opt q c v -> blank v = false -> has_value c v r) /\
       forall f, f ∈ Filters opt -> means f r)
  end.

Lemma wants_iff opt q c v : structCondition day_string day_time q (PresentFields opt) c = Some v <-> wants opt q c v.
Proof.
  unfold structCondition, wants, named_in, conditionValue. change timestampColumns with ["created_at"; "updated_at"; "deleted_at"].
  change frameworkColumns with ["id"; "created_by"; "updated_by"; "created_at"; "updated_at"; "deleted_at"].
  destruct (q c) as [f|]; [|split; [done|by intros (? & ? & ? & _)]].
  set (fw := ["id"; "created_by"; "updated_by"; "created_at"; "updated_at"; "deleted_at"]). set (ts := ["created_at"; "updated_at"; "deleted_at"]). clearbody ts fw.
  set (named := bool_decide (QueryName c ∈ PresentFields opt) && Filterable c && negb (bool_decide (DBName c ∈ fw))).
  assert (named = true <-> QueryName c ∈ PresentFields opt /\ Filterable c = true /\ DBName c ∉ fw) as Hn.
  { unfold named. rewrite !andb_true_iff, negb_true_iff, bool_decide_eq_true, bool_decide_eq_false. tauto. }
  clearbody named. split.
  - destruct ((negb named && negb (Readable f)) || bool_decide (DBName c ∈ ts)) eqn:E1; [done|].
    destruct (Zero f && negb named) eqn:E2; [done|]. intros H. exists f. apply fmap_Some in H as (u & Hu & ->). exists u. apply orb_false_iff in E1 as [E1 Ets]. apply bool_decide_eq_false in Ets.
    split; [done|]. split; [done|]. split; [|done]. destruct named; [left; by apply Hn|right]. cbn in *. by destruct (Readable f), (Zero f).
  - intros (f' & u & [= <-] & Hts & Hor & Hu & ->). rewrite (bool_decide_eq_false_2 _ Hts), orb_false_r, Hu.
    destruct Hor as [Hnm|[-> ->]]; [apply Hn in Hnm as ->; by destruct (Zero f)|by destruct named].
Qed.

Lemma structConditions_lookup opt q columns k v : NoDup (DBName <$> columns) ->
  structConditions day_string day_time q columns (PresentFields opt) !! k = Some v <->
  exists c, c ∈ columns /\ DBName c = k /\ wants opt q c v.
Proof.
  unfold structConditions. intros Hn.
  assert (forall m0 : gmap string (value A (filter_ A)), (forall c, c ∈ columns -> m0 !! DBName c = None) ->
    foldl (fun q0 c => match structCondition day_string day_time q (PresentFields opt) c with Some v0 => <[DBName c := v0]> q0 | None => q0 end) m0 columns !! k = Some v <->
    m0 !! k = Some v \/ exists c, c ∈ columns /\ DBName c = k /\ wants opt q c v) as H.
  { induction columns as [|c columns IH]; intros m0 H0; cbn [foldl]; [split; [by left|intros [?|(c & H & _)]; [done|by apply elem_of_nil in H]]|].
    cbn in Hn. apply NoDup_cons in Hn as [Hc Hn].
    assert (forall c', c' ∈ columns -> DBName c' <> DBName c) as Hne by (intros c' Hc' E; apply Hc; rewrite <- E; by apply list_elem_of_fmap_2).
    pose proof (wants_iff opt q c) as Hw. destruct (structCondition _ _ _ _ c) as [v0|] eqn:Es.
    - rewrite IH; [|done|].
      + rewrite lookup_insert_Some. setoid_rewrite elem_of_cons. split.
        * intros [[[<- <-]|[Hk Hm]]|(c' & Hc' & Hk & Hw')]; [right; exists c; split; [by left|]; split; [done|]; by apply Hw|by left|right; exists c'; split; [by right|done]].
        * intros [Hm|(c' & [->|Hc'] & Hk & Hw')].
          -- left. right. split; [|done]. intros <-. rewrite H0 in Hm; [done|constructor].
          -- left. left. split; [done|]. apply Hw in Hw'. congruence.
          -- right. by exists c'.
      + intros c' Hc'. rewrite lookup_insert_ne by (intros E; by apply (Hne c')). apply H0. by constructor.
    - rewrite IH; [|done|intros c' Hc'; apply H0; by constructor]. setoid_rewrite elem_of_cons. split.
      + intros [Hm|(c' & Hc' & Hk)]; [by left|right; exists c'; split; [by right|done]].
      + intros [Hm|(c' & [->|Hc'] & Hk & Hw')]; [by left| |right; by exists c']. apply Hw in Hw'. congruence. }
  rewrite H by (intros; apply lookup_empty). rewrite lookup_empty. naive_solver.
Qed.

(** The equalities a chain gets of a query. *)
Definition equalities (q : gmap string (value A (filter_ A))) (ks : list string) : list (condition A) :=
  omap (fun k => v ← q !! k; if blank v then None else Some (equality d model k v)) ks.

Lemma add_equalities_chain q ks (c : chain (condition A) D) :
  add_equalities (D := D) d model empty_bytes q ks c =
  (fold_left (fun c e => Where e c) (equalities q ks) c, negb (bool_decide (equalities q ks = []))).
Proof.
  revert c. induction ks as [|k ks IH]; intros c; [done|]. cbn [add_equalities]. unfold equalities. cbn [omap list_omap].
  destruct (q !! k) as [v|]; cbn [mbind option_bind]; [|apply IH]. destruct (names_nothing empty_bytes v); [apply IH|]. by rewrite IH.
Qed.

Lemma wheres_kept (l : list (condition A)) (c : chain (condition A) D) :
  let c' := fold_left (fun c e => Where e c) l c in
  conditions c' = conditions c ++ l /\ matchAll c' = matchAll c /\ noHook c' = noHook c /\ enablePurge c' = enablePurge c /\ defect c' = defect c.
Proof.
  revert c. induction l as [|e' l IH]; intros c; [by rewrite app_nil_r|]. cbn [fold_left]. destruct (IH (Where e' c)) as (E1 & E2 & E3 & E4 & E5).
  cbv zeta. rewrite E1, E2, E3, E4, E5. cbn. by rewrite <- app_assoc.
Qed.

Lemma equality_holds c v r : c ∈ default [] (Schema model) -> true_of (equality d model (DBName c) v) r = true <-> has_value c v r.
Proof.
  intros Hc. unfold true_of, equality, has_value, PredicateSpec.comparable, info_of. cbn [tableInfoOf jsonColumns timeColumns Column_].
  rewrite bool_decide_eq_true.
  assert (forall x, side db (frames model (model, r) []) x (Col "" (DBName c)) = Some (PredicateSpec.cell db r (DBName c))) as Hcol.
  { intros x. cbn. rewrite bool_decide_eq_true_2; [done|]. unfold names_of, names_where. apply elem_of_list_to_set, list_elem_of_fmap.
    exists c. split; [done|]. by apply list_elem_of_filter. }
  destruct (bool_decide (DBName c ∈ names_where IsJSONColumn _)) eqn:Ej; boolify; [rewrite (holds_false db); split; [done|by intros []]|].
  assert (forall y o, side db (frames model (model, r) []) (bound db v) o = Some y -> side db (frames model (model, r) []) (bound db v) (timeComparableExpr d o) = Some (if bool_decide (d = SQLite) then strftime db y else y)) as Ht.
  { intros y o Ho. unfold timeComparableExpr. case_bool_decide; cbn [side]; by rewrite Ho. }
  destruct (bool_decide (DBName c ∈ names_where IsTimeColumn _)) eqn:Et; cbn [andb].
  - rewrite (holds_compare db _ _ _ _ _ _ _ (Ht _ _ (Hcol _)) (Ht (bound db v) Bind eq_refl)). destruct (bool_decide (d = SQLite)); tauto.
  - rewrite (holds_compare db _ (Col "" (DBName c)) " = " Bind v _ (bound db v) (Hcol _) eq_refl). tauto.
Qed.

Lemma forallb_equalities q ks r : forallb (fun e => true_of e r) (equalities q ks) = true <->
  forall k v, k ∈ ks -> q !! k = Some v -> blank v = false -> true_of (equality d model k v) r = true.
Proof.
  rewrite forallb_forall. unfold equalities. split.
  - intros H k v Hk Hq Hb. apply H, list_elem_of_In, list_elem_of_omap. exists k. split; [done|]. rewrite Hq. cbn. by rewrite Hb.
  - intros H x Hx%list_elem_of_In. apply list_elem_of_omap in Hx as (k & Hk & Hx). destruct (q !! k) as [v|] eqn:Eq; [|done]. cbn in Hx.
    destruct (names_nothing empty_bytes v) eqn:Eb; [done|]. injection Hx as <-. by apply H.
Qed.

(** The conditions a chain comes to have of its filters. *)
Lemma filters_chain opt (c : chain (condition A) D) : Forall (fun f => columns_known model f = true) (Filters opt) -> conditions c = [] ->
  let c' := WithFilters day_string day_time d model chain_error (Filters opt) c in
  defect c' = None ->
  (forall r, forallb (fun e => true_of e r) (conditions c') = true <-> forall f, f ∈ Filters opt -> means f r) /\
  (conditions c' = [] <-> Filters opt = []) /\ (forall f, f ∈ Filters opt -> grade d model [] f <> Fails) /\
  matchAll c' = matchAll c /\ noHook c' = noHook c /\ enablePurge c' = enablePurge c.
Proof.
  intros Hk Hc. pose proof (applyFilters_selects db day_string day_time d model evaluator (Filters opt) Hk) as Ha.
  unfold WithFilters. destruct (Filters opt) as [|f0 l] eqn:Ef; cbv zeta.
  - intros _. rewrite Hc. split; [intros r; split; [intros _ f Hf; by apply elem_of_nil in Hf|done]|]. split; [done|].
    split; [intros f Hf; by apply elem_of_nil in Hf|done].
  - destruct (applyFilters _ _ _ _ _) as [[expr|]|err]; [|done|done]. destruct Ha as [Hg Ht]. intros _. cbn. rewrite Hc.
    split; [|by split; [|split]]. intros r. cbn. rewrite andb_true_r. unfold true_of. rewrite bool_decide_eq_true. apply Ht.
Qed.

(** A delete on a chain of conditions, and on one without any. *)
Lemma Delete_conditions c w : overrides c (delete_hooks m) = false -> boundary w = None -> (Delete e clock perform m c [] w).1 = Ok tt ->
  removes (default (Purge m) (enablePurge c))
    (fun r => (matchAll c = true \/ conditions c <> []) /\ forallb (fun x => true_of x r) (conditions c) = true)
    (rows w) (rows (Delete e clock perform m c [] w).2).
Proof.
  intros Ho Hw Hok. destruct (matchAll c || negb (bool_decide (length (conditions c) = 0%nat))) eqn:Ec.
  - destruct (Delete_by_conditions e clock perform true_of m c w Ho Ec Hw Hok) as (now & ->).
    eapply removes_iff; [|apply after_delete_removes]. intros r. cbn. split; [intros H; split; [|done]|by intros []].
    apply orb_true_iff in Ec as [->|Ec]; [by left|right]. apply negb_true_iff, bool_decide_eq_false in Ec. by intros E; rewrite E in Ec.
  - destruct (Delete_ok e clock perform m c [] w Hok) as [(_ & _ & ->)|(l' & w1 & _ & _ & Hcond & _)].
    + apply orb_false_iff in Ec as [Em Ec]. apply negb_false_iff, bool_decide_eq_true, nil_length_inv in Ec. intros id. destruct (rows w !! id); [|done].
      split; [intros _ [[E|E] _]; congruence|done].
    + cbv zeta in Hcond. cbn in Hcond. rewrite Ec in Hcond. by specialize (Hcond eq_refl).
Qed.

(** What the conditions on a chain let a delete remove. *)
Definition lets (c : chain (condition A) D) (r : row) : Prop :=
  (matchAll c = true \/ conditions c <> []) /\ forallb (fun x => true_of x r) (conditions c) = true.

Lemma lets_nothing c r : ~ lets (Where CFalse c) r.
Proof. intros [_ H]. cbn in H. rewrite forallb_app, andb_true_iff in H. destruct H as [_ H]. cbn in H. unfold true_of in H. by rewrite (holds_false db) in H. Qed.

Section Conditions.
Context (opt : QueryOptions (A := A)) (c0 : chain (condition A) D) (Hm0 : matchAll c0 = false).
Context (Hf : forall r, forallb (fun x => true_of x r) (conditions c0) = true <-> forall f, f ∈ Filters opt -> means f r).
Context (Hnil : conditions c0 = [] <-> Filters opt = []).

Lemma empty_query_lets r : lets (empty_query opt c0) r <-> asked opt r.
Proof.
  unfold empty_query, asked. destruct (Filters opt) as [|f0 l] eqn:Ef.
  - destruct (AllowEmpty opt); cbn [negb]; [|split; [by intros H%lets_nothing|done]]. unfold lets. cbn. rewrite (proj2 Hnil eq_refl). split; [done|]. split; [by left|done].
  - unfold lets. rewrite Hf. split; [by intros []|]. intros H. split; [right; by intros E%Hnil|done].
Qed.

Context (query : query_model) (columns : list Column) (Hs : Schema model = Some columns) (Hn : NoDup (DBName <$> columns)).
Local Abbreviation q := (structConditions day_string day_time query columns (PresentFields opt)).
Local Abbreviation eqs := (equalities q (sorted_strings ((map_to_list q).*1))).

Lemma key_listed k v : q !! k = Some v -> k ∈ sorted_strings ((map_to_list q).*1).
Proof.
  intros H. unfold sorted_strings. rewrite sorting.merge_sort_Permutation. apply list_elem_of_fmap. exists (k, v). split; [done|]. by apply elem_of_map_to_list.
Qed.

Lemma equalities_hold r : forallb (fun x => true_of x r) eqs = true <->
  forall c v, c ∈ columns -> wants opt query c v -> blank v = false -> has_value c v r.
Proof.
  rewrite forallb_equalities. split.
  - intros H c v Hc Hw Hb. assert (q !! DBName c = Some v) as Hq by (apply structConditions_lookup; [done|by exists c]).
    apply equality_holds; [by rewrite Hs|]. apply H; [by eapply key_listed|done|done].
  - intros H k v _ (c & Hc & <- & Hw)%structConditions_lookup Hb; [|done]. apply equality_holds; [by rewrite Hs|by apply H].
Qed.

Lemma equalities_some : eqs <> [] <-> exists c v, c ∈ columns /\ wants opt query c v /\ blank v = false.
Proof.
  split.
  - destruct eqs as [|x l] eqn:E; [done|]. intros _. assert (x ∈ eqs) as Hx by (rewrite E; constructor).
    unfold equalities in Hx. apply list_elem_of_omap in Hx as (k & _ & Hx). destruct (q !! k) as [v|] eqn:Eq; [|done]. cbn in Hx.
    destruct (names_nothing empty_bytes v) eqn:Eb; [done|]. apply structConditions_lookup in Eq as (c & Hc & _ & Hw); [|done]. by exists c, v.
  - intros (c & v & Hc & Hw & Hb) E. assert (q !! DBName c = Some v) as Hq by (apply structConditions_lookup; [done|by exists c]).
    assert (equality d model (DBName c) v ∈ eqs) as Hin; [|rewrite E in Hin; by apply elem_of_nil in Hin].
    unfold equalities. apply list_elem_of_omap. exists (DBName c). split; [by eapply key_listed|]. rewrite Hq. cbn. by rewrite Hb.
Qed.

Lemma query_lets r : lets
  (if bool_decide (q = ∅) then empty_query opt c0
   else if negb (negb (bool_decide (eqs = []))) && (match Filters opt with [] => true | _ => false end) && negb (AllowEmpty opt)
     then Where CFalse (fold_left (fun c e => Where e c) eqs c0) else fold_left (fun c e => Where e c) eqs c0) r <-> asked_of (Some query) opt r.
Proof.
  unfold asked_of. rewrite Hs. destruct (bool_decide (q = ∅)) eqn:Eq; boolify.
  - rewrite empty_query_lets. assert (forall c v, c ∈ columns -> ~ wants opt query c v) as Hnone.
    { intros c v Hc Hw. assert (q !! DBName c = Some v) as H by (apply structConditions_lookup; [done|by exists c]). by rewrite Eq, lookup_empty in H. }
    split; [by left|]. intros [[_ H]|[(c & v & Hc & Hw) _]]; [done|by apply Hnone in Hw].
  - assert (exists c v, c ∈ columns /\ wants opt query c v) as Hsome.
    { apply map_choose in Eq as (k & v & Hkv). apply structConditions_lookup in Hkv as (c & Hc & _ & Hw); [|done]. by exists c, v. }
    pose proof equalities_some as Hes. pose proof (equalities_hold r) as Heh.
    destruct (wheres_kept eqs c0) as (E1 & E2 & _). set (c1 := fold_left _ eqs c0) in *. rewrite negb_involutive.
    destruct (bool_decide (eqs = []) && _ && _) eqn:Ew.
    + split; [by intros H%lets_nothing|]. apply andb_prop in Ew as [Ew _]. apply andb_prop in Ew as [Ee Ef]. apply bool_decide_eq_true in Ee.
      intros [[Hno _]|[_ [[Hx|Hx] _]]]; [destruct Hsome as (c & v & Hc & Hw); by apply Hno in Hw|by apply Hes in Hx|by destruct (Filters opt)].
    + unfold lets. rewrite E1, E2, Hm0, forallb_app, andb_true_iff, Hf, Heh. split.
      * intros [[|Hne] [H1 H2]]; [done|]. right. split; [done|]. split; [|done]. destruct (decide (eqs = [])) as [E|E]; [right|left; by apply Hes].
        intros EF. apply Hne. by rewrite E, (proj2 Hnil EF).
      * intros [[Hno _]|(_ & Hor & H1 & H2)]; [destruct Hsome as (c & v & Hc & Hw); by apply Hno in Hw|]. split; [right|done].
        intros [Ec Ee]%app_nil. destruct Hor as [Hx%Hes|Hx]; [done|]. by apply Hx, Hnil.
Qed.
End Conditions.


End Rows.

(** ** Samples *)

Module Sampled.
Import Rendered.

Definition holding (r : record_ string) (c : string) : option string :=
  if (c =? "id")%string then Some (ID r) else match Fields r !! c with Some (Value s) => Some s | _ => None end.
Definition text_db : PredicateSpec.database (A := Z) (C := option string) (row := record_ string) :=
  mkDatabase (A := Z) (C := option string) (row := record_ string) holding (fun _ => [])
    (fun v => match v with VDatum (DString s) => Some s | _ => None end)
    (fun x => x) (fun x => x) (fun x => x) Samples.equal (fun _ _ => None) (fun _ _ _ => None) (fun _ _ _ => None) (fun _ _ => None)
    (fun x => match x with None => true | Some _ => false end).

Definition sample (id name : string) (deleted_at : option Z) : record_ string := mkRecord id "" "" 0 0 deleted_at 0 {["name" := Value name]}.
Definition stored : table string :=
  list_to_map (map (fun r => (ID r, r)) [sample "1" "root" None; sample "2" "leaf" None; sample "3" "leaf" (Some 5)]).
Definition before : world string string := mkWorld ∅ stored 0 None [] [].

Definition plain_model : Writes.model string string string := mkModel None None false None None None.
Definition true_of_ := true_of (evaluate text_db) samples.
Definition engine_ : engine string (condition Z) string := sql true_of_ None (fun _ => None) "duplicated key" "missing where".
#[export] Instance documented : Documented true_of_ (versionColumn plain_model) engine_.
Proof. exact (sql_documented _ _ _ _ _). Qed.

Definition query (q : option (Column -> option (field_value (A := Z)))) (opt : QueryOptions (A := Z)) : chain (condition Z) string :=
  Query.WithQuery (fun s => s) (fun t => t) MySQL samples (fun _ => false) (fun _ => "unusable filter"%string) q opt (Database_ "bob").
Definition delete (c : chain (condition Z) string) := Delete engine_ (fun _ => 7) (fun _ _ t => (None, t)) plain_model c [] before.
Definition marks (w : world string string) : list (option Z) := map (fun id => rows w !! id ≫= DeletedAt) ["1"; "2"; "3"].

Definition leaves : QueryOptions := mkOptions false ∅ [NewFilter_ "" "name" (Exposed OpEq) (string_of "leaf")].
Definition everything : QueryOptions := mkOptions (A := Z) true ∅ [].

(** A model whose name is one to match. *)
Definition leaf_model (c : Column) : option (field_value (A := Z)) :=
  if (DBName c =? "name")%string then Some (mkField true false (Some (string_of "leaf"))) else None.
Definition unfiltered : QueryOptions := mkOptions (A := Z) false ∅ [].

Example leaves_deleted : (delete (query None leaves)).1 = Ok tt /\ marks (delete (query None leaves)).2 = [None; Some 0; Some 5].
Proof. vm_compute. split; reflexivity. Qed.

(** A name given and empty: with [AllowEmpty] it is documented to ask for
    every row, as an empty query does.  The rows are all there for a list; a
    delete takes the chain for one without conditions and removes nothing. *)
Definition unnamed (c : Column) : option (field_value (A := Z)) :=
  if (DBName c =? "name")%string then Some (mkField true false (Some (string_of ""))) else None.
Definition rows_deleted (w : world string string) : nat := length (List.filter (fun p => negb (bool_decide (p = None))) (marks w)).

Example empty_value_deletes_nothing :
  (delete (query (Some unnamed) everything)).1 = Ok tt /\ rows_deleted (delete (query (Some unnamed) everything)).2 = rows_deleted before /\
  rows_deleted (delete (query None everything)).2 = 3%nat.
Proof. vm_compute. repeat split; reflexivity. Qed.
End Sampled.

