(* ===== verification/Redis.v ===== *)
(** * Redis, and programs over it

    Models the helpers of [src/redis] (string.go, key.go, sortedset.go) as the
    commands they send.  The server is outside the repository: [Documented]
    states what its documentation says the commands do, and a keyspace with a
    clock is such a server.  The namespace in front of every key is left out.

    A service that talks to Redis is a [prog], a tree of clock readings,
    commands and answers from elsewhere; [system] runs any number of them
    command by command, refusing commands and losing answers at will. *)

From stdpp Require Import base list gmap strings sorting.
From Stdlib Require Import ZArith Lia.
From S2P Require Import Prelude Strconv.
Local Open Scope Z_scope.

(** ** Commands *)

(** Lifetimes and instants are nanoseconds. *)
Definition millisecond : Z := 1000000.
Definition second : Z := 1000 * millisecond.

(** [UnixMilli], of an instant since the Unix epoch. *)
Definition UnixMilli (t : Z) : Z := t / millisecond.

(** A score is a [float64]; those the code uses are whole and below 2^53, and
    a counter stays below 2^63. *)
Inductive value : Type := Text (s : string) | Number (n : Z) | SortedSet (members : gmap string Z).

(** What is stored at a key, with the last instant it is stored at. *)
Abbreviation keyspace := (gmap string (value * option Z)).

Inductive cmd : Set -> Type :=
| Get (key : string) : cmd (option string)
| Set_ (key data : string) (expiration : Z) : cmd unit
| SetNX (key value : string) (expiration : Z) : cmd bool
| SetXX (key value : string) (expiration : Z) : cmd bool
| Incr (key : string) : cmd Z
| IncrFixedWindow (key : string) (window : Z) : cmd Z
| GetInt (key : string) : cmd (option Z)
| Del (keys : list string) : cmd unit
| Expire (key : string) (expiration : Z) : cmd unit
| ZAdd (key : string) (score : Z) (member : string) : cmd unit
| ZRem (key member : string) : cmd unit
| ZRange (key : string) : cmd (list string)                      (** from 0 to -1 *)
| ZRangeByScore (key : string) (min : Z) : cmd (list string)     (** to "+inf" *)
| ZRemRangeByScore (key : string) (max : Z) : cmd unit.          (** from "-inf" *)

(** ** What the commands are documented to do *)

(** The keys stored at an instant. *)
Definition lives (t : Z) (e : value * option Z) : Prop := match e.2 with Some d => t <= d | None => True end.
#[export] Instance lives_dec t e : Decision (lives t e).
Proof. destruct e as [v [d|]]; cbn; apply _. Defined.
Definition live (t : Z) (K : keyspace) : keyspace := filter (fun p => lives t p.2) K.

(** Members by score, and by name where the scores agree. *)
Definition by_score (p q : string * Z) : Prop := p.2 < q.2 \/ (p.2 = q.2 /\ String.le p.1 q.1).
#[export] Instance by_score_dec p q : Decision (by_score p q).
Proof. unfold by_score. apply _. Defined.
Definition range (members : gmap string Z) : list string := (merge_sort by_score (map_to_list members)).*1.

(** A sorted set whose last member goes is gone. *)
Definition store_set (key : string) (members : gmap string Z) (d : option Z) (K : keyspace) : keyspace :=
  if bool_decide (members = ∅) then base.delete key K else <[key := (SortedSet members, d)]> K.

Definition expires (ttl d : Z) : option Z := if 0 <? ttl then Some d else None.

(** The answer and the keyspace after a command, whose expiration ends at
    [d]; a key that holds another type of value is an error. *)
Definition documented {R : Set} (c : cmd R) (d : Z) (K : keyspace) : option R * keyspace :=
  match c with
  | Get k =>
      (match K !! k with
       | None => Some None
       | Some (Text s, _) => Some (Some s)
       | Some (Number n, _) => Some (Some (FormatInt n))
       | Some (SortedSet _, _) => None
       end, K)
  | Set_ k s ttl => (Some tt, <[k := (Text s, expires ttl d)]> K)
  | SetNX k s ttl => match K !! k with None => (Some true, <[k := (Text s, expires ttl d)]> K) | Some _ => (Some false, K) end
  | SetXX k s ttl => match K !! k with None => (Some false, K) | Some _ => (Some true, <[k := (Text s, expires ttl d)]> K) end
  | Incr k =>
      match K !! k with
      | None => (Some 1, <[k := (Number 1, None)]> K)
      | Some (Number n, e) => (Some (n + 1), <[k := (Number (n + 1), e)]> K)
      | Some _ => (None, K)
      end
  | IncrFixedWindow k _ =>
      match K !! k with
      | None => (Some 1, <[k := (Number 1, Some d)]> K)
      | Some (Number n, e) => (Some (n + 1), <[k := (Number (n + 1), Some (default d e))]> K)
      | Some _ => (None, K)
      end
  | GetInt k =>
      (match K !! k with
       | None => Some None
       | Some (Number n, _) => Some (Some n)
       | Some (Text s, _) => match ParseInt s 64 with (n, None) => Some (Some n) | _ => None end
       | Some (SortedSet _, _) => None
       end, K)
  | Del ks => (Some tt, foldr base.delete K ks)
  | Expire k ttl =>
      (Some tt, match K !! k with
                | Some (v, _) => if 0 <? ttl then <[k := (v, Some d)]> K else base.delete k K
                | None => K
                end)
  | ZAdd k score m =>
      match K !! k with
      | None => (Some tt, <[k := (SortedSet {[m := score]}, None)]> K)
      | Some (SortedSet s, e) => (Some tt, <[k := (SortedSet (<[m := score]> s), e)]> K)
      | Some _ => (None, K)
      end
  | ZRem k m =>
      match K !! k with
      | None => (Some tt, K)
      | Some (SortedSet s, e) => (Some tt, store_set k (base.delete m s) e K)
      | Some _ => (None, K)
      end
  | ZRange k =>
      (match K !! k with None => Some [] | Some (SortedSet s, _) => Some (range s) | Some _ => None end, K)
  | ZRangeByScore k min =>
      (match K !! k with
       | None => Some []
       | Some (SortedSet s, _) => Some (range (filter (fun p => min <= p.2) s))
       | Some _ => None
       end, K)
  | ZRemRangeByScore k max =>
      match K !! k with
      | None => (Some tt, K)
      | Some (SortedSet s, e) => (Some tt, store_set k (filter (fun p => max < p.2) s) e K)
      | Some _ => (None, K)
      end
  end.

(** ** Servers *)

(** The lifetime a command gives its key and the unit the client sends it in:
    EXPIRE in seconds, the others in milliseconds. *)
Definition lifetime {R : Set} (c : cmd R) : option (Z * Z) :=
  match c with
  | Set_ _ _ ttl | SetNX _ _ ttl | SetXX _ _ ttl | IncrFixedWindow _ ttl => Some (ttl, millisecond)
  | Expire _ ttl => Some (ttl, second)
  | _ => None
  end.

(** A positive lifetime lasts as long as it says when it is a whole number of
    units, and never two units longer; it never ends at once. *)
Definition ends {R : Set} (c : cmd R) (t d : Z) : Prop :=
  match lifetime c with
  | Some (ttl, unit) => 0 < ttl -> t <= d /\ (ttl mod unit = 0 -> t + ttl <= d) /\ d < t + ttl + 2 * unit
  | None => True
  end.

Class Server (S : Type) : Type := {
  keys_of : S -> keyspace;
  execute : forall {R : Set}, cmd R -> Z -> S -> option R * S }.

(** A command executed at an instant does what is documented to the keys
    stored then, and the keys stored at any later instant follow. *)
Class Documented (S : Type) `{Server S} : Prop :=
  executes : forall (R : Set) (c : cmd R) (t : Z) (s : S), exists d, ends c t d /\
    (execute c t s).1 = (documented c d (live t (keys_of s))).1 /\
    forall t', t <= t' -> live t' (keys_of (execute c t s).2) = live t' (documented c d (live t (keys_of s))).2.

(** A server that keeps every key for exactly its lifetime. *)
#[export] Instance exact : Server keyspace := {
  keys_of K := K;
  execute R c t K := documented c (t + match lifetime c with Some (ttl, _) => ttl | None => 0 end) (live t K) }.

#[export] Instance exact_documented : Documented keyspace.
Proof.
  intros R c t K. eexists. split; [|split; [reflexivity|reflexivity]].
  unfold ends. destruct (lifetime c) as [[ttl unit]|] eqn:E; [|done]. intros Hp.
  assert (0 < unit) by (destruct c; inversion E; reflexivity). lia.
Qed.

(** ** Programs *)

(** A program may ask the rest of the application, the database for one; what
    it is answered is left open. *)
Inductive prog (question : Set -> Type) (A : Type) : Type :=
| Ret (a : A)
| Now (k : Z -> prog question A)                                 (** time.Now() *)
| Call {R : Set} (c : cmd R) (k : option R -> prog question A)   (** [None]: an error *)
| Ask {R : Set} (q : question R) (k : R -> prog question A).
Arguments Ret {question A} a.
Arguments Now {question A} k.
Arguments Call {question A R} c k.
Arguments Ask {question A R} q k.

Fixpoint bind {question A B} (p : prog question A) (k : A -> prog question B) : prog question B :=
  match p with
  | Ret a => k a
  | Now f => Now (fun t => bind (f t) k)
  | Call c f => Call c (fun r => bind (f r) k)
  | Ask q f => Ask q (fun r => bind (f r) k)
  end.

Declare Scope prog_scope.
Delimit Scope prog_scope with prog.
Bind Scope prog_scope with prog.
Notation "x <- p ;; k" := (bind p (fun x => k)) (at level 100, p at next level, right associativity) : prog_scope.
Notation "p ;; k" := (bind p (fun _ => k)) (at level 100, right associativity) : prog_scope.

(** ** Runs *)

(** The server, the clock everyone reads, and the keys SET has written so
    far. *)
Record world (S : Type) : Type := mkWorld { server : S; clock : Z; written : gset string }.
Arguments mkWorld {S} server clock written.
Arguments server {S} w.
Arguments clock {S} w.
Arguments written {S} w.

Section Runs.
Context {S : Type} `{Server S} {question : Set -> Type}.
Local Abbreviation prog := (prog question).

Definition stored (w : world S) : keyspace := live (clock w) (keys_of (server w)).
Definition tick (t : Z) (w : world S) : world S := mkWorld (server w) t (written w).

Definition wrote {R : Set} (c : cmd R) : gset string := match c with Set_ k _ _ => {[k]} | _ => ∅ end.
Definition answer {R : Set} (c : cmd R) (w : world S) : option R := (execute c (clock w) (server w)).1.
Definition after {R : Set} (c : cmd R) (w : world S) : world S :=
  mkWorld (execute c (clock w) (server w)).2 (clock w) (wrote c ∪ written w).

(** One step of a program: a command runs, is refused, or runs and its answer
    is lost. *)
Definition next {A} (w : world S) (p : prog A) (w' : world S) (p' : prog A) : Prop :=
  match p with
  | Ret _ => False
  | Now k => w' = w /\ p' = k (clock w)
  | Call c k => (w' = after c w /\ (p' = k (answer c w) \/ p' = k None)) \/ (w' = w /\ p' = k None)
  | Ask q k => w' = w /\ exists r, p' = k r
  end.

(** Requests served at once, each by its program. *)
Context {Req Ans : Type} (body : Req -> prog Ans).

Record thread : Type := mkThread { serves : Req; began : nat; rest : prog Ans }.
(** What a thread answered, and when: [before] counts the events at its
    start. *)
Record event : Type := mkEvent { asked : Req; before : nat; answered : Ans; at_ : Z }.
Record system : Type := mkSystem { this : world S; threads : gmap nat thread; events : list event }.

(** Which requests may start, and how far the clock may run on. *)
Variable may_start : system -> Req -> Prop.
Variable may_pass : system -> Z -> Prop.

Inductive step : system -> system -> Prop :=
| step_tick s t : clock (this s) <= t -> may_pass s t -> step s (mkSystem (tick t (this s)) (threads s) (events s))
| step_start s i r : threads s !! i = None -> may_start s r ->
    step s (mkSystem (this s) (<[i := mkThread r (length (events s)) (body r)]> (threads s)) (events s))
| step_next s i th w' p' : threads s !! i = Some th -> next (this s) (rest th) w' p' ->
    step s (mkSystem w' (<[i := mkThread (serves th) (began th) p']> (threads s)) (events s))
| step_finish s i th a : threads s !! i = Some th -> rest th = Ret a ->
    step s (mkSystem (this s) (base.delete i (threads s)) (events s ++ [mkEvent (serves th) (began th) a (clock (this s))]))
| step_crash s i : step s (mkSystem (this s) (base.delete i (threads s)) (events s)).

Definition start (w : world S) : system := mkSystem w ∅ [].
End Runs.
Arguments thread : clear implicits.
Arguments event : clear implicits.
Arguments system : clear implicits.
