(* ===== verification/RedisSafe.v ===== *)
(** * Reasoning about programs over Redis

    What a command does to the keys it is not about, and a rely-guarantee
    logic: [safe R G p Phi w] says that [p], run from [w] while others change
    the world as [R] allows, itself changes it as [G] allows and ends where
    [Phi] holds.  The end is an executable reading of the system of [Redis],
    by a schedule that tells which request starts, takes so many of its
    commands, or answers, and when. *)

From stdpp Require Import base list gmap strings.
From Stdlib Require Import ZArith Lia.
From S2P Require Import Prelude Redis.
Local Open Scope Z_scope.
Local Open Scope prog_scope.

(** ** Keys *)

Lemma live_lookup t (K : keyspace) k e : live t K !! k = Some e <-> K !! k = Some e /\ lives t e.
Proof. unfold live. rewrite map_lookup_filter_Some. done. Qed.

Lemma live_None t (K : keyspace) k : K !! k = None -> live t K !! k = None.
Proof. intros E. apply map_lookup_filter_None. by left. Qed.

Lemma lives_mono t t' e : t <= t' -> lives t' e -> lives t e.
Proof. destruct e as [v [d|]]; unfold lives; cbn; [lia|done]. Qed.

Lemma live_live t t' (K : keyspace) : t <= t' -> live t' (live t K) = live t' K.
Proof.
  intros H. apply map_eq. intros k. apply option_eq. intros e. rewrite !live_lookup.
  split; [by intros [[? _] ?]|]. intros [? He]. split; [|done]. split; [done|]. by apply (lives_mono _ t').
Qed.

(** The keys a command may write. *)
Definition touched {R : Set} (c : cmd R) : list string :=
  match c with
  | Set_ k _ _ | SetNX k _ _ | SetXX k _ _ | Incr k | IncrFixedWindow k _ | Expire k _ | ZAdd k _ _ | ZRem k _ | ZRemRangeByScore k _ => [k]
  | Del ks => ks
  | Get _ | GetInt _ | ZRange _ | ZRangeByScore _ _ => []
  end.

Lemma delete_all_lookup (ks : list string) (K : keyspace) k :
  foldr base.delete K ks !! k = if bool_decide (k ∈ ks) then None else K !! k.
Proof.
  induction ks as [|x ks IH]; cbn [foldr]; [by rewrite bool_decide_false by apply not_elem_of_nil|].
  destruct (decide (x = k)) as [->|Hx].
  - rewrite lookup_delete_eq, bool_decide_true by constructor. done.
  - rewrite lookup_delete_ne, IH by done. by rewrite (bool_decide_ext (k ∈ x :: ks) (k ∈ ks)) by set_solver.
Qed.

Lemma store_set_ne k k' m d (K : keyspace) : k' <> k -> store_set k m d K !! k' = K !! k'.
Proof. intros H. unfold store_set. case_bool_decide; [by apply lookup_delete_ne|by apply lookup_insert_ne]. Qed.

Lemma documented_frame {R : Set} (c : cmd R) d (K : keyspace) k : k ∉ touched c -> (documented c d K).2 !! k = K !! k.
Proof.
  destruct c; cbn -[store_set]; intros Hk; rewrite ?list_elem_of_singleton in Hk; try done;
    repeat (case_match; cbn -[store_set]; try done); try (by rewrite lookup_insert_ne by congruence);
    try (by rewrite store_set_ne by congruence); [|by rewrite lookup_delete_ne by congruence].
  by rewrite delete_all_lookup, bool_decide_false.
Qed.

(** ** Worlds *)

Section Worlds.
Context {S : Type} `{Documented S}.
Implicit Types w : world S.

Lemma stored_tick t w : clock w <= t -> stored (tick t w) = live t (stored w).
Proof. intros Ht. unfold stored, tick. cbn. by rewrite live_live. Qed.

Lemma stored_lookup w k e : stored w !! k = Some e -> lives (clock w) e.
Proof. unfold stored. by intros [_ ?]%live_lookup. Qed.

(** A command answers and changes what is stored as documented. *)
Lemma after_documented {R : Set} (c : cmd R) w : exists d, ends c (clock w) d /\
  answer c w = (documented c d (stored w)).1 /\ stored (after c w) = live (clock w) (documented c d (stored w)).2.
Proof.
  destruct (executes R c (clock w) (server w)) as (d & Hd & Ha & Hs). exists d. split; [done|]. split; [done|].
  unfold stored, after. cbn. apply Hs. lia.
Qed.

Lemma clock_after {R : Set} (c : cmd R) w : clock (after c w) = clock w.
Proof. done. Qed.

Lemma written_after {R : Set} (c : cmd R) w : written w ⊆ written (after c w).
Proof. unfold after. cbn. set_solver. Qed.

Lemma after_frame {R : Set} (c : cmd R) w k : k ∉ touched c -> stored (after c w) !! k = stored w !! k.
Proof.
  intros Hk. destruct (after_documented c w) as (d & _ & _ & ->). apply option_eq. intros e.
  rewrite live_lookup, documented_frame by done. split; [by intros [? _]|]. intros E. split; [done|by apply (stored_lookup w k)].
Qed.

(** ** Rely and guarantee *)

Context {question : Set -> Type}.
Local Abbreviation prog := (prog question).

Fixpoint safe {A} (R G : world S -> world S -> Prop) (p : prog A) (Phi : A -> world S -> Prop) (w : world S) : Prop :=
  forall w', R w w' ->
  match p with
  | Ret a => Phi a w'
  | Now k => safe R G (k (clock w')) Phi w'
  | Ask q k => forall r, safe R G (k r) Phi w'
  | Call c k =>
      safe R G (k None) Phi w' /\ G w' (after c w') /\ safe R G (k (answer c w')) Phi (after c w') /\ safe R G (k None) Phi (after c w')
  end.

Section Logic.
Variables R G : world S -> world S -> Prop.
Context `{!PreOrder R}.

Lemma safe_from {A} (p : prog A) Phi w w' : R w w' -> safe R G p Phi w -> safe R G p Phi w'.
Proof. intros Hw Hp. destruct p; cbn in *; intros w2 Hw2; apply Hp; by transitivity w'. Qed.

Lemma safe_mono {A} (p : prog A) (Phi Psi : A -> world S -> Prop) w :
  (forall a w', Phi a w' -> Psi a w') -> safe R G p Phi w -> safe R G p Psi w.
Proof.
  intros HPhi. revert w. induction p as [a|k IH|Q c k IH|Q q k IH]; cbn; intros w Hp w' Hw; specialize (Hp w' Hw).
  - by apply HPhi.
  - by apply IH.
  - destruct Hp as (?&?&?&?). repeat split; auto.
  - intros r. apply IH, Hp.
Qed.

Lemma safe_bind {A B} (p : prog A) (k : A -> prog B) Phi w :
  safe R G p (fun a w' => safe R G (k a) Phi w') w -> safe R G (bind p k) Phi w.
Proof.
  revert w. induction p as [a|f IH|Q c f IH|Q q f IH]; cbn; intros w Hp.
  - specialize (Hp w ltac:(reflexivity)). done.
  - intros w' Hw. apply IH, Hp, Hw.
  - intros w' Hw. destruct (Hp w' Hw) as (?&?&?&?). repeat split; auto.
  - intros w' Hw r. apply IH, Hp, Hw.
Qed.

(** An assertion others leave alone. *)
Definition stable (P : world S -> Prop) : Prop := forall w w', P w -> R w w' -> P w'.

Lemma safe_answer {A} (a : A) (Phi : A -> world S -> Prop) w : stable (Phi a) -> Phi a w -> safe R G (Ret a) Phi w.
Proof. intros HP Ha w' Hw. by apply (HP w). Qed.

Lemma safe_clock {A} (k : Z -> prog A) Phi (P : world S -> Prop) w :
  stable P -> P w -> (forall w', P w' -> safe R G (k (clock w')) Phi w') -> safe R G (Now k) Phi w.
Proof. intros HP Hw Hk w' Hw'. apply Hk. by apply (HP w). Qed.

Lemma safe_ask {A} {Q : Set} (q : question Q) (k : Q -> prog A) Phi w : (forall r, safe R G (k r) Phi w) -> safe R G (Ask q k) Phi w.
Proof. intros Hk w' Hw r. by apply (safe_from _ _ w). Qed.

(** A command sent where [P] holds: it is allowed, and the program goes on
    from [P] when it is refused, from [Q] with the answer otherwise. *)
Lemma safe_call {A} {X : Set} (c : cmd X) (k : option X -> prog A) Phi (P : world S -> Prop) w :
  stable P -> P w ->
  (forall w', P w' -> safe R G (k None) Phi w' /\ G w' (after c w') /\ safe R G (k (answer c w')) Phi (after c w') /\
    safe R G (k None) Phi (after c w')) ->
  safe R G (Call c k) Phi w.
Proof. intros HP Hw Hk w' Hw'. apply Hk. by apply (HP w). Qed.
End Logic.

(** What others leave alone, and so does the program, still holds at the end. *)
Lemma safe_frame R G `{!PreOrder R} {A} (p : prog A) Phi (I : world S -> Prop) w :
  (forall w w', G w w' -> R w w') -> stable R I -> I w -> safe R G p Phi w -> safe R G p (fun a w' => Phi a w' /\ I w') w.
Proof.
  intros HG HI. revert w. induction p as [a|f IH|X c f IH|X q f IH]; cbn; intros w Hi Hp w' Hw'; specialize (Hp w' Hw');
    assert (I w') as Hi' by eauto; auto.
  destruct Hp as (?&?&?&?). assert (I (after c w')) by eauto. auto.
Qed.

(** One step of a program that is safe. *)
Lemma safe_next {A} R G `{!PreOrder R} (p p' : prog A) Phi w w' :
  safe R G p Phi w -> next w p w' p' -> safe R G p' Phi w' /\ (w' = w \/ G w w').
Proof.
  intros Hp. destruct p as [a|f|X c f|X q f]; cbn in *; [done| | |]; specialize (Hp w ltac:(reflexivity)).
  - intros [-> ->]. auto.
  - destruct Hp as (H1 & H2 & H3 & H4). intros [[-> [-> | ->]]|[-> ->]]; auto.
  - intros [-> [r ->]]. auto.
Qed.

(** Programs all of whose commands satisfy a predicate. *)
Fixpoint sends (P : forall Q : Set, cmd Q -> Prop) {A} (p : prog A) : Prop :=
  match p with
  | Ret _ => True
  | Now k => forall t, sends P (k t)
  | Ask q k => forall r, sends P (k r)
  | Call c k => P _ c /\ forall r, sends P (k r)
  end.

Lemma sends_bind P {A B} (p : prog A) (k : A -> prog B) : sends P p -> (forall a, sends P (k a)) -> sends P (bind p k).
Proof.
  intros Hp Hk. induction p as [a|f IH|Q c f IH|Q q f IH]; cbn in *; auto. destruct Hp. auto.
Qed.

(** Programs all of whose answers satisfy a predicate. *)
Fixpoint returns {A} (Q : A -> Prop) (p : prog A) : Prop :=
  match p with
  | Ret a => Q a
  | Now k => forall t, returns Q (k t)
  | Ask q k => forall r, returns Q (k r)
  | Call c k => forall r, returns Q (k r)
  end.

Lemma returns_bind {A B} (Q : A -> Prop) (Q' : B -> Prop) (p : prog A) (k : A -> prog B) :
  returns Q p -> (forall a, Q a -> returns Q' (k a)) -> returns Q' (bind p k).
Proof. intros Hp Hk. induction p as [a|f IH|X c f IH|X q f IH]; cbn in *; auto. Qed.

Lemma returns_True {A} (p : prog A) : returns (fun _ => True) p.
Proof. induction p; cbn; auto. Qed.

Lemma sends_returns_safe P R G `{!PreOrder R} {A} (p : prog A) (Q : A -> Prop) (I : world S -> Prop) w :
  (forall (X : Set) (c : cmd X) w, P X c -> I w -> G w (after c w) /\ I (after c w)) -> stable R I ->
  sends P p -> returns Q p -> I w -> safe R G p (fun a w' => I w' /\ Q a) w.
Proof.
  intros HP HI. revert w. induction p as [a|f IH|X c f IH|X q f IH]; cbn; intros w Hp Hq Hw w' Hw'; assert (I w') as Hi by eauto.
  - done.
  - by apply IH.
  - destruct Hp as [Hc Hf]. destruct (HP X c w' Hc Hi) as [? ?]. repeat split; auto.
  - intros r. by apply IH.
Qed.

Lemma safe_returns {A} R G (p : prog A) Phi (Q : A -> Prop) w :
  returns Q p -> safe R G p Phi w -> safe R G p (fun a w' => Phi a w' /\ Q a) w.
Proof.
  revert w. induction p as [a|f IH|X c f IH|X q f IH]; cbn; intros w Hq Hp w' Hw'; specialize (Hp w' Hw'); auto.
  destruct Hp as (?&?&?&?). auto 6.
Qed.

Lemma safe_weaken {A} (R R' G G' : world S -> world S -> Prop) (p : prog A) Phi w :
  (forall w w', R' w w' -> R w w') -> (forall w w', G w w' -> G' w w') -> safe R G p Phi w -> safe R' G' p Phi w.
Proof.
  intros HR HG. revert w. induction p as [a|f IH|X c f IH|X q f IH]; cbn; intros w Hp w' Hw'; specialize (Hp w' (HR _ _ Hw')); auto.
  destruct Hp as (?&?&?&?). auto.
Qed.

Lemma sends_safe P R G `{!PreOrder R} {A} (p : prog A) (I : world S -> Prop) w :
  (forall (Q : Set) (c : cmd Q) w, P Q c -> I w -> G w (after c w) /\ I (after c w)) -> stable R I ->
  sends P p -> I w -> safe R G p (fun _ w' => I w') w.
Proof.
  intros HP HI Hp Hw. eapply safe_mono; [|by apply (sends_returns_safe P R G p (fun _ => True)); auto using returns_True].
  by intros a w' [? _].
Qed.
End Worlds.

(** * Runs that a schedule tells *)

Local Open Scope Z_scope.

Section Schedules.
Context {S : Type} `{Server S} {question : Set -> Type} {Req Ans : Type}.
Variable body : Req -> prog question Ans.
Variable oracle : forall R : Set, question R -> R.

(** The next [n] steps of a program, of which none fails. *)
Fixpoint go {A} (n : nat) (w : world S) (p : prog question A) : world S * prog question A :=
  match n with
  | O => (w, p)
  | Datatypes.S n =>
      match p with
      | Ret a => (w, Ret a)
      | Now k => go n w (k (clock w))
      | Call c k => go n (after c w) (k (answer c w))
      | Ask q k => go n w (k (oracle _ q))
      end
  end.

Lemma go_returns {A} (Q : A -> Prop) n w (p : prog question A) w' a : returns Q p -> go n w p = (w', Ret a) -> Q a.
Proof.
  revert w p. induction n as [|n IH]; intros w p Hp; cbn [go]; [by intros [= -> ->]|].
  destruct p; cbn in Hp; [by intros [= -> ->]|apply IH, Hp..].
Qed.

Inductive move : Type :=
| Pass (t : Z)
| Begin (i : nat) (r : Req)
| Go (i n : nat)
| Answer (i : nat)
| Crash (i : nat).

Local Abbreviation state := (system S question Req Ans).
Variables (starts : state -> Req -> bool) (passes : state -> Z -> bool).

Definition make (s : state) (m : move) : option state :=
  match m with
  | Pass t => if (clock (this s) <=? t) && passes s t then Some (mkSystem (tick t (this s)) (threads s) (events s)) else None
  | Begin i r =>
      match threads s !! i with
      | None => if starts s r then Some (mkSystem (this s) (<[i := mkThread r (length (events s)) (body r)]> (threads s)) (events s)) else None
      | Some _ => None
      end
  | Go i n =>
      match threads s !! i with
      | Some th => let (w, p) := go n (this s) (rest th) in Some (mkSystem w (<[i := mkThread (serves th) (began th) p]> (threads s)) (events s))
      | None => None
      end
  | Answer i =>
      match threads s !! i with
      | Some th => match rest th with
                   | Ret a => Some (mkSystem (this s) (base.delete i (threads s)) (events s ++ [mkEvent (serves th) (began th) a (clock (this s))]))
                   | _ => None
                   end
      | None => None
      end
  | Crash i => Some (mkSystem (this s) (base.delete i (threads s)) (events s))
  end.

Fixpoint makes (s : state) (ms : list move) : option state :=
  match ms with [] => Some s | m :: ms => match make s m with Some s => makes s ms | None => None end end.

Variables (may_start : state -> Req -> Prop) (may_pass : state -> Z -> Prop).
Hypothesis starts_ok : forall s r, starts s r = true -> may_start s r.
Hypothesis passes_ok : forall s t, passes s t = true -> may_pass s t.
Local Abbreviation step := (step body may_start may_pass).

Lemma go_steps n (s : state) i r b (p : prog question Ans) w' p' : threads s !! i = Some (mkThread r b p) -> go n (this s) p = (w', p') ->
  rtc step s (mkSystem w' (<[i := mkThread r b p']> (threads s)) (events s)).
Proof.
  revert s p. induction n as [|n IH]; intros s p Hi; cbn [go].
  - intros [= <- <-]. rewrite insert_id by done. by destruct s.
  - assert (forall w1 p1, next (this s) p w1 p1 -> go n w1 p1 = (w', p') -> rtc step s (mkSystem w' (<[i := mkThread r b p']> (threads s)) (events s))) as Hstep.
    { intros w1 p1 H1 Hg. eapply rtc_l; [by apply (step_next _ _ _ s i (mkThread r b p) w1 p1)|].
      specialize (IH (mkSystem w1 (<[i := mkThread r b p1]> (threads s)) (events s)) p1). cbn in IH. rewrite insert_insert_eq in IH.
      apply IH; [by rewrite lookup_insert_eq|done]. }
    destruct p as [a|k|X c k|X q k]; intros Hg.
    + injection Hg as <- <-. rewrite insert_id by done. by destruct s.
    + by apply (Hstep (this s) (k (clock (this s)))).
    + apply (Hstep (after c (this s)) (k (answer c (this s)))); [|done]. left. auto.
    + apply (Hstep (this s) (k (oracle X q))); [|done]. split; [done|eauto].
Qed.

Lemma make_steps s m s' : make s m = Some s' -> rtc step s s'.
Proof.
  destruct m as [t|i r|i n|i|i]; cbn.
  - destruct (Z.leb_spec (clock (this s)) t); [|done]. destruct (passes s t) eqn:E; [|done]. intros [= <-]. apply rtc_once. constructor; auto.
  - destruct (threads s !! i) eqn:Hi; [done|]. destruct (starts s r) eqn:E; [|done]. intros [= <-]. apply rtc_once. constructor; auto.
  - destruct (threads s !! i) as [[r b p]|] eqn:Hi; [|done]. cbn. destruct (go n (this s) p) as [w p'] eqn:Hg. intros [= <-].
    by apply (go_steps n _ _ _ _ p).
  - destruct (threads s !! i) as [th|] eqn:Hi; [|done]. destruct (rest th) as [a| | |] eqn:Ha; try done. intros [= <-].
    apply rtc_once. by apply (step_finish _ _ _ s i th a).
  - intros [= <-]. apply rtc_once. constructor.
Qed.

Lemma makes_steps ms s s' : makes s ms = Some s' -> rtc step s s'.
Proof.
  revert s. induction ms as [|m ms IH]; cbn; intros s; [by intros [= <-]|]. destruct (make s m) as [s1|] eqn:E; [|done]. intros Hm.
  etrans; [by apply make_steps with m|by apply IH].
Qed.
End Schedules.
