(* ===== verification/Sessions.v ===== *)
(** * Sessions of the identity and access module

    Models [src/internal/service/iam/session]: the store of sessions in Redis
    (store.go), the authentication of a request (authenticate.go, current.go,
    helper_userstate.go) and the services that list and end sessions; and the
    session a login makes ([iam/account/login.go]), logout.go, and the counter
    of failed logins ([iam/account/lockout.go]).

    The text of a snapshot, what a user agent names and the rows of the
    database are arguments.  Logging, cookies on responses and the metadata of
    a login that no decision reads are left out. *)

From stdpp Require Import base list gmap strings.
From Stdlib Require Import ZArith Ascii Strings.Byte.
From S2P Require Import Prelude GoStrings Redis.
Local Open Scope Z_scope.
Local Open Scope prog_scope.

(** ** Data *)

(** The zero [time.Time], in nanoseconds since the Unix epoch. *)
Definition zero_time : Z := -62135596800 * second.

Record Session : Type := mkSession {
  ID : string; UserID : string; Username : string; TenantID : string;
  MustChangePassword : bool;
  ClientIP : string; UserAgent : string; Platform : string; OS : string; EngineName : string; BrowserName : string;
  IssuedAt : Z; LastSeenAt : Z; ExpiresAt : Z }.

Definition zero_session : Session := mkSession "" "" "" "" false "" "" "" "" "" "" zero_time zero_time zero_time.

Inductive UserStatus : Set := Active | Inactive | Locked | OtherStatus (s : string).
Record UserState : Type := mkState { Status : UserStatus; MustChange : bool }.

(** What a refused call is answered with. *)
Inductive failure : Set :=
| EntryNotFound
| SnapshotUnreadable
| StoreFailed                               (** the store's own error *)
| Refused (status : Z) (message : string).  (** a [gst.Error] *)

(** A row read from the database. *)
Inductive row (A : Set) : Set := Found (a : A) | Missing | Unread.
Arguments Found {A} a.
Arguments Missing {A}.
Arguments Unread {A}.

(** What the services ask the database and the authorization. *)
Inductive question : Set -> Type :=
| UserStatusOf (user : string) : question (row UserStatus)
| MustChangePasswordOf (user : string) : question (row bool)           (** the password credential *)
| EmailOf (user : string) : question (row string)
| OwnerItem (user : string) : question (row unit)
| PasswordMatches (user password : string) : question bool
| IsSystemRoot (user : string) : question (option bool)
| TenantRoles (user tenant : string) : question (option (list string))
| TenantAdmin (actor user : string) : question (option failure).

Abbreviation prog := (Redis.prog question).
Abbreviation outcome A := (result failure A).
Abbreviation prog_ A := (prog (outcome A)).

(** [if err != nil { return err }], and an error that is dropped. *)
Definition try_ {A B} (p : prog_ A) (k : A -> prog_ B) : prog_ B :=
  r <- p;; match r with Ok a => k a | Err e => Ret (Err e) end.
Notation "'try' x <- p ;; k" := (try_ p (fun x => k)) (at level 100, x pattern, p at next level, right associativity) : prog_scope.
Definition ignore {A B} (p : prog A) (k : prog B) : prog B := p;; k.

(** A command and what stands for its failure. *)
Definition send {R : Set} (c : cmd R) (e : failure) : prog_ R :=
  Call c (fun r => Ret (match r with Some x => Ok x | None => Err e end)).

(** ** Keys *)

Definition sessionDataKey (id : string) : string := "iam:session:data:" +:+ id.
Definition sessionIndexUserKey (user : string) : string := "iam:session:index:user:" +:+ user.
Definition sessionIndexAllKey : string := "iam:session:index:all".
Definition sessionIndexSeenKey : string := "iam:session:index:seen".
Definition userStateKey (user : string) : string := "iam:user:state:" +:+ user.
Definition loginFailureKey (username : string) : string := "iam:login:failure:" +:+ username.

Definition sessionTouchInterval : Z := 30 * second.

(** ** Ids *)

Definition sessionIDBytes : nat := 32.

(** [hex.EncodeToString]. *)
Definition hexDigit (n : nat) : ascii := default "0"%char (String.get n "0123456789abcdef").
Definition EncodeToString (bytes : list Byte.byte) : string :=
  foldr (fun b s => String (hexDigit (Byte.to_nat b / 16)) (String (hexDigit (Byte.to_nat b mod 16)) s)) "" bytes.

(** [None] when the source of randomness fails. *)
Definition NewSessionID (random : option (nat -> Byte.byte)) : option string :=
  (fun byte => EncodeToString (map byte (seq 0 sessionIDBytes))) <$> random.

Section Store.
(** JSON: a snapshot whose times have no text is not written; a text that is
    no snapshot is not read. *)
Variable marshal : Session -> option string.
Variable unmarshal : string -> option Session.
Variable marshal_state : UserState -> string.
Variable unmarshal_state : string -> option UserState.
(** [GetSessionExpiration] and [GetSessionUserStateTTL]. *)
Variables (GetSessionExpiration GetSessionUserStateTTL : Z).

Definition indexRetention : Z := GetSessionExpiration.
Definition seenIndexRetention : Z := GetSessionExpiration + sessionTouchInterval.
Definition seenIndexCutoff (now : Z) : Z := now - seenIndexRetention.

(** ** Snapshots *)

Definition LoadSession (id : string) : prog_ Session :=
  let id := TrimSpace id in
  if (id =? "")%string then Ret (Err EntryNotFound)
  else
    try data <- send (Get (sessionDataKey id)) StoreFailed;;
    Ret (match data with
         | None => Err EntryNotFound
         | Some data => match unmarshal data with None => Err SnapshotUnreadable | Some s => Ok s end
         end).

Definition SaveSession (s : Session) (ttl : Z) : prog_ unit :=
  if (ID s =? "")%string then Ret (Err (Refused 500 "session id is required"))
  else if ttl <? 0 then Ret (Err (Refused 500 "session ttl is negative"))
  else
    match marshal s with
    | None => Ret (Err (Refused 500 "failed to store session"))
    | Some payload => send (Set_ (sessionDataKey (ID s)) payload ttl) (Refused 500 "failed to store session")
    end.

(** ** Indexes *)

Definition dropIndexError : failure := Refused 500 "failed to remove session index".

Definition DropSessionIndexes (user id : string) : prog_ unit :=
  if (id =? "")%string then Ret (Ok tt)
  else
    try _ <- (if (user =? "")%string then Ret (Ok tt) else send (ZRem (sessionIndexUserKey user) id) dropIndexError);;
    try _ <- send (ZRem sessionIndexAllKey id) dropIndexError;;
    send (ZRem sessionIndexSeenKey id) dropIndexError.

Definition DropUserSessionIndexMember (user id : string) : prog_ unit :=
  if (user =? "")%string || (id =? "")%string then Ret (Ok tt)
  else send (ZRem (sessionIndexUserKey user) id) dropIndexError.

Definition pruneIndex (key : string) (cutoff : Z) : prog_ unit :=
  send (ZRemRangeByScore key (UnixMilli cutoff)) (Refused 500 "failed to prune expired sessions").

Definition deleteUnreadableSnapshot (id : string) : prog_ unit :=
  try _ <- send (Del [sessionDataKey id]) StoreFailed;; DropSessionIndexes "" id.

Definition DeleteSession (id : string) : prog_ Session :=
  if (id =? "")%string then Ret (Ok zero_session)
  else
    try s <- LoadSession id;;
    try _ <- send (Del [sessionDataKey id]) StoreFailed;;
    try _ <- DropSessionIndexes (UserID s) id;;
    Ret (Ok s).

Definition indexSessionError : failure := Refused 500 "failed to index session".

(** The commands of an indexing, undone at the first that fails. *)
Fixpoint all_or_undo (cmds : list (cmd unit)) (undo : prog_ unit) : prog_ unit :=
  match cmds with
  | [] => Ret (Ok tt)
  | c :: cmds => Call c (fun r => match r with Some _ => all_or_undo cmds undo | None => ignore undo (Ret (Err indexSessionError)) end)
  end.

Definition IndexSession (s : Session) : prog_ unit :=
  if (UserID s =? "")%string || (ID s =? "")%string then Ret (Ok tt)
  else
    Now (fun now =>
    ignore (pruneIndex sessionIndexSeenKey (seenIndexCutoff now))
    (Now (fun now =>
    if ExpiresAt s - now <=? 0 then Ret (Err (Refused 500 "session expired"))
    else
      let score := UnixMilli (ExpiresAt s) in
      let userKey := sessionIndexUserKey (UserID s) in
      try _ <- send (ZAdd userKey score (ID s)) indexSessionError;;
      all_or_undo
        [ZAdd sessionIndexAllKey score (ID s);
         ZAdd sessionIndexSeenKey (UnixMilli (LastSeenAt s)) (ID s);
         Expire userKey indexRetention;
         Expire sessionIndexAllKey indexRetention;
         Expire sessionIndexSeenKey seenIndexRetention]
        (DropSessionIndexes (UserID s) (ID s))))).

Definition ListUserSessionIDs (user : string) : prog_ (list string) :=
  if (user =? "")%string then Ret (Ok [])
  else
    Now (fun now =>
    try _ <- pruneIndex (sessionIndexUserKey user) now;;
    send (ZRange (sessionIndexUserKey user)) (Refused 500 "failed to list user sessions")).

Definition ListAllSessionIDs : prog_ (list string) :=
  Now (fun now =>
  try _ <- pruneIndex sessionIndexAllKey now;;
  send (ZRange sessionIndexAllKey) (Refused 500 "failed to list sessions")).

Definition ListSeenSessionIDs (since : Z) : prog_ (list string) :=
  if since =? zero_time then Ret (Ok [])
  else
    Now (fun now =>
    ignore (pruneIndex sessionIndexSeenKey (seenIndexCutoff now))
    (send (ZRangeByScore sessionIndexSeenKey (UnixMilli since)) (Refused 500 "failed to list online sessions"))).

(** ** Activity *)

Definition seen_at (now : Z) (s : Session) : Session :=
  mkSession (ID s) (UserID s) (Username s) (TenantID s) (MustChangePassword s) (ClientIP s) (UserAgent s) (Platform s) (OS s) (EngineName s)
    (BrowserName s) (IssuedAt s) now (ExpiresAt s).

Definition touchSessionError : failure := Refused 500 "failed to touch session".

Definition TouchSession (id : string) (s : Session) (now : Z) : prog_ unit :=
  let id := TrimSpace id in
  if (id =? "")%string then Ret (Ok tt)
  else
    now <- (if now =? zero_time then Now (fun t => Ret t) else Ret now);;
    if now - LastSeenAt s <? sessionTouchInterval then Ret (Ok tt)
    else
      Now (fun t =>
      let ttl := ExpiresAt s - t in
      if ttl <=? 0 then ignore (DeleteSession id) (Ret (Err EntryNotFound))
      else
        match marshal (seen_at now s) with
        | None => Ret (Err touchSessionError)
        | Some payload =>
            try written <- send (SetXX (sessionDataKey id) payload ttl) touchSessionError;;
            if negb written then Ret (Ok tt)
            else
              try _ <- send (ZAdd sessionIndexSeenKey (UnixMilli now) id) touchSessionError;;
              ignore (pruneIndex sessionIndexSeenKey (seenIndexCutoff now)) (Ret (Ok tt))
        end).

(** ** Bulk revocation *)

(** The loop over the indexed ids of a user. *)
Fixpoint delete_each (user keep : string) (ids : list string) : prog_ unit :=
  match ids with
  | [] => Ret (Ok tt)
  | id :: ids =>
      if (id =? "")%string || (id =? keep)%string then delete_each user keep ids
      else
        r <- DeleteSession id;;
        match r with
        | Ok _ => delete_each user keep ids
        | Err EntryNotFound => ignore (DropSessionIndexes user id) (delete_each user keep ids)
        | Err _ => Ret (Err (Refused 500 "failed to delete session"))
        end
  end.

Definition deleteUserSessions (user keep : string) : prog_ unit :=
  try ids <- ListUserSessionIDs user;; delete_each user keep ids.

Definition DropUserState (user : string) : prog_ unit :=
  if (user =? "")%string then Ret (Ok tt) else ignore (send (Del [userStateKey user]) StoreFailed) (Ret (Ok tt)).

Definition DeleteUserSessions (user : string) : prog_ unit :=
  if (user =? "")%string then Ret (Ok tt)
  else
    ignore (DropUserState user)
    (try _ <- deleteUserSessions user "";;
     send (Del [sessionIndexUserKey user]) (Refused 500 "failed to delete user session index")).

Definition DeleteUserSessionsExcept (user keep : string) : prog_ unit :=
  if (user =? "")%string then Ret (Ok tt) else deleteUserSessions user keep.

(** ** User state *)

(** [Cache[UserState]().Get]: an entry that cannot be read is dropped. *)
Definition LoadUserState (user : string) : prog (option UserState) :=
  Call (Get (userStateKey user)) (fun r =>
    match r with
    | Some (Some data) =>
        if (data =? "")%string then Ret None
        else
          match unmarshal_state data with
          | Some s => Ret (Some s)
          | None => ignore (send (Del [userStateKey user]) StoreFailed) (Ret None)
          end
    | _ => Ret None
    end).

Definition SaveUserState (user : string) (s : UserState) : prog_ unit :=
  if GetSessionUserStateTTL <? 0 then Ret (Ok tt)
  else ignore (send (Set_ (userStateKey user) (marshal_state s) GetSessionUserStateTTL) StoreFailed) (Ret (Ok tt)).

Definition refreshSessionUserState (user : string) : prog_ UserState :=
  let invalid := Refused 401 "session invalid" in
  let failed := Refused 500 "failed to refresh session user state" in
  Ask (UserStatusOf user) (fun target =>
    match target with
    | Missing => Ret (Err invalid)
    | Unread => Ret (Err failed)
    | Found status =>
        Ask (MustChangePasswordOf user) (fun credential =>
          match credential with
          | Missing => Ret (Err invalid)
          | Unread => Ret (Err failed)
          | Found must_change =>
              let state := mkState status must_change in
              ignore (SaveUserState user state) (Ret (Ok state))
          end)
    end).

Definition ensureSessionUserActive (status : UserStatus) : outcome unit :=
  match status with
  | Inactive => Err (Refused 403 "account disabled")
  | Locked => Err (Refused 403 "account locked")
  | _ => Ok tt
  end.

Definition must_change_to (b : bool) (s : Session) : Session :=
  mkSession (ID s) (UserID s) (Username s) (TenantID s) b (ClientIP s) (UserAgent s) (Platform s) (OS s) (EngineName s)
    (BrowserName s) (IssuedAt s) (LastSeenAt s) (ExpiresAt s).

Definition ValidateSessionUserState (s : Session) : prog_ Session :=
  if (UserID s =? "")%string then Ret (Err (Refused 401 "session invalid"))
  else
    cached <- LoadUserState (UserID s);;
    try state <- match cached with Some state => Ret (Ok state) | None => refreshSessionUserState (UserID s) end;;
    Ret (match ensureSessionUserActive (Status state) with Err e => Err e | Ok _ => Ok (must_change_to (MustChange state) s) end).

(** ** Authentication *)

(** [ValidateSession], with the clock it reads: why a snapshot is not the
    session of an id. *)
Definition ValidateSession (id : string) (s : Session) (now : Z) : option string :=
  let id := TrimSpace id in
  if (id =? "")%string then Some "session id is required"%string
  else if negb (ID s =? id)%string then Some "session id mismatch"%string
  else if (UserID s =? "")%string then Some "user not authenticated"%string
  else if ExpiresAt s =? zero_time then Some "session expiration is required"%string
  else if ExpiresAt s <=? now then Some "session expired"%string
  else None.

(** Operating system, platform, browser engine and browser. *)
Record Device : Type := mkDevice { ua_OS : string; ua_Platform : string; ua_Engine : string; ua_Browser : string }.
Variable useragent_New : string -> Device.

Definition deviceMismatch (s : Session) (userAgent : string) : string :=
  let ua := useragent_New userAgent in
  if negb (OS s =? ua_OS ua)%string then "os mismatch"
  else if negb (Platform s =? ua_Platform ua)%string then "platform mismatch"
  else if negb (ua_Engine ua =? EngineName s)%string then "engine mismatch"
  else if negb (ua_Browser ua =? BrowserName s)%string then "browser mismatch"
  else "".

Definition MustChangePasswordExempt (method path : string) : bool :=
  ((method =? "POST") && (path =? "/api/iam/change-password") || (method =? "POST") && (path =? "/api/logout") ||
   (method =? "GET") && (path =? "/api/iam/session/current") || (method =? "DELETE") && (path =? "/api/iam/session/current"))%string.

(** [loadSession]: the snapshot, when the store holds one it can use. *)
Definition loadSession (id : string) : prog_ (option Session) :=
  r <- LoadSession id;;
  match r with
  | Ok s => Ret (Ok (Some s))
  | Err EntryNotFound => Ret (Ok None)
  | Err SnapshotUnreadable => ignore (deleteUnreadableSnapshot id) (Ret (Ok None))
  | Err _ => Ret (Err (Refused 500 "failed to load session"))
  end.

Definition rejected : failure := Refused 401 "session invalid".

Definition Authenticate (id userAgent method path : string) : prog_ Session :=
  let id := TrimSpace id in
  if (id =? "")%string then Ret (Err (Refused 401 "no session"))
  else
    try found <- loadSession id;;
    match found with
    | None => Ret (Err rejected)
    | Some s =>
        Now (fun now =>
        match ValidateSession id s now with
        | Some _ => ignore (DeleteSession id) (Ret (Err rejected))
        | None =>
            if negb (deviceMismatch s userAgent =? "")%string then Ret (Err rejected)
            else
              r <- ValidateSessionUserState s;;
              match r with
              | Err (Refused status message) =>
                  if (status =? 401) || (status =? 403) then ignore (DeleteSession id) (Ret (Err (Refused status message)))
                  else Ret (Err (Refused status message))
              | Err _ => ignore (DeleteSession id) (Ret (Err (Refused 403 "session invalid")))
              | Ok s =>
                  if MustChangePassword s && negb (MustChangePasswordExempt method path)
                  then Ret (Err (Refused 403 "password change required before using this resource"))
                  else Now (fun now => ignore (TouchSession id s now) (Ret (Ok s)))
              end
        end)
    end.

(** What a call carries: the session its middleware admitted, when it passed
    one, and the cookie, trimmed and not empty when it sent one. *)
Record caller : Type := mkCaller { admitted : option (string * Session); cookie : option string }.

Definition CookieSessionID (c : caller) : outcome string :=
  match cookie c with Some id => Ok id | None => Err (Refused 401 "session id is required") end.

Definition CurrentSession (c : caller) : prog_ (string * Session) :=
  let checked id s :=
    Now (fun now => match ValidateSession id s now with
                    | Some _ => ignore (DeleteSession id) (Ret (Err rejected))
                    | None => Ret (Ok (id, s))
                    end) in
  match admitted c with
  | Some (id, s) => checked id s
  | None =>
      match CookieSessionID c with
      | Err e => Ret (Err e)
      | Ok id =>
          try found <- loadSession id;;
          match found with
          | None => Ret (Err (Refused 401 "session not exists"))
          | Some s => checked id s
          end
      end
  end.

(** ** Services *)

Definition not_found (e : failure) : bool := match e with EntryNotFound => true | _ => false end.

(** The snapshot of a target that is listed or ended: one that fails
    validation is deleted on the way. *)
Definition load_target {A} (id : string) (missing : outcome A) (unread : string) (k : Session -> prog_ A) : prog_ A :=
  r <- LoadSession id;;
  match r with
  | Err e => Ret (if not_found e then missing else Err (Refused 500 unread))
  | Ok s => Now (fun now => match ValidateSession id s now with
                            | Some _ => ignore (DeleteSession id) (Ret missing)
                            | None => k s
                            end)
  end.

Definition end_target {A} (id : string) (missing : outcome A) (done : A) : prog_ A :=
  r <- DeleteSession id;;
  Ret (match r with
       | Ok _ => Ok done
       | Err e => if not_found e then missing else Err (Refused 500 "failed to delete session")
       end).

(** [SessionDeleteService.Delete], of the id in the path. *)
Definition SessionDelete (c : caller) (target : string) : prog_ unit :=
  try (current, s) <- CurrentSession c;;
  if (target =? "")%string then Ret (Err (Refused 400 "session id is required"))
  else if (target =? "others")%string then DeleteUserSessionsExcept (UserID s) current
  else
    load_target target (Ok tt) "failed to load target session" (fun t =>
    if negb (UserID t =? UserID s)%string then Ret (Err (Refused 403 "forbidden"))
    else end_target target (Ok tt) tt).

Definition SessionDeleteAll (c : caller) : prog_ unit :=
  try (_, s) <- CurrentSession c;; DeleteUserSessions (UserID s).

Definition CurrentDelete (c : caller) : prog_ unit :=
  match CookieSessionID c with
  | Err e => Ret (Err e)
  | Ok id => r <- DeleteSession id;; Ret (match r with Ok _ => Ok tt | Err _ => Err (Refused 401 "session not exists") end)
  end.

Definition loadAdminSessionActor (c : caller) : prog_ string :=
  try (_, s) <- CurrentSession c;;
  Ask (UserStatusOf (UserID s)) (fun actor =>
    match actor with
    | Found status => Ret (match ensureSessionUserActive status with Ok _ => Ok (UserID s) | Err e => Err e end)
    | _ => Ret (Err (Refused 401 "session invalid"))
    end).

(** The system role is asked of the authorization, which may fail. *)
Definition ensureAdminSessionActor (c : caller) : prog_ unit :=
  try actor <- loadAdminSessionActor c;;
  Ask (IsSystemRoot actor) (fun root =>
    Ret (match root with
         | None => Err (Refused 500 "authorization unavailable")
         | Some true => Ok tt
         | Some false => Err (Refused 403 "forbidden")
         end)).

Definition AdminSessionDelete (c : caller) (target : string) : prog_ unit :=
  try _ <- CurrentSession c;;
  try _ <- ensureAdminSessionActor c;;
  if (target =? "")%string then Ret (Err (Refused 400 "session id is required"))
  else
    let missing := Err (Refused 404 "session not found") in
    load_target target missing "failed to load target session" (fun _ => end_target target missing tt).

(** [EnsureTenantAdmin] decides from the two users, or fails. *)
Definition ensureAdminSessionTarget (c : caller) (user : string) : prog_ unit :=
  try actor <- loadAdminSessionActor c;;
  Ask (TenantAdmin actor user) (fun allowed => Ret (match allowed with None => Ok tt | Some e => Err e end)).

Definition load_user (user : string) (k : UserStatus -> prog_ unit) : prog_ unit :=
  Ask (UserStatusOf user) (fun target =>
    match target with
    | Missing => Ret (Err (Refused 404 "user not found"))
    | Unread => Ret (Err (Refused 500 "failed to load user"))
    | Found status => k status
    end).

Definition AdminUserSessionDelete (c : caller) (user : string) : prog_ unit :=
  try _ <- CurrentSession c;;
  if (user =? "")%string then Ret (Err (Refused 400 "user id is required"))
  else load_user user (fun _ => try _ <- ensureAdminSessionTarget c user;; DeleteUserSessions user).

Definition SessionGet (c : caller) (target : string) : prog_ Session :=
  try (_, s) <- CurrentSession c;;
  if (target =? "")%string then Ret (Err (Refused 400 "session id is required"))
  else
    load_target target (Err (Refused 404 "session not found")) "failed to load target session" (fun t =>
    Ret (if negb (UserID t =? UserID s)%string then Err (Refused 403 "forbidden") else Ok t)).

Definition AdminSessionGet (c : caller) (target : string) : prog_ Session :=
  try _ <- CurrentSession c;;
  try _ <- ensureAdminSessionActor c;;
  if (target =? "")%string then Ret (Err (Refused 400 "session id is required"))
  else load_target target (Err (Refused 404 "session not found")) "failed to load target session" (fun t => Ret (Ok t)).

Definition CurrentGet (c : caller) : prog_ Session :=
  try (_, s) <- CurrentSession c;;
  Ask (UserStatusOf (UserID s)) (fun user =>
    match user with
    | Found status =>
        try _ <- Ret (ensureSessionUserActive status);;
        Ask (EmailOf (UserID s)) (fun email =>
          match email with
          | Unread => Ret (Err (Refused 500 "failed to load email identity"))
          | _ => Ask (IsSystemRoot (UserID s)) (fun root =>
              Ret (match root with None => Err (Refused 500 "authorization unavailable") | Some _ => Ok s end))
          end)
    | _ => Ret (Err rejected)
    end).

(** *** Lists

    A view is its snapshot; the order of a response is left out. *)

Fixpoint list_each (user current : string) (s : Session) (ids : list string) : prog_ (list Session) :=
  match ids with
  | [] => Ret (Ok [])
  | id :: ids =>
      if (id =? current)%string then try l <- list_each user current s ids;; Ret (Ok (s :: l))
      else
        r <- LoadSession id;;
        match r with
        | Err e =>
            if not_found e then ignore (DropSessionIndexes user id) (list_each user current s ids)
            else Ret (Err (Refused 500 "failed to load session"))
        | Ok t => Now (fun now =>
            match ValidateSession id t now with
            | Some _ => ignore (DeleteSession id) (list_each user current s ids)
            | None => try l <- list_each user current s ids;; Ret (Ok (t :: l))
            end)
        end
  end.

Definition SessionList (c : caller) : prog_ (list Session) :=
  try (current, s) <- CurrentSession c;;
  try ids <- ListUserSessionIDs (UserID s);;
  list_each (UserID s) current s ids.

Definition sessionSeenSince (s : Session) (since : Z) : bool := negb (LastSeenAt s =? zero_time) && (since <=? LastSeenAt s).

(** The loop of [AdminUserSessionListService.buildView]; [index] is the user
    whose index the ids come from, or empty. *)
Fixpoint view_each (user index : string) (since : option Z) (ids : list string) : prog_ (list Session) :=
  match ids with
  | [] => Ret (Ok [])
  | id :: ids =>
      if (id =? "")%string then view_each user index since ids
      else
        r <- LoadSession id;;
        match r with
        | Err e =>
            if not_found e then ignore (DropSessionIndexes index id) (view_each user index since ids)
            else Ret (Err (Refused 500 "failed to load session"))
        | Ok t => Now (fun now =>
            match ValidateSession id t now with
            | Some _ => ignore (DeleteSession id) (view_each user index since ids)
            | None =>
                if negb (UserID t =? user)%string then
                  if negb (index =? "")%string then ignore (DropUserSessionIndexMember index id) (view_each user index since ids)
                  else view_each user index since ids
                else if match since with Some since => negb (sessionSeenSince t since) | None => false end then view_each user index since ids
                else try l <- view_each user index since ids;; Ret (Ok (t :: l))
            end)
        end
  end.

Definition buildView (user : string) (since : option Z) : prog_ (list Session) :=
  Ask (MustChangePasswordOf user) (fun credential =>
  Ask (EmailOf user) (fun email =>
    match credential, email with
    | Found _, (Found _ | Missing) =>
        match since with
        | Some t => try ids <- ListSeenSessionIDs t;; view_each user "" since ids
        | None => try ids <- ListUserSessionIDs user;; view_each user user since ids
        end
    | Found _, Unread => Ret (Err (Refused 500 "failed to load email identity"))
    | _, _ => Ret (Err (Refused 500 "failed to load password credential"))
    end)).

(** The loop of [AdminSessionListService.List]; [owners] are the users whose
    item is built.  The rows an item is built from, the user, the credential
    and the email, are read as one. *)
Fixpoint item_each (since : option Z) (owners : list string) (ids : list string) : prog_ (list Session) :=
  match ids with
  | [] => Ret (Ok [])
  | id :: ids =>
      if (id =? "")%string then item_each since owners ids
      else
        r <- LoadSession id;;
        match r with
        | Err e =>
            if not_found e then ignore (DropSessionIndexes "" id) (item_each since owners ids)
            else Ret (Err (Refused 500 "failed to load session"))
        | Ok t => Now (fun now =>
            match ValidateSession id t now with
            | Some _ => ignore (DeleteSession id) (item_each since owners ids)
            | None =>
                if match since with Some since => negb (sessionSeenSince t since) | None => false end then item_each since owners ids
                else
                  let built owners := try l <- item_each since owners ids;; Ret (Ok (t :: l)) in
                  if bool_decide (UserID t ∈ owners) then built owners
                  else
                    Ask (OwnerItem (UserID t)) (fun owner =>
                      match owner with
                      | Missing => ignore (DeleteSession (ID t)) (item_each since owners ids)
                      | Unread => Ret (Err (Refused 500 "failed to load session owner"))
                      | Found _ => built (UserID t :: owners)
                      end)
            end)
        end
  end.

Definition AdminSessionList (c : caller) (since : option Z) : prog_ (list Session) :=
  try _ <- ensureAdminSessionActor c;;
  try ids <- match since with Some t => ListSeenSessionIDs t | None => ListAllSessionIDs end;;
  item_each since [] ids.

(** ** Logins *)

(** [loginFailureLimit] and [loginFailureWindow]. *)
Variables (loginFailureLimit loginFailureWindow : Z).

(** A counter that cannot be read answers zero. *)
Definition LoginFailures (username : string) : prog Z :=
  Call (GetInt (loginFailureKey username)) (fun r => Ret (match r with Some (Some n) => n | _ => 0 end)).

Definition RecordLoginFailure (username : string) (window : Z) : prog Z :=
  Call (Incr (loginFailureKey username)) (fun r =>
    match r with
    | None => Ret 0
    | Some count =>
        if count =? 1 then
          Call (Expire (loginFailureKey username) window) (fun r =>
            match r with
            | Some _ => Ret count
            | None => Call (Del [loginFailureKey username]) (fun _ => Ret 0)
            end)
        else Ret count
    end).

Definition ClearLoginFailures (username : string) : prog_ unit :=
  if (username =? "")%string then Ret (Ok tt) else ignore (send (Del [loginFailureKey username]) StoreFailed) (Ret (Ok tt)).

Definition ensureLoginNotLockedOut (username : string) : prog_ unit :=
  n <- LoginFailures username;;
  Ret (if n <? loginFailureLimit then Ok tt else Err (Refused 401 "invalid username or password")).

Record LoginReq : Type := mkLogin { l_Username : string; l_Password : string; l_TenantID : string }.
Record account : Set := mkAccount { a_ID : string; a_Username : string; a_Status : UserStatus }.

(** The gate of the second factor, which answers a service error or nothing. *)
Variable verifyLoginSecondFactor : string -> prog (option failure).

Definition invalid_login : failure := Refused 401 "invalid username or password".

(** From the account the username names: the credential, the lockout, the
    password, the tenant and the second factor. *)
Definition verify_login (req : LoginReq) (a : account) : prog_ bool :=
  try _ <- Ret (ensureSessionUserActive (a_Status a));;
  Ask (MustChangePasswordOf (a_ID a)) (fun credential =>
    match credential with
    | Found must_change =>
        try _ <- ensureLoginNotLockedOut (a_Username a);;
        Ask (PasswordMatches (a_ID a) (l_Password req)) (fun verified =>
          if negb verified then ignore (RecordLoginFailure (a_Username a) loginFailureWindow) (Ret (Err invalid_login))
          else
            Ask (IsSystemRoot (a_ID a)) (fun root =>
              match root with
              | None => Ret (Err (Refused 500 "authorization unavailable"))
              | Some root =>
                  try _ <- (if negb (TrimSpace (l_TenantID req) =? "")%string && negb root
                            then Ask (TenantRoles (a_ID a) (TrimSpace (l_TenantID req))) (fun roles =>
                                   Ret (match roles with
                                        | None => Err (Refused 500 "authorization unavailable")
                                        | Some [] => Err (Refused 403 "user is not a member of tenant")
                                        | Some _ => Ok tt
                                        end))
                            else Ret (Ok tt));;
                  r <- verifyLoginSecondFactor (a_ID a);;
                  match r with
                  | Some e => ignore (RecordLoginFailure (a_Username a) loginFailureWindow) (Ret (Err e))
                  | None => Ret (Ok must_change)
                  end
              end))
    | _ => Ret (Err invalid_login)
    end).

(** The session of a verified login, saved and indexed; [id] is the one
    [NewSessionID] draws. *)
Definition open_session (a : account) (tenant : string) (must_change : bool) (clientIP userAgent : string) (id : option string) : prog_ Session :=
  Now (fun now =>
    match id with
    | None => Ret (Err (Refused 500 "failed to create session id"))
    | Some id =>
        let ua := useragent_New userAgent in
        let s := mkSession id (a_ID a) (a_Username a) tenant must_change clientIP userAgent (ua_Platform ua) (ua_OS ua) (ua_Engine ua)
                   (ua_Browser ua) now now (now + GetSessionExpiration) in
        try _ <- SaveSession s GetSessionExpiration;;
        r <- IndexSession s;;
        match r with
        | Ok _ => Ret (Ok s)
        | Err _ => ignore (DeleteSession id) (Ret (Err (Refused 500 "failed to track user session")))
        end
    end).

(** [users] is what the database answers of the username. *)
Definition Login (users : option (list account)) (req : LoginReq) (clientIP userAgent : string) (id : option string) : prog_ Session :=
  if (l_Username req =? "")%string then Ret (Err (Refused 400 "username is required"))
  else if (l_Password req =? "")%string then Ret (Err (Refused 400 "password is required"))
  else
    match users with
    | Some (a :: _) =>
        try must_change <- verify_login req a;;
        try s <- open_session a (TrimSpace (l_TenantID req)) must_change clientIP userAgent id;;
        ignore (ClearLoginFailures (a_Username a)) (Ret (Ok s))
    | _ => Ret (Err invalid_login)
    end.

Definition Logout (c : caller) : prog_ unit :=
  match CookieSessionID c with
  | Err _ => Ret (Ok tt)
  | Ok id =>
      r <- DeleteSession id;;
      Ret (match r with Ok _ => Ok tt | Err e => if not_found e then Ok tt else Err (Refused 500 "failed to logout") end)
  end.

(** *** The revocations of a changed and of a reset password

    What follows the write of the new password. *)
Definition after_change (user current : string) : prog_ unit :=
  ignore (DropUserState user)
  (r <- DeleteUserSessionsExcept user current;;
   Ret (match r with Ok _ => Ok tt | Err _ => Err (Refused 500 "failed to revoke other sessions") end)).

Definition after_reset (user : string) : prog_ unit :=
  r <- DeleteUserSessions user;;
  Ret (match r with Ok _ => Ok tt | Err _ => Err (Refused 500 "failed to revoke user sessions") end).
End Store.
