(* ===== verification/SessionsSafe.v ===== *)
(** * What the programs over the sessions do to one session

    One session is fixed, by its id and the user it belongs to.  Its life has
    a single beginning, the SET of its login; from then on no program but
    that login brings its snapshot back, changes whom and until when it is
    for, or takes it out of its user's index while it lives, except a
    revocation of all sessions, which has deleted it first. *)

From stdpp Require Import base list gmap strings.
From Stdlib Require Import ZArith Lia.
From S2P Require Import Prelude GoStrings Strconv Redis RedisSafe Sessions.
Local Open Scope Z_scope.
Local Open Scope prog_scope.

(** What never changes in a snapshot. *)
Definition static (s : Session) : string * string * Z := (ID s, UserID s, ExpiresAt s).

(** JSON, as documented: strings are coerced to valid UTF-8 when written, and
    an instant is read back as it was written. *)
Class Snapshots (marshal : Session -> option string) (unmarshal : string -> option Session) : Type := {
  coerce : string -> string;
  reads_back : forall s p, marshal s = Some p -> exists s', unmarshal p = Some s' /\ static s' = (coerce (ID s), coerce (UserID s), ExpiresAt s);
  reads_no_number : forall n, unmarshal (FormatInt n) = None;
  reads_coerced : forall p s, unmarshal p = Some s -> coerce (ID s) = ID s /\ coerce (UserID s) = UserID s }.

Section One.
Context {S : Type} `{Documented S}.
Variables (marshal : Session -> option string) (unmarshal : string -> option Session).
Context `{!Snapshots marshal unmarshal}.
(** The lifetime of a session. *)
Variable L : Z.
(** The session, its user, and whether the run keeps to what the last part of
    this file assumes. *)
Variables (sid u : string).
Variable calm : Prop.
Implicit Types w : world S.

Local Abbreviation key := (sessionDataKey sid).
Local Abbreviation index := (sessionIndexUserKey u).

(** ** Keys stay apart *)

Lemma sessionDataKey_inj a b : sessionDataKey a = sessionDataKey b -> a = b.
Proof. unfold sessionDataKey. cbn. intros E. by repeat injection E as E. Qed.
Lemma sessionIndexUserKey_inj a b : sessionIndexUserKey a = sessionIndexUserKey b -> a = b.
Proof. unfold sessionIndexUserKey. cbn. intros E. by repeat injection E as E. Qed.

(** ** Assertions *)

Definition born w : Prop := key ∈ written w.
Definition absent w : Prop := stored w !! key = None.
(** The score of the session in its user's index, and the end of the index. *)
Definition listed w : option (Z * option Z) :=
  match stored w !! index with Some (SortedSet m, e) => (fun score => (score, e)) <$> m !! sid | _ => None end.
Definition clean w : Prop := absent w /\ listed w = None.
Definition proper w : Prop := ~ born w -> clean w.

Definition faithful (f : string * string * Z) w : Prop :=
  forall v e, stored w !! key = Some (v, e) -> exists data s, v = Text data /\ unmarshal data = Some s /\ static s = f.
Definition spent (E : Z) w : Prop := UnixMilli E <= UnixMilli (clock w).
Definition outlives (e : option Z) (E : Z) : Prop := match e with Some d => E <= d | None => True end.
(** Its snapshot is that of another user. *)
Definition foreign w : Prop := exists f, faithful f w /\ f.1.2 <> u.
(** Its snapshot is gone or another user's, its time is over, or its user's
    index lists it; and for as long as it lasts. *)
Definition over (E : Z) w : Prop := absent w \/ foreign w \/ spent E w.
Definition weak (E : Z) w : Prop := over E w \/ exists e, listed w = Some (UnixMilli E, e).
Definition good (E : Z) w : Prop := over E w \/ exists e, listed w = Some (UnixMilli E, e) /\ outlives e E.

(** ** What a step may do to the session *)

Definition basic w w' : Prop :=
  clock w <= clock w' /\ written w ⊆ written w' /\
  (proper w -> proper w' /\ (born w -> absent w -> absent w') /\ forall f, born w -> faithful f w -> faithful f w').
Definition quiet w w' : Prop := born w' -> born w.
Definition noadd w w' : Prop := proper w -> listed w' <> None -> listed w <> None.
Definition weakR w w' : Prop := forall E, proper w -> born w -> weak E w -> weak E w'.
Definition goodR w w' : Prop := forall E, proper w -> born w -> E <= clock w + L -> good E w -> good E w'.

(** What programs do: any other than a login of the session and a revocation
    of all sessions of the user; such a revocation; and a login of the session
    by [v]. *)
Definition G0 w w' : Prop := basic w w' /\ quiet w w' /\ (calm -> noadd w w' /\ weakR w w' /\ goodR w w').
Definition GR w w' : Prop := basic w w' /\ quiet w w' /\ (calm -> noadd w w' /\ goodR w w').
Definition GL (v : string) w w' : Prop := basic w w' /\ (calm -> v <> u -> noadd w w' /\ goodR w w').
(** What a revocation, and what a login of the session, has beside it. *)
Definition RR w w' : Prop := basic w w' /\ (calm -> noadd w w' /\ goodR w w').
Definition RL (v : string) w w' : Prop := basic w w' /\ quiet w w' /\ (calm -> v = u -> weakR w w' /\ goodR w w').

#[export] Instance basic_preorder : PreOrder basic.
Proof.
  split; [intros w; split; [lia|]; split; [done|]; intros P; split; [done|]; split; auto|].
  intros w1 w2 w3 (Hc & Hw & Hp) (Hc' & Hw' & Hp'). split; [lia|]. split; [set_solver|]. intros P1.
  destruct (Hp P1) as (P2 & Ha & Hf). destruct (Hp' P2) as (P3 & Ha' & Hf'). split; [done|].
  assert (born w1 -> born w2) by (unfold born; set_solver). split; [auto|]. intros f Hb Hff. apply Hf'; auto.
Qed.

Lemma basic_proper w w' : basic w w' -> proper w -> proper w'.
Proof. intros (_ & _ & Hp) P. by destruct (Hp P). Qed.
Lemma basic_born w w' : basic w w' -> born w -> born w'.
Proof. intros (_ & Hw & _). unfold born. set_solver. Qed.
Lemma basic_clock w w' : basic w w' -> clock w <= clock w'.
Proof. by intros [? _]. Qed.
Lemma basic_absent w w' : basic w w' -> proper w -> born w -> absent w -> absent w'.
Proof. intros (_ & _ & Hp) P. by destruct (Hp P) as (_ & ? & _). Qed.
Lemma basic_faithful f w w' : basic w w' -> proper w -> born w -> faithful f w -> faithful f w'.
Proof. intros (_ & _ & Hp) P. destruct (Hp P) as (_ & _ & Hf). apply Hf. Qed.
Lemma spent_mono E w w' : clock w <= clock w' -> spent E w -> spent E w'.
Proof. unfold spent, UnixMilli. intros Hc. pose proof (Z.div_le_mono (clock w) (clock w') millisecond eq_refl Hc). lia. Qed.

Lemma goodR_trans w1 w2 w3 : basic w1 w2 -> goodR w1 w2 -> goodR w2 w3 -> goodR w1 w3.
Proof.
  intros Hb Hg Hg' E P B HE G. pose proof (basic_clock _ _ Hb).
  apply Hg'; [by apply (basic_proper w1)|by apply (basic_born w1)|lia|by apply Hg].
Qed.

#[export] Instance RR_preorder : PreOrder RR.
Proof.
  split; [intros w; split; [reflexivity|]; intros _; split; [by intros ??|by intros ?????]|].
  intros w1 w2 w3 (Hb & Hc) (Hb' & Hc'). split; [by transitivity w2|].
  intros C. destruct (Hc C) as [Hn Hg], (Hc' C) as [Hn' Hg']. pose proof (basic_proper _ _ Hb).
  split; [intros P N; apply Hn; auto|by apply (goodR_trans w1 w2)].
Qed.

#[export] Instance RL_preorder v : PreOrder (RL v).
Proof.
  split; [intros w; split; [reflexivity|]; split; [by intros ?|]; intros _ _; split; [by intros ????|by intros ?????]|].
  intros w1 w2 w3 (Hb & Hq & Hc) (Hb' & Hq' & Hc'). split; [by transitivity w2|]. split; [unfold quiet in *; auto|].
  intros C V. destruct (Hc C V) as [Hw Hg], (Hc' C V) as [Hw' Hg']. split; [|by apply (goodR_trans w1 w2)].
  intros E P B G. apply Hw'; [by apply (basic_proper w1)|by apply (basic_born w1)|]. by apply Hw.
Qed.

(** ** Steps by what they do to the two keys *)

Definition key_ok w w' : Prop := (absent w -> absent w') /\ forall f, born w -> faithful f w -> faithful f w'.
Definition listed_ok w w' : Prop :=
  (listed w' <> None -> listed w <> None) /\
  forall score e, calm -> listed w = Some (score, e) -> born w ->
    (absent w' \/ foreign w' \/ score <= UnixMilli (clock w')) \/
    exists e', listed w' = Some (score, e') /\ forall E, E <= clock w + L -> outlives e E -> outlives e' E.

Lemma key_shrinks w w' : stored w' !! key = stored w !! key \/ stored w' !! key = None -> key_ok w w'.
Proof.
  intros [E|E]; split; unfold absent, faithful; rewrite ?E; auto. congruence.
Qed.

Lemma listed_same w w' : clock w <= clock w' -> stored w' !! index = stored w !! index -> listed_ok w w'.
Proof.
  intros Hc E. assert (listed w' = listed w) as El by (unfold listed; by rewrite E). split; [by rewrite El|].
  intros score e _ Hl _. right. exists e. rewrite El. auto.
Qed.

Lemma G0_intro w w' : clock w <= clock w' -> written w ⊆ written w' -> (born w' -> born w) -> key_ok w w' -> listed_ok w w' -> G0 w w'.
Proof.
  intros Hc Hw Hq [Ha Hf] [Hn Hl].
  assert (forall E, born w -> over E w -> over E w') as Hs.
  { intros E B [A|[(f & F & Hn')|Sp]]; [by left; apply Ha|right; left; exists f; auto|right; right]. by apply (spent_mono E w). }
  split; [|split; [done|intros C; split; [|split]]].
  - split; [done|]. split; [done|]. intros P. split; [|auto]. intros Hb'.
    destruct P as [A N]; [intros Hb; apply Hb'; unfold born in *; set_solver|]. split; [auto|].
    destruct (listed w') as [x|] eqn:E; [|done]. by destruct Hn.
  - intros _. exact Hn.
  - intros E P B [O|[e He]]; [left; auto|]. destruct (Hl _ _ C He B) as [O|(e' & He' & _)]; [by left|right; eauto].
  - intros E P B HE [O|(e & He & Ho)]; [left; auto|]. destruct (Hl _ _ C He B) as [O|(e' & He' & Ho')]; [by left|right; eauto].
Qed.

(** ** Commands *)

(** Commands that leave the session alone, whatever the state. *)
Definition harmless (Q : Set) (c : cmd Q) : Prop :=
  match c with
  | Get _ | GetInt _ | ZRange _ | ZRangeByScore _ _ => True
  | Del ks => index ∉ ks
  | ZAdd k _ m | ZRem k m => k <> key /\ (k = index -> m <> sid)
  | Expire k _ | ZRemRangeByScore k _ | Set_ k _ _ | SetNX k _ _ | SetXX k _ _ | Incr k | IncrFixedWindow k _ => k <> key /\ k <> index
  end.

Lemma harmless_born (Q : Set) (c : cmd Q) w : harmless Q c -> born (after c w) -> born w.
Proof. unfold born, after. cbn. destruct c; cbn; set_solver. Qed.

(** What ZADD and ZREM of another member do to the session's place. *)
Lemma other_member w (c : cmd unit) m : (exists score, c = ZAdd index score m) \/ c = ZRem index m -> m <> sid -> listed (after c w) = listed w.
Proof.
  intros Hc Hm. unfold listed. destruct (after_documented c w) as (d & _ & _ & ->).
  destruct (stored w !! index) as [[v e]|] eqn:E.
  - pose proof (stored_lookup _ _ _ E) as Hlive. destruct Hc as [[score ->]| ->]; cbn -[store_set]; rewrite E; destruct v as [t|n|members]; cbn -[store_set];
      try (by rewrite (proj2 (live_lookup _ _ _ (_, e)) (conj E Hlive))).
    + rewrite (proj2 (live_lookup _ _ _ (SortedSet (<[m := score]> members), e))) by (rewrite lookup_insert_eq; done).
      by rewrite lookup_insert_ne.
    + unfold store_set. case_bool_decide as Hd.
      * rewrite live_None by apply lookup_delete_eq. rewrite <- (lookup_delete_ne members m sid) by done. by rewrite Hd, lookup_empty.
      * rewrite (proj2 (live_lookup _ _ _ (SortedSet (base.delete m members), e))) by (rewrite lookup_insert_eq; done).
        by rewrite lookup_delete_ne.
  - destruct Hc as [[score ->]| ->]; cbn; rewrite E; cbn.
    + rewrite (proj2 (live_lookup _ _ _ (SortedSet {[m := score]}, None))) by (rewrite lookup_insert_eq; done).
      by rewrite lookup_singleton_ne.
    + by rewrite live_None.
Qed.

Lemma harmless_G0 (Q : Set) (c : cmd Q) w : harmless Q c -> G0 w (after c w).
Proof.
  intros Hh. apply G0_intro; [done|apply written_after|by apply harmless_born| |].
  - apply key_shrinks. destruct c; cbn in Hh; try (left; apply after_frame; cbn; set_solver).
    destruct (after_documented (Del keys) w) as (d & _ & _ & ->). cbn. destruct (decide (key ∈ keys)).
    + right. apply live_None. rewrite delete_all_lookup. by rewrite bool_decide_true.
    + left. rewrite <- (after_frame (Del keys) w key) by done. destruct (after_documented (Del keys) w) as (d' & _ & _ & ->). done.
  - destruct c as [| | | | | | |ks|k ex|k sc m|k m| | |k mx]; cbn in Hh; try (apply listed_same; [done|apply after_frame; cbn; set_solver]);
      (destruct (decide (k = index)) as [->|]; [|apply listed_same; [done|apply after_frame; cbn; set_solver]]);
      destruct Hh as [_ Hm]; specialize (Hm eq_refl).
    + assert (listed (after (ZAdd index sc m) w) = listed w) as E by (apply (other_member w _ m); eauto).
      split; [by rewrite E|]. intros score e _ Hl _. right. exists e. rewrite E. auto.
    + assert (listed (after (ZRem index m) w) = listed w) as E by (apply (other_member w _ m); eauto).
      split; [by rewrite E|]. intros score e _ Hl _. right. exists e. rewrite E. auto.
Qed.

Lemma G0_GR w w' : G0 w w' -> GR w w'.
Proof. intros (? & ? & Hc). split; [done|]. split; [done|]. intros C. by destruct (Hc C) as (? & _ & ?). Qed.
Lemma G0_RL v w w' : G0 w w' -> RL v w w'.
Proof. intros (? & ? & Hc). split; [done|]. split; [done|]. intros C _. by destruct (Hc C) as (_ & ? & ?). Qed.
Lemma G0_GL v w w' : G0 w w' -> GL v w w'.
Proof. intros (? & ? & Hc). split; [done|]. intros C _. by destruct (Hc C) as (? & _ & ?). Qed.
Lemma GR_RR w w' : GR w w' -> RR w w'.
Proof. intros (? & ? & Hc). by split. Qed.
Lemma GR_RL v w w' : (calm -> v <> u) -> GR w w' -> RL v w w'.
Proof. intros Hv (? & ? & _). split; [done|]. split; [done|]. intros C E. by destruct (Hv C). Qed.
Lemma GL_RR v w w' : (calm -> v <> u) -> GL v w w' -> RR w w'.
Proof. intros Hv (? & Hc). split; [done|]. intros C. apply (Hc C), (Hv C). Qed.

(** Time passes. *)
Lemma tick_stored t w k : clock w <= t -> stored (tick t w) !! k = match stored w !! k with Some e => if decide (lives t e) then Some e else None | None => None end.
Proof.
  intros Ht. rewrite stored_tick by done. destruct (stored w !! k) as [e|] eqn:E; [|by apply live_None].
  destruct (decide (lives t e)); [by apply live_lookup|]. unfold live. apply map_lookup_filter_None. right. intros x Hx. assert (x = e) as -> by congruence. done.
Qed.

Lemma tick_key t w : clock w <= t -> key_ok w (tick t w).
Proof. intros Ht. apply key_shrinks. rewrite tick_stored by done. destruct (stored w !! key); [case_decide|]; auto. Qed.

Lemma tick_listed t w score e : clock w <= t -> listed w = Some (score, e) -> (forall d, e = Some d -> t <= d) -> listed (tick t w) = Some (score, e).
Proof.
  intros Ht Hl Hd. unfold listed in *. rewrite tick_stored by done. destruct (stored w !! index) as [[v e']|]; [|done].
  destruct v as [?|?|m]; try done. destruct (m !! sid) as [sc|] eqn:Em; [|done]. cbn in Hl. injection Hl as -> ->.
  rewrite decide_True; [by rewrite Em|]. destruct e as [d|]; unfold lives; cbn; [by apply Hd|done].
Qed.

Lemma tick_RR t w : clock w <= t -> RR w (tick t w).
Proof.
  intros Ht. destruct (tick_key t w Ht) as [Ha Hf]. assert (forall sc e, listed (tick t w) = Some (sc, e) -> listed w = Some (sc, e)) as Hn.
  { intros sc e. unfold listed. rewrite tick_stored by done. destruct (stored w !! index) as [x|]; [|done]. by case_decide. }
  split; [split; [done|]; split; [done|]; intros P; split; [|auto]|].
  - intros B. destruct (P B) as [A N]. split; [by apply Ha|]. destruct (listed (tick t w)) as [[sc e]|]; [|done]. by rewrite (Hn sc e) in N.
  - intros C. split; [intros _; destruct (listed (tick t w)) as [[sc e]|]; [by rewrite (Hn sc e)|done]|].
    intros E P B HE [[A|[(f & F & Hne)|Sp]]|(e & He & Ho)].
    + left. by left; apply Ha.
    + left. right. left. exists f. auto.
    + left. right. right. by apply (spent_mono E w).
    + destruct (decide (E <= t)); [left; right; right; unfold spent, UnixMilli; cbn; by apply Z.div_le_mono|].
      right. exists e. split; [|done]. apply tick_listed; [done|done|]. intros d ->. unfold outlives in Ho. lia.
Qed.

(** Commands about the session that the state allows. *)
Lemma key_frame {R : Set} (c : cmd R) w : key ∉ touched c -> key_ok w (after c w).
Proof. intros Hk. apply key_shrinks. left. by apply after_frame. Qed.

Lemma listed_lookup w score e : listed w = Some (score, e) <-> exists m, stored w !! index = Some (SortedSet m, e) /\ m !! sid = Some score.
Proof.
  unfold listed. destruct (stored w !! index) as [[[t|n|m] d]|]; split; try done; try (by intros (? & ? & _)).
  - intros E. destruct (m !! sid) as [sc|] eqn:Em; [|done]. injection E as <- <-. eauto.
  - intros (m' & E & Em). injection E as <- <-. by rewrite Em.
Qed.

Lemma ZRem_G0 w : proper w -> (born w -> absent w \/ foreign w) -> G0 w (after (ZRem index sid) w).
Proof.
  intros P Ha. apply G0_intro; [done|apply written_after|apply (harmless_born _ (ZRem "" ""))| |].
  - done.
  - apply key_frame. cbn. set_solver.
  - split.
    + intros N E. apply N. unfold listed in *. destruct (after_documented (ZRem index sid) w) as (d & _ & _ & ->).
      cbn -[store_set]. destruct (stored w !! index) as [[[t|n|m] e]|] eqn:Es; cbn -[store_set].
      * by destruct (live _ _ !! _) as [[[] ?]|] eqn:El; [|apply live_lookup in El as [El _]; congruence|apply live_lookup in El as [El _]; congruence|].
      * by destruct (live _ _ !! _) as [[[] ?]|] eqn:El; [apply live_lookup in El as [El _]; congruence| |apply live_lookup in El as [El _]; congruence|].
      * destruct (live _ _ !! _) as [[[] ?]|] eqn:El; try done. apply live_lookup in El as [El _]. revert El. unfold store_set.
        case_bool_decide; [by rewrite lookup_delete_eq|]. rewrite lookup_insert_eq. intros [= <- <-]. by rewrite lookup_delete_eq.
      * by rewrite live_None.
    + intros score e C Hl B. left. unfold foreign, faithful, absent in *. rewrite after_frame by (cbn; set_solver).
      destruct (Ha B) as [A|F]; [by left|by right; left].
Qed.

Lemma ZRemRange_G0 w cutoff : cutoff <= clock w -> G0 w (after (ZRemRangeByScore index (UnixMilli cutoff)) w).
Proof.
  intros Hc. assert (UnixMilli cutoff <= UnixMilli (clock w)) as Hm by (unfold UnixMilli; by apply Z.div_le_mono).
  apply G0_intro; [done|apply written_after|apply (harmless_born _ (ZRem "" ""))| |].
  - done.
  - apply key_frame. cbn. set_solver.
  - destruct (after_documented (ZRemRangeByScore index (UnixMilli cutoff)) w) as (d & _ & _ & Es). cbn -[store_set] in Es. split.
    + intros N E. apply N. destruct (listed (after _ w)) as [[score e]|] eqn:El; [|done]. exfalso.
      apply listed_lookup in El as (m' & El & Em). rewrite Es in El. apply live_lookup in El as [El _].
      destruct (stored w !! index) as [[[t|n|m] e']|] eqn:Ei; cbn -[store_set] in El; try congruence.
      revert El. unfold store_set. case_bool_decide; [by rewrite lookup_delete_eq|]. rewrite lookup_insert_eq. intros [= <- <-].
      apply map_lookup_filter_Some in Em as [Em _]. assert (listed w = Some (score, e')) as Hx by (apply listed_lookup; eauto). congruence.
    + intros score e C Hl B. apply listed_lookup in Hl as (m & Ei & Em).
      destruct (decide (UnixMilli cutoff < score)); [right|left; right; right; rewrite clock_after; lia]. exists e. split; [|done].
      apply listed_lookup. rewrite Ei in Es. cbn -[store_set] in Es. exists (filter (fun p => UnixMilli cutoff < p.2) m).
      assert (filter (fun p => UnixMilli cutoff < p.2) m !! sid = Some score) as Ef by (apply map_lookup_filter_Some; by split).
      split; [|done]. rewrite Es. apply live_lookup. split; [|exact (stored_lookup w index _ Ei)].
      unfold store_set. rewrite bool_decide_false by (intros E0; by rewrite E0, lookup_empty in Ef). by rewrite lookup_insert_eq.
Qed.

(** A lifetime of whole seconds. *)
Hypothesis HL : calm -> 0 < L /\ L mod second = 0.

Lemma Expire_G0 w : G0 w (after (Expire index L) w).
Proof.
  apply G0_intro; [done|apply written_after|apply (harmless_born _ (ZRem "" ""))| |].
  - done.
  - apply key_frame. cbn. set_solver.
  - destruct (after_documented (Expire index L) w) as (d & Hd & _ & Es). cbn in Hd, Es. split.
    + intros N E. apply N. destruct (listed (after _ w)) as [[score e]|] eqn:El; [|done]. exfalso.
      apply listed_lookup in El as (m' & El & Em). rewrite Es in El. apply live_lookup in El as [El _].
      destruct (stored w !! index) as [[v e']|] eqn:Ei; [|congruence].
      assert (v = SortedSet m') as -> by (destruct (0 <? L); [rewrite lookup_insert_eq in El|rewrite lookup_delete_eq in El]; congruence).
      assert (listed w = Some (score, e')) as Hx by (apply listed_lookup; eauto). congruence.
    + intros score e C Hl B. right. destruct (HL C) as [Hp Hs]. destruct (Hd Hp) as (Hd1 & Hd2 & _). specialize (Hd2 Hs).
      rewrite (proj2 (Z.ltb_lt 0 L) Hp) in Es. apply listed_lookup in Hl as (m & Ei & Em). exists (Some d).
      split; [|intros E HE _; unfold outlives; lia]. apply listed_lookup. exists m. split; [|done].
      rewrite Es, Ei. apply live_lookup. split; [by rewrite lookup_insert_eq|unfold lives; cbn; lia].
Qed.

(** The snapshot is rewritten by one of the same session. *)
Lemma SetXX_G0 w payload ttl f s : born w -> faithful f w -> unmarshal payload = Some s -> static s = f ->
  G0 w (after (SetXX key payload ttl) w).
Proof.
  intros B Hf Hu Hs. apply G0_intro; [done|apply written_after|apply (harmless_born _ (ZRem "" ""))| |].
  - done.
  - destruct (after_documented (SetXX key payload ttl) w) as (d & _ & _ & Es). cbn in Es. unfold key_ok, absent, faithful in *. rewrite Es.
    destruct (stored w !! key) as [[v e]|] eqn:Ek; cbn.
    + split; [done|]. intros g _ Hg v' e' El. apply live_lookup in El as [El _]. rewrite lookup_insert_eq in El. injection El as <- <-.
      exists payload, s. split; [done|]. split; [done|]. destruct (Hg v e eq_refl) as (data & s1 & -> & Hs1 & <-).
      destruct (Hf _ _ eq_refl) as (data2 & s2 & [= <-] & Hs2 & Hs3). congruence.
    + split; [intros _; by apply live_None|]. intros g _ _ v' e' El. apply live_lookup in El as [El _]. congruence.
  - apply listed_same; [done|]. apply after_frame. cbn. set_solver.
Qed.
End One.
