(* ===== verification/SessionsOps.v ===== *)
(** * What each operation on the sessions leaves behind

    For one session, whatever runs beside the operation: the store's
    operations and the services one by one, in the logic of [RedisSafe]. *)

From stdpp Require Import base list gmap strings sorting.
From Stdlib Require Import ZArith Lia.
From S2P Require Import Prelude GoStrings Redis RedisSafe Sessions SessionsSafe.
Local Open Scope Z_scope.
Local Open Scope prog_scope.

Section Ops.
Context {S : Type} `{Documented S}.
Variables (marshal : Session -> option string) (unmarshal : string -> option Session).
Context `{!Snapshots marshal unmarshal}.
Variables (marshal_state : UserState -> string) (unmarshal_state : string -> option UserState).
Variables (L GetSessionUserStateTTL : Z) (useragent_New : string -> Device).
Variables (sid u : string) (calm : Prop).
Hypothesis Hsid : sid <> ""%string.
Hypothesis Htrim : TrimSpace sid = sid.
Hypothesis HL : calm -> 0 < L /\ L mod second = 0.
Implicit Types w : world S.

Local Abbreviation key := (sessionDataKey sid).
Local Abbreviation index := (sessionIndexUserKey u).
Local Abbreviation basic := (SessionsSafe.basic (S := S) unmarshal sid u).
Local Abbreviation G0 := (SessionsSafe.G0 (S := S) unmarshal L sid u calm).
Local Abbreviation proper := (SessionsSafe.proper (S := S) sid u).
Local Abbreviation born := (SessionsSafe.born (S := S) sid).
Local Abbreviation absent := (SessionsSafe.absent (S := S) sid).
Local Abbreviation faithful := (SessionsSafe.faithful (S := S) unmarshal sid).
Local Abbreviation harmless := (SessionsSafe.harmless sid u).

(** [p] run from [w] ends in [Phi], and does to the session what programs may. *)
Definition runs {A} (p : prog A) (Phi : A -> world S -> Prop) w : Prop := safe basic G0 p Phi w.

Lemma G0_basic w w' : G0 w w' -> basic w w'.
Proof. by intros [? _]. Qed.

(** ** Assertions others leave alone *)

Abbreviation stable_ := (stable basic).

Lemma stable_proper : stable_ proper.
Proof. intros w w' P Hw. by apply (basic_proper unmarshal sid u w w'). Qed.
Lemma stable_born : stable_ born.
Proof. intros w w' P Hw. by apply (basic_born unmarshal sid u w w'). Qed.
Lemma stable_gone : stable_ (fun w => proper w /\ born w /\ absent w).
Proof.
  intros w w' (P & B & A) Hw. split; [by apply (stable_proper w)|]. split; [by apply (stable_born w)|].
  by apply (basic_absent unmarshal sid u w w').
Qed.
Lemma stable_known f : stable_ (fun w => proper w /\ born w /\ faithful f w).
Proof.
  intros w w' (P & B & A) Hw. split; [by apply (stable_proper w)|]. split; [by apply (stable_born w)|].
  by apply (basic_faithful unmarshal sid u f w w').
Qed.
Lemma stable_const (P : Prop) : stable_ (fun _ => P).
Proof. by intros w w'. Qed.
Lemma stable_after t : stable_ (fun w => t <= clock w).
Proof. intros w w' Hc [Hw _]. lia. Qed.
Lemma stable_and P Q : stable_ P -> stable_ Q -> stable_ (fun w => P w /\ Q w).
Proof. intros HP HQ w w' [? ?] Hw. split; eauto. Qed.
Lemma stable_if (P : Prop) Q : stable_ Q -> stable_ (fun w => P -> Q w).
Proof. intros HQ w w' Hp Hw p. eauto. Qed.

(** ** The logic, for these programs *)

Lemma runs_mono {A} (p : prog A) (Phi Psi : A -> world S -> Prop) w : (forall a w', Phi a w' -> Psi a w') -> runs p Phi w -> runs p Psi w.
Proof. apply safe_mono. Qed.

Lemma runs_bind {A B} (p : prog A) (k : A -> prog B) Phi w : runs p (fun a w' => runs (k a) Phi w') w -> runs (bind p k) Phi w.
Proof. apply safe_bind. apply _. Qed.

Lemma runs_frame {A} (p : prog A) Phi I w : stable_ I -> I w -> runs p Phi w -> runs p (fun a w' => Phi a w' /\ I w') w.
Proof. apply safe_frame; [apply _|apply G0_basic]. Qed.

Lemma runs_later {A} (p : prog A) Phi w w' : basic w w' -> runs p Phi w -> runs p Phi w'.
Proof. apply safe_from. apply _. Qed.

(** Programs that send harmless commands only. *)
Lemma runs_harmless {A} (p : prog A) (Q : A -> Prop) w : sends harmless p -> returns Q p -> runs p (fun a _ => Q a) w.
Proof.
  intros Hp Hq. eapply safe_mono; [|apply (sends_returns_safe harmless basic G0 p Q (fun _ => True)); try done].
  - by intros a w' [_ ?].
  - intros X c w' Hc _. split; [by apply harmless_G0|done].
Qed.
Lemma runs_harmless_ {A} (p : prog A) w : sends harmless p -> runs p (fun _ _ => True) w.
Proof. intros Hp. apply (runs_harmless p (fun _ => True)); [done|apply returns_True]. Qed.

(** A sequence keeps what its parts leave alone, the continuation being told
    what the first part ended in. *)
Lemma runs_seq {A B} (p : prog A) (k : A -> prog B) (Psi : A -> world S -> Prop) I Phi w :
  stable_ I -> I w -> runs p Psi w -> (forall a w', Psi a w' -> I w' -> runs (k a) Phi w') -> runs (bind p k) Phi w.
Proof.
  intros HI Hi Hp Hk. apply runs_bind. eapply runs_mono; [|by apply (runs_frame p Psi I)].
  intros a w' [? ?]. by apply Hk.
Qed.

Lemma runs_ret {A} (a : A) (Phi : A -> world S -> Prop) w : stable_ (Phi a) -> Phi a w -> runs (Ret a) Phi w.
Proof. apply safe_answer. Qed.

Lemma runs_now {A} (k : Z -> prog A) Phi I w :
  stable_ I -> I w -> (forall w', I w' -> runs (k (clock w')) Phi w') -> runs (Now k) Phi w.
Proof. intros HI Hi Hk w' Hw. apply Hk. by apply (HI w). Qed.

Lemma runs_ask {A} {Q : Set} (q : question Q) (k : Q -> prog A) Phi w : (forall r, runs (k r) Phi w) -> runs (Ask q k) Phi w.
Proof. intros Hk. apply safe_ask; [apply _|]. exact Hk. Qed.

Lemma runs_try {A B} (p : prog_ A) (k : A -> prog_ B) (Psi : outcome A -> world S -> Prop) I Phi w :
  stable_ I -> I w -> runs p Psi w ->
  (forall e w', Psi (Err e) w' -> I w' -> runs (Ret (Err e)) Phi w') ->
  (forall a w', Psi (Ok a) w' -> I w' -> runs (k a) Phi w') -> runs (try_ p k) Phi w.
Proof. intros HI Hi Hp He Hk. apply (runs_seq p _ Psi I); [done..|]. intros [a|e]; auto. Qed.

(** A command sent where [I] holds. *)
Lemma runs_send {R : Set} (c : cmd R) e I (Phi : outcome R -> world S -> Prop) w :
  stable_ I -> I w ->
  (forall r, stable_ (Phi r)) ->
  (forall w', I w' -> G0 w' (after c w') /\ Phi (Err e) w' /\ Phi (Err e) (after c w') /\
     Phi (match answer c w' with Some x => Ok x | None => Err e end) (after c w')) ->
  runs (send c e) Phi w.
Proof.
  intros HI Hi Hst Hc. apply (safe_call basic G0 c _ Phi I w HI Hi). intros w' Hw'.
  destruct (Hc w' Hw') as (? & ? & ? & ?). split; [by apply safe_answer|]. split; [done|].
  split; apply safe_answer; try done; apply Hst.
Qed.

(** ** Keys *)

Ltac apart := unfold sessionDataKey, sessionIndexUserKey, sessionIndexAllKey, sessionIndexSeenKey, userStateKey, loginFailureKey; cbn; discriminate.

Lemma stable_from w : stable_ (fun w' => basic w w').
Proof. intros w1 w2 Hw H1. by transitivity w1. Qed.

(** ** Snapshots *)

(** What a load tells of the session. *)
Definition loaded w (s : Session) w' : Prop :=
  born w' /\ faithful (static s) w' /\ (born w -> ~ absent w) /\ forall f, born w -> faithful f w -> static s = f.

Lemma stable_loaded w s : stable_ (fun w' => proper w' /\ loaded w s w').
Proof.
  intros w1 w2 (P & B & F & ?) Hw. destruct (stable_known (static s) w1 w2 (conj P (conj B F)) Hw) as (? & ? & ?).
  split; [done|]. by split.
Qed.

(** What its absence tells. *)
Definition missed w w' : Prop := proper w' /\ (born w -> born w' /\ absent w').

Lemma stable_missed w : stable_ (missed w).
Proof.
  intros w1 w2 [P Ha] Hw. split; [by apply (stable_proper w1)|]. intros B. apply (stable_gone w1 w2); [|done]. split; [done|auto].
Qed.

(** What GET answers of the session. *)
Lemma Get_answer w w1 : proper w -> basic w w1 ->
  match answer (Get key) w1 with
  | Some None => born w -> absent w1
  | Some (Some data) => forall s, unmarshal data = Some s -> proper w1 /\ loaded w s w1
  | None => True
  end.
Proof.
  intros P Hb. assert (proper w1) as P1 by eauto using basic_proper.
  destruct (after_documented (Get key) w1) as (d & _ & -> & _). cbn. destruct (stored w1 !! key) as [[v e]|] eqn:E; [|done].
  assert (born w1) as B1 by (destruct (decide (key ∈ written w1)) as [|B]; [done|destruct (P1 B) as [A _]; unfold SessionsSafe.absent in A; congruence]).
  destruct v as [data|n|m]; [| |done].
  - intros s Hs. split; [done|]. split; [done|]. split; [|split].
    + intros v e' E'. rewrite E in E'. injection E' as <- <-. eauto.
    + intros B A. pose proof (basic_absent _ _ _ _ _ Hb P B A) as A1. unfold SessionsSafe.absent in A1. congruence.
    + intros f B F. destruct (basic_faithful _ _ _ _ _ _ Hb P B F _ _ E) as (data' & s' & [= <-] & Hs' & <-). congruence.
  - intros s Hs. by rewrite reads_no_number in Hs.
Qed.

Definition load_post w (r : outcome Session) w' : Prop :=
  match r with Ok s => proper w' /\ loaded w s w' | Err EntryNotFound => missed w w' | _ => True end.

Lemma stable_load_post w r : stable_ (load_post w r).
Proof.
  destruct r as [s|[]]; cbn [load_post]; [apply (stable_loaded w s)|apply stable_missed|apply stable_const..].
Qed.

Lemma runs_LoadSession id w : proper w -> runs (LoadSession unmarshal id) (fun r w' => TrimSpace id = sid -> load_post w r w') w.
Proof.
  intros P. unfold LoadSession. destruct (decide (TrimSpace id = sid)) as [->|Hn].
  2: { eapply runs_mono; [|apply runs_harmless_]; [done|]. destruct (_ =? _)%string; cbn; [done|]. split; [done|]. intros [[]|]; cbn; done. }
  destruct (String.eqb_spec sid "") as [|_]; [done|].
  apply (runs_try _ _ (fun r w' => match r with
      | Ok (Some data) => forall s, unmarshal data = Some s -> proper w' /\ loaded w s w'
      | Ok None => missed w w'
      | Err e => e = StoreFailed end) (fun _ => True)); try done.
  - apply (runs_send _ _ (fun w1 => proper w1 /\ basic w w1)).
    + apply stable_and; [apply stable_proper|apply stable_from].
    + split; [done|reflexivity].
    + intros [[data|]|e]; [|apply stable_missed|apply stable_const].
      intros w1 w2 Hs Hw s Hu. apply (stable_loaded w s w1); auto.
    + intros w1 [P1 Hb]. pose proof (Get_answer w w1 P Hb) as Ha. assert (G0 w1 (after (Get key) w1)) as HG by by apply harmless_G0.
      split; [done|]. split; [done|]. split; [done|]. pose proof (G0_basic _ _ HG) as Hg.
      destruct (answer (Get key) w1) as [[data|]|]; [| |done].
      * intros s Hu. apply (stable_loaded w s w1); auto.
      * apply (stable_missed w w1); [|done]. split; [done|]. intros B. split; [|auto]. by apply (basic_born unmarshal sid u w).
  - intros e w' -> _. by apply runs_ret; [apply stable_if, stable_load_post|].
  - intros [data|] w' Hs _; (apply runs_ret; [apply stable_if, stable_load_post|intros _]); [|done].
    destruct (unmarshal data) as [s|]; [|done]. by apply Hs.
Qed.

(** ** Programs of harmless commands *)

Lemma sends_send P {R : Set} (c : cmd R) e : P R c -> sends P (send c e).
Proof. cbn. by split. Qed.
Lemma sends_try P {A B} (p : prog_ A) (k : A -> prog_ B) : sends P p -> (forall a, sends P (k a)) -> sends P (try_ p k).
Proof. intros Hp Hk. apply sends_bind; [done|]. intros [a|e]; [apply Hk|done]. Qed.
Lemma sends_ignore P {A B} (p : prog A) (k : prog B) : sends P p -> sends P k -> sends P (ignore p k).
Proof. intros Hp Hk. by apply sends_bind. Qed.

Ltac harmless_cmd :=
  cbn [SessionsSafe.harmless];
  lazymatch goal with
  | |- True => exact I
  | |- _ ∉ [_] => rewrite list_elem_of_singleton; apart
  | |- _ <> _ /\ (_ -> _) => split; [apart|let E := fresh in intros E; exfalso; revert E; apart]
  | |- _ <> _ /\ _ <> _ => split; apart
  end.
Ltac harmless_ :=
  repeat
    lazymatch goal with
    | |- True => exact I
    | |- sends _ (send _ _) => apply sends_send
    | |- sends _ (try_ _ _) => apply sends_try
    | |- sends _ (ignore _ _) => apply sends_ignore
    | |- sends _ (bind _ _) => apply sends_bind
    | |- sends _ (Ret _) => exact I
    | |- sends _ (Now _) => cbn [sends]
    | |- sends _ (Ask _ _) => cbn [sends]
    | |- sends _ (Call _ _) => split
    | |- sends _ (match ?x with _ => _ end) => destruct x
    | |- forall _, _ => intros ?
    | |- SessionsSafe.harmless _ _ _ _ => harmless_cmd
    end.

Lemma DropUserState_harmless user : sends harmless (DropUserState user).
Proof. unfold DropUserState. harmless_. Qed.
Lemma SaveUserState_harmless user s : sends harmless (SaveUserState marshal_state GetSessionUserStateTTL user s).
Proof. unfold SaveUserState. harmless_. Qed.
Lemma LoadUserState_harmless user : sends harmless (LoadUserState unmarshal_state user).
Proof. unfold LoadUserState. harmless_. Qed.
Lemma pruneIndex_harmless k t : k <> index -> k <> key -> sends harmless (pruneIndex k t).
Proof. intros ??. unfold pruneIndex. by apply sends_send. Qed.
Lemma ListAllSessionIDs_harmless : sends harmless ListAllSessionIDs.
Proof. unfold ListAllSessionIDs, pruneIndex. harmless_. Qed.
Lemma ListSeenSessionIDs_harmless t : sends harmless (ListSeenSessionIDs L t).
Proof. unfold ListSeenSessionIDs, pruneIndex. harmless_. Qed.
Lemma DropSessionIndexes_harmless user id : user <> u \/ id <> sid -> sends harmless (DropSessionIndexes user id).
Proof.
  intros Hn. unfold DropSessionIndexes. destruct (_ =? _)%string; [done|]. apply sends_try; [|intros _; harmless_].
  destruct (_ =? _)%string; [done|]. apply sends_send. split; [apart|]. intros E%sessionIndexUserKey_inj. by destruct Hn.
Qed.
Lemma deleteUnreadableSnapshot_harmless id : sends harmless (deleteUnreadableSnapshot id).
Proof. unfold deleteUnreadableSnapshot. harmless_. unfold DropSessionIndexes. change ("" =? "")%string with true. harmless_. Qed.

(** ** Ending a session *)

(** The indexes of a session are dropped once its snapshot is gone. *)
Lemma runs_DropSessionIndexes user id I w : stable_ I -> I w ->
  (forall w', I w' -> id = sid -> user = u -> proper w' /\ (born w' -> absent w')) ->
  runs (DropSessionIndexes user id) (fun r w' => r <> Err EntryNotFound /\ I w') w.
Proof.
  intros HI Hi Hd. assert (forall (p : prog_ unit) w1, I w1 -> sends harmless p -> returns (fun r => r <> Err EntryNotFound) p ->
    runs p (fun r w' => r <> Err EntryNotFound /\ I w') w1) as Hrest by (intros p w1 H1 Hp Hr; by apply runs_frame; [| |apply runs_harmless]).
  destruct (decide (id = sid /\ user = u)) as [[-> ->]|Hn].
  2: { apply Hrest; [done|apply DropSessionIndexes_harmless; destruct (decide (user = u)), (decide (id = sid)); auto|].
       unfold DropSessionIndexes. destruct (_ =? _)%string; [done|]. destruct (_ =? _)%string; cbn; repeat (intros [[]|]; cbn; try done). }
  unfold DropSessionIndexes. destruct (String.eqb_spec sid "") as [|_]; [done|].
  apply (runs_try _ _ (fun r _ => r <> Err EntryNotFound) I); [done..| | |].
  - destruct (String.eqb_spec u ""); [by apply runs_ret; [apply stable_const|]|].
    apply (runs_send _ _ I); [done..|intros r; apply stable_const|]. intros w1 H1. destruct (Hd w1 H1 eq_refl eq_refl).
    split; [apply ZRem_G0; auto|]. split; [done|]. split; [done|]. by destruct (answer _ _).
  - intros e w1 He H1. by apply runs_ret; [apply stable_and; [apply stable_const|]|].
  - intros _ w1 _ H1. apply Hrest; [done|harmless_|]. cbn. repeat (intros [[]|]; cbn; try done).
Qed.

Definition deleted w (r : outcome Session) w' : Prop :=
  match r with Ok _ => proper w' /\ born w' /\ absent w' | Err EntryNotFound => missed w w' | _ => True end.
Lemma stable_deleted w r : stable_ (deleted w r).
Proof. destruct r as [s|[]]; cbn [deleted]; [apply stable_gone|apply stable_missed|apply stable_const..]. Qed.

Lemma runs_DeleteSession id w : proper w -> runs (DeleteSession unmarshal id) (fun r w' => id = sid -> deleted w r w') w.
Proof.
  intros P. unfold DeleteSession. destruct (String.eqb_spec id "") as [->|Hid].
  { apply runs_ret; [intros ????; congruence|congruence]. }
  apply (runs_try _ _ (fun r w' => TrimSpace id = sid -> load_post w r w') proper); [apply stable_proper|done|by apply runs_LoadSession| |].
  { intros e w1 Hl _. apply runs_ret; [apply stable_if, stable_deleted|]. intros ->. specialize (Hl Htrim). by destruct e. }
  intros s w1 Hl P1.
  apply (runs_try _ _ (fun r w' => r <> Err EntryNotFound /\ (id = sid -> r = Ok tt -> proper w' /\ born w' /\ absent w')) proper);
    [apply stable_proper|done| | |].
  - apply (runs_send _ _ (fun w' => id = sid -> proper w' /\ born w')).
    + intros w2 w3 Hx Hw E. destruct (Hx E). split; [by apply (stable_proper w2)|by apply (stable_born w2)].
    + intros ->. destruct (Hl Htrim) as (? & ? & _). done.
    + intros r. apply stable_and; [apply stable_const|apply stable_if, stable_if, stable_gone].
    + intros w2 Hx. assert (G0 w2 (after (Del [sessionDataKey id]) w2)) as HG by (apply harmless_G0; harmless_cmd).
      split; [done|]. split; [done|]. split; [done|]. split; [by destruct (answer _ _)|]. intros -> _. destruct (Hx eq_refl) as [P2 B2]. pose proof (G0_basic _ _ HG) as Hb.
      split; [by apply (stable_proper w2)|]. split; [by apply (stable_born w2)|].
      destruct (after_documented (Del [key]) w2) as (d & _ & _ & Es). unfold SessionsSafe.absent. rewrite Es. apply live_None. cbn. apply lookup_delete_eq.
  - intros e w2 [He _] _. apply runs_ret; [apply stable_if, stable_deleted|]. by destruct e.
  - intros [] w2 [_ Ha] P2. set (I := fun w' => proper w' /\ (id = sid -> proper w' /\ born w' /\ absent w')).
    assert (stable_ I) as HI by (apply stable_and; [apply stable_proper|apply stable_if, stable_gone]).
    apply (runs_try _ _ (fun r w' => r <> Err EntryNotFound /\ I w') (fun _ => True)); [done|done| | |].
    + apply runs_DropSessionIndexes; [done|by split; [|auto]|]. intros w3 [_ Hx] E _. destruct (Hx E) as (? & ? & ?). auto.
    + intros e w3 [He _] _. apply runs_ret; [apply stable_if, stable_deleted|]. by destruct e.
    + intros _ w3 [_ [_ Hx]] _. apply runs_ret; [apply stable_if, stable_deleted|done].
Qed.

(** ** Listing a user's sessions *)

Lemma ZRange_answer w l : answer (ZRange index) w = Some l -> sid ∈ l -> listed sid u w <> None.
Proof.
  destruct (after_documented (ZRange index) w) as (d & _ & -> & _). cbn. unfold listed.
  destruct (stored w !! index) as [[[t|n|m] e]|]; cbn; try done; [|by intros [= <-] []%elem_of_nil].
  intros [= <-]. unfold range. intros (p & -> & Hp)%list_elem_of_fmap. rewrite merge_sort_Permutation in Hp.
  destruct p as [k sc]. apply elem_of_map_to_list in Hp. cbn. by rewrite Hp.
Qed.

Lemma ZRange_lists w l : answer (ZRange index) w = Some l -> listed sid u w <> None -> sid ∈ l.
Proof.
  destruct (after_documented (ZRange index) w) as (d & _ & -> & _). cbn. unfold listed.
  destruct (stored w !! index) as [[[t|n|m] e]|]; cbn; try done.
  intros [= <-] Hl. destruct (m !! sid) as [sc|] eqn:Em; [|done]. unfold range. apply list_elem_of_fmap. exists (sid, sc). split; [done|].
  rewrite merge_sort_Permutation. by apply elem_of_map_to_list.
Qed.

Lemma runs_pruneIndex k now w : now <= clock w -> k <> key -> runs (pruneIndex k now) (fun _ _ => True) w.
Proof.
  intros Hn Hk. destruct (decide (k = index)) as [->|]; [|by apply runs_harmless_, pruneIndex_harmless].
  apply (runs_send _ _ (fun w' => now <= clock w')); [apply stable_after|done|intros _; apply stable_const|].
  intros w1 H1. split; [by apply ZRemRange_G0|done].
Qed.

Lemma runs_ListUserSessionIDs user w : proper w ->
  runs (ListUserSessionIDs user) (fun r w' => match r with Ok l => user = u -> sid ∈ l -> born w' | Err _ => True end) w.
Proof.
  intros P. unfold ListUserSessionIDs. destruct (_ =? _)%string; [apply runs_ret; [|intros _ []%elem_of_nil]; apply stable_if, stable_if, stable_born|].
  apply (runs_now _ _ proper); [apply stable_proper|done|]. intros w1 P1.
  apply (runs_try _ _ (fun _ _ => True) proper); [apply stable_proper|done|apply runs_pruneIndex; [lia|apart]|intros e w2 _ _; by apply runs_ret; [apply stable_const|]|].
  intros _ w2 _ P2. apply (runs_send _ _ proper); [apply stable_proper|done| |].
  - intros [l|e]; [apply stable_if, stable_if, stable_born|apply stable_const].
  - intros w3 P3. assert (G0 w3 (after (ZRange (sessionIndexUserKey user)) w3)) as HG by by apply harmless_G0.
    split; [done|]. split; [done|]. split; [done|]. destruct (answer _ w3) as [l|] eqn:Ea; [|done]. intros -> Hl.
    apply (stable_born w3); [|by apply G0_basic]. destruct (decide (key ∈ written w3)) as [|B]; [done|].
    destruct (P3 B) as [_ Hn]. by destruct (ZRange_answer w3 l).
Qed.

(** ** Programs that only have to leave the session well *)

Definition keeps {A} (p : prog A) : Prop := forall w, proper w -> runs p (fun _ _ => True) w.

Lemma keeps_harmless {A} (p : prog A) : sends harmless p -> keeps p.
Proof. intros Hp w _. by apply runs_harmless_. Qed.
Lemma keeps_bind {A B} (p : prog A) (k : A -> prog B) : keeps p -> (forall a, keeps (k a)) -> keeps (bind p k).
Proof. intros Hp Hk w P. apply (runs_seq _ _ (fun _ _ => True) proper); auto using stable_proper. intros a w' _. apply Hk. Qed.
Lemma keeps_ret {A} (a : A) : keeps (Ret a).
Proof. by apply keeps_harmless. Qed.
Lemma keeps_now {A} (k : Z -> prog A) : (forall t, keeps (k t)) -> keeps (Now k).
Proof. intros Hk w P. apply (runs_now _ _ proper); auto using stable_proper. intros w' P'. by apply Hk. Qed.
Lemma keeps_ask {A} {Q : Set} (q : question Q) (k : Q -> prog A) : (forall r, keeps (k r)) -> keeps (Ask q k).
Proof. intros Hk w P. apply runs_ask. intros r. by apply Hk. Qed.
Lemma keeps_try {A B} (p : prog_ A) (k : A -> prog_ B) : keeps p -> (forall a, keeps (k a)) -> keeps (try_ p k).
Proof. intros Hp Hk. apply keeps_bind; [done|]. intros [a|e]; [apply Hk|apply keeps_ret]. Qed.
Lemma keeps_ignore {A B} (p : prog A) (k : prog B) : keeps p -> keeps k -> keeps (ignore p k).
Proof. intros Hp Hk. by apply keeps_bind. Qed.

Lemma LoadSession_keeps id : keeps (LoadSession unmarshal id).
Proof. apply keeps_harmless. unfold LoadSession. harmless_. Qed.
Lemma DeleteSession_keeps id : keeps (DeleteSession unmarshal id).
Proof. intros w P. eapply runs_mono; [done|by apply runs_DeleteSession]. Qed.

(** ** Lists of ids

    An id read from the user's index is that of a session that was begun. *)
Definition known user (ids : list string) w : Prop := proper w /\ (user = u -> sid ∈ ids -> born w).

Lemma stable_known_ids user ids : stable_ (known user ids).
Proof. apply stable_and; [apply stable_proper|apply stable_if, stable_if, stable_born]. Qed.

Lemma known_tail user id ids w : known user (id :: ids) w -> known user ids w.
Proof. intros [P B]. split; [done|]. intros E Hi. apply B; [done|]. by constructor. Qed.

Lemma missed_known user ids w w' : known user ids w -> missed w w' -> known user ids w'.
Proof. intros [P B] [P' M]. split; [done|]. intros E Hi. by apply M, B. Qed.

(** The index entry of an id without a snapshot. *)
Lemma runs_drop_missing user id w : proper w -> (user = u -> id = sid -> born w /\ absent w) ->
  runs (DropSessionIndexes user id) (fun _ _ => True) w.
Proof.
  intros P Hd. eapply runs_mono; [|apply (runs_DropSessionIndexes user id (fun w' => proper w' /\ (user = u -> id = sid -> proper w' /\ born w' /\ absent w')))].
  - done.
  - apply stable_and; [apply stable_proper|apply stable_if, stable_if, stable_gone].
  - split; [done|]. intros E1 E2. destruct (Hd E1 E2). auto.
  - intros w' [P' Hx] E1 E2. destruct (Hx E2 E1) as (? & ? & ?). auto.
Qed.

Lemma runs_delete_each user keep ids w : known user ids w ->
  runs (delete_each unmarshal user keep ids)
    (fun r w' => r = Ok tt -> user = u -> sid ∈ ids -> keep <> sid -> proper w' /\ born w' /\ absent w') w.
Proof.
  revert w. induction ids as [|id ids IH]; intros w K; cbn [delete_each].
  { apply runs_ret; [|by intros _ _ []%elem_of_nil]. apply stable_if, stable_if, stable_if, stable_if, stable_gone. }
  set (Phi := fun (r : outcome unit) w' => r = Ok tt -> user = u -> sid ∈ id :: ids -> keep <> sid -> proper w' /\ born w' /\ absent w').
  assert (forall w1, known user ids w1 -> (user = u -> id = sid -> keep <> sid -> proper w1 /\ born w1 /\ absent w1) ->
    runs (delete_each unmarshal user keep ids) Phi w1) as Hnext.
  { intros w1 K1 Hx. eapply runs_mono; [|eapply (runs_frame _ _ (fun w' => user = u -> id = sid -> keep <> sid -> proper w' /\ born w' /\ absent w')); [..|by apply IH]].
    - intros r w2 [Ha Hb] Hr Hu [<-|Hi]%elem_of_cons Hk; auto.
    - apply stable_if, stable_if, stable_if, stable_gone.
    - done. }
  destruct (String.eqb_spec id "") as [->|Hid]; cbn [orb]; [by apply Hnext; [eapply known_tail|congruence]|].
  destruct (String.eqb_spec id keep) as [->|Hk]; [by apply Hnext; [eapply known_tail|congruence]|].
  apply (runs_seq _ _ (fun r w' => id = sid -> deleted w r w') (known user (id :: ids))); [apply stable_known_ids|done|by apply runs_DeleteSession, K|].
  intros [s|[]] w1 Hd K1; try (apply runs_ret; [apply stable_if, stable_if, stable_if, stable_if, stable_gone|done]).
  - apply Hnext; [by eapply known_tail|]. intros _ E _. by apply Hd.
  - assert (user = u -> id = sid -> proper w1 /\ born w1 /\ absent w1) as Hx.
    { intros Eu E. specialize (Hd E) as [P1 M]. split; [done|]. apply M. apply K; [done|]. rewrite E. by constructor. }
    unfold ignore. apply (runs_seq _ _ (fun _ _ => True) (fun w' => known user ids w' /\ (user = u -> id = sid -> keep <> sid -> proper w' /\ born w' /\ absent w'))).
    + apply stable_and; [apply stable_known_ids|apply stable_if, stable_if, stable_if, stable_gone].
    + split; [by eapply known_tail|auto].
    + apply runs_drop_missing; [apply K1|]. intros E1 E2. by apply Hx.
    + intros _ w2 _ [K2 Hx2]. by apply Hnext.
Qed.

(** ** Activity *)

Lemma runs_TouchSession id s now w : proper w -> (TrimSpace id = sid -> born w /\ faithful (static s) w /\ coerce (ID s) = ID s /\ coerce (UserID s) = UserID s) ->
  runs (TouchSession marshal unmarshal L id s now) (fun _ _ => True) w.
Proof.
  intros P Hs. unfold TouchSession. set (t_id := TrimSpace id) in *. destruct (_ =? _)%string; [by apply runs_ret; [apply stable_const|]|].
  set (I := fun w' => proper w' /\ (t_id = sid -> proper w' /\ born w' /\ faithful (static s) w')).
  assert (stable_ I) as HI by (apply stable_and; [apply stable_proper|apply stable_if, stable_known]).
  assert (I w) as Hi by (split; [done|]; intros E; destruct (Hs E) as (? & ? & _); auto).
  apply (runs_seq _ _ (fun _ _ => True) I); [done..|apply runs_harmless_; harmless_|]. intros now' w1 _ [P1 Hx1].
  destruct (_ <? _); [by apply runs_ret; [apply stable_const|]|]. apply (runs_now _ _ I); [done..|]. intros w2 [P2 Hx2].
  destruct (_ <=? _); [by apply keeps_ignore; [apply DeleteSession_keeps|apply keeps_ret|]|].
  destruct (marshal _) as [payload|] eqn:Em; [|by apply runs_ret; [apply stable_const|]].
  apply (runs_try _ _ (fun _ _ => True) I); [done..| | |].
  - apply (runs_send _ _ I); [done..|intros; apply stable_const|]. intros w3 [P3 Hx3]. split; [|done].
    destruct (decide (t_id = sid)) as [E|Hne]; [rewrite E|].
    + destruct (Hx3 E) as (_ & B & F), (Hs E) as (_ & _ & C1 & C2). destruct (reads_back _ _ Em) as (s' & Hu & Est).
      apply (SetXX_G0 unmarshal L sid u calm HL w3 payload _ (static s) s' B F Hu). rewrite Est. cbn. unfold static. by rewrite C1, C2.
    + apply harmless_G0. cbn. split; [intros E%sessionDataKey_inj; by apply Hne|apart].
  - intros e w3 _ _. by apply runs_ret; [apply stable_const|].
  - intros written w3 _ [P3 _]. apply runs_harmless_. unfold pruneIndex. harmless_.
Qed.
End Ops.
