(* ===== verification/SessionsServices.v ===== *)
(** * What the authentication and the services do to a session

    An authentication admits a session only when its snapshot is stored and
    still valid; a service that reports a session ended has left no snapshot,
    or one no longer valid. *)

From stdpp Require Import base list gmap strings.
From Stdlib Require Import ZArith Lia.
From S2P Require Import Prelude GoStrings Redis RedisSafe Sessions SessionsSafe SessionsOps.
Local Open Scope Z_scope.
Local Open Scope prog_scope.

(** ** Validation *)

Lemma ValidateSession_static id s s' t : static s = static s' -> ValidateSession id s t = ValidateSession id s' t.
Proof. unfold static, ValidateSession. by intros [= -> -> ->]. Qed.

Lemma ValidateSession_later id s t t' : t <= t' -> ValidateSession id s t <> None -> ValidateSession id s t' <> None.
Proof.
  unfold ValidateSession. intros Ht. repeat case_match; try done; boolify; lia.
Qed.

Lemma ValidateSession_valid id s t : ValidateSession id s t = None -> ID s = TrimSpace id /\ UserID s <> ""%string /\ t < ExpiresAt s.
Proof. unfold ValidateSession. repeat case_match; try done; intros _; boolify. by repeat split. Qed.

Section Services.
Context {S : Type} `{Documented S}.
Variables (marshal : Session -> option string) (unmarshal : string -> option Session).
Context `{!Snapshots marshal unmarshal}.
Variables (marshal_state : UserState -> string) (unmarshal_state : string -> option UserState).
Variables (L GetSessionUserStateTTL : Z) (useragent_New : string -> Device).
Variables (sid u : string) (calm : Prop).
Hypothesis Hsid : sid <> ""%string.
Hypothesis Htrim : TrimSpace sid = sid.
Hypothesis HL : calm -> 0 < L /\ L mod second = 0.
Implicit Types w : world S.

Local Abbreviation key := (sessionDataKey sid).
Local Abbreviation index := (sessionIndexUserKey u).
Local Abbreviation basic := (SessionsSafe.basic (S := S) unmarshal sid u).
Local Abbreviation G0 := (SessionsSafe.G0 (S := S) unmarshal L sid u calm).
Local Abbreviation proper := (SessionsSafe.proper (S := S) sid u).
Local Abbreviation born := (SessionsSafe.born (S := S) sid).
Local Abbreviation absent := (SessionsSafe.absent (S := S) sid).
Local Abbreviation faithful := (SessionsSafe.faithful (S := S) unmarshal sid).
Local Abbreviation harmless := (SessionsSafe.harmless sid u).


Local Abbreviation runs := (SessionsOps.runs (S := S) unmarshal L sid u calm).
Local Abbreviation keeps := (SessionsOps.keeps (S := S) unmarshal L sid u calm).
Abbreviation stable_ := (stable basic).

(** No authentication of the session can succeed any more. *)
Definition dead (f : string * string * Z) w : Prop :=
  absent w \/ forall s t, static s = f -> clock w <= t -> ValidateSession sid s t <> None.
Definition gone f w : Prop := proper w /\ born w /\ dead f w.

Lemma stable_dead f : stable_ (gone f).
Proof.
  intros w w' (P & B & [A|D]) Hw.
  - destruct (stable_gone unmarshal sid u w w' (conj P (conj B A)) Hw) as (? & ? & ?). split; [done|]. split; [done|by left].
  - split; [by apply (basic_proper unmarshal sid u w)|]. split; [by apply (basic_born unmarshal sid u w)|]. right. intros s t E Ht.
    apply D; [done|]. pose proof (basic_clock _ _ _ _ _ Hw). lia.
Qed.

Local Abbreviation runs_LoadSession := (SessionsOps.runs_LoadSession marshal unmarshal L sid u calm Hsid).
Local Abbreviation runs_DeleteSession := (SessionsOps.runs_DeleteSession marshal unmarshal L sid u calm Hsid Htrim).
Local Abbreviation DeleteSession_keeps := (SessionsOps.DeleteSession_keeps marshal unmarshal L sid u calm Hsid Htrim).
Local Abbreviation runs_seq := (SessionsOps.runs_seq unmarshal L sid u calm).
Local Abbreviation runs_try := (SessionsOps.runs_try unmarshal L sid u calm).
Local Abbreviation runs_now := (SessionsOps.runs_now unmarshal L sid u calm).
Local Abbreviation runs_harmless := (SessionsOps.runs_harmless unmarshal L sid u calm).
Local Abbreviation runs_frame := (SessionsOps.runs_frame unmarshal L sid u calm).
Local Abbreviation runs_send := (SessionsOps.runs_send unmarshal L sid u calm).
Local Abbreviation runs_TouchSession := (SessionsOps.runs_TouchSession marshal unmarshal L sid u calm Hsid Htrim HL).
Local Abbreviation stable_proper := (SessionsOps.stable_proper unmarshal sid u).
Local Abbreviation loaded := (SessionsOps.loaded (S := S) unmarshal sid).

(** ** Authentication *)

(** A snapshot read from the store. *)
Definition coerced (s : Session) : Prop := coerce (ID s) = ID s /\ coerce (UserID s) = UserID s.

Lemma LoadSession_coerced id : returns (fun r => match r with Ok s => coerced s | Err _ => True end) (LoadSession unmarshal id).
Proof.
  unfold LoadSession. destruct (_ =? _)%string; cbn; [done|]. intros [[data|]|]; cbn; try done.
  destruct (unmarshal data) as [s|] eqn:E; cbn; [|done]. by apply (reads_coerced data).
Qed.

Lemma runs_loadSession id w : proper w ->
  runs (loadSession unmarshal id)
    (fun r w' => match r with Ok (Some s) => coerced s /\ (TrimSpace id = sid -> proper w' /\ loaded w s w') | _ => True end) w.
Proof.
  intros P. unfold loadSession.
  apply (runs_seq _ _ (fun r w' => (TrimSpace id = sid -> load_post unmarshal sid u w r w') /\ match r with Ok s => coerced s | Err _ => True end) proper);
    [apply stable_proper|done|apply safe_returns; [apply LoadSession_coerced|by apply runs_LoadSession]|].
  intros [s|[]] w1 [Hl Hc] P1; try (by apply runs_ret; [apply stable_const|]).
  - apply runs_ret; [|done]. apply stable_and; [apply stable_const|]. apply stable_if. apply (stable_loaded unmarshal sid u).
  - eapply runs_mono; [|apply (runs_harmless _ (fun r => r = Ok None))]; [by intros r w2 ->| |].
    + apply sends_ignore; [|done]. by apply deleteUnreadableSnapshot_harmless.
    + unfold ignore. eapply returns_bind; [apply returns_True|done].
Qed.

Lemma refreshed_harmless s : sends (SessionsSafe.harmless sid u) (ValidateSessionUserState marshal_state unmarshal_state GetSessionUserStateTTL s).
Proof.
  unfold ValidateSessionUserState. destruct (_ =? _)%string; [done|]. apply sends_bind; [by apply LoadUserState_harmless|]. intros [st|]; [done|].
  apply sends_try; [|done]. unfold refreshSessionUserState. intros [st| |]; try done. intros [b| |]; try done.
  apply sends_ignore; [by apply SaveUserState_harmless|done].
Qed.

Lemma ValidateSessionUserState_static s :
  returns (fun r => match r with Ok s' => static s' = static s /\ exists b, s' = must_change_to b s | Err _ => True end)
    (ValidateSessionUserState marshal_state unmarshal_state GetSessionUserStateTTL s).
Proof.
  unfold ValidateSessionUserState. destruct (_ =? _)%string; [done|]. eapply returns_bind; [apply returns_True|]. intros cached _.
  eapply returns_bind; [apply returns_True|]. intros [st|e] _; cbn; [|done]. destruct (ensureSessionUserActive _); [|done]. cbn. eauto.
Qed.

(** What an authentication tells of the session it admits. *)
Definition auth_post w (r : outcome Session) : Prop :=
  match r with
  | Ok s => ID s = sid -> born w -> ~ absent w /\ (exists t, clock w <= t /\ ValidateSession sid s t = None) /\ forall f, faithful f w -> static s = f
  | Err _ => True
  end.

Lemma auth_post_gone f w s : gone f w -> faithful f w -> auth_post w (Ok s) -> ID s <> sid.
Proof.
  intros (P & B & D) F Ha E. destruct (Ha E B) as (A & (t & Ht & Hv) & Hf). destruct D as [?|D]; [done|].
  by apply (D s t (Hf f F)).
Qed.

Lemma runs_Authenticate id ua method path w : proper w ->
  runs (Authenticate marshal unmarshal marshal_state unmarshal_state L GetSessionUserStateTTL useragent_New id ua method path)
    (fun r _ => auth_post w r) w.
Proof.
  intros P. unfold Authenticate. set (id' := TrimSpace id). destruct (_ =? _)%string; [by apply runs_ret; [apply stable_const|]|].
  assert (forall A (p : prog A) e w1, proper w1 -> keeps p -> runs (ignore p (Ret (Err e))) (fun r _ => auth_post w r) w1) as Hrej.
  { intros A p e w1 P1 Hp. apply (runs_seq _ _ (fun _ _ => True) proper); [apply stable_proper|done|by apply Hp|].
    intros _ w2 _ _. by apply runs_ret; [apply stable_const|]. }
  set (I := fun w' => proper w' /\ clock w <= clock w'). assert (stable_ I) as HI by (apply stable_and; [apply stable_proper|apply stable_after]).
  eapply (runs_try _ _ _ I); [done|by split; [|lia]|by apply runs_loadSession|..].
  { intros e w1 _ _. by apply runs_ret; [apply stable_const|]. }
  intros [s|] w1 Hl [P1 C1]; [|by apply runs_ret; [apply stable_const|]]. destruct Hl as [Hc Hl].
  set (J := fun w' => I w' /\ (TrimSpace id' = sid -> proper w' /\ loaded w s w')).
  assert (stable_ J) as HJ by (apply stable_and; [done|apply stable_if; apply (stable_loaded unmarshal sid u)]).
  apply (runs_now _ _ J); [done|by split|]. intros w2 [[P2 C2] L2].
  destruct (ValidateSession id' s (clock w2)) eqn:Hv; [apply Hrej; [done|apply DeleteSession_keeps]|].
  destruct (negb _); [by apply runs_ret; [apply stable_const|]|].
  eapply (runs_seq _ _ _ J); [done|by split| |].
  { apply runs_harmless; [apply refreshed_harmless|apply ValidateSessionUserState_static]. }
  intros [s'|e] w3 Hs' [[P3 C3] L3].
  2: { destruct e; try (apply Hrej; [done|apply DeleteSession_keeps]). destruct (_ || _); [apply Hrej; [done|apply DeleteSession_keeps]|].
       by apply runs_ret; [apply stable_const|]. }
  destruct Hs' as [Hst [b ->]]. destruct (_ && _); [by apply runs_ret; [apply stable_const|]|].
  apply (runs_now _ _ J); [done|by split|]. intros w4 [[P4 C4] L4].
  apply (runs_seq _ _ (fun _ _ => True) J); [done|by split| |].
  - apply runs_TouchSession; [done..|]. intros E. destruct (L4 E) as (_ & B & F & _). rewrite Hst. split; [done|]. split; [done|]. exact Hc.
  - intros _ w5 _ _. apply runs_ret; [apply stable_const|]. cbn [auth_post]. intros E B.
    destruct (ValidateSession_valid _ _ _ Hv) as (Hid & _ & _). assert (TrimSpace id' = sid) as Et by (rewrite <- Hid; exact E).
    destruct (L4 Et) as (_ & _ & _ & Hna & Hf). split; [by apply Hna|]. split.
    + exists (clock w2). split; [done|]. rewrite <- Hv. unfold ValidateSession. by rewrite Et, Htrim.
    + intros f F. rewrite Hst. by apply Hf.
Qed.

(** ** Ending a session by its id *)

Definition stopped {A} w (r : outcome A) w' : Prop :=
  match r with Ok _ => forall f, born w -> faithful f w -> gone f w' | Err _ => True end.

Lemma stable_stopped {A} w (r : outcome A) : stable_ (stopped w r).
Proof. destruct r; [|apply stable_const]. intros w1 w2 Hs Hw f B F. apply (stable_dead f w1); auto. Qed.

Lemma stopped_earlier {A} w w1 (r : outcome A) w' : proper w -> basic w w1 -> stopped w1 r w' -> stopped w r w'.
Proof.
  intros P Hw. destruct r; [|done]. intros Hs f B F. apply Hs; [by apply (basic_born unmarshal sid u w)|by apply (basic_faithful unmarshal sid u f w)].
Qed.

(** [p] ends the session when it answers no error, in the cases [C] tells. *)
Definition quits {A} (C : Prop) (p : prog_ A) : Prop := forall w, proper w -> runs p (fun r w' => C -> stopped w r w') w.

Lemma quits_err {A} C e : quits C (Ret (Err e) : prog_ A).
Proof. intros w P. by apply runs_ret; [apply stable_if, stable_const|]. Qed.

Lemma quits_keeps {A} C (p : prog_ A) : quits C p -> keeps p.
Proof. intros Hp w P. eapply runs_mono; [|by apply Hp]. done. Qed.

(** Once the state allows it, whatever was done before. *)
Lemma quits_seq {A B} C (p : prog A) (k : A -> prog_ B) : keeps p -> (forall a, quits C (k a)) -> quits C (bind p k).
Proof.
  intros Hp Hk w P. apply (runs_seq _ _ (fun _ _ => True) (fun w' => proper w' /\ basic w w')).
  - apply stable_and; [apply stable_proper|apply stable_from].
  - by split; [|reflexivity].
  - by apply Hp.
  - intros a w1 _ [P1 Hw]. eapply runs_mono; [|by apply Hk]. intros r w' Hs HC. apply (stopped_earlier w w1); auto.
Qed.

Lemma quits_try {A B} C (p : prog_ A) (k : A -> prog_ B) : keeps p -> (forall a, quits C (k a)) -> quits C (try_ p k).
Proof. intros Hp Hk. apply quits_seq; [done|]. intros [a|e]; [apply Hk|apply quits_err]. Qed.

Lemma quits_ask {A} {Q : Set} C (q : question Q) (k : Q -> prog_ A) : (forall r, quits C (k r)) -> quits C (Ask q k).
Proof. intros Hk w P. apply runs_ask. intros r. by apply Hk. Qed.

(** Where the session is not meant. *)
Lemma quits_other {A} C (p : prog_ A) : ~ C -> keeps p -> quits C p.
Proof. intros HC Hp w P. eapply runs_mono; [|by apply Hp]. done. Qed.

(** A deletion, and any reading of its result that keeps its failures. *)
Lemma quits_DeleteSession {A} C id (k : outcome Session -> outcome A) : (C -> id = sid) ->
  (forall e a, k (Err e) = Ok a -> e = EntryNotFound) -> quits C (r <- DeleteSession unmarshal id;; Ret (k r)).
Proof.
  intros HC Hk w P. apply (runs_seq _ _ (fun r w' => id = sid -> deleted sid u w r w') proper); [apply stable_proper|done|by apply runs_DeleteSession|].
  intros r w1 Hd P1. apply runs_ret; [apply stable_if, stable_stopped|]. intros c. specialize (Hd (HC c)).
  destruct (k r) as [a|e] eqn:Ek; [|done]. intros f B F. destruct r as [s|e].
  - destruct Hd as (? & ? & ?). split; [done|]. split; [done|by left].
  - rewrite (Hk e a Ek) in Hd. destruct Hd as [? Hm]. destruct (Hm B). split; [done|]. split; [done|by left].
Qed.

Lemma quits_end_target {A} id (missing : outcome A) done_ : quits (id = sid) (end_target unmarshal id missing done_).
Proof. unfold end_target. apply quits_DeleteSession; [done|]. intros [] a; cbn; done. Qed.

Lemma quits_load_target {A} id (missing : outcome A) unread k : (forall s, quits (id = sid) (k s)) ->
  quits (id = sid) (load_target unmarshal id missing unread k).
Proof.
  intros Hk w P. unfold load_target. set (I := fun w' => proper w' /\ basic w w').
  assert (stable_ I) as HI by (apply stable_and; [apply stable_proper|apply stable_from]).
  apply (runs_seq _ _ (fun r w' => TrimSpace id = sid -> load_post unmarshal sid u w r w') I); [done|by split; [|reflexivity]|by apply runs_LoadSession|].
  intros [s|e] w1 Hl [P1 Hw1].
  2: { apply runs_ret; [apply stable_if, stable_stopped|]. intros ->. specialize (Hl Htrim). destruct e; cbn; try done.
       destruct missing; cbn; [|done]. intros f B F. destruct Hl as [? Hm]. destruct (Hm B). split; [done|]. split; [done|by left]. }
  set (J := fun w' => I w' /\ (TrimSpace id = sid -> proper w' /\ loaded w s w')).
  assert (stable_ J) as HJ by (apply stable_and; [done|apply stable_if; apply (stable_loaded unmarshal sid u)]).
  apply (runs_now _ _ J); [done|by split|]. intros w2 [[P2 Hw2] L2]. destruct (ValidateSession id s (clock w2)) eqn:Hv.
  2: { eapply runs_mono; [|by apply Hk]. intros r w' Hs E. apply (stopped_earlier w w2); auto. }
  apply (runs_seq _ _ (fun _ _ => True) (fun w' => J w' /\ clock w2 <= clock w')).
  - apply stable_and; [done|apply stable_after].
  - split; [by split|lia].
  - by apply DeleteSession_keeps.
  - intros _ w3 _ [[[P3 Hw3] L3] Ht]. apply runs_ret; [apply stable_if, stable_stopped|]. intros ->. specialize (L3 Htrim) as (_ & B3 & _ & _ & Hf).
    destruct missing; [|done]. intros f B F. split; [done|]. split; [done|]. right. intros s' t E Ht'.
    rewrite <- (ValidateSession_static sid s) by (rewrite E; by apply Hf). apply (ValidateSession_later sid s (clock w2)); [lia|congruence].
Qed.

(** ** Who is calling *)

Lemma CurrentSession_keeps c : keeps (CurrentSession unmarshal c).
Proof.
  unfold CurrentSession.
  assert (forall id s, keeps (Now (fun now => match ValidateSession id s now with
      | Some _ => ignore (DeleteSession unmarshal id) (Ret (Err rejected)) | None => Ret (Ok (id, s)) end))) as Hc.
  { intros id s. apply keeps_now. intros t. destruct (ValidateSession _ _ _); [|apply keeps_ret]. apply keeps_ignore; [apply DeleteSession_keeps|apply keeps_ret]. }
  destruct (admitted c) as [[id s]|]; [apply Hc|]. destruct (CookieSessionID c) as [id|e]; [|apply keeps_ret].
  apply keeps_try; [intros w P; eapply runs_mono; [|by apply runs_loadSession]; done|]. intros [s|]; [apply Hc|apply keeps_ret].
Qed.

Lemma loadAdminSessionActor_keeps c : keeps (loadAdminSessionActor unmarshal c).
Proof.
  unfold loadAdminSessionActor. apply keeps_try; [apply CurrentSession_keeps|]. intros [id s]. apply keeps_harmless. by intros [st| |].
Qed.
Lemma ensureAdminSessionActor_keeps c : keeps (ensureAdminSessionActor unmarshal c).
Proof.
  unfold ensureAdminSessionActor. apply keeps_try; [apply loadAdminSessionActor_keeps|]. intros actor. by apply keeps_harmless.
Qed.
Lemma ensureAdminSessionTarget_keeps c user : keeps (ensureAdminSessionTarget unmarshal c user).
Proof.
  unfold ensureAdminSessionTarget. apply keeps_try; [apply loadAdminSessionActor_keeps|]. intros actor. by apply keeps_harmless.
Qed.

(** ** The services that end one session *)

Lemma CurrentDelete_quits c : quits (cookie c = Some sid) (CurrentDelete unmarshal c).
Proof.
  unfold CurrentDelete, CookieSessionID. destruct (cookie c) as [id|]; [|apply quits_err].
  apply quits_DeleteSession; [congruence|]. done.
Qed.

Lemma Logout_quits c : quits (cookie c = Some sid) (Logout unmarshal c).
Proof.
  unfold Logout, CookieSessionID. destruct (cookie c) as [id|]; [|apply quits_other; [done|apply keeps_ret]].
  apply quits_DeleteSession; [congruence|]. intros [] a; cbn; done.
Qed.

Lemma AdminSessionDelete_quits c target : quits (target = sid) (AdminSessionDelete unmarshal c target).
Proof.
  unfold AdminSessionDelete. apply quits_try; [apply CurrentSession_keeps|]. intros _. apply quits_try; [apply ensureAdminSessionActor_keeps|].
  intros _. destruct (String.eqb_spec target "") as [->|_]; [apply quits_err|]. apply quits_load_target. intros s. apply quits_end_target.
Qed.

(** ** The sessions of a user *)

Local Abbreviation known := (SessionsOps.known (S := S) sid u).

Lemma keeps_listed {A} user (k : list string -> prog_ A) :
  (forall ids w, known user ids w -> runs (k ids) (fun _ _ => True) w) -> keeps (try_ (ListUserSessionIDs user) k).
Proof.
  intros Hk w P. apply (runs_try _ _ (fun r w' => match r with Ok l => user = u -> sid ∈ l -> born w' | Err _ => True end) proper); [apply stable_proper|done| | |].
  - by apply runs_ListUserSessionIDs.
  - intros e w1 _ _. by apply runs_ret; [apply stable_const|].
  - intros ids w1 Hb P1. by apply Hk.
Qed.

Lemma deleteUserSessions_keeps user keep : keeps (deleteUserSessions unmarshal user keep).
Proof.
  unfold deleteUserSessions. apply keeps_listed. intros ids w K.
  eapply runs_mono; [|by apply (SessionsOps.runs_delete_each marshal unmarshal L sid u calm Hsid Htrim)]. done.
Qed.

Lemma DeleteUserSessionsExcept_keeps user keep : keeps (DeleteUserSessionsExcept unmarshal user keep).
Proof. unfold DeleteUserSessionsExcept. destruct (_ =? _)%string; [apply keeps_ret|apply deleteUserSessions_keeps]. Qed.

Lemma DeleteUserSessions_other user : user <> u -> keeps (DeleteUserSessions unmarshal user).
Proof.
  intros Hn. unfold DeleteUserSessions. destruct (_ =? _)%string; [apply keeps_ret|].
  apply keeps_ignore; [apply keeps_harmless, DropUserState_harmless|]. apply keeps_try; [apply deleteUserSessions_keeps|]. intros _.
  apply keeps_harmless, sends_send. cbn. rewrite list_elem_of_singleton. by intros E%sessionIndexUserKey_inj.
Qed.

Lemma after_change_keeps user current : keeps (after_change unmarshal user current).
Proof.
  unfold after_change. apply keeps_ignore; [apply keeps_harmless, DropUserState_harmless|].
  apply keeps_bind; [apply DeleteUserSessionsExcept_keeps|]. intros r. apply keeps_ret.
Qed.

Lemma SessionDelete_quits c target : quits (target = sid /\ target <> "others"%string) (SessionDelete unmarshal c target).
Proof.
  unfold SessionDelete. apply quits_try; [apply CurrentSession_keeps|]. intros [current s].
  destruct (String.eqb_spec target "") as [->|_]; [apply quits_err|]. destruct (String.eqb_spec target "others") as [->|Ho].
  { apply quits_other; [by intros []|apply DeleteUserSessionsExcept_keeps]. }
  intros w P. eapply runs_mono; [|apply (quits_load_target target (Ok tt) "failed to load target session"); [|done]].
  - cbn beta. intros r w' Hs [E _]. by apply Hs.
  - intros t. destruct (negb _); [apply quits_err|apply quits_end_target].
Qed.

(** ** Lists of sessions *)

(** A loop that loads each id, and drops the entry of one without a snapshot
    from the index it was read from. *)
Lemma runs_each {A} index id ids (missing bad : prog_ A) (ok : Session -> prog_ A) w : known index (id :: ids) w ->
  (forall w', known index ids w' -> runs missing (fun _ _ => True) w') ->
  (forall s w', known index ids w' -> (TrimSpace id = sid -> proper w' /\ loaded w s w') -> runs (ok s) (fun _ _ => True) w') ->
  keeps bad ->
  runs (r <- LoadSession unmarshal id;;
        match r with
        | Err e => if not_found e then ignore (DropSessionIndexes index id) missing else bad
        | Ok s => ok s
        end) (fun _ _ => True) w.
Proof.
  intros K Hm Hok Hbad.
  apply (runs_seq _ _ (fun r w' => TrimSpace id = sid -> load_post unmarshal sid u w r w') (known index (id :: ids)));
    [apply stable_known_ids|done|by apply runs_LoadSession, K|].
  intros [s|e] w1 Hl K1; [by apply Hok; [apply (known_tail sid u index id)|]|].
  destruct e; cbn [not_found]; try by apply Hbad, K1.
  apply (runs_seq _ _ (fun _ _ => True) (known index ids)); [apply stable_known_ids|by apply (known_tail sid u index id)| |by intros _ w2 _; apply Hm].
  apply runs_drop_missing; [done|apply K1|]. intros E1 E2. rewrite E2 in *. specialize (Hl Htrim) as [_ M]. apply M, K; [done|by constructor].
Qed.

(** A step that leaves the list of ids as it is. *)
Lemma runs_then {A B} index ids (p : prog A) (k : A -> prog B) w : known index ids w -> keeps p ->
  (forall a w', known index ids w' -> runs (k a) (fun _ _ => True) w') -> runs (bind p k) (fun _ _ => True) w.
Proof.
  intros K Hp Hk. apply (runs_seq _ _ (fun _ _ => True) (known index ids)); [apply stable_known_ids|done|by apply Hp, K|]. intros a w' _. apply Hk.
Qed.

Lemma runs_now_known {A} index ids (k : Z -> prog A) w : known index ids w ->
  (forall t w', known index ids w' -> runs (k t) (fun _ _ => True) w') -> runs (Now k) (fun _ _ => True) w.
Proof. intros K Hk. apply (runs_now _ _ (known index ids)); [apply stable_known_ids|done|]. intros w' K'. by apply Hk. Qed.

Lemma runs_cons {A} (p : prog_ (list A)) (a : A) w : runs p (fun _ _ => True) w -> runs (try l <- p;; Ret (Ok (a :: l))) (fun _ _ => True) w.
Proof.
  intros Hp. apply (runs_seq _ _ (fun _ _ => True) (fun _ => True)); [apply stable_const|done|done|].
  intros [l|e] w' _ _; by apply runs_ret; [apply stable_const|].
Qed.

Lemma list_each_runs user current s ids w : known user ids w -> runs (list_each unmarshal user current s ids) (fun _ _ => True) w.
Proof.
  revert w. induction ids as [|id ids IH]; intros w K; cbn [list_each]; [by apply runs_ret; [apply stable_const|]|].
  pose proof (known_tail sid u user id ids w K) as K0.
  destruct (_ =? _)%string; [by apply runs_cons, IH|]. apply (runs_each user id ids); [done|done| |apply keeps_ret].
  intros t w1 K1 _. apply (runs_now_known user ids); [done|]. intros t0 w2 K2. destruct (ValidateSession _ _ _); [|by apply runs_cons, IH].
  apply (runs_then user ids); [done|apply DeleteSession_keeps|]. intros _. apply IH.
Qed.

Lemma SessionList_keeps c : keeps (SessionList unmarshal c).
Proof.
  unfold SessionList. apply keeps_try; [apply CurrentSession_keeps|]. intros [current s]. apply keeps_listed. intros ids w. apply list_each_runs.
Qed.

(** The entry of a session that turns out to be another user's. *)
Lemma DropUserSessionIndexMember_runs user id s w0 w : user <> UserID s -> proper w -> (TrimSpace id = sid -> loaded w0 s w) ->
  runs (DropUserSessionIndexMember user id) (fun _ _ => True) w.
Proof.
  intros Hu P Hl. unfold DropUserSessionIndexMember. destruct (_ || _); [by apply runs_ret; [apply stable_const|]|].
  set (I := fun w' => proper w' /\ (TrimSpace id = sid -> proper w' /\ loaded w0 s w')).
  assert (stable_ I) as HI by (apply stable_and; [apply stable_proper|apply stable_if; apply (stable_loaded unmarshal sid u)]).
  apply (runs_send _ _ I); [done|by split; [|auto]|intros; apply stable_const|]. intros w1 [P1 L1]. split; [|done].
  destruct (decide (user = u /\ id = sid)) as [[-> ->]|Hn].
  - apply ZRem_G0; [done|]. intros _. right. destruct (L1 Htrim) as (_ & _ & F & _). exists (static s). split; [done|]. cbn. congruence.
  - apply harmless_G0. split; [unfold sessionIndexUserKey, sessionDataKey; cbn; discriminate|].
    intros E%sessionIndexUserKey_inj E'. by apply Hn.
Qed.

Lemma view_each_runs user index since ids w : index = ""%string \/ index = user -> known index ids w ->
  runs (view_each unmarshal user index since ids) (fun _ _ => True) w.
Proof.
  intros Hi. revert w. induction ids as [|id ids IH]; intros w K; cbn [view_each]; [by apply runs_ret; [apply stable_const|]|].
  pose proof (known_tail sid u index id ids w K) as K0.
  destruct (_ =? _)%string; [by apply IH|]. apply (runs_each index id ids); [done|done| |apply keeps_ret].
  intros t w1 K1 L1. set (I := fun w' => known index ids w' /\ (TrimSpace id = sid -> proper w' /\ loaded w t w')).
  assert (stable_ I) as HI by (apply stable_and; [apply stable_known_ids|apply stable_if; apply (stable_loaded unmarshal sid u)]).
  apply (runs_now _ _ I); [done|by split|]. intros w2 [K2 L2].
  destruct (ValidateSession _ _ _); [by apply (runs_then index ids); [done|apply DeleteSession_keeps|]; intros _; apply IH|].
  destruct (String.eqb_spec (UserID t) user) as [|Hu]; cbn [negb]; [by case_match; [apply IH|apply runs_cons, IH]|].
  destruct (String.eqb_spec index "") as [|Hx]; cbn [negb]; [by apply IH|].
  apply (runs_seq _ _ (fun _ _ => True) (known index ids)); [apply stable_known_ids|done| |by intros _ w3 _; apply IH].
  apply (DropUserSessionIndexMember_runs _ _ t w); [|apply K2|]; [|by intros E; apply L2]. destruct Hi; congruence.
Qed.

Lemma known_elsewhere index ids w : index <> u -> proper w -> known index ids w.
Proof. intros Hi P. by split. Qed.

(** An index that is no user's lists ids of any session. *)
Hypothesis Hu : u <> ""%string.

Lemma buildView_keeps user since : keeps (buildView unmarshal L user since).
Proof.
  unfold buildView. apply keeps_ask. intros credential. apply keeps_ask. intros email.
  destruct credential, email; try apply keeps_ret; (destruct since as [t|]; [|apply keeps_listed; intros ids w; apply view_each_runs; auto]);
    (apply keeps_try; [apply keeps_harmless, ListSeenSessionIDs_harmless|]; intros ids w P; apply view_each_runs; [by left|by apply known_elsewhere]).
Qed.

Lemma item_each_runs since owners ids w : proper w -> runs (item_each unmarshal since owners ids) (fun _ _ => True) w.
Proof.
  revert owners w. induction ids as [|id ids IH]; intros owners w P; cbn [item_each]; [by apply runs_ret; [apply stable_const|]|].
  destruct (_ =? _)%string; [by apply IH|]. assert (forall l w', proper w' -> known "" l w') as Hk by (intros; by apply known_elsewhere).
  apply (runs_each "" id ids); [by apply Hk|by intros w' [P' _]; apply IH| |apply keeps_ret].
  intros t w1 K1 _. apply (runs_now_known "" ids); [done|]. intros t0 w2 K2.
  destruct (ValidateSession _ _ _); [by apply (runs_then "" ids); [done|apply DeleteSession_keeps|]; intros _ w3 [P3 _]; apply IH|].
  destruct (match since with Some _ => _ | None => _ end); [by apply IH, K2|]. destruct (bool_decide _); [by apply runs_cons, IH, K2|].
  apply runs_ask. intros [[]| |]; [by apply runs_cons, IH, K2| |by apply runs_ret; [apply stable_const|]].
  apply (runs_then "" ids); [done|apply DeleteSession_keeps|]. intros _ w3 [P3 _]. by apply IH.
Qed.

Lemma AdminSessionList_keeps c since : keeps (AdminSessionList unmarshal L c since).
Proof.
  unfold AdminSessionList. apply keeps_try; [apply ensureAdminSessionActor_keeps|]. intros _.
  apply keeps_try; [destruct since; apply keeps_harmless; [apply ListSeenSessionIDs_harmless|apply ListAllSessionIDs_harmless]|].
  intros ids w P. by apply item_each_runs.
Qed.

(** A target that is loaded and shown. *)
Lemma load_target_keeps {A} id (missing : outcome A) unread (k : Session -> prog_ A) : (forall s, keeps (k s)) -> keeps (load_target unmarshal id missing unread k).
Proof.
  intros Hk. unfold load_target. apply keeps_bind; [by apply LoadSession_keeps|]. intros [t|e]; [|apply keeps_ret]. apply keeps_now. intros now.
  destruct (ValidateSession _ _ _); [apply keeps_ignore; [apply DeleteSession_keeps|apply keeps_ret]|apply Hk].
Qed.

Lemma SessionGet_keeps c target : keeps (SessionGet unmarshal c target).
Proof.
  unfold SessionGet. apply keeps_try; [apply CurrentSession_keeps|]. intros [current s]. destruct (_ =? _)%string; [apply keeps_ret|].
  apply load_target_keeps. intros t. apply keeps_ret.
Qed.

Lemma AdminSessionGet_keeps c target : keeps (AdminSessionGet unmarshal c target).
Proof.
  unfold AdminSessionGet. apply keeps_try; [apply CurrentSession_keeps|]. intros _. apply keeps_try; [apply ensureAdminSessionActor_keeps|]. intros _.
  destruct (_ =? _)%string; [apply keeps_ret|]. apply load_target_keeps. intros t. apply keeps_ret.
Qed.

Lemma CurrentGet_keeps c : keeps (CurrentGet unmarshal c).
Proof.
  unfold CurrentGet. apply keeps_try; [apply CurrentSession_keeps|]. intros [id s]. apply keeps_harmless. intros [st| |]; try done.
  apply sends_try; [done|]. intros []. by intros [e| |].
Qed.
End Services.
