(* ===== verification/SessionsLogin.v ===== *)
(** * What a login and a revocation do to a session

    The login of a session leaves it stored and, when no revocation of its
    user's sessions ran beside it, listed in its user's index for as long as
    it lasts; such a revocation then finds it there.  A revocation beside
    which no login of the user runs reports success only once the index does
    not list the session or its snapshot is gone. *)

From stdpp Require Import base list gmap strings.
From Stdlib Require Import ZArith Lia.
From S2P Require Import Prelude GoStrings Redis RedisSafe Sessions SessionsSafe SessionsOps SessionsServices.
Local Open Scope Z_scope.
Local Open Scope prog_scope.

(** Commands that write no key of a session. *)
Definition aside (Q : Set) (c : cmd Q) : Prop :=
  forall k, k ∈ touched c -> (forall id, k <> sessionDataKey id) /\ (forall user, k <> sessionIndexUserKey user).

Section Login.
Context {S : Type} `{Documented S}.
Variables (marshal : Session -> option string) (unmarshal : string -> option Session).
Context `{!Snapshots marshal unmarshal}.
Variables (marshal_state : UserState -> string) (unmarshal_state : string -> option UserState).
Variables (L GetSessionUserStateTTL : Z) (useragent_New : string -> Device).
(** The attempts at a login, and its second factor. *)
Variables (loginFailureLimit loginFailureWindow : Z) (verifyLoginSecondFactor : string -> prog (option failure)).
Variables (sid u : string) (calm : Prop).
Hypothesis Hsid : sid <> ""%string.
Hypothesis Htrim : TrimSpace sid = sid.
Hypothesis HL : calm -> 0 < L /\ L mod second = 0.
Implicit Types w : world S.

Local Abbreviation key := (sessionDataKey sid).
Local Abbreviation index := (sessionIndexUserKey u).
Local Abbreviation basic := (SessionsSafe.basic (S := S) unmarshal sid u).
Local Abbreviation G0 := (SessionsSafe.G0 (S := S) unmarshal L sid u calm).
Local Abbreviation proper := (SessionsSafe.proper (S := S) sid u).
Local Abbreviation born := (SessionsSafe.born (S := S) sid).
Local Abbreviation absent := (SessionsSafe.absent (S := S) sid).
Local Abbreviation faithful := (SessionsSafe.faithful (S := S) unmarshal sid).
Local Abbreviation harmless := (SessionsSafe.harmless sid u).


Local Abbreviation runs := (SessionsOps.runs (S := S) unmarshal L sid u calm).
Local Abbreviation keeps := (SessionsOps.keeps (S := S) unmarshal L sid u calm).
Local Abbreviation quiet := (SessionsSafe.quiet (S := S) sid).
Local Abbreviation good := (SessionsSafe.good (S := S) unmarshal sid u).
Local Abbreviation weak := (SessionsSafe.weak (S := S) unmarshal sid u).
Local Abbreviation over := (SessionsSafe.over (S := S) unmarshal sid u).
Local Abbreviation listed := (SessionsSafe.listed (S := S) sid u).
Local Abbreviation GL := (SessionsSafe.GL (S := S) unmarshal L sid u calm).

Hypothesis second_factor_aside : forall id, sends aside (verifyLoginSecondFactor id).

Lemma aside_harmless (Q : Set) (c : cmd Q) : aside Q c -> harmless Q c.
Proof.
  unfold aside. intros Hc. assert (forall k, k ∈ touched c -> k <> key /\ k <> index) as Hk by (intros k Hk; destruct (Hc k Hk); auto).
  destruct c; cbn in *; try done; try (apply Hk; by apply list_elem_of_singleton).
  - intros Hi. by destruct (Hk _ Hi).
  - destruct (Hk _ (proj2 (list_elem_of_singleton _ _) eq_refl)). split; [done|]. intros E. congruence.
  - destruct (Hk _ (proj2 (list_elem_of_singleton _ _) eq_refl)). split; [done|]. intros E. congruence.
Qed.

Lemma sends_mono (P P' : forall Q : Set, cmd Q -> Prop) {A} (p : prog A) : (forall Q c, P Q c -> P' Q c) -> sends P p -> sends P' p.
Proof. intros HP. induction p as [a|f IH|X c f IH|X f IH]; cbn; auto. intros [? ?]. auto. Qed.

Ltac apart := unfold sessionDataKey, sessionIndexUserKey, sessionIndexAllKey, sessionIndexSeenKey, userStateKey, loginFailureKey; cbn; discriminate.

Lemma RecordLoginFailure_harmless n : sends harmless (RecordLoginFailure n loginFailureWindow).
Proof.
  unfold RecordLoginFailure. split; [split; apart|]. intros [c|]; [|done]. destruct (_ =? _); [|done].
  split; [split; apart|]. intros [[]|]; [done|]. split; [cbn; rewrite list_elem_of_singleton; apart|done].
Qed.

Lemma ClearLoginFailures_harmless n : sends harmless (ClearLoginFailures n).
Proof.
  unfold ClearLoginFailures. destruct (_ =? _)%string; [done|]. apply sends_ignore; [|done]. apply sends_send. cbn. rewrite list_elem_of_singleton. apart.
Qed.

Lemma verify_login_harmless req a : sends harmless (verify_login loginFailureLimit loginFailureWindow verifyLoginSecondFactor req a).
Proof.
  unfold verify_login. apply sends_try; [done|]. intros []. intros [mc| |]; try done.
  apply sends_try; [unfold ensureLoginNotLockedOut; apply sends_bind; [by split|done]|]. intros [] []; cbn [negb].
  2: { apply sends_ignore; [apply RecordLoginFailure_harmless|done]. }
  intros [root|]; [|done]. apply sends_try; [destruct (_ && _); [|done]; by intros [[]|]|]. intros [].
  apply sends_bind; [apply (sends_mono aside harmless); [apply aside_harmless|apply second_factor_aside]|].
  intros [e|]; [|done]. apply sends_ignore; [apply RecordLoginFailure_harmless|done].
Qed.

(** ** The login of another session *)

(** Every login of the user prolongs the index. *)
Definition allowed (Q : Set) (c : cmd Q) : Prop :=
  harmless Q c \/ match c with Expire k ttl => k = index /\ ttl = L | _ => False end.

Lemma allowed_G0 (Q : Set) (c : cmd Q) w : allowed Q c -> G0 w (after c w).
Proof. intros [Hc|Hc]; [by apply harmless_G0|]. destruct c; try done. destruct Hc as [-> ->]. by apply Expire_G0. Qed.

Lemma sends_allowed {A} (p : prog A) : sends harmless p -> sends allowed p.
Proof. apply sends_mono. intros Q c Hc. by left. Qed.

Lemma keeps_allowed {A} (p : prog A) : sends allowed p -> keeps p.
Proof.
  intros Hp w P. apply (sends_safe allowed); [apply _| |by intros w1 w2 ??|done|done].
  intros Q c w' Hc _. split; [by apply allowed_G0|done].
Qed.

Lemma DeleteSession_harmless id : id <> sid -> sends harmless (DeleteSession unmarshal id).
Proof.
  intros Hn. unfold DeleteSession. destruct (_ =? _)%string; [done|].
  apply sends_try; [|intros s; apply sends_try; [|intros _; apply sends_try; [apply DropSessionIndexes_harmless; auto|done]]].
  - unfold LoadSession. destruct (_ =? _)%string; [done|]. apply sends_try; [by apply sends_send|done].
  - apply sends_send. cbn. rewrite list_elem_of_singleton. apart.
Qed.

Lemma Expire_user_allowed user : allowed unit (Expire (sessionIndexUserKey user) L).
Proof.
  destruct (decide (user = u)) as [->|Hn]; [by right|]. left. split; [apart|]. by intros E%sessionIndexUserKey_inj.
Qed.

(** The indexing of a session that is not this one, or not in this index. *)
Lemma IndexSession_allowed s : ID s <> sid \/ UserID s <> u -> sends allowed (IndexSession L s).
Proof.
  intros Hn. unfold IndexSession. destruct (_ || _); [done|]. intros now. apply sends_ignore.
  { apply sends_allowed, sends_send. split; apart. }
  intros now'. destruct (_ <=? _); [done|].
  assert (harmless unit (ZAdd (sessionIndexUserKey (UserID s)) (UnixMilli (ExpiresAt s)) (ID s))) as Hz.
  { split; [apart|]. intros E%sessionIndexUserKey_inj. by destruct Hn. }
  apply sends_try; [by apply sends_allowed, sends_send|]. intros _.
  assert (sends allowed (ignore (DropSessionIndexes (UserID s) (ID s)) (Ret (Err indexSessionError) : prog_ unit))) as Hu.
  { apply sends_allowed, sends_ignore; [apply DropSessionIndexes_harmless; tauto|done]. }
  cbn [all_or_undo]. repeat (split; [|intros [[]|]; [|exact Hu]]); try done; try apply Expire_user_allowed; left; split;
    first [apart|let E := fresh in intros E; exfalso; revert E; apart].
Qed.

Lemma open_session_allowed a tenant mc ip ua id : id <> Some sid -> sends allowed (open_session marshal unmarshal L useragent_New a tenant mc ip ua id).
Proof.
  intros Hn. unfold open_session. intros now. destruct id as [id|]; [|done]. set (s := mkSession _ _ _ _ _ _ _ _ _ _ _ _ _ _).
  apply sends_try.
  - unfold SaveSession. destruct (_ =? _)%string; [done|]. destruct (_ <? _); [done|]. destruct (marshal s); [|done].
    apply sends_allowed, sends_send. split; [|apart]. intros E%sessionDataKey_inj. cbn in E. congruence.
  - intros _. apply sends_bind; [apply IndexSession_allowed; left; cbn; congruence|]. intros [x|e]; [done|].
    apply sends_allowed, sends_ignore; [apply DeleteSession_harmless; congruence|done].
Qed.

Lemma Login_keeps users req ip ua id : id <> Some sid ->
  keeps (Login marshal unmarshal L useragent_New loginFailureLimit loginFailureWindow verifyLoginSecondFactor users req ip ua id).
Proof.
  intros Hn. apply keeps_allowed. unfold Login. destruct (_ =? _)%string; [done|]. destruct (_ =? _)%string; [done|].
  destruct users as [[|a l]|]; try done. apply sends_try; [apply sends_allowed, verify_login_harmless|]. intros mc.
  apply sends_try; [by apply open_session_allowed|]. intros s. apply sends_ignore; [apply sends_allowed, ClearLoginFailures_harmless|done].
Qed.

(** ** The login of this session *)

Section Own.
(** Who logs in. *)
Variable v : string.
Hypothesis Hu : u <> ""%string.
Local Abbreviation RL := (SessionsSafe.RL (S := S) unmarshal L sid u calm v).

Lemma RL_basic w w' : RL w w' -> basic w w'.
Proof. by intros [? _]. Qed.

(** The login's commands once the session is there. *)
Definition mine (Q : Set) (c : cmd Q) : Prop := key ∉ touched c /\ (v <> u -> allowed Q c).

Lemma harmless_mine (Q : Set) (c : cmd Q) : harmless Q c -> key ∉ touched c -> mine Q c.
Proof. intros Hc Hk. split; [done|]. intros _. by left. Qed.

Lemma mine_GL (Q : Set) (c : cmd Q) w : proper w -> born w -> mine Q c -> GL v w (after c w).
Proof.
  intros P B [Hk Hc]. destruct (key_frame unmarshal sid c w Hk) as [Ha Hf]. split.
  - split; [by rewrite clock_after|]. split; [apply written_after|]. intros _. split; [|auto].
    intros B'. destruct B'. unfold SessionsSafe.born in *. pose proof (written_after c w). set_solver.
  - intros C Hv. destruct (allowed_G0 Q c w (Hc Hv)) as (_ & _ & HC). by destruct (HC C) as (? & _ & ?).
Qed.

(** What is known of the session from its SET to the end of its login. *)
Definition there (f : string * string * Z) (E : Z) w : Prop := proper w /\ born w /\ faithful f w /\ E <= clock w + L.
Definition there_weak f E w : Prop := there f E w /\ (calm -> v = u -> weak E w).
Definition there_good f E w : Prop := there f E w /\ (calm -> v = u -> good E w).

Lemma there_basic f E w w' : basic w w' -> there f E w -> there f E w'.
Proof.
  intros Hw (P & B & F & HE). destruct (SessionsOps.stable_known unmarshal sid u f w w' (conj P (conj B F)) Hw) as (? & ? & ?).
  pose proof (basic_clock _ _ _ _ _ Hw). split; [done|]. split; [done|]. split; [done|lia].
Qed.

Lemma there_weak_RL f E w w' : RL w w' -> there_weak f E w -> there_weak f E w'.
Proof.
  intros Hw [T Hc]. split; [by apply (there_basic f E w), T; apply RL_basic|]. intros C Hv. destruct Hw as (_ & _ & HC).
  destruct T as (P & B & _). apply (proj1 (HC C Hv)); auto.
Qed.
Lemma there_good_RL f E w w' : RL w w' -> there_good f E w -> there_good f E w'.
Proof.
  intros Hw [T Hc]. split; [by apply (there_basic f E w), T; apply RL_basic|]. intros C Hv. destruct Hw as (_ & _ & HC).
  destruct T as (P & B & _ & HE). apply (proj2 (HC C Hv)); auto.
Qed.

(** A stretch of harmless commands. *)
Lemma own_harmless {A} (p : prog A) (I : world S -> Prop) w : (forall w1 w2, RL w1 w2 -> I w1 -> I w2) ->
  sends harmless p -> I w -> safe RL (GL v) p (fun _ w' => I w') w.
Proof.
  intros HI Hp Hi. apply (sends_safe harmless); [apply _| |intros w1 w2 H1 Hr; by apply (HI w1)|done|done].
  intros Q c w' Hc Hi'. assert (G0 w' (after c w')) as HG by by apply harmless_G0. split; [by apply G0_GL|]. apply (HI w'); [by apply G0_RL|done].
Qed.

Lemma own_ret {A} (a : A) (Phi : A -> world S -> Prop) w : (forall w1 w2, RL w1 w2 -> Phi a w1 -> Phi a w2) -> Phi a w -> safe RL (GL v) (Ret a : prog A) Phi w.
Proof. intros HP Ha. apply safe_answer; [|done]. intros w1 w2 H1 Hr. by apply (HP w1). Qed.

Lemma own_seq {A B} (p : prog A) (k : A -> prog B) Psi Phi w :
  safe RL (GL v) p Psi w -> (forall a w', Psi a w' -> safe RL (GL v) (k a) Phi w') -> safe RL (GL v) (bind p k) Phi w.
Proof. intros Hp Hk. apply safe_bind; [apply _|]. eapply safe_mono; [|exact Hp]. auto. Qed.

Definition sure (I : world S -> Prop) {A} (r : outcome A) w : Prop := match r with Ok _ => I w | Err _ => proper w end.

Lemma sure_RL {A} (I : world S -> Prop) (r : outcome A) w w' : (forall w1 w2, RL w1 w2 -> I w1 -> I w2) -> RL w w' -> sure I r w -> sure I r w'.
Proof. intros HI Hw. destruct r; cbn; [by apply HI|]. apply (basic_proper unmarshal sid u). by apply RL_basic. Qed.

(** One command of the indexing, whose success changes [I] to [I']. *)
Lemma own_call (c : cmd unit) (k : option unit -> prog_ unit) (I I' : world S -> Prop) Phi w :
  (forall w1 w2, RL w1 w2 -> I w1 -> I w2) -> (forall w, I w -> exists f E, there f E w) -> mine unit c -> I w ->
  (forall w', I w' -> answer c w' = Some tt -> I' (after c w')) ->
  (forall w', I' w' -> safe RL (GL v) (k (Some tt)) Phi w') ->
  (forall w', (exists f E, there f E w') -> safe RL (GL v) (k None) Phi w') ->
  safe RL (GL v) (Call c k) Phi w.
Proof.
  intros HI Ht Hm Hi Hs Hk Hn. apply (safe_call RL (GL v) c k Phi I); [intros w1 w2 H1 Hr; by apply (HI w1)|done|].
  intros w1 H1. destruct (Ht w1 H1) as (f & E & T). assert (GL v w1 (after c w1)) as HG by by apply mine_GL; [apply T|apply T|].
  assert (there f E (after c w1)) as T' by (apply (there_basic f E w1); [by destruct HG|done]).
  split; [apply Hn; eauto|]. split; [done|]. split; [|apply Hn; eauto].
  destruct (answer c w1) as [[]|] eqn:Ea; [by apply Hk, Hs|apply Hn; eauto].
Qed.

Lemma own_call_harmless (c : cmd unit) (k : option unit -> prog_ unit) (I : world S -> Prop) Phi w :
  (forall w1 w2, RL w1 w2 -> I w1 -> I w2) -> (forall w, I w -> exists f E, there f E w) -> harmless unit c -> key ∉ touched c -> I w ->
  (forall w', I w' -> safe RL (GL v) (k (Some tt)) Phi w') ->
  (forall w', (exists f E, there f E w') -> safe RL (GL v) (k None) Phi w') ->
  safe RL (GL v) (Call c k) Phi w.
Proof.
  intros HI Ht Hc Hk Hi. apply (own_call c k I I); [done|done|by apply harmless_mine|done|].
  intros w' H' _. apply (HI w'); [by apply G0_RL, harmless_G0|done].
Qed.

(** *** The commands that list the session *)

Lemma ZAdd_lists E w : proper w -> born w -> answer (ZAdd index (UnixMilli E) sid) w = Some tt ->
  exists e, listed (after (ZAdd index (UnixMilli E) sid) w) = Some (UnixMilli E, e).
Proof.
  intros P B Ha. destruct (after_documented (ZAdd index (UnixMilli E) sid) w) as (d & _ & Ea & Es). rewrite Ha in Ea. cbn in Ea, Es.
  unfold SessionsSafe.listed. rewrite Es. destruct (stored w !! index) as [[[t|n|m] e]|] eqn:Ei; try done; cbn.
  - exists e. rewrite (proj2 (live_lookup _ _ _ (SortedSet (<[sid := UnixMilli E]> m), e))); [by rewrite lookup_insert_eq|].
    split; [by rewrite lookup_insert_eq|]. exact (stored_lookup w index _ Ei).
  - exists None. rewrite (proj2 (live_lookup _ _ _ (SortedSet {[sid := UnixMilli E]}, None))); [by rewrite lookup_singleton_eq|].
    split; [by rewrite lookup_insert_eq|done].
Qed.

Lemma Expire_lasts E w : calm -> born w -> E <= clock w + L -> weak E w -> proper w -> good E (after (Expire index L) w).
Proof.
  intros C B HE [O|(e & He)] P; pose proof (Expire_G0 unmarshal L sid u calm HL w) as (_ & _ & HC); destruct (HC C) as (_ & _ & Hg).
  - apply Hg; [done..|]. by left.
  - right. destruct (after_documented (Expire index L) w) as (d & Hd & _ & Es). cbn in Hd, Es. destruct (HL C) as [Hp Hs].
    destruct (Hd Hp) as (Hd1 & Hd2 & _). specialize (Hd2 Hs). rewrite (proj2 (Z.ltb_lt 0 L) Hp) in Es.
    apply listed_lookup in He as (m & Ei & Em). exists (Some d). split; [|unfold outlives; lia].
    apply listed_lookup. exists m. split; [|done]. rewrite Es, Ei. apply live_lookup. split; [by rewrite lookup_insert_eq|unfold lives; cbn; lia].
Qed.

(** *** The indexing *)

Lemma there_proper_RL f E w w' : RL w w' -> there f E w -> there f E w'.
Proof. intros Hw. apply there_basic. by apply RL_basic. Qed.

Lemma DropSessionIndexes_mine id : sends mine (DropSessionIndexes v id).
Proof.
  assert (forall k, k <> key -> k <> index -> mine unit (ZRem k id)) as Hm.
  { intros k Hk Hi. apply harmless_mine; [by split|]. cbn. rewrite list_elem_of_singleton. congruence. }
  unfold DropSessionIndexes. destruct (_ =? _)%string; [done|]. apply sends_try; [|intros _; apply sends_try; [|intros _]; apply sends_send, Hm; apart].
  destruct (_ =? _)%string; [done|]. apply sends_send. split; [cbn; rewrite list_elem_of_singleton; apart|].
  intros Hv. left. split; [apart|]. by intros E%sessionIndexUserKey_inj.
Qed.

(** Undone, it fails. *)
Lemma own_undo (I : world S -> Prop) f E w : there f E w ->
  safe RL (GL v) (ignore (DropSessionIndexes v sid) (Ret (Err indexSessionError) : prog_ unit)) (sure I) w.
Proof.
  intros (P & B & _). eapply safe_mono; [|apply (sends_returns_safe mine RL (GL v) _ (fun r => r = Err indexSessionError) (fun w' => proper w' /\ born w'))].
  - by intros r w' [[? _] ->].
  - intros Q c w' Hc [P' B']. assert (GL v w' (after c w')) as HG by by apply mine_GL. split; [done|]. destruct HG as [Hb _].
    split; [by apply (basic_proper unmarshal sid u w')|by apply (basic_born unmarshal sid u w')].
  - intros w1 w2 [P1 B1] Hr%RL_basic. split; [by apply (basic_proper unmarshal sid u w1)|by apply (basic_born unmarshal sid u w1)].
  - apply sends_ignore; [apply DropSessionIndexes_mine|done].
  - unfold ignore. eapply returns_bind; [apply returns_True|done].
  - done.
Qed.

Lemma own_error (I : world S -> Prop) {A} e w : proper w -> safe RL (GL v) (Ret (Err e) : prog_ A) (sure I) w.
Proof. intros P. apply own_ret; [|done]. intros w1 w2 Hr. cbn. apply (basic_proper unmarshal sid u). by apply RL_basic. Qed.

Lemma own_IndexSession f s w : ID s = sid -> UserID s = v -> there f (ExpiresAt s) w ->
  safe RL (GL v) (IndexSession L s) (sure (there_good f (ExpiresAt s))) w.
Proof.
  intros Hid Hv T. unfold IndexSession. rewrite Hid, Hv. set (E := ExpiresAt s) in *.
  destruct (String.eqb_spec sid "") as [|_]; [done|]. rewrite orb_false_r. destruct (String.eqb_spec v "") as [Hv0|_].
  { apply own_ret; [intros w1 w2; by apply there_good_RL|]. split; [done|]. intros _ E'. congruence. }
  apply (safe_clock RL (GL v) _ _ (there f E)); [intros w1 w2 T1 Hr; by apply (there_proper_RL f E w1)|done|]. intros w1 T1.
  unfold ignore. apply (own_seq _ _ (fun _ w' => there f E w')).
  { apply own_harmless; [apply there_proper_RL| |done]. apply sends_send. split; apart. }
  intros _ w2 T2. apply (safe_clock RL (GL v) _ _ (there f E)); [intros ? ? ? Hr; by apply (there_proper_RL f E _ _ Hr)|done|]. intros w3 T3.
  destruct (_ <=? _); [apply own_error, T3|].
  assert (forall w f E, (exists f E, there f E w) -> safe RL (GL v) (ignore (DropSessionIndexes v sid) (Ret (Err indexSessionError) : prog_ unit)) (sure (there_good f E)) w) as Hundo.
  { intros w0 f0 E0 (f' & E' & T'). by apply (own_undo _ f' E'). }
  assert (forall w, there_weak f E w -> exists f E, there f E w) as Htw by (intros w0 [? _]; eauto).
  assert (forall w, there_good f E w -> exists f E, there f E w) as Htg by (intros w0 [? _]; eauto).
  assert (forall k, k <> key -> key ∉ [k]) as Hk by (intros k ? ?%list_elem_of_singleton; congruence).
  unfold try_. apply (own_seq _ _ (sure (there_weak f E))).
  { apply (own_call _ _ (there f E) (there_weak f E)); [apply there_proper_RL|eauto| |done| | |].
    - split; [apply Hk; apart|]. intros Hne. left. split; [apart|]. by intros E0%sessionIndexUserKey_inj.
    - intros w4 T4 Ha. split; [|intros C ->; right; by apply ZAdd_lists; [apply T4|apply T4|]].
      apply (there_basic f E w4); [|done]. apply (mine_GL _ _ w4); [apply T4|apply T4|].
      split; [apply Hk; apart|]. intros Hne. left. split; [apart|]. by intros E0%sessionIndexUserKey_inj.
    - intros w4 T4. apply own_ret; [intros ? ?; apply there_weak_RL|done].
    - intros w4 (f' & E' & T4). apply own_error, T4. }
  intros [[]|e] w4 T4; [|by apply own_error]. cbn [all_or_undo].
  apply (own_call_harmless _ _ (there_weak f E)); [apply there_weak_RL|done|split; apart|apply Hk; apart|done| |intros; by apply Hundo]. intros w5 T5.
  apply (own_call_harmless _ _ (there_weak f E)); [apply there_weak_RL|done|split; apart|apply Hk; apart|done| |intros; by apply Hundo]. intros w6 T6.
  apply (own_call _ _ (there_weak f E) (there_good f E)); [apply there_weak_RL|done| |done| | |intros; by apply Hundo].
  { split; [apply Hk; apart|]. intros _. apply Expire_user_allowed. }
  { intros w7 [T7 W7] Ha. split.
    - apply (there_basic f E w7); [|done]. apply (G0_basic unmarshal L sid u calm), allowed_G0, Expire_user_allowed.
    - intros C Hvu. rewrite Hvu. apply Expire_lasts; [done|apply T7|apply T7|by apply W7|apply T7]. }
  intros w7 T7.
  apply (own_call_harmless _ _ (there_good f E)); [apply there_good_RL|done|split; apart|apply Hk; apart|done| |intros; by apply Hundo]. intros w8 T8.
  apply (own_call_harmless _ _ (there_good f E)); [apply there_good_RL|done|split; apart|apply Hk; apart|done| |intros; by apply Hundo]. intros w9 T9.
  apply own_ret; [intros ? ?; apply there_good_RL|done].
Qed.

(** *** The SET that begins the session *)

Lemma SET_born payload ttl w : born (after (Set_ key payload ttl) w).
Proof. unfold SessionsSafe.born, after. cbn. set_solver. Qed.

Lemma SET_GL payload ttl w : ~ born w -> GL v w (after (Set_ key payload ttl) w).
Proof.
  intros B. pose proof (SET_born payload ttl w) as B'. split.
  - split; [by rewrite clock_after|]. split; [apply written_after|]. intros _. split; [|split]; [by intros ?|by intros ?|by intros ??].
  - intros _ _. split; [|by intros ???]. intros _. unfold SessionsSafe.listed. rewrite after_frame; [done|]. cbn. rewrite list_elem_of_singleton. apart.
Qed.

Lemma SET_there payload ttl s now w : marshal s = Some payload -> ID s = sid -> UserID s = v -> ExpiresAt s = now + L -> now <= clock w ->
  there (coerce sid, coerce v, ExpiresAt s) (ExpiresAt s) (after (Set_ key payload ttl) w).
Proof.
  intros Em Hid Hv HE Hc. destruct (reads_back _ _ Em) as (s' & Hu' & Hs). rewrite Hid, Hv in Hs. pose proof (SET_born payload ttl w) as B'.
  split; [by intros ?|]. split; [done|]. split; [|rewrite clock_after; lia].
  intros x e. destruct (after_documented (Set_ key payload ttl) w) as (d & _ & _ & ->). intros [El _]%live_lookup. cbn in El.
  rewrite lookup_insert_eq in El. injection El as <- _. eauto.
Qed.

Definition opened (r : outcome Session) w : Prop :=
  match r with
  | Ok s => ID s = sid /\ UserID s = v /\ there_good (coerce sid, coerce v, ExpiresAt s) (ExpiresAt s) w
  | Err _ => proper w
  end.

Lemma opened_RL r w w' : RL w w' -> opened r w -> opened r w'.
Proof.
  intros Hw. destruct r as [s|e]; cbn; [|apply (basic_proper unmarshal sid u); by apply RL_basic].
  intros (? & ? & T). repeat split; try done; by eapply there_good_RL.
Qed.

Definition unborn w : Prop := proper w /\ ~ born w.
Lemma unborn_RL w w' : RL w w' -> unborn w -> unborn w'.
Proof. intros (Hb & Hq & _) [P B]. split; [by apply (basic_proper unmarshal sid u w)|]. intros B'. by apply B, Hq. Qed.

Lemma own_open_session a tenant mc ip ua w : a_ID a = v -> unborn w ->
  safe RL (GL v) (open_session marshal unmarshal L useragent_New a tenant mc ip ua (Some sid)) opened w.
Proof.
  intros Hv U. unfold open_session.
  apply (safe_clock RL (GL v) _ _ unborn); [intros ? ? ? Hr; by apply (unborn_RL _ _ Hr)|done|]. intros w1 U1. set (now := clock w1). set (s := mkSession _ _ _ _ _ _ _ _ _ _ _ _ _ _).
  set (f := (coerce sid, coerce v, ExpiresAt s)). unfold try_.
  apply (own_seq _ _ (sure (there f (ExpiresAt s)))).
  - unfold SaveSession. change (ID s) with sid. destruct (String.eqb_spec sid "") as [|_]; [done|].
    destruct (_ <? _); [apply own_error, U1|]. destruct (marshal s) as [payload|] eqn:Em; [|apply own_error, U1].
    apply (safe_call RL (GL v) _ _ _ (fun w' => unborn w' /\ now <= clock w')).
    + intros w2 w3 [U2 C2] Hr. split; [by apply (unborn_RL w2)|]. apply RL_basic in Hr. pose proof (basic_clock _ _ _ _ _ Hr). lia.
    + split; [done|]. unfold now. lia.
    + intros w2 [[P2 B2] C2]. assert (there f (ExpiresAt s) (after (Set_ key payload L) w2)) as T by by apply (SET_there payload L s now).
      split; [by apply own_error|]. split; [by apply SET_GL|]. split; [|by apply own_error, T].
      destruct (answer _ w2) as [[]|]; [|by apply own_error, T]. apply own_ret; [intros ? ?; apply there_proper_RL|done].
  - intros [[]|e] w2 T2; [|by apply own_ret; [intros ? ? Hr; by apply (opened_RL (Err e))|]].
    apply (own_seq _ _ (sure (there_good f (ExpiresAt s)))); [by apply own_IndexSession|]. intros [[]|e] w3 T3.
    + apply own_ret; [intros ? ? Hr; by apply (opened_RL (Ok s))|]. by repeat split; try done; apply T3.
    + unfold ignore. apply (own_seq _ _ (fun _ w' => proper w')).
      * eapply safe_mono; [|eapply (safe_weaken basic RL G0 (GL v)); [apply RL_basic|apply G0_GL|]].
        2: { apply runs_frame; [apply SessionsOps.stable_proper|exact T3|]. by apply (SessionsOps.DeleteSession_keeps marshal unmarshal L sid u calm Hsid Htrim). }
        by intros r w' [_ ?].
      * intros _ w4 P4. by apply own_ret; [intros ? ? Hr; by apply (opened_RL (Err _))|].
Qed.

Lemma own_Login a l req ip ua w : a_ID a = v -> unborn w ->
  safe RL (GL v) (Login marshal unmarshal L useragent_New loginFailureLimit loginFailureWindow verifyLoginSecondFactor (Some (a :: l)) req ip ua (Some sid)) opened w.
Proof.
  intros Hv U. assert (forall e w', proper w' -> safe RL (GL v) (Ret (Err e) : prog_ Session) opened w') as He.
  { intros e w' P. by apply own_ret; [intros ? ? Hr; by apply (opened_RL (Err e))|]. }
  unfold Login. destruct (_ =? _)%string; [apply He, U|]. destruct (_ =? _)%string; [apply He, U|]. unfold try_.
  apply (own_seq _ _ (fun _ w' => unborn w')); [apply own_harmless; [apply unborn_RL|apply verify_login_harmless|done]|].
  intros [mc|e] w1 U1; [|apply He, U1]. apply (own_seq _ _ opened); [by apply own_open_session|].
  intros [s|e] w2 T2; [|by apply He]. unfold ignore.
  apply (own_seq _ _ (fun _ w' => opened (Ok s) w')); [apply own_harmless; [apply (opened_RL (Ok s))|apply ClearLoginFailures_harmless|done]|].
  intros _ w3 T3. apply own_ret; [intros ? ?; apply (opened_RL (Ok s))|done].
Qed.
End Own.
End Login.

(** * A revocation of all sessions of a user *)

Section Revocation.
Context {S : Type} `{Documented S}.
Variables (marshal : Session -> option string) (unmarshal : string -> option Session).
Context `{!Snapshots marshal unmarshal}.
Variables (marshal_state : UserState -> string) (unmarshal_state : string -> option UserState).
Variables (L GetSessionUserStateTTL : Z) (useragent_New : string -> Device).
Variables (sid u : string) (calm : Prop).
Hypothesis Hsid : sid <> ""%string.
Hypothesis Htrim : TrimSpace sid = sid.
Hypothesis HL : calm -> 0 < L /\ L mod second = 0.
Implicit Types w : world S.

Local Abbreviation key := (sessionDataKey sid).
Local Abbreviation index := (sessionIndexUserKey u).
Local Abbreviation basic := (SessionsSafe.basic (S := S) unmarshal sid u).
Local Abbreviation G0 := (SessionsSafe.G0 (S := S) unmarshal L sid u calm).
Local Abbreviation proper := (SessionsSafe.proper (S := S) sid u).
Local Abbreviation born := (SessionsSafe.born (S := S) sid).
Local Abbreviation absent := (SessionsSafe.absent (S := S) sid).
Local Abbreviation faithful := (SessionsSafe.faithful (S := S) unmarshal sid).
Local Abbreviation harmless := (SessionsSafe.harmless sid u).


Local Abbreviation runs := (SessionsOps.runs (S := S) unmarshal L sid u calm).
Local Abbreviation keeps := (SessionsOps.keeps (S := S) unmarshal L sid u calm).
Local Abbreviation good := (SessionsSafe.good (S := S) unmarshal sid u).
Local Abbreviation RR := (SessionsSafe.RR (S := S) unmarshal L sid u calm).
Local Abbreviation GR := (SessionsSafe.GR (S := S) unmarshal L sid u calm).
Local Abbreviation listed := (SessionsSafe.listed (S := S) sid u).


Lemma RR_basic w w' : RR w w' -> basic w w'.
Proof. by intros [? _]. Qed.

(** The session is out of the reach of the user's index, or gone. *)
Definition swept w : Prop := proper w /\ (calm -> listed w = None \/ (born w /\ absent w)).

Lemma swept_RR w w' : RR w w' -> swept w -> swept w'.
Proof.
  intros [Hb Hc] [P Hs]. assert (proper w') as P' by by apply (basic_proper unmarshal sid u w). split; [done|]. intros C.
  destruct (Hs C) as [N|[B A]].
  - left. destruct (listed w') as [x|] eqn:E; [|done]. exfalso. apply (proj1 (Hc C) P); [by rewrite E|done].
  - right. split; [by apply (basic_born unmarshal sid u w)|by apply (basic_absent unmarshal sid u w)].
Qed.

(** What any other program does, beside such a revocation and as part of one. *)
Lemma any {A} (p : prog A) Phi w : runs p Phi w -> safe RR GR p Phi w.
Proof. apply safe_weaken; [apply RR_basic|apply G0_GR]. Qed.

Lemma all_ret {A} (a : A) (Phi : A -> world S -> Prop) w : (forall w1 w2, RR w1 w2 -> Phi a w1 -> Phi a w2) -> Phi a w -> safe RR GR (Ret a : prog A) Phi w.
Proof. intros HP Ha. apply safe_answer; [|done]. intros w1 w2 H1 Hr. by apply (HP w1). Qed.

Lemma all_seq {A B} (p : prog A) (k : A -> prog B) Psi Phi w :
  safe RR GR p Psi w -> (forall a w', Psi a w' -> safe RR GR (k a) Phi w') -> safe RR GR (bind p k) Phi w.
Proof. intros Hp Hk. apply safe_bind; [apply _|]. eapply safe_mono; [|exact Hp]. auto. Qed.

Lemma all_frame {A} (p : prog A) Phi (I : world S -> Prop) w : (forall w1 w2, RR w1 w2 -> I w1 -> I w2) -> I w ->
  safe RR GR p Phi w -> safe RR GR p (fun a w' => Phi a w' /\ I w') w.
Proof. intros HI. apply safe_frame; [apply _|apply GR_RR|]. intros w1 w2 H1 Hr. by apply (HI w1). Qed.

(** Where the index does not list the session, or the list has it. *)
Definition found (ids : list string) w : Prop := known sid u u ids w /\ (calm -> listed w = None \/ sid ∈ ids).

Lemma proper_RR w w' : RR w w' -> proper w -> proper w'.
Proof. intros [Hb _]. by apply (basic_proper unmarshal sid u w). Qed.

Lemma found_RR ids w w' : RR w w' -> found ids w -> found ids w'.
Proof.
  intros Hr [K Hc]. split; [apply (stable_known_ids unmarshal sid u u ids w); [done|by apply RR_basic]|]. intros C.
  destruct (Hc C) as [N|]; [|by right]. left. destruct (listed w') as [x|] eqn:E; [|done]. exfalso.
  destruct Hr as [_ Hr]. apply (proj1 (Hr C) (proj1 K)); [by rewrite E|done].
Qed.

Lemma all_ListUserSessionIDs w : proper w -> u <> ""%string ->
  safe RR GR (ListUserSessionIDs u) (fun r w' => match r with Ok ids => found ids w' | Err _ => True end) w.
Proof.
  intros P Hu. unfold ListUserSessionIDs. destruct (String.eqb_spec u "") as [|_]; [done|].
  apply (safe_clock RR GR _ _ proper); [intros ? ? ? Hr; by apply (proper_RR _ _ Hr)|done|]. intros w1 P1. unfold try_.
  apply (all_seq _ _ (fun _ w' => proper w')).
  { eapply safe_mono; [|apply any, runs_frame; [apply stable_proper|exact P1|apply runs_pruneIndex; [lia|unfold sessionDataKey, sessionIndexUserKey; cbn; discriminate]]].
    by intros r w' [_ ?]. }
  intros [[]|e] w2 P2; [|by apply all_ret]. unfold send.
  apply (safe_call RR GR _ _ _ proper); [intros ? ? ? Hr; by apply (proper_RR _ _ Hr)|done|]. intros w3 P3.
  assert (GR w3 (after (ZRange index) w3)) as HG by by apply G0_GR, harmless_G0.
  split; [by apply all_ret|]. split; [done|]. split; [|by apply all_ret].
  destruct (answer _ w3) as [ids|] eqn:Ea; [|by apply all_ret]. apply all_ret; [intros ? ?; apply found_RR|].
  apply (found_RR ids w3); [by apply GR_RR|]. split; [split; [done|]|]; intros.
  - destruct (decide (key ∈ written w3)) as [|B]; [done|]. destruct (P3 B) as [_ Hn]. by destruct (ZRange_answer sid u Hsid Htrim w3 ids).
  - destruct (listed w3) eqn:E; [|by left]. right. apply (ZRange_lists sid u w3); [done|]. by rewrite E.
Qed.

Lemma all_deleteUserSessions keep w : proper w -> u <> ""%string -> keep <> sid ->
  safe RR GR (deleteUserSessions unmarshal u keep) (fun r w' => r = Ok tt -> swept w') w.
Proof.
  intros P Hu Hk. unfold deleteUserSessions, try_. eapply (all_seq _ _ _); [by apply all_ListUserSessionIDs|].
  intros [ids|e] w1 Hf; [|by apply all_ret].
  eapply safe_mono; [|apply all_frame; [apply (found_RR ids)|exact Hf|]; apply any].
  2: { apply (runs_delete_each marshal unmarshal L sid u calm Hsid Htrim u keep). apply Hf. }
  intros r w2 [Hd [K2 Hc2]] Hr. split; [apply K2|]. intros C. destruct (Hc2 C) as [|Hi]; [by left|right].
  by destruct (Hd Hr eq_refl Hi Hk).
Qed.

(** The index is deleted once it lists nothing that lives. *)
Lemma Del_index_GR w : swept w -> GR w (after (Del [index]) w).
Proof.
  intros [P Hs]. set (w' := after (Del [index]) w).
  assert (listed w' = None) as N'.
  { unfold SessionsSafe.listed, w'. destruct (after_documented (Del [index]) w) as (d & _ & _ & ->). cbn. by rewrite live_None by apply lookup_delete_eq. }
  assert (born w' -> born w) as Hq by (unfold SessionsSafe.born, w', after; cbn; set_solver).
  destruct (key_frame unmarshal sid (Del [index]) w) as [Ha Hf].
  { cbn. rewrite list_elem_of_singleton. unfold sessionDataKey, sessionIndexUserKey. cbn. discriminate. }
  assert (born w -> born w') as Hq' by (unfold SessionsSafe.born, w', after; cbn; set_solver).
  split; [|split; [done|intros C; split]].
  - split; [done|]. split; [apply written_after|]. intros _. split; [|auto]. intros B'. split; [|done]. apply Ha, P. auto.
  - intros _. congruence.
  - intros E _ B HE [[A|[(f & F & Hn)|Sp]]|(e & He & _)]; left; [left; by apply Ha|right; left; exists f; auto|by right; right|].
    destruct (Hs C) as [N|[_ A]]; [congruence|left; by apply Ha].
Qed.

Lemma all_DeleteUserSessions w : proper w -> u <> ""%string ->
  safe RR GR (DeleteUserSessions unmarshal u) (fun r w' => r = Ok tt -> swept w') w.
Proof.
  intros P Hu. unfold DeleteUserSessions, ignore, try_. destruct (String.eqb_spec u "") as [|_]; [done|].
  apply (all_seq _ _ (fun _ w' => proper w')).
  { eapply safe_mono; [|apply any, runs_frame; [apply stable_proper|exact P|apply runs_harmless_, DropUserState_harmless]]. by intros r w' [_ ?]. }
  intros _ w1 P1. apply (all_seq _ _ (fun r w' => r = Ok tt -> swept w')); [by apply all_deleteUserSessions|].
  intros [[]|e] w2 Hs; [|by apply all_ret]. unfold send. apply (safe_call RR GR _ _ _ swept); [intros ? ? ? Hr; by apply (swept_RR _ _ Hr)|by apply Hs|].
  intros w3 S3. pose proof (Del_index_GR w3 S3) as HG. split; [by apply all_ret|]. split; [done|]. split; [|by apply all_ret].
  assert (swept (after (Del [index]) w3)) as S4 by (apply (swept_RR w3); [by apply GR_RR|done]).
  apply all_ret; [intros w4 w5 Hr Hx Ho; by apply (swept_RR w4), Hx|done].
Qed.

Lemma all_after_reset w : proper w -> u <> ""%string -> safe RR GR (after_reset unmarshal u) (fun r w' => r = Ok tt -> swept w') w.
Proof.
  intros P Hu. unfold after_reset. eapply all_seq; [by apply all_DeleteUserSessions|]. intros [[]|e] w1 Hs; [|by apply all_ret].
  apply all_ret; [intros w4 w5 Hr Hx Ho; by apply (swept_RR w4), Hx|auto].
Qed.

Lemma all_DeleteUserSessionsExcept keep w : proper w -> u <> ""%string -> keep <> sid ->
  safe RR GR (DeleteUserSessionsExcept unmarshal u keep) (fun r w' => r = Ok tt -> swept w') w.
Proof.
  intros P Hu Hk. unfold DeleteUserSessionsExcept. destruct (String.eqb_spec u "") as [|_]; [done|]. by apply all_deleteUserSessions.
Qed.
End Revocation.
