(* ===== verification/SessionsSystem.v ===== *)
(** * Sessions served at once

    The requests on sessions, each with the program that serves it, and what
    each leaves behind for one session, whatever runs beside it. *)

From stdpp Require Import base list gmap strings.
From Stdlib Require Import ZArith Lia Ascii Strings.Byte.
From S2P Require Import Prelude GoStrings Redis RedisSafe Sessions SessionsSafe SessionsOps SessionsServices SessionsLogin.
Local Open Scope Z_scope.
Local Open Scope prog_scope.

(** ** Ids *)

Lemma hexDigit_visible n : (33 <= nat_of_ascii (hexDigit n) < 128)%nat.
Proof. unfold hexDigit. do 16 (destruct n as [|n]; [vm_compute; lia|]). destruct n; vm_compute; lia. Qed.

Lemma EncodeToString_form bytes : Forall (fun b => 33 <= b < 128)%nat (bytes_of (EncodeToString bytes)) /\
  String.length (EncodeToString bytes) = (2 * length bytes)%nat.
Proof.
  induction bytes as [|b l [IH1 IH2]]; [split; [constructor|done]|]. split.
  - change (EncodeToString (b :: l)) with (String (hexDigit (Byte.to_nat b / 16)) (String (hexDigit (Byte.to_nat b mod 16)) (EncodeToString l))).
    unfold bytes_of in *. cbn [String.list_ascii_of_string map]. constructor; [apply hexDigit_visible|]. constructor; [apply hexDigit_visible|done].
  - change (String.length (EncodeToString (b :: l))) with (2 + String.length (EncodeToString l))%nat. rewrite IH2. cbn [length]. lia.
Qed.

Lemma NewSessionID_form random id : NewSessionID random = Some id -> TrimSpace id = id /\ String.length id = 64%nat.
Proof.
  unfold NewSessionID. destruct random as [byte|]; [|done]. cbn [fmap option_fmap option_map]. intros E.
  assert (id = EncodeToString (map byte (seq 0 sessionIDBytes))) as -> by congruence.
  destruct (EncodeToString_form (map byte (seq 0 sessionIDBytes))) as [Hf ->]. split; [by apply TrimSpace_visible|by rewrite length_map, length_seq].
Qed.

(** ** Requests *)

Inductive request : Type :=
| OLogin (users : option (list account)) (req : LoginReq) (clientIP userAgent : string) (random : option (nat -> Byte.byte))
| OLogout (c : caller)
| OAuthenticate (id userAgent method path : string)
| OSessionDelete (c : caller) (target : string)
| OSessionDeleteAll (c : caller)
| OCurrentDelete (c : caller)
| OAdminSessionDelete (c : caller) (target : string)
| OAdminUserSessionDelete (c : caller) (user : string)
| OSessionGet (c : caller) (target : string)
| OAdminSessionGet (c : caller) (target : string)
| OCurrentGet (c : caller)
| OSessionList (c : caller)
| OAdminSessionList (c : caller) (since : option Z)
| OAdminUserSessionList (user : string) (since : option Z)
| OPasswordChanged (user current : string)
| OPasswordReset (user : string).

Inductive reply : Type := TheSession (s : Session) | Sessions (l : list Session) | NoContent.

Definition answering {A} (p : prog_ A) (f : A -> reply) : prog_ reply := try a <- p;; Ret (Ok (f a)).

(** The session a request makes, and of which user. *)
Definition draws (r : request) (id : string) : Prop :=
  match r with OLogin _ _ _ _ random => NewSessionID random = Some id | _ => False end.
Definition signs_in (r : request) (user : string) : Prop :=
  match r with OLogin (Some (a :: _)) _ _ _ _ => a_ID a = user | _ => False end.

Lemma NewSessionID_drawn r id : draws r id -> TrimSpace id = id /\ id <> ""%string.
Proof. destruct r; try done. intros [Ht Hl]%NewSessionID_form. split; [done|]. by intros ->. Qed.

(** The session a request means to end. *)
Definition ends_session (r : request) (id : string) : Prop :=
  match r with
  | OLogout c | OCurrentDelete c => cookie c = Some id
  | OSessionDelete _ target => target = id /\ target <> "others"%string
  | OAdminSessionDelete _ target => target = id
  | _ => False
  end.

(** The user all whose sessions but [keep] a request means to end. *)
Definition revokes (r : request) (user keep : string) : Prop :=
  match r with
  | OSessionDelete c target => target = "others"%string /\ exists s, admitted c = Some (keep, s) /\ UserID s = user
  | OSessionDeleteAll c => keep = ""%string /\ exists id s, admitted c = Some (id, s) /\ UserID s = user
  | OAdminUserSessionDelete _ user' | OPasswordReset user' => keep = ""%string /\ user' = user
  | OPasswordChanged user' current => keep = current /\ user' = user
  | _ => False
  end.
(** And the users it might turn out to mean. *)
Definition may_revoke (r : request) (user : string) : Prop :=
  match r with
  | OSessionDelete c target => target = "others"%string /\ match admitted c with Some (_, s) => UserID s = user | None => True end
  | OSessionDeleteAll c => match admitted c with Some (_, s) => UserID s = user | None => True end
  | OAdminUserSessionDelete _ user' | OPasswordReset user' | OPasswordChanged user' _ => user' = user
  | _ => False
  end.
#[export] Instance may_revoke_dec r user : Decision (may_revoke r user).
Proof. destruct r; cbn; try apply _; destruct (admitted c) as [[? ?]|]; apply _. Defined.

Lemma revokes_may r user keep : revokes r user keep -> may_revoke r user.
Proof.
  destruct r; cbn; try done; try tauto.
  - intros (? & s & -> & ?). by split.
  - by intros (_ & id & s & -> & ?).
Qed.

Section Bodies.
Variables (marshal : Session -> option string) (unmarshal : string -> option Session).
Variables (marshal_state : UserState -> string) (unmarshal_state : string -> option UserState).
Variables (GetSessionExpiration GetSessionUserStateTTL : Z) (useragent_New : string -> Device).
Variables (loginFailureLimit loginFailureWindow : Z) (verifyLoginSecondFactor : string -> prog (option failure)).

Definition body (r : request) : prog_ reply :=
  match r with
  | OLogin users req ip ua random =>
      answering (Login marshal unmarshal GetSessionExpiration useragent_New loginFailureLimit loginFailureWindow verifyLoginSecondFactor
                   users req ip ua (NewSessionID random)) TheSession
  | OLogout c => answering (Logout unmarshal c) (fun _ => NoContent)
  | OAuthenticate id ua method path =>
      answering (Authenticate marshal unmarshal marshal_state unmarshal_state GetSessionExpiration GetSessionUserStateTTL useragent_New
                   id ua method path) TheSession
  | OSessionDelete c target => answering (SessionDelete unmarshal c target) (fun _ => NoContent)
  | OSessionDeleteAll c => answering (SessionDeleteAll unmarshal c) (fun _ => NoContent)
  | OCurrentDelete c => answering (CurrentDelete unmarshal c) (fun _ => NoContent)
  | OAdminSessionDelete c target => answering (AdminSessionDelete unmarshal c target) (fun _ => NoContent)
  | OAdminUserSessionDelete c user => answering (AdminUserSessionDelete unmarshal c user) (fun _ => NoContent)
  | OSessionGet c target => answering (SessionGet unmarshal c target) TheSession
  | OAdminSessionGet c target => answering (AdminSessionGet unmarshal c target) TheSession
  | OCurrentGet c => answering (CurrentGet unmarshal c) TheSession
  | OSessionList c => answering (SessionList unmarshal c) Sessions
  | OAdminSessionList c since => answering (AdminSessionList unmarshal GetSessionExpiration c since) Sessions
  | OAdminUserSessionList user since => answering (buildView unmarshal GetSessionExpiration user since) Sessions
  | OPasswordChanged user current => answering (after_change unmarshal user current) (fun _ => NoContent)
  | OPasswordReset user => answering (after_reset unmarshal user) (fun _ => NoContent)
  end.
End Bodies.

(** ** What each leaves behind *)

Section Posts.
Context {S : Type} `{Documented S}.
Variables (marshal : Session -> option string) (unmarshal : string -> option Session).
Context `{!Snapshots marshal unmarshal}.
Variables (marshal_state : UserState -> string) (unmarshal_state : string -> option UserState).
Variables (L GetSessionUserStateTTL : Z) (useragent_New : string -> Device).
Variables (loginFailureLimit loginFailureWindow : Z) (verifyLoginSecondFactor : string -> prog (option failure)).
Variables (sid u : string) (calm : Prop).
Hypothesis Hsid : sid <> ""%string.
Hypothesis Htrim : TrimSpace sid = sid.
Hypothesis Hu : u <> ""%string.
Hypothesis HL : calm -> 0 < L /\ L mod second = 0.
Hypothesis second_factor_aside : forall id, sends aside (verifyLoginSecondFactor id).
Implicit Types w : world S.

Local Abbreviation body := (body marshal unmarshal marshal_state unmarshal_state L GetSessionUserStateTTL useragent_New loginFailureLimit loginFailureWindow
  verifyLoginSecondFactor).
Local Abbreviation proper := (SessionsSafe.proper (S := S) sid u).
Local Abbreviation runs := (SessionsOps.runs (S := S) unmarshal L sid u calm).
Local Abbreviation keeps := (SessionsOps.keeps (S := S) unmarshal L sid u calm).
Local Abbreviation quits := (SessionsServices.quits (S := S) unmarshal L sid u calm).
Local Abbreviation stopped := (SessionsServices.stopped (S := S) unmarshal sid u).
Local Abbreviation auth_post := (SessionsServices.auth_post (S := S) unmarshal sid).
Local Abbreviation swept := (SessionsLogin.swept (S := S) sid u calm).
Local Abbreviation opened := (SessionsLogin.opened (S := S) marshal unmarshal L sid u calm).
Local Abbreviation RL := (SessionsSafe.RL (S := S) unmarshal L sid u calm).
Local Abbreviation RR := (SessionsSafe.RR (S := S) unmarshal L sid u calm).
Local Abbreviation GR := (SessionsSafe.GR (S := S) unmarshal L sid u calm).
Local Abbreviation GL := (SessionsSafe.GL (S := S) unmarshal L sid u calm).

(** What the answer to a request begun in [w0] tells when it comes. *)
Definition post (r : request) w0 (a : outcome reply) w : Prop :=
  (ends_session r sid -> stopped w0 a w) /\
  (forall keep, revokes r u keep -> keep <> sid -> (exists x, a = Ok x) -> swept w) /\
  (forall v s, draws r sid -> signs_in r v -> a = Ok (TheSession s) -> opened v (Ok s) w) /\
  (forall id ua method path s, r = OAuthenticate id ua method path -> a = Ok (TheSession s) -> auth_post w0 (Ok s)).

Lemma quits_answering {A} C (p : prog_ A) f : quits C p -> quits C (answering p f).
Proof.
  intros Hp w P. unfold answering. eapply (runs_try unmarshal L sid u calm p _ (fun r w' => C -> stopped w r w') (fun _ => True)); [by intros ???|done|by apply Hp| |].
  - intros e w' _ _. by apply runs_ret; [by intros ???|].
  - intros a w' Hs _. apply runs_ret; [|done]. intros w1 w2 H1 Hw c. by apply (stable_stopped unmarshal sid u w (Ok (f a)) w1); [apply H1|].
Qed.
Lemma keeps_answering {A} (p : prog_ A) f : keeps p -> keeps (answering p f).
Proof. intros Hp. unfold answering. apply keeps_try; [done|]. intros a. apply keeps_ret. Qed.

Local Abbreviation any := (SessionsLogin.any (S := S) unmarshal L sid u calm).

(** A continuation told something of every answer. *)
Lemma keeps_told {A B} (p : prog_ A) (k : A -> prog_ B) (Q : outcome A -> Prop) : keeps p -> returns Q p -> (forall a, Q (Ok a) -> keeps (k a)) -> keeps (try_ p k).
Proof.
  intros Hp Hq Hk w P. apply (runs_try unmarshal L sid u calm p k (fun r _ => Q r) proper); [apply stable_proper|done| | |].
  - eapply runs_mono; [|apply safe_returns; [exact Hq|by apply Hp]]. by intros a w' [_ ?].
  - intros e w' _ _. by apply runs_ret; [by intros ???|].
  - intros a w' Ha P'. by apply Hk.
Qed.

Lemma CurrentSession_admitted c id s : admitted c = Some (id, s) -> returns (fun r => forall x, r = Ok x -> x = (id, s)) (CurrentSession unmarshal c).
Proof.
  intros E. unfold CurrentSession. rewrite E. intros now. destruct (ValidateSession id s now).
  - unfold ignore. eapply returns_bind; [apply returns_True|]. by intros _ _ x.
  - by intros x [= <-].
Qed.

(** *** Any request but a login of the session and a revocation *)

Lemma post_quits r w0 w p : (forall id ua method path, r <> OAuthenticate id ua method path) -> (forall v, draws r sid -> signs_in r v -> False) -> ~ may_revoke r u ->
  quits (ends_session r sid) p -> w0 = w -> proper w -> runs p (post r w0) w.
Proof.
  intros Ha Hd Hr Hp -> P. eapply runs_mono; [|by apply Hp]. intros a w' Hs. split; [done|]. split; [|split].
  - intros keep Hk. by destruct Hr; eapply revokes_may.
  - intros v s H1 H2. by destruct (Hd v).
  - intros id ua m p' s E. by destruct (Ha id ua m p').
Qed.

Lemma body_runs r w : proper w -> (forall v, draws r sid -> signs_in r v -> False) -> ~ may_revoke r u -> runs (body r) (post r w) w.
Proof.
  intros P Hd Hr. destruct r; try (apply post_quits; [done|done|done| |done|done]; cbn [body Sessions.SessionDelete];
    first [apply quits_other; [by intros []|apply keeps_answering]|apply quits_answering]).
  - destruct users as [[|a l]|]; try (apply keeps_harmless; unfold Login; destruct (_ =? _)%string; [done|]; by destruct (_ =? _)%string).
    apply Login_keeps; [done..|]. intros E. by apply (Hd (a_ID a)).
  - by apply (Logout_quits marshal).
  - assert (runs (body (OAuthenticate id userAgent method path)) (fun r w' => match r with Ok (TheSession s) => auth_post w (Ok s) | _ => True end) w) as HA.
    { cbn [body]. unfold answering. eapply (runs_try unmarshal L sid u calm _ _ (fun r _ => auth_post w r) (fun _ => True)); [by intros ???|done| | |].
      - by apply (runs_Authenticate marshal).
      - intros e w' _ _. by apply runs_ret; [by intros ???|].
      - intros s w' Hs _. apply runs_ret; [by intros ???|done]. }
    eapply runs_mono; [|exact HA]. intros a w' Hx. split; [done|]. split; [done|]. split; [done|]. intros id' ua' m' p' s _ ->. exact Hx.
  - by apply (SessionDelete_quits marshal).
  - unfold SessionDeleteAll. destruct (admitted c) as [[id s]|] eqn:Ec; cbn in Hr; rewrite Ec in Hr; [|done].
    apply (keeps_told _ _ (fun r => forall x, r = Ok x -> x = (id, s))); [by apply (CurrentSession_keeps marshal)|by apply CurrentSession_admitted|].
    intros x Hx. rewrite (Hx x eq_refl). by apply (DeleteUserSessions_other marshal).
  - by apply (CurrentDelete_quits marshal).
  - by apply (AdminSessionDelete_quits marshal).
  - unfold AdminUserSessionDelete. apply keeps_try; [by apply (CurrentSession_keeps marshal)|]. intros _. destruct (_ =? _)%string; [apply keeps_ret|].
    unfold load_user. apply keeps_ask. intros [st| |]; try apply keeps_ret. apply keeps_try; [by apply (ensureAdminSessionTarget_keeps marshal)|]. intros _.
    by apply (DeleteUserSessions_other marshal).
  - by apply (SessionGet_keeps marshal).
  - by apply (AdminSessionGet_keeps marshal).
  - by apply (CurrentGet_keeps marshal).
  - by apply (SessionList_keeps marshal).
  - by apply (AdminSessionList_keeps marshal).
  - by apply (buildView_keeps marshal).
  - by apply (after_change_keeps marshal).
  - unfold after_reset. apply keeps_bind; [by apply (DeleteUserSessions_other marshal)|]. intros r0. apply keeps_ret.
Qed.

(** *** A revocation *)

(** [p] answers no error only once the session is swept, in the cases [C]
    tells. *)
Definition sweeps (C : Prop) {A} (p : prog_ A) : Prop :=
  forall w, proper w -> safe RR GR p (fun r w' => C -> (exists x, r = Ok x) -> swept w') w.

Lemma sweeps_ret C {A} (r : outcome A) : (C -> (exists x, r = Ok x) -> False) -> sweeps C (Ret r).
Proof. intros Hr w P. apply all_ret; [intros w1 w2 _ H1 c x; by destruct (Hr c x)|intros c x; by destruct (Hr c x)]. Qed.

Lemma sweeps_after C {A B} (p : prog_ A) (k : A -> prog_ B) (Q : outcome A -> Prop) : keeps p -> returns Q p -> (forall a, Q (Ok a) -> sweeps C (k a)) -> sweeps C (try_ p k).
Proof.
  intros Hp Hq Hk w P. unfold try_.
  apply (all_seq unmarshal L sid u calm p _ (fun r w' => Q r /\ proper w')).
  - eapply safe_mono; [|apply any, safe_returns; [exact Hq|apply runs_frame; [apply stable_proper|exact P|by apply Hp]]]. by intros a w' [[_ ?] ?].
  - intros [a|e] w' [Ha P']; [by apply Hk|]. apply (sweeps_ret C (Err e)); [by intros _ [x Hx]|done].
Qed.

Lemma sweeps_keeps C {A} (p : prog_ A) : ~ C -> keeps p -> sweeps C p.
Proof. intros HC Hp w P. eapply safe_mono; [|by apply any, Hp]. done. Qed.

(** The result is read without making a failure a success. *)
Lemma sweeps_reply C {A B} (p : prog_ A) (k : outcome A -> outcome B) : (forall e x, k (Err e) <> Ok x) -> sweeps C p -> sweeps C (r <- p;; Ret (k r)).
Proof.
  intros Hk Hp w P. eapply all_seq; [by apply Hp|]. intros r w' Hs.
  assert ((exists x, k r = Ok x) -> exists x, r = Ok x) as Hr by (intros [x Hx]; destruct r as [a|e]; [eauto|by destruct (Hk e x)]).
  apply all_ret; [intros w1 w2 Hw H1 c x; by apply (swept_RR unmarshal L sid u calm w1), H1|auto].
Qed.

Lemma sweeps_answering C {A} (p : prog_ A) f : sweeps C p -> sweeps C (answering p f).
Proof.
  intros Hp w P. unfold answering, try_. eapply all_seq; [by apply Hp|]. intros [a|e] w' Hs.
  - apply all_ret; [intros w1 w2 Hw H1 c x; by apply (swept_RR unmarshal L sid u calm w1), H1|eauto].
  - apply all_ret; [by intros w1 w2 _ _ _ [x Hx]|by intros _ [x Hx]].
Qed.

Lemma DeleteUserSessions_sweeps user : sweeps (user = u) (DeleteUserSessions unmarshal user).
Proof.
  destruct (decide (user = u)) as [->|Hn]; [|by apply sweeps_keeps, (DeleteUserSessions_other marshal)].
  intros w P. eapply safe_mono; [|by apply (all_DeleteUserSessions marshal)]. intros r w' Hs _ [[] Hr]. by apply Hs.
Qed.

Lemma DeleteUserSessionsExcept_sweeps user keep : sweeps (user = u /\ keep <> sid) (DeleteUserSessionsExcept unmarshal user keep).
Proof.
  destruct (decide (user = u /\ keep <> sid)) as [[-> Hk]|Hn]; [|by apply sweeps_keeps, (DeleteUserSessionsExcept_keeps marshal)].
  intros w P. eapply safe_mono; [|by apply (all_DeleteUserSessionsExcept marshal)]. intros r w' Hs _ [[] Hr]. by apply Hs.
Qed.

(** Once the caller is known. *)
Lemma sweeps_caller C {A} c (k : string * Session -> prog_ A) :
  (forall x, (forall id s, admitted c = Some (id, s) -> x = (id, s)) -> sweeps C (k x)) -> sweeps C (try_ (CurrentSession unmarshal c) k).
Proof.
  intros Hk. destruct (admitted c) as [[id s]|] eqn:E.
  - apply (sweeps_after C _ _ _ (CurrentSession_keeps marshal unmarshal L sid u calm Hsid Htrim c) (CurrentSession_admitted c id s E)).
    intros x Hx. apply Hk. intros id' s' E'. rewrite (Hx x eq_refl). congruence.
  - apply (sweeps_after C _ _ (fun _ => True)); [by apply (CurrentSession_keeps marshal)|apply returns_True|]. intros x _. by apply Hk.
Qed.

Lemma sweeps_kept C {A B} (p : prog_ A) (k : A -> prog_ B) : keeps p -> (forall a, sweeps C (k a)) -> sweeps C (try_ p k).
Proof. intros Hp Hk. apply (sweeps_after C _ _ (fun _ => True)); [done|apply returns_True|auto]. Qed.

Lemma post_sweeps C r w0 w p : (forall id, ~ ends_session r id) -> (forall id, ~ draws r id) -> (forall id ua method path, r <> OAuthenticate id ua method path) ->
  (forall keep, revokes r u keep -> keep <> sid -> C) -> sweeps C p -> proper w -> safe RR GR p (post r w0) w.
Proof.
  intros He Hd Ha Hr Hp P. eapply safe_mono; [|by apply Hp]. intros a w' Hs. split; [|split; [|split]].
  - intros E. by destruct (He sid).
  - intros keep Hk1 Hk2. apply Hs. by apply (Hr keep).
  - intros v s D. by destruct (Hd sid).
  - intros id ua m p' s E. by destruct (Ha id ua m p').
Qed.

Lemma body_sweeps r w : proper w -> may_revoke r u -> safe RR GR (body r) (post r w) w.
Proof.
  intros P Hm. destruct r; try done.
  - destruct Hm as [-> Hm]. apply (post_sweeps (exists keep s, admitted c = Some (keep, s) /\ UserID s = u /\ keep <> sid)); try (by intros ? []); try done.
    + intros keep (_ & s & Ec & Hs) Hk. eauto.
    + apply sweeps_answering. unfold SessionDelete. apply sweeps_caller. intros [current s] Hx. change ("others" =? "")%string with false. change ("others" =? "others")%string with true.
      intros w' P'. eapply safe_mono; [|by apply DeleteUserSessionsExcept_sweeps]. intros r w2 Hs (keep & s' & Ec & E & Hk). injection (Hx _ _ Ec) as -> ->. by apply Hs.
  - apply (post_sweeps (exists id s, admitted c = Some (id, s) /\ UserID s = u)); try (by intros ? []); try done.
    apply sweeps_answering. unfold SessionDeleteAll. apply sweeps_caller. intros [current s] Hx.
    intros w' P'. eapply safe_mono; [|by apply DeleteUserSessions_sweeps]. intros r w2 Hs (id & s' & Ec & E). injection (Hx _ _ Ec) as -> ->. by apply Hs.
  - cbn in Hm. apply (post_sweeps (user = u)); try (by intros ? []); try done. apply sweeps_answering. unfold AdminUserSessionDelete.
    apply sweeps_kept; [by apply (CurrentSession_keeps marshal)|]. intros _. destruct (_ =? _)%string; [apply sweeps_ret; by intros _ [x Hx]|].
    unfold load_user. intros w' P'. apply safe_ask; [apply _|]. intros [st| |]; try (apply sweeps_ret; [by intros _ [x Hx]|done]).
    apply sweeps_kept; [by apply (ensureAdminSessionTarget_keeps marshal)| |done]. intros _. apply DeleteUserSessions_sweeps.
  - cbn in Hm. apply (post_sweeps (user = u /\ current <> sid)); try (by intros ? []); try (by intros keep [-> ->]); try done. apply sweeps_answering. unfold after_change.
    unfold ignore. intros w' P'. apply (all_seq unmarshal L sid u calm _ _ (fun _ w2 => proper w2)).
    + eapply safe_mono; [|apply any, runs_frame; [apply stable_proper|exact P'|apply runs_harmless_, DropUserState_harmless]]. by intros r w2 [_ ?].
    + intros _ w2 P2. apply sweeps_reply; [done|apply DeleteUserSessionsExcept_sweeps|done].
  - cbn in Hm. apply (post_sweeps (user = u)); try (by intros ? []); try done. apply sweeps_answering. unfold after_reset. apply sweeps_reply; [done|apply DeleteUserSessions_sweeps].
Qed.

(** *** The login of the session *)

Lemma opened_stays v r w w' : RL v w w' -> opened v r w -> opened v r w'.
Proof. apply opened_RL. Qed.

Lemma body_login a l req ip ua random w0 w : NewSessionID random = Some sid -> proper w -> ~ SessionsSafe.born sid w ->
  safe (RL (a_ID a)) (GL (a_ID a)) (body (OLogin (Some (a :: l)) req ip ua random)) (post (OLogin (Some (a :: l)) req ip ua random) w0) w.
Proof.
  intros Hr P B. cbn [SessionsSystem.body]. rewrite Hr. unfold answering, try_. apply safe_bind; [apply _|].
  eapply safe_mono; [|by apply (own_Login marshal unmarshal unmarshal_state L useragent_New loginFailureLimit loginFailureWindow verifyLoginSecondFactor sid u calm)].
  intros [s|e] w1 Ho; apply safe_answer.
  - intros w2 w3 (_ & _ & Hp & _) Hw. split; [done|]. split; [done|]. split; [|done]. intros v s' D Hs E. apply (opened_stays _ _ w2); [|by apply Hp].
    cbn in Hs. by rewrite <- Hs.
  - split; [done|]. split; [done|]. split; [|done]. intros v s' _ <- [= <-]. exact Ho.
  - by intros w2 w3 _ _.
  - split; [done|]. by split; [|split].
Qed.
End Posts.
