(* ===== verification/SessionsSpec.v ===== *)
(** * Sessions end when they are ended

    Every session that was answered as ended by its id is admitted no more;
    and, where no login of a user runs beside a revocation of all of the
    user's sessions, neither is any session the revocation came after.  On a
    server that keeps every key for exactly its lifetime the theorems have
    runs to speak of, and what they leave out does happen. *)

From stdpp Require Import base list gmap strings countable.
From Stdlib Require Import ZArith Lia Ascii Strings.Byte.
From S2P Require Import Prelude GoStrings Strconv Redis RedisSafe Sessions SessionsSafe SessionsOps SessionsServices SessionsLogin SessionsSystem.
Local Open Scope Z_scope.

(** ** The runs considered *)

Abbreviation state S := (system S question request (outcome reply)).

(** An id is drawn once. *)
Definition drawn_once {S} (s : state S) (r : request) : Prop :=
  forall id, draws r id -> sessionDataKey id ∉ written (this s) /\ forall i th, threads s !! i = Some th -> ~ draws (serves th) id.

(** No login of a user runs beside a revocation of the user's sessions. *)
Definition clash (r r' : request) : Prop := exists user, signs_in r user /\ may_revoke r' user.
Definition apart {S} (s : state S) (r : request) : Prop :=
  forall i th, threads s !! i = Some th -> ~ clash r (serves th) /\ ~ clash (serves th) r.

(** The index of a user does not expire in the middle of a login. *)
Definition patient {S} `{Server S} (s : state S) (t : Z) : Prop :=
  forall i th user v d, threads s !! i = Some th -> signs_in (serves th) user -> stored (this s) !! sessionIndexUserKey user = Some (v, Some d) -> t <= d.

(** Nothing of a session is stored at first. *)
Definition no_sessions {S} `{Server S} (w : world S) : Prop :=
  written w = ∅ /\ (forall id, stored w !! sessionDataKey id = None) /\ forall user, stored w !! sessionIndexUserKey user = None.

Section Invariant.
Context {S : Type} `{Documented S}.
Variables (marshal : Session -> option string) (unmarshal : string -> option Session).
Context `{!Snapshots marshal unmarshal}.
Variables (marshal_state : UserState -> string) (unmarshal_state : string -> option UserState).
Variables (L GetSessionUserStateTTL : Z) (useragent_New : string -> Device).
Variables (loginFailureLimit loginFailureWindow : Z) (verifyLoginSecondFactor : string -> prog (option failure)).
Variables (sid u : string) (calm : Prop).
Hypothesis Hsid : sid <> ""%string.
Hypothesis Htrim : TrimSpace sid = sid.
Hypothesis Hu : u <> ""%string.
Hypothesis HL : calm -> 0 < L /\ L mod second = 0.
Hypothesis second_factor_aside : forall id, sends aside (verifyLoginSecondFactor id).
Implicit Types w : world S.

Local Abbreviation body := (SessionsSystem.body marshal unmarshal marshal_state unmarshal_state L GetSessionUserStateTTL useragent_New loginFailureLimit
  loginFailureWindow verifyLoginSecondFactor).
Local Abbreviation basic := (SessionsSafe.basic (S := S) unmarshal sid u).
Local Abbreviation proper := (SessionsSafe.proper (S := S) sid u).
Local Abbreviation born := (SessionsSafe.born (S := S) sid).
Local Abbreviation runs := (SessionsOps.runs (S := S) unmarshal L sid u calm).
Local Abbreviation post := (SessionsSystem.post (S := S) marshal unmarshal L sid u calm).
Local Abbreviation over := (SessionsSafe.over (S := S) unmarshal sid u).
Local Abbreviation gone := (SessionsServices.gone (S := S) sid u).
Local Abbreviation auth_post := (SessionsServices.auth_post (S := S) unmarshal sid).
Local Abbreviation there_good := (SessionsLogin.there_good (S := S) unmarshal L sid u calm).
Local Abbreviation G0 := (SessionsSafe.G0 (S := S) unmarshal L sid u calm).
Local Abbreviation RL := (SessionsSafe.RL (S := S) unmarshal L sid u calm).
Local Abbreviation RR := (SessionsSafe.RR (S := S) unmarshal L sid u calm).
Local Abbreviation GR := (SessionsSafe.GR (S := S) unmarshal L sid u calm).
Local Abbreviation GL := (SessionsSafe.GL (S := S) unmarshal L sid u calm).
Local Abbreviation event := (Redis.event request (outcome reply)).
Local Abbreviation thread := (Redis.thread question request (outcome reply)).

(** ** What the answers so far tell of the session *)

Definition succeeds (ev : event) : Prop := exists x, answered ev = Ok x.
Definition login_event (ev : event) (s : Session) : Prop :=
  draws (asked ev) sid /\ (exists v, signs_in (asked ev) v) /\ answered ev = Ok (TheSession s).
Definition saved (s : Session) : string * string * Z := (coerce sid, coerce (UserID s), ExpiresAt s).

Record tells (es : list event) (n : nat) (s : Session) w : Prop := {
  tells_there : there_good (UserID s) (saved s) (ExpiresAt s) w;
  tells_ended : forall m ev, es !! m = Some ev -> (n < before ev)%nat -> ends_session (asked ev) sid -> succeeds ev -> gone (saved s) w;
  tells_revoked : forall m ev keep, es !! m = Some ev -> (n < before ev)%nat -> revokes (asked ev) u keep -> keep <> sid -> succeeds ev ->
    calm -> UserID s = u -> over (ExpiresAt s) w }.

Definition told (es : list event) w : Prop := forall n ev s, es !! n = Some ev -> login_event ev s -> tells es n s w.
Definition no_login (es : list event) : Prop := forall n ev s, es !! n = Some ev -> ~ login_event ev s.

Lemma over_stays E w w' : basic w w' -> proper w -> born w -> over E w -> over E w'.
Proof.
  intros Hw P B [A|[(f & F & Hn)|Sp]].
  - left. by apply (basic_absent unmarshal sid u w).
  - right. left. exists f. split; [by apply (basic_faithful unmarshal sid u f w)|done].
  - right. right. apply (spent_mono E w); [by apply (basic_clock unmarshal sid u)|done].
Qed.

Lemma told_RR es w w' : RR w w' -> told es w -> told es w'.
Proof.
  intros [Hb Hc] Ht n ev s Hn Hl. destruct (Ht n ev s Hn Hl) as [[T G] Ee Er]. destruct T as (P & B & F & HE). split.
  - split; [apply (there_basic unmarshal L sid u _ _ w); [done|by repeat split]|]. intros C E. apply (proj2 (Hc C)); auto.
  - intros m ev' H1 H2 H3 H4. apply (stable_dead unmarshal sid u _ w); eauto.
  - intros m ev' keep H1 H2 H3 H4 H5 C E. apply (over_stays _ w); eauto.
Qed.

Lemma told_none es w : no_login es -> told es w.
Proof. intros Hn n ev s E Hl. by destruct (Hn n ev s). Qed.

(** ** What the requests being served will leave behind *)

(** A login of the session, a revocation of its user's sessions, and any
    other request. *)
Definition signing (r : request) (v : string) : Prop := draws r sid /\ signs_in r v.

Definition serving w0 (es : list event) w (th : thread) : Prop :=
  (exists v, signing (serves th) v /\ no_login es /\ safe (RL v) (GL v) (rest th) (post (serves th) w0) w) \/
  (may_revoke (serves th) u /\ safe RR GR (rest th) (post (serves th) w0) w) \/
  ((forall v, ~ signing (serves th) v) /\ ~ may_revoke (serves th) u /\ runs (rest th) (post (serves th) w0) w).

Definition thread_ok (es : list event) w (th : thread) : Prop :=
  exists w0, told (take (began th) es) w0 /\ clock w0 <= clock w /\ (began th <= length es)%nat /\ serving w0 es w th.

(** What a change has to be for the request to rely on it. *)
Definition relied (th : thread) w w' : Prop :=
  basic w w' /\ (may_revoke (serves th) u -> RR w w') /\ forall v, signing (serves th) v -> RL v w w'.

Lemma relied_refl th w : relied th w w.
Proof. split; [reflexivity|]. split; [intros _; reflexivity|intros v _; reflexivity]. Qed.

Lemma thread_later es w w' th : relied th w w' -> thread_ok es w th -> thread_ok es w' th.
Proof.
  intros (Hb & Hr & Hl) (w0 & Ht & Hc & Hn & Hs). exists w0. split; [done|]. pose proof (basic_clock _ _ _ _ _ Hb). split; [lia|]. split; [done|].
  destruct Hs as [(v & Hv & Hno & Hs)|[[Hm Hs]|(Hv & Hm & Hs)]].
  - left. exists v. split; [done|]. split; [done|]. eapply (safe_from (RL v) (GL v)); [by apply Hl|done].
  - right. left. split; [done|]. eapply (safe_from RR GR); [by apply Hr|done].
  - right. right. split; [done|]. split; [done|]. by apply (runs_later unmarshal L sid u calm _ _ w).
Qed.

(** What a step of a request is, to the others and to what was told. *)
Definition does (th : thread) w w' : Prop :=
  (exists v, signing (serves th) v /\ GL v w w') \/ (may_revoke (serves th) u /\ GR w w') \/ G0 w w'.

Lemma thread_steps es w w' th p' : thread_ok es w th -> next w (rest th) w' p' ->
  thread_ok es w' (mkThread (serves th) (began th) p') /\ (w' = w \/ does th w w').
Proof.
  intros (w0 & Ht & Hc & Hn & Hs) Hx.
  assert (serving w0 es w' (mkThread (serves th) (began th) p') /\ (w' = w \/ does th w w')) as [Hs' Hd].
  { destruct Hs as [(v & Hv & Hno & Hs)|[[Hm Hs]|(Hv & Hm & Hs)]].
    - destruct (safe_next _ _ _ p' _ _ w' Hs Hx) as [Hs' [->|Hd]]; (split; [left; exists v; by repeat split; try apply Hv|]); [by left|right; left; eauto].
    - destruct (safe_next _ _ _ p' _ _ w' Hs Hx) as [Hs' [->|Hd]]; (split; [right; left; by split|]); [by left|right; right; left; eauto].
    - destruct (safe_next _ _ _ p' _ _ w' Hs Hx) as [Hs' [->|Hd]]; (split; [right; right; by repeat split|]); [by left|right; right; right; eauto]. }
  split; [|done]. exists w0. split; [done|]. split; [|by split]. destruct Hd as [->|[(v & _ & Hd & _)|[[_ (Hd & _)]|(Hd & _)]]]; [done|..];
    pose proof (basic_clock _ _ _ _ _ Hd); lia.
Qed.

(** Two requests served at once. *)
Definition together (th th' : thread) : Prop :=
  ~ (draws (serves th) sid /\ draws (serves th') sid) /\ (calm -> ~ clash (serves th) (serves th') /\ ~ clash (serves th') (serves th)).

Lemma does_relied th th' w w' : together th th' -> does th w w' -> relied th' w w'.
Proof.
  intros [Hd Hc] [(v & Hv & HG)|[[Hm HG]|HG]].
  - split; [by destruct HG|]. split.
    + intros Hm. apply (GL_RR unmarshal L sid u calm v); [|done]. intros C ->. apply (proj1 (Hc C)). exists u. split; [apply Hv|done].
    + intros v' Hv'. destruct Hd. split; [apply Hv|apply Hv'].
  - split; [by destruct HG|]. split; [intros _; by apply GR_RR|]. intros v Hv. apply GR_RL; [|done].
    intros C ->. apply (proj2 (Hc C)). exists u. split; [apply Hv|done].
  - split; [by destruct HG|]. split; [intros _; by apply GR_RR, G0_GR|]. intros v _. by apply G0_RL.
Qed.

Lemma does_basic th w w' : does th w w' -> basic w w'.
Proof. by intros [(v & _ & HG & _)|[[_ (HG & _)]|(HG & _)]]. Qed.

Lemma does_told es th w w' : thread_ok es w th -> does th w w' -> told es w -> told es w'.
Proof.
  intros (w0 & _ & _ & _ & Hs) Hd Ht. destruct Hs as [(v & Hv & Hno & _)|Hs]; [by apply told_none|].
  assert (forall v, ~ signing (serves th) v) as Hn.
  { destruct Hs as [[Hm _]|(Hv & _)]; [|done]. intros v [Hv _]. by destruct (serves th). }
  apply (told_RR es w); [|done]. destruct Hd as [(v & Hv & _)|[[_ HG]|HG]]; [by destruct (Hn v)|by apply GR_RR|by apply GR_RR, G0_GR].
Qed.

(** ** The invariant of every run *)

(** An authentication answered with the session. *)
Definition admission (es : list event) (k : nat) (ev : event) : Prop :=
  (before ev <= k)%nat /\ forall id ua method path s, asked ev = OAuthenticate id ua method path -> answered ev = Ok (TheSession s) ->
    exists w0, told (take (before ev) es) w0 /\ clock w0 <= at_ ev /\ auth_post w0 (Ok s).

Record valid (s : state S) : Prop := {
  valid_proper : proper (this s);
  valid_told : told (events s) (this s);
  valid_threads : forall i th, threads s !! i = Some th -> thread_ok (events s) (this s) th;
  valid_together : forall i j th th', i <> j -> threads s !! i = Some th -> threads s !! j = Some th' -> together th th';
  valid_events : forall k ev, events s !! k = Some ev -> admission (events s) k ev }.

Variable may_start : state S -> request -> Prop.
Variable may_pass : state S -> Z -> Prop.
Hypothesis starts : forall s r, may_start s r -> drawn_once s r /\ (calm -> apart s r).
Hypothesis passes : forall s t, may_pass s t -> calm -> patient s t.
Local Abbreviation step := (Redis.step body may_start may_pass).

Lemma together_sym th th' : together th th' -> together th' th.
Proof. intros [Hd Hc]. split; [tauto|]. intros C. destruct (Hc C). by split. Qed.

(** Time passes between the steps of every request. *)
Lemma tick_relied s i th t : threads s !! i = Some th -> clock (this s) <= t -> (calm -> patient s t) -> relied th (this s) (tick t (this s)).
Proof.
  intros Hi Ht Hp. pose proof (tick_RR unmarshal L sid u calm t (this s) Ht) as HR. split; [by destruct HR|]. split; [done|].
  intros v [_ Hv]. destruct HR as [Hb Hc]. split; [done|]. split; [by intros ?|]. intros C E. split; [|by apply Hc].
  intros D P B [O|[e He]]; [left; by apply (over_stays _ (this s))|right]. exists e. apply (tick_listed sid u t); [done|done|].
  intros d ->. apply listed_lookup in He as (m & He & _). rewrite E in Hv. by apply (Hp C i th u (SortedSet m) d).
Qed.

Lemma valid_start w : no_sessions w -> valid (start w).
Proof.
  intros (Hw & Hk & Hi). split; cbn; try done.
  - intros _. split; [apply Hk|]. unfold listed. by rewrite Hi.
Qed.

(** Every other request relies on a step of one of them. *)
Lemma valid_next s i th w' p' : valid s -> threads s !! i = Some th -> next (this s) (rest th) w' p' ->
  valid (mkSystem w' (<[i := mkThread (serves th) (began th) p']> (threads s)) (events s)).
Proof.
  intros [P T Th Tg Ev] Hi Hx. destruct (thread_steps _ _ _ _ _ (Th i th Hi) Hx) as [Hth Hd]. split; cbn.
  - destruct Hd as [->|Hd]; [done|]. apply (basic_proper unmarshal sid u (this s)); [by apply (does_basic th)|done].
  - destruct Hd as [->|Hd]; [done|]. apply (does_told _ th (this s)); [by apply (Th i)|done|done].
  - intros j th' [[<- <-]|[Hne Hj]]%lookup_insert_Some; [done|]. apply (thread_later _ (this s)); [|by apply (Th j)].
    destruct Hd as [->|Hd]; [apply relied_refl|]. by apply (does_relied th); [apply (Tg i j)|].
  - intros j k th1 th2 Hne [[<- <-]|[Hj1 Hj]]%lookup_insert_Some [[<- <-]|[Hk1 Hk]]%lookup_insert_Some; [done|exact (Tg i k th th2 Hne Hi Hk)|exact (Tg j i th1 th Hne Hj Hi)|by apply (Tg j k)].
  - done.
Qed.

Lemma valid_tick s t : valid s -> clock (this s) <= t -> (calm -> patient s t) -> valid (mkSystem (tick t (this s)) (threads s) (events s)).
Proof.
  intros [P T Th Tg Ev] Ht Hp. pose proof (tick_RR unmarshal L sid u calm t (this s) Ht) as HR. split; cbn; try done.
  - destruct HR as [Hb _]. by apply (basic_proper unmarshal sid u (this s)).
  - by apply (told_RR _ (this s)).
  - intros i th Hi. apply (thread_later _ (this s)); [by apply (tick_relied s i)|by apply (Th i)].
Qed.

Lemma take_all {A} (l : list A) : take (length l) l = l.
Proof. by rewrite firstn_all. Qed.

(** What is known of a request as it starts. *)
Lemma starting s r : valid s -> drawn_once s r -> thread_ok (events s) (this s) (mkThread r (length (events s)) (body r)).
Proof.
  intros [P T _ _ _] Hd. exists (this s). cbn. rewrite take_all. split; [done|]. split; [done|]. split; [done|].
  destruct (decide (may_revoke r u)) as [Hm|Hm]; [right; left; split; [done|by apply body_sweeps]|].
  assert ((exists v, signing r v) \/ forall v, ~ signing r v) as [[v Hv]|Hv].
  { destruct r as [users req ip ua random|c|id ua m p|c t|c|c|c t|c user|c t|c t|c|c|c since|user since|user cur|user]; try (right; by intros v []).
    destruct users as [[|a l]|]; try (right; by intros v []). unfold signing, draws.
    destruct (decide (NewSessionID random = Some sid)); [left; exists (a_ID a); by split|right; by intros v []]. }
  - left. exists v. split; [done|]. destruct Hv as [Hv1 Hv2]. destruct (Hd sid Hv1) as [Hw _]. split.
    + intros n ev s' Hn Hl. destruct (T n ev s' Hn Hl) as [[(_ & B & _) _] _ _]. by apply Hw.
    + destruct r as [users req ip ua random|c|id ua m p|c t|c|c|c t|c user|c t|c t|c|c|c since|user since|user cur|user]; try done.
      destruct users as [[|a l]|]; try done. cbn in Hv2. rewrite <- Hv2. by apply body_login.
  - right. right. split; [done|]. split; [done|]. apply body_runs; try done. intros v H1 H2. by apply (Hv v).
Qed.

Lemma valid_started s i r : valid s -> threads s !! i = None -> drawn_once s r -> (calm -> apart s r) ->
  valid (mkSystem (this s) (<[i := mkThread r (length (events s)) (body r)]> (threads s)) (events s)).
Proof.
  intros V Hi Hd Ha. pose proof (starting s r V Hd) as Hr. destruct V as [P T Th Tg Ev].
  assert (forall j th, threads s !! j = Some th -> together (mkThread r (length (events s)) (body r)) th) as Hnew.
  { intros j th Hj. split; cbn.
    - intros [H1 H2]. destruct (Hd sid H1) as [_ Hn]. by apply (Hn j th).
    - intros C. by apply (Ha C j). }
  split; cbn; try done.
  - intros j th [[<- <-]|[Hne Hj]]%lookup_insert_Some; [done|by apply (Th j)].
  - intros j k th1 th2 Hne [[<- <-]|[Hj1 Hj]]%lookup_insert_Some [[<- <-]|[Hk1 Hk]]%lookup_insert_Some; [done|by apply (Hnew k)|by apply together_sym, (Hnew j)|by apply (Tg j k)].
Qed.

(** *** A request is answered *)

Section Answer.
Variables (s : state S) (i : nat) (th : thread) (a : outcome reply).
Hypothesis V : valid s.
Hypothesis Hi : threads s !! i = Some th.
Hypothesis Ha : rest th = Ret a.

Local Abbreviation es := (events s).
Local Abbreviation w := (this s).
Local Abbreviation ev := (mkEvent (serves th) (began th) a (clock w)).

Lemma answer_post : exists w0, told (take (began th) es) w0 /\ clock w0 <= clock w /\ (began th <= length es)%nat /\ post (serves th) w0 a w /\
  forall x, login_event ev x -> no_login es.
Proof.
  destruct (valid_threads s V i th Hi) as (w0 & Ht & Hc & Hb & Hs). exists w0. split; [done|]. split; [done|]. split; [done|].
  unfold serving in Hs. rewrite Ha in Hs. destruct Hs as [(v & Hv & Hno & Hs)|[[Hm Hs]|(Hv & Hm & Hs)]]; (split; [apply (Hs w); reflexivity|]).
  - done.
  - intros x (Hd & _ & _). cbn in Hd. by destruct (serves th).
  - intros x (Hd & (v & Hs') & _). by destruct (Hv v).
Qed.

Lemma take_kept n (ev' : event) : (n <= length es)%nat -> take n (es ++ [ev']) = take n es.
Proof. intros Hn. by rewrite take_app_le. Qed.

Lemma told_kept n ev' w' : (n <= length es)%nat -> told (take n es) w' -> told (take n (es ++ [ev'])) w'.
Proof. intros Hn. by rewrite take_kept. Qed.

(** Earlier logins: what the new answer adds. *)
Lemma told_older n ev' x : es !! n = Some ev' -> login_event ev' x -> tells (es ++ [ev]) n x w.
Proof.
  intros Hn Hl. destruct answer_post as (w0 & Ht & _ & _ & (P1 & P2 & _ & _) & _).
  destruct (valid_told s V n ev' x Hn Hl) as [Tt Te Tr].
  assert (forall (Q : Prop), (n < began th)%nat -> (tells (take (began th) es) n x w0 -> Q) -> Q) as HQ0.
  { intros Q Hb HQ. apply HQ, (Ht n ev' x); [|done]. by rewrite lookup_take_lt. }
  split; [done| |].
  - intros m ev2 [[_ Hm]|[Hm <-]]%lookup_snoc_Some Hb He Hs; [by apply (Te m ev2)|]. apply (HQ0 _ Hb). intros [[(_ & B & F & _) _] _ _].
    destruct Hs as [y Hy]. cbn in Hy. specialize (P1 He). rewrite Hy in P1. by apply P1.
  - intros m ev2 keep [[_ Hm]|[Hm <-]]%lookup_snoc_Some Hb He Hk Hs C E; [by apply (Tr m ev2 keep)|]. destruct (P2 keep He Hk Hs) as [_ Hsw].
    destruct Tt as [(_ & B & _ & _) G]. destruct (G C E) as [O|(e & He' & _)]; [done|]. destruct (Hsw C) as [N|[_ A]]; [congruence|by left].
Qed.

(** The login just answered. *)
Lemma told_newer x : login_event ev x -> tells (es ++ [ev]) (length es) x w.
Proof.
  intros (Hd & (v & Hv) & Hx). destruct answer_post as (w0 & _ & _ & Hb & (_ & _ & P3 & _) & _).
  destruct (P3 v x Hd Hv Hx) as (_ & Hu' & T). split.
  - unfold saved. by rewrite Hu'.
  - intros m ev2 [[_ Hm]|[Hm <-]]%lookup_snoc_Some Hlt; [|cbn in Hlt; lia]. destruct (valid_events s V m ev2 Hm). pose proof (lookup_lt_Some _ _ _ Hm). lia.
  - intros m ev2 keep [[_ Hm]|[Hm <-]]%lookup_snoc_Some Hlt; [|cbn in Hlt; lia]. destruct (valid_events s V m ev2 Hm). pose proof (lookup_lt_Some _ _ _ Hm). lia.
Qed.

Lemma valid_answered : valid (mkSystem w (base.delete i (threads s)) (es ++ [ev])).
Proof.
  destruct answer_post as (w0 & Ht & Hc & Hb & (_ & _ & _ & P4) & Hno). split; cbn.
  - apply V.
  - intros n ev' x [[_ Hn]|[-> <-]]%lookup_snoc_Some Hl; [by apply (told_older n ev')|by apply told_newer].
  - intros j th' [Hne Hj]%lookup_delete_Some. destruct (valid_threads s V j th' Hj) as (w1 & Ht1 & Hc1 & Hb1 & Hs1).
    exists w1. split; [by apply told_kept|]. split; [done|]. split; [rewrite length_app; lia|].
    destruct Hs1 as [(v & Hv & Hno1 & Hs1)|Hs1]; [left; exists v; split; [done|]; split; [|done]|by right].
    intros n ev' x [[_ Hn]|[-> <-]]%lookup_snoc_Some Hl; [by apply (Hno1 n ev' x)|].
    destruct (valid_together s V i j th th' Hne Hi Hj) as [Hd _]. apply Hd. split; [apply Hl|apply Hv].
  - intros j k th1 th2 Hne [_ Hj]%lookup_delete_Some [_ Hk]%lookup_delete_Some. by apply (valid_together s V j k).
  - intros k ev' [[_ Hk]|[-> <-]]%lookup_snoc_Some.
    + destruct (valid_events s V k ev' Hk) as [Hb' Ha']. pose proof (lookup_lt_Some _ _ _ Hk). split; [done|]. intros id ua m p x E1 E2.
      destruct (Ha' id ua m p x E1 E2) as (w1 & Ht1 & ?). exists w1. split; [apply told_kept; [lia|done]|done].
    + split; [done|]. cbn. intros id ua m p x E1 E2. exists w0. split; [by apply told_kept|]. split; [done|]. by apply (P4 id ua m p).
Qed.
End Answer.

Lemma valid_crashed s i : valid s -> valid (mkSystem (this s) (base.delete i (threads s)) (events s)).
Proof.
  intros [P T Th Tg Ev]. split; cbn; try done.
  - intros j th [_ Hj]%lookup_delete_Some. by apply (Th j).
  - intros j k th1 th2 Hne [_ Hj]%lookup_delete_Some [_ Hk]%lookup_delete_Some. by apply (Tg j k).
Qed.

Lemma valid_step s s' : valid s -> step s s' -> valid s'.
Proof.
  intros V Hs. destruct Hs as [s t Ht Hp|s i r Hi Hr|s i th w' p' Hi Hx|s i th a Hi Ha|s i].
  - apply valid_tick; [done|done|]. intros C. by apply (passes s t).
  - destruct (starts s r Hr). by apply valid_started.
  - by apply valid_next.
  - by apply valid_answered.
  - by apply valid_crashed.
Qed.

Lemma valid_reached w s : no_sessions w -> rtc step (start w) s -> valid s.
Proof.
  intros Hw Hr. assert (forall s0, rtc step s0 s -> valid s0 -> valid s) as Hv.
  { intros s0 H0'. induction H0' as [|s1 s2 s3 H1 _ IH]; [done|]. intros V. by apply IH, (valid_step s1). }
  apply (Hv _ Hr). by apply valid_start.
Qed.

(** What an answered authentication tells, after others were answered. *)
Lemma admission_tells s n m k login x ev auth z : valid s ->
  events s !! n = Some login -> login_event login x -> events s !! m = Some ev -> (n < before ev)%nat ->
  events s !! k = Some auth -> (m < before auth)%nat ->
  (exists id ua method path, asked auth = OAuthenticate id ua method path) -> answered auth = Ok (TheSession z) ->
  exists w0, tells (take (before auth) (events s)) n x w0 /\ take (before auth) (events s) !! m = Some ev /\ clock w0 <= at_ auth /\ auth_post w0 (Ok z).
Proof.
  intros V Hn Hl Hm Hb Hk Hb' (id & ua & method & path & E1) E2.
  destruct (valid_events s V k auth Hk) as [_ Ha]. destruct (Ha id ua method path z E1 E2) as (w0 & Ht & Hc & Hp).
  exists w0. assert (n < before auth)%nat as Hna by (destruct (valid_events s V m ev Hm) as [? _]; pose proof (lookup_lt_Some _ _ _ Hm); lia).
  split; [by apply (Ht n login); [rewrite lookup_take_lt|]|]. split; [by rewrite lookup_take_lt|]. by split.
Qed.
End Invariant.

(** ** The theorems *)

Section Theorems.
Context {S : Type} `{Documented S}.
Variables (marshal : Session -> option string) (unmarshal : string -> option Session).
Context `{!Snapshots marshal unmarshal}.
Variables (marshal_state : UserState -> string) (unmarshal_state : string -> option UserState).
Variables (GetSessionExpiration GetSessionUserStateTTL : Z) (useragent_New : string -> Device).
Variables (loginFailureLimit loginFailureWindow : Z) (verifyLoginSecondFactor : string -> prog (option failure)).
Hypothesis second_factor_aside : forall id, sends aside (verifyLoginSecondFactor id).

Local Abbreviation body := (SessionsSystem.body marshal unmarshal marshal_state unmarshal_state GetSessionExpiration GetSessionUserStateTTL useragent_New loginFailureLimit
  loginFailureWindow verifyLoginSecondFactor).

Definition admits (ev : event request (outcome reply)) (s : Session) : Prop :=
  (exists id ua method path, asked ev = OAuthenticate id ua method path) /\ answered ev = Ok (TheSession s).

(** C3: Whatever requests are served at once, whatever commands fail or lose
    their answers, and however time passes: once a login has answered with a
    session, and then a logout, a deletion of the current session, or a
    deletion of that session by its user or by an administrator has begun and
    answered success, no authentication that begins afterwards admits the
    session; provided ids are drawn once. *)
Theorem ended_sessions_stay_ended (w : world S) (s : state S) (sid : string) n m k login stop auth x z :
  no_sessions w -> rtc (step body drawn_once (fun _ _ => True)) (start w) s ->
  events s !! n = Some login -> login_event sid login x ->
  events s !! m = Some stop -> (n < before stop)%nat -> ends_session (asked stop) sid -> succeeds stop ->
  events s !! k = Some auth -> (m < before auth)%nat -> admits auth z ->
  ID z <> sid.
Proof.
  intros Hw Hr Hn Hl Hm Hb He Hs Hk Hb' [Ha1 Ha2]. destruct (NewSessionID_drawn _ _ (proj1 Hl)) as [Ht Hne].
  assert (valid marshal unmarshal GetSessionExpiration sid "u" False s) as V.
  { eapply (valid_reached marshal unmarshal marshal_state unmarshal_state GetSessionExpiration GetSessionUserStateTTL useragent_New loginFailureLimit loginFailureWindow
      verifyLoginSecondFactor sid "u" False); [..|exact Hw|exact Hr]; try done. }
  destruct (admission_tells _ _ _ _ _ _ s n m k login x stop auth z V Hn Hl Hm Hb Hk Hb' Ha1 Ha2) as (w0 & [[(_ & _ & F & _) _] Te _] & Hm' & _ & Hp).
  by apply (auth_post_gone unmarshal sid "u" (saved marshal unmarshal sid x) w0); [apply (Te m stop)| |].
Qed.

(** C4: Where, besides, no login of a user runs beside a revocation of all of
    the user's sessions, and the index of a user does not expire in the middle
    of a login: once a login has answered with a session and then a
    revocation of its user's sessions has begun and answered success, be it
    by the user, by an administrator, or by a changed or reset password, an
    authentication that begins afterwards admits the session in no
    millisecond but that of its expiry, unless it is the one kept. *)
Theorem revocation_reaches_every_session (w : world S) (s : state S) (sid keep : string) n m k login revocation auth x z :
  0 < GetSessionExpiration -> GetSessionExpiration mod second = 0 ->
  no_sessions w -> rtc (step body (fun s r => drawn_once s r /\ apart s r) patient) (start w) s ->
  events s !! n = Some login -> login_event sid login x ->
  events s !! m = Some revocation -> (n < before revocation)%nat -> revokes (asked revocation) (UserID x) keep -> keep <> sid -> succeeds revocation ->
  events s !! k = Some auth -> (m < before auth)%nat -> admits auth z -> ID z = sid -> UserID z = UserID x ->
  UnixMilli (ExpiresAt z) <= UnixMilli (at_ auth).
Proof.
  intros Hp Hsec Hw Hr Hn Hl Hm Hb He Hkeep Hs Hk Hb' [Ha1 Ha2] Hid Huser. destruct (NewSessionID_drawn _ _ (proj1 Hl)) as [Ht Hne].
  assert (forall u (calm : Prop), u <> ""%string -> valid marshal unmarshal GetSessionExpiration sid u calm s) as V.
  { intros u calm Hu.
    eapply (valid_reached marshal unmarshal marshal_state unmarshal_state GetSessionExpiration GetSessionUserStateTTL useragent_New loginFailureLimit loginFailureWindow
      verifyLoginSecondFactor sid u calm); [..|exact Hw|exact Hr]; try done; by intros ? ? []. }
  assert (UserID x <> ""%string) as Hu.
  { destruct (admission_tells _ _ _ _ _ _ s n m k login x revocation auth z (V "u" False ltac:(done)) Hn Hl Hm Hb Hk Hb' Ha1 Ha2) as (w0 & [[(_ & B & _) _] _ _] & _ & _ & Hpost).
    destruct (Hpost Hid B) as (_ & (t & _ & Hv) & _). apply ValidateSession_valid in Hv as (_ & Hv & _). by rewrite <- Huser. }
  destruct (admission_tells _ _ _ _ _ _ s n m k login x revocation auth z (V (UserID x) True Hu) Hn Hl Hm Hb Hk Hb' Ha1 Ha2)
    as (w0 & [[(_ & B & F & _) _] _ Tr] & Hm' & Hc & Hpost).
  destruct (Hpost Hid B) as (A & _ & Hf). pose proof (Hf _ F) as Hst. unfold static, saved in Hst.
  destruct (Tr m revocation keep Hm' Hb He Hkeep Hs I eq_refl) as [?|[(f & Ff & Hfn)|Sp]]; [done|by rewrite <- (Hf f Ff) in Hfn|].
  unfold spent in Sp. assert (ExpiresAt z = ExpiresAt x) as -> by congruence.
  pose proof (Z.div_le_mono (clock w0) (at_ auth) millisecond eq_refl Hc). unfold UnixMilli in *. lia.
Qed.

End Theorems.

(** *** What an authentication admits *)

Section Admission.
Variables (marshal : Session -> option string) (unmarshal : string -> option Session).
Variables (marshal_state : UserState -> string) (unmarshal_state : string -> option UserState).
Variables (GetSessionExpiration GetSessionUserStateTTL : Z) (useragent_New : string -> Device).

(** The requests of a user who has to change the password. *)
Definition change_requests : list (string * string) :=
  [("POST", "/api/iam/change-password"); ("POST", "/api/logout"); ("GET", "/api/iam/session/current"); ("DELETE", "/api/iam/session/current")]%string.

Lemma deviceMismatch_none s userAgent : deviceMismatch useragent_New s userAgent = ""%string ->
  useragent_New userAgent = mkDevice (OS s) (Platform s) (EngineName s) (BrowserName s).
Proof.
  unfold deviceMismatch. destruct (useragent_New userAgent) as [os platform engine browser]. cbn.
  destruct (String.eqb_spec (OS s) os) as [->|]; [|done]. destruct (String.eqb_spec (Platform s) platform) as [->|]; [|done].
  destruct (String.eqb_spec engine (EngineName s)) as [->|]; [|done]. by destruct (String.eqb_spec browser (BrowserName s)) as [->|].
Qed.

Lemma exempt_listed method path : MustChangePasswordExempt method path = true -> (method, path) ∈ change_requests.
Proof.
  unfold MustChangePasswordExempt, change_requests. rewrite !orb_true_iff, !andb_true_iff, !String.eqb_eq.
  intros [[[[-> ->]|[-> ->]]|[-> ->]]|[-> ->]]; set_solver.
Qed.

(** C5: An authentication admits a session only under the id it was asked
    for, with the device it was opened on (the operating system, platform,
    engine and browser of the agent are those of the session), for a known
    user, and, when the user has to change the password, for nothing but the
    four requests that lead there; whatever the store answers. *)
Theorem Authenticate_admits id userAgent method path :
  returns (fun r => match r with
    | Ok s => ID s = TrimSpace id /\ ID s <> ""%string /\ UserID s <> ""%string /\
              useragent_New userAgent = mkDevice (OS s) (Platform s) (EngineName s) (BrowserName s) /\
              (MustChangePassword s = true -> (method, path) ∈ change_requests)
    | Err _ => True end)
    (Authenticate marshal unmarshal marshal_state unmarshal_state GetSessionExpiration GetSessionUserStateTTL useragent_New id userAgent method path).
Proof.
  assert (forall A (p : prog A) e Q, Q (Err e) -> returns Q (ignore p (Ret (Err e)) : prog_ Session)) as Hrej.
  { intros A p e Q HQ. unfold ignore. by eapply returns_bind; [apply returns_True|]. }
  unfold Authenticate. destruct (String.eqb_spec (TrimSpace id) "") as [|Hid]; [done|]. eapply returns_bind; [apply returns_True|].
  intros [[s|]|e] _; [|done|done]. intros now. destruct (ValidateSession _ _ _) eqn:Hv; [by apply Hrej|].
  destruct (ValidateSession_valid _ _ _ Hv) as (E1 & E2 & _). rewrite TrimSpace_idem in E1.
  destruct (String.eqb_spec (deviceMismatch useragent_New s userAgent) "") as [Hdev%deviceMismatch_none|]; cbn [negb]; [|done].
  eapply returns_bind; [apply ValidateSessionUserState_static|]. intros [s'|e] Hs.
  - destruct Hs as [_ [b ->]]. destruct (MustChangePassword (must_change_to b s) && _) eqn:Hb; [done|]. intros now'. unfold ignore.
    eapply returns_bind; [apply returns_True|]. intros _ _. cbn in *. split; [done|]. split; [congruence|]. split; [done|]. split; [done|].
    intros ->. apply exempt_listed. by destruct (MustChangePasswordExempt method path).
  - destruct e; try (by apply Hrej). destruct (_ || _); [by apply Hrej|done].
Qed.
End Admission.

(** * Sessions on a server *)

(** ** Snapshots

    A text that keeps what never changes in a snapshot. *)

Fixpoint bits (p : positive) : string :=
  match p with xH => "" | xO p => String "0" (bits p) | xI p => String "1" (bits p) end.
Fixpoint of_bits (s : string) : option positive :=
  match s with
  | EmptyString => Some xH
  | String "0" s => xO <$> of_bits s
  | String "1" s => xI <$> of_bits s
  | String _ _ => None
  end.
Lemma of_bits_bits p : of_bits (bits p) = Some p.
Proof. induction p as [p IH|p IH|]; cbn; by rewrite ?IH. Qed.

Definition text (s : Session) : option string := Some (String "{" (bits (encode (ID s, UserID s, ExpiresAt s)))).
Definition from_text (t : string) : option Session :=
  match t with
  | String "{" t =>
      match of_bits t with
      | Some p => match countable.decode p with
                  | Some (id, user, expires) => Some (mkSession id user "" "" false "" "" "" "" "" "" zero_time zero_time expires)
                  | None => None
                  end
      | None => None
      end
  | _ => None
  end.

#[export] Instance text_snapshots : Snapshots text from_text.
Proof.
  refine {| coerce := id |}.
  - intros s p [= <-]. cbn [from_text]. rewrite of_bits_bits, decode_encode. eauto.
  - intros n. unfold FormatInt, FormatUint. destruct (n <? 0) eqn:E; [done|]. apply Z.ltb_ge in E.
    destruct (digits_head 20 n "" E ltac:(lia)) as (d & rest & Hd & ->).
    assert (d = 0 \/ d = 1 \/ d = 2 \/ d = 3 \/ d = 4 \/ d = 5 \/ d = 6 \/ d = 7 \/ d = 8 \/ d = 9) as Hcases by lia.
    by repeat destruct Hcases as [->|Hcases]; subst.
  - done.
Defined.

(** ** The application *)

Definition state_text (s : UserState) : string := "{}".
Definition from_state_text (t : string) : option UserState := None.
Definition hours : Z := 3600 * second.
Definition device (ua : string) : Device := mkDevice "" "" "" "".
Definition no_second_factor (user : string) : prog (option failure) := Ret None.

Lemma no_second_factor_aside user : sends aside (no_second_factor user).
Proof. done. Qed.

(** Everyone is active and has the password "secret"; "root" is the
    administrator. *)
Definition oracle (R : Set) (q : question R) : R :=
  match q with
  | UserStatusOf _ => Found Active
  | MustChangePasswordOf _ => Found false
  | EmailOf _ => Missing
  | OwnerItem _ => Found tt
  | PasswordMatches _ password => (password =? "secret")%string
  | IsSystemRoot user => Some (user =? "root")%string
  | TenantRoles _ _ => Some []
  | TenantAdmin _ _ => None
  end.

Definition serve : request -> prog (outcome reply) := body text from_text state_text from_state_text (8 * hours) (30 * second) device 5 (15 * 60 * second) no_second_factor.

Abbreviation state_ := (state keyspace).
Definition empty_world : world keyspace := mkWorld ∅ 0 ∅.

(** ** Deciding what may start *)

#[export] Instance draws_dec r id : Decision (draws r id).
Proof. destruct r; cbn; apply _. Defined.
#[export] Instance clash_dec r r' : Decision (clash r r').
Proof.
  destruct r as [users req ip ua random| | | | | | | | | | | | | | |]; try (right; by intros (? & [] & _)).
  destruct users as [[|a l]|]; try (right; by intros (? & [] & _)).
  destruct (decide (may_revoke r' (a_ID a))); [left; by exists (a_ID a)|right; by intros (user & <- & ?)].
Defined.

Definition new_id (s : state_) (r : request) : bool :=
  match r with
  | OLogin _ _ _ _ random =>
      match NewSessionID random with
      | Some id => bool_decide (sessionDataKey id ∉ written (this s)) && bool_decide (map_Forall (fun _ th => ~ draws (serves th) id) (threads s))
      | None => true
      end
  | _ => true
  end.
Definition no_clash (s : state_) (r : request) : bool :=
  bool_decide (map_Forall (fun _ th => ~ clash r (serves th) /\ ~ clash (serves th) r) (threads s)).
Definition idle (s : state_) (t : Z) : bool := bool_decide (threads s = ∅).

Lemma new_id_ok s r : new_id s r = true -> drawn_once s r.
Proof.
  unfold drawn_once. destruct r; try done. cbn. intros Hn id Hd. rewrite Hd in Hn. apply andb_prop in Hn as [H1%bool_decide_eq_true H2%bool_decide_eq_true].
  split; [done|]. exact H2.
Qed.
Lemma both_ok s r : new_id s r && no_clash s r = true -> drawn_once s r /\ apart s r.
Proof.
  intros [H1 H2%bool_decide_eq_true]%andb_prop. split; [by apply new_id_ok|]. intros i th. apply H2.
Qed.
Lemma idle_ok s t : idle s t = true -> patient s t.
Proof. unfold idle. intros E%bool_decide_eq_true i th user v d. by rewrite E. Qed.

Lemma empty_no_sessions : no_sessions empty_world.
Proof. by repeat split. Qed.

(** ** A session that is ended *)

Definition alice : account := mkAccount "alice" "alice" Active.
Definition bob : account := mkAccount "root" "bob" Active.
Definition random (b : Byte.byte) : option (nat -> Byte.byte) := Some (fun _ => b).
Definition id_of (b : Byte.byte) : string := default "" (NewSessionID (random b)).
Definition log_in_with (password : string) (a : account) (b : Byte.byte) : request :=
  OLogin (Some [a]) (mkLogin (a_Username a) password "") "10.0.0.1" "curl" (random b).
Definition log_in : account -> Byte.byte -> request := log_in_with "secret".
Definition by_cookie (id : string) : caller := mkCaller None (Some id).
Definition use (id : string) : request := OAuthenticate id "curl" "GET" "/api/users".

(** A request served alone. *)
Definition alone (r : request) : list (move (Req := request)) := [Begin 0 r; Go 0 200; Answer 0].

Definition run (starts : state_ -> request -> bool) (passes : state_ -> Z -> bool) (ms : list move) : option state_ :=
  makes serve oracle starts passes (start empty_world) ms.

Definition logout_run : option state_ :=
  run new_id (fun _ _ => true)
    (alone (log_in alice x00) ++ [Pass second] ++ alone (OLogout (by_cookie (id_of x00))) ++ alone (log_in alice x01) ++ alone (use (id_of x00)) ++ alone (use (id_of x01))).

(** *** What a run has come to *)

Definition reached (r : option state_) : state_ := default (start empty_world) r.
Definition event_at (r : option state_) (n : nat) : event request (outcome reply) :=
  default (mkEvent (OLogout (mkCaller None None)) 0 (Err StoreFailed) 0) (events (reached r) !! n).
Definition session_at (r : option state_) (n : nat) : Session := match answered (event_at r n) with Ok (TheSession s) => s | _ => zero_session end.
Definition answers (r : option state_) : list string :=
  map (fun ev => match answered ev with Ok (TheSession s) => ID s | Ok _ => "done" | Err _ => "refused" end) (events (reached r)).
Definition runs_through (r : option state_) : bool := match r with Some _ => true | None => false end.

Lemma reached_steps starts passes ms (may_start : state_ -> request -> Prop) (may_pass : state_ -> Z -> Prop) :
  (forall s r, starts s r = true -> may_start s r) -> (forall s t, passes s t = true -> may_pass s t) -> runs_through (run starts passes ms) = true ->
  rtc (step serve may_start may_pass) (start empty_world) (reached (run starts passes ms)).
Proof.
  intros Hs Hp Hr. unfold reached, run in *. destruct (makes _ _ _ _ _ _) as [s|] eqn:E; [|done]. cbn. by apply (makes_steps serve oracle starts passes may_start may_pass Hs Hp ms).
Qed.

Lemma event_at_found r n : (n <? length (events (reached r)))%nat = true -> events (reached r) !! n = Some (event_at r n).
Proof.
  intros Hn%Nat.ltb_lt. unfold event_at. destruct (lookup_lt_is_Some_2 _ _ Hn) as [ev Hev]. by rewrite Hev.
Qed.

Lemma session_at_found r n : (match answered (event_at r n) with Ok (TheSession _) => true | _ => false end) = true ->
  answered (event_at r n) = Ok (TheSession (session_at r n)).
Proof. unfold session_at. by destruct (answered (event_at r n)) as [[]|]. Qed.

Example logout_run_answers : answers logout_run = [id_of x00; "done"; id_of x01; "refused"; id_of x01].
Proof. vm_compute. reflexivity. Qed.

(** The session logged out of stays out. *)
Lemma ended_sessions_stay_ended_witness : ID (session_at logout_run 4) <> id_of x00.
Proof.
  apply (ended_sessions_stay_ended text from_text state_text from_state_text (8 * hours) (30 * second) device 5 (15 * 60 * second) no_second_factor
    no_second_factor_aside empty_world (reached logout_run) (id_of x00) 0 1 4 (event_at logout_run 0) (event_at logout_run 1) (event_at logout_run 4)
    (session_at logout_run 0) (session_at logout_run 4)).
  - exact empty_no_sessions.
  - apply reached_steps; [exact new_id_ok|done|vm_compute; reflexivity].
  - apply event_at_found. vm_compute. reflexivity.
  - split; [vm_compute; reflexivity|]. split; [exists "alice"%string; vm_compute; reflexivity|]. apply session_at_found. vm_compute. reflexivity.
  - apply event_at_found. vm_compute. reflexivity.
  - vm_compute. lia.
  - vm_compute. reflexivity.
  - exists NoContent. vm_compute. reflexivity.
  - apply event_at_found. vm_compute. reflexivity.
  - vm_compute. lia.
  - split; [exists (id_of x01), "curl"%string, "GET"%string, "/api/users"%string; vm_compute; reflexivity|]. apply session_at_found. vm_compute. reflexivity.
Defined.

(** The request that comes last is admitted. *)
Definition last_world : world keyspace := this (reached logout_run).
Definition last_admission : world keyspace * prog (outcome Session) :=
  go oracle 200 last_world
    (Authenticate text from_text state_text from_state_text (8 * hours) (30 * second) device (id_of x01) "curl" "GET" "/api/users").
Definition last_admitted : Session := match snd last_admission with Ret (Ok s) => s | _ => zero_session end.

Lemma last_admission_answers :
  go oracle 200 last_world
    (Authenticate text from_text state_text from_state_text (8 * hours) (30 * second) device (id_of x01) "curl" "GET" "/api/users") =
  (fst last_admission, Ret (Ok last_admitted)).
Proof. vm_compute. reflexivity. Qed.

Lemma Authenticate_admits_witness :
  ID last_admitted = TrimSpace (id_of x01) /\ UserID last_admitted <> ""%string /\
  device "curl" = mkDevice (OS last_admitted) (Platform last_admitted) (EngineName last_admitted) (BrowserName last_admitted).
Proof.
  pose proof (go_returns oracle _ 200 last_world _ (fst last_admission) (Ok last_admitted)
    (Authenticate_admits text from_text state_text from_state_text (8 * hours) (30 * second) device (id_of x01) "curl" "GET" "/api/users")
    last_admission_answers) as H.
  split; [exact (proj1 H)|]. split; [exact (proj1 (proj2 (proj2 H)))|exact (proj1 (proj2 (proj2 (proj2 H))))].
Defined.

(** ** A revocation in the millisecond of the expiry *)

Definition careful : state_ -> request -> bool := fun s r => new_id s r && no_clash s r.

Definition expiry_run : option state_ :=
  run careful idle
    ([Pass 500000] ++ alone (log_in alice x00) ++ [Pass (8 * hours + 200000)] ++ alone (OPasswordReset "alice") ++ [Pass (8 * hours + 300000)] ++ alone (use (id_of x00))).

Example expiry_run_answers : answers expiry_run = [id_of x00; "done"; id_of x00].
Proof. vm_compute. reflexivity. Qed.

Lemma revocation_reaches_every_session_witness : UnixMilli (ExpiresAt (session_at expiry_run 2)) <= UnixMilli (at_ (event_at expiry_run 2)).
Proof.
  apply (revocation_reaches_every_session text from_text state_text from_state_text (8 * hours) (30 * second) device 5 (15 * 60 * second) no_second_factor
    no_second_factor_aside empty_world (reached expiry_run) (id_of x00) "" 0 1 2 (event_at expiry_run 0) (event_at expiry_run 1) (event_at expiry_run 2)
    (session_at expiry_run 0) (session_at expiry_run 2)).
  - reflexivity.
  - reflexivity.
  - exact empty_no_sessions.
  - apply reached_steps; [exact both_ok|exact idle_ok|vm_compute; reflexivity].
  - apply event_at_found. vm_compute. reflexivity.
  - split; [vm_compute; reflexivity|]. split; [exists "alice"%string; vm_compute; reflexivity|]. apply session_at_found. vm_compute. reflexivity.
  - apply event_at_found. vm_compute. reflexivity.
  - vm_compute. lia.
  - vm_compute. split; reflexivity.
  - vm_compute. discriminate.
  - exists NoContent. vm_compute. reflexivity.
  - apply event_at_found. vm_compute. reflexivity.
  - vm_compute. lia.
  - split; [exists (id_of x00), "curl"%string, "GET"%string, "/api/users"%string; vm_compute; reflexivity|]. apply session_at_found. vm_compute. reflexivity.
  - vm_compute. reflexivity.
  - vm_compute. reflexivity.
Defined.

(** ** What the hypotheses leave out *)

(** A reset lists the user's sessions; a login begins and ends; the reset
    deletes the user's index, with the new session in it. *)
Definition race_run : option state_ :=
  run new_id idle
    ([Begin 1 (OPasswordReset "alice"); Go 1 4] ++ alone (log_in alice x00) ++ [Go 1 200; Answer 1; Pass second] ++ alone (OPasswordReset "alice") ++ alone (use (id_of x00))).

Example race_run_answers : answers race_run = [id_of x00; "done"; "done"; id_of x00].
Proof. vm_compute. reflexivity. Qed.

(** Without that hypothesis sessions escape: a login that ends while a
    reset of the password is between reading the user's index and deleting it
    leaves a session that no later revocation finds, though each answers
    success. *)
Theorem late_login_escapes_revocation :
  exists s login revocation auth x z, rtc (step serve drawn_once patient) (start empty_world) s /\
    events s !! 0%nat = Some login /\ login_event (id_of x00) login x /\
    events s !! 2%nat = Some revocation /\ (0 < before revocation)%nat /\ revokes (asked revocation) (UserID x) "" /\ succeeds revocation /\
    events s !! 3%nat = Some auth /\ (2 < before auth)%nat /\ admits auth z /\ ID z = id_of x00 /\ at_ auth + 7 * hours <= ExpiresAt z.
Proof.
  exists (reached race_run), (event_at race_run 0), (event_at race_run 2), (event_at race_run 3), (session_at race_run 0), (session_at race_run 3).
  split; [apply reached_steps; [exact new_id_ok|exact idle_ok|vm_compute; reflexivity]|].
  split; [apply event_at_found; vm_compute; reflexivity|].
  split; [split; [vm_compute; reflexivity|]; split; [exists "alice"%string; vm_compute; reflexivity|]; apply session_at_found; vm_compute; reflexivity|].
  split; [apply event_at_found; vm_compute; reflexivity|]. split; [vm_compute; lia|]. split; [vm_compute; split; reflexivity|].
  split; [exists NoContent; vm_compute; reflexivity|]. split; [apply event_at_found; vm_compute; reflexivity|]. split; [vm_compute; lia|].
  split; [split; [exists (id_of x00), "curl"%string, "GET"%string, "/api/users"%string; vm_compute; reflexivity|]; apply session_at_found; vm_compute; reflexivity|].
  split; [vm_compute; reflexivity|]. vm_compute. discriminate.
Qed.

(** An administrator deletes a session under its id and a space. *)
Definition space_run : option state_ :=
  run careful idle
    (alone (log_in alice x00) ++ alone (log_in bob x02) ++ alone (OAdminSessionDelete (by_cookie (id_of x02)) (id_of x00 +:+ " ")) ++ alone (use (id_of x00))).

Example space_run_answers : answers space_run = [id_of x00; id_of x02; "done"; id_of x00].
Proof. vm_compute. reflexivity. Qed.

(** A deletion reads the session under the trimmed id and deletes the key
    of the id as it came: with a space behind the id it answers success and
    the session lives on. *)
Theorem untrimmed_id_survives_deletion :
  exists s stop auth z, rtc (step serve (fun s r => drawn_once s r /\ apart s r) patient) (start empty_world) s /\
    events s !! 2%nat = Some stop /\ (exists c, asked stop = OAdminSessionDelete c (id_of x00 +:+ " ")) /\ succeeds stop /\
    events s !! 3%nat = Some auth /\ (2 < before auth)%nat /\ admits auth z /\ ID z = id_of x00.
Proof.
  exists (reached space_run), (event_at space_run 2), (event_at space_run 3), (session_at space_run 3).
  split; [apply reached_steps; [exact both_ok|exact idle_ok|vm_compute; reflexivity]|].
  split; [apply event_at_found; vm_compute; reflexivity|]. split; [exists (by_cookie (id_of x02)); vm_compute; reflexivity|].
  split; [exists NoContent; vm_compute; reflexivity|]. split; [apply event_at_found; vm_compute; reflexivity|]. split; [vm_compute; lia|].
  split; [split; [exists (id_of x00), "curl"%string, "GET"%string, "/api/users"%string; vm_compute; reflexivity|]; apply session_at_found; vm_compute; reflexivity|].
  vm_compute. reflexivity.
Qed.

(** The first of five wrong passwords is counted by a process that stops
    before it has given the counter its window. *)
Definition guess : request := log_in_with "guess" alice x00.
Definition lockout_run : option state_ :=
  run careful idle
    ([Begin 0 guess; Go 0 4; Crash 0] ++ alone guess ++ alone guess ++ alone guess ++ alone guess ++ [Pass (1000 * hours)] ++ alone (log_in alice x01)).

Example lockout_run_answers : answers lockout_run = ["refused"; "refused"; "refused"; "refused"; "refused"].
Proof. vm_compute. reflexivity. Qed.

(** A failed login is counted first and the counter given its window by a
    second command; when the process stops in between, the counter never
    ends, and once five have failed the right password is refused however
    long the account is left alone. *)
Theorem unexpiring_counter_locks_out :
  exists s ev, rtc (step serve (fun s r => drawn_once s r /\ apart s r) patient) (start empty_world) s /\
    events s !! 4%nat = Some ev /\ 1000 * hours <= at_ ev /\ asked ev = log_in alice x01 /\ answered ev = Err invalid_login /\
    stored (this s) !! loginFailureKey "alice" = Some (Number 5, None).
Proof.
  exists (reached lockout_run), (event_at lockout_run 4). split; [apply reached_steps; [exact both_ok|exact idle_ok|vm_compute; reflexivity]|].
  split; [apply event_at_found; vm_compute; reflexivity|]. split; [vm_compute; discriminate|]. split; [vm_compute; reflexivity|]. split; vm_compute; reflexivity.
Qed.
