(* ===== verification/SecondFactor.v ===== *)
(** * The second factor of a login

    Models [src/internal/service/mfa]: the verification of a login's second
    factor (totp_login.go), the removal of a device (totp_unbind.go), the two
    steps that enrol one (totp_bind.go, totp_confirm.go and
    totp_binding_challenge.go), the administrator's reset
    (admin_totp_reset.go), the status of an account, and what they share: the
    budget of attempts (totp_verification_lockout.go), the codes that were
    used (totp_code_replay.go) and recovery codes (totp_backup_code.go).

    A service is a program that sends commands to Redis and statements to the
    database.  The library that validates a one-time code, HMAC, JSON, the
    image of a QR code and the source of randomness are arguments.  Logging is
    left out. *)

From stdpp Require Import base list gmap strings.
From Stdlib Require Import ZArith NArith Ascii Strings.Byte.
From S2P Require Import Prelude GoStrings Redis Sessions.
Local Open Scope Z_scope.

(** ** Data *)

Record TOTPDevice : Type := mkDevice {
  ID : string; UserID : string; DeviceName : string; Secret : string;
  BackupCodeHashes : list string; IsActive : bool; LastUsedAt : option Z; CreatedAt : Z }.

Record LoginSecondFactor : Type := mkFactor { TOTPCode : string; BackupCode : string }.

Inductive error : Set :=
| VerificationLocked | CodeReplayed | CodeInvalid | BackupCodeInvalid | VerificationInvalid
| ChallengeNotFound | ChallengeExpired | ChallengeInvalid
| Failed                                    (** the error of a command or a statement *)
| Refused (status : Z) (message : string).  (** a [gst.Error] *)
Abbreviation outcome A := (result error A).

(** The columns of a narrowed update. *)
Inductive column : Set := colTOTPDeviceBackupCodeHashes | colTOTPDeviceLastUsedAt.

#[export] Instance column_eq_dec : EqDecision column.
Proof. solve_decision. Defined.

Inductive written : Set := Written | RecordNotFound | WriteFailed.

(** What a service asks of the database, of the library of one-time codes and
    of the installed authorizer; [None] and [false] are errors. *)
Inductive statement : Set -> Type :=
| Begin : statement bool
| Commit : statement bool
| Rollback : statement unit
| ListDevices (lock : bool) (user : string) (active_only : bool) : statement (option (list TOTPDevice))
| UpdateDevice (columns : list column) (d : TOTPDevice) : statement written
| DeleteDevices (l : list TOTPDevice) : statement written
| CreateDevice (d : TOTPDevice) : statement (option string)   (** its id *)
| Validate (code secret : string) : statement bool            (** [totp.Validate], at the clock *)
| EnsureCanAdminister (target : string) : statement (option failure).

Abbreviation prog := (Redis.prog statement).
Abbreviation prog_ A := (prog (outcome A)).
Local Open Scope prog_scope.

Definition try_ {A B} (p : prog_ A) (k : A -> prog_ B) : prog_ B :=
  r <- p;; match r with Ok a => k a | Err e => Ret (Err e) end.
Notation "'get' x <- p ;; k" := (try_ p (fun x => k)) (at level 100, x pattern, p at next level, right associativity) : prog_scope.

(** [if err != nil { return ... }] where the error is answered as [f] says. *)
Definition on_error {A} (f : error -> error) (p : prog_ A) : prog_ A :=
  r <- p;; Ret (match r with Ok a => Ok a | Err e => Err (f e) end).

(** [database.Transaction] around a closure that leaves a captured variable
    behind. *)
Definition Transaction {X A} (x : X) (fn : prog (X * outcome A)) : prog (X * outcome A) :=
  Ask Begin (fun begun : bool =>
    if begun then
      r <- fn;;
      match r with
      | (x, Err e) => Ask Rollback (fun _ => Ret (x, Err e))
      | (x, Ok a) => Ask Commit (fun committed : bool => Ret (x, if committed then Ok a else Err Failed))
      end
    else Ret (x, Err Failed)).

(** ** The codes that were used *)

Definition totpCodeReplayTTL : Z := 120 * second.

Definition usedKey (user code : string) : string := "mfa:totp:used:" +:+ TrimSpace user +:+ ":" +:+ TrimSpace code.

Definition markTOTPCodeUsed (user code : string) : prog_ unit :=
  Call (SetNX (usedKey user code) "1" totpCodeReplayTTL) (fun r =>
    Ret (match r with None => Err Failed | Some false => Err CodeReplayed | Some true => Ok tt end)).

(** ** The budget of attempts *)

Definition totpVerificationAttemptLimit : Z := 5.
Definition totpVerificationAttemptWindow : Z := 900 * second.

Inductive purpose : Set := totpVerificationLogin | totpVerificationUnbind.
Definition purpose_string (p : purpose) : string :=
  match p with totpVerificationLogin => "login" | totpVerificationUnbind => "unbind" end.

Definition totpVerificationFailureKey (p : purpose) (user : string) : string :=
  "mfa:totp:failure:" +:+ purpose_string p +:+ ":" +:+ TrimSpace user.

Definition reserveTOTPVerificationAttempt (p : purpose) (user : string) : prog_ unit :=
  Call (IncrFixedWindow (totpVerificationFailureKey p user) totpVerificationAttemptWindow) (fun r =>
    Ret (match r with
         | None => Err Failed
         | Some count => if totpVerificationAttemptLimit <? count then Err VerificationLocked else Ok tt
         end)).

Definition clearTOTPVerificationFailures (user : string) (purposes : list purpose) : prog unit :=
  Call (Del (map (fun p => totpVerificationFailureKey p user) purposes)) (fun _ => Ret tt).

(** ** Recovery codes *)

Definition totpBackupCodeCount : nat := 10.
Definition totpBackupCodeRawLength : nat := 16.
Definition totpBackupCodeGroupSize : nat := 4.
Definition totpBackupCodeAlphabet : string := "23456789ABCDEFGHJKLMNPQRSTUVWXYZ".

(** [strings.ToUpper], as far as a letter of ASCII can come of it: of the
    others only the long s and the dotless i, two bytes each, map to one. *)
Fixpoint ToUpper (s : string) : string :=
  match s with
  | EmptyString => EmptyString
  | String a s =>
      let n := nat_of_ascii a in
      match s with
      | String b s' =>
          if (n =? 197)%nat && (nat_of_ascii b =? 191)%nat then String "S" (ToUpper s')
          else if (n =? 196)%nat && (nat_of_ascii b =? 177)%nat then String "I" (ToUpper s')
          else String (if (97 <=? n)%nat && (n <=? 122)%nat then ascii_of_nat (n - 32) else a) (ToUpper s)
      | EmptyString => String (if (97 <=? n)%nat && (n <=? 122)%nat then ascii_of_nat (n - 32) else a) EmptyString
      end
  end.

Fixpoint without_hyphens (s : string) : string :=
  match s with
  | EmptyString => EmptyString
  | String a s => if (a =? "-")%char then without_hyphens s else String a (without_hyphens s)
  end.

(** [strings.ContainsRune] of the alphabet, whose runes are single bytes. *)
Fixpoint contains (a : ascii) (s : string) : bool :=
  match s with EmptyString => false | String b s => (a =? b)%char || contains a s end.
Fixpoint all_in_alphabet (s : string) : bool :=
  match s with EmptyString => true | String a s => contains a totpBackupCodeAlphabet && all_in_alphabet s end.

Definition normalizeTOTPBackupCode (code : string) : option string :=
  let code := ToUpper (without_hyphens (TrimSpace code)) in
  if negb (String.length code =? totpBackupCodeRawLength)%nat then None
  else if all_in_alphabet code then Some code else None.

(** The loop over the characters from the [i]-th on. *)
Fixpoint format_from (i : nat) (code : string) : string :=
  match code with
  | EmptyString => EmptyString
  | String a code =>
      let rest := String a (format_from (i + 1) code) in
      if (0 <? i)%nat && (i mod totpBackupCodeGroupSize =? 0)%nat then String "-" rest else rest
  end.
Definition formatTOTPBackupCode (code : string) : string := format_from 0 code.

(** The characters of a code; [random n] is what [rand.Int] draws with [n]
    left to follow, [None] when the source of randomness fails. *)
Fixpoint draw (random : nat -> option nat) (n : nat) : option string :=
  match n with
  | O => Some EmptyString
  | S n =>
      match random n, draw random n with
      | Some i, Some s => Some (String (default "2"%char (String.get (i mod 32) totpBackupCodeAlphabet)) s)
      | _, _ => None
      end
  end.
Definition generateTOTPBackupCode (random : nat -> option nat) : option string :=
  formatTOTPBackupCode <$> draw random totpBackupCodeRawLength.

Definition GenerateTOTPBackupCodes (random : nat -> nat -> option nat) : option (list string) :=
  mapM (fun i => generateTOTPBackupCode (random i)) (seq 0 totpBackupCodeCount).

Section Services.
(** HMAC with SHA-256, of a key and a text. *)
Variable hmac_sha256 : string -> string -> list Byte.byte.

Definition hashTOTPBackupCode (secret normalizedCode : string) : string := EncodeToString (hmac_sha256 secret normalizedCode).

Definition HashTOTPBackupCodes (secret : string) (codes : list string) : option (list string) :=
  mapM (fun code => hashTOTPBackupCode secret <$> normalizeTOTPBackupCode code) codes.

(** The loop over the hashes of a device: those without the first that is the
    digest. *)
Fixpoint without_digest (digest : string) (hashes : list string) : option (list string) :=
  match hashes with
  | [] => None
  | hash :: hashes => if (digest =? hash)%string then Some hashes else cons hash <$> without_digest digest hashes
  end.

Definition used_at (now : Z) (hashes : list string) (d : TOTPDevice) : TOTPDevice :=
  mkDevice (ID d) (UserID d) (DeviceName d) (Secret d) hashes (IsActive d) (Some now) (CreatedAt d).

(** The loop over the devices: the one that has the code, without it. *)
Fixpoint consume_of (code : string) (now : Z) (devices : list TOTPDevice) : option TOTPDevice :=
  match devices with
  | [] => None
  | d :: devices =>
      match without_digest (hashTOTPBackupCode (Secret d) code) (BackupCodeHashes d) with
      | Some hashes => Some (used_at now hashes d)
      | None => consume_of code now devices
      end
  end.

Definition consumeTOTPBackupCodeInTx (user code : string) (now : Z) : prog_ unit :=
  match normalizeTOTPBackupCode code with
  | None => Ret (Err BackupCodeInvalid)
  | Some code =>
      Ask (ListDevices true (TrimSpace user) true) (fun r =>
        match r with
        | None => Ret (Err Failed)
        | Some devices =>
            match consume_of code now devices with
            | None => Ret (Err BackupCodeInvalid)
            | Some device =>
                Ask (UpdateDevice [colTOTPDeviceBackupCodeHashes; colTOTPDeviceLastUsedAt] device) (fun w =>
                  Ret (match w with Written => Ok tt | _ => Err Failed end))
            end
        end)
  end.

Definition consumeTOTPBackupCode (user code : string) : prog_ unit :=
  if (TrimSpace user =? "")%string then Ret (Err (Refused 401 "authentication required"))
  else
    r <- Transaction tt (Now (fun now => r <- consumeTOTPBackupCodeInTx user code now;; Ret (tt, r)));; Ret (snd r).

(** ** The factor of a login *)

Definition MsgSecondFactorRequired : string := "second factor required".

Definition listActiveLoginTOTPDevices (user : string) : prog_ (list TOTPDevice) :=
  Ask (ListDevices false user true) (fun r => Ret (match r with Some devices => Ok devices | None => Err Failed end)).

(** The first device that accepts the code. *)
Fixpoint findLoginTOTPDeviceByCode (devices : list TOTPDevice) (code : string) : prog (option TOTPDevice) :=
  match devices with
  | [] => Ret None
  | d :: devices =>
      if negb (IsActive d) then findLoginTOTPDeviceByCode devices code
      else Ask (Validate code (Secret d)) (fun valid : bool => if valid then Ret (Some d) else findLoginTOTPDeviceByCode devices code)
  end.

Definition factorFailed : error := Refused 500 "failed to verify second factor".

Definition verifyLoginTOTPCode (devices : list TOTPDevice) (code : string) : prog_ unit :=
  found <- findLoginTOTPDeviceByCode devices code;;
  match found with
  | None => Ret (Err (Refused 401 "invalid TOTP code"))
  | Some device =>
      get _ <- on_error (fun e => match e with CodeReplayed => Refused 401 "invalid TOTP code" | _ => factorFailed end)
                 (markTOTPCodeUsed (UserID device) code);;
      Now (fun now =>
      Ask (UpdateDevice [colTOTPDeviceLastUsedAt] (used_at now (BackupCodeHashes device) device)) (fun w =>
        match w with
        | Written => clearTOTPVerificationFailures (UserID device) [totpVerificationLogin];; Ret (Ok tt)
        | _ => Ret (Err factorFailed)
        end))
  end.

Definition verifyLoginBackupCode (user code : string) : prog_ unit :=
  get _ <- on_error (fun e => match e with BackupCodeInvalid => Refused 401 "invalid backup code" | _ => factorFailed end)
             (consumeTOTPBackupCode user code);;
  clearTOTPVerificationFailures user [totpVerificationLogin];; Ret (Ok tt).

Definition LoginSecondFactorVerifier (user : string) (factor : LoginSecondFactor) : prog_ unit :=
  let user := TrimSpace user in
  if (user =? "")%string then Ret (Err (Refused 401 "authentication required"))
  else
    get devices <- on_error (fun _ => factorFailed) (listActiveLoginTOTPDevices user);;
    if bool_decide (devices = []) then Ret (Ok tt)
    else
      let totpCode := TrimSpace (TOTPCode factor) in
      let backupCode := TrimSpace (BackupCode factor) in
      if (totpCode =? "")%string && (backupCode =? "")%string then Ret (Err (Refused 401 MsgSecondFactorRequired))
      else if negb (totpCode =? "")%string && negb (backupCode =? "")%string then
        Ret (Err (Refused 400 "provide exactly one second factor"))
      else
        get _ <- on_error (fun e => match e with
                                    | VerificationLocked => Refused 429 "too many failed verification attempts"
                                    | _ => factorFailed
                                    end)
                   (reserveTOTPVerificationAttempt totpVerificationLogin user);;
        if negb (totpCode =? "")%string then verifyLoginTOTPCode devices totpCode else verifyLoginBackupCode user backupCode.

(** ** Removing a device *)

Record TOTPUnbindReq : Type := mkUnbind { DeviceID : string; UnbindTOTPCode : string; UnbindBackupCode : string }.

Definition countTOTPUnbindVerificationMethods (req : TOTPUnbindReq) : nat :=
  (if (TrimSpace (UnbindTOTPCode req) =? "")%string then 0 else 1) + (if (TrimSpace (UnbindBackupCode req) =? "")%string then 0 else 1).

Definition validateTOTPCodeForDevices (user code : string) (devices : list TOTPDevice) : prog_ unit :=
  if (TrimSpace code =? "")%string then Ret (Err CodeInvalid)
  else
    found <- findLoginTOTPDeviceByCode devices code;;
    match found with Some _ => markTOTPCodeUsed user code | None => Ret (Err CodeInvalid) end.

Definition verifyTOTPUnbindFreshAuth (user : string) (req : TOTPUnbindReq) (devices : list TOTPDevice) (now : Z) : prog_ unit :=
  if negb (TrimSpace (UnbindTOTPCode req) =? "")%string then validateTOTPCodeForDevices user (UnbindTOTPCode req) devices
  else if negb (TrimSpace (UnbindBackupCode req) =? "")%string then consumeTOTPBackupCodeInTx user (UnbindBackupCode req) now
  else Ret (Err VerificationInvalid).

Definition findTOTPUnbindDevice (devices : list TOTPDevice) (device_id : string) : option TOTPDevice :=
  List.find (fun d => ID d =? TrimSpace device_id)%string devices.

Definition countRemainingTOTPDevices (devices : list TOTPDevice) (removed : string) : nat :=
  length (filter (fun d => ID d <> removed) devices).

(** The error of a proof, to the client. *)
Definition unbindRefusal (e : error) : error :=
  match e with
  | CodeInvalid | CodeReplayed | BackupCodeInvalid => Refused 401 "invalid verification"
  | _ => Refused 500 "failed to verify fresh authentication"
  end.

(** The closure of the transaction, with [proofAccepted]. *)
Definition unbind_in_tx (user : string) (req : TOTPUnbindReq) : prog (bool * outcome nat) :=
  Ask (ListDevices true user true) (fun r =>
    match r with
    | None => Ret (false, Err (Refused 500 "failed to list active TOTP devices"))
    | Some devices =>
        Now (fun now =>
        verified <- verifyTOTPUnbindFreshAuth user req devices now;;
        match verified with
        | Err e => Ret (false, Err (unbindRefusal e))
        | Ok _ =>
            match findTOTPUnbindDevice devices (DeviceID req) with
            | None => Ret (true, Err (Refused 404 "device not found or already unbound"))
            | Some device =>
                Ask (DeleteDevices [device]) (fun w =>
                  Ret (true, match w with
                             | Written => Ok (countRemainingTOTPDevices devices (ID device))
                             | RecordNotFound => Err (Refused 404 "device not found or already unbound")
                             | WriteFailed => Err (Refused 500 "failed to unbind device")
                             end))
            end
        end)
    end).

Definition Unbind (user : string) (req : TOTPUnbindReq) : prog_ nat :=
  if (user =? "")%string then Ret (Err (Refused 401 "authentication required"))
  else if (TrimSpace (DeviceID req) =? "")%string then Ret (Err (Refused 400 "device_id is required"))
  else if (countTOTPUnbindVerificationMethods req =? 0)%nat then Ret (Err (Refused 400 "fresh authentication required"))
  else if negb (countTOTPUnbindVerificationMethods req =? 1)%nat then Ret (Err (Refused 400 "provide exactly one verification method"))
  else
    get _ <- on_error (fun e => match e with
                                | VerificationLocked => Refused 429 "too many failed verification attempts"
                                | _ => Refused 500 "failed to verify fresh authentication"
                                end)
               (reserveTOTPVerificationAttempt totpVerificationUnbind user);;
    done <- Transaction false (unbind_in_tx user req);;
    let '(proofAccepted, rsp) := done in
    (if proofAccepted : bool then clearTOTPVerificationFailures user [totpVerificationUnbind] else Ret tt);;
    Ret rsp.

(** ** The administrator's reset *)

(** What the installed authorizer answers: [None] lets the caller on. *)
Definition ensureCanAdministerMFA (target : string) : prog_ unit :=
  Ask (EnsureCanAdminister target) (fun r =>
    Ret (match r with
         | None => Ok tt
         | Some (Sessions.Refused status message) => Err (Refused status message)
         | Some _ => Err (Refused 500 "administrative authorization failed")
         end)).

(** The closure of the transaction, with [removed]. *)
Definition reset_in_tx (target : string) : prog (nat * outcome unit) :=
  Ask (ListDevices true target false) (fun r =>
    match r with
    | None => Ret (0%nat, Err (Refused 500 "failed to list TOTP devices"))
    | Some devices =>
        if bool_decide (devices = []) then Ret (0%nat, Ok tt)
        else
          Ask (DeleteDevices devices) (fun w =>
            Ret (match w with
                 | Written => (length devices, Ok tt)
                 | _ => (0%nat, Err (Refused 500 "failed to reset TOTP devices"))
                 end))
    end).

Definition AdminReset (id : string) : prog_ nat :=
  let target := TrimSpace id in
  if (target =? "")%string then Ret (Err (Refused 400 "user id is required"))
  else
    get _ <- ensureCanAdministerMFA target;;
    done <- Transaction 0%nat (reset_in_tx target);;
    match done with
    | (_, Err e) => Ret (Err e)
    | (removed, Ok _) =>
        clearTOTPVerificationFailures target [totpVerificationLogin; totpVerificationUnbind];; Ret (Ok removed)
    end.

(** ** The status of an account *)

Definition TOTPDeviceInfo : Type := string * string * option Z * Z.
Definition info (d : TOTPDevice) : TOTPDeviceInfo := (ID d, DeviceName d, LastUsedAt d, CreatedAt d).
Definition TOTPStatusRsp : Type := bool * list TOTPDeviceInfo.

Definition buildTOTPStatusRsp (user : string) : prog_ TOTPStatusRsp :=
  Ask (ListDevices false user true) (fun r =>
    Ret (match r with
         | None => Err (Refused 500 "failed to retrieve device information")
         | Some devices => Ok (negb (bool_decide (devices = [])), map info devices)
         end)).

Definition Status (user : string) : prog_ TOTPStatusRsp :=
  if (user =? "")%string then Ret (Err (Refused 401 "authentication required")) else buildTOTPStatusRsp user.

Definition AdminStatus (id : string) : prog_ TOTPStatusRsp :=
  let target := TrimSpace id in
  if (target =? "")%string then Ret (Err (Refused 400 "user id is required"))
  else get _ <- ensureCanAdministerMFA target;; buildTOTPStatusRsp target.

(** ** Enrolment: the challenge *)

Record totpBindChallenge : Type := mkChallenge {
  ch_UserID : string; ch_SessionID : string; ch_Username : string; ch_Secret : string; IssuedAt : Z; ExpiresAt : Z }.

(** JSON: a challenge whose times have no text is not written; a text that is
    no challenge is not read. *)
Variable marshal : totpBindChallenge -> option string.
Variable unmarshal : string -> option totpBindChallenge.

Definition totpBindChallengeTTL : Z := 600 * second.
Definition totpBindChallengeKey (id : string) : string := "mfa:totp:bind:" +:+ TrimSpace id.

(** [base64.RawURLEncoding.EncodeToString]: six bits a character, no padding. *)
Definition base64_digit (n : N) : ascii :=
  default "A"%char (String.get (N.to_nat (n mod 64)) "ABCDEFGHIJKLMNOPQRSTUVWXYZabcdefghijklmnopqrstuvwxyz0123456789-_").
Definition base64_digits (n : N) : string :=
  String (base64_digit (n / 262144)) (String (base64_digit (n / 4096)) (String (base64_digit (n / 64)) (String (base64_digit n) EmptyString))).
Fixpoint RawURLEncoding (bytes : list Byte.byte) : string :=
  match bytes with
  | [] => EmptyString
  | [a] => String.substring 0 2 (base64_digits (Byte.to_N a * 65536))
  | [a; b] => String.substring 0 3 (base64_digits (Byte.to_N a * 65536 + Byte.to_N b * 256))
  | a :: b :: c :: bytes => base64_digits (Byte.to_N a * 65536 + Byte.to_N b * 256 + Byte.to_N c) +:+ RawURLEncoding bytes
  end.

(** [None] when the source of randomness fails. *)
Definition newTOTPBindChallengeID (random : option (nat -> Byte.byte)) : option string :=
  (fun byte => RawURLEncoding (map byte (seq 0 32))) <$> random.

Definition blank (s : string) : bool := (TrimSpace s =? "")%string.

Definition issueTOTPBindChallenge (random : option (nat -> Byte.byte)) (c : totpBindChallenge) : prog_ string :=
  if blank (ch_UserID c) || blank (ch_SessionID c) || blank (ch_Username c) || blank (ch_Secret c) then Ret (Err ChallengeInvalid)
  else
    match newTOTPBindChallengeID random with
    | None => Ret (Err Failed)
    | Some id =>
        Now (fun now =>
        match marshal (mkChallenge (TrimSpace (ch_UserID c)) (TrimSpace (ch_SessionID c)) (TrimSpace (ch_Username c)) (TrimSpace (ch_Secret c))
                         now (now + totpBindChallengeTTL)) with
        | None => Ret (Err Failed)
        | Some data =>
            if (data =? "")%string then Ret (Err Failed)
            else Call (Set_ (totpBindChallengeKey id) data totpBindChallengeTTL) (fun r => Ret (match r with Some _ => Ok id | None => Err Failed end))
        end)
    end.

(** The cache drops an entry it cannot read. *)
Definition loadTOTPBindChallenge (id : string) : prog_ totpBindChallenge :=
  let id := TrimSpace id in
  if (id =? "")%string then Ret (Err ChallengeNotFound)
  else
    Call (Get (totpBindChallengeKey id)) (fun r =>
      match r with
      | None => Ret (Err Failed)
      | Some None => Ret (Err ChallengeNotFound)
      | Some (Some data) =>
          if (data =? "")%string then Ret (Err ChallengeNotFound)
          else
            match unmarshal data with
            | None => Call (Del [totpBindChallengeKey id]) (fun _ => Ret (Err ChallengeNotFound))
            | Some c =>
                if blank (ch_UserID c) || blank (ch_SessionID c) || blank (ch_Secret c) then Ret (Err ChallengeInvalid)
                else if ExpiresAt c =? zero_time then Ret (Ok c)
                else
                  Now (fun now =>
                  if negb (now <? ExpiresAt c) then Call (Del [totpBindChallengeKey id]) (fun _ => Ret (Err ChallengeExpired))
                  else Ret (Ok c))
            end
      end).

Definition consumeTOTPBindChallenge (id : string) : prog_ unit :=
  let id := TrimSpace id in
  if (id =? "")%string then Ret (Err ChallengeNotFound)
  else Call (Del [totpBindChallengeKey id]) (fun r => Ret (match r with Some _ => Ok tt | None => Err Failed end)).

Definition currentTOTPBindSessionID (session : string) : outcome string :=
  if blank session then Err (Refused 401 "authentication required") else Ok (TrimSpace session).

(** ** Enrolment: the two steps *)

(** What [totp.Generate] makes, an URL with its secret; the image of a QR
    code; and the source of randomness. *)
Definition Bind_ (user username session : string) (key : option (string * string)) (image : string -> option string)
    (random : option (nat -> Byte.byte)) : prog_ (string * string * string) :=
  if (user =? "")%string || (username =? "")%string then Ret (Err (Refused 401 "authentication required"))
  else
    match currentTOTPBindSessionID session, key with
    | Err e, _ => Ret (Err e)
    | _, None => Ret (Err (Refused 500 "failed to generate TOTP key"))
    | Ok session, Some (url, secret) =>
        match image url with
        | None => Ret (Err (Refused 500 "failed to generate QR code image"))
        | Some qr =>
            get id <- on_error (fun _ => Refused 500 "failed to issue TOTP binding challenge")
                        (issueTOTPBindChallenge random (mkChallenge user session username secret zero_time zero_time));;
            Ret (Ok (id, url, qr))
        end
    end.

Record TOTPConfirmReq : Type := mkConfirm { ChallengeID : string; Code : string; ConfirmDeviceName : string }.

Definition challengeRefusal (e : error) : error :=
  match e with
  | ChallengeNotFound | ChallengeExpired | ChallengeInvalid => Refused 400 "invalid or expired TOTP binding challenge"
  | _ => Refused 500 "failed to load TOTP binding challenge"
  end.

(** The id of the device and the codes that are shown once; the creation time
    of a row is the framework's to set. *)
Definition Confirm (user session : string) (req : TOTPConfirmReq) (random : nat -> nat -> option nat) : prog_ (string * list string) :=
  if (user =? "")%string then Ret (Err (Refused 401 "authentication required"))
  else
    match currentTOTPBindSessionID session with
    | Err e => Ret (Err e)
    | Ok session =>
        get challenge <- on_error challengeRefusal (loadTOTPBindChallenge (ChallengeID req));;
        if negb (ch_UserID challenge =? user)%string || negb (ch_SessionID challenge =? session)%string then
          Ret (Err (Refused 400 "invalid or expired TOTP binding challenge"))
        else
          Ask (Validate (Code req) (ch_Secret challenge)) (fun valid : bool =>
          if negb valid then Ret (Err (Refused 400 "invalid TOTP code"))
          else
            get _ <- on_error (fun e => match e with CodeReplayed => Refused 400 "invalid TOTP code" | _ => Refused 500 "failed to confirm TOTP binding" end)
                       (markTOTPCodeUsed user (Code req));;
            get _ <- on_error (fun _ => Refused 500 "failed to consume TOTP binding challenge") (consumeTOTPBindChallenge (ChallengeID req));;
            match GenerateTOTPBackupCodes random with
            | None => Ret (Err (Refused 500 "failed to generate backup codes"))
            | Some codes =>
                match HashTOTPBackupCodes (ch_Secret challenge) codes with
                | None => Ret (Err (Refused 500 "failed to hash backup codes"))
                | Some hashes =>
                    Now (fun now =>
                    Ask (CreateDevice (mkDevice "" user (ConfirmDeviceName req) (ch_Secret challenge) hashes true (Some now) zero_time)) (fun created =>
                      Ret (match created with
                           | Some id => Ok (id, codes)
                           | None => Err (Refused 500 "failed to save device")
                           end)))
                end
            end)
    end.
End Services.
