(* ===== verification/SecondFactorSystem.v ===== *)
(** * Requests on the second factor, served at once

    The world the services of [SecondFactor] run in: Redis as [Redis.Documented]
    has it, and a table of devices with transactions.  A transaction sees its
    own changes, holds the rows it listed with a lock or wrote until it ends,
    and has its changes taken over as a whole when it commits; others wait for
    the rows it holds, which is what FOR UPDATE and the single writer of SQLite
    are documented to do.  Any command, statement or answer may be lost and any
    request may die at any step.

    Each step is recorded: what a request did is read off the record. *)

From stdpp Require Import base list gmap strings.
From Stdlib Require Import ZArith Strings.Byte.
From S2P Require Import Prelude GoStrings Redis SecondFactor.
Local Open Scope Z_scope.

(** ** The table of devices *)

(** The rows a transaction holds, as they are for everyone else, and its
    changes; [None] removes a row. *)
Record tx : Type := mkTx { held : gmap string TOTPDevice; changes : gmap string (option TOTPDevice) }.

Record database : Type := mkDatabase { rows : gmap string TOTPDevice; txs : gmap nat tx }.

Definition with_columns (columns : list column) (x d : TOTPDevice) : TOTPDevice :=
  mkDevice (ID d) (UserID d) (DeviceName d) (Secret d)
    (if bool_decide (colTOTPDeviceBackupCodeHashes ∈ columns) then BackupCodeHashes x else BackupCodeHashes d) (IsActive d)
    (if bool_decide (colTOTPDeviceLastUsedAt ∈ columns) then LastUsedAt x else LastUsedAt d) (CreatedAt d).

(** The conditions gorm makes of a query model: a field that is zero is no
    condition. *)
Definition selected (user : string) (active_only : bool) (d : TOTPDevice) : Prop :=
  (user = ""%string \/ UserID d = user) /\ (active_only = true -> IsActive d = true).

(** A row as request [i] sees it. *)
Definition sees (db : database) (i : nat) (id : string) : option TOTPDevice :=
  match txs db !! i ≫= (fun t => changes t !! id) with Some d => d | None => rows db !! id end.

Definition free (db : database) (i : nat) (id : string) : Prop :=
  forall j t, txs db !! j = Some t -> is_Some (held t !! id) -> j = i.

Definition set_tx (i : nat) (t : tx) (db : database) : database := mkDatabase (rows db) (<[i := t]> (txs db)).

(** A row as it is for everyone: what a transaction holds of it. *)
Definition hold (db : database) (id : string) (t : tx) : tx :=
  match held t !! id, rows db !! id with
  | None, Some d => mkTx (<[id := d]> (held t)) (changes t)
  | _, _ => t
  end.

Definition put (i : nat) (id : string) (d : option TOTPDevice) (db : database) : database :=
  match txs db !! i with
  | Some t => let t := hold db id t in set_tx i (mkTx (held t) (<[id := d]> (changes t))) db
  | None => mkDatabase (partial_alter (fun _ => d) id (rows db)) (txs db)
  end.

Definition over (changes : gmap string (option TOTPDevice)) (rows : gmap string TOTPDevice) : gmap string TOTPDevice :=
  merge (fun (c : option (option TOTPDevice)) d => match c with Some c => c | None => d end) changes rows.

Definition closed (i : nat) (db : database) : database := mkDatabase (rows db) (delete i (txs db)).
Definition committed (i : nat) (t : tx) (db : database) : database := mkDatabase (over (changes t) (rows db)) (delete i (txs db)).

Definition fresh (db : database) (id : string) : Prop := rows db !! id = None /\ forall j t, txs db !! j = Some t -> changes t !! id = None.

(** The statements, with what they answer.  A failed one may have taken
    effect where no transaction is open; where one is, its error ends it. *)
Section Statements.
Variable totp_Validate : string -> string -> Z -> bool.

Definition runs {R : Set} (now : Z) (i : nat) (q : statement R) : R -> database -> database -> Prop :=
  match q in statement R return R -> database -> database -> Prop with
  | Begin => fun ok db db' =>
      if ok : bool then txs db !! i = None /\ db' = set_tx i (mkTx ∅ ∅) db else db' = db
  | Commit => fun ok db db' =>
      match txs db !! i with
      | Some t => db' = committed i t db \/ (ok = false /\ db' = closed i db)
      | None => ok = false /\ db' = db
      end
  | Rollback => fun _ db db' => db' = closed i db
  | ListDevices lock user active_only => fun answer db db' =>
      match answer with
      | None => db' = db
      | Some l =>
          (forall d, d ∈ l <-> exists id, sees db i id = Some d /\ selected user active_only d) /\
          if lock : bool then
            exists t, txs db !! i = Some t /\ (forall d, d ∈ l -> free db i (ID d)) /\
              db' = set_tx i (foldr (fun d => hold db (ID d)) t l) db
          else db' = db
      end
  | UpdateDevice columns x => fun answer db db' =>
      let effect := exists d, sees db i (ID x) = Some d /\ free db i (ID x) /\ db' = put i (ID x) (Some (with_columns columns x d)) db in
      match answer with
      | Written => effect
      | RecordNotFound => db' = db
      | WriteFailed => db' = db \/ (txs db !! i = None /\ effect)
      end
  | DeleteDevices l => fun answer db db' =>
      let effect := (forall d, d ∈ l -> is_Some (sees db i (ID d)) /\ free db i (ID d)) /\
                    db' = foldr (fun d => put i (ID d) None) db l in
      match answer with
      | Written => effect
      | RecordNotFound => db' = db
      | WriteFailed => db' = db \/ (txs db !! i = None /\ effect)
      end
  | CreateDevice x => fun answer db db' =>
      let effect id created := fresh db id /\ txs db !! i = None /\
        (forall id' d, rows db !! id' = Some d -> ~ (UserID d = UserID x /\ Secret d = Secret x)) /\
        db' = mkDatabase (<[id := mkDevice id (UserID x) (DeviceName x) (Secret x) (BackupCodeHashes x) (IsActive x) (LastUsedAt x) created]>
                            (rows db)) (txs db) in
      match answer with
      | Some id => exists created, effect id created
      | None => db' = db \/ exists id created, effect id created
      end
  | Validate code secret => fun answer db db' => answer = totp_Validate code secret now /\ db' = db
  | EnsureCanAdminister _ => fun _ db db' => db' = db
  end.
End Statements.

(** ** What is recorded *)

Inductive action : Type :=
| Counted (key : string) (count : Z)      (** an attempt was counted, and its count answered *)
| Marked (key : string)                   (** the key of a code was new *)
| Dropped (keys : list string)            (** keys were deleted *)
| Began
| Saw (l : list TOTPDevice)               (** the devices listed without a lock *)
| Held (l : list TOTPDevice)              (** with one *)
| Updated (columns : list column) (x : TOTPDevice) (answer : written)
| Erased (l : list TOTPDevice) (answer : written)
| Creates (x : TOTPDevice)
| Accepted (code secret : string)
| Permitted (target : string)
| Ended (ok : bool) (t : option tx).      (** a commit, with its transaction *)

Definition recorded_command {R : Set} (c : cmd R) (executed : bool) : option R -> list action :=
  match c in cmd R return option R -> list action with
  | IncrFixedWindow k _ => fun got => match got with Some n => [Counted k n] | None => [] end
  | SetNX k _ _ => fun got => match got with Some true => [Marked k] | _ => [] end
  | Del ks => fun _ => if executed then [Dropped ks] else []
  | _ => fun _ => []
  end.

Definition recorded {R : Set} (t : option tx) (q : statement R) : R -> list action :=
  match q in statement R return R -> list action with
  | Begin => fun ok => if ok : bool then [Began] else []
  | Commit => fun ok => [Ended ok t]
  | Rollback => fun _ => [Ended false t]
  | ListDevices lock _ _ => fun answer => match answer with Some l => [if lock : bool then Held l else Saw l] | None => [] end
  | UpdateDevice columns x => fun answer => [Updated columns x answer]
  | DeleteDevices l => fun answer => [Erased l answer]
  | CreateDevice x => fun _ => [Creates x]
  | Validate code secret => fun answer => if answer : bool then [Accepted code secret] else []
  | EnsureCanAdminister target => fun answer => match answer with None => [Permitted target] | Some _ => [] end
  end.

Record entry : Type := mkEntry { owner : nat; at_ : Z; did : action }.

(** What request [i] did, in order. *)
Definition own (i : nat) (trail : list entry) : list action :=
  map did (filter (fun e => owner e = i) trail).

(** ** The requests *)

Inductive request : Type :=
| LoginRequest (user : string) (factor : LoginSecondFactor)
| UnbindRequest (user : string) (req : TOTPUnbindReq)
| BindRequest (user username session : string) (key : option (string * string)) (image : string -> option string)
    (random : option (nat -> Byte.byte))
| ConfirmRequest (user session : string) (req : TOTPConfirmReq) (random : nat -> nat -> option nat)
| ResetRequest (target : string)
| StatusRequest (user : string)
| AdminStatusRequest (target : string).

(** [None] for success, or the error. *)
Definition answered_as {A} (r : outcome A) : option error := match r with Ok _ => None | Err e => Some e end.

Section Runs.
Context {S : Type} `{Server S}.
Variable totp_Validate : string -> string -> Z -> bool.
Variable hmac_sha256 : string -> string -> list Byte.byte.
Variable marshal : totpBindChallenge -> option string.
Variable unmarshal : string -> option totpBindChallenge.

Local Open Scope prog_scope.
Definition body (r : request) : prog (option error) :=
  match r with
  | LoginRequest user factor => a <- LoginSecondFactorVerifier hmac_sha256 user factor;; Ret (answered_as a)
  | UnbindRequest user req => a <- Unbind hmac_sha256 user req;; Ret (answered_as a)
  | BindRequest user username session key image random => a <- Bind_ marshal user username session key image random;; Ret (answered_as a)
  | ConfirmRequest user session req random => a <- Confirm hmac_sha256 unmarshal user session req random;; Ret (answered_as a)
  | ResetRequest target => a <- AdminReset target;; Ret (answered_as a)
  | StatusRequest user => a <- Status user;; Ret (answered_as a)
  | AdminStatusRequest target => a <- AdminStatus target;; Ret (answered_as a)
  end.

Record thread : Type := mkThread { serves : request; began : Z; rest : prog (option error) }.
Record event : Type := mkEvent { by_ : nat; asked : request; begun_at : Z; answered : option error; answered_at : Z }.
(** [requests]: those begun so far; a request goes by its place among them. *)
Record state : Type := mkState {
  this : world S; data : database; threads : gmap nat thread; requests : list request; trail : list entry; events : list event }.

Definition note (i : nat) (s : state) (l : list action) : list entry := trail s ++ map (mkEntry i (clock (this s))) l.

(** The keys of the second factor, which nothing else writes. *)
Definition reserved (k : string) : Prop := exists s, k = "mfa:totp:" +:+ s.

(** A step of request [i], whose program is [p]. *)
Inductive advance (s : state) (i : nat) : prog (option error) -> world S -> database -> list action -> prog (option error) -> Prop :=
| advance_now k : advance s i (Now k) (this s) (data s) [] (k (clock (this s)))
| advance_executed (R : Set) (c : cmd R) k got : got = answer c (this s) \/ got = None ->
    advance s i (Call c k) (after c (this s)) (data s) (recorded_command c true got) (k got)
| advance_refused (R : Set) (c : cmd R) k : advance s i (Call c k) (this s) (data s) [] (k None)
| advance_statement (R : Set) (q : statement R) k r db : runs totp_Validate (clock (this s)) i q r (data s) db ->
    advance s i (Ask q k) (this s) db (recorded (txs (data s) !! i) q r) (k r).

Inductive step (s : state) : state -> Prop :=
| step_tick t : clock (this s) <= t ->
    step s (mkState (tick t (this s)) (data s) (threads s) (requests s) (trail s) (events s))
| step_elsewhere w : clock w = clock (this s) -> (forall k, reserved k -> stored w !! k = stored (this s) !! k) ->
    step s (mkState w (data s) (threads s) (requests s) (trail s) (events s))
| step_start r :
    step s (mkState (this s) (data s) (<[length (requests s) := mkThread r (clock (this s)) (body r)]> (threads s)) (requests s ++ [r]) (trail s) (events s))
| step_advance i th w db l p : threads s !! i = Some th -> advance s i (rest th) w db l p ->
    step s (mkState w db (<[i := mkThread (serves th) (began th) p]> (threads s)) (requests s) (note i s l) (events s))
| step_finish i th a : threads s !! i = Some th -> rest th = Ret a ->
    step s (mkState (this s) (data s) (delete i (threads s)) (requests s) (trail s)
              (events s ++ [mkEvent i (serves th) (began th) a (clock (this s))]))
| step_crash i :
    step s (mkState (this s) (closed i (data s)) (delete i (threads s)) (requests s) (trail s) (events s)).

Definition start (w : world S) (rows : gmap string TOTPDevice) : state := mkState w (mkDatabase rows ∅) ∅ [] [] [].
End Runs.
Arguments state : clear implicits.
Arguments own : simpl never.
Arguments note : simpl never.
