(* ===== verification/SecondFactorRequests.v ===== *)
(** * What a request on the second factor does

    A request is followed along the record of what it did: [always] says that
    a program, whatever it is answered, sends only such commands, records
    nothing but what [Inv] allows and ends where [Q] holds.  Each request is
    shown to change rows within the transaction that holds them, to forget
    counted attempts only where that is justified, and to answer as its record
    shows. *)

From stdpp Require Import base list gmap strings.
From Stdlib Require Import ZArith Lia Strings.Byte.
From S2P Require Import Prelude GoStrings Redis RedisSafe SecondFactor SecondFactorSystem.
Local Open Scope Z_scope.

(** ** Transactions, by their record *)

Definition hold_listed (d : TOTPDevice) (t : tx) : tx :=
  match held t !! ID d with None => mkTx (<[ID d := d]> (held t)) (changes t) | Some _ => t end.

Definition after_action (o : option tx) (a : action) : option tx :=
  match a, o with
  | Began, _ => Some (mkTx ∅ ∅)
  | Held l, Some t => Some (foldr hold_listed t l)
  | Updated columns x Written, Some t =>
      Some (match held t !! ID x with Some d => mkTx (held t) (<[ID x := Some (with_columns columns x d)]> (changes t)) | None => t end)
  | Erased l Written, Some t => Some (mkTx (held t) (foldr (fun d => insert (ID d) None) (changes t) l))
  | Ended _ _, _ => None
  | _, _ => o
  end.

Definition replay (l : list action) : option tx := fold_left after_action l None.

Lemma replay_snoc l a : replay (l ++ [a]) = after_action (replay l) a.
Proof. unfold replay. by rewrite fold_left_app. Qed.

Lemma held_foldr l t id : changes (foldr hold_listed t l) = changes t /\
  (forall d, held t !! id = Some d -> held (foldr hold_listed t l) !! id = Some d).
Proof.
  induction l as [|d l [IH1 IH2]]; cbn; [done|]. unfold hold_listed at 1 3. destruct (held _ !! ID d) eqn:E; [done|]. cbn. split; [done|].
  intros d' H. apply IH2 in H. rewrite lookup_insert_ne; [done|]. congruence.
Qed.

Lemma erased_lookup (l : list TOTPDevice) (m : gmap string (option TOTPDevice)) id :
  foldr (fun d => insert (ID d) None) m l !! id = if bool_decide (id ∈ map ID l) then Some None else m !! id.
Proof.
  induction l as [|d l IH]; cbn [foldr map]; [by rewrite bool_decide_false by apply not_elem_of_nil|].
  destruct (decide (ID d = id)) as [->|Hn]; [rewrite lookup_insert_eq, bool_decide_true by constructor; done|].
  rewrite lookup_insert_ne, IH by done. by rewrite (bool_decide_ext (id ∈ ID d :: map ID l) (id ∈ map ID l)) by set_solver.
Qed.

(** The weight of a row, and of what a change makes of it. *)
Section Discipline.
Variable weight : TOTPDevice -> nat.

Definition weight_of (d : option TOTPDevice) : nat := match d with Some d => weight d | None => 0 end.

(** What may follow: a transaction changes rows it holds, and no change makes
    a row weigh more; outside of one no recovery code is written. *)
Definition may_do (o : option tx) (a : action) : Prop :=
  match a with
  | Began | Creates _ => o = None
  | Held _ => exists t, o = Some t /\ changes t = ∅
  | Updated columns x _ =>
      match o with
      | None => colTOTPDeviceBackupCodeHashes ∉ columns
      | Some t => changes t = ∅ /\ exists d, held t !! ID x = Some d /\ (weight (with_columns columns x d) <= weight d)%nat
      end
  | Erased l _ => exists t, o = Some t /\ forall d, d ∈ l -> is_Some (held t !! ID d)
  | Ended _ t => t = o
  | _ => True
  end.

Fixpoint orderly_from (o : option tx) (l : list action) : Prop :=
  match l with [] => True | a :: l => may_do o a /\ orderly_from (after_action o a) l end.
Definition orderly (l : list action) : Prop := orderly_from None l.

Lemma orderly_snoc l a : orderly (l ++ [a]) <-> orderly l /\ may_do (replay l) a.
Proof.
  unfold orderly, replay. generalize (@None tx). induction l as [|b l IH]; intros o; cbn; [tauto|]. rewrite IH. tauto.
Qed.

(** A transaction holds what it changes and makes no row weigh more. *)
Definition tame (t : tx) : Prop :=
  forall id d, changes t !! id = Some d -> exists h, held t !! id = Some h /\ (weight_of d <= weight h)%nat.

Lemma tame_after o a t : may_do o a -> (forall t', o = Some t' -> tame t') -> after_action o a = Some t -> tame t.
Proof.
  intros Ha Ho. destruct a; cbn in *; try (destruct o as [t'|]; [intros E; apply Ho; exact E|done]); try done.
  - by intros [= <-].
  - destruct Ha as (t0 & -> & _). intros [= <-] id d. destruct (held_foldr l t0 id) as [-> Hh]. intros Hc.
    destruct (Ho _ eq_refl id d Hc) as (h & H1 & H2). eauto.
  - destruct o as [t0|]; [|by destruct answer]. destruct Ha as (_ & h & Hh & Hw). destruct answer; intros [= <-]; try by apply Ho.
    rewrite Hh. intros id d. cbn. destruct (decide (ID x = id)) as [<-|Hn]; [rewrite lookup_insert_eq; intros [= <-]; eauto|].
    rewrite lookup_insert_ne by done. by apply Ho.
  - destruct Ha as (t0 & -> & Hl). destruct answer; intros [= <-]; try by apply Ho. intros id d. cbn. rewrite erased_lookup.
    case_bool_decide as Hid; [|by apply Ho]. intros [= <-]. apply list_elem_of_fmap in Hid as (x & -> & Hx). destruct (Hl x Hx) as [h Hh].
    exists h. split; [done|]. cbn. lia.
Qed.

Lemma tame_replay l t : orderly l -> replay l = Some t -> tame t.
Proof.
  revert t. induction l as [|a l IH] using rev_ind; intros t; [done|]. rewrite orderly_snoc, replay_snoc. intros [Ho Ha].
  apply (tame_after _ _ _ Ha). intros t' E. by apply IH.
Qed.

(** What a commit takes: one, where some row comes to weigh less. *)
Definition gain (t : tx) : nat :=
  if bool_decide (map_Exists (fun id d => match held t !! id with Some h => weight_of d <? weight h | None => false end = true)%nat (changes t)) then 1 else 0.

Lemma gain_at t id d h : changes t !! id = Some d -> held t !! id = Some h -> (weight_of d < weight h)%nat -> gain t = 1%nat.
Proof.
  intros Hd Hh Hw. unfold gain. rewrite bool_decide_true; [done|]. exists id, d. split; [done|]. rewrite Hh. by apply Nat.ltb_lt.
Qed.

(** ** The weight of a table *)

Definition stock (m : gmap string TOTPDevice) : nat := map_fold (fun _ d n => weight d + n)%nat 0%nat m.

Lemma stock_insert m id d : m !! id = None -> stock (<[id := d]> m) = (weight d + stock m)%nat.
Proof. intros H. unfold stock. rewrite map_fold_insert_L; [done| |done]. intros. lia. Qed.

Lemma stock_delete m id : stock m = (weight_of (m !! id) + stock (delete id m))%nat.
Proof.
  destruct (m !! id) as [d|] eqn:E; [|by rewrite delete_id]. rewrite <- (insert_delete_id m id d E) at 1.
  by rewrite stock_insert by apply lookup_delete_eq.
Qed.

Lemma stock_mono m m' : (forall id, (weight_of (m' !! id) <= weight_of (m !! id))%nat) -> (stock m' <= stock m)%nat.
Proof.
  revert m. induction m' as [|id d m' Hid IH] using map_ind; intros m H.
  - unfold stock at 1. rewrite map_fold_empty. lia.
  - rewrite stock_insert, (stock_delete m id) by done. pose proof (H id) as Hd. rewrite lookup_insert_eq in Hd. cbn in Hd.
    enough (stock m' <= stock (delete id m))%nat by lia. apply IH. intros id'. destruct (decide (id = id')) as [<-|Hn].
    + rewrite Hid. cbn. lia.
    + specialize (H id'). rewrite lookup_insert_ne in H by done. by rewrite lookup_delete_ne by done.
Qed.

Lemma stock_less m m' id : (forall id, (weight_of (m' !! id) <= weight_of (m !! id))%nat) ->
  (weight_of (m' !! id) < weight_of (m !! id))%nat -> (stock m' + 1 <= stock m)%nat.
Proof.
  intros H Hid. rewrite (stock_delete m id), (stock_delete m' id).
  enough (stock (delete id m') <= stock (delete id m))%nat by lia. apply stock_mono. intros id'. destruct (decide (id = id')) as [<-|Hn].
  - rewrite !lookup_delete_eq. done.
  - by rewrite !lookup_delete_ne by done.
Qed.

Lemma over_lookup c m id : over c m !! id = match c !! id with Some d => d | None => m !! id end.
Proof. unfold over. rewrite lookup_merge. by destruct (c !! id), (m !! id). Qed.

Lemma stock_commit t m : tame t -> (forall id d, held t !! id = Some d -> m !! id = Some d) -> (stock (over (changes t) m) + gain t <= stock m)%nat.
Proof.
  intros Ht Hm. assert (forall id, (weight_of (over (changes t) m !! id) <= weight_of (m !! id))%nat) as Hle.
  { intros id. rewrite over_lookup. destruct (changes t !! id) as [d|] eqn:E; [|done]. destruct (Ht _ _ E) as (h & Hh & Hw).
    by rewrite (Hm _ _ Hh). }
  unfold gain. case_bool_decide as He; [|rewrite Nat.add_0_r; by apply stock_mono]. destruct He as (id & d & Hd & Hh).
  destruct (held t !! id) as [h|] eqn:E; [|done]. apply Nat.ltb_lt in Hh. apply (stock_less _ _ id); [done|].
  by rewrite over_lookup, Hd, (Hm _ _ E).
Qed.
End Discipline.

(** ** Programs, by what they record *)

(** What a listing answers. *)
Definition fits {R : Set} (o : option tx) (q : statement R) : R -> Prop :=
  match q in statement R return R -> Prop with
  | Begin => fun ok => ok = true -> o = None
  | ListDevices lock user active_only => fun answer =>
      match answer with
      | None => True
      | Some l =>
          (forall d, d ∈ l -> selected user active_only d) /\ (forall d d', d ∈ l -> d' ∈ l -> ID d = ID d' -> d = d') /\
          (lock = true -> exists t, o = Some t /\ (changes t = ∅ -> forall d h, d ∈ l -> held t !! ID d = Some h -> h = d))
      end
  | _ => fun _ => True
  end.

Section Always.
Variable sends : forall R : Set, cmd R -> Prop.
Variable Inv : list action -> Prop.

(** [always p l Q]: run after [l] was recorded, [p] sends only such commands,
    every record on the way is allowed, and it ends where [Q] holds. *)
Fixpoint always {A} (p : prog A) (l : list action) (Q : list action -> A -> Prop) : Prop :=
  Inv l /\
  match p with
  | Ret a => Q l a
  | Now k => forall t, always (k t) l Q
  | Call c k => sends _ c /\ always (k None) l Q /\ forall got, always (k got) (l ++ recorded_command c true got) Q
  | Ask q k => forall r, fits (replay l) q r -> always (k r) (l ++ recorded (replay l) q r) Q
  end.

Lemma always_Inv {A} (p : prog A) l Q : always p l Q -> Inv l.
Proof. destruct p; cbn; by intros [? _]. Qed.

Lemma always_bind {A B} (p : prog A) (k : A -> prog B) l Q : always p l (fun l a => always (k a) l Q) -> always (bind p k) l Q.
Proof.
  revert l. induction p as [a|k' IH|R c k' IH|R q k' IH]; intros l; cbn.
  - by intros [_ H].
  - intros [Hi H]. split; [done|]. intros t. by apply IH.
  - intros (Hi & Hs & Hn & H). split; [done|]. split; [done|]. split; [by apply IH|]. intros got. by apply IH.
  - intros [Hi H]. split; [done|]. intros r Hr. by apply IH, H.
Qed.

Lemma always_mono {A} (p : prog A) l (Q Q' : list action -> A -> Prop) :
  (forall l a, Inv l -> Q l a -> Q' l a) -> always p l Q -> always p l Q'.
Proof.
  intros HQ. revert l. induction p as [a|k IH|R c k IH|R q k IH]; intros l; cbn.
  - intros [? H]. auto.
  - intros [Hi H]. auto.
  - intros (Hi & Hs & Hn & H). auto 10.
  - intros [Hi H]. auto.
Qed.
End Always.

(** A step of a service that may fail, and one whose error is renamed. *)
Lemma always_try {A B} sends Inv (p : prog_ A) (k : A -> prog_ B) l (Q : list action -> outcome B -> Prop) :
  always sends Inv p l (fun l r => match r with Ok a => always sends Inv (k a) l Q | Err e => Q l (Err e) end) ->
  always sends Inv (try_ p k) l Q.
Proof. intros H. unfold try_. apply always_bind. eapply always_mono; [|exact H]. by intros l' [a|e] Hi H'. Qed.

Lemma always_on_error {A} sends Inv f (p : prog_ A) l (Q : list action -> outcome A -> Prop) :
  always sends Inv p l (fun l r => Q l (match r with Ok a => Ok a | Err e => Err (f e) end)) ->
  always sends Inv (on_error f p) l Q.
Proof. intros H. unfold on_error. apply always_bind. eapply always_mono; [|exact H]. intros l' a Hi H'. by split. Qed.

(** A transaction: its closure runs in an open one. *)
Lemma always_Transaction {X A} sends Inv (x : X) (fn : prog (X * outcome A)) l (Q : list action -> X * outcome A -> Prop) :
  Inv l -> Inv (l ++ [Began]) -> Q l (x, Err Failed) -> replay l = None ->
  always sends Inv fn (l ++ [Began]) (fun l r =>
    let back := l ++ [Ended false (replay l)] in
    match snd r with
    | Err e => Inv back /\ Q back (fst r, Err e)
    | Ok a =>
        (Inv (l ++ [Ended true (replay l)]) /\ Q (l ++ [Ended true (replay l)]) (fst r, Ok a)) /\ (Inv back /\ Q back (fst r, Err Failed))
    end) ->
  always sends Inv (Transaction x fn) l Q.
Proof.
  intros Hi Hb Hf Hr H. unfold Transaction. cbn. split; [done|]. intros [] _; cbn; [|by rewrite app_nil_r].
  apply always_bind. eapply always_mono; [|exact H]. intros l' [x' [a|e]] Hi' H'; cbn.
  - destruct H' as [H1 H2]. split; [done|]. by intros [] _.
  - split; [done|]. by intros _ _.
Qed.

Lemma always_prefix {A} sends Inv (p : prog A) l Q : always sends Inv p l Q -> always sends Inv p l (fun l' a => Q l' a /\ l `prefix_of` l').
Proof.
  revert l. induction p as [a|k IH|R c k IH|R q k IH]; intros l; cbn.
  - by intros [Hi H].
  - intros [Hi H]. split; [done|]. intros t. by apply IH.
  - intros (Hi & Hs & Hn & H). split; [done|]. split; [done|]. split; [by apply IH|]. intros got.
    eapply always_mono; [|by apply IH]. intros l' a _ [HQ Hp]. split; [done|]. etrans; [|exact Hp]. by apply prefix_app_r.
  - intros [Hi H]. split; [done|]. intros r Hr. eapply always_mono; [|by apply IH, H]. intros l' a _ [HQ Hp].
    split; [done|]. etrans; [|exact Hp]. by apply prefix_app_r.
Qed.

(** What was recorded stays recorded. *)
Lemma elem_prefix (a : action) l l' : l `prefix_of` l' -> a ∈ l -> a ∈ l'.
Proof. intros [k ->] H. apply elem_of_app. by left. Qed.

(** ** Keys *)

Definition is_failure (k : string) : Prop := exists p u, k = totpVerificationFailureKey p u.
Definition is_used (k : string) : Prop := exists u c, k = usedKey u c.
Definition is_bind (k : string) : Prop := exists i, k = totpBindChallengeKey i.

(** The commands the services send. *)
Definition sends (R : Set) (c : cmd R) : Prop :=
  match c with
  | Get _ => True
  | Set_ k _ _ => is_bind k
  | SetNX k _ ttl => is_used k /\ ttl = totpCodeReplayTTL
  | IncrFixedWindow k window => is_failure k /\ window = totpVerificationAttemptWindow
  | Del ks => forall k, k ∈ ks -> is_failure k \/ is_bind k
  | _ => False
  end.

(** ** Recovery codes *)

Section Requests.
Variable hmac_sha256 : string -> string -> list Byte.byte.
Variable marshal : totpBindChallenge -> option string.
Variable unmarshal : string -> option totpBindChallenge.

Local Abbreviation digest := (hashTOTPBackupCode hmac_sha256).

(** How often the devices of a user hold a recovery code. *)
Definition stored_codes (user code : string) (d : TOTPDevice) : nat :=
  if bool_decide (user = ""%string \/ UserID d = user) then count_occ String.string_dec (BackupCodeHashes d) (digest (Secret d) code) else 0.

Lemma without_digest_count x l l' y : without_digest x l = Some l' ->
  count_occ String.string_dec l y = (count_occ String.string_dec l' y + if String.string_dec x y then 1 else 0)%nat.
Proof.
  revert l'. induction l as [|h l IH]; intros l'; cbn [without_digest]; [done|].
  destruct (String.eqb_spec x h) as [->|Hn]; [intros [= <-]; cbn; destruct (String.string_dec h y); lia|].
  destruct (without_digest x l) as [r|]; [|done]. cbn. intros [= <-]. cbn. rewrite (IH r eq_refl). destruct (String.string_dec h y), (String.string_dec x y); lia.
Qed.

Lemma consume_of_found code now l x : consume_of hmac_sha256 code now l = Some x ->
  exists d hashes, d ∈ l /\ without_digest (digest (Secret d) code) (BackupCodeHashes d) = Some hashes /\ x = used_at now hashes d.
Proof.
  induction l as [|d l IH]; cbn; [done|]. destruct (without_digest _ _) as [hashes|] eqn:E.
  - intros [= <-]. exists d, hashes. split; [constructor|done].
  - intros H. destruct (IH H) as (d' & hashes & Hd & ?). exists d', hashes. split; [by constructor|done].
Qed.

(** The row of a device whose code was taken holds no code more often, and
    that one less often. *)
Lemma stored_codes_taken user code code' now d hashes : without_digest (digest (Secret d) code') (BackupCodeHashes d) = Some hashes ->
  let d' := with_columns [colTOTPDeviceBackupCodeHashes; colTOTPDeviceLastUsedAt] (used_at now hashes d) d in
  (stored_codes user code d' <= stored_codes user code d)%nat /\
  (code' = code -> user = ""%string \/ UserID d = user -> (stored_codes user code d' < stored_codes user code d)%nat).
Proof.
  intros H d'. unfold stored_codes. replace (BackupCodeHashes d') with hashes by (subst d'; unfold with_columns; cbn; by rewrite bool_decide_true by set_solver).
  cbn. rewrite (without_digest_count _ _ _ (digest (Secret d) code) H). case_bool_decide as Hu; [|split; [lia|done]].
  split; [destruct (String.string_dec _ _); lia|]. intros -> _. destruct (String.string_dec _ _); [lia|done].
Qed.

Lemma held_listed l t : (forall d d', d ∈ l -> d' ∈ l -> ID d = ID d' -> d = d') -> (forall d h, d ∈ l -> held t !! ID d = Some h -> h = d) ->
  forall d, d ∈ l -> held (foldr hold_listed t l) !! ID d = Some d.
Proof.
  intros Hinj Ht. induction l as [|d l IH]; [set_solver|]. intros x Hx. cbn. destruct (held_foldr l t (ID x)) as [_ Hh].
  assert (forall y, y ∈ l -> held (foldr hold_listed t l) !! ID y = Some y) as IH' by (apply IH; intros; [apply Hinj|apply Ht]; by try constructor).
  unfold hold_listed at 1. apply elem_of_cons in Hx as [->|Hx].
  - destruct (held (foldr hold_listed t l) !! ID d) as [h|] eqn:E; [|by cbn; rewrite lookup_insert_eq].
    rewrite E. f_equal. destruct (decide (ID d ∈ map ID l)) as [Hin|Hout].
    + apply list_elem_of_fmap in Hin as (y & Ey & Hy). rewrite Ey, (IH' y Hy) in E. injection E as <-. apply Hinj; [by constructor|by constructor|done].
    + apply (Ht d h); [by constructor|]. clear -E Hout. induction l as [|y l IHl]; [done|]. cbn in *. apply not_elem_of_cons in Hout as [Hne Hout].
      apply IHl; [|done]. unfold hold_listed at 1 in E. destruct (held (foldr hold_listed t l) !! ID y) eqn:E2; [done|].
      cbn in E. by rewrite lookup_insert_ne in E.
  - destruct (held _ !! ID d) eqn:E; [by apply IH'|]. cbn. rewrite lookup_insert_ne; [by apply IH'|]. intros En. by rewrite En, IH' in E.
Qed.

Variables user0 code0 : string.
Local Abbreviation weight := (stored_codes user0 code0).

(** ** What a request may record *)

(** A proof of the second factor was given. *)
Definition possession (l : list action) : Prop :=
  (exists k code secret, Accepted code secret ∈ l /\ Marked k ∈ l) \/
  (exists columns x, Updated columns x Written ∈ l /\ colTOTPDeviceBackupCodeHashes ∈ columns).

(** Who forgets the attempts counted at a key. *)
Definition justified (r : request) (l : list action) (k : string) : Prop :=
  match r with
  | LoginRequest user _ => k = totpVerificationFailureKey totpVerificationLogin (TrimSpace user) /\ possession l
  | UnbindRequest user _ => k = totpVerificationFailureKey totpVerificationUnbind user /\ possession l
  | ResetRequest target => (exists p, k = totpVerificationFailureKey p (TrimSpace target)) /\ Permitted (TrimSpace target) ∈ l
  | _ => False
  end.

Definition Inv (r : request) (l : list action) : Prop :=
  orderly weight l /\ forall ks k, Dropped ks ∈ l -> k ∈ ks -> is_failure k -> justified r l k.

Lemma possession_prefix l l' : l `prefix_of` l' -> possession l -> possession l'.
Proof.
  intros Hp [(k & c & s & H1 & H2)|(cs & x & H1 & H2)]; [left|right].
  - exists k, c, s. split; by apply (elem_prefix _ l).
  - exists cs, x. split; [by apply (elem_prefix _ l)|done].
Qed.

Lemma justified_prefix r l l' k : l `prefix_of` l' -> justified r l k -> justified r l' k.
Proof.
  intros Hp. destruct r; cbn; try tauto; intros [H1 H2]; (split; [done|]); [by apply (possession_prefix l)..|by apply (elem_prefix _ l)].
Qed.

Lemma Inv_snoc r l a : Inv r l -> may_do weight (replay l) a -> match a with Dropped _ => False | _ => True end -> Inv r (l ++ [a]).
Proof.
  intros [Ho Hd] Ha Hn. split; [by apply orderly_snoc|]. intros ks k [H|H%list_elem_of_singleton]%elem_of_app Hk Hf; [|by subst].
  apply (justified_prefix r l); [by apply prefix_app_r|by apply (Hd ks)].
Qed.

Lemma Inv_dropped r l ks : Inv r l -> (forall k, k ∈ ks -> is_failure k -> justified r l k) -> Inv r (l ++ [Dropped ks]).
Proof.
  intros [Ho Hd] Hks. split; [by apply orderly_snoc|]. intros ks' k H Hk Hf. apply (justified_prefix r l); [by apply prefix_app_r|].
  apply elem_of_app in H as [H|H%list_elem_of_singleton]; [by apply (Hd ks')|]. injection H as ->. by apply Hks.
Qed.

Lemma bind_not_failure k : is_bind k -> ~ is_failure k.
Proof. intros (i & ->) (p & u & H). destruct p; discriminate. Qed.

Local Abbreviation follows r p l Q := (always sends (Inv r) p l Q).

(** *** The parts *)

Lemma follows_mark r user code l : Inv r l -> follows r (markTOTPCodeUsed user code) l (fun l' x =>
  match x with
  | Ok _ => l' = l ++ [Marked (usedKey user code)]
  | Err e => l' = l /\ (e = Failed \/ e = CodeReplayed)
  end).
Proof.
  intros Hi. cbn. split; [done|]. split; [split; [by eexists _, _|done]|]. split; [by auto|].
  intros [[]|]; cbn; rewrite ?app_nil_r; (split; [|by auto]); [by apply Inv_snoc|done|done].
Qed.

Lemma follows_reserve r p user l : Inv r l -> follows r (reserveTOTPVerificationAttempt p user) l (fun l' x =>
  match x with
  | Ok _ => exists n, n <= totpVerificationAttemptLimit /\ l' = l ++ [Counted (totpVerificationFailureKey p user) n]
  | Err e => replay l' = replay l /\ (e = Failed \/ e = VerificationLocked)
  end).
Proof.
  intros Hi. cbn -[totpVerificationFailureKey]. split; [done|]. split; [split; [by eexists _, _|done]|]. split; [by auto|].
  intros [n|]; cbn -[totpVerificationFailureKey]; rewrite ?app_nil_r; [|by auto]. split; [by apply Inv_snoc|].
  destruct (Z.ltb_spec totpVerificationAttemptLimit n); [|eauto]. rewrite replay_snoc. auto.
Qed.

Lemma follows_clear r user ps l : Inv r l -> (forall p, p ∈ ps -> justified r l (totpVerificationFailureKey p user)) ->
  follows r (clearTOTPVerificationFailures user ps) l (fun l' _ => replay l' = replay l).
Proof.
  intros Hi Hps. cbn. split; [done|]. split; [|split; [done|]].
  - intros k (p & -> & _)%list_elem_of_fmap. left. by eexists _, _.
  - intros _. split; [|by rewrite replay_snoc]. apply Inv_dropped; [done|]. intros k (p & -> & Hp)%list_elem_of_fmap _. by apply Hps.
Qed.

Lemma follows_find r devices code l : Inv r l -> follows r (findLoginTOTPDeviceByCode devices code) l (fun l' x =>
  match x with Some d => d ∈ devices /\ l' = l ++ [Accepted code (Secret d)] | None => l' = l end).
Proof.
  intros Hi. induction devices as [|d devices IH]; cbn [findLoginTOTPDeviceByCode]; [done|].
  assert (follows r (findLoginTOTPDeviceByCode devices code) l (fun l' x =>
    match x with Some y => y ∈ d :: devices /\ l' = l ++ [Accepted code (Secret y)] | None => l' = l end)) as IH'.
  { eapply always_mono; [|exact IH]. intros l' [y|] _; [|done]. intros [? ?]. split; [by constructor|done]. }
  destruct (negb (IsActive d)); [done|]. cbn. split; [done|]. intros [] _; cbn; rewrite ?app_nil_r; [|done].
  split; [by apply Inv_snoc|]. split; [constructor|done].
Qed.

(** A code of the user is taken by the transaction. *)
Definition taken (t : tx) : Prop :=
  exists id h d, held t !! id = Some h /\ changes t !! id = Some d /\ (weight_of weight d < weight h)%nat.

Lemma gain_taken t : taken t -> gain weight t = 1%nat.
Proof. intros (id & h & d & Hh & Hd & Hw). by apply (gain_at weight t id d h). Qed.

Definition code_taken (user code : string) (t : tx) : Prop :=
  normalizeTOTPBackupCode code = Some code0 -> TrimSpace user = user0 -> taken t.

Lemma follows_consume r user code now l t : Inv r l -> replay l = Some t -> changes t = ∅ ->
  follows r (consumeTOTPBackupCodeInTx hmac_sha256 user code now) l (fun l' x =>
    exists t', replay l' = Some t' /\ (forall id h, held t !! id = Some h -> held t' !! id = Some h) /\
    match x with
    | Ok _ => possession l' /\ code_taken user code t'
    | Err e => e = Failed \/ e = BackupCodeInvalid
    end).
Proof.
  intros Hi Ht Hc. unfold consumeTOTPBackupCodeInTx. destruct (normalizeTOTPBackupCode code) as [c|] eqn:En; cbn [always]; (split; [done|]);
    [|exists t; split; [done|]; split; [done|]; by right].
  intros [devices|]; cbn [fits recorded]; rewrite ?app_nil_r; [|intros _; split; [done|]; exists t; split; [done|]; split; [done|]; by left].
  intros (Hsel & Hinj & Hlock). destruct (Hlock eq_refl) as (t0 & E & Hh). rewrite Ht in E. injection E as <-. specialize (Hh Hc).
  set (t1 := foldr hold_listed t devices). assert (replay (l ++ [Held devices]) = Some t1) as Et1 by (by rewrite replay_snoc, Ht).
  assert (Inv r (l ++ [Held devices])) as Hi1 by (apply Inv_snoc; [done| |done]; cbn; eauto).
  assert (forall id h, held t !! id = Some h -> held t1 !! id = Some h) as Hmono by (intros id h; by apply held_foldr).
  assert (changes t1 = ∅) as Hc1 by (unfold t1; by rewrite (proj1 (held_foldr devices t ""))).
  destruct (consume_of hmac_sha256 c now devices) as [x|] eqn:Ex; cbn [always]; (split; [done|]); [|exists t1; split; [done|]; split; [done|]; by right].
  apply consume_of_found in Ex as (d & hashes & Hd & Hw & ->). pose proof (held_listed devices t Hinj Hh d Hd) as Hheld. fold t1 in Hheld.
  destruct (stored_codes_taken user0 code0 c now d hashes Hw) as [Hle Hlt].
  intros w _. cbn [recorded]. assert (Inv r ((l ++ [Held devices]) ++ [Updated [colTOTPDeviceBackupCodeHashes; colTOTPDeviceLastUsedAt] (used_at now hashes d) w])) as Hi2.
  { apply Inv_snoc; [done| |done]. rewrite Et1. cbn. split; [done|]. by exists d. }
  split; [done|]. rewrite replay_snoc, Et1. destruct w; cbn; [|by exists t1; auto..].
  rewrite Hheld. eexists. split; [done|]. split; [done|]. split.
  - right. eexists _, _. split; [|apply list_elem_of_here]. rewrite !elem_of_app. right. by apply list_elem_of_singleton.
  - intros Ec Eu. rewrite En in Ec. injection Ec as ->. exists (ID d), d. eexists. split; [done|]. split; [apply lookup_insert_eq|].
    apply Hlt; [done|]. destruct (Hsel d Hd) as [[Hu|Hu] _]; [left|right]; congruence.
Qed.

(** What a transaction that was committed took. *)
Definition code_spent (user code : string) (l : list action) : Prop := exists t, Ended true (Some t) ∈ l /\ code_taken user code t.

Lemma follows_consume_tx r user code l : Inv r l -> replay l = None ->
  follows r (consumeTOTPBackupCode hmac_sha256 user code) l (fun l' x =>
    replay l' = None /\ match x with Ok _ => possession l' /\ code_spent user code l' | Err _ => True end).
Proof.
  intros Hi Hr. unfold consumeTOTPBackupCode. destruct (TrimSpace user =? "")%string; [cbn; auto|]. apply always_bind.
  eapply always_mono; [|apply (always_Transaction _ _ tt _ _ (fun l' x => replay l' = None /\
    match snd x with Ok _ => possession l' /\ code_spent user code l' | Err _ => True end))]; [|done|by apply Inv_snoc|done|done|].
  - intros l' x Hi' [Hr' Hx]. by destruct x as [x []].
  - assert (Inv r (l ++ [Began])) as Hb by (by apply Inv_snoc). cbn [always]. split; [done|]. intros now. apply always_bind.
    eapply always_mono; [|apply (follows_consume r user code now _ (mkTx ∅ ∅) Hb); [by rewrite replay_snoc|done]].
    intros l' x Hi' (t' & Et & _ & Hx). assert (forall ok, Inv r (l' ++ [Ended ok (replay l')])) as He by (intros ok; by apply Inv_snoc).
    split; [done|]. cbn [snd fst]. destruct x as [[]|e]; [|by split; [|rewrite replay_snoc]]. destruct Hx as [Hp Hs].
    split; (split; [done|]; split; [by rewrite replay_snoc|]); [|done].
    split; [by eapply possession_prefix; [apply prefix_app_r|]|]. exists t'. split; [|done]. apply elem_of_app. right. rewrite Et. by apply list_elem_of_singleton.
Qed.

(** ** What a request shows when it is answered *)

Definition paid (p : purpose) (user : string) (l : list action) : Prop :=
  exists n, n <= totpVerificationAttemptLimit /\ Counted (totpVerificationFailureKey p user) n ∈ l.

(** The proof that was submitted was good, and is spent. *)
Definition proved (user totp backup : string) (l : list action) : Prop :=
  if (TrimSpace totp =? "")%string then code_spent user backup l
  else Marked (usedKey user totp) ∈ l /\ exists code secret, Accepted code secret ∈ l /\ TrimSpace code = TrimSpace totp.

(** A proof is said to be wrong. *)
Definition refuses_proof (e : error) : Prop :=
  e = Refused 401 "invalid TOTP code" \/ e = Refused 401 "invalid backup code" \/ e = Refused 401 "invalid verification".

Definition concluded (r : request) (l : list action) (a : option error) : Prop :=
  match r, a with
  | LoginRequest user f, None => Saw [] ∈ l \/ (paid totpVerificationLogin user l /\ proved user (TOTPCode f) (BackupCode f) l)
  | LoginRequest user _, Some e => refuses_proof e -> paid totpVerificationLogin user l
  | UnbindRequest user q, None => paid totpVerificationUnbind user l /\ proved user (UnbindTOTPCode q) (UnbindBackupCode q) l
  | UnbindRequest user _, Some e => refuses_proof e -> paid totpVerificationUnbind user l
  | ConfirmRequest user _ q _, None => Marked (usedKey user (Code q)) ∈ l /\ exists secret, Accepted (Code q) secret ∈ l
  | ResetRequest target, None => Permitted (TrimSpace target) ∈ l
  | _, _ => True
  end.

Definition ends_well (r : request) (l : list action) (a : option error) : Prop := replay l = None /\ concluded r l a.

Lemma key_trimmed p user : totpVerificationFailureKey p (TrimSpace user) = totpVerificationFailureKey p user.
Proof. unfold totpVerificationFailureKey. by rewrite TrimSpace_idem. Qed.

Lemma usedKey_trimmed user code : usedKey (TrimSpace user) (TrimSpace code) = usedKey user code.
Proof. unfold usedKey. by rewrite !TrimSpace_idem. Qed.

Ltac in_record := rewrite ?elem_of_app, ?list_elem_of_singleton; tauto.

Lemma paid_prefix p user l l' : l `prefix_of` l' -> paid p user l -> paid p user l'.
Proof. intros Hp (n & Hn & H). exists n. split; [done|by apply (elem_prefix _ l)]. Qed.

Lemma follows_login_totp r user devices code l : Inv r l -> replay l = None ->
  (forall d, d ∈ devices -> UserID d = user) -> (exists user' f, r = LoginRequest user' f /\ user = TrimSpace user') ->
  follows r (verifyLoginTOTPCode devices code) l (fun l' x => replay l' = None /\ l `prefix_of` l' /\
    match x with Ok _ => Marked (usedKey user code) ∈ l' /\ exists secret, Accepted code secret ∈ l' | Err _ => True end).
Proof.
  intros Hi Hr Hu (user' & f & Er & Eu). unfold verifyLoginTOTPCode. apply always_bind. eapply always_mono; [|by apply follows_find].
  intros l1 [d|] Hi1; [|intros ->; cbn; auto]. intros [Hd ->]. rewrite (Hu d Hd).
  apply always_try, always_on_error. eapply always_mono; [|by apply follows_mark]. intros l2 [[]|e] Hi2;
    [intros ->|intros [-> _]; rewrite replay_snoc, Hr; split; [done|]; split; [by apply prefix_app_r|done]].
  set (l2 := (l ++ [Accepted code (Secret d)]) ++ [Marked (usedKey user code)]) in *.
  assert (replay l2 = None) as Hr2 by (unfold l2; by rewrite !replay_snoc, Hr).
  assert (possession l2) as Hp by (left; exists (usedKey user code), code, (Secret d); unfold l2; split; in_record).
  assert (l `prefix_of` l2) as Hpre by (unfold l2; rewrite <- app_assoc; by apply prefix_app_r).
  cbn [always]. split; [done|]. intros now. split; [done|]. intros w _. cbn [recorded]. set (u := Updated _ _ w).
  assert (Inv r (l2 ++ [u])) as Hi3 by (apply Inv_snoc; [done|rewrite Hr2; cbn; set_solver|done]).
  assert (replay (l2 ++ [u]) = None) as Hr3 by (rewrite replay_snoc, Hr2; by destruct w).
  assert (l `prefix_of` l2 ++ [u]) as Hpre3 by (etrans; [exact Hpre|by apply prefix_app_r]).
  destruct w; [|cbn; auto..]. apply always_bind. eapply always_mono; [|apply always_prefix, follows_clear; [exact Hi3|]].
  - intros l4 [] Hi4 [E4 Hp4]. cbn. split; [done|]. split; [congruence|]. split; [by etrans|].
    split; [|exists (Secret d)]; apply (elem_prefix _ l2); try (unfold l2; in_record); (etrans; [by apply prefix_app_r|exact Hp4]).
  - intros p ->%list_elem_of_singleton. subst r. cbn. rewrite <- Eu. split; [done|]. apply (possession_prefix l2); [by apply prefix_app_r|done].
Qed.

Lemma follows_login_backup r user code l : Inv r l -> replay l = None -> (exists user' f, r = LoginRequest user' f /\ user = TrimSpace user') ->
  follows r (verifyLoginBackupCode hmac_sha256 user code) l (fun l' x => replay l' = None /\ l `prefix_of` l' /\
    match x with Ok _ => code_spent user code l' | Err _ => True end).
Proof.
  intros Hi Hr (user' & f & Er & Eu). unfold verifyLoginBackupCode. apply always_try, always_on_error.
  eapply always_mono; [|by apply always_prefix, follows_consume_tx]. intros l1 [[]|e] Hi1 [[Hr1 H1] Hp1]; [|done]. destruct H1 as [Hpo Hs].
  apply always_bind. eapply always_mono; [|apply always_prefix, follows_clear; [exact Hi1|]].
  - intros l2 [] Hi2 [E2 Hp2]. cbn. split; [done|]. split; [congruence|]. split; [by etrans|].
    destruct Hs as (t & Ht & Hc). exists t. split; [by apply (elem_prefix _ l1)|done].
  - intros p ->%list_elem_of_singleton. subst r. cbn. by rewrite <- Eu.
Qed.

Ltac other_error := unfold refuses_proof; let H := fresh in intros [H|[H|H]]; discriminate H.

(** An answer that says nothing of a proof. *)
Lemma ends_refused r l e : replay l = None -> ~ refuses_proof e -> ends_well r l (Some e).
Proof. intros Hr He. split; [done|]. destruct r; cbn; tauto. Qed.

Definition ends {A} (r : request) (l : list action) (x : outcome A) : Prop := ends_well r l (answered_as x).

Lemma follows_refuse {A} r l e : Inv r l -> replay l = None -> ~ refuses_proof e -> follows r (Ret (Err e) : prog_ A) l (ends r).
Proof. intros Hi Hr He. split; [done|]. by apply ends_refused. Qed.

Lemma paid_here p user l l' n : n <= totpVerificationAttemptLimit -> l' = l ++ [Counted (totpVerificationFailureKey p user) n] -> paid p user l'.
Proof. intros Hn ->. exists n. split; [done|]. in_record. Qed.

Lemma paid_trimmed p user l : paid p (TrimSpace user) l -> paid p user l.
Proof. unfold paid. by rewrite key_trimmed. Qed.

Lemma code_spent_trimmed user code l : code_spent (TrimSpace user) (TrimSpace code) l -> code_spent user code l.
Proof. intros (t & Ht & Hc). exists t. split; [done|]. unfold code_taken, normalizeTOTPBackupCode in *. by rewrite !TrimSpace_idem in Hc. Qed.

Lemma follows_Login user f : let r := LoginRequest user f in Inv r [] -> follows r (LoginSecondFactorVerifier hmac_sha256 user f) [] (ends r).
Proof.
  cbv zeta. set (r := LoginRequest user f). intros Hi. unfold LoginSecondFactorVerifier. set (u := TrimSpace user).
  assert (u = TrimSpace u) as Etrim by (unfold u; by rewrite TrimSpace_idem).
  destruct (String.eqb_spec u "") as [|Hu]; [by apply follows_refuse; [..|other_error]|].
  apply always_try, always_on_error. cbn [listActiveLoginTOTPDevices always]. split; [done|].
  intros [devices|]; cbn [fits recorded app]; [|intros _; split; [done|]; by apply ends_refused; [|other_error]].
  intros (Hsel & _). assert (forall d, d ∈ devices -> UserID d = u) as Hdev by (intros d Hd; by destruct (Hsel d Hd) as [[|] _]).
  assert (Inv r [Saw devices]) as Hi1 by (by apply (Inv_snoc r [])). split; [done|].
  case_bool_decide as Hnil; [subst devices; split; [done|]; split; [done|]; left; by constructor|].
  destruct (_ && _); [by apply follows_refuse; [..|other_error]|]. destruct (negb _ && _); [by apply follows_refuse; [..|other_error]|].
  apply always_try, always_on_error. eapply always_mono; [|by apply always_prefix, follows_reserve]. intros l2 [[]|e] Hi2 [H2 Hp2];
    [|destruct H2 as [E2 He]; apply ends_refused; [by rewrite E2|]; destruct He as [-> | ->]; other_error].
  destruct H2 as (n & Hn & E2). assert (replay l2 = None) as Hr2 by (by rewrite E2, replay_snoc).
  pose proof (paid_trimmed _ _ _ (paid_here _ _ _ _ _ Hn E2)) as Hpaid. destruct (String.eqb_spec (TrimSpace (TOTPCode f)) "") as [Ht|Ht]; cbn [negb].
  - eapply always_mono; [|apply always_prefix, (follows_login_backup r u); [done|done|by eexists _, f]].
    intros l3 [[]|e] Hi3 [(Hr3 & H3) Hp3]; (split; [done|]).
    + right. split; [by apply (paid_prefix _ _ l2)|]. unfold proved. rewrite Ht. cbn. by apply code_spent_trimmed, H3.
    + intros _. by apply (paid_prefix _ _ l2).
  - eapply always_mono; [|apply always_prefix, (follows_login_totp r u); [done|done|done|by eexists _, f]].
    intros l3 [[]|e] Hi3 [(Hr3 & Hp & H3) Hp3]; (split; [done|]).
    + right. split; [by apply (paid_prefix _ _ l2)|]. unfold proved. rewrite (proj2 (String.eqb_neq _ _) Ht). destruct H3 as (Hm & secret & Ha).
      split; [by rewrite <- usedKey_trimmed|]. exists (TrimSpace (TOTPCode f)), secret. by rewrite TrimSpace_idem.
    + intros _. by apply (paid_prefix _ _ l2).
Qed.

(** *** Unbinding *)

(** A good proof, in an open transaction. *)
Definition proved_in (user : string) (q : TOTPUnbindReq) (l : list action) (t : tx) : Prop :=
  if (TrimSpace (UnbindTOTPCode q) =? "")%string then code_taken user (UnbindBackupCode q) t
  else Marked (usedKey user (UnbindTOTPCode q)) ∈ l /\
       exists code secret, Accepted code secret ∈ l /\ TrimSpace code = TrimSpace (UnbindTOTPCode q).

Lemma follows_fresh_auth r user q devices now l t : Inv r l -> replay l = Some t -> changes t = ∅ ->
  follows r (verifyTOTPUnbindFreshAuth hmac_sha256 user q devices now) l (fun l' x =>
    exists t', replay l' = Some t' /\ (forall id h, held t !! id = Some h -> held t' !! id = Some h) /\
    match x with Ok _ => possession l' /\ proved_in user q l' t' | Err _ => True end).
Proof.
  intros Hi Ht Hc. unfold verifyTOTPUnbindFreshAuth, proved_in.
  destruct (String.eqb_spec (TrimSpace (UnbindTOTPCode q)) "") as [E|E]; cbn [negb].
  - destruct (negb _); [|cbn; split; [done|]; by exists t].
    eapply always_mono; [|by apply (follows_consume r user (UnbindBackupCode q) now l t)]. intros l' [[]|e] _ (t' & H1 & H2 & H3); by exists t'.
  - unfold validateTOTPCodeForDevices. rewrite (proj2 (String.eqb_neq _ _) E). apply always_bind. eapply always_mono; [|by apply follows_find].
    intros l1 [d|] Hi1; [|intros ->; cbn; split; [done|]; by exists t]. intros [_ ->].
    assert (replay (l ++ [Accepted (UnbindTOTPCode q) (Secret d)]) = Some t) as Et1 by (by rewrite replay_snoc, Ht).
    eapply always_mono; [|by apply follows_mark]. intros l2 [[]|e] _; [|intros [-> _]; by exists t]. intros ->.
    exists t. split; [by rewrite replay_snoc, Et1|]. split; [done|]. split; [left; eexists _, _, _|split; [|eexists _, _]]; try split; by try in_record.
Qed.

Lemma taken_erased t l : taken t -> taken (mkTx (held t) (foldr (fun d => insert (ID d) None) (changes t) l)).
Proof.
  intros (id & h & d & Hh & Hd & Hw). exists id, h. cbn [held changes]. rewrite erased_lookup.
  case_bool_decide; [|by exists d]. exists None. split; [done|]. split; [done|]. cbn. lia.
Qed.

Lemma proved_in_erased user q l t d : proved_in user q l t ->
  proved_in user q (l ++ [Erased [d] Written]) (mkTx (held t) (foldr (fun d => insert (ID d) None) (changes t) [d])).
Proof.
  unfold proved_in. destruct (_ =? _)%string.
  - intros H Hn Hu. by apply taken_erased, H.
  - intros [H1 (c & s & H2 & H3)]. split; [in_record|]. exists c, s. split; [in_record|done].
Qed.

(** The closure of an unbinding. *)
Lemma follows_unbind_in_tx r user q l t : Inv r l -> replay l = Some t -> changes t = ∅ ->
  follows r (unbind_in_tx hmac_sha256 user q) l (fun l' x => exists t', replay l' = Some t' /\
    (fst x = true -> possession l') /\ match snd x with Ok _ => fst x = true /\ proved_in user q l' t' | Err _ => True end).
Proof.
  intros Hi Ht Hc. unfold unbind_in_tx. cbn [always]. split; [done|].
  intros [devices|]; cbn [fits recorded]; rewrite ?app_nil_r; [|intros _; split; [done|]; by exists t].
  intros (_ & Hinj & Hlock). destruct (Hlock eq_refl) as (t0 & E & Hh). rewrite Ht in E. injection E as <-. specialize (Hh Hc).
  set (t1 := foldr hold_listed t devices). set (l1 := l ++ [Held devices]).
  assert (replay l1 = Some t1) as Et1 by (unfold l1; by rewrite replay_snoc, Ht).
  assert (Inv r l1) as Hi1 by (apply Inv_snoc; [done| |done]; cbn; eauto).
  assert (changes t1 = ∅) as Hc1 by (unfold t1; by rewrite (proj1 (held_foldr devices t ""))).
  pose proof (held_listed devices t Hinj Hh) as Hheld. fold t1 in Hheld.
  split; [done|]. intros now. apply always_bind. eapply always_mono; [|by apply (follows_fresh_auth r user q devices now l1 t1)].
  intros l2 [[]|e] Hi2 (t2 & Et2 & Hmono & H2); [|split; [done|]; by exists t2]. destruct H2 as [Hpo Hpr].
  destruct (findTOTPUnbindDevice devices (DeviceID q)) as [d|] eqn:Ed; [|split; [done|]; by exists t2].
  apply find_some in Ed as [Hd _]. apply list_elem_of_In in Hd. cbn [always]. split; [done|]. intros w _. cbn [recorded].
  assert (Inv r (l2 ++ [Erased [d] w])) as Hi3.
  { apply Inv_snoc; [done| |done]. rewrite Et2. exists t2. split; [done|]. intros x ->%list_elem_of_singleton. eexists. by apply Hmono, Hheld. }
  split; [done|]. rewrite replay_snoc, Et2. assert (possession (l2 ++ [Erased [d] w])) as Hp3 by (eapply possession_prefix; [by apply prefix_app_r|done]).
  destruct w; cbn; eexists; (split; [done|]); (split; [done|]); [|done..]. split; [done|]. by apply (proved_in_erased user q l2 t2 d).
Qed.

Lemma proved_in_committed user q l t : proved_in user q l t -> replay l = Some t ->
  proved user (UnbindTOTPCode q) (UnbindBackupCode q) (l ++ [Ended true (replay l)]).
Proof.
  unfold proved_in, proved. intros H Ht. rewrite Ht. destruct (_ =? _)%string.
  - exists t. split; [in_record|done].
  - destruct H as [H1 (c & s & H2 & H3)]. split; [in_record|]. exists c, s. split; [in_record|done].
Qed.

Lemma follows_Unbind user q : let r := UnbindRequest user q in Inv r [] -> follows r (Unbind hmac_sha256 user q) [] (ends r).
Proof.
  cbv zeta. set (r := UnbindRequest user q). intros Hi. unfold Unbind. destruct (user =? "")%string; [by apply follows_refuse; [..|other_error]|].
  destruct (TrimSpace (DeviceID q) =? "")%string; [by apply follows_refuse; [..|other_error]|].
  destruct (_ =? 0)%nat; [by apply follows_refuse; [..|other_error]|]. destruct (negb _); [by apply follows_refuse; [..|other_error]|].
  apply always_try, always_on_error. eapply always_mono; [|by apply follows_reserve]. intros l1 [[]|e] Hi1 H1;
    [|destruct H1 as [E1 He]; apply ends_refused; [by rewrite E1|]; destruct He as [-> | ->]; other_error].
  destruct H1 as (n & Hn & E1). assert (replay l1 = None) as Hr1 by (by rewrite E1, replay_snoc). pose proof (paid_here _ _ _ _ _ Hn E1) as Hpaid.
  apply always_bind. eapply always_mono; [|apply always_prefix, (always_Transaction _ _ false _ _ (fun l x => replay l = None /\
    (fst x = true -> possession l) /\ match snd x with Ok _ => fst x = true /\ proved user (UnbindTOTPCode q) (UnbindBackupCode q) l | Err _ => True end))];
    [|done|by apply Inv_snoc; [|rewrite Hr1|]|done|done|].
  - intros l2 [accepted x] Hi2 [(Hr2 & Hp2 & Hx) Hpre]. cbn [fst snd] in *. apply always_bind.
    assert (paid totpVerificationUnbind user l2) as Hpaid2 by (by apply (paid_prefix _ _ l1)).
    eapply always_mono; [|instantiate (1 := fun l' _ => replay l' = None /\ l2 `prefix_of` l'); destruct accepted].
    + intros l3 [] Hi3 [Hr3 Hp3]. split; [done|]. split; [done|]. destruct x as [m|e]; cbn; [|intros _; by apply (paid_prefix _ _ l2)].
      split; [by apply (paid_prefix _ _ l2)|]. destruct Hx as [_ Hx]. unfold proved in *. destruct (_ =? _)%string.
      * destruct Hx as (t & Ht & Hc). exists t. split; [by apply (elem_prefix _ l2)|done].
      * destruct Hx as [Hm (c & s & Ha & Hc)]. split; [by apply (elem_prefix _ l2)|]. exists c, s. split; [by apply (elem_prefix _ l2)|done].
    + eapply always_mono; [|apply always_prefix, follows_clear; [done|]]; [by intros l3 [] _ [E3 Hp3]; rewrite E3|].
      intros p ->%list_elem_of_singleton. cbn. auto.
    + cbn. by split.
  - eapply always_mono; [|by apply (follows_unbind_in_tx r user q _ (mkTx ∅ ∅)); [apply Inv_snoc; [|rewrite Hr1|]|rewrite replay_snoc|]].
    intros l2 [accepted x] Hi2 (t & Et & Hpo & Hx). cbn [fst snd] in *. cbv zeta.
    assert (forall ok, Inv r (l2 ++ [Ended ok (replay l2)])) as He by (intros ok; by apply Inv_snoc).
    assert (forall ok, accepted = true -> possession (l2 ++ [Ended ok (replay l2)])) as Hpo2.
    { intros ok Ha. eapply possession_prefix; [by apply prefix_app_r|by apply Hpo]. }
    assert (forall ok, replay (l2 ++ [Ended ok (replay l2)]) = None) as Hr2 by (intros ok; by rewrite replay_snoc).
    destruct x as [m|e]; [|by auto]. destruct Hx as [Ha Hx]. split; [|by auto]. split; [by auto|]. split; [by auto|]. split; [by auto|].
    split; [done|]. by apply (proved_in_committed user q l2 t).
Qed.

(** *** The other requests *)

Lemma follows_load r id l : Inv r l -> follows r (loadTOTPBindChallenge unmarshal id) l (fun l' x => replay l' = replay l).
Proof.
  intros Hi. unfold loadTOTPBindChallenge. destruct (_ =? _)%string; [done|].
  assert (forall (A : Type) (x : outcome A), follows r (Call (Del [totpBindChallengeKey (TrimSpace id)]) (fun _ => Ret x)) l (fun l' _ => replay l' = replay l)) as Hdel.
  { intros A x. cbn. split; [done|]. split; [intros k ->%list_elem_of_singleton; right; by eexists|]. split; [done|]. intros _.
    split; [|by rewrite replay_snoc]. apply Inv_dropped; [done|]. intros k ->%list_elem_of_singleton Hf. destruct (bind_not_failure _ (ex_intro _ _ eq_refl) Hf). }
  cbn [always]. split; [done|]. split; [done|]. split; [done|]. intros got. cbn [recorded_command]. rewrite app_nil_r.
  destruct got as [[data|]|]; [|done..]. destruct (_ =? _)%string; [done|]. destruct (unmarshal data) as [c|]; [|apply Hdel].
  destruct (_ || _); [done|]. destruct (_ =? _); [done|]. cbn [always]. split; [done|]. intros now. destruct (negb _); [apply Hdel|done].
Qed.

Lemma follows_consume_challenge r id l : Inv r l -> follows r (consumeTOTPBindChallenge id) l (fun l' x => replay l' = replay l).
Proof.
  intros Hi. unfold consumeTOTPBindChallenge. destruct (_ =? _)%string; [done|]. cbn. split; [done|].
  split; [intros k ->%list_elem_of_singleton; right; by eexists|]. split; [done|]. intros got. split; [|by rewrite replay_snoc].
  apply Inv_dropped; [done|]. intros k ->%list_elem_of_singleton Hf. destruct (bind_not_failure _ (ex_intro _ _ eq_refl) Hf).
Qed.

Lemma follows_Confirm user session q random : let r := ConfirmRequest user session q random in Inv r [] ->
  follows r (Confirm hmac_sha256 unmarshal user session q random) [] (ends r).
Proof.
  cbv zeta. set (r := ConfirmRequest user session q random). intros Hi. unfold Confirm.
  assert (forall A l e, Inv r l -> replay l = None -> follows r (Ret (Err e) : prog_ A) l (ends r)) as Herr by done.
  assert (forall A l (x : outcome A), replay l = None -> match x with Err _ => True | Ok _ => False end -> ends r l x) as Hends by (intros A l [] Hl ?; done).
  destruct (user =? "")%string; [by apply Herr|]. destruct (currentTOTPBindSessionID session) as [s|e]; [|by apply Herr].
  apply always_try, always_on_error. eapply always_mono; [|by apply follows_load]. intros l1 [c|e] Hi1 Hr1; [|by apply Hends].
  destruct (_ || _); [by apply Herr|]. cbn [always]. split; [done|]. intros valid _. cbn [recorded].
  destruct valid; cbn [negb]; [|rewrite app_nil_r; by apply Herr]. set (l2 := l1 ++ [Accepted (Code q) (ch_Secret c)]).
  assert (Inv r l2) as Hi2 by (by apply Inv_snoc). assert (replay l2 = None) as Hr2 by (unfold l2; by rewrite replay_snoc, Hr1).
  apply always_try, always_on_error. eapply always_mono; [|by apply follows_mark]. intros l3 [[]|e] Hi3; [|intros [-> _]; by apply Hends].
  intros ->. set (l3 := l2 ++ [Marked (usedKey user (Code q))]) in *. assert (replay l3 = None) as Hr3 by (unfold l3; by rewrite replay_snoc, Hr2).
  apply always_try, always_on_error. eapply always_mono; [|by apply always_prefix, follows_consume_challenge].
  intros l4 [[]|e] Hi4 [Hr4 Hp4]; rewrite Hr3 in Hr4; [|by apply Hends]. destruct (GenerateTOTPBackupCodes random) as [codes|]; [|by apply Herr].
  destruct (HashTOTPBackupCodes _ _ _) as [hashes|]; [|by apply Herr]. cbn [always]. split; [done|]. intros now. split; [done|]. intros created _.
  cbn [recorded]. split; [apply Inv_snoc; [done|by rewrite Hr4|done]|]. set (l5 := l4 ++ _).
  assert (replay l5 = None) as Hr5 by (unfold l5; by rewrite replay_snoc, Hr4). destruct created; [|by apply Hends]. split; [done|].
  assert (l3 `prefix_of` l5) as Hp5 by (etrans; [exact Hp4|by apply prefix_app_r]).
  split; [|exists (ch_Secret c)]; (apply (elem_prefix _ l3); [done|unfold l3, l2; in_record]).
Qed.

Lemma follows_Bind user username session key image random : let r := BindRequest user username session key image random in Inv r [] ->
  follows r (Bind_ marshal user username session key image random) [] (ends r).
Proof.
  cbv zeta. set (r := BindRequest _ _ _ _ _ _). intros Hi. unfold Bind_.
  assert (forall A (x : outcome A), ends r [] x) as Hends by (intros A []; done).
  assert (forall A e, follows r (Ret (Err e) : prog_ A) [] (ends r)) as Herr by done.
  destruct (_ || _); [apply Herr|]. destruct (currentTOTPBindSessionID session) as [s|e]; [|apply Herr]. destruct key as [[url secret]|]; [|apply Herr].
  destruct (image url); [|apply Herr]. apply always_try, always_on_error. unfold issueTOTPBindChallenge. destruct (_ || _); [by split|].
  destruct (newTOTPBindChallengeID random) as [id|]; [|by split]. cbn [always]. split; [done|]. intros now. destruct (marshal _) as [data|]; [|by split].
  destruct (_ =? _)%string; [by split|]. cbn. split; [done|]. split; [by eexists|]. split; [by split|]. by intros [].
Qed.

Lemma follows_administer r target l : Inv r l -> follows r (ensureCanAdministerMFA target) l (fun l' x =>
  replay l' = replay l /\ match x with Ok _ => Permitted target ∈ l' | Err _ => True end).
Proof.
  intros Hi. cbn. split; [done|]. intros [e|] _; cbn; rewrite ?app_nil_r; [by destruct e|]. split; [by apply Inv_snoc|].
  rewrite replay_snoc. split; [done|in_record].
Qed.

Lemma follows_status r user l : Inv r l -> replay l = None -> match r with StatusRequest _ | AdminStatusRequest _ => True | _ => False end ->
  follows r (buildTOTPStatusRsp user) l (ends r).
Proof.
  intros Hi Hr Hk. cbn. split; [done|]. intros [devices|] _; cbn; rewrite ?app_nil_r; (split; [by try apply Inv_snoc|]).
  - split; [by rewrite replay_snoc, Hr|]. by destruct r.
  - by apply ends_refused; [|other_error].
Qed.

(** A reset makes no row weigh more: it removes the rows it listed. *)
Lemma follows_reset_in_tx r target l t : Inv r l -> replay l = Some t -> changes t = ∅ ->
  follows r (reset_in_tx target) l (fun l' _ => exists t', replay l' = Some t').
Proof.
  intros Hi Ht Hc. unfold reset_in_tx. cbn [always]. split; [done|].
  intros [devices|]; cbn [fits recorded]; rewrite ?app_nil_r; [|intros _; split; [done|]; by exists t].
  intros (_ & Hinj & Hlock). destruct (Hlock eq_refl) as (t0 & E & Hh). rewrite Ht in E. injection E as <-. specialize (Hh Hc).
  set (l1 := l ++ [Held devices]). assert (replay l1 = Some (foldr hold_listed t devices)) as Et1 by (unfold l1; by rewrite replay_snoc, Ht).
  assert (Inv r l1) as Hi1 by (apply Inv_snoc; [done| |done]; cbn; eauto). case_bool_decide; [split; [done|]; eauto|].
  cbn [always]. split; [done|]. intros w _. cbn [recorded].
  split; [|rewrite replay_snoc, Et1; destruct w; by eexists]. apply Inv_snoc; [done| |done]. rewrite Et1. eexists. split; [done|].
  intros d Hd. eexists. by apply (held_listed devices t).
Qed.

Lemma follows_Reset target : let r := ResetRequest target in Inv r [] -> follows r (AdminReset target) [] (ends r).
Proof.
  cbv zeta. set (r := ResetRequest target). intros Hi. unfold AdminReset. destruct (_ =? _)%string; [by apply follows_refuse; [..|other_error]|].
  assert (forall A l (x : outcome A), replay l = None -> match x with Err _ => True | Ok _ => False end -> ends r l x) as Hends by (intros A l [] Hl ?; done).
  apply always_try. eapply always_mono; [|by apply follows_administer]. intros l1 [[]|e] Hi1 [Hr1 Hp1]; [|by apply Hends].
  change (replay []) with (@None tx) in Hr1. apply always_bind.
  eapply always_mono; [|apply always_prefix, (always_Transaction _ _ 0%nat _ _ (fun l x => replay l = None))]; [|done|by apply Inv_snoc; [|rewrite Hr1|]|done|done|].
  - intros l2 [n [[]|e]] Hi2 [Hr2 Hp2]; [|split; [done|]; by apply Hends]. apply always_bind.
    eapply always_mono; [|apply always_prefix, follows_clear; [done|]].
    + intros l3 [] Hi3 [Hr3 Hp3]. split; [done|]. split; [congruence|]. cbn. apply (elem_prefix _ l1); [by etrans|done].
    + intros p _. split; [by exists p|]. by apply (elem_prefix _ l1).
  - eapply always_mono; [|by apply (follows_reset_in_tx r _ _ (mkTx ∅ ∅)); [apply Inv_snoc; [|rewrite Hr1|]|rewrite replay_snoc|]].
    intros l2 [n x] Hi2 _. cbv zeta. assert (forall ok, Inv r (l2 ++ [Ended ok (replay l2)])) as He by (intros ok; by apply Inv_snoc).
    assert (forall ok, replay (l2 ++ [Ended ok (replay l2)]) = None) as Hr2 by (intros ok; by rewrite replay_snoc). destruct x as [[]|e]; by auto.
Qed.

Lemma follows_body r : follows r (body hmac_sha256 marshal unmarshal r) [] (ends_well r).
Proof.
  assert (Inv r []) as Hi by (split; [done|]; intros ks k H; set_solver).
  assert (forall A (p : prog_ A), follows r p [] (ends r) -> follows r (bind p (fun x => Ret (answered_as x))) [] (ends_well r)) as Hb.
  { intros A p Hp. apply always_bind. eapply always_mono; [|exact Hp]. by intros l x Hx. }
  destruct r; cbn [body]; apply Hb.
  - by apply follows_Login.
  - by apply follows_Unbind.
  - by apply follows_Bind.
  - by apply follows_Confirm.
  - by apply follows_Reset.
  - unfold Status. destruct (_ =? _)%string; [by apply follows_refuse; [..|other_error]|by apply follows_status].
  - unfold AdminStatus. destruct (_ =? _)%string; [by apply follows_refuse; [..|other_error]|]. apply always_try.
    eapply always_mono; [|by apply follows_administer]. intros l x Hi' [Hr Hx]. destruct x as [[]|e]; [|by split].
    by apply follows_status.
Qed.
End Requests.
