(* ===== verification/SecondFactorSpec.v ===== *)
(** * What the second factor guarantees

    Of any number of requests served at once, whatever fails: how often a
    proof of a user is judged, that a one-time code is accepted once while it
    is valid, and that a recovery code is accepted as often as it was handed
    out. *)

From stdpp Require Import base list gmap strings.
From Stdlib Require Import ZArith Lia Ascii Strings.Byte.
From S2P Require Import Prelude GoStrings Redis RedisSafe SecondFactor SecondFactorSystem SecondFactorRequests.
Local Open Scope Z_scope.

(** ** Records *)

Lemma own_app i l l' : own i (l ++ l') = own i l ++ own i l'.
Proof. unfold own. by rewrite filter_app, map_app. Qed.

Lemma own_mine i t l : own i (map (mkEntry i t) l) = l.
Proof. induction l as [|a l IH]; [done|]. cbn [map]. unfold own. rewrite filter_cons_True by done. cbn [map]. f_equal. exact IH. Qed.

Lemma own_other i j t l : i <> j -> own i (map (mkEntry j t) l) = [].
Proof. intros H. induction l as [|a l IH]; [done|]. cbn [map]. unfold own. rewrite filter_cons_False; [exact IH|]. cbn. congruence. Qed.

Lemma own_elem i a l : a ∈ own i l <-> exists t, mkEntry i t a ∈ l.
Proof.
  unfold own. rewrite list_elem_of_fmap. split.
  - intros ([j t b] & -> & [E H]%list_elem_of_filter). cbn in *. subst. by exists t.
  - intros [t H]. exists (mkEntry i t a). split; [done|]. by apply list_elem_of_filter.
Qed.

(** What is counted over a record. *)
Fixpoint total (f : action -> nat) (l : list entry) : nat :=
  match l with [] => 0 | e :: l => f (did e) + total f l end.

Lemma total_app f l l' : total f (l ++ l') = (total f l + total f l')%nat.
Proof. induction l as [|e l IH]; cbn; [done|]. rewrite IH. lia. Qed.

Lemma total_filter f (P : entry -> Prop) `{!forall e, Decision (P e)} l :
  (total f (filter P l) + total f (filter (fun e => ~ P e) l) = total f l)%nat.
Proof.
  induction l as [|e l IH]; [done|]. rewrite !filter_cons. destruct (decide (P e)).
  - rewrite decide_False by tauto. cbn. lia.
  - rewrite decide_True by done. cbn. lia.
Qed.

Lemma total_elem f e l : e ∈ l -> (f (did e) <= total f l)%nat.
Proof. induction 1; cbn; lia. Qed.

(** Requests that each recorded something that counts are no more than what
    was counted. *)
Lemma owners_total f l (L : list nat) : NoDup L -> (forall i, i ∈ L -> exists a, a ∈ own i l /\ (1 <= f a)%nat) -> (length L <= total f l)%nat.
Proof.
  intros HL. revert l. induction HL as [|i L Hi HL IH]; intros l H; cbn; [lia|].
  rewrite <- (total_filter f (fun e => owner e = i) l).
  assert (1 <= total f (filter (fun e => owner e = i) l))%nat.
  { destruct (H i) as (a & Ha & Hf); [by constructor|]. apply own_elem in Ha as [t Ht].
    etrans; [exact Hf|]. apply (total_elem f (mkEntry i t a)). by apply list_elem_of_filter. }
  assert (length L <= total f (filter (fun e => owner e <> i) l))%nat; [|lia]. apply IH. intros j Hj.
  destruct (H j) as (a & Ha & Hf); [by constructor|]. exists a. split; [|done]. apply own_elem in Ha as [t Ht]. apply own_elem. exists t.
  apply list_elem_of_filter. split; [|done]. cbn. intros ->. by apply Hi.
Qed.

(** ** The table *)

Section Table.
Variable totp_Validate : string -> string -> Z -> bool.
Variable weight : TOTPDevice -> nat.
(** A row weighs what its account, its secret and its codes make of it. *)
Hypothesis weight_codes : forall d d', UserID d = UserID d' -> Secret d = Secret d' -> BackupCodeHashes d = BackupCodeHashes d' -> weight d = weight d'.

Record table_ok (db : database) : Prop := {
  keyed : forall id d, rows db !! id = Some d -> ID d = id;
  keyed_changes : forall i t id d, txs db !! i = Some t -> changes t !! id = Some (Some d) -> ID d = id;
  held_rows : forall i t id d, txs db !! i = Some t -> held t !! id = Some d -> rows db !! id = Some d;
  held_changes : forall i t id, txs db !! i = Some t -> is_Some (changes t !! id) -> is_Some (held t !! id);
  held_once : forall i j t t' id, txs db !! i = Some t -> txs db !! j = Some t' -> is_Some (held t !! id) -> is_Some (held t' !! id) -> i = j }.

Lemma sees_keyed db i id d : table_ok db -> sees db i id = Some d -> ID d = id.
Proof.
  intros H. unfold sees. destruct (txs db !! i) as [t|] eqn:Et; cbn; [|by apply keyed].
  destruct (changes t !! id) as [x|] eqn:Ec; [|by apply keyed]. intros ->. by eapply keyed_changes.
Qed.

Lemma sees_untouched db i t id : txs db !! i = Some t -> changes t = ∅ -> sees db i id = rows db !! id.
Proof. intros Et Ec. unfold sees. by rewrite Et; cbn; rewrite Ec, lookup_empty. Qed.

Lemma runs_fits {R : Set} now i (q : statement R) r db db' : table_ok db -> runs totp_Validate now i q r db db' -> fits (txs db !! i) q r.
Proof.
  intros H. destruct q as [| | |lock user active|columns x|l|x|code secret|target]; cbn; try done.
  - destruct r; [by intros [? _]|done].
  - destruct r as [l|]; [|done]. intros [Hl Hlock]. split; [|split].
    + intros d Hd. by apply Hl in Hd as (id & _ & Hs).
    + intros d d' Hd Hd' E. apply Hl in Hd as (id & Hs & _). apply Hl in Hd' as (id' & Hs' & _).
      pose proof (sees_keyed _ _ _ _ H Hs). pose proof (sees_keyed _ _ _ _ H Hs'). congruence.
    + intros ->. destruct Hlock as (t & Et & _). exists t. split; [done|]. intros Ec d h Hd Hh.
      apply Hl in Hd as (id & Hs & _). pose proof (sees_keyed _ _ _ _ H Hs) as <-. rewrite (sees_untouched _ _ t) in Hs by done.
      pose proof (held_rows _ H _ _ _ _ Et Hh). congruence.
Qed.

(** *** Holding rows *)

Lemma hold_held db id t : is_Some (held t !! id) -> hold db id t = t.
Proof. unfold hold. intros [h ->]. by destruct (rows db !! id). Qed.

Lemma hold_changes db id t : changes (hold db id t) = changes t.
Proof. unfold hold. by destruct (held t !! id), (rows db !! id). Qed.

Lemma hold_lookup db id t id' d : held (hold db id t) !! id' = Some d -> held t !! id' = Some d \/ (id' = id /\ rows db !! id = Some d).
Proof.
  unfold hold. destruct (held t !! id), (rows db !! id) eqn:E; try by left. cbn. destruct (decide (id = id')) as [->|Hn].
  - rewrite lookup_insert_eq. intros [= <-]. by right.
  - rewrite lookup_insert_ne by done. by left.
Qed.

Lemma hold_mono db id t id' : is_Some (held t !! id') -> is_Some (held (hold db id t) !! id').
Proof.
  unfold hold. destruct (held t !! id) eqn:E, (rows db !! id); try done. cbn. destruct (decide (id = id')) as [->|Hn].
  - rewrite lookup_insert_eq. by eexists.
  - by rewrite lookup_insert_ne.
Qed.

(** A transaction that takes hold of rows no other one holds. *)
Lemma table_hold db i t t' : table_ok db -> txs db !! i = Some t ->
  (forall id d, held t' !! id = Some d -> held t !! id = Some d \/ (free db i id /\ rows db !! id = Some d)) ->
  (forall id, is_Some (changes t' !! id) -> is_Some (held t' !! id)) -> (forall id d, changes t' !! id = Some (Some d) -> ID d = id) ->
  table_ok (set_tx i t' db).
Proof.
  intros H Et Hh Hc Hk. assert (forall j u id, txs db !! j = Some u -> j <> i -> is_Some (held u !! id) -> is_Some (held t' !! id) -> False) as Hno.
  { intros j u id Hj Hn Hu [d Hd]. destruct (Hh _ _ Hd) as [Hd'|[Hf _]]; [|by apply Hn, (Hf j u)].
    apply Hn, (held_once _ H j i u t id); [done|done|done|by exists d]. }
  constructor; cbn; try by apply keyed.
  - intros j u id d [[-> <-]|[Hn Hj]]%lookup_insert_Some; [apply Hk|by eapply keyed_changes].
  - intros j u id d [[-> <-]|[Hn Hj]]%lookup_insert_Some; [|by eapply held_rows].
    intros Hd. destruct (Hh _ _ Hd) as [Hd'|[_ Hr]]; [by eapply held_rows|done].
  - intros j u id [[-> <-]|[Hn Hj]]%lookup_insert_Some; [apply Hc|by eapply held_changes].
  - intros j j' u u' id [[<- <-]|[Hn Hj]]%lookup_insert_Some [[<- <-]|[Hn' Hj']]%lookup_insert_Some Hu Hu'; [done|..].
    + destruct (Hno j' u' id); auto.
    + destruct (Hno j u id); auto.
    + by apply (held_once _ H j j' u u' id).
Qed.

(** Rows that none holds may change; a transaction may end. *)
Lemma table_rows db rows' : table_ok db -> (forall id d, rows' !! id = Some d -> ID d = id) ->
  (forall i t id d, txs db !! i = Some t -> held t !! id = Some d -> rows' !! id = rows db !! id) -> table_ok (mkDatabase rows' (txs db)).
Proof.
  intros H Hk Hr. constructor; cbn; [done|by apply keyed_changes| |by apply held_changes|by apply held_once].
  intros i t id d Et Hd. rewrite (Hr i t id d) by done. by eapply held_rows.
Qed.

Lemma table_closed db i : table_ok db -> table_ok (closed i db).
Proof.
  intros H. constructor; cbn; [by apply keyed|..]; intros *; rewrite ?lookup_delete_Some; intros;
    destruct_and?; [by eapply keyed_changes|by eapply held_rows|by eapply held_changes|by eapply (held_once _ H)].
Qed.

Lemma table_committed db i t : table_ok db -> txs db !! i = Some t -> table_ok (committed i t db).
Proof.
  intros H Et. apply (table_rows (closed i db)); [by apply table_closed|..]; cbn.
  - intros id d. rewrite over_lookup. destruct (changes t !! id) as [x|] eqn:E; [|by apply keyed]. intros ->. by eapply keyed_changes.
  - intros j u id d [Hn Hj]%lookup_delete_Some Hd. rewrite over_lookup. destruct (changes t !! id) eqn:E; [|done]. exfalso. apply Hn.
    apply (held_once _ H i j t u id); [done|done| |by exists d]. eapply held_changes; [done..|]. by exists o.
Qed.

(** *** Statements *)

(** What a record takes from the table, and what it may add to it. *)
Definition spent (a : action) : nat := match a with Ended true (Some t) => gain weight t | _ => 0 end.
Definition made (a : action) : nat := match a with Creates x => weight x | _ => 0 end.
Definition sum (f : action -> nat) (l : list action) : nat := fold_right (fun a n => f a + n)%nat 0%nat l.

(** A statement of request [i], recorded as [l]. *)
Record performs (i : nat) (l : list action) (db db' : database) : Prop := {
  stays_ok : table_ok db';
  mine : txs db' !! i = fold_left after_action l (txs db !! i);
  others : forall j, j <> i -> txs db' !! j = txs db !! j;
  accounts : (stock weight (rows db') + sum spent l <= stock weight (rows db) + sum made l)%nat }.

Lemma performs_nothing i l db : table_ok db -> fold_left after_action l (txs db !! i) = txs db !! i -> sum spent l = 0%nat -> performs i l db db.
Proof. intros H Hl Hs. constructor; [done|by rewrite Hl|done|lia]. Qed.

Lemma set_tx_id i t db : txs db !! i = Some t -> set_tx i t db = db.
Proof. intros H. unfold set_tx. rewrite insert_id by done. by destruct db. Qed.

Lemma performs_held i l db devices t : table_ok db -> txs db !! i = Some t -> changes t = ∅ ->
  (forall d, d ∈ devices -> rows db !! ID d = Some d) -> (forall d, d ∈ devices -> free db i (ID d)) -> l = [Held devices] ->
  performs i l db (set_tx i (foldr (fun d => hold db (ID d)) t devices) db).
Proof.
  intros H Et Ec Hr Hf ->.
  assert (foldr (fun d => hold db (ID d)) t devices = foldr hold_listed t devices /\
    forall id d, held (foldr hold_listed t devices) !! id = Some d -> held t !! id = Some d \/ (free db i id /\ rows db !! id = Some d)) as [E Hh].
  { clear Ec. induction devices as [|x devices IH]; cbn; [by split; [|left]|].
    destruct IH as [IH1 IH2]; [intros; apply Hr; by constructor|intros; apply Hf; by constructor|]. rewrite IH1.
    assert (hold db (ID x) (foldr hold_listed t devices) = hold_listed x (foldr hold_listed t devices)) as Ex.
    { unfold hold, hold_listed. rewrite (Hr x) by constructor. done. }
    split; [done|]. rewrite <- Ex. intros id d [Hd|[-> Hd]]%hold_lookup; [by apply IH2|]. right. split; [apply Hf; constructor|done]. }
  rewrite E. destruct (held_foldr devices t "") as [Ec' _]. rewrite Ec in Ec'. constructor.
  - apply (table_hold db i t); [done..| |]; intros id; rewrite Ec', lookup_empty; [by intros [? ?]|done].
  - cbn. by rewrite lookup_insert_eq, Et.
  - intros j Hj. cbn. by rewrite lookup_insert_ne.
  - cbn. lia.
Qed.

Lemma performs_change i db t id d h c l : table_ok db -> txs db !! i = Some t -> held t !! id = Some h -> (forall d', d = Some d' -> ID d' = id) ->
  c = mkTx (held t) (<[id := d]> (changes t)) -> fold_left after_action l (Some t) = Some c -> sum spent l = 0%nat -> performs i l db (set_tx i c db).
Proof.
  intros H Et Hh Hd -> El Hl. constructor.
  - apply (table_hold db i t); [done|done|by left|..]; cbn; intros id'.
    + destruct (decide (id = id')) as [<-|Hn]; [intros _; by exists h|]. rewrite lookup_insert_ne by done. by eapply held_changes.
    + intros d' [[<- ->]|[Hn Hc]]%lookup_insert_Some; [by apply Hd|]. by eapply keyed_changes.
  - cbn. by rewrite lookup_insert_eq, Et.
  - intros j Hj. cbn. by rewrite lookup_insert_ne.
  - cbn. lia.
Qed.

Lemma performs_update i db columns x d l : table_ok db -> may_do weight (txs db !! i) (Updated columns x Written) ->
  sees db i (ID x) = Some d -> free db i (ID x) ->
  l = [Updated columns x Written] \/ (txs db !! i = None /\ l = [Updated columns x WriteFailed]) ->
  performs i l db (put i (ID x) (Some (with_columns columns x d)) db).
Proof.
  intros H Hm Hs Hf Hl. cbn in Hm. unfold put. destruct (txs db !! i) as [t|] eqn:Et.
  - destruct Hl as [->|[? _]]; [|done]. destruct Hm as (Ec & h & Hh & _). rewrite (sees_untouched _ _ t) in Hs by done.
    pose proof (held_rows _ H _ _ _ _ Et Hh) as Hr. rewrite Hs in Hr. injection Hr as ->.
    rewrite hold_held by (by exists h). apply (performs_change i db t (ID x) (Some (with_columns columns x h)) h); [done|done|done| |done| |by subst].
    + intros d' [= <-]. cbn. by apply (keyed _ H).
    + cbn. by rewrite Hh.
  - unfold sees in Hs. rewrite Et in Hs. cbn in Hs. assert (weight (with_columns columns x d) = weight d) as Hw.
    { apply weight_codes; [done..|]. unfold with_columns. cbn. by rewrite bool_decide_false. }
    assert (fold_left after_action l None = None /\ sum spent l = 0%nat /\ sum made l = 0%nat) as (E1 & E2 & E3) by (by destruct Hl as [->|[_ ->]]).
    constructor; cbn; [|by rewrite Et, E1|done|].
    + apply (table_rows db); [done|..].
      * intros id d'. destruct (decide (ID x = id)) as [<-|Hn]; [|rewrite lookup_partial_alter_ne by done; by apply keyed].
        rewrite lookup_partial_alter_eq. intros [= <-]. cbn. by apply (keyed _ H).
      * intros j u id d' Hj Hd'. rewrite lookup_partial_alter_ne; [done|]. intros <-. assert (j = i) by (apply (Hf j u); [done|by exists d']). by subst; rewrite Et in Hj.
    + rewrite E2, E3, !Nat.add_0_r. apply stock_mono. intros id. destruct (decide (ID x = id)) as [<-|Hn].
      * rewrite lookup_partial_alter_eq, Hs. cbn. lia.
      * by rewrite lookup_partial_alter_ne.
Qed.

Lemma put_erase i t db l : txs db !! i = Some t -> (forall d, d ∈ l -> is_Some (held t !! ID d)) ->
  foldr (fun d => put i (ID d) None) db l = set_tx i (mkTx (held t) (foldr (fun d => insert (ID d) None) (changes t) l)) db.
Proof.
  intros Et. induction l as [|d l IH]; intros Hl; cbn; [destruct t; by rewrite set_tx_id|].
  rewrite IH by (intros; apply Hl; by constructor). unfold put, set_tx. cbn. rewrite lookup_insert_eq. cbn.
  rewrite hold_held by (apply Hl; by constructor). cbn. by rewrite insert_insert_eq.
Qed.

Lemma performs_erase i db l : table_ok db -> may_do weight (txs db !! i) (Erased l Written) ->
  performs i [Erased l Written] db (foldr (fun d => put i (ID d) None) db l).
Proof.
  intros H (t & Et & Hl). rewrite (put_erase i t) by done. constructor.
  - apply (table_hold db i t); [done|done|by left|..]; cbn; intros id; rewrite erased_lookup; case_bool_decide as Hid.
    + intros _. apply list_elem_of_fmap in Hid as (d & -> & Hd). by apply Hl.
    + by eapply held_changes.
    + done.
    + intros d. by eapply keyed_changes.
  - cbn. by rewrite lookup_insert_eq, Et.
  - intros j Hj. cbn. by rewrite lookup_insert_ne.
  - cbn. lia.
Qed.

Lemma performs_create i db x id created : table_ok db -> txs db !! i = None -> fresh db id ->
  performs i [Creates x] db (mkDatabase
    (<[id := mkDevice id (UserID x) (DeviceName x) (Secret x) (BackupCodeHashes x) (IsActive x) (LastUsedAt x) created]> (rows db)) (txs db)).
Proof.
  intros H Et [Hid _]. constructor; cbn; [|by rewrite Et|done|].
  - apply (table_rows db); [done|..].
    + intros id' d [[<- <-]|[_ Hd]]%lookup_insert_Some; [done|by apply (keyed _ H)].
    + intros j t id' d Ej Hd. rewrite lookup_insert_ne; [done|]. intros <-. by rewrite (held_rows _ H j t id d) in Hid.
  - rewrite stock_insert by done. rewrite (weight_codes _ x) by done. lia.
Qed.

Lemma performs_commit i db t l : table_ok db -> txs db !! i = Some t -> tame weight t ->
  (exists ok, l = [Ended ok (Some t)]) -> performs i l db (committed i t db).
Proof.
  intros H Et Ht [ok ->]. constructor; cbn; [by apply table_committed|by rewrite lookup_delete_eq|intros j Hj; by rewrite lookup_delete_ne|].
  pose proof (stock_commit weight t (rows db) Ht (fun id d => held_rows _ H i t id d Et)). destruct ok; lia.
Qed.

Lemma performs_closed i db o : table_ok db -> performs i [Ended false o] db (closed i db).
Proof.
  intros H. constructor; cbn; [by apply table_closed|by rewrite lookup_delete_eq|intros j Hj; by rewrite lookup_delete_ne|lia].
Qed.

(** A statement that is in order does to the table what its record says. *)
Lemma runs_performs {R : Set} now i (q : statement R) r db db' : table_ok db -> runs totp_Validate now i q r db db' ->
  (forall t, txs db !! i = Some t -> tame weight t) -> orderly_from weight (txs db !! i) (recorded (txs db !! i) q r) ->
  performs i (recorded (txs db !! i) q r) db db'.
Proof.
  intros H Hr Ht Ho. destruct q as [| | |lock user active|columns x|l|x|code secret|target]; cbn in Hr, Ho; cbn [recorded].
  - destruct r; [|subst; by apply performs_nothing]. destruct Hr as [Et ->]. rewrite Et in *. constructor; cbn.
    + constructor; cbn; [by apply keyed|intros *|intros *|intros *|intros *].
      * intros [[-> <-]|[_ Hj]]%lookup_insert_Some; [cbn; by rewrite lookup_empty|by eapply keyed_changes].
      * intros [[-> <-]|[_ Hj]]%lookup_insert_Some; [cbn; by rewrite lookup_empty|by eapply held_rows].
      * intros [[-> <-]|[_ Hj]]%lookup_insert_Some; [cbn; rewrite lookup_empty; by intros [? ?]|by eapply held_changes].
      * intros [[-> <-]|[_ Hj]]%lookup_insert_Some; [cbn; rewrite lookup_empty; by intros _ [? ?]|].
        intros [[-> <-]|[_ Hj']]%lookup_insert_Some; [cbn; rewrite lookup_empty; by intros _ [? ?]|by eapply (held_once _ H)].
    + by rewrite lookup_insert_eq.
    + intros j Hj. by rewrite lookup_insert_ne.
    + lia.
  - destruct (txs db !! i) as [t|] eqn:Et; [|destruct Hr as [-> ->]; by apply performs_nothing; [..|rewrite Et|]].
    destruct Hr as [->|[-> ->]]; [|by apply performs_closed]. apply performs_commit; [done|done|by apply Ht|by exists r].
  - subst. by apply performs_closed.
  - destruct r as [l|]; [|subst; by apply performs_nothing]. destruct Hr as [Hl Hr]. destruct lock; [|subst; by apply performs_nothing].
    destruct Hr as (t & Et & Hf & ->). destruct Ho as [(t' & Et' & Ec) _]. rewrite Et in Et'. injection Et' as <-.
    apply performs_held; [done..| |done|done]. intros d Hd. apply Hl in Hd as (id & Hs & _).
    pose proof (sees_keyed _ _ _ _ H Hs) as <-. by rewrite (sees_untouched _ _ t) in Hs.
  - destruct Ho as [Hm _]. destruct r; cbn [sum spent made].
    + destruct Hr as (d & Hs & Hf & ->). apply performs_update; auto.
    + subst. apply performs_nothing; [done|by cbn; destruct (txs _ !! i)|done].
    + destruct Hr as [->|(Et & d & Hs & Hf & ->)]; [by apply performs_nothing; [|cbn; destruct (txs db !! i)|]|].
      apply performs_update; [done| |done|done|by right]. rewrite Et in *. exact Hm.
  - destruct Ho as [Hm _]. destruct r.
    + destruct Hr as [_ ->]. by apply performs_erase.
    + subst. apply performs_nothing; [done|by cbn; destruct (txs _ !! i)|done].
    + destruct Hr as [->|(Et & _)]; [by apply performs_nothing; [|cbn; destruct (txs db !! i)|]|]. destruct Hm as (t & Et' & _). by rewrite Et in Et'.
  - destruct r as [id|]; [destruct Hr as (created & Hf & Et & _ & ->); by apply performs_create|].
    destruct Hr as [->|(id & created & Hf & Et & _ & ->)]; [|by apply performs_create]. by apply performs_nothing.
  - destruct Hr as [_ ->]. by destruct r; apply performs_nothing.
  - subst. by destruct r; apply performs_nothing.
Qed.
End Table.

(** ** Keys *)

Lemma used_not_failure k : is_used k -> ~ is_failure k.
Proof. intros (u & c & ->) (p & u' & E). discriminate. Qed.

Lemma used_not_bind k : is_used k -> ~ is_bind k.
Proof. intros (u & c & ->) (i & E). discriminate. Qed.

Lemma used_reserved k : is_used k -> reserved k.
Proof. intros (u & c & ->). by eexists. Qed.

Lemma failure_reserved k : is_failure k -> reserved k.
Proof. intros (p & u & ->). by eexists. Qed.

Section Keys.
Context {S : Type} `{Documented S}.
Implicit Types w : world S.

Lemma live_stored w k e : stored w !! k = Some e -> live (clock w) (stored w) !! k = Some e.
Proof. intros E. apply live_lookup. split; [done|by apply (stored_lookup w k)]. Qed.

(** *** The codes that were used *)

Lemma after_used {R : Set} (c : cmd R) w k e : sends R c -> is_used k -> stored w !! k = Some e -> stored (after c w) !! k = Some e.
Proof.
  intros Hc Hk He. destruct (decide (k ∈ touched c)) as [Ht|Ht]; [|by rewrite after_frame].
  destruct (after_documented c w) as (d & _ & _ & ->).
  destruct c; cbn in Hc, Ht; try done; try (by apply elem_of_nil in Ht); rewrite ?list_elem_of_singleton in Ht.
  - subst key. by destruct (used_not_bind k).
  - subst key. cbn. rewrite He. by apply live_stored.
  - subst key. destruct Hc as [Hf _]. by destruct (used_not_failure k).
  - destruct (Hc k Ht); [by destruct (used_not_failure k)|by destruct (used_not_bind k)].
Qed.

Lemma after_marked w k v : answer (SetNX k v totpCodeReplayTTL) w = Some true ->
  stored w !! k = None /\ exists e d, stored (after (SetNX k v totpCodeReplayTTL) w) !! k = Some (e, Some d) /\ clock w + totpCodeReplayTTL <= d.
Proof.
  destruct (after_documented (SetNX k v totpCodeReplayTTL) w) as (d & Hd & -> & ->). cbn.
  destruct (stored w !! k) eqn:E; [done|]. intros _. split; [done|].
  destruct Hd as (H1 & H2 & _); [by cbn|]. exists (Text v), d. split; [|by apply H2].
  apply live_lookup. split; [cbn; by rewrite lookup_insert_eq|]. unfold lives. cbn. exact H1.
Qed.

(** A mark stays until the code was marked for as long as it lasts, and marks
    of one code lie further apart. *)
Record marks_ok (w : world S) (trail : list entry) : Prop := {
  marked_used : forall e k, e ∈ trail -> did e = Marked k -> is_used k;
  marked_kept : forall e k, e ∈ trail -> did e = Marked k ->
    (exists v d, stored w !! k = Some (v, Some d) /\ at_ e + totpCodeReplayTTL <= d) \/ at_ e + totpCodeReplayTTL < clock w;
  marked_apart : forall i j e e' k, (i < j)%nat -> trail !! i = Some e -> trail !! j = Some e' -> did e = Marked k -> did e' = Marked k ->
    at_ e + totpCodeReplayTTL < at_ e' }.

(** The keys of used codes stay until they expire. *)
Definition keeps_used (w w' : world S) : Prop := clock w <= clock w' /\
  forall k v d, is_used k -> stored w !! k = Some (v, Some d) -> stored w' !! k = Some (v, Some d) \/ d < clock w'.

Lemma marks_keep w w' trail new : marks_ok w trail -> keeps_used w w' -> (forall e k, e ∈ new -> did e <> Marked k) -> marks_ok w' (trail ++ new).
Proof.
  intros [Hu Hk Ha] [Hc Hs] Hn. constructor.
  - intros e k [He|He]%elem_of_app E; [by apply (Hu e)|by destruct (Hn e k)].
  - intros e k [He|He]%elem_of_app E; [|by destruct (Hn e k)]. destruct (Hk e k He E) as [(v & d & Hd & Hle)|]; [|right; lia].
    destruct (Hs k v d (Hu e k He E) Hd); [left; eauto|right; lia].
  - intros i j e e' k Hij Hi Hj E E'. assert (forall n x, (trail ++ new) !! n = Some x -> did x = Marked k -> trail !! n = Some x) as Hold.
    { intros n x [Hx|[_ Hx]]%lookup_app_Some Ex; [done|]. apply list_elem_of_lookup_2 in Hx. by destruct (Hn x k). }
    apply (Ha i j e e' k); auto.
Qed.

Lemma marks_mark w trail i k v : marks_ok w trail -> is_used k -> answer (SetNX k v totpCodeReplayTTL) w = Some true ->
  marks_ok (after (SetNX k v totpCodeReplayTTL) w) (trail ++ [mkEntry i (clock w) (Marked k)]).
Proof.
  intros [Hu Hk Ha] Hused Hans. destruct (after_marked w k v Hans) as [Hnone (x & d & Hd & Hle)].
  assert (sends bool (SetNX k v totpCodeReplayTTL)) as Hsend by done.
  assert (forall e, e ∈ trail -> did e = Marked k -> at_ e + totpCodeReplayTTL < clock w) as Hold.
  { intros e He E. destruct (Hk e k He E) as [(y & d' & Hd' & _)|]; [congruence|done]. }
  constructor.
  - intros e k' [He| ->%list_elem_of_singleton]%elem_of_app E; [by apply (Hu e)|]. cbn in E. by injection E as <-.
  - intros e k' [He| ->%list_elem_of_singleton]%elem_of_app E.
    + destruct (Hk e k' He E) as [(y & d' & Hd' & Hle')|]; [|by right]. left. exists y, d'. split; [|done].
      apply after_used; [done|by apply (Hu e)|done].
    + cbn in E. injection E as <-. left. eauto.
  - intros n m e e' k' Hnm Hn Hm E E'. apply lookup_app_Some in Hm as [Hm|[Hlen Hm]].
    + apply (Ha n m e e' k'); [done| |done..]. rewrite lookup_app_l in Hn; [done|]. apply lookup_lt_Some in Hm. lia.
    + apply list_lookup_singleton_Some in Hm as [Hm <-]. cbn in *. injection E' as <-. apply (Hold e); [|done].
      rewrite lookup_app_l in Hn by lia. by apply list_elem_of_lookup_2 in Hn.
Qed.

Lemma keeps_used_after {R : Set} (c : cmd R) w : sends R c -> keeps_used w (after c w).
Proof. intros Hc. split; [done|]. intros k v d Hk Hs. left. by apply after_used. Qed.

Lemma keeps_used_same w w' : clock w' = clock w -> (forall k, reserved k -> stored w' !! k = stored w !! k) -> keeps_used w w'.
Proof. intros Hc Hs. split; [lia|]. intros k v d Hk E. left. by rewrite Hs by (by apply used_reserved). Qed.

Lemma keeps_used_tick w t : clock w <= t -> keeps_used w (tick t w).
Proof.
  intros Ht. split; [done|]. intros k v d _ E. rewrite stored_tick by done. destruct (decide (t <= d)) as [Hd|Hd]; [left|right; cbn; lia].
  by apply live_lookup.
Qed.

(** *** The attempts that were counted *)

Section Counter.
Variables (k : string) (t0 : Z).
Hypothesis Hk : is_failure k.

(** An attempt that was let on, and a deletion of the count. *)
Definition granted (a : action) : nat :=
  match a with Counted k' n => if bool_decide (k' = k /\ n <= totpVerificationAttemptLimit) then 1 else 0 | _ => 0 end.
Definition forgotten (a : action) : nat := match a with Dropped ks => if bool_decide (k ∈ ks) then 1 else 0 | _ => 0 end.

(** [n] windows were opened, each after the end of the one before it unless
    that was deleted, and each let at most five attempts on. *)
Definition counter_ok (w : world S) (trail : list entry) : Prop :=
  let g := Z.of_nat (total granted trail) in
  let r := Z.of_nat (total forgotten trail) in
  t0 <= clock w /\ exists n,
    (exists c d o, stored w !! k = Some (Number c, Some d) /\ 1 <= c /\ t0 <= o <= clock w /\ o + totpVerificationAttemptWindow <= d /\
       g <= totpVerificationAttemptLimit * (n - 1) + Z.min c totpVerificationAttemptLimit /\
       (n - 1 - r) * totpVerificationAttemptWindow <= o - t0) \/
    (stored w !! k = None /\ g <= totpVerificationAttemptLimit * n /\ (n - r) * totpVerificationAttemptWindow <= clock w - t0).

(** What it comes to. *)
Lemma counter_bound w trail : counter_ok w trail ->
  Z.of_nat (total granted trail) <=
  totpVerificationAttemptLimit * (1 + (clock w - t0) / totpVerificationAttemptWindow + Z.of_nat (total forgotten trail)).
Proof.
  intros (Ht & n & Hn). set (W := totpVerificationAttemptWindow) in *. assert (0 < W) as HW by (by cbn).
  assert (forall x, x * W <= clock w - t0 -> x <= (clock w - t0) / W) as Hdiv.
  { intros x Hx. apply Z.div_le_lower_bound; [done|]. lia. }
  unfold totpVerificationAttemptLimit in *.
  destruct Hn as [(c & d & o & _ & Hc & Ho & _ & Hg & Hw)|(_ & Hg & Hw)].
  - pose proof (Hdiv (n - 1 - Z.of_nat (total forgotten trail)) ltac:(lia)). lia.
  - pose proof (Hdiv _ Hw). lia.
Qed.

Lemma counter_same w w' trail new : counter_ok w trail -> clock w' = clock w -> stored w' !! k = stored w !! k ->
  total granted new = 0%nat -> total forgotten new = 0%nat -> counter_ok w' (trail ++ new).
Proof. intros Hok Hc Hs Hg Hr. unfold counter_ok. by rewrite !total_app, Hg, Hr, !Nat.add_0_r, Hc, Hs. Qed.

Lemma counter_tick w t trail : counter_ok w trail -> clock w <= t -> counter_ok (tick t w) trail.
Proof.
  intros (Ht & n & Hn) Htick. unfold counter_ok. change (clock (tick t w)) with t. cbv zeta in *. split; [lia|]. exists n. rewrite stored_tick by done.
  destruct Hn as [(c & d & o & Hs & Hc & Ho & Hd & Hg & Hw)|(Hs & Hg & Hw)].
  - destruct (decide (t <= d)) as [Hle|Hgt].
    + left. exists c, d, o. split; [by apply live_lookup|]. repeat split; try done; lia.
    + right. split; [|unfold totpVerificationAttemptLimit in *; lia]. apply map_lookup_filter_None. right. intros e He. rewrite Hs in He. injection He as <-. done.
  - right. split; [by apply live_None|]. split; [done|]. lia.
Qed.

Lemma granted_count i t c got : got = Some c \/ got = None ->
  Z.of_nat (total granted (map (mkEntry i t) (match got with Some m => [Counted k m] | None => [] end))) <=
  if decide (c <= totpVerificationAttemptLimit) then 1 else 0.
Proof. intros [->| ->]; cbn; [case_bool_decide|]; destruct (decide _); tauto || lia. Qed.

Lemma counter_increment w trail i got : counter_ok w trail -> got = answer (IncrFixedWindow k totpVerificationAttemptWindow) w \/ got = None ->
  counter_ok (after (IncrFixedWindow k totpVerificationAttemptWindow) w)
    (trail ++ map (mkEntry i (clock w)) (recorded_command (IncrFixedWindow k totpVerificationAttemptWindow) true got)).
Proof.
  intros (Ht & n & Hn) Hgot. set (W := totpVerificationAttemptWindow) in *. unfold counter_ok. rewrite !total_app, clock_after.
  destruct (after_documented (IncrFixedWindow k W) w) as (d' & Hd' & Ha & Hs'). rewrite Ha in Hgot. rewrite Hs'. clear Ha Hs'. cbn in Hgot |- *.
  split; [done|]. destruct Hd' as (H1 & H2 & _); [by cbn|]. specialize (H2 eq_refl). fold W in H2.
  set (g := total granted trail) in *. set (r := total forgotten trail) in *. unfold totpVerificationAttemptLimit in *.
  assert (forall v e, lives (clock w) (v, Some e) -> live (clock w) (<[k := (v, Some e)]> (stored w)) !! k = Some (v, Some e)) as Hlive.
  { intros v e He. apply live_lookup. split; [by rewrite lookup_insert_eq|done]. }
  assert (total forgotten (map (mkEntry i (clock w)) (match got with Some m => [Counted k m] | None => [] end)) = 0%nat) as -> by (by destruct got).
  destruct Hn as [(c & d & o & Hs & Hc & Ho & Hd & Hg & Hw)|(Hs & Hg & Hw)]; rewrite Hs in Hgot |- *; cbn in *.
  - exists n. left. exists (c + 1), d, o. split; [apply Hlive; by apply (stored_lookup w k (Number c, Some d)) in Hs|].
    pose proof (granted_count i (clock w) (c + 1) got Hgot). unfold totpVerificationAttemptLimit in *. destruct (decide _); repeat split; lia.
  - exists (n + 1). left. exists 1, d', (clock w). split; [by apply Hlive|].
    pose proof (granted_count i (clock w) 1 got Hgot). unfold totpVerificationAttemptLimit in *. destruct (decide _); repeat split; lia.
Qed.

Lemma counter_drop w trail i ks : counter_ok w trail -> counter_ok (after (Del ks) w) (trail ++ [mkEntry i (clock w) (Dropped ks)]).
Proof.
  intros Hok. destruct (decide (k ∈ ks)) as [Hin|Hout].
  - destruct Hok as (Ht & n & Hn). unfold counter_ok. rewrite !total_app. cbn [total forgotten granted did]. rewrite bool_decide_true by done. split; [done|].
    exists n. right. split; [|destruct Hn as [(c & d & o & _ & Hc & Ho & _ & Hg & Hw)|(_ & Hg & Hw)]; rewrite clock_after; unfold totpVerificationAttemptLimit, totpVerificationAttemptWindow, second, millisecond in *; lia].
    destruct (after_documented (Del ks) w) as (d & _ & _ & ->). cbn. apply live_None. by rewrite delete_all_lookup, bool_decide_true.
  - apply (counter_same w); [done|done|by apply after_frame|done|]. cbn. by rewrite bool_decide_false.
Qed.

(** Any command the services send. *)
Lemma counter_command {R : Set} (c : cmd R) w trail i got : sends R c -> counter_ok w trail -> got = answer c w \/ got = None ->
  counter_ok (after c w) (trail ++ map (mkEntry i (clock w)) (recorded_command c true got)).
Proof.
  intros Hc Hok Hgot. destruct c as [ | k' s ttl|k' s ttl| | |k' W| |ks| | | | | |]; try done; cbn [recorded_command].
  - by apply (counter_same w); [|done|apply after_frame, not_elem_of_nil|..].
  - apply (counter_same w); [done|done| |done|done]. apply after_frame. cbn. intros ->%list_elem_of_singleton. by apply (bind_not_failure k').
  - destruct Hc as [Hu _]. apply (counter_same w); [done|done| |by destruct got as [[]|]|by destruct got as [[]|]].
    apply after_frame. cbn. intros ->%list_elem_of_singleton. by apply (used_not_failure k').
  - destruct Hc as [Hf ->]. destruct (decide (k' = k)) as [->|Hne]; [by apply counter_increment|].
    apply (counter_same w); [done|done| | |by destruct got].
    + apply after_frame. cbn. by intros ->%list_elem_of_singleton.
    + destruct got; [|done]. cbn. rewrite bool_decide_false; [done|]. tauto.
  - by apply counter_drop.
Qed.
End Counter.
End Keys.

(** ** The system *)

Lemma orderly_app weight l l' : orderly weight (l ++ l') -> orderly_from weight (replay l) l'.
Proof.
  unfold orderly, replay. generalize (@None tx). induction l as [|a l IH]; intros o; cbn; [done|]. intros [_ H]. by apply IH.
Qed.

Lemma replay_app l l' : replay (l ++ l') = fold_left after_action l' (replay l).
Proof. unfold replay. by rewrite fold_left_app. Qed.

Lemma total_entries f i t l : total f (map (mkEntry i t) l) = sum f l.
Proof. induction l as [|a l IH]; [done|]. cbn. by rewrite IH. Qed.

Lemma command_outside {R : Set} (c : cmd R) executed got o : fold_left after_action (recorded_command c executed got) o = o.
Proof. destruct c; try done; cbn; [by destruct got as [[]|]|by destruct got|by destruct executed]. Qed.

Section System.
Context {S : Type} `{Documented S}.
Variable totp_Validate : string -> string -> Z -> bool.
Variable hmac_sha256 : string -> string -> list Byte.byte.
Variable marshal : totpBindChallenge -> option string.
Variable unmarshal : string -> option totpBindChallenge.
(** The recovery code whose uses are counted. *)
Variables user0 code0 : string.
Variables (w0 : world S) (rows0 : gmap string TOTPDevice).

Local Abbreviation weight := (stored_codes hmac_sha256 user0 code0).
Local Abbreviation Inv := (Inv hmac_sha256 user0 code0).
Local Abbreviation ends_well := (ends_well hmac_sha256 user0 code0).
Local Abbreviation follows r p l := (always sends (Inv r) p l (ends_well r)).
Local Abbreviation step := (step totp_Validate hmac_sha256 marshal unmarshal).

Lemma weight_codes d d' : UserID d = UserID d' -> Secret d = Secret d' -> BackupCodeHashes d = BackupCodeHashes d' -> weight d = weight d'.
Proof. intros E1 E2 E3. unfold stored_codes. by rewrite E1, E2, E3. Qed.

Record system_ok (s : state S) : Prop := {
  sys_table : table_ok (data s);
  sys_threads : forall i th, threads s !! i = Some th ->
    requests s !! i = Some (serves th) /\ follows (serves th) (rest th) (own i (trail s)) /\ txs (data s) !! i = replay (own i (trail s));
  sys_idle : forall i, threads s !! i = None -> txs (data s) !! i = None;
  sys_trail : forall e, e ∈ trail s -> (owner e < length (requests s))%nat /\ at_ e <= clock (this s);
  sys_clock : forall i th, threads s !! i = Some th -> began th <= clock (this s);
  sys_began : forall th e, threads s !! owner e = Some th -> e ∈ trail s -> began th <= at_ e;
  sys_records : forall i r, requests s !! i = Some r -> Inv r (own i (trail s));
  sys_events : forall ev, ev ∈ events s ->
    requests s !! by_ ev = Some (asked ev) /\ threads s !! by_ ev = None /\ ends_well (asked ev) (own (by_ ev) (trail s)) (answered ev) /\
    forall e, e ∈ trail s -> owner e = by_ ev -> begun_at ev <= at_ e <= answered_at ev;
  sys_once : NoDup (map by_ (events s));
  sys_stock : (stock weight (rows (data s)) + total (spent weight) (trail s) <= stock weight rows0 + total (made weight) (trail s))%nat;
  sys_marks : marks_ok (this s) (trail s) }.

Lemma own_beyond s i : system_ok s -> (length (requests s) <= i)%nat -> own i (trail s) = [].
Proof.
  intros Hok Hi. destruct (own i (trail s)) as [|a l] eqn:E; [done|]. assert (a ∈ own i (trail s)) as Ha by (rewrite E; constructor).
  apply own_elem in Ha as [t Ht]. apply (sys_trail _ Hok) in Ht as [Hlt _]. cbn in Hlt. lia.
Qed.

(** What a step of a request leaves, of its program and of the world. *)
Lemma advance_ok s i th w db l p : system_ok s -> threads s !! i = Some th -> advance totp_Validate s i (rest th) w db l p ->
  follows (serves th) p (own i (trail s) ++ l) /\ performs weight i l (data s) db /\ clock w = clock (this s) /\ marks_ok w (note i s l).
Proof.
  intros Hok Hi Hadv. destruct (sys_threads _ Hok i th Hi) as (Hreq & Hf & Htx). remember (rest th) as p0 eqn:Ep.
  assert (keeps_used (this s) (this s)) as Hsame by (by apply keeps_used_same).
  destruct Hadv as [k|R c k got Hgot|R c k|R q k r db Hr]; cbn in Hf.
  - destruct Hf as [_ Hf]. rewrite app_nil_r. split; [apply Hf|]. split; [by apply performs_nothing; [apply sys_table|..]|]. split; [done|].
    apply (marks_keep (this s)); [apply Hok|done|by intros ? ? ?%elem_of_nil].
  - destruct Hf as (_ & Hc & _ & Hf). split; [apply Hf|]. split.
    { apply performs_nothing; [apply Hok|apply command_outside|]. destruct c; try done; cbn; [by destruct got as [[]|]|by destruct got]. }
    split; [done|]. unfold note. assert (forall x : action, (forall k', x <> Marked k') -> recorded_command c true got = [x] \/ recorded_command c true got = [] ->
      marks_ok (after c (this s)) (trail s ++ map (mkEntry i (clock (this s))) (recorded_command c true got))) as Hplain.
    { intros x Hx Hrec. apply (marks_keep (this s)); [apply Hok|by apply keeps_used_after|]. intros e k' He E.
      destruct Hrec as [Hrec|Hrec]; rewrite Hrec in He; cbn in He; [|by apply elem_of_nil in He].
      apply list_elem_of_singleton in He as ->. by apply (Hx k'). }
    destruct c; try done; cbn [recorded_command] in Hplain |- *; try (apply (Hplain Began); [done|by right]).
    + destruct got as [[]|]; try (apply (Hplain Began); [done|by right]). destruct Hc as [Hu ->]. apply marks_mark; [apply Hok|done|].
      by destruct Hgot as [<-|].
    + destruct got as [n|]; [apply (Hplain (Counted key n)); [done|by left]|apply (Hplain Began); [done|by right]].
    + apply (Hplain (Dropped keys)); [done|by left].
  - destruct Hf as (_ & _ & Hf & _). rewrite app_nil_r. split; [done|]. split; [by apply performs_nothing; [apply sys_table|..]|]. split; [done|].
    apply (marks_keep (this s)); [apply Hok|done|by intros ? ? ?%elem_of_nil].
  - destruct Hf as [Hi0 Hf]. rewrite <- Htx in Hf. specialize (Hf r (runs_fits totp_Validate _ _ _ _ _ _ (sys_table _ Hok) Hr)).
    split; [done|]. pose proof (always_Inv _ _ _ _ _ Hf) as [Ho _]. split; [|split; [done|]].
    + apply (runs_performs totp_Validate weight weight_codes (clock (this s))); [apply Hok|done| |].
      * intros t Et. rewrite Htx in Et. by apply (tame_replay weight (own i (trail s))); [apply Hi0|].
      * rewrite Htx. apply orderly_app. by rewrite <- Htx.
    + apply (marks_keep (this s)); [apply Hok|done|]. intros e k' He E. apply list_elem_of_fmap in He as (a & -> & Ha). cbn in E. subst a.
      clear -Ha. destruct q; cbn in Ha; repeat case_match; set_solver.
Qed.

Lemma note_mine i (s : state S) l : own i (note i s l) = own i (trail s) ++ l.
Proof. unfold note. by rewrite own_app, own_mine. Qed.

Lemma note_other i j (s : state S) l : i <> j -> own i (note j s l) = own i (trail s).
Proof. intros Hn. unfold note. by rewrite own_app, own_other, app_nil_r. Qed.

Lemma note_elem i (s : state S) l e : e ∈ note i s l -> e ∈ trail s \/ (owner e = i /\ at_ e = clock (this s)).
Proof. unfold note. intros [He|(a & -> & _)%list_elem_of_fmap]%elem_of_app; [by left|by right]. Qed.

Lemma system_advance (s : state S) i th w db l p : system_ok s -> threads s !! i = Some th -> advance totp_Validate s i (rest th) w db l p ->
  system_ok (mkState w db (<[i := mkThread (serves th) (began th) p]> (threads s)) (requests s) (note i s l) (events s)).
Proof.
  intros Hok Hi Hadv. destruct (advance_ok s i th w db l p Hok Hi Hadv) as (Hf & Hp & Hw & Hm).
  destruct (sys_threads _ Hok i th Hi) as (Hreq & _ & Htx). constructor; cbn.
  - by apply Hp.
  - intros j th' [[<- <-]|[Hn Hj]]%lookup_insert_Some; cbn.
    + rewrite note_mine. split; [done|]. split; [done|]. by rewrite (mine _ _ _ _ _ Hp), Htx, replay_app.
    + rewrite note_other, (others _ _ _ _ _ Hp) by done. by apply Hok.
  - intros j [Hj Hn]%lookup_insert_None. rewrite (others _ _ _ _ _ Hp) by done. by apply Hok.
  - intros e [He|[Eo ->]]%note_elem; rewrite Hw; [by apply Hok|]. rewrite Eo. split; [by apply lookup_lt_Some in Hreq|done].
  - intros j th' [[<- <-]|[Hn Hj]]%lookup_insert_Some; rewrite Hw; [cbn; by apply (sys_clock _ Hok i)|by apply (sys_clock _ Hok j)].
  - intros th' e Hth [He|[Eo ->]]%note_elem.
    + apply lookup_insert_Some in Hth as [[Ei <-]|[_ Hth]]; [|by apply (sys_began _ Hok)]. cbn. apply (sys_began _ Hok th e); [by rewrite <- Ei|done].
    + rewrite Eo, lookup_insert_eq in Hth. injection Hth as <-. cbn. by apply (sys_clock _ Hok i).
  - intros j r Hj. destruct (decide (j = i)) as [->|Hn]; [|rewrite note_other by done; by apply Hok].
    rewrite note_mine. rewrite Hreq in Hj. injection Hj as <-. by apply always_Inv in Hf.
  - intros ev Hev. destruct (sys_events _ Hok ev Hev) as (H1 & H2 & H3 & H4). assert (by_ ev <> i) as Hn by congruence.
    split; [done|]. split; [by rewrite lookup_insert_ne|]. rewrite note_other by done. split; [done|].
    intros e [He|[Eo _]]%note_elem; [by apply H4|]. intros E. congruence.
  - apply Hok.
  - pose proof (accounts _ _ _ _ _ Hp) as Ha. pose proof (sys_stock _ Hok) as Hs. unfold note. rewrite !total_app, !total_entries. lia.
  - done.
Qed.

Lemma system_tick (s : state S) w : system_ok s -> clock (this s) <= clock w -> marks_ok w (trail s) ->
  system_ok (mkState w (data s) (threads s) (requests s) (trail s) (events s)).
Proof.
  intros [] Hc Hm. constructor; cbn; try done.
  - intros e He. destruct (sys_trail0 e He). split; [done|lia].
  - intros i th Hth. pose proof (sys_clock0 i th Hth). lia.
Qed.

Lemma system_start (s : state S) r : system_ok s ->
  system_ok (mkState (this s) (data s) (<[length (requests s) := mkThread r (clock (this s)) (body hmac_sha256 marshal unmarshal r)]> (threads s))
    (requests s ++ [r]) (trail s) (events s)).
Proof.
  intros Hok. assert (threads s !! length (requests s) = None) as Hnew.
  { destruct (threads s !! length (requests s)) as [th|] eqn:E; [|done]. apply (sys_threads _ Hok) in E as [E _]. apply lookup_lt_Some in E. lia. }
  pose proof (own_beyond s (length (requests s)) Hok ltac:(lia)) as Hown. constructor; cbn; try apply Hok.
  - intros i th [[<- <-]|[Hn Hi]]%lookup_insert_Some; cbn.
    + rewrite list_lookup_middle by done. split; [done|]. rewrite Hown. split; [by apply follows_body|]. by apply (sys_idle _ Hok).
    + destruct (sys_threads _ Hok i th Hi) as (H1 & H2 & H3). split; [by apply lookup_app_l_Some|done].
  - intros i [Hi Hn]%lookup_insert_None. by apply (sys_idle _ Hok).
  - intros e He. destruct (sys_trail _ Hok e He). rewrite length_app. cbn. split; [lia|done].
  - intros i th [[<- <-]|[Hn Hi]]%lookup_insert_Some; [done|by apply (sys_clock _ Hok i)].
  - intros th e [[E <-]|[Hn Hi]]%lookup_insert_Some He; [|by apply (sys_began _ Hok)]. destruct (sys_trail _ Hok e He). lia.
  - intros i r' [Hi|[Hi Hr]]%lookup_app_Some; [by apply (sys_records _ Hok)|]. rewrite (own_beyond s i Hok Hi). split; [done|]. intros ks k Hks. set_solver.
  - intros ev Hev. destruct (sys_events _ Hok ev Hev) as (H1 & H2 & H3 & H4). split; [by apply lookup_app_l_Some|]. split; [|done].
    rewrite lookup_insert_ne; [done|]. intros E. apply lookup_lt_Some in H1. lia.
Qed.

Lemma system_finish (s : state S) i th a : system_ok s -> threads s !! i = Some th -> rest th = Ret a ->
  system_ok (mkState (this s) (data s) (delete i (threads s)) (requests s) (trail s) (events s ++ [mkEvent i (serves th) (began th) a (clock (this s))])).
Proof.
  intros Hok Hi Ha. destruct (sys_threads _ Hok i th Hi) as (Hreq & Hf & Htx). rewrite Ha in Hf. destruct Hf as [_ Hends].
  constructor; cbn; try apply Hok.
  - intros j th' [Hn Hj]%lookup_delete_Some. by apply Hok.
  - intros j [->|Hj]%lookup_delete_None; [rewrite Htx; apply Hends|by apply Hok].
  - intros j th' [Hn Hj]%lookup_delete_Some. by apply (sys_clock _ Hok j).
  - intros th' e [Hn Hj]%lookup_delete_Some. by apply (sys_began _ Hok).
  - intros ev [Hev| ->%list_elem_of_singleton]%elem_of_app.
    + destruct (sys_events _ Hok ev Hev) as (H1 & H2 & H3 & H4). split; [done|]. split; [|done]. apply lookup_delete_None. by right.
    + cbn. split; [done|]. split; [by apply lookup_delete_eq|]. split; [done|]. intros e He Eo. split; [|by apply (sys_trail _ Hok)].
      apply (sys_began _ Hok th e); [by rewrite Eo|done].
  - rewrite map_app. cbn. apply NoDup_app. split; [apply Hok|]. split; [|apply NoDup_singleton]. intros j Hj ->%list_elem_of_singleton.
    apply list_elem_of_fmap in Hj as (ev & -> & Hev). destruct (sys_events _ Hok ev Hev) as (_ & Hnone & _). congruence.
Qed.

Lemma system_crash (s : state S) i : system_ok s -> system_ok (mkState (this s) (closed i (data s)) (delete i (threads s)) (requests s) (trail s) (events s)).
Proof.
  intros Hok. constructor; cbn; try apply Hok.
  - by apply table_closed, Hok.
  - intros j th' [Hn Hj]%lookup_delete_Some. rewrite lookup_delete_ne by done. by apply Hok.
  - intros j Hj. destruct (decide (i = j)) as [->|Hn]; [by rewrite lookup_delete_eq|]. rewrite lookup_delete_ne in Hj by done. rewrite lookup_delete_ne by done. by apply (sys_idle _ Hok).
  - intros j th' [Hn Hj]%lookup_delete_Some. by apply (sys_clock _ Hok j).
  - intros th' e [Hn Hj]%lookup_delete_Some. by apply (sys_began _ Hok).
  - intros ev Hev. destruct (sys_events _ Hok ev Hev) as (H1 & H2 & H3 & H4). split; [done|]. split; [|done]. apply lookup_delete_None. by right.
Qed.

Lemma system_step s s' : system_ok s -> step s s' -> system_ok s'.
Proof.
  intros Hok Hs. destruct Hs as [t Ht|w Hc Hk|r|i th w db l p Hi Hadv|i th a Hi Ha|i].
  - apply system_tick; [done|done|]. rewrite <- (app_nil_r (trail s)).
    apply (marks_keep (this s)); [apply Hok|by apply keeps_used_tick|by intros ? ? ?%elem_of_nil].
  - apply system_tick; [done|lia|]. rewrite <- (app_nil_r (trail s)).
    apply (marks_keep (this s)); [apply Hok|by apply keeps_used_same|by intros ? ? ?%elem_of_nil].
  - by apply system_start.
  - by apply (system_advance s i th).
  - by apply system_finish.
  - by apply system_crash.
Qed.

Hypothesis Hrows0 : forall id d, rows0 !! id = Some d -> ID d = id.
Hypothesis Hempty : forall k, reserved k -> stored w0 !! k = None.

Lemma system_reached s : rtc step (start w0 rows0) s -> system_ok s.
Proof.
  intros Hr. assert (system_ok (start w0 rows0)) as Hstart.
  { constructor; cbn; try done; try (by intros ? ?%elem_of_nil); try (by intros ? ? ? ?%elem_of_nil).
    - constructor; cbn; done.
    - constructor; [by intros ? ? ?%elem_of_nil..|by intros]. }
  clear Hrows0. induction Hr as [|s1 s2 s3 H12 _ IH]; [done|]. apply IH. by apply (system_step s1).
Qed.

(** ** The budget of attempts *)

Lemma counter_step k t0 (s s' : state S) : is_failure k -> system_ok s -> counter_ok k t0 (this s) (trail s) -> step s s' ->
  counter_ok k t0 (this s') (trail s').
Proof.
  intros Hk Hok Hc Hs. destruct Hs as [t Ht|w Hcl Hres|r|i th w db l p Hi Hadv|i th a Hi Ha|i]; cbn; try done.
  - by apply counter_tick.
  - rewrite <- (app_nil_r (trail s)). apply (counter_same _ _ (this s)); [done|done|by apply Hres, failure_reserved|done|done].
  - destruct (sys_threads _ Hok i th Hi) as (_ & Hf & _). remember (rest th) as p0 eqn:Ep. unfold note.
    destruct Hadv as [f|R c f got Hgot|R c f|R q f r db Hr]; cbn in Hf; [by apply (counter_same _ _ (this s))|..].
    + destruct Hf as (_ & Hsend & _). by apply counter_command.
    + by apply (counter_same _ _ (this s)).
    + apply (counter_same _ _ (this s)); [done|done|done|..]; rewrite total_entries; clear; destruct q; cbn; repeat case_match; done.
Qed.

Lemma counter_reached k s : is_failure k -> rtc step (start w0 rows0) s -> counter_ok k (clock w0) (this s) (trail s).
Proof.
  intros Hk Hr. assert (system_ok (start w0 rows0) /\ counter_ok k (clock w0) (this (start w0 rows0)) (trail (start w0 rows0))) as Hstart.
  { split; [apply system_reached, rtc_refl|]. split; [done|]. exists 0. right. split; [by apply Hempty, failure_reserved|]. split; [done|]. cbn. lia. }
  clear Hrows0 Hempty. induction Hr as [|s1 s2 s3 H12 _ IH]; [by apply Hstart|]. apply IH. destruct Hstart as [Hok Hc].
  split; [by apply (system_step s1)|by apply (counter_step _ _ s1)].
Qed.
End System.

(** ** Theorems *)

Lemma failure_key_inj p p' u u' : totpVerificationFailureKey p u = totpVerificationFailureKey p' u' -> p = p' /\ TrimSpace u = TrimSpace u'.
Proof. unfold totpVerificationFailureKey. destruct p, p'; cbn; intros E; simplify_eq; split; congruence. Qed.

(** A request that asks for the second factor of a user. *)
Definition asks (p : purpose) (user : string) (r : request) : Prop :=
  match p, r with
  | totpVerificationLogin, LoginRequest u _ | totpVerificationUnbind, UnbindRequest u _ => TrimSpace u = TrimSpace user
  | _, _ => False
  end.

(** Who may make the attempts of a user be forgotten: a request of the user
    that gave a proof, and an administrator who was permitted to. *)
Definition vouched (p : purpose) (user : string) (r : request) (l : list action) : Prop :=
  (asks p user r /\ possession l) \/
  (exists target, r = ResetRequest target /\ TrimSpace target = TrimSpace user /\ Permitted (TrimSpace target) ∈ l).

Section Theorems.
Context {S : Type} `{Documented S}.
Context (totp_Validate : string -> string -> Z -> bool) (hmac_sha256 : string -> string -> list Byte.byte).
Context (marshal : totpBindChallenge -> option string) (unmarshal : string -> option totpBindChallenge).
Context (w : world S) (devices : gmap string TOTPDevice).
Local Abbreviation step := (step totp_Validate hmac_sha256 marshal unmarshal).

(** A request passed, and not for want of a device. *)
Definition passed_by_proof (s : state S) (ev : event) : Prop := answered ev = None /\ Saw [] ∉ own (by_ ev) (trail s).

(** The answer to a request tells whether its proof was good. *)
Definition judged (s : state S) (p : purpose) (user : string) (i : nat) : Prop :=
  exists ev, ev ∈ events s /\ by_ ev = i /\ asks p user (asked ev) /\
    match answered ev with Some e => refuses_proof e | None => passed_by_proof s ev end.

(** The request passed by a one-time code, or by a recovery code. *)
Definition passed_by_code (s : state S) (user code : string) (ev : event) : Prop :=
  passed_by_proof s ev /\ TrimSpace code <> ""%string /\
  match asked ev with
  | LoginRequest u f => TrimSpace u = TrimSpace user /\ TrimSpace (TOTPCode f) = TrimSpace code
  | UnbindRequest u q => TrimSpace u = TrimSpace user /\ TrimSpace (UnbindTOTPCode q) = TrimSpace code
  | ConfirmRequest u _ q _ => TrimSpace u = TrimSpace user /\ TrimSpace (Code q) = TrimSpace code
  | _ => False
  end.

Definition passed_by_recovery (s : state S) (user code : string) (ev : event) : Prop :=
  passed_by_proof s ev /\
  match asked ev with
  | LoginRequest u f => TrimSpace u = user /\ TrimSpace (TOTPCode f) = ""%string /\ normalizeTOTPBackupCode (BackupCode f) = Some code
  | UnbindRequest u q => TrimSpace u = user /\ TrimSpace (UnbindTOTPCode q) = ""%string /\ normalizeTOTPBackupCode (UnbindBackupCode q) = Some code
  | _ => False
  end.

Lemma judged_paid s p user i : system_ok hmac_sha256 "" "" devices s -> judged s p user i ->
  exists a, a ∈ own i (trail s) /\ (1 <= granted (totpVerificationFailureKey p user) a)%nat.
Proof.
  intros Hok (ev & Hev & <- & Hask & Hans). destruct (sys_events _ _ _ _ _ Hok ev Hev) as (_ & _ & [_ Hc] & _).
  assert (paid p user (own (by_ ev) (trail s))) as (n & Hn & Hin).
  { assert (forall u l, TrimSpace u = TrimSpace user -> paid p u l -> paid p user l) as Hu.
    { intros u l E. unfold paid. rewrite <- (key_trimmed p u), E. by rewrite key_trimmed. }
    unfold concluded in Hc. destruct p, (asked ev); try done; (destruct (answered ev) as [e|]; [by eapply Hu, Hc|]);
      destruct Hans as [_ Hsaw]; [destruct Hc as [|[Hc _]]; [done|]|destruct Hc as [Hc _]]; by eapply Hu. }
  eexists. split; [exact Hin|]. cbn. by rewrite bool_decide_true.
Qed.

(** C6: however many requests are served at once and whatever fails, the
    answers to the logins of a user that tell whether a proof of the second
    factor was good are no more than five for each window of fifteen minutes,
    and five more each time the attempts are forgotten; and so are, counted
    apart as the purposes have a budget each, the answers to the removals of a
    device.  The attempts of a purpose are forgotten only for a request of the
    user for that purpose that gave a proof, or for an administrator. *)
Theorem guesses_are_bounded (Hkeyed : forall id d, devices !! id = Some d -> ID d = id)
    (Hunused : forall k, reserved k -> stored w !! k = None) s (Hs : rtc step (start w devices) s) p user (L : list nat)
    (Hdistinct : NoDup L) (Hjudged : forall i, i ∈ L -> judged s p user i) :
  let key := totpVerificationFailureKey p user in
  Z.of_nat (length L) <= 5 * (1 + (clock (this s) - clock w) / totpVerificationAttemptWindow + Z.of_nat (total (forgotten key) (trail s))) /\
  forall i, (exists ks, Dropped ks ∈ own i (trail s) /\ key ∈ ks) -> exists r, requests s !! i = Some r /\ vouched p user r (own i (trail s)).
Proof.
  intros key. assert (is_failure key) as Hk by (by eexists _, _).
  pose proof (system_reached totp_Validate hmac_sha256 marshal unmarshal "" "" w devices Hkeyed s Hs) as Hok.
  pose proof (counter_reached totp_Validate hmac_sha256 marshal unmarshal "" "" w devices Hkeyed Hunused key s Hk Hs) as Hc. split.
  - apply counter_bound in Hc. pose proof (owners_total (granted key) (trail s) L Hdistinct (fun i Hi => judged_paid s p user i Hok (Hjudged i Hi))).
    unfold totpVerificationAttemptLimit in Hc. lia.
  - intros i (ks & Hks & Hin). destruct (own_elem i (Dropped ks) (trail s)) as [Ho _]. destruct (Ho Hks) as [t Ht].
    destruct (sys_trail _ _ _ _ _ Hok _ Ht) as [Hlt _]. cbn in Hlt. apply lookup_lt_is_Some_2 in Hlt as [r Hr]. exists r. split; [done|].
    destruct (sys_records _ _ _ _ _ Hok i r Hr) as [_ Hd]. specialize (Hd ks key Hks Hin Hk). unfold key in Hd.
    destruct r; cbn in Hd; try done.
    + destruct Hd as [[-> E]%failure_key_inj Hp]. left. split; [|done]. cbn. by rewrite E, TrimSpace_idem.
    + destruct Hd as [[-> E]%failure_key_inj Hp]. by left.
    + destruct Hd as [[p' [_ E]%failure_key_inj] Hp]. right. exists target. rewrite TrimSpace_idem in E. by split_and!.
Qed.

(** The mark of a code a request passed by, and when it was made. *)
Lemma passed_marked s user code ev : system_ok hmac_sha256 "" "" devices s -> ev ∈ events s -> passed_by_code s user code ev ->
  (exists t, mkEntry (by_ ev) t (Marked (usedKey user code)) ∈ trail s /\ begun_at ev <= t <= answered_at ev) /\
  exists secret code', TrimSpace code' = TrimSpace code /\ Accepted code' secret ∈ own (by_ ev) (trail s).
Proof.
  intros Hok Hev ((Ha & Hsaw) & Hcode & Hask). destruct (sys_events _ _ _ _ _ Hok ev Hev) as (_ & _ & [_ Hc] & Htimes). rewrite Ha in Hc.
  assert (forall u c, TrimSpace u = TrimSpace user -> TrimSpace c = TrimSpace code -> usedKey u c = usedKey user code) as Hkey.
  { intros u c Eu Ec. unfold usedKey. by rewrite Eu, Ec. }
  assert (forall u c, TrimSpace u = TrimSpace user -> TrimSpace c = TrimSpace code -> Marked (usedKey u c) ∈ own (by_ ev) (trail s) ->
    exists t, mkEntry (by_ ev) t (Marked (usedKey user code)) ∈ trail s /\ begun_at ev <= t <= answered_at ev) as Hmark.
  { intros u c Eu Ec Hin. rewrite (Hkey u c Eu Ec) in Hin. apply own_elem in Hin as [t Ht]. exists t. split; [done|]. by apply (Htimes _ Ht). }
  assert (forall u totp backup, TrimSpace u = TrimSpace user -> TrimSpace totp = TrimSpace code ->
    proved hmac_sha256 "" "" u totp backup (own (by_ ev) (trail s)) -> Marked (usedKey u totp) ∈ own (by_ ev) (trail s) /\
    exists secret code', TrimSpace code' = TrimSpace code /\ Accepted code' secret ∈ own (by_ ev) (trail s)) as Hproved.
  { intros u totp backup Eu Et. unfold proved. rewrite Et, (proj2 (String.eqb_neq _ _) Hcode). intros [Hm (c & secret & Hin & Ec)]. split; [done|]. eauto. }
  destruct (asked ev) as [u f|u q| |u se q rn| | |]; try done; destruct Hask as [Eu Ec].
  - destruct Hc as [|[_ Hc]]; [done|]. destruct (Hproved _ _ _ Eu Ec Hc) as [Hm ?]. split; [by apply (Hmark u (TOTPCode f))|done].
  - destruct Hc as [_ Hc]. destruct (Hproved _ _ _ Eu Ec Hc) as [Hm ?]. split; [by apply (Hmark u (UnbindTOTPCode q))|done].
  - destruct Hc as [Hm [secret Hin]]. split; [by apply (Hmark u (Code q))|]. eauto.
Qed.

(** What a request that passed by a recovery code took. *)
Lemma passed_spent s user code i : system_ok hmac_sha256 user code devices s ->
  (exists ev, ev ∈ events s /\ by_ ev = i /\ passed_by_recovery s user code ev) ->
  exists a, a ∈ own i (trail s) /\ (1 <= spent (stored_codes hmac_sha256 user code) a)%nat.
Proof.
  intros Hok (ev & Hev & <- & (Ha & Hsaw) & Hask). destruct (sys_events _ _ _ _ _ Hok ev Hev) as (_ & _ & [_ Hc] & _). rewrite Ha in Hc.
  assert (forall u backup, TrimSpace u = user -> normalizeTOTPBackupCode backup = Some code ->
    code_spent hmac_sha256 user code u backup (own (by_ ev) (trail s)) ->
    exists a, a ∈ own (by_ ev) (trail s) /\ (1 <= spent (stored_codes hmac_sha256 user code) a)%nat) as Hspent.
  { intros u backup Eu En (t & Ht & Htaken). exists (Ended true (Some t)). split; [done|]. cbn. by rewrite (gain_taken _ _ _ t (Htaken En Eu)). }
  destruct (asked ev); try done; destruct Hask as (Eu & Et & En); [destruct Hc as [|[_ Hc]]; [done|]|destruct Hc as [_ Hc]];
    unfold proved in Hc; rewrite Et in Hc; by apply (Hspent _ _ Eu En).
Qed.

(** C7: two requests of a user that pass by the same one-time code, be they
    logins, removals of a device or confirmations of one, are the same
    request if both are served within two minutes, which is longer than a
    code is valid; and each passed by a code the library accepted. *)
Theorem one_time_codes_are_used_once (Hkeyed : forall id d, devices !! id = Some d -> ID d = id)
    s (Hs : rtc step (start w devices) s) user code ev ev' t
    (Hev : ev ∈ events s) (Hev' : ev' ∈ events s) (Hp : passed_by_code s user code ev) (Hp' : passed_by_code s user code ev')
    (Hbegun : t <= begun_at ev /\ t <= begun_at ev') (Hended : answered_at ev <= t + totpCodeReplayTTL /\ answered_at ev' <= t + totpCodeReplayTTL) :
  by_ ev = by_ ev' /\ exists secret code', TrimSpace code' = TrimSpace code /\ Accepted code' secret ∈ own (by_ ev) (trail s).
Proof.
  pose proof (system_reached totp_Validate hmac_sha256 marshal unmarshal "" "" w devices Hkeyed s Hs) as Hok.
  destruct (passed_marked s user code ev Hok Hev Hp) as [(t1 & H1 & Hr1) Ha]. destruct (passed_marked s user code ev' Hok Hev' Hp') as [(t2 & H2 & Hr2) _].
  split; [|exact Ha]. apply list_elem_of_lookup in H1 as [i Hi], H2 as [j Hj]. destruct (Nat.lt_trichotomy i j) as [Hlt|[->|Hlt]].
  - pose proof (marked_apart _ _ (sys_marks _ _ _ _ _ Hok) i j _ _ _ Hlt Hi Hj eq_refl eq_refl). cbn in *. lia.
  - rewrite Hi in Hj. by injection Hj.
  - pose proof (marked_apart _ _ (sys_marks _ _ _ _ _ Hok) j i _ _ _ Hlt Hj Hi eq_refl eq_refl). cbn in *. lia.
Qed.

(** C8: a recovery code of a user lets no more requests pass than there were
    stored of it, at first and by the confirmations of devices since, less
    those that are left: however logins and removals interleave, none takes
    one that another took, and no write brings one back. *)
Theorem recovery_codes_are_used_once (Hkeyed : forall id d, devices !! id = Some d -> ID d = id)
    s (Hs : rtc step (start w devices) s) user code (L : list nat) (Hdistinct : NoDup L)
    (Hpassed : forall i, i ∈ L -> exists ev, ev ∈ events s /\ by_ ev = i /\ passed_by_recovery s user code ev) :
  let weight := stored_codes hmac_sha256 user code in
  (length L + stock weight (rows (data s)) <= stock weight devices + total (made weight) (trail s))%nat.
Proof.
  intros weight. pose proof (system_reached totp_Validate hmac_sha256 marshal unmarshal user code w devices Hkeyed s Hs) as Hok.
  pose proof (sys_stock _ _ _ _ _ Hok) as Hstock.
  pose proof (owners_total (spent weight) (trail s) L Hdistinct (fun i Hi => passed_spent s user code i Hok (Hpassed i Hi))). unfold weight in *. lia.
Qed.
End Theorems.

(** ** Recovery codes, as they are shown *)

Definition in_alphabet (a : ascii) : Prop := contains a totpBackupCodeAlphabet = true.
Definition of_alphabet (s : string) : Prop := all_in_alphabet s = true.

Fixpoint all_visible (s : string) : bool :=
  match s with
  | EmptyString => true
  | String a s => (33 <=? nat_of_ascii a)%nat && (nat_of_ascii a <? 97)%nat && negb (a =? "-")%char && all_visible s
  end.

Lemma alphabet_chars a : in_alphabet a -> (33 <= nat_of_ascii a < 97)%nat /\ a <> "-"%char.
Proof.
  intros H. enough (forall s, contains a s = true -> all_visible s = true -> (33 <= nat_of_ascii a < 97)%nat /\ a <> "-"%char) as He
    by (by apply (He totpBackupCodeAlphabet)).
  clear H. induction s as [|b s IH]; [done|]. cbn [contains all_visible]. intros [->%Ascii.eqb_eq|H]%orb_true_iff [[[Hlo Hhi]%andb_true_iff Hd]%andb_true_iff Hs]%andb_true_iff;
    [|by apply IH]. apply Nat.leb_le in Hlo. apply Nat.ltb_lt in Hhi. split; [done|]. intros ->. done.
Qed.

Lemma of_alphabet_cons a s : of_alphabet (String a s) <-> in_alphabet a /\ of_alphabet s.
Proof. unfold of_alphabet, in_alphabet. cbn. apply andb_true_iff. Qed.

Lemma ToUpper_alphabet s : of_alphabet s -> ToUpper s = s.
Proof.
  induction s as [|a s IH]; [done|]. intros [Ha Hs]%of_alphabet_cons. specialize (IH Hs). destruct (alphabet_chars a Ha) as [Hr _].
  assert (((97 <=? nat_of_ascii a) && (nat_of_ascii a <=? 122))%nat = false) as El by (apply andb_false_iff; left; apply Nat.leb_gt; lia).
  cbn [ToUpper]. destruct s as [|b s]; [by rewrite El|].
  rewrite (proj2 (Nat.eqb_neq (nat_of_ascii a) 197)) by lia. rewrite (proj2 (Nat.eqb_neq (nat_of_ascii a) 196)) by lia. cbn [andb].
  rewrite El. by rewrite IH.
Qed.

Lemma format_hyphens i s : of_alphabet s -> without_hyphens (format_from i s) = s.
Proof.
  revert i. induction s as [|a s IH]; intros i; [done|]. intros [Ha Hs]%of_alphabet_cons. destruct (alphabet_chars a Ha) as [_ Hd].
  assert (without_hyphens (String a (format_from (i + 1) s)) = String a s) as E.
  { cbn. rewrite (proj2 (Ascii.eqb_neq a "-") Hd). by rewrite IH. }
  cbn [format_from]. destruct (_ && _); [|exact E]. exact E.
Qed.

Lemma bytes_visible a s : (33 <= nat_of_ascii a < 128)%nat -> Forall (fun b => 33 <= b < 128)%nat (bytes_of s) ->
  Forall (fun b => 33 <= b < 128)%nat (bytes_of (String a s)).
Proof. intros Ha Hs. unfold bytes_of. cbn [String.list_ascii_of_string map]. by constructor. Qed.

Lemma format_visible i s : of_alphabet s -> Forall (fun b => 33 <= b < 128)%nat (bytes_of (format_from i s)).
Proof.
  revert i. induction s as [|a s IH]; intros i; [by constructor|]. intros [Ha Hs]%of_alphabet_cons. destruct (alphabet_chars a Ha) as [Hr _].
  assert (Forall (fun b => 33 <= b < 128)%nat (bytes_of (String a (format_from (i + 1) s)))) as H by (apply bytes_visible; [lia|by apply IH]).
  cbn [format_from]. destruct (_ && _); [|exact H]. apply bytes_visible; [vm_compute; lia|exact H].
Qed.

Lemma normalize_format s : of_alphabet s -> String.length s = totpBackupCodeRawLength -> normalizeTOTPBackupCode (formatTOTPBackupCode s) = Some s.
Proof.
  intros Hs Hl. unfold normalizeTOTPBackupCode, formatTOTPBackupCode. rewrite TrimSpace_visible by (by apply format_visible).
  rewrite format_hyphens, ToUpper_alphabet by done. rewrite Hl, Nat.eqb_refl. cbn [negb]. by rewrite Hs.
Qed.

Lemma drawn_char k : (k < 32)%nat -> in_alphabet (default "2"%char (String.get k totpBackupCodeAlphabet)).
Proof. intros Hk. do 32 (destruct k as [|k]; [reflexivity|]). lia. Qed.

Lemma drawn_code random n s : draw random n = Some s -> of_alphabet s /\ String.length s = n.
Proof.
  revert s. induction n as [|n IH]; intros s; cbn [draw]; [by intros [= <-]|]. destruct (random n) as [i|]; [|done].
  destruct (draw random n) as [t|]; [|done].
  assert (i mod 32 < 32)%nat as Hk by (apply Nat.mod_upper_bound; lia). revert Hk. generalize (i mod 32)%nat. intros k Hk [= <-].
  destruct (IH t eq_refl) as [Ht Hl]. split; [|cbn [String.length]; by rewrite Hl].
  apply of_alphabet_cons. split; [|done]. by apply drawn_char.
Qed.

Lemma hashed_codes hmac_sha256 secret codes : (forall code, code ∈ codes -> is_Some (normalizeTOTPBackupCode code)) ->
  exists hashes, HashTOTPBackupCodes hmac_sha256 secret codes = Some hashes /\ length hashes = length codes /\
    forall code raw, code ∈ codes -> normalizeTOTPBackupCode code = Some raw -> hashTOTPBackupCode hmac_sha256 secret raw ∈ hashes.
Proof.
  unfold HashTOTPBackupCodes. induction codes as [|code codes IH]; intros Hn; [exists []; split; [done|]; split; [done|]; by intros ? ? ?%elem_of_nil|].
  destruct (Hn code) as [raw Hraw]; [by constructor|]. destruct IH as (hashes & E & Hl & Hin); [intros; apply Hn; by constructor|].
  exists (hashTOTPBackupCode hmac_sha256 secret raw :: hashes). cbn. rewrite Hraw. cbn. rewrite E. cbn. split; [done|]. split; [by rewrite Hl|].
  intros code' raw' [->|Hc]%elem_of_cons Hr; [|apply elem_of_cons; right; by eapply Hin]. rewrite Hraw in Hr. injection Hr as ->. constructor.
Qed.

Lemma without_digest_found x l : x ∈ l -> is_Some (without_digest x l).
Proof.
  induction l as [|h l IH]; [by intros ?%elem_of_nil|]. cbn. destruct (String.eqb_spec x h) as [|Hn]; [by eexists|].
  intros [|Hx]%elem_of_cons; [done|]. destruct (IH Hx) as [r ->]. by eexists.
Qed.

Lemma format_length s : String.length s = totpBackupCodeRawLength -> String.length (formatTOTPBackupCode s) = 19%nat.
Proof. do 16 (destruct s as [|? s]; [done|]). by destruct s. Qed.

(** C28: the recovery codes that are shown when a device is confirmed are
    those that its row accepts: ten codes are drawn, of nineteen characters
    each; hashing them cannot fail, and each of them, typed as it was shown,
    is found among the hashes of the device. *)
Theorem shown_codes_are_accepted hmac_sha256 secret random codes (Hcodes : GenerateTOTPBackupCodes random = Some codes) :
  length codes = totpBackupCodeCount /\
  exists hashes, HashTOTPBackupCodes hmac_sha256 secret codes = Some hashes /\ length hashes = totpBackupCodeCount /\
    forall code, code ∈ codes -> String.length code = 19%nat /\ exists raw, normalizeTOTPBackupCode code = Some raw /\
      forall d now, Secret d = secret -> BackupCodeHashes d = hashes -> exists d', consume_of hmac_sha256 raw now [d] = Some d'.
Proof.
  unfold GenerateTOTPBackupCodes in Hcodes. pose proof (length_mapM _ _ _ Hcodes) as Hlen. apply mapM_Some in Hcodes.
  assert (forall code, code ∈ codes -> exists raw, code = formatTOTPBackupCode raw /\ of_alphabet raw /\ String.length raw = totpBackupCodeRawLength) as Hform.
  { intros code Hc. apply list_elem_of_lookup in Hc as [j Hj]. destruct (Forall2_lookup_r _ _ _ _ _ Hcodes Hj) as (i & _ & Hg).
    unfold generateTOTPBackupCode in Hg. destruct (draw (random i) totpBackupCodeRawLength) as [raw|] eqn:E; [|done]. injection Hg as <-.
    exists raw. split; [done|]. by apply drawn_code in E. }
  split; [done|]. destruct (hashed_codes hmac_sha256 secret codes) as (hashes & Eh & Hl & Hin).
  { intros code Hc. destruct (Hform code Hc) as (raw & -> & Ha & Hn). eexists. by apply normalize_format. }
  exists hashes. split; [done|]. split; [by rewrite Hl|]. intros code Hc. destruct (Hform code Hc) as (raw & -> & Ha & Hn).
  pose proof (normalize_format raw Ha Hn) as Hnorm. split; [by apply format_length|]. exists raw. split; [done|]. intros d now <- Eb. cbn.
  destruct (without_digest_found (hashTOTPBackupCode hmac_sha256 (Secret d) raw) (BackupCodeHashes d)) as [rest ->]; [|by eexists].
  rewrite Eb. by eapply Hin.
Qed.

(** ** Runs

    A database that serves each statement at once, where the rows it needs are
    free, and requests that take turns; the witnesses are runs of it. *)

#[export] Instance selected_dec user active_only d : Decision (selected user active_only d).
Proof. unfold selected. apply _. Defined.

Definition is_free (db : database) (i : nat) (id : string) : bool :=
  bool_decide (map_Forall (fun j t => is_Some (held t !! id) -> j = i) (txs db)).

Lemma is_free_ok db i id : is_free db i id = true -> free db i id.
Proof. intros H%bool_decide_eq_true j t Ht Hh. exact (map_Forall_lookup_1 _ _ _ _ H Ht Hh). Qed.

Definition seen (db : database) (i : nat) : gmap string TOTPDevice :=
  match txs db !! i with Some t => over (changes t) (rows db) | None => rows db end.

Lemma lookup_seen db i id : seen db i !! id = sees db i id.
Proof. unfold seen, sees. destruct (txs db !! i) as [t|]; cbn; [apply over_lookup|done]. Qed.

Definition listed (db : database) (i : nat) (user : string) (active_only : bool) : list TOTPDevice :=
  (filter (fun p => selected user active_only p.2) (map_to_list (seen db i))).*2.

Lemma listed_ok db i user active_only d :
  d ∈ listed db i user active_only <-> exists id, sees db i id = Some d /\ selected user active_only d.
Proof.
  unfold listed. rewrite list_elem_of_fmap. split.
  - intros ([id d'] & -> & [Hd Hin]%list_elem_of_filter). exists id. rewrite <- lookup_seen. split; [by apply elem_of_map_to_list|done].
  - intros (id & Hs & Hd). exists (id, d). split; [done|]. apply list_elem_of_filter. split; [done|]. apply elem_of_map_to_list. by rewrite lookup_seen.
Qed.

Section Runs.
Context {S : Type} `{Server S}.
Variable totp_Validate : string -> string -> Z -> bool.
Variable hmac_sha256 : string -> string -> list Byte.byte.
Variable marshal : totpBindChallenge -> option string.
Variable unmarshal : string -> option totpBindChallenge.

(** The answer to a statement; [None] where a row is held or the statement is
    one the runs below do not need. *)
Definition serve {R : Set} (now : Z) (i : nat) (q : statement R) (db : database) : option (R * database) :=
  match q in statement R return option (R * database) with
  | Begin => match txs db !! i with None => Some (true, set_tx i (mkTx ∅ ∅) db) | Some _ => None end
  | Commit => match txs db !! i with Some t => Some (true, committed i t db) | None => None end
  | Rollback => Some (tt, closed i db)
  | ListDevices lock user active_only =>
      let l := listed db i user active_only in
      if lock : bool then
        match txs db !! i with
        | Some t => if forallb (fun d => is_free db i (ID d)) l then Some (Some l, set_tx i (foldr (fun d => hold db (ID d)) t l) db) else None
        | None => None
        end
      else Some (Some l, db)
  | UpdateDevice columns x =>
      match seen db i !! ID x with
      | Some d => if is_free db i (ID x) then Some (Written, put i (ID x) (Some (with_columns columns x d)) db) else None
      | None => None
      end
  | DeleteDevices l =>
      if forallb (fun d => bool_decide (is_Some (seen db i !! ID d)) && is_free db i (ID d)) l
      then Some (Written, foldr (fun d => put i (ID d) None) db l) else None
  | CreateDevice x => None
  | Validate code secret => Some (totp_Validate code secret now, db)
  | EnsureCanAdminister _ => Some (None, db)
  end.

Lemma serve_runs {R : Set} now i (q : statement R) db r db' : serve now i q db = Some (r, db') -> runs totp_Validate now i q r db db'.
Proof.
  destruct q; cbn; try by intros [= <- <-].
  - destruct (txs db !! i) eqn:E; [done|]. by intros [= <- <-].
  - destruct (txs db !! i) as [t|]; [|done]. intros [= <- <-]. by left.
  - destruct lock; [|intros [= <- <-]; split; [intros; apply listed_ok|done]]. destruct (txs db !! i) as [t|]; [|done].
    destruct (forallb _ _) eqn:Hf; [|done]. intros [= <- <-]. split; [intros; apply listed_ok|]. exists t. split; [done|]. split; [|done].
    intros d Hd. rewrite forallb_forall in Hf. apply is_free_ok, Hf. by apply list_elem_of_In.
  - rewrite lookup_seen. destruct (sees db i (ID d)) as [d'|] eqn:E; [|done]. destruct (is_free _ _ _) eqn:Hf; [|done]. intros [= <- <-].
    exists d'. split; [done|]. split; [by apply is_free_ok|done].
  - destruct (forallb _ _) eqn:Hf; [|done]. intros [= <- <-]. split; [|done]. intros d Hd. rewrite forallb_forall in Hf.
    apply list_elem_of_In, Hf, andb_true_iff in Hd as [Hs%bool_decide_eq_true Hd]. rewrite lookup_seen in Hs. split; [done|by apply is_free_ok].
Qed.

Local Abbreviation step := (step totp_Validate hmac_sha256 marshal unmarshal).

Inductive move : Type := Pass (t : Z) | Arrives (r : request) | Turn (i : nat).

(** A turn of request [i]: its next step, or its answer. *)
Definition turn (s : state S) (i : nat) (th : thread) : option (state S) :=
  let goes w db l p := Some (mkState w db (<[i := mkThread (serves th) (began th) p]> (threads s)) (requests s) (note i s l) (events s)) in
  match rest th with
  | Ret a => Some (mkState (this s) (data s) (delete i (threads s)) (requests s) (trail s) (events s ++ [mkEvent i (serves th) (began th) a (clock (this s))]))
  | Now k => goes (this s) (data s) [] (k (clock (this s)))
  | Call c k => goes (after c (this s)) (data s) (recorded_command c true (answer c (this s))) (k (answer c (this s)))
  | Ask q k => match serve (clock (this s)) i q (data s) with
               | Some (r, db) => goes (this s) db (recorded (txs (data s) !! i) q r) (k r)
               | None => None
               end
  end.

Definition make (s : state S) (m : move) : option (state S) :=
  match m with
  | Pass t => if clock (this s) <=? t then Some (mkState (tick t (this s)) (data s) (threads s) (requests s) (trail s) (events s)) else None
  | Arrives r => Some (mkState (this s) (data s) (<[length (requests s) := mkThread r (clock (this s)) (body hmac_sha256 marshal unmarshal r)]> (threads s))
                         (requests s ++ [r]) (trail s) (events s))
  | Turn i => th ← threads s !! i; turn s i th
  end.

Lemma make_step s m s' : make s m = Some s' -> step s s'.
Proof.
  destruct m as [t|r|i]; cbn.
  - destruct (Z.leb_spec (clock (this s)) t); [|done]. intros [= <-]. by constructor.
  - intros [= <-]. constructor.
  - destruct (threads s !! i) as [th|] eqn:Hi; [|done]. cbn. unfold turn. destruct (rest th) as [a|k|R c k|R q k] eqn:E.
    + intros [= <-]. by apply (step_finish _ _ _ _ s i th a).
    + intros [= <-]. apply (step_advance _ _ _ _ s i th); [done|]. rewrite E. constructor.
    + intros [= <-]. apply (step_advance _ _ _ _ s i th); [done|]. rewrite E. constructor. by left.
    + destruct (serve _ i q (data s)) as [[r db]|] eqn:Er; [|done]. intros [= <-]. apply (step_advance _ _ _ _ s i th); [done|]. rewrite E.
      constructor. by apply serve_runs.
Qed.

(** A move that cannot be made is left out. *)
Definition reached (s : state S) (ms : list move) : state S := fold_left (fun s m => default s (make s m)) ms s.

Lemma runs_reached ms s : rtc step s (reached s ms).
Proof.
  revert s. induction ms as [|m ms IH]; intros s; [apply rtc_refl|]. cbn. destruct (make s m) as [s1|] eqn:E; cbn; [|apply IH].
  eapply rtc_l; [by eapply make_step|apply IH].
Qed.
End Runs.

(** A user with one device and two recovery codes; one code is valid. *)
Definition valid (code secret : string) (t : Z) : bool := (code =? "123456")%string.
Definition digest (key text : string) : list Byte.byte := String.list_byte_of_string (key +:+ text).
Definition no_text (c : totpBindChallenge) : option string := None.
Definition no_challenge (s : string) : option totpBindChallenge := None.

Definition code_a : string := "AAAABBBBCCCCDDDD".
Definition code_b : string := "EEEEFFFFGGGGHHHH".
Definition phone : TOTPDevice :=
  mkDevice "d1" "u" "phone" "key" [hashTOTPBackupCode digest "key" code_a; hashTOTPBackupCode digest "key" code_b] true None 0.
Definition phones : gmap string TOTPDevice := {[ "d1"%string := phone ]}.
Definition empty_world : world keyspace := mkWorld ∅ 0 ∅.

Definition run (ms : list move) : state keyspace := reached valid digest no_text no_challenge (start empty_world phones) ms.

Lemma run_reached ms : rtc (step valid digest no_text no_challenge) (start empty_world phones) (run ms).
Proof. apply runs_reached. Qed.

Lemma phones_keyed id d : phones !! id = Some d -> ID d = id.
Proof. unfold phones. by intros [<- <-]%lookup_singleton_Some. Qed.

Lemma nothing_reserved k : reserved k -> stored empty_world !! k = None.
Proof. intros _. reflexivity. Qed.

(** Requests [i] and [j] in turns. *)
Definition turns (i j : nat) : list move := concat (repeat [Turn i; Turn j] 20).

Definition by_totp (code : string) : request := LoginRequest "u" (mkFactor code "").
Definition by_backup (code : string) : request := LoginRequest "u" (mkFactor "" code).
Definition verdicts (s : state keyspace) : list (nat * option error) := map (fun ev => (by_ ev, answered ev)) (events s).

Definition saw_none (l : list action) : bool := existsb (fun a => match a with Saw [] => true | _ => false end) l.
Lemma never_saw_none l : saw_none l = false -> Saw [] ∉ l.
Proof.
  unfold saw_none. intros Hl Hin. assert (existsb (fun a => match a with Saw [] => true | _ => false end) l = true) as E; [|by rewrite E in Hl].
  apply existsb_exists. exists (Saw []). split; [by apply list_elem_of_In|done].
Qed.

Lemma event_nth (s : state keyspace) n ev : events s !! n = Some ev -> ev ∈ events s.
Proof. apply list_elem_of_lookup_2. Qed.

(** Two logins of the user at once, by the same code; then one by a wrong
    one. *)
Definition codes_run : list move := [Arrives (by_totp "123456"); Arrives (by_totp " 123456")] ++ turns 0 1 ++ [Pass second; Arrives (by_totp "000000")] ++ turns 2 2.

Example codes_run_verdicts : verdicts (run codes_run) =
  [(1%nat, Some (Refused 401 "invalid TOTP code")); (0%nat, None); (2%nat, Some (Refused 401 "invalid TOTP code"))].
Proof. vm_compute. reflexivity. Qed.

Definition event_at (s : state keyspace) (n : nat) : event :=
  default (mkEvent 0 (StatusRequest "") 0 None 0) (events s !! n).

Lemma event_at_in s n : (n <? length (events s))%nat = true -> event_at s n ∈ events s.
Proof.
  intros Hn%Nat.ltb_lt. unfold event_at. destruct (lookup_lt_is_Some_2 _ _ Hn) as [ev Hev]. rewrite Hev. by eapply list_elem_of_lookup_2.
Qed.

Lemma judged_passed s p user i n : (n <? length (events s))%nat = true -> by_ (event_at s n) = i -> asks p user (asked (event_at s n)) ->
  answered (event_at s n) = None -> saw_none (own (by_ (event_at s n)) (trail s)) = false -> judged s p user i.
Proof.
  intros Hn Hi Ha E Hs. exists (event_at s n). split; [by apply event_at_in|]. do 2 (split; [done|]). rewrite E. split; [done|]. by apply never_saw_none.
Qed.

Lemma judged_refused s p user i n : (n <? length (events s))%nat = true -> by_ (event_at s n) = i -> asks p user (asked (event_at s n)) ->
  answered (event_at s n) = Some (Refused 401 "invalid TOTP code") -> judged s p user i.
Proof. intros Hn Hi Ha E. exists (event_at s n). split; [by apply event_at_in|]. do 2 (split; [done|]). rewrite E. by left. Qed.

(** Three verdicts count against the budget of the first window. *)
Lemma guesses_are_bounded_witness :
  let s := run codes_run in
  Z.of_nat (length [0; 1; 2]%nat) <=
    5 * (1 + (clock (this s) - 0) / totpVerificationAttemptWindow + Z.of_nat (total (forgotten (totpVerificationFailureKey totpVerificationLogin "u")) (trail s))).
Proof.
  intros s. apply (guesses_are_bounded valid digest no_text no_challenge empty_world phones phones_keyed (fun k Hk => nothing_reserved k Hk) s
    (run_reached codes_run) totpVerificationLogin "u" [0; 1; 2]%nat).
  - apply NoDup_ListNoDup. repeat constructor; cbn; lia.
  - intros i Hi. repeat (apply elem_of_cons in Hi as [->|Hi]); [| | |by apply elem_of_nil in Hi].
    + apply (judged_passed s _ _ 0 1); vm_compute; reflexivity.
    + apply (judged_refused s _ _ 1 0); vm_compute; reflexivity.
    + apply (judged_refused s _ _ 2 2); vm_compute; reflexivity.
Defined.

Lemma first_login_passed : passed_by_code (run codes_run) "u" "123456" (event_at (run codes_run) 1).
Proof.
  split; [split; [vm_compute; reflexivity|apply never_saw_none; vm_compute; reflexivity]|]. split; [vm_compute; discriminate|]. vm_compute. split; reflexivity.
Qed.

Lemma one_time_codes_are_used_once_witness :
  exists secret code', TrimSpace code' = "123456"%string /\ Accepted code' secret ∈ own 0 (trail (run codes_run)).
Proof.
  apply (one_time_codes_are_used_once valid digest no_text no_challenge empty_world phones phones_keyed (run codes_run) (run_reached codes_run)
    "u" "123456" (event_at (run codes_run) 1) (event_at (run codes_run) 1) 0).
  - apply event_at_in. vm_compute. reflexivity.
  - apply event_at_in. vm_compute. reflexivity.
  - exact first_login_passed.
  - exact first_login_passed.
  - vm_compute. split; discriminate.
  - vm_compute. split; discriminate.
Defined.

(** Two logins of the user at once by the same recovery code, then one by the
    other. *)
Definition recovery_run : list move :=
  [Arrives (by_backup "aaaa-bbbb-cccc-dddd"); Arrives (by_backup "AAAABBBBCCCCDDDD")] ++ turns 0 1 ++ [Arrives (by_backup "EEEE-FFFF-GGGG-HHHH")] ++ turns 2 2.

Example recovery_run_verdicts : verdicts (run recovery_run) = [(0%nat, None); (1%nat, Some (Refused 401 "invalid backup code")); (2%nat, None)].
Proof. vm_compute. reflexivity. Qed.

Lemma recovery_codes_are_used_once_witness :
  let weight := stored_codes digest "u" code_a in
  (length [0%nat] + stock weight (rows (data (run recovery_run))) <= stock weight phones + total (made weight) (trail (run recovery_run)))%nat.
Proof.
  intros weight. apply (recovery_codes_are_used_once valid digest no_text no_challenge empty_world phones phones_keyed (run recovery_run)
    (run_reached recovery_run) "u" code_a [0%nat]).
  - apply NoDup_singleton.
  - intros i ->%list_elem_of_singleton. exists (event_at (run recovery_run) 0). split; [apply event_at_in; vm_compute; reflexivity|].
    split; [vm_compute; reflexivity|]. split; [split; [vm_compute; reflexivity|apply never_saw_none; vm_compute; reflexivity]|].
    vm_compute. split; [|split]; reflexivity.
Defined.

Definition ten_codes : list string := default [] (GenerateTOTPBackupCodes (fun i j => Some (i + j)%nat)).

Example ten_codes_first : head ten_codes = Some "HGFE-DCBA-9876-5432"%string.
Proof. vm_compute. reflexivity. Qed.

Lemma shown_codes_are_accepted_witness : length ten_codes = totpBackupCodeCount.
Proof. apply (shown_codes_are_accepted digest "key" (fun i j => Some (i + j)%nat) ten_codes). vm_compute. reflexivity. Defined.
