(* ===== verification/Trie.v ===== *)
(** * The trie

    Models [src/ds/tree/trie/trie.go]: a map from sequences of keys to values,
    a node for every prefix of one, each with the number of sequences that
    pass through it.  The order in which Go ranges over the children of a node
    is an argument, one for every path.  Locks, formatters and the text of
    [String] are left out; JSON is an argument.

    The theorems: the operations act as those of a map from sequences to
    values as long as the empty sequence is not in it, and enumerations list
    that map.  With the empty sequence a delete can lose it. *)

From stdpp Require Import base list gmap strings.
From Stdlib Require Import ZArith Lia.
From S2P Require Import Prelude.
Local Open Scope Z_scope.

Section Data.
Context (K V : Type) `{Countable K}.

Inductive node : Type := Node (children : gmap K node) (value : V) (hasValue : bool) (count : Z).

Record Trie : Type := mkTrie { root : option node; size : Z }.
End Data.
Arguments Node {K V _ _} children value hasValue count.
Arguments mkTrie {K V _ _} root size.
Arguments root {K V _ _} t.
Arguments size {K V _ _} t.

Section Operations.
Context {K V : Type} `{Countable K}.
(** The zero value of the type of values. *)
Variable zero : V.
Local Abbreviation node := (node K V).
Local Abbreviation Trie := (Trie K V).
Local Abbreviation KeysValue := (list K * V)%type.

Definition children (n : node) : gmap K node := let 'Node ch _ _ _ := n in ch.
Definition value (n : node) : V := let 'Node _ v _ _ := n in v.
Definition hasValue (n : node) : bool := let 'Node _ _ h _ := n in h.
Definition count (n : node) : Z := let 'Node _ _ _ c := n in c.

Definition New : Trie := mkTrie None 0.

(** ** Updates *)

Definition fresh_node : node := Node ∅ zero false 0.

(** The walk of [put] that makes the nodes of a key, with whether the last had
    no value. *)
Fixpoint set_at (keys : list K) (val : V) (n : node) : node * bool :=
  match keys with
  | [] => (Node (children n) val true (count n), negb (hasValue n))
  | k :: keys =>
      let child := match children n !! k with Some child => child | None => fresh_node end in
      let '(child, isNewKey) := set_at keys val child in
      (Node (<[k := child]> (children n)) (value n) (hasValue n) (count n), isNewKey)
  end.

(** The walk that counts; [None] is a nil dereference. *)
Fixpoint count_at (keys : list K) (n : node) : option node :=
  match keys with
  | [] => Some (Node (children n) (value n) (hasValue n) (count n + 1))
  | k :: keys =>
      child ← children n !! k;
      child ← count_at keys child;
      Some (Node (<[k := child]> (children n)) (value n) (hasValue n) (count n + 1))
  end.

Definition put (keys : list K) (val : V) (t : Trie) : option (bool * Trie) :=
  let n := match root t with Some n => n | None => fresh_node end in
  let '(n, isNewKey) := set_at keys val n in
  if isNewKey then n ← count_at keys n; Some (true, mkTrie (Some n) (size t + 1))
  else Some (false, mkTrie (Some n) (size t)).
Definition Put (keys : list K) (val : V) (t : Trie) : option (bool * Trie) := put keys val t.

(** The node of a key. *)
Fixpoint walk_to (keys : list K) (n : node) : option node :=
  match keys with
  | [] => Some n
  | k :: keys => child ← children n !! k; walk_to keys child
  end.

Definition Get (keys : list K) (t : Trie) : V * bool :=
  match root t with
  | None => (zero, false)
  | Some n => match walk_to keys n with Some n => (value n, hasValue n) | None => (zero, false) end
  end.

(** The walk of [Delete] and the way back: each node counts one less, and one
    with none left goes from its parent. *)
Fixpoint delete_at (keys : list K) (n : node) : option (V * node) :=
  match keys with
  | [] => if hasValue n then Some (value n, Node (children n) zero false (count n - 1)) else None
  | k :: keys =>
      child ← children n !! k;
      '(v, child) ← delete_at keys child;
      Some (v, Node (if count child <=? 0 then base.delete k (children n) else <[k := child]> (children n)) (value n) (hasValue n) (count n - 1))
  end.

(** [if len(t.root.children) == 0 { t.root = nil }] *)
Definition drop_root (n : node) : option node := if bool_decide (children n = ∅) then None else Some n.

Definition Delete (key : list K) (t : Trie) : (V * bool) * Trie :=
  match key, root t with
  | [], _ | _, None => (zero, false, t)
  | _, Some n =>
      match delete_at key n with
      | None => (zero, false, t)
      | Some (v, n) => (v, true, mkTrie (drop_root n) (size t - 1))
      end
  end.

(** The values at a node and below. *)
Fixpoint values_below (n : node) : Z :=
  let 'Node ch _ has _ := n in (if has then 1 else 0) + map_fold (fun _ child total => values_below child + total) 0 ch.

(** The walk of [DeletePrefix] and the way back, of a prefix that is not
    empty: the node of the prefix goes from its parent, and so does an
    ancestor whose count comes to zero. *)
Fixpoint delete_prefix_at (k : K) (prefix : list K) (n : node) : option (Z * node) :=
  child ← children n !! k;
  match prefix with
  | [] =>
      let deleteCount := values_below child in
      Some (deleteCount, Node (base.delete k (children n)) (value n) (hasValue n) (count n - deleteCount))
  | k' :: prefix =>
      '(deleteCount, child) ← delete_prefix_at k' prefix child;
      Some (deleteCount, Node (if count child =? 0 then base.delete k (children n) else <[k := child]> (children n))
                           (value n) (hasValue n) (count n - deleteCount))
  end.

Definition DeletePrefix (prefix : list K) (t : Trie) : Z * Trie :=
  match prefix, root t with
  | [], _ | _, None => (0, t)
  | k :: prefix, Some n =>
      match delete_prefix_at k prefix n with
      | None => (0, t)
      | Some (deleteCount, n) => (deleteCount, mkTrie (drop_root n) (size t - deleteCount))
      end
  end.

Definition IsEmpty (t : Trie) : bool := size t =? 0.
Definition Size (t : Trie) : Z := size t.
Definition Clear (t : Trie) : Trie := mkTrie None 0.

Fixpoint clone (n : node) : node :=
  let 'Node ch v has c := n in Node (map_fold (fun k child ch => <[k := clone child]> ch) ∅ ch) v has c.
Definition Root (t : Trie) : option node := clone <$> root t.
Definition Clone (t : Trie) : Trie :=
  match root t with None => New | Some n => mkTrie (Some (clone n)) (size t) end.

(** ** Enumerations *)

(** How Go ranges over the children of the node at a path. *)
Variable order : forall A : Type, list K -> list (K * A) -> list (K * A).

(** The closure [fn] of the enumerations. *)
Fixpoint entries_at (n : node) (path : list K) : list KeysValue :=
  let 'Node ch v has _ := n in
  (if has then [(path, v)] else []) ++
  (order _ path (map_fold (fun k child l => (k, entries_at child) :: l) [] ch) ≫= fun p => p.2 (path ++ [p.1])).

Definition keysValues (t : Trie) : list KeysValue :=
  match root t with None => [] | Some n => entries_at n [] end.
Definition KeysValues (t : Trie) : list KeysValue := keysValues t.
Definition Keys (t : Trie) : list (list K) := match root t with None => [] | Some n => map fst (entries_at n []) end.
Definition Values (t : Trie) : list V := match root t with None => [] | Some n => map snd (entries_at n []) end.

Definition PrefixKeysValues (prefix : list K) (t : Trie) : list KeysValue :=
  match prefix, root t with
  | [], _ | _, None => []
  | _, Some n => match walk_to prefix n with Some n => entries_at n prefix | None => [] end
  end.
Definition PrefixKeys (prefix : list K) (t : Trie) : list (list K) := map fst (PrefixKeysValues prefix t).
Definition PrefixValues (prefix : list K) (t : Trie) : list V := map snd (PrefixKeysValues prefix t).

(** [None] is a nil dereference: the root of an empty trie is nil. *)
Definition PrefixCount (prefix : list K) (t : Trie) : option Z :=
  match prefix, root t with
  | [], _ => Some 0
  | _, None => None
  | _, Some n => Some (match walk_to prefix n with Some n => count n | None => 0 end)
  end.

(** A callback, over the state it keeps. *)
Fixpoint range_at {S : Type} (fn : list K -> V -> S -> S * bool) (n : node) (path : list K) (s : S) : S * bool :=
  let 'Node ch v has _ := n in
  let '(s, go) := if has then fn path v s else (s, true) in
  if negb go then (s, false)
  else
    (fix loop (l : list (K * (list K -> S -> S * bool))) (s : S) : S * bool :=
       match l with
       | [] => (s, true)
       | (k, f) :: l => let '(s, go) := f (path ++ [k]) s in if negb go then (s, false) else loop l s
       end) (order _ path (map_fold (fun k child l => (k, range_at fn child) :: l) [] ch)) s.

Definition Range {S : Type} (fn : list K -> V -> S -> S * bool) (t : Trie) (s : S) : S :=
  match root t with None => s | Some n => fst (range_at fn n [] s) end.

(** The loop over [keys], past [path]. *)
Fixpoint longest_from (path keys : list K) (n : node) (found : list K * V * bool) : list K * V * bool :=
  match keys with
  | [] => found
  | k :: keys =>
      match children n !! k with
      | None => found
      | Some child => longest_from (path ++ [k]) keys child (if hasValue child then (path ++ [k], value child, true) else found)
      end
  end.

Definition LongestPrefix (keys : list K) (t : Trie) : list K * V * bool :=
  match keys, root t with
  | [], _ | _, None => ([], zero, false)
  | _, Some n => longest_from [] keys n ([], zero, false)
  end.

Fixpoint ancestors_from (path keys : list K) (n : node) : list KeysValue :=
  match keys with
  | [] => []
  | k :: keys =>
      match children n !! k with
      | None => []
      | Some child => (if hasValue child then [(path ++ [k], value child)] else []) ++ ancestors_from (path ++ [k]) keys child
      end
  end.

Definition PathAncestors (keys : list K) (t : Trie) : list KeysValue :=
  match keys, root t with
  | [], _ | _, None => []
  | _, Some n => (if hasValue n then [([], value n)] else []) ++ ancestors_from [] keys n
  end.

(** ** JSON *)

Variables (marshal : list KeysValue -> option string) (unmarshal : string -> option (list KeysValue)).

Definition MarshalJSON (t : Trie) : option string := marshal (keysValues t).

Fixpoint put_all (l : list KeysValue) (t : Trie) : option Trie :=
  match l with
  | [] => Some t
  | (keys, val) :: l => '(_, t) ← put keys val t; put_all l t
  end.

(** The trie afterwards, with the error of a text that cannot be read;
    [None] is a nil dereference. *)
Definition UnmarshalJSON (data : string) (t : Trie) : option (bool * Trie) :=
  match unmarshal data with
  | None => Some (false, t)
  | Some l => t ← put_all l (mkTrie None 0); Some (true, t)
  end.
End Operations.

(** ** Nodes *)

Section Nodes.
Context {K V : Type} `{Countable K}.
Variable zero : V.
Local Abbreviation node := (node K V).

Section Sums.
Context {A : Type} (f : A -> Z).
Definition map_sum (m : gmap K A) : Z := map_fold (fun _ x total => f x + total) 0 m.

Lemma map_sum_insert m k x : m !! k = None -> map_sum (<[k := x]> m) = f x + map_sum m.
Proof. intros Hk. unfold map_sum. rewrite map_fold_insert_L; [done| |done]. intros. lia. Qed.

Lemma map_sum_delete m k : map_sum m = match m !! k with Some x => f x | None => 0 end + map_sum (base.delete k m).
Proof.
  destruct (m !! k) as [x|] eqn:E; [|by rewrite delete_id]. rewrite <- (insert_delete_id m k x E) at 1. by apply map_sum_insert, lookup_delete_eq.
Qed.

Lemma map_sum_change m k x : map_sum (<[k := x]> m) + match m !! k with Some y => f y | None => 0 end = f x + map_sum m.
Proof. rewrite <- insert_delete_eq, map_sum_insert, (map_sum_delete m k) by apply lookup_delete_eq. lia. Qed.

Lemma map_sum_nonneg m : (forall k x, m !! k = Some x -> 0 <= f x) -> 0 <= map_sum m.
Proof.
  induction m as [|k x m Hk IH] using map_ind; intros Hf; [done|]. rewrite map_sum_insert by done.
  pose proof (Hf k x (lookup_insert_eq _ _ _)). enough (0 <= map_sum m) by lia. apply IH. intros k' x' E. apply (Hf k').
  rewrite lookup_insert_ne; [done|]. congruence.
Qed.
End Sums.

(** Nodes are smaller than their parents. *)
Fixpoint nodes (n : node) : nat := let 'Node ch _ _ _ := n in S (map_fold (fun _ child total => nodes child + total)%nat 0%nat ch).

Lemma nodes_child (n child : node) k : children n !! k = Some child -> (nodes child < nodes n)%nat.
Proof.
  destruct n as [ch v has c]. cbn. intros E. rewrite <- (insert_delete_id ch k child E), map_fold_insert_L; [lia|intros; lia|apply lookup_delete_eq].
Qed.

Lemma node_induction (P : node -> Prop) : (forall n, (forall k child, children n !! k = Some child -> P child) -> P n) -> forall n, P n.
Proof.
  intros HP n. remember (nodes n) as size eqn:E. revert n E. induction size as [size IH] using lt_wf_ind. intros n ->.
  apply HP. intros k child Hk. by apply (IH (nodes child)); [eapply nodes_child|].
Qed.

Lemma values_below_eq (n : node) : values_below n = (if hasValue n then 1 else 0) + map_sum values_below (children n).
Proof. by destruct n. Qed.

(** The value of a sequence of keys, from a node on. *)
Definition find (n : node) (keys : list K) : option V :=
  n ← walk_to keys n; if hasValue n then Some (value n) else None.

Lemma find_cons (n : node) k keys : find n (k :: keys) = child ← children n !! k; find child keys.
Proof. unfold find. cbn. by destruct (children n !! k). Qed.

Lemma walk_to_cons (n : node) k keys : walk_to (k :: keys) n = child ← children n !! k; walk_to keys child.
Proof. done. Qed.

Lemma walk_to_app (n : node) p q : walk_to (p ++ q) n = child ← walk_to p n; walk_to q child.
Proof. revert n. induction p as [|k p IH]; intros n; [done|]. cbn. destruct (children n !! k); [apply IH|done]. Qed.

Lemma values_below_nonneg (n : node) : 0 <= values_below n.
Proof.
  induction n as [n IH] using node_induction. rewrite values_below_eq. pose proof (map_sum_nonneg values_below (children n) IH). destruct (hasValue n); lia.
Qed.

Lemma values_below_child (n child : node) k : children n !! k = Some child -> values_below child <= values_below n.
Proof.
  intros Hk. rewrite (values_below_eq n), (map_sum_delete _ _ k), Hk.
  assert (0 <= map_sum values_below (base.delete k (children n))) by (apply map_sum_nonneg; intros; apply values_below_nonneg). destruct (hasValue n); lia.
Qed.

Lemma find_counted (n : node) keys v : find n keys = Some v -> 0 < values_below n.
Proof.
  revert n. induction keys as [|k keys IH]; intros n.
  - unfold find. cbn. rewrite values_below_eq. pose proof (map_sum_nonneg values_below (children n) (fun _ x _ => values_below_nonneg x)).
    destruct (hasValue n); [lia|done].
  - rewrite find_cons. destruct (children n !! k) as [child|] eqn:E; [|done]. cbn. intros Hf. apply IH in Hf. pose proof (values_below_child n child k E). lia.
Qed.

Lemma find_uncounted (n : node) keys : values_below n <= 0 -> find n keys = None.
Proof. intros Hn. destruct (find n keys) eqn:E; [|done]. apply find_counted in E. lia. Qed.

(** A node counts the values below it, has no child without one, and holds
    the zero value where it has none. *)
Inductive valid (n : node) : Prop := valid_node
  (_ : count n = values_below n)
  (_ : forall k child, children n !! k = Some child -> valid child /\ 0 < values_below child)
  (_ : hasValue n = false -> value n = zero).

Lemma valid_fresh : valid (fresh_node zero).
Proof. by constructor. Qed.

(** The child of a key changes: what that does to the rest. *)
Lemma valid_change (n child : node) k c :
  valid n -> valid child -> 0 < values_below child ->
  c = count n + values_below child - match children n !! k with Some old => values_below old | None => 0 end ->
  let n' := Node (<[k := child]> (children n)) (value n) (hasValue n) c in valid n' /\ values_below n' = c.
Proof.
  intros [Hc Hch Hz] Hv Hpos Hn n'. assert (values_below n' = c) as E.
  { rewrite values_below_eq. cbn. pose proof (map_sum_change values_below (children n) k child). rewrite values_below_eq in Hc. lia. }
  split; [|done]. constructor; [exact (eq_sym E)| |exact Hz]; cbn. intros k' child' [[<- <-]|[_ Hk]]%lookup_insert_Some; [done|by apply (Hch k')].
Qed.

Lemma valid_remove (n : node) k c :
  valid n -> c = count n - match children n !! k with Some old => values_below old | None => 0 end ->
  let n' := Node (base.delete k (children n)) (value n) (hasValue n) c in valid n' /\ values_below n' = c.
Proof.
  intros [Hc Hch Hz] Hn n'. assert (values_below n' = c) as E.
  { rewrite values_below_eq. cbn. rewrite values_below_eq, (map_sum_delete _ _ k) in Hc. lia. }
  split; [|done]. constructor; [exact (eq_sym E)| |exact Hz]; cbn. intros k' child' [_ Hk]%lookup_delete_Some. by apply (Hch k').
Qed.

Lemma find_change (n child : node) k c keys :
  find (Node (<[k := child]> (children n)) (value n) (hasValue n) c) keys =
    match keys with [] => find n [] | k' :: keys' => if decide (k' = k) then find child keys' else find n keys end.
Proof.
  destruct keys as [|k' keys]; [done|]. rewrite !find_cons. cbn. destruct (decide (k' = k)) as [->|Hn]; [by rewrite lookup_insert_eq|].
  by rewrite lookup_insert_ne.
Qed.

Lemma find_remove (n : node) k c keys :
  find (Node (base.delete k (children n)) (value n) (hasValue n) c) keys =
    match keys with [] => find n [] | k' :: keys' => if decide (k' = k) then None else find n keys end.
Proof.
  destruct keys as [|k' keys]; [done|]. rewrite !find_cons. cbn. destruct (decide (k' = k)) as [->|Hn]; [by rewrite lookup_delete_eq|].
  by rewrite lookup_delete_ne.
Qed.

(** ** Updates, at a node *)

(** [put], at a node. *)
Lemma put_at (n : node) keys val : valid n ->
  exists n', (let '(n', isNewKey) := set_at zero keys val n in if isNewKey : bool then count_at keys n' else Some n') = Some n' /\
    (set_at zero keys val n).2 = bool_decide (find n keys = None) /\ valid n' /\
    values_below n' = values_below n + (if bool_decide (find n keys = None) then 1 else 0) /\
    forall ks, find n' ks = if decide (ks = keys) then Some val else find n ks.
Proof.
  revert n. induction keys as [|k keys IH]; intros n Hv.
  - cbn. unfold find at 1 2. cbn. destruct Hv as [Hc Hch Hz]. rewrite values_below_eq in Hc. destruct (hasValue n) eqn:E; cbn.
    + eexists. split; [done|]. split; [done|]. assert (values_below (Node (children n) val true (count n)) = values_below n) as Eb
        by (rewrite !values_below_eq; cbn; by rewrite E).
      split; [constructor; [rewrite Eb, values_below_eq; cbn; by rewrite E|done|done]|]. split; [rewrite Eb; lia|]. by intros [].
    + eexists. split; [done|]. split; [done|]. assert (values_below (Node (children n) val true (count n + 1)) = values_below n + 1) as Eb
        by (rewrite !values_below_eq; cbn [hasValue children count]; rewrite E; lia).
      split; [constructor; [rewrite Eb, values_below_eq; cbn [hasValue children count]; rewrite E; lia|done|done]|]. split; [done|]. by intros [].
  - set (child := match children n !! k with Some child => child | None => fresh_node zero end).
    assert (valid child) as Hvc. { unfold child. destruct (children n !! k) as [child'|] eqn:E; [|apply valid_fresh]. by destruct Hv as [_ Hch _], (Hch _ _ E). }
    assert (find n (k :: keys) = find child keys) as Ef.
    { rewrite find_cons. unfold child. destruct (children n !! k); [done|]. symmetry. by apply find_uncounted. }
    assert (match children n !! k with Some old => values_below old | None => 0 end = values_below child) as Eo by (unfold child; by destruct (children n !! k)).
    destruct (IH child Hvc) as (child' & H1 & H2 & H3 & H4 & H5). cbn [set_at]. fold child. destruct (set_at zero keys val child) as [c1 b] eqn:Es. cbn [snd] in *.
    rewrite Ef. assert (0 < values_below child') as Hpos by (apply (find_counted child' keys val); rewrite H5; by destruct (decide (keys = keys))).
    assert (forall c ks, find (Node (<[k := child']> (children n)) (value n) (hasValue n) c) ks = if decide (ks = k :: keys) then Some val else find n ks) as Hfind.
    { intros c ks. rewrite find_change. destruct ks as [|k' ks]; [done|]. destruct (decide (k' = k)) as [->|Hn].
      - rewrite H5. destruct (decide (ks = keys)) as [->|Hn]; [by rewrite decide_True|]. rewrite decide_False by congruence.
        rewrite find_cons. unfold child. destruct (children n !! k); [done|]. by apply find_uncounted.
      - rewrite decide_False; [done|congruence]. }
    pose proof Hv as [Hc _ _]. rewrite <- H2 in *. destruct b; cbn.
    + rewrite lookup_insert_eq. cbn. rewrite H1. cbn. rewrite insert_insert_eq. eexists. split; [done|]. split; [done|].
      destruct (valid_change n child' k (count n + 1) Hv H3 Hpos) as [Hv' Hb']; [rewrite Eo; lia|]. split; [done|]. split; [lia|done].
    + injection H1 as ->. eexists. split; [done|]. split; [done|].
      destruct (valid_change n child' k (count n) Hv H3 Hpos) as [Hv' Hb']; [rewrite Eo; lia|]. split; [done|]. split; [lia|done].
Qed.

Lemma delete_at_spec (n : node) keys : valid n ->
  match find n keys with
  | None => delete_at zero keys n = None
  | Some v => exists n', delete_at zero keys n = Some (v, n') /\ valid n' /\ values_below n' = values_below n - 1 /\
      forall ks, find n' ks = if decide (ks = keys) then None else find n ks
  end.
Proof.
  revert n. induction keys as [|k keys IH]; intros n Hv; pose proof Hv as [Hc Hch Hz].
  - unfold find at 1. cbn. destruct (hasValue n) eqn:E; [|done]. eexists. split; [done|].
    assert (values_below (Node (children n) zero false (count n - 1)) = values_below n - 1) as Eb by (rewrite !values_below_eq; cbn [hasValue children count]; rewrite E; lia).
    split; [constructor; [rewrite Eb; cbn [count]; lia|done|done]|]. split; [done|]. by intros [].
  - rewrite find_cons. cbn. destruct (children n !! k) as [child|] eqn:Ek; [|done]. cbn. destruct (Hch _ _ Ek) as [Hvc Hpc].
    specialize (IH child Hvc). destruct (find child keys) as [v|] eqn:Ef; [|by rewrite IH]. destruct IH as (child' & -> & Hv' & Hb & Hf). cbn.
    pose proof Hv' as [Hc' _ _]. pose proof (values_below_nonneg child'). eexists. split; [done|].
    assert (forall k' ks, k' :: ks <> k :: keys -> k' = k -> ks <> keys) as Hne by congruence.
    destruct (Z.leb_spec (count child') 0) as [Hz0|Hpos].
    + destruct (valid_remove n k (count n - 1) Hv) as [Hv2 Hb2]; [rewrite Ek; lia|]. split; [done|]. split; [lia|].
      intros [|k' ks]; rewrite find_remove; [done|]. destruct (decide (k' = k)) as [->|Hn]; [|by rewrite decide_False by congruence].
      destruct (decide (k :: ks = k :: keys)) as [|Hks]; [done|]. rewrite find_cons, Ek. cbn. symmetry.
      specialize (Hf ks). rewrite decide_False in Hf by congruence. rewrite <- Hf. apply find_uncounted. lia.
    + destruct (valid_change n child' k (count n - 1) Hv Hv') as [Hv2 Hb2]; [lia|rewrite Ek; lia|]. split; [done|]. split; [lia|].
      intros [|k' ks]; rewrite find_change; [done|]. destruct (decide (k' = k)) as [->|Hn]; [|by rewrite decide_False by congruence].
      rewrite Hf, find_cons, Ek. cbn. destruct (decide (ks = keys)) as [->|Hks]; [by rewrite decide_True|by rewrite decide_False by congruence].
Qed.

Lemma delete_prefix_at_spec (n : node) k prefix : valid n ->
  match walk_to (k :: prefix) n with
  | None => delete_prefix_at k prefix n = None
  | Some d => exists n', delete_prefix_at k prefix n = Some (values_below d, n') /\ valid n' /\ values_below n' = values_below n - values_below d /\
      forall ks, find n' ks = if decide (k :: prefix `prefix_of` ks) then None else find n ks
  end.
Proof.
  revert n k. induction prefix as [|k2 prefix IH]; intros n k Hv; pose proof Hv as [Hc Hch Hz]; cbn [walk_to delete_prefix_at].
  - destruct (children n !! k) as [child|] eqn:Ek; [|done]. cbn [mbind option_bind walk_to]. eexists. split; [done|].
    destruct (valid_remove n k (count n - values_below child) Hv) as [Hv2 Hb2]; [by rewrite Ek|]. split; [done|]. split; [lia|].
    intros [|k' ks]; rewrite find_remove; [by rewrite decide_False by (by intros ?%prefix_nil_not)|]. destruct (decide (k' = k)) as [->|Hn].
    + rewrite decide_True; [done|]. apply prefix_cons, prefix_nil.
    + rewrite decide_False; [done|]. intros E%prefix_cons_inv_1. congruence.
  - destruct (children n !! k) as [child|] eqn:Ek; [|done]. cbn [mbind option_bind]. destruct (Hch _ _ Ek) as [Hvc Hpc].
    rewrite <- (walk_to_cons child k2 prefix). specialize (IH child k2 Hvc). destruct (walk_to (k2 :: prefix) child) as [d|] eqn:Ed; [|by rewrite IH].
    destruct IH as (child' & -> & Hv' & Hb & Hf). cbn. pose proof Hv' as [Hc' _ _]. pose proof (values_below_nonneg child'). eexists. split; [done|].
    destruct (Z.eqb_spec (count child') 0) as [Hz0|Hpos].
    + destruct (valid_remove n k (count n - values_below d) Hv) as [Hv2 Hb2]; [rewrite Ek; lia|]. split; [done|]. split; [lia|].
      intros [|k' ks]; rewrite find_remove; [by rewrite decide_False by (by intros ?%prefix_nil_not)|]. destruct (decide (k' = k)) as [->|Hn].
      * rewrite find_cons, Ek. cbn. specialize (Hf ks). rewrite find_uncounted in Hf by lia.
        destruct (decide (k :: k2 :: prefix `prefix_of` k :: ks)) as [|Hks]; [done|]. rewrite decide_False in Hf; [done|]. contradict Hks. by apply prefix_cons.
      * rewrite decide_False; [done|]. intros E%prefix_cons_inv_1. congruence.
    + destruct (valid_change n child' k (count n - values_below d) Hv Hv') as [Hv2 Hb2]; [lia|rewrite Ek; lia|].
      split; [done|]. split; [lia|].
      intros [|k' ks]; rewrite find_change; [by rewrite decide_False by (by intros ?%prefix_nil_not)|]. destruct (decide (k' = k)) as [->|Hn].
      * rewrite Hf, find_cons, Ek. cbn. apply decide_ext. split; [apply prefix_cons|apply prefix_cons_inv_2].
      * rewrite decide_False; [done|]. intros E%prefix_cons_inv_1. congruence.
Qed.

(** ** Enumerations, from a node on *)

Lemma clone_id (n : node) : clone n = n.
Proof.
  induction n as [[ch v has c] IH] using node_induction. cbn in *. f_equal. revert IH.
  apply (map_fold_weak_ind (fun r m => (forall k child, m !! k = Some child -> clone child = child) -> r = m)); [done|].
  intros k child m r Hk IH Hm. rewrite IH; [|intros k' child' E; apply (Hm k'); rewrite lookup_insert_ne; [done|congruence]].
  by rewrite (Hm k child (lookup_insert_eq _ _ _)).
Qed.

Section Order.
Variable order : forall A : Type, list K -> list (K * A) -> list (K * A).
(** Go ranges over each child once. *)
Hypothesis order_permutes : forall A path (l : list (K * A)), order A path l ≡ₚ l.

Lemma map_fold_pairs {A B} (f : A -> B) (m : gmap K A) : map_fold (fun k x l => (k, f x) :: l) [] m = map (fun p => (p.1, f p.2)) (map_to_list m).
Proof. rewrite map_fold_foldr. induction (map_to_list m) as [|[k x] l IH]; [done|]. cbn. by rewrite IH. Qed.

Definition own_entry (n : node) (path : list K) : list (list K * V) := if hasValue n then [(path, value n)] else [].

Lemma bind_cons {A B} (f : A -> list B) x l : ((x :: l) ≫= f) = f x ++ (l ≫= f).
Proof. done. Qed.

Lemma bind_map {A B C} (f : A -> B) (g : B -> list C) l : (map f l ≫= g) = (l ≫= fun x => g (f x)).
Proof. exact (list_fmap_bind f g l). Qed.

Lemma map_bind {A B C} (f : A -> list B) (g : B -> C) l : map g (l ≫= f) = (l ≫= fun x => map g (f x)).
Proof. induction l as [|x l IH]; [done|]. cbn. rewrite map_app. by f_equal. Qed.

Lemma entries_perm (n : node) path :
  entries_at order n path ≡ₚ own_entry n path ++ (map_to_list (children n) ≫= fun p => entries_at order p.2 (path ++ [p.1])).
Proof.
  destruct n as [ch v has c]. cbn. apply Permutation_app_head. rewrite map_fold_pairs.
  rewrite (order_permutes _ path _). by rewrite bind_map.
Qed.

Lemma entries_elem (n : node) path ks v :
  (ks, v) ∈ entries_at order n path <-> exists rest, ks = path ++ rest /\ find n rest = Some v.
Proof.
  revert path. induction n as [n IH] using node_induction. intros path. rewrite entries_perm, elem_of_app, list_elem_of_bind. unfold own_entry. split.
  - intros [Ho|([k child] & Hin & Hk)]; [exists []; rewrite app_nil_r; unfold find; cbn|].
    + destruct (hasValue n); [|by apply elem_of_nil in Ho]. apply list_elem_of_singleton in Ho. by injection Ho as -> ->.
    + apply elem_of_map_to_list in Hk. cbn in Hin. apply (IH k child Hk) in Hin as (rest & -> & Hf). exists (k :: rest).
      rewrite <- app_assoc. split; [done|]. by rewrite find_cons, Hk.
  - intros ([|k rest] & -> & Hf).
    + left. rewrite app_nil_r. unfold find in Hf. cbn in Hf. destruct (hasValue n); [|done]. injection Hf as ->. by constructor.
    + right. rewrite find_cons in Hf. destruct (children n !! k) as [child|] eqn:Ek; [|done]. exists (k, child).
      split; [|by apply elem_of_map_to_list]. apply (IH k child Ek). exists rest. by rewrite <- app_assoc.
Qed.

Lemma entries_distinct (n : node) path : NoDup (entries_at order n path).*1.
Proof.
  revert path. induction n as [n IH] using node_induction. intros path. rewrite entries_perm, fmap_app. apply NoDup_app. split; [|split].
  - unfold own_entry. destruct (hasValue n); [apply NoDup_singleton|constructor].
  - intros ks Hks Hin. apply list_elem_of_fmap in Hin as ([ks' v] & -> & ([k child] & Hin & Hk)%list_elem_of_bind). cbn in Hin.
    apply entries_elem in Hin as (rest & -> & _). unfold own_entry in Hks. destruct (hasValue n); [|by apply elem_of_nil in Hks].
    apply list_elem_of_singleton in Hks. cbn in Hks. apply (f_equal length) in Hks. rewrite !length_app in Hks. cbn in Hks. lia.
  - change (NoDup (map fst (map_to_list (children n) ≫= fun p => entries_at order p.2 (path ++ [p.1])))). rewrite map_bind. apply NoDup_bind; [|intros [k child] Hk; apply (IH k), elem_of_map_to_list, Hk|apply NoDup_map_to_list].
    intros [k1 c1] [k2 c2] ks H1 H2 ([? v1] & -> & E1)%list_elem_of_fmap ([ks2 v2] & E & E2)%list_elem_of_fmap. cbn in *.
    apply entries_elem in E1 as (r1 & -> & _), E2 as (r2 & -> & _). subst. rewrite <- !app_assoc in E. apply app_inv_head in E. injection E as -> _.
    apply elem_of_map_to_list in H1, H2. by rewrite H1 in H2; injection H2 as ->.
Qed.

Lemma entries_counted (n : node) path : Z.of_nat (length (entries_at order n path)) = values_below n.
Proof.
  revert path. induction n as [n IH] using node_induction. intros path. rewrite entries_perm, length_app, values_below_eq.
  assert (forall l : list (K * node), (forall k child, (k, child) ∈ l -> forall path, Z.of_nat (length (entries_at order child path)) = values_below child) ->
    Z.of_nat (length (l ≫= fun p => entries_at order p.2 (path ++ [p.1]))) = foldr (fun p total => values_below p.2 + total) 0 l) as Hl.
  { induction l as [|[k child] l IHl]; intros Hc; [done|]. rewrite bind_cons, length_app, Nat2Z.inj_add, IHl; [cbn; by rewrite (Hc k child) by constructor|].
    intros k' child' Hk'. apply (Hc k'). by constructor. }
  rewrite Nat2Z.inj_add, Hl by (intros k child Hk%elem_of_map_to_list; by apply (IH k)). unfold own_entry, map_sum. rewrite map_fold_foldr.
  f_equal; [by destruct (hasValue n)|]. clear. induction (map_to_list (children n)) as [|[k c] l IH]; [done|]. cbn. by rewrite IH.
Qed.

(** ** Callbacks *)

(** A callback over a list, until it answers false. *)
Fixpoint visit {S : Type} (fn : list K -> V -> S -> S * bool) (l : list (list K * V)) (s : S) : S * bool :=
  match l with
  | [] => (s, true)
  | (ks, v) :: l => let '(s, go) := fn ks v s in if negb go then (s, false) else visit fn l s
  end.

Lemma visit_through {S} (fn : list K -> V -> S -> S * bool) l l' s :
  visit fn (l ++ l') s = let '(s, go) := visit fn l s in if negb go then (s, false) else visit fn l' s.
Proof.
  revert s. induction l as [|[ks v] l IH]; intros s; [done|]. cbn. destruct (fn ks v s) as [s' go]. destruct go; cbn; [apply IH|done].
Qed.

Lemma range_visits {S} (fn : list K -> V -> S -> S * bool) (n : node) path :
  exists l, l ≡ₚ entries_at order n path /\ forall s, range_at order fn n path s = visit fn l s.
Proof.
  revert path. induction n as [n IH] using node_induction. intros path.
  pose proof (order_permutes _ path (map_fold (fun k child l => (k, range_at order fn child) :: l) [] (children n))) as Hp.
  rewrite map_fold_pairs in Hp. apply Permutation_map_inv in Hp as (l0 & E & Hp).
  assert (exists l, l ≡ₚ (l0 ≫= fun p => entries_at order p.2 (path ++ [p.1])) /\ forall s,
    (fix loop (l : list (K * (list K -> S -> S * bool))) (s : S) : S * bool :=
       match l with
       | [] => (s, true)
       | (k, f) :: l => let '(s, go) := f (path ++ [k]) s in if negb go then (s, false) else loop l s
       end) (map (fun p => (p.1, range_at order fn p.2)) l0) s = visit fn l s) as (l & Hl & Hv).
  { assert (forall k child, (k, child) ∈ l0 -> children n !! k = Some child) as Hc.
    { intros k child Hk. apply elem_of_map_to_list. by rewrite Hp. }
    clear E Hp. induction l0 as [|[k child] l0 IHl]; [by exists []|]. destruct IHl as (l & Hl & Hv); [intros k' child' Hk'; apply Hc; by constructor|].
    destruct (IH k child) with (path := path ++ [k]) as (lc & Hlc & Hvc); [apply Hc; by constructor|]. exists (lc ++ l). split.
    - rewrite bind_cons. cbn [fst snd]. by rewrite Hlc, Hl.
    - intros s. cbn. rewrite Hvc, visit_through. destruct (visit fn lc s) as [s' go]. destruct go; [apply Hv|done]. }
  exists (own_entry n path ++ l). split; [by rewrite entries_perm, Hl, Hp|].
  intros s. rewrite visit_through. unfold own_entry. destruct n as [ch v has c]. cbn in *. rewrite map_fold_pairs, E.
  destruct has; cbn; [|apply Hv]. destruct (fn path v s) as [s' go]. destruct go; [apply Hv|done].
Qed.
End Order.

(** ** Along a path *)

Lemma ancestors_listed (n : node) path keys :
  ancestors_from path keys n = (seq 1 (length keys) ≫= fun i => option_list (pair (path ++ take i keys) <$> find n (take i keys))).
Proof.
  revert n path. induction keys as [|k keys IH]; intros n path; [done|]. cbn [length ancestors_from].
  change (seq 1 (S (length keys))) with (1%nat :: seq 2 (length keys)). rewrite <- seq_shift, bind_cons, bind_map.
  cbn [take]. assert (forall ks, find n (k :: ks) = child ← children n !! k; find child ks) as Hf by apply find_cons.
  destruct (children n !! k) as [child|] eqn:Ek; cbn [mbind option_bind] in Hf.
  - rewrite IH, take_0. f_equal; [rewrite Hf; unfold find; cbn; by destruct (hasValue child)|].
    apply list_bind_ext; [|done]. intros i. by rewrite Hf, <- app_assoc.
  - assert (forall l : list nat, (l ≫= fun i => option_list (pair (path ++ k :: take i keys) <$> find n (k :: take i keys))) = []) as Hnone.
    { induction l as [|i l IHl]; [done|]. rewrite bind_cons, Hf. exact IHl. }
    by rewrite Hf, Hnone.
Qed.

(** The longest of the prefixes that have a value. *)
Lemma longest_listed (n : node) path keys found :
  longest_from path keys n found = default found (last (map (fun e => (e, true)) (ancestors_from path keys n))).
Proof.
  revert n path found. induction keys as [|k keys IH]; intros n path found; [done|]. cbn. destruct (children n !! k) as [child|]; [|done].
  rewrite IH, map_app. destruct (hasValue child); cbn; [|done]. rewrite last_cons. by destruct (last _).
Qed.
End Nodes.

(** ** Tries *)

Section Tries.
Context {K V : Type} `{Countable K}.
Variable zero : V.
Local Abbreviation node := (node K V).
Local Abbreviation Trie := (Trie K V).
Local Abbreviation sequences := (gmap (list K) V).

(** The trie stands for the map. *)
Record represents (t : Trie) (m : sequences) : Prop := {
  rep_size : size t = Z.of_nat (base.size m);
  rep_root : match root t with
             | None => m = ∅
             | Some n => valid zero n /\ m <> ∅ /\ forall ks, find n ks = m !! ks
             end }.

Definition under (prefix : list K) (m : sequences) : sequences := filter (fun e => prefix `prefix_of` e.1) m.
Definition outside (prefix : list K) (m : sequences) : sequences := filter (fun e => ~ prefix `prefix_of` e.1) m.

Lemma represents_New : represents New ∅.
Proof. by constructor. Qed.

(** A trie that is not empty, of its root. *)
Lemma represents_root (n : node) (m : sequences) s : valid zero n -> (forall ks, find n ks = m !! ks) -> m <> ∅ -> s = Z.of_nat (base.size m) ->
  represents (mkTrie (Some n) s) m.
Proof. by constructor. Qed.

Section Enumerations.
Variable order : forall A : Type, list K -> list (K * A) -> list (K * A).
Hypothesis order_permutes : forall A path (l : list (K * A)), order A path l ≡ₚ l.

Lemma entries_of_map (n : node) (prefix : list K) (m : sequences) : (forall ks v, m !! ks = Some v <-> exists rest, ks = prefix ++ rest /\ find n rest = Some v) ->
  entries_at order n prefix ≡ₚ map_to_list m.
Proof.
  intros Hm. apply NoDup_Permutation; [by eapply NoDup_fmap_1, entries_distinct|apply NoDup_map_to_list|].
  intros [ks v]. rewrite entries_elem, elem_of_map_to_list by done. by rewrite Hm.
Qed.

Lemma below_of_map (n : node) (prefix : list K) (m : sequences) : (forall ks v, m !! ks = Some v <-> exists rest, ks = prefix ++ rest /\ find n rest = Some v) ->
  values_below n = Z.of_nat (base.size m).
Proof. intros Hm. rewrite <- (entries_counted order order_permutes n prefix), (entries_of_map n prefix m Hm). by rewrite length_map_to_list. Qed.

Lemma under_walk (n : node) (prefix : list K) (m : sequences) : (forall ks, find n ks = m !! ks) ->
  match walk_to prefix n with
  | Some d => forall ks v, under prefix m !! ks = Some v <-> exists rest, ks = prefix ++ rest /\ find d rest = Some v
  | None => under prefix m = ∅
  end.
Proof.
  intros Hm. assert (forall rest, find n (prefix ++ rest) = d ← walk_to prefix n; find d rest) as Hf.
  { intros rest. unfold find. rewrite walk_to_app. by destruct (walk_to prefix n). }
  destruct (walk_to prefix n) as [d|]; cbn [mbind option_bind] in Hf.
  - intros ks v. unfold under. rewrite map_lookup_filter_Some. cbn [fst]. split.
    + intros [Hks [rest ->]]. exists rest. split; [done|]. by rewrite <- Hf, Hm.
    + intros (rest & -> & Hr). rewrite <- Hm, Hf. split; [done|]. by exists rest.
  - apply map_eq. intros ks. rewrite lookup_empty. apply map_lookup_filter_None. right. cbn [fst]. intros v Hv [rest ->]. by rewrite <- Hm, Hf in Hv.
Qed.
End Enumerations.

(** Go may range over the children in the order the map lists them. *)
Definition listed_order (A : Type) (path : list K) (l : list (K * A)) : list (K * A) := l.

Lemma listed_permutes A path l : listed_order A path l ≡ₚ l.
Proof. done. Qed.

Lemma below_size (n : node) (m : sequences) : (forall ks, find n ks = m !! ks) -> values_below n = Z.of_nat (base.size m).
Proof.
  intros Hm. apply (below_of_map listed_order listed_permutes n []). intros ks v. rewrite <- Hm. split; [by exists ks|by intros (? & -> & ?)].
Qed.

Lemma drop_represents (n : node) (m : sequences) s : valid zero n -> (forall ks, find n ks = m !! ks) -> m !! [] = None -> s = Z.of_nat (base.size m) ->
  represents (mkTrie (drop_root n) s) m.
Proof.
  intros Hv Hm Hnil Hs. unfold drop_root. case_bool_decide as Hch.
  - constructor; [done|]. cbn. apply map_eq. intros [|k ks]; [done|]. by rewrite <- Hm, find_cons, Hch.
  - apply represents_root; [done..| |done]. intros ->. apply Hch. pose proof (below_size n ∅ Hm) as Hb. rewrite map_size_empty in Hb.
    apply map_eq. intros k. destruct (children n !! k) as [child|] eqn:E; [|done]. destruct Hv as [_ Hc _].
    pose proof (values_below_child n child k E). destruct (Hc k child E). lia.
Qed.

Lemma size_outside (prefix : list K) (m : sequences) : Z.of_nat (base.size (outside prefix m)) = Z.of_nat (base.size m) - Z.of_nat (base.size (under prefix m)).
Proof.
  rewrite <- (map_filter_union_complement (fun e => prefix `prefix_of` e.1) m) at 2.
  rewrite map_size_disj_union by apply map_disjoint_filter_complement. unfold outside, under. lia.
Qed.

Lemma walk_valid (n : node) keys : valid zero n -> match walk_to keys n with Some n => valid zero n | None => True end.
Proof.
  revert n. induction keys as [|k keys IH]; intros n Hv; [done|]. cbn. destruct (children n !! k) as [child|] eqn:E; [|done].
  apply IH. destruct Hv as [_ Hc _]. by apply (Hc k).
Qed.

Lemma Get_represents (t : Trie) (m : sequences) (keys : list K) : represents t m -> Get zero keys t = (default zero (m !! keys), bool_decide (is_Some (m !! keys))).
Proof.
  intros [_ Hr]. unfold Get. destruct (root t) as [n|]; [|subst; by rewrite lookup_empty]. destruct Hr as (Hv & _ & Hm). rewrite <- Hm.
  unfold find. pose proof (walk_valid n keys Hv) as Hw.
  destruct (walk_to keys n) as [d|]; [|done]. cbn. destruct Hw as [_ _ Hz]. destruct (hasValue d); [done|]. by rewrite Hz.
Qed.

Lemma Put_represents (t : Trie) (m : sequences) (keys : list K) val : represents t m ->
  exists t', Put zero keys val t = Some (bool_decide (m !! keys = None), t') /\ represents t' (<[keys := val]> m).
Proof.
  intros [Hs Hr]. unfold Put, put. set (n := match root t with Some n => n | None => fresh_node zero end).
  assert (valid zero n /\ forall ks, find n ks = m !! ks) as [Hv Hm].
  { unfold n. destruct (root t) as [r|]; [by destruct Hr as (? & _ & ?)|]. subst m. split; [apply valid_fresh|]. intros ks. by apply find_uncounted. }
  destruct (put_at zero n keys val Hv) as (n' & H1 & H2 & H3 & H4 & H5). rewrite Hm in H2.
  assert (forall ks, find n' ks = <[keys := val]> m !! ks) as Hm'.
  { intros ks. rewrite H5. destruct (decide (ks = keys)) as [->|Hn]; [by rewrite lookup_insert_eq|by rewrite lookup_insert_ne]. }
  destruct (set_at zero keys val n) as [n1 b]. cbn in H2. rewrite <- H2. symmetry in H2. destruct b; [apply bool_decide_eq_true in H2 as Hk|apply bool_decide_eq_false in H2 as Hk].
  - rewrite H1. cbn. eexists. split; [done|]. apply represents_root; [done..|apply insert_non_empty|]. rewrite map_size_insert_None by done. lia.
  - injection H1 as ->. eexists. split; [done|]. apply represents_root; [done..|apply insert_non_empty|].
    rewrite map_size_insert_Some; [done|]. by apply not_eq_None_Some.
Qed.

Lemma Delete_represents (t : Trie) (m : sequences) (keys : list K) : represents t m -> m !! [] = None ->
  let '(answer, t') := Delete zero keys t in
  answer = (default zero (m !! keys), bool_decide (is_Some (m !! keys))) /\ represents t' (base.delete keys m).
Proof.
  intros Ht Hnil. pose proof Ht as [Hs Hr]. unfold Delete. destruct keys as [|k keys]; [rewrite Hnil; by rewrite delete_id|].
  destruct (root t) as [n|] eqn:En; [|subst m; by rewrite delete_empty]. destruct Hr as (Hv & _ & Hm).
  pose proof (delete_at_spec zero n (k :: keys) Hv) as Hd. rewrite Hm in Hd. destruct (m !! (k :: keys)) as [v|] eqn:Ev.
  - destruct Hd as (n' & -> & Hv' & _ & Hf). split; [done|]. apply drop_represents; [done| | |].
    + intros ks. rewrite Hf. destruct (decide (ks = k :: keys)) as [->|Hn]; [by rewrite lookup_delete_eq|by rewrite lookup_delete_ne].
    + by rewrite lookup_delete_ne.
    + rewrite Hs, (map_size_delete_Some (k :: keys) m) by done. pose proof (map_size_ne_0_lookup_2 m (k :: keys) ltac:(by rewrite Ev)). lia.
  - rewrite Hd. split; [done|]. by rewrite delete_id.
Qed.

Lemma DeletePrefix_represents (t : Trie) (m : sequences) (prefix : list K) : represents t m -> m !! [] = None -> prefix <> [] ->
  let '(answer, t') := DeletePrefix prefix t in answer = Z.of_nat (base.size (under prefix m)) /\ represents t' (outside prefix m).
Proof.
  intros Ht Hnil Hp. pose proof Ht as [Hs Hr]. unfold DeletePrefix. destruct prefix as [|k prefix]; [done|].
  assert (under (k :: prefix) m = ∅ -> 0 = Z.of_nat (base.size (under (k :: prefix) m)) /\ represents t (outside (k :: prefix) m)) as Hnone.
  { intros E. rewrite E. split; [done|]. replace (outside (k :: prefix) m) with m; [done|].
    rewrite <- (map_filter_union_complement (fun e => k :: prefix `prefix_of` e.1) m) at 1. unfold under in E. by rewrite E, (left_id_L ∅ _). }
  destruct (root t) as [n|] eqn:En; [|apply Hnone; subst m; apply map_filter_empty]. destruct Hr as (Hv & _ & Hm).
  pose proof (delete_prefix_at_spec zero n k prefix Hv) as Hd. pose proof (under_walk n (k :: prefix) m Hm) as Hu.
  destruct (walk_to (k :: prefix) n) as [d|]; [|rewrite Hd; by apply Hnone]. destruct Hd as (n' & -> & Hv' & _ & Hf).
  apply (below_of_map listed_order listed_permutes) in Hu. split; [done|]. apply drop_represents; [done| | |].
  - intros ks. rewrite Hf. unfold outside. destruct (decide (k :: prefix `prefix_of` ks)) as [Hk|Hk]; symmetry.
    + apply map_lookup_filter_None. right. intros v _ Hn. by apply Hn.
    + rewrite Hm. destruct (m !! ks) as [v|] eqn:E; [by apply map_lookup_filter_Some|by apply map_lookup_filter_None; left].
  - apply map_lookup_filter_None. by left.
  - rewrite size_outside. lia.
Qed.

(** C39: while the empty sequence is not among its keys, a trie is a map from
    sequences to values: a put never dereferences nil and tells whether the
    key is new, a get and a delete answer the value of the key, a delete by a
    prefix answers how many keys start with it, and each leaves the trie of
    the map it should; the size is that of the map.  The empty sequence is
    only in the way of deletes. *)
Theorem trie_refines_map (t : Trie) (m : sequences) (keys : list K) val (Hrep : represents t m) :
  (exists t', Put zero keys val t = Some (bool_decide (m !! keys = None), t') /\ represents t' (<[keys := val]> m)) /\
  Get zero keys t = (default zero (m !! keys), bool_decide (is_Some (m !! keys))) /\
  (Size t = Z.of_nat (base.size m) /\ IsEmpty t = bool_decide (m = ∅) /\ Clone t = t /\ represents (Clear t) ∅) /\
  (m !! [] = None ->
    (let '(answer, t') := Delete zero keys t in
     answer = (default zero (m !! keys), bool_decide (is_Some (m !! keys))) /\ represents t' (base.delete keys m)) /\
    (keys <> [] ->
     let '(answer, t') := DeletePrefix keys t in
     answer = Z.of_nat (base.size (under keys m)) /\ represents t' (outside keys m))).
Proof.
  split; [by apply Put_represents|]. split; [by apply Get_represents|]. split; [|by split; [apply Delete_represents|apply DeletePrefix_represents]].
  pose proof Hrep as [Hs Hr]. split; [done|]. split; [|split; [|by constructor]].
  - unfold IsEmpty. rewrite Hs. apply eq_bool_prop_intro. rewrite bool_decide_spec, <- map_size_empty_iff. destruct (Z.eqb_spec (Z.of_nat (base.size m)) 0); cbn; [split; [lia|done]|].
    split; [done|lia].
  - destruct t as [[n|] s]; unfold Clone; cbn in *; [by rewrite clone_id|]. by rewrite Hs, Hr.
Qed.

(** ** Enumerations *)

Lemma put_all_inserts (l : list (list K * V)) (t : Trie) (m : sequences) : represents t m ->
  exists t', put_all zero l t = Some t' /\ represents t' (fold_left (fun m e => <[e.1 := e.2]> m) l m).
Proof.
  revert t m. induction l as [|[ks v] l IH]; intros t m Ht; [by exists t|]. cbn.
  destruct (Put_represents t m ks v Ht) as (t1 & E & H1). unfold Put in E. rewrite E. cbn. by apply IH.
Qed.

Lemma insert_all (l : list (list K * V)) (m : sequences) : l ≡ₚ map_to_list m -> fold_left (fun m e => <[e.1 := e.2]> m) l ∅ = m.
Proof.
  intros Hl. transitivity (list_to_map (M := sequences) (rev l)).
  - unfold list_to_map. symmetry. rewrite <- fold_left_rev_right. reflexivity.
  - rewrite <- (list_to_map_to_list m). apply list_to_map_proper; [|by rewrite <- Permutation_rev].
    rewrite <- Permutation_rev, Hl. apply NoDup_fst_map_to_list.
Qed.

Section Ranges.
Variable order : forall A : Type, list K -> list (K * A) -> list (K * A).
Hypothesis order_permutes : forall A path (l : list (K * A)), order A path l ≡ₚ l.

Lemma KeysValues_represents (t : Trie) (m : sequences) : represents t m -> KeysValues order t ≡ₚ map_to_list m.
Proof.
  intros [_ Hr]. unfold KeysValues, keysValues. destruct (root t) as [n|]; [|subst; by rewrite map_to_list_empty]. destruct Hr as (_ & _ & Hm).
  apply entries_of_map; [done|]. intros ks v. rewrite <- Hm. split; [by exists ks|by intros (? & -> & ?)].
Qed.

Lemma PrefixKeysValues_represents (t : Trie) (m : sequences) (prefix : list K) : represents t m -> prefix <> [] ->
  PrefixKeysValues order prefix t ≡ₚ map_to_list (under prefix m) /\
  PrefixCount prefix t = if bool_decide (m = ∅) then None else Some (Z.of_nat (base.size (under prefix m))).
Proof.
  intros [_ Hr] Hp. unfold PrefixKeysValues, PrefixCount. destruct prefix as [|k prefix]; [done|]. destruct (root t) as [n|].
  - destruct Hr as (Hv & Hne & Hm). rewrite bool_decide_false by done. pose proof (under_walk n (k :: prefix) m Hm) as Hu.
    assert (match walk_to (k :: prefix) n with Some d => valid zero d | None => True end) as Hd by by apply walk_valid.
    destruct (walk_to (k :: prefix) n) as [d|]; [|by rewrite Hu, map_to_list_empty, map_size_empty].
    split; [by apply entries_of_map|]. destruct Hd as [-> _ _]. f_equal. by apply (below_of_map order order_permutes d (k :: prefix)).
  - subst m. rewrite bool_decide_true by done. unfold under. by rewrite map_filter_empty, map_to_list_empty.
Qed.

Lemma put_all_represents (t : Trie) (m : sequences) : represents t m ->
  exists t', (t' ← put_all zero (keysValues order t) (mkTrie None 0); Some (true, t')) = Some (true, t') /\ represents t' m.
Proof.
  intros Ht. pose proof (KeysValues_represents t m Ht) as Hl. unfold KeysValues in Hl.
  destruct (put_all_inserts (keysValues order t) New ∅ represents_New) as (t' & E & Ht'). unfold New in E. rewrite E. exists t'.
  by rewrite (insert_all _ m Hl) in Ht'.
Qed.

(** The values of the prefixes of a key, from one of [i] keys on. *)
Definition along (i : nat) (keys : list K) (m : sequences) : list (list K * V) :=
  seq i (S (length keys) - i) ≫= fun j => option_list (pair (take j keys) <$> m !! take j keys).

Lemma ancestors_represents (n : node) (m : sequences) (keys : list K) : (forall ks, find n ks = m !! ks) -> ancestors_from [] keys n = along 1 keys m.
Proof.
  intros Hm. rewrite ancestors_listed. unfold along. cbn [Nat.sub]. rewrite Nat.sub_0_r. apply list_bind_ext; [|done]. intros i. by rewrite <- Hm.
Qed.

Lemma along_empty i keys : along i keys ∅ = [].
Proof. unfold along. induction (seq _ _) as [|j l IH]; [done|]. rewrite bind_cons, lookup_empty. exact IH. Qed.

Lemma along_all (keys : list K) (m : sequences) : along 0 keys m = option_list (pair [] <$> m !! []) ++ along 1 keys m.
Proof. unfold along. cbn [Nat.sub seq]. by rewrite bind_cons, Nat.sub_0_r. Qed.

(** The enumerations of a trie are those of its map, in whichever order Go
    ranges over the children: all entries, and those under a prefix, each
    once; the count of a prefix is how many keys start with it, where there
    is any key at all; a range calls its function on the entries until it
    answers false; the ancestors of a key are the prefixes of it with a
    value, the shortest first, and its longest prefix the last of them that
    is not empty.  Text that reads back as it was written gives the trie
    back. *)
Theorem trie_lists_map (t : Trie) (m : sequences) (keys : list K) (Hrep : represents t m) :
  KeysValues order t ≡ₚ map_to_list m /\ Keys order t ≡ₚ (map_to_list m).*1 /\ Values order t ≡ₚ (map_to_list m).*2 /\
  (forall (S : Type) fn (s : S), exists l, l ≡ₚ map_to_list m /\ Range order fn t s = fst (visit fn l s)) /\
  (keys <> [] ->
    PrefixKeysValues order keys t ≡ₚ map_to_list (under keys m) /\
    PrefixCount keys t = (if bool_decide (m = ∅) then None else Some (Z.of_nat (base.size (under keys m)))) /\
    PathAncestors keys t = along 0 keys m /\
    LongestPrefix zero keys t = default ([], zero, false) (last (map (fun e => (e, true)) (along 1 keys m)))) /\
  forall marshal unmarshal, (forall l data, marshal l = Some data -> unmarshal data = Some l) ->
    forall data t0, MarshalJSON order marshal t = Some data -> exists t', UnmarshalJSON zero unmarshal data t0 = Some (true, t') /\ represents t' m.
Proof.
  pose proof (KeysValues_represents t m Hrep) as Hkv. split; [done|]. split; [|split; [|split; [|split]]].
  - rewrite <- Hkv. unfold Keys, KeysValues, keysValues. by destruct (root t).
  - rewrite <- Hkv. unfold Values, KeysValues, keysValues. by destruct (root t).
  - intros S fn s. unfold Range. unfold KeysValues, keysValues in Hkv. destruct (root t) as [n|]; [|by exists []].
    destruct (range_visits order order_permutes fn n []) as (l & Hl & Hv). exists l. split; [by rewrite Hl|by rewrite Hv].
  - intros Hk. destruct (PrefixKeysValues_represents t m keys Hrep Hk) as [H1 H2]. split; [done|]. split; [done|].
    destruct Hrep as [_ Hr]. unfold PathAncestors, LongestPrefix. destruct keys as [|k keys]; [done|].
    destruct (root t) as [n|]; [|subst m; by rewrite !along_empty]. destruct Hr as (_ & _ & Hm).
    rewrite along_all, longest_listed, !(ancestors_represents n m) by done. split; [|done]. f_equal. rewrite <- Hm. unfold find. cbn. by destruct (hasValue n).
  - intros marshal unmarshal Hj data t0 Hd. unfold UnmarshalJSON. rewrite (Hj _ _ Hd). by apply put_all_represents.
Qed.
End Ranges.
End Tries.

(** ** Runs *)

Definition put_each (l : list (list nat * nat)) : Trie nat nat := default New (put_all 0%nat l New).

Lemma put_each_represents l : represents 0%nat (put_each l) (fold_left (fun m e => <[e.1 := e.2]> m) l ∅).
Proof.
  unfold put_each. destruct (put_all_inserts 0%nat l New ∅ (represents_New 0%nat)) as (t & E & Ht). by rewrite E.
Qed.

(** Three words over numbers: one begins another, and two branch. *)
Definition words : list (list nat * nat) := [([1; 2], 10); ([1; 2; 3], 20); ([1; 4], 30)]%nat.
Definition words_map : gmap (list nat) nat := fold_left (fun m e => <[e.1 := e.2]> m) words ∅.

Lemma trie_refines_map_witness :
  (Delete 0%nat [1; 2]%nat (put_each words)).1 = (10%nat, true) /\ (DeletePrefix [1; 2]%nat (put_each words)).1 = 2.
Proof.
  destruct (trie_refines_map 0%nat (put_each words) words_map [1; 2]%nat 5%nat (put_each_represents words)) as (_ & _ & _ & Hd).
  destruct (Hd ltac:(vm_compute; reflexivity)) as [H1 H2]. specialize (H2 ltac:(done)).
  destruct (Delete _ _ _) as [a1 t1], (DeletePrefix _ _) as [a2 t2]. destruct H1 as [-> _], H2 as [-> _]. split; vm_compute; reflexivity.
Defined.

Definition backwards (A : Type) (path : list nat) (l : list (nat * A)) : list (nat * A) := rev l.

Lemma backwards_permutes A path (l : list (nat * A)) : backwards A path l ≡ₚ l.
Proof. symmetry. apply Permutation_rev. Qed.

Lemma trie_lists_map_witness :
  PathAncestors [1; 2; 3; 9]%nat (put_each words) = [([1; 2], 10); ([1; 2; 3], 20)]%nat /\
  LongestPrefix 0%nat [1; 2; 3; 9]%nat (put_each words) = ([1; 2; 3], 20, true)%nat /\ PrefixCount [1; 2]%nat (put_each words) = Some 2.
Proof.
  destruct (trie_lists_map 0%nat backwards backwards_permutes (put_each words) words_map [1; 2; 3; 9]%nat (put_each_represents words))
    as (_ & _ & _ & _ & Ha & _). destruct (Ha ltac:(done)) as (_ & _ & -> & ->).
  destruct (trie_lists_map 0%nat backwards backwards_permutes (put_each words) words_map [1; 2]%nat (put_each_represents words))
    as (_ & _ & _ & _ & Hp & _). destruct (Hp ltac:(done)) as (_ & -> & _ & _). split; [|split]; vm_compute; reflexivity.
Defined.

(** ** What is left out *)

(** A delete that leaves no key but the empty one drops the root, and with it
    the value of the empty one; the size still counts it. *)
Theorem empty_sequence_is_lost :
  let t := put_each [([], 7); ([1], 8)]%nat in
  Get 0%nat [] t = (7, true)%nat /\
  let t' := snd (Delete 0%nat [1]%nat t) in
  Get 0%nat [] t' = (0, false)%nat /\ Size t' = 1 /\ IsEmpty t' = false /\ KeysValues listed_order t' = [].
Proof. vm_compute. tauto. Qed.

(** So does a delete by a prefix. *)
Theorem empty_sequence_is_lost_by_prefix :
  let t' := snd (DeletePrefix [1]%nat (put_each [([], 7); ([1; 2], 8)]%nat)) in Get 0%nat [] t' = (0, false)%nat /\ Size t' = 1.
Proof. vm_compute. tauto. Qed.

(** The count of a prefix dereferences the root of an empty trie, one that is
    new, cleared or whose last key was deleted. *)
Theorem empty_trie_has_no_counts :
  PrefixCount [1]%nat (New (V := nat)) = None /\ PrefixCount [1]%nat (Clear (put_each words)) = None /\
  PrefixCount [1]%nat (snd (Delete 0%nat [1]%nat (put_each [([1], 8)]%nat))) = None.
Proof. vm_compute. tauto. Qed.
